(* ===== verification/_CoqProject ===== *)
-Q . S2P
Prelude.v
RustStr.v
Kmp.v
PatchApply.v
PatchUnified.v
PatchCodex.v
Patch.v
Edit.v
Errors.v
Inputs.v
SessionSteps.v
SessionLive.v
Results.v
Diff.v
DiffPage.v
Time.v
Preview.v
PreviewJson.v
PreviewShown.v
PreviewObserver.v
Sse.v
Usage.v
Json.v
Stream.v
StreamProtocol.v
Projection.v
CompactionState.v
Threshold.v
Recovery.v
History.v
HistoryDurable.v
HistoryPage.v
ToolRecord.v
ToolPage.v
ToolFollow.v
ToolStored.v
ToolData.v
ToolBudget.v
Status.v
StatusParse.v
Changes.v
ChangePages.v
ChangeFollow.v
RecordFiles.v
RecordStore.v
RecordDisk.v
RecordReads.v
Scan.v
ScanOrder.v
ScanWalk.v
ScanCursor.v
Listing.v
ListingPage.v
ListingFollow.v
Search.v
SearchLine.v
SearchFile.v
SearchWalk.v
SearchFollow.v
Query.v
QueryFollow.v
Pack.v
PackSpec.v
TurnPage.v
TurnFollow.v
