(* ===== verification/Prelude.v ===== *)
(** MiniCore Agent: a verification library.

    MiniCore Agent is a coding agent written in Rust ([src/src]).  A client opens
    sessions over JSON-RPC; a session queues inputs, runs them as turns of the
    [minicore_runtime] loop against a model provider, lets the model call tools on a
    workspace, keeps the history within the context window of the model by
    compaction, and serves diffs, results and previews.  The library models the parts
    whose correctness is a matter of the agent's own logic.

    ** Files and sources

    Every definition keeps the name of the function or type it translates where the
    language allows it; a loop of a function is a fixpoint beside it.

    - [Prelude]: Rust's [Result], [Option] and machine integers, the state and error
      monad [stm], the tactics and the list lemmas all files share.
    - [RustStr]: strings as lists of scalar values with UTF-8 lengths, and the
      operations of the standard library the sources call, with their contracts.
    - [Kmp]: borders of a pattern and the table search, without the program.
    - [PatchApply], [PatchUnified], [PatchCodex], [Patch]: [tools/apply_patch].
      [PatchApply] replays hunks on lines ([apply.rs]); [PatchUnified] parses unified
      diffs ([unified.rs]); [PatchCodex] parses and locates Codex hunks ([codex.rs]);
      [Patch] chooses the dialect and states what the whole does to a file.
    - [Edit]: [tools/edit.rs], guards, literal replacement, the answer.
    - [Errors]: the error values of [error.rs].
    - [Inputs]: the queue of a session and every critical section under its lock
      ([sessions/inputs.rs], and from [sessions.rs], [sessions/active_loop.rs] and
      [sessions/compact.rs] what takes the same lock).
    - [SessionSteps]: the interleavings of these sections as a step relation;
      [SessionLive]: what a session can always still do.
    - [Results]: the catalog of turn results ([sessions/results.rs]) with its shared,
      reference-counted sources on an explicit heap.
    - [Diff], [DiffPage]: [diff.rs], planning and paging.
    - [Time]: [store/time.rs], timestamps and the calendar.
    - [Preview], [PreviewJson], [PreviewShown], [PreviewObserver]: the incremental
      JSON parser [presentation/preview/parser.rs], a grammar of JSON, what is shown
      of an object, and the observer [presentation/preview.rs] of a model stream.
    - [Sse]: [models/openai/sse.rs], server-sent events.
    - [Json]: the values of [serde_json] and their accessors.  [Stream]: the state of a
      provider's answer and the handlers of its frames, [models/openai/stream.rs] with
      [reasoning.rs], [terminal.rs], [tools.rs], [replay.rs] and [errors.rs];
      [StreamProtocol]: what a consumer of its events relies on.
    - [Usage]: token accounting ([compaction/utility.rs], [presentation/state.rs]).
    - [Projection]: which history may be replaced and how the reduced request is put
      together ([compaction/projection.rs]).
    - [CompactionState]: the locks and tickets of [compaction.rs] and
      [compaction/recovery/ticket.rs].
    - [Threshold]: automatic compaction, [compaction/threshold.rs].
    - [Recovery]: recovery from a refused request, [compaction/recovery.rs].
    - [History]: the history file of a session, [store/history.rs] with the records of
      [store.rs]: appending, loading, the index; [HistoryDurable]: its life under
      failures and crashes; [HistoryPage]: reading pages by the index or by a scan.
    - [ToolRecord]: the facts kept of one tool call, [tool_data/record.rs] and
      [tool_data/types.rs]; [ToolPage]: pages of its output, [tool_data/paging.rs], and
      the choice between memory and disk, [tool_data/read.rs]; [ToolFollow]: a client
      that follows a process; [ToolStored]: a call that was persisted; [ToolData]: all
      calls of a session, [tool_data/data.rs]; [ToolBudget]: their byte budget.
    - [Status]: the status of the workspace, [workspace/status.rs] with the parser
      [workspace/status/porcelain.rs] of what git prints; [StatusParse]: a printer of
      git's format, and that parsing inverts it.
    - [Changes]: the changes of a session, [changes.rs], with the scan and the blob
      checks of [store/tool_records/cold_read.rs]; [ChangePages]: what a page holds;
      [ChangeFollow]: a client that reads page after page.
    - [RecordFiles]: what is on disk of the tool calls of all sessions, its validation
      and reading, [store/tool_records/validate.rs] and [cold_read.rs]; [RecordStore]:
      committing a record, the ledger and its eviction, deleting a session, [commit.rs],
      [ledger.rs] and [store.rs]; [RecordDisk]: what every operation keeps of the disk;
      [RecordReads]: what a client reads while all this goes on.
    - [Scan]: the walk over the files of a workspace with its ignore rules, budgets and
      cursor, [workspace/scan.rs]; [ScanOrder]: the order of paths and the paths a text
      names; [ScanWalk]: the walk over files that do not change, as a list of items;
      [ScanCursor]: walking on from a cursor.
    - [Listing]: a page of [workspace.files], [workspace/listing.rs] with
      [workspace/page.rs]; [ListingPage]: what one page holds; [ListingFollow]: a client
      that follows the cursors.
    - [Search]: a page of [workspace.search], [workspace/search.rs]; [SearchLine]: the
      matches of a line and the records of a page; [SearchFile]: a file; [SearchWalk]: a
      walk that is searched; [SearchFollow]: a client that follows the cursors.
    - [Query]: a page of [workspace.read], [workspace/query.rs], and the capture of a
      file of [workspace.rs]; [QueryFollow]: a client that reads on.
    - [Pack]: packing the texts of items into a page of chunks, [read.rs]; [PackSpec]: what
      such a page holds; [TurnPage]: [turn.result], [read/turn_result.rs] with the projection
      of items [read/projection.rs] and the identity of a result (here and in
      [sessions/results.rs]); [TurnFollow]: a client that reads a result page by page.

    ** How the parts interact

    The tools build on [RustStr] alone.  [SessionSteps] composes the operations of
    [Inputs] into tasks, one rule per critical section, so that its theorems hold for
    every schedule.  [Threshold] and [Recovery] call [Projection] for the request,
    [Usage] for what a summary cost and [CompactionState] for the shared state; where
    the source awaits, the state may be changed by other tasks, which is an argument
    of the model.  [PreviewObserver] runs one parser of [Preview] per tool call.
    [Stream] reads the frames of [Sse] and reports usage as [Usage] counts it.
    A process writes to the windows of [ToolRecord]; [ToolData] evicts them; clients
    read them through [ToolPage], from a record or from the snapshot taken of it.
    [RecordStore] writes the snapshots of [ToolRecord]; what [RecordReads] shows to be
    read back of them is what [ToolStored] starts from.
    [Changes] merges the calls of [ToolData] with the records on disk and turns the
    answer of [Status] into changes of the workspace.
    [Listing] and [Search] hand a visitor to the walk of [Scan], which gives it the
    entries one by one and applies what it answers; [ScanWalk] takes the visitor as a
    function.  The visitor of [Search] reads the file itself and charges the budget of
    the walk.
    [TurnPage] shows the items of a record of [History] and packs them with [Pack]; of the
    catalog of [Results] it takes what a lookup answers.

    ** What is shown

    - Patches and edits: both dialects succeed exactly when the specification
      [patched] rewrites the file, a printed patch parses back, the border search is
      the naive scan, results respect the size bound, an edit of a CRLF file keeps it
      one.
    - Sessions: in every reachable state each accepted input is queued, claimed, run
      or withdrawn exactly once and runs in order; one task drives the queue; no turn
      runs beside a manual compaction; the queue is bounded; and no accepted input is
      stuck.
    - Results: the counters are exactly what is alive, every limit holds, windows have
      no gap, and reserving and inserting terminate.
    - Diffs: a plan rewrites either snapshot into the other, the encoding that is
      hashed is injective, and following the cursors of the pages gives every
      character once unless the budget of a page does not hold a piece of seven bytes
      of some line.
    - Compaction: what may be replaced is characterised exactly, reduced requests keep
      the prompts of the running loop and whole tool exchanges, a recovery is granted
      once per request and only for the request that was refused, and a start sends at
      most two requests, the second being what reconstructing the ticket of the first
      gives, smaller than it.
    - Streams: frames do not depend on the chunks they arrive in; whatever a provider
      sends, the events of its answer follow the protocol of the runtime, end once and
      come to an end; and a preview of arguments the tools accept shows what the final
      card will show, a text being cut (when the allocator grants) only where the
      budgets demand it.
    - History: whatever fails, the file holds every acknowledged turn and no refused
      one, a session can be opened again, and a page, of a pinned history, of what a
      loaded session shows or of the whole file, does not depend on whether the index
      or the file was read.  Pages of no items, and what follows the last whole record
      of a file, are left out of this theorem.
    - Tool data: the count of bytes is exact and the limits hold after every report; a
      client that follows the output of a process gets every byte at its offset or a
      warning of the gap, and reaches the end; once a call is persisted, eviction
      changes no page.
    - Tool records: whatever access fails and wherever the process dies, a reader gets
      of a call its snapshot, unchanged, or that it is corrupt; and a commit that was
      acknowledged can be read.
    - Workspace status: parsing inverts git's format, a cut stream gives a prefix, and an
      answer that claims to be complete is what git printed.
    - Changes: a client that follows the cursors gets the whole list of one moment, or
      is told that the list changed, and reaches the end.
    - Listings: a walk within its budgets keeps to the order of paths and resumes after
      any path it met; over files that do not change, the pages a client is given are
      the listing of the directory, each path once, and end.
    - Searches: over files that do not change, the answers report the matches in the
      order of the walk, each once and none missing but those no record can hold, with
      offsets of the original line; all of them if the last answer says that the walk
      ended.  It need not say so: a page that resumed inside a file and is full at its
      end has no cursor ([resumed_file_loses_the_rest]).
    - Reads: a client that reads on under the revision of the first page puts the text
      of the file together byte for byte, or is told that it changed.
    - Results of turns: the bytes that are digested determine the items, so a client that
      goes on under the identity of the first page gets the texts of the items of that
      result once and in order, wherever the pages come from, or is told that there is no
      page; no page exceeds its budget, and a page is refused only if it could not hold one
      character.
    - Timestamps: what is written is valid and is read back, and the civil date is the
      Gregorian calendar's.

    ** Bounds and fuel

    Machine integers are [N] or [Z] with their checked, saturating or wrapping
    operations written out.  Fixpoints on fuel get a bound the theorems discharge: the
    loops over lines and bytes get the number of lines or bytes left, [reserve_loop]
    and [evict_loop] of [Results] the number of entries alive (their termination is a
    theorem), [evict_loop] of [RecordStore] the number of entries of the ledger, [page_loop] the number of remaining places of the plan, [fold_loop] the
    length of the history, [walk_directory] of [Scan] the limit of depth, [literal_ranges] of [Search] the
    length of the line and [widen] the number of matches, [select_loop] of [Query] the
    length of the text, [prefix_loop] of [Pack] one more than the length it searches (every
    step shortens what is left) and [boundary_loop] the length of the text, the loops of [enforce_limits] the number of pieces that can
    be evicted (that they end within the limits is part of the theorem), a client the
    number of bytes, entries, matches or characters it has not read.  The propositions say what is returned, never what happens
    if something is returned.

    ** Parameters

    Code that is not in [src] is a parameter with the behaviour its documentation
    promises: the edit script of the [similar] crate (class [Similar] with
    [SimilarLaws]), the values and fallible constructors of [minicore_runtime]
    (classes [Runtime], [ModelValues], [Requests] with [ModelValueLaws]), the decoders
    of a provider's JSON and the limits of its events (class [Provider] with
    [ProviderLaws]), the encoders of [serde_json], base64 (classes [PageEncoding] with [PageEncodingLaws], [StatusEncoding] with
    [StatusEncodingLaws], [ChangeEncoding] with [ChangeEncodingLaws] and
    [RecordEncoding] with [RecordEncodingLaws], [ListingEncoding] with [ListingEncodingLaws],
    [SearchEncoding] with [SearchEncodingLaws], [ReadEncoding] with [ReadEncodingLaws],
    [ChunkEncoding] with [ChunkEncodingLaws], [TurnEncoding] with [TurnEncodingLaws])
    and SHA-256, the rules of the [ignore] crate (class [IgnoreRules]), the matches of a
    [regex] that ignores case (class [FoldedSearch] with [FoldedSearchLaws]), what the system
    answers about files ([FileSystem] of [Scan] and [Access] of [Query], a different one at every access),
    what a session shows of a turn and the store reads of it ([Meeting] of [TurnPage], a
    different one at every request), the constructors of an outcome a record only carries
    (class [OutcomeViews]),
    the output of git, what an access to a file did (in [History] and [RecordStore]), the allocator's growth of a string
    ([reserve]), the clock ([expired], [elapsed]) and, while an await is pending, the
    other tasks.  Each theorem with such a hypothesis has a witness with the parameter
    given by a concrete function.

    ** Not modelled

    File system and process effects (session records,
    workspace access, command execution, the walk over the records of a session for its
    changes), the provider's HTTP and requests, the JSON-RPC loop, serde types, the text
    of prompts and summaries, and the code that is compiled for tests only.  Wiring
    between a modelled part and these (field copies, spawning, forwarding events) is
    left out where it has no state of its own.  Orderings of atomics are those of a
    sequentially consistent machine; the sections under a lock are atomic steps. *)

From stdpp Require Export base numbers list gmap sets strings.

(** ** Results

    Rust's [Result<A, E>], with the success type last so that the monad
    instances apply.  [x ← m; k] is the [?] operator. *)

Inductive result (E A : Type) : Type :=
  | Ok (a : A)
  | Err (e : E).
Arguments Ok {E A} a.
Arguments Err {E A} e.

#[global] Instance result_ret {E} : MRet (result E) := λ A a, Ok a.
#[global] Instance result_bind {E} : MBind (result E) := λ A B f m,
  match m with Ok a => f a | Err e => Err e end.
#[global] Instance result_fmap {E} : FMap (result E) := λ A B f m,
  match m with Ok a => Ok (f a) | Err e => Err e end.

#[global] Instance result_eq_dec {E A} `{EqDecision E, EqDecision A} :
  EqDecision (result E A).
Proof. solve_decision. Defined.

(** [Option::ok_or]. *)
Definition ok_or {E A} (o : option A) (e : E) : result E A :=
  match o with Some a => Ok a | None => Err e end.

(** [Result::map_err]. *)
Definition map_err {E F A} (f : E → F) (m : result E A) : result F A :=
  match m with Ok a => Ok a | Err e => Err (f e) end.

(** [if cond { return Err(e) }]. *)
Definition ensure {E} (P : Prop) `{Decision P} (e : E) : result E unit :=
  if decide P then Ok tt else Err e.

Lemma bind_Ok {E A B} (m : result E A) (f : A → result E B) b :
  m ≫= f = Ok b ↔ ∃ a, m = Ok a ∧ f a = Ok b.
Proof. destruct m; simpl; naive_solver. Qed.

Lemma fmap_Ok {E A B} (f : A → B) (m : result E A) b :
  f <$> m = Ok b ↔ ∃ a, m = Ok a ∧ f a = b.
Proof. destruct m; simpl; naive_solver. Qed.

Lemma bind_Err {E A B} (m : result E A) (f : A → result E B) e :
  m ≫= f = Err e ↔ m = Err e ∨ ∃ a, m = Ok a ∧ f a = Err e.
Proof. destruct m; simpl; naive_solver. Qed.

Lemma ok_or_Ok {E A} (o : option A) (e : E) a :
  ok_or o e = Ok a ↔ o = Some a.
Proof. destruct o; simpl; naive_solver. Qed.

Lemma ensure_Ok {E} (P : Prop) `{Decision P} (e : E) u :
  ensure P e = Ok u ↔ P.
Proof. unfold ensure. case_decide; destruct u; naive_solver. Qed.

Lemma ensure_true {E} (P : Prop) `{Decision P} (e : E) : P → ensure P e = Ok tt.
Proof. intros. unfold ensure. by rewrite decide_True. Qed.

(** Inverts every hypothesis that says a monadic computation succeeded. *)
Ltac res_inv :=
  repeat match goal with
  | H : (_ ≫= _) = Ok _ |- _ =>
      let a := fresh "r" in let E := fresh "Hr" in
      apply bind_Ok in H as (a & E & H)
  | H : ok_or _ _ = Ok _ |- _ => apply ok_or_Ok in H
  | H : ensure _ _ = Ok _ |- _ => apply ensure_Ok in H
  | H : Ok _ = Ok ?x |- _ => injection H as H; try subst x
  | H : Err _ = Ok _ |- _ => discriminate H
  | H : Ok _ = Err _ |- _ => discriminate H
  | H : mret _ = Ok ?x |- _ => injection H as H; try subst x
  end.

(** ** State with errors

    A computation on a shared state [S] that may fail; a failure keeps the changes
    made before it, as a method that returns early does. *)

Definition stm (S E A : Type) : Type := S → S * result E A.

#[global] Instance stm_ret {S E} : MRet (stm S E) := λ A a s, (s, Ok a).
#[global] Instance stm_bind {S E} : MBind (stm S E) := λ A B f m s,
  match m s with
  | (s', Ok a) => f a s'
  | (s', Err e) => (s', Err e)
  end.

Definition get {S E} : stm S E S := λ s, (s, Ok s).
Definition put {S E} (s : S) : stm S E unit := λ _, (s, Ok tt).
Definition modify {S E} (f : S → S) : stm S E unit := λ s, (f s, Ok tt).
Definition throw {S E A} (e : E) : stm S E A := λ s, (s, Err e).
Definition lift {S E A} (m : result E A) : stm S E A := λ s, (s, m).

(** [if cond { return Err(e) }] *)
Definition throw_if {S E} (P : Prop) `{Decision P} (e : E) : stm S E unit :=
  if decide P then throw e else mret tt.

Lemma throw_if_run {S E} (P : Prop) `{Decision P} (e : E) (s : S) :
  throw_if P e s = (s, if decide P then Err e else Ok tt).
Proof. unfold throw_if. by case_decide. Qed.

Lemma stm_bind_inv {S E A B} (m : stm S E A) (f : A → stm S E B) s s' r :
  (m ≫= f) s = (s', r) →
  (∃ e, m s = (s', Err e) ∧ r = Err e) ∨ (∃ s1 a, m s = (s1, Ok a) ∧ f a s1 = (s', r)).
Proof.
  unfold mbind, stm_bind. destruct (m s) as [s1 [a|e]]; [naive_solver|].
  intros [= <- <-]. eauto.
Qed.

(** Runs every bind of a stateful computation that returned. *)
Ltac stm_inv H :=
  repeat match type of H with
  | (_ ≫= _) _ = _ =>
      let E := fresh "Hs" in
      apply stm_bind_inv in H as [(? & E & H)|(? & ? & E & H)]
  end.

(** What a computation run in [s] ends with, whatever that is. *)
Definition ends {S E A} (m : stm S E A) (s : S) (Q : S → result E A → Prop) : Prop :=
  let '(s', r) := m s in Q s' r.

Section ends.
Context {S E : Type}.
Implicit Types s : S.

Lemma ends_bind {A B} (m : stm S E A) (f : A → stm S E B) s Q :
  ends m s (λ s' r, match r with Ok a => ends (f a) s' Q | Err e => Q s' (Err e) end) → ends (m ≫= f) s Q.
Proof. unfold ends, mbind, stm_bind. by destruct (m s) as [s' [a|e]]. Qed.
Lemma ends_mono {A} (m : stm S E A) s (P Q : S → result E A → Prop) :
  ends m s P → (∀ s' r, P s' r → Q s' r) → ends m s Q.
Proof. unfold ends. destruct (m s). auto. Qed.
Lemma ends_ret {A} (a : A) s (Q : S → result E A → Prop) : Q s (Ok a) → ends (mret a) s Q.
Proof. done. Qed.
Lemma ends_get s (Q : S → result E S → Prop) : Q s (Ok s) → ends get s Q.
Proof. done. Qed.
Lemma ends_modify f s (Q : S → result E unit → Prop) : Q (f s) (Ok tt) → ends (modify f) s Q.
Proof. done. Qed.
Lemma ends_throw {A} (e : E) s (Q : S → result E A → Prop) : Q s (Err e) → ends (throw e) s Q.
Proof. done. Qed.
Lemma ends_throw_if (P : Prop) `{Decision P} (e : E) s (Q : S → result E unit → Prop) :
  (P → Q s (Err e)) → (¬ P → Q s (Ok tt)) → ends (throw_if P e) s Q.
Proof. intros H1 H2. unfold ends, throw_if. case_decide; [by apply H1|by apply H2]. Qed.
Lemma ends_run {A} (m : stm S E A) s (Q : S → result E A → Prop) s' r : ends m s Q → m s = (s', r) → Q s' r.
Proof. unfold ends. intros HQ Hm. by rewrite Hm in HQ. Qed.
End ends.

(** A decidable proposition, closed by evaluating its decision. *)
Ltac by_compute := apply (bool_decide_unpack _); vm_compute; exact I.

(** ** Machine integers

    A [usize]/[u64] is an [N] kept below [2^64]; checked operations return
    [None] on overflow, saturating ones clamp. *)

Definition u64_max : N := 18446744073709551615.
Definition usize_max : N := u64_max.
Definition u32_max : N := 4294967295.

Definition checked_add (a b : N) : option N :=
  if decide (a + b <= usize_max)%N then Some (a + b)%N else None.
Definition checked_sub (a b : N) : option N :=
  if decide (b <= a)%N then Some (a - b)%N else None.
Definition checked_mul (a b : N) : option N :=
  if decide (a * b <= usize_max)%N then Some (a * b)%N else None.
Definition saturating_add (a b : N) : N := N.min (a + b) usize_max.
Definition saturating_mul (a b : N) : N := N.min (a * b) u64_max.

Lemma checked_add_Some a b c :
  checked_add a b = Some c ↔ c = (a + b)%N ∧ (a + b <= usize_max)%N.
Proof. unfold checked_add. case_decide; naive_solver. Qed.

Lemma checked_sub_Some a b c :
  checked_sub a b = Some c ↔ c = (a - b)%N ∧ (b <= a)%N.
Proof. unfold checked_sub. case_decide; naive_solver. Qed.

Lemma checked_mul_Some a b c :
  checked_mul a b = Some c ↔ c = (a * b)%N ∧ (a * b <= usize_max)%N.
Proof. unfold checked_mul. case_decide; naive_solver. Qed.

(** The length of a vector as a [usize]. *)
Definition lenN {A} (l : list A) : N := N.of_nat (length l).

Lemma lenN_app {A} (l k : list A) : lenN (l ++ k) = (lenN l + lenN k)%N.
Proof. unfold lenN. rewrite length_app. lia. Qed.
Lemma lenN_cons {A} (x : A) l : lenN (x :: l) = (1 + lenN l)%N.
Proof. unfold lenN. simpl. lia. Qed.
Lemma lenN_fmap {A B} (f : A → B) l : lenN (f <$> l) = lenN l.
Proof. unfold lenN. by rewrite length_fmap. Qed.
Lemma lenN_nil {A} : lenN (@nil A) = 0%N.
Proof. reflexivity. Qed.

Create HintDb agent discriminated.
Create Rewrite HintDb lens.
#[export] Hint Rewrite @lenN_app @lenN_cons @lenN_nil : lens.

(** [Vec::get] at a [usize] index. *)
Definition getN {A} (l : list A) (i : N) : option A := l !! N.to_nat i.

Lemma getN_app_mid {A} (l k : list A) x i :
  i = lenN l → getN (l ++ x :: k) i = Some x.
Proof.
  intros ->. unfold getN, lenN. rewrite Nat2N.id.
  by rewrite list_lookup_middle.
Qed.

Lemma getN_Some_split {A} (l : list A) i x :
  getN l i = Some x → ∃ l1 l2, l = l1 ++ x :: l2 ∧ lenN l1 = i.
Proof.
  unfold getN. intros H.
  exists (take (N.to_nat i) l), (drop (S (N.to_nat i)) l). split.
  - symmetry. by apply take_drop_middle.
  - unfold lenN. apply lookup_lt_Some in H. rewrite length_take. lia.
Qed.

Lemma getN_lt {A} (l : list A) i x : getN l i = Some x → (i < lenN l)%N.
Proof. unfold getN, lenN. intros H%lookup_lt_Some. lia. Qed.

(** [u64::to_le_bytes] *)
Definition u64_bytes (n : N) : list N :=
  (λ i, N.land (N.shiftr n (8 * N.of_nat i)) 0xFF) <$> seq 0 8.
(** [u64::wrapping_add(1)] *)
Definition wrapping_succ (n : N) : N := (n + 1) mod (u64_max + 1).

Lemma u64_bytes_length n : length (u64_bytes n) = 8.
Proof. done. Qed.
Lemma u64_bytes_inj n m : (n <= u64_max)%N → (m <= u64_max)%N → u64_bytes n = u64_bytes m → n = m.
Proof.
  intros Hn Hm He. apply N.bits_inj. intros k.
  destruct (decide (k < 64)%N) as [Hk|Hk].
  - apply (f_equal (λ l, l !! N.to_nat (k / 8))) in He. unfold u64_bytes in He.
    pose proof (N.div_mod k 8 ltac:(done)) as Hdm. pose proof (N.mod_lt k 8 ltac:(done)) as Hmod.
    assert (k / 8 < 8)%N as Hdiv by (by apply N.Div0.div_lt_upper_bound).
    set (q := (k / 8)%N) in *. set (r := (k mod 8)%N) in *.
    rewrite !list_lookup_fmap, lookup_seq_lt in He by lia. simpl in He. injection He as He.
    apply (f_equal (λ x, N.testbit x r)) in He.
    rewrite !N.land_spec, !N.shiftr_spec' in He. rewrite N2Nat.id in He.
    replace (r + 8 * q)%N with k in He by lia.
    assert (N.testbit 255 r = true) as Hb.
    { change 255%N with (N.ones 8). by apply N.ones_spec_low. }
    by rewrite Hb, !andb_true_r in He.
  - assert (∀ x, (x <= u64_max)%N → N.testbit x k = false) as Hx; [|by rewrite !Hx].
    intros x Hx. destruct (decide (x = 0)%N) as [->|]; [by apply N.bits_0|].
    apply N.bits_above_log2. apply N.log2_lt_pow2; [lia|].
    assert (2 ^ 64 <= 2 ^ k)%N by (apply N.pow_le_mono_r; lia). unfold u64_max in Hx.
    change (2 ^ 64)%N with 18446744073709551616%N in *. lia.
Qed.

(** ** Lists *)

Lemma filter_none {A} (P : A → Prop) `{∀ x, Decision (P x)} (l : list A) :
  (∀ x, x ∈ l → ¬ P x) → filter P l = [].
Proof.
  intros Hn. induction l as [|a l IH]; [done|]. rewrite filter_cons.
  rewrite decide_False by (apply Hn; by left). apply IH. intros x Hx. apply Hn. by right.
Qed.
