(* ===== verification/RustStr.v ===== *)
(** Rust strings.

    A [str] is the list of its Unicode scalar values; [str_len] is its length
    in UTF-8 bytes, which is what [str::len] returns.  This file models the
    standard-library operations the sources use ([split_inclusive], [strip_prefix],
    [split_once], [find], [match_indices], [replace], [trim], [parse], [as_bytes],
    [String::from_utf8], [floor_char_boundary]) and proves their contracts once. *)

From S2P Require Import Prelude.

Abbreviation char := N.
Abbreviation str := (list N).

(** A literal: the code points of an ASCII string. *)
Definition lit (s : string) : str :=
  (λ a, Ascii.N_of_ascii a) <$> String.list_ascii_of_string s.

Definition NUL : char := 0.
Definition TAB : char := 9.
Definition LF : char := 10.
Definition CR : char := 13.
Definition SPACE : char := 32.
Definition DQUOTE : char := 34.
Definition BACKSLASH : char := 92.

(** ** Byte lengths *)

Definition len_utf8 (c : char) : N :=
  if decide (c < 0x80)%N then 1 else
  if decide (c < 0x800)%N then 2 else
  if decide (c < 0x10000)%N then 3 else 4.

Fixpoint str_len (s : str) : N :=
  match s with [] => 0 | c :: s' => len_utf8 c + str_len s' end.

(** ** Prefixes and suffixes *)

Fixpoint strip_prefix (p s : str) : option str :=
  match p, s with
  | [], _ => Some s
  | a :: p', b :: s' => if decide (a = b) then strip_prefix p' s' else None
  | _ :: _, [] => None
  end.

Definition starts_with (p s : str) : bool :=
  match strip_prefix p s with Some _ => true | None => false end.

(** [strip_suffix] with a one-character pattern. *)
Definition strip_suffix_char (c : char) (s : str) : option str :=
  match last s with
  | Some d => if decide (d = c) then Some (removelast s) else None
  | None => None
  end.

(** ** Searching and splitting *)

(** The text before and after the first occurrence of a pattern ([str::find]
    followed by the two slices the callers take). *)
Fixpoint find_split (pat s : str) : option (str * str) :=
  match strip_prefix pat s with
  | Some rest => Some ([], rest)
  | None =>
      match s with
      | [] => None
      | c :: s' =>
          match find_split pat s' with
          | Some (a, b) => Some (c :: a, b)
          | None => None
          end
      end
  end.

Definition contains (pat s : str) : bool :=
  match find_split pat s with Some _ => true | None => false end.

Definition contains_char (c : char) (s : str) : bool := bool_decide (c ∈ s).

(** [split_once] with a character. *)
Fixpoint split_once (c : char) (s : str) : option (str * str) :=
  match s with
  | [] => None
  | d :: s' =>
      if decide (d = c) then Some ([], s')
      else match split_once c s' with
           | Some (a, b) => Some (d :: a, b)
           | None => None
           end
  end.

(** [split(c)]: always at least one piece. *)
Fixpoint split_char (c : char) (s : str) : list str :=
  match s with
  | [] => [[]]
  | d :: s' =>
      if decide (d = c) then [] :: split_char c s'
      else match split_char c s' with
           | p :: ps => (d :: p) :: ps
           | [] => [[d]]
           end
  end.

(** [split_inclusive(c)]: every piece but possibly the last ends with [c], and
    no piece is empty. *)
Fixpoint split_inclusive (c : char) (s : str) : list str :=
  match s with
  | [] => []
  | d :: s' =>
      if decide (d = c) then [d] :: split_inclusive c s'
      else match split_inclusive c s' with
           | p :: ps => (d :: p) :: ps
           | [] => [[d]]
           end
  end.

(** The pieces between the leftmost non-overlapping occurrences of a non-empty
    pattern; [match_indices] yields one match between each two pieces. *)
Fixpoint split_str_fuel (fuel : nat) (pat s : str) : list str :=
  match fuel with
  | O => [s]
  | S n =>
      match find_split pat s with
      | Some (a, b) => a :: split_str_fuel n pat b
      | None => [s]
      end
  end.
Definition split_str (pat s : str) : list str := split_str_fuel (length s) pat s.

Definition match_count (pat s : str) : N := lenN (split_str pat s) - 1.

Fixpoint join (sep : str) (ps : list str) : str :=
  match ps with
  | [] => []
  | [p] => p
  | p :: ps' => p ++ sep ++ join sep ps'
  end.

(** [str::replace]. *)
Definition replace (pat new s : str) : str := join new (split_str pat s).

(** [str::replacen(pat, new, 1)]. *)
Definition replace_first (pat new s : str) : str :=
  match find_split pat s with Some (a, b) => a ++ new ++ b | None => s end.

(** ** Character classes *)

Definition is_ascii_digit (c : char) : bool := bool_decide (48 <= c <= 57)%N.

Definition is_ascii_hexdigit (c : char) : bool :=
  is_ascii_digit c || bool_decide (65 <= c <= 70)%N || bool_decide (97 <= c <= 102)%N.

(** [char::is_whitespace] (the Unicode [White_Space] property). *)
Definition is_whitespace (c : char) : bool :=
  bool_decide (9 <= c <= 13)%N || bool_decide (c = 0x20)%N ||
  bool_decide (c = 0x85)%N || bool_decide (c = 0xA0)%N ||
  bool_decide (c = 0x1680)%N || bool_decide (0x2000 <= c <= 0x200A)%N ||
  bool_decide (c = 0x2028)%N || bool_decide (c = 0x2029)%N ||
  bool_decide (c = 0x202F)%N || bool_decide (c = 0x205F)%N ||
  bool_decide (c = 0x3000)%N.

Fixpoint trim_start (s : str) : str :=
  match s with
  | [] => []
  | c :: s' => if is_whitespace c then trim_start s' else s
  end.
Definition trim_end (s : str) : str := reverse (trim_start (reverse s)).
Definition trim (s : str) : str := trim_end (trim_start s).

(** ** Numbers *)

Definition parse_digit (acc : option N) (c : char) : option N :=
  a ← acc;
  if is_ascii_digit c
  then m ← checked_mul a 10; checked_add m (c - 48)
  else None.

(** [str::parse::<usize>]: an optional plus sign and at least one digit. *)
Definition parse_usize (s : str) : option N :=
  let digits := default s (strip_prefix (lit "+") s) in
  match digits with
  | [] => None
  | _ => foldl parse_digit (Some 0%N) digits
  end.

(** Decimal printing ([format!("{n}")]). *)
Fixpoint show_fuel (fuel : nat) (n : N) (acc : str) : str :=
  match fuel with
  | O => acc
  | S f =>
      let acc := (48 + n mod 10)%N :: acc in
      if decide (n / 10 = 0)%N then acc else show_fuel f (n / 10) acc
  end.
Definition show_N (n : N) : str := show_fuel (S (N.to_nat (N.log2 n))) n [].

(** ** UTF-8 *)

Definition encode_char (c : char) : list N :=
  if decide (c < 0x80)%N then [c] else
  if decide (c < 0x800)%N then
    [0xC0 + c / 0x40; 0x80 + c mod 0x40]%N else
  if decide (c < 0x10000)%N then
    [0xE0 + c / 0x1000; 0x80 + (c / 0x40) mod 0x40; 0x80 + c mod 0x40]%N else
    [0xF0 + c / 0x40000; 0x80 + (c / 0x1000) mod 0x40;
     0x80 + (c / 0x40) mod 0x40; 0x80 + c mod 0x40]%N.

(** [str::as_bytes]. *)
Definition as_bytes (s : str) : list N := s ≫= encode_char.

Definition is_scalar (c : char) : bool :=
  bool_decide (c < 0xD800)%N || bool_decide (0xE000 <= c <= 0x10FFFF)%N.

(** One scalar value read from the front of a byte list.  A sequence is well
    formed when re-encoding the value gives back the bytes read, which excludes
    overlong forms, stray continuation bytes and surrogates. *)
Definition decode_char (bs : list N) : option (char * list N) :=
  let try (n : nat) (c : char) :=
    if is_scalar c && bool_decide (take n bs = encode_char c)
    then Some (c, drop n bs) else None in
  match bs with
  | [] => None
  | b0 :: rest =>
      if decide (b0 < 0x80)%N then try 1%nat b0 else
      match rest with
      | b1 :: rest' =>
          if decide (b0 < 0xE0)%N then try 2%nat ((b0 - 0xC0) * 0x40 + (b1 - 0x80))%N else
          match rest' with
          | b2 :: rest'' =>
              if decide (b0 < 0xF0)%N then
                try 3%nat ((b0 - 0xE0) * 0x1000 + (b1 - 0x80) * 0x40 + (b2 - 0x80))%N
              else
                match rest'' with
                | b3 :: _ =>
                    try 4%nat ((b0 - 0xF0) * 0x40000 + (b1 - 0x80) * 0x1000 +
                               (b2 - 0x80) * 0x40 + (b3 - 0x80))%N
                | [] => None
                end
          | [] => None
          end
      | [] => None
      end
  end.

Fixpoint from_utf8_fuel (fuel : nat) (bs : list N) : option str :=
  match bs with
  | [] => Some []
  | _ =>
      match fuel with
      | O => None
      | S f =>
          match decode_char bs with
          | Some (c, rest) => s ← from_utf8_fuel f rest; Some (c :: s)
          | None => None
          end
      end
  end.

(** [String::from_utf8]. *)
Definition from_utf8 (bs : list N) : option str := from_utf8_fuel (length bs) bs.

(** The longest prefix of at most [max] bytes that ends at a character
    boundary: [&s[..s.floor_char_boundary(max)]], with what follows it. *)
Fixpoint split_floor (max : N) (s : str) : str * str :=
  match s with
  | [] => ([], [])
  | c :: s' =>
      if decide (len_utf8 c <= max)%N
      then let '(a, b) := split_floor (max - len_utf8 c) s' in (c :: a, b)
      else ([], s)
  end.

(** ** Laws *)

Lemma len_utf8_bounds c : (1 <= len_utf8 c <= 4)%N.
Proof. unfold len_utf8. repeat case_decide; lia. Qed.

Lemma str_len_nil : str_len [] = 0%N.
Proof. reflexivity. Qed.

Lemma str_len_cons c s : str_len (c :: s) = (len_utf8 c + str_len s)%N.
Proof. reflexivity. Qed.

Lemma str_len_app s t : str_len (s ++ t) = (str_len s + str_len t)%N.
Proof. induction s; simpl; lia. Qed.

#[export] Hint Rewrite str_len_app str_len_cons str_len_nil : lens.

Lemma str_len_0 s : str_len s = 0%N → s = [].
Proof. destruct s as [|c s]; [done|]. simpl. pose proof (len_utf8_bounds c). lia. Qed.

Lemma str_len_ge_length s : (lenN s <= str_len s)%N.
Proof.
  induction s as [|c s IH]; [done|]. rewrite lenN_cons, str_len_cons.
  pose proof (len_utf8_bounds c). lia.
Qed.

(** *** Prefixes *)

Lemma strip_prefix_Some p s r : strip_prefix p s = Some r ↔ s = p ++ r.
Proof.
  revert s. induction p as [|a p IH]; intros s; simpl.
  { naive_solver. }
  destruct s as [|b s]; [naive_solver|].
  case_decide; subst; [rewrite IH|]; naive_solver.
Qed.

Lemma strip_prefix_app p r : strip_prefix p (p ++ r) = Some r.
Proof. by apply strip_prefix_Some. Qed.

Lemma strip_prefix_None p s : strip_prefix p s = None ↔ ∀ r, s ≠ p ++ r.
Proof.
  split.
  - intros H r Hs. apply strip_prefix_Some in Hs. congruence.
  - intros H. destruct (strip_prefix p s) as [r|] eqn:E; [|done].
    apply strip_prefix_Some in E. naive_solver.
Qed.

Lemma starts_with_true p s : starts_with p s = true ↔ ∃ r, s = p ++ r.
Proof.
  unfold starts_with. destruct (strip_prefix p s) as [r|] eqn:E.
  - apply strip_prefix_Some in E. naive_solver.
  - pose proof (proj1 (strip_prefix_None _ _) E). naive_solver.
Qed.

Lemma starts_with_app p s : starts_with p (p ++ s) = true.
Proof. apply starts_with_true. eauto. Qed.

Lemma strip_suffix_char_snoc c s : strip_suffix_char c (s ++ [c]) = Some s.
Proof.
  unfold strip_suffix_char. rewrite last_snoc.
  case_decide; [|done]. by rewrite removelast_last.
Qed.

Lemma strip_suffix_char_Some c s r : strip_suffix_char c s = Some r ↔ s = r ++ [c].
Proof.
  split; [|intros ->; apply strip_suffix_char_snoc].
  unfold strip_suffix_char. destruct s as [|d s _] using rev_ind; [done|].
  rewrite last_snoc, removelast_last. case_decide; naive_solver.
Qed.

Lemma strip_suffix_char_None c s : last s ≠ Some c → strip_suffix_char c s = None.
Proof. unfold strip_suffix_char. destruct (last s); [case_decide|]; naive_solver. Qed.

(** *** Searching *)

Lemma find_split_Some pat s a b :
  find_split pat s = Some (a, b) → s = a ++ pat ++ b.
Proof.
  revert a b. induction s as [|c s IH]; intros a b; simpl;
    (destruct (strip_prefix pat _) as [r|] eqn:E;
       [apply strip_prefix_Some in E; intros [= <- <-]; exact E|]); [done|].
  destruct (find_split pat s) as [[a' b']|]; [|done].
  intros [= <- <-]. simpl. f_equal. by apply IH.
Qed.

(** The occurrence found is the leftmost one. *)
Lemma find_split_least pat s a b a' b' :
  find_split pat s = Some (a, b) → s = a' ++ pat ++ b' →
  (length a <= length a')%nat.
Proof.
  revert a b a'. induction s as [|c s IH]; intros a b a'; simpl;
    (destruct (strip_prefix pat _) as [r|] eqn:E; [intros [= <- <-]; simpl; lia|]);
    [done|].
  destruct (find_split pat s) as [[a1 b1]|] eqn:F; [|done]. intros [= <- <-] Hs.
  destruct a' as [|d a'].
  - exfalso. rewrite strip_prefix_None in E. exact (E b' Hs).
  - simpl in Hs. injection Hs as -> Hs. simpl.
    pose proof (IH _ _ _ eq_refl Hs). lia.
Qed.

(** The text before the first occurrence of a character does not hold it. *)
Lemma find_split_char c s a b : find_split [c] s = Some (a, b) → c ∉ a.
Proof.
  intros E Hc. apply list_elem_of_split in Hc as (a1 & a2 & ->).
  pose proof (find_split_Some _ _ _ _ E) as Hs. rewrite <- app_assoc in Hs.
  apply (find_split_least _ _ _ _ a1 (a2 ++ [c] ++ b)) in E; [|done].
  rewrite length_app in E. simpl in E. lia.
Qed.

Lemma find_split_None pat s : find_split pat s = None ↔ ∀ a b, s ≠ a ++ pat ++ b.
Proof.
  split.
  - revert pat. induction s as [|c s IH]; intros pat; simpl;
      (destruct (strip_prefix pat _) as [r|] eqn:E; [done|]);
      rewrite strip_prefix_None in E.
    + intros _ [|x a] b Hs; [exact (E b Hs)|discriminate].
    + destruct (find_split pat s) as [[a1 b1]|] eqn:F; [done|].
      intros _ [|x a] b Hs; [exact (E b Hs)|].
      injection Hs as _ Hs. exact (IH pat F a b Hs).
  - intros H. destruct (find_split pat s) as [[a b]|] eqn:E; [|done].
    apply find_split_Some in E. by apply H in E.
Qed.

Lemma contains_true pat s : contains pat s = true ↔ ∃ a b, s = a ++ pat ++ b.
Proof.
  unfold contains. destruct (find_split pat s) as [[a b]|] eqn:E.
  - apply find_split_Some in E. naive_solver.
  - pose proof (proj1 (find_split_None _ _) E). naive_solver.
Qed.

Lemma contains_char_true c s : contains_char c s = true ↔ c ∈ s.
Proof. apply bool_decide_eq_true. Qed.

Lemma split_once_Some c s a b :
  split_once c s = Some (a, b) ↔ s = a ++ c :: b ∧ c ∉ a.
Proof.
  revert a b. induction s as [|d s IH]; intros a b; simpl.
  { split; [done|]. intros [H _]. destruct a; discriminate. }
  case_decide as Hd; subst.
  - split.
    + intros [= <- <-]. split; [done|]. apply not_elem_of_nil.
    + intros [H Ha]. destruct a as [|x a]; simplify_eq/=; [done|]. set_solver.
  - destruct (split_once c s) as [[a1 b1]|] eqn:E.
    + pose proof (proj1 (IH a1 b1) eq_refl) as [-> Hn]. split.
      * intros [= <- <-]. split; [done|]. set_solver.
      * intros [H Ha]. destruct a as [|x a]; [by simplify_eq/=|].
        injection H as -> H.
        rewrite not_elem_of_cons in Ha. destruct Ha as [_ Ha].
        pose proof (proj2 (IH a b) (conj H Ha)). naive_solver.
    + split; [done|]. intros [H Ha]. destruct a as [|x a]; [by simplify_eq/=|].
      injection H as -> H.
      rewrite not_elem_of_cons in Ha. destruct Ha as [_ Ha].
      pose proof (proj2 (IH a b) (conj H Ha)). done.
Qed.

Lemma split_once_app c a b : c ∉ a → split_once c (a ++ c :: b) = Some (a, b).
Proof. intros H. by apply split_once_Some. Qed.

Lemma split_once_None c s : c ∉ s → split_once c s = None.
Proof.
  intros H. destruct (split_once c s) as [[a b]|] eqn:E; [|done].
  apply split_once_Some in E as [-> _]. set_solver.
Qed.

(** *** Line splitting *)

Lemma split_inclusive_concat c s : concat (split_inclusive c s) = s.
Proof.
  induction s as [|d s IH]; simpl; [done|].
  case_decide; [by simpl; rewrite IH|].
  destruct (split_inclusive c s) as [|p ps]; simpl in *; by rewrite <- IH.
Qed.

Lemma split_inclusive_line c l s :
  c ∉ l → split_inclusive c (l ++ c :: s) = (l ++ [c]) :: split_inclusive c s.
Proof.
  induction l as [|d l IH]; intros Hl; simpl.
  - by rewrite decide_True by done.
  - rewrite not_elem_of_cons in Hl. destruct Hl as [Hd Hl].
    rewrite decide_False by congruence. by rewrite (IH Hl).
Qed.

Lemma split_inclusive_last c l : c ∉ l → l ≠ [] → split_inclusive c l = [l].
Proof.
  induction l as [|d l IH]; intros Hl Hne; [done|]. simpl.
  rewrite not_elem_of_cons in Hl. destruct Hl as [Hd Hl].
  rewrite decide_False by congruence.
  destruct l as [|e l]; [done|]. by rewrite (IH Hl).
Qed.

Lemma split_char_join c s : join [c] (split_char c s) = s.
Proof.
  induction s as [|d s IH]; simpl; [done|]. case_decide; subst;
    destruct (split_char c s) as [|p [|q ps]] eqn:E; simpl in *; subst; try done.
Qed.

Lemma split_char_ne c s : split_char c s ≠ [].
Proof. destruct s; simpl; [done|]. case_decide; [done|]. by destruct (split_char c s). Qed.

Lemma split_char_no_sep c s p : p ∈ split_char c s → c ∉ p.
Proof.
  revert p. induction s as [|d s IH]; intros p; simpl.
  { rewrite list_elem_of_singleton. intros ->. apply not_elem_of_nil. }
  case_decide; subst.
  - rewrite elem_of_cons. intros [->|Hq]; [apply not_elem_of_nil|by apply IH].
  - destruct (split_char c s) as [|q qs] eqn:E.
    + by apply split_char_ne in E.
    + rewrite elem_of_cons. intros [->|Hq].
      * rewrite not_elem_of_cons. split; [congruence|]. apply IH. set_solver.
      * apply IH. set_solver.
Qed.

Lemma split_char_piece c p rest : c ∉ p → split_char c (p ++ c :: rest) = p :: split_char c rest.
Proof.
  induction p as [|d p IH]; intros Hp; cbn; [by rewrite decide_True|].
  rewrite decide_False by set_solver. by rewrite IH by set_solver.
Qed.

Lemma split_char_whole c p : c ∉ p → split_char c p = [p].
Proof. induction p as [|d p IH]; intros Hp; cbn; [done|]. rewrite decide_False by set_solver. by rewrite IH by set_solver. Qed.

Lemma split_join c ps : ps ≠ [] → Forall (λ p, c ∉ p) ps → split_char c (join [c] ps) = ps.
Proof.
  induction ps as [|p [|q ps] IH]; intros Hne Hall; [done|by apply split_char_whole, (Forall_inv Hall)|].
  apply Forall_cons in Hall as [Hp Hps]. change (join [c] (p :: q :: ps)) with (p ++ c :: join [c] (q :: ps)).
  by rewrite (split_char_piece c p _ Hp), IH.
Qed.

(** *** Non-overlapping matches *)

Section split_str.
Context (pat : str).
Context (Hpat : pat ≠ []).

Lemma pat_len_pos : (0 < length pat)%nat.
Proof using Hpat. destruct pat; [done|simpl; lia]. Qed.

Lemma find_split_nil : find_split pat [] = None.
Proof using Hpat. destruct pat; [done|reflexivity]. Qed.

Lemma split_str_fuel_join n s :
  (length s <= n)%nat → join pat (split_str_fuel n pat s) = s.
Proof using Hpat.
  revert s. induction n as [|n IH]; intros s Hn; simpl; [done|].
  destruct (find_split pat s) as [[a b]|] eqn:E; [|done].
  apply find_split_Some in E as ->.
  assert (length b <= n)%nat as Hb.
  { rewrite !length_app in Hn. pose proof pat_len_pos. lia. }
  specialize (IH b Hb). simpl.
  destruct (split_str_fuel n pat b) as [|p ps] eqn:F.
  - destruct n; simpl in F; [done|]. by destruct (find_split pat b) as [[]|].
  - by rewrite IH.
Qed.

(** Splitting at the matches and joining with the pattern gives the text back. *)
Lemma split_str_join s : join pat (split_str pat s) = s.
Proof using Hpat. by apply split_str_fuel_join. Qed.

Lemma split_str_fuel_more n m s :
  (length s <= n)%nat → (length s <= m)%nat →
  split_str_fuel n pat s = split_str_fuel m pat s.
Proof using Hpat.
  revert m s. induction n as [|n IH]; intros m s Hn Hm.
  { assert (s = []) as -> by (destruct s; simpl in *; [done|lia]).
    destruct m; [done|]. cbn [split_str_fuel]. by rewrite find_split_nil. }
  destruct m as [|m].
  { assert (s = []) as -> by (destruct s; simpl in *; [done|lia]).
    cbn [split_str_fuel]. by rewrite find_split_nil. }
  simpl. destruct (find_split pat s) as [[a b]|] eqn:E; [|done].
  apply find_split_Some in E as ->. f_equal.
  rewrite !length_app in Hn, Hm. pose proof pat_len_pos.
  apply IH; lia.
Qed.

(** The unfolding equation of [split_str]. *)
Lemma split_str_unfold s :
  split_str pat s =
  match find_split pat s with
  | Some (a, b) => a :: split_str pat b
  | None => [s]
  end.
Proof using Hpat.
  unfold split_str. destruct s as [|c s].
  { by rewrite find_split_nil. }
  change (length (c :: s)) with (S (length s)).
  cbn [split_str_fuel]. destruct (find_split pat (c :: s)) as [[a b]|] eqn:E; [|done].
  f_equal. apply find_split_Some in E. apply (f_equal length) in E.
  rewrite !length_app in E. pose proof pat_len_pos. simpl in E.
  apply split_str_fuel_more; simpl; lia.
Qed.

Lemma split_str_ne s : split_str pat s ≠ [].
Proof using Hpat.
  rewrite split_str_unfold. by destruct (find_split pat s) as [[]|].
Qed.

(** The unfolding equation of [replace]. *)
Lemma replace_unfold new s :
  replace pat new s =
  match find_split pat s with
  | Some (a, b) => a ++ new ++ replace pat new b
  | None => s
  end.
Proof using Hpat.
  unfold replace. rewrite split_str_unfold. destruct (find_split pat s) as [[a b]|]; [|done].
  pose proof (split_str_ne b). simpl. by destruct (split_str pat b).
Qed.

(** Induction along the matches of the pattern. *)
Lemma match_ind (P : str → Prop) :
  (∀ s, find_split pat s = None → P s) →
  (∀ s a b, find_split pat s = Some (a, b) → P b → P s) →
  ∀ s, P s.
Proof using Hpat.
  intros H1 H2 s.
  remember (length s) as n eqn:Hn. assert (length s <= n)%nat as Hle by lia. clear Hn.
  revert s Hle. induction n as [|n IH]; intros s Hle.
  - apply H1. destruct s; [apply find_split_nil|simpl in Hle; lia].
  - destruct (find_split pat s) as [[a b]|] eqn:E; [|by apply H1].
    apply (H2 s a b E), IH. apply find_split_Some in E as ->.
    rewrite !length_app in Hle. pose proof pat_len_pos. lia.
Qed.
End split_str.

Lemma str_len_join sep ps :
  ps ≠ [] →
  str_len (join sep ps) =
    (foldr N.add 0 (str_len <$> ps) + (lenN ps - 1) * str_len sep)%N.
Proof.
  induction ps as [|p ps IH]; intros Hne; [done|].
  destruct ps as [|q ps]; [unfold lenN; simpl; lia|].
  specialize (IH ltac:(done)).
  change (join sep (p :: q :: ps)) with (p ++ sep ++ join sep (q :: ps)).
  rewrite !str_len_app, IH, !fmap_cons, !lenN_cons. simpl. lia.
Qed.

(** Replacing every match changes the length by the difference of the two
    texts, once per match. *)
Lemma replace_len pat new s :
  pat ≠ [] →
  (str_len (replace pat new s) + match_count pat s * str_len pat =
   str_len s + match_count pat s * str_len new)%N.
Proof.
  intros Hp. unfold replace, match_count.
  rewrite <- (split_str_join pat Hp s) at 3.
  rewrite !str_len_join by (by apply split_str_ne). lia.
Qed.

Lemma match_count_0 pat s :
  pat ≠ [] → match_count pat s = 0%N ↔ find_split pat s = None.
Proof.
  intros Hp. unfold match_count. rewrite split_str_unfold by done.
  destruct (find_split pat s) as [[a b]|]; simpl.
  - rewrite lenN_cons. split; [|done].
    pose proof (split_str_ne pat Hp b). destruct (split_str pat b); [done|].
    rewrite lenN_cons. lia.
  - done.
Qed.

Lemma match_count_S pat s a b :
  pat ≠ [] → find_split pat s = Some (a, b) →
  match_count pat s = (1 + match_count pat b)%N.
Proof.
  intros Hp E. unfold match_count. rewrite (split_str_unfold pat Hp s), E.
  rewrite lenN_cons. pose proof (split_str_ne pat Hp b).
  destruct (split_str pat b); [done|]. rewrite lenN_cons. lia.
Qed.

(** *** Bounded prefixes *)

Lemma split_floor_app max s : (split_floor max s).1 ++ (split_floor max s).2 = s.
Proof.
  revert max. induction s as [|c s IH]; intros max; simpl; [done|].
  case_decide; [|done]. specialize (IH (max - len_utf8 c)%N).
  destruct (split_floor _ s) as [a b]. simpl in *. by rewrite IH.
Qed.

Lemma split_floor_le max s : (str_len (split_floor max s).1 <= max)%N.
Proof.
  revert max. induction s as [|c s IH]; intros max; simpl; [lia|].
  case_decide; [|simpl; lia]. specialize (IH (max - len_utf8 c)%N).
  destruct (split_floor _ s) as [a b]. simpl in *. lia.
Qed.

(** Taking one more character would exceed the bound. *)
Lemma split_floor_max max s c r :
  (split_floor max s).2 = c :: r → (max < str_len (split_floor max s).1 + len_utf8 c)%N.
Proof.
  revert max. induction s as [|d s IH]; intros max; simpl; [done|].
  case_decide as Hd.
  - specialize (IH (max - len_utf8 d)%N).
    destruct (split_floor _ s) as [a b]. simpl in *. intros H. specialize (IH H). lia.
  - simpl. intros [= -> ->]. lia.
Qed.

Lemma split_floor_0 s : split_floor 0 s = ([], s).
Proof. destruct s as [|c s]; [done|]. simpl. rewrite decide_False; [done|]. pose proof (len_utf8_bounds c). lia. Qed.

Lemma split_floor_len s t : split_floor (str_len s) (s ++ t) = (s, t).
Proof.
  induction s as [|c s IH]; simpl; [apply split_floor_0|].
  rewrite decide_True by lia. replace (len_utf8 c + str_len s - len_utf8 c)%N with (str_len s) by lia.
  by rewrite IH.
Qed.

(** *** Decimal numbers *)

Definition is_decimal_digits (s : str) : bool :=
  bool_decide (s ≠ []) && forallb is_ascii_digit s.

Lemma show_fuel_digits f n acc :
  forallb is_ascii_digit acc = true → forallb is_ascii_digit (show_fuel f n acc) = true.
Proof.
  revert n acc. induction f as [|f IH]; intros n acc Hacc; simpl; [done|].
  assert (is_ascii_digit (48 + n mod 10) = true) as Hd.
  { apply bool_decide_eq_true. pose proof (N.mod_upper_bound n 10 ltac:(done)).
    set (d := (n mod 10)%N) in *. lia. }
  case_decide; [|apply IH]; simpl; by rewrite Hd, Hacc.
Qed.

Lemma show_fuel_ne f n acc : acc ≠ [] → show_fuel f n acc ≠ [].
Proof. revert n acc. induction f; intros; simpl; [done|]. case_decide; [done|]. by apply IHf. Qed.

Lemma show_N_digits n : is_decimal_digits (show_N n) = true.
Proof.
  unfold is_decimal_digits, show_N. apply andb_true_intro. split.
  - apply bool_decide_eq_true. simpl. case_decide; [done|]. by apply show_fuel_ne.
  - by apply show_fuel_digits.
Qed.

Lemma parse_digit_step a d :
  (d < 10)%N → (a * 10 + d <= usize_max)%N →
  parse_digit (Some a) (48 + d) = Some (a * 10 + d)%N.
Proof.
  intros Hd Hle. unfold parse_digit. cbn [mbind option_bind].
  replace (is_ascii_digit (48 + d)) with true
    by (symmetry; apply bool_decide_eq_true; lia).
  unfold checked_mul. rewrite decide_True by lia. cbn [mbind option_bind].
  unfold checked_add. rewrite decide_True by lia. f_equal. lia.
Qed.

Lemma parse_show_fuel f n acc :
  (n < 10 ^ N.of_nat f)%N → (n <= usize_max)%N →
  foldl parse_digit (Some 0%N) (show_fuel f n acc) = foldl parse_digit (Some n) acc.
Proof.
  revert n acc. induction f as [|f IH]; intros n acc Hf Hn.
  { simpl in *. replace n with 0%N by lia. done. }
  cbn [show_fuel]. pose proof (N.mod_upper_bound n 10 ltac:(done)) as Hm.
  pose proof (N.div_mod n 10 ltac:(done)) as Hdm.
  assert (n / 10 < 10 ^ N.of_nat f)%N as Hlt.
  { apply N.Div0.div_lt_upper_bound. rewrite Nat2N.inj_succ, N.pow_succ_r' in Hf. lia. }
  case_decide as H0.
  - set (d := (n mod 10)%N) in *. set (q := (n / 10)%N) in *.
    cbn [foldl]. rewrite parse_digit_step by lia. do 2 f_equal. lia.
  - set (d := (n mod 10)%N) in *. set (q := (n / 10)%N) in *.
    rewrite IH; [|done|lia].
    cbn [foldl]. rewrite parse_digit_step by lia. do 2 f_equal. lia.
Qed.

Lemma show_fuel_bound n : (n < 10 ^ N.of_nat (S (N.to_nat (N.log2 n))))%N.
Proof.
  rewrite Nat2N.inj_succ, N2Nat.id.
  destruct (decide (n = 0%N)) as [->|]; [done|].
  pose proof (N.log2_spec n ltac:(lia)) as [_ H].
  eapply N.lt_le_trans; [exact H|]. apply N.pow_le_mono_l. lia.
Qed.

(** Printing then parsing a [usize] gives it back. *)
Lemma parse_show n : (n <= usize_max)%N → parse_usize (show_N n) = Some n.
Proof.
  intros Hn. pose proof (show_N_digits n) as Hd.
  unfold is_decimal_digits in Hd. apply andb_prop in Hd as [Hne Hd].
  unfold parse_usize.
  assert (strip_prefix (lit "+") (show_N n) = None) as ->.
  { apply strip_prefix_None. intros r Hr. rewrite Hr in Hd. discriminate. }
  simpl. destruct (show_N n) as [|c s] eqn:E; [done|]. rewrite <- E.
  unfold show_N. rewrite parse_show_fuel; [done| |done]. apply show_fuel_bound.
Qed.

(** *** UTF-8 *)

Lemma as_bytes_cons c s : as_bytes (c :: s) = encode_char c ++ as_bytes s.
Proof. reflexivity. Qed.

Lemma as_bytes_app s t : as_bytes (s ++ t) = as_bytes s ++ as_bytes t.
Proof. apply bind_app. Qed.

Lemma as_bytes_join c ps : as_bytes (join [c] ps) = join (encode_char c) (as_bytes <$> ps).
Proof.
  induction ps as [|p [|q ps] IH]; [done..|]. change (join [c] (p :: q :: ps)) with (p ++ [c] ++ join [c] (q :: ps)).
  rewrite !as_bytes_app, IH. cbn. by rewrite app_nil_r.
Qed.

Lemma from_utf8_fuel_sound f bs s : from_utf8_fuel f bs = Some s → as_bytes s = bs.
Proof.
  revert bs s. induction f as [|f IH]; intros bs s.
  { destruct bs; simpl; [by intros [= <-]|done]. }
  destruct bs as [|b bs]; [by intros [= <-]|].
  cbn [from_utf8_fuel]. destruct (decode_char (b :: bs)) as [[c rest]|] eqn:E; [|done].
  destruct (from_utf8_fuel f rest) as [s'|] eqn:F; [|done]. intros [= <-].
  apply IH in F. rewrite as_bytes_cons, F. clear F IH.
  unfold decode_char in E.
  repeat match type of E with
  | context [decide ?P] => destruct (decide P)
  | context [match ?l with [] => _ | _ :: _ => _ end] => destruct l
  | (if ?b && bool_decide ?P then _ else _) = _ =>
      destruct b; simpl in E; [|done]; case_bool_decide as Hc; [|done]
  end; simplify_eq; rewrite <- Hc;
    first [ exact (take_drop 1 (_ :: _)) | exact (take_drop 2 (_ :: _))
          | exact (take_drop 3 (_ :: _)) | exact (take_drop 4 (_ :: _)) ].
Qed.

(** Whatever [String::from_utf8] accepts, its result has exactly those bytes. *)
Lemma from_utf8_sound bs s : from_utf8 bs = Some s → as_bytes s = bs.
Proof. apply from_utf8_fuel_sound. Qed.

(** Names every quotient and remainder by a variable, for [lia]. *)
Ltac name_divs :=
  repeat match goal with
  | |- context [(?a / ?b)%N] => let q := fresh "q" in set (q := (a / b)%N) in *
  | |- context [(?a mod ?b)%N] => let r := fresh "r" in set (r := (a mod b)%N) in *
  end.

Lemma decode_encode_char c rest :
  is_scalar c = true → decode_char (encode_char c ++ rest) = Some (c, rest).
Proof.
  intros Hc.
  assert (c <= 0x10FFFF)%N as Hmax.
  { unfold is_scalar in Hc. destruct (orb_prop _ _ Hc) as [H|H];
      apply bool_decide_eq_true in H; lia. }
  pose proof (N.div_mod c 64 ltac:(done)) as H1.
  pose proof (N.div_mod (c / 64) 64 ltac:(done)) as H2.
  pose proof (N.div_mod (c / 4096) 64 ltac:(done)) as H3.
  rewrite N.Div0.div_div in H2, H3.
  change (64 * 64)%N with 4096%N in H2. change (4096 * 64)%N with 262144%N in H3.
  remember (encode_char c) as e eqn:He. pose proof He as He'.
  unfold encode_char in He'. repeat case_decide; subst e; rewrite He';
    cbn [app decode_char]; name_divs;
    rewrite ?decide_False by lia; rewrite ?decide_True by lia;
    (replace (encode_char _) with (encode_char c) by (f_equal; lia));
    (match goal with |- context [is_scalar ?x] => replace x with c by lia end);
    rewrite Hc, bool_decide_eq_true_2 by (rewrite He'; done); done.
Qed.

Lemma encode_char_len c : lenN (encode_char c) = len_utf8 c.
Proof. unfold encode_char, len_utf8. by repeat case_decide. Qed.

(** [str::len] is the number of bytes of [str::as_bytes]. *)
Lemma as_bytes_len s : lenN (as_bytes s) = str_len s.
Proof.
  induction s as [|c s IH]; [done|].
  by rewrite as_bytes_cons, lenN_app, encode_char_len, IH.
Qed.

Lemma from_utf8_fuel_complete f s :
  (length (as_bytes s) <= f)%nat → forallb is_scalar s = true →
  from_utf8_fuel f (as_bytes s) = Some s.
Proof.
  revert f. induction s as [|c s IH]; intros f Hf Hs; [by destruct f|].
  simpl in Hs. apply andb_prop in Hs as [Hc Hs]. rewrite as_bytes_cons in *.
  rewrite length_app in Hf.
  pose proof (encode_char_len c) as Hl. pose proof (len_utf8_bounds c). unfold lenN in Hl.
  destruct f as [|f]; [lia|].
  destruct (encode_char c ++ _) as [|b bs] eqn:E.
  { apply (f_equal length) in E. rewrite length_app in E. simpl in E. lia. }
  cbn [from_utf8_fuel]. rewrite <- E, decode_encode_char by done.
  by rewrite IH by (done || lia).
Qed.

(** Decoding the bytes of a string gives the string back. *)
Lemma from_utf8_as_bytes s : forallb is_scalar s = true → from_utf8 (as_bytes s) = Some s.
Proof. by apply from_utf8_fuel_complete. Qed.

Lemma encode_char_bytes c : encode_char c = [c] ∨ Forall (λ b, 0x80 <= b)%N (encode_char c).
Proof.
  unfold encode_char. repeat case_decide; [by left|right..];
    repeat constructor; (etrans; [|apply N.le_add_r]); done.
Qed.

Lemma encode_char_ascii c b : b ∈ encode_char c → (b < 0x80)%N → encode_char c = [b].
Proof.
  intros Hb Hlt. destruct (encode_char_bytes c) as [Hc|Hc].
  - rewrite Hc in Hb |- *. by apply list_elem_of_singleton in Hb as ->.
  - rewrite Forall_forall in Hc. specialize (Hc b Hb). lia.
Qed.

(** A byte below 0x80 is its own character. *)
Lemma as_bytes_ascii c s : (c < 0x80)%N → c ∈ as_bytes s → c ∈ s.
Proof.
  intros Hc. unfold as_bytes. rewrite list_elem_of_bind. intros (d & Hd & Hs).
  pose proof (encode_char_ascii d c Hd Hc) as He. destruct (encode_char_bytes d) as [Hb|Hb].
  - rewrite Hb in He. by injection He as <-.
  - rewrite He in Hb. apply Forall_inv in Hb. lia.
Qed.
Lemma split_char_bytes c s :
  (c < 0x80)%N → split_char c (as_bytes s) = as_bytes <$> split_char c s.
Proof.
  intros Hc. assert (He : encode_char c = [c]) by (unfold encode_char; by rewrite decide_True).
  rewrite <- (split_char_join c s) at 1. rewrite as_bytes_join, He. apply split_join.
  - intros Hn%fmap_nil_inv. by apply split_char_ne in Hn.
  - apply Forall_fmap, Forall_forall. intros p Hp Hin. apply (split_char_no_sep c s p Hp). by apply as_bytes_ascii.
Qed.
