(* ===== verification/Kmp.v ===== *)
(** String matching by borders: the combinatorics behind the Codex matcher.

    [sfx P k T] says that the first [k] elements of the pattern end the text read
    so far; the failure table holds the longest proper border of every pattern
    prefix; [kmp_step] says that falling back through the table and extending by
    one element keeps the longest such [k]. *)

From S2P Require Import Prelude.

Section kmp.
Context {A : Type} `{EqDecision A} (P : list A).

(** [while matched > 0 && pattern[matched] != c { matched = prefix[matched - 1] }] *)
Fixpoint kmp_back (fuel : nat) (prefix : list nat) (matched : nat) (c : A) : nat :=
  match fuel with
  | O => matched
  | S f =>
      if decide (0 < matched ∧ P !! matched ≠ Some c)
      then kmp_back f prefix (default 0 (prefix !! (matched - 1))) c
      else matched
  end.

(** [if pattern[matched] == c { matched += 1 }] *)
Definition kmp_extend (matched : nat) (c : A) : nat :=
  if decide (P !! matched = Some c) then S matched else matched.

Definition sfx (k : nat) (T : list A) : Prop := take k P `suffix_of` T.

(** The table is right up to (not including) entry [n]: every entry is the longest
    proper border of the pattern prefix that ends there. *)
Definition prefix_ok (n : nat) (prefix : list nat) : Prop :=
  ∀ i, (i < n)%nat → ∃ b, prefix !! i = Some b ∧ (b <= i)%nat ∧
    take b P `suffix_of` take (S i) P ∧
    ∀ j, (j <= i)%nat → take j P `suffix_of` take (S i) P → (j <= b)%nat.

(** [m] is the longest of the first [b] pattern prefixes that end [T]. *)
Definition longest (b m : nat) (T : list A) : Prop :=
  (m <= b)%nat ∧ sfx m T ∧ ∀ j, (j <= b)%nat → sfx j T → (j <= m)%nat.

Lemma sfx_0 T : sfx 0 T.
Proof using Type. apply suffix_nil. Qed.

Lemma sfx_snoc k T c :
  (k < length P)%nat → sfx (S k) (T ++ [c]) ↔ sfx k T ∧ P !! k = Some c.
Proof using Type.
  intros Hk. apply lookup_lt_is_Some in Hk as [x Hx]. unfold sfx.
  rewrite (take_S_r _ _ _ Hx). split.
  - intros [r Hr]. rewrite app_assoc in Hr. apply app_inj_tail in Hr as [-> <-].
    split; [by exists r|done].
  - intros [[r ->] Hc]. rewrite Hx in Hc. injection Hc as ->. exists r. by rewrite app_assoc.
Qed.

Lemma suffix_shorter (l1 l2 T : list A) :
  l1 `suffix_of` T → l2 `suffix_of` T → (length l1 <= length l2)%nat → l1 `suffix_of` l2.
Proof using Type.
  intros [r1 H1] [r2 H2] Hlen. subst T.
  assert (length r2 <= length r1)%nat as Hr.
  { apply (f_equal length) in H2. rewrite !length_app in H2. lia. }
  exists (drop (length r2) r1). apply (f_equal (drop (length r2))) in H2.
  rewrite drop_app_length, drop_app_le in H2 by done. done.
Qed.

Lemma sfx_border j k T :
  (j <= k)%nat → sfx j T → sfx k T → take j P `suffix_of` take k P.
Proof using Type.
  intros Hjk Hj Hk. eapply suffix_shorter; [exact Hj|exact Hk|]. rewrite !length_take. lia.
Qed.

Lemma sfx_trans j k T : take j P `suffix_of` take k P → sfx k T → sfx j T.
Proof using Type. unfold sfx. intros H1 H2. by etrans. Qed.

Lemma kmp_back_spec fuel prefix m c T :
  (m <= fuel)%nat → prefix_ok m prefix → sfx m T →
  let m' := kmp_back fuel prefix m c in
  (m' <= m)%nat ∧ sfx m' T ∧ (m' = 0 ∨ P !! m' = Some c) ∧
  ∀ j, (j <= m)%nat → sfx j T → P !! j = Some c → (j <= m')%nat.
Proof using Type.
  revert m. induction fuel as [|fuel IH]; intros m Hf Hp Hm; cbn [kmp_back].
  { assert (m = 0) as -> by lia. split_and!; [lia|done|by left|]. intros; lia. }
  case_decide as Hd.
  - destruct Hd as [Hpos Hne].
    destruct (Hp (m - 1) ltac:(lia)) as (b & Hb & Hbm & Hbs & Hbmax). rewrite Hb. simpl.
    replace (S (m - 1)) with m in * by lia.
    destruct (IH b) as (H1 & H2 & H3 & H4); [lia| |by apply (sfx_trans b m)|].
    { intros i Hi. apply Hp. lia. }
    split_and!; [lia|done|done|]. intros j Hj Hjs Hjc.
    apply H4; [|done|done]. apply Hbmax.
    + destruct (decide (j = m)) as [->|]; [done|lia].
    + by apply (sfx_border j m T).
  - split_and!; [lia|done| |lia].
    destruct (decide (m = 0)); [by left|right].
    destruct (decide (P !! m = Some c)); [done|]. exfalso. apply Hd. split; [lia|done].
Qed.

Lemma kmp_step prefix b m T c :
  prefix_ok m prefix → longest b m T → (b < length P)%nat →
  longest (S b) (kmp_extend (kmp_back m prefix m c) c) (T ++ [c]).
Proof using Type.
  intros Hp (Hmb & Hm & Hmax) Hb.
  pose proof (kmp_back_spec m prefix m c T ltac:(lia) Hp Hm) as (H1 & H2 & H3 & H4).
  set (m1 := kmp_back m prefix m c) in *. unfold kmp_extend.
  assert (∀ k, (S k <= S b)%nat → sfx (S k) (T ++ [c]) → (k <= m1)%nat ∧ P !! k = Some c) as Hk.
  { intros k Hkb Hs. apply sfx_snoc in Hs as [Hs Hc]; [|lia].
    split; [|done]. apply H4; [apply Hmax; [lia|done]|done|done]. }
  case_decide as Hc.
  - split_and!; [lia|apply sfx_snoc; [lia|done]|].
    intros [|k] Hkb Hs; [lia|]. apply Hk in Hs as [? _]; lia.
  - destruct H3 as [H0|?]; [|done]. rewrite H0 in *.
    split_and!; [lia|apply sfx_0|]. intros [|k] Hkb Hs; [lia|].
    apply Hk in Hs as [Hk0 Hkc]; [|done]. replace k with 0 in Hkc by lia. done.
Qed.

(** Capping the candidates below the full pattern after a complete match. *)
Lemma longest_reset prefix b T :
  length P = S b → prefix_ok (S b) prefix → longest (S b) (S b) T →
  longest b (default 0 (prefix !! b)) T.
Proof using Type.
  intros Hlen Hp (_ & Hm & _). destruct (Hp b ltac:(lia)) as (x & Hx & Hxb & Hxs & Hxmax).
  rewrite Hx. simpl. split_and!; [done|by apply (sfx_trans x (S b))|].
  intros j Hj Hjs. apply Hxmax; [done|]. by apply (sfx_border j (S b) T); [lia|..].
Qed.

Lemma longest_cap b m T : (m <= b)%nat → longest (S b) m T → longest b m T.
Proof using Type. intros Hm (_ & H1 & H2). split_and!; [done..|]. intros j ??. apply H2; [lia|done]. Qed.

(** The whole pattern ends [T] exactly when the longest match is complete. *)
Lemma longest_full b m T :
  length P = S b → longest (S b) m T → (m = S b ↔ P `suffix_of` T).
Proof using Type.
  intros Hlen (H1 & H2 & H3). rewrite <- (firstn_all P) at 1. rewrite Hlen.
  fold (sfx (S b) T). split; [by intros ->|]. intros H. apply H3 in H; lia.
Qed.

(** *** The table *)

Definition kmp_table_step (st : list nat * nat) (index : nat) : list nat * nat :=
  let '(prefix, matched) := st in
  match P !! index with
  | Some c =>
      let matched := kmp_extend (kmp_back matched prefix matched c) c in
      (<[index := matched]> prefix, matched)
  | None => st
  end.

Definition kmp_table : list nat :=
  (foldl kmp_table_step (replicate (length P) 0, 0) (seq 1 (length P - 1))).1.

Lemma prefix_ok_le n m prefix : (m <= n)%nat → prefix_ok n prefix → prefix_ok m prefix.
Proof using Type. intros H Hp i Hi. apply Hp. lia. Qed.

(** A proper border of [take (S i) P] is a pattern prefix that ends its tail. *)
Lemma border_tail i j :
  (S i <= length P)%nat → (j <= i)%nat →
  take j P `suffix_of` take (S i) P ↔ sfx j (tail (take (S i) P)).
Proof using Type.
  intros Hi Hj. unfold sfx. destruct P as [|x P'] eqn:E; [simpl in Hi; lia|]. rewrite <- E in *.
  replace (take (S i) P) with (x :: take i P') by (by rewrite E). simpl. split.
  - intros H. eapply suffix_shorter; [exact H|by exists [x]|].
    rewrite length_take. rewrite E in Hi. simpl in Hi. rewrite length_take. lia.
  - intros H. etrans; [exact H|by exists [x]].
Qed.

Lemma kmp_table_loop k i prefix m :
  (1 <= i)%nat → (i + k = length P)%nat → length prefix = length P →
  prefix_ok i prefix → longest (i - 1) m (tail (take i P)) →
  let st := foldl kmp_table_step (prefix, m) (seq i k) in
  length st.1 = length P ∧ prefix_ok (length P) st.1.
Proof using Type.
  revert i prefix m. induction k as [|k IH]; intros i prefix m Hi Hk Hlen Hp Hm.
  { simpl. split; [done|]. by replace (length P) with i by lia. }
  cbn [seq foldl]. unfold kmp_table_step at 2 4.
  destruct (lookup_lt_is_Some_2 P i ltac:(lia)) as [c Hc]. rewrite Hc.
  assert (m <= i - 1)%nat as Hmi by apply Hm.
  assert (longest (S (i - 1)) (kmp_extend (kmp_back m prefix m c) c)
            (tail (take (S i) P))) as Hstep.
  { rewrite (take_S_r _ _ _ Hc).
    replace (tail (take i P ++ [c])) with (tail (take i P) ++ [c]).
    - apply kmp_step; [apply (prefix_ok_le i); [lia|done]|done|lia].
    - destruct (take i P) eqn:E; [|done]. apply (f_equal length) in E.
      rewrite length_take in E. simpl in E. lia. }
  replace (S (i - 1)) with i in Hstep by lia.
  apply IH; [lia|lia|by rewrite length_insert| |by replace (S i - 1) with i by lia].
  intros i' Hi'. destruct (decide (i' = i)) as [->|].
  - eexists. rewrite list_lookup_insert_eq by lia. destruct Hstep as (H1 & H2 & H3).
    split_and!; [done|lia|by apply border_tail; [lia..|]|].
    intros j Hj Hjs. apply H3; [lia|]. by apply border_tail; [lia..|].
  - destruct (Hp i' ltac:(lia)) as (b & Hb & ?). exists b.
    by rewrite list_lookup_insert_ne by lia.
Qed.

Lemma kmp_table_ok : P ≠ [] → length kmp_table = length P ∧ prefix_ok (length P) kmp_table.
Proof using Type.
  intros HP. assert (1 <= length P)%nat as Hl by (destruct P; [done|simpl; lia]).
  apply kmp_table_loop; [lia|lia|by rewrite length_replicate| |].
  - intros i Hi. exists 0. replace i with 0 by lia. split_and!.
    + by rewrite lookup_replicate_2 by lia.
    + lia.
    + apply suffix_nil.
    + intros; lia.
  - split_and!; [lia|apply sfx_0|]. intros; lia.
Qed.
End kmp.
