(* ===== verification/PatchApply.v ===== *)
(** The patch engine's core, [tools/apply_patch/apply.rs].

    A source file is split into lines that remember their ending; resolved hunks
    (from either patch dialect) are replayed over the lines by a cursor and a
    result builder that enforces the size bound.  The specification is the
    relation [patched]: each hunk rewrites exactly its old lines in place and
    every other line is copied.  [apply_resolved_hunks] is proved equivalent to
    it, both ways. *)

From S2P Require Import Prelude RustStr.

(** The three tool errors this module returns ([minicore_runtime::tools::ToolError]). *)
Inductive ToolError := InvalidInvocation | Failed | Internal.
#[global] Instance ToolError_eq_dec : EqDecision ToolError.
Proof. solve_decision. Defined.

Abbreviation tool A := (result ToolError A).

(** [tools/mod.rs]: 512 KiB. *)
Definition MAX_PATCH_BYTES : N := 524288.

Inductive LineEnding := NoEnding | Lf | Crlf.
#[global] Instance LineEnding_eq_dec : EqDecision LineEnding.
Proof. solve_decision. Defined.

Definition LineEnding_as_str (e : LineEnding) : str :=
  match e with NoEnding => [] | Lf => [LF] | Crlf => [CR; LF] end.

Record SourceLine := mkLine { text : str; ending : LineEnding }.
#[global] Instance SourceLine_eq_dec : EqDecision SourceLine.
Proof. solve_decision. Defined.

Inductive PatchLineKind := Context | Remove | Add.
#[global] Instance PatchLineKind_eq_dec : EqDecision PatchLineKind.
Proof. solve_decision. Defined.

Record PatchContent := mkContent {
  kind : PatchLineKind;
  ctext : str;
  old_no_newline : bool;
  new_no_newline : bool;
  context_new_ending : option LineEnding
}.
#[global] Instance PatchContent_eq_dec : EqDecision PatchContent.
Proof. solve_decision. Defined.

Record HunkRange := mkRange { index : N; count : N; end_ : N }.
Record ResolvedHunk := mkHunk {
  old : HunkRange; new : HunkRange; contents : list PatchContent
}.

Definition add (left right : N) : tool N :=
  ok_or (checked_add left right) InvalidInvocation.
Definition sub (left right : N) : tool N :=
  ok_or (checked_sub left right) InvalidInvocation.

(** [PatchLineKind::delta]. *)
Definition delta (k : PatchLineKind) : N * N :=
  match k with Context => (1, 1) | Remove => (1, 0) | Add => (0, 1) end%N.

(** *** The result builder *)

Record ResultBuilder := mkBuilder {
  value : str;
  line_count : N;
  previous_had_no_newline : bool
}.

Definition builder_new : ResultBuilder := mkBuilder [] 0 false.

Definition append (b : ResultBuilder) (t : str) (e : LineEnding) : tool ResultBuilder :=
  if previous_had_no_newline b then Err Failed else
  added ← ok_or (checked_add (str_len t) (str_len (LineEnding_as_str e))) InvalidInvocation;
  result_len ← ok_or (checked_add (str_len (value b)) added) InvalidInvocation;
  if decide (MAX_PATCH_BYTES < result_len)%N then Err InvalidInvocation else
  line_count' ← add (line_count b) 1;
  Ok (mkBuilder (value b ++ t ++ LineEnding_as_str e) line_count' (bool_decide (e = NoEnding))).

(** *** Splitting the source *)

(** One pass over the bytes: [cur] is the text since [start], reversed. *)
Fixpoint split_lines_from (cur : str) (s : str) : list SourceLine :=
  match s with
  | [] => match cur with [] => [] | _ => [mkLine (reverse cur) NoEnding] end
  | c :: s' =>
      if decide (c = LF) then
        match cur with
        | d :: cur' =>
            if decide (d = CR) then mkLine (reverse cur') Crlf :: split_lines_from [] s'
            else mkLine (reverse cur) Lf :: split_lines_from [] s'
        | [] => mkLine [] Lf :: split_lines_from [] s'
        end
      else split_lines_from (c :: cur) s'
  end.
Definition split_source_lines (source : str) : list SourceLine := split_lines_from [] source.

Definition line_str (l : SourceLine) : str := text l ++ LineEnding_as_str (ending l).
Definition render (ls : list SourceLine) : str := ls ≫= line_str.

(** *** The preferred ending *)

Definition get_or_insert {A} (o : option A) (a : A) : option A := Some (default a o).

Definition count_ending (acc : N * N * option LineEnding) (l : SourceLine)
    : N * N * option LineEnding :=
  let '(lf, crlf, first) := acc in
  match ending l with
  | Lf => (saturating_add lf 1, crlf, get_or_insert first Lf)
  | Crlf => (lf, saturating_add crlf 1, get_or_insert first Crlf)
  | NoEnding => (lf, crlf, first)
  end.

Definition preferred_line_ending (lines : list SourceLine) : LineEnding :=
  let '(lf, crlf, first) := foldl count_ending (0%N, 0%N, None) lines in
  match (crlf ?= lf)%N with
  | Gt => Crlf
  | Lt => Lf
  | Eq => default Lf first
  end.

(** *** Replaying hunks *)

Definition append_source_line (source : list SourceLine) (cursor : N) (b : ResultBuilder)
    : tool (N * ResultBuilder) :=
  line ← ok_or (getN source cursor) Failed;
  b' ← append b (text line) (ending line);
  cursor' ← ok_or (checked_add cursor 1) Internal;
  Ok (cursor', b').

Definition matching_source_line (c : PatchContent) (source : list SourceLine) (cursor : N)
    : tool SourceLine :=
  line ← ok_or (getN source cursor) Failed;
  let has_no_newline := bool_decide (ending line = NoEnding) in
  if decide (text line ≠ ctext c ∨ has_no_newline ≠ old_no_newline c)
  then Err Failed else Ok line.

Definition apply_patch_content (preferred : LineEnding) (source : list SourceLine)
    (c : PatchContent) (st : N * ResultBuilder) : tool (N * ResultBuilder) :=
  let '(cursor, b) := st in
  match kind c with
  | Context =>
      line ← matching_source_line c source cursor;
      let e := default (ending line) (context_new_ending c) in
      b' ← append b (text line) e;
      cursor' ← ok_or (checked_add cursor 1) Internal;
      Ok (cursor', b')
  | Remove =>
      _ ← matching_source_line c source cursor;
      cursor' ← ok_or (checked_add cursor 1) Internal;
      Ok (cursor', b)
  | Add =>
      let e := if new_no_newline c then NoEnding else preferred in
      b' ← append b (ctext c) e;
      Ok (cursor, b')
  end.

Fixpoint apply_contents (preferred : LineEnding) (source : list SourceLine)
    (cs : list PatchContent) (st : N * ResultBuilder) : tool (N * ResultBuilder) :=
  match cs with
  | [] => Ok st
  | c :: cs' => st' ← apply_patch_content preferred source c st;
                apply_contents preferred source cs' st'
  end.

(** [while source_cursor < target]: each round reads a line, so the source's
    length bounds the number of rounds. *)
Fixpoint copy_until (fuel : nat) (source : list SourceLine) (target : N)
    (st : N * ResultBuilder) : tool (N * ResultBuilder) :=
  let '(cursor, b) := st in
  if decide (cursor < target)%N then
    match fuel with
    | O => Err Internal
    | S f => st' ← append_source_line source cursor b; copy_until f source target st'
    end
  else Ok st.

Record ApplyState := mkApply {
  source_cursor : N;
  builder : ResultBuilder;
  previous_old_end : N;
  previous_new_end : N
}.

Definition apply_hunk (preferred : LineEnding) (source : list SourceLine)
    (st : ApplyState) (h : ResolvedHunk) : tool ApplyState :=
  if decide (index (old h) < previous_old_end st ∨ index (new h) < previous_new_end st)%N
  then Err InvalidInvocation else
  '(cursor, b) ← copy_until (S (length source)) source (index (old h))
                   (source_cursor st, builder st);
  if decide (cursor ≠ index (old h) ∨ line_count b ≠ index (new h)) then Err Failed else
  '(cursor, b) ← apply_contents preferred source (contents h) (cursor, b);
  if decide (cursor ≠ end_ (old h) ∨ line_count b ≠ end_ (new h)) then Err Failed else
  Ok (mkApply cursor b (end_ (old h)) (end_ (new h))).

Fixpoint apply_hunks (preferred : LineEnding) (source : list SourceLine)
    (st : ApplyState) (hs : list ResolvedHunk) : tool ApplyState :=
  match hs with
  | [] => Ok st
  | h :: hs' => st' ← apply_hunk preferred source st h;
                apply_hunks preferred source st' hs'
  end.

Definition apply_resolved_hunks (source_lines : list SourceLine) (hunks : list ResolvedHunk)
    : tool str :=
  let preferred := preferred_line_ending source_lines in
  st ← apply_hunks preferred source_lines (mkApply 0 builder_new 0 0) hunks;
  '(cursor, b) ← copy_until (S (length source_lines)) source_lines (lenN source_lines)
                   (source_cursor st, builder st);
  if decide (cursor ≠ lenN source_lines) then Err Internal else
  Ok (value b).

(** ** Specification *)

Definition line_matches (c : PatchContent) (l : SourceLine) : Prop :=
  text l = ctext c ∧ bool_decide (ending l = NoEnding) = old_no_newline c.

(** [rewrites pref cs os ns]: the hunk body [cs] consumes the source lines [os]
    and produces the lines [ns]. *)
Inductive rewrites (pref : LineEnding) :
    list PatchContent → list SourceLine → list SourceLine → Prop :=
  | rewrites_nil : rewrites pref [] [] []
  | rewrites_context c cs l os ns :
      kind c = Context → line_matches c l → rewrites pref cs os ns →
      rewrites pref (c :: cs) (l :: os)
        (mkLine (text l) (default (ending l) (context_new_ending c)) :: ns)
  | rewrites_remove c cs l os ns :
      kind c = Remove → line_matches c l → rewrites pref cs os ns →
      rewrites pref (c :: cs) (l :: os) ns
  | rewrites_add c cs os ns :
      kind c = Add → rewrites pref cs os ns →
      rewrites pref (c :: cs) os
        (mkLine (ctext c) (if new_no_newline c then NoEnding else pref) :: ns).

(** [patched pref o n src hs out]: replaying the hunks [hs] over the source lines
    [src] that start at old line [o] and new line [n] gives [out]. *)
Inductive patched (pref : LineEnding) :
    N → N → list SourceLine → list ResolvedHunk → list SourceLine → Prop :=
  | patched_done o n src : patched pref o n src [] src
  | patched_hunk o n pre os rest h hs ns out :
      index (old h) = (o + lenN pre)%N → index (new h) = (n + lenN pre)%N →
      end_ (old h) = (index (old h) + lenN os)%N →
      end_ (new h) = (index (new h) + lenN ns)%N →
      rewrites pref (contents h) os ns →
      patched pref (end_ (old h)) (end_ (new h)) rest hs out →
      patched pref o n (pre ++ os ++ rest) (h :: hs) (pre ++ ns ++ out).

(** A result the builder accepts: only its last line may lack an ending, and it
    fits the size bound. *)
Definition valid_out (ls : list SourceLine) : Prop :=
  Forall (λ l, ending l ≠ NoEnding) (removelast ls) ∧
  (str_len (render ls) <= MAX_PATCH_BYTES)%N.

(** ** Lines and rendering *)

Lemma render_app ls ks : render (ls ++ ks) = render ls ++ render ks.
Proof. apply bind_app. Qed.

Lemma render_cons l ls : render (l :: ls) = line_str l ++ render ls.
Proof. reflexivity. Qed.

Lemma split_lines_from_render cur s :
  render (split_lines_from cur s) = reverse cur ++ s.
Proof.
  revert cur. induction s as [|c s IH]; intros cur; simpl.
  { destruct cur; [done|]. rewrite render_cons. unfold line_str. simpl. by rewrite !app_nil_r. }
  case_decide; subst.
  - destruct cur as [|d cur]; [|case_decide; subst]; rewrite render_cons, IH;
      unfold line_str; simpl; rewrite ?reverse_cons, <- ?app_assoc; done.
  - rewrite IH, reverse_cons, <- app_assoc. done.
Qed.

(** The text of a line never holds a line feed. *)
Definition line_ok (l : SourceLine) : Prop :=
  LF ∉ text l ∧ (ending l = Lf → last (text l) ≠ Some CR) ∧
  (ending l = NoEnding → text l ≠ []).

Lemma split_lines_from_ok cur s :
  LF ∉ cur → Forall line_ok (split_lines_from cur s).
Proof.
  revert cur. induction s as [|c s IH]; intros cur Hcur; simpl.
  { destruct cur as [|d cur]; [done|]. repeat constructor; simpl; [|done|].
    - by rewrite elem_of_reverse.
    - intros _ H. apply (f_equal length) in H. rewrite length_reverse in H. done. }
  case_decide; subst.
  - destruct cur as [|d cur]; [|case_decide; subst];
      (constructor; [|apply IH, not_elem_of_nil]); repeat split; simpl;
      rewrite ?elem_of_reverse; try done; try set_solver.
    rewrite reverse_cons, last_snoc. congruence.
  - apply IH. set_solver.
Qed.

Lemma split_lines_from_wf cur s :
  Forall (λ l, ending l ≠ NoEnding) (removelast (split_lines_from cur s)).
Proof.
  revert cur. induction s as [|c s IH]; intros cur; simpl.
  { by destruct cur. }
  assert (∀ l, ending l ≠ NoEnding →
    Forall (λ l, ending l ≠ NoEnding) (removelast (l :: split_lines_from [] s))) as Hc.
  { intros l Hl. specialize (IH []). simpl.
    destruct (split_lines_from [] s); [constructor|by constructor]. }
  repeat case_decide; subst; [destruct cur as [|d cur]; [|case_decide]; by apply Hc|apply IH].
Qed.

Lemma split_lines_len ls : Forall line_ok ls → (lenN ls <= str_len (render ls))%N.
Proof.
  induction 1 as [|l ls Hl _ IH]; [done|].
  rewrite render_cons, str_len_app, lenN_cons. destruct Hl as (_ & _ & Hne).
  unfold line_str. rewrite str_len_app. pose proof (str_len_0 (text l)).
  destruct (ending l); simpl; unfold len_utf8; simpl; [|lia|lia].
  destruct (decide (str_len (text l) = 0%N)); [|lia]. naive_solver.
Qed.

(** ** The builder *)

Definition builder_of (ls : list SourceLine) : ResultBuilder :=
  mkBuilder (render ls) (lenN ls)
    (match last ls with Some l => bool_decide (ending l = NoEnding) | None => false end).

Lemma valid_out_app ls ks : valid_out (ls ++ ks) → valid_out ls.
Proof.
  intros [H1 H2]. rewrite render_app, str_len_app in H2. split; [|lia].
  destruct ks as [|k ks]; [by rewrite app_nil_r in H1|].
  rewrite removelast_app in H1 by done. apply Forall_app in H1 as [H1 _].
  destruct ls as [|l ls _] using rev_ind; [constructor|].
  rewrite removelast_last. by apply Forall_app in H1 as [H1 _].
Qed.

Lemma valid_out_len ls : valid_out ls → (lenN ls <= MAX_PATCH_BYTES + 1)%N.
Proof.
  intros [H1 H2]. destruct ls as [|l ls _] using rev_ind; [done|].
  rewrite removelast_last in H1. rewrite render_app, str_len_app in H2.
  rewrite lenN_app, lenN_cons, lenN_nil.
  assert (lenN ls <= str_len (render ls))%N; [|lia]. clear H2.
  induction H1 as [|x xs Hx _ IH]; [done|].
  rewrite lenN_cons, render_cons, str_len_app. unfold line_str. rewrite str_len_app.
  destruct (ending x); [done|..]; simpl; unfold len_utf8; simpl; lia.
Qed.

Lemma builder_of_snoc ls t e :
  builder_of (ls ++ [mkLine t e]) =
  mkBuilder (render ls ++ t ++ LineEnding_as_str e) (lenN ls + 1) (bool_decide (e = NoEnding)).
Proof.
  unfold builder_of. rewrite last_snoc, render_app, lenN_app. simpl.
  unfold render at 2, line_str. simpl. by rewrite app_nil_r.
Qed.

Lemma valid_out_snoc ls t e :
  valid_out (ls ++ [mkLine t e]) ↔
  Forall (λ l, ending l ≠ NoEnding) ls ∧
  (str_len (render ls) + (str_len t + str_len (LineEnding_as_str e)) <= MAX_PATCH_BYTES)%N.
Proof.
  unfold valid_out. rewrite removelast_last, render_app, str_len_app.
  unfold render at 2, line_str. simpl. by rewrite app_nil_r, str_len_app.
Qed.

(** The builder refuses exactly a line after an unterminated one. *)
Lemma builder_of_open ls :
  valid_out ls →
  previous_had_no_newline (builder_of ls) = false ↔ Forall (λ l, ending l ≠ NoEnding) ls.
Proof.
  intros [Hls _]. unfold builder_of; simpl.
  destruct ls as [|l ls _] using rev_ind; [done|].
  rewrite last_snoc, Forall_app, Forall_singleton, bool_decide_eq_false.
  rewrite removelast_last in Hls. naive_solver.
Qed.

Lemma append_spec ls t e b' :
  valid_out ls →
  append (builder_of ls) t e = Ok b' ↔
  valid_out (ls ++ [mkLine t e]) ∧ b' = builder_of (ls ++ [mkLine t e]).
Proof.
  intros Hls. pose proof (valid_out_len _ Hls) as Hlen.
  rewrite valid_out_snoc, builder_of_snoc, <- (builder_of_open ls Hls).
  unfold append. destruct (previous_had_no_newline (builder_of ls)); [naive_solver|].
  cbn [builder_of value line_count].
  unfold add, checked_add, usize_max, u64_max, MAX_PATCH_BYTES in *.
  generalize (bool_decide (e = NoEnding)) as bd. split.
  - intros H. res_inv. repeat (case_decide || simplify_eq || res_inv).
    split; [|done]. split; [done|lia].
  - intros [[_ H2] ->].
    rewrite !decide_True by lia. cbn [ok_or mbind result_bind].
    rewrite !decide_True by lia. cbn [ok_or mbind result_bind].
    rewrite decide_False by lia. done.
Qed.

Lemma line_eta l : mkLine (text l) (ending l) = l.
Proof. by destruct l. Qed.

Lemma rewrites_nil_inv pref os ns : rewrites pref [] os ns → os = [] ∧ ns = [].
Proof. by inversion 1. Qed.

(** What one patch line consumes and produces. *)
Lemma rewrites_one pref c os ns :
  rewrites pref [c] os ns ↔
  match kind c with
  | Context => ∃ l, os = [l] ∧ line_matches c l ∧
                 ns = [mkLine (text l) (default (ending l) (context_new_ending c))]
  | Remove => ∃ l, os = [l] ∧ line_matches c l ∧ ns = []
  | Add => os = [] ∧ ns = [mkLine (ctext c) (if new_no_newline c then NoEnding else pref)]
  end.
Proof.
  split.
  - inversion 1 as [|? ? ? ? ? Hk ? Hn|? ? ? ? ? Hk ? Hn|? ? ? ? Hk Hn]; subst;
      rewrite Hk; apply rewrites_nil_inv in Hn as [-> ->]; naive_solver.
  - destruct (kind c) eqn:Hk; intros; destruct_and?; naive_solver eauto using rewrites.
Qed.

Lemma rewrites_cons pref c cs os ns :
  rewrites pref (c :: cs) os ns ↔
  ∃ os1 os2 ns1 ns2, os = os1 ++ os2 ∧ ns = ns1 ++ ns2 ∧
    rewrites pref [c] os1 ns1 ∧ rewrites pref cs os2 ns2.
Proof.
  split.
  - inversion 1 as [|? ? l ? ? ? Hm|? ? l ? ? ? Hm|]; subst.
    + eexists [l], _, [_], _. split_and!; [done|done|by eauto using rewrites|done].
    + eexists [l], _, [], _. split_and!; [done|done|by eauto using rewrites|done].
    + eexists [], _, [_], _. split_and!; [done|done|by eauto using rewrites|done].
  - intros (os1 & os2 & ns1 & ns2 & -> & -> & H1 & H2).
    apply rewrites_one in H1. destruct (kind c) eqn:Hk; destruct_and?;
      naive_solver eauto using rewrites.
Qed.

Lemma patched_nil_inv pref o n src out : patched pref o n src [] out → out = src.
Proof. by inversion 1. Qed.

Lemma patched_cons_inv pref o n src h hs out :
  patched pref o n src (h :: hs) out →
  ∃ pre os rest ns out', src = pre ++ os ++ rest ∧ out = pre ++ ns ++ out' ∧
    index (old h) = (o + lenN pre)%N ∧ index (new h) = (n + lenN pre)%N ∧
    end_ (old h) = (index (old h) + lenN os)%N ∧ end_ (new h) = (index (new h) + lenN ns)%N ∧
    rewrites pref (contents h) os ns ∧
    patched pref (end_ (old h)) (end_ (new h)) rest hs out'.
Proof. inversion 1; subst. repeat eexists; eauto. Qed.

(** ** The cursor loops *)

Section cursor.
Context (pref : LineEnding) (source : list SourceLine).
Context (Hsource : (lenN source <= usize_max)%N).

Lemma checked_succ pre l rest :
  source = pre ++ l :: rest → checked_add (lenN pre) 1 = Some (lenN (pre ++ [l])).
Proof using Hsource.
  intros Hs. unfold checked_add. rewrite lenN_app, lenN_cons, lenN_nil.
  rewrite decide_True; [f_equal; lia|].
  rewrite Hs, lenN_app, lenN_cons in Hsource. lia.
Qed.

Lemma append_source_line_spec pre rest o st' :
  source = pre ++ rest → valid_out o →
  append_source_line source (lenN pre) (builder_of o) = Ok st' ↔
  ∃ l rest', rest = l :: rest' ∧ valid_out (o ++ [l]) ∧
    st' = (lenN (pre ++ [l]), builder_of (o ++ [l])).
Proof using Hsource.
  intros Hs Ho. unfold append_source_line. destruct rest as [|l rest].
  - rewrite app_nil_r in Hs. subst pre.
    destruct (getN source (lenN source)) eqn:E; [apply getN_lt in E; lia|]. naive_solver.
  - rewrite Hs at 1. rewrite getN_app_mid by done. cbn [ok_or mbind result_bind].
    rewrite (checked_succ _ _ _ Hs). cbn [ok_or].
    rewrite bind_Ok. setoid_rewrite (append_spec o _ _ _ Ho). rewrite line_eta.
    cbn [mbind result_bind]. naive_solver.
Qed.

Lemma copy_until_spec fuel pre rest o target st' :
  source = pre ++ rest → (length rest < fuel)%nat → valid_out o →
  copy_until fuel source target (lenN pre, builder_of o) = Ok st' ↔
  ∃ mid rest', rest = mid ++ rest' ∧ lenN (pre ++ mid) = N.max (lenN pre) target ∧
    valid_out (o ++ mid) ∧ st' = (lenN (pre ++ mid), builder_of (o ++ mid)).
Proof using Hsource.
  revert pre rest o. induction fuel as [|f IH]; intros pre rest o Hs Hf Ho; [lia|].
  cbn [copy_until]. case_decide as Hlt.
  - rewrite bind_Ok. setoid_rewrite (append_source_line_spec pre rest o _ Hs Ho). split.
    + intros (? & (l & rest' & -> & Hv & ->) & H).
      apply (IH (pre ++ [l]) rest' (o ++ [l])) in H;
        [|by rewrite <- app_assoc|simpl in Hf; lia|done].
      destruct H as (mid & r & -> & Hm & Hv' & ->).
      exists (l :: mid), r. rewrite <- !app_assoc in *. simpl in *.
      split; [done|]. split; [|done].
      rewrite Hm, lenN_app, lenN_cons, lenN_nil. lia.
    + intros (mid & r & -> & Hm & Hv & ->).
      destruct mid as [|l mid]; [rewrite app_nil_r in Hm; lia|].
      assert (valid_out (o ++ [l])) as Hv1.
      { apply (valid_out_app _ mid). by rewrite <- app_assoc. }
      exists (lenN (pre ++ [l]), builder_of (o ++ [l])). split; [by exists l, (mid ++ r)|].
      apply (IH _ (mid ++ r)); [by rewrite <- app_assoc|simpl in Hf; lia|done|].
      exists mid, r. rewrite <- !app_assoc. simpl. split; [done|]. split; [|done].
      rewrite Hm, lenN_app, lenN_cons, lenN_nil. rewrite lenN_app, lenN_cons in Hm. lia.
  - split.
    + intros H. res_inv. exists [], rest. rewrite !app_nil_r. split_and!; try done. lia.
    + intros (mid & r & -> & Hm & Hv & ->). destruct mid as [|l mid].
      * by rewrite !app_nil_r.
      * rewrite lenN_app, lenN_cons in Hm. lia.
Qed.

Lemma matching_source_line_spec c pre rest l :
  source = pre ++ rest →
  matching_source_line c source (lenN pre) = Ok l ↔
  (∃ rest', rest = l :: rest') ∧ line_matches c l.
Proof using Hsource.
  intros Hs. unfold matching_source_line. destruct rest as [|l0 rest].
  - rewrite app_nil_r in Hs. subst pre.
    destruct (getN source (lenN source)) eqn:E; [apply getN_lt in E; lia|]. naive_solver.
  - rewrite Hs at 1. rewrite getN_app_mid by done. cbn [ok_or mbind result_bind].
    unfold line_matches. case_decide as Hd.
    + split; [done|]. intros [[r [= -> _]] [H1 H2]]. naive_solver.
    + split.
      * intros [= ->]. split; [by eexists|]. split.
        -- destruct (decide (text l = ctext c)); naive_solver.
        -- destruct (decide (bool_decide (ending l = NoEnding) = old_no_newline c)); naive_solver.
      * intros [[r [= -> _]] _]. done.
Qed.

(** The three ways one patch line moves the cursor and the builder. *)
Lemma apply_patch_content_spec c pre rest o st' :
  source = pre ++ rest → valid_out o →
  apply_patch_content pref source c (lenN pre, builder_of o) = Ok st' ↔
  ∃ os rest' ns, rest = os ++ rest' ∧ rewrites pref [c] os ns ∧ valid_out (o ++ ns) ∧
    st' = (lenN (pre ++ os), builder_of (o ++ ns)).
Proof using Hsource.
  intros Hs Ho. setoid_rewrite rewrites_one.
  unfold apply_patch_content. destruct (kind c) eqn:Hk.
  - rewrite bind_Ok. setoid_rewrite (matching_source_line_spec c pre rest _ Hs). split.
    + intros (l & [[r ->] Hm] & H). res_inv.
      apply (append_spec _ _ _ _ Ho) in Hr as [Hv ->].
      rewrite (checked_succ _ _ _ Hs) in Hr0. injection Hr0 as <-.
      eexists [l], r, [_]. split_and!; try done. by exists l.
    + intros (os & r & ns & -> & (l & -> & Hm & ->) & Hv & ->).
      exists l. split; [split; [by eexists|done]|].
      rewrite (proj2 (append_spec o _ _ _ Ho) (conj Hv eq_refl)). cbn [mbind result_bind].
      by rewrite (checked_succ _ _ _ Hs).
  - rewrite bind_Ok. setoid_rewrite (matching_source_line_spec c pre rest _ Hs). split.
    + intros (l & [[r ->] Hm] & H). res_inv.
      rewrite (checked_succ _ _ _ Hs) in Hr. injection Hr as <-.
      exists [l], r, []. rewrite app_nil_r. split_and!; try done. by exists l.
    + intros (os & r & ns & -> & (l & -> & Hm & ->) & Hv & ->).
      exists l. split; [split; [by eexists|done]|].
      by rewrite (checked_succ _ _ _ Hs), app_nil_r.
  - split.
    + intros H. res_inv. apply (append_spec _ _ _ _ Ho) in Hr as [Hv ->].
      eexists [], rest, [_]. rewrite app_nil_r. by split_and!.
    + intros (os & r & ns & -> & [-> ->] & Hv & ->). rewrite app_nil_r.
      by rewrite (proj2 (append_spec o _ _ _ Ho) (conj Hv eq_refl)).
Qed.

Lemma apply_contents_spec cs pre rest o st' :
  source = pre ++ rest → valid_out o →
  apply_contents pref source cs (lenN pre, builder_of o) = Ok st' ↔
  ∃ os rest' ns, rest = os ++ rest' ∧ rewrites pref cs os ns ∧ valid_out (o ++ ns) ∧
    st' = (lenN (pre ++ os), builder_of (o ++ ns)).
Proof using Hsource.
  revert pre rest o. induction cs as [|c cs IH]; intros pre rest o Hs Ho.
  { cbn [apply_contents]. split.
    - intros H. res_inv. exists [], rest, []. rewrite !app_nil_r.
      split_and!; [done|constructor|done|done].
    - intros (os & r & ns & -> & Hrw & _ & ->). apply rewrites_nil_inv in Hrw as [-> ->].
      by rewrite !app_nil_r. }
  cbn [apply_contents]. rewrite bind_Ok.
  setoid_rewrite (apply_patch_content_spec c pre rest o _ Hs Ho). split.
  - intros (? & (os1 & r & ns1 & -> & Hrw & Hv & ->) & H).
    apply (IH _ r) in H; [|by rewrite <- app_assoc|done].
    destruct H as (os2 & r' & ns2 & -> & Hrw' & Hv' & ->).
    exists (os1 ++ os2), r', (ns1 ++ ns2). rewrite !app_assoc in *.
    split_and!; try done. apply rewrites_cons. naive_solver.
  - intros (os & r & ns & -> & Hrw & Hv & ->).
    apply rewrites_cons in Hrw as (os1 & os2 & ns1 & ns2 & -> & -> & H1 & H2).
    rewrite app_assoc in Hv. eexists. split.
    { exists os1, (os2 ++ r), ns1. rewrite <- app_assoc.
      split_and!; [done|done|by apply (valid_out_app _ ns2)|reflexivity]. }
    apply (IH _ (os2 ++ r)); [by rewrite <- !app_assoc, Hs, <- app_assoc|
      by apply (valid_out_app _ ns2)|].
    exists os2, r, ns2. rewrite !app_assoc. by split_and!.
Qed.

(** ** Hunks *)

Lemma apply_hunk_spec h pre rest o po pn st' :
  source = pre ++ rest → valid_out o →
  (po <= lenN pre)%N → (pn <= lenN o)%N →
  apply_hunk pref source (mkApply (lenN pre) (builder_of o) po pn) h = Ok st' ↔
  ∃ mid os rest' ns, rest = mid ++ os ++ rest' ∧
    index (old h) = (lenN pre + lenN mid)%N ∧ index (new h) = (lenN o + lenN mid)%N ∧
    end_ (old h) = (index (old h) + lenN os)%N ∧ end_ (new h) = (index (new h) + lenN ns)%N ∧
    rewrites pref (contents h) os ns ∧ valid_out (o ++ mid ++ ns) ∧
    st' = mkApply (lenN (pre ++ mid ++ os)) (builder_of (o ++ mid ++ ns))
            (end_ (old h)) (end_ (new h)).
Proof using Hsource.
  intros Hs Ho Hpo Hpn. unfold apply_hunk.
  cbn [source_cursor builder previous_old_end previous_new_end].
  assert (length rest < S (length source))%nat as Hfuel by (rewrite Hs, length_app; lia).
  split.
  - intros H. case_decide; [done|]. apply bind_Ok in H as ([cur b] & Hc & H).
    apply (copy_until_spec _ pre rest o _ _ Hs Hfuel Ho) in Hc.
    destruct Hc as (mid & r & -> & Hm & Hv & [= -> ->]).
    case_decide as Hd; [done|]. apply bind_Ok in H as ([cur2 b2] & Hc & H).
    assert (source = (pre ++ mid) ++ r) as Hs' by (by rewrite <- app_assoc).
    apply (apply_contents_spec _ _ _ _ _ Hs' Hv) in Hc
      as (os & r' & ns & -> & Hrw & Hv' & [= -> ->]).
    case_decide as Hd2; [done|]. res_inv. cbn [builder_of line_count] in *.
    apply Decidable.not_or in Hd as [Hd1 Hd3]. apply Decidable.not_or in Hd2 as [Hd2 Hd4].
    apply dec_stable in Hd1, Hd2, Hd3, Hd4.
    exists mid, os, r', ns. rewrite <- !app_assoc in *. rewrite !lenN_app in *.
    split_and!; done || lia.
  - intros (mid & os & r' & ns & -> & Hio & Hin & Heo & Hen & Hrw & Hv & ->).
    rewrite decide_False by lia. apply bind_Ok.
    rewrite app_assoc in Hv.
    assert (valid_out (o ++ mid)) as Hv1 by (by apply (valid_out_app _ ns)).
    exists (lenN (pre ++ mid), builder_of (o ++ mid)). split.
    { apply (copy_until_spec _ pre _ o _ _ Hs Hfuel Ho).
      exists mid, (os ++ r'). split_and!; try done. rewrite lenN_app. lia. }
    cbn [builder_of line_count].
    rewrite decide_False by (rewrite !lenN_app; lia). apply bind_Ok.
    exists (lenN ((pre ++ mid) ++ os), builder_of ((o ++ mid) ++ ns)). split.
    { apply (apply_contents_spec _ _ (os ++ r')); [by rewrite <- app_assoc|done|].
      exists os, r', ns. by split_and!. }
    cbn [builder_of line_count].
    rewrite decide_False by (rewrite !lenN_app in *; lia). by rewrite <- !app_assoc.
Qed.

Lemma apply_hunks_spec hs pre rest o po pn v :
  source = pre ++ rest → valid_out o → (po <= lenN pre)%N → (pn <= lenN o)%N →
  (st ← apply_hunks pref source (mkApply (lenN pre) (builder_of o) po pn) hs;
   '(cursor, b) ← copy_until (S (length source)) source (lenN source)
                    (source_cursor st, builder st);
   if decide (cursor ≠ lenN source) then Err Internal else Ok (value b)) = Ok v ↔
  ∃ out, patched pref (lenN pre) (lenN o) rest hs out ∧ valid_out (o ++ out) ∧
    v = render (o ++ out).
Proof using Hsource.
  revert pre rest o po pn. induction hs as [|h hs IH]; intros pre rest o po pn Hs Ho Hpo Hpn.
  - cbn [apply_hunks mbind result_bind source_cursor builder].
    rewrite bind_Ok.
    setoid_rewrite (copy_until_spec _ pre rest o _ _ Hs);
      [|rewrite Hs, length_app; lia|done].
    assert (lenN source = lenN pre + lenN rest)%N as Hlen by (by rewrite Hs, lenN_app).
    split.
    + intros ([cur b] & (mid & r & -> & Hm & Hv & [= -> ->]) & Hd).
      case_decide; [done|]. res_inv. exists (mid ++ r).
      assert (r = []) as ->.
      { destruct r; [done|]. rewrite !lenN_app, lenN_cons in *. lia. }
      rewrite app_nil_r. split_and!; [constructor|done|done].
    + intros (out & Hp & Hv & ->). apply patched_nil_inv in Hp as ->.
      exists (lenN (pre ++ rest), builder_of (o ++ rest)). split.
      * exists rest, []. rewrite app_nil_r. split_and!; try done.
        rewrite lenN_app. lia.
      * rewrite decide_False; [done|]. rewrite lenN_app. lia.
  - cbn [apply_hunks]. rewrite bind_Ok. setoid_rewrite bind_Ok.
    setoid_rewrite (apply_hunk_spec h pre rest o po pn _ Hs Ho Hpo Hpn). split.
    + intros (st & (? & (mid & os & r & ns & -> & Hio & Hin & Heo & Hen & Hrw & Hv & ->) & Hrec) & Hd).
      destruct (IH (pre ++ mid ++ os) r (o ++ mid ++ ns) (end_ (old h)) (end_ (new h)))
        as [IH1 _]; [by rewrite <- !app_assoc|done|rewrite !lenN_app; lia|rewrite !lenN_app; lia|].
      destruct IH1 as (out & Hp & Hv' & ->).
      { apply bind_Ok. exists st. split; [done|]. by apply bind_Ok. }
      exists (mid ++ ns ++ out). rewrite <- !app_assoc in *. split_and!; [|done|done].
      replace (lenN (pre ++ mid ++ os)) with (end_ (old h)) in Hp by (rewrite !lenN_app; lia).
      replace (lenN (o ++ mid ++ ns)) with (end_ (new h)) in Hp by (rewrite !lenN_app; lia).
      by econstructor.
    + intros (out & Hp & Hv & ->). 
      apply patched_cons_inv in Hp
        as (mid & os & r & ns & out' & -> & -> & Hio & Hin & Heo & Hen & Hrw & Hrec).
      assert (valid_out (o ++ mid ++ ns)) as Hv1.
      { apply (valid_out_app _ out'). by rewrite <- !app_assoc. }
      destruct (IH (pre ++ mid ++ os) r (o ++ mid ++ ns) (end_ (old h)) (end_ (new h)))
        as [_ IH2]; [by rewrite <- !app_assoc|done|rewrite !lenN_app; lia|rewrite !lenN_app; lia|].
      assert (patched pref (lenN (pre ++ mid ++ os)) (lenN (o ++ mid ++ ns)) r hs out') as Hp'.
      { rewrite !lenN_app. rewrite Heo, Hen, Hio, Hin in Hrec. by rewrite !N.add_assoc. }
      assert (valid_out ((o ++ mid ++ ns) ++ out')) as Hv2 by (by rewrite <- !app_assoc).
      assert (render (o ++ mid ++ ns ++ out') = render ((o ++ mid ++ ns) ++ out')) as Hr
        by (by rewrite <- !app_assoc).
      pose proof (IH2 (ex_intro _ out' (conj Hp' (conj Hv2 Hr)))) as Hok.
      apply bind_Ok in Hok as (st & H1 & H2). apply bind_Ok in H2.
      exists st. split; [|done].
      eexists. split; [|exact H1]. exists mid, os, r, ns. by split_and!.
Qed.
End cursor.

(** ** Correctness *)

Lemma apply_resolved_hunks_iff src hs v :
  (lenN src <= usize_max)%N →
  apply_resolved_hunks src hs = Ok v ↔
  ∃ out, patched (preferred_line_ending src) 0 0 src hs out ∧ valid_out out ∧ v = render out.
Proof.
  intros Hlen. unfold apply_resolved_hunks.
  apply (apply_hunks_spec (preferred_line_ending src) src Hlen hs [] src [] 0 0); done.
Qed.

Lemma split_source_lines_render source : render (split_source_lines source) = source.
Proof. apply split_lines_from_render. Qed.

Lemma split_source_lines_ok source : Forall line_ok (split_source_lines source).
Proof. apply split_lines_from_ok, not_elem_of_nil. Qed.

Lemma split_source_lines_len source :
  (lenN (split_source_lines source) <= str_len source)%N.
Proof.
  pose proof (split_lines_len _ (split_source_lines_ok source)).
  by rewrite split_source_lines_render in *.
Qed.

Lemma split_source_lines_valid source :
  (str_len source <= MAX_PATCH_BYTES)%N → valid_out (split_source_lines source).
Proof.
  intros H. split; [apply split_lines_from_wf|]. by rewrite split_source_lines_render.
Qed.

Lemma split_lines_from_line cur t s :
  LF ∉ t → split_lines_from cur (t ++ s) = split_lines_from (reverse t ++ cur) s.
Proof.
  revert cur. induction t as [|c t IH]; intros cur Ht; [done|].
  rewrite not_elem_of_cons in Ht. destruct Ht as [Hc Ht]. simpl.
  rewrite decide_False by congruence. rewrite (IH _ Ht).
  by rewrite reverse_cons, <- app_assoc.
Qed.

Lemma split_lines_from_eol t e s :
  LF ∉ t → e ≠ NoEnding → (e = Lf → last t ≠ Some CR) →
  split_lines_from [] (t ++ LineEnding_as_str e ++ s) = mkLine t e :: split_lines_from [] s.
Proof.
  intros Ht He Hcr. rewrite split_lines_from_line by done. rewrite app_nil_r.
  destruct e; [done|..].
  - simpl. specialize (Hcr eq_refl). destruct t as [|d t _] using rev_ind; [done|].
    rewrite reverse_snoc. rewrite last_snoc in Hcr. rewrite decide_False by congruence.
    by rewrite reverse_cons, reverse_involutive.
  - simpl. by rewrite reverse_involutive.
Qed.

(** Rendering then splitting well-formed lines gives them back. *)
Lemma split_render ls :
  Forall line_ok ls → Forall (λ l, ending l ≠ NoEnding) (removelast ls) →
  split_source_lines (render ls) = ls.
Proof.
  unfold split_source_lines. induction 1 as [|[t e] ls (H1 & H2 & H3) Hls IH]; intros Hw; [done|].
  rewrite render_cons. unfold line_str. simpl in *. destruct ls as [|l ls].
  - simpl. destruct (decide (e = NoEnding)) as [->|He].
    + simpl. rewrite !app_nil_r. rewrite <- (app_nil_r t) at 1.
      rewrite split_lines_from_line by done. simpl. rewrite app_nil_r.
      destruct (reverse t) eqn:E.
      * apply (f_equal reverse) in E. rewrite reverse_involutive in E. by apply H3 in E.
      * by rewrite <- E, reverse_involutive.
    + rewrite <- app_assoc. by rewrite split_lines_from_eol.
  - apply Forall_cons in Hw as [He Hw]. simpl in He.
    rewrite <- app_assoc, split_lines_from_eol by done. f_equal. by apply IH.
Qed.

(** ** Replaying is deterministic *)

Lemma rewrites_det pref cs os ns os' ns' rest rest' :
  rewrites pref cs os ns → rewrites pref cs os' ns' → os ++ rest = os' ++ rest' →
  os = os' ∧ ns = ns'.
Proof.
  intros H. revert os' ns'. induction H as [|c cs l os ns Hk Hm H IH|c cs l os ns Hk Hm H IH|c cs os ns Hk H IH];
    intros os' ns' H' Heq.
  - apply rewrites_nil_inv in H' as [-> ->]. done.
  - apply rewrites_cons in H' as (o1 & o2 & n1 & n2 & -> & -> & H1 & H2).
    apply rewrites_one in H1. rewrite Hk in H1. destruct H1 as (l' & -> & _ & ->).
    injection Heq as -> Heq. by destruct (IH _ _ H2 Heq) as [-> ->].
  - apply rewrites_cons in H' as (o1 & o2 & n1 & n2 & -> & -> & H1 & H2).
    apply rewrites_one in H1. rewrite Hk in H1. destruct H1 as (l' & -> & _ & ->).
    injection Heq as -> Heq. by destruct (IH _ _ H2 Heq) as [-> ->].
  - apply rewrites_cons in H' as (o1 & o2 & n1 & n2 & -> & -> & H1 & H2).
    apply rewrites_one in H1. rewrite Hk in H1. destruct H1 as [-> ->].
    by destruct (IH _ _ H2 Heq) as [-> ->].
Qed.

Lemma app_inj_len {A} (l1 l2 k1 k2 : list A) :
  lenN l1 = lenN l2 → l1 ++ k1 = l2 ++ k2 → l1 = l2 ∧ k1 = k2.
Proof. unfold lenN. intros Hl. apply app_inj_1. lia. Qed.

Lemma patched_det pref o n src hs out out' :
  patched pref o n src hs out → patched pref o n src hs out' → out = out'.
Proof.
  intros H. revert out'. induction H as [|o n pre os rest h hs ns out H1 H2 H3 H4 Hr H IH];
    intros out' H'.
  - by apply patched_nil_inv in H'.
  - apply patched_cons_inv in H' as (pre' & os' & rest' & ns' & o' & Hs & -> & H1' & _ & H3' & _ & Hr' & H').
    apply app_inj_len in Hs as [-> Hs]; [|lia].
    destruct (rewrites_det _ _ _ _ _ _ _ _ Hr Hr' Hs) as [-> ->].
    apply app_inv_head in Hs as ->. by rewrite (IH _ H').
Qed.

Lemma apply_resolved_hunks_of_patched src hs out v :
  (lenN src <= usize_max)%N → patched (preferred_line_ending src) 0 0 src hs out →
  apply_resolved_hunks src hs = Ok v ↔ valid_out out ∧ v = render out.
Proof.
  intros Hlen Hp. rewrite apply_resolved_hunks_iff by done. split; [|naive_solver].
  intros (out' & Hp' & Hv). by rewrite (patched_det _ _ _ _ _ _ _ Hp Hp').
Qed.

(** Splitting a file into lines and their endings loses nothing, and rendering
    well-formed lines and splitting them gives the lines back. *)
Theorem split_render_roundtrip :
  (∀ source, render (split_source_lines source) = source) ∧
  ∀ ls, Forall line_ok ls → Forall (λ l, ending l ≠ NoEnding) (removelast ls) →
    split_source_lines (render ls) = ls.
Proof. split; [apply split_source_lines_render|apply split_render]. Qed.
