(* ===== verification/PatchUnified.v ===== *)
(** Unified diffs, [tools/apply_patch/unified.rs].

    The parser reads the patch line by line; its state is the list of lines not
    yet consumed ([PatchLines]: a one-line look-ahead over [split_inclusive]).
    Every malformed patch is an [InvalidInvocation].  The theorems: a printed
    patch parses back to its hunks, and every hunk the parser returns is well
    formed and in order. *)

From S2P Require Import Prelude RustStr PatchApply.

Definition NO_NEWLINE_AT_END : str := lit "\ No newline at end of file".

(** ** The line reader *)

(** The lines still to read; [peek] is the head, [next] removes it. *)
Abbreviation PatchLines := (list str).

Definition patch_lines (patch : str) : PatchLines := split_inclusive LF patch.

Definition next (p : PatchLines) : tool (str * PatchLines) :=
  match p with
  | [] => Err InvalidInvocation
  | l :: p' => Ok (l, p')
  end.

Definition strip_transport_ending (line : str) : str :=
  match strip_suffix_char LF line with
  | None => line
  | Some line' => default line' (strip_suffix_char CR line')
  end.

(** [PatchLines::finish]: only empty lines may follow. *)
Fixpoint finish (p : PatchLines) : tool unit :=
  match p with
  | [] => Ok tt
  | l :: p' => if decide (strip_transport_ending l ≠ []) then Err InvalidInvocation
               else finish p'
  end.

(** ** Patch lines *)

Definition plain (k : PatchLineKind) (t : str) : PatchContent :=
  mkContent k t false false None.

Definition parse_patch_content (line : str) : tool PatchContent :=
  match line with
  | [] => Ok (plain Context [])
  | c :: t =>
      if decide (c = 32%N) then Ok (plain Context t)
      else if decide (c = 45%N) then Ok (plain Remove t)
      else if decide (c = 43%N) then Ok (plain Add t)
      else Err InvalidInvocation
  end.

Definition mark_no_newline (c : PatchContent) : tool PatchContent :=
  if old_no_newline c || new_no_newline c then Err InvalidInvocation else
  Ok match kind c with
     | Context => mkContent Context (ctext c) true true (context_new_ending c)
     | Remove => mkContent Remove (ctext c) true (new_no_newline c) (context_new_ending c)
     | Add => mkContent Add (ctext c) (old_no_newline c) true (context_new_ending c)
     end.

Definition at_no_newline (p : PatchLines) : bool :=
  match p with
  | l :: _ => bool_decide (strip_transport_ending l = NO_NEWLINE_AT_END)
  | [] => false
  end.

Definition consume_no_newline (p : PatchLines) (c : PatchContent)
    : tool (PatchLines * PatchContent) :=
  if at_no_newline p then
    let p := tail p in
    c ← mark_no_newline c;
    if at_no_newline p then Err InvalidInvocation else Ok (p, c)
  else Ok (p, c).

(** The loop of [parse_hunk_contents].  A round reads a line, so the number of
    remaining lines bounds the rounds, and without lines [next] fails. *)
Fixpoint hunk_contents_loop (fuel : nat) (p : PatchLines)
    (expected_old expected_new old_count new_count : N) (acc : list PatchContent)
    : tool (list PatchContent * PatchLines) :=
  if decide (old_count < expected_old ∨ new_count < expected_new)%N then
    match fuel with
    | O => Err InvalidInvocation
    | S f =>
        '(raw, p) ← next p;
        let line := strip_transport_ending raw in
        if decide (line = NO_NEWLINE_AT_END) then Err InvalidInvocation else
        content ← parse_patch_content line;
        let '(o, n) := delta (kind content) in
        old_count ← add old_count o;
        new_count ← add new_count n;
        if decide (expected_old < old_count ∨ expected_new < new_count)%N
        then Err InvalidInvocation else
        '(p, content) ← consume_no_newline p content;
        hunk_contents_loop f p expected_old expected_new old_count new_count (acc ++ [content])
    end
  else Ok (acc, p).

Definition parse_hunk_contents (p : PatchLines) (expected_old expected_new : N)
    : tool (list PatchContent * PatchLines) :=
  '(contents, p) ← hunk_contents_loop (length p) p expected_old expected_new 0 0 [];
  if decide (contents = []) then Err InvalidInvocation else Ok (contents, p).

(** ** Hunk headers *)

Definition is_decimal (v : str) : bool :=
  bool_decide (v ≠ []) && forallb is_ascii_digit v.

Definition make_hunk_range (index count : N) : tool HunkRange :=
  e ← add index count;
  Ok (mkRange index count e).

Definition parse_hunk_range (range : str) (prefix : char) : tool HunkRange :=
  range ← ok_or (strip_prefix [prefix] range) InvalidInvocation;
  let '(start, count) := default (range, lit "1") (split_once 44 range) in
  if negb (is_decimal start) || negb (is_decimal count) then Err InvalidInvocation else
  start ← ok_or (parse_usize start) InvalidInvocation;
  count ← ok_or (parse_usize count) InvalidInvocation;
  if decide (start = 0 ∧ count ≠ 0)%N then Err InvalidInvocation else
  index ← (if decide (count = 0)%N then Ok start else sub start 1);
  e ← add index count;
  _ ← add start count;
  Ok (mkRange index count e).

Definition parse_hunk_header (header : str) : tool (HunkRange * HunkRange) :=
  header ← ok_or (strip_prefix (lit "@@ ") header) InvalidInvocation;
  '(ranges, suffix) ← ok_or (find_split (lit " @@") header) InvalidInvocation;
  if decide (contains_char NUL suffix ∨ suffix ≠ [] ∧ ¬ starts_with [SPACE] suffix)
  then Err InvalidInvocation else
  '(old, new) ← ok_or (split_once SPACE ranges) InvalidInvocation;
  if contains_char SPACE old || contains_char SPACE new then Err InvalidInvocation else
  old ← parse_hunk_range old 45;
  new ← parse_hunk_range new 43;
  Ok (old, new).

(** ** File headers *)

Definition simple_escape (b : N) : option N :=
  match b with
  | 97 => Some 7     (* a *)
  | 98 => Some 8     (* b *)
  | 116 => Some 9    (* t *)
  | 110 => Some 10   (* n *)
  | 118 => Some 11   (* v *)
  | 102 => Some 12   (* f *)
  | 114 => Some 13   (* r *)
  | _ => None
  end%N.

Definition is_octal (b : N) : bool := bool_decide (48 <= b <= 55)%N.

(** Up to [n] octal digits. *)
Fixpoint read_octal (n : nat) (bs : list N) (v : N) : N * list N :=
  match n, bs with
  | S n', b :: bs' =>
      if is_octal b then read_octal n' bs' (v * 8 + (b - 48)) else (v, bs)
  | _, _ => (v, bs)
  end.

(** The loop of [decode_quoted_path] after the opening quote: the decoded bytes
    and what follows the closing quote. *)
Fixpoint decode_quoted_loop (fuel : nat) (bs decoded : list N) : tool (list N * list N) :=
  match fuel, bs with
  | S f, b :: rest =>
      if decide (b = DQUOTE) then Ok (decoded, rest)
      else if decide (b = BACKSLASH) then
        match rest with
        | [] => Err InvalidInvocation
        | e :: rest' =>
            if decide (e = BACKSLASH ∨ e = DQUOTE) then
              decode_quoted_loop f rest' (decoded ++ [e])
            else match simple_escape e with
            | Some v => decode_quoted_loop f rest' (decoded ++ [v])
            | None =>
                if is_octal e then
                  let '(v, rest'') := read_octal 3 rest 0 in
                  if decide (v <= 255)%N then decode_quoted_loop f rest'' (decoded ++ [v])
                  else Err InvalidInvocation
                else Err InvalidInvocation
            end
        end
      else decode_quoted_loop f rest (decoded ++ [b])
  | _, _ => Err InvalidInvocation
  end.

Definition decode_quoted_path (v : str) : tool str :=
  let bs := tail (as_bytes v) in
  '(decoded, rest) ← decode_quoted_loop (length bs) bs [];
  if decide (rest ≠ [] ∧ head rest ≠ Some TAB) then Err InvalidInvocation else
  path ← ok_or (from_utf8 decoded) InvalidInvocation;
  if contains_char NUL path then Err InvalidInvocation else Ok path.

Definition parse_header_path (line prefix : str) : tool str :=
  let line := strip_transport_ending line in
  v ← ok_or (strip_prefix prefix line) InvalidInvocation;
  path ← (if starts_with [DQUOTE] v then decode_quoted_path v
          else Ok match split_once TAB v with Some (p, _) => p | None => v end);
  if decide (path = [] ∨ contains_char NUL path) then Err InvalidInvocation else Ok path.

(** A path component [..] (Unix path syntax). *)
Definition has_parent_dir (path : str) : bool :=
  bool_decide (lit ".." ∈ split_char 47 path).

Definition validate_header_path (header tool_path prefix : str) : tool unit :=
  let candidate :=
    if decide (header = tool_path) then header
    else default header (strip_prefix prefix header) in
  if decide (candidate ≠ tool_path ∨ candidate = [] ∨ contains_char NUL candidate ∨
             starts_with (lit "/") candidate ∨ has_parent_dir candidate)
  then Err InvalidInvocation else Ok tt.

(** ** The patch *)

Definition skip_git_header (first : str) (p : PatchLines) : tool (str * PatchLines) :=
  if starts_with (lit "diff --git ") first || starts_with (lit "index ") first then
    '(first, p) ← (if starts_with (lit "diff --git ") first then next p else Ok (first, p));
    '(first, p) ← (if starts_with (lit "index ") first then next p else Ok (first, p));
    if starts_with (lit "--- ") first then Ok (first, p) else Err InvalidInvocation
  else Ok (first, p).

Definition parse_file_header (path first : str) (p : PatchLines) : tool (str * PatchLines) :=
  if starts_with (lit "--- ") (strip_transport_ending first) then
    original ← parse_header_path first (lit "--- ");
    '(second, p) ← next p;
    modified ← parse_header_path second (lit "+++ ");
    _ ← validate_header_path original path (lit "a/");
    _ ← validate_header_path modified path (lit "b/");
    next p
  else Ok (first, p).

(** The hunk loop.  Parsing a hunk consumes at least one line, so the number of
    remaining lines bounds the rounds; without lines no hunk parses. *)
Fixpoint hunks_loop (fuel : nat) (next_hunk : str) (p : PatchLines)
    (previous_old_end previous_new_end : N) (resolved : list ResolvedHunk)
    : tool (list ResolvedHunk) :=
  match fuel with
  | O => Err InvalidInvocation
  | S f =>
      '(old_range, new_range) ← parse_hunk_header (strip_transport_ending next_hunk);
      if decide (index old_range < previous_old_end ∨ index new_range < previous_new_end)%N
      then Err InvalidInvocation else
      '(contents, p) ← parse_hunk_contents p (count old_range) (count new_range);
      let resolved := resolved ++ [mkHunk old_range new_range contents] in
      match p with
      | line :: p' =>
          if starts_with (lit "@@ ") (strip_transport_ending line) then
            hunks_loop f line p' (end_ old_range) (end_ new_range) resolved
          else if decide (strip_transport_ending line = []) then
            _ ← finish p'; Ok resolved
          else Err InvalidInvocation
      | [] => Ok resolved
      end
  end.

Definition parse_unified_patch (path patch : str) : tool (list ResolvedHunk) :=
  '(first, p) ← next (patch_lines patch);
  '(first, p) ← skip_git_header first p;
  '(next_hunk, p) ← parse_file_header path first p;
  hunks_loop (length p) next_hunk p 0 0 [].

(** ** Printing, the reference for the parser *)

Definition kind_prefix (k : PatchLineKind) : char :=
  match k with Context => 32 | Remove => 45 | Add => 43 end%N.

Definition flagged (c : PatchContent) : bool := old_no_newline c || new_no_newline c.

Definition print_content (c : PatchContent) : PatchLines :=
  (kind_prefix (kind c) :: ctext c ++ [LF]) ::
  (if flagged c then [NO_NEWLINE_AT_END ++ [LF]] else []).

Definition print_range (prefix : char) (r : HunkRange) : str :=
  prefix :: show_N (if decide (count r = 0)%N then index r else index r + 1) ++
  44%N :: show_N (count r).

Definition print_header (h : ResolvedHunk) : str :=
  lit "@@ " ++ print_range 45 (old h) ++ [SPACE] ++ print_range 43 (new h) ++ lit " @@" ++ [LF].

Definition print_hunk (h : ResolvedHunk) : PatchLines :=
  print_header h :: (contents h ≫= print_content).

Definition print_patch (path : str) (hs : list ResolvedHunk) : str :=
  concat ((lit "--- a/" ++ path ++ [LF]) :: (lit "+++ b/" ++ path ++ [LF]) :: (hs ≫= print_hunk)).

Definition old_total (cs : list PatchContent) : N :=
  foldr (λ c acc, (delta (kind c)).1 + acc)%N 0%N cs.
Definition new_total (cs : list PatchContent) : N :=
  foldr (λ c acc, (delta (kind c)).2 + acc)%N 0%N cs.

(** What a patch line can say. *)
Definition content_wf (c : PatchContent) : Prop :=
  LF ∉ ctext c ∧ context_new_ending c = None ∧
  match kind c with
  | Context => old_no_newline c = new_no_newline c
  | Remove => new_no_newline c = false
  | Add => old_no_newline c = false
  end.

Definition range_wf (r : HunkRange) : Prop :=
  end_ r = (index r + count r)%N ∧ (index r + count r <= usize_max)%N.

Definition hunk_wf (h : ResolvedHunk) : Prop :=
  range_wf (old h) ∧ range_wf (new h) ∧ contents h ≠ [] ∧
  count (old h) = old_total (contents h) ∧ count (new h) = new_total (contents h) ∧
  Forall content_wf (contents h).

(** Hunks in order, without overlap, from the positions [o] and [n] on. *)
Fixpoint ordered (o n : N) (hs : list ResolvedHunk) : Prop :=
  match hs with
  | [] => True
  | h :: hs' => (o <= index (old h))%N ∧ (n <= index (new h))%N ∧
                ordered (end_ (old h)) (end_ (new h)) hs'
  end.

(** Lines whose text the transport ending leaves alone. *)
Definition transportable (t : str) : Prop := LF ∉ t ∧ last t ≠ Some CR.

(** A hunk whose numbers the header can hold. *)
Definition printable (h : ResolvedHunk) : Prop :=
  hunk_wf h ∧ Forall (λ c, transportable (ctext c)) (contents h) ∧
  (index (old h) + 1 + count (old h) <= usize_max)%N ∧
  (index (new h) + 1 + count (new h) <= usize_max)%N.

(** ** Round trip *)

Lemma strip_transport_line t : last t ≠ Some CR → strip_transport_ending (t ++ [LF]) = t.
Proof.
  intros H. unfold strip_transport_ending. rewrite strip_suffix_char_snoc.
  by rewrite strip_suffix_char_None.
Qed.

Lemma patch_lines_concat ls :
  Forall (λ l, ∃ t, l = t ++ [LF] ∧ LF ∉ t) ls → patch_lines (concat ls) = ls.
Proof.
  unfold patch_lines. induction 1 as [|l ls (t & -> & Ht) _ IH]; [done|].
  simpl. rewrite <- app_assoc. simpl. rewrite split_inclusive_line by done. by rewrite IH.
Qed.

Lemma find_split_here x y pat a b :
  x ≠ y → y ∉ a → find_split (x :: y :: pat) (a ++ (x :: y :: pat) ++ b) = Some (a, b).
Proof.
  intros Hxy. induction a as [|c a IH]; intros Ha.
  - change ([] ++ (x :: y :: pat) ++ b) with ((x :: y :: pat) ++ b).
    remember ((x :: y :: pat) ++ b) as s eqn:Hs. destruct s as [|d s]; [done|].
    cbn [find_split]. rewrite Hs, strip_prefix_app. done.
  - rewrite not_elem_of_cons in Ha. destruct Ha as [Hc Ha].
    cbn [app find_split].
    assert (strip_prefix (x :: y :: pat) (c :: a ++ x :: y :: pat ++ b) = None) as ->.
    { apply strip_prefix_None. intros r Hr. destruct a as [|d a]; simplify_eq/=. set_solver. }
    change (a ++ x :: y :: pat ++ b) with (a ++ (x :: y :: pat) ++ b). by rewrite IH.
Qed.

Lemma digits_not_in s c : forallb is_ascii_digit s = true → is_ascii_digit c = false → c ∉ s.
Proof.
  intros Hs Hc Hin. rewrite forallb_forall in Hs. apply list_elem_of_In in Hin.
  specialize (Hs _ Hin). congruence.
Qed.

Lemma show_N_not_in n c : is_ascii_digit c = false → c ∉ show_N n.
Proof.
  intros Hc. apply digits_not_in; [|done]. pose proof (show_N_digits n) as H.
  unfold is_decimal_digits in H. by apply andb_prop in H as [_ H].
Qed.

Lemma is_decimal_show n : is_decimal (show_N n) = true.
Proof. exact (show_N_digits n). Qed.

Lemma print_range_not_in prefix r c :
  is_ascii_digit c = false → c ≠ prefix → c ≠ 44%N → c ∉ print_range prefix r.
Proof.
  intros Hc Hp H44. unfold print_range.
  rewrite not_elem_of_cons, not_elem_of_app, not_elem_of_cons.
  split_and!; try done; by apply show_N_not_in.
Qed.

Lemma parse_print_range prefix r :
  range_wf r → (index r + 1 + count r <= usize_max)%N →
  parse_hunk_range (print_range prefix r) prefix = Ok r.
Proof.
  intros [Hend _] Hmax. unfold parse_hunk_range, print_range.
  set (start := if decide (count r = 0)%N then index r else (index r + 1)%N).
  assert (start <= usize_max)%N as Hs by (unfold start; case_decide; lia).
  cbn [strip_prefix]. rewrite decide_True by done. cbn [ok_or mbind result_bind].
  rewrite split_once_app by (by apply show_N_not_in). cbn [default from_option id].
  rewrite !is_decimal_show. cbn [negb orb].
  rewrite !parse_show by lia. cbn [ok_or mbind result_bind].
  unfold sub, add, checked_sub, checked_add, start. destruct r as [i c e]. simpl in *. subst e.
  destruct (decide (c = 0%N)) as [->|Hc].
  - rewrite decide_False by (by intros [_ ?]). cbn [mbind result_bind].
    rewrite decide_True by lia. cbn. done.
  - rewrite decide_False by lia. rewrite decide_True by lia. cbn [ok_or mbind result_bind].
    replace (i + 1 - 1)%N with i by lia. rewrite !decide_True by lia.
    cbn [ok_or mbind result_bind]. by rewrite decide_True by lia.
Qed.

Lemma parse_print_header h :
  printable h → parse_hunk_header (strip_transport_ending (print_header h)) = Ok (old h, new h).
Proof.
  intros (Hwf & _ & Ho & Hn). destruct Hwf as (Hr1 & Hr2 & _).
  unfold print_header. rewrite !app_assoc, strip_transport_line.
  2:{ rewrite last_app. done. }
  rewrite <- !app_assoc. unfold parse_hunk_header.
  rewrite strip_prefix_app. cbn [ok_or mbind result_bind].
  assert (find_split (lit " @@")
    (print_range 45 (old h) ++ [SPACE] ++ print_range 43 (new h) ++ lit " @@") =
    Some (print_range 45 (old h) ++ SPACE :: print_range 43 (new h), [])) as ->.
  { rewrite <- (find_split_here 32 64 [64%N] (print_range 45 (old h) ++ SPACE :: print_range 43 (new h))).
    - f_equal. rewrite <- !app_assoc. done.
    - done.
    - rewrite not_elem_of_app, not_elem_of_cons. split_and!; [|done|]; by apply print_range_not_in. }
  cbn [ok_or mbind result_bind]. rewrite decide_False by (by intros [?|[? _]]).
  rewrite split_once_app by (by apply print_range_not_in). cbn [ok_or mbind result_bind].
  assert (∀ p r, (32%N ≠ p) → contains_char SPACE (print_range p r) = false) as Hsp.
  { intros p r Hp. apply bool_decide_eq_false. by apply print_range_not_in. }
  rewrite !Hsp by done. cbn [orb]. rewrite !parse_print_range by done. done.
Qed.

Lemma strip_content_line c :
  transportable (ctext c) →
  strip_transport_ending (kind_prefix (kind c) :: ctext c ++ [LF]) = kind_prefix (kind c) :: ctext c.
Proof.
  intros [_ H]. apply (strip_transport_line (kind_prefix (kind c) :: ctext c)).
  destruct (ctext c); [by destruct (kind c)|done].
Qed.

Lemma parse_content_line c :
  parse_patch_content (kind_prefix (kind c) :: ctext c) = Ok (plain (kind c) (ctext c)).
Proof. by destruct (kind c). Qed.

Lemma content_line_not_marker c : kind_prefix (kind c) :: ctext c ≠ NO_NEWLINE_AT_END.
Proof. by destruct (kind c). Qed.

Lemma at_no_newline_contents cs rest :
  Forall (λ c, transportable (ctext c)) cs → at_no_newline rest = false →
  at_no_newline ((cs ≫= print_content) ++ rest) = false.
Proof.
  intros Hcs Hr. destruct Hcs as [|c cs Hc _]; [done|]. simpl.
  rewrite strip_content_line by done. apply bool_decide_eq_false, content_line_not_marker.
Qed.

Lemma consume_print c rest :
  content_wf c → at_no_newline rest = false →
  consume_no_newline ((if flagged c then [NO_NEWLINE_AT_END ++ [LF]] else []) ++ rest)
    (plain (kind c) (ctext c)) = Ok (rest, c).
Proof.
  intros (_ & He & Hf) Hr. unfold consume_no_newline, flagged.
  destruct c as [k t o n e]; simpl in *; subst e.
  destruct k; simpl in Hf; subst; destruct o || destruct n; simpl; rewrite ?Hr; simpl;
    try rewrite Hr; done.
Qed.

Lemma hunk_contents_loop_print cs fuel rest eo en o n acc :
  Forall content_wf cs → Forall (λ c, transportable (ctext c)) cs →
  (length ((cs ≫= print_content) ++ rest) <= fuel)%nat →
  eo = (o + old_total cs)%N → en = (n + new_total cs)%N →
  (eo <= usize_max)%N → (en <= usize_max)%N → at_no_newline rest = false →
  hunk_contents_loop fuel ((cs ≫= print_content) ++ rest) eo en o n acc = Ok (acc ++ cs, rest).
Proof.
  intros Hwf Ht. revert fuel o n acc.
  induction cs as [|c cs IH]; intros fuel o n acc Hfuel -> -> Ho Hn Hr.
  { simpl in *. rewrite !N.add_0_r, app_nil_r.
    destruct fuel; simpl; by rewrite decide_False by lia. }
  apply Forall_cons in Hwf as [Hc Hwf], Ht as [Hct Ht].
  specialize (IH Hwf Ht).
  destruct fuel as [|fuel]; [simpl in Hfuel; lia|].
  cbn [old_total new_total foldr] in *. fold (old_total cs) (new_total cs) in *.
  rewrite bind_cons in *. cbn [hunk_contents_loop print_content app next mbind result_bind] in *.
  rewrite decide_True by (destruct (kind c); simpl; lia).
  rewrite strip_content_line, decide_False by (done || apply content_line_not_marker).
  rewrite parse_content_line. cbn [mbind result_bind kind plain].
  assert (∃ x y, delta (kind c) = (x, y)) as (x & y & Hd) by (by destruct (delta (kind c)); eauto).
  rewrite Hd in *. cbn [fst snd] in *. unfold add, checked_add.
  rewrite !decide_True by lia. cbn [ok_or mbind result_bind].
  rewrite decide_False by lia. rewrite <- app_assoc in *.
  rewrite consume_print by (done || by apply at_no_newline_contents).
  cbn [mbind result_bind]. rewrite IH; try done || lia.
  - by rewrite <- app_assoc.
  - cbn [length] in Hfuel. rewrite length_app in Hfuel. lia.
Qed.

Lemma print_header_starts h :
  starts_with (lit "@@ ") (strip_transport_ending (print_header h)) = true.
Proof.
  unfold print_header. rewrite !app_assoc, strip_transport_line by (by rewrite last_app).
  rewrite <- !app_assoc. apply starts_with_app.
Qed.

Lemma at_no_newline_hunks hs : at_no_newline (hs ≫= print_hunk) = false.
Proof.
  destruct hs as [|h hs]; [done|]. simpl. apply bool_decide_eq_false. intros H.
  pose proof (print_header_starts h) as Hs. by rewrite H in Hs.
Qed.

Lemma parse_hunk_contents_print h rest :
  printable h → at_no_newline rest = false →
  parse_hunk_contents ((contents h ≫= print_content) ++ rest) (count (old h)) (count (new h))
  = Ok (contents h, rest).
Proof.
  intros ((Ho & Hn & Hne & Hco & Hcn & Hwf) & Ht & Hmo & Hmn) Hr. unfold parse_hunk_contents.
  rewrite hunk_contents_loop_print; try done; try lia.
  cbn [mbind result_bind app]. by rewrite decide_False.
Qed.

Lemma hunks_loop_print h hs fuel po pn acc :
  Forall printable (h :: hs) → ordered po pn (h :: hs) →
  (length ((contents h ≫= print_content) ++ (hs ≫= print_hunk)) <= fuel)%nat →
  hunks_loop fuel (print_header h) ((contents h ≫= print_content) ++ (hs ≫= print_hunk)) po pn acc
  = Ok (acc ++ h :: hs).
Proof.
  revert h fuel po pn acc. induction hs as [|h' hs IH]; intros h fuel po pn acc Hp Ho Hf.
  all: apply Forall_cons in Hp as [Hh Hp]; destruct Ho as (Ho & Hn & Hord).
  all: assert (1 <= fuel)%nat as Hf1 by
    (destruct Hh as ((_ & _ & Hne & _) & _); destruct (contents h); [done|]; simpl in Hf; lia).
  all: destruct fuel as [|fuel]; [lia|].
  all: cbn [hunks_loop]; rewrite parse_print_header by done; cbn [mbind result_bind].
  all: rewrite decide_False by lia.
  all: rewrite parse_hunk_contents_print by (done || apply at_no_newline_hunks).
  all: cbn [mbind result_bind].
  - simpl. by destruct h.
  - rewrite bind_cons. cbn [print_hunk app]. rewrite print_header_starts.
    rewrite IH; try done.
    + rewrite <- app_assoc. by destruct h.
    + rewrite bind_cons, length_app in Hf. cbn [print_hunk app length] in Hf.
      assert (1 <= length (contents h ≫= print_content))%nat.
      { destruct Hh as ((_ & _ & Hne & _) & _). destruct (contents h); [done|]. simpl. lia. }
      lia.
Qed.

(** A workspace-relative path a file header can name. *)
Definition path_ok (path : str) : Prop :=
  transportable path ∧ TAB ∉ path ∧ NUL ∉ path ∧ path ≠ [] ∧
  starts_with (lit "/") path = false ∧ has_parent_dir path = false.

Lemma parse_header_path_print marker side path :
  path_ok path → TAB ∉ side → NUL ∉ side → side ≠ [] → starts_with [DQUOTE] side = false →
  last (marker ++ side ++ path) ≠ Some CR →
  parse_header_path (marker ++ side ++ path ++ [LF]) marker = Ok (side ++ path).
Proof.
  intros (Ht & Htab & Hnul & Hne & _) Hst Hsn Hsne Hq Hlast. unfold parse_header_path.
  replace (marker ++ side ++ path ++ [LF]) with ((marker ++ side ++ path) ++ [LF])
    by (by rewrite <- !app_assoc).
  rewrite strip_transport_line by done. rewrite strip_prefix_app. cbn [ok_or mbind result_bind].
  assert (starts_with [DQUOTE] (side ++ path) = false) as ->.
  { destruct side as [|c side]; [done|]. unfold starts_with in *. simpl in *.
    by case_decide. }
  rewrite split_once_None by set_solver. cbn [mbind result_bind].
  rewrite decide_False; [done|]. intros [H|H].
  - apply app_nil in H as [? _]. done.
  - apply Is_true_true, contains_char_true in H. set_solver.
Qed.

Lemma validate_header_print path side :
  path_ok path → side ≠ [] → validate_header_path (side ++ path) path side = Ok tt.
Proof.
  destruct side as [|c side]; [done|]. intros (_ & _ & Hnul & Hne & Habs & Hpar) _. unfold validate_header_path.
  assert ((c :: side) ++ path ≠ path) as Hlen.
  { intros H. apply (f_equal length) in H. rewrite length_app in H. simpl in H. lia. }
  rewrite (decide_False (P := (c :: side) ++ path = path)) by done.
  rewrite strip_prefix_app. cbn [default from_option id]. rewrite decide_False; [done|].
  rewrite Habs, Hpar. intros [H|[H|[H|[H|H]]]]; try done.
  apply Is_true_true, contains_char_true in H. done.
Qed.

Lemma concat_lines_ok h :
  printable h → Forall (λ l, ∃ t, l = t ++ [LF] ∧ LF ∉ t) (print_hunk h).
Proof.
  intros (Hwf & Ht & _). constructor.
  - unfold print_header. eexists. rewrite !app_assoc. split; [reflexivity|].
    rewrite !not_elem_of_app. split_and!; try by apply print_range_not_in; compute.
    all: compute; set_solver.
  - rewrite Forall_bind. eapply Forall_impl; [exact Ht|]. intros c [Hc _].
    unfold print_content. constructor.
    + exists (kind_prefix (kind c) :: ctext c). split; [done|].
      rewrite not_elem_of_cons. split; [by destruct (kind c)|done].
    + destruct (flagged c); [|constructor]. constructor; [|constructor].
      exists NO_NEWLINE_AT_END. split; [done|]. by apply (bool_decide_unpack _).
Qed.

(** Decides that a character is not in a literal. *)
Ltac not_in_lit := by apply (bool_decide_unpack _).

Lemma skip_git_header_print x p : skip_git_header (lit "--- a/" ++ x) p = Ok (lit "--- a/" ++ x, p).
Proof. reflexivity. Qed.

Lemma last_app_path (side path : str) : path ≠ [] → last (side ++ path) = last path.
Proof. intros H. rewrite last_app. destruct (last path) eqn:E; [done|]. by apply last_None in E. Qed.

Lemma parse_print_patch path h hs :
  path_ok path → Forall printable (h :: hs) → ordered 0 0 (h :: hs) →
  parse_unified_patch path (print_patch path (h :: hs)) = Ok (h :: hs).
Proof.
  intros Hpath Hp Hord. pose proof Hpath as ((Hlf & Hcr) & Htab & Hnul & Hne & _).
  unfold parse_unified_patch, print_patch. rewrite patch_lines_concat.
  2:{ assert (∀ m, LF ∉ m → ∃ t, m ++ path ++ [LF] = t ++ [LF] ∧ LF ∉ t) as Hl.
      { intros m Hm. exists (m ++ path). rewrite <- app_assoc. split; [done|set_solver]. }
      constructor; [apply Hl; not_in_lit|].
      constructor; [apply Hl; not_in_lit|].
      rewrite Forall_bind. eapply Forall_impl; [exact Hp|]. apply concat_lines_ok. }
  cbn [next mbind result_bind]. rewrite skip_git_header_print. cbn [mbind result_bind].
  assert (starts_with (lit "--- ") (strip_transport_ending (lit "--- a/" ++ path ++ [LF])) = true)
    as Hs1.
  { rewrite app_assoc, strip_transport_line by (by rewrite last_app_path).
    change (lit "--- a/") with (lit "--- " ++ lit "a/"). rewrite <- app_assoc.
    apply starts_with_app. }
  unfold parse_file_header. rewrite Hs1.
  change (lit "--- a/" ++ path ++ [LF]) with (lit "--- " ++ lit "a/" ++ path ++ [LF]).
  rewrite parse_header_path_print; try done; try not_in_lit; [|by rewrite !last_app_path].
  cbn [mbind result_bind next].
  change (lit "+++ b/" ++ path ++ [LF]) with (lit "+++ " ++ lit "b/" ++ path ++ [LF]).
  rewrite parse_header_path_print; try done; try not_in_lit; [|by rewrite !last_app_path].
  cbn [mbind result_bind].
  rewrite !validate_header_print by done. cbn [mbind result_bind next].
  by apply (hunks_loop_print h hs _ 0 0 []).
Qed.

(** ** Soundness of the parser *)

Lemma old_total_snoc cs c : old_total (cs ++ [c]) = (old_total cs + (delta (kind c)).1)%N.
Proof. unfold old_total. rewrite foldr_app. simpl. induction cs; simpl; lia. Qed.
Lemma new_total_snoc cs c : new_total (cs ++ [c]) = (new_total cs + (delta (kind c)).2)%N.
Proof. unfold new_total. rewrite foldr_app. simpl. induction cs; simpl; lia. Qed.

(** No line of a patch holds a line feed but at its end. *)
Definition raw_ok (l : str) : Prop := LF ∉ strip_transport_ending l.

Lemma split_inclusive_pieces c s :
  Forall (λ l, ∃ t, c ∉ t ∧ (l = t ∨ l = t ++ [c])) (split_inclusive c s).
Proof.
  induction s as [|d s IH]; simpl; [constructor|]. case_decide; subst.
  - constructor; [|done]. exists []. split; [apply not_elem_of_nil|by right].
  - destruct (split_inclusive c s) as [|p ps].
    + repeat constructor. exists [d]. split; [set_solver|by left].
    + apply Forall_cons in IH as [(t & Ht & Hp) IH]. constructor; [|done].
      exists (d :: t). split; [set_solver|]. destruct Hp as [->| ->]; auto.
Qed.

Lemma patch_lines_raw_ok patch : Forall raw_ok (patch_lines patch).
Proof.
  eapply Forall_impl; [apply split_inclusive_pieces|].
  intros l (t & Ht & Hl). unfold raw_ok, strip_transport_ending.
  assert (∀ u, LF ∉ u → LF ∉ default u (strip_suffix_char CR u)) as Hcr.
  { intros u Hu. destruct (strip_suffix_char CR u) eqn:E; [|done].
    apply strip_suffix_char_Some in E as ->. simpl. set_solver. }
  destruct Hl as [->| ->].
  - rewrite strip_suffix_char_None; [done|]. intros H. apply last_Some in H as [? ->]. set_solver.
  - rewrite strip_suffix_char_snoc. by apply Hcr.
Qed.

Lemma parse_patch_content_wf line c :
  LF ∉ line → parse_patch_content line = Ok c → content_wf c ∧ flagged c = false.
Proof.
  intros Hl. unfold parse_patch_content, plain.
  destruct line as [|x t]; [|repeat case_decide]; intros Hok; simplify_eq;
    (split; [unfold content_wf; simpl; split_and!; set_solver|done]).
Qed.

Lemma consume_no_newline_wf p c p' c' :
  Forall raw_ok p → content_wf c → flagged c = false →
  consume_no_newline p c = Ok (p', c') →
  content_wf c' ∧ kind c' = kind c ∧ Forall raw_ok p' ∧ (length p' <= length p)%nat.
Proof.
  intros Hp Hc Hf. unfold consume_no_newline, mark_no_newline.
  assert (Forall raw_ok (tail p) ∧ (length (tail p) <= length p)%nat) as [Ht1 Ht2].
  { destruct Hp; simpl; [by split; [constructor|]|]. split; [done|lia]. }
  unfold flagged in Hf. rewrite Hf.
  destruct (at_no_newline p); cbn [mbind result_bind]; [destruct (at_no_newline (tail p))|];
    intros H; simplify_eq; [|by split_and!].
  destruct Hc as (H1 & H2 & H3). destruct c as [k t o n e]; simpl in *.
  apply orb_false_elim in Hf as [-> ->].
  destruct k; simpl; split_and!; try done; by split_and!.
Qed.

Lemma hunk_contents_loop_wf fuel p eo en o n acc cs p' :
  Forall raw_ok p → Forall content_wf acc → o = old_total acc → n = new_total acc →
  (o <= eo)%N → (n <= en)%N →
  hunk_contents_loop fuel p eo en o n acc = Ok (cs, p') →
  Forall content_wf cs ∧ eo = old_total cs ∧ en = new_total cs ∧ Forall raw_ok p'.
Proof.
  revert p o n acc. induction fuel as [|fuel IH]; intros p o n acc Hp Hacc -> -> Ho Hn;
    simpl; case_decide; try done.
  1,3: intros [= -> ->]; split_and!; [done|lia|lia|done].
  intros H0. res_inv. destruct r as [raw q]. destruct p as [|l p]; [done|].
  simpl in Hr. injection Hr as -> ->. apply Forall_cons in Hp as [Hraw Hp].
  case_decide; [done|]. res_inv.
  apply parse_patch_content_wf in Hr as [Hwf Hfl]; [|done].
  destruct (delta (kind r)) as [x y] eqn:Hd. res_inv.
  unfold add in Hr, Hr0. res_inv. apply checked_add_Some in Hr as [-> _].
  apply checked_add_Some in Hr0 as [-> _]. case_decide; [done|]. res_inv.
  destruct r0 as [q' c']. apply consume_no_newline_wf in Hr as (Hwf' & Hk & Hq' & _); try done.
  eapply IH in H0; try done.
  - apply Forall_app_2; [done|by constructor].
  - by rewrite old_total_snoc, Hk, Hd.
  - by rewrite new_total_snoc, Hk, Hd.
  - lia.
  - lia.
Qed.

Lemma parse_hunk_contents_wf p eo en cs p' :
  Forall raw_ok p → parse_hunk_contents p eo en = Ok (cs, p') →
  cs ≠ [] ∧ Forall content_wf cs ∧ eo = old_total cs ∧ en = new_total cs ∧ Forall raw_ok p'.
Proof.
  intros Hp H. unfold parse_hunk_contents in H. res_inv. destruct r as [cs' q].
  case_decide; [done|]. injection H as -> ->.
  apply hunk_contents_loop_wf in Hr as (H1 & H2 & H3 & H4); try done || lia.
Qed.

Lemma parse_hunk_range_wf s prefix r : parse_hunk_range s prefix = Ok r → range_wf r.
Proof.
  intros H. unfold parse_hunk_range in H. apply bind_Ok in H as (s' & _ & H).
  destruct (default _ _) as [a b]. destruct (_ || _); [done|].
  apply bind_Ok in H as (start & _ & H). apply bind_Ok in H as (cnt & _ & H).
  case_decide; [done|]. apply bind_Ok in H as (i & _ & H).
  apply bind_Ok in H as (e & He & H). apply bind_Ok in H as (x & _ & H).
  injection H as <-. unfold add in He. apply ok_or_Ok, checked_add_Some in He as [-> ?]. done.
Qed.

Lemma parse_hunk_header_wf s o n :
  parse_hunk_header s = Ok (o, n) → range_wf o ∧ range_wf n.
Proof.
  intros H. unfold parse_hunk_header in H. apply bind_Ok in H as (s1 & _ & H).
  apply bind_Ok in H as ([rs sf] & _ & H). case_decide; [done|].
  apply bind_Ok in H as ([a b] & _ & H). destruct (_ || _); [done|].
  apply bind_Ok in H as (x & Hx & H). apply bind_Ok in H as (y & Hy & H).
  injection H as -> ->. by apply parse_hunk_range_wf in Hx, Hy.
Qed.

Lemma hunks_loop_wf fuel line p po pn acc hs :
  Forall raw_ok p → hunks_loop fuel line p po pn acc = Ok hs →
  ∃ new_hs, hs = acc ++ new_hs ∧ new_hs ≠ [] ∧ Forall hunk_wf new_hs ∧ ordered po pn new_hs.
Proof.
  revert line p po pn acc. induction fuel as [|fuel IH]; intros line p po pn acc Hp H; [done|].
  cbn [hunks_loop] in H. apply bind_Ok in H as ([o n] & Hh & H). case_decide; [done|].
  apply bind_Ok in H as ([cs q] & Hc & H).
  apply parse_hunk_header_wf in Hh as [Ho Hn].
  apply parse_hunk_contents_wf in Hc as (Hne & Hcs & Heo & Hen & Hq); [|done].
  assert (hunk_wf (mkHunk o n cs)) as Hwf by by split_and!.
  assert (hs = acc ++ [mkHunk o n cs] → ∃ new_hs, hs = acc ++ new_hs ∧ new_hs ≠ [] ∧
    Forall hunk_wf new_hs ∧ ordered po pn new_hs) as Hlast.
  { intros ->. eexists. split; [reflexivity|]. split_and!; [done|by constructor; [|constructor]|].
    simpl. split_and!; [lia|lia|done]. }
  destruct q as [|l q]; [injection H as <-; by apply Hlast|].
  apply Forall_cons in Hq as [_ Hq].
  destruct (starts_with _ _).
  - apply IH in H as (new_hs & -> & _ & Hall & Hord); [|done].
    exists (mkHunk o n cs :: new_hs). rewrite <- app_assoc.
    split_and!; [done|done|by constructor|]. simpl. split_and!; [lia|lia|done].
  - case_decide; [|done]. apply bind_Ok in H as (? & _ & H). injection H as <-. by apply Hlast.
Qed.

Lemma next_raw_ok p l p' : Forall raw_ok p → next p = Ok (l, p') → Forall raw_ok p'.
Proof. destruct p; intros Hp H; simplify_eq/=. by apply Forall_cons in Hp as [_ ?]. Qed.

Lemma parse_unified_wf path patch hs :
  parse_unified_patch path patch = Ok hs →
  hs ≠ [] ∧ Forall hunk_wf hs ∧ ordered 0 0 hs.
Proof.
  unfold parse_unified_patch. pose proof (patch_lines_raw_ok patch) as Hp. intros H.
  apply bind_Ok in H as ([f1 p1] & H1 & H). apply (next_raw_ok _ _ _ Hp) in H1 as Hp1.
  apply bind_Ok in H as ([f2 p2] & H2 & H). apply bind_Ok in H as ([f3 p3] & H3 & H).
  assert (Forall raw_ok p2) as Hp2.
  { unfold skip_git_header in H2. destruct (_ || _); [|by simplify_eq].
    apply bind_Ok in H2 as ([f4 p4] & H4 & H2). apply bind_Ok in H2 as ([f5 p5] & H5 & H2).
    assert (Forall raw_ok p4) by (destruct (starts_with _ f1); [by eapply next_raw_ok|by simplify_eq]).
    assert (Forall raw_ok p5) by (destruct (starts_with _ f4); [by eapply next_raw_ok|by simplify_eq]).
    destruct (starts_with _ f5); by simplify_eq. }
  assert (Forall raw_ok p3) as Hp3.
  { unfold parse_file_header in H3.
    destruct (starts_with _ (strip_transport_ending f2)); [|by simplify_eq].
    apply bind_Ok in H3 as (? & _ & H3). apply bind_Ok in H3 as ([f4 p4] & H4 & H3).
    apply bind_Ok in H3 as (? & _ & H3). apply bind_Ok in H3 as (? & _ & H3).
    apply bind_Ok in H3 as (? & _ & H3).
    eapply next_raw_ok; [|exact H3]. by eapply next_raw_ok. }
  apply hunks_loop_wf in H as (new_hs & -> & ? & ? & ?); done.
Qed.

(** C4 Round trip: printing well-formed, ordered hunks as a unified diff and parsing
    it gives the hunks back. *)
Theorem parse_unified_roundtrip path h hs :
  path_ok path → Forall printable (h :: hs) → ordered 0 0 (h :: hs) →
  parse_unified_patch path (print_patch path (h :: hs)) = Ok (h :: hs).
Proof. apply parse_print_patch. Qed.

(** C5 Whatever the text, parsed hunks are well formed: counts and ranges agree with
    the bodies, nothing overflows, and the hunks are in order without overlap. *)
Theorem parse_unified_sound path patch hs :
  parse_unified_patch path patch = Ok hs →
  hs ≠ [] ∧ Forall hunk_wf hs ∧ ordered 0 0 hs.
Proof. apply parse_unified_wf. Qed.

(** [@@ -2,1 +2,2 @@] with the body [-b +x +y]. *)
Definition sample_hunk : ResolvedHunk :=
  mkHunk (mkRange 1 1 2) (mkRange 1 2 3)
    [plain Remove (lit "b"); plain Add (lit "x"); plain Add (lit "y")].

Lemma sample_hunk_printable : printable sample_hunk.
Proof.
  assert (∀ k c, c ≠ LF → c ≠ CR → transportable [c] ∧ content_wf (plain k [c])) as Hc.
  { intros k c H1 H2. split; [split; [set_solver|simpl; congruence]|].
    split; [set_solver|]. by destruct k. }
  assert (Forall (λ c, transportable (ctext c) ∧ content_wf c) (contents sample_hunk)) as Hall.
  { do 3 (constructor; [by apply Hc|]). constructor. }
  apply Forall_and in Hall as [Ht Hwf]. by split_and!.
Qed.

Lemma sample_path_ok : path_ok (lit "f").
Proof. split_and!; try done; [split; [by_compute|done]|by_compute..]. Qed.

Lemma parse_unified_roundtrip_witness :
  parse_unified_patch (lit "f") (print_patch (lit "f") [sample_hunk]) = Ok [sample_hunk].
Proof.
  apply (parse_unified_roundtrip (lit "f") sample_hunk []).
  - apply sample_path_ok.
  - constructor; [apply sample_hunk_printable|constructor].
  - cbn. split_and!; [lia|lia|exact I].
Defined.

Lemma parse_unified_sound_witness :
  [sample_hunk] ≠ [] ∧ Forall hunk_wf [sample_hunk] ∧ ordered 0 0 [sample_hunk].
Proof.
  apply (parse_unified_sound (lit "f") (print_patch (lit "f") [sample_hunk])).
  vm_compute. reflexivity.
Defined.
