(* ===== verification/PatchCodex.v ===== *)
(** Codex patches, [tools/apply_patch/codex.rs].

    A Codex hunk names its place by a range, by an anchor line or by nothing but
    its context.  Locating it searches the source for a unique match with a
    border table, within a budget of visited lines.  The theorems: the search
    agrees with the naive scan, and every hunk list the resolver returns replays
    on the source it was resolved against. *)

From S2P Require Import Prelude RustStr PatchApply PatchUnified Kmp.

Definition CODEX_BEGIN_PATCH : str := lit "*** Begin Patch".
Definition CODEX_END_PATCH : str := lit "*** End Patch".
Definition CODEX_UPDATE_FILE : str := lit "*** Update File: ".
Definition CODEX_END_OF_FILE : str := lit "*** End of File".
Definition MAX_CODEX_MATCH_VISITS : N := MAX_PATCH_BYTES * 8.

Inductive CodexLocator :=
  | LRange (old new : HunkRange)
  | LAnchor (anchor : option str).

Record CodexHunk := mkCodexHunk {
  locator : CodexLocator;
  ccontents : list PatchContent;
  end_of_file : bool
}.

(** ** Parsing *)

Definition parse_codex_locator (line : str) : tool CodexLocator :=
  rest ← ok_or (strip_prefix (lit "@@") line) InvalidInvocation;
  let header := trim rest in
  if decide (header = []) then Ok (LAnchor None) else
  if starts_with (lit "-") header then
    '(old, new) ← parse_hunk_header line; Ok (LRange old new)
  else if contains_char NUL header then Err InvalidInvocation
  else Ok (LAnchor (Some header)).

(** The inner loop of [parse_codex_patch]: a hunk's lines, whether they end with
    the end-of-file marker, and what follows. *)
Fixpoint codex_contents_loop (fuel : nat) (p : PatchLines) (acc : list PatchContent)
    : tool (list PatchContent * bool * PatchLines) :=
  match fuel, p with
  | S f, raw :: p' =>
      let line := strip_transport_ending raw in
      if decide (line = CODEX_END_PATCH ∨ starts_with (lit "@@") line) then Ok (acc, false, p)
      else if decide (line = CODEX_END_OF_FILE) then Ok (acc, true, p')
      else if decide (starts_with (lit "***") line ∨ line = NO_NEWLINE_AT_END)
      then Err InvalidInvocation
      else
        content ← parse_patch_content line;
        '(p', content) ← consume_no_newline p' content;
        codex_contents_loop f p' (acc ++ [content])
  | _, _ => Err InvalidInvocation
  end.

Definition is_anchor (l : CodexLocator) : bool :=
  match l with LAnchor (Some _) => true | _ => false end.

(** The outer loop; every round reads a line. *)
Fixpoint codex_hunks_loop (fuel : nat) (p : PatchLines) (hunks : list CodexHunk)
    : tool (list CodexHunk) :=
  match fuel with
  | O => Err InvalidInvocation
  | S f =>
      '(raw, p) ← next p;
      let line := strip_transport_ending raw in
      if decide (line = CODEX_END_PATCH) then
        match last hunks with
        | None => Err InvalidInvocation
        | Some h =>
            if decide (ccontents h = []) then Err InvalidInvocation else
            _ ← finish p; Ok hunks
        end
      else if negb (starts_with (lit "@@") line) then Err InvalidInvocation
      else
        locator ← parse_codex_locator line;
        '(contents, eof, p) ← codex_contents_loop (length p) p [];
        if decide (contents = [] ∧ (eof = true ∨ is_anchor locator = false))
        then Err InvalidInvocation
        else codex_hunks_loop f p (hunks ++ [mkCodexHunk locator contents eof])
  end.

Definition parse_codex_patch (path patch : str) : tool (list CodexHunk) :=
  '(begin_, p) ← next (patch_lines patch);
  if decide (strip_transport_ending begin_ ≠ CODEX_BEGIN_PATCH) then Err InvalidInvocation else
  '(update, p) ← next p;
  header_path ← ok_or (strip_prefix CODEX_UPDATE_FILE (strip_transport_ending update))
                  InvalidInvocation;
  _ ← validate_header_path header_path path [];
  codex_hunks_loop (length p) p [].

(** ** Locating *)

Fixpoint codex_counts_loop (cs : list PatchContent) (o n : N) : tool (N * N) :=
  match cs with
  | [] => Ok (o, n)
  | c :: cs' =>
      o ← add o (delta (kind c)).1;
      n ← add n (delta (kind c)).2;
      codex_counts_loop cs' o n
  end.
Definition codex_content_counts (cs : list PatchContent) : tool (N * N) :=
  codex_counts_loop cs 0 0.

(** One visited line against the budget. *)
Definition visit (visits : N) : tool N :=
  v ← ok_or (checked_add visits 1) Internal;
  if decide (MAX_CODEX_MATCH_VISITS < v)%N then Err InvalidInvocation else Ok v.

Fixpoint anchor_loop (lines : list SourceLine) (index : N) (anchor : str)
    (found : option N) (visits : N) : tool (option N * N) :=
  match lines with
  | [] => Ok (found, visits)
  | line :: lines' =>
      visits ← visit visits;
      if contains anchor (text line) then
        match found with
        | Some _ => Err InvalidInvocation
        | None => anchor_loop lines' (index + 1) anchor (Some index) visits
        end
      else anchor_loop lines' (index + 1) anchor found visits
  end.
Definition find_unique_codex_anchor (source : list SourceLine) (start : N) (anchor : str)
    (visits : N) : tool (option N * N) :=
  anchor_loop (drop (N.to_nat start) source) start anchor None visits.

(** The line numbers of every line text, in order. *)
Definition index_line (acc : gmap str (list N) * N) (line : SourceLine)
    : gmap str (list N) * N :=
  let '(m, i) := acc in
  (<[text line := default [] (m !! text line) ++ [i]]> m, (i + 1)%N).
Definition codex_source_index (source : list SourceLine) : gmap str (list N) :=
  (foldl index_line (∅, 0%N) source).1.

(** The position of the only line whose missing line feed the pattern demands. *)
Fixpoint no_newline_loop (cs : list PatchContent) (offset : nat) (found : option nat)
    : tool (option nat) :=
  match cs with
  | [] => Ok found
  | c :: cs' =>
      if old_no_newline c then
        match found with
        | Some _ => Err InvalidInvocation
        | None => no_newline_loop cs' (S offset) (Some offset)
        end
      else no_newline_loop cs' (S offset) found
  end.

(** [binary_search] on the strictly increasing line numbers of a text returns the
    number of entries below the key, found or not. *)
Fixpoint lower_bound (positions : list N) (start : N) : nat :=
  match positions with
  | [] => 0
  | p :: ps => if decide (p < start)%N then S (lower_bound ps start) else 0
  end.

Fixpoint codex_contents_match_at (contents : list PatchContent) (source : list SourceLine)
    (start : N) : bool :=
  match contents with
  | [] => true
  | c :: cs =>
      match getN source start with
      | None => false
      | Some line =>
          if decide (text line ≠ ctext c ∨ old_no_newline c ∧ ending line ≠ NoEnding)
          then false
          else codex_contents_match_at cs source (start + 1)
      end
  end.

Definition codex_pattern_prefix (pattern : list PatchContent) : list nat :=
  kmp_table (ctext <$> pattern).

Definition no_newline_fits (source : list SourceLine) (candidate : N) (offset : option nat) : bool :=
  match offset with
  | None => true
  | Some o =>
      match getN source (candidate + N.of_nat o) with
      | Some line => bool_decide (ending line = NoEnding)
      | None => false
      end
  end.

Fixpoint kmp_search (pattern : list PatchContent) (source : list SourceLine)
    (prefix : list nat) (offset : option nat)
    (lines : list SourceLine) (index : N) (matched : nat) (found : option N) (visits : N)
    : tool (option N * N) :=
  match lines with
  | [] => Ok (found, visits)
  | line :: lines' =>
      visits ← visit visits;
      let texts := ctext <$> pattern in
      let matched := kmp_extend texts (kmp_back texts matched prefix matched (text line)) (text line) in
      if decide (matched = length pattern) then
        let candidate := (index + 1 - lenN pattern)%N in
        let matched := default 0 (prefix !! (matched - 1)) in
        if no_newline_fits source candidate offset then
          match found with
          | Some _ => Err InvalidInvocation
          | None => kmp_search pattern source prefix offset lines' (index + 1) matched
                      (Some candidate) visits
          end
        else kmp_search pattern source prefix offset lines' (index + 1) matched found visits
      else kmp_search pattern source prefix offset lines' (index + 1) matched found visits
  end.

Definition find_unique_codex_match (pattern : list PatchContent) (source : list SourceLine)
    (source_index : gmap str (list N)) (start visits : N) : tool (option N * N) :=
  match pattern with
  | [] => Ok (None, visits)
  | c0 :: _ =>
      offset ← no_newline_loop pattern 0 None;
      let positions := default [] (source_index !! ctext c0) in
      match drop (lower_bound positions start) positions with
      | [] => Ok (None, visits)
      | [candidate] =>
          visits ← visit visits;
          Ok (if codex_contents_match_at pattern source candidate then Some candidate else None,
              visits)
      | _ =>
          kmp_search pattern source (codex_pattern_prefix pattern) offset
            (drop (N.to_nat start) source) start 0 None visits
      end
  end.

Definition locate_codex_hunk (l : CodexLocator) (old_contents : list PatchContent)
    (old_count new_count : N) (eof : bool) (source : list SourceLine)
    (source_index : gmap str (list N)) (search_start visits : N) : tool (N * N) :=
  match l with
  | LRange old new =>
      if decide (count old ≠ old_count ∨ count new ≠ new_count) then Err InvalidInvocation else
      e ← add (index old) (count old);
      if decide (lenN source < e ∨ eof = true ∧ e ≠ lenN source)%N then Err Failed else
      if codex_contents_match_at old_contents source (index old)
      then Ok (index old, visits) else Err Failed
  | LAnchor anchor =>
      if eof then
        start ← ok_or (checked_sub (lenN source) old_count) Failed;
        if codex_contents_match_at old_contents source start
        then Ok (start, visits) else Err Failed
      else if decide (old_count = 0)%N then
        anchor ← ok_or anchor Failed;
        '(found, visits) ← find_unique_codex_anchor source search_start anchor visits;
        anchor_line ← ok_or found Failed;
        start ← ok_or (checked_add anchor_line 1) InvalidInvocation;
        Ok (start, visits)
      else
        '(match_start, visits) ←
          match anchor with
          | Some anchor =>
              '(found, visits) ← find_unique_codex_anchor source search_start anchor visits;
              anchor_line ← ok_or found Failed;
              Ok (anchor_line, visits)
          | None => Ok (search_start, visits)
          end;
        '(found, visits) ← find_unique_codex_match old_contents source source_index
                             match_start visits;
        start ← ok_or found Failed;
        Ok (start, visits)
  end.

(** ** Line endings of the located hunk *)

Definition is_remove (c : PatchContent) : bool := bool_decide (kind c = Remove).

Fixpoint mark_codex_source_endings (contents : list PatchContent) (lines : list SourceLine)
    (preferred : LineEnding) : tool (list PatchContent) :=
  match contents with
  | [] => Ok []
  | c :: cs =>
      if decide (kind c = Add) then
        cs' ← mark_codex_source_endings cs lines preferred; Ok (c :: cs')
      else
        match lines with
        | [] => Err Failed
        | line :: lines' =>
            let c' :=
              if decide (ending line = NoEnding) then
                mkContent (kind c) (ctext c) true (new_no_newline c)
                  (if decide (kind c = Context ∧ new_no_newline c = false ∧
                              existsb (λ c, negb (is_remove c)) cs = true)
                   then Some preferred else context_new_ending c)
              else c in
            cs' ← mark_codex_source_endings cs lines' preferred; Ok (c' :: cs')
        end
  end.

(** Marks the last line that the hunk keeps or adds; [None] when there is none. *)
Fixpoint mark_last_kept (contents : list PatchContent) : option (list PatchContent) :=
  match contents with
  | [] => None
  | c :: cs =>
      match mark_last_kept cs with
      | Some cs' => Some (c :: cs')
      | None =>
          if is_remove c then None
          else Some (mkContent (kind c) (ctext c) (old_no_newline c) true
                       (context_new_ending c) :: cs)
      end
  end.
Definition mark_codex_result_no_newline (contents : list PatchContent) (new_count : N)
    : list PatchContent :=
  if decide (new_count = 0)%N then contents else default contents (mark_last_kept contents).

(** ** Resolving *)

Record ResolveState := mkResolve {
  resolved : list ResolvedHunk;
  rsource_cursor : N;
  routput_cursor : N;
  previous_start : option N;
  match_visits : N
}.

Section resolve.
Context (source : list SourceLine) (preferred : LineEnding) (source_index : gmap str (list N)).

(** One round of the loop of [parse_and_resolve_codex_patch]; [is_last] is
    [index + 1 == total_hunks]. *)
Definition resolve_hunk (st : ResolveState) (h : CodexHunk) (is_last : bool) : tool ResolveState :=
  if end_of_file h && negb is_last then Err InvalidInvocation else
  let header_only := bool_decide (ccontents h = []) in
  let old_contents := filter (λ c, kind c ≠ Add) (ccontents h) in
  '(old_count, new_count) ← codex_content_counts (ccontents h);
  '(start, visits) ←
    (if header_only then
       match locator h with
       | LAnchor (Some anchor) =>
           '(found, visits) ← find_unique_codex_anchor source (rsource_cursor st) anchor
                                (match_visits st);
           start ← ok_or found Failed;
           Ok (start, visits)
       | _ => Err InvalidInvocation
       end
     else locate_codex_hunk (locator h) old_contents old_count new_count (end_of_file h)
            source source_index (rsource_cursor st) (match_visits st));
  if decide ((start < rsource_cursor st)%N ∨ header_only = false ∧ previous_start st = Some start)
  then Err InvalidInvocation else
  _ ← match locator h with
      | LRange _ new =>
          skipped ← sub start (rsource_cursor st);
          expected_new ← add (routput_cursor st) skipped;
          if decide (index new ≠ expected_new) then Err InvalidInvocation else Ok tt
      | LAnchor _ => Ok tt
      end;
  skipped ← sub start (rsource_cursor st);
  output_cursor ← add (routput_cursor st) skipped;
  if header_only
  then Ok (mkResolve (resolved st) start output_cursor (previous_start st) visits)
  else
    old_end ← add start old_count;
    contents ← mark_codex_source_endings (ccontents h) (drop (N.to_nat start) source) preferred;
    let contents :=
      if decide (is_last = true ∧ ending <$> last source = Some NoEnding ∧ old_end = lenN source)
      then mark_codex_result_no_newline contents new_count else contents in
    old ← make_hunk_range start old_count;
    new ← make_hunk_range output_cursor new_count;
    output_cursor' ← add output_cursor new_count;
    Ok (mkResolve (resolved st ++ [mkHunk old new contents]) old_end output_cursor'
          (Some start) visits).

Fixpoint resolve_hunks (st : ResolveState) (hs : list CodexHunk) : tool ResolveState :=
  match hs with
  | [] => Ok st
  | h :: hs' =>
      st' ← resolve_hunk st h (bool_decide (hs' = []));
      resolve_hunks st' hs'
  end.
End resolve.

Definition parse_and_resolve_codex_patch (path patch : str) (source : list SourceLine)
    : tool (list ResolvedHunk) :=
  hs ← parse_codex_patch path patch;
  st ← resolve_hunks source (preferred_line_ending source) (codex_source_index source)
         (mkResolve [] 0 0 None 0) hs;
  Ok (resolved st).

(** ** Matching at a position *)

(** A source line a hunk's old line accepts. *)
Definition fits (c : PatchContent) (l : SourceLine) : Prop :=
  text l = ctext c ∧ (old_no_newline c = true → ending l = NoEnding).

Lemma match_at_iff cs source start :
  codex_contents_match_at cs source start = true ↔
  ∃ os rest, drop (N.to_nat start) source = os ++ rest ∧ Forall2 fits cs os.
Proof.
  revert start. induction cs as [|c cs IH]; intros start; simpl.
  { split; [|done]. intros _. exists [], (drop (N.to_nat start) source). by split; [|constructor]. }
  unfold getN. destruct (source !! N.to_nat start) as [l|] eqn:E.
  - rewrite (drop_S _ _ _ E). case_decide as Hd.
    + split; [done|]. intros (os & rest & Ho & Hf).
      inversion Hf as [|? l' ? os' [H1 H2] _]; subst.
      injection Ho as -> _. destruct Hd as [Hd|[Hd1 Hd2]]; [done|].
      apply Is_true_true in Hd1. by apply H2 in Hd1.
    + rewrite IH. replace (N.to_nat (start + 1)) with (S (N.to_nat start)) by lia.
      assert (fits c l) as Hfit.
      { clear IH. apply Decidable.not_or in Hd as [Hd1 Hd2].
        split; [by apply dec_stable|]. intros Hc. apply dec_stable. intros Hne.
        apply Hd2. by rewrite Hc. }
      split.
      * intros (os & rest & -> & Hf). exists (l :: os), rest. split; [done|by constructor].
      * intros (os & rest & Ho & Hf). inversion Hf; subst. injection Ho as -> Ho. eauto.
  - split; [done|]. intros (os & rest & Ho & Hf).
    apply lookup_ge_None in E. rewrite drop_ge in Ho by done.
    inversion Hf; subst. done.
Qed.

(** ** The search against the naive scan *)

(** Every position from [start] on where the pattern matches. *)
Definition codex_matches (pattern : list PatchContent) (source : list SourceLine) (start : N)
    : list N :=
  filter (λ i, codex_contents_match_at pattern source i = true)
    (N.of_nat <$> seq (N.to_nat start) (length source - N.to_nat start)).

Lemma no_newline_loop_spec cs k found offset :
  no_newline_loop cs k found = Ok offset →
  match offset with
  | None => found = None ∧ Forall (λ c, old_no_newline c = false) cs
  | Some o =>
      (found = Some o ∧ Forall (λ c, old_no_newline c = false) cs) ∨
      (found = None ∧ (k <= o)%nat ∧
       ∀ i c, cs !! i = Some c → old_no_newline c = bool_decide (k + i = o))
  end.
Proof.
  revert k found. induction cs as [|c cs IH]; intros k found; simpl.
  { intros [= ->]. destruct offset; [left|]; by split. }
  destruct (old_no_newline c) eqn:Hc.
  - destruct found; [done|]. intros H. apply IH in H.
    destruct offset as [o|]; [|naive_solver].
    destruct H as [[[= <-] Hall]|(? & _)]; [|done]. right. split_and!; [done|lia|].
    intros [|i] c' Hi; simpl in Hi.
    + injection Hi as <-. rewrite Hc. symmetry. apply bool_decide_eq_true. lia.
    + rewrite Forall_lookup in Hall. rewrite (Hall _ _ Hi). symmetry.
      apply bool_decide_eq_false. lia.
  - intros H. apply IH in H. destruct offset as [o|].
    + destruct H as [[Hf Hall]|(Hf & Hk & Hall)]; [left|right].
      * split; [done|by constructor].
      * split_and!; [done|lia|]. intros [|i] c' Hi; simpl in Hi.
        -- injection Hi as <-. rewrite Hc. symmetry. apply bool_decide_eq_false. lia.
        -- rewrite (Hall _ _ Hi). apply bool_decide_ext. lia.
    + destruct H as [Hf Hall]. split; [done|by constructor].
Qed.

Lemma no_newline_loop_bound cs k found o :
  no_newline_loop cs k found = Ok (Some o) → found = Some o ∨ (o < k + length cs)%nat.
Proof.
  revert k found. induction cs as [|c cs IH]; intros k found; simpl; [intros [= ->]; by left|].
  destruct (old_no_newline c); [destruct found; [done|]|]; intros H; apply IH in H as [H|H];
    simplify_eq; auto; right; lia.
Qed.

Lemma fits_texts cs os : Forall2 fits cs os → text <$> os = ctext <$> cs.
Proof. induction 1 as [|c l cs os [H _] _ IH]; [done|]. by rewrite !fmap_cons, H, IH. Qed.

Section search.
Context (c0 : PatchContent) (cs : list PatchContent) (source : list SourceLine).
Let pattern := c0 :: cs.
Let texts := ctext <$> pattern.
Context (offset : option nat).
Context (Hoffset : no_newline_loop pattern 0 None = Ok offset).

Lemma no_newline_fits_spec c os rest :
  drop (N.to_nat c) source = os ++ rest → text <$> os = texts →
  no_newline_fits source c offset = true ↔ Forall2 fits pattern os.
Proof using Hoffset.
  intros Hos Htext. assert (length os = length pattern) as Hlen.
  { apply (f_equal length) in Htext. unfold texts in Htext. by rewrite !length_fmap in Htext. }
  assert (∀ i x l, pattern !! i = Some x → os !! i = Some l → text l = ctext x) as Heq.
  { intros i x l Hx Hl. apply (f_equal (.!! i)) in Htext. unfold texts in Htext.
    rewrite !list_lookup_fmap, Hx, Hl in Htext. simpl in Htext. congruence. }
  assert (∀ i l, os !! i = Some l → source !! (N.to_nat c + i) = Some l) as Hsrc.
  { intros i l Hl. rewrite <- lookup_drop, Hos. by apply lookup_app_l_Some. }
  pose proof (no_newline_loop_spec _ _ _ _ Hoffset) as Hspec.
  rewrite Forall2_lookup. unfold no_newline_fits, getN. split.
  - intros Hfit i. destruct (pattern !! i) as [x|] eqn:Hx.
    + destruct (lookup_lt_is_Some_2 os i) as [l Hl].
      { rewrite Hlen. by eapply lookup_lt_Some. }
      rewrite Hl. constructor. split; [by eapply Heq|]. intros Hnn.
      destruct offset as [o|].
      * destruct Hspec as [[? _]|(_ & _ & Hall)]; [done|].
        rewrite (Hall _ _ Hx) in Hnn. apply bool_decide_eq_true in Hnn. subst o.
        replace (N.to_nat (c + N.of_nat (0 + i))) with (N.to_nat c + i) in Hfit by lia.
        rewrite (Hsrc _ _ Hl) in Hfit. by apply bool_decide_eq_true in Hfit.
      * destruct Hspec as [_ Hall]. rewrite Forall_lookup in Hall.
        rewrite (Hall _ _ Hx) in Hnn. done.
    + rewrite (proj2 (lookup_ge_None os i)); [constructor|].
      rewrite Hlen. by apply lookup_ge_None.
  - intros Hf. destruct offset as [o|]; [|done].
    destruct Hspec as [[? _]|(_ & _ & Hall)]; [done|].
    destruct (pattern !! o) as [x|] eqn:Hx.
    + specialize (Hf o). rewrite Hx in Hf. inversion Hf as [? l [_ Hnn] E1 E2|].
      replace (N.to_nat (c + N.of_nat o)) with (N.to_nat c + o) by lia.
      rewrite (Hsrc o l) by done. apply bool_decide_eq_true, Hnn.
      rewrite (Hall _ _ Hx). by apply bool_decide_eq_true.
    + apply lookup_ge_None in Hx.
      pose proof (no_newline_loop_bound _ _ _ _ Hoffset) as [?|?]; [done|]. simpl in *. lia.
Qed.
(** The pattern ends at the line just read exactly when its texts end the text
    read so far and the missing-line-feed demand is met. *)
Lemma match_at_end s pre line lines :
  source = pre ++ line :: lines → (s + length cs <= length pre)%nat →
  let c := N.of_nat (length pre - length cs) in
  codex_contents_match_at pattern source c = true ↔
  texts `suffix_of` (text <$> drop s (pre ++ [line])) ∧ no_newline_fits source c offset = true.
Proof using Hoffset.
  intros Hs Hle c. set (W := pre ++ [line]).
  assert (length W = S (length pre)) as HW by (unfold W; rewrite length_app; simpl; lia).
  assert (length texts = S (length cs)) as Htl by (unfold texts, pattern; by rewrite length_fmap).
  assert (drop (N.to_nat c) source = drop (N.to_nat c) W ++ lines) as Hdrop.
  { rewrite Hs. unfold W. rewrite <- drop_app_le by (unfold c; rewrite length_app; simpl; lia).
    by rewrite <- app_assoc. }
  assert (length (drop (N.to_nat c) W) = S (length cs)) as Hdl.
  { rewrite length_drop, HW. unfold c. lia. }
  rewrite match_at_iff. split.
  - intros (os & rest & Hos & Hf).
    assert (os = drop (N.to_nat c) W) as ->.
    { rewrite Hdrop in Hos. apply app_inj_1 in Hos as [-> _]; [done|].
      apply Forall2_length in Hf. unfold pattern in Hf. simpl in Hf. lia. }
    assert (text <$> drop (N.to_nat c) W = texts) as Ht.
    { by apply fits_texts. }
    split; [|by eapply (no_newline_fits_spec c _ rest)].
    rewrite <- Ht. exists (text <$> take (N.to_nat c - s) (drop s W)).
    rewrite <- fmap_app, <- (take_drop (N.to_nat c - s) (drop s W)) at 1.
    f_equal. f_equal. rewrite drop_drop. f_equal. unfold c. lia.
  - intros [[r Hr] Hfit]. exists (drop (N.to_nat c) W), lines. split; [done|].
    apply (no_newline_fits_spec c _ lines); [done| |done].
    apply (f_equal (drop (length r))) in Hr. rewrite drop_app_length in Hr.
    rewrite <- Hr, <- fmap_drop, drop_drop. do 2 f_equal.
    apply (f_equal length) in Hr. rewrite !length_drop, length_fmap, length_drop in Hr. unfold c. lia.
Qed.

(** The candidates decided once [n] lines are read. *)
Let decided (s n : nat) : list nat :=
  filter (λ i, codex_contents_match_at pattern source (N.of_nat i) = true)
    (seq s (n - length cs - s)).

Lemma decided_step s pre line lines :
  source = pre ++ line :: lines →
  decided s (S (length pre)) =
  decided s (length pre) ++
  (if decide (s + length cs <= length pre ∧
              codex_contents_match_at pattern source (N.of_nat (length pre - length cs)) = true)%nat
   then [length pre - length cs]%nat else []).
Proof using Type.
  intros Hs. unfold decided. destruct (decide (s + length cs <= length pre)%nat) as [Hle|Hle].
  - replace (S (length pre) - length cs - s)%nat with (S (length pre - length cs - s)) by lia.
    rewrite seq_S, filter_app. f_equal.
    replace (s + (length pre - length cs - s))%nat with (length pre - length cs)%nat by lia.
    rewrite filter_cons, filter_nil. repeat case_decide; naive_solver.
  - replace (S (length pre) - length cs - s)%nat with 0 by lia.
    replace (length pre - length cs - s)%nat with 0 by lia.
    rewrite decide_False by lia. done.
Qed.

Definition unique_result (ms : list nat) (visits : N) : tool (option N * N) :=
  match ms with
  | [] => Ok (None, visits)
  | [c] => Ok (Some (N.of_nat c), visits)
  | _ => Err InvalidInvocation
  end.

Lemma decided_prefix s n m : (n <= m)%nat → ∃ more, decided s m = decided s n ++ more.
Proof using Type.
  intros Hnm. unfold decided.
  replace (m - length cs - s)%nat with
    ((n - length cs - s) + ((m - length cs - s) - (n - length cs - s)))%nat by lia.
  rewrite seq_app, filter_app. eauto.
Qed.

Lemma kmp_search_spec s lines pre matched visits found :
  source = pre ++ lines → (s <= length pre)%nat →
  longest texts (length cs) matched (text <$> drop s pre) →
  decided s (length pre) = option_list found →
  lines = [] ∨ (visits + lenN lines <= MAX_CODEX_MATCH_VISITS)%N →
  kmp_search pattern source (codex_pattern_prefix pattern) offset lines (lenN pre) matched
    (N.of_nat <$> found) visits =
  unique_result (decided s (length source)) (visits + lenN lines).
Proof using Hoffset.
  assert (length texts = S (length cs)) as Htl by (unfold texts, pattern; by rewrite length_fmap).
  destruct (kmp_table_ok texts) as [_ Hp]; [unfold texts, pattern; done|].
  rewrite Htl in Hp. revert pre matched visits found.
  induction lines as [|line lines IH]; intros pre matched visits found Hs Hle Hm Hd Hv.
  { rewrite app_nil_r in Hs. rewrite Hs at 2. rewrite Hd, lenN_nil, N.add_0_r.
    by destruct found. }
  destruct Hv as [|Hv]; [done|]. rewrite lenN_cons in Hv |- *.
  assert (source = (pre ++ [line]) ++ lines) as Hs' by (by rewrite <- app_assoc).
  cbn [kmp_search]. unfold visit, checked_add.
  unfold MAX_CODEX_MATCH_VISITS, MAX_PATCH_BYTES, usize_max, u64_max in Hv |- *.
  rewrite decide_True by lia. cbn [ok_or mbind result_bind].
  rewrite decide_False by lia. cbn [mbind result_bind]. fold texts.
  change (codex_pattern_prefix pattern) with (kmp_table texts).
  pose proof (kmp_step texts (kmp_table texts) (length cs) matched (text <$> drop s pre) (text line))
    as Hstep.
  assert (matched <= length cs)%nat as Hmc by apply Hm.
  specialize (Hstep (prefix_ok_le texts (S (length cs)) matched _ ltac:(lia) Hp) Hm ltac:(lia)).
  replace ((text <$> drop s pre) ++ [text line]) with (text <$> drop s (pre ++ [line])) in Hstep
    by (by rewrite drop_app_le, fmap_app by done).
  set (m1 := kmp_extend texts _ (text line)) in *.
  pose proof (decided_step s pre line lines Hs) as Hdec.
  pose proof (longest_full texts (length cs) m1 _ Htl Hstep) as Hfull.
  assert (lenN pre + 1 = lenN (pre ++ [line]))%N as Hidx by (by rewrite lenN_app).
  assert (visits + 1 + lenN lines = visits + (1 + lenN lines))%N as Hvis by lia.
  assert (length (pre ++ [line]) = S (length pre)) as Hlen by (rewrite length_app; simpl; lia).
  destruct (decide (m1 = length pattern)) as [Hm1|Hm1].
  - (* the whole pattern ends here *)
    assert (longest texts (length cs) (default 0 (kmp_table texts !! (m1 - 1)))
              (text <$> drop s (pre ++ [line]))) as Hreset.
    { replace (m1 - 1)%nat with (length cs) by (unfold pattern in Hm1; simpl in Hm1; lia).
      apply longest_reset; [done|done|]. change (length pattern) with (S (length cs)) in Hm1.
      by rewrite Hm1 in Hstep. }
    assert (texts `suffix_of` (text <$> drop s (pre ++ [line]))) as Hsuf
      by (by apply Hfull).
    assert (s + length cs <= length pre)%nat as Hin.
    { apply suffix_length in Hsuf. rewrite length_fmap, length_drop in Hsuf. lia. }
    replace (lenN pre + 1 - lenN pattern)%N with (N.of_nat (length pre - length cs))
      by (unfold lenN, pattern; simpl; lia).
    pose proof (match_at_end s pre line lines Hs Hin) as Hmatch. simpl in Hmatch.
    destruct (no_newline_fits source (N.of_nat (length pre - length cs)) offset) eqn:Hfit.
    + rewrite decide_True in Hdec by (split; [done|]; by apply Hmatch).
      destruct found as [c|]; cbn [fmap option_fmap option_map].
      * (* a second match *)
        destruct (decided_prefix s (S (length pre)) (length source)) as [more ->].
        { rewrite Hs', length_app. lia. }
        rewrite Hdec, Hd. done.
      * rewrite Hidx, <- Hvis. 
        apply (IH (pre ++ [line]) _ _ (Some (length pre - length cs)));
          [done|lia|done|by rewrite Hlen, Hdec, Hd|right].
        unfold MAX_CODEX_MATCH_VISITS, MAX_PATCH_BYTES. lia.
    + rewrite decide_False, app_nil_r in Hdec by (intros [_ H]; apply Hmatch in H as [_ H]; done).
      rewrite Hidx, <- Hvis.
      apply (IH (pre ++ [line])); [done|lia|done|by rewrite Hlen, Hdec|right].
      unfold MAX_CODEX_MATCH_VISITS, MAX_PATCH_BYTES. lia.
  - assert (¬ texts `suffix_of` (text <$> drop s (pre ++ [line]))) as Hsuf
      by (rewrite <- Hfull; unfold pattern in Hm1; simpl in Hm1; done).
    rewrite decide_False, app_nil_r in Hdec.
    2:{ intros [Hin H]. apply (match_at_end s pre line lines Hs Hin) in H as [H _]. done. }
    rewrite Hidx, <- Hvis.
    apply (IH (pre ++ [line])); [done|lia| |by rewrite Hlen, Hdec|right].
    + apply longest_cap; [|done]. destruct Hstep as (H & _). unfold pattern in Hm1. simpl in Hm1. lia.
    + unfold MAX_CODEX_MATCH_VISITS, MAX_PATCH_BYTES. lia.
Qed.
End search.

(** ** The line index *)

(** The line numbers, from [i] on, of the lines whose text is [t]. *)
Fixpoint positions (t : str) (i : N) (lines : list SourceLine) : list N :=
  match lines with
  | [] => []
  | l :: ls => (if decide (text l = t) then [i] else []) ++ positions t (i + 1) ls
  end.

Lemma index_lines_spec lines m i t :
  default [] ((foldl index_line (m, i) lines).1 !! t) =
  default [] (m !! t) ++ positions t i lines.
Proof.
  revert m i. induction lines as [|l ls IH]; intros m i; cbn [foldl positions].
  { by rewrite app_nil_r. }
  unfold index_line at 2. rewrite IH, app_assoc. f_equal. case_decide as Ht.
  - rewrite Ht, lookup_insert_eq. done.
  - by rewrite lookup_insert_ne, app_nil_r.
Qed.

Lemma codex_source_index_spec source t :
  default [] (codex_source_index source !! t) = positions t 0 source.
Proof. unfold codex_source_index. by rewrite index_lines_spec, lookup_empty. Qed.

Lemma positions_ge t i lines p : p ∈ positions t i lines → (i <= p)%N.
Proof.
  revert i. induction lines as [|l ls IH]; intros i; simpl; [by intros ?%not_elem_of_nil|].
  rewrite elem_of_app. intros [H|H].
  - case_decide; [|by apply not_elem_of_nil in H]. apply list_elem_of_singleton in H. lia.
  - apply IH in H. lia.
Qed.

Lemma lower_bound_0 ps s : (∀ p, p ∈ ps → (s <= p)%N) → lower_bound ps s = 0.
Proof.
  destruct ps as [|p ps]; [done|]. intros H. simpl. rewrite decide_False; [done|].
  apply N.le_ngt, H. by left.
Qed.

(** The binary search leaves the positions from [start] on. *)
Lemma lower_bound_positions t lines i start :
  (i <= start)%N →
  drop (lower_bound (positions t i lines) start) (positions t i lines) =
  positions t start (drop (N.to_nat (start - i)) lines).
Proof.
  revert i. induction lines as [|l ls IH]; intros i Hi.
  { simpl. by rewrite !drop_nil. }
  destruct (decide (i = start)) as [->|].
  { rewrite lower_bound_0 by (intros p; apply positions_ge). by rewrite N.sub_diag. }
  specialize (IH (i + 1)%N ltac:(lia)).
  replace (N.to_nat (start - i)) with (S (N.to_nat (start - (i + 1)))) by lia.
  cbn [positions drop]. rewrite <- IH. case_decide; cbn [app lower_bound]; [|done].
  by rewrite decide_True by lia.
Qed.

(** Only the lines with the first pattern text can start a match. *)
Lemma codex_matches_positions c0 cs source pre lines :
  source = pre ++ lines →
  filter (λ i, codex_contents_match_at (c0 :: cs) source i = true)
    (N.of_nat <$> seq (length pre) (length lines)) =
  filter (λ i, codex_contents_match_at (c0 :: cs) source i = true)
    (positions (ctext c0) (lenN pre) lines).
Proof.
  revert pre. induction lines as [|l ls IH]; intros pre Hs; [done|].
  cbn [length seq fmap list_fmap positions]. rewrite filter_app.
  specialize (IH (pre ++ [l])). rewrite length_app, lenN_app in IH. cbn [length] in IH.
  rewrite Nat.add_1_r in IH. change (lenN [l]) with 1%N in IH.
  rewrite <- IH by (by rewrite <- app_assoc). clear IH.
  rewrite filter_cons. fold (lenN pre). case_decide as Hm.
  - rewrite decide_True; [by rewrite filter_cons, decide_True|].
    simpl in Hm. unfold getN, lenN in Hm. rewrite Nat2N.id, Hs, list_lookup_middle in Hm by done.
    case_decide as Hd; [done|]. apply dec_stable. intros Ht. apply Hd. by left.
  - case_decide; [|done]. rewrite filter_cons, decide_False, filter_nil by done. done.
Qed.

Lemma codex_matches_index c0 cs source start :
  let ps := default [] (codex_source_index source !! ctext c0) in
  codex_matches (c0 :: cs) source start =
  filter (λ i, codex_contents_match_at (c0 :: cs) source i = true) (drop (lower_bound ps start) ps).
Proof.
  simpl. rewrite codex_source_index_spec, lower_bound_positions by lia.
  rewrite N.sub_0_r. unfold codex_matches.
  destruct (decide (N.to_nat start <= length source)%nat) as [Hle|Hle].
  - pose proof (codex_matches_positions c0 cs source (take (N.to_nat start) source)
      (drop (N.to_nat start) source) (eq_sym (take_drop _ _))) as H.
    unfold lenN in H. rewrite length_take, length_drop, Nat.min_l, N2Nat.id in H by done. done.
  - rewrite drop_ge by lia. by replace (length source - N.to_nat start)%nat with 0 by lia.
Qed.

(** ** The search is the naive scan *)

Definition unique_match (ms : list N) : tool (option N) :=
  match ms with
  | [] => Ok None
  | [c] => Ok (Some c)
  | _ => Err InvalidInvocation
  end.

Lemma unique_result_match ms visits :
  fst <$> unique_result ms visits = unique_match (N.of_nat <$> ms).
Proof. by destruct ms as [|? [|]]. Qed.

Lemma filter_fmap_of_nat (P : N → Prop) `{∀ i, Decision (P i)} (ms : list nat) :
  filter P (N.of_nat <$> ms) = N.of_nat <$> filter (λ i, P (N.of_nat i)) ms.
Proof.
  induction ms as [|m ms IH]; [done|].
  cbn [fmap list_fmap]. rewrite !filter_cons, IH. by case_decide.
Qed.

(** The last positions are too short for a match. *)
Lemma match_at_short c0 cs source i :
  codex_contents_match_at (c0 :: cs) source i = true →
  (N.to_nat i + length cs < length source)%nat.
Proof.
  intros (os & rest & Hd & Hf)%match_at_iff. apply Forall2_length in Hf.
  apply (f_equal length) in Hd. rewrite length_drop, length_app in Hd. simpl in Hf. lia.
Qed.

Lemma codex_matches_decided c0 cs source s :
  codex_matches (c0 :: cs) source (N.of_nat s) =
  N.of_nat <$> filter (λ i, codex_contents_match_at (c0 :: cs) source (N.of_nat i) = true)
                 (seq s (length source - length cs - s)).
Proof.
  unfold codex_matches. rewrite Nat2N.id, filter_fmap_of_nat. f_equal.
  replace (length source - s)%nat with
    ((length source - length cs - s) + ((length source - s) - (length source - length cs - s)))%nat
    by lia.
  rewrite seq_app, filter_app. rewrite (filter_none _ (seq (s + _) _)); [by rewrite app_nil_r|].
  intros i Hi%elem_of_seq Hm%match_at_short. lia.
Qed.

Lemma visit_Ok visits v :
  visit visits = Ok v ↔ v = (visits + 1)%N ∧ (visits + 1 <= MAX_CODEX_MATCH_VISITS)%N.
Proof.
  unfold visit. rewrite bind_Ok. split.
  - intros (a & Ha & Hv). res_inv. apply checked_add_Some in Ha as [-> _].
    case_decide; [done|]. res_inv. lia.
  - intros [-> Hv]. exists (visits + 1)%N. split.
    + apply ok_or_Ok, checked_add_Some. split; [done|].
      etrans; [exact Hv|]. by apply N.leb_le.
    + by rewrite decide_False by lia.
Qed.

(** A search that returns stayed within the budget. *)
Lemma kmp_search_visits pattern source prefix offset lines i matched found visits r :
  kmp_search pattern source prefix offset lines i matched found visits = Ok r →
  lines = [] ∨ (visits + lenN lines <= MAX_CODEX_MATCH_VISITS)%N.
Proof.
  revert i matched found visits. induction lines as [|line lines IH]; intros i matched found visits Hk;
    [by left|right].
  cbn [kmp_search] in Hk. res_inv. apply visit_Ok in Hr as [-> Hv]. rewrite lenN_cons.
  assert (lines = [] ∨ (visits + 1 + lenN lines <= MAX_CODEX_MATCH_VISITS)%N) as [->|?];
    [|change (lenN []) with 0%N; lia|lia].
  case_decide; [destruct (no_newline_fits _ _ _); [destruct found; [done|]|]|]; by eapply IH.
Qed.

Lemma find_unique_aux c0 cs source start visits offset :
  let ps := default [] (codex_source_index source !! ctext c0) in
  no_newline_loop (c0 :: cs) 0 None = Ok offset →
  (start <= lenN source)%N →
  drop (N.to_nat start) source = [] ∨
    (visits + lenN (drop (N.to_nat start) source) <= MAX_CODEX_MATCH_VISITS)%N →
  fst <$> kmp_search (c0 :: cs) source (codex_pattern_prefix (c0 :: cs)) offset
            (drop (N.to_nat start) source) start 0 None visits =
  unique_match (codex_matches (c0 :: cs) source start).
Proof.
  intros ps Ho Hstart Hv.
  set (pre := take (N.to_nat start) source).
  assert (length pre = N.to_nat start) as Hpre.
  { unfold pre. rewrite length_take. unfold lenN in Hstart. lia. }
  pose proof (kmp_search_spec c0 cs source offset Ho (N.to_nat start)
    (drop (N.to_nat start) source) pre 0 visits None) as Hspec.
  assert (lenN pre = start) as Hlen by (unfold lenN; rewrite Hpre; lia).
  rewrite Hpre, Hlen in Hspec. cbn [fmap option_fmap option_map] in Hspec.
  rewrite Hspec; [| | |split_and!|..].
  - by rewrite unique_result_match, <- codex_matches_decided, N2Nat.id.
  - symmetry. apply take_drop.
  - done.
  - lia.
  - apply sfx_0.
  - intros j Hj. rewrite drop_ge by lia. intros Hsuf%suffix_nil_inv.
    apply (f_equal length) in Hsuf. rewrite length_take, length_fmap in Hsuf. simpl in *. lia.
  - by replace (N.to_nat start - length cs - N.to_nat start)%nat with 0 by lia.
  - done.
Qed.

Lemma no_newline_loop_ok cs k :
  (length (filter (λ c, old_no_newline c = true) cs) <= 1)%nat →
  ∃ offset, no_newline_loop cs k None = Ok offset.
Proof.
  assert (∀ cs k o, filter (λ c, old_no_newline c = true) cs = [] →
    no_newline_loop cs k o = Ok o) as Hnone.
  { clear. induction cs as [|c cs IH]; intros k o Hf; [done|]. simpl.
    rewrite filter_cons in Hf. case_decide as Hc; [done|].
    destruct (old_no_newline c); [done|]. by apply IH. }
  revert k. induction cs as [|c cs IH]; intros k Hl; [by exists None|]. simpl.
  rewrite filter_cons in Hl. case_decide as Hc.
  - rewrite Hc. exists (Some k). apply Hnone. apply length_zero_iff_nil. simpl in Hl. lia.
  - destruct (old_no_newline c); [done|]. by apply IH.
Qed.

(** The search within its budget, or any search that returned: the naive scan. *)
Lemma find_unique_codex_match_aux c0 cs source start visits offset :
  no_newline_loop (c0 :: cs) 0 None = Ok offset →
  let res := find_unique_codex_match (c0 :: cs) source (codex_source_index source) start visits in
  (visits + lenN source <= MAX_CODEX_MATCH_VISITS)%N ∨ (∃ r, res = Ok r) →
  fst <$> res = unique_match (codex_matches (c0 :: cs) source start).
Proof.
  intros Ho res. unfold res, find_unique_codex_match. rewrite Ho. cbn [mbind result_bind]. clear res.
  pose proof (codex_matches_index c0 cs source start) as Hm. cbv zeta in Hm.
  assert (drop (lower_bound (default [] (codex_source_index source !! ctext c0)) start)
            (default [] (codex_source_index source !! ctext c0)) =
          positions (ctext c0) start (drop (N.to_nat start) source)) as Hpos.
  { rewrite codex_source_index_spec, lower_bound_positions, N.sub_0_r by lia. done. }
  rewrite Hpos in *.
  assert (positions (ctext c0) start (drop (N.to_nat start) source) = [] ∨
          (start < lenN source)%N) as Hcase.
  { destruct (decide (start < lenN source)%N); [by right|left].
    rewrite drop_ge by (unfold lenN in *; lia). done. }
  destruct (positions (ctext c0) start (drop (N.to_nat start) source)) as [|c [|c' ps]] eqn:E;
    intros Hv.
  - by rewrite Hm.
  - destruct Hcase as [?|Hlt]; [done|].
    assert (∃ v, visit visits = Ok v) as [v Hvis].
    { destruct Hv as [Hv|[r Hr]]; [|res_inv; eauto].
      exists (visits + 1)%N. apply visit_Ok. lia. }
    rewrite Hvis, Hm, filter_cons, filter_nil. cbn [mbind result_bind fmap result_fmap fst].
    by destruct (codex_contents_match_at (c0 :: cs) source c); [rewrite decide_True|rewrite decide_False].
  - destruct Hcase as [?|Hlt]; [done|]. apply find_unique_aux; [done|lia|].
    destruct Hv as [Hv|[r Hr]]; [right|by eapply kmp_search_visits].
    unfold lenN in *. rewrite length_drop. lia.
Qed.

Lemma find_unique_codex_match_spec c0 cs source start visits :
  (length (filter (λ c, old_no_newline c = true) (c0 :: cs)) <= 1)%nat →
  (visits + lenN source <= MAX_CODEX_MATCH_VISITS)%N →
  fst <$> find_unique_codex_match (c0 :: cs) source (codex_source_index source) start visits =
  unique_match (codex_matches (c0 :: cs) source start).
Proof.
  intros [offset Ho]%(no_newline_loop_ok _ 0) Hv.
  apply (find_unique_codex_match_aux _ _ _ _ _ offset Ho). by left.
Qed.

Lemma find_unique_codex_match_sound pattern source start visits i v :
  find_unique_codex_match pattern source (codex_source_index source) start visits = Ok (Some i, v) →
  codex_contents_match_at pattern source i = true ∧ (start <= i)%N ∧
  ∀ j, (start <= j)%N → (j < lenN source)%N →
    codex_contents_match_at pattern source j = true → j = i.
Proof.
  destruct pattern as [|c0 cs]; [done|]. intros Hf.
  assert (∃ offset, no_newline_loop (c0 :: cs) 0 None = Ok offset) as [offset Ho]
    by (unfold find_unique_codex_match in Hf; res_inv; eauto).
  pose proof (find_unique_codex_match_aux c0 cs source start visits offset Ho) as Hs.
  rewrite Hf in Hs. specialize (Hs (or_intror (ex_intro _ _ eq_refl))).
  cbn [fmap result_fmap fst] in Hs.
  assert (∀ j, j ∈ codex_matches (c0 :: cs) source start ↔
    codex_contents_match_at (c0 :: cs) source j = true ∧ (start <= j < lenN source)%N) as Hin.
  { intros j. unfold codex_matches. rewrite list_elem_of_filter, list_elem_of_fmap. f_equiv.
    unfold lenN. split.
    - intros (k & -> & Hk%elem_of_seq). lia.
    - intros Hj. exists (N.to_nat j). split; [lia|]. apply elem_of_seq. lia. }
  destruct (codex_matches (c0 :: cs) source start) as [|m [|]]; [done| |done].
  injection Hs as ->.
  destruct (proj1 (Hin m) ltac:(by left)) as [H1 H2]. split_and!; [done|lia|].
  intros j Hj1 Hj2 Hj. by apply list_elem_of_singleton, Hin.
Qed.

(** ** Counting and marking *)

Lemma codex_counts_loop_Ok cs o n r :
  codex_counts_loop cs o n = Ok r → r = ((o + old_total cs)%N, (n + new_total cs)%N).
Proof.
  revert o n. induction cs as [|c cs IH]; intros o n Hc; cbn [codex_counts_loop] in Hc.
  - res_inv. cbn. f_equal; lia.
  - res_inv. unfold add in *. res_inv. apply checked_add_Some in Hr as [-> _].
    apply checked_add_Some in Hr0 as [-> _]. apply IH in Hc. rewrite Hc.
    change (old_total (c :: cs)) with ((delta (kind c)).1 + old_total cs)%N.
    change (new_total (c :: cs)) with ((delta (kind c)).2 + new_total cs)%N. f_equal; lia.
Qed.

Lemma codex_content_counts_Ok cs o n :
  codex_content_counts cs = Ok (o, n) → o = old_total cs ∧ n = new_total cs.
Proof. intros Hc%codex_counts_loop_Ok. injection Hc as -> ->. done. Qed.

Lemma old_total_filter cs : lenN (filter (λ c, kind c ≠ Add) cs) = old_total cs.
Proof.
  induction cs as [|c cs IH]; [done|].
  change (old_total (c :: cs)) with ((delta (kind c)).1 + old_total cs)%N. rewrite <- IH, filter_cons.
  destruct (kind c) eqn:Hk.
  1, 2: rewrite decide_True by done; by rewrite lenN_cons.
  rewrite decide_False by auto. done.
Qed.

Lemma mark_rewrites cs lines pref pref' cs' os rest :
  mark_codex_source_endings cs lines pref = Ok cs' → lines = os ++ rest →
  Forall2 fits (filter (λ c, kind c ≠ Add) cs) os →
  ∃ ns, rewrites pref' cs' os ns ∧ lenN ns = new_total cs.
Proof.
  revert lines cs' os. induction cs as [|c cs IH]; intros lines cs' os Hm Hl Hf;
    cbn [mark_codex_source_endings] in Hm.
  { res_inv. apply Forall2_nil_inv_l in Hf as ->. exists []. by split; [constructor|]. }
  rewrite filter_cons in Hf. destruct (decide (kind c = Add)) as [Hk|Hk].
  - res_inv. rewrite decide_False in Hf by auto.
    destruct (IH _ _ _ Hr Hl Hf) as (ns & Hns & Hlen). eexists. split; [by apply rewrites_add|].
    rewrite lenN_cons, Hlen. cbn. by rewrite Hk.
  - rewrite decide_True in Hf by done. apply Forall2_cons_inv_l in Hf as (l & os' & [Ht He] & Hf & ->).
    rewrite Hl in Hm. cbn [app] in Hm. res_inv.
    destruct (IH _ _ _ Hr eq_refl Hf) as (ns & Hns & Hlen).
    set (c' := if decide (ending l = NoEnding) then _ else c).
    assert (kind c' = kind c) as Hkc by (unfold c'; by case_decide).
    assert (line_matches c' l) as Hc'.
    { unfold c'. split; case_decide as Hd; try done.
      - simpl. by apply bool_decide_eq_true.
      - rewrite bool_decide_eq_false_2 by done.
        destruct (old_no_newline c); [|done]. by destruct Hd; apply He. }
    destruct (kind c) eqn:Hkind; [| |done].
    + eexists. split; [by apply rewrites_context|]. rewrite lenN_cons, Hlen. cbn. by rewrite Hkind.
    + eexists. split; [by apply rewrites_remove|]. rewrite Hlen. cbn. by rewrite Hkind.
Qed.

Lemma mark_last_kept_rewrites pref cs cs' os ns :
  mark_last_kept cs = Some cs' → rewrites pref cs os ns →
  ∃ ns', rewrites pref cs' os ns' ∧ lenN ns' = lenN ns.
Proof.
  revert cs' os ns. induction cs as [|c cs IH]; intros cs' os ns Hm Hr; [done|].
  cbn [mark_last_kept] in Hm. apply rewrites_cons in Hr as (os1 & os2 & ns1 & ns2 & -> & -> & H1 & H2).
  destruct (mark_last_kept cs) as [cs1|].
  - injection Hm as <-. destruct (IH _ _ _ eq_refl H2) as (ns' & Hns & Hlen).
    exists (ns1 ++ ns'). split; [apply rewrites_cons; by repeat eexists|].
    by rewrite !lenN_app, Hlen.
  - destruct (is_remove c) eqn:Hrm; [done|]. injection Hm as <-.
    set (c' := mkContent _ _ _ true _).
    assert (∃ ns', rewrites pref [c'] os1 ns' ∧ lenN ns' = lenN ns1) as (ns' & Hns & Hlen).
    { apply rewrites_one in H1. setoid_rewrite rewrites_one. simpl.
      unfold is_remove in Hrm. apply bool_decide_eq_false in Hrm.
      destruct (kind c) eqn:Hk; [|done|].
      - destruct H1 as (l & -> & Hl & ->). eexists. split; [by exists l|done].
      - destruct H1 as [-> ->]. by eexists. }
    exists (ns' ++ ns2). split; [apply rewrites_cons; by repeat eexists|].
    by rewrite !lenN_app, Hlen.
Qed.

Lemma mark_result_rewrites pref cs n os ns :
  rewrites pref cs os ns →
  ∃ ns', rewrites pref (mark_codex_result_no_newline cs n) os ns' ∧ lenN ns' = lenN ns.
Proof.
  intros Hr. unfold mark_codex_result_no_newline. case_decide; [by exists ns|].
  destruct (mark_last_kept cs) eqn:E; [by eapply mark_last_kept_rewrites|by exists ns].
Qed.

(** ** Locating *)

(** The anchor search is the scan for the only line, from [start] on, that
    contains the anchor. *)
Lemma anchor_loop_spec lines i anchor found visits r v :
  anchor_loop lines i anchor found visits = Ok (r, v) →
  (∃ j l, found = None ∧ r = Some j ∧ (i <= j)%N ∧ lines !! N.to_nat (j - i) = Some l ∧
     contains anchor (text l) = true ∧
     ∀ k l', lines !! k = Some l' → contains anchor (text l') = true → k = N.to_nat (j - i)) ∨
  (r = found ∧ ∀ l, l ∈ lines → contains anchor (text l) = false).
Proof.
  revert i found visits. induction lines as [|line lines IH]; intros i found visits Ha;
    cbn [anchor_loop] in Ha; res_inv.
  { right. split; [done|]. by intros ? ?%not_elem_of_nil. }
  destruct (contains anchor (text line)) eqn:Hc.
  - destruct found; [done|]. apply IH in Ha as [(j & l & ? & _)|[-> Hno]]; [done|].
    left. exists i, line. rewrite N.sub_diag. split_and!; [done|done|lia|done|done|].
    intros [|k] l' Hk Hl'; [done|]. simpl in Hk.
    apply list_elem_of_lookup_2 in Hk. by rewrite Hno in Hl'.
  - apply IH in Ha as [(j & l & -> & -> & Hj & Hl & Hcl & Hu)|[-> Hno]]; [left|right].
    + exists j, l. replace (N.to_nat (j - i)) with (S (N.to_nat (j - (i + 1)))) by lia.
      split_and!; [done|done|lia|done|done|]. intros [|k] l' Hk Hl'; simpl in Hk.
      * injection Hk as ->. congruence.
      * f_equal. by eapply Hu.
    + split; [done|]. intros l [->|Hl]%elem_of_cons; [done|by apply Hno].
Qed.

Lemma find_unique_codex_anchor_lt source start anchor visits i v :
  find_unique_codex_anchor source start anchor visits = Ok (Some i, v) →
  (start <= i < lenN source)%N.
Proof.
  intros [(j & l & _ & [= <-] & Hj & Hl & _)|[? _]]%anchor_loop_spec; [|done].
  rewrite lookup_drop in Hl. apply lookup_lt_Some in Hl. unfold lenN. lia.
Qed.

Lemma match_at_fits cs source start :
  codex_contents_match_at cs source start = true → (start <= lenN source)%N →
  (start + lenN cs <= lenN source)%N.
Proof.
  intros Hm Hs. destruct cs as [|c cs]; [change (lenN []) with 0%N; lia|].
  apply match_at_short in Hm. rewrite lenN_cons. unfold lenN in *. lia.
Qed.

Lemma locate_codex_hunk_sound l old_contents old_count new_count eof source from visits start v :
  lenN old_contents = old_count →
  locate_codex_hunk l old_contents old_count new_count eof source (codex_source_index source)
    from visits = Ok (start, v) →
  codex_contents_match_at old_contents source start = true ∧
  (start + old_count <= lenN source)%N ∧
  (eof = true → (start + old_count = lenN source)%N).
Proof.
  intros Hcount Hl. unfold locate_codex_hunk in Hl. destruct l as [old new|anchor].
  - case_decide as Hd; [done|]. res_inv. unfold add in Hr. res_inv.
    apply checked_add_Some in Hr as [-> _]. case_decide as He; [done|].
    destruct (codex_contents_match_at _ _ _) eqn:Hm; [|done]. res_inv. subst start.
    assert (count old = old_count) as <- by (apply dec_stable; tauto).
    apply Decidable.not_or in He as [He1 He2]. split_and!; [done|lia|].
    intros ->. apply dec_stable. intros Hne. by apply He2.
  - destruct eof.
    + res_inv. apply checked_sub_Some in Hr as [-> Hle].
      destruct (codex_contents_match_at _ _ _) eqn:Hm; [|done]. res_inv. subst start.
      split_and!; [done|lia|lia].
    + case_decide as H0.
      * res_inv. destruct r0 as [found v0]. res_inv. subst start.
        apply checked_add_Some in Hr2 as [-> _]. rewrite Hr1 in Hr0.
        apply find_unique_codex_anchor_lt in Hr0.
        assert (old_contents = []) as -> by (destruct old_contents; [done|rewrite lenN_cons in *; lia]).
        split_and!; [done|lia|done].
      * res_inv. destruct r as [from' v1]. res_inv. destruct r as [found v2]. res_inv.
        subst start. rewrite Hr1 in Hr0.
        apply find_unique_codex_match_sound in Hr0 as (Hm & _ & _).
        split_and!; [done| |done].
        destruct old_contents as [|c cs]; [change (lenN []) with 0%N in Hcount; lia|].
        apply match_at_short in Hm. rewrite <- Hcount, lenN_cons. unfold lenN. lia.
Qed.

(** ** What the resolver returns replays *)

Section replay.
Context (source : list SourceLine) (preferred pref : LineEnding).

(** The output cursor runs in step with the source cursor from the end of the
    last resolved hunk on. *)
Definition in_step (po pn : N) (st : ResolveState) : Prop :=
  (po <= rsource_cursor st)%N ∧ (rsource_cursor st <= lenN source)%N ∧
  routput_cursor st = (pn + (rsource_cursor st - po))%N.

Lemma make_hunk_range_Ok i n r : make_hunk_range i n = Ok r → r = mkRange i n (i + n).
Proof.
  unfold make_hunk_range, add. intros Hm. res_inv. apply checked_add_Some in Hr as [-> _]. done.
Qed.

(** A resolved hunk rewrites the lines it was located at. *)
Lemma located_rewrites cs start cs' (P : Prop) `{Decision P} n :
  codex_contents_match_at (filter (λ c, kind c ≠ Add) cs) source start = true →
  mark_codex_source_endings cs (drop (N.to_nat start) source) preferred = Ok cs' →
  ∃ os rest ns, drop (N.to_nat start) source = os ++ rest ∧ lenN os = old_total cs ∧
    lenN ns = new_total cs ∧
    rewrites pref (if decide P then mark_codex_result_no_newline cs' n else cs') os ns.
Proof using Type.
  intros (os & rest & Hos & Hf)%match_at_iff Hm.
  destruct (mark_rewrites cs _ preferred pref cs' os rest Hm Hos Hf) as (ns & Hns & Hlen).
  assert (lenN os = old_total cs) as Ho.
  { rewrite <- old_total_filter. apply Forall2_length in Hf. unfold lenN. by rewrite Hf. }
  case_decide.
  - destruct (mark_result_rewrites pref cs' n os ns Hns) as (ns' & Hns' & Hlen').
    exists os, rest, ns'. by rewrite Hlen'.
  - by exists os, rest, ns.
Qed.

(** A round keeps the cursors in step, and either resolves nothing or appends one
    hunk that rewrites the lines it names. *)
Lemma resolve_hunk_step po pn st h is_last st' :
  in_step po pn st →
  resolve_hunk source preferred (codex_source_index source) st h is_last = Ok st' →
  (resolved st' = resolved st ∧ in_step po pn st') ∨
  ∃ hk pre os rest ns, resolved st' = resolved st ++ [hk] ∧
    drop (N.to_nat po) source = pre ++ os ++ rest ∧
    index (old hk) = (po + lenN pre)%N ∧ index (new hk) = (pn + lenN pre)%N ∧
    end_ (old hk) = (index (old hk) + lenN os)%N ∧ end_ (new hk) = (index (new hk) + lenN ns)%N ∧
    rewrites pref (contents hk) os ns ∧
    in_step (end_ (old hk)) (end_ (new hk)) st' ∧
    rest = drop (N.to_nat (end_ (old hk))) source.
Proof using Type.
  intros (Hpo & Hlen & Hout) Hr. unfold resolve_hunk in Hr.
  destruct (end_of_file h && negb is_last); [done|].
  apply bind_Ok in Hr as ([oc nc] & [-> ->]%codex_content_counts_Ok & Hr).
  apply bind_Ok in Hr as ([start visits] & Hloc & Hr).
  case_decide as Hcur; [done|]. apply Decidable.not_or in Hcur as [Hcur _].
  apply bind_Ok in Hr as (_ & _ & Hr).
  apply bind_Ok in Hr as (skipped & [-> _]%ok_or_Ok%checked_sub_Some & Hr).
  apply bind_Ok in Hr as (out & [-> _]%ok_or_Ok%checked_add_Some & Hr).
  destruct (bool_decide (ccontents h = [])) eqn:Hhead.
  - left. injection Hr as <-. split; [done|]. split_and!; simpl; [lia| |lia].
    destruct (locator h) as [|[anchor|]]; [done| |done].
    apply bind_Ok in Hloc as ([found v] & Ha & Hloc).
    apply bind_Ok in Hloc as (s & ->%ok_or_Ok & [= -> _]).
    apply find_unique_codex_anchor_lt in Ha. lia.
  - right. apply locate_codex_hunk_sound in Hloc as (Hm & Hfit & _); [|apply old_total_filter].
    apply bind_Ok in Hr as (e & [-> _]%ok_or_Ok%checked_add_Some & Hr).
    apply bind_Ok in Hr as (cs' & Hmark & Hr).
    destruct (located_rewrites (ccontents h) start cs'
      (is_last = true ∧ ending <$> last source = Some NoEnding ∧
       (start + old_total (ccontents h))%N = lenN source) (new_total (ccontents h)) Hm Hmark)
      as (os & rest & ns & Hos & Ho & Hn & Hrw).
    apply bind_Ok in Hr as (ro & ->%make_hunk_range_Ok & Hr).
    apply bind_Ok in Hr as (rn & ->%make_hunk_range_Ok & Hr).
    apply bind_Ok in Hr as (out' & [-> _]%ok_or_Ok%checked_add_Some & Hr). injection Hr as <-.
    eexists _, (take (N.to_nat (start - po)) (drop (N.to_nat po) source)), os, rest, ns.
    split; [done|]. cbn [index end_ old new contents rsource_cursor routput_cursor].
    assert (lenN (take (N.to_nat (start - po)) (drop (N.to_nat po) source)) = start - po)%N as ->.
    { unfold lenN in *. rewrite length_take, length_drop. lia. }
    split_and!; [|lia|lia|lia|lia|done|..].
    + rewrite <- Hos, <- (take_drop (N.to_nat (start - po)) (drop (N.to_nat po) source)) at 1.
      f_equal. rewrite drop_drop. f_equal. lia.
    + split_and!; cbn [rsource_cursor routput_cursor]; lia.
    + apply (f_equal (drop (length os))) in Hos. rewrite drop_app_length, drop_drop in Hos.
      rewrite <- Hos. f_equal. unfold lenN in Ho. lia.
Qed.

Lemma resolve_hunks_patched hs po pn st st' :
  in_step po pn st →
  resolve_hunks source preferred (codex_source_index source) st hs = Ok st' →
  ∃ new out, resolved st' = resolved st ++ new ∧
    patched pref po pn (drop (N.to_nat po) source) new out.
Proof using Type.
  revert po pn st. induction hs as [|h hs IH]; intros po pn st Hst Hr; cbn [resolve_hunks] in Hr.
  { injection Hr as <-. eexists [], _. split; [by rewrite app_nil_r|constructor]. }
  apply bind_Ok in Hr as (st1 & Hstep & Hr).
  destruct (resolve_hunk_step po pn st h _ st1 Hst Hstep)
    as [[Hres Hst1]|(hk & pre & os & rest & ns & Hres & Hsrc & H1 & H2 & H3 & H4 & Hrw & Hst1 & ->)].
  - rewrite <- Hres. by eapply IH.
  - destruct (IH _ _ _ Hst1 Hr) as (news & out & Hnews & Hp).
    exists (hk :: news), (pre ++ ns ++ out). split.
    + by rewrite Hnews, Hres, <- app_assoc.
    + rewrite Hsrc. by econstructor.
Qed.
End replay.

Lemma codex_resolved_patched path patch source hs pref :
  parse_and_resolve_codex_patch path patch source = Ok hs →
  ∃ out, patched pref 0 0 source hs out.
Proof.
  unfold parse_and_resolve_codex_patch. intros Hp. res_inv.
  eapply (resolve_hunks_patched source _ pref _ 0 0) in Hr0 as (new & out & Hres & Hpatch).
  - exists out. by rewrite Hres.
  - split_and!; cbn; lia.
Qed.

(** ** The component's properties *)

(** C3 Within the budget of visited lines, the border-table search is the naive
    scan of every position: nothing, the position, or an error when several
    positions match. *)
Theorem codex_search_is_scan c0 cs source start visits :
  (length (filter (λ c, old_no_newline c = true) (c0 :: cs)) <= 1)%nat →
  (visits + lenN source <= MAX_CODEX_MATCH_VISITS)%N →
  fst <$> find_unique_codex_match (c0 :: cs) source (codex_source_index source) start visits =
  unique_match (codex_matches (c0 :: cs) source start).
Proof. apply find_unique_codex_match_spec. Qed.

(** A position the search returns is a match, at or after the start, and the
    only one: an ambiguous context is never patched. *)
Theorem codex_match_unique pattern source start visits i v :
  find_unique_codex_match pattern source (codex_source_index source) start visits = Ok (Some i, v) →
  codex_contents_match_at pattern source i = true ∧ (start <= i)%N ∧
  ∀ j, (start <= j)%N → (j < lenN source)%N →
    codex_contents_match_at pattern source j = true → j = i.
Proof. apply find_unique_codex_match_sound. Qed.

(** A hunk is located where all its old lines match, inside the file, and at its
    very end when it says so; in every mode: range, anchor, context. *)
Theorem codex_located_sound l old_contents new_count eof source from visits start v :
  locate_codex_hunk l old_contents (lenN old_contents) new_count eof source
    (codex_source_index source) from visits = Ok (start, v) →
  codex_contents_match_at old_contents source start = true ∧
  (start + lenN old_contents <= lenN source)%N ∧
  (eof = true → (start + lenN old_contents = lenN source)%N).
Proof. by apply locate_codex_hunk_sound. Qed.

Definition scan_source : list SourceLine := split_source_lines [97; LF; 98; LF; 97; LF; 99; LF]%N.
Definition scan_pattern : list PatchContent := [plain Context (lit "a"); plain Context (lit "c")].

Lemma codex_search_is_scan_witness :
  fst <$> find_unique_codex_match scan_pattern scan_source (codex_source_index scan_source) 0 0 =
  Ok (Some 2%N).
Proof.
  apply (codex_search_is_scan (plain Context (lit "a")) [plain Context (lit "c")] scan_source 0 0);
    by_compute.
Defined.

Lemma codex_match_unique_witness : codex_contents_match_at scan_pattern scan_source 2 = true ∧ (0 <= 2)%N ∧
  ∀ j, (0 <= j)%N → (j < lenN scan_source)%N →
    codex_contents_match_at scan_pattern scan_source j = true → j = 2%N.
Proof. apply (codex_match_unique scan_pattern scan_source 0 0 2 4). vm_compute. reflexivity. Defined.

Lemma codex_located_sound_witness :
  codex_contents_match_at scan_pattern scan_source 2 = true ∧ (2 + lenN scan_pattern <= lenN scan_source)%N ∧
  (true = true → (2 + lenN scan_pattern = lenN scan_source)%N).
Proof.
  apply (codex_located_sound (LAnchor None) scan_pattern 2 true scan_source 0 0 2 0).
  vm_compute. reflexivity.
Defined.
