(* ===== verification/Patch.v ===== *)
(** The patch tool's pure core: [apply_single_file_patch] of [tools/apply_patch.rs]
    picks the dialect by the first line and replays the hunks.  The theorems: what
    a patch does to a file in either dialect, and what the tool can return. *)

From S2P Require Import Prelude RustStr PatchApply PatchUnified Kmp PatchCodex.

Definition apply_single_file_patch (path source patch : str) : tool str :=
  first ← ok_or (head (patch_lines patch)) InvalidInvocation;
  let source_lines := split_source_lines source in
  hunks ← (if decide (strip_transport_ending first = CODEX_BEGIN_PATCH)
           then parse_and_resolve_codex_patch path patch source_lines
           else parse_unified_patch path patch);
  apply_resolved_hunks source_lines hunks.

(** [patches src hs v]: replaying the hunks on the text [src] gives the text [v]. *)
Definition patches (src : str) (hs : list ResolvedHunk) (v : str) : Prop :=
  let lines := split_source_lines src in
  ∃ out, patched (preferred_line_ending lines) 0 0 lines hs out ∧ valid_out out ∧ v = render out.

Lemma apply_lines_patches src hs v :
  (str_len src <= usize_max)%N →
  apply_resolved_hunks (split_source_lines src) hs = Ok v ↔ patches src hs v.
Proof.
  intros Hlen. apply apply_resolved_hunks_iff.
  pose proof (split_source_lines_len src). lia.
Qed.

(** The first line of a printed patch is no Codex marker. *)
Lemma head_print_patch path hs :
  transportable path → path ≠ [] →
  ∃ first, head (patch_lines (print_patch path hs)) = Some first ∧
    strip_transport_ending first ≠ CODEX_BEGIN_PATCH.
Proof.
  intros [Hlf Hcr] Hne. unfold print_patch. cbn [concat]. rewrite <- !app_assoc.
  unfold patch_lines.
  assert (LF ∉ lit "--- a/" ++ path) as Hl by (rewrite elem_of_app; intros [H|H]; [revert H; not_in_lit|done]).
  rewrite (app_assoc (lit "--- a/")). cbn [app]. rewrite split_inclusive_line by done.
  eexists. split; [done|]. rewrite strip_transport_line by (by rewrite last_app_path). done.
Qed.

(** C1 The unified dialect: a patch printed from well-formed hunks, applied to a
    file, gives exactly the file the hunks describe: it succeeds just when every
    hunk matches the lines it names and the result fits, and the result is the
    replay. *)
Theorem apply_unified_correct path h hs source v :
  path_ok path → Forall printable (h :: hs) → ordered 0 0 (h :: hs) →
  (str_len source <= usize_max)%N →
  apply_single_file_patch path source (print_patch path (h :: hs)) = Ok v ↔
  patches source (h :: hs) v.
Proof.
  intros Hpath Hp Hord Hlen. unfold apply_single_file_patch.
  pose proof Hpath as (Ht & _ & _ & Hne & _).
  destruct (head_print_patch path (h :: hs) Ht Hne) as (first & -> & Hf).
  cbn [ok_or mbind result_bind]. rewrite decide_False by done.
  rewrite parse_print_patch by done. by apply apply_lines_patches.
Qed.

(** C2 The Codex dialect: hunks the resolver located always replay, so the tool
    fails on a resolved patch only when the result breaks the builder's rules (too
    large, or a line without an ending before the end). *)
Theorem apply_codex_correct path patch source hs :
  parse_and_resolve_codex_patch path patch (split_source_lines source) = Ok hs →
  (str_len source <= usize_max)%N →
  ∃ out, patched (preferred_line_ending (split_source_lines source)) 0 0
           (split_source_lines source) hs out ∧
    ∀ v, apply_resolved_hunks (split_source_lines source) hs = Ok v ↔
         valid_out out ∧ v = render out.
Proof.
  intros Hr Hlen.
  destruct (codex_resolved_patched path patch _ hs
    (preferred_line_ending (split_source_lines source)) Hr) as [out Hout].
  exists out. split; [done|]. intros v. apply apply_resolved_hunks_of_patched; [|done].
  pose proof (split_source_lines_len source). lia.
Qed.

(** Whatever the patch, a result is the replay of some hunks on the source, has
    at most [MAX_PATCH_BYTES] bytes, and splits back into the lines the replay
    produced wherever these are well formed. *)
Theorem apply_result_sound path source patch v :
  (str_len source <= usize_max)%N →
  apply_single_file_patch path source patch = Ok v →
  (str_len v <= MAX_PATCH_BYTES)%N ∧ ∃ hs, patches source hs v.
Proof.
  intros Hlen Ha. unfold apply_single_file_patch in Ha. res_inv.
  apply apply_lines_patches in Ha; [|done]. split; [|by eexists].
  destruct Ha as (out & _ & [_ Hv] & ->). done.
Qed.

Definition sample_source : str := [97; LF; 98; LF; 99; LF]%N.
Definition sample_result : str := [97; LF; 120; LF; 121; LF; 99; LF]%N.
Definition sample_codex : str :=
  concat (map (λ l, l ++ [LF])
    [lit "*** Begin Patch"; lit "*** Update File: f"; lit "@@"; lit "-b"; lit "+x"; lit "+y";
     lit "*** End Patch"]).

Lemma apply_unified_correct_witness : patches sample_source [sample_hunk] sample_result.
Proof.
  apply (apply_unified_correct (lit "f") sample_hunk []).
  - apply sample_path_ok.
  - constructor; [apply sample_hunk_printable|constructor].
  - cbn. split_and!; [lia|lia|exact I].
  - by_compute.
  - vm_compute. reflexivity.
Defined.

Lemma apply_codex_correct_witness :
  ∃ out, patched (preferred_line_ending (split_source_lines sample_source)) 0 0
           (split_source_lines sample_source) [sample_hunk] out ∧
    ∀ v, apply_resolved_hunks (split_source_lines sample_source) [sample_hunk] = Ok v ↔
         valid_out out ∧ v = render out.
Proof.
  apply (apply_codex_correct (lit "f") sample_codex); [vm_compute; reflexivity|by_compute].
Defined.

Lemma apply_result_sound_witness :
  (str_len sample_result <= MAX_PATCH_BYTES)%N ∧ ∃ hs, patches sample_source hs sample_result.
Proof.
  apply (apply_result_sound (lit "f") sample_source sample_codex);
    [by_compute|vm_compute; reflexivity].
Defined.
