(* ===== verification/Edit.v ===== *)
(** The edit tool, [tools/edit.rs]: [edit_text] replaces literal text in one file,
    translating line feeds when the file has CRLF lines.  The theorems: which
    inputs succeed and with which text, that the size computed in advance is the
    size of the result, and that editing a CRLF file keeps it one. *)

From S2P Require Import Prelude RustStr PatchApply.

Record EditInput := mkEdit { path : str; old_text : str; new_text : str; replace_all : bool }.

Definition CRLF : str := [CR; LF].

(** The guards of [EditTool::execute_bound]. *)
Definition edit_guard (input : EditInput) : tool unit :=
  if decide (old_text input = [] ∨ (MAX_PATCH_BYTES < str_len (old_text input))%N ∨
             (MAX_PATCH_BYTES < str_len (new_text input))%N ∨
             NUL ∈ old_text input ∨ NUL ∈ new_text input)
  then Err InvalidInvocation else Ok tt.

(** The translated input of [edit_text]. *)
Definition translate (source : str) (input : EditInput) : EditInput :=
  if contains CRLF source && contains_char LF (old_text input) &&
     negb (contains CRLF (old_text input))
  then mkEdit (path input) (replace [LF] CRLF (old_text input))
         (replace [LF] CRLF (replace CRLF [LF] (new_text input))) (replace_all input)
  else input.

Definition edit_text (source : str) (input : EditInput) : tool (str * N) :=
  let input := translate source input in
  let replacements := match_count (old_text input) source in
  if decide (replacements = 0 ∨ replace_all input = false ∧ 1 < replacements)%N
  then Err Failed else
  let replacements := if replace_all input then replacements else 1%N in
  removed ← ok_or (checked_mul (str_len (old_text input)) replacements) InvalidInvocation;
  inserted ← ok_or (checked_mul (str_len (new_text input)) replacements) InvalidInvocation;
  result_len ← ok_or (checked_sub (str_len source) removed ≫= λ len, checked_add len inserted)
                 InvalidInvocation;
  if decide (MAX_PATCH_BYTES < result_len)%N then Err InvalidInvocation else
  Ok (if replace_all input
      then replace (old_text input) (new_text input) source
      else replace_first (old_text input) (new_text input) source,
      replacements).

(** What the invocation answers, and the text it writes. *)
Inductive EditOutcome :=
  | Replaced (replacements : N) (written : str)
  | NeedsOneMatch.

(** [EditTool::execute_bound] on a file that was read: the guards, the check of the
    path, the edit; [Failed] becomes an answer for the model. *)
Definition execute_edit (valid_path : tool unit) (source : str) (input : EditInput)
    : tool EditOutcome :=
  _ ← edit_guard input;
  _ ← valid_path;
  match edit_text source input with
  | Ok (result, n) => Ok (Replaced n result)
  | Err Failed => Ok NeedsOneMatch
  | Err e => Err e
  end.

(** ** Replacing *)

Lemma replace_first_len pat new s a b :
  find_split pat s = Some (a, b) →
  (str_len (replace_first pat new s) + str_len pat = str_len s + str_len new)%N.
Proof.
  intros E. unfold replace_first. rewrite E. apply find_split_Some in E as ->.
  rewrite !str_len_app. lia.
Qed.

Lemma match_count_pos pat s :
  pat ≠ [] → match_count pat s ≠ 0%N → ∃ a b, find_split pat s = Some (a, b).
Proof.
  intros Hp Hn. destruct (find_split pat s) as [[a b]|] eqn:E; [eauto|].
  by apply match_count_0 in E.
Qed.

(** The number of matches and the text after the edit. *)
Definition replaced_count (all : bool) (pat s : str) : N :=
  if all then match_count pat s else 1%N.
Definition replaced_text (all : bool) (pat new s : str) : str :=
  if all then replace pat new s else replace_first pat new s.

Lemma replaced_text_len all pat new s :
  pat ≠ [] → match_count pat s ≠ 0%N →
  (str_len (replaced_text all pat new s) + replaced_count all pat s * str_len pat =
   str_len s + replaced_count all pat s * str_len new)%N.
Proof.
  intros Hp Hn. destruct all; simpl; [by apply replace_len|].
  destruct (match_count_pos _ _ Hp Hn) as (a & b & E).
  pose proof (replace_first_len pat new s a b E). lia.
Qed.

Lemma translate_old source input : old_text input ≠ [] → old_text (translate source input) ≠ [].
Proof.
  intros Hne. unfold translate.
  destruct (contains CRLF source && contains_char LF (old_text input) && _) eqn:Hc; [|done].
  simpl. intros H0. apply (f_equal str_len) in H0.
  pose proof (replace_len [LF] CRLF (old_text input) ltac:(done)) as Hl. rewrite H0 in Hl.
  change (str_len [LF]) with 1%N in Hl. change (str_len CRLF) with 2%N in Hl. simpl in Hl.
  destruct (old_text input) as [|c t]; [done|].
  rewrite str_len_cons in Hl. pose proof (len_utf8_bounds c). lia.
Qed.

Lemma translate_all source input : replace_all (translate source input) = replace_all input.
Proof. unfold translate. by destruct (_ && _). Qed.

Lemma replaced_removed all pat s :
  pat ≠ [] → match_count pat s ≠ 0%N →
  (replaced_count all pat s * str_len pat <= str_len s)%N.
Proof.
  intros Hp Hn. unfold replaced_count. destruct all.
  - pose proof (replace_len pat [] s Hp) as Hl. change (str_len []) with 0%N in Hl. lia.
  - destruct (match_count_pos _ _ Hp Hn) as (a & b & E).
    apply find_split_Some in E. rewrite E, !str_len_app. lia.
Qed.

Lemma edit_text_Ok source input v n :
  old_text input ≠ [] → (str_len source <= MAX_PATCH_BYTES)%N →
  let old := old_text (translate source input) in
  let new := new_text (translate source input) in
  let all := replace_all input in
  edit_text source input = Ok (v, n) ↔
  match_count old source ≠ 0%N ∧ (all = false → match_count old source = 1%N) ∧
  n = replaced_count all old source ∧ v = replaced_text all old new source ∧
  (str_len v <= MAX_PATCH_BYTES)%N.
Proof.
  intros Hne Hs old new all. unfold edit_text. fold old new. rewrite translate_all. fold all.
  assert (old ≠ []) as Hold by (by apply translate_old).
  case_decide as Hc.
  { split; [done|]. intros (H1 & H2 & _). destruct Hc as [?|[Ha Hc]]; [done|].
    rewrite (H2 Ha) in Hc. lia. }
  apply Decidable.not_or in Hc as [Hc1 Hc2].
  pose proof (replaced_text_len all old new source Hold Hc1) as Hlen.
  pose proof (replaced_removed all old source Hold Hc1) as Hrem.
  fold (replaced_count all old source). fold (replaced_text all old new source).
  set (k := replaced_count all old source) in *. set (t := replaced_text all old new source) in *.
  assert (all = false → match_count old source = 1%N) as H1.
  { intros Ha. destruct (decide (match_count old source = 1%N)); [done|]. exfalso. apply Hc2. split; [done|lia]. }
  unfold checked_mul, checked_sub. rewrite (N.mul_comm (str_len old)), (N.mul_comm (str_len new)).
  unfold MAX_PATCH_BYTES, usize_max, u64_max in *.
  rewrite (decide_True (P := (k * str_len old <= 18446744073709551615)%N)) by lia.
  cbn [ok_or mbind result_bind].
  rewrite (decide_True (P := (k * str_len old <= str_len source)%N)) by lia.
  cbn [mbind option_bind].
  case_decide as Hi; cbn [ok_or mbind result_bind].
  2:{ split; [done|]. intros (_ & _ & -> & -> & Hv). lia. }
  unfold checked_add, usize_max, u64_max.
  case_decide as Ha; cbn [ok_or mbind result_bind].
  2:{ split; [done|]. intros (_ & _ & -> & -> & Hv). lia. }
  case_decide as Hm.
  - split; [done|]. intros (_ & _ & -> & -> & Hv). lia.
  - split; [|naive_solver]. intros [= <- <-]. split_and!; [done..|lia].
Qed.

(** ** Line endings *)

(** Every line feed is preceded by a carriage return; [cr] says whether the text
    before [s] ends with one. *)
Fixpoint crlf_clean (cr : bool) (s : str) : Prop :=
  match s with
  | [] => True
  | c :: s' => (c = LF → cr = true) ∧ crlf_clean (bool_decide (c = CR)) s'
  end.

Fixpoint ends_cr (cr : bool) (s : str) : bool :=
  match s with [] => cr | c :: s' => ends_cr (bool_decide (c = CR)) s' end.

Lemma crlf_clean_app cr s t :
  crlf_clean cr (s ++ t) ↔ crlf_clean cr s ∧ crlf_clean (ends_cr cr s) t.
Proof. revert cr. induction s as [|c s IH]; intros cr; simpl; [naive_solver|]. rewrite IH. naive_solver. Qed.

Lemma crlf_clean_weaken cr s : crlf_clean false s → crlf_clean cr s.
Proof. destruct s as [|c s]; simpl; [done|]. intros [H ?]. split; [|done]. by intros ?%H. Qed.

Lemma crlf_clean_no_lf cr s : LF ∉ s → crlf_clean cr s.
Proof.
  revert cr. induction s as [|c s IH]; intros cr Hn; simpl; [done|].
  apply not_elem_of_cons in Hn as [Hc Hn]. split; [by intros ->|by apply IH].
Qed.

Lemma clean_lf_to_crlf cr s : crlf_clean cr (replace [LF] CRLF s).
Proof.
  revert cr. induction s as [s E|s a b E IH] using (match_ind [LF] ltac:(done)); intros cr;
    rewrite replace_unfold, E by done.
  - apply crlf_clean_no_lf. intros (l1 & l2 & ->)%list_elem_of_split.
    by apply (proj1 (find_split_None _ _) E l1 l2).
  - rewrite crlf_clean_app. split; [by eapply crlf_clean_no_lf, find_split_char|].
    simpl. split_and!; [done|done|]. apply IH.
Qed.

Lemma ends_cr_last cr s : s ≠ [] → ends_cr cr s = bool_decide (last s = Some CR).
Proof.
  revert cr. induction s as [|c s IH]; intros cr Hne; [done|]. simpl.
  destruct s as [|d s]; [simpl; apply bool_decide_ext; naive_solver|]. by rewrite IH.
Qed.

Lemma last_lf_to_crlf s : CR ∉ s → last (replace [LF] CRLF s) ≠ Some CR.
Proof.
  induction s as [s E|s a b E IH] using (match_ind [LF] ltac:(done)); intros Hn;
    rewrite replace_unfold, E by done.
  - intros Hl. apply last_Some_elem_of in Hl. done.
  - apply find_split_Some in E as ->. rewrite !last_app.
    destruct (last (replace [LF] CRLF b)) eqn:El; [apply IH; set_solver|done].
Qed.

(** Replacing one clean text by another keeps the line endings. *)
Lemma clean_replaced all old new s :
  old ≠ [] → last old ≠ Some CR → (∀ cr, crlf_clean cr new) →
  crlf_clean false s → crlf_clean false (replaced_text all old new s).
Proof.
  intros Hne Hlast Hnew Hs.
  assert (∀ cr, ends_cr cr old = false) as Hend.
  { intros cr. rewrite ends_cr_last by done. by apply bool_decide_eq_false. }
  destruct all; simpl.
  - revert Hs. generalize false. induction s as [s E|s a b E IH] using (match_ind old Hne); intros cr Hs;
      rewrite replace_unfold, E by done; [done|].
    apply find_split_Some in E as ->. rewrite !crlf_clean_app in Hs |- *. rewrite Hend in Hs.
    destruct Hs as (Ha & _ & Hb). split_and!; [done|by apply Hnew|].
    apply IH, crlf_clean_weaken, Hb.
  - unfold replace_first. destruct (find_split old s) as [[a b]|] eqn:E; [|done].
    apply find_split_Some in E as ->. rewrite !crlf_clean_app in Hs |- *. rewrite Hend in Hs.
    destruct Hs as (Ha & _ & Hb). split_and!; [done|by apply Hnew|by apply crlf_clean_weaken].
Qed.

(** ** The tool *)

Lemma clean_has_lf cr s : crlf_clean cr s → cr = false → LF ∈ s → contains CRLF s = true.
Proof.
  intros Hs Hcr Hl. apply list_elem_of_split in Hl as (a & b & ->).
  apply crlf_clean_app in Hs as [_ Hs]. simpl in Hs. destruct Hs as [Hs _]. specialize (Hs eq_refl).
  destruct a as [|x a _] using rev_ind; [by rewrite Hcr in Hs|].
  rewrite ends_cr_last in Hs by (by destruct a). rewrite last_snoc in Hs.
  apply bool_decide_eq_true in Hs. injection Hs as ->.
  apply contains_true. exists a, b. by rewrite <- app_assoc.
Qed.

(** C6 [edit_text] succeeds exactly when the (translated) old text occurs, only
    once unless every match is to be replaced, and the result fits; the result is
    the source with that match, or every match, replaced. *)
Theorem edit_text_correct source input v n :
  edit_guard input = Ok tt → (str_len source <= MAX_PATCH_BYTES)%N →
  let old := old_text (translate source input) in
  let new := new_text (translate source input) in
  edit_text source input = Ok (v, n) ↔
  match_count old source ≠ 0%N ∧ (replace_all input = false → match_count old source = 1%N) ∧
  n = replaced_count (replace_all input) old source ∧
  v = replaced_text (replace_all input) old new source ∧ (str_len v <= MAX_PATCH_BYTES)%N.
Proof.
  intros Hg Hs. apply edit_text_Ok; [|done]. unfold edit_guard in Hg.
  case_decide as Hd; [done|]. intros Hne. apply Hd. by left.
Qed.

(** The invocation answers that it needs one match exactly when the old text does
    not occur, or occurs more than once without [replace_all]; otherwise it writes
    a text of at most [MAX_PATCH_BYTES] bytes or refuses the invocation. *)
Theorem execute_edit_cases source input :
  edit_guard input = Ok tt → (str_len source <= MAX_PATCH_BYTES)%N →
  let m := match_count (old_text (translate source input)) source in
  match execute_edit (Ok tt) source input with
  | Ok NeedsOneMatch => m = 0%N ∨ replace_all input = false ∧ (1 < m)%N
  | Ok (Replaced n v) => (1 <= n)%N ∧ (str_len v <= MAX_PATCH_BYTES)%N
  | Err e => e = InvalidInvocation ∧ m ≠ 0%N
  end.
Proof.
  intros Hg Hs m. unfold execute_edit. rewrite Hg. cbn [mbind result_bind].
  assert (old_text input ≠ []) as Hne.
  { unfold edit_guard in Hg. case_decide as Hd; [done|]. intros Hne. apply Hd. by left. }
  destruct (edit_text source input) as [[v n]|e] eqn:E.
  - apply edit_text_Ok in E as (Hm & _ & -> & _ & Hv); [|done..]. split; [|done].
    unfold replaced_count. destruct (replace_all input); lia.
  - unfold edit_text in E. rewrite translate_all in E. fold m in E. case_decide as Hd.
    + injection E as <-. done.
    + assert (m ≠ 0%N) as Hm by tauto. apply bind_Err in E as [E|(r & _ & E)].
      { destruct (checked_mul _ _); by simplify_eq/=. }
      apply bind_Err in E as [E|(r' & _ & E)].
      { destruct (checked_mul _ _); by simplify_eq/=. }
      apply bind_Err in E as [E|(r'' & _ & E)].
      { destruct (checked_sub _ _ ≫= _); by simplify_eq/=. }
      case_decide; by simplify_eq/=.
Qed.

(** Editing a file whose lines all end in CRLF, with an old text that spans lines
    and is written with line feeds, keeps every line ending CRLF, whatever the
    line endings of the new text. *)
Theorem edit_keeps_crlf source input v n :
  crlf_clean false source → LF ∈ old_text input → CR ∉ old_text input →
  edit_text source input = Ok (v, n) → crlf_clean false v.
Proof.
  intros Hs Hlf Hcr He.
  assert (contains CRLF (old_text input) = false) as Hno.
  { destruct (contains CRLF (old_text input)) eqn:Hc; [|done].
    apply contains_true in Hc as (a & b & Hc). exfalso. apply Hcr. rewrite Hc, !elem_of_app. right; left. by left. }
  unfold edit_text in He. case_decide as Hd; [done|]. rewrite translate_all in *.
  res_inv. case_decide; [done|]. injection He as <- <-.
  fold (replaced_text (replace_all input) (old_text (translate source input))
    (new_text (translate source input)) source).
  destruct (decide (LF ∈ source)) as [Hin|Hin].
  - unfold translate. rewrite (clean_has_lf false) by done. rewrite Hno.
    rewrite (proj2 (contains_char_true _ _)) by done. simpl. apply clean_replaced; [| | |done].
    + rewrite replace_unfold by done. destruct (find_split [LF] (old_text input)) as [[a b]|] eqn:E.
      * by destruct a.
      * intros H0. rewrite H0 in Hlf. by apply not_elem_of_nil in Hlf.
    + by apply last_lf_to_crlf.
    + intros cr. apply clean_lf_to_crlf.
  - exfalso. apply Hd. left. unfold translate.
    assert (contains CRLF source = false) as ->.
    { destruct (contains CRLF source) eqn:Hc; [|done].
      apply contains_true in Hc as (a & b & Hc). exfalso. apply Hin. rewrite Hc, !elem_of_app.
      right; left. by right; left. }
    simpl. apply match_count_0; [by destruct (old_text input); [apply not_elem_of_nil in Hlf|]|].
    apply find_split_None. intros a b Hab. apply Hin. rewrite Hab, !elem_of_app. auto.
Qed.

Definition edit_sample : EditInput := mkEdit (lit "f") (lit "b") (lit "xy") false.

Lemma edit_text_correct_witness : edit_text (lit "abc") edit_sample = Ok (lit "axyc", 1%N).
Proof. apply (edit_text_correct (lit "abc") edit_sample (lit "axyc") 1); vm_compute; try done. Defined.

Lemma execute_edit_cases_witness :
  execute_edit (Ok tt) (lit "abb") edit_sample = Ok NeedsOneMatch ∧
  (match_count (lit "b") (lit "abb") = 0%N ∨ false = false ∧ (1 < match_count (lit "b") (lit "abb"))%N).
Proof.
  split; [vm_compute; reflexivity|].
  exact (execute_edit_cases (lit "abb") edit_sample ltac:(vm_compute; reflexivity)
    ltac:(vm_compute; discriminate)).
Defined.

Definition crlf_sample : EditInput :=
  mkEdit (lit "f") [97; LF; 98]%N [99; LF; 100; LF]%N false.

Lemma edit_keeps_crlf_witness :
  crlf_clean false [97; CR; LF; 98; CR; LF]%N ∧ crlf_clean false [99; CR; LF; 100; CR; LF; CR; LF]%N.
Proof.
  split; [vm_compute; split_and!; done|].
  apply (edit_keeps_crlf [97; CR; LF; 98; CR; LF]%N crlf_sample _ 1%N).
  - vm_compute. split_and!; done.
  - by_compute.
  - by_compute.
  - vm_compute. reflexivity.
Defined.
