(* ===== verification/Errors.v ===== *)
(** The error values shared by the components, [error.rs].

    A payload that only carries a message to the caller is kept as text. *)

From S2P Require Import Prelude RustStr.

Inductive AgentError :=
  | Config (error : str)
  | SessionNotFound
  | SessionNotLoaded
  | SessionAlreadyLoaded
  | SessionBusy
  | SessionBlocked
  | TurnNotFound
  | InteractionNotFound
  | InvalidInteraction
  | InvalidInput
  | ProfileNotFound
  | ModelNotFound
  | InvalidSessionSettings
  | Workspace
  | Store
  | StoreUnavailable
  | InvalidState
  | ReloadRequiresRestart
  | ReloadUnavailable
  | InputQueueFull
  | InputNotQueued
  | MissingLoad
  | StaleLoad
  | StaleResult
  | Runtime (view : str)
  | Internal
  | EventStreamTaken
  | InvalidArguments
  | RpcSerialization
  | QueryLimit
  | ToolNotFound
  | ContextUncompressible
  | Io (error : str).

#[global] Instance AgentError_eq_dec : EqDecision AgentError.
Proof. solve_decision. Defined.

(** How a function fails: with an error value, or by a panic. *)
Inductive fault := Fails (e : AgentError) | Panics.
