(* ===== verification/Inputs.v ===== *)
(** The input queue of a session, [sessions/inputs.rs], with the parts of
    [sessions/active_loop.rs] and [sessions/compact.rs] that hold its lock.

    [QueueState] is the queue under its mutex; [Session] adds the fields of the
    session the queue operations read.  Every operation is the critical section
    the source runs under the locks.  The theorems here are about one operation;
    [SessionSteps] interleaves them. *)

From S2P Require Import Prelude RustStr Errors.

Definition MAX_QUEUED_INPUTS : N := 32.
Definition MAX_USED_COMPACTION_IDS : N := 4096.

Inductive InputMode := Steer | FollowUp.
#[global] Instance InputMode_eq_dec : EqDecision InputMode.
Proof. solve_decision. Defined.

Record Entry := mkEntry { id : str; mode : InputMode; input : str; accepted_at : option str }.
#[global] Instance Entry_eq_dec : EqDecision Entry.
Proof. solve_decision. Defined.

Record QueueItem := mkItem {
  item_id : str; item_mode : InputMode; item_text : str; item_accepted_at : option str
}.
Definition Entry_item (e : Entry) : QueueItem := mkItem (id e) (mode e) (input e) (accepted_at e).

Record Queue := mkQueueView { view_items : list QueueItem; view_paused : bool }.

Record QueueState := mkQueue {
  items : list Entry;
  starting : option Entry;
  paused : bool;
  running : bool;
  binding : option N;
  generation : N;
  next_id : N
}.
Definition QueueState_default : QueueState := mkQueue [] None false false None 0 0.

(** ** Queue operations *)

(** [Iterator::position]. *)
Fixpoint position {A} (p : A → bool) (l : list A) : option nat :=
  match l with
  | [] => None
  | x :: l' => if p x then Some 0 else S <$> position p l'
  end.

Definition is_steer (e : Entry) : bool := bool_decide (mode e = Steer).
Definition is_follow_up (e : Entry) : bool := bool_decide (mode e = FollowUp).

Definition head (q : QueueState) : option nat :=
  match position is_steer (items q) with
  | Some i => Some i
  | None => if decide (items q ≠ []) then Some 0 else None
  end.

Definition view (q : QueueState) : Queue :=
  mkQueueView
    (Entry_item <$> (filter (λ e, mode e = Steer) (items q) ++
                     filter (λ e, mode e = FollowUp) (items q)))
    (paused q).

Definition set_items (its : list Entry) (q : QueueState) : QueueState :=
  mkQueue its (starting q) (paused q) (running q) (binding q) (generation q) (next_id q).
Definition set_paused (p : bool) (q : QueueState) : QueueState :=
  mkQueue (items q) (starting q) p (running q) (binding q) (generation q) (next_id q).
Definition set_starting (st : option Entry) (q : QueueState) : QueueState :=
  mkQueue (items q) st (paused q) (running q) (binding q) (generation q) (next_id q).

(** [Vec::remove]: the element and the rest. *)
Definition vec_remove {A} (i : nat) (l : list A) : option (A * list A) :=
  match l !! i with Some x => Some (x, delete i l) | None => None end.

Definition start_head : stm QueueState AgentError (option (Entry * N)) :=
  q ← get;
  match head q with
  | None => mret None
  | Some h =>
      generation ← lift (ok_or (checked_add (generation q) 1) Internal);
      match vec_remove h (items q) with
      | None => throw Internal (* [head] is in range *)
      | Some (entry, rest) =>
          _ ← put (mkQueue rest (Some entry) (paused q) true (Some generation) generation (next_id q));
          mret (Some (entry, generation))
      end
  end.

Definition restore (entry : Entry) (q : QueueState) : QueueState :=
  let at_ := match mode entry with
             | Steer => 0
             | FollowUp => default (length (items q)) (position is_follow_up (items q))
             end in
  set_items (take at_ (items q) ++ entry :: drop at_ (items q)) q.

Definition end_period (q : QueueState) : QueueState :=
  mkQueue (items q) None (paused q) false None (generation q) (next_id q).

Definition take_steers (q : QueueState) : list Entry * QueueState :=
  (filter (λ e, mode e = Steer) (items q),
   set_items (filter (λ e, mode e ≠ Steer) (items q)) q).

(** ** The session around the queue *)

Inductive SessionBlockReason := BlockPersistence | BlockInternal.

Record CompactionOperation := mkOp { operation_id : str; is_completed : bool; published : bool }.

(** A turn is named by its loop; the flag says whether its completion is set. *)
Record ActiveTurn := mkActive { loop_id : N; completed : bool }.

Record Session := mkSession {
  queue : QueueState;
  active : option ActiveTurn;
  blocked : option SessionBlockReason;
  closing : bool;
  compaction : option CompactionOperation;
  pending_compaction : option str;
  used_compaction_ids : list str;
  max_user_input_bytes : N
}.

Definition with_queue (q : QueueState) (s : Session) : Session :=
  mkSession q (active s) (blocked s) (closing s) (compaction s) (pending_compaction s)
    (used_compaction_ids s) (max_user_input_bytes s).
Definition with_active (a : option ActiveTurn) (s : Session) : Session :=
  mkSession (queue s) a (blocked s) (closing s) (compaction s) (pending_compaction s)
    (used_compaction_ids s) (max_user_input_bytes s).
Definition with_blocked (b : option SessionBlockReason) (s : Session) : Session :=
  mkSession (queue s) (active s) b (closing s) (compaction s) (pending_compaction s)
    (used_compaction_ids s) (max_user_input_bytes s).
Definition with_closing (c : bool) (s : Session) : Session :=
  mkSession (queue s) (active s) (blocked s) c (compaction s) (pending_compaction s)
    (used_compaction_ids s) (max_user_input_bytes s).
Definition with_compaction (c : option CompactionOperation) (p : option str) (s : Session) : Session :=
  mkSession (queue s) (active s) (blocked s) (closing s) c p
    (used_compaction_ids s) (max_user_input_bytes s).

(** Runs a queue operation inside the session. *)
Definition on_queue {A} (m : stm QueueState AgentError A) : stm Session AgentError A := λ s,
  let '(q, r) := m (queue s) in (with_queue q s, r).
Definition update_queue (f : QueueState → QueueState) : stm Session AgentError unit :=
  modify (λ s, with_queue (f (queue s)) s).

Definition operation_done (op : option CompactionOperation) : bool :=
  match op with None => true | Some op => is_completed op end.

Definition can_start (s : Session) : bool :=
  bool_decide (blocked s = None) && negb (closing s) &&
  bool_decide (pending_compaction s = None) && operation_done (compaction s).

(** ** Claims and pushes *)

Definition Claim : Type := Entry * N.

Definition claim_start : stm Session AgentError (option Claim) :=
  s ← get;
  if decide (running (queue s) = true ∨ paused (queue s) = true ∨ can_start s = false)
  then mret None
  else on_queue start_head.

(** [format!("{:032x}")]: [k] hexadecimal digits, enough for a [u64]. *)
Definition hex_digit (d : N) : char := if decide (d < 10)%N then (48 + d)%N else (87 + d)%N.
Fixpoint hex_fixed (k : nat) (n : N) : str :=
  match k with
  | O => []
  | S k' => hex_fixed k' (n / 16) ++ [hex_digit (n mod 16)]
  end.
Definition input_id (n : N) : str := lit "inp_" ++ hex_fixed 32 n.

(** The queue could not number another generation. *)
Definition exhausted (s : Session) : Prop :=
  running (queue s) = false ∧ can_start s = true ∧ generation (queue s) = u64_max.
#[global] Instance exhausted_dec s : Decision (exhausted s).
Proof. unfold exhausted. apply _. Defined.

Record PendingPush := mkPush { push_id : str; push_accepted_at : option str; push_claim : option Claim }.

Section accept.
(** [UserInput::text] of the runtime: the accepted text, if any. *)
Context (user_input_text : str → option str).

Definition accept_input (m : InputMode) (text : str) (now : option str)
    : stm Session AgentError PendingPush :=
  s ← get;
  input ← lift (ok_or (user_input_text text ≫= λ input,
            if decide (str_len input <= max_user_input_bytes s)%N then Some input else None)
            InvalidInput);
  _ ← throw_if (blocked s ≠ None) SessionBlocked;
  _ ← throw_if (closing s = true) SessionBusy;
  _ ← throw_if (MAX_QUEUED_INPUTS <= lenN (items (queue s)))%N InputQueueFull;
  _ ← throw_if (exhausted s) Internal;
  next ← lift (ok_or (checked_add (next_id (queue s)) 1) Internal);
  let entry := mkEntry (input_id next) m input now in
  _ ← update_queue (λ q, mkQueue (items q ++ [entry]) (starting q) false (running q) (binding q)
                           (generation q) next);
  claim ← claim_start;
  mret (mkPush (input_id next) now claim).
End accept.

Definition remove_input (i : str) : stm Session AgentError str :=
  s ← get;
  let q := queue s in
  at_ ← lift (ok_or (position (λ e, bool_decide (id e = i)) (items q)) InputNotQueued);
  match vec_remove at_ (items q) with
  | None => throw Internal (* [position] is in range *)
  | Some (entry, rest) =>
      _ ← update_queue (λ q, set_paused (paused q && bool_decide (rest ≠ [])) (set_items rest q));
      mret (input entry)
  end.

Definition recall_inputs : stm Session AgentError (list str) :=
  s ← get;
  let texts := item_text <$> view_items (view (queue s)) in
  _ ← update_queue (λ q, set_paused false (set_items [] q));
  mret texts.

Definition accept_resume : stm Session AgentError (option Claim) :=
  s ← get;
  _ ← throw_if (blocked s ≠ None) SessionBlocked;
  _ ← throw_if (items (queue s) ≠ [] ∧ exhausted s) Internal;
  _ ← update_queue (set_paused false);
  claim_start.

(** [Claim::failed] pauses, [Claim::occupied] and a dropped claim do not. *)
Definition abandon_claim (entry : Entry) (pause : bool) (s : Session) : Session :=
  with_queue
    (let q := end_period (restore entry (queue s)) in set_paused (paused q || pause) q) s.

(** The critical section of [start_after_compaction]. *)
Definition start_after_compaction (s : Session) : Session * option Claim :=
  match claim_start s with
  | (s', Ok claim) => (s', claim)
  | (s', Err _) => (with_queue (set_paused true (queue s')) s', None)
  end.

(** [SessionInputs::take] of the loop with this generation. *)
Definition take_inputs (g : N) (s : Session) : list Entry * Session :=
  if decide (binding (queue s) ≠ Some g) then ([], s) else
  let '(taken, q) := take_steers (queue s) in
  if decide (taken = []) then ([], s) else (taken, with_queue q s).

(** ** Turns ([active_loop.rs]) *)

(** [validate_install_state]; [successor_of] names the turn a successor follows. *)
Definition validate_install_state (s : Session) (successor_of : option N) : result AgentError unit :=
  if decide (blocked s ≠ None) then Err SessionBlocked else
  let active_matches :=
    match active s, successor_of with
    | None, None => true
    | Some a, Some turn => bool_decide (loop_id a = turn)
    | _, _ => false
    end in
  if closing s || negb active_matches || bool_decide (pending_compaction s ≠ None) ||
     negb (operation_done (compaction s))
  then Err SessionBusy else Ok tt.

(** [install_loop_with_boundary] once the runtime loop [turn] has started. *)
Definition install_loop (successor_of : option N) (turn : N) : stm Session AgentError unit :=
  s ← get;
  _ ← lift (validate_install_state s successor_of);
  modify (λ s, with_active (Some (mkActive turn false)) (with_queue (set_starting None (queue s)) s)).

Definition complete_active (s : Session) : Session :=
  match active s with
  | Some a => with_active (Some (mkActive (loop_id a) true)) s
  | None => s
  end.

(** The critical section of [complete_turn]; [eligible] says that the turn completed
    and was persisted. *)
Definition complete_turn (eligible : bool) (s : Session) : Session * bool :=
  let q := queue s in
  let continue_period := eligible && negb (closing s) && bool_decide (head q ≠ None) in
  let q := if continue_period then q
           else end_period (set_paused (paused q || (negb eligible && bool_decide (items q ≠ []))) q) in
  (complete_active (with_queue q s), continue_period).

(** The critical section of [start_successor]. *)
Definition start_successor (s : Session) : Session * option Claim :=
  let stop q := (with_queue (end_period q) s, None) in
  let q := queue s in
  if closing s
  then stop (set_paused (paused q || bool_decide (items q ≠ [])) q)
  else match start_head q with
       | (q', Ok (Some claim)) => (with_queue q' s, Some claim)
       | (q', Ok None) => stop q'
       | (q', Err _) => stop (set_paused true q')
       end.

(** [CompletionGuard::publish_internal] of an armed guard. *)
Definition publish_internal (s : Session) : Session :=
  let q := queue s in
  complete_active (with_blocked (Some BlockInternal)
    (with_queue (end_period (set_paused (paused q || bool_decide (items q ≠ [])) q)) s)).

(** ** Compaction and closing *)

Definition active_pending (s : Session) : bool :=
  match active s with Some a => negb (completed a) | None => false end.
Definition compaction_unpublished (s : Session) : bool :=
  match compaction s with Some op => negb (published op) | None => false end.

Definition check_compaction_admissible (s : Session) : result AgentError unit :=
  if decide (blocked s ≠ None) then Err SessionBlocked else
  if closing s || bool_decide (pending_compaction s ≠ None) || active_pending s ||
     compaction_unpublished s
  then Err SessionBusy else Ok tt.

Definition admit_compaction (op : str) : stm Session AgentError unit :=
  s ← get;
  _ ← throw_if (op ∈ used_compaction_ids s) InvalidState;
  _ ← lift (check_compaction_admissible s);
  _ ← throw_if (running (queue s) = true) SessionBusy;
  _ ← throw_if (MAX_USED_COMPACTION_IDS <= lenN (used_compaction_ids s))%N InvalidInput;
  modify (λ s, mkSession (queue s) (active s) (blocked s) (closing s) (compaction s) (Some op)
                 (op :: used_compaction_ids s) (max_user_input_bytes s)).

(** The second critical section of [start_compaction], for the admitted operation. *)
Definition start_compaction (op : str) : stm Session AgentError unit :=
  s ← get;
  _ ← throw_if (blocked s ≠ None) SessionBlocked;
  _ ← throw_if (closing s = true ∨ active s ≠ None ∨ compaction s ≠ None) SessionBusy;
  modify (with_compaction (Some (mkOp op false false)) None).

(** The end of an operation: completed, then the queue may start, then published. *)
Definition complete_compaction (s : Session) : Session :=
  with_compaction ((λ op, mkOp (operation_id op) true (published op)) <$> compaction s)
    (pending_compaction s) s.
Definition publish_compaction (s : Session) : Session :=
  with_compaction ((λ op, mkOp (operation_id op) (is_completed op) true) <$> compaction s)
    (pending_compaction s) s.

(** The end of [reap_finished_compaction]: an operation with a result is forgotten. *)
Definition reap_compaction (s : Session) : Session :=
  match compaction s with
  | Some op => if published op then with_compaction None (pending_compaction s) s else s
  | None => s
  end.

(** An admission dropped before it started, or cancelled before: the operation is no
    longer pending.  Both call [start_after_compaction] next. *)
Definition drop_admission (op : str) (s : Session) : Session :=
  if decide (pending_compaction s = Some op) then with_compaction (compaction s) None s else s.

Definition begin_shutdown (s : Session) : Session := with_closing true s.
Definition begin_close : stm Session AgentError unit :=
  s ← get;
  _ ← throw_if (items (queue s) ≠ [] ∨ starting (queue s) ≠ None) SessionBusy;
  put (with_closing true s).

(** ** Laws of the queue operations *)

Definition of_mode (m : InputMode) (es : list Entry) : list Entry := filter (λ e, mode e = m) es.

Lemma of_mode_app m l k : of_mode m (l ++ k) = of_mode m l ++ of_mode m k.
Proof. apply filter_app. Qed.
Lemma of_mode_cons m e l :
  of_mode m (e :: l) = if decide (mode e = m) then e :: of_mode m l else of_mode m l.
Proof. unfold of_mode. by rewrite filter_cons. Qed.

Lemma position_Some {A} (p : A → bool) l i :
  position p l = Some i → ∃ l1 x l2, l = l1 ++ x :: l2 ∧ length l1 = i ∧ p x = true ∧
    ∀ y, y ∈ l1 → p y = false.
Proof.
  revert i. induction l as [|x l IH]; intros i Hp; [done|]. simpl in Hp.
  destruct (p x) eqn:E.
  - injection Hp as <-. exists [], x, l. split_and!; [done|done|done|]. by intros y ?%not_elem_of_nil.
  - destruct (position p l) as [j|]; [|done]. injection Hp as <-.
    destruct (IH j eq_refl) as (l1 & y & l2 & -> & <- & Hy & Hn).
    exists (x :: l1), y, l2. split_and!; [done|done|done|].
    intros z [->|Hz]%elem_of_cons; [done|by apply Hn].
Qed.

Lemma position_None {A} (p : A → bool) l : position p l = None → ∀ x, x ∈ l → p x = false.
Proof.
  induction l as [|x l IH]; intros Hp y Hy; [by apply not_elem_of_nil in Hy|]. simpl in Hp.
  destruct (p x) eqn:E; [done|]. destruct (position p l); [done|].
  apply elem_of_cons in Hy as [->|Hy]; [done|by apply IH].
Qed.

Lemma vec_remove_mid {A} (l1 l2 : list A) x : vec_remove (length l1) (l1 ++ x :: l2) = Some (x, l1 ++ l2).
Proof.
  unfold vec_remove. rewrite list_lookup_middle by done.
  rewrite delete_middle. done.
Qed.

(** The head is the first steer, or the first input when there is no steer: in
    either case the first of its mode. *)
Lemma head_split q h :
  head q = Some h → ∃ l1 e l2, items q = l1 ++ e :: l2 ∧ length l1 = h ∧
    of_mode (mode e) l1 = [] ∧ (mode e = FollowUp → of_mode Steer (items q) = []).
Proof.
  unfold head. destruct (position is_steer (items q)) as [i|] eqn:E.
  - intros [= <-]. apply position_Some in E as (l1 & e & l2 & -> & <- & He & Hn).
    unfold is_steer in He. apply bool_decide_eq_true in He.
    exists l1, e, l2. split_and!; [done|done| |congruence].
    rewrite He. apply filter_none. intros y Hy Hm. specialize (Hn y Hy).
    unfold is_steer in Hn. by apply bool_decide_eq_false in Hn.
  - case_decide as Hne; [|done]. intros [= <-].
    destruct (items q) as [|e l] eqn:Hi; [done|]. exists [], e, l. split_and!; [done..|].
    intros _. rewrite <- Hi in *. apply filter_none. intros y Hy Hm.
    pose proof (position_None _ _ E y Hy) as Hn. unfold is_steer in Hn.
    by apply bool_decide_eq_false in Hn.
Qed.

Lemma head_None q : head q = None ↔ items q = [].
Proof.
  unfold head. split.
  - destruct (position _ _); [done|]. case_decide as Hd; [done|]. intros _.
    by destruct (items q); [|destruct Hd].
  - intros ->. done.
Qed.

(** What [start_head] can do. *)
Inductive starts (q : QueueState) : QueueState → result AgentError (option Claim) → Prop :=
  | starts_empty : items q = [] → starts q q (Ok None)
  | starts_full : items q ≠ [] → (u64_max <= generation q)%N → starts q q (Err Internal)
  | starts_entry l1 e l2 :
      items q = l1 ++ e :: l2 → of_mode (mode e) l1 = [] →
      (mode e = FollowUp → of_mode Steer (items q) = []) → (generation q < u64_max)%N →
      starts q
        (mkQueue (l1 ++ l2) (Some e) (paused q) true (Some (generation q + 1)%N)
           (generation q + 1) (next_id q))
        (Ok (Some (e, (generation q + 1)%N))).

Lemma start_head_starts q q' r : start_head q = (q', r) → starts q q' r.
Proof.
  unfold start_head, get, mbind, stm_bind. destruct (head q) as [h|] eqn:Hh.
  - apply head_split in Hh as (l1 & e & l2 & Hi & <- & H1 & H2).
    unfold lift, checked_add, usize_max. case_decide as Hg; cbn [ok_or].
    + rewrite Hi, vec_remove_mid. intros [= <- <-]. by apply starts_entry; [| | |lia].
    + intros [= <- <-]. apply starts_full; [by rewrite Hi; destruct l1|lia].
  - intros [= <- <-]. by apply starts_empty, head_None.
Qed.

(** Claims come from [start_head] or not at all. *)
Lemma claim_start_cases s s' r :
  claim_start s = (s', r) →
  (s' = s ∧ r = Ok None) ∨
  (running (queue s) = false ∧ paused (queue s) = false ∧ can_start s = true ∧
   ∃ q', s' = with_queue q' s ∧ starts (queue s) q' r).
Proof.
  unfold claim_start, get. unfold mbind, stm_bind. case_decide as Hd.
  - intros [= <- <-]. by left.
  - unfold on_queue. destruct (start_head (queue s)) as [q' r'] eqn:E. intros [= <- <-].
    right. destruct (running (queue s)), (paused (queue s)), (can_start s); try (exfalso; tauto).
    split_and!; [done..|]. exists q'. split; [done|]. by apply start_head_starts.
Qed.

(** Giving a claim back puts it before every entry of its mode. *)
Lemma restore_split e q : ∃ l1 l2, items q = l1 ++ l2 ∧
  restore e q = set_items (l1 ++ e :: l2) q ∧ of_mode (mode e) l1 = [].
Proof.
  unfold restore. destruct (mode e) eqn:Hm.
  - exists [], (items q). done.
  - destruct (position is_follow_up (items q)) as [i|] eqn:E; simpl.
    + apply position_Some in E as (l1 & x & l2 & Hi & <- & _ & Hn). exists l1, (x :: l2).
      split; [done|]. rewrite Hi, take_app_length, drop_app_length. split; [done|].
      apply filter_none. intros y Hy Hmy. specialize (Hn y Hy).
      unfold is_follow_up in Hn. by apply bool_decide_eq_false in Hn.
    + exists (items q), []. rewrite app_nil_r. split; [done|].
      rewrite take_ge, drop_ge by done. split; [done|].
      apply filter_none. intros y Hy Hmy. pose proof (position_None _ _ E y Hy) as Hn.
      unfold is_follow_up in Hn. by apply bool_decide_eq_false in Hn.
Qed.

Lemma steer_or_follow e : mode e ≠ Steer ↔ mode e = FollowUp.
Proof. destruct (mode e); naive_solver. Qed.

Lemma of_mode_split l : of_mode Steer l ++ of_mode FollowUp l ≡ₚ l.
Proof.
  induction l as [|e l IH]; [done|]. rewrite !of_mode_cons. destruct (mode e) eqn:Hm.
  - simpl. by rewrite IH.
  - simpl. by rewrite <- Permutation_middle, IH.
Qed.

Lemma take_steers_rest q : items (take_steers q).2 = of_mode FollowUp (items q).
Proof. simpl. apply list_filter_iff. intros e. apply steer_or_follow. Qed.

(** ** Refused operations *)

(** The counters of the queue are [u64]s. *)
Definition counters_ok (q : QueueState) : Prop :=
  (generation q <= u64_max)%N ∧ (next_id q <= u64_max)%N.

Section accept_laws.
Context (user_input_text : str → option str).

Definition pushed (q : QueueState) (e : Entry) : QueueState :=
  mkQueue (items q ++ [e]) (starting q) false (running q) (binding q) (generation q) (next_id q + 1).

(** A push is refused and changes nothing, or it appends an entry with a fresh id,
    clears the pause and claims the head. *)
Inductive push_result (m : InputMode) (text : str) (now : option str) (s : Session)
    : Session → result AgentError PendingPush → Prop :=
  | push_refused e : push_result m text now s s (Err e)
  | push_accepted inp s' claim :
      user_input_text text = Some inp → (str_len inp <= max_user_input_bytes s)%N →
      blocked s = None → closing s = false → (lenN (items (queue s)) < MAX_QUEUED_INPUTS)%N →
      (next_id (queue s) < u64_max)%N →
      claim_start (with_queue (pushed (queue s)
        (mkEntry (input_id (next_id (queue s) + 1)) m inp now)) s) = (s', Ok claim) →
      push_result m text now s s' (Ok (mkPush (input_id (next_id (queue s) + 1)) now claim)).

Lemma claim_start_ok s :
  counters_ok (queue s) → ¬ exhausted s → ∃ s' claim, claim_start s = (s', Ok claim).
Proof using Type.
  intros Hc Hx. destruct (claim_start s) as [s' [claim|e]] eqn:E; [eauto|]. exfalso.
  apply claim_start_cases in E as [[_ ?]|(Hr & _ & Hcs & q' & _ & Hst)]; [done|].
  inversion Hst as [| ? Hg|]; subst. apply Hx. destruct Hc. split_and!; [done..|lia].
Qed.

Lemma accept_input_result m text now s s' r :
  counters_ok (queue s) →
  accept_input user_input_text m text now s = (s', r) → push_result m text now s s' r.
Proof using Type.
  intros Hc. unfold accept_input, get. unfold mbind at 1. cbn [stm_bind].
  unfold mbind at 1, stm_bind at 1, lift at 1.
  destruct (user_input_text text ≫= _) as [inp|] eqn:Hu; cbn [ok_or];
    [|intros [= <- <-]; apply push_refused].
  assert (user_input_text text = Some inp ∧ (str_len inp <= max_user_input_bytes s)%N) as [Hu1 Hu2].
  { destruct (user_input_text text) as [i|]; [|done]. cbn in Hu. case_decide; [|done]. by simplify_eq. }
  do 4 (unfold mbind at 1, stm_bind at 1; rewrite throw_if_run;
    case_decide; [intros [= <- <-]; apply push_refused|]).
  unfold mbind at 1, stm_bind at 1, lift at 1. unfold checked_add at 1.
  case_decide as Hn; cbn [ok_or]; [|intros [= <- <-]; apply push_refused].
  unfold mbind at 1, stm_bind at 1, update_queue at 1, modify at 1.
  fold (pushed (queue s) (mkEntry (input_id (next_id (queue s) + 1)) m inp now)).
  set (s1 := with_queue (pushed _ _) s).
  destruct (claim_start_ok s1) as (s2 & claim & Hcl); [| |].
  { split; simpl; [apply Hc|exact Hn]. }
  { match goal with H : ¬ exhausted s |- _ => intros Hx; apply H; exact Hx end. }
  unfold mbind, stm_bind. rewrite Hcl. intros [= <- <-].
  apply (push_accepted m text now s inp); try done.
  - by apply not_true_is_false.
  - by apply N.nle_gt.
  - unfold usize_max in Hn. lia.
Qed.
End accept_laws.

(** [accept_resume] is refused and changes nothing, or clears the pause and claims
    the head. *)
Lemma accept_resume_result s s' r :
  counters_ok (queue s) → accept_resume s = (s', r) →
  (∃ e, r = Err e ∧ s' = s) ∨
  (blocked s = None ∧ ∃ claim, r = Ok claim ∧
     claim_start (with_queue (set_paused false (queue s)) s) = (s', Ok claim)).
Proof.
  intros Hc. unfold accept_resume, get. unfold mbind at 1. cbn [stm_bind].
  do 2 (unfold mbind at 1, stm_bind at 1; rewrite throw_if_run;
    case_decide; [intros [= <- <-]; left; eauto|]).
  unfold mbind at 1, stm_bind at 1, update_queue at 1, modify at 1. intros Hr. right.
  split; [done|].
  destruct r as [claim|e]; [by exists claim|]. exfalso.
  apply claim_start_cases in Hr as [[_ ?]|(Hrun & _ & Hcs & q' & _ & Hst)]; [done|].
  inversion Hst as [|Hi Hg|]; subst.
  match goal with H : ¬ (items _ ≠ [] ∧ _) |- _ => apply H end.
  split; [exact Hi|]. split_and!; [done|exact Hcs|]. destruct Hc. simpl in Hg. lia.
Qed.
