(* ===== verification/SessionSteps.v ===== *)
(** Interleavings of a session's queue, its turns and its compactions.

    A system is a session, the tasks that hold a claimed head, a running turn or an
    ended turn whose driver will start the successor, and a log of what became of
    every accepted input.  Each rule is one critical section of the source; tasks
    interleave freely between them.  The theorems: one driver at a time, no input
    lost or run twice, acceptance order within a mode, the bound of the queue, and
    no turn beside a manual compaction. *)

From S2P Require Import Prelude RustStr Errors Inputs.

Inductive Task :=
  | TClaim (e : Entry) (g : N) (successor_of : option N)
  | TLoop (e : Entry) (g : N) (turn : N)
  | TSucc (g : N) (turn : N).

Record System := mkSystem {
  sess : Session;
  tasks : list Task;
  installed : list N;          (* generations whose loop was started *)
  accepted : list Entry;       (* every input a push accepted, in order *)
  ran : list Entry;            (* inputs a turn started with or took, in order *)
  withdrawn : list Entry       (* inputs removed or recalled *)
}.

Definition claimed (ts : list Task) : list Entry :=
  ts ≫= λ t, match t with TClaim e _ _ => [e] | _ => [] end.

Definition claim_task (succ : option N) (c : option Claim) : list Task :=
  match c with Some (e, g) => [TClaim e g succ] | None => [] end.

(** Joining the active turn's driver returns once the driver holds nothing. *)
Definition driver_joined (ts : list Task) : Prop :=
  ∀ t, t ∈ ts → ∃ e g, t = TClaim e g None.

Section steps.
Context (user_input_text : str → option str).

Inductive step : System → System → Prop :=
  (* the RPC methods *)
  | step_push s ts gs ac rn wd m text now inp s' p :
      user_input_text text = Some inp →
      accept_input user_input_text m text now s = (s', Ok p) →
      step (mkSystem s ts gs ac rn wd)
        (mkSystem s' (claim_task None (push_claim p) ++ ts) gs
           (ac ++ [mkEntry (push_id p) m inp now]) rn wd)
  | step_push_refused s ts gs ac rn wd m text now s' e :
      accept_input user_input_text m text now s = (s', Err e) →
      step (mkSystem s ts gs ac rn wd) (mkSystem s' ts gs ac rn wd)
  | step_remove s ts gs ac rn wd k e s' text :
      items (queue s) !! k = Some e →
      position (λ x, bool_decide (id x = id e)) (items (queue s)) = Some k →
      remove_input (id e) s = (s', Ok text) →
      step (mkSystem s ts gs ac rn wd) (mkSystem s' ts gs ac rn (wd ++ [e]))
  | step_remove_refused s ts gs ac rn wd i s' e :
      remove_input i s = (s', Err e) →
      step (mkSystem s ts gs ac rn wd) (mkSystem s' ts gs ac rn wd)
  | step_recall s ts gs ac rn wd s' texts :
      recall_inputs s = (s', Ok texts) →
      step (mkSystem s ts gs ac rn wd) (mkSystem s' ts gs ac rn (wd ++ items (queue s)))
  | step_resume s ts gs ac rn wd s' claim :
      accept_resume s = (s', Ok claim) →
      step (mkSystem s ts gs ac rn wd) (mkSystem s' (claim_task None claim ++ ts) gs ac rn wd)
  | step_resume_refused s ts gs ac rn wd s' e :
      accept_resume s = (s', Err e) →
      step (mkSystem s ts gs ac rn wd) (mkSystem s' ts gs ac rn wd)
  (* a claim becomes a turn or is given back *)
  | step_install s l1 e g succ l2 gs ac rn wd turn s' :
      install_loop succ turn s = (s', Ok tt) →
      step (mkSystem s (l1 ++ TClaim e g succ :: l2) gs ac rn wd)
        (mkSystem s' (l1 ++ TLoop e g turn :: l2) (gs ++ [g]) ac (rn ++ [e]) wd)
  | step_abandon s l1 e g succ l2 gs ac rn wd pause :
      step (mkSystem s (l1 ++ TClaim e g succ :: l2) gs ac rn wd)
        (mkSystem (abandon_claim e pause s) (l1 ++ l2) gs ac rn wd)
  (* a loop takes inputs at a request boundary; one that has ended takes no more *)
  | step_take s ts gs ac rn wd e g turn :
      TLoop e g turn ∈ ts →
      step (mkSystem s ts gs ac rn wd)
        (mkSystem (take_inputs g s).2 ts gs ac (rn ++ (take_inputs g s).1) wd)
  | step_take_stale s ts gs ac rn wd g :
      g ∈ gs → (∀ t, t ∈ ts → match t with TLoop _ g' _ | TSucc g' _ => g' ≠ g | _ => True end) →
      step (mkSystem s ts gs ac rn wd)
        (mkSystem (take_inputs g s).2 ts gs ac (rn ++ (take_inputs g s).1) wd)
  (* the end of a turn *)
  | step_persisted s l1 e g turn l2 gs ac rn wd b :
      b ≠ Some BlockInternal →
      step (mkSystem s (l1 ++ TLoop e g turn :: l2) gs ac rn wd)
        (mkSystem (with_blocked b s) (l1 ++ TLoop e g turn :: l2) gs ac rn wd)
  | step_complete s l1 e g turn l2 gs ac rn wd eligible :
      step (mkSystem s (l1 ++ TLoop e g turn :: l2) gs ac rn wd)
        (mkSystem (complete_turn eligible s).1
           (l1 ++ (if (complete_turn eligible s).2 then [TSucc g turn] else []) ++ l2) gs ac rn wd)
  | step_internal s l1 e g turn l2 gs ac rn wd :
      step (mkSystem s (l1 ++ TLoop e g turn :: l2) gs ac rn wd)
        (mkSystem (publish_internal s) (l1 ++ l2) gs ac rn wd)
  | step_successor s l1 g turn l2 gs ac rn wd :
      step (mkSystem s (l1 ++ TSucc g turn :: l2) gs ac rn wd)
        (mkSystem (start_successor s).1
           (l1 ++ claim_task (Some turn) (start_successor s).2 ++ l2) gs ac rn wd)
  | step_cleanup s ts gs ac rn wd a :
      active s = Some a → completed a = true → driver_joined ts →
      step (mkSystem s ts gs ac rn wd) (mkSystem (with_active None s) ts gs ac rn wd)
  | step_join_failed s ts gs ac rn wd :
      step (mkSystem s ts gs ac rn wd) (mkSystem (with_blocked (Some BlockInternal) s) ts gs ac rn wd)
  (* manual compaction *)
  | step_admit s ts gs ac rn wd op s' r :
      admit_compaction op s = (s', r) →
      step (mkSystem s ts gs ac rn wd) (mkSystem s' ts gs ac rn wd)
  | step_start_compaction s ts gs ac rn wd op s' r :
      pending_compaction s = Some op → start_compaction op s = (s', r) →
      step (mkSystem s ts gs ac rn wd) (mkSystem s' ts gs ac rn wd)
  | step_drop_admission s ts gs ac rn wd op :
      step (mkSystem s ts gs ac rn wd)
        (mkSystem (drop_admission op s) ts gs ac rn wd)
  | step_complete_compaction s ts gs ac rn wd :
      step (mkSystem s ts gs ac rn wd) (mkSystem (complete_compaction s) ts gs ac rn wd)
  | step_start_after s ts gs ac rn wd :
      step (mkSystem s ts gs ac rn wd)
        (mkSystem (start_after_compaction s).1
           (claim_task None (start_after_compaction s).2 ++ ts) gs ac rn wd)
  | step_publish_compaction s ts gs ac rn wd op :
      compaction s = Some op → is_completed op = true →
      step (mkSystem s ts gs ac rn wd) (mkSystem (publish_compaction s) ts gs ac rn wd)
  | step_reap s ts gs ac rn wd :
      step (mkSystem s ts gs ac rn wd) (mkSystem (reap_compaction s) ts gs ac rn wd)
  (* closing *)
  | step_shutdown s ts gs ac rn wd :
      step (mkSystem s ts gs ac rn wd) (mkSystem (begin_shutdown s) ts gs ac rn wd)
  | step_close s ts gs ac rn wd s' r :
      begin_close s = (s', r) →
      step (mkSystem s ts gs ac rn wd) (mkSystem s' ts gs ac rn wd).

(** A session as it is loaded. *)
Definition loaded (b : option SessionBlockReason) (max : N) : System :=
  mkSystem (mkSession QueueState_default None b false None None [] max) [] [] [] [] [].

Inductive reachable : System → Prop :=
  | reach_loaded b max : reachable (loaded b max)
  | reach_step y y' : reachable y → step y y' → reachable y'.
End steps.

(** ** The invariant *)

(** The queue as the tasks see it. *)
Definition phase_ok (q : QueueState) (gs : list N) (ts : list Task) : Prop :=
  match ts with
  | [] => running q = false ∧ binding q = None ∧ starting q = None
  | [TClaim e g _] => running q = true ∧ binding q = Some g ∧ generation q = g ∧
                      starting q = Some e ∧ g ∉ gs
  | [TLoop _ g _] => running q = true ∧ binding q = Some g ∧ generation q = g ∧ starting q = None
  | [TSucc g _] => running q = true ∧ binding q = Some g ∧ generation q = g ∧ starting q = None
  | _ => False
  end.

(** No compaction is admitted or runs beside a busy period. *)
Definition exclusive (s : Session) : Prop :=
  running (queue s) = true → pending_compaction s = None ∧ operation_done (compaction s) = true.

(** The invariant of the queue against the tasks and the log. *)
Record QInv (q : QueueState) (ts : list Task) (gs : list N) (ac rn wd : list Entry) : Prop := mkQInv {
  inv_phase : phase_ok q gs ts;
  inv_counters : counters_ok q;
  inv_gens : ∀ g, g ∈ gs → (g <= generation q)%N;
  inv_next : next_id q = lenN ac;
  inv_ids : ∀ k e, ac !! k = Some e → id e = input_id (N.of_nat k + 1);
  inv_once : ac ≡ₚ items q ++ claimed ts ++ rn ++ wd;
  inv_order : ∀ m, of_mode m (rn ++ claimed ts ++ items q) `sublist_of` ac;
  inv_bound : (lenN (items q ++ claimed ts) <= MAX_QUEUED_INPUTS + 1)%N
}.

Definition Inv (y : System) : Prop :=
  QInv (queue (sess y)) (tasks y) (installed y) (accepted y) (ran y) (withdrawn y) ∧
  exclusive (sess y).

(** *** Preservation by the queue's operations *)

Lemma phase_split q gs l1 t l2 : phase_ok q gs (l1 ++ t :: l2) → l1 = [] ∧ l2 = [].
Proof.
  destruct l1 as [|t1 l1]; simpl.
  - destruct t, l2; naive_solver.
  - destruct t1, l1; simpl; naive_solver.
Qed.

Lemma phase_idle q gs ts : phase_ok q gs ts → running q = false → ts = [].
Proof. destruct ts as [|[] [|]]; simpl; intuition congruence. Qed.

Lemma claimed_short q gs ts : phase_ok q gs ts → (lenN (claimed ts) <= 1)%N.
Proof. destruct ts as [|[] [|]]; simpl; try done. Qed.

Lemma QInv_paused q ts gs ac rn wd p : QInv q ts gs ac rn wd → QInv (set_paused p q) ts gs ac rn wd.
Proof. intros []. by split. Qed.

Lemma QInv_end q ts gs ac rn wd :
  claimed ts = [] → QInv q ts gs ac rn wd → QInv (end_period q) [] gs ac rn wd.
Proof. intros Hc []. rewrite Hc in *. by split. Qed.

Lemma QInv_start q ts gs ac rn wd q' e g succ :
  claimed ts = [] → QInv q ts gs ac rn wd → starts q q' (Ok (Some (e, g))) →
  QInv q' [TClaim e g succ] gs ac rn wd.
Proof.
  intros Hc [Hph [Hg Hn] Hgs Hnx Hids Hon Hor Hbd] Hst. rewrite Hc in *.
  inversion Hst as [| |l1 e' l2 Hi Hf Hfu Hgen]; subst e' g q'. split; simpl.
  - split_and!; try done. intros Hin%Hgs. lia.
  - split; simpl; [lia|done].
  - intros g' Hin%Hgs. lia.
  - done.
  - done.
  - rewrite Hon, Hi. simpl. solve_Permutation.
  - intros m. etrans; [|apply (Hor m)]. simpl. rewrite Hi, !of_mode_app, !of_mode_cons, !of_mode_app.
    case_decide as Hm; [|done]. by rewrite <- Hm, Hf.
  - rewrite Hi in Hbd. revert Hbd. rewrite !lenN_app, !lenN_cons, !lenN_nil. lia.
Qed.

Lemma QInv_abandon q e g succ gs ac rn wd :
  QInv q [TClaim e g succ] gs ac rn wd → QInv (end_period (restore e q)) [] gs ac rn wd.
Proof.
  intros [Hph [Hg Hn] Hgs Hnx Hids Hon Hor Hbd].
  destruct (restore_split e q) as (l1 & l2 & Hi & -> & Hf). split; simpl; try done.
  - rewrite Hon, Hi. simpl. solve_Permutation.
  - intros m. etrans; [|apply (Hor m)]. simpl. rewrite Hi, !of_mode_app, !of_mode_cons, !of_mode_app.
    case_decide as Hm; [|done]. by rewrite <- Hm, Hf.
  - rewrite Hi in Hbd. revert Hbd. simpl. rewrite !lenN_app, !lenN_cons, !lenN_nil. lia.
Qed.

Lemma QInv_install q e g succ turn gs ac rn wd :
  QInv q [TClaim e g succ] gs ac rn wd →
  QInv (set_starting None q) [TLoop e g turn] (gs ++ [g]) ac (rn ++ [e]) wd.
Proof.
  intros [Hph [Hg Hn] Hgs Hnx Hids Hon Hor Hbd]. simpl in *. destruct Hph as (H1 & H2 & H3 & _ & _).
  split; simpl; try done.
  - intros g' [Hin|Hin]%elem_of_app; [by apply Hgs|]. apply list_elem_of_singleton in Hin as ->. lia.
  - rewrite Hon. simpl. solve_Permutation.
  - intros m. rewrite <- app_assoc. apply Hor.
  - revert Hbd. rewrite !lenN_app, lenN_cons, lenN_nil. lia.
Qed.

Lemma QInv_push q ts gs ac rn wd m inp now :
  (lenN (items q) < MAX_QUEUED_INPUTS)%N → (next_id q < u64_max)%N →
  QInv q ts gs ac rn wd →
  let e := mkEntry (input_id (next_id q + 1)) m inp now in
  QInv (pushed q e) ts gs (ac ++ [e]) rn wd.
Proof.
  intros Hlen Hnext [Hph [Hg Hn] Hgs Hnx Hids Hon Hor Hbd] e. split; simpl.
  - by destruct ts as [|[] [|]].
  - split; simpl; [done|lia].
  - done.
  - rewrite Hnx, lenN_app. done.
  - intros k x [Hk|[Hk Hx]]%lookup_app_Some; [by eapply Hids|].
    apply list_lookup_singleton_Some in Hx as [Hx <-]. subst e. simpl.
    rewrite Hnx. unfold lenN. do 2 f_equal. lia.
  - rewrite Hon. solve_Permutation.
  - intros m'. rewrite !app_assoc, !(of_mode_app _ _ [e]), <- app_assoc.
    specialize (Hor m').
    apply sublist_app; [done|]. rewrite of_mode_cons.
    case_decide; [done|apply sublist_nil_l].
  - pose proof (claimed_short _ _ _ Hph). rewrite !lenN_app, lenN_cons, lenN_nil. lia.
Qed.

Lemma sublist_of_mode m l k : l `sublist_of` k → of_mode m l `sublist_of` of_mode m k.
Proof.
  induction 1 as [|x l k _ IH|x l k _ IH]; [done|..]; rewrite !of_mode_cons; case_decide; try done.
  - by constructor.
  - by constructor.
Qed.

(** Removing entries keeps the order of the rest. *)
Lemma QInv_withdraw q ts gs ac rn wd its out :
  its `sublist_of` items q → items q ≡ₚ its ++ out →
  QInv q ts gs ac rn wd → QInv (set_items its q) ts gs ac rn (wd ++ out).
Proof.
  intros Hsub Hp [Hph Hc Hgs Hnx Hids Hon Hor Hbd]. split; simpl; try done.
  - rewrite Hon, Hp. solve_Permutation.
  - intros m. etrans; [|apply (Hor m)]. apply sublist_of_mode. do 2 (apply sublist_app; [done|]). done.
  - apply sublist_length in Hsub. revert Hbd. rewrite !lenN_app. unfold lenN. lia.
Qed.

Lemma of_mode_of_mode m m' l : of_mode m (of_mode m' l) = if decide (m = m') then of_mode m l else [].
Proof.
  induction l as [|e l IH]; [by case_decide|]. rewrite !of_mode_cons.
  destruct (mode e) eqn:He, m, m'; simpl in *; rewrite ?of_mode_cons, ?He; simpl; by rewrite ?IH.
Qed.

(** The loop at a request boundary. *)
Lemma QInv_take q ts gs ac rn wd :
  claimed ts = [] → QInv q ts gs ac rn wd →
  QInv (take_steers q).2 ts gs ac (rn ++ (take_steers q).1) wd.
Proof.
  intros Hcl [Hph Hc Hgs Hnx Hids Hon Hor Hbd]. rewrite Hcl in *.
  pose proof (take_steers_rest q) as Hrest. change (take_steers q).1 with (of_mode Steer (items q)).
  split; rewrite ?Hcl; try done.
  - rewrite Hrest. rewrite Hon, <- (of_mode_split (items q)) at 1. solve_Permutation.
  - intros m. rewrite Hrest. etrans; [|apply (Hor m)]. simpl. rewrite !of_mode_app, !of_mode_of_mode.
    destruct m; simpl; by rewrite ?app_nil_r.
  - rewrite Hrest. revert Hbd. rewrite !app_nil_r. intros Hbd. etrans; [|exact Hbd].
    unfold lenN, of_mode. pose proof (length_filter (λ e, mode e = FollowUp) (items q)). lia.
Qed.

(** *** Preservation by the steps *)

Lemma Inv_env s s' ts gs ac rn wd :
  queue s' = queue s → (exclusive s → exclusive s') →
  Inv (mkSystem s ts gs ac rn wd) → Inv (mkSystem s' ts gs ac rn wd).
Proof. intros Hq He [HQ Hx]. split; simpl in *; [by rewrite Hq|by apply He]. Qed.

(** Starting or not, from the session [s] whose queue is [q]. *)
Lemma Inv_starts s q' r ts gs ac rn wd c succ :
  Inv (mkSystem s ts gs ac rn wd) → claimed ts = [] → starts (queue s) q' r → r = Ok (Some c) →
  exclusive (with_queue q' s) →
  Inv (mkSystem (with_queue q' s) (claim_task succ (Some c)) gs ac rn wd).
Proof.
  intros [HQ _] Hcl Hst -> Hx. destruct c as [e g]. split; [|done]. by eapply QInv_start.
Qed.

Lemma Inv_claim_start s ts gs ac rn wd s' c :
  Inv (mkSystem s ts gs ac rn wd) → claim_start s = (s', Ok c) →
  Inv (mkSystem s' (claim_task None c ++ ts) gs ac rn wd).
Proof.
  intros HI Hc. apply claim_start_cases in Hc as [[-> [= ->]]|(Hr & _ & Hcan & q' & -> & Hst)]; [done|].
  assert (ts = []) as -> by (destruct HI as [[Hph] _]; by eapply phase_idle).
  inversion Hst as [Hi| |l1 e l2 Hi Hf Hfu Hg]; subst; simpl.
  - by destruct s.
  - eapply (Inv_starts s _ _ [] gs ac rn wd (e, (generation (queue s) + 1)%N)); [done|done|done|done|].
    intros _. unfold can_start in Hcan. rewrite !andb_true_iff in Hcan.
    destruct Hcan as [[_ Hp] Hd]. by apply bool_decide_eq_true in Hp.
Qed.

Lemma Inv_start_after s ts gs ac rn wd :
  Inv (mkSystem s ts gs ac rn wd) →
  Inv (mkSystem (start_after_compaction s).1
         (claim_task None (start_after_compaction s).2 ++ ts) gs ac rn wd).
Proof.
  intros HI. unfold start_after_compaction. destruct (claim_start s) as [s' [c|e]] eqn:E; simpl.
  - by apply (Inv_claim_start s).
  - apply claim_start_cases in E as [[_ ?]|(Hr & _ & Hcan & q' & -> & Hst)]; [done|].
    inversion Hst; subst. destruct HI as [HQ Hx]. split; [by apply QInv_paused|exact Hx].
Qed.

Lemma queue_only s q : exclusive s → running q = running (queue s) → exclusive (with_queue q s).
Proof. intros Hx Hr. unfold exclusive in *. simpl. by rewrite Hr. Qed.

Lemma stopped s q : running q = false → exclusive (with_queue q s).
Proof. intros Hr. unfold exclusive. simpl. by rewrite Hr. Qed.

Lemma QInv_single q t l1 l2 gs ac rn wd :
  QInv q (l1 ++ t :: l2) gs ac rn wd → l1 = [] ∧ l2 = [].
Proof. intros [Hph]. by eapply phase_split. Qed.

Lemma remove_input_Ok s i s' t k e :
  items (queue s) !! k = Some e → position (λ x, bool_decide (id x = i)) (items (queue s)) = Some k →
  remove_input i s = (s', Ok t) →
  ∃ p, s' = with_queue (set_paused p (set_items (delete k (items (queue s))) (queue s))) s.
Proof.
  intros He Hk. unfold remove_input, get, mbind, stm_bind, lift. rewrite Hk. cbn [ok_or].
  unfold vec_remove. rewrite He. unfold update_queue, modify. intros [= <- <-]. eauto.
Qed.

Lemma remove_input_Err s i s' e : remove_input i s = (s', Err e) → s' = s.
Proof.
  unfold remove_input, get, mbind, stm_bind, lift.
  destruct (position _ _) as [k|] eqn:Hk; cbn [ok_or]; [|by intros [= <- _]].
  apply position_Some in Hk as (l1 & x & l2 & -> & <- & _). by rewrite vec_remove_mid.
Qed.

Lemma install_loop_Ok succ turn s s' u :
  install_loop succ turn s = (s', Ok u) →
  validate_install_state s succ = Ok tt ∧
  s' = with_active (Some (mkActive turn false)) (with_queue (set_starting None (queue s)) s).
Proof.
  unfold install_loop, get, mbind, stm_bind, lift.
  destruct (validate_install_state s succ) as [[]|]; [|done]. unfold modify. by intros [= <- _].
Qed.

Lemma complete_active_queue s : queue (complete_active s) = queue s.
Proof. unfold complete_active. by destruct (active s). Qed.
Lemma complete_active_exclusive s : exclusive s → exclusive (complete_active s).
Proof. unfold complete_active, exclusive. by destruct (active s). Qed.

Section preserve.
Context (user_input_text : str → option str).

Lemma Inv_counters y : Inv y → counters_ok (queue (sess y)).
Proof using Type. by intros [[] _]. Qed.

Lemma Inv_push s ts gs ac rn wd m text now inp s' p :
  user_input_text text = Some inp → accept_input user_input_text m text now s = (s', Ok p) →
  Inv (mkSystem s ts gs ac rn wd) →
  Inv (mkSystem s' (claim_task None (push_claim p) ++ ts) gs
         (ac ++ [mkEntry (push_id p) m inp now]) rn wd).
Proof using Type.
  intros Hu Ha HI. pose proof (Inv_counters _ HI) as Hc.
  apply accept_input_result in Ha; [|done].
  inversion Ha as [|inp' s1 c Hu' Hl Hb Hcl Hlen Hn Hstart]; subst.
  assert (inp' = inp) as -> by congruence. destruct HI as [HQ Hx].
  eapply Inv_claim_start; [|exact Hstart].
  split; [|by apply queue_only]. by apply (QInv_push (queue s)).
Qed.

Lemma Inv_remove s ts gs ac rn wd k e s' t :
  items (queue s) !! k = Some e →
  position (λ x, bool_decide (id x = id e)) (items (queue s)) = Some k →
  remove_input (id e) s = (s', Ok t) →
  Inv (mkSystem s ts gs ac rn wd) → Inv (mkSystem s' ts gs ac rn (wd ++ [e])).
Proof using Type.
  intros He Hk Hr [HQ Hx]. destruct (remove_input_Ok s _ s' t k e He Hk Hr) as [p ->].
  split; [|by apply queue_only]. simpl. apply QInv_paused, QInv_withdraw; [| |done].
  - apply sublist_delete.
  - rewrite Permutation_app_comm. by apply delete_Permutation.
Qed.

Lemma Inv_recall s ts gs ac rn wd s' texts :
  recall_inputs s = (s', Ok texts) →
  Inv (mkSystem s ts gs ac rn wd) → Inv (mkSystem s' ts gs ac rn (wd ++ items (queue s))).
Proof using Type.
  unfold recall_inputs, get, mbind, stm_bind, update_queue, modify. intros [= <- _] [HQ Hx].
  split; [|by apply queue_only]. simpl. apply QInv_paused, QInv_withdraw; [|done|done].
  apply sublist_nil_l.
Qed.

Lemma Inv_resume s ts gs ac rn wd s' c :
  accept_resume s = (s', Ok c) →
  Inv (mkSystem s ts gs ac rn wd) → Inv (mkSystem s' (claim_task None c ++ ts) gs ac rn wd).
Proof using Type.
  intros Hr HI. apply accept_resume_result in Hr as [(? & ? & _)|(_ & c' & [= ->] & Hstart)];
    [done| |by apply Inv_counters in HI].
  eapply Inv_claim_start; [|exact Hstart]. destruct HI as [HQ Hx].
  split; [by apply QInv_paused|by apply queue_only].
Qed.

Lemma Inv_install s l1 e g succ l2 gs ac rn wd turn s' :
  install_loop succ turn s = (s', Ok tt) →
  Inv (mkSystem s (l1 ++ TClaim e g succ :: l2) gs ac rn wd) →
  Inv (mkSystem s' (l1 ++ TLoop e g turn :: l2) (gs ++ [g]) ac (rn ++ [e]) wd).
Proof using Type.
  intros [_ ->]%install_loop_Ok [HQ Hx]. destruct (QInv_single _ _ _ _ _ _ _ _ HQ) as [-> ->].
  split; [by eapply QInv_install|exact Hx].
Qed.

Lemma Inv_abandon s l1 e g succ l2 gs ac rn wd pause :
  Inv (mkSystem s (l1 ++ TClaim e g succ :: l2) gs ac rn wd) →
  Inv (mkSystem (abandon_claim e pause s) (l1 ++ l2) gs ac rn wd).
Proof using Type.
  intros [HQ Hx]. destruct (QInv_single _ _ _ _ _ _ _ _ HQ) as [-> ->].
  split; [|by apply stopped]. by eapply QInv_paused, QInv_abandon.
Qed.

Lemma Inv_take s ts gs ac rn wd g :
  Inv (mkSystem s ts gs ac rn wd) → (binding (queue s) = Some g → claimed ts = []) →
  Inv (mkSystem (take_inputs g s).2 ts gs ac (rn ++ (take_inputs g s).1) wd).
Proof using Type.
  intros HI Hcl. unfold take_inputs. case_decide as Hb; simpl; [by rewrite app_nil_r|].
  case_decide as Ht; simpl; [by rewrite app_nil_r|]. specialize (Hcl Hb).
  destruct HI as [HQ Hx]. split; [|by apply queue_only]. by apply (QInv_take (queue s)).
Qed.

(** Only the loop of the current generation is bound. *)
Lemma stale_unbound s ts gs ac rn wd g :
  Inv (mkSystem s ts gs ac rn wd) → g ∈ gs →
  (∀ t, t ∈ ts → match t with TLoop _ g' _ | TSucc g' _ => g' ≠ g | _ => True end) →
  binding (queue s) ≠ Some g.
Proof using Type.
  intros [[Hph] _] Hg Hts Hb. simpl in *.
  destruct ts as [|[e g' succ|e g' t|g' t] [|]]; simpl in Hph; destruct_and?; try congruence; try done.
  all: specialize (Hts _ (list_elem_of_here _ _)); simpl in Hts; congruence.
Qed.

Lemma Inv_complete s l1 e g turn l2 gs ac rn wd eligible :
  Inv (mkSystem s (l1 ++ TLoop e g turn :: l2) gs ac rn wd) →
  Inv (mkSystem (complete_turn eligible s).1
         (l1 ++ (if (complete_turn eligible s).2 then [TSucc g turn] else []) ++ l2) gs ac rn wd).
Proof using Type.
  intros [HQ Hx]. destruct (QInv_single _ _ _ _ _ _ _ _ HQ) as [-> ->].
  unfold complete_turn. destruct (eligible && _ && _); cbn [fst snd app];
    (split; [cbn [sess]; rewrite complete_active_queue|apply complete_active_exclusive]).
  - destruct HQ. by split.
  - by apply queue_only.
  - apply (QInv_end _ [TLoop e g turn]); [done|by apply QInv_paused].
  - by apply stopped.
Qed.

Lemma Inv_internal s l1 e g turn l2 gs ac rn wd :
  Inv (mkSystem s (l1 ++ TLoop e g turn :: l2) gs ac rn wd) →
  Inv (mkSystem (publish_internal s) (l1 ++ l2) gs ac rn wd).
Proof using Type.
  intros [HQ Hx]. destruct (QInv_single _ _ _ _ _ _ _ _ HQ) as [-> ->].
  unfold publish_internal. split; [cbn [sess]; rewrite complete_active_queue|apply complete_active_exclusive].
  - apply (QInv_end _ [TLoop e g turn]); [done|by apply QInv_paused].
  - unfold exclusive. done.
Qed.

Lemma Inv_successor s l1 g turn l2 gs ac rn wd :
  Inv (mkSystem s (l1 ++ TSucc g turn :: l2) gs ac rn wd) →
  Inv (mkSystem (start_successor s).1
         (l1 ++ claim_task (Some turn) (start_successor s).2 ++ l2) gs ac rn wd).
Proof using Type.
  intros [HQ Hx]. destruct (QInv_single _ _ _ _ _ _ _ _ HQ) as [-> ->].
  assert (∀ p, Inv (mkSystem (with_queue (end_period (set_paused p (queue s))) s) [] gs ac rn wd)) as Hstop.
  { intros p. split; [|by apply stopped]. apply (QInv_end _ [TSucc g turn]); [done|by apply QInv_paused]. }
  unfold start_successor. destruct (closing s); [apply Hstop|].
  destruct (start_head (queue s)) as [q' r] eqn:E. apply start_head_starts in E.
  inversion E as [Hi| |l1 e l2 Hi Hf Hfu Hg]; subst; simpl; [|apply Hstop|].
  - split; [by apply (QInv_end _ [TSucc g turn])|by apply stopped].
  - assert (running (queue s) = true) as Hr by (destruct HQ as [Hph]; by apply Hph).
    split; [by apply (QInv_start (queue s) [TSucc g turn])|].
    simpl. intros _. by apply Hx.
Qed.
End preserve.

(** *** Compaction and closing *)

Lemma admit_compaction_cases op s s' r :
  admit_compaction op s = (s', r) →
  s' = s ∨ (running (queue s) = false ∧ queue s' = queue s).
Proof.
  unfold admit_compaction, get. unfold mbind at 1. cbn [stm_bind].
  unfold mbind at 1, stm_bind at 1. rewrite throw_if_run. case_decide; [intros [= <- _]; by left|].
  unfold mbind at 1, stm_bind at 1, lift at 1.
  destruct (check_compaction_admissible s) as [[]|]; [|intros [= <- _]; by left].
  do 2 (unfold mbind at 1, stm_bind at 1; rewrite throw_if_run;
    case_decide; [intros [= <- _]; by left|]).
  unfold modify. intros [= <- _]. right. split; [by apply not_true_is_false|done].
Qed.

Lemma start_compaction_cases op s s' r :
  start_compaction op s = (s', r) →
  s' = s ∨ queue s' = queue s.
Proof.
  unfold start_compaction, get. unfold mbind at 1. cbn [stm_bind].
  do 2 (unfold mbind at 1, stm_bind at 1; rewrite throw_if_run;
    case_decide; [intros [= <- _]; by left|]).
  unfold modify. intros [= <- _]. by right.
Qed.

Lemma begin_close_cases s s' r :
  begin_close s = (s', r) → s' = s ∨ s' = with_closing true s.
Proof.
  unfold begin_close, get. unfold mbind at 1. cbn [stm_bind].
  unfold mbind at 1, stm_bind at 1. rewrite throw_if_run. case_decide; [intros [= <- _]; by left|].
  unfold put. intros [= <- _]. by right.
Qed.

Lemma idle_exclusive s s' : running (queue s') = false → exclusive s → exclusive s'.
Proof. intros Hr _. unfold exclusive. by rewrite Hr. Qed.

Section invariant.
Context (user_input_text : str → option str).

Lemma Inv_step y y' : step user_input_text y y' → Inv y → Inv y'.
Proof using Type.
  intros Hst HI.
  destruct Hst as [ |s ts gs ac rn wd m text now s' e Ha| |s ts gs ac rn wd i s' e Hr| | |
    s ts gs ac rn wd s' e Hr| | |s ts gs ac rn wd e g turn Hin|s ts gs ac rn wd g Hg Hts
    |s| | | |s ts gs ac rn wd a Ha Hc Hj|s|s ts gs ac rn wd op s' r Hr|s ts gs ac rn wd op s' r Hp Hr
    |s ts gs ac rn wd op|s ts gs ac rn wd|s|s ts gs ac rn wd op Hop Hd|s ts gs ac rn wd
    |s|s ts gs ac rn wd s' r Hr].
  - by eapply Inv_push.
  - apply accept_input_result in Ha; [|by apply Inv_counters in HI]. inversion Ha; by subst.
  - by eapply Inv_remove.
  - by apply remove_input_Err in Hr as ->.
  - by eapply Inv_recall.
  - by eapply Inv_resume.
  - apply accept_resume_result in Hr as [(? & _ & ->)|(_ & ? & ? & _)]; [done|done|].
    by apply Inv_counters in HI.
  - by eapply Inv_install.
  - by eapply Inv_abandon.
  - apply Inv_take; [done|]. intros _. destruct HI as [[Hph] _].
    apply list_elem_of_split in Hin as (l1 & l2 & ->).
    by destruct (phase_split _ _ _ _ _ Hph) as [-> ->].
  - apply Inv_take; [done|]. intros Hb. by apply (stale_unbound _ _ _ _ _ _ _ HI Hg Hts) in Hb.
  - by apply (Inv_env s).
  - by eapply Inv_complete.
  - by eapply Inv_internal.
  - by eapply Inv_successor.
  - by apply (Inv_env s).
  - by apply (Inv_env s).
  - apply admit_compaction_cases in Hr as [->|[Hrun Hq]]; [done|].
    apply (Inv_env s); [done| |done]. apply idle_exclusive. by rewrite Hq.
  - assert (running (queue s) = false) as Hrun.
    { destruct (running (queue s)) eqn:Hrun; [|done]. destruct HI as [_ Hx].
      by destruct (Hx Hrun) as [Hp' _]; simpl in Hp'; rewrite Hp in Hp'. }
    apply start_compaction_cases in Hr as [->|Hq]; [done|].
    apply (Inv_env s); [done| |done]. apply idle_exclusive. by rewrite Hq.
  - unfold drop_admission. case_decide; [|done].
    apply (Inv_env s); [done| |done]. intros Hx Hrun. by destruct (Hx Hrun).
  - apply (Inv_env s); [done| |done]. intros Hx Hrun. destruct (Hx Hrun) as [H1 H2].
    split; [done|]. simpl. by destruct (compaction s).
  - by apply Inv_start_after.
  - apply (Inv_env s); [done| |done]. intros Hx Hrun. destruct (Hx Hrun) as [H1 H2].
    split; [done|]. simpl in *. by rewrite Hop in *.
  - unfold reap_compaction. destruct (compaction s) as [op|]; [|done]. destruct (published op); [|done].
    apply (Inv_env s); [done| |done]. intros Hx Hrun. by destruct (Hx Hrun).
  - by apply (Inv_env s).
  - apply begin_close_cases in Hr as [->| ->]; [done|]. by apply (Inv_env s).
Qed.

Lemma reachable_Inv y : reachable user_input_text y → Inv y.
Proof using Type.
  induction 1 as [b max|y y' _ IH Hst]; [|by eapply Inv_step].
  split; [|done]. split; simpl; try done; set_solver.
Qed.
End invariant.

(** ** Ids *)

Lemma hex_digit_inj a b : (a < 16)%N → (b < 16)%N → hex_digit a = hex_digit b → a = b.
Proof. unfold hex_digit. intros Ha Hb. repeat case_decide; lia. Qed.

Lemma hex_fixed_inj k n m :
  (n < 16 ^ N.of_nat k)%N → (m < 16 ^ N.of_nat k)%N → hex_fixed k n = hex_fixed k m → n = m.
Proof.
  revert n m. induction k as [|k IH]; intros n m Hn Hm Heq; [simpl in *; lia|].
  cbn [hex_fixed] in Heq. apply app_inj_tail in Heq as [H1 H2].
  rewrite Nat2N.inj_succ, N.pow_succ_r' in Hn, Hm.
  apply hex_digit_inj in H2; [|by apply N.mod_lt..].
  apply IH in H1; [|by apply N.Div0.div_lt_upper_bound..].
  rewrite (N.div_mod' n 16), (N.div_mod' m 16). congruence.
Qed.

Lemma input_id_inj n m : (n <= u64_max)%N → (m <= u64_max)%N → input_id n = input_id m → n = m.
Proof.
  intros Hn Hm Heq. apply app_inv_head in Heq.
  assert (u64_max < 16 ^ N.of_nat 32)%N as Hb by (vm_compute; reflexivity).
  eapply hex_fixed_inj; [| |exact Heq]; lia.
Qed.

Lemma QInv_ids_unique q ts gs ac rn wd : QInv q ts gs ac rn wd → NoDup (id <$> ac).
Proof.
  intros [_ [_ Hn] _ Hnx Hids _ _ _]. apply NoDup_alt. intros i j x Hi Hj.
  rewrite list_lookup_fmap in Hi, Hj.
  destruct (ac !! i) as [e|] eqn:Ei; [|done]. destruct (ac !! j) as [e'|] eqn:Ej; [|done].
  simpl in Hi, Hj. rewrite (Hids _ _ Ei) in Hi. rewrite (Hids _ _ Ej) in Hj.
  assert (input_id (N.of_nat i + 1) = input_id (N.of_nat j + 1)) as Heq by congruence.
  apply lookup_lt_Some in Ei, Ej. unfold lenN in Hnx.
  apply input_id_inj in Heq; lia.
Qed.

(** ** Properties *)

Section properties.
Context (user_input_text : str → option str).

(** C7 No input is lost and none runs twice: at every moment the accepted inputs
    are exactly those queued, the one being started, those a turn received and
    those withdrawn, each once, and their ids differ. *)
Theorem inputs_exactly_once y :
  reachable user_input_text y →
  accepted y ≡ₚ items (queue (sess y)) ++ claimed (tasks y) ++ ran y ++ withdrawn y ∧
  NoDup (id <$> accepted y).
Proof using Type.
  intros Hr. destruct (reachable_Inv _ _ Hr) as [HQ _].
  split; [apply HQ|by eapply QInv_ids_unique].
Qed.

(** C8 Within a mode inputs run in the order they were accepted, also when a claimed
    head is given back, and what still waits comes after what ran. *)
Theorem inputs_run_in_order y m :
  reachable user_input_text y →
  of_mode m (ran y ++ claimed (tasks y) ++ items (queue (sess y))) `sublist_of` accepted y.
Proof using Type. intros Hr. destruct (reachable_Inv _ _ Hr) as [HQ _]. apply HQ. Qed.

(** C9 One driver at a time: a claim, a running turn or a pending successor, never
    two, and the queue is marked running exactly while there is one. *)
Theorem single_driver y :
  reachable user_input_text y →
  (length (tasks y) <= 1)%nat ∧ (running (queue (sess y)) = true ↔ tasks y ≠ []).
Proof using Type.
  intros Hr. destruct (reachable_Inv _ _ Hr) as [[Hph] _].
  destruct (tasks y) as [|[] [|]]; simpl in Hph; destruct_and?; (split; [simpl; lia|]);
    naive_solver congruence.
Qed.

(** C10 A turn and a manual compaction never overlap: while the queue runs, no
    compaction is admitted and none is unfinished. *)
Theorem no_turn_beside_compaction y :
  reachable user_input_text y → running (queue (sess y)) = true →
  pending_compaction (sess y) = None ∧ operation_done (compaction (sess y)) = true.
Proof using Type. intros Hr. by destruct (reachable_Inv _ _ Hr) as [_ Hx]. Qed.

(** A loop of an earlier generation takes nothing and changes nothing. *)
Theorem stale_loop_takes_nothing y g :
  reachable user_input_text y → g ∈ installed y →
  (∀ t, t ∈ tasks y → match t with TLoop _ g' _ | TSucc g' _ => g' ≠ g | _ => True end) →
  take_inputs g (sess y) = ([], sess y).
Proof using Type.
  intros Hr Hg Hts. unfold take_inputs. rewrite decide_True; [done|].
  pose proof (reachable_Inv _ _ Hr) as HI. destruct y. by eapply stale_unbound.
Qed.

(** The queue, with the head being started, holds at most one input more than
    [MAX_QUEUED_INPUTS]. *)
Theorem queue_bounded y :
  reachable user_input_text y →
  (lenN (items (queue (sess y)) ++ claimed (tasks y)) <= MAX_QUEUED_INPUTS + 1)%N.
Proof using Type. intros Hr. destruct (reachable_Inv _ _ Hr) as [HQ _]. apply HQ. Qed.

(** A refused push or resume changes nothing: not the queue, the pause, the ids or
    the generation. *)
Theorem refused_changes_nothing y :
  reachable user_input_text y →
  (∀ m text now s' e, accept_input user_input_text m text now (sess y) = (s', Err e) → s' = sess y) ∧
  (∀ s' e, accept_resume (sess y) = (s', Err e) → s' = sess y).
Proof using Type.
  intros Hr. pose proof (Inv_counters _ (reachable_Inv _ _ Hr)) as Hc. split.
  - intros m text now s' e Hp. apply accept_input_result in Hp; [|done]. by inversion Hp.
  - intros s' e Hp. by apply accept_resume_result in Hp as [(? & _ & ->)|(_ & ? & ? & _)].
Qed.
End properties.

(** A turn that failed, was cancelled or was not persisted starts nothing: the
    queue stops and, when inputs wait, is paused, so that neither the end of a
    compaction nor a successor starts them. *)
Theorem failed_turn_pauses s :
  let s' := (complete_turn false s).1 in
  (complete_turn false s).2 = false ∧ running (queue s') = false ∧ binding (queue s') = None ∧
  items (queue s') = items (queue s) ∧
  (items (queue s) ≠ [] → paused (queue s') = true ∧ start_after_compaction s' = (s', None)).
Proof.
  intros s'.
  assert (queue s' = end_period (set_paused
    (paused (queue s) || bool_decide (items (queue s) ≠ [])) (queue s))) as Hq.
  { unfold s', complete_turn. simpl. by rewrite complete_active_queue. }
  rewrite Hq. split_and!; [done..|]. simpl. intros Hi.
  rewrite (bool_decide_eq_true_2 _ Hi), orb_true_r. split; [done|].
  unfold start_after_compaction, claim_start, get, mbind, stm_bind.
  rewrite decide_True; [done|]. right; left. rewrite Hq. simpl.
  by rewrite (bool_decide_eq_true_2 _ Hi), orb_true_r.
Qed.

(** ** Runs *)

Definition do_push (m : InputMode) (text : str) (y : System) : System :=
  match accept_input Some m text None (sess y) with
  | (s', Ok p) => mkSystem s' (claim_task None (push_claim p) ++ tasks y) (installed y)
                    (accepted y ++ [mkEntry (push_id p) m text None]) (ran y) (withdrawn y)
  | (s', Err _) => mkSystem s' (tasks y) (installed y) (accepted y) (ran y) (withdrawn y)
  end.

Definition do_install (turn : N) (y : System) : System :=
  match tasks y with
  | TClaim e g succ :: ts =>
      match install_loop succ turn (sess y) with
      | (s', Ok tt) => mkSystem s' (TLoop e g turn :: ts) (installed y ++ [g]) (accepted y)
                         (ran y ++ [e]) (withdrawn y)
      | _ => y
      end
  | _ => y
  end.

Definition do_abandon (y : System) : System :=
  match tasks y with
  | TClaim e g succ :: ts =>
      mkSystem (abandon_claim e false (sess y)) ts (installed y) (accepted y) (ran y) (withdrawn y)
  | _ => y
  end.

Definition do_take (y : System) : System :=
  match tasks y with
  | TLoop e g turn :: ts =>
      mkSystem (take_inputs g (sess y)).2 (tasks y) (installed y) (accepted y)
        (ran y ++ (take_inputs g (sess y)).1) (withdrawn y)
  | _ => y
  end.

Lemma reach_push m text y : reachable Some y → reachable Some (do_push m text y).
Proof.
  intros Hr. eapply reach_step; [exact Hr|]. unfold do_push. destruct y as [s ts gs ac rn wd]; simpl.
  destruct (accept_input Some m text None s) as [s' [p|e]] eqn:E.
  - eapply step_push; [done|exact E].
  - by eapply step_push_refused.
Qed.

Lemma reach_install turn y : reachable Some y → reachable Some (do_install turn y).
Proof.
  intros Hr. unfold do_install. destruct y as [s [|[e g succ| |] ts] gs ac rn wd]; simpl; try done.
  destruct (install_loop succ turn s) as [s' [[]|e']] eqn:E; [|done].
  eapply reach_step; [exact Hr|]. by apply (step_install _ s []).
Qed.

Lemma reach_abandon y : reachable Some y → reachable Some (do_abandon y).
Proof.
  intros Hr. unfold do_abandon. destruct y as [s [|[e g succ| |] ts] gs ac rn wd]; simpl; try done.
  eapply reach_step; [exact Hr|]. by apply (step_abandon _ s []).
Qed.

Lemma reach_take y : reachable Some y → reachable Some (do_take y).
Proof.
  intros Hr. unfold do_take. destruct y as [s [|[|e g turn|] ts] gs ac rn wd]; simpl; try done.
  eapply reach_step; [exact Hr|]. apply (step_take _ s _ gs ac rn wd e g turn). by left.
Qed.

(** A turn started with an input, to which two more were pushed and one delivered. *)
Definition sample_system : System :=
  do_take (do_push Steer (lit "c") (do_push FollowUp (lit "b")
    (do_install 7 (do_push Steer (lit "a") (loaded None 100))))).

Lemma sample_reachable : reachable Some sample_system.
Proof. apply reach_take, reach_push, reach_push, reach_install, reach_push, reach_loaded. Qed.

(** A full queue whose claimed head is given back. *)
Definition full_system : System :=
  do_abandon (Nat.iter 32 (do_push FollowUp (lit "x")) (do_push Steer (lit "a") (loaded None 100))).

(** The bound of [queue_bounded] is reached: the queue itself can hold one input more
    than [MAX_QUEUED_INPUTS]. *)
Theorem queue_exceeds_max :
  ∃ y, reachable Some y ∧ lenN (items (queue (sess y))) = (MAX_QUEUED_INPUTS + 1)%N.
Proof.
  exists full_system. split; [|vm_compute; reflexivity].
  apply reach_abandon. generalize 32. intros n.
  induction n as [|n IH]; [apply reach_push, reach_loaded|by apply reach_push].
Qed.

Lemma inputs_exactly_once_witness :
  accepted sample_system ≡ₚ
    items (queue (sess sample_system)) ++ claimed (tasks sample_system) ++
    ran sample_system ++ withdrawn sample_system ∧
  NoDup (id <$> accepted sample_system).
Proof. apply (inputs_exactly_once Some), sample_reachable. Defined.

Lemma inputs_run_in_order_witness :
  input <$> ran sample_system = [lit "a"; lit "c"] ∧
  of_mode Steer (ran sample_system ++ claimed (tasks sample_system) ++
    items (queue (sess sample_system))) `sublist_of` accepted sample_system.
Proof. split; [vm_compute; reflexivity|apply (inputs_run_in_order Some), sample_reachable]. Defined.

Lemma single_driver_witness :
  (length (tasks sample_system) <= 1)%nat ∧
  (running (queue (sess sample_system)) = true ↔ tasks sample_system ≠ []).
Proof. apply (single_driver Some), sample_reachable. Defined.

Lemma no_turn_beside_compaction_witness :
  pending_compaction (sess sample_system) = None ∧
  operation_done (compaction (sess sample_system)) = true.
Proof.
  apply (no_turn_beside_compaction Some); [apply sample_reachable|vm_compute; reflexivity].
Defined.

(** The loop of generation 1 has ended and a second one runs. *)
Definition second_turn : System :=
  do_install 8 (do_push Steer (lit "d") (let y := sample_system in
    mkSystem (with_active None (complete_turn false (sess y)).1) [] (installed y) (accepted y)
      (ran y) (withdrawn y))).

Lemma second_reachable : reachable Some second_turn.
Proof.
  apply reach_install, reach_push.
  eapply reach_step; [eapply reach_step; [apply sample_reachable|]|].
  - apply (step_complete _ _ [] _ _ _ [] _ _ _ _ false).
  - by eapply (step_cleanup _ _ []); [vm_compute; reflexivity..|intros t ?%not_elem_of_nil].
Qed.

Lemma stale_loop_takes_nothing_witness :
  take_inputs 1 (sess second_turn) = ([], sess second_turn).
Proof.
  apply (stale_loop_takes_nothing Some).
  - apply second_reachable.
  - by_compute.
  - assert (∃ e, tasks second_turn = [TLoop e 2 8]) as [e ->] by (eexists; vm_compute; reflexivity).
    intros t ->%list_elem_of_singleton. done.
Defined.

Lemma queue_bounded_witness :
  (lenN (items (queue (sess sample_system)) ++ claimed (tasks sample_system)) <= MAX_QUEUED_INPUTS + 1)%N.
Proof. apply (queue_bounded Some), sample_reachable. Defined.

Lemma refused_changes_nothing_witness :
  (∀ m text now s' e, accept_input Some m text now (sess sample_system) = (s', Err e) →
     s' = sess sample_system) ∧
  (∀ s' e, accept_resume (sess sample_system) = (s', Err e) → s' = sess sample_system).
Proof. apply (refused_changes_nothing Some), sample_reachable. Defined.
