(* ===== verification/SessionLive.v ===== *)
(** Progress of a session's queue.

    [SessionSteps] shows what no interleaving can do; here is what one can: from
    every reachable state of a session that is neither blocked nor closing, the
    tasks and a resume run every accepted input that was not withdrawn.  The last
    part follows the one path on which a queued input is not started although
    nothing failed. *)

From stdpp Require Import relations.
From S2P Require Import Prelude RustStr Errors Inputs SessionSteps.

(** ** The active turn against the tasks *)

Definition active_ok (y : System) : Prop :=
  match tasks y with
  | [TClaim _ _ (Some turn)] | [TSucc _ turn] => active (sess y) = Some (mkActive turn true)
  | [TLoop _ _ turn] => active (sess y) = Some (mkActive turn false)
  | _ => active_pending (sess y) = false
  end.

Lemma active_ok_env s s' ts gs gs' ac ac' rn rn' wd wd' :
  active s' = active s → active_ok (mkSystem s ts gs ac rn wd) →
  active_ok (mkSystem s' ts gs' ac' rn' wd').
Proof.
  unfold active_ok, active_pending. simpl. intros ->. done.
Qed.

Lemma claim_start_idle s ts gs ac rn wd s' c :
  Inv (mkSystem s ts gs ac rn wd) → claim_start s = (s', Ok c) →
  active s' = active s ∧ (c = None ∨ ts = []).
Proof.
  intros [[Hph] _] [[-> [= ->]]|(Hr & _ & _ & q' & -> & _)]%claim_start_cases; [by eauto|].
  split; [done|right; by eapply phase_idle].
Qed.

Lemma active_ok_claim s s' c ts gs gs' ac ac' rn rn' wd wd' :
  active s' = active s → c = None ∨ ts = [] →
  active_ok (mkSystem s ts gs ac rn wd) →
  active_ok (mkSystem s' (claim_task None c ++ ts) gs' ac' rn' wd').
Proof.
  intros Ha [->| ->]; [by apply active_ok_env|].
  unfold active_ok, active_pending. destruct c as [[e g]|]; simpl; by rewrite Ha.
Qed.

Lemma complete_active_completed s a :
  active s = Some a → active (complete_active s) = Some (mkActive (loop_id a) true).
Proof. intros Ha. unfold complete_active. by rewrite Ha. Qed.

Lemma active_take g s : active (take_inputs g s).2 = active s.
Proof. unfold take_inputs. case_decide; [done|]. simpl. by case_decide. Qed.

Lemma active_start_after s : active (start_after_compaction s).1 = active s.
Proof.
  unfold start_after_compaction. destruct (claim_start s) as [s' r] eqn:E.
  by apply claim_start_cases in E as [[-> ->]|(_ & _ & _ & q' & -> & _)]; [|destruct r].
Qed.

Lemma active_successor s : active (start_successor s).1 = active s.
Proof.
  unfold start_successor. destruct (closing s); [done|].
  by destruct (start_head (queue s)) as [? [[]|]].
Qed.

Lemma active_admit op s s' r : admit_compaction op s = (s', r) → active s' = active s.
Proof.
  unfold admit_compaction, get. unfold mbind at 1. cbn [stm_bind].
  unfold mbind at 1, stm_bind at 1. rewrite throw_if_run. case_decide; [by intros [= <- _]|].
  unfold mbind at 1, stm_bind at 1, lift at 1.
  destruct (check_compaction_admissible s) as [[]|]; [|by intros [= <- _]].
  do 2 (unfold mbind at 1, stm_bind at 1; rewrite throw_if_run; case_decide; [by intros [= <- _]|]).
  unfold modify. by intros [= <- _].
Qed.

Lemma active_start op s s' r : start_compaction op s = (s', r) → active s' = active s.
Proof.
  unfold start_compaction, get. unfold mbind at 1. cbn [stm_bind].
  do 2 (unfold mbind at 1, stm_bind at 1; rewrite throw_if_run; case_decide; [by intros [= <- _]|]).
  unfold modify. by intros [= <- _].
Qed.

Section live.
Context (user_input_text : str → option str).

Lemma active_ok_push s ts gs ac rn wd m text now s' p gs' ac' rn' wd' :
  Inv (mkSystem s ts gs ac rn wd) → accept_input user_input_text m text now s = (s', Ok p) →
  active_ok (mkSystem s ts gs ac rn wd) →
  active_ok (mkSystem s' (claim_task None (push_claim p) ++ ts) gs' ac' rn' wd').
Proof using Type.
  intros HI Ha Hok. apply accept_input_result in Ha; [|by apply Inv_counters in HI].
  inversion Ha as [|inp s1 c Hu Hl Hb Hcl Hlen Hn Hstart]; subst. simpl.
  apply claim_start_cases in Hstart as [[-> [= ->]]|(Hr & _ & _ & q' & -> & _)].
  - eapply active_ok_claim; [|by left|done]. done.
  - eapply active_ok_claim; [|right|done]; [done|]. destruct HI as [[Hph] _]. by eapply phase_idle.
Qed.

Lemma active_ok_step y y' : step user_input_text y y' → Inv y → active_ok y → active_ok y'.
Proof using Type.
  intros Hst HI Hok.
  destruct Hst as [ |s ts gs ac rn wd m text now s' e Ha|s ts gs ac rn wd k e s' t Hk Hp Hr
    |s ts gs ac rn wd i s' e Hr|s ts gs ac rn wd s' texts Hr|s ts gs ac rn wd s' c Hr|
    s ts gs ac rn wd s' e Hr|s l1 e g succ l2 gs ac rn wd turn s' Hi|s l1 e g succ l2|
    s ts gs ac rn wd e g turn Hin|s ts gs ac rn wd g Hg Hts
    |s|s l1 e g turn l2 gs ac rn wd el|s l1 e g turn l2|s l1 g turn l2
    |s ts gs ac rn wd a Ha Hc Hj|s|s ts gs ac rn wd op s' r Hr|s ts gs ac rn wd op s' r Hp Hr
    |s ts gs ac rn wd op|s ts gs ac rn wd|s|s ts gs ac rn wd op Hop Hd|s ts gs ac rn wd
    |s|s ts gs ac rn wd s' r Hr].
  - by eapply active_ok_push.
  - apply accept_input_result in Ha; [|by apply Inv_counters in HI]. inversion Ha; by subst.
  - destruct (remove_input_Ok _ _ _ _ _ _ Hk Hp Hr) as [p ->]. by eapply (active_ok_env s).
  - by apply remove_input_Err in Hr as ->.
  - revert Hr. unfold recall_inputs, get, mbind, stm_bind, update_queue, modify. intros [= <- _].
    by eapply (active_ok_env s).
  - apply accept_resume_result in Hr as [(? & ? & _)|(_ & c' & [= ->] & Hstart)];
      [done| |by apply Inv_counters in HI].
    destruct HI as [HQ Hx]. eapply claim_start_idle in Hstart as [H1 H2].
    2: { split; [by apply QInv_paused|by apply (queue_only s)]. }
    by eapply (active_ok_claim s); [..|exact Hok].
  - apply accept_resume_result in Hr as [(? & _ & ->)|(_ & ? & ? & _)]; [done|done|].
    by apply Inv_counters in HI.
  - apply install_loop_Ok in Hi as [_ ->]. destruct HI as [HQ _].
    by destruct (QInv_single _ _ _ _ _ _ _ _ HQ) as [-> ->].
  - destruct HI as [HQ _]. destruct (QInv_single _ _ _ _ _ _ _ _ HQ) as [-> ->].
    unfold active_ok, active_pending in *. simpl in *. destruct succ; [by rewrite Hok|done].
  - eapply active_ok_env; [apply active_take|done].
  - eapply active_ok_env; [apply active_take|done].
  - by eapply (active_ok_env s).
  - destruct HI as [HQ _]. destruct (QInv_single _ _ _ _ _ _ _ _ HQ) as [-> ->].
    unfold complete_turn. destruct (el && _ && _); unfold active_ok, active_pending;
      cbn [fst snd app tasks sess]; by rewrite (complete_active_completed _ (mkActive turn false)).
  - destruct HI as [HQ _]. destruct (QInv_single _ _ _ _ _ _ _ _ HQ) as [-> ->].
    unfold publish_internal, active_ok, active_pending; cbn [app tasks sess].
    by rewrite (complete_active_completed _ (mkActive turn false)).
  - destruct HI as [HQ _]. destruct (QInv_single _ _ _ _ _ _ _ _ HQ) as [-> ->].
    pose proof (active_successor s) as Ha. unfold active_ok, active_pending in *. simpl in *.
    destruct (start_successor s).2 as [[e' g']|]; simpl; by rewrite Ha, Hok.
  - unfold active_ok, active_pending in *; simpl in *.
    destruct ts as [|[e g [turn|]|e g turn|g turn] [|]]; try done;
      by destruct (Hj _ (list_elem_of_here _ _)) as (? & ? & ?).
  - by eapply (active_ok_env s).
  - eapply active_ok_env; [by eapply active_admit|done].
  - eapply active_ok_env; [by eapply active_start|done].
  - eapply (active_ok_env s); [|done]. unfold drop_admission. by case_decide.
  - by eapply (active_ok_env s).
  - eapply active_ok_claim; [apply active_start_after| |done].
    unfold start_after_compaction. destruct (claim_start s) as [s' [c|e]] eqn:E; simpl; [|by left].
    by eapply claim_start_idle in E as [_ ?].
  - by eapply (active_ok_env s).
  - eapply (active_ok_env s); [|done]. unfold reap_compaction. destruct (compaction s) as [op|]; [|done].
    by destruct (published op).
  - by eapply (active_ok_env s).
  - apply begin_close_cases in Hr as [->| ->]; [done|]. by eapply (active_ok_env s).
Qed.

Lemma reachable_active_ok y : reachable user_input_text y → active_ok y.
Proof using Type.
  induction 1 as [b max|y y' Hr IH Hst]; [done|].
  eapply active_ok_step; [done| |done]. by eapply reachable_Inv.
Qed.
End live.

(** ** Progress *)

(** A state from which inputs can run. *)
Record runnable (y : System) : Prop := mkRunnable {
  run_inv : Inv y;
  run_active : active_ok y;
  run_blocked : blocked (sess y) = None;
  run_closing : closing (sess y) = false
}.

Lemma resume_claims s :
  blocked s = None → can_start s = true → running (queue s) = false →
  items (queue s) ≠ [] → (generation (queue s) < u64_max)%N →
  ∃ e q', accept_resume s = (with_queue q' s, Ok (Some (e, (generation (queue s) + 1)%N))) ∧
    starts (set_paused false (queue s)) q' (Ok (Some (e, (generation (queue s) + 1)%N))).
Proof.
  intros Hb Hc Hr Hi Hg. unfold accept_resume, get. unfold mbind at 1. cbn [stm_bind].
  unfold mbind at 1, stm_bind at 1. rewrite throw_if_run, decide_False by (by intros []).
  unfold mbind at 1, stm_bind at 1. rewrite throw_if_run, decide_False.
  2: { intros [_ (_ & _ & ?)]. lia. }
  unfold mbind at 1, stm_bind at 1, update_queue at 1, modify at 1.
  set (s1 := with_queue (set_paused false (queue s)) s).
  assert (can_start s1 = true) as Hc1 by exact Hc.
  unfold claim_start, get, mbind, stm_bind. rewrite decide_False.
  2: { rewrite Hc1. simpl. rewrite Hr. naive_solver. }
  unfold on_queue. destruct (start_head (queue s1)) as [q' r] eqn:E. apply start_head_starts in E.
  inversion E as [Hi'| ? Hg'|l1 e l2 Hs Hf Hfu Hlt]; subst; simpl in *; [done|lia|].
  exists e. eexists. split; [reflexivity|exact E].
Qed.

Lemma successor_claims s :
  closing s = false → items (queue s) ≠ [] → (generation (queue s) < u64_max)%N →
  ∃ e q', start_successor s = (with_queue q' s, Some (e, (generation (queue s) + 1)%N)) ∧
    starts (queue s) q' (Ok (Some (e, (generation (queue s) + 1)%N))).
Proof.
  intros Hc Hi Hg. unfold start_successor. rewrite Hc.
  destruct (start_head (queue s)) as [q' r] eqn:E. apply start_head_starts in E.
  inversion E as [Hi'| ? Hg'|l1 e l2 Hs Hf Hfu Hlt]; subst; [done|lia|].
  exists e. eexists. split; [reflexivity|done].
Qed.

Section progress.
Context (user_input_text : str → option str).
Local Notation step := (step user_input_text).

(** [y'] follows from [y] without a new or a withdrawn input. *)
Record continues (y y' : System) : Prop := mkContinues {
  cont_steps : rtc step y y';
  cont_accepted : accepted y' = accepted y;
  cont_withdrawn : withdrawn y' = withdrawn y;
  cont_ran : ran y `prefix_of` ran y'
}.

#[local] Instance continues_preorder : PreOrder continues.
Proof using Type.
  split.
  - intros y. by split.
  - intros y1 y2 y3 [? ? ? ?] [? ? ? ?]. split; [by etrans|congruence|congruence|by etrans].
Qed.

Lemma continues_step y y' :
  step y y' → accepted y' = accepted y → withdrawn y' = withdrawn y → ran y `prefix_of` ran y' →
  continues y y'.
Proof using Type. intros. split; [by apply rtc_once|done..]. Qed.

Lemma runnable_step y y' :
  step y y' → runnable y → blocked (sess y') = blocked (sess y) →
  closing (sess y') = closing (sess y) → runnable y'.
Proof using Type.
  intros Hst [HI Ha Hb Hc] Hb' Hc'. split; [by eapply Inv_step|by eapply active_ok_step|congruence..].
Qed.

(** What installing the turn of the claim [e] leaves. *)
Definition turn_runs (y y' : System) (e : Entry) (g : N) : Prop :=
  continues y y' ∧ runnable y' ∧ tasks y' = [TLoop e g 0] ∧
  items (queue (sess y')) = items (queue (sess y)) ∧
  generation (queue (sess y')) = generation (queue (sess y)) ∧ ran y' = ran y ++ [e].

Lemma install_runs s e g succ gs ac rn wd :
  let y := mkSystem s [TClaim e g succ] gs ac rn wd in
  runnable y → (succ = None → active s = None) → ∃ y', turn_runs y y' e g.
Proof using Type.
  intros y Hrun Hact. pose proof Hrun as [[[Hph] Hx] Hok Hb Hc]. simpl in *.
  destruct Hph as (Hr & _). destruct (Hx Hr) as [Hp Hd].
  assert (validate_install_state s succ = Ok tt) as Hv.
  { unfold validate_install_state. rewrite decide_False by (by intros []).
    rewrite Hc, Hp, Hd. unfold active_ok in Hok. simpl in Hok.
    destruct succ as [t|]; [rewrite Hok|rewrite Hact by done]; simpl; [|done].
    by rewrite bool_decide_eq_true_2. }
  assert (step y
    (mkSystem (with_active (Some (mkActive 0 false)) (with_queue (set_starting None (queue s)) s))
       [TLoop e g 0] (gs ++ [g]) ac (rn ++ [e]) wd)) as Hst.
  { apply (step_install _ _ [] _ _ _ []). unfold install_loop, get, mbind, stm_bind, lift.
    by rewrite Hv. }
  eexists. split; [|split; [by eapply runnable_step|done]].
  apply continues_step; [exact Hst|done|done|by eexists].
Qed.

(** A claimed head becomes a turn, after the previous turn is cleaned up. *)
Lemma claim_runs s e g succ gs ac rn wd :
  let y := mkSystem s [TClaim e g succ] gs ac rn wd in
  runnable y → ∃ y', turn_runs y y' e g.
Proof using Type.
  intros y Hrun. destruct (active s) as [a|] eqn:Ha; [|by eapply install_runs].
  destruct succ as [t|]; [by eapply install_runs|].
  assert (step y (mkSystem (with_active None s) [TClaim e g None] gs ac rn wd)) as Hst.
  { apply (step_cleanup _ _ _ _ _ _ _ a); [done| |].
    - destruct Hrun as [_ Hok _ _]. unfold active_ok, active_pending in Hok. simpl in Hok.
      rewrite Ha in Hok. by destruct (completed a).
    - intros t ->%list_elem_of_singleton. eauto. }
  destruct (install_runs (with_active None s) e g None gs ac rn wd) as (y' & Hc & Hy');
    [by eapply runnable_step|done|].
  exists y'. split; [|done]. etrans; [|exact Hc]. by apply continues_step.
Qed.

(** The next input of the queue runs. *)
Definition next_runs (y y' : System) : Prop :=
  continues y y' ∧ runnable y' ∧ generation (queue (sess y')) = (generation (queue (sess y)) + 1)%N ∧
  ∃ l1 e l2 g, tasks y' = [TLoop e g 0] ∧
    items (queue (sess y)) = l1 ++ e :: l2 ∧ items (queue (sess y')) = l1 ++ l2 ∧ e ∈ ran y'.

(** After a claim that [starts] the queue of a state [y] led to. *)
Lemma started_runs y s q0 q' e g succ gs ac rn wd :
  let y1 := mkSystem (with_queue q' s) [TClaim e g succ] gs ac rn wd in
  continues y y1 → runnable y1 → starts q0 q' (Ok (Some (e, g))) →
  items q0 = items (queue (sess y)) → generation q0 = generation (queue (sess y)) →
  ∃ y', next_runs y y'.
Proof using Type.
  intros y1 Hc Hrun Hst Hi Hg. inversion Hst as [| |l1 e' l2 Hs _ _ _]; subst.
  destruct (claim_runs _ _ _ _ _ _ _ _ Hrun) as (y' & Hc' & Hrun' & Ht & Hi' & Hg' & Hran).
  exists y'. split_and!; [by etrans|done|by rewrite Hg', <- Hg|].
  exists l1, e, l2, (generation q0 + 1)%N. rewrite Ht, <- Hi, Hi', Hran. split_and!; [done..|].
  apply elem_of_app. right. by left.
Qed.

Lemma successor_runs s g turn gs ac rn wd :
  let y := mkSystem s [TSucc g turn] gs ac rn wd in
  runnable y → items (queue s) ≠ [] → (generation (queue s) < u64_max)%N → ∃ y', next_runs y y'.
Proof using Type.
  intros y Hrun Hi Hg. pose proof Hrun as [_ _ _ Hc].
  destruct (successor_claims s Hc Hi Hg) as (e & q' & Hs & Hst).
  pose proof (step_successor user_input_text s [] g turn [] gs ac rn wd) as Hstep.
  rewrite Hs in Hstep. simpl in Hstep.
  eapply (started_runs y s (queue s)); [|by eapply runnable_step|exact Hst|done|done].
  by apply continues_step.
Qed.

Lemma loop_runs s e g turn gs ac rn wd :
  let y := mkSystem s [TLoop e g turn] gs ac rn wd in
  runnable y → items (queue s) ≠ [] → (generation (queue s) < u64_max)%N → ∃ y', next_runs y y'.
Proof using Type.
  intros y Hrun Hi Hg. pose proof Hrun as [_ Hok _ Hc]. unfold active_ok in Hok. simpl in Hok, Hc.
  pose proof (step_complete user_input_text s [] e g turn [] gs ac rn wd true) as Hstep.
  assert (complete_turn true s = (with_active (Some (mkActive turn true)) s, true)) as Hct.
  { unfold complete_turn, complete_active. rewrite Hc. simpl. rewrite Hok.
    rewrite bool_decide_eq_true_2; [by destruct s|]. by rewrite head_None. }
  rewrite Hct in Hstep. simpl in Hstep.
  destruct (successor_runs (with_active (Some (mkActive turn true)) s) g turn gs ac rn wd)
    as (y' & Hc' & Hy'); [by eapply runnable_step|done|done|].
  exists y'. split; [|done]. etrans; [|exact Hc']. by apply continues_step.
Qed.

(** Nothing holds the queue back once an admission is given up and an operation ends. *)
Lemma settles s ts gs ac rn wd :
  runnable (mkSystem s ts gs ac rn wd) →
  ∃ s', continues (mkSystem s ts gs ac rn wd) (mkSystem s' ts gs ac rn wd) ∧
    runnable (mkSystem s' ts gs ac rn wd) ∧ queue s' = queue s ∧ can_start s' = true.
Proof using Type.
  intros Hrun. set (s1 := drop_admission (default [] (pending_compaction s)) s).
  assert (queue s1 = queue s ∧ blocked s1 = blocked s ∧ closing s1 = closing s ∧
    pending_compaction s1 = None) as (Hq & Hb & Hc & Hp).
  { unfold s1, drop_admission. destruct (pending_compaction s) as [op|] eqn:Hp; simpl.
    - by rewrite decide_True by done.
    - done. }
  pose proof (step_drop_admission user_input_text s ts gs ac rn wd (default [] (pending_compaction s)))
    as Hst1. fold s1 in Hst1.
  pose proof (step_complete_compaction user_input_text s1 ts gs ac rn wd) as Hst2.
  assert (runnable (mkSystem s1 ts gs ac rn wd)) as Hrun1 by by eapply runnable_step.
  exists (complete_compaction s1). split_and!.
  - etrans; [by apply continues_step|by apply continues_step].
  - by eapply runnable_step.
  - done.
  - destruct Hrun1 as [_ _ Hb1 Hc1]. simpl in Hb1, Hc1. unfold can_start. simpl.
    rewrite Hb1, Hc1, Hp. simpl. by destruct (compaction s1).
Qed.

Lemma idle_runs s gs ac rn wd :
  let y := mkSystem s [] gs ac rn wd in
  runnable y → items (queue s) ≠ [] → (generation (queue s) < u64_max)%N → ∃ y', next_runs y y'.
Proof using Type.
  intros y Hrun Hi Hg. destruct (settles _ _ _ _ _ _ Hrun) as (s' & Hc & Hrun' & Hq & Hcan).
  pose proof Hrun' as [[[Hph] _] _ Hb _]. simpl in Hph, Hb. rewrite <- Hq in Hi, Hg.
  destruct (resume_claims s' Hb Hcan (proj1 Hph) Hi Hg) as (e & q' & Hs & Hst).
  pose proof (step_resume user_input_text s' [] gs ac rn wd _ _ Hs) as Hstep. simpl in Hstep.
  eapply (started_runs y s' (set_paused false (queue s')));
    [|by eapply runnable_step|exact Hst|simpl; by rewrite Hq..].
  etrans; [exact Hc|]. by apply continues_step.
Qed.

Lemma next_input_runs y :
  runnable y → items (queue (sess y)) ≠ [] → (generation (queue (sess y)) < u64_max)%N →
  ∃ y', next_runs y y'.
Proof using Type.
  intros Hrun Hi Hg. destruct y as [s ts gs ac rn wd]. simpl in Hi, Hg.
  pose proof Hrun as [[[Hph] _] _ _ _]. simpl in Hph.
  destruct ts as [|[e g succ|e g turn|g turn] [|]]; try done.
  - by apply idle_runs.
  - destruct (claim_runs _ _ _ _ _ _ _ _ Hrun) as ([s' ts' gs' ac' rn' wd'] & Hc & Hrun' & Ht & Hi' & Hg' & _).
    simpl in Ht, Hi', Hg'. subst ts'. rewrite <- Hi' in Hi. rewrite <- Hg' in Hg.
    destruct (loop_runs _ _ _ _ _ _ _ _ Hrun' Hi Hg) as (y' & Hc' & Hrun2 & Hgen & l1 & x & l2 & g2 & ?).
    exists y'. split; [by etrans|]. split; [done|]. simpl in *. rewrite <- Hi', <- Hg'.
    split; [done|]. by exists l1, x, l2, g2.
  - by apply loop_runs.
  - by apply successor_runs.
Qed.

Lemma queued_runs n y e :
  length (items (queue (sess y))) = n → runnable y → e ∈ items (queue (sess y)) →
  (generation (queue (sess y)) + lenN (items (queue (sess y))) <= u64_max)%N →
  ∃ y', continues y y' ∧ e ∈ ran y'.
Proof using Type.
  revert y. induction n as [|n IH]; intros y Hn Hrun He Hg.
  { destruct (items (queue (sess y))); [by apply not_elem_of_nil in He|done]. }
  destruct (next_input_runs y) as (y' & Hc & Hrun' & Hgen & l1 & x & l2 & g & Ht & Hi & Hi' & Hx);
    [done|by intros Hi; rewrite Hi in Hn|unfold lenN in Hg; lia|].
  rewrite Hi in He. rewrite elem_of_app, elem_of_cons in He.
  destruct (decide (e = x)) as [->|Hne]; [by exists y'|].
  destruct (IH y') as (y2 & Hc2 & Hr2).
  - rewrite Hi'. rewrite Hi, length_app in Hn. simpl in Hn. rewrite length_app. lia.
  - done.
  - rewrite Hi', elem_of_app. tauto.
  - rewrite Hgen, Hi'. rewrite Hi in Hg. revert Hg. unfold lenN. rewrite !length_app. simpl. lia.
  - exists y2. split; [by etrans|done].
Qed.

(** C11 No accepted input is stuck: in a session that is neither blocked nor closing,
    whatever is running, admitted, paused or already finished, the session's own
    steps and a resume bring every accepted input that was not withdrawn to run,
    without accepting or withdrawing another one. *)
Theorem accepted_input_can_run y e :
  reachable user_input_text y → blocked (sess y) = None → closing (sess y) = false →
  (generation (queue (sess y)) + lenN (items (queue (sess y))) <= u64_max)%N →
  e ∈ accepted y → e ∉ withdrawn y →
  ∃ y', rtc step y y' ∧ accepted y' = accepted y ∧ withdrawn y' = withdrawn y ∧ e ∈ ran y'.
Proof using Type.
  intros Hr Hb Hc Hg He Hw.
  assert (runnable y) as Hrun.
  { split; [by eapply reachable_Inv|by eapply reachable_active_ok|done..]. }
  cut (∃ y', continues y y' ∧ e ∈ ran y'); [by intros (y' & [] & ?); exists y'|].
  pose proof (run_inv _ Hrun) as [HQ _].
  rewrite (inv_once _ _ _ _ _ _ HQ), !elem_of_app in He.
  destruct He as [He|[He|[He|He]]]; [by eapply queued_runs| |by exists y|done].
  destruct HQ as [Hph]. destruct y as [s ts gs ac rn wd]. simpl in Hph, He.
  destruct ts as [|[x g succ|x g turn|g turn] [|]]; simpl in He; try done;
    try by apply not_elem_of_nil in He.
  apply list_elem_of_singleton in He as ->.
  destruct (claim_runs _ _ _ _ _ _ _ _ Hrun) as (y' & Hc' & _ & _ & _ & _ & Hran).
  exists y'. split; [done|]. rewrite Hran. apply elem_of_app. right. by left.
Qed.
End progress.

(** ** A start after a compaction *)

(** The whole of [start_after_compaction] when no other task comes between its
    critical sections: claim, install the loop [turn], or give the claim back. *)
Definition start_after_turn (turn : N) (s : Session) : Session :=
  match start_after_compaction s with
  | (s, None) => s
  | (s, Some (e, _)) =>
      match install_loop None turn s with
      | (s, Ok _) => s
      | (s, Err _) => abandon_claim e true s
      end
  end.

Definition do_complete (y : System) : System :=
  match tasks y with
  | [TLoop e g turn] =>
      mkSystem (complete_turn true (sess y)).1
        (if (complete_turn true (sess y)).2 then [TSucc g turn] else [])
        (installed y) (accepted y) (ran y) (withdrawn y)
  | _ => y
  end.

Definition do_admit (op : str) (y : System) : System :=
  mkSystem (admit_compaction op (sess y)).1 (tasks y) (installed y) (accepted y) (ran y) (withdrawn y).

Lemma reach_complete y : reachable Some y → reachable Some (do_complete y).
Proof.
  intros Hr. unfold do_complete. destruct y as [s [|[|e g turn|] [|]] gs ac rn wd]; simpl; try done.
  eapply reach_step; [exact Hr|].
  pose proof (step_complete Some s [] e g turn [] gs ac rn wd true) as Hst. simpl in Hst.
  by rewrite app_nil_r in Hst.
Qed.

Lemma reach_admit op y : reachable Some y → reachable Some (do_admit op y).
Proof.
  intros Hr. eapply reach_step; [exact Hr|]. destruct y as [s ts gs ac rn wd]. unfold do_admit. simpl.
  destruct (admit_compaction op s) as [s' r] eqn:E. by eapply step_admit.
Qed.

(** A turn ends, a compaction is admitted, and an input is queued behind it. *)
Definition admitted_system : System :=
  do_push Steer (lit "b") (do_admit (lit "op")
    (do_complete (do_install 7 (do_push Steer (lit "a") (loaded None 100))))).

(** C12 An admission that is dropped or cancelled before it starts does not always let
    the inputs queued behind it run: when the previous turn has finished and was not
    yet cleaned up, the start that follows finds that turn, is refused, and pauses
    the queue although nothing runs and nothing failed. *)
Theorem dropped_admission_pauses :
  ∃ y op, reachable Some y ∧ tasks y = [] ∧ blocked (sess y) = None ∧ closing (sess y) = false ∧
    pending_compaction (sess y) = Some op ∧ compaction (sess y) = None ∧
    paused (queue (sess y)) = false ∧ items (queue (sess y)) ≠ [] ∧
    ∀ turn, let s := start_after_turn turn (drop_admission op (sess y)) in
      items (queue s) = items (queue (sess y)) ∧ paused (queue s) = true ∧
      running (queue s) = false.
Proof.
  exists admitted_system, (lit "op"). split.
  { apply reach_push, reach_admit, reach_complete, reach_install, reach_push, reach_loaded. }
  split_and!; [by vm_compute..|]. intros turn. vm_compute. done.
Qed.

Lemma accepted_input_can_run_witness :
  ∃ y', rtc (step Some) sample_system y' ∧ accepted y' = accepted sample_system ∧
    withdrawn y' = withdrawn sample_system ∧
    mkEntry (input_id 2) FollowUp (lit "b") None ∈ ran y'.
Proof.
  apply (accepted_input_can_run Some).
  - apply sample_reachable.
  - vm_compute; reflexivity.
  - vm_compute; reflexivity.
  - vm_compute; discriminate.
  - assert (accepted sample_system !! 1 = Some (mkEntry (input_id 2) FollowUp (lit "b") None)) as H
      by (vm_compute; reflexivity).
    by eapply list_elem_of_lookup_2.
  - assert (withdrawn sample_system = []) as -> by (vm_compute; reflexivity). apply not_elem_of_nil.
Defined.
