(* ===== verification/Results.v ===== *)
(** The catalog of turn results, [sessions/results.rs].

    Every loaded session keeps a window of completions; large result sources are
    charged to counters shared by all sessions and to counters of their own, are
    shared with readers by reference counting and are released with the last
    reference.  The model keeps the heap of sources and the counters' cells, so
    that sharing is as in the source.  The theorems: the counters are exactly what
    is alive, the limits hold at every moment, windows are contiguous, eviction
    takes the oldest, and reservations and insertions terminate. *)

From S2P Require Import Prelude RustStr.

(** ** Data *)

Record ResultLimits := mkLimits {
  entries_per_load : N;
  max_entries : N;
  max_metadata_bytes : N;
  source_bytes_per_load : N;
  sources_per_load : N;
  all_source_bytes : N;
  max_sources : N
}.
Definition ResultLimits_default : ResultLimits :=
  mkLimits 256 4096 (8 * 1024 * 1024) (64 * 1024 * 1024) 32 (256 * 1024 * 1024) 128.

Inductive CompletionKind := Reported | InternalErrorKind.
Inductive CompletionOutcome := OutCompleted | OutCancelled | OutFailed | OutUnknown.
Inductive ResultAvailability := Live | Stored | Unavailable.
Inductive UnavailableReason := Expired | TooLarge | ResourceLimit | InternalErrorReason | NotRetained.
Inductive TurnPersistence := Persisted | PersistenceFailed.

Record CompletionEntry := mkCompletion {
  seq : N;
  loop_id : N;
  input_id : option str;
  completion_kind : CompletionKind;
  outcome_kind : option CompletionOutcome;
  persistence : option TurnPersistence;
  persistence_uncertain : bool;
  availability : ResultAvailability;
  unavailable_reason : option UnavailableReason;
  after_saved_loop_id : option N
}.

Record CompletionWindow := mkWindow {
  through_seq : N;
  retained_from_seq : N;
  window_entries : list CompletionEntry;
  truncated : bool
}.

(** A charge on the shared counters and on the counters of one load, which are
    named by their address. *)
Record SourceCharge := mkCharge { bytes : N; cell : N }.

(** An [Arc<ResultSource>]: its charge, its payload and its strong count. *)
Record ResultSource := mkSource { charge : SourceCharge; result_id : str; refs : N }.

Record Retained := mkRetained {
  entry : CompletionEntry;
  source : option N;            (* address of the source *)
  r_order : N;
  r_metadata_bytes : N
}.

Record LoadResults := mkLoad { through : N; l_entries : list Retained; l_cell : N }.

Record Catalog := mkCatalog {
  loads : gmap N LoadResults;
  order : N;
  metadata_bytes : N;
  entries : N;
  source_bytes : N;
  source_count : N;
  cells : gmap N (N * N);       (* per-load [source_bytes] and [source_count] *)
  heap : gmap N ResultSource;
  next_addr : N
}.

Definition Catalog_new : Catalog := mkCatalog ∅ 0 0 0 0 0 ∅ ∅ 0.

(** ** Atomic counters *)

Definition fetch_add (x b : N) : N := ((x + b) mod (usize_max + 1))%N.
Definition fetch_sub (x b : N) : N := ((x + (usize_max + 1) - b) mod (usize_max + 1))%N.

Definition cell_of (c : Catalog) (a : N) : N * N := default (0, 0)%N (cells c !! a).

Definition set_counters (b n : N) (cs : gmap N (N * N)) (c : Catalog) : Catalog :=
  mkCatalog (loads c) (order c) (metadata_bytes c) (entries c) b n cs (heap c) (next_addr c).
Definition set_heap (h : gmap N ResultSource) (c : Catalog) : Catalog :=
  mkCatalog (loads c) (order c) (metadata_bytes c) (entries c) (source_bytes c) (source_count c)
    (cells c) h (next_addr c).
Definition set_loads (ls : gmap N LoadResults) (m n : N) (c : Catalog) : Catalog :=
  mkCatalog ls (order c) m n (source_bytes c) (source_count c) (cells c) (heap c) (next_addr c).

(** Takes a charge, and [SourceCharge::drop]. *)
Definition take_charge (ch : SourceCharge) (c : Catalog) : Catalog :=
  let '(b, n) := cell_of c (cell ch) in
  set_counters (fetch_add (source_bytes c) (bytes ch)) (fetch_add (source_count c) 1)
    (<[cell ch := (fetch_add b (bytes ch), fetch_add n 1)]> (cells c)) c.
Definition drop_charge (ch : SourceCharge) (c : Catalog) : Catalog :=
  let '(b, n) := cell_of c (cell ch) in
  set_counters (fetch_sub (source_bytes c) (bytes ch)) (fetch_sub (source_count c) 1)
    (<[cell ch := (fetch_sub b (bytes ch), fetch_sub n 1)]> (cells c)) c.

(** Cloning and dropping an [Arc] of the source at [a]. *)
Definition clone_ref (a : N) (c : Catalog) : Catalog :=
  match heap c !! a with
  | Some s => set_heap (<[a := mkSource (charge s) (result_id s) (refs s + 1)]> (heap c)) c
  | None => c
  end.
Definition drop_ref (a : N) (c : Catalog) : Catalog :=
  match heap c !! a with
  | Some s =>
      if decide (refs s = 1)%N then drop_charge (charge s) (set_heap (delete a (heap c)) c)
      else set_heap (<[a := mkSource (charge s) (result_id s) (refs s - 1)]> (heap c)) c
  | None => c
  end.
Definition drop_refs (addrs : list N) (c : Catalog) : Catalog := foldr drop_ref c addrs.

(** ** Operations *)

Definition register (load : N) (c : Catalog) : Catalog :=
  let a := next_addr c in
  mkCatalog (<[load := mkLoad 0 [] a]> (loads c)) (order c) (metadata_bytes c) (entries c)
    (source_bytes c) (source_count c) (<[a := (0, 0)%N]> (cells c)) (heap c) (a + 1).

Definition sum (ns : list N) : N := foldr N.add 0%N ns.

(** [remove]: the load's entries leave the counts; its sources are dropped. *)
Definition remove (load : N) (c : Catalog) : Catalog :=
  match loads c !! load with
  | None => c
  | Some r =>
      drop_refs (omap source (l_entries r))
        (set_loads (delete load (loads c))
           (metadata_bytes c - sum (r_metadata_bytes <$> l_entries r))
           (entries c - lenN (l_entries r)) c)
  end.

(** [min_by_key] on the order of retained sources. *)
Definition min_step (best : option (N * N)) (x : N * N) : option (N * N) :=
  match best with
  | None => Some x
  | Some y => if decide (x.2 < y.2)%N then Some x else Some y
  end.
Definition min_by_order (l : list (N * N)) : option (N * N) := foldl min_step None l.

Definition with_source (r : LoadResults) : list Retained := filter (λ e, is_Some (source e)) (l_entries r).

Definition source_candidates (c : Catalog) (load : N) (local_full : bool) : list (N * N) :=
  filter (λ x, local_full = false ∨ x.1 = load)
    (map_to_list (loads c) ≫= λ '(key, r), (λ e, (key, r_order e)) <$> with_source r).

Fixpoint update_first {A} (p : A → bool) (f : A → A) (l : list A) : list A :=
  match l with
  | [] => []
  | x :: l' => if p x then f x :: l' else x :: update_first p f l'
  end.

Definition expire (e : Retained) : Retained :=
  let ce := entry e in
  mkRetained
    (mkCompletion (seq ce) (loop_id ce) (input_id ce) (completion_kind ce) (outcome_kind ce)
       (persistence ce) (persistence_uncertain ce) Unavailable (Some Expired)
       (after_saved_loop_id ce))
    None (r_order e) (r_metadata_bytes e).

(** One eviction of [reserve]: the source of the entry [oldest] of [key] leaves. *)
Definition evict_source (key oldest : N) (c : Catalog) : option Catalog :=
  r ← loads c !! key;
  e ← list_find (λ e, r_order e = oldest) (l_entries r);
  a ← source e.2;
  Some (drop_ref a
    (set_loads (<[key := mkLoad (through r)
                          (update_first (λ e, bool_decide (r_order e = oldest)) expire (l_entries r))
                          (l_cell r)]> (loads c))
       (metadata_bytes c) (entries c) c)).

(** The loop of [reserve]; [None] is a panic. *)
Fixpoint reserve_loop (fuel : nat) (limits : ResultLimits) (load b : N) (c : Catalog)
    : option (Catalog * result UnavailableReason SourceCharge) :=
  r ← loads c !! load;
  let '(lb, ln) := cell_of c (l_cell r) in
  let local_full := bool_decide (sources_per_load limits <= ln ∨
                      source_bytes_per_load limits < saturating_add lb b)%N in
  let global_full := bool_decide (max_sources limits <= source_count c ∨
                       all_source_bytes limits < saturating_add (source_bytes c) b)%N in
  if negb local_full && negb global_full then
    let ch := mkCharge b (l_cell r) in
    Some (take_charge ch c, Ok ch)
  else
    match min_by_order (source_candidates c load local_full) with
    | None => Some (c, Err ResourceLimit)
    | Some (key, oldest) =>
        c ← evict_source key oldest c;
        match fuel with
        | O => None
        | S f => reserve_loop f limits load b c
        end
    end.

Definition sources_retained (c : Catalog) : nat :=
  length (map_to_list (loads c) ≫= λ '(_, r), with_source r).

Definition reserve (limits : ResultLimits) (load b : N) (c : Catalog)
    : option (Catalog * result UnavailableReason SourceCharge) :=
  if decide (source_bytes_per_load limits < b)%N then Some (c, Err TooLarge)
  else reserve_loop (sources_retained c) limits load b c.

(** [finish_reservation] of a source of [b] bytes; on an error the charge is dropped. *)
Definition finish_reservation (b : N) (ch : SourceCharge) (c : Catalog)
    : Catalog * result UnavailableReason SourceCharge :=
  if decide (bytes ch < b)%N then (drop_charge ch c, Err TooLarge) else
  let excess := (bytes ch - b)%N in
  let '(cb, cn) := cell_of c (cell ch) in
  (set_counters (fetch_sub (source_bytes c) excess) (source_count c)
     (<[cell ch := (fetch_sub cb excess, cn)]> (cells c)) c,
   Ok (mkCharge b (cell ch))).

Section metadata.
(** The bytes a descriptor is charged: four times the size of a retained entry and
    its input id's capacity, in the machine's layout. *)
Context (metadata_size : CompletionEntry → N).

(** The first part of [insert]: the new entry is the last of its load; a reserved
    source becomes shared. *)
Definition insert_entry (load : N) (ce : CompletionEntry) (src : option (SourceCharge * str))
    (c : Catalog) : option Catalog :=
  ord ← checked_add (order c) 1;
  r ← loads c !! load;
  thr ← checked_add (through r) 1;
  let ce := mkCompletion thr (loop_id ce) (input_id ce) (completion_kind ce) (outcome_kind ce)
              (persistence ce) (persistence_uncertain ce) (availability ce)
              (unavailable_reason ce) (after_saved_loop_id ce) in
  let m := metadata_size ce in
  let a := next_addr c in
  let '(h, na, s) :=
    match src with
    | Some (ch, rid) => (<[a := mkSource ch rid 1]> (heap c), (a + 1)%N, Some a)
    | None => (heap c, a, None)
    end in
  Some (mkCatalog
    (<[load := mkLoad thr (l_entries r ++ [mkRetained ce s ord m]) (l_cell r)]> (loads c))
    ord (metadata_bytes c + m) (entries c + 1) (source_bytes c) (source_count c) (cells c) h na).

(** The load whose first entry is the oldest. *)
Definition front_candidates (c : Catalog) : list (N * N) :=
  map_to_list (loads c) ≫= λ '(key, r),
    match l_entries r with [] => [] | e :: _ => [(key, r_order e)] end.

(** [entries.pop_front()] of a load. *)
Definition pop_front (key : N) (c : Catalog) : option (Retained * Catalog) :=
  r ← loads c !! key;
  match l_entries r with
  | [] => None
  | oldest :: rest =>
      Some (oldest,
        set_loads (<[key := mkLoad (through r) rest (l_cell r)]> (loads c))
          (metadata_bytes c - r_metadata_bytes oldest) (entries c - 1) c)
  end.

(** The loop of [insert]; the released sources go to the caller. *)
Fixpoint evict_loop (fuel : nat) (limits : ResultLimits) (load : N) (c : Catalog) (released : list N)
    : option (Catalog * list N) :=
  r ← loads c !! load;
  let local_full := bool_decide (entries_per_load limits < lenN (l_entries r))%N in
  if negb local_full && bool_decide (entries c <= max_entries limits)%N &&
     bool_decide (metadata_bytes c <= max_metadata_bytes limits)%N
  then Some (c, released)
  else
    candidate ← (if local_full then Some load else fst <$> min_by_order (front_candidates c));
    '(oldest, c) ← pop_front candidate c;
    match fuel with
    | O => None
    | S f => evict_loop f limits load c (released ++ option_list (source oldest))
    end.

Definition entries_retained (c : Catalog) : nat :=
  length (map_to_list (loads c) ≫= λ '(_, r), l_entries r).

Definition insert (limits : ResultLimits) (load : N) (ce : CompletionEntry)
    (src : option (SourceCharge * str)) (c : Catalog) : option (Catalog * list N) :=
  c ← insert_entry load ce src c;
  evict_loop (entries_retained c) limits load c [].
End metadata.

Definition window (load : N) (c : Catalog) : CompletionWindow :=
  match loads c !! load with
  | None => mkWindow 0 1 [] false
  | Some r =>
      let from := match l_entries r with
                  | [] => (through r + 1)%N
                  | e :: _ => seq (entry e)
                  end in
      mkWindow (through r) from (entry <$> l_entries r) (bool_decide (1 < from)%N)
  end.

(** [lookup]: the completion and a reference to its source. *)
Definition lookup_result (load loop : N) (c : Catalog)
    : Catalog * option (CompletionEntry * option N) :=
  match loads c !! load ≫= λ r, list_find (λ e, loop_id (entry e) = loop) (l_entries r) with
  | None => (c, None)
  | Some (_, e) =>
      (match source e with Some a => clone_ref a c | None => c end, Some (entry e, source e))
  end.

(** ** What the catalog holds *)

Definition retained (ls : gmap N LoadResults) : list (N * Retained) :=
  map_to_list ls ≫= λ '(key, r), (λ e, (key, e)) <$> l_entries r.

Lemma retained_delete ls k r :
  ls !! k = Some r →
  retained ls ≡ₚ ((λ e, (k, e)) <$> l_entries r) ++ retained (delete k ls).
Proof.
  intros Hk. unfold retained. rewrite <- (insert_id _ _ _ Hk) at 1.
  rewrite <- insert_delete_eq, map_to_list_insert by apply lookup_delete_eq. done.
Qed.

Lemma retained_insert ls k r :
  retained (<[k := r]> ls) ≡ₚ ((λ e, (k, e)) <$> l_entries r) ++ retained (delete k ls).
Proof.
  unfold retained. rewrite <- insert_delete_eq, map_to_list_insert by apply lookup_delete_eq. done.
Qed.

Lemma retained_new ls k a : ls !! k = None → retained (<[k := mkLoad 0 [] a]> ls) ≡ₚ retained ls.
Proof. intros Hk. by rewrite retained_insert, delete_id. Qed.

Lemma sum_app l k : sum (l ++ k) = (sum l + sum k)%N.
Proof. induction l as [|x l IH]; [done|]. simpl. rewrite IH. lia. Qed.

#[global] Instance sum_perm : Proper ((≡ₚ) ==> (=)) sum.
Proof. induction 1; simpl; lia. Qed.

(** The addresses the catalog holds references to. *)
Definition held (ls : gmap N LoadResults) : list N := omap (λ x, source x.2) (retained ls).

Definition charges (h : gmap N ResultSource) : list SourceCharge := charge <$> (map_to_list h).*2.

Lemma charges_delete h a s : h !! a = Some s → charges h ≡ₚ charge s :: charges (delete a h).
Proof.
  intros Ha. unfold charges. rewrite <- (insert_id _ _ _ Ha) at 1.
  rewrite <- insert_delete_eq, map_to_list_insert by apply lookup_delete_eq. done.
Qed.
Lemma charges_insert h a s : h !! a = None → charges (<[a := s]> h) ≡ₚ charge s :: charges h.
Proof. intros Ha. unfold charges. by rewrite map_to_list_insert. Qed.
Lemma charges_update h a s s' : h !! a = Some s → charge s' = charge s → charges (<[a := s']> h) ≡ₚ charges h.
Proof.
  intros Ha Hc. rewrite <- insert_delete_eq, charges_insert by apply lookup_delete_eq.
  rewrite Hc. symmetry. by apply charges_delete.
Qed.

(** ** Accounting *)

Lemma fetch_add_eq x b : (x + b <= usize_max)%N → fetch_add x b = (x + b)%N.
Proof. intros H. unfold fetch_add. apply N.mod_small. lia. Qed.

Lemma fetch_sub_eq x b : (b <= x)%N → (x <= usize_max)%N → fetch_sub x b = (x - b)%N.
Proof.
  intros H1 H2. unfold fetch_sub.
  replace (x + (usize_max + 1) - b)%N with ((x - b) + 1 * (usize_max + 1))%N by lia.
  rewrite N.Div0.mod_add. apply N.mod_small. lia.
Qed.

Definition in_cell (a : N) (live : list SourceCharge) : list SourceCharge := filter (λ ch, cell ch = a) live.
Definition total (live : list SourceCharge) : N := sum (bytes <$> live).

Lemma total_cons ch live : total (ch :: live) = (bytes ch + total live)%N.
Proof. done. Qed.
Lemma in_cell_cons a ch live :
  in_cell a (ch :: live) = if decide (cell ch = a) then ch :: in_cell a live else in_cell a live.
Proof. unfold in_cell. by rewrite filter_cons. Qed.
#[global] Instance total_perm : Proper ((≡ₚ) ==> (=)) total.
Proof. intros l k H. unfold total. by rewrite H. Qed.
#[global] Instance in_cell_perm a : Proper ((≡ₚ) ==> (≡ₚ)) (in_cell a).
Proof. intros l k H. unfold in_cell. by rewrite H. Qed.
#[global] Instance lenN_perm {A} : Proper ((≡ₚ@{A}) ==> (=)) lenN.
Proof. intros l k H. unfold lenN. by rewrite H. Qed.

(** Limits that a counter can hold. *)
Definition limits_ok (lim : ResultLimits) : Prop :=
  (all_source_bytes lim < usize_max)%N ∧ (source_bytes_per_load lim < usize_max)%N ∧
  (max_sources lim <= usize_max)%N ∧ (sources_per_load lim <= usize_max)%N.

(** The counters are the charges alive, within the limits. *)
Record Acc (lim : ResultLimits) (c : Catalog) (live : list SourceCharge) : Prop := mkAcc {
  acc_bytes : source_bytes c = total live;
  acc_count : source_count c = lenN live;
  acc_cells : ∀ a, cell_of c a = (total (in_cell a live), lenN (in_cell a live));
  acc_all : (total live <= all_source_bytes lim)%N;
  acc_sources : (lenN live <= max_sources lim)%N;
  acc_load : ∀ a, (total (in_cell a live) <= source_bytes_per_load lim)%N ∧
                  (lenN (in_cell a live) <= sources_per_load lim)%N
}.

Lemma Acc_perm lim c live live' : live ≡ₚ live' → Acc lim c live → Acc lim c live'.
Proof. intros Hp []. split; try setoid_rewrite <- Hp; done. Qed.

Lemma Acc_counters lim c c' live :
  source_bytes c' = source_bytes c → source_count c' = source_count c → cells c' = cells c →
  Acc lim c live → Acc lim c' live.
Proof. intros H1 H2 H3 []. split; unfold cell_of in *; by rewrite ?H1, ?H2, ?H3. Qed.

Lemma Acc_take lim c live ch :
  limits_ok lim → Acc lim c live →
  (total live + bytes ch <= all_source_bytes lim)%N → (lenN live + 1 <= max_sources lim)%N →
  (total (in_cell (cell ch) live) + bytes ch <= source_bytes_per_load lim)%N →
  (lenN (in_cell (cell ch) live) + 1 <= sources_per_load lim)%N →
  Acc lim (take_charge ch c) (ch :: live).
Proof.
  intros (L1 & L2 & L3 & L4) [H1 H2 H3 H4 H5 H6] B1 B2 B3 B4.
  unfold take_charge. rewrite H3, H1, H2. cbv beta iota. rewrite !fetch_add_eq by lia.
  split; cbn [source_bytes source_count set_counters].
  - rewrite total_cons. lia.
  - rewrite lenN_cons. lia.
  - intros a. unfold cell_of. cbn [cells set_counters]. rewrite in_cell_cons. case_decide as Ha.
    + rewrite <- Ha, lookup_insert_eq, total_cons, lenN_cons. cbn [default from_option id]. f_equal; lia.
    + rewrite lookup_insert_ne by done. apply H3.
  - rewrite total_cons. lia.
  - rewrite lenN_cons. lia.
  - intros a. rewrite in_cell_cons. case_decide as Ha; [|apply H6].
    rewrite total_cons, lenN_cons. subst a. lia.
Qed.

(** Lowers a live charge to [b] bytes. *)
Lemma Acc_shrink lim c live ch b :
  limits_ok lim → Acc lim c (ch :: live) → (b <= bytes ch)%N →
  let '(cb, cn) := cell_of c (cell ch) in
  Acc lim (set_counters (fetch_sub (source_bytes c) (bytes ch - b)) (source_count c)
       (<[cell ch := (fetch_sub cb (bytes ch - b), cn)]> (cells c)) c)
    (mkCharge b (cell ch) :: live).
Proof.
  intros (L1 & L2 & L3 & L4) [H1 H2 H3 H4 H5 H6] Hb. rewrite H3, H1. cbv beta iota.
  specialize (H6 (cell ch)) as H6c. rewrite in_cell_cons, decide_True in H6c |- * by done.
  rewrite total_cons in H4, H6c |- *. rewrite lenN_cons in H5, H6c |- *. rewrite H2, lenN_cons.
  rewrite (fetch_sub_eq (bytes ch + total live)) by lia.
  rewrite (fetch_sub_eq (bytes ch + total (in_cell (cell ch) live))) by lia.
  split; cbn [source_bytes source_count set_counters bytes cell]; rewrite ?total_cons, ?lenN_cons; cbn [bytes].
  - lia.
  - lia.
  - intros a. unfold cell_of. cbn [cells set_counters]. rewrite in_cell_cons. cbn [cell].
    case_decide as Ha.
    + rewrite <- Ha, lookup_insert_eq, total_cons, lenN_cons. cbn [default from_option id bytes]. f_equal; lia.
    + rewrite lookup_insert_ne by done. specialize (H3 a). rewrite in_cell_cons, decide_False in H3 by done.
      apply H3.
  - lia.
  - lia.
  - intros a. specialize (H6 a). rewrite in_cell_cons in *. cbn [cell]. case_decide; [|done].
    rewrite total_cons, lenN_cons in *. cbn [bytes]. lia.
Qed.

Lemma Acc_drop lim c live ch :
  limits_ok lim → Acc lim c (ch :: live) → Acc lim (drop_charge ch c) live.
Proof.
  intros (L1 & L2 & L3 & L4) [H1 H2 H3 H4 H5 H6].
  unfold drop_charge. rewrite H3, H1, H2. cbv beta iota. specialize (H6 (cell ch)) as H6c.
  rewrite in_cell_cons, decide_True in H6c |- * by done.
  rewrite !total_cons, !lenN_cons. rewrite total_cons in H4, H6c. rewrite lenN_cons in H5, H6c.
  rewrite (fetch_sub_eq (bytes ch + total live)), (fetch_sub_eq (1 + lenN live)) by lia.
  rewrite (fetch_sub_eq (bytes ch + total (in_cell (cell ch) live))),
    (fetch_sub_eq (1 + lenN (in_cell (cell ch) live))) by lia.
  split; cbn [source_bytes source_count set_counters].
  - lia.
  - lia.
  - intros a. unfold cell_of. cbn [cells set_counters]. specialize (H3 a). rewrite in_cell_cons in H3.
    destruct (decide (cell ch = a)) as [Ha|Ha].
    + rewrite <- Ha, lookup_insert_eq. cbn [default from_option id]. f_equal; lia.
    + rewrite lookup_insert_ne by done. apply H3.
  - lia.
  - lia.
  - intros a. specialize (H6 a). rewrite in_cell_cons in H6. case_decide; [|done].
    rewrite total_cons, lenN_cons in *. lia.
Qed.

(** ** References *)

Definition occ (a : N) (l : list N) : N := lenN (filter (λ x, x = a) l).

Lemma occ_cons a x l : occ a (x :: l) = ((if decide (x = a) then 1 else 0) + occ a l)%N.
Proof. unfold occ. rewrite filter_cons. case_decide; [by rewrite lenN_cons|done]. Qed.
Lemma occ_app a l k : occ a (l ++ k) = (occ a l + occ a k)%N.
Proof. unfold occ. by rewrite filter_app, lenN_app. Qed.
#[global] Instance occ_perm a : Proper ((≡ₚ) ==> (=)) (occ a).
Proof. intros l k H. unfold occ. by rewrite H. Qed.
Lemma occ_0 a l : occ a l = 0%N ↔ a ∉ l.
Proof.
  induction l as [|x l IH]; [split; [by intros _ ?%not_elem_of_nil|done]|].
  rewrite occ_cons, not_elem_of_cons. case_decide; [split; [lia|naive_solver]|].
  rewrite <- IH. naive_solver lia.
Qed.

(** A source's count is the number of references to it, and an unreferenced source
    is gone. *)
Definition Refs (h : gmap N ResultSource) (hs : list N) : Prop :=
  ∀ a, match h !! a with Some s => refs s = occ a hs ∧ (1 <= refs s)%N | None => occ a hs = 0%N end.

Lemma Refs_perm h hs hs' : hs ≡ₚ hs' → Refs h hs → Refs h hs'.
Proof. intros Hp H a. specialize (H a). by destruct (h !! a); rewrite <- Hp. Qed.

(** What dropping references leaves alone. *)
Record frame (c c' : Catalog) : Prop := mkFrame {
  frame_loads : loads c' = loads c;
  frame_order : order c' = order c;
  frame_metadata : metadata_bytes c' = metadata_bytes c;
  frame_entries : entries c' = entries c;
  frame_next : next_addr c' = next_addr c;
  frame_heap : ∀ a s', heap c' !! a = Some s' → ∃ s, heap c !! a = Some s ∧ charge s' = charge s
}.

Lemma frame_refl c : frame c c.
Proof. split; eauto. Qed.
Lemma frame_trans c1 c2 c3 : frame c1 c2 → frame c2 c3 → frame c1 c3.
Proof.
  intros [H1 H2 H3 H4 H5 H6] [K1 K2 K3 K4 K5 K6]. split; try congruence.
  intros a s'' Ha. apply K6 in Ha as (s' & Ha & ->). apply H6 in Ha as (s & ? & ->). eauto.
Qed.

Definition heap_charged (lim : ResultLimits) (c : Catalog) (R : list SourceCharge) : Prop :=
  Acc lim c (charges (heap c) ++ R).

Lemma drop_charge_frame ch c : frame c (drop_charge ch c) ∧ heap (drop_charge ch c) = heap c.
Proof. unfold drop_charge. destruct (cell_of c (cell ch)). split; [|done]. split; cbn; eauto. Qed.

Lemma set_heap_frame h c :
  (∀ a s', h !! a = Some s' → ∃ s, heap c !! a = Some s ∧ charge s' = charge s) → frame c (set_heap h c).
Proof. intros H. by split. Qed.

Lemma drop_ref_frame a c : frame c (drop_ref a c).
Proof.
  unfold drop_ref. destruct (heap c !! a) as [s|] eqn:Es; [|apply frame_refl]. case_decide.
  - eapply frame_trans; [|apply drop_charge_frame]. apply set_heap_frame.
    intros b s' [_ Hb]%lookup_delete_Some. eauto.
  - apply set_heap_frame. intros b s' [[<- <-]|[_ Hb]]%lookup_insert_Some; eauto.
Qed.

Lemma drop_ref_spec lim c a hs R :
  limits_ok lim → heap_charged lim c R → Refs (heap c) (a :: hs) →
  heap_charged lim (drop_ref a c) R ∧ Refs (heap (drop_ref a c)) hs ∧ frame c (drop_ref a c).
Proof.
  intros Hlim Hacc Hrefs. unfold drop_ref. specialize (Hrefs a) as Ha.
  rewrite occ_cons, decide_True in Ha by done.
  destruct (heap c !! a) as [s|] eqn:Es; [|lia]. destruct Ha as [Hs Hs1].
  case_decide as H1.
  - set (c1 := set_heap (delete a (heap c)) c).
    destruct (drop_charge_frame (charge s) c1) as [Hf Hh].
    assert (frame c c1) as Hf1.
    { apply set_heap_frame. intros b s' [_ Hb]%lookup_delete_Some. eauto. }
    split; [|split; [|by eapply frame_trans]].
    + unfold heap_charged. rewrite Hh. apply Acc_drop; [done|].
      apply (Acc_counters lim c); [done..|]. eapply Acc_perm; [|exact Hacc].
      by rewrite (charges_delete _ _ _ Es).
    + rewrite Hh. intros b. simpl. specialize (Hrefs b). rewrite occ_cons in Hrefs.
      destruct (decide (a = b)) as [<-|Hne].
      * rewrite lookup_delete_eq. lia.
      * by rewrite lookup_delete_ne.
  - assert (∀ s', charges (<[a := mkSource (charge s) (result_id s) s']> (heap c)) ≡ₚ charges (heap c))
      as Hch by (intros s'; by eapply charges_update).
    split; [|split].
    + unfold heap_charged. simpl. apply (Acc_counters lim c); [done..|].
      eapply Acc_perm; [|exact Hacc]. by rewrite Hch.
    + intros b. simpl. specialize (Hrefs b). rewrite occ_cons in Hrefs.
      destruct (decide (a = b)) as [<-|Hne].
      * rewrite lookup_insert_eq. simpl. lia.
      * by rewrite lookup_insert_ne.
    + apply set_heap_frame. intros b s' Hb. destruct (decide (a = b)) as [<-|Hne].
      * rewrite lookup_insert_eq in Hb. injection Hb as <-. eauto.
      * rewrite lookup_insert_ne in Hb by done. eauto.
Qed.

Lemma drop_refs_spec lim c addrs hs R :
  limits_ok lim → heap_charged lim c R → Refs (heap c) (addrs ++ hs) →
  heap_charged lim (drop_refs addrs c) R ∧ Refs (heap (drop_refs addrs c)) hs ∧
  frame c (drop_refs addrs c).
Proof.
  intros Hlim. revert hs. induction addrs as [|a addrs IH]; intros hs Hacc Hrefs.
  { split_and!; [done|done|apply frame_refl]. }
  simpl. destruct (IH (a :: hs)) as (H1 & H2 & H3); [done| |].
  { eapply Refs_perm; [|exact Hrefs]. simpl. by rewrite Permutation_middle. }
  destruct (drop_ref_spec lim _ a hs R Hlim H1 H2) as (K1 & K2 & K3).
  split_and!; [done|done|by eapply frame_trans].
Qed.

Lemma clone_ref_spec lim c a hs R :
  heap_charged lim c R → Refs (heap c) hs → a ∈ hs →
  heap_charged lim (clone_ref a c) R ∧ Refs (heap (clone_ref a c)) (a :: hs) ∧ frame c (clone_ref a c).
Proof.
  intros Hacc Hrefs Hin. unfold clone_ref. specialize (Hrefs a) as Ha.
  destruct (heap c !! a) as [s|] eqn:Es; [|by apply occ_0 in Ha].
  split; [|split].
  - unfold heap_charged. simpl. apply (Acc_counters lim c); [done..|].
    eapply Acc_perm; [|exact Hacc]. by rewrite (charges_update _ _ _ _ Es).
  - intros b. simpl. specialize (Hrefs b). rewrite occ_cons. destruct (decide (a = b)) as [<-|Hne].
    + rewrite lookup_insert_eq. simpl. lia.
    + rewrite lookup_insert_ne by done. destruct (heap c !! b); lia.
  - apply set_heap_frame. intros b s' Hb. destruct (decide (a = b)) as [<-|Hne].
    + rewrite lookup_insert_eq in Hb. injection Hb as <-. eauto.
    + rewrite lookup_insert_ne in Hb by done. eauto.
Qed.

(** ** Entries *)

(** The completions a load retains are the last ones, without gaps. *)
Definition window_ok (r : LoadResults) : Prop :=
  ∀ i e, l_entries r !! i = Some e →
    (seq (entry e) + lenN (l_entries r) = through r + 1 + N.of_nat i)%N.

Record Ent (c : Catalog) : Prop := mkEnt {
  ent_entries : entries c = lenN (retained (loads c));
  ent_metadata : metadata_bytes c = sum ((λ x, r_metadata_bytes x.2) <$> retained (loads c));
  ent_window : ∀ k r, loads c !! k = Some r → window_ok r;
  ent_orders : NoDup ((λ x, r_order x.2) <$> retained (loads c));
  ent_order : ∀ x, x ∈ retained (loads c) → (r_order x.2 <= order c)%N
}.

(** The limits on descriptors, which hold between insertions. *)
Record Bounded (lim : ResultLimits) (c : Catalog) : Prop := mkBounded {
  b_load : ∀ k r, loads c !! k = Some r → (lenN (l_entries r) <= entries_per_load lim)%N;
  b_entries : (entries c <= max_entries lim)%N;
  b_metadata : (metadata_bytes c <= max_metadata_bytes lim)%N
}.

(** Addresses are fresh and no two loads share a cell. *)
Record Fresh (c : Catalog) (R : list SourceCharge) : Prop := mkFresh {
  fresh_heap : ∀ a s, heap c !! a = Some s → (a < next_addr c)%N;
  fresh_live : ∀ ch, ch ∈ charges (heap c) ++ R → (cell ch < next_addr c)%N;
  fresh_load : ∀ k r, loads c !! k = Some r → (l_cell r < next_addr c)%N;
  fresh_cells : ∀ k k' r r', loads c !! k = Some r → loads c !! k' = Some r' →
                  l_cell r = l_cell r' → k = k'
}.

(** The catalog with the references [pins] of readers and the charges [R] of
    reservations under way. *)
Record CInv (lim : ResultLimits) (c : Catalog) (pins : list N) (R : list SourceCharge) : Prop := mkCInv {
  c_acc : heap_charged lim c R;
  c_refs : Refs (heap c) (held (loads c) ++ pins);
  c_ent : Ent c;
  c_fresh : Fresh c R
}.

Lemma charges_elem h ch : ch ∈ charges h ↔ ∃ a s, h !! a = Some s ∧ charge s = ch.
Proof.
  unfold charges. rewrite list_elem_of_fmap. split.
  - intros (s & -> & (p & -> & Hp)%list_elem_of_fmap). destruct p as [a s].
    apply elem_of_map_to_list in Hp. eauto.
  - intros (a & s & Ha & <-). exists s. split; [done|]. apply list_elem_of_fmap.
    exists (a, s). split; [done|]. by apply elem_of_map_to_list.
Qed.

(** Dropping references keeps the rest of the invariant. *)
Lemma Ent_frame c c' : frame c c' → Ent c → Ent c'.
Proof. intros [H1 H2 H3 H4 _ _] []. split; rewrite ?H1, ?H2, ?H3, ?H4; done. Qed.

Lemma Bounded_frame lim c c' : frame c c' → Bounded lim c → Bounded lim c'.
Proof. intros [H1 H2 H3 H4 _ _] []. split; rewrite ?H1, ?H2, ?H3, ?H4; done. Qed.

Lemma Fresh_frame c c' R : frame c c' → Fresh c R → Fresh c' R.
Proof.
  intros [H1 _ _ _ H5 H6] [K1 K2 K3 K4]. split; rewrite ?H1, ?H5; try done.
  - intros a s Ha. apply H6 in Ha as (s' & Ha & _). by eapply K1.
  - intros ch [Hch|Hch]%elem_of_app; apply K2, elem_of_app; [left|by right].
    apply charges_elem in Hch as (a & s & Ha & <-). apply H6 in Ha as (s' & Ha & ->).
    apply charges_elem. eauto.
Qed.

Lemma CInv_drop_refs lim c addrs pins R :
  limits_ok lim → heap_charged lim c R → Refs (heap c) (addrs ++ held (loads c) ++ pins) →
  Ent c → Fresh c R → CInv lim (drop_refs addrs c) pins R ∧ frame c (drop_refs addrs c).
Proof.
  intros Hlim Hacc Hrefs He Hf.
  destruct (drop_refs_spec lim c addrs _ R Hlim Hacc Hrefs) as (H1 & H2 & H3).
  split; [|done]. split; [done| |by eapply Ent_frame|by eapply Fresh_frame].
  by rewrite (frame_loads _ _ H3).
Qed.

(** *** Registering and removing a load *)

Lemma omap_pair (k : N) (es : list Retained) :
  omap (λ x : N * Retained, source x.2) ((λ e, (k, e)) <$> es) = omap source es.
Proof. induction es as [|e es IH]; [done|]. cbn. by rewrite IH. Qed.

Lemma held_insert ls k r :
  held (<[k := r]> ls) ≡ₚ omap source (l_entries r) ++ held (delete k ls).
Proof.
  unfold held. rewrite retained_insert, omap_app, omap_pair. done.
Qed.
Lemma held_delete ls k r :
  ls !! k = Some r → held ls ≡ₚ omap source (l_entries r) ++ held (delete k ls).
Proof. intros Hk. unfold held. by rewrite (retained_delete _ _ _ Hk), omap_app, omap_pair. Qed.

Lemma CInv_register lim c pins R k :
  loads c !! k = None → CInv lim c pins R → CInv lim (register k c) pins R.
Proof.
  intros Hk [Ha Hr He Hf].
  assert (retained (loads (register k c)) ≡ₚ retained (loads c)) as Hret
    by (by apply retained_new).
  split.
  - destruct Ha as [H1 H2 H3 H4 H5 H6]. split; try done. intros a. unfold cell_of. simpl.
    destruct (decide (next_addr c = a)) as [<-|Hne].
    + rewrite lookup_insert_eq. simpl. unfold in_cell.
      rewrite filter_none; [done|]. intros ch Hch Heq.
      apply (fresh_live _ _ Hf) in Hch. lia.
    + rewrite lookup_insert_ne by done. apply H3.
  - eapply Refs_perm; [|exact Hr]. unfold held. by rewrite Hret.
  - destruct He as [H1 H2 H3 H4 H5]. split; rewrite ?Hret; try done.
    + intros k' r Hk'. simpl in Hk'. destruct (decide (k = k')) as [<-|Hne].
      * rewrite lookup_insert_eq in Hk'. injection Hk' as <-. by intros [|i] e Hi.
      * rewrite lookup_insert_ne in Hk' by done. by eapply H3.
    + intros x. rewrite Hret. apply H5.
  - destruct Hf as [H1 H2 H3 H4]. split; simpl.
    + intros a s Hs. apply H1 in Hs. lia.
    + intros ch Hch. apply H2 in Hch. lia.
    + intros k' r [[<- <-]|[_ Hk']]%lookup_insert_Some; [simpl; lia|]. apply H3 in Hk'. lia.
    + intros k1 k2 r1 r2 [[<- <-]|[_ Hk1]]%lookup_insert_Some [[<- <-]|[_ Hk2]]%lookup_insert_Some Heq;
        simpl in *; [done| | |by eapply H4].
      * apply H3 in Hk2. lia.
      * apply H3 in Hk1. lia.
Qed.

Definition metadata_of (l : list (N * Retained)) : N := sum ((λ x, r_metadata_bytes x.2) <$> l).
Definition orders_of (l : list (N * Retained)) : list N := (λ x, r_order x.2) <$> l.

Lemma metadata_of_app l k : metadata_of (l ++ k) = (metadata_of l + metadata_of k)%N.
Proof. unfold metadata_of. by rewrite fmap_app, sum_app. Qed.
#[global] Instance metadata_of_perm : Proper ((≡ₚ) ==> (=)) metadata_of.
Proof. intros l k H. unfold metadata_of. by rewrite H. Qed.
#[global] Instance orders_of_perm : Proper ((≡ₚ) ==> (≡ₚ)) orders_of.
Proof. intros l k H. unfold orders_of. by rewrite H. Qed.

Lemma metadata_pair k es : metadata_of ((λ e, (k, e)) <$> es) = sum (r_metadata_bytes <$> es).
Proof. unfold metadata_of. by rewrite <- list_fmap_compose. Qed.

(** Replacing one load's entries, whatever the other counts become. *)
Lemma Ent_replace c k r r' m n c' :
  loads c !! k = Some r → Ent c → window_ok r' →
  loads c' = <[k := r']> (loads c) → metadata_bytes c' = m → entries c' = n →
  (n + lenN (l_entries r) = entries c + lenN (l_entries r'))%N →
  (m + sum (r_metadata_bytes <$> l_entries r) =
   metadata_bytes c + sum (r_metadata_bytes <$> l_entries r'))%N →
  (order c <= order c')%N →
  NoDup (orders_of ((λ e, (k, e)) <$> l_entries r') ++ orders_of (retained (delete k (loads c)))) →
  (∀ e, e ∈ l_entries r' → (r_order e <= order c')%N) →
  Ent c'.
Proof.
  intros Hk [H1 H2 H3 H4 H5] Hw Hl Hm Hn Hcount Hmeta Hord Hnd Hle.
  pose proof (retained_delete _ _ _ Hk) as Hold.
  assert (retained (loads c') ≡ₚ ((λ e, (k, e)) <$> l_entries r') ++ retained (delete k (loads c))) as Hnew.
  { rewrite Hl. apply retained_insert. }
  split.
  - rewrite Hn, Hnew. rewrite Hold in H1. rewrite lenN_app, lenN_fmap in *. lia.
  - change (metadata_bytes c' = metadata_of (retained (loads c'))).
    change (metadata_bytes c = metadata_of (retained (loads c))) in H2.
    rewrite Hm, Hnew. rewrite Hold in H2. rewrite metadata_of_app, metadata_pair in *. lia.
  - intros k' r1 Hk'. rewrite Hl in Hk'. apply lookup_insert_Some in Hk' as [[_ <-]|[_ Hk']]; [done|].
    by eapply H3.
  - change (NoDup (orders_of (retained (loads c')))). rewrite Hnew. unfold orders_of at 1.
    by rewrite fmap_app.
  - intros x Hx. rewrite Hnew in Hx. apply elem_of_app in Hx as [Hx|Hx].
    + apply list_elem_of_fmap in Hx as (e & -> & He). by apply Hle.
    + etrans; [|exact Hord]. apply H5. rewrite Hold. apply elem_of_app. by right.
Qed.

(** The orders of one load against those of the others. *)
Lemma Ent_orders_split c k r :
  loads c !! k = Some r → Ent c →
  NoDup (orders_of ((λ e, (k, e)) <$> l_entries r) ++ orders_of (retained (delete k (loads c)))) ∧
  ∀ e, e ∈ l_entries r → (r_order e <= order c)%N.
Proof.
  intros Hk [_ _ _ H4 H5]. pose proof (retained_delete _ _ _ Hk) as Hold. split.
  - change (NoDup (orders_of (retained (loads c)))) in H4. rewrite Hold in H4.
    unfold orders_of in *. by rewrite fmap_app in H4.
  - intros e He. apply (H5 (k, e)). rewrite Hold. apply elem_of_app. left.
    apply list_elem_of_fmap. eauto.
Qed.

Lemma orders_pair k es : orders_of ((λ e, (k, e)) <$> es) = r_order <$> es.
Proof. unfold orders_of. by rewrite <- list_fmap_compose. Qed.

Lemma Fresh_replace c c' k r r' R :
  loads c !! k = Some r → l_cell r' = l_cell r → Fresh c R →
  loads c' = <[k := r']> (loads c) → heap c' = heap c → next_addr c' = next_addr c → Fresh c' R.
Proof.
  intros Hk Hc [H1 H2 H3 H4] Hl Hh Hn. split; rewrite ?Hh, ?Hn, ?Hl; try done.
  - intros k' r1 [[<- <-]|[_ Hk']]%lookup_insert_Some; [|by eapply H3]. rewrite Hc. by eapply H3.
  - intros k1 k2 r1 r2 [[<- <-]|[_ Hk1]]%lookup_insert_Some [[<- <-]|[_ Hk2]]%lookup_insert_Some Heq;
      rewrite ?Hc in Heq; [done|by eapply H4|by eapply H4|by eapply H4].
Qed.

(** *** Removing a load *)

Lemma CInv_remove lim c pins R k :
  limits_ok lim → CInv lim c pins R → CInv lim (remove k c) pins R.
Proof.
  intros Hlim [Ha Hr He Hf]. unfold remove. destruct (loads c !! k) as [r|] eqn:Hk; [|done].
  set (c1 := set_loads _ _ _ c).
  assert (retained (loads c) ≡ₚ ((λ e, (k, e)) <$> l_entries r) ++ retained (loads c1)) as Hold
    by (by apply retained_delete).
  apply (CInv_drop_refs lim c1); [done|by apply (Acc_counters lim c)| | |].
  - eapply Refs_perm; [|exact Hr]. rewrite (held_delete _ _ _ Hk). by rewrite <- app_assoc.
  - destruct He as [H1 H2 H3 H4 H5]. rewrite Hold in H1.
    change (metadata_bytes c = metadata_of (retained (loads c))) in H2.
    change (NoDup (orders_of (retained (loads c)))) in H4.
    rewrite Hold in H2, H4. rewrite metadata_of_app, metadata_pair in H2.
    rewrite lenN_app, lenN_fmap in H1.
    split.
    + simpl. rewrite H1. simpl. lia.
    + simpl. rewrite H2. unfold metadata_of. simpl. lia.
    + intros k' r1 Hk'. simpl in Hk'. apply lookup_delete_Some in Hk' as [_ Hk']. by eapply H3.
    + unfold orders_of in H4. rewrite fmap_app in H4. by apply NoDup_app in H4 as (_ & _ & ?).
    + intros x Hx. apply H5. rewrite Hold. apply elem_of_app. by right.
  - destruct Hf as [H1 H2 H3 H4]. split; try done.
    + intros k' r1 Hk'. simpl in Hk'. apply lookup_delete_Some in Hk' as [_ Hk']. by eapply H3.
    + intros k1 k2 r1 r2 Hk1 Hk2. simpl in Hk1, Hk2. apply lookup_delete_Some in Hk1 as [_ Hk1].
      apply lookup_delete_Some in Hk2 as [_ Hk2]. by eapply H4.
Qed.

(** *** Evicting a source *)

Lemma min_by_order_spec l :
  match min_by_order l with
  | None => l = []
  | Some y => y ∈ l ∧ ∀ x, x ∈ l → (y.2 <= x.2)%N
  end.
Proof.
  unfold min_by_order.
  assert (∀ best, match foldl min_step best l with
    | None => best = None ∧ l = []
    | Some y => (best = Some y ∨ y ∈ l) ∧ (∀ x, x ∈ l → (y.2 <= x.2)%N) ∧
                (∀ b, best = Some b → (y.2 <= b.2)%N)
    end) as H.
  { induction l as [|x l IH]; intros best; simpl.
    - destruct best; [|done]. split_and!; [by left|by intros ? ?%not_elem_of_nil|]. by intros b [= ->].
    - specialize (IH (min_step best x)). destruct (foldl min_step _ l) as [y|].
      + destruct IH as (Hin & Hmin & Hb). destruct best as [b|]; simpl in *.
        * destruct (decide (x.2 < b.2)%N) as [Hlt|Hlt].
          -- specialize (Hb x eq_refl). split_and!.
             ++ destruct Hin as [[= ->]|Hin]; right; [by left|by right].
             ++ intros z [->|Hz]%elem_of_cons; [done|by apply Hmin].
             ++ intros ? [= <-]. lia.
          -- specialize (Hb b eq_refl). split_and!.
             ++ destruct Hin as [[= ->]|Hin]; [by left|right; by right].
             ++ intros z [->|Hz]%elem_of_cons; [lia|by apply Hmin].
             ++ by intros ? [= <-].
        * specialize (Hb x eq_refl). split_and!; [right; destruct Hin as [[= ->]|Hin]; [by left|by right]| |done].
          intros z [->|Hz]%elem_of_cons; [done|by apply Hmin].
      + destruct IH as [IH _]. exfalso. destruct best; simpl in IH; [by case_decide|done]. }
  specialize (H None). destruct (foldl min_step None l); [|by destruct H].
  destruct H as ([?|?] & ? & _); done.
Qed.

Lemma elem_of_candidates c load lf key o :
  (key, o) ∈ source_candidates c load lf ↔
  (lf = false ∨ key = load) ∧ ∃ r e a, loads c !! key = Some r ∧ e ∈ l_entries r ∧
    source e = Some a ∧ r_order e = o.
Proof.
  unfold source_candidates. rewrite list_elem_of_filter. simpl. f_equiv.
  rewrite list_elem_of_bind. split.
  - intros ([k r] & Hin & Hk). apply elem_of_map_to_list in Hk.
    apply list_elem_of_fmap in Hin as (e & [= -> ->] & He).
    apply list_elem_of_filter in He as [[a Ha] He]. by exists r, e, a.
  - intros (r & e & a & Hk & He & Ha & <-). exists (key, r).
    split; [|by apply elem_of_map_to_list]. apply list_elem_of_fmap. exists e. split; [done|].
    apply list_elem_of_filter. by rewrite Ha.
Qed.

Lemma update_first_split {A} (p : A → bool) (f : A → A) l1 x l2 :
  (∀ y, y ∈ l1 → p y = false) → p x = true → update_first p f (l1 ++ x :: l2) = l1 ++ f x :: l2.
Proof.
  intros Hl Hx. induction l1 as [|y l1 IH]; simpl; [by rewrite Hx|].
  rewrite (Hl y) by (by left). f_equal. apply IH. intros z Hz. apply Hl. by right.
Qed.

(** The candidate's entry is the only one with its order. *)
Lemma find_order c k r e :
  Ent c → loads c !! k = Some r → e ∈ l_entries r →
  ∃ l1 l2, l_entries r = l1 ++ e :: l2 ∧ (∀ y, y ∈ l1 → r_order y ≠ r_order e) ∧
    list_find (λ y, r_order y = r_order e) (l_entries r) = Some (length l1, e).
Proof.
  intros He Hk Hin. destruct (Ent_orders_split _ _ _ Hk He) as [Hnd _]. rewrite orders_pair in Hnd.
  apply NoDup_app in Hnd as (Hnd & _ & _).
  apply list_elem_of_split in Hin as (l1 & l2 & Hl). exists l1, l2. rewrite Hl in *.
  rewrite fmap_app, fmap_cons in Hnd. apply NoDup_app in Hnd as (_ & Hn & _).
  assert (∀ y, y ∈ l1 → r_order y ≠ r_order e) as Hne.
  { intros y Hy Heq. apply (Hn (r_order y)); [by apply list_elem_of_fmap_2|]. rewrite Heq. by left. }
  split_and!; [done|done|]. apply list_find_Some. rewrite list_lookup_middle by done.
  split_and!; [done|done|]. intros j y Hj Hjl. rewrite lookup_app_l in Hj by done.
  apply Hne. by eapply list_elem_of_lookup_2.
Qed.

(** What eviction leaves of a catalog's completions. *)
Definition same_completions (c c' : Catalog) : Prop :=
  ∀ k, (λ r, (through r, (λ e, (seq (entry e), loop_id (entry e), r_order e)) <$> l_entries r)) <$> (loads c !! k)
     = (λ r, (through r, (λ e, (seq (entry e), loop_id (entry e), r_order e)) <$> l_entries r)) <$> (loads c' !! k).

Lemma same_completions_refl c : same_completions c c.
Proof. done. Qed.
Lemma same_completions_trans c1 c2 c3 :
  same_completions c1 c2 → same_completions c2 c3 → same_completions c1 c3.
Proof. intros H1 H2 k. by rewrite (H1 k). Qed.

(** Expiring the source of one entry keeps the entries in order. *)
Lemma Ent_expire c key r l1 e l2 c1 :
  Ent c → loads c !! key = Some r → l_entries r = l1 ++ e :: l2 →
  loads c1 = <[key := mkLoad (through r) (l1 ++ expire e :: l2) (l_cell r)]> (loads c) →
  metadata_bytes c1 = metadata_bytes c → entries c1 = entries c → order c1 = order c → Ent c1.
Proof.
  intros He Hk Hl H1 H2 H3 H4. destruct (Ent_orders_split _ _ _ Hk He) as [Hnd Hle].
  eapply (Ent_replace c key r _ _ _ c1 Hk He); [|exact H1|exact H2|exact H3|..].
  - intros i x Hi. pose proof (ent_window _ He _ _ Hk) as Hw. unfold window_ok in Hw. rewrite Hl in Hw.
    simpl in *. rewrite !lenN_app, !lenN_cons in *. specialize (Hw i).
    apply lookup_app_Some in Hi as [Hi|[Hge Hi]]; [apply Hw; by apply lookup_app_l_Some|].
    rewrite lookup_app_r in Hw by done. destruct (i - length l1) eqn:E; simpl in Hi; [|by apply Hw].
    injection Hi as <-. simpl. by apply Hw.
  - simpl. rewrite Hl, !lenN_app, !lenN_cons. lia.
  - simpl. rewrite Hl, !fmap_app, !fmap_cons, !sum_app. simpl. lia.
  - by rewrite H4.
  - rewrite orders_pair in *. rewrite Hl in Hnd. simpl. rewrite fmap_app, fmap_cons in *. done.
  - rewrite H4. intros x Hx. simpl in Hx. apply elem_of_app in Hx as [Hx|[->|Hx]%elem_of_cons].
    + apply Hle. rewrite Hl. apply elem_of_app. by left.
    + change (r_order (expire e)) with (r_order e). apply Hle. rewrite Hl. apply elem_of_app. right. by left.
    + apply Hle. rewrite Hl. apply elem_of_app. right. by right.
Qed.

Lemma evict_source_spec lim c pins R load lf key o :
  limits_ok lim → CInv lim c pins R → (key, o) ∈ source_candidates c load lf →
  ∃ c', evict_source key o c = Some c' ∧ CInv lim c' pins R ∧ same_completions c c' ∧
    (∃ a, held (loads c) ≡ₚ a :: held (loads c')) ∧
    (∀ k, l_cell <$> (loads c' !! k) = l_cell <$> (loads c !! k)) ∧
    entries c' = entries c ∧ metadata_bytes c' = metadata_bytes c.
Proof.
  intros Hlim [Ha Hr He Hf] (_ & r & e & a & Hk & Hin & Hs & <-)%elem_of_candidates.
  destruct (find_order _ _ _ _ He Hk Hin) as (l1 & l2 & Hl & Hne & Hfind).
  unfold evict_source. rewrite Hk. cbn [mbind option_bind]. rewrite Hfind. cbn [mbind option_bind snd].
  rewrite Hs. cbn [mbind option_bind].
  rewrite Hl, update_first_split; [|intros y Hy; by apply bool_decide_eq_false_2, Hne|by apply bool_decide_eq_true_2].
  set (r' := mkLoad (through r) (l1 ++ expire e :: l2) (l_cell r)).
  set (c1 := set_loads (<[key:=r']> (loads c)) (metadata_bytes c) (entries c) c).
  assert (held (loads c) ≡ₚ a :: held (loads c1)) as Hheld.
  { simpl. rewrite (held_delete _ _ _ Hk), held_insert, Hl. simpl. rewrite !omap_app. simpl. rewrite Hs.
    solve_Permutation. }
  destruct (CInv_drop_refs lim c1 [a] pins R) as [HC Hframe]; [done|by apply (Acc_counters lim c)|..].
  - eapply Refs_perm; [|exact Hr]. by rewrite Hheld.
  - by eapply (Ent_expire c key r l1 e l2).
  - by apply (Fresh_replace c c1 key r r').
  - exists (drop_ref a c1). split; [done|]. split; [exact HC|]. simpl in Hframe.
    rewrite (frame_loads _ _ Hframe), (frame_entries _ _ Hframe), (frame_metadata _ _ Hframe).
    split_and!; [|by exists a| |done|done].
    + intros k. rewrite (frame_loads _ _ Hframe). simpl.
      destruct (decide (key = k)) as [<-|Hn]; [|by rewrite lookup_insert_ne].
      rewrite lookup_insert_eq, Hk. simpl. rewrite Hl, !fmap_app, !fmap_cons. done.
    + intros k. simpl. destruct (decide (key = k)) as [<-|Hn]; [|by rewrite lookup_insert_ne].
      by rewrite lookup_insert_eq, Hk.
Qed.

(** *** Reservations *)

Lemma sources_retained_held c : sources_retained c = length (held (loads c)).
Proof.
  unfold sources_retained, held, retained. induction (map_to_list (loads c)) as [|[k r] l IH]; [done|].
  cbn [mbind list_bind]. rewrite omap_app, !length_app, IH, omap_pair. f_equal.
  unfold with_source. induction (l_entries r) as [|e es IHe]; [done|]. rewrite filter_cons. simpl.
  destruct (source e); [rewrite decide_True by done|rewrite decide_False by (by intros [])]; simpl; by rewrite IHe.
Qed.

Lemma saturating_fits x b limit :
  (limit < usize_max)%N → ¬ (limit < saturating_add x b)%N → (x + b <= limit)%N.
Proof. unfold saturating_add. lia. Qed.

Lemma CInv_take lim c pins R load r b :
  limits_ok lim → CInv lim c pins R → loads c !! load = Some r →
  ¬ (sources_per_load lim <= (cell_of c (l_cell r)).2 ∨
     source_bytes_per_load lim < saturating_add (cell_of c (l_cell r)).1 b)%N →
  ¬ (max_sources lim <= source_count c ∨ all_source_bytes lim < saturating_add (source_bytes c) b)%N →
  CInv lim (take_charge (mkCharge b (l_cell r)) c) pins (mkCharge b (l_cell r) :: R).
Proof.
  intros Hlim [Ha Hr He Hf] Hk H1 H2. pose proof Hlim as (L1 & L2 & _ & _).
  apply Decidable.not_or in H1 as [H1 H1'], H2 as [H2 H2'].
  apply saturating_fits in H1', H2'; [|done..].
  pose proof Ha as [A1 A2 A3 A4 A5 A6]. rewrite A3 in H1, H1'. simpl in H1, H1'. rewrite A1, A2 in *.
  assert (∀ ch, heap (take_charge ch c) = heap c ∧ loads (take_charge ch c) = loads c ∧
    next_addr (take_charge ch c) = next_addr c) as Htc.
  { intros ch. unfold take_charge. by destruct (cell_of c (cell ch)). }
  destruct (Htc (mkCharge b (l_cell r))) as (T1 & T2 & T3).
  split.
  - unfold heap_charged. rewrite T1. eapply Acc_perm; [apply Permutation_middle|].
    apply Acc_take; [done|done| | | |]; cbn [bytes cell]; lia.
  - by rewrite T1, T2.
  - destruct He. unfold take_charge. destruct (cell_of c _). by split.
  - destruct Hf as [F1 F2 F3 F4]. split; rewrite ?T1, ?T2, ?T3; try done.
    intros ch Hch. rewrite <- Permutation_middle in Hch. apply elem_of_cons in Hch as [->|Hch].
    + by eapply F3.
    + by apply F2.
Qed.

Lemma reserve_loop_spec lim fuel load b c pins R :
  limits_ok lim → CInv lim c pins R → is_Some (loads c !! load) → (sources_retained c <= fuel)%nat →
  ∃ c' res, reserve_loop fuel lim load b c = Some (c', res) ∧ same_completions c c' ∧
    entries c' = entries c ∧ metadata_bytes c' = metadata_bytes c ∧
    match res with
    | Ok ch => bytes ch = b ∧ CInv lim c' pins (ch :: R)
    | Err e => e = ResourceLimit ∧ CInv lim c' pins R ∧
               ∃ full, source_candidates c' load full = []
    end.
Proof.
  intros Hlim. revert c. induction fuel as [|fuel IH]; intros c HC [r Hk] Hfuel;
    simpl; rewrite Hk; cbn [mbind option_bind];
    rewrite (surjective_pairing (cell_of c (l_cell r)));
    set (lf := bool_decide (sources_per_load lim <= _ ∨ _)%N);
    set (gf := bool_decide (max_sources lim <= _ ∨ _)%N);
    (destruct (negb lf && negb gf) eqn:Hfull;
     [apply andb_true_iff in Hfull as [Hlf Hgf];
      apply negb_true_iff in Hlf, Hgf; apply bool_decide_eq_false in Hlf, Hgf;
      eexists _, _; split; [reflexivity|];
      assert (∀ ch, loads (take_charge ch c) = loads c ∧ entries (take_charge ch c) = entries c ∧
        metadata_bytes (take_charge ch c) = metadata_bytes c) as Htc
        by (intros ch; unfold take_charge; by destruct (cell_of c (cell ch)));
      destruct (Htc (mkCharge b (l_cell r))) as (T1 & T2 & T3);
      split_and!; [intros k; by rewrite T1|done|done|done|by apply (CInv_take lim c pins R load)]|]);
    pose proof (min_by_order_spec (source_candidates c load lf)) as Hmin;
    destruct (min_by_order (source_candidates c load lf)) as [[key o]|];
    try (eexists _, _; split; [reflexivity|]; split_and!; [done..|by exists lf]);
    destruct Hmin as [Hin _];
    destruct (evict_source_spec lim c pins R load lf key o Hlim HC Hin)
      as (c1 & -> & HC1 & Hsame & (a & Hheld) & _ & He & Hm); cbn [mbind option_bind];
    rewrite sources_retained_held, Hheld in Hfuel; simpl in Hfuel.
  - lia.
  - destruct (IH c1) as (c' & res & Hrun & Hs' & He' & Hm' & Hres).
    + done.
    + specialize (Hsame load). rewrite Hk in Hsame. simpl in Hsame.
      destruct (loads c1 !! load); [by eexists|done].
    + rewrite sources_retained_held. lia.
    + exists c', res. split_and!; [done|by eapply same_completions_trans|congruence|congruence|done].
Qed.

Lemma drop_charge_loads ch c :
  loads (drop_charge ch c) = loads c ∧ heap (drop_charge ch c) = heap c.
Proof. unfold drop_charge. by destruct (cell_of c (cell ch)). Qed.

(** A reservation given up. *)
Lemma CInv_drop_charge lim c pins R ch :
  limits_ok lim → CInv lim c pins (ch :: R) → CInv lim (drop_charge ch c) pins R.
Proof.
  intros Hlim [Ha Hr He Hf]. destruct (drop_charge_frame ch c) as [Hframe Hh].
  split.
  - unfold heap_charged. rewrite Hh. apply Acc_drop; [done|].
    eapply Acc_perm; [|exact Ha]. symmetry. apply Permutation_middle.
  - by rewrite Hh, (frame_loads _ _ Hframe).
  - by eapply Ent_frame.
  - eapply (Fresh_frame c); [done|]. destruct Hf as [F1 F2 F3 F4]. split; try done.
    intros ch' Hch. apply F2. rewrite <- Permutation_middle. by right.
Qed.

Lemma CInv_finish lim c pins R ch b :
  limits_ok lim → CInv lim c pins (ch :: R) →
  match finish_reservation b ch c with
  | (c', Ok ch') => ch' = mkCharge b (cell ch) ∧ CInv lim c' pins (ch' :: R)
  | (c', Err e) => e = TooLarge ∧ (bytes ch < b)%N ∧ CInv lim c' pins R
  end.
Proof.
  intros Hlim HC. unfold finish_reservation. case_decide as Hb.
  { split_and!; [done|done|by apply CInv_drop_charge]. }
  destruct HC as [Ha Hr He Hf]. unfold heap_charged in Ha.
  apply (Acc_perm _ _ _ (ch :: (charges (heap c) ++ R))) in Ha; [|by rewrite Permutation_middle].
  pose proof (Acc_shrink lim c _ ch b Hlim Ha ltac:(lia)) as Hs.
  destruct (cell_of c (cell ch)) as [cb cn]. split; [done|]. split.
  - eapply Acc_perm; [|exact Hs]. apply Permutation_middle.
  - done.
  - destruct He. by split.
  - destruct Hf as [F1 F2 F3 F4]. split; try done.
    intros ch' Hch. rewrite <- Permutation_middle in Hch. apply elem_of_cons in Hch as [->|Hch].
    + simpl. apply (F2 ch). rewrite <- Permutation_middle. by left.
    + apply F2. rewrite <- Permutation_middle. by right.
Qed.

(** *** Insertion *)

Lemma Ent_push c c' k r e thr :
  Ent c → loads c !! k = Some r → thr = (through r + 1)%N → seq (entry e) = thr →
  r_order e = (order c + 1)%N →
  loads c' = <[k := mkLoad thr (l_entries r ++ [e]) (l_cell r)]> (loads c) →
  metadata_bytes c' = (metadata_bytes c + r_metadata_bytes e)%N → entries c' = (entries c + 1)%N →
  order c' = (order c + 1)%N → Ent c'.
Proof.
  intros He Hk -> Hseq Hord H1 H2 H3 H4. destruct (Ent_orders_split _ _ _ Hk He) as [Hnd Hle].
  eapply (Ent_replace c k r _ _ _ c' Hk He); [|exact H1|exact H2|exact H3|..].
  - intros i x Hi. simpl in *. rewrite lenN_app, lenN_cons, lenN_nil.
    apply lookup_app_Some in Hi as [Hi|[Hge Hi]].
    + pose proof (ent_window _ He _ _ Hk i x Hi). lia.
    + apply list_lookup_singleton_Some in Hi as [Hi <-]. unfold lenN. lia.
  - simpl. rewrite lenN_app, lenN_cons, lenN_nil. lia.
  - simpl. rewrite fmap_app, sum_app. simpl. lia.
  - lia.
  - rewrite orders_pair in *. simpl. rewrite fmap_app. simpl.
    rewrite <- app_assoc. cbn [app]. rewrite <- Permutation_middle. constructor; [|done].
    rewrite Hord, elem_of_app. intros [(x & Hx & Hin)%list_elem_of_fmap|Hin].
    + apply Hle in Hin. lia.
    + unfold orders_of in Hin. apply list_elem_of_fmap in Hin as (x & Hx & Hin).
      assert (r_order x.2 <= order c)%N; [|lia]. apply (ent_order _ He).
      rewrite (retained_delete _ _ _ Hk). apply elem_of_app. by right.
  - intros x Hx. simpl in Hx. rewrite H4. apply elem_of_app in Hx as [Hx|Hx].
    + apply Hle in Hx. lia.
    + apply list_elem_of_singleton in Hx as ->. lia.
Qed.

(** The charge of the source that becomes shared, if any. *)
Definition src_charge (src : option (SourceCharge * str)) : list SourceCharge := option_list (fst <$> src).

Lemma occ_push ls k r thr e pins a x :
  ls !! k = Some r → source e = Some a →
  occ x (held (<[k := mkLoad thr (l_entries r ++ [e]) (l_cell r)]> ls) ++ pins) =
  ((if decide (a = x) then 1 else 0) + occ x (held ls ++ pins))%N.
Proof.
  intros Hk Ha. rewrite held_insert. cbn [l_entries]. rewrite omap_app. simpl. rewrite Ha.
  rewrite <- !app_assoc. cbn [app]. rewrite <- Permutation_middle, occ_cons, app_assoc.
  by rewrite <- (held_delete _ _ _ Hk).
Qed.

Section insertion.
Context (metadata_size : CompletionEntry → N) (lim : ResultLimits).
Context (Hlim : limits_ok lim).

Lemma insert_entry_spec load ce src c pins R :
  CInv lim c pins (src_charge src ++ R) → is_Some (loads c !! load) →
  (order c < usize_max)%N → (∀ r, loads c !! load = Some r → (through r < usize_max)%N) →
  ∃ c', insert_entry metadata_size load ce src c = Some c' ∧ CInv lim c' pins R ∧
    is_Some (loads c' !! load) ∧
    ∀ k r', k ≠ load → loads c' !! k = Some r' → loads c !! k = Some r'.
Proof using Type.
  intros [Ha Hr He Hf] [r Hk] Ho Ht. specialize (Ht r Hk).
  unfold insert_entry.
  rewrite (proj2 (checked_add_Some (order c) 1 _)) by (split; [reflexivity|lia]). cbn [mbind option_bind].
  rewrite Hk. cbn [mbind option_bind].
  rewrite (proj2 (checked_add_Some (through r) 1 _)) by (split; [reflexivity|lia]). cbn [mbind option_bind].
  assert (heap c !! next_addr c = None) as Hfresh.
  { destruct (heap c !! next_addr c) as [s|] eqn:E; [|done]. apply (fresh_heap _ _ Hf) in E. lia. }
  destruct src as [[ch rid]|]; cbn [src_charge option_list fmap option_fmap option_map fst app] in *.
  - eexists. split; [reflexivity|]. split; [split|split].
    + unfold heap_charged. simpl. apply (Acc_counters lim c); [done..|].
      eapply Acc_perm; [|exact Ha]. rewrite charges_insert by done. simpl. by rewrite <- Permutation_middle.
    + intros a. cbn [loads heap]. rewrite (occ_push _ load r _ _ _ (next_addr c) a) by done.
      specialize (Hr a). destruct (decide (next_addr c = a)) as [<-|Hne].
      * rewrite lookup_insert_eq. rewrite Hfresh in Hr. rewrite Hr. simpl. lia.
      * rewrite lookup_insert_ne, N.add_0_l by done. by destruct (heap c !! a).
    + eapply (Ent_push c _ load r _ _ He Hk eq_refl); [| |reflexivity..]; done.
    + destruct Hf as [F1 F2 F3 F4]. split; simpl.
      * intros a s [[<- _]|[_ Hs]]%lookup_insert_Some; [lia|]. apply F1 in Hs. lia.
      * intros ch' Hch. rewrite charges_insert in Hch by done. simpl in Hch.
        rewrite Permutation_middle in Hch. apply F2 in Hch. lia.
      * intros k r1 [[<- <-]|[_ Hk']]%lookup_insert_Some; simpl; [apply F3 in Hk|apply F3 in Hk']; lia.
      * intros k1 k2 r1 r2 [[<- <-]|[_ Hk1]]%lookup_insert_Some [[<- <-]|[_ Hk2]]%lookup_insert_Some Heq;
          simpl in Heq; [done|by eapply F4|by eapply F4|by eapply F4].
    + simpl. rewrite lookup_insert_eq. eauto.
    + intros k r' Hne. simpl. by rewrite lookup_insert_ne.
  - eexists. split; [reflexivity|]. split; [split|split].
    + by apply (Acc_counters lim c).
    + eapply Refs_perm; [|exact Hr]. simpl. rewrite held_insert, (held_delete _ _ _ Hk). simpl.
      rewrite omap_app. simpl. by rewrite app_nil_r.
    + eapply (Ent_push c _ load r _ _ He Hk eq_refl); [| |reflexivity..]; done.
    + eapply (Fresh_replace c _ load r); [exact Hk| |exact Hf|reflexivity..]; reflexivity.
    + simpl. rewrite lookup_insert_eq. eauto.
    + intros k r' Hne. simpl. by rewrite lookup_insert_ne.
Qed.
End insertion.

Section eviction.
Context (lim : ResultLimits).

Lemma pop_front_spec c pins R key r e rest :
  CInv lim c pins R → loads c !! key = Some r → l_entries r = e :: rest →
  ∃ c', pop_front key c = Some (e, c') ∧ CInv lim c' (option_list (source e) ++ pins) R ∧
    loads c' = <[key := mkLoad (through r) rest (l_cell r)]> (loads c) ∧
    retained (loads c) ≡ₚ (key, e) :: retained (loads c').
Proof using Type.
  intros [Ha Hr He Hf] Hk Hl. unfold pop_front. rewrite Hk. cbn [mbind option_bind]. rewrite Hl.
  eexists. split; [reflexivity|].
  assert (retained (loads c) ≡ₚ
    (key, e) :: retained (<[key := mkLoad (through r) rest (l_cell r)]> (loads c))) as Hret.
  { by rewrite retained_insert, (retained_delete _ _ _ Hk), Hl. }
  split_and!; [|done|exact Hret]. split.
  - by apply (Acc_counters lim c).
  - eapply Refs_perm; [|exact Hr]. simpl. unfold held. rewrite Hret. simpl.
    destruct (source e); [|done]. simpl. apply Permutation_middle.
  - destruct (Ent_orders_split _ _ _ Hk He) as [Hnd Hle]. rewrite Hl in *.
    pose proof (ent_entries _ He) as H1. pose proof (ent_metadata _ He) as H2.
    rewrite Hret in H1. rewrite lenN_cons in H1.
    change (metadata_bytes c = metadata_of (retained (loads c))) in H2. rewrite Hret in H2.
    change (metadata_bytes c = r_metadata_bytes e + metadata_of (retained
      (<[key := mkLoad (through r) rest (l_cell r)]> (loads c))))%N in H2.
    eapply (Ent_replace c key r _ _ _ _ Hk He); [|reflexivity..|cbn [l_entries]|cbn [l_entries]| |cbn [l_entries]|].
    + intros i x Hi. pose proof (ent_window _ He _ _ Hk (S i) x) as Hw. rewrite Hl in Hw.
      specialize (Hw Hi). simpl in *. rewrite lenN_cons in Hw. lia.
    + simpl. rewrite Hl, lenN_cons. lia.
    + rewrite Hl. cbn [metadata_bytes set_loads].
      change (sum (r_metadata_bytes <$> e :: rest)) with (r_metadata_bytes e + sum (r_metadata_bytes <$> rest))%N.
      lia.
    + done.
    + rewrite orders_pair in *. simpl in *. by apply NoDup_cons in Hnd as [_ ?].
    + intros x Hx. apply Hle. by right.
  - eapply (Fresh_replace c _ key r); [exact Hk| |exact Hf|reflexivity..]; reflexivity.
Qed.

Lemma entries_retained_length c : entries_retained c = length (retained (loads c)).
Proof using Type.
  unfold entries_retained, retained. induction (map_to_list (loads c)) as [|[k r] l IH]; [done|].
  cbn [mbind list_bind]. by rewrite !length_app, IH, length_fmap.
Qed.

Lemma front_candidates_elem c k o :
  (k, o) ∈ front_candidates c → ∃ r e rest, loads c !! k = Some r ∧ l_entries r = e :: rest ∧ o = r_order e.
Proof using Type.
  unfold front_candidates. rewrite list_elem_of_bind. intros ([k' r] & Hin & Hk).
  apply elem_of_map_to_list in Hk. destruct (l_entries r) as [|e rest] eqn:E.
  - by apply not_elem_of_nil in Hin.
  - apply list_elem_of_singleton in Hin as [= -> ->]. by exists r, e, rest.
Qed.

Lemma front_candidates_ne c : retained (loads c) ≠ [] → front_candidates c ≠ [].
Proof using Type.
  intros Hne Hnil. apply Hne. unfold retained, front_candidates in *.
  induction (map_to_list (loads c)) as [|[k r] l IH]; [done|]. cbn [mbind list_bind] in *.
  destruct (l_entries r); [|done]. by apply IH.
Qed.

(** Whatever must leave has a first entry to leave. *)
Lemma evict_candidate c pins R load r :
  CInv lim c pins R → loads c !! load = Some r →
  let local_full := bool_decide (entries_per_load lim < lenN (l_entries r))%N in
  negb local_full && bool_decide (entries c <= max_entries lim)%N &&
    bool_decide (metadata_bytes c <= max_metadata_bytes lim)%N = false →
  ∃ key r' e rest, (if local_full then Some load else fst <$> min_by_order (front_candidates c)) = Some key ∧
    loads c !! key = Some r' ∧ l_entries r' = e :: rest.
Proof using Type.
  intros [_ _ He _] Hk lf Hcond. unfold lf in *. case_bool_decide as Hlf.
  - destruct (l_entries r) as [|e rest] eqn:E; [unfold lenN in Hlf; simpl in Hlf; lia|].
    by exists load, r, e, rest.
  - assert (retained (loads c) ≠ []) as Hne.
    { intros Hnil. pose proof (ent_entries _ He) as H1. pose proof (ent_metadata _ He) as H2.
      rewrite Hnil in H1, H2. simpl in Hcond. rewrite H1, H2 in Hcond.
      rewrite !bool_decide_eq_true_2 in Hcond by (unfold lenN; simpl; lia). done. }
    apply front_candidates_ne in Hne. pose proof (min_by_order_spec (front_candidates c)) as Hmin.
    destruct (min_by_order (front_candidates c)) as [[key o]|]; [|done].
    destruct Hmin as [(r' & e & rest & H1 & H2 & _)%front_candidates_elem _]. by exists key, r', e, rest.
Qed.

Lemma evict_loop_spec fuel load c released pins R :
  CInv lim c (released ++ pins) R → is_Some (loads c !! load) →
  (length (retained (loads c)) <= fuel)%nat →
  (∀ k r, k ≠ load → loads c !! k = Some r → (lenN (l_entries r) <= entries_per_load lim)%N) →
  ∃ c' released', evict_loop fuel lim load c released = Some (c', released') ∧
    CInv lim c' (released' ++ pins) R ∧ Bounded lim c'.
Proof using Type.
  revert c released. induction fuel as [|fuel IH]; intros c released HC [r Hk] Hfuel Hother;
    cbn [evict_loop]; rewrite Hk; cbn [mbind option_bind];
    (destruct (negb _ && _ && _) eqn:Hcond;
     [rewrite !andb_true_iff, negb_true_iff in Hcond; destruct Hcond as [[H1 H2] H3];
      apply bool_decide_eq_false in H1; apply bool_decide_eq_true in H2, H3;
      exists c, released; split_and!; [done|done|]; split; [|done|done];
      intros k r' Hk'; destruct (decide (k = load)) as [->|Hne];
      [rewrite Hk in Hk'; injection Hk' as <-; lia|by eapply Hother]|]);
    destruct (evict_candidate c _ R load r HC Hk Hcond) as (key & r' & e & rest & -> & Hkey & Hl);
    cbn [mbind option_bind];
    destruct (pop_front_spec c _ R key r' e rest HC Hkey Hl) as (c1 & -> & HC1 & Hloads & Hret);
    cbn [mbind option_bind]; rewrite Hret in Hfuel; simpl in Hfuel; [lia|].
  apply IH.
  - destruct HC1 as [A1 A2 A3 A4]. split; try done. eapply Refs_perm; [|exact A2].
    solve_Permutation.
  - rewrite Hloads. destruct (decide (key = load)) as [->|Hne];
      [by rewrite lookup_insert_eq|rewrite lookup_insert_ne by done; by exists r].
  - lia.
  - intros k r1 Hne Hk1. rewrite Hloads in Hk1. apply lookup_insert_Some in Hk1 as [[<- <-]|[_ Hk1]].
    + simpl. specialize (Hother key r' Hne Hkey). rewrite Hl, lenN_cons in Hother. lia.
    + by eapply Hother.
Qed.
End eviction.

(** ** The catalog under its callers *)

Record CState := mkCState { cat : Catalog; pins : list N; reserved : list SourceCharge }.

Section callers.
Context (metadata_size : CompletionEntry → N) (lim : ResultLimits).

(** What sessions and readers do: the references they hold are [pins], the
    reservations under way [reserved]. *)
Inductive cstep : CState → CState → Prop :=
  | cstep_register c ps R k :
      loads c !! k = None → cstep (mkCState c ps R) (mkCState (register k c) ps R)
  | cstep_remove c ps R k : cstep (mkCState c ps R) (mkCState (remove k c) ps R)
  | cstep_reserve c ps R load b c' ch :
      reserve lim load b c = Some (c', Ok ch) → cstep (mkCState c ps R) (mkCState c' ps (ch :: R))
  | cstep_reserve_refused c ps R load b c' e :
      reserve lim load b c = Some (c', Err e) → cstep (mkCState c ps R) (mkCState c' ps R)
  | cstep_finish c ps R1 ch R2 b c' ch' :
      finish_reservation b ch c = (c', Ok ch') →
      cstep (mkCState c ps (R1 ++ ch :: R2)) (mkCState c' ps (R1 ++ ch' :: R2))
  | cstep_finish_refused c ps R1 ch R2 b c' e :
      finish_reservation b ch c = (c', Err e) →
      cstep (mkCState c ps (R1 ++ ch :: R2)) (mkCState c' ps (R1 ++ R2))
  | cstep_give_up c ps R1 ch R2 :
      cstep (mkCState c ps (R1 ++ ch :: R2)) (mkCState (drop_charge ch c) ps (R1 ++ R2))
  | cstep_insert c ps R R' load ce src c' released :
      R ≡ₚ src_charge src ++ R' →
      insert metadata_size lim load ce src c = Some (c', released) →
      cstep (mkCState c ps R) (mkCState c' (released ++ ps) R')
  | cstep_lookup c ps R load loop c' ce o :
      lookup_result load loop c = (c', Some (ce, o)) →
      cstep (mkCState c ps R) (mkCState c' (option_list o ++ ps) R)
  | cstep_release c p1 a p2 R :
      cstep (mkCState c (p1 ++ a :: p2) R) (mkCState (drop_ref a c) (p1 ++ p2) R).

Inductive creach : CState → Prop :=
  | creach_new : creach (mkCState Catalog_new [] [])
  | creach_step y y' : creach y → cstep y y' → creach y'.

Definition CS (y : CState) : Prop := CInv lim (cat y) (pins y) (reserved y) ∧ Bounded lim (cat y).

Context (Hlim : limits_ok lim).

Lemma CInv_perm c ps ps' R R' : ps ≡ₚ ps' → R ≡ₚ R' → CInv lim c ps R → CInv lim c ps' R'.
Proof using Type.
  intros Hp HR [A1 A2 A3 [F1 F2 F3 F4]]. split; [|by eapply Refs_perm; [|exact A2]; rewrite Hp|done|].
  - eapply Acc_perm; [|exact A1]. by rewrite HR.
  - split; try done. intros ch. rewrite <- HR. apply F2.
Qed.

Lemma Bounded_same c c' :
  same_completions c c' → entries c' = entries c → metadata_bytes c' = metadata_bytes c →
  Bounded lim c → Bounded lim c'.
Proof using Type.
  intros Hs He Hm [B1 B2 B3]. split; [|by rewrite He|by rewrite Hm].
  intros k r Hk. specialize (Hs k). rewrite Hk in Hs. simpl in Hs.
  destruct (loads c !! k) as [r0|] eqn:Hk0; [|done]. injection Hs as _ Hs.
  apply (f_equal lenN) in Hs. rewrite !lenN_fmap in Hs. rewrite <- Hs. by eapply B1.
Qed.

Lemma reserve_spec c ps R load b c' res :
  CInv lim c ps R → reserve lim load b c = Some (c', res) →
  same_completions c c' ∧ entries c' = entries c ∧ metadata_bytes c' = metadata_bytes c ∧
  match res with
  | Ok ch => bytes ch = b ∧ CInv lim c' ps (ch :: R)
  | Err _ => CInv lim c' ps R
  end.
Proof using Hlim.
  intros HC. unfold reserve. case_decide as Hb; [by intros [= <- <-]|]. intros Hr.
  destruct (loads c !! load) as [r|] eqn:Hk.
  2:{ destruct (sources_retained c); simpl in Hr; by rewrite Hk in Hr. }
  destruct (reserve_loop_spec lim (sources_retained c) load b c ps R Hlim HC)
    as (c1 & res1 & Hr1 & Hs & He & Hm & Hres); [by eexists|done|].
  rewrite Hr1 in Hr. injection Hr as <- <-. split_and!; [done..|].
  destruct res1; [done|]. by destruct Hres as (_ & ? & _).
Qed.

Lemma insert_spec load ce src c ps R c' released :
  CInv lim c ps (src_charge src ++ R) → Bounded lim c →
  insert metadata_size lim load ce src c = Some (c', released) →
  CInv lim c' (released ++ ps) R ∧ Bounded lim c'.
Proof using Type.
  intros HC HB Hi. unfold insert in Hi.
  destruct (insert_entry metadata_size load ce src c) as [c1|] eqn:E1; [|done]. cbn [mbind option_bind] in Hi.
  assert (is_Some (loads c !! load) ∧ (order c < usize_max)%N ∧
    ∀ r, loads c !! load = Some r → (through r < usize_max)%N) as (Hk & Ho & Ht).
  { unfold insert_entry in E1. destruct (checked_add (order c) 1) eqn:Eo; [|done].
    apply checked_add_Some in Eo as [_ Eo]. cbn [mbind option_bind] in E1.
    destruct (loads c !! load) as [r|] eqn:Hk; [|done]. cbn [mbind option_bind] in E1.
    destruct (checked_add (through r) 1) eqn:Et; [|done]. apply checked_add_Some in Et as [_ Et].
    split_and!; [by eexists|lia|]. intros r' [= <-]. lia. }
  destruct (insert_entry_spec metadata_size lim load ce src c ps R HC Hk Ho Ht)
    as (c2 & E2 & HC2 & Hk2 & Hother).
  rewrite E1 in E2. injection E2 as <-.
  destruct (evict_loop_spec lim (entries_retained c1) load c1 [] ps R)
    as (c3 & rel & E3 & HC3 & HB3); [done|done|by rewrite entries_retained_length| |].
  - intros k r Hne Hkr. apply (b_load _ _ HB k). by apply Hother.
  - rewrite E3 in Hi. by injection Hi as <- <-.
Qed.

Lemma lookup_result_spec c ps R load loop c' ce o :
  CInv lim c ps R → lookup_result load loop c = (c', Some (ce, o)) →
  CInv lim c' (option_list o ++ ps) R ∧ frame c c'.
Proof using Type.
  intros HC Hl. unfold lookup_result in Hl.
  destruct (loads c !! load ≫= _) as [[i e]|] eqn:E; [|done].
  destruct (loads c !! load) as [r|] eqn:Hk; [|done]. simpl in E.
  apply list_find_Some in E as (Hi & _ & _). destruct (source e) as [a|] eqn:Ea; injection Hl as <- <- <-.
  - destruct HC as [A1 A2 A3 A4].
    assert (a ∈ held (loads c) ++ ps) as Hin.
    { apply elem_of_app. left. rewrite (held_delete _ _ _ Hk). apply elem_of_app. left.
      apply list_elem_of_omap. exists e. split; [|done]. by eapply list_elem_of_lookup_2. }
    destruct (clone_ref_spec lim c a _ R A1 A2 Hin) as (B1 & B2 & B3). split; [|done].
    split; [done| |by eapply Ent_frame|by eapply Fresh_frame].
    rewrite (frame_loads _ _ B3). eapply Refs_perm; [|exact B2]. simpl. by rewrite Permutation_middle.
  - split; [done|apply frame_refl].
Qed.

Lemma Bounded_remove c k : Ent c → Bounded lim c → Bounded lim (remove k c).
Proof using Type.
  intros He [B1 B2 B3]. unfold remove. destruct (loads c !! k) as [r|] eqn:Hk; [|done].
  set (c1 := set_loads _ _ _ c).
  assert (∀ addrs, frame c1 (drop_refs addrs c1)) as Hf.
  { induction addrs as [|a addrs IH]; [apply frame_refl|]. simpl. eapply frame_trans; [exact IH|].
    apply drop_ref_frame. }
  eapply Bounded_frame; [apply Hf|]. split; simpl; [|lia|lia].
  intros k' r' [_ Hk']%lookup_delete_Some. by eapply B1.
Qed.

Lemma CInv_focus c ps R1 ch R2 : CInv lim c ps (R1 ++ ch :: R2) → CInv lim c ps (ch :: R1 ++ R2).
Proof using Type. apply CInv_perm; [done|]. symmetry. apply Permutation_middle. Qed.

Lemma finish_bounded b ch c : Bounded lim c → Bounded lim (finish_reservation b ch c).1.
Proof using Type.
  intros [B1 B2 B3]. unfold finish_reservation, drop_charge. destruct (cell_of c (cell ch)).
  case_decide; by split.
Qed.

Lemma CS_step y y' : cstep y y' → CS y → CS y'.
Proof using Hlim.
  intros Hst [HC HB]. destruct Hst as [c ps R k Hk|c ps R k|c ps R load b c' ch Hr|c ps R load b c' e Hr
    |c ps R1 ch R2 b c' ch' Hf|c ps R1 ch R2 b c' e Hf|c ps R1 ch R2|c ps R R' load ce src c' rel HR Hi
    |c ps R load loop c' ce o Hl|c p1 a p2 R]; unfold CS; cbn [cat pins reserved] in *.
  - split; [by apply CInv_register|]. destruct HB as [B1 B2 B3]. split; try done.
    intros k' r Hk'. simpl in Hk'.
    apply lookup_insert_Some in Hk' as [[<- <-]|[_ Hk']]; [unfold lenN; simpl; lia|by eapply B1].
  - split; [by apply CInv_remove|]. apply Bounded_remove; [|done]. apply HC.
  - destruct (reserve_spec _ _ _ _ _ _ _ HC Hr) as (H1 & H2 & H3 & _ & H4).
    split; [done|by eapply Bounded_same].
  - destruct (reserve_spec _ _ _ _ _ _ _ HC Hr) as (H1 & H2 & H3 & H4).
    split; [done|by eapply Bounded_same].
  - apply CInv_focus in HC. pose proof (CInv_finish lim c ps _ ch b Hlim HC) as Hfin.
    pose proof (finish_bounded b ch c HB) as HB'. rewrite Hf in Hfin, HB'. destruct Hfin as [_ HC'].
    split; [|done]. eapply CInv_perm; [done|apply Permutation_middle|done].
  - apply CInv_focus in HC. pose proof (CInv_finish lim c ps _ ch b Hlim HC) as Hfin.
    pose proof (finish_bounded b ch c HB) as HB'. rewrite Hf in Hfin, HB'. by destruct Hfin as (_ & _ & HC').
  - apply CInv_focus in HC. split; [by apply CInv_drop_charge|].
    eapply Bounded_frame; [apply drop_charge_frame|done].
  - eapply (insert_spec load ce src c ps R'); [|done..]. by eapply CInv_perm; [| |exact HC].
  - destruct (lookup_result_spec _ _ _ _ _ _ _ _ HC Hl) as [H1 H2].
    split; [done|by eapply Bounded_frame].
  - destruct HC as [A1 A2 A3 A4].
    destruct (drop_ref_spec lim c a (held (loads c) ++ p1 ++ p2) R Hlim A1) as (H1 & H2 & H3).
    { eapply Refs_perm; [|exact A2]. rewrite !app_assoc. symmetry. apply Permutation_middle. }
    split; [split; [done|by rewrite (frame_loads _ _ H3)|by eapply Ent_frame|by eapply Fresh_frame]|].
    by eapply Bounded_frame.
Qed.

Lemma CInv_new : CInv lim Catalog_new [] [].
Proof using Hlim.
  destruct Hlim as (L1 & L2 & L3 & L4).
  assert (∀ {A} k (x : A), (∅ : gmap N A) !! k = Some x → False) as Hno by (intros ????; by rewrite lookup_empty in *).
  split; [split|intros a|split|split].
  all: try done; try (intros; exfalso; by eapply Hno).
  all: try exact (N.le_0_l _); try (intros; split; exact (N.le_0_l _)).
  all: try (intros ?; by intros ?%not_elem_of_nil).
  constructor.
Qed.

Lemma creach_CS y : creach y → CS y.
Proof using Hlim.
  induction 1 as [|y y' _ IH Hst]; [|by eapply CS_step].
  split; [apply CInv_new|]. split; simpl; [|lia|lia]. intros ? ? H. by rewrite lookup_empty in H.
Qed.
End callers.

(** ** What callers can rely on *)

(** C13 The catalog's four counters are exact in every reachable state: the shared
    byte and source counters and each load's own are the sums over the sources
    alive and the reservations under way, and the entry and descriptor counts are
    those of the retained completions. *)
Theorem catalog_accounts metadata_size lim y :
  limits_ok lim → creach metadata_size lim y →
  let c := cat y in
  let live := charges (heap c) ++ reserved y in
  source_bytes c = total live ∧ source_count c = lenN live ∧
  (∀ k r, loads c !! k = Some r → cell_of c (l_cell r) = (total (in_cell (l_cell r) live), lenN (in_cell (l_cell r) live))) ∧
  entries c = lenN (retained (loads c)) ∧
  metadata_bytes c = sum ((λ x, r_metadata_bytes x.2) <$> retained (loads c)).
Proof.
  intros Hlim Hy. destruct (creach_CS _ _ Hlim _ Hy) as [[[A1 A2 A3 _ _ _] _ [E1 E2 _ _ _] _] _].
  split_and!; done.
Qed.

(** The limits hold in every reachable state: bytes and number of sources over
    the process and for each load, and entries and descriptor bytes. *)
Theorem catalog_limits metadata_size lim y :
  limits_ok lim → creach metadata_size lim y →
  let c := cat y in
  (source_bytes c <= all_source_bytes lim)%N ∧ (source_count c <= max_sources lim)%N ∧
  (entries c <= max_entries lim)%N ∧ (metadata_bytes c <= max_metadata_bytes lim)%N ∧
  ∀ k r, loads c !! k = Some r →
    ((cell_of c (l_cell r)).1 <= source_bytes_per_load lim)%N ∧
    ((cell_of c (l_cell r)).2 <= sources_per_load lim)%N ∧
    (lenN (l_entries r) <= entries_per_load lim)%N.
Proof.
  intros Hlim Hy. destruct (creach_CS _ _ Hlim _ Hy) as [[[A1 A2 A3 A4 A5 A6] _ _ _] [B1 B2 B3]].
  cbv zeta. rewrite A1, A2. split_and!; [done..|]. intros k r Hk. rewrite A3. simpl.
  split_and!; [apply A6|apply A6|by eapply B1].
Qed.

(** A load's window is the last of its completions without a gap: the entries
    number [retained_from_seq] to [through_seq], and the window says it is
    truncated exactly when the first completion is no longer in it. *)
Theorem catalog_windows metadata_size lim y k r :
  limits_ok lim → creach metadata_size lim y → loads (cat y) !! k = Some r →
  let w := window k (cat y) in
  through_seq w = through r ∧
  (retained_from_seq w + lenN (window_entries w) = through_seq w + 1)%N ∧
  (∀ i e, window_entries w !! i = Some e → seq e = (retained_from_seq w + N.of_nat i)%N) ∧
  (truncated w = false ↔ (lenN (window_entries w) >= through_seq w)%N).
Proof.
  intros Hlim Hy Hk. destruct (creach_CS _ _ Hlim _ Hy) as [[_ _ He _] _].
  pose proof (ent_window _ He _ _ Hk) as Hw. unfold window. rewrite Hk. simpl.
  assert (match l_entries r with [] => (through r + 1)%N | e :: _ => seq (entry e) end + lenN (l_entries r)
          = through r + 1)%N as Hfrom.
  { destruct (l_entries r) as [|e es] eqn:E; [unfold lenN; simpl; lia|].
    specialize (Hw 0 e). rewrite E in Hw. specialize (Hw eq_refl). lia. }
  rewrite lenN_fmap. split_and!; [done|done| |].
  - intros i e' (e & -> & Hi)%list_lookup_fmap_Some_1. specialize (Hw i e Hi). lia.
  - rewrite bool_decide_eq_false. lia.
Qed.

(** A reader's source outlives its eviction and the removal of its load: it is
    alive as long as someone holds a reference, its count is the number of
    references, and a source nobody refers to is gone with its charge. *)
Theorem pinned_source_alive metadata_size lim y a :
  limits_ok lim → creach metadata_size lim y →
  let refs_to := (occ a (held (loads (cat y))) + occ a (pins y))%N in
  (a ∈ pins y → ∃ s, heap (cat y) !! a = Some s ∧ refs s = refs_to ∧
     (bytes (charge s) <= source_bytes (cat y))%N) ∧
  (refs_to = 0%N → heap (cat y) !! a = None).
Proof.
  intros Hlim Hy. destruct (creach_CS _ _ Hlim _ Hy) as [[[A1 _ _ _ _ _] Hr _ _] _].
  specialize (Hr a). rewrite occ_app in Hr. cbv zeta. split.
  - intros Hin. assert (occ a (pins y) ≠ 0%N) by (by rewrite occ_0; intros ?).
    destruct (heap (cat y) !! a) as [s|] eqn:Es; [|lia]. exists s. split_and!; [done|apply Hr|].
    rewrite A1, (charges_delete _ _ _ Es). simpl. rewrite total_cons. lia.
  - intros H0. destruct (heap (cat y) !! a); [lia|done].
Qed.

(** Reserving a source for a registered load always answers, in at most as many
    evictions as sources are retained; it never forgets a completion, gives the
    charge that was asked for, refuses as too large exactly what exceeds the load's
    limit, and refuses for want of room only when no source is left to evict. *)
Theorem reserve_total metadata_size lim y load b :
  limits_ok lim → creach metadata_size lim y → is_Some (loads (cat y) !! load) →
  ∃ c' res, reserve lim load b (cat y) = Some (c', res) ∧ same_completions (cat y) c' ∧
    (res = Err TooLarge ↔ (source_bytes_per_load lim < b)%N) ∧
    match res with
    | Ok ch => bytes ch = b
    | Err e => e = TooLarge ∨ e = ResourceLimit ∧ ∃ full, source_candidates c' load full = []
    end.
Proof.
  intros Hlim Hy Hk. destruct (creach_CS _ _ Hlim _ Hy) as [HC _]. unfold reserve. case_decide as Hb.
  { eexists _, _. split; [reflexivity|]. split_and!; [done|done|by left]. }
  destruct (reserve_loop_spec lim (sources_retained (cat y)) load b (cat y) (pins y) (reserved y) Hlim HC Hk)
    as (c' & res & -> & Hs & _ & _ & Hres); [done|].
  exists c', res. destruct res as [ch|e]; split_and!; try done.
  - by destruct Hres.
  - destruct Hres as (-> & _ & _). done.
  - destruct Hres as (-> & _ & ?). by right.
Qed.

(** Inserting a completion for a registered load whose counters have room always
    returns with every limit kept, evicting at most what is retained. *)
Theorem insert_total metadata_size lim y load r ce src R :
  limits_ok lim → creach metadata_size lim y → loads (cat y) !! load = Some r →
  (order (cat y) < usize_max)%N → (through r < usize_max)%N →
  reserved y ≡ₚ src_charge src ++ R →
  ∃ c' released, insert metadata_size lim load ce src (cat y) = Some (c', released) ∧
    Bounded lim c' ∧ creach metadata_size lim (mkCState c' (released ++ pins y) R).
Proof.
  intros Hlim Hy Hk Ho Ht HR. destruct (creach_CS _ _ Hlim _ Hy) as [HC HB].
  destruct (insert_entry_spec metadata_size lim load ce src (cat y) (pins y) R)
    as (c1 & E1 & HC1 & Hk1 & Hother).
  { by eapply CInv_perm; [| |exact HC]. }
  { by eexists. }
  { done. }
  { intros r' Hr'. rewrite Hk in Hr'. by injection Hr' as <-. }
  destruct (evict_loop_spec lim (entries_retained c1) load c1 [] (pins y) R)
    as (c' & rel & E2 & HC2 & HB2); [done|done|by rewrite entries_retained_length| |].
  { intros k r' Hne Hkr. apply (b_load _ _ HB k). by apply Hother. }
  assert (insert metadata_size lim load ce src (cat y) = Some (c', rel)) as Hi.
  { unfold insert. rewrite E1. exact E2. }
  exists c', rel. split_and!; [done|done|]. destruct y as [c ps Rs].
  eapply creach_step; [exact Hy|]. by eapply cstep_insert.
Qed.

(** ** A run of the catalog *)

Definition small_limits : ResultLimits := mkLimits 2 3 1000 100 1 150 2.
Definition small_size (_ : CompletionEntry) : N := 10%N.
Definition sample_completion (loop : N) : CompletionEntry :=
  mkCompletion 0 loop None Reported (Some OutCompleted) (Some Persisted) false Live None None.

(** A load with one completion whose source a reader holds while a second
    reservation evicts it in vain. *)
Definition sample_registered : Catalog := register 1 Catalog_new.
Definition sample_reserved : Catalog * list SourceCharge :=
  match reserve small_limits 1 60 sample_registered with
  | Some (c, Ok ch) => (c, [ch])
  | _ => (sample_registered, [])
  end.
Definition sample_finished : Catalog * list SourceCharge :=
  match sample_reserved with
  | (c, ch :: _) => match finish_reservation 50 ch c with (c', Ok ch') => (c', [ch']) | (c', _) => (c', []) end
  | x => x
  end.
Definition sample_source : option (SourceCharge * str) :=
  match sample_finished.2 with ch :: _ => Some (ch, lit "r1") | [] => None end.
Definition sample_inserted : Catalog * list N :=
  match insert small_size small_limits 1 (sample_completion 7) sample_source sample_finished.1 with
  | Some x => x
  | None => (sample_registered, [])
  end.
Definition sample_read : Catalog := (lookup_result 1 7 sample_inserted.1).1.
Definition sample_evicted : Catalog :=
  match reserve small_limits 1 60 sample_read with
  | Some (c, _) => c
  | None => sample_registered
  end.

Lemma small_limits_ok : limits_ok small_limits.
Proof. by_compute. Qed.

Lemma sample_reach_finished :
  creach small_size small_limits (mkCState sample_finished.1 [] (src_charge sample_source)).
Proof.
  assert (creach small_size small_limits (mkCState sample_reserved.1 [] sample_reserved.2)) as H.
  { eapply creach_step; [eapply creach_step; [apply creach_new|by apply (cstep_register _ _ _ [] [] 1)]|].
    eapply (cstep_reserve _ _ _ _ _ 1 60). by vm_compute. }
  eapply creach_step; [exact H|].
  apply (cstep_finish small_size small_limits sample_reserved.1 [] [] (mkCharge 60 0) [] 50
    sample_finished.1 (mkCharge 50 0)). by vm_compute.
Qed.

Lemma sample_reach : creach small_size small_limits (mkCState sample_evicted [1%N] []).
Proof.
  eapply creach_step; [eapply creach_step; [eapply creach_step; [exact sample_reach_finished|]|]|].
  - apply (cstep_insert small_size small_limits sample_finished.1 [] _ [] 1 (sample_completion 7)
      sample_source sample_inserted.1 []); [done|by vm_compute].
  - apply (cstep_lookup small_size small_limits sample_inserted.1 [] [] 1 7 sample_read
      (mkCompletion 1 7 None Reported (Some OutCompleted) (Some Persisted) false Live None None) (Some 1%N)).
    by vm_compute.
  - apply (cstep_reserve_refused small_size small_limits sample_read [1%N] [] 1 60 sample_evicted ResourceLimit).
    by vm_compute.
Qed.

Lemma sample_load : is_Some (loads sample_evicted !! 1%N).
Proof. vm_compute. eauto. Qed.

Lemma catalog_accounts_witness :
  source_bytes sample_evicted = 50%N ∧ source_bytes sample_evicted = total (charges (heap sample_evicted) ++ []).
Proof.
  split; [by vm_compute|].
  destruct (catalog_accounts small_size small_limits (mkCState sample_evicted [1%N] []) small_limits_ok sample_reach) as (H & _). exact H.
Defined.

Lemma catalog_limits_witness :
  (source_bytes sample_evicted <= 150)%N ∧ source_count sample_evicted = 1%N.
Proof.
  split; [|by vm_compute].
  destruct (catalog_limits small_size small_limits (mkCState sample_evicted [1%N] []) small_limits_ok sample_reach) as (H & _). exact H.
Defined.

Lemma catalog_windows_witness :
  ∃ r, loads sample_evicted !! 1%N = Some r ∧
    (retained_from_seq (window 1 sample_evicted) + lenN (window_entries (window 1 sample_evicted)) = through r + 1)%N.
Proof.
  destruct sample_load as [r Hr]. exists r. split; [exact Hr|].
  destruct (catalog_windows small_size small_limits (mkCState sample_evicted [1%N] []) 1 r
    small_limits_ok sample_reach Hr) as (H1 & H2 & _). rewrite <- H1. exact H2.
Defined.

Lemma pinned_source_alive_witness :
  held (loads sample_evicted) = [] ∧ is_Some (heap sample_evicted !! 1%N).
Proof.
  split; [by vm_compute|].
  destruct (pinned_source_alive small_size small_limits (mkCState sample_evicted [1%N] []) 1
    small_limits_ok sample_reach) as [H _].
  destruct H as (s & Hs & _); [by left|]. exists s. exact Hs.
Defined.

Lemma reserve_total_witness :
  ∃ c' res, reserve small_limits 1 100 sample_evicted = Some (c', res) ∧ res = Err ResourceLimit.
Proof.
  destruct (reserve_total small_size small_limits (mkCState sample_evicted [1%N] []) 1 100
    small_limits_ok sample_reach sample_load) as (c' & res & H & _).
  exists c', res. split; [exact H|].
  assert (snd <$> reserve small_limits 1 100 sample_evicted = Some (Err ResourceLimit)) as Hres by (by vm_compute).
  simpl in H. rewrite H in Hres. by injection Hres.
Defined.

Lemma insert_total_witness :
  ∃ c' released, insert small_size small_limits 1 (sample_completion 7) sample_source sample_finished.1
    = Some (c', released) ∧ Bounded small_limits c'.
Proof.
  destruct (insert_total small_size small_limits (mkCState sample_finished.1 [] (src_charge sample_source)) 1
    (mkLoad 0 [] 0) (sample_completion 7) sample_source [] small_limits_ok sample_reach_finished)
    as (c' & rel & H & HB & _); [by vm_compute..|by rewrite app_nil_r|].
  exists c', rel. split; [exact H|exact HB].
Defined.
