(* ===== verification/Diff.v ===== *)
(** Comparing the two snapshots of a file, the first half of [diff.rs].

    [split_lines] cuts a snapshot into lines, [plan_diff] trims equal ends, asks the
    [similar] crate for the edit script of the middle and lays the result out as
    hunks of line positions, and [plan_fingerprint] encodes a plan for hashing.
    The crate is the interface [Similar]; [SimilarLaws] is what the crate documents
    and the source relies on.  The theorems: lines tile the text, a plan replays one
    snapshot into the other, an expired query never changes a plan, and the
    fingerprint's encoding is injective. *)

From S2P Require Import Prelude RustStr Errors.

(** ** Data *)

Definition MAX_MYERS_LINES : N := 2048.
Definition MAX_DIFF_LINES : N := 100000.

Inductive DiffLineKind := Context | Added | Removed.
#[global] Instance DiffLineKind_eq_dec : EqDecision DiffLineKind.
Proof. solve_decision. Defined.

Inductive LineSource := Before | After.
#[global] Instance LineSource_eq_dec : EqDecision LineSource.
Proof. solve_decision. Defined.

Record LinePlan := mkLinePlan {
  lp_kind : DiffLineKind;
  lp_old_index : option N;
  lp_new_index : option N;
  lp_source : LineSource;
  byte_start : N;
  byte_len : N
}.

Record HunkPlan := mkHunkPlan {
  hp_old_start : N;
  hp_old_count : N;
  hp_new_start : N;
  hp_new_count : N;
  hp_lines : list LinePlan
}.

Record DiffPlan := mkPlan { plan_hunks : list HunkPlan; fingerprint : str; plan_truncated : bool }.

Inductive DiffOutcome := Binary | Plan (plan : DiffPlan).

(** ** Lines *)

(** [&bytes[start..start + len]] where the range is inside. *)
Definition slice {A} (start len : N) (l : list A) : list A :=
  take (N.to_nat len) (drop (N.to_nat start) l).

(** The scan of [split_lines] at [index], with the lines found so far. *)
Fixpoint split_scan (limit start index : N) (bytes : list N) (lines : list (N * N)) : list (N * N) :=
  match bytes with
  | [] => if decide (start < index)%N then lines ++ [(start, index - start)%N] else lines
  | byte :: rest =>
      if decide (byte = LF) then
        let lines := lines ++ [(start, index + 1 - start)%N] in
        if decide (limit < lenN lines)%N then lines
        else split_scan limit (index + 1) (index + 1) rest lines
      else if decide (byte = CR) then
        match rest with
        | next :: rest' =>
            if decide (next = LF) then
              let lines := lines ++ [(start, index + 2 - start)%N] in
              if decide (limit < lenN lines)%N then lines
              else split_scan limit (index + 2) (index + 2) rest' lines
            else
              let lines := lines ++ [(start, index + 1 - start)%N] in
              if decide (limit < lenN lines)%N then lines
              else split_scan limit (index + 1) (index + 1) rest lines
        | [] => lines ++ [(start, index + 1 - start)%N]
        end
      else split_scan limit start (index + 1) rest lines
  end.

Definition split_lines (text : str) (limit : N) : list (N * N) * N :=
  let lines := split_scan limit 0 0 (as_bytes text) [] in (lines, lenN lines).

Definition tokens_of (text : str) (lines : list (N * N)) : list (list N) :=
  (λ '(start, len), slice start len (as_bytes text)) <$> lines.

(** [a.iter().zip(b).take_while(|(a, b)| a == b).count()] *)
Fixpoint common_prefix (a b : list (list N)) : nat :=
  match a, b with
  | x :: a', y :: b' => if decide (x = y) then S (common_prefix a' b') else 0
  | _, _ => 0
  end.

(** ** The diff crate *)

Inductive ChangeTag := TagEqual | TagDelete | TagInsert.
Record Change := mkChange { tag : ChangeTag; old_index : option N; new_index : option N }.

Class Similar := mkSimilar {
  DiffOp : Type;
  Equal : N → N → N → DiffOp;          (* old_index, new_index, len *)
  Replace : N → N → N → N → DiffOp;    (* old_index, old_len, new_index, new_len *)
  old_range : DiffOp → N * N;
  new_range : DiffOp → N * N;
  iter_changes : DiffOp → list (list N) → list (list N) → list Change;
  capture_diff : list (list N) → N * N → list (list N) → N * N → list DiffOp;
  group_diff_ops : list DiffOp → N → list (list DiffOp)
}.

(** ** Planning *)

Definition option_index (value : option N) : list N :=
  match value with
  | Some index => 1%N :: u64_bytes index
  | None => repeat 0%N 9
  end.

Definition kind_byte (k : DiffLineKind) : N :=
  match k with Context => 0 | Added => 1 | Removed => 2 end.

(** What [plan_fingerprint] feeds to the hash. *)
Definition line_encoding (l : LinePlan) : list N :=
  [kind_byte (lp_kind l)] ++ option_index (lp_old_index l) ++ option_index (lp_new_index l) ++
  u64_bytes (byte_start l) ++ u64_bytes (byte_len l).
Definition hunk_encoding (h : HunkPlan) : list N :=
  u64_bytes (hp_old_start h) ++ u64_bytes (hp_old_count h) ++ u64_bytes (hp_new_start h) ++
  u64_bytes (hp_new_count h) ++ u64_bytes (lenN (hp_lines h)) ++ (hp_lines h ≫= line_encoding).
Definition plan_encoding (context_lines : N) (replace : bool) (hunks : list HunkPlan) : list N :=
  [if replace then 1%N else 0%N] ++ u64_bytes context_lines ++ u64_bytes (lenN hunks) ++
  (hunks ≫= hunk_encoding).

Section planning.
Context `{Similar}.
(** The [n]-th look at the cancellation and the clock, and SHA-256 in hexadecimal. *)
Context (expired : N → bool) (digest : list N → str).

Definition check_budget : stm N fault unit := λ n,
  ((n + 1)%N, if expired n then Err (Fails QueryLimit) else Ok tt).

Definition plan_fingerprint (context_lines : N) (replace : bool) (hunks : list HunkPlan) : str :=
  digest (plan_encoding context_lines replace hunks).

Definition line_plan (before_lines after_lines : list (N * N)) (ch : Change) : option LinePlan :=
  let '(kind, source, old_index, new_index) :=
    match tag ch with
    | TagEqual => (Context, After, old_index ch, new_index ch)
    | TagDelete => (Removed, Before, old_index ch, None)
    | TagInsert => (Added, After, None, new_index ch)
    end in
  let table := match source with Before => before_lines | After => after_lines end in
  index ← match source with Before => old_index | After => new_index end;
  '(start, len) ← getN table index;
  Some (mkLinePlan kind old_index new_index source start len).

(** The changes of one group; [scanned] is checked every 256 lines. *)
Fixpoint plan_changes (before_lines after_lines : list (N * N)) (changes : list Change)
    (scanned : N) (lines : list LinePlan) : stm N fault (list LinePlan) :=
  match changes with
  | [] => mret lines
  | ch :: changes =>
      let scanned := (scanned + 1)%N in
      _ ← (if decide (scanned mod 256 = 0)%N then check_budget else mret tt);
      line ← lift (ok_or (line_plan before_lines after_lines ch) Panics);
      plan_changes before_lines after_lines changes scanned (lines ++ [line])
  end.

Definition hunk_span (range : DiffOp → N * N) (group : list DiffOp) : N * N :=
  foldl (λ '(start, end_) op, (N.min start (range op).1, N.max end_ (range op).2)) (usize_max, 0%N) group.

Definition plan_group (before_lines after_lines : list (N * N)) (before_tokens after_tokens : list (list N))
    (group : list DiffOp) : stm N fault (option HunkPlan) :=
  _ ← check_budget;
  let '(old_start, old_end) := hunk_span old_range group in
  let '(new_start, new_end) := hunk_span new_range group in
  lines ← plan_changes before_lines after_lines
    (group ≫= λ op, iter_changes op before_tokens after_tokens) 0 [];
  mret (if decide (lines = []) then None
        else Some (mkHunkPlan old_start (old_end - old_start) new_start (new_end - new_start) lines)).

Fixpoint plan_groups (before_lines after_lines : list (N * N)) (before_tokens after_tokens : list (list N))
    (groups : list (list DiffOp)) (hunks : list HunkPlan) : stm N fault (list HunkPlan) :=
  match groups with
  | [] => mret hunks
  | group :: groups =>
      hunk ← plan_group before_lines after_lines before_tokens after_tokens group;
      plan_groups before_lines after_lines before_tokens after_tokens groups (hunks ++ option_list hunk)
  end.

(** The edit script: equal ends around a replacement or the crate's script. *)
Definition diff_ops (before_tokens after_tokens : list (list N)) : list DiffOp * bool :=
  let prefix := N.of_nat (common_prefix before_tokens after_tokens) in
  let suffix := N.of_nat (common_prefix (reverse (drop (N.to_nat prefix) before_tokens))
                            (reverse (drop (N.to_nat prefix) after_tokens))) in
  let old_end := (lenN before_tokens - suffix)%N in
  let new_end := (lenN after_tokens - suffix)%N in
  let replace := bool_decide (MAX_MYERS_LINES < old_end - prefix + new_end - prefix)%N in
  ((if decide (0 < prefix)%N then [Equal 0 0 prefix] else []) ++
   (if replace then [Replace prefix (old_end - prefix) prefix (new_end - prefix)]
    else capture_diff before_tokens (prefix, old_end) after_tokens (prefix, new_end)) ++
   (if decide (0 < suffix)%N then [Equal old_end new_end suffix] else []), replace).

Definition over_limit : DiffOutcome :=
  Plan (mkPlan [] (digest (as_bytes (lit "diff-lines-over-limit"))) true).

Definition plan_diff (before after : list N) (context_lines : N) : stm N fault DiffOutcome :=
  _ ← check_budget;
  match from_utf8 before, from_utf8 after with
  | Some before_text, Some after_text =>
      if decide (0%N ∈ before ∨ 0%N ∈ after) then mret Binary else
      let '(before_lines, before_count) := split_lines before_text MAX_DIFF_LINES in
      if decide (MAX_DIFF_LINES < before_count)%N then mret over_limit else
      let '(after_lines, after_count) := split_lines after_text (MAX_DIFF_LINES - before_count) in
      if decide (MAX_DIFF_LINES - before_count < after_count)%N then mret over_limit else
      let before_tokens := tokens_of before_text before_lines in
      let after_tokens := tokens_of after_text after_lines in
      let '(ops, replace) := diff_ops before_tokens after_tokens in
      hunks ← plan_groups before_lines after_lines before_tokens after_tokens
        (group_diff_ops ops context_lines) [];
      _ ← check_budget;
      mret (Plan (mkPlan hunks (plan_fingerprint context_lines replace hunks) false))
  | _, _ => mret Binary
  end.
End planning.

(** ** Slices and tiles *)

Lemma lenN_slice {A} s n (l : list A) : (s + n <= lenN l)%N → lenN (slice s n l) = n.
Proof. unfold slice, lenN. intros H. rewrite length_take, length_drop. lia. Qed.

Lemma slice_0 {A} s (l : list A) : slice s 0 l = [].
Proof. done. Qed.

Lemma slice_all {A} (l : list A) : slice 0 (lenN l) l = l.
Proof. unfold slice, lenN. rewrite Nat2N.id. apply take_ge. simpl. lia. Qed.

Lemma slice_app {A} s n m (l : list A) : slice s (n + m) l = slice s n l ++ slice (s + n) m l.
Proof.
  unfold slice. replace (N.to_nat (n + m)) with (N.to_nat n + N.to_nat m) by lia.
  replace (N.to_nat (s + n)) with (N.to_nat s + N.to_nat n) by lia.
  by rewrite <- drop_drop, take_take_drop.
Qed.

Lemma slice_mid {A} (l k r : list A) s n :
  s = lenN l → n = lenN k → slice s n (l ++ k ++ r) = k.
Proof.
  intros -> ->. unfold slice, lenN. rewrite !Nat2N.id, drop_app_length. apply take_app_length.
Qed.

Lemma slice_cons {A} s n (l : list A) x :
  getN l s = Some x → (0 < n)%N → slice s n l = x :: slice (s + 1) (n - 1) l.
Proof.
  intros (l1 & l2 & -> & Hl)%getN_Some_split Hn.
  replace n with (1 + (n - 1))%N at 1 by lia. rewrite slice_app.
  by rewrite (slice_mid l1 [x] l2 s 1 (eq_sym Hl) eq_refl : slice s 1 (l1 ++ x :: l2) = [x]).
Qed.

(** Ranges that follow each other from [a] to [b], none empty. *)
Fixpoint tile (a : N) (lines : list (N * N)) (b : N) : Prop :=
  match lines with
  | [] => a = b
  | (s, l) :: lines => s = a ∧ (0 < l)%N ∧ tile (a + l) lines b
  end.

Lemma tile_snoc a lines b n : tile a lines b → (0 < n)%N → tile a (lines ++ [(b, n)]) (b + n).
Proof.
  revert a. induction lines as [|[s l] lines IH]; intros a; simpl; [by intros ->|].
  intros (-> & Hl & Ht) Hn. split_and!; [done|done|by apply IH].
Qed.

Lemma tile_le a lines b : tile a lines b → (a <= b)%N.
Proof.
  revert a. induction lines as [|[s l] lines IH]; intros a; simpl; [intros ->; lia|].
  intros (_ & _ & ?%IH). lia.
Qed.

Lemma tile_concat {A} a lines b (bytes : list A) :
  tile a lines b → concat ((λ '(s, l), slice s l bytes) <$> lines) = slice a (b - a) bytes.
Proof.
  revert a. induction lines as [|[s l] lines IH]; intros a; cbn [tile].
  - intros ->. by rewrite N.sub_diag.
  - intros (-> & _ & Ht). rewrite fmap_cons. cbn [concat]. rewrite (IH _ Ht). apply tile_le in Ht.
    rewrite <- slice_app. f_equal. lia.
Qed.

(** ** Lines of a text *)

Definition line_end (e : list N) : Prop := e = [LF] ∨ e = [CR] ∨ e = [CR; LF].
Definition plain (body : list N) : Prop := LF ∉ body ∧ CR ∉ body.

(** A line is its body and its ending, which only the last line may lack. *)
Definition is_line (whole : list N) (r : N * N) : Prop :=
  ∃ body e, slice r.1 r.2 whole = body ++ e ∧ plain body ∧
    (line_end e ∨ e = [] ∧ (r.1 + r.2)%N = lenN whole).

Lemma plain_snoc body x : plain body → x ≠ LF → x ≠ CR → plain (body ++ [x]).
Proof. intros [H1 H2] ??. split; rewrite elem_of_app, list_elem_of_singleton; naive_solver. Qed.

Lemma plain_nil : plain [].
Proof. split; apply not_elem_of_nil. Qed.

(** The state of the scan: [pre] is tiled, [pending] is the line begun. *)
Record scanning (whole pre pending rest : list N) (start index : N) (lines : list (N * N)) : Prop := mkScan {
  scan_whole : whole = pre ++ pending ++ rest;
  scan_start : start = lenN pre;
  scan_index : index = lenN (pre ++ pending);
  scan_tile : tile 0 lines start;
  scan_lines : Forall (is_line whole) lines;
  scan_plain : plain pending
}.

Lemma scanning_push whole pre pending e rest start index lines :
  scanning whole pre pending (e ++ rest) start index lines → line_end e →
  scanning whole (pre ++ pending ++ e) [] rest (index + lenN e) (index + lenN e)
    (lines ++ [(start, index + lenN e - start)%N]).
Proof.
  intros [Hw Hs Hi Ht Hl Hp] He.
  assert (0 < lenN e)%N as Hpos by (destruct He as [->|[->| ->]]; unfold lenN; simpl; lia).
  rewrite lenN_app in Hi. split.
  - by rewrite Hw, <- !app_assoc.
  - rewrite !lenN_app. lia.
  - rewrite app_nil_r, !lenN_app. lia.
  - replace (index + lenN e)%N with (start + (index + lenN e - start))%N at 2 by lia.
    apply tile_snoc; [done|lia].
  - apply Forall_app. split; [done|]. constructor; [|done]. exists pending, e. simpl.
    split_and!; [|done|by left]. rewrite Hw.
    replace (pre ++ pending ++ e ++ rest) with (pre ++ (pending ++ e) ++ rest) by (by rewrite <- !app_assoc).
    apply slice_mid; [done|]. rewrite lenN_app. lia.
  - apply plain_nil.
Qed.

Lemma scanning_skip whole pre pending x rest start index lines :
  scanning whole pre pending (x :: rest) start index lines → x ≠ LF → x ≠ CR →
  scanning whole pre (pending ++ [x]) rest start (index + 1) lines.
Proof.
  intros [Hw Hs Hi Ht Hl Hp] H1 H2. split; try done.
  - by rewrite Hw, <- !app_assoc.
  - rewrite Hi, !lenN_app. unfold lenN. simpl. lia.
  - by apply plain_snoc.
Qed.

Lemma scanning_end whole pre pending start index lines :
  scanning whole pre pending [] start index lines →
  let lines' := if decide (start < index)%N then lines ++ [(start, index - start)%N] else lines in
  tile 0 lines' (lenN whole) ∧ Forall (is_line whole) lines'.
Proof.
  intros [Hw Hs Hi Ht Hl Hp]. rewrite app_nil_r in Hw. rewrite lenN_app in Hi.
  simpl. case_decide as Hlt.
  - rewrite Hw, lenN_app. replace (lenN pre + lenN pending)%N with (start + (index - start))%N by lia. split.
    + apply tile_snoc; [done|lia].
    + rewrite <- Hw. apply Forall_app. split; [done|]. constructor; [|done]. exists pending, [].
      simpl. split_and!; [|done|right; split; [done|rewrite Hw, lenN_app; lia]].
      rewrite app_nil_r, Hw. transitivity (slice start (index - start) (pre ++ pending ++ [])).
      { by rewrite app_nil_r. }
      apply slice_mid; [done|lia].
  - assert (pending = []) as -> by (destruct pending; [done|rewrite lenN_cons in Hi; lia]).
    split; [|done]. by rewrite Hw, app_nil_r, <- Hs.
Qed.

Lemma split_scan_spec limit n whole pre pending rest start index lines :
  (length rest <= n)%nat → scanning whole pre pending rest start index lines →
  let lines' := split_scan limit start index rest lines in
  (limit < lenN lines')%N ∨ (tile 0 lines' (lenN whole) ∧ Forall (is_line whole) lines').
Proof.
  revert pre pending rest start index lines.
  induction n as [|n IH]; intros pre pending rest start index lines Hn Hsc.
  { destruct rest; [|simpl in Hn; lia]. right. by apply (scanning_end _ pre pending). }
  destruct rest as [|x rest]; [right; by apply (scanning_end _ pre pending)|]. simpl in Hn.
  cbn [split_scan].
  assert (∀ e k, x :: rest = e ++ k → line_end e → (length k <= n)%nat →
    let lines := lines ++ [(start, index + lenN e - start)%N] in
    let lines' := if decide (limit < lenN lines)%N then lines
                  else split_scan limit (index + lenN e) (index + lenN e) k lines in
    (limit < lenN lines')%N ∨ (tile 0 lines' (lenN whole) ∧ Forall (is_line whole) lines')) as Hpush.
  { intros e k Hk He Hlen. rewrite Hk in Hsc. apply scanning_push in Hsc; [|done]. cbv zeta.
    case_decide; [by left|]. by eapply IH. }
  case_decide as HLF.
  { subst x. apply (Hpush [LF] rest); [done|by left|lia]. }
  case_decide as HCR.
  - subst x. destruct rest as [|y rest].
    + right. pose proof (scanning_push whole pre pending [CR] [] start index lines Hsc
        ltac:(right; by left)) as [Hw Hs Hi Ht Hl Hp].
      rewrite !app_nil_r in Hw. split; [|exact Hl]. rewrite Hw, <- Hs. exact Ht.
    + case_decide as HLF2.
      * subst y. simpl in Hn. apply (Hpush [CR; LF] rest); [done|right; by right|lia].
      * apply (Hpush [CR] (y :: rest)); [done|right; by left|lia].
  - eapply (IH pre (pending ++ [x])); [lia|]. by apply scanning_skip.
Qed.

Lemma split_lines_spec text limit lines count :
  split_lines text limit = (lines, count) → (count <= limit)%N →
  count = lenN lines ∧ tile 0 lines (lenN (as_bytes text)) ∧ Forall (is_line (as_bytes text)) lines.
Proof.
  intros [= <- <-] Hc. split; [done|].
  destruct (split_scan_spec limit (length (as_bytes text)) (as_bytes text) [] [] (as_bytes text) 0 0 [])
    as [?|?]; [done| |lia|done].
  by split; try apply plain_nil.
Qed.

(** ** Lines are text *)

(** A cut after an ASCII byte is a character boundary. *)
Lemma utf8_cut s p b q :
  as_bytes s = p ++ b :: q → (b < 0x80)%N →
  ∃ s1 s2, s = s1 ++ s2 ∧ as_bytes s1 = p ++ [b] ∧ as_bytes s2 = q.
Proof.
  revert p. induction s as [|c s IH]; intros p Hs Hb; [by destruct p|].
  rewrite as_bytes_cons in Hs.
  destruct (decide (length (encode_char c) <= length p)) as [Hle|Hgt].
  - apply (f_equal (take (length (encode_char c)))) in Hs as Ht.
    apply (f_equal (drop (length (encode_char c)))) in Hs as Hd.
    rewrite take_app_length, take_app_le in Ht by done.
    rewrite drop_app_length, drop_app_le in Hd by done.
    destruct (IH _ Hd Hb) as (s1 & s2 & -> & H1 & H2).
    exists (c :: s1), s2. split_and!; [done| |done].
    rewrite as_bytes_cons, H1, app_assoc. f_equal. rewrite Ht at 1. apply take_drop.
  - assert (b ∈ encode_char c) as Hin.
    { apply (f_equal (λ l, l !! length p)) in Hs. rewrite list_lookup_middle in Hs by done.
      rewrite lookup_app_l in Hs by lia. by eapply list_elem_of_lookup_2. }
    apply encode_char_ascii in Hin; [|done]. rewrite Hin in Hs, Hgt. simpl in Hgt.
    destruct p; [|simpl in Hgt; lia]. injection Hs as <-. exists [c], s.
    by rewrite as_bytes_cons, Hin.
Qed.

Lemma line_end_last e : line_end e → ∃ e' b, e = e' ++ [b] ∧ (b < 0x80)%N.
Proof.
  intros [->|[->| ->]]; [by exists [], LF|by exists [], CR|by exists [CR], LF].
Qed.

(** The text of every line of a text. *)
Lemma tokens_text text a lines b rest :
  tile a lines b → Forall (is_line (as_bytes text)) lines → b = lenN (as_bytes text) →
  as_bytes rest = drop (N.to_nat a) (as_bytes text) →
  ∃ ls : list str, tokens_of text lines = as_bytes <$> ls ∧ concat ls = rest.
Proof.
  intros Ht Hl ->. revert a rest Ht. induction lines as [|[s l] lines IH]; intros a rest Ht Hr; cbn [tile] in Ht.
  - rewrite drop_ge in Hr by (unfold lenN in Ht; lia). destruct rest as [|c rest]; [by exists []|].
    rewrite as_bytes_cons in Hr. pose proof (encode_char_len c) as Hc.
    apply app_nil in Hr as [Hc0 _].
    rewrite Hc0 in Hc. pose proof (len_utf8_bounds c). unfold lenN in Hc. simpl in Hc. lia.
  - destruct Ht as (-> & Hpos & Ht). apply Forall_cons in Hl as [Hline Hl].
    destruct Hline as (body & e & Hsl & Hbody & He). simpl in Hsl, He.
    assert (drop (N.to_nat a) (as_bytes text) =
      (body ++ e) ++ drop (N.to_nat (a + l)) (as_bytes text)) as Hd.
    { rewrite <- Hsl. unfold slice. replace (N.to_nat (a + l)) with (N.to_nat a + N.to_nat l) by lia.
      by rewrite <- drop_drop, take_drop. }
    rewrite Hd in Hr.
    assert (∃ s1 s2, rest = s1 ++ s2 ∧ as_bytes s1 = body ++ e ∧
      as_bytes s2 = drop (N.to_nat (a + l)) (as_bytes text)) as (s1 & s2 & -> & H1 & H2).
    { destruct He as [(e' & b & -> & Hb)%line_end_last|[-> Hend]].
      - rewrite <- !app_assoc in Hr. cbn [app] in Hr. rewrite app_assoc in Hr.
        destruct (utf8_cut _ _ _ _ Hr Hb) as (s1 & s2 & ? & ? & ?). exists s1, s2.
        by rewrite app_assoc.
      - rewrite drop_ge in * by (unfold lenN in Hend; lia). exists rest, [].
        rewrite !app_nil_r in *. by split_and!. }
    destruct (IH Hl (a + l)%N s2 Ht H2) as (ls & Hls & <-).
    exists (s1 :: ls). split; [|done]. unfold tokens_of in *. rewrite !fmap_cons, Hls. f_equal.
    by rewrite Hsl, <- H1.
Qed.

Lemma tokens_of_text text limit lines count :
  split_lines text limit = (lines, count) → (count <= limit)%N →
  ∃ ls : list str, tokens_of text lines = as_bytes <$> ls ∧ concat ls = text.
Proof.
  intros Hs Hc. destruct (split_lines_spec _ _ _ _ Hs Hc) as (_ & Ht & Hl).
  by apply (tokens_text text 0 lines (lenN (as_bytes text))).
Qed.

(** ** What the diff crate promises *)

Definition seqN (a b : N) : list N := (λ i, (a + N.of_nat i)%N) <$> seq 0 (N.to_nat (b - a)).

Definition old_side (ch : Change) : option N :=
  match tag ch with TagInsert => None | _ => old_index ch end.
Definition new_side (ch : Change) : option N :=
  match tag ch with TagDelete => None | _ => new_index ch end.

Section laws.
Context `{Similar} (B A : list (list N)).

(** The changes of a script's step walk its two ranges; equal lines are equal. *)
Record op_ok (op : DiffOp) : Prop := mkOpOk {
  op_old : ((old_range op).1 <= (old_range op).2 <= lenN B)%N;
  op_new : ((new_range op).1 <= (new_range op).2 <= lenN A)%N;
  op_changes_old : omap old_side (iter_changes op B A) = seqN (old_range op).1 (old_range op).2;
  op_changes_new : omap new_side (iter_changes op B A) = seqN (new_range op).1 (new_range op).2;
  op_tags : ∀ ch, ch ∈ iter_changes op B A →
    match tag ch with
    | TagEqual => ∃ o n t, old_index ch = Some o ∧ new_index ch = Some n ∧
                    getN B o = Some t ∧ getN A n = Some t
    | TagDelete => is_Some (old_index ch)
    | TagInsert => is_Some (new_index ch)
    end
}.

Definition starts_at (op : DiffOp) (p : N * N) : Prop := ((old_range op).1, (new_range op).1) = p.
Definition op_end (op : DiffOp) : N * N := ((old_range op).2, (new_range op).2).

(** Steps that follow each other from [p] to [q]. *)
Inductive chain : list DiffOp → N * N → N * N → Prop :=
  | chain_nil p : chain [] p p
  | chain_cons op ops p q : op_ok op → starts_at op p → chain ops (op_end op) q → chain (op :: ops) p q.

(** Equal lines on both sides. *)
Definition gap (p q : N * N) : Prop :=
  ∃ k, q = (p.1 + k, p.2 + k)%N ∧ (q.1 <= lenN B)%N ∧ (q.2 <= lenN A)%N ∧ slice p.1 k B = slice p.2 k A.

(** Groups of steps with equal lines around them. *)
Inductive grouped : list (list DiffOp) → N * N → N * N → Prop :=
  | grouped_nil p q : gap p q → grouped [] p q
  | grouped_cons g gs p a b q : gap p a → chain g a b → grouped gs b q → grouped (g :: gs) p q.
End laws.

Class SimilarLaws `(S : Similar) : Prop := mkSimilarLaws {
  equal_law B A o n k :
    (o + k <= lenN B)%N → (n + k <= lenN A)%N → slice o k B = slice n k A →
    chain B A [Equal o n k] (o, n) (o + k, n + k)%N;
  replace_law B A o k n m :
    (o + k <= lenN B)%N → (n + m <= lenN A)%N → chain B A [Replace o k n m] (o, n) (o + k, n + m)%N;
  capture_law B A o1 o2 n1 n2 :
    (o1 <= o2 <= lenN B)%N → (n1 <= n2 <= lenN A)%N →
    chain B A (capture_diff B (o1, o2) A (n1, n2)) (o1, n1) (o2, n2);
  group_law B A ops c :
    chain B A ops (0, 0)%N (lenN B, lenN A) → grouped B A (group_diff_ops ops c) (0, 0)%N (lenN B, lenN A)
}.

(** ** Scripts *)

Lemma chain_app `{Similar} B A ops1 ops2 p q r :
  chain B A ops1 p q → chain B A ops2 q r → chain B A (ops1 ++ ops2) p r.
Proof. induction 1 as [|op ops p q Hop Hs Hc IH]; [done|]. intros H2. econstructor; eauto. Qed.

Lemma slice_take_eq {X} (l k : list X) n :
  take n l = take n k → slice 0 (N.of_nat n) l = slice 0 (N.of_nat n) k.
Proof. unfold slice. by rewrite Nat2N.id, !drop_0. Qed.

Lemma common_prefix_take a b :
  take (common_prefix a b) a = take (common_prefix a b) b ∧
  common_prefix a b ≤ length a ∧ common_prefix a b ≤ length b.
Proof.
  revert b. induction a as [|x a IH]; intros [|y b]; simpl; try (split; [done|lia]).
  case_decide as Hxy; [|split; [done|simpl; lia]]. subst y. destruct (IH b) as (H1 & H2 & H3).
  simpl. rewrite H1. split; [done|lia].
Qed.

Lemma slice_reverse_end {X} (l : list X) k :
  k ≤ length l → slice (lenN l - N.of_nat k) (N.of_nat k) l = reverse (take k (reverse l)).
Proof.
  intros Hk. unfold slice, lenN. rewrite take_reverse, reverse_involutive, take_ge.
  - f_equal. lia.
  - rewrite length_drop. lia.
Qed.

Lemma slice_drop {X} p s n (l : list X) :
  slice s n (drop (N.to_nat p) l) = slice (p + s) n l.
Proof. unfold slice. rewrite drop_drop. do 2 f_equal. lia. Qed.

Lemma diff_ops_chain `{SimilarLaws} B A : chain B A (diff_ops B A).1 (0, 0)%N (lenN B, lenN A).
Proof.
  unfold diff_ops. destruct (common_prefix_take B A) as (Hp & HpB & HpA).
  set (p := common_prefix B A) in *. rewrite Nat2N.id.
  destruct (common_prefix_take (reverse (drop p B)) (reverse (drop p A))) as (Hs & HsB & HsA).
  set (s := common_prefix (reverse (drop p B)) (reverse (drop p A))) in *.
  rewrite length_reverse, length_drop in HsB, HsA. cbn [fst].
  assert (N.of_nat p + N.of_nat s <= lenN B ∧ N.of_nat p + N.of_nat s <= lenN A)%N as [H1 H2]
    by (unfold lenN; lia).
  apply (chain_app _ _ _ _ _ (N.of_nat p, N.of_nat p)).
  { case_decide as Hpos.
    - apply (equal_law B A 0 0 (N.of_nat p)); [lia|lia|]. by apply slice_take_eq.
    - replace (N.of_nat p) with 0%N by lia. constructor. }
  apply (chain_app _ _ _ _ _ (lenN B - N.of_nat s, lenN A - N.of_nat s)%N).
  { case_bool_decide.
    - pose proof (replace_law B A (N.of_nat p) (lenN B - N.of_nat s - N.of_nat p) (N.of_nat p)
        (lenN A - N.of_nat s - N.of_nat p)) as Hr.
      replace (N.of_nat p + (lenN B - N.of_nat s - N.of_nat p))%N with (lenN B - N.of_nat s)%N in Hr by lia.
      replace (N.of_nat p + (lenN A - N.of_nat s - N.of_nat p))%N with (lenN A - N.of_nat s)%N in Hr by lia.
      apply Hr; lia.
    - apply capture_law; lia. }
  case_decide as Hpos.
  - pose proof (equal_law B A (lenN B - N.of_nat s) (lenN A - N.of_nat s) (N.of_nat s)) as He.
    replace (lenN B - N.of_nat s + N.of_nat s)%N with (lenN B) in He by lia.
    replace (lenN A - N.of_nat s + N.of_nat s)%N with (lenN A) in He by lia.
    apply He; [lia|lia|].
    assert (∀ X : list (list N), (N.of_nat p + N.of_nat s <= lenN X)%N →
      slice (lenN X - N.of_nat s) (N.of_nat s) X = reverse (take s (reverse (drop p X)))) as Hx.
    { intros X HX. rewrite <- slice_reverse_end by (rewrite length_drop; unfold lenN in HX; lia).
      pose proof (slice_drop (N.of_nat p) (lenN (drop p X) - N.of_nat s) (N.of_nat s) X) as Hd.
      rewrite Nat2N.id in Hd. rewrite Hd. f_equal. unfold lenN in *. rewrite length_drop. lia. }
    rewrite !Hx by done. by rewrite Hs.
  - replace (N.of_nat s) with 0%N by lia. rewrite !N.sub_0_r. constructor.
Qed.

(** ** Running a plan *)

Lemma omap_bind {X Y Z} (f : X → option Y) (g : Y → option Z) (l : list X) :
  omap (λ x, f x ≫= g) l = omap g (omap f l).
Proof. induction l as [|x l IH]; [done|]. simpl.
  destruct (f x) as [y|]; simpl; [destruct (g y); [f_equal|]|]; exact IH.
Qed.

Lemma getN_is_Some {X} (l : list X) i : (i < lenN l)%N → ∃ x, getN l i = Some x.
Proof. intros Hi. apply lookup_lt_is_Some_2. unfold lenN in Hi. lia. Qed.

Lemma seqN_nil a : seqN a a = [].
Proof. unfold seqN. by rewrite N.sub_diag. Qed.

Lemma seqN_cons a b : (a < b)%N → seqN a b = a :: seqN (a + 1) b.
Proof.
  intros Hab. unfold seqN. replace (N.to_nat (b - a)) with (S (N.to_nat (b - (a + 1)))) by lia.
  cbn [seq]. rewrite fmap_cons, <- fmap_S_seq, <- list_fmap_compose. f_equal; [lia|].
  apply list_fmap_ext. intros _ x _. simpl. lia.
Qed.

Lemma seqN_app a b c : (a <= b <= c)%N → seqN a c = seqN a b ++ seqN b c.
Proof.
  remember (N.to_nat (b - a)) as n eqn:Hn. revert a Hn. induction n as [|n IH]; intros a Hn Hab.
  - replace b with a by lia. by rewrite seqN_nil.
  - rewrite (seqN_cons a c), (seqN_cons a b) by lia. cbn [app]. f_equal. apply IH; lia.
Qed.

Lemma elem_of_seqN a b x : x ∈ seqN a b → (a <= x < b)%N.
Proof. unfold seqN. intros (i & -> & Hi)%list_elem_of_fmap. apply elem_of_seq in Hi. lia. Qed.

Lemma omap_getN_seqN {X} (l : list X) a b :
  (a <= b <= lenN l)%N → omap (getN l) (seqN a b) = slice a (b - a) l.
Proof.
  remember (N.to_nat (b - a)) as n eqn:Hn. revert a Hn. induction n as [|n IH]; intros a Hn Hab.
  - replace b with a by lia. by rewrite seqN_nil, N.sub_diag, slice_0.
  - rewrite seqN_cons by lia. destruct (getN_is_Some l a ltac:(lia)) as [x Hx].
    simpl. rewrite Hx, IH by lia. rewrite (slice_cons a (b - a) l x) by (done || lia).
    do 2 f_equal. lia.
Qed.

(** The bytes of a planned line, and the line each side gets from it. *)
Definition line_bytes (before after : list N) (l : LinePlan) : list N :=
  slice (byte_start l) (byte_len l) (match lp_source l with Before => before | After => after end).
Definition old_line (before after : list N) (l : LinePlan) : option (list N) :=
  if decide (lp_kind l = Added) then None else Some (line_bytes before after l).
Definition new_line (before after : list N) (l : LinePlan) : option (list N) :=
  if decide (lp_kind l = Removed) then None else Some (line_bytes before after l).

Section running.
Context `{S : Similar} {HS : SimilarLaws S} (expired : N → bool).

(** [m] returns [x], or the query has expired. *)
Definition yields {X} (m : stm N fault X) (x : X) : Prop :=
  ∀ n, (∃ n', m n = (n', Ok x)) ∨ (∃ n' k, m n = (n', Err (Fails QueryLimit)) ∧ expired k = true).

Lemma yields_ret {X} (x : X) : yields (mret x) x.
Proof using Type. intros n. left. by exists n. Qed.
Lemma yields_check : yields (check_budget expired) tt.
Proof using Type.
  intros n. unfold check_budget. destruct (expired n) eqn:E; [right|left]; eauto.
Qed.
Lemma yields_lift {X} (x : X) m : m = Ok x → yields (lift m) x.
Proof using Type. intros -> n. left. by exists n. Qed.
Lemma yields_bind {X Y} (m : stm N fault X) (f : X → stm N fault Y) x y :
  yields m x → yields (f x) y → yields (m ≫= f) y.
Proof using Type.
  intros Hm Hf n. unfold mbind, stm_bind. destruct (Hm n) as [(n' & ->)|(n' & k & -> & Hk)].
  - apply Hf.
  - right. eauto.
Qed.

Lemma plan_changes_yields bl al changes ls scanned lines :
  mapM (line_plan bl al) changes = Some ls →
  yields (plan_changes expired bl al changes scanned lines) (lines ++ ls).
Proof using Type.
  revert ls scanned lines. induction changes as [|ch changes IH]; intros ls scanned lines Hls; cbn [plan_changes].
  - injection Hls as <-. rewrite app_nil_r. apply yields_ret.
  - cbn in Hls. destruct (line_plan bl al ch) as [l|] eqn:Hl; [|done]. cbn in Hls.
    destruct (mapM (line_plan bl al) changes) as [ls'|]; [|done]. injection Hls as <-.
    eapply (yields_bind _ _ tt); [case_decide; [apply yields_check|apply yields_ret]|].
    eapply yields_bind; [by apply yields_lift|].
    replace (lines ++ l :: ls') with ((lines ++ [l]) ++ ls') by (by rewrite <- app_assoc).
    by apply IH.
Qed.
End running.

Section hunks.
Context `{S : Similar} {HS : SimilarLaws S}.
Context (before after : str) (bl al : list (N * N)).
Local Notation bb := (as_bytes before).
Local Notation ab := (as_bytes after).
Local Notation Bt := (tokens_of before bl).
Local Notation At := (tokens_of after al).

Lemma getN_tokens text lines i t :
  getN (tokens_of text lines) i = Some t →
  ∃ s l, getN lines i = Some (s, l) ∧ t = slice s l (as_bytes text).
Proof using Type.
  unfold getN, tokens_of. rewrite list_lookup_fmap. destruct (lines !! N.to_nat i) as [[s l]|]; [|done].
  intros [= <-]. eauto.
Qed.

(** A change the crate may report becomes a line with the right text on each side. *)
Lemma line_plan_ok op ch :
  op_ok Bt At op → ch ∈ iter_changes op Bt At →
  ∃ l, line_plan bl al ch = Some l ∧
    old_line bb ab l = old_side ch ≫= getN Bt ∧ new_line bb ab l = new_side ch ≫= getN At.
Proof using Type.
  intros [Ho Hn Hco Hcn Ht] Hin. specialize (Ht ch Hin).
  unfold line_plan, old_side, new_side. destruct (tag ch) eqn:Etag.
  - destruct Ht as (o & n & t & Eo & En & Et & Et'). rewrite Eo, En.
    destruct (getN_tokens after al n t Et') as (s & l & E & ->).
    cbn [mbind option_bind]. rewrite E. eexists. split; [reflexivity|].
    unfold old_line, new_line, line_bytes. cbn. by rewrite Et, Et'.
  - destruct Ht as [o Eo]. rewrite Eo. cbn [mbind option_bind].
    assert (o ∈ seqN (old_range op).1 (old_range op).2) as Hs.
    { rewrite <- Hco. apply list_elem_of_omap. exists ch. unfold old_side. by rewrite Etag. }
    apply elem_of_seqN in Hs. destruct (getN_is_Some Bt o ltac:(lia)) as [t Et].
    destruct (getN_tokens before bl o t Et) as (s & l & E & ->). rewrite E.
    eexists. split; [reflexivity|]. unfold old_line, new_line, line_bytes. cbn. by rewrite Et.
  - destruct Ht as [n En]. rewrite En. cbn [mbind option_bind].
    assert (n ∈ seqN (new_range op).1 (new_range op).2) as Hs.
    { rewrite <- Hcn. apply list_elem_of_omap. exists ch. unfold new_side. by rewrite Etag. }
    apply elem_of_seqN in Hs. destruct (getN_is_Some At n ltac:(lia)) as [t Et].
    destruct (getN_tokens after al n t Et) as (s & l & E & ->). rewrite E.
    eexists. split; [reflexivity|]. unfold old_line, new_line, line_bytes. cbn. by rewrite Et.
Qed.

Lemma op_lines op changes :
  op_ok Bt At op → (∀ ch, ch ∈ changes → ch ∈ iter_changes op Bt At) →
  ∃ ls, mapM (line_plan bl al) changes = Some ls ∧
    omap (old_line bb ab) ls = omap (λ ch, old_side ch ≫= getN Bt) changes ∧
    omap (new_line bb ab) ls = omap (λ ch, new_side ch ≫= getN At) changes.
Proof using Type.
  intros Hop. induction changes as [|ch changes IH]; intros Hin; [by exists []|].
  destruct (line_plan_ok op ch Hop (Hin ch (list_elem_of_here _ _))) as (l & Hl & Hlo & Hln).
  destruct IH as (ls & Hls & Ho & Hn); [intros x Hx; apply Hin; by right|].
  exists (l :: ls). split_and!; [|csimpl; by rewrite Hlo, Ho|csimpl; by rewrite Hln, Hn].
  apply mapM_Some. constructor; [done|]. by apply mapM_Some.
Qed.

Lemma mapM_app_Some {X Y} (f : X → option Y) l k ls ks :
  mapM f l = Some ls → mapM f k = Some ks → mapM f (l ++ k) = Some (ls ++ ks).
Proof using Type.
  rewrite !mapM_Some. apply Forall2_app.
Qed.

(** The lines of a group are its lines on each side. *)
Lemma chain_lines ops p q :
  chain Bt At ops p q → (p.1 <= lenN Bt)%N → (p.2 <= lenN At)%N →
  (p.1 <= q.1 <= lenN Bt)%N ∧ (p.2 <= q.2 <= lenN At)%N ∧
  ∃ ls, mapM (line_plan bl al) (ops ≫= λ op, iter_changes op Bt At) = Some ls ∧
    omap (old_line bb ab) ls = slice p.1 (q.1 - p.1) Bt ∧
    omap (new_line bb ab) ls = slice p.2 (q.2 - p.2) At.
Proof using Type.
  induction 1 as [p|op ops p q Hop Hst Hc IH]; intros Hp1 Hp2.
  { rewrite !N.sub_diag. split_and!; [lia..|]. by exists []. }
  unfold starts_at in Hst. subst p. cbn [fst snd] in *. pose proof Hop as [Ho Hn Hco Hcn _].
  destruct IH as (H1 & H2 & ls & Hls & Hol & Hnl); [unfold op_end; simpl; lia..|].
  unfold op_end in *. cbn [fst snd] in *. split_and!; [lia..|].
  destruct (op_lines op _ Hop (λ ch H, H)) as (ls0 & Hls0 & Hol0 & Hnl0).
  exists (ls0 ++ ls). cbn [mbind list_bind]. split; [by apply mapM_app_Some|].
  rewrite !omap_app, Hol, Hnl, Hol0, Hnl0, !omap_bind, Hco, Hcn, !omap_getN_seqN by done.
  split.
  - replace (q.1 - (old_range op).1)%N with (((old_range op).2 - (old_range op).1) + (q.1 - (old_range op).2))%N by lia.
    rewrite slice_app. do 2 f_equal. lia.
  - replace (q.2 - (new_range op).1)%N with (((new_range op).2 - (new_range op).1) + (q.2 - (new_range op).2))%N by lia.
    rewrite slice_app. do 2 f_equal. lia.
Qed.

Lemma chain_le ops p q : chain Bt At ops p q → (p.1 <= q.1 ∧ p.2 <= q.2)%N.
Proof using Type.
  induction 1 as [p|op ops p q [Ho Hn _ _ _] Hst Hc IH]; [lia|].
  unfold starts_at, op_end in *. subst p. simpl in *. lia.
Qed.

(** The spans computed over a group are its ends. *)
Lemma chain_span ops p q s1 e1 s2 e2 :
  chain Bt At ops p q → ops ≠ [] →
  foldl (λ '(start, end_) op, (N.min start (old_range op).1, N.max end_ (old_range op).2)) (s1, e1) ops
    = (N.min s1 p.1, N.max e1 q.1) ∧
  foldl (λ '(start, end_) op, (N.min start (new_range op).1, N.max end_ (new_range op).2)) (s2, e2) ops
    = (N.min s2 p.2, N.max e2 q.2).
Proof using Type.
  intros Hc. revert s1 e1 s2 e2. induction Hc as [p|op ops p q [Ho Hn _ _ _] Hst Hc IH]; [done|].
  intros s1 e1 s2 e2 _. unfold starts_at in Hst. subst p. cbn [foldl fst snd].
  destruct ops as [|op' ops].
  - inversion Hc; subst. done.
  - apply chain_le in Hc as Hle. unfold op_end in Hle. cbn [fst snd] in Hle.
    destruct (IH (N.min s1 (old_range op).1) (N.max e1 (old_range op).2)
      (N.min s2 (new_range op).1) (N.max e2 (new_range op).2)) as [-> ->]; [done|].
    unfold op_end. cbn [fst snd]. split; f_equal; lia.
Qed.

(** Hunks with equal lines around them, each with the right lines on both sides. *)
Definition line_in (l : LinePlan) : Prop :=
  (byte_start l, byte_len l) ∈ match lp_source l with Before => bl | After => al end.

Lemma line_plan_in ch l : line_plan bl al ch = Some l → line_in l.
Proof using Type.
  unfold line_plan, line_in. intros Hl.
  assert (∀ (table : list (N * N)) i p, getN table i = Some p → p ∈ table) as Hin.
  { intros table i p Hp. by eapply list_elem_of_lookup_2. }
  destruct (tag ch), (old_index ch), (new_index ch); cbn in Hl; try done;
    (destruct (getN _ _) as [[? ?]|] eqn:E; [|done]); injection Hl as <-; by apply Hin in E.
Qed.

Lemma lines_in changes ls : mapM (line_plan bl al) changes = Some ls → Forall line_in ls.
Proof using Type.
  rewrite mapM_Some. intros H2. apply Forall_forall. intros l Hl.
  apply list_elem_of_lookup in Hl as [i Hi].
  destruct (Forall2_lookup_r _ _ _ _ _ H2 Hi) as (ch & _ & Hch). by eapply line_plan_in.
Qed.

Definition hunk_ok (h : HunkPlan) : Prop :=
  omap (old_line bb ab) (hp_lines h) = slice (hp_old_start h) (hp_old_count h) Bt ∧
  omap (new_line bb ab) (hp_lines h) = slice (hp_new_start h) (hp_new_count h) At ∧
  (hp_old_start h + hp_old_count h <= lenN Bt)%N ∧ (hp_new_start h + hp_new_count h <= lenN At)%N ∧
  Forall line_in (hp_lines h).

Inductive covers : list HunkPlan → N * N → N * N → Prop :=
  | covers_nil p q : gap Bt At p q → covers [] p q
  | covers_cons h hs p q :
      gap Bt At p (hp_old_start h, hp_new_start h) → hunk_ok h →
      covers hs (hp_old_start h + hp_old_count h, hp_new_start h + hp_new_count h)%N q →
      covers (h :: hs) p q.

Lemma gap_trans p q r : gap Bt At p q → gap Bt At q r → gap Bt At p r.
Proof using Type.
  intros (k & -> & H1 & H2 & Hk) (m & -> & H3 & H4 & Hm). cbn [fst snd] in *.
  exists (k + m)%N. cbn [fst snd]. split_and!; [f_equal; lia|lia|lia|]. by rewrite !slice_app, Hk, Hm.
Qed.

Lemma covers_gap hs p q r : gap Bt At p q → covers hs q r → covers hs p r.
Proof using Type.
  intros Hg Hc. destruct Hc; econstructor; try done; by eapply gap_trans.
Qed.

Lemma slice_nonempty {X} (l : list X) a b : (a < b <= lenN l)%N → slice a (b - a) l ≠ [].
Proof using Type. intros Hab Hn. apply (f_equal lenN) in Hn. rewrite lenN_slice in Hn by lia. unfold lenN in Hn. simpl in Hn. lia. Qed.

Lemma plan_group_yields expired g p q :
  (lenN Bt <= usize_max)%N → (lenN At <= usize_max)%N →
  chain Bt At g p q → (p.1 <= lenN Bt)%N → (p.2 <= lenN At)%N →
  ∃ h, yields expired (plan_group expired bl al Bt At g) h ∧
    match h with
    | None => p = q
    | Some h => hunk_ok h ∧ (hp_old_start h, hp_new_start h) = p ∧
        (hp_old_start h + hp_old_count h, hp_new_start h + hp_new_count h)%N = q
    end.
Proof using Type.
  intros HB HA Hc H1 H2. destruct (chain_lines _ _ _ Hc H1 H2) as (Hq1 & Hq2 & ls & Hls & Ho & Hn).
  eexists. split.
  { unfold plan_group. eapply yields_bind; [apply yields_check|].
    rewrite (surjective_pairing (hunk_span old_range g)), (surjective_pairing (hunk_span new_range g)).
    eapply yields_bind; [by apply plan_changes_yields|]. apply yields_ret. }
  cbn [app]. case_decide as Hne.
  - subst ls. destruct p as [p1 p2], q as [q1 q2]. cbn [fst snd] in *.
    destruct (decide (p1 < q1)%N) as [Hlt|]; [exfalso; apply (slice_nonempty Bt p1 q1); [lia|by rewrite <- Ho]|].
    destruct (decide (p2 < q2)%N) as [Hlt|]; [exfalso; apply (slice_nonempty At p2 q2); [lia|by rewrite <- Hn]|].
    f_equal; lia.
  - assert (g ≠ []) as Hg by (intros ->; apply Hne; change (Some [] = Some ls) in Hls; congruence).
    destruct (chain_span g p q usize_max 0 usize_max 0 Hc Hg) as [E1 E2].
    unfold hunk_span. rewrite E1, E2. unfold hunk_ok. cbn [fst snd hp_old_start hp_old_count hp_new_start hp_new_count hp_lines].
    rewrite !N.min_r, !N.max_r by lia. rewrite Ho, Hn. destruct p, q. cbn [fst snd] in *.
    split_and!; [done|done|lia|lia|by eapply lines_in|done|f_equal; lia].
Qed.

Lemma plan_groups_yields expired gs p q hunks :
  (lenN Bt <= usize_max)%N → (lenN At <= usize_max)%N → grouped Bt At gs p q →
  ∃ hs, yields expired (plan_groups expired bl al Bt At gs hunks) (hunks ++ hs) ∧ covers hs p q.
Proof using Type.
  intros HB HA Hg. revert hunks. induction Hg as [p q Hgap|g gs p a b q Hgap Hc _ IH]; intros hunks; cbn [plan_groups].
  - exists []. rewrite app_nil_r. split; [apply yields_ret|by constructor].
  - pose proof Hgap as (k & _ & Ha1 & Ha2 & _).
    destruct (plan_group_yields expired g a b HB HA Hc Ha1 Ha2) as (h & Hy & Hh).
    destruct (IH (hunks ++ option_list h)) as (hs & Hys & Hcov).
    exists (option_list h ++ hs). split.
    + rewrite app_assoc. by eapply yields_bind.
    + destruct h as [h|]; cbn [option_list app].
      * destruct Hh as (Hok & <- & <-). by constructor.
      * subst b. by eapply covers_gap.
Qed.
End hunks.

(** ** Replaying a plan *)

(** Rewrites one side's lines into the other's: the lines between hunks stay, a
    hunk's span is replaced. *)
Fixpoint replay (start count : HunkPlan → N) (lines : HunkPlan → list (list N))
    (toks : list (list N)) (cursor : N) (hunks : list HunkPlan) : list (list N) :=
  match hunks with
  | [] => drop (N.to_nat cursor) toks
  | h :: hunks =>
      slice cursor (start h - cursor) toks ++ lines h ++
      replay start count lines toks (start h + count h) hunks
  end.

Definition replay_forward (before after : list N) (p : DiffPlan) (toks : list (list N)) : list (list N) :=
  replay hp_old_start hp_old_count (λ h, omap (new_line before after) (hp_lines h)) toks 0 (plan_hunks p).
Definition replay_backward (before after : list N) (p : DiffPlan) (toks : list (list N)) : list (list N) :=
  replay hp_new_start hp_new_count (λ h, omap (old_line before after) (hp_lines h)) toks 0 (plan_hunks p).

Lemma drop_slice {X} a b (l : list X) :
  (a <= b)%N → drop (N.to_nat a) l = slice a (b - a) l ++ drop (N.to_nat b) l.
Proof.
  intros Hab. unfold slice. replace (N.to_nat b) with (N.to_nat a + N.to_nat (b - a)) by lia.
  by rewrite <- drop_drop, take_drop.
Qed.

Lemma covers_replay `{Similar} before after bl al hs p :
  let B := tokens_of before bl in
  let A := tokens_of after al in
  covers before after bl al hs p (lenN B, lenN A) →
  replay hp_old_start hp_old_count (λ h, omap (new_line (as_bytes before) (as_bytes after)) (hp_lines h)) B p.1 hs
    = drop (N.to_nat p.2) A ∧
  replay hp_new_start hp_new_count (λ h, omap (old_line (as_bytes before) (as_bytes after)) (hp_lines h)) A p.2 hs
    = drop (N.to_nat p.1) B.
Proof.
  intros B A Hc. remember (lenN B, lenN A) as q eqn:Hq. subst B A.
  induction Hc as [p q (k & Hk & H1 & H2 & Hs)|h hs p q (k & Hk & H1 & H2 & Hs) (Ho & Hn & Hl1 & Hl2 & _) _ IH].
  - subst q. injection Hk as Hk1 Hk2.
    set (B := tokens_of before bl) in *. set (A := tokens_of after al) in *. cbn [replay].
    assert (∀ (l : list (list N)) a, lenN l = (a + k)%N → drop (N.to_nat a) l = slice a k l) as Hd.
    { intros l a Hl. unfold slice. rewrite take_ge; [done|]. rewrite length_drop. unfold lenN in Hl. lia. }
    by rewrite (Hd B), (Hd A), Hs by done.
  - destruct (IH Hq) as [IH1 IH2]. injection Hk as Hk1 Hk2.
    set (B := tokens_of before bl) in *. set (A := tokens_of after al) in *. cbn [replay fst snd] in *.
    rewrite IH1, IH2, Ho, Hn.
    replace (hp_old_start h - p.1)%N with k by lia. replace (hp_new_start h - p.2)%N with k by lia.
    rewrite Hs at 1. rewrite <- Hs at 2.
    rewrite (drop_slice p.2 (p.2 + k) A), (drop_slice p.1 (p.1 + k) B) by lia.
    replace (p.2 + k - p.2)%N with k by lia. replace (p.1 + k - p.1)%N with k by lia.
    rewrite <- Hk1, <- Hk2.
    rewrite (drop_slice (hp_new_start h) (hp_new_start h + hp_new_count h) A),
      (drop_slice (hp_old_start h) (hp_old_start h + hp_old_count h) B) by lia.
    split; do 3 f_equal; lia.
Qed.

(** Every planned line is a range of its snapshot that holds text. *)
Definition line_text_ok (before after : list N) (l : LinePlan) : Prop :=
  (byte_start l + byte_len l <= lenN (match lp_source l with Before => before | After => after end))%N ∧
  ∃ s, line_bytes before after l = as_bytes s ∧ forallb is_scalar s = true.
Definition plan_text (before after : list N) (p : DiffPlan) : Prop :=
  ∀ h l, h ∈ plan_hunks p → l ∈ hp_lines h → line_text_ok before after l.

(** What a plan of two texts is. *)
Definition plan_correct (before after : list N) (p : DiffPlan) : Prop :=
  ∃ before_text after_text bl al,
    from_utf8 before = Some before_text ∧ from_utf8 after = Some after_text ∧
    split_lines before_text MAX_DIFF_LINES = (bl, lenN bl) ∧
    split_lines after_text (MAX_DIFF_LINES - lenN bl) = (al, lenN al) ∧
    (lenN bl + lenN al <= MAX_DIFF_LINES)%N ∧
    replay_forward before after p (tokens_of before_text bl) = tokens_of after_text al ∧
    replay_backward before after p (tokens_of after_text al) = tokens_of before_text bl ∧
    concat (tokens_of before_text bl) = before ∧ concat (tokens_of after_text al) = after ∧
    plan_text before after p.

Lemma from_utf8_scalar bs s : from_utf8 bs = Some s → forallb is_scalar s = true.
Proof.
  unfold from_utf8. generalize (length bs) as f. intros f. revert bs s.
  induction f as [|f IH]; intros bs s; (destruct bs as [|b bs]; [by intros [= <-]|]); [done|].
  cbn [from_utf8_fuel]. destruct (decode_char (b :: bs)) as [[c rest]|] eqn:E; [|done].
  destruct (from_utf8_fuel f rest) as [s'|] eqn:F; [|done]. intros [= <-].
  cbn [forallb]. rewrite (IH _ _ F), andb_true_r. unfold decode_char in E.
  repeat match type of E with
  | context [decide ?P] => destruct (decide P)
  | context [match ?l with [] => _ | _ :: _ => _ end] => destruct l
  | (if ?b && _ then _ else _) = _ => destruct b eqn:Hb; simpl in E; [|done]; case_bool_decide
  end; by simplify_eq.
Qed.

Lemma forallb_concat {X} (p : X → bool) ls l : forallb p (concat ls) = true → l ∈ ls → forallb p l = true.
Proof.
  induction ls as [|k ls IH]; [by intros _ ?%not_elem_of_nil|]. cbn [concat]. rewrite forallb_app.
  intros [Hk Hls]%andb_prop [->|Hl]%elem_of_cons; [done|by apply IH].
Qed.

Lemma elem_of_slice {X} (x : X) s n l : x ∈ slice s n l → x ∈ l.
Proof.
  intros Hx. rewrite <- (take_drop (N.to_nat s) l). apply elem_of_app. right.
  rewrite <- (take_drop (N.to_nat n)). apply elem_of_app. by left.
Qed.

Lemma covers_hunks `{Similar} before after bl al hs p q h :
  covers before after bl al hs p q → h ∈ hs → hunk_ok before after bl al h.
Proof.
  induction 1 as [|h' hs p q _ Hok _ IH]; [by intros ?%not_elem_of_nil|].
  by intros [->|Hh]%elem_of_cons; [|apply IH].
Qed.

Lemma tile_range a lines b s l : tile a lines b → (s, l) ∈ lines → (s + l <= b)%N.
Proof.
  revert a. induction lines as [|[s' l'] lines IH]; intros a; [by intros _ ?%not_elem_of_nil|].
  intros (-> & _ & Ht) [[= -> ->]|Hin]%elem_of_cons; [by apply tile_le in Ht|by eapply IH].
Qed.

Lemma covers_lines `{Similar} before after bl al hs p q h l :
  covers before after bl al hs p q → h ∈ hs → l ∈ hp_lines h →
  line_bytes (as_bytes before) (as_bytes after) l ∈ tokens_of before bl ++ tokens_of after al ∧
  line_in bl al l.
Proof.
  intros Hc Hh Hl. destruct (covers_hunks _ _ _ _ _ _ _ _ Hc Hh) as (Ho & Hn & _ & _ & Hin).
  rewrite Forall_forall in Hin. split; [|by apply Hin].
  apply elem_of_app. destruct (decide (lp_kind l = Added)) as [Hk|Hk].
  - right. eapply elem_of_slice. rewrite <- Hn. apply list_elem_of_omap. exists l. split; [done|].
    unfold new_line. by rewrite decide_False by congruence.
  - left. eapply elem_of_slice. rewrite <- Ho. apply list_elem_of_omap. exists l. split; [done|].
    unfold old_line. by rewrite decide_False.
Qed.

Lemma lenN_tokens text lines : lenN (tokens_of text lines) = lenN lines.
Proof. apply lenN_fmap. Qed.

Section plan_diff.
Context `{S : Similar} {HS : SimilarLaws S} (expired : N → bool) (digest : list N → str).

(** C15 Comparing two snapshots gives one outcome, whatever the clock does: an
    expired query is refused and nothing else.  The outcome is "binary" exactly for
    a side that is not UTF-8 or holds a NUL; else it is a plan, empty and marked
    truncated over the line limit, and otherwise one that rewrites the lines of
    either snapshot into those of the other, which are the snapshots' bytes. *)
Theorem plan_diff_correct before after context_lines :
  ∃ outcome, yields expired (plan_diff expired digest before after context_lines) outcome ∧
    match outcome with
    | Binary => from_utf8 before = None ∨ from_utf8 after = None ∨ 0%N ∈ before ∨ 0%N ∈ after
    | Plan p => 0%N ∉ before ∧ 0%N ∉ after ∧
        if plan_truncated p then plan_hunks p = [] else plan_correct before after p
    end.
Proof using HS.
  destruct (from_utf8 before) as [bt|] eqn:EB.
  2:{ exists Binary. split; [|by left]. unfold plan_diff. rewrite EB.
      eapply yields_bind; [apply yields_check|apply yields_ret]. }
  destruct (from_utf8 after) as [at_|] eqn:EA.
  2:{ exists Binary. split; [|by right; left]. unfold plan_diff. rewrite EB, EA.
      eapply yields_bind; [apply yields_check|apply yields_ret]. }
  destruct (decide (0%N ∈ before ∨ 0%N ∈ after)) as [H0|H0].
  { exists Binary. split; [|by right; right]. unfold plan_diff. rewrite EB, EA.
    eapply yields_bind; [apply yields_check|]. rewrite decide_True by done. apply yields_ret. }
  apply Decidable.not_or in H0 as [HB0 HA0].
  set (bl := (split_lines bt MAX_DIFF_LINES).1).
  set (al := (split_lines at_ (MAX_DIFF_LINES - lenN bl)).1).
  destruct (decide (lenN bl <= MAX_DIFF_LINES ∧ lenN al <= MAX_DIFF_LINES - lenN bl)%N) as [[Hb Ha]|Hov].
  2:{ exists (over_limit digest). split; [|done]. unfold plan_diff. rewrite EB, EA.
      eapply yields_bind; [apply yields_check|]. rewrite decide_False by (by intros [?|?]).
      change (split_lines bt MAX_DIFF_LINES) with (bl, lenN bl). cbv beta iota.
      case_decide; [apply yields_ret|].
      change (split_lines at_ (MAX_DIFF_LINES - lenN bl)) with (al, lenN al). cbv beta iota.
      case_decide; [apply yields_ret|]. lia. }
  assert (split_lines bt MAX_DIFF_LINES = (bl, lenN bl)) as Sb by done.
  assert (split_lines at_ (MAX_DIFF_LINES - lenN bl) = (al, lenN al)) as Sa by done.
  set (B := tokens_of bt bl). set (A := tokens_of at_ al).
  pose proof (diff_ops_chain B A) as Hchain.
  pose proof (group_law B A _ context_lines Hchain) as Hg.
  destruct (plan_groups_yields bt at_ bl al expired _ _ _ [] ltac:(rewrite lenN_tokens; unfold MAX_DIFF_LINES, usize_max, u64_max in *; lia)
    ltac:(rewrite lenN_tokens; unfold MAX_DIFF_LINES, usize_max, u64_max in *; lia) Hg) as (hs & Hy & Hcov).
  exists (Plan (mkPlan hs (plan_fingerprint digest context_lines (diff_ops B A).2 hs) false)). split.
  { unfold plan_diff. rewrite EB, EA. eapply yields_bind; [apply yields_check|].
    rewrite decide_False by (by intros [?|?]). rewrite Sb. cbv beta iota. rewrite decide_False by lia.
    rewrite Sa. cbv beta iota. rewrite decide_False by lia. fold B A.
    rewrite (surjective_pairing (diff_ops B A)).
    eapply yields_bind; [exact Hy|]. cbn [app].
    eapply yields_bind; [apply yields_check|]. apply yields_ret. }
  split_and!; [done|done|]. cbn [plan_truncated].
  destruct (tokens_of_text _ _ _ _ Sb Hb) as (bls & Hbls & Hbc).
  destruct (tokens_of_text _ _ _ _ Sa Ha) as (als & Hals & Hac).
  apply from_utf8_scalar in EB as SB. apply from_utf8_scalar in EA as SA.
  pose proof EB as EB'. pose proof EA as EA'. apply from_utf8_sound in EB', EA'.
  destruct (covers_replay bt at_ bl al hs (0, 0)%N Hcov) as [R1 R2].
  exists bt, at_, bl, al. split_and!; try done.
  - lia.
  - unfold replay_forward. rewrite <- EB', <- EA'. exact R1.
  - unfold replay_backward. rewrite <- EB', <- EA'. exact R2.
  - destruct (split_lines_spec _ _ _ _ Sb Hb) as (_ & Ht & _). unfold tokens_of.
    rewrite (tile_concat _ _ _ _ Ht), N.sub_0_r, slice_all. done.
  - destruct (split_lines_spec _ _ _ _ Sa Ha) as (_ & Ht & _). unfold tokens_of.
    rewrite (tile_concat _ _ _ _ Ht), N.sub_0_r, slice_all. done.
  - intros h l Hh Hl. destruct (covers_lines _ _ _ _ _ _ _ _ _ Hcov Hh Hl) as [Hin Htab].
    destruct (split_lines_spec _ _ _ _ Sb Hb) as (_ & Ht & _).
    destruct (split_lines_spec _ _ _ _ Sa Ha) as (_ & Ht' & _). rewrite EB' in Ht. rewrite EA' in Ht'.
    split.
    { unfold line_in in Htab. destruct (lp_source l); by eapply tile_range. }
    rewrite Hbls, Hals, EB', EA' in Hin. apply elem_of_app in Hin as [Hin|Hin];
      apply list_elem_of_fmap in Hin as (s & -> & Hs); exists s; (split; [done|]);
      eapply forallb_concat; [rewrite Hbc|exact Hs|rewrite Hac|exact Hs]; done.
Qed.
End plan_diff.

(** ** A crate that satisfies the laws

    Every middle is a replacement and every script one group: coarse, but within
    what the source relies on. *)

Inductive NaiveOp := NaiveEqual (o n k : N) | NaiveReplace (o k n m : N).

Definition naive_old_range (op : NaiveOp) : N * N :=
  match op with NaiveEqual o _ k | NaiveReplace o k _ _ => (o, o + k)%N end.
Definition naive_new_range (op : NaiveOp) : N * N :=
  match op with NaiveEqual _ n k | NaiveReplace _ _ n k => (n, n + k)%N end.
Definition naive_changes (op : NaiveOp) (_ _ : list (list N)) : list Change :=
  match op with
  | NaiveEqual o n k => (λ i, mkChange TagEqual (Some (o + i)%N) (Some (n + i)%N)) <$> seqN 0 k
  | NaiveReplace o k n m =>
      ((λ i, mkChange TagDelete (Some i) None) <$> seqN o (o + k)) ++
      ((λ i, mkChange TagInsert None (Some i)) <$> seqN n (n + m))
  end.

#[global] Instance Naive : Similar := {|
  DiffOp := NaiveOp;
  Equal := NaiveEqual;
  Replace := NaiveReplace;
  old_range := naive_old_range;
  new_range := naive_new_range;
  iter_changes := naive_changes;
  capture_diff := λ _ o _ n, [NaiveReplace o.1 (o.2 - o.1) n.1 (n.2 - n.1)];
  group_diff_ops := λ ops _, [ops]
|}.

Lemma omap_fmap_some {X Y} (f : X → Y) (g : Y → option X) (l : list X) :
  (∀ x, g (f x) = Some x) → omap g (f <$> l) = l.
Proof. intros Hg. induction l as [|x l IH]; [done|]. csimpl. by rewrite Hg, IH. Qed.
Lemma omap_fmap_none {X Y Z} (f : X → Y) (g : Y → option Z) (l : list X) :
  (∀ x, g (f x) = None) → omap g (f <$> l) = [].
Proof. intros Hg. induction l as [|x l IH]; [done|]. csimpl. by rewrite Hg. Qed.

Lemma seqN_shift a k : (λ i, a + i)%N <$> seqN 0 k = seqN a (a + k).
Proof.
  unfold seqN. rewrite <- list_fmap_compose. replace (a + k - a)%N with (k - 0)%N by lia.
  apply list_fmap_ext. intros _ x _. simpl. lia.
Qed.

Lemma omap_shift (f : N → Change) (g : Change → option N) a k :
  (∀ i, g (f i) = Some (a + i)%N) → omap g (f <$> seqN 0 k) = seqN a (a + k).
Proof.
  intros Hg. rewrite <- seqN_shift. induction (seqN 0 k) as [|x l IH]; [done|]. csimpl. by rewrite Hg, IH.
Qed.

Lemma slice_eq_getN {X} (B A : list X) o n k i :
  slice o k B = slice n k A → (i < k)%N → (o + k <= lenN B)%N →
  ∃ t, getN B (o + i) = Some t ∧ getN A (n + i) = Some t.
Proof.
  intros Hs Hi Hb. destruct (getN_is_Some B (o + i) ltac:(lia)) as [t Ht]. exists t. split; [done|].
  apply (f_equal (λ l, l !! N.to_nat i)) in Hs. unfold slice, getN in *.
  rewrite !lookup_take_lt, !lookup_drop in Hs by lia.
  replace (N.to_nat (o + i)) with (N.to_nat o + N.to_nat i) in Ht by lia.
  replace (N.to_nat (n + i)) with (N.to_nat n + N.to_nat i) by lia. by rewrite <- Hs.
Qed.

Lemma naive_replace_ok B A o k n m :
  (o + k <= lenN B)%N → (n + m <= lenN A)%N → op_ok B A (NaiveReplace o k n m).
Proof.
  intros H1 H2. split; simpl; [lia|lia|..].
  - rewrite omap_app, (omap_fmap_some (λ i, mkChange TagDelete (Some i) None)) by done.
    by rewrite omap_fmap_none, app_nil_r.
  - rewrite omap_app, omap_fmap_none by done. by rewrite omap_fmap_some.
  - intros ch [(i & -> & _)%list_elem_of_fmap|(i & -> & _)%list_elem_of_fmap]%elem_of_app; simpl; eauto.
Qed.

#[global] Instance NaiveLaws : SimilarLaws Naive.
Proof.
  split.
  - intros B A o n k H1 H2 Hs. apply (chain_cons _ _ _ _ (o, n) (o + k, n + k)%N);
      [|done|constructor]. split; simpl; [lia|lia|by apply omap_shift|by apply omap_shift|].
    intros ch (i & -> & Hi)%list_elem_of_fmap. simpl. apply elem_of_seqN in Hi.
    destruct (slice_eq_getN B A o n k i Hs ltac:(lia) H1) as (t & ? & ?). eauto 10.
  - intros B A o k n m H1 H2. apply (chain_cons _ _ _ _ (o, n) (o + k, n + m)%N); [|done|constructor].
    by apply naive_replace_ok.
  - intros B A o1 o2 n1 n2 Ho Hn.
    apply (chain_cons (H := Naive) _ _ (NaiveReplace o1 (o2 - o1) n1 (n2 - n1)) [] (o1, n1) (o2, n2)); [|done|].
    + apply naive_replace_ok; simpl; lia.
    + unfold op_end. simpl. replace (o1 + (o2 - o1))%N with o2 by lia.
      replace (n1 + (n2 - n1))%N with n2 by lia. constructor.
  - intros B A ops c Hc. change (group_diff_ops ops c) with [ops]. eapply grouped_cons; [|exact Hc|].
    + exists 0%N. simpl. split_and!; [done|lia|lia|done].
    + constructor. exists 0%N. simpl. rewrite !N.add_0_r. by split_and!.
Qed.

Definition diff_before : list N := as_bytes (lit "a
b
d").
Definition diff_after : list N := as_bytes (lit "a
c
d").

Lemma plan_diff_correct_witness :
  ∃ p, (plan_diff (λ _, false) (λ _, []) diff_before diff_after 3 0%N).2 = Ok (Plan p) ∧
    hp_old_start <$> plan_hunks p = [0%N] ∧ plan_correct diff_before diff_after p.
Proof.
  destruct (plan_diff_correct (λ _, false) (λ _, []) diff_before diff_after 3) as (outcome & Hy & Ho).
  destruct (Hy 0%N) as [(n' & Hn)|(n' & k & _ & ?)]; [|done].
  assert ((λ p, hp_old_start <$> plan_hunks p) <$> (match (plan_diff (λ _, false) (λ _, []) diff_before diff_after 3 0%N).2 with
    Ok (Plan p) => if plan_truncated p then None else Some p | _ => None end) = Some [0%N]) as Hc by (by vm_compute).
  rewrite Hn in Hc. simpl in Hc. destruct outcome as [|p]; [done|].
  exists p. rewrite Hn. split; [done|]. destruct Ho as (_ & _ & Ho).
  destruct (plan_truncated p); [done|]. split; [by injection Hc|exact Ho].
Defined.

(** ** The fingerprint *)

Lemma option_index_length o : length (option_index o) = 9.
Proof. by destruct o. Qed.

Definition index_wf (o : option N) : Prop := match o with Some n => (n <= u64_max)%N | None => True end.
Definition line_wf (l : LinePlan) : Prop :=
  index_wf (lp_old_index l) ∧ index_wf (lp_new_index l) ∧ (byte_start l <= u64_max)%N ∧ (byte_len l <= u64_max)%N ∧
  lp_source l = match lp_kind l with Removed => Before | _ => After end.
Definition hunk_wf (h : HunkPlan) : Prop :=
  (hp_old_start h <= u64_max ∧ hp_old_count h <= u64_max ∧ hp_new_start h <= u64_max ∧
   hp_new_count h <= u64_max)%N ∧ (lenN (hp_lines h) <= u64_max)%N ∧ Forall line_wf (hp_lines h).

Lemma option_index_inj o o' : index_wf o → index_wf o' → option_index o = option_index o' → o = o'.
Proof.
  destruct o as [n|], o' as [m|]; [|done|done|done]. intros Hn Hm [= He]. f_equal.
  apply u64_bytes_inj; [done|done|]. unfold u64_bytes. simpl. congruence.
Qed.

(** Splits equal concatenations whose first parts have the same length. *)
Ltac app_split H H1 :=
  apply app_inj_1 in H as [H1 H];
  [|rewrite ?u64_bytes_length, ?option_index_length; reflexivity].

Lemma line_encoding_inj l l' r r' :
  line_wf l → line_wf l' → line_encoding l ++ r = line_encoding l' ++ r' → l = l' ∧ r = r'.
Proof.
  intros (W1 & W2 & W3 & W4 & W5) (W1' & W2' & W3' & W4' & W5') He.
  unfold line_encoding in He. rewrite <- !app_assoc in He.
  app_split He H1. app_split He H2. app_split He H3. app_split He H4. app_split He H5.
  apply option_index_inj in H2, H3; [|done..]. apply u64_bytes_inj in H4, H5; [|done..].
  assert (lp_kind l = lp_kind l') as H0 by (by destruct (lp_kind l), (lp_kind l')).
  split; [|done]. destruct l, l'. simpl in *. by subst.
Qed.

Lemma lines_encoding_inj ls ls' r r' :
  length ls = length ls' → Forall line_wf ls → Forall line_wf ls' →
  (ls ≫= line_encoding) ++ r = (ls' ≫= line_encoding) ++ r' → ls = ls' ∧ r = r'.
Proof.
  revert ls'. induction ls as [|l ls IH]; intros [|l' ls'] Hlen Hw Hw' He; [done|done|done|].
  apply Forall_cons in Hw as [Hl Hw], Hw' as [Hl' Hw']. cbn [mbind list_bind] in He.
  rewrite <- !app_assoc in He. apply line_encoding_inj in He as [-> He]; [|done..].
  injection Hlen as Hlen. by destruct (IH _ Hlen Hw Hw' He) as [-> ->].
Qed.

Lemma hunk_encoding_inj h h' r r' :
  hunk_wf h → hunk_wf h' → hunk_encoding h ++ r = hunk_encoding h' ++ r' → h = h' ∧ r = r'.
Proof.
  intros ((W1 & W2 & W3 & W4) & W5 & W6) ((W1' & W2' & W3' & W4') & W5' & W6') He.
  unfold hunk_encoding in He. rewrite <- !app_assoc in He.
  app_split He H1. app_split He H2. app_split He H3. app_split He H4. app_split He H5.
  apply u64_bytes_inj in H1, H2, H3, H4, H5; [|done..].
  apply lines_encoding_inj in He as [He ->]; [|unfold lenN in H5; lia|done..].
  split; [|done]. destruct h, h'. simpl in *. by subst.
Qed.

Lemma hunks_encoding_inj hs hs' :
  length hs = length hs' → Forall hunk_wf hs → Forall hunk_wf hs' →
  (hs ≫= hunk_encoding) = (hs' ≫= hunk_encoding) → hs = hs'.
Proof.
  revert hs'. induction hs as [|h hs IH]; intros [|h' hs'] Hlen Hw Hw' He; [done|done|done|].
  apply Forall_cons in Hw as [Hh Hw], Hw' as [Hh' Hw']. cbn [mbind list_bind] in He.
  apply hunk_encoding_inj in He as [-> He]; [|done..]. injection Hlen as Hlen. f_equal. by apply IH.
Qed.

(** The bytes that are hashed into a plan's fingerprint determine the plan, the
    context and whether the middle was replaced as a whole: two plans with the same
    encoding are equal. *)
Theorem plan_encoding_injective context context' replace replace' hunks hunks' :
  (context <= u64_max)%N → (context' <= u64_max)%N →
  (lenN hunks <= u64_max)%N → (lenN hunks' <= u64_max)%N →
  Forall hunk_wf hunks → Forall hunk_wf hunks' →
  plan_encoding context replace hunks = plan_encoding context' replace' hunks' →
  context = context' ∧ replace = replace' ∧ hunks = hunks'.
Proof.
  intros Hc Hc' Hl Hl' Hw Hw' He. unfold plan_encoding in He.
  app_split He H1. app_split He H2. app_split He H3.
  apply u64_bytes_inj in H2, H3; [|done..]. split_and!; [done|by destruct replace, replace'|].
  apply hunks_encoding_inj; [unfold lenN in H3; lia|done..].
Qed.

Lemma plan_encoding_injective_witness :
  let h := mkHunkPlan 0 1 0 1 [mkLinePlan Removed (Some 0%N) None Before 0 2; mkLinePlan Added None (Some 0%N) After 0 2] in
  3%N = 3%N ∧ true = true ∧ [h] = [h].
Proof.
  set (h := mkHunkPlan 0 1 0 1 _). cbv zeta.
  apply (plan_encoding_injective 3 3 true true [h] [h]); try done;
    (constructor; [|constructor]; split_and!; [done..|]; repeat constructor; done).
Defined.

(** The lines of a text tile its bytes in order; each is a body without line
    breaks and one of the three line endings, which only the last line may lack;
    cutting at them never splits a character.  Over the limit, more than the limit
    are reported. *)
Theorem split_lines_tiles text limit :
  let '(lines, count) := split_lines text limit in
  count = lenN lines ∧
  ((limit < count)%N ∨
   tile 0 lines (lenN (as_bytes text)) ∧ Forall (is_line (as_bytes text)) lines ∧
   ∃ ls : list str, tokens_of text lines = as_bytes <$> ls ∧ concat ls = text).
Proof.
  destruct (split_lines text limit) as [lines count] eqn:E. destruct (decide (limit < count)%N) as [Hlt|Hge].
  - split; [|by left]. by injection E as <- <-.
  - assert (count <= limit)%N as Hle by lia. destruct (split_lines_spec _ _ _ _ E Hle) as (H1 & H2 & H3).
    split; [done|right]. split_and!; [done|done|]. by apply (tokens_of_text text limit _ count).
Qed.
