(* ===== verification/DiffPage.v ===== *)
(** Paging a diff, the second half of [diff.rs].

    [build_page] lays the planned lines out as JSON hunks until the byte budget of
    one answer is spent, cutting a line at a character boundary where it must, and
    hands out a cursor for the rest.  [encoded_len] is the serializer's; the model
    takes the encoded sizes of the pieces as functions.  The theorems: a page and
    what its cursor points to are what the start cursor pointed to, a page fits its
    budget, every unfinished page makes progress, only a piece of seven bytes that the
    budget does not hold is refused, and following the cursors ends with the whole
    diff. *)

From S2P Require Import Prelude RustStr Errors Diff.

(** ** Data *)

Record DiffLine := mkDiffLine {
  dl_kind : DiffLineKind;
  dl_old_index : option N;
  dl_new_index : option N;
  line_byte_offset : N;
  line_byte_len : N;
  text : str;
  line_complete : bool
}.

Record DiffHunk := mkDiffHunk {
  old_start : N;
  old_count : N;
  new_start : N;
  new_count : N;
  lines : list DiffLine
}.

Record PageMeter := mkMeter {
  base_empty : N;
  completed_bytes : N;
  completed_hunks : N;
  current : option (N * N * N);   (* opening, lines and their number *)
  max_bytes : N
}.

(** ** The meter *)

Definition comma (n : N) : N := if decide (0 < n)%N then 1 else 0.

Definition fits_with (m : PageMeter) (line_json_len : N) : bool :=
  let '(sum, count) :=
    match current m with
    | Some (opening, comp, n) =>
        let comp := (comp + comma n + line_json_len)%N in
        (saturating_add (saturating_add (saturating_add (completed_bytes m) opening) 2) comp,
         completed_hunks m + 1)%N
    | None => (completed_bytes m, completed_hunks m)
    end in
  let content := if decide (count = 0)%N then 0%N else saturating_add sum (count - 1) in
  bool_decide (saturating_add (base_empty m) content <= max_bytes m)%N.

Definition commit_line (m : PageMeter) (line_json_len : N) : PageMeter :=
  match current m with
  | Some (opening, comp, n) =>
      mkMeter (base_empty m) (completed_bytes m) (completed_hunks m)
        (Some (opening, comp + comma n + line_json_len, n + 1)%N) (max_bytes m)
  | None => m
  end.

Definition open_hunk (m : PageMeter) (full_open : N) : PageMeter :=
  mkMeter (base_empty m) (completed_bytes m) (completed_hunks m) (Some (full_open, 0, 0)%N) (max_bytes m).

Definition finish_hunk (m : PageMeter) : PageMeter :=
  match current m with
  | Some (opening, comp, _) =>
      mkMeter (base_empty m) (completed_bytes m + (opening + 2 + comp)) (completed_hunks m + 1) None (max_bytes m)
  | None => m
  end.

(** ** Building a page *)

(** [slice.get(a..b)] and [slice.get(a..)]. *)
Definition get_range {A} (l : list A) (a b : N) : option (list A) :=
  if decide (a <= b <= lenN l)%N then Some (slice a (b - a) l) else None.
Definition get_from {A} (l : list A) (a : N) : option (list A) :=
  if decide (a <= lenN l)%N then Some (drop (N.to_nat a) l) else None.

Definition is_char_boundary (s : str) (k : N) : bool := bool_decide (str_len (split_floor k s).1 = k).

Fixpoint remove_empty_tail (page : list DiffHunk) : list DiffHunk :=
  match page with
  | [] => []
  | h :: page =>
      match remove_empty_tail page with
      | [] => if decide (length (lines h) = 0) then [] else [h]
      | page => h :: page
      end
  end.

(** [page.last_mut().expect(..).lines.push(fragment)] *)
Fixpoint push_fragment (f : DiffLine) (page : list DiffHunk) : option (list DiffHunk) :=
  match page with
  | [] => None
  | [h] => Some [mkDiffHunk (old_start h) (old_count h) (new_start h) (new_count h) (lines h ++ [f])]
  | h :: page => cons h <$> push_fragment f page
  end.

Record PageState := mkPage {
  hi : N;
  li : N;
  offset : N;
  meter : PageMeter;
  page : list DiffHunk;
  next_position : option (N * N * N);
  complete : bool
}.

Inductive flow := Continue (s : PageState) | Break (s : PageState).

Section page.
(** The encoded sizes of a fragment, of a hunk without lines and of the result
    without hunks, and the snapshots. *)
Context (line_len : DiffLine → N) (hunk_len : DiffHunk → N) (before after : list N).

Definition fragment_of (line : LinePlan) (offset : N) (text : str) (line_complete : bool) : DiffLine :=
  mkDiffLine (lp_kind line) (lp_old_index line) (lp_new_index line) offset (byte_len line) text line_complete.

Definition hunk_of (h : HunkPlan) : DiffHunk :=
  mkDiffHunk (hp_old_start h) (hp_old_count h) (hp_new_start h) (hp_new_count h) [].

Definition hunk_open_len (h : HunkPlan) : N := hunk_len (hunk_of h) - 2.

(** The longest prefix of [text], by halving, whose fragment still fits. *)
Fixpoint choose (fuel : nat) (m : PageMeter) (line : LinePlan) (offset : N) (text : str) (take : N)
    : option (str * bool) :=
  match fuel with
  | O => None
  | S fuel =>
      if decide (take = 0)%N then None else
      let part := (split_floor take text).1 in
      if decide (part = []) then None else
      let line_complete := bool_decide (str_len part = str_len text) in
      if fits_with m (line_len (fragment_of line offset part line_complete))
      then Some (part, line_complete)
      else choose fuel m line offset text (str_len part / 2)
  end.

(** The text of [line] from [offset] on, with the checks of the source. *)
Definition remaining_text (line : LinePlan) (offset : N) : result AgentError str :=
  let source := match lp_source line with Before => before | After => after end in
  let end_ := saturating_add (byte_start line) (byte_len line) in
  line_bytes ← ok_or (get_range source (byte_start line) end_) Internal;
  remaining ← ok_or (get_from line_bytes offset) InvalidArguments;
  _ ← (if decide (0 < offset)%N
       then full ← ok_or (from_utf8 line_bytes) Internal;
            ensure (is_char_boundary full offset = true) InvalidArguments
       else Ok tt);
  ok_or (from_utf8 remaining) Internal.

(** One round of the loop. *)
Definition page_step (plan : DiffPlan) (s : PageState) : result AgentError flow :=
  match getN (plan_hunks plan) (hi s) with
  | None => Ok (Break s)
  | Some hunk =>
      match getN (hp_lines hunk) (li s) with
      | None =>
          Ok (Continue (mkPage (hi s + 1) 0 0 (finish_hunk (meter s)) (page s) (next_position s) (complete s)))
      | Some line =>
          if decide (offset s = byte_len line)
          then Ok (Continue (mkPage (hi s) (li s + 1) 0 (meter s) (page s) (next_position s) (complete s)))
          else
            let '(m, pg) :=
              match current (meter s) with
              | None => (open_hunk (meter s) (hunk_open_len hunk), page s ++ [hunk_of hunk])
              | Some _ => (meter s, page s)
              end in
            text ← remaining_text line (offset s);
            match choose (S (N.to_nat (str_len text))) m line (offset s) text (str_len text) with
            | None =>
                let pg := remove_empty_tail pg in
                if decide (length pg = 0) then Err InvalidArguments
                else Ok (Break (mkPage (hi s) (li s) (offset s) m pg (next_position s) false))
            | Some (part, line_complete) =>
                let fragment := fragment_of line (offset s) part line_complete in
                let m := commit_line m (line_len fragment) in
                pg ← ok_or (push_fragment fragment pg) Internal (* a hunk is open *);
                if line_complete
                then Ok (Continue (mkPage (hi s) (li s + 1) 0 m pg (next_position s) (complete s)))
                else
                  let offset := saturating_add (offset s) (str_len part) in
                  Ok (Break (mkPage (hi s) (li s) offset m pg (Some (hi s, li s, offset)) false))
            end
      end
  end.

Fixpoint page_loop (fuel : nat) (plan : DiffPlan) (s : PageState) : option (result AgentError PageState) :=
  match fuel with
  | O => None
  | S fuel =>
      match page_step plan s with
      | Err e => Some (Err e)
      | Ok (Break s) => Some (Ok s)
      | Ok (Continue s) => page_loop fuel plan s
      end
  end.

(** Every round but the last passes a line or a hunk. *)
Definition page_fuel (plan : DiffPlan) : nat :=
  S (foldr (λ h n, S (length (hp_lines h)) + n) 0 (plan_hunks plan)).

Definition start_valid (plan : DiffPlan) (start : N * N * N) : bool :=
  let '(hi, li, offset) := start in
  let n := lenN (plan_hunks plan) in
  negb (bool_decide (n < hi)%N || (bool_decide (hi = n) && bool_decide (li ≠ 0 ∨ offset ≠ 0)%N) ||
    match getN (plan_hunks plan) hi with
    | Some hunk => bool_decide (lenN (hp_lines hunk) <= li)%N
    | None => false
    end).

(** [build_page] on positions; [template_len] is the encoded size of the result
    with the largest cursor the plan can need. *)
Definition build_page (template_len max_bytes : N) (plan : DiffPlan) (start : N * N * N)
    : option (result AgentError (list DiffHunk * option (N * N * N) * bool)) :=
  if negb (start_valid plan start) then Some (Err InvalidArguments) else
  let '(hi0, li0, offset0) := start in
  let m := mkMeter template_len 0 0 None max_bytes in
  r ← page_loop (page_fuel plan) plan (mkPage hi0 li0 offset0 m [] None true);
  Some (s ← r;
    let complete := complete s && negb (bool_decide (hi s < lenN (plan_hunks plan))%N) in
    let next :=
      if complete then None
      else match next_position s with
           | Some p => Some p
           | None => Some (hi s, li s, offset s)
           end in
    Ok (page s, next, complete)).
End page.

(** ** What a page says

    A diff is read as its characters, each with its hunk, its line and its byte
    offset in the line. *)

Definition Span : Type := N * N * N * N.
Definition Meta : Type := DiffLineKind * option N * option N * N.
Definition Atom : Type := Span * Meta * N * char.

Definition plan_span (h : HunkPlan) : Span := (hp_old_start h, hp_old_count h, hp_new_start h, hp_new_count h).
Definition header_of (h : DiffHunk) : Span := (old_start h, old_count h, new_start h, new_count h).
Definition plan_meta (l : LinePlan) : Meta := (lp_kind l, lp_old_index l, lp_new_index l, byte_len l).
Definition line_meta (l : DiffLine) : Meta := (dl_kind l, dl_old_index l, dl_new_index l, line_byte_len l).

Fixpoint text_atoms (sp : Span) (meta : Meta) (offset : N) (s : str) : list Atom :=
  match s with
  | [] => []
  | c :: s => (sp, meta, offset, c) :: text_atoms sp meta (offset + len_utf8 c) s
  end.

Definition fragment_atoms (sp : Span) (f : DiffLine) : list Atom :=
  text_atoms sp (line_meta f) (line_byte_offset f) (text f).
Definition hunk_atoms (h : DiffHunk) : list Atom := lines h ≫= fragment_atoms (header_of h).
Definition page_atoms (page : list DiffHunk) : list Atom := page ≫= hunk_atoms.

Section plan_atoms.
Context (before after : list N).

Definition line_text (l : LinePlan) : str := default [] (from_utf8 (line_bytes before after l)).
Definition line_atoms (sp : Span) (offset : N) (l : LinePlan) : list Atom :=
  text_atoms sp (plan_meta l) offset (split_floor offset (line_text l)).2.
Definition lines_atoms (sp : Span) (ls : list LinePlan) : list Atom := ls ≫= line_atoms sp 0.
Definition hunk_plan_atoms (h : HunkPlan) : list Atom := lines_atoms (plan_span h) (hp_lines h).

(** The rest of a plan from a position on. *)
Definition plan_atoms (plan : DiffPlan) (p : N * N * N) : list Atom :=
  let '(hi, li, offset) := p in
  match drop (N.to_nat hi) (plan_hunks plan) with
  | [] => []
  | h :: hs =>
      match drop (N.to_nat li) (hp_lines h) with
      | [] => []
      | l :: ls => line_atoms (plan_span h) offset l ++ lines_atoms (plan_span h) ls
      end ++ (hs ≫= hunk_plan_atoms)
  end.
End plan_atoms.

Lemma text_atoms_app sp meta offset s t :
  text_atoms sp meta offset (s ++ t) = text_atoms sp meta offset s ++ text_atoms sp meta (offset + str_len s) t.
Proof.
  revert offset. induction s as [|c s IH]; intros offset; simpl; [by rewrite N.add_0_r|].
  rewrite IH. do 3 f_equal. lia.
Qed.

Lemma text_atoms_nil sp meta offset s : text_atoms sp meta offset s = [] → s = [].
Proof. by destruct s. Qed.

(** ** The encoded size of a page

    [serde_json] writes an array as its elements separated by commas in brackets. *)

Definition array_len (ls : list N) : N := (foldr N.add 0 ls + (lenN ls - 1))%N.

Section size.
Context (line_len : DiffLine → N) (hunk_len : DiffHunk → N).

Definition empty_hunk (h : DiffHunk) : DiffHunk :=
  mkDiffHunk (old_start h) (old_count h) (new_start h) (new_count h) [].
Definition hunk_json_len (h : DiffHunk) : N :=
  (hunk_len (empty_hunk h) + array_len (line_len <$> lines h))%N.
Definition hunks_json_len (page : list DiffHunk) : N := array_len (hunk_json_len <$> page).
End size.

Lemma array_len_snoc ls x : array_len (ls ++ [x]) = (array_len ls + comma (lenN ls) + x)%N.
Proof.
  unfold array_len, comma. rewrite foldr_app, lenN_app. simpl.
  assert (∀ y, foldr N.add y ls = foldr N.add 0 ls + y)%N as Hy.
  { intros y. induction ls as [|z ls IH]; simpl; [lia|]. rewrite IH. lia. }
  rewrite (Hy (x + 0)%N). change (lenN [x]) with 1%N. case_decide; lia.
Qed.

(** ** Positions in a line *)

Lemma char_boundary_split s k :
  is_char_boundary s k = true → ∃ a b, s = a ++ b ∧ str_len a = k.
Proof.
  unfold is_char_boundary. intros Hb%bool_decide_eq_true.
  exists (split_floor k s).1, (split_floor k s).2. split; [symmetry; apply split_floor_app|done].
Qed.

(** Two strings with the same bytes are the same. *)
Lemma as_bytes_inj s t : forallb is_scalar s = true → forallb is_scalar t = true → as_bytes s = as_bytes t → s = t.
Proof.
  intros Hs Ht He. apply from_utf8_as_bytes in Hs, Ht. rewrite He in Hs. congruence.
Qed.

(** ** Choosing a prefix *)

Section choosing.
Context (line_len : DiffLine → N).

Lemma choose_Some fuel m line offset text take part lc :
  choose line_len fuel m line offset text take = Some (part, lc) →
  part ≠ [] ∧ (∃ rest, text = part ++ rest ∧ (lc = true ↔ rest = [])) ∧
  fits_with m (line_len (fragment_of line offset part lc)) = true.
Proof using Type.
  revert take. induction fuel as [|fuel IH]; intros take; [done|]. cbn [choose].
  case_decide as Ht; [done|]. case_decide as Hp; [done|].
  intros Hc. match type of Hc with context [fits_with ?a ?b] => destruct (fits_with a b) eqn:Hf end;
    [injection Hc as <- <-|by apply IH in Hc].
  split_and!; [done| |done]. exists (split_floor take text).2. rewrite split_floor_app. split; [done|].
  rewrite bool_decide_eq_true. pose proof (split_floor_app take text) as Ha.
  apply (f_equal str_len) in Ha. rewrite str_len_app in Ha. split.
  - intros He. apply str_len_0. lia.
  - intros He. rewrite He in Ha. simpl in Ha. lia.
Qed.

(** Halving stops at a prefix of at most seven bytes: half of it is shorter than one
    character.  When nothing was chosen, not even that prefix fits. *)
Lemma choose_None fuel m line offset text take :
  choose line_len fuel m line offset text take = None → (N.to_nat take < fuel)%nat →
  (split_floor take text).1 ≠ [] →
  ∃ part rest, text = part ++ rest ∧ part ≠ [] ∧ (str_len part <= 7)%N ∧
    fits_with m (line_len (fragment_of line offset part (bool_decide (rest = [])))) = false.
Proof using Type.
  revert take. induction fuel as [|fuel IH]; intros take Hc Hf Hne; [lia|]. cbn [choose] in Hc.
  pose proof (split_floor_app take text) as Ha. pose proof (split_floor_le take text) as Hle.
  set (part := (split_floor take text).1) in *. set (rest := (split_floor take text).2) in *.
  assert (0 < str_len part)%N as Hpos by (destruct (decide (str_len part = 0)%N) as [E|]; [by apply str_len_0 in E|lia]).
  rewrite (decide_False (P := take = 0%N)) in Hc by lia. rewrite (decide_False (P := part = [])) in Hc by done.
  assert (bool_decide (str_len part = str_len text) = bool_decide (rest = [])) as Hrest.
  { apply bool_decide_ext. rewrite <- Ha, str_len_app. split; [intros; apply str_len_0; lia|].
    intros ->. simpl. lia. }
  rewrite Hrest in Hc. destruct (fits_with m _) eqn:Hfit in Hc; [done|].
  destruct (decide ((split_floor (str_len part / 2) text).1 = [])) as [Hn|Hn].
  - exists part, rest. split_and!; [done|done| |done]. rewrite <- Ha in Hn.
    destruct part as [|c part]; [done|]. cbn [app split_floor] in Hn.
    destruct (decide (len_utf8 c <= str_len (c :: part) / 2)%N) as [|Hc4];
      [by destruct (split_floor _ (part ++ rest))|].
    pose proof (len_utf8_bounds c). pose proof (N.div_mod' (str_len (c :: part)) 2).
    pose proof (N.mod_upper_bound (str_len (c :: part)) 2). lia.
  - apply (IH _ Hc); [|done].
    assert (str_len part / 2 < take)%N by (apply N.Div0.div_lt_upper_bound; lia). lia.
Qed.

(** The fuel is enough: more changes nothing. *)
Lemma choose_enough fuel fuel' m line offset text take :
  (N.to_nat take < fuel)%nat → (N.to_nat take < fuel')%nat →
  choose line_len fuel m line offset text take = choose line_len fuel' m line offset text take.
Proof using Type.
  revert fuel' take. induction fuel as [|fuel IH]; intros [|fuel'] take H1 H2; [lia..|]. cbn [choose].
  case_decide as Ht; [done|]. case_decide as Hp; [done|]. destruct (fits_with _ _); [done|].
  pose proof (split_floor_le take text) as Hle.
  assert (str_len (split_floor take text).1 / 2 < take)%N.
  { apply N.Div0.div_lt_upper_bound. lia. }
  apply IH; lia.
Qed.
End choosing.

(** ** Reading the rest of a line *)

Section reading.
Context (before after : list N).
Context (Hbefore : (lenN before <= usize_max)%N) (Hafter : (lenN after <= usize_max)%N).

Lemma slice_drop_bytes s t : drop (N.to_nat (str_len s)) (as_bytes (s ++ t)) = as_bytes t.
Proof using Type.
  unfold as_bytes. rewrite bind_app. fold (as_bytes s) (as_bytes t). rewrite <- as_bytes_len.
  unfold lenN. rewrite Nat2N.id. apply drop_app_length.
Qed.

Lemma line_text_spec l :
  line_text_ok before after l →
  line_bytes before after l = as_bytes (line_text before after l) ∧
  str_len (line_text before after l) = byte_len l ∧ forallb is_scalar (line_text before after l) = true.
Proof using Type.
  intros (Hr & s & Hs & Hsc). unfold line_text. rewrite Hs, from_utf8_as_bytes by done. simpl.
  split_and!; [done| |done]. rewrite <- as_bytes_len, <- Hs. unfold line_bytes. by apply lenN_slice.
Qed.

Lemma remaining_text_spec l offset :
  line_text_ok before after l →
  match remaining_text before after l offset with
  | Ok t => ∃ a, line_text before after l = a ++ t ∧ str_len a = offset
  | Err e => e = InvalidArguments
  end.
Proof using Hbefore Hafter.
  intros Hok. destruct (line_text_spec l Hok) as (Hb & Hlen & Hsc). destruct Hok as [Hr _].
  unfold remaining_text. set (source := match lp_source l with Before => before | After => after end) in *.
  assert (lenN source <= usize_max)%N as Hsrc by (unfold source; by destruct (lp_source l)).
  assert (get_range source (byte_start l) (saturating_add (byte_start l) (byte_len l))
    = Some (as_bytes (line_text before after l))) as ->.
  { unfold get_range, saturating_add. rewrite N.min_l by lia. rewrite decide_True by lia.
    rewrite <- Hb. unfold line_bytes. do 2 f_equal. lia. }
  set (s := line_text before after l) in *. cbn [ok_or mbind result_bind]. unfold get_from.
  destruct (decide (offset <= lenN (as_bytes s))%N) as [Hoff|]; [|done]. cbn [ok_or mbind result_bind].
  destruct (decide (0 < offset)%N) as [Hpos|Hpos].
  - rewrite from_utf8_as_bytes by done. cbn [ok_or mbind result_bind]. unfold ensure.
    case_decide as Hcb; [|done]. cbn [mbind result_bind].
    apply char_boundary_split in Hcb as (a & t & Hs & Ha). rewrite Hs in Hsc |- *.
    rewrite forallb_app in Hsc. apply andb_prop in Hsc as [_ Hsct].
    rewrite <- Ha, slice_drop_bytes, from_utf8_as_bytes by done. simpl. by exists a.
  - replace offset with 0%N by lia. rewrite drop_0. cbn [mbind result_bind].
    rewrite from_utf8_as_bytes by done. simpl. by exists [].
Qed.

Lemma remaining_text_at l a t :
  line_text_ok before after l → line_text before after l = a ++ t → remaining_text before after l (str_len a) = Ok t.
Proof using Hbefore Hafter.
  intros Hok Ht. destruct (line_text_spec l Hok) as (Hb & Hlen & Hsc). destruct Hok as [Hr _].
  unfold remaining_text. set (source := match lp_source l with Before => before | After => after end) in *.
  assert (lenN source <= usize_max)%N as Hsrc by (unfold source; by destruct (lp_source l)).
  assert (get_range source (byte_start l) (saturating_add (byte_start l) (byte_len l))
    = Some (as_bytes (line_text before after l))) as ->.
  { unfold get_range, saturating_add. rewrite N.min_l by lia. rewrite decide_True by lia.
    rewrite <- Hb. unfold line_bytes. do 2 f_equal. lia. }
  rewrite Ht in Hsc |- *. cbn [ok_or mbind result_bind]. unfold get_from.
  rewrite (decide_True (P := (str_len a <= lenN (as_bytes (a ++ t)))%N)) by (rewrite as_bytes_len, str_len_app; lia).
  rewrite slice_drop_bytes. cbn [ok_or mbind result_bind].
  pose proof Hsc as [_ Hsct]%(eq_trans (eq_sym (forallb_app _ a t)))%andb_prop.
  rewrite !from_utf8_as_bytes by done. cbn [ok_or mbind result_bind].
  rewrite (ensure_true (is_char_boundary (a ++ t) (str_len a) = true)).
  2:{ unfold is_char_boundary. rewrite split_floor_len. by apply bool_decide_eq_true. }
  by destruct (decide (0 < str_len a)%N).
Qed.

End reading.

(** ** Positions in a plan *)

Section positions.
Context (before after : list N) (plan : DiffPlan).
Local Notation atoms := (plan_atoms before after plan).

Lemma plan_atoms_end hi li offset : getN (plan_hunks plan) hi = None → atoms (hi, li, offset) = [].
Proof using Type. intros Hn. unfold plan_atoms. rewrite drop_ge; [done|]. by apply lookup_ge_None. Qed.

Lemma plan_atoms_next_hunk hi li offset h :
  getN (plan_hunks plan) hi = Some h → getN (hp_lines h) li = None →
  atoms (hi, li, offset) = atoms (hi + 1, 0, 0)%N.
Proof using Type.
  intros Hh Hl. unfold plan_atoms. unfold getN in *. rewrite (drop_S _ _ _ Hh).
  rewrite (drop_ge (hp_lines h)) by (by apply lookup_ge_None).
  replace (N.to_nat (hi + 1)) with (S (N.to_nat hi)) by lia.
  destruct (drop (S (N.to_nat hi)) (plan_hunks plan)) as [|h' hs] eqn:E; [done|].
  cbn [mbind list_bind app]. unfold hunk_plan_atoms at 1. change (drop (N.to_nat 0) (hp_lines h')) with (hp_lines h').
  by destruct (hp_lines h').
Qed.

Lemma plan_atoms_line hi li offset h l :
  getN (plan_hunks plan) hi = Some h → getN (hp_lines h) li = Some l →
  atoms (hi, li, offset) = line_atoms before after (plan_span h) offset l ++ atoms (hi, li + 1, 0)%N.
Proof using Type.
  intros Hh Hl. unfold plan_atoms. unfold getN in *. rewrite (drop_S _ _ _ Hh), (drop_S _ _ _ Hl).
  replace (N.to_nat (li + 1)) with (S (N.to_nat li)) by lia. rewrite <- app_assoc. f_equal.
  destruct (drop (S (N.to_nat li)) (hp_lines h)) as [|l' ls]; [done|]. done.
Qed.

Lemma line_atoms_split sp l a t :
  line_text before after l = a ++ t →
  line_atoms before after sp (str_len a) l = text_atoms sp (plan_meta l) (str_len a) t.
Proof using Type. intros Ht. unfold line_atoms. by rewrite Ht, split_floor_len. Qed.

(** A position between the characters of its line; one past the lines is none. *)
Definition position_ok (p : N * N * N) : Prop :=
  ∀ hunk line, getN (plan_hunks plan) p.1.1 = Some hunk → getN (hp_lines hunk) p.1.2 = Some line →
  ∃ a t, line_text before after line = a ++ t ∧ str_len a = p.2.

Lemma position_ok_line hi li : position_ok (hi, li, 0%N).
Proof using Type. intros hunk line _ _. by exists [], (line_text before after line). Qed.

(** Rounds left at a position. *)
Definition rounds (hi li : N) : nat :=
  match drop (N.to_nat hi) (plan_hunks plan) with
  | [] => 0
  | h :: hs => S (length (hp_lines h) - N.to_nat li) + foldr (λ h n, S (length (hp_lines h)) + n) 0 hs
  end.

Lemma rounds_next_hunk hi li h :
  getN (plan_hunks plan) hi = Some h → (rounds (hi + 1) 0 < rounds hi li)%nat.
Proof using Type.
  intros Hh. unfold rounds. unfold getN in Hh. rewrite (drop_S _ _ _ Hh).
  replace (N.to_nat (hi + 1)) with (S (N.to_nat hi)) by lia.
  destruct (drop (S (N.to_nat hi)) (plan_hunks plan)) as [|h' hs]; simpl; lia.
Qed.

Lemma rounds_next_line hi li h l :
  getN (plan_hunks plan) hi = Some h → getN (hp_lines h) li = Some l →
  (rounds hi (li + 1) < rounds hi li)%nat.
Proof using Type.
  intros Hh Hl. unfold rounds. unfold getN in *. rewrite (drop_S _ _ _ Hh).
  apply lookup_lt_Some in Hl. lia.
Qed.

Lemma rounds_fuel hi li : (rounds hi li < page_fuel plan)%nat.
Proof using Type.
  unfold rounds, page_fuel. rewrite <- (take_drop (N.to_nat hi) (plan_hunks plan)) at 2.
  rewrite foldr_app.
  assert (∀ (l : list HunkPlan) n, n ≤ foldr (λ h n, S (length (hp_lines h)) + n) n l) as Hge.
  { intros l n. induction l as [|h l IH]; cbn [foldr]; lia. }
  eapply Nat.lt_le_trans; [|apply le_n_S, Hge]. destruct (drop _ _); cbn [foldr]; lia.
Qed.
End positions.

(** ** The loop *)

(** A hunk of a page holds fragments, none empty. *)
Definition hunk_good (h : DiffHunk) : Prop := lines h ≠ [] ∧ Forall (λ f, text f ≠ []) (lines h).

Lemma page_atoms_app p q : page_atoms (p ++ q) = page_atoms p ++ page_atoms q.
Proof. unfold page_atoms. by rewrite bind_app. Qed.

Lemma good_page_atoms page : page ≠ [] → Forall hunk_good page → page_atoms page ≠ [].
Proof.
  destruct page as [|h page]; [done|]. intros _ [[Hl Ht] _]%Forall_cons Hn.
  apply app_nil in Hn as [Hn _]. unfold hunk_atoms in Hn. destruct (lines h) as [|f fs]; [done|].
  apply Forall_cons in Ht as [Ht _]. apply app_nil in Hn as [Hn _].
  unfold fragment_atoms in Hn. by apply text_atoms_nil in Hn.
Qed.

Lemma remove_empty_tail_good page : Forall hunk_good page → remove_empty_tail page = page.
Proof.
  induction page as [|h page IH]; intros Hg; [done|]. apply Forall_cons in Hg as [[Hl _] Hg].
  cbn [remove_empty_tail]. rewrite (IH Hg). destruct page; [|done].
  rewrite decide_False; [done|]. by destruct (lines h).
Qed.

Lemma remove_empty_tail_open page h :
  Forall hunk_good page → lines h = [] → remove_empty_tail (page ++ [h]) = page.
Proof.
  intros Hg Hh. induction page as [|h' page IH]; cbn [app remove_empty_tail].
  - rewrite decide_True; [done|by rewrite Hh].
  - apply Forall_cons in Hg as [[Hl _] Hg]. rewrite (IH Hg). destruct page; [|done].
    rewrite decide_False; [done|]. by destruct (lines h').
Qed.

Definition add_fragment (f : DiffLine) (h : DiffHunk) : DiffHunk :=
  mkDiffHunk (old_start h) (old_count h) (new_start h) (new_count h) (lines h ++ [f]).

Lemma push_fragment_last f page h : push_fragment f (page ++ [h]) = Some (page ++ [add_fragment f h]).
Proof.
  induction page as [|h' page IH]; [done|]. cbn [app push_fragment].
  destruct (page ++ [h]) eqn:E; [by destruct page|]. rewrite IH. done.
Qed.

Section page_loop.
Context (line_len : DiffLine → N) (hunk_len : DiffHunk → N) (before after : list N).
Context (template_len maximum : N) (plan : DiffPlan).
Local Notation atoms := (plan_atoms before after plan).
Local Notation json := (hunk_json_len line_len hunk_len).
Local Notation page_json := (hunks_json_len line_len hunk_len).

Definition sum_json (page : list DiffHunk) : N := foldr N.add 0%N (json <$> page).

(** The meter counts the page: the closed hunks and the open one. *)
Definition metered (hi : N) (m : PageMeter) (page : list DiffHunk) : Prop :=
  base_empty m = template_len ∧ max_bytes m = maximum ∧
  match current m with
  | None => completed_bytes m = sum_json page ∧ completed_hunks m = lenN page
  | Some (opening, comp, n) =>
      ∃ closed h hunk, page = closed ++ [h] ∧ getN (plan_hunks plan) hi = Some hunk ∧
        header_of h = plan_span hunk ∧ opening = hunk_open_len hunk_len hunk ∧
        comp = array_len (line_len <$> lines h) ∧ n = lenN (lines h) ∧
        completed_bytes m = sum_json closed ∧ completed_hunks m = lenN closed
  end.

Definition within (page : list DiffHunk) : Prop :=
  page = [] ∨ (template_len + page_json page <= maximum)%N.

(** A piece of at most seven bytes of some line that the budget does not hold: the
    envelope, its hunk and the piece alone are over it.  A page that cannot take
    anything has met one. *)
Definition starved : Prop :=
  ∃ hunk line a part rest, hunk ∈ plan_hunks plan ∧ line ∈ hp_lines hunk ∧
    line_text before after line = a ++ part ++ rest ∧ part ≠ [] ∧ (str_len part <= 7)%N ∧
    (maximum < template_len + hunk_len (hunk_of hunk) +
      line_len (fragment_of line (str_len a) part (bool_decide (rest = []))))%N.

(** What holds between rounds, for the page begun at [start]. *)
Record LoopInv (start : N * N * N) (s : PageState) : Prop := mkLoopInv {
  inv_atoms : page_atoms (page s) ++ atoms (hi s, li s, offset s) = atoms start;
  inv_next : next_position s = None;
  inv_complete : complete s = true;
  inv_good : Forall hunk_good (page s);
  inv_meter : metered (hi s) (meter s) (page s);
  inv_within : within (page s);
  inv_pos : position_ok before after plan start → position_ok before after plan (hi s, li s, offset s)
}.

Lemma sum_json_app p q : sum_json (p ++ q) = (sum_json p + sum_json q)%N.
Proof using Type.
  unfold sum_json. rewrite fmap_app, foldr_app.
  induction (json <$> p) as [|x l IH]; cbn [foldr]; [lia|]. rewrite IH. lia.
Qed.

Lemma page_json_sum page : page_json page = (sum_json page + (lenN page - 1))%N.
Proof using Type. unfold hunks_json_len, array_len, sum_json. by rewrite lenN_fmap. Qed.

Lemma header_empty h hunk : header_of h = plan_span hunk → empty_hunk h = hunk_of hunk.
Proof using Type. unfold header_of, plan_span, empty_hunk, hunk_of. by intros [= -> -> -> ->]. Qed.

(** Opening the hunk of a round. *)
Lemma open_metered hi m page hunk :
  metered hi m page → getN (plan_hunks plan) hi = Some hunk →
  let '(m', pg) := match current m with
                   | None => (open_hunk m (hunk_open_len hunk_len hunk), page ++ [hunk_of hunk])
                   | Some _ => (m, page)
                   end in
  is_Some (current m') ∧ metered hi m' pg ∧
  (current m = None → pg = page ++ [hunk_of hunk]) ∧ (is_Some (current m) → pg = page).
Proof using Type.
  intros Hm Hh. destruct (current m) as [[[o c] n]|] eqn:Ec.
  - by rewrite Ec.
  - destruct Hm as (Hb & Hx & Hm). rewrite Ec in Hm. destruct Hm as [H1 H2].
    split_and!; [by eexists| |done|by intros [? ?]].
    split_and!; [done|done|]. cbn [current open_hunk].
    exists page, (hunk_of hunk), hunk. by split_and!.
Qed.

(** Committing a fragment that fits. *)
Lemma commit_metered (Hhunk : ∀ h, (2 <= hunk_len h)%N) (Hmax : (maximum < usize_max)%N) hi m page f :
  is_Some (current m) → metered hi m page → fits_with m (line_len f) = true →
  ∃ closed h hunk, page = closed ++ [h] ∧ getN (plan_hunks plan) hi = Some hunk ∧ header_of h = plan_span hunk ∧
    push_fragment f page = Some (closed ++ [add_fragment f h]) ∧
    metered hi (commit_line m (line_len f)) (closed ++ [add_fragment f h]) ∧
    (template_len + page_json (closed ++ [add_fragment f h]) <= maximum)%N.
Proof using Type.
  intros [[[o c] n] Ec] (Hb & Hx & Hm) Hf. rewrite Ec in Hm.
  destruct Hm as (closed & h & hunk & -> & Hh & Hsp & -> & -> & -> & H1 & H2).
  exists closed, h, hunk. split_and!; [done|done|done|apply push_fragment_last| |].
  - split_and!; [|..]; unfold commit_line; rewrite Ec; [done|done|]. cbn [current].
    exists closed, (add_fragment f h), hunk. split_and!; try done; cbn [lines add_fragment].
    + rewrite fmap_app. cbn. by rewrite array_len_snoc, lenN_fmap.
    + rewrite lenN_app. unfold lenN. simpl. lia.
  - unfold fits_with in Hf. rewrite Ec in Hf. apply bool_decide_eq_true in Hf.
    rewrite Hb, Hx, H1, H2 in Hf. rewrite decide_False in Hf by lia.
    rewrite page_json_sum, sum_json_app, lenN_app. change (lenN [add_fragment f h]) with 1%N.
    assert (sum_json [add_fragment f h] = hunk_open_len hunk_len hunk + 2 +
      (array_len (line_len <$> lines h) + comma (lenN (lines h)) + line_len f))%N as ->.
    { unfold sum_json. cbn [fmap list_fmap foldr]. rewrite N.add_0_r. unfold hunk_json_len.
      change (empty_hunk (add_fragment f h)) with (empty_hunk h). rewrite (header_empty h hunk Hsp).
      cbn [lines add_fragment]. rewrite fmap_app. cbn. rewrite array_len_snoc, lenN_fmap.
      unfold hunk_open_len. specialize (Hhunk (hunk_of hunk)). lia. }
    unfold saturating_add in Hf. lia.
Qed.

(** On an empty page a piece is only refused when the budget does not hold it. *)
Lemma fresh_refuses (Hhunk : ∀ h, (2 <= hunk_len h)%N) (Hmax : (maximum < usize_max)%N) hi m hunk x :
  metered hi m [] → fits_with (open_hunk m (hunk_open_len hunk_len hunk)) x = false →
  (maximum < template_len + hunk_len (hunk_of hunk) + x)%N.
Proof using Type.
  intros (Hb & Hx & Hm) Hf. destruct (current m) as [[[o c] n]|].
  { destruct Hm as (closed & h & _ & Hp & _). by destruct closed. }
  destruct Hm as [H1 H2]. apply bool_decide_eq_false in Hf.
  cbn [open_hunk completed_bytes completed_hunks base_empty max_bytes] in Hf. rewrite Hb, Hx, H1, H2 in Hf.
  change (sum_json []) with 0%N in Hf. change (lenN (@nil DiffHunk)) with 0%N in Hf. change (comma 0) with 0%N in Hf.
  rewrite decide_False in Hf by done. unfold hunk_open_len, saturating_add in Hf. specialize (Hhunk (hunk_of hunk)). lia.
Qed.

Lemma finish_metered (Hhunk : ∀ h, (2 <= hunk_len h)%N) hi hi' m page :
  metered hi m page → metered hi' (finish_hunk m) page.
Proof using Type.
  intros (Hb & Hx & Hm). unfold finish_hunk. destruct (current m) as [[[o c] n]|] eqn:Ec.
  - destruct Hm as (closed & h & hunk & -> & Hh & Hsp & -> & -> & -> & H1 & H2).
    split_and!; [done|done|]. cbn [current completed_bytes completed_hunks].
    rewrite sum_json_app, lenN_app. change (lenN [h]) with 1%N. rewrite H1, H2. split; [|done].
    unfold sum_json at 3. cbn [fmap list_fmap foldr]. unfold hunk_json_len. rewrite (header_empty h hunk Hsp).
    unfold hunk_open_len. specialize (Hhunk (hunk_of hunk)). lia.
  - split_and!; [done|done|]. by rewrite Ec.
Qed.

(** The end of the loop, or what an unfinished page hands on. *)
Definition loop_result (start : N * N * N) (s : PageState) : Prop :=
  Forall hunk_good (page s) ∧ within (page s) ∧
  if complete s
  then next_position s = None ∧ getN (plan_hunks plan) (hi s) = None ∧ page_atoms (page s) = atoms start
  else page s ≠ [] ∧ (∃ hunk line, getN (plan_hunks plan) (hi s) = Some hunk ∧ getN (hp_lines hunk) (li s) = Some line) ∧
       let next := default (hi s, li s, offset s) (next_position s) in
       next.1 = (hi s, li s) ∧ page_atoms (page s) ++ atoms next = atoms start ∧ position_ok before after plan next.

Context (Hbefore : (lenN before <= usize_max)%N) (Hafter : (lenN after <= usize_max)%N).
Context (Hhunk : ∀ h, (2 <= hunk_len h)%N) (Hmax : (maximum < usize_max)%N).
Context (Hplan : plan_text before after plan).

Lemma page_atoms_snoc page h : page_atoms (page ++ [h]) = page_atoms page ++ hunk_atoms h.
Proof using Type. rewrite page_atoms_app. unfold page_atoms at 2. cbn. by rewrite app_nil_r. Qed.

Lemma page_step_spec start s :
  LoopInv start s →
  match page_step line_len hunk_len before after plan s with
  | Err e => e = InvalidArguments ∧ (position_ok before after plan start → starved)
  | Ok (Continue s') => LoopInv start s' ∧ (rounds plan (hi s') (li s') < rounds plan (hi s) (li s))%nat
  | Ok (Break s') => loop_result start s'
  end.
Proof using Hbefore Hafter Hhunk Hmax Hplan.
  intros [Ha Hn Hc Hg Hm Hw Hpos]. unfold page_step.
  destruct (getN (plan_hunks plan) (hi s)) as [hunk|] eqn:Hh.
  2:{ split_and!; [done|done|]. rewrite Hc. split_and!; [done|done|].
      rewrite <- Ha, plan_atoms_end by done. by rewrite app_nil_r. }
  destruct (getN (hp_lines hunk) (li s)) as [line|] eqn:Hl.
  2:{ split; [|by eapply rounds_next_hunk]. split; try done; cbn [hi li offset meter page].
      - by rewrite <- (plan_atoms_next_hunk _ _ _ _ _ (offset s) _ Hh Hl).
      - by eapply finish_metered.
      - intros _. apply position_ok_line. }
  assert (line_text_ok before after line) as Hline.
  { eapply Hplan; eapply list_elem_of_lookup_2; [exact Hh|exact Hl]. }
  destruct (line_text_spec before after line Hline) as (_ & Hlen & _).
  rewrite (plan_atoms_line _ _ _ _ _ _ _ _ Hh Hl) in Ha.
  case_decide as Hoff.
  { split; [|by eapply rounds_next_line]. split; try done; cbn [hi li offset].
    rewrite <- Ha. rewrite Hoff, <- Hlen. rewrite (line_atoms_split before after _ line (line_text before after line) []).
    - done.
    - by rewrite app_nil_r.
    - intros _. apply position_ok_line. }
  pose proof (open_metered (hi s) (meter s) (page s) hunk Hm Hh) as Hopen.
  destruct (match current (meter s) with None => _ | Some _ => _ end) as [m pg] eqn:Epg.
  destruct Hopen as (Hcur & Hm' & HpgN & HpgS).
  pose proof (remaining_text_spec before after Hbefore Hafter line (offset s) Hline) as Hrem.
  destruct (remaining_text before after line (offset s)) as [t|e] eqn:Er.
  2:{ split; [done|]. intros Hst. destruct (Hpos Hst hunk line Hh Hl) as (a & t & Ht & Hao). cbn [snd] in Hao.
      rewrite <- Hao, (remaining_text_at before after Hbefore Hafter line a t Hline Ht) in Er. done. }
  destruct Hrem as (a & Ht & Hao). cbn [mbind result_bind].
  rewrite <- Hao, (line_atoms_split before after _ line a t Ht) in Ha.
  destruct (choose line_len _ m line (offset s) t _) as [[part lc]|] eqn:Ech.
  - apply choose_Some in Ech as (Hpart & (rest & Hrest & Hlc) & Hfit).
    destruct (commit_metered Hhunk Hmax (hi s) m pg _ Hcur Hm' Hfit)
      as (closed & h & hunk' & Hpg & Hh' & Hsp & Hpush & Hmet & Hbound).
    rewrite Hh in Hh'. injection Hh' as <-. rewrite Hpush. cbn [ok_or mbind result_bind].
    set (f := fragment_of line (offset s) part lc) in *.
    assert (page_atoms (closed ++ [add_fragment f h]) =
      page_atoms (page s) ++ text_atoms (plan_span hunk) (plan_meta line) (offset s) part) as Hpa.
    { rewrite page_atoms_snoc. unfold hunk_atoms. cbn [lines add_fragment]. rewrite bind_app.
      change (header_of (add_fragment f h)) with (header_of h). rewrite Hsp. cbn [mbind list_bind]. rewrite app_nil_r.
      assert (page_atoms (page s) = page_atoms closed ++ (lines h ≫= fragment_atoms (header_of h))) as ->.
      { change (lines h ≫= fragment_atoms (header_of h)) with (hunk_atoms h). rewrite <- page_atoms_snoc, <- Hpg.
        destruct (current (meter s)) as [?|] eqn:Ecm.
        - by rewrite HpgS by eauto.
        - rewrite HpgN by done. rewrite page_atoms_snoc. unfold hunk_atoms. cbn. by rewrite app_nil_r. }
      rewrite Hsp, <- app_assoc. done. }
    assert (Forall hunk_good (closed ++ [add_fragment f h])) as Hgood.
    { assert (Forall hunk_good closed ∧ (lines h = [] ∨ hunk_good h)) as [Hgc Hgh].
      { destruct (current (meter s)) as [?|] eqn:Ecm.
        - rewrite HpgS in Hpg by eauto. rewrite Hpg in Hg. apply Forall_app in Hg as [? [??]%Forall_cons]. by split; [|right].
        - rewrite HpgN in Hpg by done. apply app_inj_2 in Hpg as [<- [= <-]]; [|done]. by split; [|left]. }
      apply Forall_app. split; [done|]. constructor; [|done]. split; cbn [lines add_fragment].
      - by destruct (lines h).
      - apply Forall_app. split; [|by constructor].
        destruct Hgh as [->|[_ ?]]; [constructor|done]. }
    destruct lc.
    + assert (rest = []) as -> by tauto. rewrite app_nil_r in Hrest. subst t.
      split; [|by eapply rounds_next_line]. split; try done; cbn [hi li offset meter page].
      * rewrite Hpa, <- app_assoc, <- Hao. done.
      * by right.
      * intros _. apply position_ok_line.
    + assert (rest ≠ []) as Hr by (intros Hr; apply Hlc in Hr; done).
      unfold loop_result. cbn [page complete next_position hi li offset]. cbn [default from_option id].
      assert (saturating_add (offset s) (str_len part) = offset s + str_len part)%N as ->.
      { unfold saturating_add. apply N.min_l. rewrite <- Hao.
        assert (str_len a + str_len part <= byte_len line)%N.
        { rewrite <- Hlen, Ht, Hrest, !str_len_app. lia. }
        assert (byte_len line <= usize_max)%N; [|lia]. destruct Hline as [Hrange _].
        destruct (lp_source line); lia. }
      rewrite Hrest, app_assoc in Ht. split_and!; [done|by right|by destruct closed|eauto|done| |].
      2:{ intros hunk' line' Hh' Hl'. cbn [fst snd] in Hh', Hl' |- *. simplify_eq.
          exists (a ++ part), rest. by rewrite str_len_app, <- Hao. }
      rewrite (plan_atoms_line _ _ _ _ _ _ _ _ Hh Hl), Hpa.
      rewrite <- Hao, <- str_len_app, (line_atoms_split before after _ line (a ++ part) rest Ht).
      rewrite <- Ha, Hrest, text_atoms_app, str_len_app. by rewrite <- !app_assoc.
  - assert (remove_empty_tail pg = page s) as ->.
    { destruct (current (meter s)) as [?|] eqn:Ecm.
      - rewrite HpgS by eauto. by apply remove_empty_tail_good.
      - rewrite HpgN by done. by apply remove_empty_tail_open. }
    case_decide as Hlen0.
    + split; [done|]. intros _. assert (page s = []) as Hp by (by destruct (page s)). rewrite Hp in Hm.
      assert (current (meter s) = None) as Ecm.
      { destruct (current (meter s)) as [[[? ?] ?]|] eqn:Ecm; [|done]. destruct Hm as (_ & _ & Hm).
        rewrite Ecm in Hm. destruct Hm as (closed & ? & _ & Hc' & _). by destruct closed. }
      rewrite Ecm in Epg. injection Epg as <- _. apply choose_None in Ech as (part & rest & Hpart & Hne & H7 & Hfit); [|lia|].
      * exists hunk, line, a, part, rest. split_and!; [by eapply list_elem_of_lookup_2|by eapply list_elem_of_lookup_2| |done|done|].
        -- by rewrite <- Hpart.
        -- rewrite Hao. by eapply fresh_refuses.
      * pose proof (split_floor_len t []) as E. rewrite app_nil_r in E. rewrite E. cbn [fst].
        intros ->. apply Hoff. rewrite <- Hao, <- Hlen, Ht, app_nil_r. done.
    + unfold loop_result. cbn [page complete next_position hi li offset]. rewrite Hn. cbn [default from_option].
      split_and!; [done|done|by destruct (page s)|eauto|done| |].
      * rewrite (plan_atoms_line _ _ _ _ _ _ _ _ Hh Hl), <- Hao.
        by rewrite (line_atoms_split before after _ line a t Ht).
      * intros hunk' line' Hh' Hl'. cbn [fst snd] in Hh', Hl' |- *. simplify_eq. by exists a, t.
Qed.

Lemma page_loop_spec fuel start s :
  LoopInv start s → (rounds plan (hi s) (li s) < fuel)%nat →
  ∃ r, page_loop line_len hunk_len before after fuel plan s = Some r ∧
    match r with
    | Err e => e = InvalidArguments ∧ (position_ok before after plan start → starved)
    | Ok s' => loop_result start s'
    end.
Proof using Hbefore Hafter Hhunk Hmax Hplan.
  revert s. induction fuel as [|fuel IH]; intros s Hinv Hf; [lia|]. cbn [page_loop].
  pose proof (page_step_spec start s Hinv) as Hstep.
  destruct (page_step _ _ _ _ _ s) as [[s'|s']|e].
  - destruct Hstep as [Hinv' Hlt]. apply IH; [done|lia].
  - by exists (Ok s').
  - by exists (Err e).
Qed.
End page_loop.

(** ** Pages *)

(** Asking for page after page with the cursors handed out. *)
Fixpoint follow (line_len : DiffLine → N) (hunk_len : DiffHunk → N) (before after : list N)
    (template_len maximum : N) (plan : DiffPlan) (fuel : nat) (start : N * N * N)
    : option (result AgentError (list (list DiffHunk))) :=
  match fuel with
  | O => None
  | S fuel =>
      r ← build_page line_len hunk_len before after template_len maximum plan start;
      match r with
      | Err e => Some (Err e)
      | Ok (page, None, _) => Some (Ok [page])
      | Ok (page, Some position, _) =>
          rest ← follow line_len hunk_len before after template_len maximum plan fuel position;
          Some (match rest with Ok pages => Ok (page :: pages) | Err e => Err e end)
      end
  end.

Section pages.
Context (line_len : DiffLine → N) (hunk_len : DiffHunk → N) (before after : list N).
Context (template_len maximum : N) (plan : DiffPlan).
Context (Hbefore : (lenN before <= usize_max)%N) (Hafter : (lenN after <= usize_max)%N).
Context (Hhunk : ∀ h, (2 <= hunk_len h)%N) (Hmax : (maximum < usize_max)%N).
Context (Hplan : plan_text before after plan).
Local Notation atoms := (plan_atoms before after plan).
Local Notation build := (build_page line_len hunk_len before after template_len maximum plan).

(** A page as the caller sees it. *)
Definition page_result (start : N * N * N) (page : list DiffHunk) (next : option (N * N * N)) (complete : bool) : Prop :=
  (complete = true ↔ next = None) ∧
  page_atoms page ++ (match next with Some p => atoms p | None => [] end) = atoms start ∧
  within line_len hunk_len template_len maximum page ∧
  ∀ p, next = Some p → page_atoms page ≠ [] ∧ start_valid plan p = true ∧ position_ok before after plan p.

Local Notation starving := (starved line_len hunk_len before after template_len maximum plan).

Lemma start_valid_inside hi li offset hunk line :
  getN (plan_hunks plan) hi = Some hunk → getN (hp_lines hunk) li = Some line →
  start_valid plan (hi, li, offset) = true.
Proof using Type.
  clear Hbefore Hafter Hhunk Hmax Hplan.
  intros Hh Hl. unfold start_valid. rewrite Hh. apply getN_lt in Hh, Hl.
  rewrite (bool_decide_eq_false_2 (lenN (plan_hunks plan) < hi)%N) by lia.
  rewrite (bool_decide_eq_false_2 (hi = lenN (plan_hunks plan))) by lia.
  by rewrite (bool_decide_eq_false_2 (lenN (hp_lines hunk) <= li)%N) by lia.
Qed.

Lemma start_valid_first : Forall (λ h, hp_lines h ≠ []) (plan_hunks plan) → start_valid plan (0, 0, 0)%N = true.
Proof using Type.
  clear Hbefore Hafter Hhunk Hmax Hplan. intros Hl. destruct (plan_hunks plan) as [|h hs] eqn:E; [by unfold start_valid; rewrite E|].
  apply Forall_cons in Hl as [Hl _]. destruct (hp_lines h) as [|l ls] eqn:El; [done|].
  apply (start_valid_inside 0 0 0 h l); [by rewrite E|by rewrite El].
Qed.

Lemma build_page_spec start :
  ∃ r, build start = Some r ∧
    match r with
    | Err e => e = InvalidArguments ∧ (start_valid plan start = true → position_ok before after plan start → starving)
    | Ok (page, next, complete) => page_result start page next complete
    end.
Proof using Hbefore Hafter Hhunk Hmax Hplan.
  unfold build_page. destruct (start_valid plan start) eqn:Ev; cbn [negb]; [|eexists; split; [reflexivity|done]].
  destruct start as [[hi0 li0] offset0].
  set (s0 := mkPage hi0 li0 offset0 (mkMeter template_len 0 0 None maximum) [] None true).
  assert (LoopInv line_len hunk_len before after template_len maximum plan (hi0, li0, offset0) s0) as Hinv.
  { split; [done|done|done|by constructor|by split_and!|by left|done]. }
  destruct (page_loop_spec line_len hunk_len before after template_len maximum plan Hbefore Hafter Hhunk Hmax Hplan
    (page_fuel plan) _ s0 Hinv (rounds_fuel plan hi0 li0)) as (r & Hr & Hres).
  rewrite Hr. cbn [mbind option_bind]. destruct r as [s|e].
  2:{ eexists. split; [reflexivity|]. destruct Hres as [He Hst]. split; [done|]. by intros _. }
  eexists. split; [reflexivity|]. destruct Hres as (Hg & Hw & Hres). cbn [mbind result_bind].
  unfold page_result. destruct (complete s).
  - destruct Hres as (_ & Hend & Ha). apply lookup_ge_None in Hend.
    rewrite bool_decide_eq_false_2 by (unfold lenN; lia). split_and!; [done| |done|done]. by rewrite app_nil_r.
  - destruct Hres as (Hne & (hunk & line & Hh & Hl) & Hpos & Ha & Hok). cbn [andb].
    split_and!; [by destruct (next_position s)| |done|].
    + destruct (next_position s); exact Ha.
    + intros p Hp. split; [by apply good_page_atoms|].
      assert (p = default (hi s, li s, offset s) (next_position s)) as -> by (by destruct (next_position s); simplify_eq).
      split; [|exact Hok].
      destruct (default _ _) as [[h1 l1] o1]. cbn [fst] in Hpos. injection Hpos as -> ->.
      by eapply start_valid_inside.
Qed.

Lemma follow_spec fuel start :
  (length (atoms start) < fuel)%nat → start_valid plan start = true → position_ok before after plan start →
  ∃ r, follow line_len hunk_len before after template_len maximum plan fuel start = Some r ∧
    match r with
    | Err e => e = InvalidArguments ∧ starving
    | Ok pages => concat (page_atoms <$> pages) = atoms start ∧
        Forall (within line_len hunk_len template_len maximum) pages
    end.
Proof using Hbefore Hafter Hhunk Hmax Hplan.
  revert start. induction fuel as [|fuel IH]; intros start Hf Hv Hs; [lia|]. cbn [follow].
  destruct (build_page_spec start) as (r & -> & Hr). cbn [mbind option_bind].
  destruct r as [[[page [position|]] c]|e].
  3:{ eexists. split; [reflexivity|]. destruct Hr as [-> Hr]. split; [done|by apply Hr]. }
  - destruct Hr as (_ & Ha & Hw & Hp). destruct (Hp position eq_refl) as (Hne & Hv' & Hs').
    destruct (IH position) as (r & -> & Hres); [|done|done|].
    { rewrite <- Ha, length_app in Hf. destruct (page_atoms page); [done|simpl in Hf; lia]. }
    cbn [mbind option_bind]. eexists. split; [reflexivity|]. destruct r as [pages|e]; cbn; [|done].
    destruct Hres as [Hc Hall]. split; [|by constructor]. by rewrite <- Ha, <- Hc.
  - destruct Hr as (_ & Ha & Hw & _). eexists. split; [reflexivity|]. cbn.
    split; [by rewrite <- Ha|by constructor].
Qed.
End pages.

(** One page of a diff: the page followed by what its cursor points to says exactly
    what the requested cursor pointed to; there is a cursor exactly when the page is
    not complete, it is accepted again, and the page before it is not empty; the
    hunks of the page, encoded with the envelope, fit the byte budget.  The answer is
    only refused, as invalid arguments, for a cursor past the plan or inside a
    character, or for a piece the budget does not hold. *)
Theorem build_page_correct line_len hunk_len before after template_len maximum plan start :
  (lenN before <= usize_max)%N → (lenN after <= usize_max)%N → (∀ h, 2 <= hunk_len h)%N →
  (maximum < usize_max)%N → plan_text before after plan →
  ∃ r, build_page line_len hunk_len before after template_len maximum plan start = Some r ∧
    match r with
    | Err e => e = InvalidArguments ∧ (start_valid plan start = true → position_ok before after plan start →
        starved line_len hunk_len before after template_len maximum plan)
    | Ok (page, next, complete) =>
        (complete = true ↔ next = None) ∧
        page_atoms page ++ (match next with Some p => plan_atoms before after plan p | None => [] end)
          = plan_atoms before after plan start ∧
        (page = [] ∨ template_len + hunks_json_len line_len hunk_len page <= maximum)%N ∧
        ∀ p, next = Some p → page_atoms page ≠ [] ∧ start_valid plan p = true ∧ position_ok before after plan p
    end.
Proof. intros H1 H2 H3 H4 H5. by apply build_page_spec. Qed.

(** The plans of [plan_diff] have a line in every hunk. *)
Definition has_lines (plan : DiffPlan) : Prop := Forall (λ h, hp_lines h ≠ []) (plan_hunks plan).

Lemma plan_groups_lines `{S : Similar} expired bl al bt atk groups hunks n :
  Forall (λ h, hp_lines h ≠ []) hunks →
  match (plan_groups expired bl al bt atk groups hunks n).2 with
  | Ok hunks => Forall (λ h, hp_lines h ≠ []) hunks
  | Err _ => True
  end.
Proof.
  revert hunks n. induction groups as [|g groups IH]; intros hunks n Hh; cbn [plan_groups]; [done|].
  unfold mbind at 1, stm_bind. destruct (plan_group expired bl al bt atk g n) as [n1 [hunk|e]] eqn:Eg; [|done].
  apply IH, Forall_app. split; [done|]. destruct hunk as [h|]; [|done]. constructor; [|done].
  unfold plan_group in Eg. apply stm_bind_inv in Eg as [(? & _ & ?)|(n2 & [] & _ & Eg)]; [done|].
  destruct (hunk_span old_range g), (hunk_span new_range g).
  apply stm_bind_inv in Eg as [(? & _ & ?)|(m3 & ls & _ & Eg)]; [done|]. injection Eg as _ Eg.
  by case_decide; simplify_eq.
Qed.

Lemma plan_diff_lines `{S : Similar} expired digest before after context_lines n n' p :
  plan_diff expired digest before after context_lines n = (n', Ok (Plan p)) → has_lines p.
Proof.
  unfold plan_diff. intros Hp. apply stm_bind_inv in Hp as [(? & _ & ?)|(n1 & [] & _ & Hp)]; [done|].
  destruct (from_utf8 before) as [b|]; [|done]. destruct (from_utf8 after) as [a|]; [|done].
  case_decide; [done|]. destruct (split_lines b _) as [bl bc]. case_decide; [injection Hp as _ <-; constructor|].
  destruct (split_lines a _) as [al ac]. case_decide; [injection Hp as _ <-; constructor|].
  destruct (diff_ops _ _) as [ops replace].
  apply stm_bind_inv in Hp as [(? & _ & ?)|(n2 & hunks & Hg & Hp)]; [done|].
  apply stm_bind_inv in Hp as [(? & _ & ?)|(n3 & [] & _ & Hp)]; [done|]. injection Hp as _ <-.
  pose proof (plan_groups_lines expired bl al (tokens_of b bl) (tokens_of a al)
    (group_diff_ops ops context_lines) [] n1 ltac:(by constructor)) as Hl.
  by rewrite Hg in Hl.
Qed.

(** C14 Following the cursors from the start ends, after at most as many pages as the
    diff has characters.  Unless some piece of at most seven bytes of a line (the
    least the halving of [choose] comes down to) is over the byte budget together
    with the envelope and its hunk, no page is refused, and the pages together are
    the diff: every character of every line of every hunk once, in order, at its
    offset.  A page with hunks fits the budget. *)
Theorem pages_reassemble line_len hunk_len before after template_len maximum plan :
  (lenN before <= usize_max)%N → (lenN after <= usize_max)%N → (∀ h, 2 <= hunk_len h)%N →
  (maximum < usize_max)%N → plan_text before after plan → has_lines plan →
  let whole := plan_hunks plan ≫= hunk_plan_atoms before after in
  ∃ r, follow line_len hunk_len before after template_len maximum plan (S (length whole)) (0, 0, 0)%N = Some r ∧
    match r with
    | Err e => e = InvalidArguments ∧ starved line_len hunk_len before after template_len maximum plan
    | Ok pages => concat (page_atoms <$> pages) = whole ∧
        Forall (λ page, page = [] ∨ template_len + hunks_json_len line_len hunk_len page <= maximum)%N pages
    end.
Proof.
  intros H1 H2 H3 H4 H5 H6 whole.
  assert (plan_atoms before after plan (0, 0, 0)%N = whole) as Hw.
  { unfold plan_atoms, whole. rewrite drop_0. destruct (plan_hunks plan) as [|h hs]; [done|].
    cbn [mbind list_bind]. f_equal. unfold hunk_plan_atoms. rewrite drop_0. by destruct (hp_lines h). }
  rewrite <- Hw. apply follow_spec; try done; [lia|by apply start_valid_first|].
  intros hunk line _ _. by exists [], (line_text before after line).
Qed.

(** ** Two pages of a small diff *)

Definition page_before : list N := as_bytes (lit "abc").
Definition page_after : list N := as_bytes (lit "abd").
Definition page_plan : DiffPlan :=
  mkPlan [mkHunkPlan 0 1 0 1
    [mkLinePlan Removed (Some 0%N) None Before 0 3; mkLinePlan Added None (Some 0%N) After 0 3]] [] false.
Definition page_line_len (f : DiffLine) : N := (10 + str_len (text f))%N.
Definition page_hunk_len (_ : DiffHunk) : N := 20%N.

Lemma page_plan_text : plan_text page_before page_after page_plan.
Proof.
  intros h l Hh Hl. apply list_elem_of_singleton in Hh as ->. simpl in Hl.
  apply elem_of_cons in Hl as [->|Hl]; [|apply list_elem_of_singleton in Hl as ->];
    (split; [by vm_compute|]); [exists (lit "abc")|exists (lit "abd")]; by vm_compute.
Qed.

Lemma build_page_correct_witness :
  ∃ page, build_page page_line_len page_hunk_len page_before page_after 30 65 page_plan (0, 0, 0)%N
      = Some (Ok (page, Some (0, 1, 0)%N, false)) ∧
    page_atoms page ++ plan_atoms page_before page_after page_plan (0, 1, 0)%N =
    plan_atoms page_before page_after page_plan (0, 0, 0)%N.
Proof.
  destruct (build_page_correct page_line_len page_hunk_len page_before page_after 30 65 page_plan (0, 0, 0)%N)
    as (r & Hr & Hres); [by vm_compute|by vm_compute|by intros h|by vm_compute|exact page_plan_text|].
  assert (∃ page, r = Ok (page, Some (0, 1, 0)%N, false)) as (page & ->).
  { vm_compute in Hr. injection Hr as <-. eexists. reflexivity. }
  exists page. split; [exact Hr|]. apply Hres.
Defined.

(** A budget that holds the first character of a line is refused all the same: of
    four and three bytes the halving never tries the first alone, so the seven bytes
    of [pages_reassemble] cannot be fewer. *)
Example wide_characters_are_tried_together :
  let wide := [0x1F600; 0x4E2D]%N in
  let plan := mkPlan [mkHunkPlan 0 0 0 1 [mkLinePlan Added None (Some 0%N) After 0 7]] [] false in
  let build bytes := build_page page_line_len page_hunk_len [] (as_bytes wide) 30 bytes plan (0, 0, 0)%N in
  build 66%N = Some (Err InvalidArguments) ∧ page_line_len (fragment_of (mkLinePlan Added None None After 0 7) 0 [0x1F600%N] false) = 14%N ∧
  match build 67%N with Some (Ok (page, None, true)) => length (page_atoms page) = 2 | _ => False end.
Proof. by vm_compute. Qed.

Lemma pages_reassemble_witness :
  ∃ p1 p2, follow page_line_len page_hunk_len page_before page_after 30 65 page_plan 7 (0, 0, 0)%N = Some (Ok [p1; p2]) ∧
    page_atoms p1 ++ page_atoms p2 = plan_hunks page_plan ≫= hunk_plan_atoms page_before page_after.
Proof.
  destruct (pages_reassemble page_line_len page_hunk_len page_before page_after 30 65 page_plan)
    as (r & Hr & Hres);
    [by vm_compute|by vm_compute|by intros h|by vm_compute|exact page_plan_text|by repeat constructor|].
  assert (∃ p1 p2, r = Ok [p1; p2]) as (p1 & p2 & ->).
  { vm_compute in Hr. injection Hr as <-. do 2 eexists. reflexivity. }
  exists p1, p2. split; [exact Hr|]. destruct Hres as [<- _]. cbn. by rewrite app_nil_r.
Defined.
