(* ===== verification/Time.v ===== *)
(** RFC 3339 timestamps, [store/time.rs].

    The reader that validates stored timestamps, the writer of the current time and
    Hinnant's [civil_from_days] it uses.  The Gregorian calendar is stated
    separately, by counting days, and is what the theorems compare against. *)

From S2P Require Import Prelude RustStr.
Open Scope Z_scope.

Definition MAX_TIMESTAMP_BYTES : nat := 64.

Definition days_in_month (year month : Z) : Z :=
  if decide (month ∈ [1; 3; 5; 7; 8; 10; 12]) then 31 else
  if decide (month ∈ [4; 6; 9; 11]) then 30 else
  if decide (month = 2)
  then if decide (year mod 400 = 0 ∨ (year mod 4 = 0 ∧ ¬ year mod 100 = 0)) then 29 else 28
  else 0.

(** ** Writing *)

(** Euclidean and truncated division agree here: every dividend of [/] is positive. *)
Definition civil_from_days (days : Z) : Z * Z * Z :=
  let z := days + 719468 in
  let era := z / 146097 in
  let day_of_era := z mod 146097 in
  let year_of_era :=
    (day_of_era - day_of_era / 1460 + day_of_era / 36524 - day_of_era / 146096) / 365 in
  let year := year_of_era + era * 400 in
  let day_of_year := day_of_era - (365 * year_of_era + year_of_era / 4 - year_of_era / 100) in
  let month_prime := (5 * day_of_year + 2) / 153 in
  let day := day_of_year - (153 * month_prime + 2) / 5 + 1 in
  let month := if decide (month_prime < 10) then month_prime + 3 else month_prime - 9 in
  let year := if decide (month <= 2) then year + 1 else year in
  (year, month, day).

(** [{n:0w}] of a number that is not negative. *)
Definition pad (w : nat) (n : Z) : str :=
  let digits := show_N (Z.to_N n) in replicate (w - length digits) 48%N ++ digits.

Definition i64_max : Z := 9223372036854775807.

Definition format_rfc3339_millis (total_seconds millis : Z) : str :=
  let total := if decide (total_seconds <= i64_max) then total_seconds else 0 in
  let days := total / 86400 in
  let seconds_of_day := total mod 86400 in
  let '(year, month, day) := civil_from_days days in
  let hour := seconds_of_day / 3600 in
  let minute := seconds_of_day mod 3600 / 60 in
  let second := seconds_of_day mod 60 in
  pad 4 year ++ lit "-" ++ pad 2 month ++ lit "-" ++ pad 2 day ++ lit "T" ++ pad 2 hour ++
  lit ":" ++ pad 2 minute ++ lit ":" ++ pad 2 second ++ lit "." ++ pad 3 millis ++ lit "Z".

(** ** Reading *)

(** [bytes.get(a..b)]. *)
Definition get_range (bytes : list N) (a b : nat) : option (list N) :=
  if decide (a <= b ∧ b <= length bytes)%nat then Some (take (b - a) (drop a bytes)) else None.

Definition digits (bytes : list N) (a b : nat) : bool :=
  match get_range bytes a b with Some part => forallb is_ascii_digit part | None => false end.

(** [str::parse::<u32>]. *)
Definition parse_u32 (s : str) : option N :=
  n ← parse_usize s; if decide (n <= u32_max)%N then Some n else None.

(** The index is in range wherever the source uses it. *)
Definition number (bytes : list N) (a b : nat) : option Z :=
  part ← get_range bytes a b; s ← from_utf8 part; Z.of_N <$> parse_u32 s.

Fixpoint skip_digits (fuel : nat) (bytes : list N) (index : nat) : nat :=
  match fuel, bytes !! index with
  | S f, Some b => if is_ascii_digit b then skip_digits f bytes (S index) else index
  | _, _ => index
  end.

Definition separators (bytes : list N) : Prop :=
  bytes !! 4%nat = Some 45%N ∧ bytes !! 7%nat = Some 45%N ∧ bytes !! 10%nat = Some 84%N ∧
  bytes !! 13%nat = Some 58%N ∧ bytes !! 16%nat = Some 58%N.

(** The zone at [index], which must end the text. *)
Definition valid_zone (bytes : list N) (index : nat) : bool :=
  match bytes !! index with
  | Some 90%N => bool_decide (index + 1 = length bytes)%nat
  | Some 43%N | Some 45%N =>
      let index := S index in
      if decide ((index + 5 ≠ length bytes)%nat ∨ bytes !! (index + 2)%nat ≠ Some 58%N ∨
                 digits bytes index (index + 2) = false ∨ digits bytes (index + 3) (index + 5) = false)
      then false
      else
        let offset_hour := default 24 (number bytes index (index + 2)) in
        let offset_minute := default 60 (number bytes (index + 3) (index + 5)) in
        bool_decide (offset_hour <= 23 ∧ offset_minute <= 59)
  | _ => false
  end.

(** The optional fraction after the seconds: the index behind it. *)
Definition after_fraction (bytes : list N) : option nat :=
  if decide (bytes !! 19%nat = Some 46%N) then
    let index := skip_digits (length bytes) bytes 20 in
    if decide (index = 20%nat) then None else Some index
  else Some 19%nat.

Definition valid_timestamp (value : str) : bool :=
  let bytes := as_bytes value in
  if decide ((MAX_TIMESTAMP_BYTES < length bytes)%nat ∨ (length bytes < 20)%nat) then false else
  if decide (¬ separators bytes) then false else
  if negb (digits bytes 0 4) || negb (digits bytes 5 7) || negb (digits bytes 8 10) ||
     negb (digits bytes 11 13) || negb (digits bytes 14 16) || negb (digits bytes 17 19)
  then false else
  match number bytes 0 4, number bytes 5 7, number bytes 8 10,
        number bytes 11 13, number bytes 14 16, number bytes 17 19 with
  | Some year, Some month, Some day, Some hour, Some minute, Some second =>
      if decide (year = 0 ∨ ¬ (1 <= month <= 12) ∨ day = 0 ∨ days_in_month year month < day ∨
                 23 < hour ∨ 59 < minute ∨ 60 < second)
      then false
      else match after_fraction bytes with Some index => valid_zone bytes index | None => false end
  | _, _, _, _, _, _ => false
  end.

(** ** The calendar *)

(** Days from the first day of year 1 to the first day of [year]. *)
Definition days_before_year (year : Z) : Z :=
  let y := year - 1 in 365 * y + y / 4 - y / 100 + y / 400.

Definition days_before_month (year month : Z) : Z :=
  foldr (λ m acc, days_in_month year m + acc) 0 (seqZ 1 (month - 1)).

(** The number of a date, 0 for 1970-01-01. *)
Definition epoch_day (year month day : Z) : Z :=
  days_before_year year + days_before_month year month + (day - 1) - days_before_year 1970.

Definition is_date (year month day : Z) : Prop :=
  1 <= month <= 12 ∧ 1 <= day <= days_in_month year month.

(** The instant a UTC timestamp with milliseconds names, in milliseconds since the epoch. *)
Definition instant (value : str) : option Z :=
  let bytes := as_bytes value in
  year ← number bytes 0 4; month ← number bytes 5 7; day ← number bytes 8 10;
  hour ← number bytes 11 13; minute ← number bytes 14 16; second ← number bytes 17 19;
  millis ← number bytes 20 23;
  Some ((epoch_day year month day * 86400 + hour * 3600 + minute * 60 + second) * 1000 + millis).

(** ** [civil_from_days] is the calendar *)

Lemma days_in_month_period y m e : days_in_month (y + 400 * e) m = days_in_month y m.
Proof.
  unfold days_in_month.
  replace ((y + 400 * e) mod 400) with (y mod 400)
    by (rewrite Z.mul_comm, Z.mod_add by lia; done).
  replace ((y + 400 * e) mod 4) with (y mod 4)
    by (replace (400 * e) with (100 * e * 4) by lia; rewrite Z.mod_add by lia; done).
  replace ((y + 400 * e) mod 100) with (y mod 100)
    by (replace (400 * e) with (4 * e * 100) by lia; rewrite Z.mod_add by lia; done).
  done.
Qed.

Lemma days_before_year_period y e : days_before_year (y + 400 * e) = days_before_year y + 146097 * e.
Proof.
  unfold days_before_year.
  replace (y + 400 * e - 1) with (y - 1 + 400 * e) by lia.
  replace ((y - 1 + 400 * e) / 4) with ((y - 1) / 4 + 100 * e)
    by (replace (400 * e) with (100 * e * 4) by lia; rewrite Z.div_add by lia; lia).
  replace ((y - 1 + 400 * e) / 100) with ((y - 1) / 100 + 4 * e)
    by (replace (400 * e) with (4 * e * 100) by lia; rewrite Z.div_add by lia; lia).
  replace ((y - 1 + 400 * e) / 400) with ((y - 1) / 400 + e)
    by (rewrite (Z.mul_comm 400 e), Z.div_add by lia; lia).
  lia.
Qed.

Lemma days_before_month_period y m e : days_before_month (y + 400 * e) m = days_before_month y m.
Proof.
  unfold days_before_month. induction (seqZ 1 (m - 1)) as [|i l IH]; [done|].
  cbn [foldr]. by rewrite days_in_month_period, IH.
Qed.

Lemma div_bounds k x : 0 < k → k * (x / k) <= x < k * (x / k) + k.
Proof. intros Hk. pose proof (Z.div_mod x k ltac:(lia)). pose proof (Z.mod_pos_bound x k Hk). lia. Qed.

(** The year of the era, counted from March, a day falls in, and the day in it: 366
    days only when the next February has 29. *)
Lemma year_of_era_spec doe :
  0 <= doe < 146097 →
  let y := (doe - doe / 1460 + doe / 36524 - doe / 146096) / 365 in
  let doy := doe - (365 * y + y / 4 - y / 100) in
  0 <= y <= 399 ∧ 0 <= doy <= 365 ∧
  (doy = 365 → y = 4 * (y / 4) + 3 ∧ y ≠ 99 ∧ y ≠ 199 ∧ y ≠ 299).
Proof.
  intros Hdoe y doy. unfold doy, y.
  set (a := doe / 1460). set (b := doe / 36524). set (c := doe / 146096).
  assert (1460 * a <= doe < 1460 * a + 1460) as Ha by by apply div_bounds.
  assert (36524 * b <= doe < 36524 * b + 36524) as Hb by by apply div_bounds.
  assert (146096 * c <= doe < 146096 * c + 146096) as Hc by by apply div_bounds.
  clearbody a b c. clear y doy. set (y := (doe - a + b - c) / 365).
  assert (365 * y <= doe - a + b - c < 365 * y + 365) as Hy by by apply div_bounds.
  clearbody y. set (q := y / 4). set (h := y / 100).
  assert (4 * q <= y < 4 * q + 4) as Hq by by apply div_bounds.
  assert (100 * h <= y < 100 * h + 100) as Hh by by apply div_bounds. clearbody q h.
  assert (b = 0 ∨ b = 1 ∨ b = 2 ∨ b = 3 ∨ b = 4) as Hbs by lia.
  assert (h = 0 ∨ h = 1 ∨ h = 2 ∨ h = 3 ∨ h = 4) as Hhs by lia.
  assert (c = 0 ∨ c = 1) as [-> | ->] by lia;
    destruct Hbs as [-> |[-> |[-> |[-> | ->]]]]; destruct Hhs as [-> |[-> |[-> |[-> | ->]]]];
    try (exfalso; lia); (split_and!; [lia..|intros Hl; split_and!; lia]).
Qed.
Lemma civil_era days e :
  civil_from_days (days + 146097 * e) =
  let '(y, m, d) := civil_from_days days in (y + 400 * e, m, d).
Proof.
  unfold civil_from_days.
  replace (days + 146097 * e + 719468) with (days + 719468 + e * 146097) by lia.
  rewrite Z.mod_add, Z.div_add by lia.
  set (z := days + 719468). set (doe := z mod 146097).
  set (yoe := (doe - doe / 1460 + doe / 36524 - doe / 146096) / 365).
  set (mp := (5 * _ + 2) / 153). set (m := if decide (mp < 10) then _ else _).
  cbv zeta. destruct (decide (m <= 2)); f_equal; f_equal; lia.
Qed.


Lemma days_in_february y : days_in_month y 2 = 28 ∨ days_in_month y 2 = 29.
Proof. unfold days_in_month. rewrite 2!decide_False by set_solver. simpl. case_decide; auto. Qed.

Lemma days_in_others y :
  days_in_month y 1 = 31 ∧ days_in_month y 3 = 31 ∧ days_in_month y 4 = 30 ∧
  days_in_month y 5 = 31 ∧ days_in_month y 6 = 30 ∧ days_in_month y 7 = 31 ∧
  days_in_month y 8 = 31 ∧ days_in_month y 9 = 30 ∧ days_in_month y 10 = 31 ∧
  days_in_month y 11 = 30 ∧ days_in_month y 12 = 31.
Proof. done. Qed.

(** Evaluates the closed term [t] in the goal. *)
Tactic Notation "eval_closed" constr(t) := let v := eval vm_compute in t in change t with v.
Tactic Notation "eval_closed" constr(t) "in" hyp(H) :=
  let v := eval vm_compute in t in change t with v in H.

(** The month and the day of a day counted from the first of March. *)
Lemma month_of_year_spec doy :
  0 <= doy <= 365 →
  let mp := (5 * doy + 2) / 153 in
  let d := doy - (153 * mp + 2) / 5 + 1 in
  let m := if decide (mp < 10) then mp + 3 else mp - 9 in
  (2 < m <= 12 ∧ ∀ y, 1 <= d <= days_in_month y m ∧
     days_before_month y m + (d - 1) = 31 + days_in_month y 2 + doy) ∨
  (1 <= m <= 2 ∧ ∀ y, days_before_month y m + (d - 1) = doy - 306 ∧
     (1 <= d <= days_in_month y m ∨ (doy = 365 ∧ m = 2 ∧ d = 29))).
Proof.
  intros Hdoy mp.
  assert (153 * mp <= 5 * doy + 2 < 153 * mp + 153) as Hmp by by apply div_bounds.
  clearbody mp.
  assert (mp ∈ [0; 1; 2; 3; 4; 5; 6; 7; 8; 9; 10; 11]) as Hin
    by (rewrite !elem_of_cons; lia).
  repeat (apply elem_of_cons in Hin as [->|Hin]); [..|by apply not_elem_of_nil in Hin].
  all: match goal with |- context [(153 * ?k + 2) / 5] => eval_closed ((153 * k + 2) / 5) end.
  all: repeat match goal with |- context [if @decide (?a < 10) ?dec then ?x else ?y] =>
    eval_closed (if @decide (a < 10) dec then x else y) end.
  all: unfold days_before_month; repeat match goal with |- context [seqZ 1 ?k] =>
    eval_closed (seqZ 1 k) end; cbn [foldr].
  all: first [left; split; [lia|]|right; split; [lia|]]; intros y;
    pose proof (days_in_others y); pose proof (days_in_february y); lia.
Qed.

Lemma div_step k y : 0 < k → y / k = (y - 1) / k + (if decide (y mod k = 0) then 1 else 0).
Proof.
  intros Hk. case_decide as Hm; Z.to_euclidean_division_equations; nia.
Qed.

(** A year is 365 days, 366 when its February has 29. *)
Lemma days_before_year_step y :
  days_before_year (y + 1) = days_before_year y + 337 + days_in_month y 2.
Proof.
  unfold days_before_year, days_in_month. rewrite 2!(decide_False (P := 2 ∈ _)) by set_solver.
  simpl. replace (y + 1 - 1) with y by lia.
  pose proof (div_step 4 y). pose proof (div_step 100 y). pose proof (div_step 400 y).
  repeat case_decide; Z.to_euclidean_division_equations; lia.
Qed.

Lemma era_day_is_date doe :
  0 <= doe < 146097 →
  let '(y, m, d) := civil_from_days (doe - 719468) in is_date y m d ∧ epoch_day y m d = doe - 719468.
Proof.
  intros Hdoe. unfold civil_from_days. replace (doe - 719468 + 719468) with doe by lia.
  rewrite (Z.div_small doe), (Z.mod_small doe) by lia.
  pose proof (year_of_era_spec doe Hdoe) as (Hy & Hdoy & Hleap).
  set (y := (doe - doe / 1460 + doe / 36524 - doe / 146096) / 365) in *.
  set (doy := doe - (365 * y + y / 4 - y / 100)) in *.
  assert (doe = days_before_year (y + 1) + doy) as Hdoe'.
  { unfold days_before_year. replace (y + 1 - 1) with y by lia. rewrite (Z.div_small y 400); lia. }
  assert (days_before_year 1970 = 719162) as H1970 by done.
  pose proof (month_of_year_spec doy Hdoy) as Hm. cbv zeta in Hm |- *.
  set (m := if decide ((5 * doy + 2) / 153 < 10) then _ else _) in *.
  set (d := doy - _ / 5 + 1) in *. clearbody m d doy.
  replace (y + 0 * 400) with y by lia. unfold is_date, epoch_day.
  destruct Hm as [[Hm Hd]|[Hm Hd]].
  - rewrite decide_False by lia. specialize (Hd y). pose proof (days_before_year_step y). lia.
  - rewrite decide_True by lia. specialize (Hd (y + 1)) as [Hb Hd].
    split; [split; [lia|]|lia]. destruct Hd as [Hd|(-> & -> & ->)]; [done|].
    split; [lia|]. unfold days_in_month. rewrite 2!decide_False by set_solver. simpl.
    rewrite decide_True; [lia|]. destruct (Hleap eq_refl) as (H4 & ?).
    Z.to_euclidean_division_equations; lia.
Qed.

Lemma civil_is_date days :
  let '(y, m, d) := civil_from_days days in is_date y m d ∧ epoch_day y m d = days.
Proof.
  set (e := (days + 719468) / 146097). set (doe := (days + 719468) mod 146097).
  assert (days = doe - 719468 + 146097 * e) as Hd.
  { pose proof (Z.div_mod (days + 719468) 146097 ltac:(lia)). unfold e, doe. lia. }
  pose proof (Z.mod_pos_bound (days + 719468) 146097 ltac:(lia)) as Hb. fold doe in Hb.
  rewrite Hd, civil_era. pose proof (era_day_is_date doe Hb) as Hok.
  destruct (civil_from_days (doe - 719468)) as [[y m] d].
  destruct Hok as [[Hm Hday] He].
  split; [split; [done|by rewrite days_in_month_period]|].
  unfold epoch_day in *. rewrite days_before_year_period, days_before_month_period. lia.
Qed.

(** ** Fields of fixed width *)

Section fields.
Open Scope N_scope.

Fixpoint dec_fixed (w : nat) (n : N) : str :=
  match w with O => [] | S w => dec_fixed w (n / 10) ++ [48 + n mod 10] end.

Lemma show_fuel_acc f n acc : show_fuel f n acc = show_fuel f n [] ++ acc.
Proof.
  revert n acc. induction f as [|f IH]; intros n acc; [done|]. cbn [show_fuel].
  case_decide; [done|]. rewrite IH, (IH _ [_]), <- app_assoc. done.
Qed.

Lemma dec_fixed_0 w : dec_fixed w 0 = replicate w 48.
Proof.
  induction w as [|w IH]; [done|]. cbn [dec_fixed]. change (0 / 10) with 0. rewrite IH.
  change (48 + 0 mod 10) with 48. symmetry. apply replicate_S_end.
Qed.

Lemma div10_lt k n : n < 10 ^ N.of_nat (S k) → n / 10 < 10 ^ N.of_nat k.
Proof.
  intros Hn. apply N.Div0.div_lt_upper_bound. by rewrite Nat2N.inj_succ, N.pow_succ_r' in Hn.
Qed.

Lemma dec_fixed_show w f n :
  n < 10 ^ N.of_nat (S w) → n < 10 ^ N.of_nat (S f) →
  replicate (S w - length (show_fuel (S f) n [])) 48 ++ show_fuel (S f) n [] = dec_fixed (S w) n.
Proof.
  revert f n. induction w as [|w IH]; intros f n Hw Hf; cbn [show_fuel]; cbn [dec_fixed].
  { apply div10_lt in Hw. rewrite decide_True; [done|]. by apply N.lt_1_r in Hw. }
  apply div10_lt in Hw, Hf. case_decide as H0.
  - rewrite H0. change (dec_fixed w (0 / 10) ++ [48 + 0 mod 10]) with (dec_fixed (S w) 0).
    by rewrite dec_fixed_0.
  - destruct f as [|f]; [by apply N.lt_1_r in Hf|].
    rewrite show_fuel_acc, length_app. change (length [48 + n mod 10]) with 1%nat.
    change (dec_fixed w (n / 10 / 10) ++ [48 + (n / 10) mod 10]) with (dec_fixed (S w) (n / 10)).
    rewrite <- (IH f) by done. rewrite <- app_assoc. do 2 f_equal. lia.
Qed.

Lemma dec_fixed_digits w n :
  length (dec_fixed w n) = w ∧ forallb is_ascii_digit (dec_fixed w n) = true.
Proof.
  revert n. induction w as [|w IH]; intros n; [done|]. cbn [dec_fixed].
  destruct (IH (n / 10)) as [Hl Hd]. rewrite length_app, Hl, forallb_app, Hd. split; [simpl; lia|].
  simpl. rewrite andb_true_r. apply bool_decide_eq_true.
  pose proof (N.mod_upper_bound n 10 ltac:(done)). set (d := n mod 10) in *. lia.
Qed.

Lemma dec_fixed_parse w n :
  n < 10 ^ N.of_nat w → n <= usize_max →
  foldl parse_digit (Some 0) (dec_fixed w n) = Some n.
Proof.
  revert n. induction w as [|w IH]; intros n Hw Hn; [by apply N.lt_1_r in Hw as ->|].
  cbn [dec_fixed]. rewrite foldl_app, IH.
  - cbn [foldl]. pose proof (N.mod_upper_bound n 10 ltac:(done)) as Hm.
    pose proof (N.div_mod n 10 ltac:(done)) as Hdm.
    set (d := n mod 10) in *. set (q := n / 10) in *.
    rewrite parse_digit_step by lia. f_equal. lia.
  - by apply div10_lt.
  - etrans; [|exact Hn]. apply N.Div0.div_le_upper_bound. lia.
Qed.
End fields.

Lemma ascii_bytes s : forallb is_ascii_digit s = true → as_bytes s = s ∧ forallb is_scalar s = true.
Proof.
  induction s as [|c s IH]; [done|]. cbn [forallb]. intros [Hc Hs]%andb_true_iff.
  destruct (IH Hs) as [Hb Hsc]. apply bool_decide_eq_true in Hc.
  rewrite as_bytes_cons, Hb, Hsc. unfold encode_char, is_scalar.
  rewrite decide_True, bool_decide_eq_true_2 by lia. done.
Qed.

(** A padded field is read back. *)
Lemma pad_field w n :
  0 <= n < Z.of_N (10 ^ N.of_nat (S w)) → n <= Z.of_N u32_max →
  length (pad (S w) n) = S w ∧ as_bytes (pad (S w) n) = pad (S w) n ∧
  forallb is_ascii_digit (pad (S w) n) = true ∧
  (s ← from_utf8 (pad (S w) n); Z.of_N <$> parse_u32 s) = Some n.
Proof.
  intros Hn Hmax.
  assert (pad (S w) n = dec_fixed (S w) (Z.to_N n)) as Hpad.
  { unfold pad, show_N. apply dec_fixed_show; [lia|apply show_fuel_bound]. }
  destruct (dec_fixed_digits (S w) (Z.to_N n)) as [Hl Hd].
  destruct (ascii_bytes _ Hd) as [Hb Hsc]. rewrite Hpad. split_and!; [done..|].
  rewrite <- Hb at 1. rewrite from_utf8_as_bytes by done. cbn [mbind option_bind].
  assert (foldl parse_digit (Some 0%N) (dec_fixed (S w) (Z.to_N n)) = Some (Z.to_N n)) as Hp.
  { apply dec_fixed_parse; unfold usize_max, u64_max, u32_max in *; lia. }
  assert (strip_prefix (lit "+") (dec_fixed (S w) (Z.to_N n)) = None) as Hs.
  { apply strip_prefix_None. intros r Hr. by rewrite Hr in Hd. }
  unfold parse_u32, parse_usize. rewrite Hs. cbn [default].
  set (ds := dec_fixed (S w) (Z.to_N n)) in *. destruct ds as [|c l]; [done|]. rewrite Hp.
  cbn [mbind option_bind]. rewrite decide_True by lia. simpl. by rewrite Z2N.id by lia.
Qed.

(** The first second of the year 10000. *)
Definition YEAR_10000 : Z := 253402300800.

Lemma days_before_year_mono y y' : y <= y' → days_before_year y <= days_before_year y'.
Proof.
  intros Hy. replace y' with (y + Z.of_nat (Z.to_nat (y' - y))) by lia.
  induction (Z.to_nat (y' - y)) as [|n IH]; [by rewrite Z.add_0_r|].
  replace (y + Z.of_nat (S n)) with (y + Z.of_nat n + 1) by lia.
  pose proof (days_before_year_step (y + Z.of_nat n)).
  pose proof (days_in_february (y + Z.of_nat n)). lia.
Qed.

(** A date lies in its year. *)
Lemma date_in_year y m d :
  is_date y m d →
  days_before_year y <= epoch_day y m d + days_before_year 1970 < days_before_year (y + 1).
Proof.
  intros [Hm Hd]. rewrite days_before_year_step. unfold epoch_day.
  pose proof (days_in_others y). pose proof (days_in_february y).
  assert (m ∈ [1; 2; 3; 4; 5; 6; 7; 8; 9; 10; 11; 12]) as Hin by (rewrite !elem_of_cons; lia).
  repeat (apply elem_of_cons in Hin as [->|Hin]); [..|by apply not_elem_of_nil in Hin].
  all: unfold days_before_month; repeat match goal with |- context [seqZ 1 ?k] =>
    eval_closed (seqZ 1 k) end; cbn [foldr]; lia.
Qed.

Lemma days_before_month_step y m :
  1 <= m → days_before_month y (m + 1) = days_before_month y m + days_in_month y m.
Proof.
  intros Hm. unfold days_before_month. replace (m + 1 - 1) with (m - 1 + 1) by lia.
  rewrite seqZ_app by lia. rewrite foldr_app. replace (seqZ (1 + (m - 1)) 1) with [m].
  2: { rewrite seqZ_cons by lia. replace (1 + (m - 1)) with m by lia. by rewrite seqZ_nil by lia. }
  cbn [foldr]. induction (seqZ 1 (m - 1)) as [|i l IH]; cbn [foldr]; lia.
Qed.

Lemma days_before_month_mono y m m' : 1 <= m <= m' → days_before_month y m <= days_before_month y m'.
Proof.
  intros Hm. replace m' with (m + Z.of_nat (Z.to_nat (m' - m))) by lia.
  induction (Z.to_nat (m' - m)) as [|n IH]; [by rewrite Z.add_0_r|].
  replace (m + Z.of_nat (S n)) with (m + Z.of_nat n + 1) by lia.
  rewrite days_before_month_step by lia.
  assert (0 <= days_in_month y (m + Z.of_nat n)) by (unfold days_in_month; repeat case_decide; lia). lia.
Qed.

(** Dates are determined by their numbers. *)
Lemma epoch_day_inj y m d y' m' d' :
  is_date y m d → is_date y' m' d' → epoch_day y m d = epoch_day y' m' d' → y = y' ∧ m = m' ∧ d = d'.
Proof.
  intros Hd Hd' He. pose proof (date_in_year _ _ _ Hd) as H1. pose proof (date_in_year _ _ _ Hd') as H2.
  assert (y = y') as <-.
  { destruct (Z.lt_trichotomy y y') as [Hlt|[->|Hlt]]; [|done|].
    - pose proof (days_before_year_mono (y + 1) y'). lia.
    - pose proof (days_before_year_mono (y' + 1) y). lia. }
  unfold epoch_day in He. destruct Hd as [Hm Hd], Hd' as [Hm' Hd'].
  pose proof (days_before_month_step y m). pose proof (days_before_month_step y m').
  assert (m = m') as <-.
  { destruct (Z.lt_trichotomy m m') as [Hlt|[->|Hlt]]; [|done|].
    - pose proof (days_before_month_mono y (m + 1) m'). lia.
    - pose proof (days_before_month_mono y (m' + 1) m). lia. }
  split_and!; [done..|lia].
Qed.

Lemma civil_year days :
  0 <= days < YEAR_10000 / 86400 → 1970 <= (civil_from_days days).1.1 <= 9999.
Proof.
  intros Hd. pose proof (civil_is_date days) as Hc.
  destruct (civil_from_days days) as [[y m] d]. cbn [fst snd]. destruct Hc as [Hdate He].
  pose proof (date_in_year y m d Hdate) as Hin. rewrite He in Hin.
  assert (YEAR_10000 / 86400 + days_before_year 1970 = days_before_year 10000) as H10000 by done.
  split; apply Z.nlt_ge; intros Hy.
  - pose proof (days_before_year_mono (y + 1) 1970). lia.
  - pose proof (days_before_year_mono 10000 y). lia.
Qed.

(** Seconds of a day as hours, minutes and seconds. *)
Lemma day_clock s :
  0 <= s < 86400 →
  0 <= s / 3600 <= 23 ∧ 0 <= s mod 3600 / 60 <= 59 ∧ 0 <= s mod 60 <= 59 ∧
  s / 3600 * 3600 + s mod 3600 / 60 * 60 + s mod 60 = s.
Proof. intros Hs. Z.to_euclidean_division_equations. lia. Qed.

(** A field of a concrete byte list. *)
Lemma get_range_ok bytes a b part :
  (a <= b <= length bytes)%nat → take (b - a) (drop a bytes) = part → get_range bytes a b = Some part.
Proof. intros Hab <-. unfold get_range. by rewrite decide_True by lia. Qed.

Lemma field_read bytes a b part n :
  get_range bytes a b = Some part → forallb is_ascii_digit part = true →
  (s ← from_utf8 part; Z.of_N <$> parse_u32 s) = Some n →
  digits bytes a b = true ∧ number bytes a b = Some n.
Proof. intros Hr Hd Hn. unfold digits, number. by rewrite Hr. Qed.

Definition written (y m d h mi s ms : str) : str :=
  y ++ lit "-" ++ m ++ lit "-" ++ d ++ lit "T" ++ h ++ lit ":" ++ mi ++ lit ":" ++ s ++
  lit "." ++ ms ++ lit "Z".

(** Where the fields of a written text are. *)
Lemma written_layout y m d h mi s ms :
  length y = 4%nat → length m = 2%nat → length d = 2%nat → length h = 2%nat →
  length mi = 2%nat → length s = 2%nat → length ms = 3%nat → forallb is_ascii_digit ms = true →
  let bytes := written y m d h mi s ms in
  length bytes = 24%nat ∧ separators bytes ∧ after_fraction bytes = Some 23%nat ∧
  valid_zone bytes 23 = true ∧ get_range bytes 0 4 = Some y ∧ get_range bytes 5 7 = Some m ∧
  get_range bytes 8 10 = Some d ∧ get_range bytes 11 13 = Some h ∧ get_range bytes 14 16 = Some mi ∧
  get_range bytes 17 19 = Some s ∧ get_range bytes 20 23 = Some ms.
Proof.
  intros Ly Lm Ld Lh Li Ls Lc Dc.
  destruct y as [|y1 [|y2 [|y3 [|y4 [|]]]]]; try done.
  destruct m as [|m1 [|m2 [|]]]; try done. destruct d as [|d1 [|d2 [|]]]; try done.
  destruct h as [|h1 [|h2 [|]]]; try done. destruct mi as [|i1 [|i2 [|]]]; try done.
  destruct s as [|s1 [|s2 [|]]]; try done. destruct ms as [|c1 [|c2 [|c3 [|]]]]; try done.
  cbn [forallb] in Dc. rewrite !andb_true_iff in Dc. destruct Dc as (D1 & D2 & D3 & _).
  split_and!; try done. unfold after_fraction. cbn. by rewrite D1, D2, D3.
Qed.

(** Reading back what was written. *)
Lemma written_reads (y m d h mi s ms : Z) :
  1 <= y <= 9999 → 1 <= m <= 12 → 1 <= d <= days_in_month y m → 0 <= h <= 23 → 0 <= mi <= 59 →
  0 <= s <= 59 → 0 <= ms <= 999 →
  let text := written (pad 4 y) (pad 2 m) (pad 2 d) (pad 2 h) (pad 2 mi) (pad 2 s) (pad 3 ms) in
  valid_timestamp text = true ∧
  instant text = Some ((epoch_day y m d * 86400 + h * 3600 + mi * 60 + s) * 1000 + ms).
Proof.
  intros Hy Hm Hd Hh Hmi Hs Hms text.
  assert (days_in_month y m <= 31) as Hdim by (unfold days_in_month; repeat case_decide; lia).
  assert (u32_max = 4294967295)%N as Hu by done.
  destruct (pad_field 3 y) as (Ly & By & Dy & Ny); [simpl; lia|lia|].
  destruct (pad_field 1 m) as (Lm & Bm & Dm & Nm); [simpl; lia|lia|].
  destruct (pad_field 1 d) as (Ld & Bd & Dd & Nd); [simpl; lia|lia|].
  destruct (pad_field 1 h) as (Lh & Bh & Dh & Nh); [simpl; lia|lia|].
  destruct (pad_field 1 mi) as (Li & Bi & Di & Ni); [simpl; lia|lia|].
  destruct (pad_field 1 s) as (Ls & Bs & Ds & Ns); [simpl; lia|lia|].
  destruct (pad_field 2 ms) as (Lc & Bc & Dc & Nc); [simpl; lia|lia|].
  assert (as_bytes text = text) as Hb.
  { unfold text, written. by rewrite !as_bytes_app, By, Bm, Bd, Bh, Bi, Bs, Bc. }
  destruct (written_layout _ _ _ _ _ _ _ Ly Lm Ld Lh Li Ls Lc Dc)
    as (Hlen & Hsep & Hfr & Hz & Ry & Rm & Rd & Rh & Ri & Rs & Rc).
  fold text in Hlen, Hsep, Hfr, Hz, Ry, Rm, Rd, Rh, Ri, Rs, Rc.
  unfold valid_timestamp, instant. rewrite Hb.
  destruct (field_read _ _ _ _ _ Ry Dy Ny) as [-> ->], (field_read _ _ _ _ _ Rm Dm Nm) as [-> ->],
    (field_read _ _ _ _ _ Rd Dd Nd) as [-> ->], (field_read _ _ _ _ _ Rh Dh Nh) as [-> ->],
    (field_read _ _ _ _ _ Ri Di Ni) as [-> ->], (field_read _ _ _ _ _ Rs Ds Ns) as [-> ->],
    (field_read _ _ _ _ _ Rc Dc Nc) as [_ ->].
  split; [|done]. unfold MAX_TIMESTAMP_BYTES.
  rewrite Hlen, decide_False by lia. rewrite decide_False by tauto. cbn [negb orb].
  rewrite decide_False by lia. by rewrite Hfr.
Qed.

(** C26 A written timestamp is valid, and read against the Gregorian calendar it names
    the very millisecond it was written for, up to the year 9999. *)
Theorem timestamp_roundtrip total_seconds millis :
  0 <= total_seconds < YEAR_10000 → 0 <= millis <= 999 →
  let text := format_rfc3339_millis total_seconds millis in
  valid_timestamp text = true ∧ instant text = Some (total_seconds * 1000 + millis).
Proof.
  intros Ht Hms. unfold format_rfc3339_millis.
  assert (YEAR_10000 <= i64_max) as Hmax by done.
  rewrite decide_True by lia. set (days := total_seconds / 86400).
  assert (0 <= days < YEAR_10000 / 86400) as Hdays.
  { split; [apply Z.div_pos; lia|]. apply Z.div_lt_upper_bound; [lia|].
    assert (86400 * (YEAR_10000 / 86400) = YEAR_10000) as -> by done. lia. }
  pose proof (civil_year days Hdays) as Hy. pose proof (civil_is_date days) as Hc.
  destruct (civil_from_days days) as [[y m] d]. cbn [fst snd] in Hy. destruct Hc as [[Hm Hd] He].
  pose proof (Z.mod_pos_bound total_seconds 86400 ltac:(lia)) as Hs.
  destruct (day_clock _ Hs) as (Hh & Hmi & Hsec & Hsum).
  destruct (written_reads y m d _ _ _ millis ltac:(lia) Hm Hd Hh Hmi Hsec Hms) as [Hv Hi].
  split; [exact Hv|]. etrans; [exact Hi|]. f_equal. rewrite He.
  pose proof (Z.div_mod total_seconds 86400 ltac:(lia)) as Hdm. fold days in Hdm. lia.
Qed.

(** [civil_from_days] is the Gregorian calendar: for every day number it gives the
    one date with that number. *)
Theorem civil_from_days_correct days y m d :
  civil_from_days days = (y, m, d) ↔ is_date y m d ∧ epoch_day y m d = days.
Proof.
  pose proof (civil_is_date days) as Hc. destruct (civil_from_days days) as [[y' m'] d'].
  destruct Hc as [Hd He]. split; [intros [= <- <- <-]; done|]. intros [Hd' He'].
  destruct (epoch_day_inj y m d y' m' d') as (-> & -> & ->); [done|done|congruence|done].
Qed.

Lemma timestamp_roundtrip_witness :
  format_rfc3339_millis 1709210096 7 = lit "2024-02-29T12:34:56.007Z" ∧
  valid_timestamp (format_rfc3339_millis 1709210096 7) = true ∧
  instant (format_rfc3339_millis 1709210096 7) = Some (1709210096 * 1000 + 7).
Proof. split; [vm_compute; reflexivity|]. apply timestamp_roundtrip; by_compute. Defined.
