(* ===== verification/Preview.v ===== *)
(** The preview of tool arguments while a model generates them,
    [presentation/preview.rs] and [presentation/preview/parser.rs].

    [PreviewParser] recognises JSON one character at a time and keeps only the
    fields a card shows, within byte budgets shared by all calls of a stream.  A
    panic of the source is [None].  The theorems: feeding never panics and keeps
    every bound, and on the arguments of a call the parser completes with the texts
    the final card would show. *)

From S2P Require Import Prelude RustStr.

Definition MAX_CALLS : nat := 16.
Definition MAX_CALL_BYTES : N := 128 * 1024.
Definition MAX_STREAM_BYTES : N := 512 * 1024.
Definition MAX_DEPTH : nat := 64.
Definition MAX_DETAIL_BYTES : N := 512.

Inductive Field := FIgnore | FPath | FContent | FOffset | FLimit.
#[global] Instance Field_eq_dec : EqDecision Field.
Proof. solve_decision. Defined.

Definition bit (f : Field) : N :=
  match f with FIgnore => 0 | FPath => 1 | FContent => 2 | FOffset => 4 | FLimit => 8 end.

Inductive ObjectState := OKeyOrEnd | OKey | OColon | OValue | OCommaOrEnd.
Inductive ArrayState := AValueOrEnd | AValue | ACommaOrEnd.
#[global] Instance ObjectState_eq_dec : EqDecision ObjectState.
Proof. solve_decision. Defined.
#[global] Instance ArrayState_eq_dec : EqDecision ArrayState.
Proof. solve_decision. Defined.
Inductive Frame := Object (o : ObjectState) | Array (a : ArrayState).
#[global] Instance Frame_eq_dec : EqDecision Frame.
Proof. solve_decision. Defined.
Inductive Capture := CKey | CIgnore | CField (f : Field).

Inductive Escape :=
  | ENone
  | ESlash
  | EUnicode (digits value : N)
  | ELowSlash (high : N)
  | ELowU (high : N)
  | ELowUnicode (high digits value : N).

#[global] Instance Escape_eq_dec : EqDecision Escape.
Proof. solve_decision. Defined.

(** [char::from_u32] and [char::to_digit(16)]. *)
Definition from_u32 (c : N) : option char := if is_scalar c then Some c else None.
Definition to_digit16 (c : char) : option N :=
  if decide (48 <= c <= 57)%N then Some (c - 48)%N else
  if decide (97 <= c <= 102)%N then Some (c - 87)%N else
  if decide (65 <= c <= 70)%N then Some (c - 55)%N else None.

(** The character after the four digits of an escape. *)
Definition decode_unit (high : option N) (value : N) : option (Escape * option char) :=
  match high with
  | Some high =>
      if decide (0xdc00 <= value <= 0xdfff)%N
      then c ← from_u32 (0x10000 + (high - 0xd800) * 1024 + value - 0xdc00)%N; Some (ENone, Some c)
      else None
  | None =>
      if decide (0xdc00 <= value <= 0xdfff)%N then None else
      if decide (0xd800 <= value <= 0xdbff)%N then Some (ELowSlash value, None) else
      c ← from_u32 value; Some (ENone, Some c)
  end.

Definition decode (e : Escape) (ch : char) : option (Escape * option char) :=
  match e with
  | ENone =>
      if decide (ch = BACKSLASH) then Some (ESlash, None) else
      if decide (ch < 0x20)%N then None else Some (ENone, Some ch)
  | ESlash =>
      if decide (ch = 117)%N then Some (EUnicode 0 0, None) else
      if decide (ch = DQUOTE ∨ ch = BACKSLASH ∨ ch = 47%N) then Some (ENone, Some ch) else
      if decide (ch = 98)%N then Some (ENone, Some 8%N) else
      if decide (ch = 102)%N then Some (ENone, Some 12%N) else
      if decide (ch = 110)%N then Some (ENone, Some LF) else
      if decide (ch = 114)%N then Some (ENone, Some CR) else
      if decide (ch = 116)%N then Some (ENone, Some TAB) else None
  | ELowSlash high => if decide (ch = BACKSLASH) then Some (ELowU high, None) else None
  | ELowU high => if decide (ch = 117)%N then Some (ELowUnicode high 0 0, None) else None
  | EUnicode digits value =>
      d ← to_digit16 ch;
      let value := ((value * 16) mod 65536 + d)%N in
      if decide (digits < 3)%N then Some (EUnicode (digits + 1) value, None)
      else decode_unit None value
  | ELowUnicode high digits value =>
      d ← to_digit16 ch;
      let value := ((value * 16) mod 65536 + d)%N in
      if decide (digits < 3)%N then Some (ELowUnicode high (digits + 1) value, None)
      else decode_unit (Some high) value
  end.

Inductive NumberState := Minus | Zero | Integer | Dot | Fraction | Exp | ExpSign | ExpDigits.

Definition number_complete (s : NumberState) : bool :=
  match s with Zero | Integer | Fraction | ExpDigits => true | _ => false end.

Inductive Token :=
  | TString (capture : Capture) (escape : Escape)
  | TNumber (state : NumberState) (f : Field) (digits : str)
  | TLiteral (expected : str) (index : nat).

(** A [String]: its text and the capacity it holds. *)
Record Buffer := mkBuffer { text : str; capacity : N }.
Definition empty_buffer : Buffer := mkBuffer [] 0.

(** The stack has its top first. *)
Record PreviewParser := mkPreview {
  is_write : bool;
  is_read : bool;
  started : bool;
  done_ : bool;
  stack : list Frame;
  token : option Token;
  key : str;
  key_overflow : bool;
  field : Field;
  seen : N;
  path : option Buffer;
  content : option Buffer;
  offset : option N;
  limit : option N;
  retained : N;
  path_cut : bool;
  body_cut : bool;
  invalid : bool;
  changes : N
}.

Definition set_started  (p : PreviewParser) : PreviewParser :=
  mkPreview (is_write p) (is_read p) true (done_ p) (stack p) (token p) (key p) (key_overflow p)
    (field p) (seen p) (path p) (content p) (offset p) (limit p) (retained p) (path_cut p)
    (body_cut p) (invalid p) (changes p).
Definition set_done  (p : PreviewParser) : PreviewParser :=
  mkPreview (is_write p) (is_read p) (started p) true (stack p) (token p) (key p) (key_overflow p)
    (field p) (seen p) (path p) (content p) (offset p) (limit p) (retained p) (path_cut p)
    (body_cut p) (invalid p) (changes p).
Definition set_stack (s : list Frame) (p : PreviewParser) : PreviewParser :=
  mkPreview (is_write p) (is_read p) (started p) (done_ p) s (token p) (key p) (key_overflow p)
    (field p) (seen p) (path p) (content p) (offset p) (limit p) (retained p) (path_cut p)
    (body_cut p) (invalid p) (changes p).
Definition set_token (t : option Token) (p : PreviewParser) : PreviewParser :=
  mkPreview (is_write p) (is_read p) (started p) (done_ p) (stack p) t (key p) (key_overflow p)
    (field p) (seen p) (path p) (content p) (offset p) (limit p) (retained p) (path_cut p)
    (body_cut p) (invalid p) (changes p).
Definition set_key (k : str) (o : bool) (p : PreviewParser) : PreviewParser :=
  mkPreview (is_write p) (is_read p) (started p) (done_ p) (stack p) (token p) k o (field p) (seen
    p) (path p) (content p) (offset p) (limit p) (retained p) (path_cut p) (body_cut p) (invalid
    p) (changes p).
Definition set_field (f : Field) (p : PreviewParser) : PreviewParser :=
  mkPreview (is_write p) (is_read p) (started p) (done_ p) (stack p) (token p) (key p)
    (key_overflow p) f (seen p) (path p) (content p) (offset p) (limit p) (retained p) (path_cut
    p) (body_cut p) (invalid p) (changes p).
Definition set_seen (n : N) (p : PreviewParser) : PreviewParser :=
  mkPreview (is_write p) (is_read p) (started p) (done_ p) (stack p) (token p) (key p)
    (key_overflow p) (field p) n (path p) (content p) (offset p) (limit p) (retained p) (path_cut
    p) (body_cut p) (invalid p) (changes p).
Definition set_path (b : option Buffer) (p : PreviewParser) : PreviewParser :=
  mkPreview (is_write p) (is_read p) (started p) (done_ p) (stack p) (token p) (key p)
    (key_overflow p) (field p) (seen p) b (content p) (offset p) (limit p) (retained p) (path_cut
    p) (body_cut p) (invalid p) (changes p).
Definition set_content (b : option Buffer) (p : PreviewParser) : PreviewParser :=
  mkPreview (is_write p) (is_read p) (started p) (done_ p) (stack p) (token p) (key p)
    (key_overflow p) (field p) (seen p) (path p) b (offset p) (limit p) (retained p) (path_cut p)
    (body_cut p) (invalid p) (changes p).
Definition set_offset (n : option N) (p : PreviewParser) : PreviewParser :=
  mkPreview (is_write p) (is_read p) (started p) (done_ p) (stack p) (token p) (key p)
    (key_overflow p) (field p) (seen p) (path p) (content p) n (limit p) (retained p) (path_cut p)
    (body_cut p) (invalid p) (changes p).
Definition set_limit (n : option N) (p : PreviewParser) : PreviewParser :=
  mkPreview (is_write p) (is_read p) (started p) (done_ p) (stack p) (token p) (key p)
    (key_overflow p) (field p) (seen p) (path p) (content p) (offset p) n (retained p) (path_cut
    p) (body_cut p) (invalid p) (changes p).
Definition set_retained (n : N) (p : PreviewParser) : PreviewParser :=
  mkPreview (is_write p) (is_read p) (started p) (done_ p) (stack p) (token p) (key p)
    (key_overflow p) (field p) (seen p) (path p) (content p) (offset p) (limit p) n (path_cut p)
    (body_cut p) (invalid p) (changes p).
Definition cut_path  (p : PreviewParser) : PreviewParser :=
  mkPreview (is_write p) (is_read p) (started p) (done_ p) (stack p) (token p) (key p)
    (key_overflow p) (field p) (seen p) (path p) (content p) (offset p) (limit p) (retained p)
    true (body_cut p) (invalid p) (changes p).
Definition cut_body  (p : PreviewParser) : PreviewParser :=
  mkPreview (is_write p) (is_read p) (started p) (done_ p) (stack p) (token p) (key p)
    (key_overflow p) (field p) (seen p) (path p) (content p) (offset p) (limit p) (retained p)
    (path_cut p) true (invalid p) (changes p).
Definition changed  (p : PreviewParser) : PreviewParser :=
  mkPreview (is_write p) (is_read p) (started p) (done_ p) (stack p) (token p) (key p)
    (key_overflow p) (field p) (seen p) (path p) (content p) (offset p) (limit p) (retained p)
    (path_cut p) (body_cut p) (invalid p) (changes p + 1)%N.

Definition PreviewParser_new (name : str) : PreviewParser :=
  mkPreview (bool_decide (name = lit "write")) (bool_decide (name = lit "read")) false false [] None
    [] false FIgnore 0 None None None None 0 false false false 0.

Definition complete (p : PreviewParser) : bool := done_ p && negb (invalid p).
Definition truncated (p : PreviewParser) : bool := path_cut p || body_cut p.

(** The parser and the bytes its stream retains. *)
Definition PState : Type := PreviewParser * N.
Definition on_parser (f : PreviewParser → PreviewParser) (st : PState) : PState := (f st.1, st.2).

Definition fail (st : PState) : PState :=
  let '(p, b) := st in
  if invalid p then st else
  (mkPreview (is_write p) (is_read p) (started p) (done_ p) [] None [] (key_overflow p) (field p)
     (seen p) None None None None 0 (path_cut p) (body_cut p) true (changes p + 1),
   (b - retained p)%N).

Definition json_space (ch : char) : bool := bool_decide (ch ∈ [SPACE; TAB; CR; LF]).
Definition is_digit (ch : char) : bool := is_ascii_digit ch.
Definition is_digit19 (ch : char) : bool := bool_decide (49 <= ch <= 57)%N.
Definition DOT : char := 46.
Definition MINUS : char := 45.
Definition COMMA : char := 44.
Definition COLON : char := 58.
Definition LBRACE : char := 123.
Definition RBRACE : char := 125.
Definition LBRACKET : char := 91.
Definition RBRACKET : char := 93.

Definition number_next (s : NumberState) (ch : char) : option NumberState :=
  match s with
  | Minus => if decide (ch = 48)%N then Some Zero else if is_digit19 ch then Some Integer else None
  | Zero => if decide (ch = DOT) then Some Dot else
            if decide (ch = 101 ∨ ch = 69)%N then Some Exp else None
  | Integer => if is_digit ch then Some Integer else if decide (ch = DOT) then Some Dot else
               if decide (ch = 101 ∨ ch = 69)%N then Some Exp else None
  | Dot => if is_digit ch then Some Fraction else None
  | Fraction => if is_digit ch then Some Fraction else
                if decide (ch = 101 ∨ ch = 69)%N then Some Exp else None
  | Exp => if decide (ch = 43 ∨ ch = MINUS)%N then Some ExpSign else
           if is_digit ch then Some ExpDigits else None
  | ExpSign => if is_digit ch then Some ExpDigits else None
  | ExpDigits => if is_digit ch then Some ExpDigits else None
  end.

(** [char::is_control] and, for a control character, [char::escape_default]. *)
Definition is_control (c : char) : bool := bool_decide (c < 32 ∨ 127 <= c < 160)%N.
Definition hex_lower (d : N) : char := if decide (d < 10)%N then (48 + d)%N else (87 + d)%N.
Definition escape_control (c : char) : str :=
  if decide (c = TAB) then lit "\t" else
  if decide (c = CR) then lit "\r" else
  if decide (c = LF) then lit "\n" else
  lit "\u{" ++ (if decide (c < 16)%N then [] else [hex_lower (c / 16)]) ++ [hex_lower (c mod 16)] ++ lit "}".

(** What is shown for one character of a path or of a body. *)
Definition shown_char (body : bool) (ch : char) : str :=
  if negb body && bool_decide (ch ∈ [CR; LF; TAB]) then [SPACE]
  else if is_control ch && negb (body && bool_decide (ch ∈ [LF; TAB])) then escape_control ch
  else [ch].

Section parser.
(** [String::try_reserve_exact]: the capacity after asking for a total capacity,
    or [None] when the allocation fails. *)
Context (reserve : N → N → option N).

Definition buffer (body : bool) (p : PreviewParser) : option Buffer :=
  if body then content p else path p.
Definition set_buffer (body : bool) (b : Buffer) (p : PreviewParser) : PreviewParser :=
  if body then set_content (Some b) p else set_path (Some b) p.

Definition append_display (body : bool) (value : str) (st : PState) : option (PState * bool) :=
  let '(p, stream_bytes) := st in
  buf ← buffer body p;
  let previous_capacity := capacity buf in
  other_call_capacity ← checked_sub (retained p) previous_capacity;
  other_stream_capacity ← checked_sub stream_bytes previous_capacity;
  let capacity_limit :=
    N.min (N.min (if body then MAX_CALL_BYTES else MAX_DETAIL_BYTES)
                 (MAX_CALL_BYTES - other_call_capacity))
          (MAX_STREAM_BYTES - other_stream_capacity) in
  let needed := (str_len (text buf) + str_len value)%N in
  if decide (capacity_limit < needed)%N then Some (st, false) else
  if decide (previous_capacity < needed)%N then
    let requested_capacity :=
      N.min (N.max (N.max (N.min (previous_capacity * 2) usize_max) 8) needed) capacity_limit in
    let granted := reserve previous_capacity requested_capacity in
    let actual_capacity := default previous_capacity granted in
    if decide (capacity_limit < actual_capacity)%N then
      Some ((set_retained other_call_capacity (set_buffer body empty_buffer p),
             other_stream_capacity), false)
    else
      let reserved := bool_decide (is_Some granted) in
      let value := if reserved then value else [] in
      Some ((set_retained (other_call_capacity + actual_capacity)
               (set_buffer body (mkBuffer (text buf ++ value) actual_capacity) p),
             (other_stream_capacity + actual_capacity)%N), reserved)
  else Some ((set_buffer body (mkBuffer (text buf ++ value) previous_capacity) p, stream_bytes), true).

Definition capture (c : Capture) (ch : char) (st : PState) : option PState :=
  let p := st.1 in
  let display (body : bool) :=
    if (if body then body_cut p else path_cut p) then Some st else
    match append_display body (shown_char body ch) st with
    | None => None
    | Some (st, true) => Some (on_parser changed st)
    | Some (st, false) =>
        Some (on_parser changed (on_parser (if body then cut_body else cut_path) st))
    end in
  match c with
  | CKey =>
      Some (on_parser (if decide ((str_len (key p) + len_utf8 ch <= 32)%N ∧ key_overflow p = false)
                       then set_key (key p ++ [ch]) (key_overflow p)
                       else set_key (key p) true) st)
  | CField FPath => display false
  | CField FContent => display true
  | _ => Some st
  end.

Definition key_field (p : PreviewParser) : Field :=
  if key_overflow p then FIgnore else
  if decide (key p = lit "path" ∨ key p = lit "file_path") then FPath else
  if decide (key p = lit "content" ∧ is_write p = true) then FContent else
  if decide (key p = lit "offset" ∧ is_read p = true) then FOffset else
  if decide (key p = lit "limit" ∧ is_read p = true) then FLimit else FIgnore.

(** [*stack.last_mut().unwrap() = frame]. *)
Definition replace_top (f : Frame) (st : PState) : option PState :=
  match stack st.1 with [] => None | _ :: rest => Some (on_parser (set_stack (f :: rest)) st) end.

Definition finish_key (st : PState) : option PState :=
  let f := key_field st.1 in
  let st := on_parser (set_field f) st in
  if decide (N.land (seen st.1) (bit f) ≠ 0%N) then Some (fail st) else
  let st := on_parser (λ p, set_key [] (key_overflow p) (set_seen (N.lor (seen p) (bit f)) p)) st in
  replace_top (Object OColon) st.

Definition close (p : PreviewParser) : PreviewParser :=
  let p := set_stack (tail (stack p)) p in
  if decide (stack p = []) then set_done p else p.

(** A number ends at [ch]; a tracked one is kept. *)
Definition finish_number (f : Field) (digits : str) (st : PState) : PState :=
  if decide (f = FIgnore) then st else
  match parse_usize digits with
  | Some value =>
      if decide (0 < value)%N
      then on_parser (λ p, changed (if decide (f = FOffset) then set_offset (Some value) p
                                    else set_limit (Some value) p)) st
      else fail st
  | None => fail st
  end.

(** The new state and whether the character was consumed. *)
Definition token_char (t : Token) (ch : char) (st : PState) : option (PState * bool) :=
  match t with
  | TString c e =>
      if decide (e = ENone ∧ ch = DQUOTE) then
        match c with
        | CKey => st ← finish_key st; Some (st, true)
        | _ =>
            match stack st.1 with
            | Object (OKeyOrEnd | OKey) :: _ => st ← replace_top (Object OColon) st; Some (st, true)
            | _ => Some (st, true)
            end
        end
      else
        match decode e ch with
        | None => Some (fail st, true)
        | Some (next, decoded) =>
            st ← match decoded with Some d => capture c d st | None => Some st end;
            Some (on_parser (set_token (Some (TString c next))) st, true)
        end
  | TLiteral expected index =>
      if decide (expected !! index ≠ Some ch) then Some (fail st, true) else
      if decide (S index < length expected)%nat
      then Some (on_parser (set_token (Some (TLiteral expected (S index)))) st, true)
      else Some (st, true)
  | TNumber s f digits =>
      match number_next s ch with
      | Some s =>
          if decide (f ≠ FIgnore ∧ (20 <= str_len digits)%N) then Some (fail st, true) else
          let digits := if decide (f ≠ FIgnore) then digits ++ [ch] else digits in
          Some (on_parser (set_token (Some (TNumber s f digits))) st, true)
      | None =>
          if number_complete s && (json_space ch || bool_decide (ch ∈ [COMMA; RBRACKET; RBRACE]))
          then Some (finish_number f digits st, false)
          else Some (fail st, true)
      end
  end.

(** The value that starts with [ch], once its place is marked as taken. *)
Definition start_string (f : Field) (st : PState) : option PState :=
  st ←
    match f with
    | FPath =>
        Some (on_parser (λ p, changed (match path p with
          | None => set_path (Some empty_buffer) p | Some _ => p end)) st)
    | FContent =>
        st ← match path st.1 with
             | Some _ => Some st
             | None =>
                 let st := on_parser (set_path (Some empty_buffer)) st in
                 let room := N.min 32 (MAX_STREAM_BYTES - st.2) in
                 st ← fst <$> append_display false (replicate (N.to_nat room) SPACE) st;
                 buf ← path st.1;
                 Some (on_parser (set_path (Some (mkBuffer [] (capacity buf)))) st)
             end;
        Some (on_parser (λ p, changed (set_content (Some empty_buffer) p)) st)
    | _ => Some st
    end;
  Some (on_parser (set_token (Some (TString (CField f) ENone))) st).

Definition taken (f : Frame) : Frame :=
  match f with Object _ => Object OCommaOrEnd | Array _ => Array ACommaOrEnd end.

Definition start_value (ch : char) (st : PState) : option PState :=
  let f := if decide (length (stack st.1) = 1%nat) then field st.1 else FIgnore in
  if decide ((f = FPath ∨ f = FContent) ∧ ch ≠ DQUOTE ∨
             (f = FOffset ∨ f = FLimit) ∧ is_digit ch = false ∧ ch ≠ MINUS)
  then Some (fail st) else
  match stack st.1 with
  | [] => None
  | parent :: rest =>
      let st := on_parser (set_stack (taken parent :: rest)) st in
      if decide (ch = LBRACE ∨ ch = LBRACKET) then
        if decide (MAX_DEPTH <= length (stack st.1))%nat then Some (fail st) else
        let frame := if decide (ch = LBRACE) then Object OKeyOrEnd else Array AValueOrEnd in
        Some (on_parser (λ p, set_stack (frame :: stack p) p) st)
      else if decide (ch = DQUOTE) then start_string f st
      else if decide (ch = MINUS ∨ is_digit ch = true) then
        let s := if decide (ch = MINUS) then Minus else if decide (ch = 48)%N then Zero else Integer in
        Some (on_parser (set_token (Some (TNumber s f (if decide (f = FIgnore) then [] else [ch])))) st)
      else if decide (ch = 116)%N then Some (on_parser (set_token (Some (TLiteral (lit "true") 1))) st)
      else if decide (ch = 102)%N then Some (on_parser (set_token (Some (TLiteral (lit "false") 1))) st)
      else if decide (ch = 110)%N then Some (on_parser (set_token (Some (TLiteral (lit "null") 1))) st)
      else Some (fail st)
  end.

Definition structural (ch : char) (st : PState) : option PState :=
  if json_space ch then Some st else
  if negb (started st.1) then
    let st := on_parser set_started st in
    if decide (ch ≠ LBRACE) then Some (fail st)
    else Some (on_parser (λ p, set_stack (Object OKeyOrEnd :: stack p) p) st)
  else if done_ st.1 then Some (fail st) else
  match stack st.1 with
  | (Object (OKeyOrEnd | OKey) as top) :: rest =>
      if decide (ch = RBRACE ∧ top = Object OKeyOrEnd)
      then Some (on_parser close st)
      else if decide (ch = DQUOTE) then
        let c := if decide (rest = []) then CKey else CIgnore in
        Some (on_parser (λ p, set_token (Some (TString c ENone)) (set_key [] false p)) st)
      else Some (fail st)
  | Object OColon :: _ =>
      if decide (ch = COLON) then replace_top (Object OValue) st else Some (fail st)
  | Object OCommaOrEnd :: _ =>
      if decide (ch = COMMA) then replace_top (Object OKey) st
      else if decide (ch = RBRACE) then Some (on_parser close st) else Some (fail st)
  | Array ACommaOrEnd :: _ =>
      if decide (ch = COMMA) then replace_top (Array AValue) st
      else if decide (ch = RBRACKET) then Some (on_parser close st) else Some (fail st)
  | Array AValueOrEnd :: _ =>
      if decide (ch = RBRACKET) then Some (on_parser close st) else start_value ch st
  | Object OValue :: _ | Array AValue :: _ => start_value ch st
  | [] => Some (fail st)
  end.

(** One round of the loop of [feed]. *)
Definition feed_char (ch : char) (st : PState) : option PState :=
  if invalid st.1 then Some st else
  match token st.1 with
  | None => structural ch st
  | Some t =>
      match token_char t ch (on_parser (set_token None) st) with
      | None => None
      | Some (st, consumed) => if consumed || invalid st.1 then Some st else structural ch st
      end
  end.

Fixpoint feed (delta : str) (st : PState) : option PState :=
  match delta with [] => Some st | ch :: delta => st ← feed_char ch st; feed delta st end.
End parser.

(** ** Memory and shape *)

Definition held (b : option Buffer) : N := match b with Some buf => capacity buf | None => 0 end.
Definition fits (b : option Buffer) : Prop :=
  match b with Some buf => (str_len (text buf) <= capacity buf)%N | None => True end.

(** The byte budgets; [others] is what the other calls of the stream retain. *)
Record MemInv (others : N) (st : PState) : Prop := mkMem {
  mem_retained : retained st.1 = (held (path st.1) + held (content st.1))%N;
  mem_call : (retained st.1 <= MAX_CALL_BYTES)%N;
  mem_stream : st.2 = (retained st.1 + others)%N;
  mem_bound : (st.2 <= MAX_STREAM_BYTES)%N;
  mem_path : fits (path st.1);
  mem_content : fits (content st.1);
  mem_detail : (held (path st.1) <= MAX_DETAIL_BYTES)%N
}.

Definition at_key (s : list Frame) : Prop := s = [Object OKeyOrEnd] ∨ s = [Object OKey].

(** What a token says about the rest of the state. *)
Definition capture_ok (c : Capture) (p : PreviewParser) : Prop :=
  match c with
  | CKey => at_key (stack p)
  | CField FPath => is_Some (path p) ∧ ¬ at_key (stack p)
  | CField FContent => is_Some (content p) ∧ ¬ at_key (stack p)
  | _ => ¬ at_key (stack p)
  end.
Definition tok_ok (t : Token) (p : PreviewParser) : Prop :=
  match t with
  | TString c _ => capture_ok c p
  | TNumber _ _ digits => (str_len digits <= 20)%N
  | _ => True
  end.
Definition token_ok (p : PreviewParser) : Prop :=
  match token p with Some t => tok_ok t p | None => True end.

Definition is_taken (f : Frame) : Prop := f = Object OCommaOrEnd ∨ f = Array ACommaOrEnd.

Record ShapeInv (p : PreviewParser) : Prop := mkShape {
  shape_key : (str_len (key p) <= 32)%N;
  shape_depth : length (stack p) <= MAX_DEPTH;
  shape_below : Forall is_taken (tail (stack p));
  shape_token : token_ok p;
  shape_seen : is_Some (content p) → N.testbit (seen p) 1 = true;
  shape_content : stack p = [Object OColon] ∨ stack p = [Object OValue] →
    field p = FContent → content p = None ∧ N.testbit (seen p) 1 = true;
  shape_bottom : ∀ a, last (stack p) ≠ Some (Array a);
  shape_started : stack p ≠ [] → started p = true
}.

Definition PInv (others : N) (st : PState) : Prop := MemInv others st ∧ ShapeInv st.1.

Lemma PInv_new name others : (others <= MAX_STREAM_BYTES)%N → PInv others (PreviewParser_new name, others).
Proof.
  intros Ho. split; split; try done; simpl; try lia; first [by constructor|by intros []].
Qed.

Lemma PInv_fail others st : PInv others st → PInv others (fail st).
Proof.
  intros [[Hr Hc Hs Hb Hp Hco Hd] []]. unfold fail. destruct st as [p b]. simpl in *.
  destruct (invalid p) eqn:E; [split; by split|].
  split; split; simpl; try done; try lia; first [by constructor|by intros []].
Qed.

(** Changes of fields the memory invariant does not read. *)
Lemma MemInv_same others st st' :
  st'.2 = st.2 → path st'.1 = path st.1 → content st'.1 = content st.1 →
  retained st'.1 = retained st.1 → MemInv others st → MemInv others st'.
Proof. intros H0 H1 H2 H3 []. split; by rewrite ?H0, ?H1, ?H2, ?H3. Qed.

Lemma number_next_ascii s ch s' : number_next s ch = Some s' → len_utf8 ch = 1%N.
Proof.
  assert ((ch < 128)%N → len_utf8 ch = 1%N) as Hlen.
  { intros Hc. unfold len_utf8. by rewrite decide_True by lia. }
  unfold number_next, is_digit, is_digit19, is_ascii_digit, MINUS, DOT. intros H. apply Hlen.
  destruct s; repeat first [case_decide|case_bool_decide]; try done; lia.
Qed.

Section safety.
Context (reserve : N → N → option N).
Context (reserve_enough : ∀ c w c', reserve c w = Some c' → (w <= c')%N).
Local Notation append_display := (append_display reserve).

(** Taking one buffer out of the account. *)
Lemma other_held others body p b buf :
  MemInv others (p, b) → buffer body p = Some buf →
  ∃ oc, retained p = (capacity buf + oc)%N ∧ b = (capacity buf + oc + others)%N ∧
    (str_len (text buf) <= capacity buf)%N ∧
    (capacity buf <= if body then MAX_CALL_BYTES else MAX_DETAIL_BYTES)%N ∧
    (oc <= MAX_CALL_BYTES)%N ∧ (oc + others <= MAX_STREAM_BYTES)%N ∧
    oc = held (buffer (negb body) p) ∧
    ∀ t c, (str_len t <= c)%N → (c <= if body then MAX_CALL_BYTES else MAX_DETAIL_BYTES)%N →
      (oc + c <= MAX_CALL_BYTES)%N → (oc + others + c <= MAX_STREAM_BYTES)%N →
      MemInv others (set_retained (oc + c) (set_buffer body (mkBuffer t c) p), (oc + others + c)%N).
Proof using Type.
  intros [Hr Hc Hs Hb Hp Hco Hd] Hbuf. unfold buffer in Hbuf. simpl in *.
  destruct body; rewrite Hbuf in *; simpl in *.
  - exists (held (path p)). split_and!; [lia|lia|done|lia|lia|lia|done|]. intros. split; simpl; try done; lia.
  - exists (held (content p)). split_and!; [lia|lia|done|lia|lia|lia|done|]. intros. split; simpl; try done; lia.
Qed.

(** What a buffer may hold beside the other buffer of its call and the other calls. *)
Definition room (body : bool) (others other : N) : N :=
  N.min (N.min (if body then MAX_CALL_BYTES else MAX_DETAIL_BYTES) (MAX_CALL_BYTES - other))
    (MAX_STREAM_BYTES - (other + others)).

(** The allocator grants exactly what it is asked for. *)
Definition grants : Prop := ∀ c w, reserve c w = Some w.

(** What an append does to a buffer when the allocator grants: only a value that
    exceeds the room is refused, and the capacity grows as asked. *)
Definition appended (limit : N) (value : str) (buf buf' : Buffer) (ok : bool) : Prop :=
  let needed := (str_len (text buf) + str_len value)%N in
  (ok = false → buf' = buf ∧ (limit < needed)%N) ∧
  (capacity buf <= capacity buf')%N ∧
  (capacity buf' = capacity buf ∨
   capacity buf < needed ∧ capacity buf' <= N.max (N.max (2 * capacity buf) 8) needed)%N.

(** Appending never panics and keeps the budgets; the text grows by [value] or,
    when it does not fit, is kept or dropped. *)
Lemma append_display_spec others body value st buf :
  MemInv others st → buffer body st.1 = Some buf →
  ∃ r b' buf' ok, let st' := (set_retained r (set_buffer body buf' st.1), b') in
    append_display body value st = Some (st', ok) ∧ MemInv others st' ∧
    (if ok then text buf' = text buf ++ value else text buf' = text buf ∨ text buf' = []) ∧
    (grants → appended (room body others (held (buffer (negb body) st.1))) value buf buf' ok).
Proof using reserve_enough.
  intros HM Hbuf. destruct st as [p b]. cbn [fst snd] in *.
  destruct (other_held _ _ _ _ _ HM Hbuf) as (oc & Hr & Hs & Hfits & Hcap & Hoc & Hos & Hother & Hset).
  rewrite <- Hother. unfold append_display. rewrite Hbuf. cbn [mbind option_bind].
  unfold checked_sub. rewrite !decide_True by lia. cbn [mbind option_bind].
  replace (retained p - capacity buf)%N with oc by lia.
  replace (b - capacity buf)%N with (oc + others)%N by lia.
  change (N.min _ (MAX_STREAM_BYTES - (oc + others))) with (room body others oc).
  set (cl := room body others oc). set (needed := (str_len (text buf) + str_len value)%N).
  assert (∀ t c, (str_len t <= c)%N → (c <= cl)%N →
    MemInv others (set_retained (oc + c) (set_buffer body (mkBuffer t c) p), (oc + others + c)%N)) as Hnew.
  { intros t c Ht Hc. apply Hset; [done|unfold cl, room in Hc; destruct body; lia..]. }
  case_decide as Hcl.
  { exists (retained p), b, buf, false.
    assert (set_retained (retained p) (set_buffer body buf p) = p) as ->.
    { unfold buffer in Hbuf. destruct body, p; simpl in *; by subst. }
    split_and!; [done|done|by left|]. intros _. split_and!; [done|lia|by left]. }
  case_decide as Hgrow.
  - assert (capacity buf < needed ∧ needed <= cl)%N as [Hlt Hle] by lia.
    set (requested := N.min _ cl).
    assert (needed <= requested)%N as Hreq by (unfold requested; lia).
    case_decide as Hover.
    + eexists _, _, empty_buffer, false. split; [done|]. split_and!; [|by right|].
      2:{ intros Hg. rewrite (Hg _ _) in Hover. cbn in Hover. unfold requested in Hover. lia. }
      replace oc with (oc + 0)%N at 1 by lia. replace (oc + others)%N with (oc + others + 0)%N by lia.
      apply Hset; simpl; destruct body; lia.
    + destruct (reserve (capacity buf) requested) as [c|] eqn:Eres; cbn [default] in *; unfold id in *.
      * pose proof Eres as Eres0. apply reserve_enough in Eres. rewrite bool_decide_eq_true_2 by done.
        eexists _, _, (mkBuffer (text buf ++ value) c), true. split; [done|]. split_and!; [|done|].
        2:{ intros Hg. rewrite (Hg _ _) in Eres0. injection Eres0 as <-. unfold appended. cbn [capacity]. fold needed.
            split_and!; [done|lia|right]. unfold requested. lia. }
        apply Hnew; [rewrite str_len_app; unfold needed in *; lia|lia].
      * rewrite bool_decide_eq_false_2 by (by intros []).
        eexists _, _, (mkBuffer (text buf ++ []) (capacity buf)), false. split; [done|].
        split_and!; [|left; simpl; by rewrite app_nil_r|intros Hg; by rewrite (Hg _ _) in Eres].
        rewrite app_nil_r. apply Hnew; lia.
  - exists (retained p), b, (mkBuffer (text buf ++ value) (capacity buf)), true.
    assert (∀ X, set_retained (retained p) (set_buffer body X p) = set_buffer body X p) as ->
      by (intros; by destruct p, body).
    split_and!; [done| |done|].
    2:{ intros _. split_and!; [done|done|by left]. }
    assert (MemInv others (set_retained (oc + capacity buf)
      (set_buffer body (mkBuffer (text buf ++ value) (capacity buf)) p),
      (oc + others + capacity buf)%N)) as Hok.
    { apply Hset; [rewrite str_len_app; unfold needed in *; lia|done|..]; destruct HM; simpl in *; lia. }
    replace (oc + others + capacity buf)%N with b in Hok by lia.
    replace (oc + capacity buf)%N with (retained p) in Hok by lia.
    revert Hok. by destruct p, body.
Qed.

(** A step that answers keeps the invariants. *)
Definition safe (others : N) (m : option PState) : Prop := ∃ st, m = Some st ∧ PInv others st.

Lemma safe_fail others st : PInv others st → safe others (Some (fail st)).
Proof using Type. intros. eexists. split; [done|]. by apply PInv_fail. Qed.

(** Updating what the memory invariant does not read. *)
Lemma PInv_upd others f st :
  path (f st.1) = path st.1 → content (f st.1) = content st.1 → retained (f st.1) = retained st.1 →
  ShapeInv (f st.1) → PInv others st → PInv others (on_parser f st).
Proof using Type.
  intros H1 H2 H3 Hs [HM _]. split; [|done]. by apply (MemInv_same others st).
Qed.

Lemma capture_safe others c ch st :
  PInv others st → capture_ok c st.1 →
  ∃ st', capture reserve c ch st = Some st' ∧ PInv others st' ∧
    stack st'.1 = stack st.1 ∧ token st'.1 = token st.1 ∧ capture_ok c st'.1.
Proof using reserve_enough.
  intros HP Hc. pose proof HP as [HM [Hk Hd Hb Ht Hs Hco Hbt Hstr]].
  assert (∀ body, is_Some (buffer body st.1) → ∃ st',
    match append_display body (shown_char body ch) st with
    | None => None
    | Some (st', true) => Some (on_parser changed st')
    | Some (st', false) => Some (on_parser changed (on_parser (if body then cut_body else cut_path) st'))
    end = Some st' ∧ PInv others st' ∧ stack st'.1 = stack st.1 ∧ token st'.1 = token st.1 ∧
    is_Some (buffer body st'.1)) as Hdisplay.
  { intros body [buf Hbuf].
    destruct (append_display_spec others body (shown_char body ch) st buf HM Hbuf)
      as (r & b' & buf' & ok & -> & HM1 & _ & _).
    assert (ShapeInv (set_buffer body buf' st.1)) as HS.
    { destruct body; split; simpl; try done.
      - unfold token_ok, capture_ok in *. simpl in *.
        destruct (token st.1) as [[[| |[]]| |]|]; try done. by split; [eexists|apply Ht].
      - intros _. by apply Hs.
      - intros Hst Hf. destruct (Hco Hst Hf). simpl in Hbuf. congruence.
      - unfold token_ok, capture_ok in *. simpl in *.
        destruct (token st.1) as [[[| |[]]| |]|]; try done. by split; [eexists|apply Ht]. }
    set (p1 := set_retained r (set_buffer body buf' st.1)) in *.
    assert (∀ p', p' = changed p1 ∨ p' = changed ((if body then cut_body else cut_path) p1) →
      PInv others (p', b') ∧ stack p' = stack st.1 ∧ token p' = token st.1 ∧
      is_Some (buffer body p')) as Hp'.
    { intros p' [-> | ->]; (split_and!; [split; [by eapply MemInv_same; [..|exact HM1]; destruct body|
        destruct HS; by destruct body; split]|by destruct body..|destruct body; by eexists]). }
    destruct ok; eexists; (split; [done|]); apply Hp'; [by left|by right]. }
  unfold capture. destruct c as [| |[]]; simpl in Hc; try (exists st; by split_and!).
  - eexists. split; [done|]. split_and!; [|by case_decide..|by case_decide].
    apply PInv_upd; [by case_decide..| |done].
    case_decide; split; simpl; try done; rewrite str_len_app, str_len_cons, str_len_nil; lia.
  - destruct (path_cut st.1); [by exists st; split_and!|].
    destruct (Hdisplay false) as (st' & Hst' & HP' & Hst1 & Ht1 & Hb1); [apply Hc|].
    exists st'. split_and!; [done..|]. simpl. rewrite Hst1. by destruct Hc.
  - destruct (body_cut st.1); [by exists st; split_and!|].
    destruct (Hdisplay true) as (st' & Hst' & HP' & Hst1 & Ht1 & Hb1); [apply Hc|].
    exists st'. split_and!; [done..|]. simpl. rewrite Hst1. by destruct Hc.
Qed.

Lemma set_token_safe others t st :
  PInv others st → tok_ok t st.1 → PInv others (on_parser (set_token (Some t)) st).
Proof using Type. intros HP Ht. apply PInv_upd; [done..| |done]. by destruct HP as [_ []]. Qed.

Lemma finish_key_safe others st :
  PInv others st → token st.1 = None → at_key (stack st.1) → safe others (finish_key st).
Proof using Type.
  intros HP Htok Hk. unfold finish_key. set (f := key_field st.1).
  pose proof HP as [HM [Hkey Hd Hb Ht Hs Hco Hbt Hstr]].
  assert (PInv others (on_parser (set_field f) st)) as HP1.
  { apply PInv_upd; [done..| |done]. split; simpl; try done. intros [Hst|Hst]; destruct Hk; congruence. }
  case_decide as Hseen; [by apply safe_fail|].
  unfold replace_top. simpl. destruct (stack st.1) as [|top rest] eqn:Est; [by destruct Hk|].
  assert (rest = []) as -> by (destruct Hk as [Hk|Hk]; by injection Hk).
  eexists. split; [done|]. split; [by eapply MemInv_same; [..|exact HM]|].
  split; simpl; try done.
  - unfold token_ok; simpl; by rewrite Htok.
  - intros Hc. rewrite N.lor_spec, Hs by done. done.
  - intros _ Hf. split; [|by rewrite N.lor_spec, Hf, orb_true_r].
    destruct (content st.1) as [buf|] eqn:Ec; [|done]. exfalso.
    simpl in Hseen. rewrite Hf in Hseen.
    assert (N.testbit (N.land (seen st.1) (bit FContent)) 1 = true) as Hbit.
    { rewrite N.land_spec, Hs by done. done. }
    by rewrite Hseen in Hbit.
  - intros _. by apply Hstr.
Qed.

Lemma finish_number_safe others f digits st :
  PInv others st → token st.1 = None →
  PInv others (finish_number f digits st) ∧ token (finish_number f digits st).1 = None.
Proof using Type.
  intros HP Htok. unfold finish_number. case_decide; [done|].
  assert (PInv others (fail st) ∧ token (fail st).1 = None) as Hfail.
  { split; [by apply PInv_fail|]. destruct st as [p b]. unfold fail. by destruct (invalid p). }
  destruct (parse_usize digits) as [v|]; [|done]. case_decide; [|done].
  split; [|simpl; by case_decide]. apply PInv_upd; [by case_decide..| |done].
  destruct HP as [_ []]. by case_decide; split.
Qed.

Lemma string_end_safe others st :
  PInv others st → token st.1 = None → ¬ at_key (stack st.1) →
  ∃ st' c,
    match stack st.1 with
    | Object (OKeyOrEnd | OKey) :: _ => st ← replace_top (Object OColon) st; Some (st, true)
    | _ => Some (st, true)
    end = Some (st', c) ∧ PInv others st' ∧ (c = false → token st'.1 = None).
Proof using Type.
  intros HP Htok Hnk. unfold replace_top. pose proof HP as [HM [Hkey Hd Hb Ht Hs Hco Hbt Hstr]].
  assert (∀ f rest, stack st.1 = f :: rest → rest ≠ [] →
    PInv others (on_parser (set_stack (Object OColon :: rest)) st)) as Hok.
  { intros f rest Est Hr. split; [by eapply MemInv_same; [..|exact HM]|]. rewrite Est in *.
    split; simpl; try done; [unfold token_ok; simpl; by rewrite Htok|by intros [[= ?]|?]|by destruct rest|].
    intros _. by apply Hstr. }
  unfold at_key in Hnk. destruct (stack st.1) as [|[[]|] rest] eqn:Est; try by eauto.
  all: eexists _, _; (split; [done|split; [|done]]); eapply Hok; [done|intros ->; naive_solver].
Qed.

Lemma token_char_safe others t ch st :
  PInv others st → token st.1 = None → tok_ok t st.1 →
  ∃ st' c, token_char reserve t ch st = Some (st', c) ∧ PInv others st' ∧
    (c = false → token st'.1 = None).
Proof using reserve_enough.
  intros HP Htok Ht.
  assert (∀ st', PInv others st' → ∃ st1 c, Some (st', true) = Some (st1, c) ∧ PInv others st1 ∧
    (c = false → token st1.1 = None)) as Hok by (intros st' ?; by exists st', true).
  destruct t as [c e|s f digits|expected index]; simpl.
  - case_decide as Hend.
    + assert (capture_ok c st.1 → c ≠ CKey → ¬ at_key (stack st.1)) as Hnk.
      { destruct c as [| |[]]; simpl; tauto. }
      destruct c as [|c'|f].
      * destruct (finish_key_safe others st HP Htok Ht) as (st' & -> & ?). by apply Hok.
      * apply string_end_safe; [done..|by apply Hnk].
      * apply string_end_safe; [done..|by apply Hnk].
    + destruct (decode e ch) as [[next decoded]|]; [|by apply Hok, PInv_fail].
      destruct decoded as [d|]; simpl; [|by apply Hok, set_token_safe].
      destruct (capture_safe others c d st HP Ht) as (st' & -> & HP' & Hst & Htk & Hc). simpl.
      by apply Hok, set_token_safe.
  - destruct (number_next s ch) as [s'|] eqn:En.
    + case_decide as Hlen; [by apply Hok, PInv_fail|]. apply Hok, set_token_safe; [done|]. simpl.
      case_decide as Hf; [|done]. rewrite str_len_app, str_len_cons, str_len_nil.
      simpl in Ht. pose proof (number_next_ascii s ch s' En).
      destruct (decide (20 <= str_len digits)%N); [tauto|lia].
    + case_match; [|by apply Hok, PInv_fail]. eexists _, _. split; [done|].
      destruct (finish_number_safe others f digits st HP Htok). by split.
  - case_decide; [by apply Hok, PInv_fail|].
    case_decide; apply Hok; [by apply set_token_safe|done].
Qed.

Lemma start_string_safe others f st :
  PInv others st → token st.1 = None → ¬ at_key (stack st.1) →
  (f = FContent → content st.1 = None ∧ N.testbit (seen st.1) 1 = true ∧
     (∀ o, stack st.1 = [Object o] → o = OCommaOrEnd)) →
  safe others (start_string reserve f st).
Proof using reserve_enough.
  intros HP Htok Hnk Hf. unfold start_string. pose proof HP as [HM [Hkey Hd Hb Ht Hs Hco Hbt Hstr]].
  assert (∀ st1, PInv others st1 → capture_ok (CField f) st1.1 →
    safe others (Some (on_parser (set_token (Some (TString (CField f) ENone))) st1))) as Hfin.
  { intros st1 HP1 Hc. eexists. split; [done|]. by apply set_token_safe. }
  destruct f; cbn [mbind option_bind]; try by apply Hfin.
  - apply Hfin; [|destruct (path st.1) eqn:Ep; simpl; rewrite ?Ep; split; by try eexists].
    destruct (path st.1) as [buf|] eqn:Ep.
    + apply PInv_upd; simpl; by rewrite ?Ep.
    + unfold on_parser. rewrite Ep. split; simpl.
      * destruct HM as [Hr H1 H2 H3 H4 H5 H6]. rewrite Ep in *. by split.
      * split; try done. unfold token_ok in *. simpl. by rewrite Htok.
  - destruct (Hf eq_refl) as (Hcn & Hseen & Hst).
    assert (∀ st1, MemInv others st1 → is_Some (path st1.1) →
      (∃ q r b, st1 = (set_retained r (set_path q st.1), b)) →
      safe others (Some (on_parser (set_token (Some (TString (CField FContent) ENone)))
        (on_parser (λ p, changed (set_content (Some empty_buffer) p)) st1)))) as Hset.
    { intros st1 HM1 [buf Hpath] (q & r & b & ->). apply Hfin.
      - split.
        + destruct HM1 as [Hr H1 H2 H3 H4 H5 H6]. simpl in *. rewrite Hcn in *.
          split; simpl in *; try done; lia.
        + split; simpl; try done; [unfold token_ok; simpl; by rewrite Htok|].
          intros [Ho|Ho]; by apply Hst in Ho.
      - by split; [eexists|]. }
    destruct (path st.1) as [buf|] eqn:Ep; cbn [mbind option_bind].
    { apply Hset; [done|by rewrite Ep|]. exists (path st.1), (retained st.1), st.2.
      destruct st as [[] ?]; reflexivity. }
    destruct (append_display_spec others false (replicate (N.to_nat (N.min 32 (MAX_STREAM_BYTES - st.2))) SPACE)
      (on_parser (set_path (Some empty_buffer)) st) empty_buffer)
      as (r & b & buf & ok & Happ & HM1 & _); [|done|].
    { destruct HM as [Hr H1 H2 H3 H4 H5 H6]. rewrite Ep in *. by split. }
    cbn [on_parser snd] in *. rewrite Happ. simpl. apply Hset.
    + destruct HM1 as [Hr H1 H2 H3 H4 H5 H6]. simpl in *. split; simpl; try done. lia.
    + by eexists.
    + by eexists _, _, _.
Qed.

(** Replacing the stack by one whose frames below the top are taken. *)
Lemma PInv_stack others stk st :
  PInv others st → token st.1 = None → stack st.1 ≠ [] → length stk <= MAX_DEPTH → Forall is_taken (tail stk) →
  (∀ a, last stk ≠ Some (Array a)) →
  (stk = [Object OColon] ∨ stk = [Object OValue] →
     field st.1 = FContent → content st.1 = None ∧ N.testbit (seen st.1) 1 = true) →
  PInv others (on_parser (set_stack stk) st).
Proof using Type.
  intros HP Htok Hne Hd Hb Hl Hc. apply PInv_upd; [done..| |done]. destruct HP as [_ []].
  split; simpl; try done; [unfold token_ok; simpl; by rewrite Htok|tauto].
Qed.

Lemma is_taken_taken f : is_taken (taken f).
Proof using Type. destruct f; [by left|by right]. Qed.

Lemma last_taken f rest a : last (f :: rest) ≠ Some (Array a) → (∀ b, last (f :: rest) ≠ Some (Array b)) →
  last (taken f :: rest) ≠ Some (Array a).
Proof using Type. destruct rest; [|done]. simpl. intros _ H. destruct f; [done|]. by destruct (H a0). Qed.

Lemma start_value_safe others ch st :
  PInv others st → token st.1 = None →
  (∃ rest, stack st.1 = Object OValue :: rest ∨
     ((∃ a, stack st.1 = Array a :: rest) ∧ rest ≠ [])) →
  safe others (start_value reserve ch st).
Proof using reserve_enough.
  intros HP Htok Hst. unfold start_value. pose proof HP as [HM [Hkey Hd Hb Ht Hs Hco Hbt Hstr]].
  set (f := if decide (length (stack st.1) = 1) then field st.1 else FIgnore).
  case_decide; [by apply safe_fail|].
  destruct (stack st.1) as [|parent rest] eqn:Est; [naive_solver|].
  assert (PInv others (on_parser (set_stack (taken parent :: rest)) st)) as HP1.
  { apply PInv_stack; [done|done|by rewrite Est|done|done| |].
    - by intros a; apply last_taken.
    - destruct parent; naive_solver. }
  assert (∀ t, tok_ok t (set_stack (taken parent :: rest) st.1) →
    safe others (Some (on_parser (set_token (Some t)) (on_parser (set_stack (taken parent :: rest)) st)))) as Htk.
  { intros t Hok. eexists. split; [done|]. by apply set_token_safe. }
  case_decide as Hopen.
  { case_decide as Hdep; [by apply safe_fail|]. simpl in Hdep.
    eexists. split; [done|]. apply (PInv_stack _ (_ :: taken parent :: rest) _ HP1); [done|done|simpl; lia|..].
    - simpl. constructor; [apply is_taken_taken|done].
    - intros a. pose proof (last_taken parent rest a (Hbt a) Hbt) as Hl. case_decide; exact Hl.
    - by intros [|]. }
  case_decide as Hq.
  { apply start_string_safe; [done|done| |].
    - intros [Hk|Hk]; by destruct parent.
    - intros Hf. subst f. case_decide as Hlen; [|done]. destruct rest; [|done].
      destruct Hst as (rest & [[= -> <-]|[[a [= -> <-]] Hr]]); [|done].
      destruct (Hco (or_intror eq_refl) Hf). split_and!; [done..|]. by intros o [= <-]. }
  case_decide as Hnum.
  { apply Htk. simpl. case_decide; [simpl; lia|]. rewrite str_len_cons, str_len_nil.
    destruct (len_utf8_bounds ch). lia. }
  repeat (case_decide; [by apply Htk|]). by apply safe_fail.
Qed.

Lemma PInv_close others st :
  PInv others st → token st.1 = None → stack st.1 ≠ [] → PInv others (on_parser close st).
Proof using Type.
  intros HP Htok Hne. pose proof HP as [HM [Hkey Hd Hb Ht Hs Hco Hbt Hstr]].
  assert (PInv others (on_parser (set_stack (tail (stack st.1))) st)) as HP1.
  { apply PInv_stack; [done..| | | |].
    - destruct (stack st.1); simpl in *; lia.
    - destruct (stack st.1); simpl in *; [constructor|]. destruct l; [done|]. by inversion Hb.
    - intros a. destruct (stack st.1) as [|x [|y l]]; [done..|]. apply Hbt.
    - intros Hor. destruct (stack st.1) as [|x l]; simpl in *; [naive_solver|].
      destruct Hor as [-> | ->]; inversion Hb as [|? ? [|]]; done. }
  unfold close. destruct HP1 as [HM1 HS1]. split.
  - unfold on_parser in *. simpl in *. case_decide; [by eapply MemInv_same; [..|exact HM1]|done].
  - simpl in *. case_decide; [|done]. destruct HS1. by split.
Qed.

Lemma replace_top_safe others f st g rest :
  PInv others st → token st.1 = None → stack st.1 = g :: rest →
  f ≠ Object OColon → (f = Object OValue → g = Object OColon) →
  (∀ a, f = Array a → ∃ a', g = Array a') →
  safe others (replace_top f st).
Proof using Type.
  intros HP Htok Est Hnc Hv Ha. unfold replace_top. rewrite Est. eexists. split; [done|].
  pose proof HP as [HM [Hkey Hd Hb Ht Hs Hco Hbt Hstr]]. rewrite Est in *.
  apply PInv_stack; [done|done|by rewrite Est|done|done| |].
  - intros a Hl. destruct rest as [|y l]; [|by apply (Hbt a)].
    injection Hl as ->. destruct (Ha a eq_refl) as [a' ->]. by apply (Hbt a').
  - intros [[= ->]|[= -> ->]]; [done|]. apply Hco. left. by rewrite Hv.
Qed.

Lemma structural_safe others ch st :
  PInv others st → token st.1 = None → safe others (structural reserve ch st).
Proof using reserve_enough.
  intros HP Htok. unfold structural. destruct (json_space ch); [by exists st|].
  destruct (started st.1) eqn:Estart; cbn [negb].
  2: { assert (PInv others (on_parser set_started st)) as HP1.
    { apply PInv_upd; [done..| |done]. destruct HP as [_ []]. by split. }
    case_decide; [by apply safe_fail|]. assert (stack st.1 = []) as Est.
    { destruct (stack st.1) eqn:E; [done|]. destruct HP as [_ []]. by rewrite shape_started0 in Estart by by rewrite E. }
    eexists. split; [done|]. apply PInv_upd; [done..| |done].
    destruct HP1 as [_ [? ? ? Ht ? ? ? ?]]. simpl in *. rewrite Est in *.
    split; simpl; try done; [unfold MAX_DEPTH; lia|unfold token_ok; simpl; by rewrite Htok|by intros [|]]. }
  destruct (done_ st.1); [by apply safe_fail|].
  destruct (stack st.1) as [|top rest] eqn:Est; [by apply safe_fail|].
  assert (∀ c o, top = Object o → o = OKeyOrEnd ∨ o = OKey →
    c = CKey ∧ rest = [] ∨ c = CIgnore ∧ rest ≠ [] →
    safe others (Some (on_parser (λ p, set_token (Some (TString c ENone)) (set_key [] false p)) st))) as Hkeystr.
  { intros c o -> Ho Hc. eexists. split; [done|]. apply PInv_upd; [done..| |done].
    destruct HP as [_ [? ? ? Ht ? ? ? ?]]. split; simpl; try done.
    unfold token_ok. simpl. destruct Hc as [[-> ->]|[-> Hr]]; simpl; unfold at_key; simpl; rewrite Est.
    - destruct Ho as [-> | ->]; [by left|by right].
    - by intros [[= ? ?]|[= ? ?]]. }
  assert (safe others (Some (on_parser close st))) as Hclose.
  { eexists. split; [done|]. apply PInv_close; [done..|by rewrite Est]. }
  assert (∀ f, f ≠ Object OColon → (f = Object OValue → top = Object OColon) →
    (∀ a, f = Array a → ∃ a', top = Array a') → safe others (replace_top f st)) as Htop.
  { intros f H1 H2 H3. by eapply replace_top_safe. }
  assert (top = Object OValue ∨ ((∃ a, top = Array a) ∧ rest ≠ []) →
    safe others (start_value reserve ch st)) as Hvalue.
  { intros Hv. apply start_value_safe; [done..|]. exists rest. rewrite Est.
    destruct Hv as [-> |[[a ->] ?]]; [by left|right; eauto]. }
  assert (∀ a, top = Array a → rest ≠ []) as Hrest.
  { intros a -> ->. destruct HP as [_ []]. rewrite Est in *. by apply (shape_bottom0 a). }
  destruct top as [[]|[]]; repeat case_decide;
    first [by apply safe_fail|done|by eapply Hkeystr; eauto; naive_solver|by apply Hvalue; eauto 6
          |by apply Htop; eauto; try done; naive_solver].
Qed.

Lemma feed_char_safe others ch st : PInv others st → safe others (feed_char reserve ch st).
Proof using reserve_enough.
  intros HP. unfold feed_char. destruct (invalid st.1); [by exists st|].
  destruct (token st.1) as [t|] eqn:Ht; [|by apply structural_safe].
  assert (PInv others (on_parser (set_token None) st)) as HP1.
  { apply PInv_upd; [done..| |done]. destruct HP as [_ []]. by split. }
  destruct (token_char_safe others t ch _ HP1) as (st' & c & -> & HP' & Hc); [done| |].
  { destruct HP as [_ [? ? ? Htok ? ? ? ?]]. unfold token_ok in Htok. rewrite Ht in Htok.
    destruct t as [c| |]; [|done..]. by destruct c as [| |[]]. }
  destruct c; cbn [orb]; [by exists st'|]. destruct (invalid st'.1); [by exists st'|].
  apply structural_safe; [done|by apply Hc].
Qed.

Lemma feed_safe others delta st : PInv others st → safe others (feed reserve delta st).
Proof using reserve_enough.
  revert st. induction delta as [|ch delta IH]; intros st HP; [by exists st|]. cbn [feed].
  destruct (feed_char_safe others ch st HP) as (st' & -> & HP'). by apply IH.
Qed.
End safety.
