(* ===== verification/PreviewJson.v ===== *)
(** What the preview parser shows of a JSON object.

    The grammar of JSON texts is stated as inductive relations, with the decoded
    text of every string.  Feeding a well-formed object, in whatever pieces,
    completes the parser, and the captured path and body are those of the final
    card, up to the byte budgets. *)

From S2P Require Import Prelude RustStr Preview.

(** ** JSON texts *)

Definition ws (w : str) : Prop := forallb json_space w = true.
Definition quoted (r : str) : str := DQUOTE :: r ++ [DQUOTE].

(** The character a one-letter escape names. *)
Definition escaped (e : char) : option char :=
  if decide (e = DQUOTE ∨ e = BACKSLASH ∨ e = 47%N) then Some e else
  if decide (e = 98)%N then Some 8%N else if decide (e = 102)%N then Some 12%N else
  if decide (e = 110)%N then Some LF else if decide (e = 114)%N then Some CR else
  if decide (e = 116)%N then Some TAB else None.

Definition hex4 (s : str) (v : N) : Prop :=
  ∃ a b c d x y z w, s = [a; b; c; d] ∧ to_digit16 a = Some x ∧ to_digit16 b = Some y ∧
    to_digit16 c = Some z ∧ to_digit16 d = Some w ∧ v = (((x * 16 + y) * 16 + z) * 16 + w)%N.

(** [string_body d r]: between quotes, [r] is a string with the text [d]. *)
Inductive string_body : str → str → Prop :=
  | sb_nil : string_body [] []
  | sb_char c d r :
      c ≠ DQUOTE → c ≠ BACKSLASH → (0x20 <= c)%N → string_body d r → string_body (c :: d) (c :: r)
  | sb_escape e c d r :
      escaped e = Some c → string_body d r → string_body (c :: d) (BACKSLASH :: e :: r)
  | sb_unicode h v d r :
      hex4 h v → ¬ (0xd800 <= v <= 0xdfff)%N → string_body d r →
      string_body (v :: d) (BACKSLASH :: 117%N :: h ++ r)
  | sb_pair h1 h2 v1 v2 d r :
      hex4 h1 v1 → hex4 h2 v2 → (0xd800 <= v1 <= 0xdbff)%N → (0xdc00 <= v2 <= 0xdfff)%N →
      string_body d r →
      string_body ((0x10000 + (v1 - 0xd800) * 1024 + (v2 - 0xdc00))%N :: d)
        (BACKSLASH :: 117%N :: h1 ++ BACKSLASH :: 117%N :: h2 ++ r).

Definition all_digits (s : str) : Prop := forallb is_ascii_digit s = true.
Definition is_int (s : str) : Prop :=
  s = [48%N] ∨ ∃ d ds, s = d :: ds ∧ is_digit19 d = true ∧ all_digits ds.
Definition is_frac (s : str) : Prop := s = [] ∨ ∃ ds, s = DOT :: ds ∧ ds ≠ [] ∧ all_digits ds.
Definition is_exp (s : str) : Prop :=
  s = [] ∨ ∃ e sign ds, s = e :: sign ++ ds ∧ (e = 101 ∨ e = 69)%N ∧
    (sign = [] ∨ sign = [43%N] ∨ sign = [MINUS]) ∧ ds ≠ [] ∧ all_digits ds.
Definition number (s : str) : Prop :=
  ∃ sign int frac exp, s = sign ++ int ++ frac ++ exp ∧ (sign = [] ∨ sign = [MINUS]) ∧
    is_int int ∧ is_frac frac ∧ is_exp exp.

(** A value whose objects and arrays nest at most [n] deep. *)
Inductive value : nat → str → Prop :=
  | v_string n d r : string_body d r → value n (quoted r)
  | v_number n s : number s → value n s
  | v_literal n s : s = lit "true" ∨ s = lit "false" ∨ s = lit "null" → value n s
  | v_array0 n w : ws w → value (S n) (LBRACKET :: w ++ [RBRACKET])
  | v_array n s : elements n s → value (S n) (LBRACKET :: s ++ [RBRACKET])
  | v_object0 n w : ws w → value (S n) (LBRACE :: w ++ [RBRACE])
  | v_object n s : members n s → value (S n) (LBRACE :: s ++ [RBRACE])
with elements : nat → str → Prop :=
  | e_one n w1 v w2 : ws w1 → value n v → ws w2 → elements n (w1 ++ v ++ w2)
  | e_cons n w1 v w2 s :
      ws w1 → value n v → ws w2 → elements n s → elements n (w1 ++ v ++ w2 ++ COMMA :: s)
with members : nat → str → Prop :=
  | m_one n w1 d r w2 w3 v w4 :
      ws w1 → string_body d r → ws w2 → ws w3 → value n v → ws w4 →
      members n (w1 ++ quoted r ++ w2 ++ COLON :: w3 ++ v ++ w4)
  | m_cons n w1 d r w2 w3 v w4 s :
      ws w1 → string_body d r → ws w2 → ws w3 → value n v → ws w4 → members n s →
      members n (w1 ++ quoted r ++ w2 ++ COLON :: w3 ++ v ++ w4 ++ COMMA :: s).

Scheme value_mut := Induction for value Sort Prop
with elements_mut := Induction for elements Sort Prop
with members_mut := Induction for members Sort Prop.
Combined Scheme json_ind from value_mut, elements_mut, members_mut.

(** ** Running the parser *)

Definition delimiter (ch : char) : Prop :=
  json_space ch = true ∨ ch = COMMA ∨ ch = RBRACKET ∨ ch = RBRACE.

Lemma number_next_delimiter s ch : delimiter ch → number_next s ch = None.
Proof.
  intros Hd. assert (ch ∈ [SPACE; TAB; CR; LF; COMMA; RBRACKET; RBRACE]) as Hin.
  { destruct Hd as [Hs|Hd]; [|set_solver]. unfold json_space in Hs. apply bool_decide_eq_true in Hs. set_solver. }
  rewrite !elem_of_cons in Hin. destruct_or!; subst; try by destruct s. by apply not_elem_of_nil in Hin.
Qed.

(** *** Numbers as the automaton reads them *)

Fixpoint number_run (s : NumberState) (raw : str) : option NumberState :=
  match raw with [] => Some s | ch :: raw => s ← number_next s ch; number_run s raw end.

Lemma number_run_app s l k : number_run s (l ++ k) = s' ← number_run s l; number_run s' k.
Proof. revert s. induction l as [|ch l IH]; intros s; [done|].
  cbn [number_run app]. destruct (number_next s ch); [apply IH|done]. Qed.

Lemma number_next_digit s ch :
  is_ascii_digit ch = true → s = Integer ∨ s = Fraction ∨ s = ExpDigits → number_next s ch = Some s.
Proof. intros Hd [->|[->| ->]]; simpl; unfold is_digit; by rewrite Hd. Qed.

Lemma digits_run s ds : all_digits ds → s = Integer ∨ s = Fraction ∨ s = ExpDigits → number_run s ds = Some s.
Proof.
  intros Hd Hs. induction ds as [|d ds IH]; [done|]. apply andb_true_iff in Hd as [Hd Hds].
  cbn [number_run]. rewrite number_next_digit by done. by apply IH.
Qed.

Lemma first_digit_run s s' ds :
  all_digits ds → ds ≠ [] → s' = Fraction ∨ s' = ExpDigits →
  (∀ ch, is_ascii_digit ch = true → number_next s ch = Some s') → number_run s ds = Some s'.
Proof.
  intros Hd Hne Hs' Hs. destruct ds as [|d ds]; [done|]. apply andb_true_iff in Hd as [Hd Hds].
  cbn [number_run]. rewrite Hs by done. apply digits_run; tauto.
Qed.

Lemma exp_run s exp :
  is_exp exp → s = Zero ∨ s = Integer ∨ s = Fraction →
  ∃ s', number_run s exp = Some s' ∧ number_complete s' = true.
Proof.
  intros [->|(e & sign & ds & -> & He & Hsign & Hne & Hd)] Hs.
  { exists s. split; [done|]. by destruct Hs as [->|[->| ->]]. }
  exists ExpDigits. split; [|done]. cbn [number_run].
  assert (number_next s e = Some Exp) as ->.
  { destruct Hs as [->|[->| ->]], He as [-> | ->]; done. }
  cbn [mbind option_bind]. rewrite number_run_app.
  assert (∀ s0, s0 = Exp ∨ s0 = ExpSign → ∀ ch, is_ascii_digit ch = true → number_next s0 ch = Some ExpDigits) as Hdig.
  { intros s0 [-> | ->] ch Hch; simpl; unfold is_digit; rewrite Hch; [|done].
    rewrite decide_False; [done|]. apply bool_decide_eq_true in Hch. unfold MINUS. lia. }
  destruct Hsign as [->|[-> | ->]]; simpl; apply first_digit_run; auto.
Qed.

Lemma frac_exp_run s frac exp :
  is_frac frac → is_exp exp → s = Zero ∨ s = Integer →
  ∃ s', number_run s (frac ++ exp) = Some s' ∧ number_complete s' = true.
Proof.
  intros [->|(ds & -> & Hne & Hd)] He Hs; [apply exp_run; tauto|].
  rewrite number_run_app. assert (number_run s (DOT :: ds) = Some Fraction) as ->.
  { simpl. replace (number_next s DOT) with (Some Dot) by (by destruct Hs as [-> | ->]).
    simpl. apply first_digit_run; auto. intros ch Hch. simpl. unfold is_digit. by rewrite Hch. }
  simpl. apply exp_run; tauto.
Qed.

(** The state a number starts in. *)
Definition number_start (ch : char) : NumberState :=
  if decide (ch = MINUS) then Minus else if decide (ch = 48)%N then Zero else Integer.

Lemma number_runs_complete raw :
  number raw → ∃ ch rest s, raw = ch :: rest ∧ (ch = MINUS ∨ is_digit ch = true) ∧
    number_run (number_start ch) rest = Some s ∧ number_complete s = true.
Proof.
  intros (sign & int & frac & exp & -> & Hsign & Hint & Hfrac & Hexp).
  assert (∀ d ds, is_digit19 d = true → all_digits ds → d ≠ MINUS ∧ d ≠ 48%N ∧ is_digit d = true) as Hd19.
  { intros d ds Hd _. apply bool_decide_eq_true in Hd. unfold MINUS.
    split_and!; [lia|lia|apply bool_decide_eq_true; lia]. }
  destruct Hsign as [-> | ->]; destruct Hint as [->|(d & ds & -> & Hd & Hds)].
  - destruct (frac_exp_run Zero frac exp) as (s & ? & ?); [done|done|by left|].
    by exists 48%N, (frac ++ exp), s; split_and!; [|right| |].
  - destruct (frac_exp_run Integer frac exp) as (s & Hr & ?); [done|done|by right|].
    destruct (Hd19 d ds Hd Hds) as (H1 & H2 & H3).
    exists d, (ds ++ frac ++ exp), s. split_and!; [done|by right| |done].
    unfold number_start. rewrite !decide_False by done. by rewrite number_run_app, digits_run by auto.
  - destruct (frac_exp_run Zero frac exp) as (s & ? & ?); [done|done|by left|].
    by exists MINUS, (48%N :: frac ++ exp), s; split_and!; [|left| |].
  - destruct (frac_exp_run Integer frac exp) as (s & Hr & ?); [done|done|by right|].
    destruct (Hd19 d ds Hd Hds) as (H1 & H2 & H3).
    exists MINUS, (d :: ds ++ frac ++ exp), s. split_and!; [done|by left| |done].
    change (number_start MINUS) with Minus. cbn [number_run].
    assert (number_next Minus d = Some Integer) as -> by (unfold number_next; rewrite decide_False by done; by rewrite Hd).
    cbn [mbind option_bind]. by rewrite number_run_app, digits_run by auto.
Qed.

Definition feeds (reserve : N → N → option N) (l : str) (st st' : PState) : Prop :=
  feed reserve l st = Some st'.

Section runs.
Context (reserve : N → N → option N).
Local Notation runs := (feeds reserve).

Lemma runs_nil st : runs [] st st.
Proof using Type. done. Qed.
Lemma runs_cons ch l st st1 st' :
  feed_char reserve ch st = Some st1 → runs l st1 st' → runs (ch :: l) st st'.
Proof using Type. intros H1 H2. unfold feeds. cbn [feed]. by rewrite H1. Qed.
Lemma runs_app l k st st1 st' : runs l st st1 → runs k st1 st' → runs (l ++ k) st st'.
Proof using Type.
  unfold feeds. revert st. induction l as [|ch l IH]; intros st; [by intros [= ->]|].
  cbn [feed app]. destruct (feed_char reserve ch st); [apply IH|done].
Qed.
Lemma runs_one ch st st' : feed_char reserve ch st = Some st' → runs [ch] st st'.
Proof using Type. intros H. by eapply runs_cons; [|apply runs_nil]. Qed.

(** The state at a place of the text: the parser [p] with this stack, token and key. *)
Definition at_ (p : PreviewParser) (b : N) (stk : list Frame) (tok : option Token) (k : str) (o : bool)
    : PState := (set_token tok (set_stack stk (set_key k o p)), b).

Definition live (p : PreviewParser) : Prop := started p = true ∧ done_ p = false ∧ invalid p = false.

(** Between two characters, a number may still be open. *)
Definition pend (tok : option Token) : Prop :=
  tok = None ∨ ∃ s, tok = Some (TNumber s FIgnore []) ∧ number_complete s = true.

(** One character, in a live state. *)
Lemma feed_at p b stk tok k o ch :
  live p → feed_char reserve ch (at_ p b stk tok k o) =
    match tok with
    | None => structural reserve ch (at_ p b stk None k o)
    | Some t =>
        match token_char reserve t ch (at_ p b stk None k o) with
        | None => None
        | Some (st, consumed) =>
            if consumed || invalid st.1 then Some st else structural reserve ch st
        end
    end.
Proof using Type.
  intros (_ & _ & Hi). unfold feed_char.
  change (invalid (at_ p b stk tok k o).1) with (invalid p). rewrite Hi. by destruct tok.
Qed.

Lemma feed_pending p b stk tok k o ch :
  live p → pend tok → delimiter ch →
  feed_char reserve ch (at_ p b stk tok k o) = structural reserve ch (at_ p b stk None k o).
Proof using Type.
  intros Hl [->|(s & -> & Hc)] Hch; rewrite feed_at by done; [done|].
  cbn [token_char]. rewrite number_next_delimiter by done. rewrite Hc.
  replace (json_space ch || _) with true.
  2: { symmetry. apply orb_true_iff. destruct Hch as [H|H]; [by left|right].
       apply bool_decide_eq_true. rewrite !elem_of_cons. tauto. }
  destruct Hl as (_ & _ & Hi). cbn [andb]. unfold finish_number. rewrite decide_True by done.
  change (invalid (at_ p b stk None k o).1) with (invalid p). by rewrite Hi.
Qed.

Lemma feed_structural p b stk k o ch :
  live p → feed_char reserve ch (at_ p b stk None k o) = structural reserve ch (at_ p b stk None k o).
Proof using Type. intros Hl. by rewrite feed_at. Qed.

Lemma runs_ws p b stk k o w : live p → ws w → runs w (at_ p b stk None k o) (at_ p b stk None k o).
Proof using Type.
  intros Hl. induction w as [|ch w IH]; intros Hw; [apply runs_nil|].
  apply andb_true_iff in Hw as [Hch Hw]. eapply runs_cons; [|by apply IH].
  rewrite feed_structural by done. unfold structural. by rewrite Hch.
Qed.

Lemma runs_pending p b stk tok k o w ch st' :
  live p → pend tok → ws w → delimiter ch →
  structural reserve ch (at_ p b stk None k o) = Some st' →
  runs (w ++ [ch]) (at_ p b stk tok k o) st'.
Proof using Type.
  intros Hl Hp Hw Hd Hs. destruct w as [|c w].
  - apply runs_one. by rewrite feed_pending.
  - apply andb_true_iff in Hw as [Hc Hw]. eapply runs_cons.
    + rewrite feed_pending by (done || by left). unfold structural. by rewrite Hc.
    + eapply runs_app; [by apply runs_ws|]. apply runs_one. by rewrite feed_structural.
Qed.

(** *** Strings *)

Fixpoint capture_all (c : Capture) (d : str) (st : PState) : option PState :=
  match d with [] => Some st | ch :: d => st ← capture reserve c ch st; capture_all c d st end.

(** What capturing leaves alone. *)
Definition kept (p p' : PreviewParser) : Prop :=
  is_write p' = is_write p ∧ is_read p' = is_read p ∧ started p' = started p ∧ done_ p' = done_ p ∧
  stack p' = stack p ∧ token p' = token p ∧ field p' = field p ∧ seen p' = seen p ∧
  offset p' = offset p ∧ limit p' = limit p ∧ invalid p' = invalid p.

#[global] Instance kept_preorder : PreOrder kept.
Proof using Type.
  split; [by intros p; split_and!|]. unfold kept. intros p p' p'' H1 H2. destruct_and!. split_and!; congruence.
Qed.

Lemma append_display_kept body v st st' ok :
  append_display reserve body v st = Some (st', ok) → kept st.1 st'.1.
Proof using Type.
  unfold append_display. destruct st as [p b]. destruct (buffer body p) as [buf|]; [|done].
  cbn [mbind option_bind]. destruct (checked_sub (retained p) (capacity buf)) as [oc|]; [|done].
  cbn [mbind option_bind]. destruct (checked_sub b (capacity buf)) as [os|]; [|done].
  cbn [mbind option_bind]. repeat case_decide; intros [= <- _]; by destruct body; split_and!.
Qed.

Lemma capture_kept c ch st st' : capture reserve c ch st = Some st' → kept st.1 st'.1.
Proof using Type.
  unfold capture. destruct c as [| |[]]; try by intros [= <-].
  - intros [= <-]. by case_decide; split_and!.
  - destruct (path_cut st.1); [by intros [= <-]|].
    destruct (append_display _ _ _ _) as [[st1 ok]|] eqn:E; [|done].
    apply append_display_kept in E. destruct ok; intros [= <-]; (etrans; [exact E|by split_and!]).
  - destruct (body_cut st.1); [by intros [= <-]|].
    destruct (append_display _ _ _ _) as [[st1 ok]|] eqn:E; [|done].
    apply append_display_kept in E. destruct ok; intros [= <-]; (etrans; [exact E|by split_and!]).
Qed.

Definition opened (c : Capture) (e : Escape) (st : PState) : PState :=
  on_parser (set_token (Some (TString c e))) st.

(** Between two tokens of a live parser. *)
Definition ready (p : PreviewParser) : Prop := token p = None ∧ invalid p = false.

Lemma ready_kept p p' : kept p p' → ready p → ready p'.
Proof using Type. unfold kept, ready. intros ? [? ?]. destruct_and!. split; congruence. Qed.

Definition capture_opt (c : Capture) (dec : option char) (st : PState) : option PState :=
  match dec with Some d => capture reserve c d st | None => Some st end.

Lemma feed_decode c e ch next dec st :
  ready st.1 → decode e ch = Some (next, dec) → ¬ (e = ENone ∧ ch = DQUOTE) →
  feed_char reserve ch (opened c e st) = opened c next <$> capture_opt c dec st.
Proof using Type.
  intros [Ht Hi] Hd Hn. unfold feed_char. change (invalid (opened c e st).1) with (invalid st.1).
  rewrite Hi. change (token (opened c e st).1) with (Some (TString c e)). cbv iota.
  replace (on_parser (set_token None) (opened c e st)) with st.
  2: { destruct st as [[] b]. simpl in Ht. by subst. }
  cbn [token_char]. rewrite decide_False by done. rewrite Hd.
  destruct dec as [d|]; cbn [capture_opt mbind option_bind fmap option_fmap option_map]; [|done].
  destruct (capture reserve c d st) as [st'|] eqn:E; [done|done].
Qed.

Lemma to_digit16_lt c d : to_digit16 c = Some d → (d < 16)%N.
Proof using Type. unfold to_digit16. repeat case_decide; intros [= <-]; lia. Qed.

(** Four hexadecimal digits, after either half of an escape. *)
Lemma hex4_runs c (mk : N → N → Escape) (fin : N → option (Escape * option char)) h v next dec st st' :
  (∀ digits value ch, mk digits value ≠ ENone ∧
     decode (mk digits value) ch = d ← to_digit16 ch;
       let value := ((value * 16) mod 65536 + d)%N in
       if decide (digits < 3)%N then Some (mk (digits + 1)%N value, None) else fin value) →
  hex4 h v → fin v = Some (next, dec) → ready st.1 → capture_opt c dec st = Some st' →
  runs h (opened c (mk 0%N 0%N) st) (opened c next st').
Proof using Type.
  intros Hmk (a & b & c' & d & x & y & z & w & -> & Ha & Hb & Hc & Hd & ->) Hfin Hr Hcap.
  pose proof (to_digit16_lt _ _ Ha). pose proof (to_digit16_lt _ _ Hb).
  pose proof (to_digit16_lt _ _ Hc). pose proof (to_digit16_lt _ _ Hd).
  assert (∀ n u ch q, (n < 3)%N → (u < 4096)%N → to_digit16 ch = Some q →
    feed_char reserve ch (opened c (mk n u) st) = Some (opened c (mk (n + 1)%N (u * 16 + q)%N) st)) as Hstep.
  { intros n u ch q Hn Hu Hq. destruct (Hmk n u ch) as [Hne Hdec].
    rewrite (feed_decode _ _ _ (mk (n + 1)%N (u * 16 + q)%N) None); [done|done| |naive_solver].
    rewrite Hdec, Hq. cbn [mbind option_bind]. rewrite decide_True by done.
    rewrite N.mod_small by lia. done. }
  eapply runs_cons; [apply (Hstep 0%N 0%N a x); [lia|lia|done]|].
  eapply runs_cons; [apply (Hstep _ _ b y); [lia|lia|done]|].
  eapply runs_cons; [apply (Hstep _ _ c' z); [lia|lia|done]|].
  apply runs_one. destruct (Hmk (0 + 1 + 1 + 1)%N (((0 * 16 + x) * 16 + y) * 16 + z)%N d) as [Hne Hdec].
  rewrite (feed_decode _ _ _ next dec); [by rewrite Hcap|done| |naive_solver].
  rewrite Hdec, Hd. cbn [mbind option_bind]. rewrite decide_False by lia.
  rewrite N.mod_small by lia. exact Hfin.
Qed.

Lemma hex4_lt h v : hex4 h v → (v < 65536)%N.
Proof using Type.
  intros (a & b & c & d & x & y & z & w & -> & Ha & Hb & Hc & Hd & ->).
  apply to_digit16_lt in Ha, Hb, Hc, Hd. lia.
Qed.

Lemma from_u32_scalar v : (v < 0xd800 ∨ 0xdfff < v <= 0x10ffff)%N → from_u32 v = Some v.
Proof using Type.
  intros Hv. unfold from_u32, is_scalar.
  destruct Hv; [rewrite bool_decide_eq_true_2 by lia|rewrite (bool_decide_eq_true_2 (_ <= _ <= _)%N) by lia;
    rewrite orb_true_r]; done.
Qed.

Lemma feed_plain c e ch next st :
  ready st.1 → decode e ch = Some (next, None) → ¬ (e = ENone ∧ ch = DQUOTE) →
  feed_char reserve ch (opened c e st) = Some (opened c next st).
Proof using Type. intros Hr Hd Hq. by rewrite (feed_decode c e ch next None). Qed.

Lemma string_runs c d r : string_body d r → ∀ st st', ready st.1 → capture_all c d st = Some st' →
  runs r (opened c ENone st) (opened c ENone st').
Proof using Type.
  assert (∀ ch d st st', capture_all c (ch :: d) st = Some st' → ready st.1 →
    ∃ st1, capture reserve c ch st = Some st1 ∧ ready st1.1 ∧ capture_all c d st1 = Some st') as Hcons.
  { intros ch d' st st' H Hr. cbn [capture_all] in H.
    destruct (capture reserve c ch st) as [st1|] eqn:E; [|done]. exists st1. split_and!; [done| |done].
    eapply ready_kept; [by eapply capture_kept|done]. }
  induction 1 as [|ch d r Hq Hb Hge _ IH|e ch d r He _ IH|h v d r Hh Hv _ IH|h1 h2 v1 v2 d r Hh1 Hh2 Hv1 Hv2 _ IH];
    intros st st' Hr Hcap.
  - injection Hcap as ->. apply runs_nil.
  - destruct (Hcons _ _ _ _ Hcap Hr) as (st1 & H1 & Hr1 & H2).
    eapply runs_cons; [|by eapply IH].
    rewrite (feed_decode _ _ _ ENone (Some ch)); [by cbn; rewrite H1|done| |tauto].
    unfold decode. by rewrite !decide_False by (done || lia).
  - destruct (Hcons _ _ _ _ Hcap Hr) as (st1 & H1 & Hr1 & H2).
    eapply runs_cons; [by apply (feed_plain c ENone BACKSLASH ESlash); [..|intros [? ?]; discriminate]|].
    eapply runs_cons; [|by eapply IH].
    rewrite (feed_decode _ _ _ ENone (Some ch)); [by cbn; rewrite H1|done| |intros [? ?]; discriminate].
    unfold escaped in He. unfold decode. rewrite decide_False.
    2: { intros ->. by vm_compute in He. }
    repeat case_decide; try done; by injection He as <-.
  - destruct (Hcons _ _ _ _ Hcap Hr) as (st1 & H1 & Hr1 & H2). pose proof (hex4_lt _ _ Hh).
    eapply runs_cons; [by apply (feed_plain c ENone BACKSLASH ESlash); [..|intros [? ?]; discriminate]|].
    eapply runs_cons; [by apply (feed_plain c ESlash 117%N (EUnicode 0 0)); [..|intros [? ?]; discriminate]|].
    eapply runs_app; [|by eapply IH].
    apply (hex4_runs c EUnicode (decode_unit None) h v ENone (Some v) st st1); [done..| |done|done].
    unfold decode_unit. rewrite !decide_False by lia. by rewrite from_u32_scalar by lia.
  - destruct (Hcons _ _ _ _ Hcap Hr) as (st1 & H1 & Hr1 & H2).
    eapply runs_cons; [by apply (feed_plain c ENone BACKSLASH ESlash); [..|intros [? ?]; discriminate]|].
    eapply runs_cons; [by apply (feed_plain c ESlash 117%N (EUnicode 0 0)); [..|intros [? ?]; discriminate]|].
    eapply runs_app.
    { eapply (hex4_runs c EUnicode (decode_unit None) h1 v1 (ELowSlash v1) None _ st); [done..| |done|done].
      unfold decode_unit. rewrite decide_False by lia. by rewrite decide_True by lia. }
    eapply runs_cons; [by apply (feed_plain c (ELowSlash v1) BACKSLASH (ELowU v1)); [..|intros [? ?]; discriminate]|].
    eapply runs_cons; [by apply (feed_plain c (ELowU v1) 117%N (ELowUnicode v1 0 0)); [..|intros [? ?]; discriminate]|].
    eapply runs_app; [|by eapply IH].
    eapply (hex4_runs c (ELowUnicode v1) (decode_unit (Some v1)) h2 v2 ENone (Some _) st st1);
      [done..| |done|exact H1].
    unfold decode_unit. rewrite decide_True by lia.
    rewrite from_u32_scalar by lia. cbn. do 4 f_equal. lia.
Qed.

(** *** Numbers and literals *)

Lemma number_token_runs p b stk k o f raw s s' ds :
  live p → number_run s raw = Some s' → (f ≠ FIgnore → str_len ds + str_len raw <= 20)%N →
  runs raw (at_ p b stk (Some (TNumber s f ds)) k o)
    (at_ p b stk (Some (TNumber s' f (if decide (f = FIgnore) then ds else ds ++ raw))) k o).
Proof using Type.
  intros Hl. revert s ds. induction raw as [|ch raw IH]; intros s ds Hr Hlen.
  - injection Hr as ->. case_decide; rewrite ?app_nil_r; apply runs_nil.
  - cbn [number_run] in Hr. destruct (number_next s ch) as [s1|] eqn:En; [|done].
    rewrite str_len_cons in Hlen. pose proof (number_next_ascii _ _ _ En) as Hch.
    eapply runs_cons.
    + rewrite feed_at by done. cbn [token_char]. rewrite En. rewrite decide_False; [reflexivity|].
      intros [Hf ?]. specialize (Hlen Hf). lia.
    + pose proof (IH s1 (if decide (f ≠ FIgnore) then ds ++ [ch] else ds) Hr) as IH1.
      destruct (decide (f = FIgnore)) as [->|Hf]; [by apply IH1|].
      rewrite (decide_True (P := f ≠ FIgnore)) in IH1 |- * by done.
      rewrite <- app_assoc in IH1. apply IH1. intros _. specialize (Hlen Hf).
      rewrite str_len_app, str_len_cons, str_len_nil. lia.
Qed.

Lemma literal_token_runs p b stk k o l i rest :
  live p → drop i l = rest → rest ≠ [] →
  runs rest (at_ p b stk (Some (TLiteral l i)) k o) (at_ p b stk None k o).
Proof using Type.
  intros Hl. revert i. induction rest as [|ch rest IH]; intros i Hd Hne; [done|clear Hne].
  assert (l !! i = Some ch) as Hi.
  { rewrite <- (Nat.add_0_r i), <- lookup_drop, Hd. done. }
  assert (drop (S i) l = rest) as Hd'.
  { rewrite <- Nat.add_1_r, <- drop_drop, Hd. done. }
  assert (length l = S i + length rest)%nat as Hlen.
  { rewrite <- Hd', length_drop. apply lookup_lt_Some in Hi. lia. }
  eapply runs_cons.
  { rewrite feed_at by done. cbn [token_char]. rewrite decide_False by (intros H; by apply H). 
    instantiate (1 := at_ p b stk (if decide (rest = []) then None else Some (TLiteral l (S i))) k o).
    destruct rest as [|c rest]; [rewrite decide_False by (simpl in *; lia)|rewrite decide_True by (simpl in *; lia)];
      reflexivity. }
  destruct rest as [|c rest]; [apply runs_nil|]. by apply (IH (S i)).
Qed.

(** *** Values that are not shown *)

Definition expecting (top : Frame) : Prop :=
  top = Object OValue ∨ top = Array AValueOrEnd ∨ top = Array AValue.
Definition ignored (p : PreviewParser) (stk : list Frame) : Prop :=
  length stk ≠ 1 ∨ field p = FIgnore.

Lemma structural_value p b top rest k o ch :
  live p → expecting top → json_space ch = false → ch ≠ RBRACKET →
  structural reserve ch (at_ p b (top :: rest) None k o) =
  start_value reserve ch (at_ p b (top :: rest) None k o).
Proof using Type.
  intros (Hs & Hd & Hi) Ht Hsp Hch. unfold structural. rewrite Hsp.
  change (started (at_ p b (top :: rest) None k o).1) with (started p). rewrite Hs.
  change (done_ (at_ p b (top :: rest) None k o).1) with (done_ p). rewrite Hd.
  destruct Ht as [->|[-> | ->]]; cbn; [done| |done]. by rewrite decide_False.
Qed.

Lemma start_ignored p b top rest k o ch :
  ignored p (top :: rest) →
  start_value reserve ch (at_ p b (top :: rest) None k o) =
  let st := at_ p b (taken top :: rest) None k o in
  if decide (ch = LBRACE ∨ ch = LBRACKET) then
    if decide (MAX_DEPTH <= length (taken top :: rest))%nat then Some (fail st) else
    Some (at_ p b ((if decide (ch = LBRACE) then Object OKeyOrEnd else Array AValueOrEnd) ::
      taken top :: rest) None k o)
  else if decide (ch = DQUOTE) then Some (opened (CField FIgnore) ENone st)
  else if decide (ch = MINUS ∨ is_digit ch = true)
  then Some (at_ p b (taken top :: rest) (Some (TNumber (number_start ch) FIgnore [])) k o)
  else if decide (ch = 116)%N then Some (at_ p b (taken top :: rest) (Some (TLiteral (lit "true") 1)) k o)
  else if decide (ch = 102)%N then Some (at_ p b (taken top :: rest) (Some (TLiteral (lit "false") 1)) k o)
  else if decide (ch = 110)%N then Some (at_ p b (taken top :: rest) (Some (TLiteral (lit "null") 1)) k o)
  else Some (fail st).
Proof using Type.
  intros Hig. unfold start_value.
  change (stack (at_ p b (top :: rest) None k o).1) with (top :: rest).
  change (field (at_ p b (top :: rest) None k o).1) with (field p).
  set (f := if decide (length (top :: rest) = 1) then field p else FIgnore).
  assert (f = FIgnore) as Hf. { unfold f. case_decide; [by destruct Hig|done]. }
  clearbody f. subst f. rewrite decide_False by naive_solver.
  reflexivity.
Qed.

Lemma capture_all_ignored c d st : c = CIgnore ∨ c = CField FIgnore → capture_all c d st = Some st.
Proof using Type. intros Hc. induction d as [|ch d IH]; [done|]. cbn [capture_all]. by destruct Hc as [-> | ->]. Qed.

Lemma opened_at c e p b stk k o :
  opened c e (at_ p b stk None k o) = at_ p b stk (Some (TString c e)) k o.
Proof using Type. reflexivity. Qed.

Lemma ready_at p b stk k o : live p → ready (at_ p b stk None k o).1.
Proof using Type. by intros (_ & _ & ?). Qed.

Lemma runs_ws_pend p b stk tok k o w :
  live p → pend tok → ws w → ∃ tok', pend tok' ∧ runs w (at_ p b stk tok k o) (at_ p b stk tok' k o).
Proof using Type.
  intros Hl Hp Hw. destruct w as [|c w]; [exists tok; split; [done|apply runs_nil]|].
  apply andb_true_iff in Hw as [Hc Hw]. exists None. split; [by left|].
  eapply runs_cons; [|by apply runs_ws].
  rewrite feed_pending by (done || by left). unfold structural. by rewrite Hc.
Qed.

(** The quote that ends a string that is not a shown key. *)
Lemma string_closed p b top rest k o f :
  live p → is_taken top →
  feed_char reserve DQUOTE (at_ p b (top :: rest) (Some (TString (CField f) ENone)) k o) =
  Some (at_ p b (top :: rest) None k o).
Proof using Type. intros Hl Ht. rewrite feed_at by done. by destruct Ht as [-> | ->]. Qed.

Lemma key_closed p b o' rest k o :
  live p → o' = OKeyOrEnd ∨ o' = OKey →
  feed_char reserve DQUOTE (at_ p b (Object o' :: rest) (Some (TString CIgnore ENone)) k o) =
  Some (at_ p b (Object OColon :: rest) None k o).
Proof using Type. intros Hl Ht. rewrite feed_at by done. by destruct Ht as [-> | ->]. Qed.

(** The structural characters. *)
Lemma key_opens p b o' rest k o :
  live p → o' = OKeyOrEnd ∨ o' = OKey →
  structural reserve DQUOTE (at_ p b (Object o' :: rest) None k o) =
  Some (at_ p b (Object o' :: rest)
    (Some (TString (if decide (rest = []) then CKey else CIgnore) ENone)) [] false).
Proof using Type. intros (Hs & Hd & Hi) [-> | ->]; unfold structural; cbn; by rewrite Hs, Hd. Qed.

Lemma colon_step p b rest k o :
  live p → structural reserve COLON (at_ p b (Object OColon :: rest) None k o) =
  Some (at_ p b (Object OValue :: rest) None k o).
Proof using Type. intros (Hs & Hd & Hi). unfold structural; cbn. by rewrite Hs, Hd. Qed.

Lemma comma_step p b top rest k o :
  live p → is_taken top → structural reserve COMMA (at_ p b (top :: rest) None k o) =
  Some (at_ p b ((match top with Object _ => Object OKey | Array _ => Array AValue end) :: rest) None k o).
Proof using Type. intros (Hs & Hd & Hi) [-> | ->]; unfold structural; cbn; by rewrite Hs, Hd. Qed.

Lemma object_closes p b o' rest k o :
  live p → rest ≠ [] → o' = OKeyOrEnd ∨ o' = OCommaOrEnd →
  structural reserve RBRACE (at_ p b (Object o' :: rest) None k o) = Some (at_ p b rest None k o).
Proof using Type.
  intros (Hs & Hd & Hi) Hr [-> | ->]; unfold structural; cbn; rewrite Hs, Hd; by destruct rest.
Qed.

Lemma array_closes p b a rest k o :
  live p → rest ≠ [] → a = AValueOrEnd ∨ a = ACommaOrEnd →
  structural reserve RBRACKET (at_ p b (Array a :: rest) None k o) = Some (at_ p b rest None k o).
Proof using Type.
  intros (Hs & Hd & Hi) Hr [-> | ->]; unfold structural; cbn; rewrite Hs, Hd; by destruct rest.
Qed.

(** A quoted text whose characters go nowhere. *)
Lemma string_runs_at c d r p b stk k o :
  string_body d r → live p → c = CIgnore ∨ c = CField FIgnore →
  runs r (at_ p b stk (Some (TString c ENone)) k o) (at_ p b stk (Some (TString c ENone)) k o).
Proof using Type.
  intros Hb Hl Hc. rewrite <- opened_at. eapply string_runs; [done|by apply ready_at|].
  by apply capture_all_ignored.
Qed.

(** A key, its colon and the space around, in a nested object. *)
Lemma key_runs d r w1 w2 w3 p b o' rest k o :
  live p → string_body d r → ws w1 → ws w2 → ws w3 → o' = OKeyOrEnd ∨ o' = OKey → rest ≠ [] →
  ∀ l st', runs l (at_ p b (Object OValue :: rest) None [] false) st' →
  runs (w1 ++ quoted r ++ w2 ++ COLON :: w3 ++ l) (at_ p b (Object o' :: rest) None k o) st'.
Proof using Type.
  intros Hl Hb H1 H2 H3 Ho Hr l st' Hrun.
  eapply runs_app; [by apply runs_ws|]. unfold quoted. rewrite <- app_comm_cons, <- app_assoc.
  eapply runs_cons; [rewrite feed_structural by done; by apply key_opens|].
  rewrite decide_False by done.
  eapply runs_app; [by eapply string_runs_at; [|done|left]|].
  eapply runs_cons; [by apply key_closed|]. eapply runs_app; [by apply runs_ws|].
  eapply runs_cons; [rewrite feed_structural by done; by apply colon_step|].
  eapply runs_app; [by apply runs_ws|done].
Qed.

(** The end state of a value: its place is taken, a number may be open. *)
Definition value_end (s : str) (st : PState) (p : PreviewParser) (b : N) (stk : list Frame) : Prop :=
  ∃ tok k o, pend tok ∧ feeds reserve s st (at_ p b stk tok k o).

Lemma value_starts p b top rest k o ch s stk' tok' k' o' tok2 k2 o2 :
  live p → expecting top → ignored p (top :: rest) → json_space ch = false → ch ≠ RBRACKET →
  start_value reserve ch (at_ p b (top :: rest) None k o) = Some (at_ p b stk' tok' k' o') →
  pend tok2 → runs s (at_ p b stk' tok' k' o') (at_ p b (taken top :: rest) tok2 k2 o2) →
  value_end (ch :: s) (at_ p b (top :: rest) None k o) p b (taken top :: rest).
Proof using Type.
  intros Hl He Hig Hsp Hch Hs Hp Hr. exists tok2, k2, o2. split; [done|].
  eapply runs_cons; [|exact Hr]. rewrite feed_structural by done. by rewrite structural_value.
Qed.

Lemma string_value_runs d r p b k o top rest :
  string_body d r → live p → expecting top → ignored p (top :: rest) →
  value_end (quoted r) (at_ p b (top :: rest) None k o) p b (taken top :: rest).
Proof using Type.
  intros Hb Hl He Hig. eapply value_starts; [done..| |by left|].
  - rewrite start_ignored by done. reflexivity.
  - eapply runs_app; [by eapply string_runs_at; [|done|right]|].
    apply runs_one, string_closed; [done|apply is_taken_taken].
Qed.

Lemma digit_facts ch : is_digit ch = true ∨ ch = MINUS →
  json_space ch = false ∧ ch ≠ RBRACKET ∧ ch ≠ LBRACE ∧ ch ≠ LBRACKET ∧ ch ≠ DQUOTE.
Proof using Type.
  intros Hd. assert (45 <= ch <= 57)%N as Hb.
  { destruct Hd as [Hd| ->]; [apply bool_decide_eq_true in Hd; lia|done]. }
  unfold RBRACKET, LBRACE, LBRACKET, DQUOTE. split_and!; try lia.
  unfold json_space, SPACE, TAB, CR, LF. apply bool_decide_eq_false. rewrite !elem_of_cons, elem_of_nil. lia.
Qed.

Lemma number_value_runs s p b k o top rest :
  number s → live p → expecting top → ignored p (top :: rest) →
  value_end s (at_ p b (top :: rest) None k o) p b (taken top :: rest).
Proof using Type.
  intros (ch & raw & st & -> & Hch & Hrun & Hc)%number_runs_complete Hl He Hig.
  destruct (digit_facts ch) as (H1 & H2 & H3 & H4 & H5); [tauto|].
  eapply value_starts; [done..| |right; exists st; split; [reflexivity|done]|].
  - rewrite start_ignored by done. rewrite decide_False by tauto. rewrite decide_False by done.
    by rewrite decide_True by done.
  - by apply (number_token_runs p b (taken top :: rest) k o FIgnore raw _ st []).
Qed.

Lemma literal_value_runs s p b k o top rest :
  s = lit "true" ∨ s = lit "false" ∨ s = lit "null" → live p → expecting top → ignored p (top :: rest) →
  value_end s (at_ p b (top :: rest) None k o) p b (taken top :: rest).
Proof using Type.
  assert (∀ ch rest' l, json_space ch = false → ch ≠ RBRACKET → drop 1 l = rest' → rest' ≠ [] →
    start_value reserve ch (at_ p b (top :: rest) None k o) =
      Some (at_ p b (taken top :: rest) (Some (TLiteral l 1)) k o) →
    live p → expecting top → ignored p (top :: rest) →
    value_end (ch :: rest') (at_ p b (top :: rest) None k o) p b (taken top :: rest)) as Hlit.
  { intros ch rest' l H1 H2 H3 H4 H5 Hl He Hig.
    eapply value_starts; [done..|exact H5|by left|by apply literal_token_runs]. }
  intros [->|[-> | ->]] Hl He Hig.
  - by apply (Hlit 116%N _ (lit "true")); [done|done|done|done|by rewrite start_ignored|done..].
  - by apply (Hlit 102%N _ (lit "false")); [done|done|done|done|by rewrite start_ignored|done..].
  - by apply (Hlit 110%N _ (lit "null")); [done|done|done|done|by rewrite start_ignored|done..].
Qed.

(** Opening and closing a container. *)
Lemma container_runs p b k o top rest opening frame s n :
  opening = LBRACE ∧ frame = Object OKeyOrEnd ∨ opening = LBRACKET ∧ frame = Array AValueOrEnd →
  live p → expecting top → ignored p (top :: rest) → S (length rest) + S n <= MAX_DEPTH →
  (∀ st, st = at_ p b (frame :: taken top :: rest) None k o →
     value_end s st p b (taken top :: rest)) →
  value_end (opening :: s) (at_ p b (top :: rest) None k o) p b (taken top :: rest).
Proof using Type.
  intros Hop Hl He Hig Hn Hs. destruct (Hs _ eq_refl) as (tok & k' & o' & Hp & Hr).
  eapply value_starts; [done|done|done| | | |exact Hp|exact Hr].
  - by destruct Hop as [[-> _]|[-> _]].
  - by destruct Hop as [[-> _]|[-> _]].
  - rewrite start_ignored by done. rewrite decide_True by tauto. rewrite decide_False by (simpl; lia).
    by destruct Hop as [[-> ->]|[-> ->]].
Qed.

Definition value_ok (n : nat) (s : str) : Prop := ∀ p b k o top rest,
  live p → expecting top → ignored p (top :: rest) → S (length rest) + n <= MAX_DEPTH →
  value_end s (at_ p b (top :: rest) None k o) p b (taken top :: rest).
Definition elements_ok (n : nat) (s : str) : Prop := ∀ p b k o a rest,
  live p → a = AValueOrEnd ∨ a = AValue → rest ≠ [] → S (length rest) + n <= MAX_DEPTH →
  value_end s (at_ p b (Array a :: rest) None k o) p b (Array ACommaOrEnd :: rest).
Definition members_ok (n : nat) (s : str) : Prop := ∀ p b k o o' rest,
  live p → o' = OKeyOrEnd ∨ o' = OKey → rest ≠ [] → S (length rest) + n <= MAX_DEPTH →
  value_end s (at_ p b (Object o' :: rest) None k o) p b (Object OCommaOrEnd :: rest).

Lemma ignored_nested p f rest : rest ≠ [] → ignored p (f :: rest).
Proof using Type. left. by destruct rest. Qed.

(** Space after a value, and then perhaps a comma and more. *)
Lemma value_end_ws v w st p b stk :
  live p → value_end v st p b stk → ws w → value_end (v ++ w) st p b stk.
Proof using Type.
  intros Hl (tok & k & o & Hp & Hr) Hw.
  destruct (runs_ws_pend p b stk tok k o w Hl Hp Hw) as (tok' & Hp' & Hr').
  exists tok', k, o. split; [done|]. by eapply runs_app.
Qed.

Lemma value_end_comma v w s st p b top rest stk :
  live p → is_taken top → value_end v st p b (top :: rest) → ws w →
  (∀ k o, value_end s (at_ p b
     ((match top with Object _ => Object OKey | Array _ => Array AValue end) :: rest) None k o) p b stk) →
  value_end (v ++ w ++ COMMA :: s) st p b stk.
Proof using Type.
  intros Hl Ht (tok & k & o & Hp & Hr) Hw Hs. destruct (Hs k o) as (tok' & k' & o' & Hp' & Hr').
  exists tok', k', o'. split; [done|]. eapply runs_app; [exact Hr|].
  change (COMMA :: s) with ([COMMA] ++ s). rewrite app_assoc. eapply runs_app; [|exact Hr'].
  eapply runs_pending; [done|done|done|by right; left|]. by apply comma_step.
Qed.

Lemma value_end_app l s st st' p b stk :
  feeds reserve l st st' → value_end s st' p b stk → value_end (l ++ s) st p b stk.
Proof using Type.
  intros Hl (tok & k & o & Hp & Hr). exists tok, k, o. split; [done|]. by eapply runs_app.
Qed.

(** A container whose contents end it. *)
Lemma value_end_close s ch st p b f rest top' :
  live p → value_end s st p b (f :: rest) → delimiter ch →
  (∀ k o, structural reserve ch (at_ p b (f :: rest) None k o) = Some (at_ p b top' None k o)) →
  value_end (s ++ [ch]) st p b top'.
Proof using Type.
  intros Hl (tok & k & o & Hp & Hr) Hd Hc. exists None, k, o. split; [by left|].
  eapply runs_app; [exact Hr|]. apply runs_one. rewrite feed_pending by done. apply Hc.
Qed.

Lemma nested_key_end d r w1 w2 w3 s p b o' rest k o stk :
  live p → string_body d r → ws w1 → ws w2 → ws w3 → o' = OKeyOrEnd ∨ o' = OKey → rest ≠ [] →
  value_end s (at_ p b (Object OValue :: rest) None [] false) p b stk →
  value_end (w1 ++ quoted r ++ w2 ++ COLON :: w3 ++ s) (at_ p b (Object o' :: rest) None k o) p b stk.
Proof using Type.
  intros Hl Hb H1 H2 H3 Ho Hr (tok & k' & o2 & Hp & Hrun). exists tok, k', o2. split; [done|].
  by eapply key_runs.
Qed.

Lemma json_runs :
  (∀ n s, value n s → value_ok n s) ∧ (∀ n s, elements n s → elements_ok n s) ∧
  (∀ n s, members n s → members_ok n s).
Proof using Type.
  apply (json_ind (λ n s _, value_ok n s) (λ n s _, elements_ok n s) (λ n s _, members_ok n s)).
  - intros n d r Hb p b k o top rest Hl He Hig Hn. by eapply string_value_runs.
  - intros n s Hs p b k o top rest Hl He Hig Hn. by apply number_value_runs.
  - intros n s Hs p b k o top rest Hl He Hig Hn. by apply literal_value_runs.
  - intros n w Hw p b k o top rest Hl He Hig Hn.
    eapply container_runs; [right; done|done..|]. intros st ->.
    eapply value_end_close; [done| |by right; right; left|intros; by apply array_closes; [..|left]].
    exists None, k, o. split; [by left|]. by apply runs_ws.
  - intros n s _ IH p b k o top rest Hl He Hig Hn.
    eapply container_runs; [right; done|done..|]. intros st ->.
    eapply value_end_close; [done| |by right; right; left|intros; by apply array_closes; [..|right]].
    apply IH; [done|by left|done|simpl; lia].
  - intros n w Hw p b k o top rest Hl He Hig Hn.
    eapply container_runs; [left; done|done..|]. intros st ->.
    eapply value_end_close; [done| |by right; right; right|intros; by apply object_closes; [..|left]].
    exists None, k, o. split; [by left|]. by apply runs_ws.
  - intros n s _ IH p b k o top rest Hl He Hig Hn.
    eapply container_runs; [left; done|done..|]. intros st ->.
    eapply value_end_close; [done| |by right; right; right|intros; by apply object_closes; [..|right]].
    apply IH; [done|by left|done|simpl; lia].
  - intros n w1 v w2 H1 _ IH H2 p b k o a rest Hl Ha Hr Hn.
    eapply value_end_app; [by apply runs_ws|]. apply value_end_ws; [done| |done].
    apply IH; [done| |by apply ignored_nested|done]. by destruct Ha as [-> | ->]; right; [left|right].
  - intros n w1 v w2 s H1 _ IH H2 _ IHs p b k o a rest Hl Ha Hr Hn.
    eapply value_end_app; [by apply runs_ws|].
    eapply (value_end_comma v w2 s _ _ _ (Array ACommaOrEnd)); [done|by right| |done|].
    + apply IH; [done| |by apply ignored_nested|done]. by destruct Ha as [-> | ->]; right; [left|right].
    + intros k' o'. by apply IHs; [|right|..].
  - intros n w1 d r w2 w3 v w4 H1 Hb H2 H3 _ IH H4 p b k o o' rest Hl Ho Hr Hn.
    eapply nested_key_end; [done..|]. apply value_end_ws; [done| |done].
    apply (IH p b [] false (Object OValue)); [done|by left|by apply ignored_nested|done].
  - intros n w1 d r w2 w3 v w4 s H1 Hb H2 H3 _ IH H4 _ IHs p b k o o' rest Hl Ho Hr Hn.
    eapply nested_key_end; [done..|].
    eapply (value_end_comma v w4 s _ _ _ (Object OCommaOrEnd)); [done|by left| |done|].
    + apply (IH p b [] false (Object OValue)); [done|by left|by apply ignored_nested|done].
    + intros k' o2. by apply IHs; [|right|..].
Qed.
End runs.
