(* ===== verification/PreviewShown.v ===== *)
(** The fields of a JSON object that the preview shows.

    [PreviewJson] takes the parser through the values it ignores; this file adds the
    members of the outermost object, whose paths, bodies and numbers are captured. *)

From S2P Require Import Prelude RustStr Preview PreviewJson.

(** [sanitize_display_text] of [presentation/display.rs], which the final card uses. *)
Fixpoint sanitize_display_text (value : str) (multiline : bool) : str :=
  match value with
  | [] => []
  | character :: value =>
      (if multiline && bool_decide (character ∈ [LF; TAB]) then [character]
       else if negb multiline && bool_decide (character ∈ [CR; LF; TAB]) then [SPACE]
       else if is_control character then escape_control character
       else [character]) ++ sanitize_display_text value multiline
  end.

Lemma sanitize_cons body ch d :
  sanitize_display_text (ch :: d) body = shown_char body ch ++ sanitize_display_text d body.
Proof.
  cbn [sanitize_display_text]. f_equal. unfold shown_char.
  destruct body; cbn [andb negb]; [|by destruct (bool_decide _), (is_control ch)].
  case_bool_decide as Hm; cbn [andb negb]; [|by rewrite andb_true_r].
  rewrite andb_false_r. done.
Qed.

Lemma sanitize_app body d e :
  sanitize_display_text (d ++ e) body = sanitize_display_text d body ++ sanitize_display_text e body.
Proof. induction d as [|ch d IH]; [done|]. cbn [app]. by rewrite !sanitize_cons, IH, app_assoc. Qed.

(** What a member shows. *)
Inductive Payload := PPath (d : str) | PContent (d : str) | POffset (v : N) | PLimit (v : N).
Definition payload_field (pl : Payload) : Field :=
  match pl with PPath _ => FPath | PContent _ => FContent | POffset _ => FOffset | PLimit _ => FLimit end.

(** The field a key names for the tools [write] and [read]. *)
Definition field_of (wr rd : bool) (k : str) : Field :=
  if decide (k = lit "path" ∨ k = lit "file_path") then FPath else
  if decide (k = lit "content" ∧ wr = true) then FContent else
  if decide (k = lit "offset" ∧ rd = true) then FOffset else
  if decide (k = lit "limit" ∧ rd = true) then FLimit else FIgnore.

Definition positive (raw : str) (v : N) : Prop :=
  ∃ d ds, raw = d :: ds ∧ is_digit19 d = true ∧ all_digits ds ∧ (str_len raw <= 20)%N ∧
    parse_usize raw = Some v ∧ (0 < v)%N.

Inductive tracked : Payload → str → Prop :=
  | tr_path d r : string_body d r → tracked (PPath d) (quoted r)
  | tr_content d r : string_body d r → tracked (PContent d) (quoted r)
  | tr_offset raw v : positive raw v → tracked (POffset v) raw
  | tr_limit raw v : positive raw v → tracked (PLimit v) raw.

(** A member without the space after it, and what it shows. *)
Definition member (wr rd : bool) (n : nat) (pl : option Payload) (s : str) : Prop :=
  ∃ w1 d r w2 w3 v, s = w1 ++ quoted r ++ w2 ++ COLON :: w3 ++ v ∧ ws w1 ∧ ws w2 ∧ ws w3 ∧
    string_body d r ∧
    match pl with
    | None => field_of wr rd d = FIgnore ∧ value n v
    | Some pl => field_of wr rd d = payload_field pl ∧ tracked pl v
    end.

Inductive shown_members (wr rd : bool) (n : nat) : list Payload → str → Prop :=
  | sm_one pl m w : member wr rd n pl m → ws w → shown_members wr rd n (option_list pl) (m ++ w)
  | sm_cons pl m w ps s :
      member wr rd n pl m → ws w → shown_members wr rd n ps s →
      shown_members wr rd n (option_list pl ++ ps) (m ++ w ++ COMMA :: s).

(** The arguments of a call: an object, nesting at most as deep as the parser allows,
    in which no shown field comes twice. *)
Definition arguments (wr rd : bool) (ps : list Payload) (raw : str) : Prop :=
  ∃ w0 s w1, raw = w0 ++ LBRACE :: s ++ RBRACE :: w1 ∧ ws w0 ∧ ws w1 ∧
    NoDup (payload_field <$> ps) ∧
    (shown_members wr rd (MAX_DEPTH - 1) ps s ∨ ps = [] ∧ ws s).

(** A buffer never holds more than twice its text, or what is set aside for a path. *)
Definition slack (buf : Buffer) : Prop := (capacity buf <= N.max 32 (2 * str_len (text buf)))%N.

Lemma slack_empty : slack empty_buffer.
Proof. unfold slack. cbn [empty_buffer capacity]. lia. Qed.

(** A text is cut at the first character that exceeds the room the other buffer of
    the call, which holds [other], and the other calls leave. *)
Definition cut_at_room (body : bool) (others other : N) (d shown : str) : Prop :=
  ∃ d1 ch d2, d = d1 ++ ch :: d2 ∧ shown = sanitize_display_text d1 body ∧
    (room body others other < str_len (sanitize_display_text (d1 ++ [ch]) body))%N.

(** What a parser shows of the members read so far: a text is a prefix of what the
    final card shows, all of it unless it was cut.  When the allocator grants what it
    is asked for, a text is only cut where the budgets demand it. *)
Definition shows_text (granting : Prop) (others : N) (body cut : bool) (d : str) (other b : option Buffer) : Prop :=
  ∃ buf, b = Some buf ∧ text buf `prefix_of` sanitize_display_text d body ∧
    (cut = false → text buf = sanitize_display_text d body) ∧
    (granting → slack buf ∧ (cut = true → cut_at_room body others (held other) d (text buf))).

Record Shows (granting : Prop) (others : N) (ps : list Payload) (p : PreviewParser) : Prop := mkShows {
  shows_path d : PPath d ∈ ps → shows_text granting others false (path_cut p) d (content p) (path p);
  shows_no_path : FPath ∉ payload_field <$> ps →
    path_cut p = false ∧ ∀ buf, path p = Some buf → text buf = [] ∧ (granting → slack buf);
  shows_content d : PContent d ∈ ps → shows_text granting others true (body_cut p) d (path p) (content p);
  shows_no_content : FContent ∉ payload_field <$> ps → body_cut p = false ∧ content p = None;
  shows_offset v : POffset v ∈ ps → offset p = Some v;
  shows_no_offset : FOffset ∉ payload_field <$> ps → offset p = None;
  shows_limit v : PLimit v ∈ ps → limit p = Some v;
  shows_no_limit : FLimit ∉ payload_field <$> ps → limit p = None;
  shows_seen f : f ≠ FIgnore → f ∉ payload_field <$> ps → N.land (seen p) (bit f) = 0%N
}.

(** The other buffer growing leaves less room. *)
Lemma shows_text_grows (granting : Prop) others body cut d other other' b :
  (granting → held other <= held other')%N →
  shows_text granting others body cut d other b → shows_text granting others body cut d other' b.
Proof.
  intros Hle (buf & Hb & Hpre & Hall & Hg). exists buf. split_and!; [done..|]. intros Hgr.
  destruct (Hg Hgr) as [Hs Hcut]. split; [done|]. intros Hc. destruct (Hcut Hc) as (d1 & ch & d2 & Hd & Ht & Hroom).
  exists d1, ch, d2. split_and!; [done..|]. specialize (Hle Hgr). unfold room in *. lia.
Qed.

Lemma Shows_new granting others name : Shows granting others [] (PreviewParser_new name).
Proof. split; try done; by intros ? ?%not_elem_of_nil. Qed.

Section capture.
Context (reserve : N → N → option N).
Context (reserve_enough : ∀ c w c', reserve c w = Some c' → (w <= c')%N).
Local Notation runs := (feeds reserve).
Local Notation capture_all := (capture_all reserve).
Local Notation granting := (grants reserve).

(** *** Keys *)

Lemma key_captured d p b :
  (str_len (key p) <= 32)%N →
  ∃ k o, capture_all CKey d (p, b) = Some (set_key k o p, b) ∧
    (key_overflow p = true → o = true) ∧
    (key_overflow p = false → (o = false ∧ k = key p ++ d) ∨ (o = true ∧ 32 < str_len (key p ++ d))%N).
Proof using Type.
  revert p. induction d as [|ch d IH]; intros p Hk.
  - exists (key p), (key_overflow p). split; [by destruct p|]. split; [done|]. intros Ho.
    rewrite app_nil_r. by left.
  - cbn [PreviewJson.capture_all capture mbind option_bind]. unfold on_parser. cbn [fst snd].
    case_decide as Hfit.
    + destruct Hfit as [Hlen Ho]. destruct (IH (set_key (key p ++ [ch]) (key_overflow p) p))
        as (k & o & -> & H1 & H2); [simpl; rewrite str_len_app, str_len_cons, str_len_nil; lia|].
      exists k, o. split; [done|]. simpl in *. split; [done|]. intros _.
      destruct (H2 Ho) as [[-> ->]|[-> Hl]]; [left|right]; by rewrite <- app_assoc in *.
    + destruct (IH (set_key (key p) true p)) as (k & o & -> & H1 & H2); [done|].
      exists k, o. split; [done|]. simpl in *. split; [by intros _; apply H1|]. intros Ho. right.
      split; [by apply H1|]. rewrite str_len_app, str_len_cons.
      destruct (decide (str_len (key p) + len_utf8 ch <= 32)%N); [tauto|lia].
Qed.

(** The field of a captured key is that of its text. *)
Lemma key_field_captured d p b :
  ∃ k o, capture_all CKey d (set_key [] false p, b) = Some (set_key k o p, b) ∧
    key_field (set_key k o p) = field_of (is_write p) (is_read p) d.
Proof using Type.
  destruct (key_captured d (set_key [] false p) b) as (k & o & Hc & _ & Ho); [done|].
  exists k, o. split; [exact Hc|]. unfold key_field, field_of. simpl.
  destruct (Ho eq_refl) as [[-> ->]|[-> Hlen]]; [done|].
  assert (∀ s : string, (str_len (lit s) <= 32)%N → d ≠ lit s) as Hne.
  { intros s Hs ->. simpl in Hlen. lia. }
  pose proof (Hne "path" ltac:(done)). pose proof (Hne "file_path" ltac:(done)).
  pose proof (Hne "content" ltac:(done)). pose proof (Hne "offset" ltac:(done)).
  pose proof (Hne "limit" ltac:(done)). symmetry. by rewrite !decide_False by tauto.
Qed.

(** *** Texts *)

Definition cut_of (body : bool) (p : PreviewParser) : bool := if body then body_cut p else path_cut p.

(** Everything but the buffer [body], its cut flag and the accounts. *)
Definition keeps_others (body : bool) (p p' : PreviewParser) : Prop :=
  kept p p' ∧ key p' = key p ∧ key_overflow p' = key_overflow p ∧
  (if body then path p' = path p ∧ path_cut p' = path_cut p
   else content p' = content p ∧ body_cut p' = body_cut p).

#[local] Instance keeps_others_preorder body : PreOrder (keeps_others body).
Proof using Type.
  split.
  - intros p. split; [reflexivity|]. by destruct body.
  - intros p1 p2 p3 (H1 & H2 & H3 & H4) (K1 & K2 & K3 & K4). split; [by etrans|].
    destruct body; destruct_and!; split_and!; congruence.
Qed.

Definition field_body (f : Field) : option bool :=
  match f with FPath => Some false | FContent => Some true | _ => None end.

Lemma char_captured others f body ch st buf :
  field_body f = Some body → MemInv others st → buffer body st.1 = Some buf → cut_of body st.1 = false →
  ∃ st' buf', capture reserve (CField f) ch st = Some st' ∧ MemInv others st' ∧
    keeps_others body st.1 st'.1 ∧ buffer body st'.1 = Some buf' ∧
    (cut_of body st'.1 = false ∧ text buf' = text buf ++ shown_char body ch ∨
     cut_of body st'.1 = true ∧ text buf' `prefix_of` text buf) ∧
    (granting → (capacity buf <= capacity buf')%N ∧ (slack buf → slack buf') ∧
       (cut_of body st'.1 = true → text buf' = text buf ∧
          (room body others (held (buffer (negb body) st.1)) < str_len (text buf ++ shown_char body ch))%N)).
Proof using reserve_enough.
  intros Hf HM Hbuf Hcut.
  destruct (append_display_spec reserve reserve_enough others body (shown_char body ch) st buf HM Hbuf)
    as (r & b' & buf' & ok & Happ & HM' & Htext & Hgrants).
  set (p1 := set_retained r (set_buffer body buf' st.1)) in *.
  exists (on_parser changed (if ok then (p1, b') else on_parser (if body then cut_body else cut_path) (p1, b'))), buf'.
  split.
  { destruct f; try done; injection Hf as <-; simpl in Hcut; cbn [capture]; rewrite Hcut, Happ; by destruct ok. }
  split.
  { apply (MemInv_same others (p1, b')); [by destruct ok|by destruct ok, body..|exact HM']. }
  split; [by destruct ok, body; split_and!|]. split; [by destruct ok, body|].
  split.
  { destruct ok; [left|right]; (split; [|]); try by destruct body.
    destruct Htext as [-> | ->]; [done|apply prefix_nil]. }
  intros Hg. destruct (Hgrants Hg) as (Hno & Hmono & Hcap). split; [done|]. split.
  - unfold slack. intros Hs. destruct ok; [|destruct (Hno eq_refl) as [-> _]; done].
    rewrite Htext, str_len_app. lia.
  - intros Hc. destruct ok.
    + exfalso. destruct body; cbn in Hc, Hcut; congruence.
    + destruct (Hno eq_refl) as [-> Hlt]. split; [done|]. by rewrite str_len_app.
Qed.

Lemma cut_captured f body d st :
  field_body f = Some body → cut_of body st.1 = true → capture_all (CField f) d st = Some st.
Proof using Type.
  intros Hf Hcut. induction d as [|ch d IH]; [done|]. cbn [PreviewJson.capture_all].
  replace (capture reserve (CField f) ch st) with (Some st); [done|].
  destruct f; try done; injection Hf as <-; simpl in Hcut; cbn [capture]; by rewrite Hcut.
Qed.

Lemma text_captured others f body d st buf :
  field_body f = Some body → MemInv others st → buffer body st.1 = Some buf → cut_of body st.1 = false →
  ∃ st' buf', capture_all (CField f) d st = Some st' ∧ MemInv others st' ∧
    keeps_others body st.1 st'.1 ∧ buffer body st'.1 = Some buf' ∧
    text buf' `prefix_of` text buf ++ sanitize_display_text d body ∧
    (cut_of body st'.1 = false → text buf' = text buf ++ sanitize_display_text d body) ∧
    (granting → (capacity buf <= capacity buf')%N ∧ (slack buf → slack buf') ∧
       (cut_of body st'.1 = true → ∃ d1 ch d2, d = d1 ++ ch :: d2 ∧
          text buf' = text buf ++ sanitize_display_text d1 body ∧
          (room body others (held (buffer (negb body) st.1)) <
             str_len (text buf ++ sanitize_display_text (d1 ++ [ch]) body))%N)).
Proof using reserve_enough.
  intros Hf. revert st buf. induction d as [|ch d IH]; intros st buf HM Hbuf Hcut.
  { exists st, buf. rewrite app_nil_r. split_and!; try done. intros _. by split_and!; [|done|congruence]. }
  destruct (char_captured others f body ch st buf Hf HM Hbuf Hcut)
    as (st1 & buf1 & Hcap & HM1 & Hk1 & Hbuf1 & Hres & Hgr). cbn [PreviewJson.capture_all].
  rewrite Hcap. cbn [mbind option_bind]. rewrite sanitize_cons.
  destruct Hres as [[Hcut1 Ht1]|[Hcut1 Ht1]].
  - destruct (IH st1 buf1 HM1 Hbuf1 Hcut1) as (st' & buf' & H1 & H2 & H3 & H4 & H5 & H6 & H7).
    assert (buffer (negb body) st1.1 = buffer (negb body) st.1) as Hother by (destruct body; apply Hk1).
    exists st', buf'. rewrite Ht1, <- app_assoc in H5, H6. split_and!; [done|done|by etrans|done..|].
    intros Hg. destruct (Hgr Hg) as (K1 & K2 & _), (H7 Hg) as (L1 & L2 & L3). split_and!; [lia|tauto|].
    intros Hc. destruct (L3 Hc) as (d1 & c & d2 & -> & Ht & Hroom). rewrite Hother, Ht1 in Hroom.
    exists (ch :: d1), c, d2. cbn [app]. rewrite !sanitize_cons, Ht, Ht1, <- !app_assoc. by rewrite <- app_assoc in Hroom.
  - exists st1, buf1. rewrite (cut_captured f body) by done. split_and!; [done..| |congruence|].
    { etrans; [exact Ht1|]. by eexists. }
    intros Hg. destruct (Hgr Hg) as (K1 & K2 & K3). destruct (K3 Hcut1) as [-> Hroom]. split_and!; [done..|].
    intros _. exists [], ch, d. split; [done|]. cbn [app]. rewrite app_nil_r. split; [done|].
    by rewrite sanitize_cons, app_nil_r.
Qed.

(** What starting a shown text leaves of the others. *)
Definition text_started (body : bool) (p p' : PreviewParser) : Prop :=
  kept p p' ∧ cut_of body p' = cut_of body p ∧
  if body
  then path_cut p' = path_cut p ∧
       (path p' = path p ∨ path p = None ∧ ∃ buf, path p' = Some buf ∧ text buf = [] ∧ (granting → slack buf))
  else content p' = content p ∧ body_cut p' = body_cut p.

Lemma spaces_len n : str_len (replicate n SPACE) = N.of_nat n.
Proof using Type. induction n as [|n IH]; [done|]. cbn [replicate]. rewrite str_len_cons, IH. change (len_utf8 SPACE) with 1%N. lia. Qed.

Lemma text_starts others f body p b :
  field_body f = Some body → MemInv others (p, b) →
  (∀ buf, buffer body p = Some buf → text buf = [] ∧ (granting → slack buf)) → (body = true → content p = None) →
  ∃ p' b' buf, start_string reserve f (p, b) = Some (opened (CField f) ENone (p', b')) ∧
    MemInv others (p', b') ∧ buffer body p' = Some buf ∧ text buf = [] ∧ (granting → slack buf) ∧
    (held (buffer body p) <= capacity buf)%N ∧ text_started body p p'.
Proof using reserve_enough.
  intros Hf HM Hnil Hnone. destruct f; try done; injection Hf as <-; simpl in Hnil.
  - exists (changed (match path p with None => set_path (Some empty_buffer) p | Some _ => p end)), b,
      (default empty_buffer (path p)). split; [reflexivity|].
    destruct (path p) as [buf|] eqn:Ep; cbn [default].
    + split; [by apply (MemInv_same others (p, b))|]. destruct (Hnil buf eq_refl) as [Hn Hs].
      split_and!; [done|done|done|cbn; by rewrite Ep|]. by split; [split_and!|].
    + split; [destruct HM as [Hr H1 H2 H3 H4 H5 H6]; simpl in *; rewrite Ep in *; by split|].
      split_and!; [done|done|by intros _; apply slack_empty|cbn; by rewrite Ep|]. by split; [split_and!|].
  - assert (∀ q r b', MemInv others (set_retained r (set_path q p), b') →
      MemInv others (changed (set_content (Some empty_buffer) (set_retained r (set_path q p))), b')) as Hcont.
    { intros q r b' [Hr H1 H2 H3 H4 H5 H6]. simpl in *. rewrite Hnone in * by done. split; simpl in *; done || lia. }
    unfold start_string. cbn [fst snd].
    destruct (path p) as [buf|] eqn:Ep.
    { exists (changed (set_content (Some empty_buffer) p)), b, empty_buffer. split; [reflexivity|].
      assert (set_retained (retained p) (set_path (path p) p) = p) as Heta by by destruct p.
      split; [specialize (Hcont (path p) (retained p) b); rewrite Heta in Hcont; by apply Hcont|].
      split_and!; [done|done|by intros _; apply slack_empty|cbn; by rewrite Hnone|]. split; [split_and!|]; try done.
      split; [done|]. split; [done|]. by left. }
    destruct (append_display_spec reserve reserve_enough others false
      (replicate (N.to_nat (N.min 32 (MAX_STREAM_BYTES - b))) SPACE)
      (on_parser (set_path (Some empty_buffer)) (p, b)) empty_buffer)
      as (r & b' & buf & ok & Happ & HM1 & _ & Hgr); [|done|].
    { destruct HM as [Hr H1 H2 H3 H4 H5 H6]. simpl in *. rewrite Ep in *. by split. }
    exists (changed (set_content (Some empty_buffer)
      (set_retained r (set_path (Some (mkBuffer [] (capacity buf))) p)))), b', empty_buffer.
    split; [cbn [mbind option_bind]; unfold on_parser in Happ |- *; cbn [fst snd] in *; by rewrite Happ|].
    split.
    { apply Hcont. destruct HM1 as [Hr H1 H2 H3 H4 H5 H6]. simpl in *. split; simpl in *; done || lia. }
    split_and!; [done|done|by intros _; apply slack_empty|cbn; by rewrite Hnone|]. split; [split_and!|]; try done.
    split; [done|]. split; [done|]. right.
    split; [done|]. eexists. split_and!; [done..|]. intros Hg. destruct (Hgr Hg) as (_ & _ & Hcap).
    unfold slack. cbn [capacity text] in *. cbn [empty_buffer capacity text] in Hcap. rewrite spaces_len in Hcap.
    change (str_len []) with 0%N in *. lia.
Qed.

(** *** What is shown so far *)

Lemma Shows_at others ps p tok stk k o :
  Shows granting others ps p → Shows granting others ps (set_token tok (set_stack stk (set_key k o p))).
Proof using Type. intros []. by split. Qed.

Lemma bit_disjoint f f' : f ≠ f' → N.land (bit f) (bit f') = 0%N.
Proof using Type. by destruct f, f'. Qed.

(** The state after a key of field [f]: its bit is set. *)
Definition keyed (f : Field) (p : PreviewParser) : PreviewParser :=
  set_seen (N.lor (seen p) (bit f)) (set_field f p).

Lemma seen_keyed f f' p :
  f' ≠ f → N.land (seen p) (bit f') = 0%N → N.land (seen (keyed f p)) (bit f') = 0%N.
Proof using Type. intros Hf Hs. simpl. by rewrite N.land_lor_distr_l, Hs, bit_disjoint. Qed.

Lemma Shows_ignored others ps p : Shows granting others ps p → Shows granting others ps (keyed FIgnore p).
Proof using Type. intros []. split; try done. simpl. by rewrite N.lor_0_r. Qed.

(** Members that are there stay, and those that are not are not added by others. *)
Lemma fields_app ps pl f :
  f ∉ payload_field <$> ps ++ [pl] → f ∉ payload_field <$> ps ∧ f ≠ payload_field pl.
Proof using Type. rewrite fmap_app, not_elem_of_app. simpl. rewrite list_elem_of_singleton. done. Qed.

Lemma payload_app (x pl : Payload) ps :
  payload_field x ∉ payload_field <$> ps ∨ x ∈ ps → x ∈ ps ++ [pl] →
  x ∈ ps ∨ (x = pl ∧ payload_field x ∉ payload_field <$> ps).
Proof using Type.
  intros Hx [H|H%list_elem_of_singleton]%elem_of_app; [by left|]. destruct Hx; [by right|by left].
Qed.

Definition text_payload (body : bool) (d : str) : Payload := if body then PContent d else PPath d.

(** A shown text is added to what is shown. *)
Lemma Shows_text others body d ps p p1 p2 :
  Shows granting others ps p → payload_field (text_payload body d) ∉ payload_field <$> ps →
  text_started body (keyed (payload_field (text_payload body d)) p) p1 → keeps_others body p1 p2 →
  shows_text granting others body (cut_of body p2) d (buffer (negb body) p2) (buffer body p2) →
  (granting → held (buffer body p) <= held (buffer body p2))%N →
  Shows granting others (ps ++ [text_payload body d]) p2.
Proof using Type.
  intros [Sp Snp Sc Snc So Sno Sl Snl Ss] Hnew (Hk1 & Hc1 & Ho1) (Hk2 & _ & _ & Ho2) Htext Hgrows.
  unfold kept in *. destruct_and!.
  assert (seen p2 = N.lor (seen p) (bit (payload_field (text_payload body d)))) as Hseen by (simpl in *; congruence).
  assert (offset p2 = offset p ∧ limit p2 = limit p) as [Hoff Hlim] by (simpl in *; split; congruence).
  assert (∀ x, x ∈ ps ++ [text_payload body d] → x ∈ ps ∨ x = text_payload body d) as Hin.
  { intros x. rewrite elem_of_app, list_elem_of_singleton. done. }
  assert (∀ x, x ∈ ps → payload_field x ≠ payload_field (text_payload body d)) as Hdiff.
  { intros x Hx Heq. apply Hnew. rewrite <- Heq. by apply list_elem_of_fmap_2. }
  split.
  - intros d' Hd. destruct body; simpl in *.
    + destruct (Hin _ Hd) as [Hd'|]; [|done]. destruct Ho2 as [-> ->].
      pose proof (Sp d' Hd') as (buf & Hb & _). destruct Ho1 as [-> [->|[Hn _]]]; [|simpl in Hn; congruence].
      by apply (shows_text_grows _ _ _ _ _ _ _ _ Hgrows), Sp.
    + destruct (Hin _ Hd) as [Hd'|[= ->]]; [by destruct (Hdiff _ Hd')|done].
  - intros Hf. apply fields_app in Hf as [Hf Hne]. destruct body; [|done]. simpl in *.
    destruct Ho2 as [-> ->], Ho1 as [-> Hp1]. destruct (Snp Hf) as [Hcut Hbuf]. split; [done|].
    destruct Hp1 as [->|[_ (buf & -> & Hb & Hsl)]]; [done|]. by intros ? [= <-].
  - intros d' Hd. destruct body; simpl in *.
    + destruct (Hin _ Hd) as [Hd'|[= ->]]; [by destruct (Hdiff _ Hd')|done].
    + destruct (Hin _ Hd) as [Hd'|]; [|done]. destruct Ho2 as [-> ->], Ho1 as [-> ->].
      by apply (shows_text_grows _ _ _ _ _ _ _ _ Hgrows), Sc.
  - intros Hf. apply fields_app in Hf as [Hf Hne]. destruct body; [done|]. simpl in *.
    destruct Ho2 as [-> ->], Ho1 as [-> ->]. by apply Snc.
  - intros v Hv. rewrite Hoff. destruct (Hin _ Hv) as [|]; [by apply So|by destruct body].
  - intros Hf. apply fields_app in Hf as [Hf _]. rewrite Hoff. by apply Sno.
  - intros v Hv. rewrite Hlim. destruct (Hin _ Hv) as [|]; [by apply Sl|by destruct body].
  - intros Hf. apply fields_app in Hf as [Hf _]. rewrite Hlim. by apply Snl.
  - intros f Hf Hnf. apply fields_app in Hnf as [Hnf Hne]. rewrite Hseen.
    apply (seen_keyed (payload_field (text_payload body d)) f p Hne). by apply Ss.
Qed.

Definition number_payload (off : bool) (v : N) : Payload := if off then POffset v else PLimit v.
Definition set_number (off : bool) (v : N) (p : PreviewParser) : PreviewParser :=
  changed (if off then set_offset (Some v) p else set_limit (Some v) p).

Lemma Shows_number others off v ps p :
  Shows granting others ps p → payload_field (number_payload off v) ∉ payload_field <$> ps →
  Shows granting others (ps ++ [number_payload off v]) (set_number off v (keyed (payload_field (number_payload off v)) p)).
Proof using Type.
  intros [Sp Snp Sc Snc So Sno Sl Snl Ss] Hnew.
  assert (∀ x, x ∈ ps ++ [number_payload off v] → x ∈ ps ∨ x = number_payload off v) as Hin.
  { intros x. rewrite elem_of_app, list_elem_of_singleton. done. }
  assert (∀ x, x ∈ ps → payload_field x ≠ payload_field (number_payload off v)) as Hdiff.
  { intros x Hx Heq. apply Hnew. rewrite <- Heq. by apply list_elem_of_fmap_2. }
  split.
  - intros d Hd. destruct (Hin _ Hd) as [Hd'|]; [|by destruct off]. destruct off; by apply Sp.
  - intros Hf. apply fields_app in Hf as [Hf _]. destruct off; by apply Snp.
  - intros d Hd. destruct (Hin _ Hd) as [Hd'|]; [|by destruct off]. destruct off; by apply Sc.
  - intros Hf. apply fields_app in Hf as [Hf _]. destruct off; by apply Snc.
  - intros v' Hv. destruct off; simpl in *; destruct (Hin _ Hv) as [Hv'|[= ->]]; try done.
    + by destruct (Hdiff _ Hv').
    + by apply So.
  - intros Hf. apply fields_app in Hf as [Hf Hne]. destruct off; [done|]. by apply Sno.
  - intros v' Hv. destruct off; simpl in *; destruct (Hin _ Hv) as [Hv'|[= ->]]; try done.
    + by apply Sl.
    + by destruct (Hdiff _ Hv').
  - intros Hf. apply fields_app in Hf as [Hf Hne]. destruct off; [|done]. by apply Snl.
  - intros f Hf Hnf. apply fields_app in Hnf as [Hnf Hne].
    destruct off; apply (seen_keyed (payload_field (number_payload _ v)) f p Hne); by apply Ss.
Qed.

(** *** One member *)

Lemma live_keyed f p : live p → live (keyed f p).
Proof using Type. done. Qed.

Lemma shown_key_closed p b o' k o :
  live p → o' = OKeyOrEnd ∨ o' = OKey → N.land (seen p) (bit (key_field (set_key k o p))) = 0%N →
  feed_char reserve DQUOTE (at_ p b [Object o'] (Some (TString CKey ENone)) k o) =
  Some (at_ (keyed (key_field (set_key k o p)) p) b [Object OColon] None [] o).
Proof using Type.
  intros Hl Ho Hs. rewrite feed_at by done. cbn [token_char]. rewrite decide_True by done.
  unfold finish_key. change (key_field (at_ p b [Object o'] None k o).1) with (key_field (set_key k o p)).
  set (f := key_field (set_key k o p)) in *. cbv zeta. rewrite decide_False; [reflexivity|].
  intros H. by apply H.
Qed.

Lemma shown_key_runs d r w1 w2 w3 p b o' k o :
  live p → string_body d r → ws w1 → ws w2 → ws w3 → o' = OKeyOrEnd ∨ o' = OKey →
  let f := field_of (is_write p) (is_read p) d in
  N.land (seen p) (bit f) = 0%N →
  ∃ o2, ∀ l st', runs l (at_ (keyed f p) b [Object OValue] None [] o2) st' →
    runs (w1 ++ quoted r ++ w2 ++ COLON :: w3 ++ l) (at_ p b [Object o'] None k o) st'.
Proof using Type.
  intros Hl Hb H1 H2 H3 Ho f Hs.
  destruct (key_field_captured d (set_token None (set_stack [Object o'] p)) b) as (k2 & o2 & Hcap & Hf).
  exists o2. intros l st' Hrun.
  assert (key_field (set_key k2 o2 p) = f) as Hf' by exact Hf.
  eapply runs_app; [by apply runs_ws|]. unfold quoted. rewrite <- app_comm_cons, <- app_assoc.
  eapply runs_cons; [rewrite feed_structural by done; by apply key_opens|].
  rewrite decide_True by done.
  eapply runs_app.
  { rewrite <- opened_at. eapply string_runs; [exact Hb|by apply ready_at|exact Hcap]. }
  eapply runs_cons; [apply (shown_key_closed p b o' k2 o2); [done|done|by rewrite Hf']|]. rewrite Hf'.
  eapply runs_app; [by apply runs_ws|].
  eapply runs_cons; [rewrite feed_structural by done; by apply colon_step|].
  eapply runs_app; [by apply runs_ws|done].
Qed.

(** The end of a member: what follows finds the parser [p], once a number is closed. *)
Definition member_end (s : str) (st : PState) (p' : PreviewParser) (b : N) : Prop :=
  ∃ p tok k o, feeds reserve s st (at_ p b [Object OCommaOrEnd] tok k o) ∧
    ∀ ch, delimiter ch → feed_char reserve ch (at_ p b [Object OCommaOrEnd] tok k o) =
      structural reserve ch (at_ p' b [Object OCommaOrEnd] None k o).

Lemma ignored_member_end n v p b o :
  live p → field p = FIgnore → value n v → S n <= MAX_DEPTH →
  member_end v (at_ p b [Object OValue] None [] o) p b.
Proof using Type.
  intros Hl Hf Hv Hn. destruct (json_runs reserve) as [Hok _].
  destruct (Hok n v Hv p b [] o (Object OValue) []) as (tok & k' & o' & Hp & Hr);
    [done|by left|by right|simpl; lia|].
  exists p, tok, k', o'. split; [exact Hr|]. intros ch Hch. by apply feed_pending.
Qed.

(** A value with a shown field starts in its place. *)
Lemma shown_value_starts p b o ch :
  live p → json_space ch = false →
  ¬ ((field p = FPath ∨ field p = FContent) ∧ ch ≠ DQUOTE ∨
     (field p = FOffset ∨ field p = FLimit) ∧ is_digit ch = false ∧ ch ≠ MINUS) →
  let st := at_ p b [Object OCommaOrEnd] None [] o in
  (ch = DQUOTE → feed_char reserve ch (at_ p b [Object OValue] None [] o) =
     start_string reserve (field p) st) ∧
  (is_digit19 ch = true → field p ≠ FIgnore →
     feed_char reserve ch (at_ p b [Object OValue] None [] o) =
     Some (at_ p b [Object OCommaOrEnd] (Some (TNumber Integer (field p) [ch])) [] o)).
Proof using Type.
  intros Hl Hsp Hok st.
  assert (ch ≠ RBRACKET → feed_char reserve ch (at_ p b [Object OValue] None [] o) =
    start_value reserve ch (at_ p b [Object OValue] None [] o)) as Hfeed.
  { intros Hr. rewrite feed_structural by done. apply structural_value; [done|by left|done|done]. }
  split.
  - intros ->. rewrite Hfeed by done. unfold start_value.
    rewrite (decide_True (P := length _ = 1)) by done.
    change (field (at_ p b [Object OValue] None [] o).1) with (field p).
    rewrite decide_False by done. reflexivity.
  - intros Hd Hf. apply bool_decide_eq_true in Hd.
    assert (is_digit ch = true) as Hdig by (apply bool_decide_eq_true; lia).
    destruct (digit_facts ch) as (_ & H2 & H3 & H4 & H5); [by left|].
    rewrite Hfeed by done. unfold start_value.
    rewrite (decide_True (P := length _ = 1)) by done.
    change (field (at_ p b [Object OValue] None [] o).1) with (field p).
    rewrite decide_False by done.
    change (stack (at_ p b [Object OValue] None [] o).1) with [Object OValue]. cbv iota zeta.
    rewrite decide_False by tauto. rewrite decide_False by done. rewrite decide_True by auto.
    rewrite (decide_False (P := ch = MINUS)) by (unfold MINUS; lia).
    rewrite (decide_False (P := ch = 48%N)) by lia. by rewrite decide_False by done.
Qed.

Lemma shown_string_closed f st :
  ready st.1 → stack st.1 = [Object OCommaOrEnd] →
  feed_char reserve DQUOTE (opened (CField f) ENone st) = Some st.
Proof using Type.
  intros [Ht Hi] Hs. destruct st as [[] b]. simpl in *. subst. reflexivity.
Qed.

Lemma at_eta st : at_ st.1 st.2 (stack st.1) (token st.1) (key st.1) (key_overflow st.1) = st.
Proof using Type. by destruct st as [[] ?]. Qed.

Lemma live_kept p p' : kept p p' → live p → live p'.
Proof using Type. unfold kept, live. intros ? ?. destruct_and!. split_and!; congruence. Qed.

(** The facts a member leaves for the next. *)
Definition next_state (others : N) (ps : list Payload) (p p' : PreviewParser) (b' : N) : Prop :=
  live p' ∧ is_write p' = is_write p ∧ is_read p' = is_read p ∧ MemInv others (p', b') ∧ Shows granting others ps p'.

Lemma MemInv_at others p b stk tok k o : MemInv others (p, b) → MemInv others (at_ p b stk tok k o).
Proof using Type. by apply (MemInv_same others (p, b)). Qed.

Lemma text_member_end others body d r ps p b o :
  live p → MemInv others (p, b) → Shows granting others ps p →
  payload_field (text_payload body d) ∉ payload_field <$> ps → string_body d r →
  let p0 := keyed (payload_field (text_payload body d)) p in
  ∃ p' b', next_state others (ps ++ [text_payload body d]) p p' b' ∧
    member_end (quoted r) (at_ p0 b [Object OValue] None [] o) p' b'.
Proof using reserve_enough.
  intros Hl HM Hsh Hnew Hb p0. set (f := payload_field (text_payload body d)) in *.
  assert (field_body f = Some body) as Hf by by destruct body.
  set (q := set_token None (set_stack [Object OCommaOrEnd] (set_key [] o p0))).
  assert (Shows granting others ps (set_token None (set_stack [Object OCommaOrEnd] (set_key [] o p)))) as Hsh1 by by apply Shows_at.
  destruct (text_starts others f body q b Hf) as (p1 & b1 & buf & Hstart & HM1 & Hbuf & Hnil & Hslack & Hheld & Hts).
  { by apply (MemInv_same others (p, b)). }
  { intros buf Hbuf. destruct body; simpl in Hbuf.
    - destruct (shows_no_content _ _ _ _ Hsh Hnew). congruence.
    - destruct (shows_no_path _ _ _ _ Hsh Hnew) as [_ Hp]. by apply Hp. }
  { intros ->. by destruct (shows_no_content _ _ _ _ Hsh Hnew). }
  assert (cut_of body p1 = false) as Hcut.
  { destruct Hts as (_ & -> & _). destruct body; [apply (shows_no_content _ _ _ _ Hsh Hnew)|apply (shows_no_path _ _ _ _ Hsh Hnew)]. }
  destruct (text_captured others f body d (p1, b1) buf Hf HM1 Hbuf Hcut)
    as (st2 & buf2 & Hcap & HM2 & Hk2 & Hbuf2 & Hpre & Hall & Hgr).
  rewrite Hnil, app_nil_l in Hpre, Hall. rewrite Hnil in Hgr.
  assert (buffer (negb body) st2.1 = buffer (negb body) p1) as Hother by (destruct body; apply Hk2).
  assert (kept q st2.1) as Hkept by (etrans; [apply Hts|apply Hk2]).
  assert (ready p1) as Hr1 by (eapply ready_kept; [apply Hts|split; [done|apply Hl]]).
  exists st2.1, st2.2. split.
  - split_and!; [by eapply live_kept; [exact Hkept|]|by apply Hkept|by apply Hkept|by destruct st2|].
    eapply Shows_text; [exact Hsh1|done|exact Hts|exact Hk2| |].
    + exists buf2. split_and!; [done..|]. intros Hg. destruct (Hgr Hg) as (_ & Hs & Hc). split; [tauto|].
      rewrite Hother. exact Hc.
    + intros Hg. destruct (Hgr Hg) as (Hle & _). rewrite Hbuf2. cbn [held]. etrans; [|exact Hle]. by destruct body.
  - exists st2.1, None, (key st2.1), (key_overflow st2.1).
    assert (stack st2.1 = [Object OCommaOrEnd] ∧ token st2.1 = None) as [Hst Htok] by (split; by apply Hkept).
    pose proof (at_eta st2) as Heta. rewrite Hst, Htok in Heta.
    split; [|intros ch _; by rewrite feed_structural by (eapply live_kept; [exact Hkept|done])].
    rewrite Heta. eapply runs_cons.
    { destruct (shown_value_starts p0 b o DQUOTE) as [H _]; [done|done| |].
      - intros [[_ ?]|[[Hn|Hn] _]]; [done|by destruct body..].
      - rewrite H by done. exact Hstart. }
    eapply runs_app; [eapply string_runs; [exact Hb|exact Hr1|exact Hcap]|].
    apply runs_one, shown_string_closed; [|done]. eapply ready_kept; [apply Hk2|done].
Qed.

Lemma number_member_end others off v raw ps p b o :
  live p → MemInv others (p, b) → Shows granting others ps p →
  payload_field (number_payload off v) ∉ payload_field <$> ps → positive raw v →
  let p0 := keyed (payload_field (number_payload off v)) p in
  ∃ p', next_state others (ps ++ [number_payload off v]) p p' b ∧
    member_end raw (at_ p0 b [Object OValue] None [] o) p' b.
Proof using Type.
  intros Hl HM Hsh Hnew (d & ds & -> & Hd & Hds & Hlen & Hparse & Hpos) p0.
  set (f := payload_field (number_payload off v)) in *.
  assert (f ≠ FIgnore) as Hf by by destruct off.
  exists (set_number off v p0). split.
  - split_and!; [by destruct off|by destruct off..| |by apply Shows_number].
    apply (MemInv_same others (p, b)); [done|by destruct off..|done].
  - exists p0, (Some (TNumber Integer f (d :: ds))), [], o. split.
    + eapply runs_cons.
      { destruct (shown_value_starts p0 b o d) as [_ H]; [done| | |].
        - apply digit_facts. left. apply bool_decide_eq_true in Hd. apply bool_decide_eq_true. lia.
        - apply bool_decide_eq_true in Hd.
          intros [[[Hn|Hn] _]|[_ [Hn _]]]; [by destruct off..|].
          apply bool_decide_eq_false in Hn. lia.
        - by apply H. }
      pose proof (number_token_runs reserve p0 b [Object OCommaOrEnd] [] o f ds Integer Integer [d]) as Hr.
      rewrite decide_False in Hr by done. apply Hr; [done|by apply digits_run; [|left]|].
      intros _. revert Hlen. rewrite !str_len_cons, str_len_nil. lia.
    + intros ch Hch. rewrite feed_at by done. cbn [token_char]. rewrite number_next_delimiter by done.
      replace (number_complete Integer && _) with true.
      2: { symmetry. cbn [number_complete andb]. apply orb_true_iff.
           destruct Hch as [H|H]; [by left|right]. apply bool_decide_eq_true. rewrite !elem_of_cons. tauto. }
      unfold finish_number. rewrite decide_False, Hparse, decide_True by done.
      cbn [orb]. destruct Hl as (Hs & Hdn & Hi).
      destruct off;
        (match goal with |- context [if invalid ?q then _ else _] => change (invalid q) with (invalid p) end);
        by rewrite Hi.
Qed.

Lemma member_end_app l s st st' p' b' :
  feeds reserve l st st' → member_end s st' p' b' → member_end (l ++ s) st p' b'.
Proof using Type.
  intros Hl (p & tok & k & o & Hr & Hd). exists p, tok, k, o. split; [by eapply runs_app|done].
Qed.

Lemma member_step others wr rd n pl m ps p b k o o' :
  member wr rd n pl m → S n <= MAX_DEPTH → live p → is_write p = wr → is_read p = rd →
  MemInv others (p, b) → Shows granting others ps p → NoDup (payload_field <$> ps ++ option_list pl) →
  o' = OKeyOrEnd ∨ o' = OKey →
  ∃ p' b', next_state others (ps ++ option_list pl) p p' b' ∧
    member_end m (at_ p b [Object o'] None k o) p' b'.
Proof using reserve_enough.
  intros (w1 & d & r & w2 & w3 & v & -> & H1 & H2 & H3 & Hb & Hpl) Hn Hl Hw Hrd HM Hsh Hnd Ho.
  assert (∀ f, f = field_of (is_write p) (is_read p) d → N.land (seen p) (bit f) = 0%N →
    ∃ o2, ∀ p' b', member_end v (at_ (keyed f p) b [Object OValue] None [] o2) p' b' →
      member_end (w1 ++ quoted r ++ w2 ++ COLON :: w3 ++ v) (at_ p b [Object o'] None k o) p' b') as Hkey.
  { intros f -> Hs. destruct (shown_key_runs d r w1 w2 w3 p b o' k o) as (o2 & Hkey); [done..|].
    exists o2. intros p' b' (q & tok & k' & o3 & Hr & Hd). exists q, tok, k', o3. split; [|done]. by apply Hkey. }
  rewrite <- Hw, <- Hrd in Hpl. destruct pl as [pl|]; cbn [option_list] in *.
  - destruct Hpl as [Hfield Ht].
    assert (payload_field pl ∉ payload_field <$> ps) as Hnew.
    { rewrite fmap_app, NoDup_app in Hnd. destruct Hnd as (_ & Hnd & _). intros Hin.
      by apply (Hnd _ Hin), list_elem_of_singleton. }
    destruct (Hkey (payload_field pl)) as (o2 & Hend); [done|by apply Hsh; [destruct pl|]|].
    destruct Ht as [d' r' Hb'|d' r' Hb'|raw v Hpos|raw v Hpos].
    + destruct (text_member_end others false d' r' ps p b o2) as (p' & b' & Hnext & Hm); [done..|].
      exists p', b'. split; [exact Hnext|by apply Hend].
    + destruct (text_member_end others true d' r' ps p b o2) as (p' & b' & Hnext & Hm); [done..|].
      exists p', b'. split; [exact Hnext|by apply Hend].
    + destruct (number_member_end others true v raw ps p b o2) as (p' & Hnext & Hm); [done..|].
      exists p', b. split; [exact Hnext|by apply Hend].
    + destruct (number_member_end others false v raw ps p b o2) as (p' & Hnext & Hm); [done..|].
      exists p', b. split; [exact Hnext|by apply Hend].
  - destruct Hpl as [Hfield Hv]. rewrite app_nil_r in *.
    destruct (Hkey FIgnore) as (o2 & Hend); [done|apply N.land_0_r|].
    exists (keyed FIgnore p), b. split.
    + split_and!; [done..|by apply (MemInv_same others (p, b))|by apply Shows_ignored].
    + by apply Hend, (ignored_member_end n).
Qed.

Lemma next_state_trans others ps qs p1 p2 p3 b2 b3 :
  next_state others ps p1 p2 b2 → next_state others qs p2 p3 b3 → next_state others qs p1 p3 b3.
Proof using Type.
  intros (_ & Hw & Hr & _) (H1 & H2 & H3 & H4 & H5). split_and!; [done|congruence|congruence|done|done].
Qed.

Lemma member_end_ws m w st p' b' :
  live p' → member_end m st p' b' → ws w → member_end (m ++ w) st p' b'.
Proof using Type.
  intros Hl (p & tok & k & o & Hr & Hd) Hw. destruct w as [|c w]; [rewrite app_nil_r; by exists p, tok, k, o|].
  apply andb_true_iff in Hw as [Hc Hw]. exists p', None, k, o.
  split; [|intros; by apply feed_structural]. eapply runs_app; [exact Hr|].
  eapply runs_cons; [rewrite Hd by (by left); unfold structural; by rewrite Hc|]. by apply runs_ws.
Qed.

Lemma members_run others wr rd n qs s :
  shown_members wr rd n qs s → S n <= MAX_DEPTH → ∀ ps p b k o o',
  live p → is_write p = wr → is_read p = rd → MemInv others (p, b) → Shows granting others ps p →
  NoDup (payload_field <$> ps ++ qs) → o' = OKeyOrEnd ∨ o' = OKey →
  ∃ p' b', next_state others (ps ++ qs) p p' b' ∧ member_end s (at_ p b [Object o'] None k o) p' b'.
Proof using reserve_enough.
  intros Hs Hn. induction Hs as [pl m w Hm Hw|pl m w qs s Hm Hw _ IH];
    intros ps p b k o o' Hl Hwr Hrd HM Hsh Hnd Ho.
  - destruct (member_step others wr rd n pl m ps p b k o o') as (p' & b' & Hnext & Hend); [done..|].
    exists p', b'. split; [done|]. apply member_end_ws; [apply Hnext|done|done].
  - rewrite app_assoc in Hnd.
    destruct (member_step others wr rd n pl m ps p b k o o') as (p1 & b1 & Hnext & Hend); [done..| |done|].
    { rewrite fmap_app, NoDup_app in Hnd. apply Hnd. }
    pose proof Hnext as (Hl1 & Hw1 & Hr1 & HM1 & Hs1).
    destruct (member_end_ws _ w _ _ _ Hl1 Hend Hw) as (q & tok & k1 & o1 & Hr & Hd).
    destruct (IH (ps ++ option_list pl) p1 b1 k1 o1 OKey) as (p2 & b2 & Hnext2 & Hend2);
      [done|congruence|congruence|done|done|done|by right|].
    exists p2, b2. rewrite <- app_assoc in Hnext2. split; [by eapply next_state_trans|].
    rewrite app_assoc. eapply member_end_app; [exact Hr|].
    change (COMMA :: s) with ([COMMA] ++ s). eapply member_end_app; [|exact Hend2].
    apply runs_one. rewrite Hd by (by right; left). by apply comma_step; [|left].
Qed.

Lemma idle_ws w st : invalid st.1 = false → token st.1 = None → ws w → runs w st st.
Proof using Type.
  intros Hi Ht. induction w as [|c w IH]; intros Hw; [apply runs_nil|].
  apply andb_true_iff in Hw as [Hc Hw]. eapply runs_cons; [|by apply IH].
  unfold feed_char. rewrite Hi, Ht. unfold structural. by rewrite Hc.
Qed.

(** The outermost object closes. *)
Lemma outermost_closes p b o' k o :
  live p → o' = OKeyOrEnd ∨ o' = OCommaOrEnd →
  structural reserve RBRACE (at_ p b [Object o'] None k o) =
  Some (set_done (set_token None (set_stack [] (set_key k o p))), b).
Proof using Type. intros (Hs & Hd & Hi) [-> | ->]; unfold structural; cbn; by rewrite Hs, Hd. Qed.

(** The budgets hold the texts of the call whole: 512 bytes for its path beside a body
    of half of what is left. *)
Definition roomy (others : N) (ps : list Payload) : Prop :=
  (others + MAX_DETAIL_BYTES <= MAX_STREAM_BYTES)%N ∧
  (∀ d, PPath d ∈ ps → (str_len (sanitize_display_text d false) <= MAX_DETAIL_BYTES)%N) ∧
  ∀ d, PContent d ∈ ps → let body := N.max 32 (2 * str_len (sanitize_display_text d true)) in
    (MAX_DETAIL_BYTES + body <= MAX_CALL_BYTES ∧ others + MAX_DETAIL_BYTES + body <= MAX_STREAM_BYTES)%N.

Lemma payload_elem (ps : list Payload) f :
  f ≠ FIgnore → f ∈ payload_field <$> ps → ∃ pl, pl ∈ ps ∧ payload_field pl = f.
Proof using Type. intros _ (pl & -> & Hpl)%list_elem_of_fmap. by exists pl. Qed.

Lemma prefix_len s t : s `prefix_of` t → (str_len s <= str_len t)%N.
Proof using Type. intros [k ->]. rewrite str_len_app. lia. Qed.

(** A cut text had more than the room left for it. *)
Lemma cut_exceeds body others other d shown :
  cut_at_room body others other d shown → (room body others other < str_len (sanitize_display_text d body))%N.
Proof using Type.
  intros (d1 & ch & d2 & -> & _ & Hr). rewrite sanitize_app in Hr |- *. rewrite !str_len_app in *.
  rewrite sanitize_cons, str_len_app in Hr. rewrite sanitize_cons, str_len_app. simpl in Hr. lia.
Qed.

(** Within the budgets nothing is cut. *)
Lemma roomy_whole others ps st :
  granting → roomy others ps → MemInv others st → Shows granting others ps st.1 →
  path_cut st.1 = false ∧ body_cut st.1 = false.
Proof using Type.
  intros Hg (Hall & Hpath & Hbody) HM Hsh. split.
  - destruct (path_cut st.1) eqn:Ec; [|done]. destruct (decide (FPath ∈ payload_field <$> ps)) as [Hin|Hno].
    2:{ destruct (shows_no_path _ _ _ _ Hsh Hno). congruence. }
    apply payload_elem in Hin as ([d| | |] & Hd & Hf); try done.
    destruct (shows_path _ _ _ _ Hsh d Hd) as (buf & _ & _ & _ & Hcut). destruct (Hcut Hg) as [_ Hc].
    apply Hc, cut_exceeds in Ec. specialize (Hpath d Hd). unfold room in Ec.
    destruct (decide (FContent ∈ payload_field <$> ps)) as [Hin|Hno].
    + apply payload_elem in Hin as ([|d'| |] & Hd' & Hf'); try done.
      destruct (shows_content _ _ _ _ Hsh d' Hd') as (buf' & Hb' & Hpre & _ & Hs). destruct (Hs Hg) as [Hs' _].
      rewrite Hb' in Ec. cbn [held] in Ec. apply prefix_len in Hpre. specialize (Hbody d' Hd'). unfold slack in Hs'.
      cbv zeta in Hbody. lia.
    + destruct (shows_no_content _ _ _ _ Hsh Hno) as [_ Hn]. rewrite Hn in Ec. cbn [held] in Ec.
      unfold MAX_DETAIL_BYTES, MAX_CALL_BYTES in *. lia.
  - destruct (body_cut st.1) eqn:Ec; [|done]. destruct (decide (FContent ∈ payload_field <$> ps)) as [Hin|Hno].
    2:{ destruct (shows_no_content _ _ _ _ Hsh Hno). congruence. }
    apply payload_elem in Hin as ([|d| |] & Hd & Hf); try done.
    destruct (shows_content _ _ _ _ Hsh d Hd) as (buf & _ & _ & _ & Hcut). destruct (Hcut Hg) as [_ Hc].
    apply Hc, cut_exceeds in Ec. specialize (Hbody d Hd). cbv zeta in Hbody. unfold room in Ec.
    pose proof (mem_detail _ _ HM). lia.
Qed.

End capture.

(** ** A write call *)

(** An allocator that grants what is asked for. *)
Definition exact_reserve (c w : N) : option N := Some w.

Definition sample_arguments : str :=
  lit "{ " ++ quoted (lit "content") ++ lit ":" ++ quoted (lit "a\n\u00e9") ++
  lit ", " ++ quoted (lit "x") ++ lit ":[1,{}]," ++ quoted (lit "path") ++ lit " :" ++ quoted (lit "p/q") ++ lit "}".

Lemma sample_is_arguments :
  arguments true false [PContent (lit "a" ++ [LF; 233%N]); PPath (lit "p/q")] sample_arguments.
Proof.
  assert (∀ c d r, (32 <= c)%N → c ≠ DQUOTE → c ≠ BACKSLASH → string_body d r →
    string_body (c :: d) (c :: r)) as Hc by (intros; by constructor).
  exists [], (lit " " ++ quoted (lit "content") ++ lit ":" ++ quoted (lit "a\n\u00e9") ++
    lit ", " ++ quoted (lit "x") ++ lit ":[1,{}]," ++ quoted (lit "path") ++ lit " :" ++ quoted (lit "p/q")), [].
  split_and!; [vm_compute; reflexivity|done|done|by_compute|left].
  apply (sm_cons true false 63 (Some (PContent (lit "a" ++ [LF; 233%N])))
    (lit " " ++ quoted (lit "content") ++ lit ":" ++ quoted (lit "a\n\u00e9")) [] [PPath (lit "p/q")]
    (lit " " ++ quoted (lit "x") ++ lit ":[1,{}]," ++ quoted (lit "path") ++ lit " :" ++ quoted (lit "p/q"))).
  { exists (lit " "), (lit "content"), (lit "content"), [], [], (quoted (lit "a\n\u00e9")).
    split_and!; [done..|repeat (apply Hc; [done..|]); constructor|done|]. constructor.
    apply Hc; [done..|]. eapply (sb_escape 110%N LF); [done|].
    eapply (sb_unicode (lit "00e9") 233%N [] []); [|lia|constructor].
    by exists 48%N, 48%N, 101%N, 57%N, 0%N, 0%N, 14%N, 9%N. }
  { done. }
  apply (sm_cons true false 63 None (lit " " ++ quoted (lit "x") ++ lit ":[1,{}]") [] [PPath (lit "p/q")]
    (quoted (lit "path") ++ lit " :" ++ quoted (lit "p/q"))).
  { exists (lit " "), (lit "x"), (lit "x"), [], [], (lit "[1,{}]").
    split_and!; [done..|repeat (apply Hc; [done..|]); constructor|done|].
    apply (v_array 62 (lit "1,{}")). apply (e_cons 62 [] (lit "1") [] (lit "{}")); [done| |done|].
    - apply v_number. exists [], (lit "1"), [], []. split_and!; [done|by left| |by left|by left].
      right. by exists 49%N, [].
    - apply (e_one 62 [] (lit "{}") []); [done| |done]. by apply (v_object0 61 []). }
  { done. }
  apply (sm_one true false 63 (Some (PPath (lit "p/q"))) (quoted (lit "path") ++ lit " :" ++ quoted (lit "p/q")) []);
    [|done].
  exists [], (lit "path"), (lit "path"), (lit " "), [], (quoted (lit "p/q")).
  split_and!; [done..|repeat (apply Hc; [done..|]); constructor|done|]. constructor.
  repeat (apply Hc; [done..|]); constructor.
Qed.

Lemma sample_is_roomy : roomy 0 [PContent (lit "a" ++ [LF; 233%N]); PPath (lit "p/q")].
Proof.
  split; [by vm_compute|]. split.
  - intros d Hd. apply elem_of_cons in Hd as [Hd|Hd]; [discriminate Hd|].
    apply list_elem_of_singleton in Hd. injection Hd as ->. by vm_compute.
  - intros d Hd. apply elem_of_cons in Hd as [Hd|Hd]; [injection Hd as ->; by vm_compute|].
    apply list_elem_of_singleton in Hd. discriminate Hd.
Qed.

