(* ===== verification/PreviewObserver.v ===== *)
(** The observer of a model stream, [presentation/preview.rs].

    It keeps one parser per tool call, all charged to the same budget, and sends
    numbered snapshots.  The clock only decides whether a snapshot is due; that and
    the allocator are arguments.  A panic is caught and discards the observer. *)

From S2P Require Import Prelude RustStr Preview PreviewJson PreviewShown.

(** What the stream yields, as far as the observer looks at it. *)
Inductive ModelItem :=
  | ToolCallStart (id name : str)
  | ToolCallArgumentsDelta (id delta : str)
  | ToolCallEnd (id : str)
  | Finish
  | OtherEvent
  | ItemError.

#[global] Instance ModelItem_eq_dec : EqDecision ModelItem.
Proof. solve_decision. Defined.

Inductive PreviewStateTag := Generating | Generated | Discarded.
#[global] Instance PreviewStateTag_eq_dec : EqDecision PreviewStateTag.
Proof. solve_decision. Defined.

Record PreviewCall := mkCall {
  call_id : str; call_name : str; parser : PreviewParser; ended : bool; revision : N;
  emitted_change : N; first_path_sent : bool
}.

Record ToolDisplay := mkDisplay {
  detail : str; expanded_input : option str; input_line_count : option N;
  hidden_line_count : option N; display_truncated : bool; body_truncated : bool
}.

Record PreviewEvent := mkEvent {
  event_id : str; event_revision : N; event_state : PreviewStateTag; event_partial : bool;
  event_display : ToolDisplay
}.

(** [sent] is what was offered to the events of the session. *)
Record Observer := mkObserver {
  attempt : option N; calls : list PreviewCall; retained_bytes : N; last_update : bool;
  saw_finish : bool; normal_eof : bool; discarded : bool; sent : list PreviewEvent
}.

Definition Observer_new (a : option N) : Observer := mkObserver a [] 0 false false false false [].

(** ** Displays *)

Definition truncate (text : str) (max_bytes : N) : str * bool :=
  let prefix := (split_floor max_bytes text).1 in (prefix, bool_decide (str_len prefix < str_len text)%N).
Definition count_lines (text : str) : N :=
  match text with [] => 0 | _ => lenN (filter (λ c, c = LF) text) + 1 end.
Definition single_line (value : str) (max : N) : str * bool :=
  truncate (sanitize_display_text value false) max.

Definition format_read_range (offset_value limit_value : option N) : str :=
  match offset_value, limit_value with
  | None, None => []
  | _, _ =>
      let offset := default 1%N offset_value in
      match limit_value with
      | Some limit =>
          if decide (0 < limit)%N
          then lit ":" ++ show_N offset ++ lit "-" ++ show_N (saturating_add offset limit - 1)
          else lit ":" ++ show_N offset
      | None => lit ":" ++ show_N offset
      end
  end.

Definition display (p : PreviewParser) : ToolDisplay :=
  let source := match path p with
                | Some buf => if decide (text buf = []) then lit "..." else text buf
                | None => lit "..."
                end ++ format_read_range (offset p) (limit p) in
  let '(detail, detail_cut) := single_line source MAX_DETAIL_BYTES in
  let rows := count_lines ∘ text <$> content p in
  mkDisplay detail (text <$> content p) rows
    (match rows with Some count => if decide (0 < count)%N then Some count else None | None => None end)
    (truncated p || detail_cut) (body_cut p).

Definition empty_display : ToolDisplay := mkDisplay (lit "...") None None None false false.

(** ** Handlers *)

Definition with_calls (cs : list PreviewCall) (o : Observer) : Observer :=
  mkObserver (attempt o) cs (retained_bytes o) (last_update o) (saw_finish o) (normal_eof o)
    (discarded o) (sent o).

Definition emit (index : nat) (state : PreviewStateTag) (o : Observer) : option Observer :=
  call ← calls o !! index;
  let call := mkCall (call_id call) (call_name call) (parser call) (ended call) (revision call + 1)
                (changes (parser call)) (first_path_sent call) in
  let '(shown, partial) :=
    if decide (state = Discarded) then (empty_display, true)
    else (display (parser call),
          invalid (parser call) || truncated (parser call) ||
          (ended call && negb (complete (parser call)))) in
  Some (mkObserver (attempt o) (<[index := call]> (calls o)) (retained_bytes o) true (saw_finish o)
          (normal_eof o) (discarded o)
          (sent o ++ [mkEvent (call_id call) (revision call) state partial shown])).

Fixpoint emit_all (indices : list nat) (state : PreviewStateTag) (o : Observer) : option Observer :=
  match indices with
  | [] => Some o
  | i :: indices => o ← emit i state o; emit_all indices state o
  end.

Definition discard (o : Observer) : option Observer :=
  if discarded o then Some o else
  emit_all (seq 0 (length (calls o))) Discarded
    (mkObserver (attempt o) (calls o) (retained_bytes o) (last_update o) (saw_finish o) (normal_eof o)
       true (sent o)).

Definition eof (o : Observer) : option Observer :=
  if normal_eof o then Some o else
  if saw_finish o && negb (discarded o)
  then Some (mkObserver (attempt o) (calls o) (retained_bytes o) (last_update o) (saw_finish o) true
               (discarded o) (sent o))
  else discard o.

Fixpoint call_index (i : str) (cs : list PreviewCall) : option nat :=
  match cs with
  | [] => None
  | c :: cs => if decide (call_id c = i) then Some 0 else S <$> call_index i cs
  end.

Definition previewed (name : str) : Prop := name = lit "read" ∨ name = lit "write" ∨ name = lit "edit".
#[global] Instance previewed_dec name : Decision (previewed name).
Proof. unfold previewed. apply _. Defined.

Section observer.
(** The allocator, and whether the time since the last update is long enough for the
    bytes a call shows. *)
Context (reserve : N → N → option N) (elapsed : PreviewParser → bool).

Definition observe (item : ModelItem) (o : Observer) : option Observer :=
  if decide (attempt o = None ∨ discarded o = true) then Some o else
  if decide (saw_finish o = true ∨ item = ItemError) then discard o else
  match item with
  | ToolCallStart i name =>
      match call_index i (calls o) with
      | Some _ => discard o
      | None =>
          if decide (¬ previewed name ∨ (MAX_CALLS <= length (calls o))%nat) then Some o else
          let o := with_calls (calls o ++ [mkCall i name (PreviewParser_new name) false 0 0 false]) o in
          emit (length (calls o) - 1) Generating o
      end
  | ToolCallArgumentsDelta i delta =>
      match call_index i (calls o) with
      | None => Some o
      | Some index =>
          call ← calls o !! index;
          if ended call then discard o else
          '(p, bytes) ← feed reserve delta (parser call, retained_bytes o);
          let first_path := negb (first_path_sent call) &&
            match path p with Some buf => bool_decide (text buf ≠ []) | None => false end in
          let due := negb (last_update o) || elapsed p in
          let sending := first_path || (due && bool_decide (changes p ≠ emitted_change call)) in
          let call := mkCall (call_id call) (call_name call) p (ended call) (revision call)
                        (emitted_change call)
                        (if sending then first_path_sent call || first_path else first_path_sent call) in
          let o := mkObserver (attempt o) (<[index := call]> (calls o)) bytes (last_update o)
                     (saw_finish o) (normal_eof o) (discarded o) (sent o) in
          if sending then emit index Generating o else Some o
      end
  | ToolCallEnd i =>
      match call_index i (calls o) with
      | None => Some o
      | Some index =>
          call ← calls o !! index;
          if ended call then discard o else
          let call := mkCall (call_id call) (call_name call) (parser call) true (revision call)
                        (emitted_change call) (first_path_sent call) in
          emit index Generated (with_calls (<[index := call]> (calls o)) o)
      end
  | Finish => Some (mkObserver (attempt o) (calls o) (retained_bytes o) (last_update o) true
                      (normal_eof o) (discarded o) (sent o))
  | _ => Some o
  end.
End observer.

(** [protect]: a panic discards the observer and drops its memory. *)
Definition protect (update : Observer → option Observer) (o : Observer) : Observer :=
  if discarded o then o else
  match update o with
  | Some o => o
  | None => mkObserver (attempt o) [] 0 (last_update o) (saw_finish o) (normal_eof o) true (sent o)
  end.

(** What drives an observer: items, the end of the stream and its drop, in any order. *)
Inductive Signal := Item (item : ModelItem) (elapsed : PreviewParser → bool) | Eof | Dropped.

Definition on_signal (reserve : N → N → option N) (s : Signal) (o : Observer) : Observer :=
  match s with
  | Item item elapsed => protect (observe reserve elapsed item) o
  | Eof => protect eof o
  | Dropped => if normal_eof o then o else protect discard o
  end.

(** ** The invariant *)

(** The part of a parser's invariant that does not mention the other calls. *)
Definition LocalInv (p : PreviewParser) : Prop :=
  retained p = (held (path p) + held (content p))%N ∧ (retained p <= MAX_CALL_BYTES)%N ∧
  fits (path p) ∧ fits (content p) ∧ (held (path p) <= MAX_DETAIL_BYTES)%N ∧ ShapeInv p.

Lemma PInv_local others p b :
  PInv others (p, b) ↔ LocalInv p ∧ b = (retained p + others)%N ∧ (b <= MAX_STREAM_BYTES)%N.
Proof.
  split.
  - intros [[] ?]. unfold LocalInv. by split_and!.
  - intros ((H1 & H2 & H3 & H4 & H5 & H6) & H7 & H8). split; [by split|done].
Qed.

Definition total (cs : list PreviewCall) : N := foldr N.add 0%N ((λ c, retained (parser c)) <$> cs).

Record MemoryInv (o : Observer) : Prop := mkMemory {
  memory_calls : length (calls o) <= MAX_CALLS;
  memory_ids : NoDup (call_id <$> calls o);
  memory_total : retained_bytes o = total (calls o);
  memory_bound : (retained_bytes o <= MAX_STREAM_BYTES)%N;
  memory_parsers : Forall (λ c, LocalInv (parser c)) (calls o)
}.

Definition events_of (i : str) (es : list PreviewEvent) : list PreviewEvent :=
  filter (λ e, event_id e = i) es.

(** 1, 2, ..., n. *)
Definition numbered (n : N) : list N := N.of_nat <$> seq 1 (N.to_nat n).

Record EventInv (o : Observer) : Prop := mkEvents {
  events_numbered : ∀ c, c ∈ calls o →
    event_revision <$> events_of (call_id c) (sent o) = numbered (revision c);
  events_known : ∀ e, e ∈ sent o → event_id e ∈ call_id <$> calls o;
  events_discard : ∀ e, e ∈ sent o → event_state e = Discarded → discarded o = true
}.

(** After a discard the last event of every call says so. *)
Definition all_discarded (o : Observer) : Prop :=
  ∀ c, c ∈ calls o → event_state <$> last (events_of (call_id c) (sent o)) = Some Discarded.

Definition ObsInv (o : Observer) : Prop :=
  MemoryInv o ∧ EventInv o ∧ (discarded o = true → all_discarded o).

Lemma total_split cs k c : cs !! k = Some c → total cs = (retained (parser c) + total (delete k cs))%N.
Proof.
  revert k. induction cs as [|x cs IH]; intros k Hk; [done|]. destruct k as [|k].
  - injection Hk as ->. reflexivity.
  - specialize (IH k Hk). change (total (x :: cs)) with (retained (parser x) + total cs)%N.
    change (total (delete (S k) (x :: cs))) with (retained (parser x) + total (delete k cs))%N. lia.
Qed.

Lemma total_insert cs k c x :
  cs !! k = Some c → total (<[k := x]> cs) = (retained (parser x) + total (delete k cs))%N.
Proof.
  intros Hk. assert (k < length cs) as Hl by by eapply lookup_lt_Some.
  rewrite (total_split _ k x) by by apply list_lookup_insert_eq.
  do 2 f_equal. clear Hl. revert k Hk. induction cs as [|y cs IH]; intros [|k] Hk; try done.
  cbn. f_equal. by apply IH.
Qed.

Lemma numbered_succ n : numbered (n + 1) = numbered n ++ [(n + 1)%N].
Proof.
  unfold numbered. replace (N.to_nat (n + 1)) with (N.to_nat n + 1) by lia.
  rewrite seq_app, fmap_app. cbn [seq fmap list_fmap]. do 2 f_equal. lia.
Qed.

Lemma events_of_app i es fs : events_of i (es ++ fs) = events_of i es ++ events_of i fs.
Proof. apply filter_app. Qed.
Lemma events_of_one i e : events_of i [e] = if decide (event_id e = i) then [e] else [].
Proof. unfold events_of. rewrite filter_cons. by case_decide. Qed.

Lemma ids_insert (cs : list PreviewCall) k c x : cs !! k = Some c → call_id x = call_id c → call_id <$> <[k := x]> cs = call_id <$> cs.
Proof.
  intros Hk Hid. rewrite list_fmap_insert, Hid. apply list_insert_id. by rewrite list_lookup_fmap, Hk.
Qed.

Lemma same_id (cs : list PreviewCall) k c x : NoDup (call_id <$> cs) → cs !! k = Some c → x ∈ cs → call_id x = call_id c → x = c.
Proof.
  intros Hnd Hk [j Hj]%list_elem_of_lookup_1 Hid.
  assert (j = k) as ->; [|congruence].
  eapply (NoDup_lookup (call_id <$> cs)); [done|by rewrite list_lookup_fmap, Hj|].
  rewrite list_lookup_fmap, Hk. simpl. by rewrite Hid.
Qed.

(** Changing one call without its id. *)
Lemma MemoryInv_call o k c x b l s :
  MemoryInv o → calls o !! k = Some c → call_id x = call_id c → LocalInv (parser x) →
  (b + retained (parser c) = retained_bytes o + retained (parser x))%N → (b <= MAX_STREAM_BYTES)%N →
  MemoryInv (mkObserver (attempt o) (<[k := x]> (calls o)) b l (saw_finish o) (normal_eof o) (discarded o) s).
Proof.
  intros [H1 H2 H3 H4 H5] Hk Hid Hx Hb Hmax. split; simpl.
  - by rewrite length_insert.
  - by rewrite (ids_insert _ _ _ _ Hk Hid).
  - rewrite (total_insert _ _ _ _ Hk). rewrite (total_split _ _ _ Hk) in H3. lia.
  - done.
  - by apply Forall_insert.
Qed.

(** *** Sending *)

Definition bumped (c : PreviewCall) : PreviewCall :=
  mkCall (call_id c) (call_name c) (parser c) (ended c) (revision c + 1) (changes (parser c))
    (first_path_sent c).

Lemma emit_spec k state o c :
  calls o !! k = Some c →
  ∃ e, emit k state o = Some (mkObserver (attempt o) (<[k := bumped c]> (calls o)) (retained_bytes o) true
      (saw_finish o) (normal_eof o) (discarded o) (sent o ++ [e])) ∧
    event_id e = call_id c ∧ event_revision e = (revision c + 1)%N ∧ event_state e = state.
Proof.
  intros Hk. unfold emit. rewrite Hk. cbn [mbind option_bind].
  case_decide; eexists; by split_and!.
Qed.

(** Sending one snapshot of the call at [k], whose data became [x]'s. *)
Lemma EventInv_emit o k c x b e l :
  MemoryInv o → EventInv o → calls o !! k = Some c → call_id x = call_id c → revision x = revision c →
  event_id e = call_id c → event_revision e = (revision c + 1)%N →
  (event_state e = Discarded → discarded o = true) →
  EventInv (mkObserver (attempt o) (<[k := bumped x]> (calls o)) b l (saw_finish o) (normal_eof o)
    (discarded o) (sent o ++ [e])).
Proof.
  intros HM [Hnum Hknown Hdisc] Hk Hid Hrev He Her Hes.
  assert (call_id <$> <[k := bumped x]> (calls o) = call_id <$> calls o) as Hids by by apply (ids_insert _ _ c).
  split; simpl.
  - intros c' Hc'. rewrite events_of_app, events_of_one, fmap_app.
    assert (call_id c' = call_id c → c' = bumped x) as Hsame.
    { intros Heq. apply (same_id (<[k := bumped x]> (calls o)) k);
        [by rewrite Hids; apply HM|apply list_lookup_insert_eq; by eapply lookup_lt_Some|done|].
      simpl. congruence. }
    case_decide as Hd.
    + rewrite He in Hd. rewrite (Hsame (eq_sym Hd)). simpl. rewrite Hid, Hrev, Her, numbered_succ.
      f_equal. apply Hnum. by eapply list_elem_of_lookup_2.
    + simpl. rewrite app_nil_r. apply Hnum.
      apply list_elem_of_lookup_1 in Hc' as [j Hj]. destruct (decide (j = k)) as [->|Hjk].
      * rewrite list_lookup_insert_eq in Hj by by eapply lookup_lt_Some.
        injection Hj as <-. simpl in Hd. congruence.
      * rewrite list_lookup_insert_ne in Hj by done. by eapply list_elem_of_lookup_2.
  - intros e' [H| ->%list_elem_of_singleton]%elem_of_app; rewrite Hids; [by apply Hknown|].
    rewrite He. apply list_elem_of_fmap_2. by eapply list_elem_of_lookup_2.
  - intros e' [H| ->%list_elem_of_singleton]%elem_of_app; [by apply Hdisc|done].
Qed.

(** The whole step: the call at [k] becomes [x] and a snapshot is sent. *)
Lemma ObsInv_emit o k c x b state :
  ObsInv o → discarded o = false → calls o !! k = Some c → call_id x = call_id c →
  revision x = revision c → LocalInv (parser x) →
  (b + retained (parser c) = retained_bytes o + retained (parser x))%N → (b <= MAX_STREAM_BYTES)%N →
  state ≠ Discarded →
  ∃ o', emit k state (mkObserver (attempt o) (<[k := x]> (calls o)) b (last_update o) (saw_finish o)
      (normal_eof o) (discarded o) (sent o)) = Some o' ∧ ObsInv o'.
Proof.
  intros (HM & HE & HD) Hdis Hk Hid Hrev Hx Hb Hmax Hst.
  assert (k < length (calls o)) as Hlt by by eapply lookup_lt_Some.
  edestruct (emit_spec k state (mkObserver (attempt o) (<[k := x]> (calls o)) b (last_update o)
    (saw_finish o) (normal_eof o) (discarded o) (sent o)) x) as (e & -> & He & Her & Hes).
  { by apply list_lookup_insert_eq. }
  simpl. rewrite list_insert_insert_eq. eexists. split; [done|]. split_and!.
  - by eapply MemoryInv_call.
  - eapply EventInv_emit; [done..|congruence|congruence|congruence].
  - simpl. congruence.
Qed.

(** *** Discarding *)

Lemma emit_all_discards n k o :
  MemoryInv o → EventInv o → discarded o = true → k + n = length (calls o) →
  (∀ j c, j < k → calls o !! j = Some c →
     event_state <$> last (events_of (call_id c) (sent o)) = Some Discarded) →
  ∃ o', emit_all (seq k n) Discarded o = Some o' ∧ ObsInv o' ∧ discarded o' = true.
Proof.
  revert k o. induction n as [|n IH]; intros k o HM HE Hdis Hlen Hdone.
  - exists o. split_and!; [done|split; [done|split; [done|]]|done]. intros _ c Hc.
    apply list_elem_of_lookup_1 in Hc as [j Hj]. apply (Hdone j); [|done].
    apply lookup_lt_Some in Hj. lia.
  - cbn [seq emit_all]. destruct (lookup_lt_is_Some_2 (calls o) k) as [c Hk]; [lia|].
    destruct (emit_spec k Discarded o c Hk) as (e & -> & He & Her & Hes). cbn [mbind option_bind].
    apply IH; simpl.
    + apply (MemoryInv_call o k c); [done|done|done| |done|apply HM].
      destruct HM as [_ _ _ _ HF]. rewrite Forall_lookup in HF. exact (HF k c Hk).
    + by eapply EventInv_emit.
    + done.
    + rewrite length_insert. lia.
    + intros j c' Hj Hc'. rewrite events_of_app, events_of_one. case_decide as Hd.
      * rewrite last_snoc. simpl. by rewrite Hes.
      * rewrite app_nil_r. destruct (decide (j = k)) as [->|Hjk].
        { rewrite list_lookup_insert_eq in Hc' by lia. injection Hc' as <-. simpl in Hd. congruence. }
        rewrite list_lookup_insert_ne in Hc' by done. apply (Hdone j); [lia|done].
Qed.

Lemma discard_spec o : ObsInv o → ∃ o', discard o = Some o' ∧ ObsInv o' ∧ discarded o' = true.
Proof.
  intros HO. unfold discard. destruct (discarded o) eqn:Hdis; [by exists o|].
  destruct HO as (HM & HE & _).
  apply emit_all_discards; simpl; [|split; simpl|done|done|].
  - by destruct HM.
  - apply HE.
  - apply HE.
  - intros e He Hs. by rewrite (events_discard _ HE e He Hs) in Hdis.
  - intros j c Hj. lia.
Qed.

Lemma eof_spec o : ObsInv o → ∃ o', eof o = Some o' ∧ ObsInv o'.
Proof.
  intros HO. unfold eof. destruct (normal_eof o); [by exists o|].
  destruct (saw_finish o && negb (discarded o)).
  - eexists. split; [done|]. destruct HO as ([] & [] & HD). split; [by split|split; [by split|exact HD]].
  - destruct (discard_spec o HO) as (o' & -> & ? & _). eauto.
Qed.

(** *** Observing *)

Lemma call_index_Some i cs k : call_index i cs = Some k → ∃ c, cs !! k = Some c ∧ call_id c = i.
Proof.
  revert k. induction cs as [|c cs IH]; intros k; [done|]. cbn [call_index]. case_decide as Hc.
  - intros [= <-]. by exists c.
  - destruct (call_index i cs) as [j|]; [|done]. intros [= <-]. by apply IH.
Qed.

Lemma call_index_None i cs : call_index i cs = None → i ∉ call_id <$> cs.
Proof.
  induction cs as [|c cs IH]; [intros _ ?%not_elem_of_nil; done|]. cbn [call_index]. case_decide as Hc; [done|].
  destruct (call_index i cs); [done|]. intros _. cbn. rewrite not_elem_of_cons. split; [done|by apply IH].
Qed.

(** The call at [k] changes, and nothing is sent. *)
Lemma ObsInv_call o k c x b :
  ObsInv o → discarded o = false → calls o !! k = Some c → call_id x = call_id c →
  revision x = revision c → LocalInv (parser x) →
  (b + retained (parser c) = retained_bytes o + retained (parser x))%N → (b <= MAX_STREAM_BYTES)%N →
  ObsInv (mkObserver (attempt o) (<[k := x]> (calls o)) b (last_update o) (saw_finish o)
      (normal_eof o) (discarded o) (sent o)).
Proof.
  intros (HM & HE & HD) Hdis Hk Hid Hrev Hx Hb Hmax. split_and!.
  - by eapply MemoryInv_call.
  - destruct HE as [Hnum Hknown Hdisc]. split; simpl; [|by rewrite (ids_insert _ _ _ _ Hk Hid)|done].
    intros c' [j Hj]%list_elem_of_lookup_1. destruct (decide (j = k)) as [->|Hjk].
    + rewrite list_lookup_insert_eq in Hj by by eapply lookup_lt_Some. injection Hj as <-.
      rewrite Hid, Hrev. apply Hnum. by eapply list_elem_of_lookup_2.
    + rewrite list_lookup_insert_ne in Hj by done. apply Hnum. by eapply list_elem_of_lookup_2.
  - simpl. congruence.
Qed.

Lemma ObsInv_emit_same o k c state :
  ObsInv o → discarded o = false → calls o !! k = Some c → state ≠ Discarded →
  ∃ o', emit k state o = Some o' ∧ ObsInv o'.
Proof.
  intros HO Hdis Hk Hst. pose proof HO as (HM & _).
  destruct (ObsInv_emit o k c c (retained_bytes o) state) as (o' & He & HO'); try done.
  { destruct HM as [_ _ _ _ HF]. rewrite Forall_lookup in HF. exact (HF k c Hk). }
  { apply HM. }
  rewrite list_insert_id in He by done. exists o'. split; [|done]. rewrite <- He. by destruct o.
Qed.

(** A new call. *)
Lemma ObsInv_start o i name :
  ObsInv o → discarded o = false → i ∉ call_id <$> calls o → length (calls o) < MAX_CALLS →
  ObsInv (with_calls (calls o ++ [mkCall i name (PreviewParser_new name) false 0 0 false]) o).
Proof.
  intros ([H1 H2 H3 H4 H5] & [E1 E2 E3] & HD) Hdis Hi Hlen. split_and!; [split|split|]; simpl.
  - rewrite length_app. simpl. lia.
  - rewrite fmap_app. apply NoDup_app. split_and!; [done| |apply NoDup_singleton].
    intros j Hj ->%list_elem_of_singleton. done.
  - rewrite H3. unfold total. rewrite fmap_app, foldr_app. reflexivity.
  - done.
  - apply Forall_app. split; [done|]. constructor; [|done]. apply (PInv_local 0%N _ 0%N). by apply PInv_new.
  - intros c [Hc| ->%list_elem_of_singleton]%elem_of_app; [by apply E1|]. simpl.
    assert (events_of i (sent o) = []) as ->; [|done].
    apply filter_none. intros e He Hid. apply Hi. rewrite <- Hid. by apply E2.
  - intros e He. rewrite fmap_app. apply elem_of_app. left. by apply E2.
  - done.
  - congruence.
Qed.

Section observing.
Context (reserve : N → N → option N).
Context (reserve_enough : ∀ c w c', reserve c w = Some c' → (w <= c')%N).

(** The parser of a call after a delta. *)
Lemma delta_spec o k c delta :
  ObsInv o → calls o !! k = Some c →
  ∃ p b, feed reserve delta (parser c, retained_bytes o) = Some (p, b) ∧ LocalInv p ∧
    (b + retained (parser c) = retained_bytes o + retained p)%N ∧ (b <= MAX_STREAM_BYTES)%N.
Proof using reserve_enough.
  intros ([H1 H2 H3 H4 H5] & _) Hk. rewrite Forall_lookup in H5. pose proof (H5 k c Hk) as Hl.
  assert (PInv (total (delete k (calls o))) (parser c, retained_bytes o)) as HP.
  { apply PInv_local. split; [exact Hl|]. split; [|done]. by rewrite H3, (total_split _ _ _ Hk). }
  destruct (feed_safe reserve reserve_enough _ delta _ HP) as ([p b] & -> & HP').
  apply PInv_local in HP as (_ & Hb & _), HP' as (Hl' & Hb' & Hmax). exists p, b. split_and!; [done..|lia|done].
Qed.

Lemma observe_spec elapsed item o :
  ObsInv o → ∃ o', observe reserve elapsed item o = Some o' ∧ ObsInv o'.
Proof using reserve_enough.
  intros HO. unfold observe. case_decide as Hskip; [by exists o|].
  assert (discarded o = false) as Hdis by (destruct (discarded o); tauto).
  assert (∃ o', discard o = Some o' ∧ ObsInv o') as Hdiscard.
  { destruct (discard_spec o HO) as (o' & ? & ? & _). eauto. }
  case_decide; [done|]. destruct item as [i name|i delta|i| | |]; try by exists o.
  - destruct (call_index i (calls o)) eqn:Ei; [done|]. apply call_index_None in Ei.
    case_decide as Hmany; [by exists o|].
    eapply (ObsInv_emit_same _ _ (mkCall i name (PreviewParser_new name) false 0 0 false));
      [|done| |done].
    + apply ObsInv_start; [done..|]. lia.
    + simpl. rewrite length_app, Nat.add_sub. by apply list_lookup_middle.
  - destruct (call_index i (calls o)) as [k|] eqn:Ei; [|by exists o].
    apply call_index_Some in Ei as (c & Hk & Hid). rewrite Hk. cbn [mbind option_bind].
    destruct (ended c); [done|].
    destruct (delta_spec o k c delta HO Hk) as (p & b & Hfeed & Hl & Hb & Hmax). rewrite Hfeed.
    cbn [mbind option_bind]. cbv zeta.
    match goal with |- context [if ?s then emit _ _ _ else _] => generalize s end.
    intros []; [by apply (ObsInv_emit o k c)|].
    eexists. split; [done|]. by apply (ObsInv_call o k c).
  - destruct (call_index i (calls o)) as [k|] eqn:Ei; [|by exists o].
    apply call_index_Some in Ei as (c & Hk & Hid). rewrite Hk. cbn [mbind option_bind].
    destruct (ended c); [done|]. pose proof HO as ([_ _ _ H4 H5] & _).
    rewrite Forall_lookup in H5. apply (ObsInv_emit o k c); try done. exact (H5 k c Hk).
  - eexists. split; [done|]. destruct HO as ([] & [] & HD). split; [by split|split; [by split|exact HD]].
Qed.

Lemma on_signal_inv s o : ObsInv o → ObsInv (on_signal reserve s o).
Proof using reserve_enough.
  intros HO.
  assert (∀ f, (∃ o', f o = Some o' ∧ ObsInv o') → ObsInv (protect f o)) as Hprot.
  { intros f (o' & Hf & HO'). unfold protect. destruct (discarded o); [done|]. by rewrite Hf. }
  destruct s as [item elapsed| |]; simpl.
  - by apply Hprot, observe_spec.
  - by apply Hprot, eof_spec.
  - destruct (normal_eof o); [done|]. apply Hprot.
    destruct (discard_spec o HO) as (o' & ? & ? & _). eauto.
Qed.

Definition after (a : option N) (signals : list Signal) : Observer :=
  foldl (λ o s, on_signal reserve s o) (Observer_new a) signals.

(** C25 Whatever a model streams, and however the stream ends, the previews of all its
    calls stay within their budgets of calls and bytes, the snapshots of each call are
    numbered 1, 2, 3, ... without a gap, and exactly when the previews are discarded
    every call's last snapshot says so. *)
Theorem preview_bounded a signals :
  let o := after a signals in
  (length (calls o) <= MAX_CALLS ∧ retained_bytes o = total (calls o) ∧
   (retained_bytes o <= MAX_STREAM_BYTES)%N ∧
   ∀ c, c ∈ calls o → retained (parser c) = (held (path (parser c)) + held (content (parser c)))%N ∧
     (retained (parser c) <= MAX_CALL_BYTES)%N ∧ length (stack (parser c)) <= MAX_DEPTH) ∧
  (∀ c, c ∈ calls o → event_revision <$> events_of (call_id c) (sent o) = numbered (revision c)) ∧
  (if discarded o then all_discarded o else ∀ e, e ∈ sent o → event_state e ≠ Discarded).
Proof using reserve_enough.
  intros o. assert (ObsInv o) as ([M1 M2 M3 M4 M5] & [E1 E2 E3] & HD).
  { assert (ObsInv (Observer_new a)) as HO.
    { split_and!; [split|split|]; simpl; try done;
        try (by intros ? ?%not_elem_of_nil); try (by apply NoDup_nil_2); unfold MAX_CALLS; lia. }
    unfold o, after. revert HO. generalize (Observer_new a). induction signals as [|s signals IH]; [done|].
    intros o0 HO. cbn [foldl]. by apply IH, on_signal_inv. }
  split; [|split; [done|]].
  - split_and!; [done..|]. intros c Hc. rewrite Forall_forall in M5.
    destruct (M5 c Hc) as (H1 & H2 & _ & _ & _ & HS). split_and!; [done..|apply HS].
  - destruct (discarded o) eqn:Hd; [by apply HD|]. intros e He Hs. pose proof (E3 e He Hs). congruence.
Qed.
End observing.

(** Two calls, one of them finished, and a stream that breaks off. *)
Definition sample_signals : list Signal :=
  [Item (ToolCallStart (lit "c1") (lit "write")) (λ _, true);
   Item (ToolCallArgumentsDelta (lit "c1") sample_arguments) (λ _, true);
   Item (ToolCallEnd (lit "c1")) (λ _, true);
   Item (ToolCallStart (lit "c2") (lit "read")) (λ _, true);
   Item (ToolCallArgumentsDelta (lit "c2") (lit "{ 1")) (λ _, false); Dropped].

Lemma preview_bounded_witness :
  event_revision <$> sent (after exact_reserve (Some 1%N) sample_signals) = [1; 2; 3; 1; 4; 2]%N ∧
  all_discarded (after exact_reserve (Some 1%N) sample_signals).
Proof.
  split; [vm_compute; reflexivity|].
  assert (discarded (after exact_reserve (Some 1%N) sample_signals) = true) as Hd by (vm_compute; reflexivity).
  destruct (preview_bounded exact_reserve (λ c w c' H, eq_ind w (λ x, (w <= x)%N) (N.le_refl w) c'
    (inj Some _ _ H)) (Some 1%N) sample_signals) as (_ & _ & H).
  by rewrite Hd in H.
Defined.
