(* ===== verification/Sse.v ===== *)
(** The server-sent events parser, [models/openai/sse.rs].

    [feed] consumes a chunk of the response body byte by byte, [pop_frame] hands out
    the finished frames.  The reference reads the whole stream at once: line ends
    are normalised, the text is cut at them, and the data lines before an empty line
    are a frame.  The theorem: however the stream is cut into chunks and whenever
    frames are taken, the frames are those of the reference, the memory held is
    bounded, and the parser refuses only a stream over its limits. *)

From S2P Require Import Prelude RustStr.

(** ** The parser *)

Definition MAX_SSE_LINE_BYTES : N := 1024 * 1024.
Definition MAX_SSE_FRAME_BYTES : N := 1024 * 1024.
Definition MAX_QUEUED_SSE_FRAMES : N := 4096.

Record SseParser := mkParser {
  line : list N;
  frame_data : list N;
  frame_has_data : bool;
  pending_cr : bool;
  frames : list (list N);
  queued_frame_bytes : N
}.
Definition SseParser_default : SseParser := mkParser [] [] false false [] 0.

Definition set_line (l : list N) (p : SseParser) : SseParser :=
  mkParser l (frame_data p) (frame_has_data p) (pending_cr p) (frames p) (queued_frame_bytes p).
Definition set_pending_cr (b : bool) (p : SseParser) : SseParser :=
  mkParser (line p) (frame_data p) (frame_has_data p) b (frames p) (queued_frame_bytes p).
Definition set_data (d : list N) (b : bool) (p : SseParser) : SseParser :=
  mkParser (line p) d b (pending_cr p) (frames p) (queued_frame_bytes p).

Definition DATA : list N := as_bytes (lit "data:").

(** [if last == '\n' { pop }] *)
Definition pop_newline (d : list N) : list N :=
  match last d with
  | Some b => if decide (b = LF) then removelast d else d
  | None => d
  end.

Definition end_line : stm SseParser unit unit :=
  p ← get;
  let l := line p in
  _ ← modify (set_line []);
  if decide (l = []) then
    _ ← (if frame_has_data p then
           let data := pop_newline (frame_data p) in
           _ ← modify (λ p, set_data data (frame_has_data p) p);
           let queued := (queued_frame_bytes p + lenN data)%N in
           _ ← throw_if (MAX_SSE_FRAME_BYTES < queued ∨ MAX_QUEUED_SSE_FRAMES <= lenN (frames p))%N tt;
           modify (λ p, mkParser (line p) [] (frame_has_data p) (pending_cr p) (frames p ++ [data]) queued)
         else mret tt);
    modify (set_data [] false)
  else if decide (l !! 0 = Some 58%N (* ':' *)) then mret tt
  else
    match strip_prefix DATA l with
    | None => mret tt
    | Some data =>
        let data := default data (strip_prefix [SPACE] data) in
        let new_len := (lenN (frame_data p) + lenN data + 1)%N in
        _ ← throw_if (MAX_SSE_FRAME_BYTES < new_len)%N tt;
        modify (λ p, set_data (frame_data p ++ data ++ [LF]) true p)
    end.

Definition feed_byte (byte : N) : stm SseParser unit unit :=
  p ← get;
  _ ← (if pending_cr p then modify (set_pending_cr false) else mret tt);
  if decide (pending_cr p = true ∧ byte = LF) then mret tt
  else if decide (byte = CR) then
    _ ← modify (set_pending_cr true);
    end_line
  else if decide (byte = LF) then end_line
  else
    _ ← throw_if (MAX_SSE_LINE_BYTES <= lenN (line p))%N tt;
    modify (λ p, set_line (line p ++ [byte]) p).

Fixpoint feed (chunk : list N) : stm SseParser unit unit :=
  match chunk with
  | [] => mret tt
  | byte :: chunk => _ ← feed_byte byte; feed chunk
  end.

Definition pop_frame (p : SseParser) : option (list N) * SseParser :=
  match frames p with
  | [] => (None, p)
  | frame :: rest =>
      (Some frame, mkParser (line p) (frame_data p) (frame_has_data p) (pending_cr p) rest
                     (queued_frame_bytes p - lenN frame))
  end.

(** ** The reference *)

(** A carriage return, with the line feed after it, if any, is one line end. *)
Fixpoint normalize (bytes : list N) : list N :=
  match bytes with
  | [] => []
  | b :: rest =>
      if decide (b = CR) then
        LF :: match rest with
              | b' :: rest' => if decide (b' = LF) then normalize rest' else normalize rest
              | [] => []
              end
      else b :: normalize rest
  end.

(** What a line adds to its frame. *)
Definition data_of (l : list N) : option (list N) :=
  (λ d, default d (strip_prefix [SPACE] d)) <$> strip_prefix DATA l.

(** The frames of complete lines, and the data lines of the frame begun. *)
Fixpoint line_frames (ls : list (list N)) (data : list (list N)) : list (list N) * list (list N) :=
  match ls with
  | [] => ([], data)
  | l :: ls =>
      if decide (l = []) then
        let '(fs, open) := line_frames ls [] in
        ((if decide (data = []) then fs else join [LF] data :: fs), open)
      else line_frames ls (data ++ option_list (data_of l))
  end.

Record Reference := mkRef { ref_frames : list (list N); ref_data : list (list N); ref_line : list N }.
Definition reference (bytes : list N) : Reference :=
  let pieces := split_char LF (normalize bytes) in
  let '(fs, data) := line_frames (removelast pieces) [] in
  mkRef fs data (default [] (last pieces)).

(** The data lines of a frame begun, as they are kept. *)
Definition data_bytes (ds : list (list N)) : list N := ds ≫= λ d, d ++ [LF].

(** What the parser holds while it has handed out [popped] frames of a stream. *)
Definition within (popped : nat) (r : Reference) : Prop :=
  (lenN (ref_line r) <= MAX_SSE_LINE_BYTES)%N ∧
  (lenN (data_bytes (ref_data r)) <= MAX_SSE_FRAME_BYTES)%N ∧
  (lenN (concat (drop popped (ref_frames r))) <= MAX_SSE_FRAME_BYTES)%N ∧
  (lenN (drop popped (ref_frames r)) <= MAX_QUEUED_SSE_FRAMES)%N.

(** ** One more byte *)

Lemma last_cons_ne {A} (x y : A) l : last (x :: y :: l) = last (y :: l).
Proof. done. Qed.

Lemma normalize_snoc bytes x :
  normalize (bytes ++ [x]) =
  normalize bytes ++ (if decide (x = LF ∧ last bytes = Some CR) then [] else [if decide (x = CR) then LF else x]).
Proof.
  remember (length bytes) as n eqn:Hn. assert (length bytes ≤ n) as Hle by lia. clear Hn. revert bytes Hle.
  induction n as [|n IH]; intros bytes Hle.
  { destruct bytes; [|simpl in Hle; lia]. simpl. rewrite (decide_False (P := x = LF ∧ None = Some CR)) by (by intros []).
    by case_decide; subst. }
  destruct bytes as [|b rest].
  { simpl. rewrite (decide_False (P := x = LF ∧ None = Some CR)) by (by intros []). by case_decide; subst. }
  simpl in Hle. cbn [app normalize]. destruct (decide (b = CR)) as [->|Hb].
  - destruct rest as [|b' rest]; cbn [app].
    + simpl. destruct (decide (x = LF)) as [->|Hx]; [by rewrite decide_True|].
      rewrite (decide_False (P := x = LF ∧ _)) by (by intros []). by case_decide; subst.
    + rewrite last_cons_ne. destruct (decide (b' = LF)) as [->|Hb'].
      * rewrite IH by (simpl in Hle; lia). cbn [app]. do 2 f_equal. destruct rest as [|y rest]; [|done].
        simpl. by rewrite !(decide_False (P := x = LF ∧ _)) by (by intros []).
      * change (b' :: rest ++ [x]) with ((b' :: rest) ++ [x]). by rewrite IH by lia.
  - rewrite IH by lia. cbn [app]. do 2 f_equal. destruct rest as [|y rest]; [|done].
    simpl. rewrite !(decide_False (P := x = LF ∧ _)); [done|by intros [_ [= ?]]|by intros []].
Qed.

Lemma split_char_snoc c s x :
  split_char c (s ++ [x]) =
  if decide (x = c) then split_char c s ++ [[]]
  else removelast (split_char c s) ++ [default [] (last (split_char c s)) ++ [x]].
Proof.
  induction s as [|d s IH].
  - simpl. by case_decide.
  - cbn [app split_char]. rewrite IH. pose proof (split_char_ne c s) as Hne.
    destruct (split_char c s) as [|p ps] eqn:E; [done|].
    destruct (decide (d = c)) as [->|Hd].
    + case_decide; [done|]. destruct ps; done.
    + case_decide; [done|]. destruct ps as [|p' ps]; done.
Qed.

Lemma line_frames_app ls ks data :
  line_frames (ls ++ ks) data =
  let '(fs, open) := line_frames ls data in
  let '(fs', open') := line_frames ks open in (fs ++ fs', open').
Proof.
  revert data. induction ls as [|l ls IH]; intros data; cbn [app line_frames]; [by destruct (line_frames ks data)|].
  case_decide.
  - rewrite IH. destruct (line_frames ls []) as [fs open]. destruct (line_frames ks open). by case_decide.
  - by rewrite IH.
Qed.

(** The end of a line in the reference. *)
Definition ref_end (r : Reference) : Reference :=
  if decide (ref_line r = [])
  then mkRef (ref_frames r ++ (if decide (ref_data r = []) then [] else [join [LF] (ref_data r)])) [] []
  else mkRef (ref_frames r) (ref_data r ++ option_list (data_of (ref_line r))) [].

Lemma removelast_last_split (ls : list (list N)) : ls ≠ [] → ls = removelast ls ++ [default [] (last ls)].
Proof.
  destruct ls as [|l ls _] using rev_ind; [done|]. intros _. by rewrite removelast_last, last_snoc.
Qed.

Lemma reference_snoc bytes x :
  reference (bytes ++ [x]) =
  if decide (x = LF ∧ last bytes = Some CR) then reference bytes
  else if decide (x = CR ∨ x = LF) then ref_end (reference bytes)
  else let r := reference bytes in mkRef (ref_frames r) (ref_data r) (ref_line r ++ [x]).
Proof.
  unfold reference. rewrite normalize_snoc. case_decide as Hskip; [by rewrite app_nil_r|].
  pose proof (split_char_ne LF (normalize bytes)) as Hne. rewrite split_char_snoc.
  set (pieces := split_char LF (normalize bytes)) in *.
  destruct (decide (x = CR ∨ x = LF)) as [Hx|Hx].
  - rewrite (decide_True (P := (if decide (x = CR) then LF else x) = LF)) by (case_decide; naive_solver).
    rewrite removelast_last, last_snoc. cbn [default from_option].
    rewrite (removelast_last_split pieces Hne) at 1. rewrite line_frames_app.
    destruct (line_frames (removelast pieces) []) as [fs data].
    generalize (default [] (last pieces)) as l. intros l. unfold ref_end. cbn [ref_line ref_frames ref_data line_frames].
    destruct (decide (l = [])) as [->|E].
    + by destruct (decide (data = [])).
    + by rewrite app_nil_r.
  - assert (x ≠ CR ∧ x ≠ LF) as [H1 H2] by tauto.
    rewrite (decide_False (P := x = CR)) by done. rewrite (decide_False (P := x = LF)) by done.
    rewrite removelast_last, last_snoc. cbn [default from_option].
    by destruct (line_frames (removelast pieces) []) as [fs data].
Qed.

(** ** The parser against the reference *)

Record Rep (popped : list (list N)) (bytes : list N) (p : SseParser) : Prop := mkRep {
  rep_line : line p = ref_line (reference bytes);
  rep_data : frame_data p = data_bytes (ref_data (reference bytes));
  rep_has : frame_has_data p = bool_decide (ref_data (reference bytes) ≠ []);
  rep_cr : pending_cr p = bool_decide (last bytes = Some CR);
  rep_frames : popped ++ frames p = ref_frames (reference bytes);
  rep_queued : queued_frame_bytes p = lenN (concat (frames p));
  rep_within : within (length popped) (reference bytes)
}.

Lemma join_snoc (ds : list (list N)) d : join [LF] (ds ++ [d]) = data_bytes ds ++ d.
Proof.
  induction ds as [|e ds IH]; [done|]. cbn [app join].
  destruct (ds ++ [d]) eqn:E; [by destruct ds|]. rewrite IH. unfold data_bytes. cbn [mbind list_bind].
  by rewrite <- !app_assoc.
Qed.

Lemma pop_newline_data ds : ds ≠ [] → pop_newline (data_bytes ds) = join [LF] ds.
Proof.
  destruct ds as [|d ds _] using rev_ind; [done|]. intros _. rewrite join_snoc. unfold data_bytes. rewrite bind_app. cbn [mbind list_bind].
  rewrite app_nil_r, app_assoc. unfold pop_newline. rewrite last_snoc, decide_True by done. apply removelast_last.
Qed.

Lemma strip_data l : strip_prefix DATA l = None → data_of l = None.
Proof. unfold data_of. by intros ->. Qed.

Lemma colon_not_data l : l !! 0 = Some 58%N → data_of l = None.
Proof. intros Hl. apply strip_data. destruct l as [|b l]; [done|]. by injection Hl as ->. Qed.

(** [end_line] is [ref_end], or the stream has left the limits. *)
Lemma end_line_spec popped r p :
  line p = ref_line r → frame_data p = data_bytes (ref_data r) →
  frame_has_data p = bool_decide (ref_data r ≠ []) →
  popped ++ frames p = ref_frames r → queued_frame_bytes p = lenN (concat (frames p)) → within (length popped) r →
  let '(p', res) := end_line p in
  let r' := ref_end r in
  match res with
  | Ok _ =>
      line p' = ref_line r' ∧ frame_data p' = data_bytes (ref_data r') ∧
      frame_has_data p' = bool_decide (ref_data r' ≠ []) ∧ pending_cr p' = pending_cr p ∧
      popped ++ frames p' = ref_frames r' ∧ queued_frame_bytes p' = lenN (concat (frames p')) ∧
      within (length popped) r'
  | Err _ => ¬ within (length popped) r' ∧ frames p' = frames p
  end.
Proof.
  intros Hl Hd Hh Hf Hq Hw. unfold end_line, get, modify, ref_end. cbn [mbind stm_bind].
  unfold mbind, stm_bind. rewrite Hl. destruct Hw as (W1 & W2 & W3 & W4).
  assert (drop (length popped) (ref_frames r) = frames p) as Hdrop by (rewrite <- Hf; apply drop_app_length).
  destruct (decide (ref_line r = [])) as [E|E].
  - cbn [set_line frame_has_data]. rewrite Hh. destruct (decide (ref_data r = [])) as [Ed|Ed].
    + rewrite bool_decide_eq_false_2 by (by intros []). cbn. rewrite app_nil_r.
      by split_and!.
    + rewrite bool_decide_eq_true_2 by done. cbn [set_line set_data frame_data frame_has_data queued_frame_bytes frames].
      rewrite Hd, pop_newline_data by done. unfold throw_if.
      assert (drop (length popped) (ref_frames r ++ [join [LF] (ref_data r)]) = frames p ++ [join [LF] (ref_data r)]) as Hdrop2.
      { rewrite <- Hf, <- app_assoc. apply drop_app_length. }
      assert (lenN (concat (frames p ++ [join [LF] (ref_data r)])) = queued_frame_bytes p + lenN (join [LF] (ref_data r)))%N as Hlen.
      { rewrite concat_app, lenN_app, Hq. cbn. by rewrite app_nil_r. }
      case_decide as Hover; cbn.
      * split; [|done]. unfold within. cbn. rewrite Hdrop2, Hlen, lenN_app. intros (_ & _ & ? & ?).
        change (lenN [join [LF] (ref_data r)]) with 1%N in *. lia.
      * split_and!; try done; [by rewrite app_assoc, Hf|]. unfold within. cbn.
        rewrite Hdrop2, Hlen, lenN_app. change (lenN [join [LF] (ref_data r)]) with 1%N. split_and!; [done|done|lia|lia].
  - cbn [set_line]. assert (∀ o, o = data_of (ref_line r) → o = None →
      line (set_line [] p) = [] ∧ frame_data (set_line [] p) = data_bytes (ref_data r ++ option_list (data_of (ref_line r))) ∧
      frame_has_data (set_line [] p) = bool_decide (ref_data r ++ option_list (data_of (ref_line r)) ≠ []) ∧
      pending_cr (set_line [] p) = pending_cr p ∧
      popped ++ frames (set_line [] p) = ref_frames r ∧
      queued_frame_bytes (set_line [] p) = lenN (concat (frames (set_line [] p))) ∧
      within (length popped) (mkRef (ref_frames r) (ref_data r ++ option_list (data_of (ref_line r))) [])) as Hnone.
    { intros o Ho Hn. rewrite <- Ho, Hn. cbn [option_list]. rewrite app_nil_r. by split_and!. }
    case_decide as Hcolon; [by eapply Hnone; [reflexivity|apply colon_not_data]|].
    destruct (strip_prefix DATA (ref_line r)) as [data|] eqn:Es; [|by eapply Hnone; [reflexivity|apply strip_data]].
    unfold throw_if. cbn [set_line frame_data].
    assert (data_of (ref_line r) = Some (default data (strip_prefix [SPACE] data))) as Hdo by (unfold data_of; by rewrite Es).
    rewrite Hdo. set (d := default data (strip_prefix [SPACE] data)). change (option_list (Some d)) with [d].
    assert (data_bytes (ref_data r ++ [d]) = frame_data p ++ d ++ [LF]) as Hnd.
    { unfold data_bytes in *. rewrite bind_app, Hd. cbn. by rewrite app_nil_r. }
    case_decide as Hover; cbn [set_line set_data line frame_data frame_has_data pending_cr frames queued_frame_bytes ref_line ref_data ref_frames].
    + split; [|done]. unfold within. cbn [ref_line ref_data ref_frames]. rewrite Hnd, !lenN_app. intros (_ & ? & _).
      change (lenN [LF]) with 1%N in *. lia.
    + rewrite Hnd. split_and!; try done.
      * by rewrite bool_decide_eq_true_2 by (by destruct (ref_data r)).
      * unfold within. cbn [ref_line ref_data ref_frames]. rewrite Hnd, !lenN_app. change (lenN [LF]) with 1%N. split_and!; [done|lia|done|done].
Qed.

Lemma feed_byte_spec popped bytes p x :
  Rep popped bytes p →
  let '(p', res) := feed_byte x p in
  match res with
  | Ok _ => Rep popped (bytes ++ [x]) p'
  | Err _ => ¬ within (length popped) (reference (bytes ++ [x])) ∧ frames p' = frames p
  end.
Proof.
  intros [R1 R2 R3 R4 R5 R6 R7]. unfold feed_byte, get, modify. unfold mbind, stm_bind.
  set (p1 := if pending_cr p then set_pending_cr false p else p).
  assert ((if pending_cr p then (λ s, (set_pending_cr false s, Ok tt)) else mret tt) p = (p1, @Ok unit unit tt)) as ->
    by (unfold p1; by destruct (pending_cr p)).
  assert (line p1 = line p ∧ frame_data p1 = frame_data p ∧ frame_has_data p1 = frame_has_data p ∧
    frames p1 = frames p ∧ queued_frame_bytes p1 = queued_frame_bytes p ∧ pending_cr p1 = false) as (E1 & E2 & E3 & E4 & E5 & E6)
    by (unfold p1; by destruct (pending_cr p) eqn:?).
  pose proof (reference_snoc bytes x) as Hs.
  assert (∀ q, line q = line p → frame_data q = frame_data p → frame_has_data q = frame_has_data p →
    frames q = frames p → queued_frame_bytes q = queued_frame_bytes p →
    pending_cr q = bool_decide (x = CR) → reference (bytes ++ [x]) = ref_end (reference bytes) →
    let '(p', res) := end_line q in
    match res with
    | Ok _ => Rep popped (bytes ++ [x]) p'
    | Err _ => ¬ within (length popped) (reference (bytes ++ [x])) ∧ frames p' = frames p
    end) as Hend.
  { intros q Q1 Q2 Q3 Q4 Q5 Q6 Hr.
    pose proof (end_line_spec popped (reference bytes) q) as Hel. rewrite Q1, Q2, Q3, Q4, Q5 in Hel.
    specialize (Hel R1 R2 R3 R5 R6 R7). destruct (end_line q) as [p' [[]|]]; [|by rewrite Hr].
    destruct Hel as (H1 & H2 & H3 & H4 & H5 & H6 & H7). split; rewrite ?Hr; try done.
    rewrite H4, Q6, last_snoc. apply bool_decide_ext. naive_solver. }
  rewrite R4. destruct (decide (bool_decide (last bytes = Some CR) = true ∧ x = LF)) as [Hskip|Hskip].
  - destruct Hskip as [Hcr%bool_decide_eq_true ->]. rewrite decide_True in Hs by done. cbn.
    split; rewrite ?Hs, ?E1, ?E2, ?E3, ?E4, ?E5, ?E6; try done.
    rewrite last_snoc. by rewrite bool_decide_eq_false_2.
  - rewrite decide_False in Hs by (rewrite bool_decide_eq_true in Hskip; tauto).
    destruct (decide (x = CR)) as [->|Hcr].
    + rewrite decide_True in Hs by tauto. apply Hend; cbn; try done.
    + destruct (decide (x = LF)) as [->|Hlf].
      * rewrite decide_True in Hs by tauto. by apply Hend.
      * rewrite decide_False in Hs by tauto. rewrite throw_if_run, R1.
        destruct (decide (MAX_SSE_LINE_BYTES <= lenN (ref_line (reference bytes)))%N) as [Hover|Hover]; cbv beta iota.
        -- split; [|done]. rewrite Hs. unfold within. cbn [ref_line]. rewrite lenN_app. change (lenN [x]) with 1%N. lia.
        -- destruct R7 as (W1 & W2 & W3 & W4). split; rewrite ?Hs; cbn [set_line line frame_data frame_has_data pending_cr frames queued_frame_bytes ref_line ref_data ref_frames];
             rewrite ?E1, ?E2, ?E3, ?E4, ?E5, ?E6; try done.
           ++ by rewrite R1.
           ++ rewrite last_snoc. rewrite bool_decide_eq_false_2; [done|]. naive_solver.
           ++ split_and!; try done. cbn. rewrite lenN_app. change (lenN [x]) with 1%N. lia.
Qed.

(** ** Chunks and frames taken in any order *)

Lemma feed_cons x chunk p :
  feed (x :: chunk) p =
  match feed_byte x p with (p', Ok _) => feed chunk p' | (p', Err e) => (p', Err e) end.
Proof. cbn [feed]. unfold mbind, stm_bind. by destruct (feed_byte x p) as [p' [|]]. Qed.

Lemma feed_spec popped bytes p chunk :
  Rep popped bytes p →
  let '(p', res) := feed chunk p in
  match res with
  | Ok _ => Rep popped (bytes ++ chunk) p'
  | Err _ => ∃ pre x post, chunk = pre ++ x :: post ∧
      popped ++ frames p' = ref_frames (reference (bytes ++ pre)) ∧
      ¬ within (length popped) (reference (bytes ++ pre ++ [x]))
  end.
Proof.
  revert bytes p. induction chunk as [|x chunk IH]; intros bytes p HR.
  { cbn. by rewrite app_nil_r. }
  rewrite feed_cons. pose proof (feed_byte_spec popped bytes p x HR) as Hx.
  destruct (feed_byte x p) as [p1 [[]|[]]].
  - specialize (IH (bytes ++ [x]) p1 Hx). destruct (feed chunk p1) as [p2 [[]|[]]].
    + by rewrite <- app_assoc in IH.
    + destruct IH as (pre & y & post & -> & Hf & Hw). exists (x :: pre), y, post.
      rewrite <- !app_assoc in *. done.
  - destruct Hx as [Hw Hf]. exists [], x, chunk. rewrite Hf, app_nil_r. split_and!; [done|by apply HR|done].
Qed.

Lemma drop_drop_length {A} (l k : list A) n : drop (length l + n) (l ++ k) = drop n k.
Proof. by rewrite drop_app_add. Qed.

Lemma pop_frame_spec popped bytes p :
  Rep popped bytes p →
  match pop_frame p with
  | (None, p') => p' = p ∧ popped = ref_frames (reference bytes)
  | (Some frame, p') => Rep (popped ++ [frame]) bytes p'
  end.
Proof.
  intros [R1 R2 R3 R4 R5 R6 (W1 & W2 & W3 & W4)]. unfold pop_frame.
  destruct (frames p) as [|f fs] eqn:E; [by rewrite app_nil_r in R5|].
  rewrite <- R5 in W3, W4. rewrite drop_app_length in W3, W4. cbn [concat] in *. rewrite lenN_app in *. rewrite lenN_cons in W4.
  split; cbn [line frame_data frame_has_data pending_cr frames queued_frame_bytes]; try done.
  - by rewrite <- app_assoc.
  - rewrite R6. lia.
  - unfold within. rewrite <- R5. rewrite length_app. cbn [length].
    replace (popped ++ f :: fs) with ((popped ++ [f]) ++ fs) by (by rewrite <- app_assoc).
    rewrite <- (length_app popped [f] : length (popped ++ [f]) = length popped + 1), drop_app_length.
    split_and!; [done|done|lia|lia].
Qed.

(** The parser of a stream: the bytes fed so far and the frames taken. *)
Inductive sse_run : list (list N) → list N → SseParser → Prop :=
  | run_start : sse_run [] [] SseParser_default
  | run_feed popped bytes chunk p p' :
      sse_run popped bytes p → feed chunk p = (p', Ok tt) → sse_run popped (bytes ++ chunk) p'
  | run_pop popped bytes frame p p' :
      sse_run popped bytes p → pop_frame p = (Some frame, p') → sse_run (popped ++ [frame]) bytes p'.

Lemma sse_run_rep popped bytes p : sse_run popped bytes p → Rep popped bytes p.
Proof.
  induction 1 as [|popped bytes chunk p p' _ IH Hf|popped bytes frame p p' _ IH Hp].
  - split; try done; by split_and!.
  - pose proof (feed_spec popped bytes p chunk IH) as Hs. by rewrite Hf in Hs.
  - pose proof (pop_frame_spec popped bytes p IH) as Hs. by rewrite Hp in Hs.
Qed.

(** C22 However a stream is cut into chunks and whenever frames are taken, the frames
    taken and those still queued are exactly the frames of the reference on all the
    bytes fed, in order; the queue's byte count is exact, and no buffer exceeds its
    limit. *)
Theorem sse_frames popped bytes p :
  sse_run popped bytes p →
  popped ++ frames p = ref_frames (reference bytes) ∧
  queued_frame_bytes p = lenN (concat (frames p)) ∧
  (lenN (line p) <= MAX_SSE_LINE_BYTES)%N ∧ (lenN (frame_data p) <= MAX_SSE_FRAME_BYTES)%N ∧
  (queued_frame_bytes p <= MAX_SSE_FRAME_BYTES)%N ∧ (lenN (frames p) <= MAX_QUEUED_SSE_FRAMES)%N.
Proof.
  intros Hr. apply sse_run_rep in Hr as [R1 R2 R3 R4 R5 R6 (W1 & W2 & W3 & W4)].
  rewrite <- R5, drop_app_length in W3, W4. rewrite R1, R2, R6. by split_and!.
Qed.

(** A chunk is refused exactly for a stream that leaves the limits: when feeding
    succeeds every prefix was within them, and when it fails the frames completed
    before are intact and the very next byte takes a line, a frame or the queue over
    its limit. *)
Theorem sse_refusal popped bytes p chunk :
  sse_run popped bytes p →
  let '(p', res) := feed chunk p in
  match res with
  | Ok _ => within (length popped) (reference (bytes ++ chunk))
  | Err _ => ∃ pre x post, chunk = pre ++ x :: post ∧
      popped ++ frames p' = ref_frames (reference (bytes ++ pre)) ∧
      ¬ within (length popped) (reference (bytes ++ pre ++ [x]))
  end.
Proof.
  intros Hr. apply sse_run_rep in Hr. pose proof (feed_spec popped bytes p chunk Hr) as Hs.
  destruct (feed chunk p) as [p' [[]|[]]]; [apply Hs|exact Hs].
Qed.

(** ** A stream in two chunks, cut inside a line end *)

Definition sse_chunk1 : list N := as_bytes (lit "data: a") ++ [CR; LF] ++ as_bytes (lit ":x") ++ [CR; LF] ++ as_bytes (lit "data:b") ++ [CR; LF; CR].
Definition sse_chunk2 : list N := [LF] ++ as_bytes (lit "data: [DONE]") ++ [LF; LF].

Lemma sse_sample : sse_run [join [LF] [as_bytes (lit "a"); as_bytes (lit "b")]] (sse_chunk1 ++ sse_chunk2)
  (mkParser [] [] false false [as_bytes (lit "[DONE]")] 6).
Proof.
  set (p1 := (feed sse_chunk1 SseParser_default).1).
  apply (run_feed _ sse_chunk1 sse_chunk2 (pop_frame p1).2); [|by vm_compute].
  apply (run_pop [] sse_chunk1 _ p1); [|by vm_compute].
  apply (run_feed [] [] sse_chunk1 SseParser_default); [apply run_start|by vm_compute].
Qed.

Lemma sse_frames_witness :
  [join [LF] [as_bytes (lit "a"); as_bytes (lit "b")]; as_bytes (lit "[DONE]")] =
  ref_frames (reference (sse_chunk1 ++ sse_chunk2)).
Proof. destruct (sse_frames _ _ _ sse_sample) as (H & _). exact H. Defined.

Lemma sse_refusal_witness : within 0 (reference sse_chunk1) ∧ (feed sse_chunk1 SseParser_default).2 = Ok tt.
Proof.
  split; [|by vm_compute].
  pose proof (sse_refusal [] [] SseParser_default sse_chunk1 run_start) as H.
  destruct (feed sse_chunk1 SseParser_default) as [p' res] eqn:E.
  assert (res = Ok tt) as -> by (vm_compute in E; by inversion E). exact H.
Defined.
