(* ===== verification/Usage.v ===== *)
(** Token usage of the summary utility, [compaction/utility.rs], its totals over
    several operations, [compaction/projection.rs], and the context size a response
    reports, [presentation/state.rs].

    A field is absent when the provider did not report it; an absent field is never
    counted as zero. *)

From S2P Require Import Prelude.

Record Usage := mkUsage {
  input_tokens : option N; output_tokens : option N; reasoning_tokens : option N;
  cache_read_tokens : option N; cache_write_tokens : option N; provider_total_tokens : option N }.
#[global] Instance Usage_eq_dec : EqDecision Usage.
Proof. solve_decision. Defined.

Definition is_empty_usage (u : Usage) : bool := bool_decide (u = mkUsage None None None None None None).

Definition sum_usage_field (l r : option N) : option N :=
  match l, r with Some l, Some r => checked_add l r | _, _ => None end.
Definition usage_field_overflow (l r : option N) : bool :=
  match l, r with Some l, Some r => bool_decide (checked_add l r = None) | _, _ => false end.

Definition sum_usage (l r : Usage) : Usage := mkUsage
  (sum_usage_field (input_tokens l) (input_tokens r)) (sum_usage_field (output_tokens l) (output_tokens r))
  (sum_usage_field (reasoning_tokens l) (reasoning_tokens r)) (sum_usage_field (cache_read_tokens l) (cache_read_tokens r))
  (sum_usage_field (cache_write_tokens l) (cache_write_tokens r))
  (sum_usage_field (provider_total_tokens l) (provider_total_tokens r)).

Definition usage_sum_overflow (l r : Usage) : bool :=
  usage_field_overflow (input_tokens l) (input_tokens r) || usage_field_overflow (output_tokens l) (output_tokens r) ||
  usage_field_overflow (reasoning_tokens l) (reasoning_tokens r) ||
  usage_field_overflow (cache_read_tokens l) (cache_read_tokens r) ||
  usage_field_overflow (cache_write_tokens l) (cache_write_tokens r) ||
  usage_field_overflow (provider_total_tokens l) (provider_total_tokens r).

(** [u32::saturating_add(1)] and the like. *)
Definition saturating_add32 (a b : N) : N := N.min (a + b) u32_max.

Record CompactionUtilityUsage := mkUtility { call_count : N; complete : bool; usage : option Usage }.

(** ** Totals over operations *)

Definition merge_utility_usage (total next : option CompactionUtilityUsage) : option CompactionUtilityUsage :=
  match next with
  | None => total
  | Some next =>
      match total with
      | None => Some next
      | Some current =>
          let overflow := match usage current, usage next with
                          | Some l, Some r => usage_sum_overflow l r
                          | _, _ => false
                          end in
          Some (mkUtility (saturating_add32 (call_count current) (call_count next))
                  (complete current && (complete next && negb overflow))
                  (match usage current, usage next with
                   | Some l, Some r => Some (sum_usage l r)
                   | _, _ => None
                   end))
      end
  end.

(** ** The calls of one operation *)

Record UtilityUsageAccumulator := mkAcc { value : option Usage; acc_complete : bool; acc_calls : N; pending_calls : N }.
Definition Accumulator_default : UtilityUsageAccumulator := mkAcc None true 0 0.

Definition start_call (a : UtilityUsageAccumulator) : UtilityUsageAccumulator :=
  mkAcc (value a) (acc_complete a) (saturating_add32 (acc_calls a) 1) (saturating_add32 (pending_calls a) 1).

Definition finish_call (u : option Usage) (a : UtilityUsageAccumulator) : UtilityUsageAccumulator :=
  let pending := (pending_calls a - 1)%N in
  match u with
  | Some u =>
      if is_empty_usage u then mkAcc (value a) false (acc_calls a) pending
      else
        match value a with
        | Some v => mkAcc (Some (sum_usage v u)) (acc_complete a && negb (usage_sum_overflow v u)) (acc_calls a) pending
        | None => mkAcc (Some u) (acc_complete a) (acc_calls a) pending
        end
  | None => mkAcc (value a) false (acc_calls a) pending
  end.

Definition fail_call (u : option Usage) (a : UtilityUsageAccumulator) : UtilityUsageAccumulator :=
  let a := finish_call u a in mkAcc (value a) false (acc_calls a) (pending_calls a).

Definition acc_snapshot (generation_complete : bool) (a : UtilityUsageAccumulator) : option CompactionUtilityUsage :=
  if decide (0 < acc_calls a)%N then
    Some (mkUtility (acc_calls a) (generation_complete && acc_complete a && bool_decide (pending_calls a = 0%N)) (value a))
  else None.

(** ** The context a response reports *)

Definition context_tokens (u : Usage) : option N :=
  match provider_total_tokens u with
  | Some total => Some total
  | None =>
      i ← input_tokens u; o ← output_tokens u; s ← checked_add i o;
      r ← reasoning_tokens u; s ← checked_add s r;
      cr ← cache_read_tokens u; s ← checked_add s cr;
      cw ← cache_write_tokens u; checked_add s cw
  end.

(** ** Totals are exact *)

(** How a model call of the utility ended. *)
Inductive call_end := Finished (u : option Usage) | Failed (u : option Usage).
Definition account (c : call_end) (a : UtilityUsageAccumulator) : UtilityUsageAccumulator :=
  match c with Finished u => finish_call u (start_call a) | Failed u => fail_call u (start_call a) end.

(** The calls' reports, when every call finished and reported something. *)
Definition reported (cs : list call_end) : option (list Usage) :=
  mapM (λ c, match c with Finished (Some u) => if is_empty_usage u then None else Some u | _ => None end) cs.

(** A field of the total: the exact sum, or absent because a report lacks it. *)
Definition exact_field (f : Usage → option N) (us : list Usage) (total : option N) : Prop :=
  match total with
  | Some n => ∃ ns, Forall2 (λ u n, f u = Some n) us ns ∧ n = foldr N.add 0%N ns
  | None => Exists (λ u, f u = None) us
  end.
Definition exact_total (us : list Usage) (total : Usage) : Prop :=
  ∀ f, f ∈ [input_tokens; output_tokens; reasoning_tokens; cache_read_tokens; cache_write_tokens; provider_total_tokens] →
  exact_field f us (f total).

Lemma exact_field_snoc f us u v total :
  exact_field f us (f v) → usage_field_overflow (f v) (f u) = false → total = sum_usage_field (f v) (f u) →
  exact_field f (us ++ [u]) total.
Proof.
  intros Hv Ho ->. unfold exact_field in *. destruct (f v) as [n|], (f u) as [m|] eqn:Eu; cbn in *.
  - apply bool_decide_eq_false in Ho. destruct (checked_add n m) as [k|] eqn:Ek; [|done].
    apply checked_add_Some in Ek as [-> _]. destruct Hv as (ns & Hf & ->). exists (ns ++ [m]).
    split; [by apply Forall2_app; [|constructor]|]. clear. induction ns; simpl; lia.
  - apply Exists_app. right. by constructor.
  - apply Exists_app. by left.
  - apply Exists_app. by left.
Qed.

Lemma sum_exact us v u :
  exact_total us v → usage_sum_overflow v u = false → exact_total (us ++ [u]) (sum_usage v u).
Proof.
  intros Hv Ho f Hf. unfold usage_sum_overflow in Ho. rewrite !orb_false_iff in Ho.
  specialize (Hv f Hf). rewrite !elem_of_cons in Hf.
  destruct Hf as [->|[->|[->|[->|[->|[->|Hf]]]]]]; try by apply elem_of_nil in Hf.
  all: eapply exact_field_snoc; [exact Hv|tauto|reflexivity].
Qed.

Definition acc_exact (cs : list call_end) (a : UtilityUsageAccumulator) : Prop :=
  acc_calls a = N.min (lenN cs) u32_max ∧ pending_calls a = 0%N ∧
  (acc_complete a = true → ∃ us, reported cs = Some us ∧
    match value a with Some total => exact_total us total | None => us = [] end).

Lemma account_exact cs c a : acc_exact cs a → acc_exact (cs ++ [c]) (account c a).
Proof.
  intros (Hn & Hp & Hc). assert (acc_calls (account c a) = N.min (lenN (cs ++ [c])) u32_max) as Hn'.
  { assert (acc_calls (account c a) = saturating_add32 (acc_calls a) 1) as ->.
    { destruct c as [[u|]|[u|]]; cbn; try done; destruct (is_empty_usage u), (value a); done. }
    unfold saturating_add32. rewrite Hn, lenN_app. change (lenN [c]) with 1%N. lia. }
  assert (pending_calls (account c a) = 0%N) as Hp'.
  { assert (∀ u, pending_calls (finish_call u (start_call a)) = 0%N) as Hf.
    { intros u. unfold finish_call. cbn [pending_calls start_call]. rewrite Hp. change (saturating_add32 0 1 - 1)%N with 0%N.
      destruct u as [u|]; [destruct (is_empty_usage u), (value _)|]; done. }
    destruct c; cbn [account]; [apply Hf|]. unfold fail_call. cbn. apply Hf. }
  split_and!; [done|done|]. destruct c as [u|u]; [|done]. cbn [account]. unfold finish_call, start_call.
  destruct u as [u|]; [|done]. cbn [value acc_complete]. destruct (is_empty_usage u) eqn:Ee; [done|].
  assert (∀ us, reported cs = Some us → reported (cs ++ [Finished (Some u)]) = Some (us ++ [u])) as Hr.
  { intros us Hus. unfold reported in *. apply mapM_Some in Hus. apply mapM_Some. apply Forall2_app; [done|].
    constructor; [|constructor]. cbn. by rewrite Ee. }
  destruct (value a) as [v|] eqn:Ev; cbn [acc_complete value].
  - intros [Hac Ho]%andb_prop. apply negb_true_iff in Ho. destruct (Hc Hac) as (us & Hus & Hex).
    exists (us ++ [u]). split; [by apply Hr|]. by apply sum_exact.
  - intros Hac. destruct (Hc Hac) as (us & Hus & ->). exists [u]. split; [by apply (Hr [])|].
    intros f Hf. unfold exact_field. destruct (f u) as [n|] eqn:En; [|by constructor].
    exists [n]. split; [by repeat constructor|]. cbn. lia.
Qed.

(** The usage a compaction reports as complete is exact: every call finished with a
    report, and each field of the total is the true sum of that field over all calls,
    or absent because some call did not report it; never a sum that overflowed or
    treated a missing field as zero. *)
Theorem usage_totals cs u :
  acc_snapshot true (foldl (λ a c, account c a) Accumulator_default cs) = Some u →
  call_count u = N.min (lenN cs) u32_max ∧
  (complete u = true → ∃ us total, reported cs = Some us ∧ usage u = Some total ∧ exact_total us total).
Proof.
  assert (acc_exact cs (foldl (λ a c, account c a) Accumulator_default cs)) as Ha.
  { induction cs as [|c cs IH] using rev_ind.
    - split_and!; [done|done|]. intros _. by exists [].
    - rewrite foldl_snoc. by apply account_exact. }
  destruct Ha as (Hn & Hp & Hc). unfold acc_snapshot. case_decide as Hpos; [|done]. intros [= <-]. cbn.
  split; [done|]. intros [Hac _]%andb_prop. destruct (Hc Hac) as (us & Hus & Hv).
  destruct (value _) as [total|]; [by exists us, total|]. subst us. exfalso. unfold reported in Hus.
  apply mapM_Some, Forall2_nil_inv_r in Hus as ->. by vm_compute in Hpos.
Qed.

Definition usage_sample (i o : N) : Usage := mkUsage (Some i) (Some o) None (Some 0%N) (Some 0%N) None.

Lemma usage_totals_witness :
  (∃ us total, reported [Finished (Some (usage_sample 3 4)); Finished (Some (usage_sample 5 6))] = Some us ∧
     Some (usage_sample 8 10) = Some total ∧ exact_total us total).
Proof.
  pose proof (usage_totals [Finished (Some (usage_sample 3 4)); Finished (Some (usage_sample 5 6))]
    (mkUtility 2 true (Some (usage_sample 8 10))) ltac:(vm_compute; reflexivity)) as [_ H].
  exact (H eq_refl).
Defined.
