(* ===== verification/Json.v ===== *)
(** JSON values, as [serde_json::Value] has them, with the accessors the sources call.

    An object is the list of its members in the order of their names, each name once, as
    its map keeps them; a number is its text and, when it is one, the unsigned integer it
    is. *)

From S2P Require Import Prelude RustStr.

Inductive Value :=
  | Null
  | Bool (b : bool)
  | Number (as_u64 : option N) (text : str)
  | Str (s : str)
  | Array (items : list Value)
  | Object (members : list (str * Value)).

(** ** Induction and equality *)

Section value_ind.
Context (P : Value → Prop).
Context (Hnull : P Null) (Hbool : ∀ b, P (Bool b)) (Hnumber : ∀ n t, P (Number n t)) (Hstr : ∀ s, P (Str s)).
Context (Harray : ∀ items, Forall P items → P (Array items)).
Context (Hobject : ∀ members, Forall (λ m, P m.2) members → P (Object members)).

Fixpoint value_ind (v : Value) : P v :=
  match v with
  | Null => Hnull
  | Bool b => Hbool b
  | Number n t => Hnumber n t
  | Str s => Hstr s
  | Array items =>
      Harray items ((fix go items : Forall P items :=
        match items with [] => Forall_nil_2 P | v :: items => Forall_cons_2 P v items (value_ind v) (go items) end) items)
  | Object members =>
      Hobject members ((fix go members : Forall (λ m, P m.2) members :=
        match members with
        | [] => Forall_nil_2 _
        | (k, v) :: members => Forall_cons_2 (λ m, P m.2) (k, v) members (value_ind v) (go members)
        end) members)
  end.
End value_ind.

Fixpoint value_eqb (a b : Value) : bool :=
  match a, b with
  | Null, Null => true
  | Bool a, Bool b => Bool.eqb a b
  | Number m s, Number n t => bool_decide (m = n) && bool_decide (s = t)
  | Str s, Str t => bool_decide (s = t)
  | Array xs, Array ys =>
      (fix go xs ys := match xs, ys with
                       | [], [] => true
                       | x :: xs, y :: ys => value_eqb x y && go xs ys
                       | _, _ => false
                       end) xs ys
  | Object xs, Object ys =>
      (fix go xs ys := match xs, ys with
                       | [], [] => true
                       | (k, x) :: xs, (l, y) :: ys => bool_decide (k = l) && value_eqb x y && go xs ys
                       | _, _ => false
                       end) xs ys
  | _, _ => false
  end.

Lemma value_eqb_eq a b : value_eqb a b = true ↔ a = b.
Proof.
  revert b. induction a as [|a|m s|s|xs IH|xs IH] using value_ind; intros [|b|n t|t|ys|ys]; cbn;
    try (split; discriminate); [done|..].
  - rewrite Bool.eqb_true_iff. split; congruence.
  - rewrite andb_true_iff, !bool_decide_eq_true. split; [by intros [-> ->]|by intros [=]].
  - rewrite bool_decide_eq_true. split; congruence.
  - transitivity (xs = ys); [|split; congruence]. revert ys.
    induction IH as [|x xs Hx _ IH]; intros [|y ys]; try (split; discriminate); [done|].
    rewrite andb_true_iff, Hx, IH. split; [by intros [-> ->]|by intros [=]].
  - transitivity (xs = ys); [|split; congruence]. revert ys.
    induction IH as [|[k x] xs Hx _ IH]; intros [|[l y] ys]; try (split; discriminate); [done|].
    cbn in Hx. rewrite !andb_true_iff, bool_decide_eq_true, Hx, IH. split; [by intros [[-> ->] ->]|by intros [=]].
Qed.

#[global] Instance Value_eq_dec : EqDecision Value.
Proof.
  intros a b. destruct (value_eqb a b) eqn:Hab; [left; by apply value_eqb_eq|right].
  intros Heq%value_eqb_eq. congruence.
Defined.

(** ** Accessors *)

Fixpoint member (key : str) (members : list (str * Value)) : option Value :=
  match members with
  | [] => None
  | (k, v) :: members => if decide (k = key) then Some v else member key members
  end.
(** [Value::get] with a name. *)
Definition get_key (key : str) (v : Value) : option Value :=
  match v with Object members => member key members | _ => None end.
(** [value[key]], null when there is none. *)
Definition at_key (key : str) (v : Value) : Value := default Null (get_key key v).

Definition as_str (v : Value) : option str := match v with Str s => Some s | _ => None end.
Definition as_array (v : Value) : option (list Value) := match v with Array items => Some items | _ => None end.
Definition as_u64 (v : Value) : option N := match v with Number n _ => n | _ => None end.
Definition is_null (v : Value) : bool := match v with Null => true | _ => false end.
Definition is_string (v : Value) : bool := match v with Str _ => true | _ => false end.
Definition is_object (v : Value) : bool := match v with Object _ => true | _ => false end.

(** The text of a member. *)
Definition get_str (key : str) (v : Value) : option str := get_key key v ≫= as_str.
(** A member that is a list. *)
Definition get_array (key : str) (v : Value) : option (list Value) := get_key key v ≫= as_array.

(** An object without one of its members. *)
Definition without (key : str) (v : Value) : Value :=
  match v with Object members => Object (filter (λ m, m.1 ≠ key) members) | v => v end.
