(* ===== verification/Stream.v ===== *)
(** The stream of a model's answer, [models/openai/stream.rs] with [sse.rs],
    [reasoning.rs], [terminal.rs], [tools.rs], [replay.rs] and [errors.rs] of
    [models/openai].

    Frames come from the parser of [Sse]; each is an event of the provider, and the
    handlers turn it into events of the runtime: pieces of text and reasoning, tool
    calls that start, grow and end, the replay, the usage and the finish.  What a poll
    of the body gives, decoding JSON, SHA-256 and the checks of [minicore_runtime] are
    arguments.  [StreamProtocol] says what a consumer can rely on. *)

From stdpp Require Import sorting.
From S2P Require Import Prelude RustStr Json.
From S2P Require Sse Usage.

(** ** Events and errors of the runtime *)

Inductive ModelErrorKind :=
  | Cancelled | Timeout | InvalidProviderResponse | IncompleteResponse | StreamInterrupted
  | RequestOutcomeUnknown | ContextOverflow | QuotaExceeded | RateLimited | ProviderUnavailable.
#[global] Instance ModelErrorKind_eq_dec : EqDecision ModelErrorKind.
Proof. solve_decision. Defined.
Inductive DeliveryState := NotStarted | Started | UnknownDelivery.
(** Without the diagnostic text. *)
Record ModelError := mkModelError { error_kind : ModelErrorKind; delivery : DeliveryState; retryable : bool }.

Definition local_error (k : ModelErrorKind) : ModelError := mkModelError k NotStarted false.
Definition unknown_error (k : ModelErrorKind) : ModelError := mkModelError k UnknownDelivery false.
Definition started_error (k : ModelErrorKind) : ModelError := mkModelError k Started false.
Definition retryable_error (k : ModelErrorKind) : ModelError := mkModelError k NotStarted true.
Definition stream_error (k : ModelErrorKind) (provider_event_seen : bool) : ModelError :=
  if provider_event_seen then started_error k else unknown_error k.

Inductive ModelFinishReason := Stop | Length | ToolCalls | ContentFiltered | Refused | UnknownReason.
#[global] Instance ModelFinishReason_eq_dec : EqDecision ModelFinishReason.
Proof. solve_decision. Defined.

Record FunctionCallItem := mkCall { call_id : str; call_name : str; call_arguments : str }.

Record ReasoningSummaryDeltaEvent := mkReasoning {
  r_delta : str; r_output_index : option Value; r_item_id : option str; r_summary_index : option Value
}.

Record ProviderUsage := mkProviderUsage {
  u_input_tokens : N; u_output_tokens : N; u_total_tokens : option N;
  u_cached_tokens : option N; u_cache_write_tokens : option N; u_reasoning_tokens : option N
}.

Record ProviderResponse := mkResponse {
  response_status : option str; response_usage : option ProviderUsage;
  response_reason : option str; response_output : option (list Value)
}.

(** What is not in [src]. *)
Class Provider := {
  (** [serde_json]. *)
  from_slice : list N → option Value;
  from_str : str → option Value;
  to_vec : Value → list N;
  (** The derived decoders of the wire types. *)
  delta_event : Value → option str;
  reasoning_event : Value → option ReasoningSummaryDeltaEvent;
  output_item_event : Value → option (N * Value);
  function_call_item : Value → option FunctionCallItem;
  arguments_event : str → Value → option (N * str);
  terminal_event : Value → option ProviderResponse;
  (** [ToolCallId::new], [ToolName::from_str] and [ProviderReplay::new]. *)
  valid_call_id : str → bool;
  valid_tool_name : str → bool;
  ProviderReplay : Type;
  replay_new : str → str → list Value → option ProviderReplay;
  sha256 : list N → list N;
  MAX_EVENT_BYTES : N;
  MAX_JSON_BYTES : N;
  MAX_REPLAY_BYTES : N
}.

(** A piece of text can hold any character. *)
Class ProviderLaws `{Provider} : Prop := max_event_law : (4 <= MAX_EVENT_BYTES)%N.

Definition MAX_OPENAI_CALL_ID_BYTES : N := 64.
Definition MAX_REPLAY_ITEMS_PER_RESPONSE : nat := 256.

Section stream.
Context `{Provider}.

Inductive ModelEvent :=
  | TextDelta (text : str)
  | ReasoningDelta (text : str)
  | ToolCallStart (id name : str)
  | ToolCallArgumentsDelta (id text : str)
  | ToolCallEnd (id : str)
  | Replay (replay : ProviderReplay)
  | UsageEvent (usage : Usage.Usage)
  | Finish (reason : ModelFinishReason).

(** ** State *)

Record ToolState := mkTool {
  tool_call_id : str;
  tool_name : str;
  arguments : str;
  arguments_done : bool;
  item_done : bool;
  ended : bool
}.

Record ReasoningPartKey := mkKey { k_output_index : option N; k_item_id : option str; k_summary_index : option N }.
#[export] Instance ReasoningPartKey_eq_dec : EqDecision ReasoningPartKey.
Proof. solve_decision. Defined.

Record ReasoningParts := mkParts {
  last_key : option ReasoningPartKey;
  lifecycle : N;
  last_lifecycle : N;
  emitted : bool;
  last_ends_newline : bool;
  pending_boundary : bool
}.
Definition ReasoningParts_default : ReasoningParts := mkParts None 0 0 false false false.

(** Digests of a finished item, and its text. *)
Record ItemEvidence := mkEvidence { exact : list N; before_encryption : option (list N); evidence_text : str }.

Record StreamState := mkState {
  parser : Sse.SseParser;
  pending : list (result ModelError ModelEvent);
  tools : gmap N ToolState;
  tool_ids : gset str;
  tool_order : list N;
  output_evidence : gmap N ItemEvidence;
  output_ids : gset str;
  output_items : option (gmap N Value);
  output_item_bytes : N;
  replay_identity : option (str * str);
  text : str;
  provider_event_seen : bool;
  output_seen : bool;
  reasoning_seen : bool;
  refusal_seen : bool;
  terminal_seen : bool;
  reasoning_parts : ReasoningParts;
  done_ : bool
}.
(** Changes of one field. *)
Definition on_parser (f : Sse.SseParser → Sse.SseParser) (s : StreamState) : StreamState :=
  mkState
    (f (parser s)) (pending s) (tools s) (tool_ids s) (tool_order s) (output_evidence s) (output_ids s)
    (output_items s) (output_item_bytes s) (replay_identity s) (text s) (provider_event_seen s) (output_seen
    s) (reasoning_seen s) (refusal_seen s) (terminal_seen s) (reasoning_parts s) (done_ s).
Definition on_pending (f : list (result ModelError ModelEvent) → list (result ModelError ModelEvent)) (s : StreamState) : StreamState :=
  mkState
    (parser s) (f (pending s)) (tools s) (tool_ids s) (tool_order s) (output_evidence s) (output_ids s)
    (output_items s) (output_item_bytes s) (replay_identity s) (text s) (provider_event_seen s) (output_seen
    s) (reasoning_seen s) (refusal_seen s) (terminal_seen s) (reasoning_parts s) (done_ s).
Definition on_tools (f : gmap N ToolState → gmap N ToolState) (s : StreamState) : StreamState :=
  mkState
    (parser s) (pending s) (f (tools s)) (tool_ids s) (tool_order s) (output_evidence s) (output_ids s)
    (output_items s) (output_item_bytes s) (replay_identity s) (text s) (provider_event_seen s) (output_seen
    s) (reasoning_seen s) (refusal_seen s) (terminal_seen s) (reasoning_parts s) (done_ s).
Definition on_tool_ids (f : gset str → gset str) (s : StreamState) : StreamState :=
  mkState
    (parser s) (pending s) (tools s) (f (tool_ids s)) (tool_order s) (output_evidence s) (output_ids s)
    (output_items s) (output_item_bytes s) (replay_identity s) (text s) (provider_event_seen s) (output_seen
    s) (reasoning_seen s) (refusal_seen s) (terminal_seen s) (reasoning_parts s) (done_ s).
Definition on_tool_order (f : list N → list N) (s : StreamState) : StreamState :=
  mkState
    (parser s) (pending s) (tools s) (tool_ids s) (f (tool_order s)) (output_evidence s) (output_ids s)
    (output_items s) (output_item_bytes s) (replay_identity s) (text s) (provider_event_seen s) (output_seen
    s) (reasoning_seen s) (refusal_seen s) (terminal_seen s) (reasoning_parts s) (done_ s).
Definition on_output_evidence (f : gmap N ItemEvidence → gmap N ItemEvidence) (s : StreamState) : StreamState :=
  mkState
    (parser s) (pending s) (tools s) (tool_ids s) (tool_order s) (f (output_evidence s)) (output_ids s)
    (output_items s) (output_item_bytes s) (replay_identity s) (text s) (provider_event_seen s) (output_seen
    s) (reasoning_seen s) (refusal_seen s) (terminal_seen s) (reasoning_parts s) (done_ s).
Definition on_output_ids (f : gset str → gset str) (s : StreamState) : StreamState :=
  mkState
    (parser s) (pending s) (tools s) (tool_ids s) (tool_order s) (output_evidence s) (f (output_ids s))
    (output_items s) (output_item_bytes s) (replay_identity s) (text s) (provider_event_seen s) (output_seen
    s) (reasoning_seen s) (refusal_seen s) (terminal_seen s) (reasoning_parts s) (done_ s).
Definition on_output_items (f : option (gmap N Value) → option (gmap N Value)) (s : StreamState) : StreamState :=
  mkState
    (parser s) (pending s) (tools s) (tool_ids s) (tool_order s) (output_evidence s) (output_ids s) (f
    (output_items s)) (output_item_bytes s) (replay_identity s) (text s) (provider_event_seen s)
    (output_seen s) (reasoning_seen s) (refusal_seen s) (terminal_seen s) (reasoning_parts s) (done_ s).
Definition on_output_item_bytes (f : N → N) (s : StreamState) : StreamState :=
  mkState
    (parser s) (pending s) (tools s) (tool_ids s) (tool_order s) (output_evidence s) (output_ids s)
    (output_items s) (f (output_item_bytes s)) (replay_identity s) (text s) (provider_event_seen s)
    (output_seen s) (reasoning_seen s) (refusal_seen s) (terminal_seen s) (reasoning_parts s) (done_ s).
Definition on_text (f : str → str) (s : StreamState) : StreamState :=
  mkState
    (parser s) (pending s) (tools s) (tool_ids s) (tool_order s) (output_evidence s) (output_ids s)
    (output_items s) (output_item_bytes s) (replay_identity s) (f (text s)) (provider_event_seen s)
    (output_seen s) (reasoning_seen s) (refusal_seen s) (terminal_seen s) (reasoning_parts s) (done_ s).
Definition on_provider_event_seen (f : bool → bool) (s : StreamState) : StreamState :=
  mkState
    (parser s) (pending s) (tools s) (tool_ids s) (tool_order s) (output_evidence s) (output_ids s)
    (output_items s) (output_item_bytes s) (replay_identity s) (text s) (f (provider_event_seen s))
    (output_seen s) (reasoning_seen s) (refusal_seen s) (terminal_seen s) (reasoning_parts s) (done_ s).
Definition on_output_seen (f : bool → bool) (s : StreamState) : StreamState :=
  mkState
    (parser s) (pending s) (tools s) (tool_ids s) (tool_order s) (output_evidence s) (output_ids s)
    (output_items s) (output_item_bytes s) (replay_identity s) (text s) (provider_event_seen s) (f
    (output_seen s)) (reasoning_seen s) (refusal_seen s) (terminal_seen s) (reasoning_parts s) (done_ s).
Definition on_reasoning_seen (f : bool → bool) (s : StreamState) : StreamState :=
  mkState
    (parser s) (pending s) (tools s) (tool_ids s) (tool_order s) (output_evidence s) (output_ids s)
    (output_items s) (output_item_bytes s) (replay_identity s) (text s) (provider_event_seen s) (output_seen
    s) (f (reasoning_seen s)) (refusal_seen s) (terminal_seen s) (reasoning_parts s) (done_ s).
Definition on_refusal_seen (f : bool → bool) (s : StreamState) : StreamState :=
  mkState
    (parser s) (pending s) (tools s) (tool_ids s) (tool_order s) (output_evidence s) (output_ids s)
    (output_items s) (output_item_bytes s) (replay_identity s) (text s) (provider_event_seen s) (output_seen
    s) (reasoning_seen s) (f (refusal_seen s)) (terminal_seen s) (reasoning_parts s) (done_ s).
Definition on_terminal_seen (f : bool → bool) (s : StreamState) : StreamState :=
  mkState
    (parser s) (pending s) (tools s) (tool_ids s) (tool_order s) (output_evidence s) (output_ids s)
    (output_items s) (output_item_bytes s) (replay_identity s) (text s) (provider_event_seen s) (output_seen
    s) (reasoning_seen s) (refusal_seen s) (f (terminal_seen s)) (reasoning_parts s) (done_ s).
Definition on_reasoning_parts (f : ReasoningParts → ReasoningParts) (s : StreamState) : StreamState :=
  mkState
    (parser s) (pending s) (tools s) (tool_ids s) (tool_order s) (output_evidence s) (output_ids s)
    (output_items s) (output_item_bytes s) (replay_identity s) (text s) (provider_event_seen s) (output_seen
    s) (reasoning_seen s) (refusal_seen s) (terminal_seen s) (f (reasoning_parts s)) (done_ s).
Definition on_done (f : bool → bool) (s : StreamState) : StreamState :=
  mkState
    (parser s) (pending s) (tools s) (tool_ids s) (tool_order s) (output_evidence s) (output_ids s)
    (output_items s) (output_item_bytes s) (replay_identity s) (text s) (provider_event_seen s) (output_seen
    s) (reasoning_seen s) (refusal_seen s) (terminal_seen s) (reasoning_parts s) (f (done_ s)).

Definition new_with_replay (identity : option (str * str)) : StreamState :=
  mkState Sse.SseParser_default [] ∅ ∅ [] ∅ ∅ (Some ∅) 0 identity [] false false false false false
    ReasoningParts_default false.

Notation M := (stm StreamState unit).

Definition queue (event : ModelEvent) : M unit := modify (on_pending (λ p, p ++ [Ok event])).

Definition fail (error : ModelError) (s : StreamState) : StreamState :=
  on_pending (λ p, p ++ [Err error]) (on_done (λ _, true) s).
Definition malformed (s : StreamState) : StreamState :=
  fail (stream_error InvalidProviderResponse (provider_event_seen s)) s.

Fixpoint for_each {A} (f : A → M unit) (l : list A) : M unit :=
  match l with [] => mret tt | x :: l => _ ← f x; for_each f l end.

(** ** Text *)

Fixpoint chunks_loop (fuel : nat) (value : str) : list str :=
  match fuel with
  | O => []
  | S fuel =>
      let '(chunk, rest) := split_floor MAX_EVENT_BYTES value in
      chunk :: (if decide (rest = []) then [] else chunks_loop fuel rest)
  end.
Definition event_text_chunks (value : str) : list str := chunks_loop (S (length value)) value.

Definition queue_text (text : str) (reasoning : bool) : M unit :=
  _ ← (if reasoning then mret tt else modify (on_text (λ t, t ++ text)));
  for_each (λ chunk, queue (if reasoning then ReasoningDelta chunk else TextDelta chunk)) (event_text_chunks text).

(** ** Reasoning *)

Definition mark_item_boundary (p : ReasoningParts) : ReasoningParts :=
  mkParts (last_key p) (wrapping_succ (lifecycle p)) (last_lifecycle p) (emitted p) (last_ends_newline p)
    (pending_boundary p).

Definition value_to_u32 (value : Value) : option N :=
  n ← as_u64 value; if decide (n <= u32_max)%N then Some n else None.

Definition or {A} (a b : option A) : option A := match a with Some a => Some a | None => b end.

Definition merge_reasoning_key (previous : option ReasoningPartKey) (event : ReasoningSummaryDeltaEvent)
    : option ReasoningPartKey :=
  if decide (r_output_index event = None ∧ r_item_id event = None ∧ r_summary_index event = None) then previous else
  let previous := default (mkKey None None None) previous in
  Some (mkKey (or (r_output_index event ≫= value_to_u32) (k_output_index previous))
          (or (r_item_id event) (k_item_id previous))
          (or (r_summary_index event ≫= value_to_u32) (k_summary_index previous))).

Definition is_break (c : char) : bool := bool_decide (c = LF ∨ c = CR).

Definition queue_reasoning_delta (event : ReasoningSummaryDeltaEvent) : M unit :=
  s ← get;
  let p := reasoning_parts s in
  let merged := merge_reasoning_key (last_key p) event in
  let delta := r_delta event in
  let identity_changed := bool_decide (merged ≠ last_key p) in
  let lifecycle_changed := bool_decide (last_lifecycle p ≠ lifecycle p) in
  if decide (delta = []) then
    if identity_changed || lifecycle_changed then
      modify (on_reasoning_parts (λ p, mkParts merged (lifecycle p) (lifecycle p) (emitted p) (last_ends_newline p) true))
    else mret tt
  else
    let boundary := identity_changed || lifecycle_changed || pending_boundary p in
    let needs_separator := boundary && emitted p && negb (last_ends_newline p)
                           && negb (from_option is_break false (head delta)) in
    _ ← (if needs_separator then queue_text [LF] true else mret tt);
    let ends_newline := from_option is_break false (last delta) in
    _ ← queue_text delta true;
    modify (on_reasoning_parts (λ p,
      mkParts (if boundary then merged else last_key p) (lifecycle p)
        (if boundary then lifecycle p else last_lifecycle p) true ends_newline false)).

Definition item_type (value : Value) : option str := get_str (lit "type") value.
Definition is_type (kind : string) (value : Value) : bool := bool_decide (item_type value = Some (lit kind)).

Definition item_texts (item : Value) (field kind : string) : list str :=
  omap (get_str (lit "text")) (filter (λ part, is_type kind part = true) (default [] (get_array (lit field) item))).

Definition number_of (n : N) : Value := Number (Some n) (show_N n).

Fixpoint queue_parts (output_index : N) (item : Value) (index : N) (parts : list str) : M unit :=
  match parts with
  | [] => mret tt
  | delta :: parts =>
      _ ← queue_reasoning_delta (mkReasoning delta (Some (number_of output_index)) (get_str (lit "id") item)
                                   (Some (number_of index)));
      queue_parts output_index item (index + 1)%N parts
  end.
Definition queue_item_reasoning (output_index : N) (item : Value) : M unit :=
  let parts := item_texts item "content" "reasoning_text" in
  queue_parts output_index item 0
    (if decide (parts = []) then item_texts item "summary" "summary_text" else parts).

(** ** Tool calls *)

Definition openai_tool_call_id (value : str) : result unit str :=
  if decide (MAX_OPENAI_CALL_ID_BYTES < str_len value)%N then Err tt
  else if valid_call_id value then Ok value else Err tt.
Definition parse_tool_name (name : str) : result unit str := if valid_tool_name name then Ok name else Err tt.

Definition get_tool (output_index : N) : M ToolState :=
  s ← get; lift (ok_or (tools s !! output_index) tt).

Definition append_tool_arguments (output_index : N) (delta : str) : M unit :=
  tool ← get_tool output_index;
  _ ← throw_if (arguments_done tool = true ∨ item_done tool = true) tt;
  let length := (str_len (arguments tool) + str_len delta)%N in
  _ ← throw_if (usize_max < length)%N tt;
  _ ← throw_if (MAX_JSON_BYTES < length)%N tt;
  _ ← modify (on_tools (<[output_index := mkTool (tool_call_id tool) (tool_name tool) (arguments tool ++ delta)
                          (arguments_done tool) (item_done tool) (ended tool)]>));
  for_each (λ chunk, queue (ToolCallArgumentsDelta (tool_call_id tool) chunk)) (event_text_chunks delta).

Definition start_tool (output_index : N) (item : FunctionCallItem) : M unit :=
  s ← get;
  _ ← throw_if (is_Some (tools s !! output_index)) tt;
  id ← lift (openai_tool_call_id (call_id item));
  name ← lift (parse_tool_name (call_name item));
  _ ← throw_if (id ∈ tool_ids s) tt;
  _ ← modify (on_tool_ids (λ ids, {[id]} ∪ ids));
  _ ← queue (ToolCallStart id name);
  _ ← modify (on_tool_order (λ o, o ++ [output_index]));
  _ ← modify (on_tools (<[output_index := mkTool id name [] false false false]>));
  append_tool_arguments output_index (call_arguments item).

Definition reconcile_arguments (output_index : N) (complete : str) : M unit :=
  tool ← get_tool output_index;
  remainder ← lift (ok_or (strip_prefix (arguments tool) complete) tt);
  if decide (remainder = []) then mret tt else append_tool_arguments output_index remainder.

Definition end_tool_once (output_index : N) : M unit :=
  tool ← get_tool output_index;
  if ended tool then mret tt else
  _ ← throw_if (arguments tool = []) tt;
  _ ← modify (on_tools (<[output_index := mkTool (tool_call_id tool) (tool_name tool) (arguments tool)
                          (arguments_done tool) (item_done tool) true]>));
  queue (ToolCallEnd (tool_call_id tool)).

Definition finish_tool_arguments (output_index : N) (complete : str) : M unit :=
  s ← get;
  _ ← throw_if (from_option arguments_done false (tools s !! output_index) = true) tt;
  _ ← reconcile_arguments output_index complete;
  tool ← get_tool output_index;
  _ ← modify (on_tools (<[output_index := mkTool (tool_call_id tool) (tool_name tool) (arguments tool) true
                          (item_done tool) (ended tool)]>));
  end_tool_once output_index.

Definition finish_tool_item (output_index : N) (item : FunctionCallItem) : M unit :=
  s ← get;
  _ ← match tools s !! output_index with
      | Some tool =>
          _ ← throw_if (tool_call_id tool ≠ call_id item ∨ tool_name tool ≠ call_name item) tt;
          _ ← throw_if (item_done tool = true) tt;
          reconcile_arguments output_index (call_arguments item)
      | None => start_tool output_index item
      end;
  tool ← get_tool output_index;
  _ ← modify (on_tools (<[output_index := mkTool (tool_call_id tool) (tool_name tool) (arguments tool)
                          (arguments_done tool) true (ended tool)]>));
  end_tool_once output_index.

(** ** Replay *)

Definition get_text (key : string) (value : Value) : result unit str := ok_or (get_str (lit key) value) tt.

Definition for_all {A} (f : A → result unit unit) (l : list A) : result unit unit :=
  foldr (λ x rest, _ ← f x; rest) (Ok tt) l.

(** [char::is_control]. *)
Definition is_control (c : char) : bool := bool_decide (c < 32 ∨ 127 <= c < 160)%N.

Definition validate_message (item : Value) : result unit unit :=
  role ← get_text "role" item;
  _ ← ensure (role = lit "assistant") tt;
  content ← ok_or (get_array (lit "content") item) tt;
  _ ← ensure (content ≠ []) tt;
  for_all (λ part,
    kind ← get_text "type" part;
    if decide (kind = lit "output_text") then _ ← get_text "text" part; Ok tt
    else if decide (kind = lit "refusal") then _ ← get_text "refusal" part; Ok tt
    else Err tt) content.

Definition validate_reasoning (item : Value) : result unit unit :=
  _ ← ensure (from_option (λ encrypted, is_null encrypted || is_string encrypted) true
                (get_key (lit "encrypted_content") item) = true) tt;
  match get_key (lit "summary") item with
  | None => Ok tt
  | Some summary =>
      parts ← ok_or (as_array summary) tt;
      for_all (λ part,
        kind ← get_text "type" part;
        _ ← ensure (kind = lit "summary_text") tt;
        _ ← get_text "text" part; Ok tt) parts
  end.

Definition validate_call (item : Value) : result unit unit :=
  id ← get_text "call_id" item;
  _ ← openai_tool_call_id id;
  name ← get_text "name" item;
  _ ← parse_tool_name name;
  text ← get_text "arguments" item;
  arguments ← ok_or (from_str text) tt;
  ensure (is_object arguments = true) tt.

Definition validate_item (item : Value) : result unit unit :=
  _ ← ensure (is_object item = true) tt;
  kind ← get_text "type" item;
  _ ← ensure (kind ∈ [lit "message"; lit "reasoning"; lit "function_call"]) tt;
  _ ← ensure (from_option (λ role, bool_decide (as_str role = Some (lit "assistant"))) true
                (get_key (lit "role") item) = true) tt;
  _ ← match get_key (lit "id") item with
      | None => Ok tt
      | Some id =>
          id ← ok_or (as_str id) tt;
          ensure (id ≠ [] ∧ (str_len id <= 256)%N ∧ existsb is_control id = false) tt
      end;
  _ ← ensure (from_option (λ status, bool_decide (as_str status ∈ [Some (lit "completed"); Some (lit "incomplete")])) true
                (get_key (lit "status") item) = true) tt;
  if decide (kind = lit "message") then validate_message item
  else if decide (kind = lit "reasoning") then validate_reasoning item
  else validate_call item.

Definition nonempty (value : Value) : bool := match as_str value with Some (_ :: _) => true | _ => false end.

Definition has_content (output : list Value) : bool :=
  existsb (λ item,
    if is_type "function_call" item then true
    else if is_type "message" item then
      existsb (λ part, nonempty (at_key (if is_type "refusal" part then lit "refusal" else lit "text") part))
        (default [] (get_array (lit "content") item))
    else nonempty (at_key (lit "encrypted_content") item)
         || existsb (λ part, nonempty (at_key (lit "text") part)) (default [] (get_array (lit "summary") item))) output.

(** The checks of one output after another: its identities are its own. *)
Fixpoint validate_items (ids calls : gset str) (output : list Value) : result unit unit :=
  match output with
  | [] => Ok tt
  | item :: output =>
      _ ← validate_item item;
      ids ← match get_str (lit "id") item with
            | Some id => _ ← ensure (id ∉ ids) tt; Ok ({[id]} ∪ ids)
            | None => Ok ids
            end;
      calls ← (if is_type "function_call" item then
                 id ← get_text "call_id" item; _ ← ensure (id ∉ calls) tt; Ok ({[id]} ∪ calls)
               else Ok calls);
      validate_items ids calls output
  end.
Definition validate_output (output : list Value) : result unit unit :=
  _ ← ensure (output ≠ [] ∧ length output <= MAX_REPLAY_ITEMS_PER_RESPONSE) tt;
  _ ← validate_items ∅ ∅ output;
  ensure (has_content output = true) tt.

Fixpoint content_text (parts : list Value) : result unit str :=
  match parts with
  | [] => Ok []
  | part :: parts =>
      text ← get_text (if is_type "refusal" part then "refusal" else "text") part;
      rest ← content_text parts;
      Ok (text ++ rest)
  end.
Fixpoint visible_text (output : list Value) : result unit str :=
  match output with
  | [] => Ok []
  | item :: output =>
      if is_type "message" item then
        content ← ok_or (get_array (lit "content") item) tt;
        text ← content_text content;
        rest ← visible_text output;
        Ok (text ++ rest)
      else visible_text output
  end.

(** [serde_json::to_value] of [InputMessage::assistant] without an identity. *)
Definition assistant_message (text : str) : Value :=
  Object [(lit "content", Array [Object [(lit "annotations", Array []); (lit "text", Str text);
                                         (lit "type", Str (lit "output_text"))]]);
          (lit "role", Str (lit "assistant")); (lit "status", Str (lit "completed")); (lit "type", Str (lit "message"))].

Fixpoint reusable_items (output : list Value) : result unit (list Value) :=
  match output with
  | [] => Ok []
  | item :: output =>
      if bool_decide (is_Some (get_key (lit "id") item)) || is_type "function_call" item then
        rest ← reusable_items output; Ok (item :: rest)
      else if is_type "message" item then
        text ← visible_text [item];
        rest ← reusable_items output; Ok (assistant_message text :: rest)
      else reusable_items output
  end.

Definition capture (endpoint model : str) (output : list Value) : result unit (option ProviderReplay) :=
  _ ← validate_output output;
  reusable ← reusable_items output;
  Ok (if has_content reusable then replay_new endpoint model reusable else None).

Definition fingerprint (item : Value) (omit_encrypted : bool) : list N :=
  sha256 (to_vec (if omit_encrypted then without (lit "encrypted_content") item else item)).

Definition ItemEvidence_new (item : Value) : result unit ItemEvidence :=
  text ← visible_text [item];
  Ok (mkEvidence (fingerprint item false)
        (if is_type "reasoning" item && from_option is_null true (get_key (lit "encrypted_content") item)
         then Some (fingerprint item true) else None) text).

Definition matches (evidence : ItemEvidence) (terminal : Value) : bool :=
  bool_decide (exact evidence = fingerprint terminal false)
  || match before_encryption evidence with
     | Some before => from_option is_string false (get_key (lit "encrypted_content") terminal)
                      && bool_decide (before = fingerprint terminal true)
     | None => false
     end.

(** Keys and values of a [BTreeMap]. *)
Definition sorted_keys {A} (m : gmap N A) : list N := merge_sort N.le (map_to_list m).*1.
Definition sorted_values {A} (m : gmap N A) : list A := omap (λ k, m !! k) (sorted_keys m).

Definition is_refusal_message (item : Value) : bool :=
  is_type "message" item && existsb (is_type "refusal") (default [] (get_array (lit "content") item)).

Definition capture_output_item (output_index : N) (item : Value) : M unit :=
  _ ← lift (validate_item item);
  s ← get;
  _ ← throw_if (MAX_REPLAY_ITEMS_PER_RESPONSE <= size (output_evidence s)) tt;
  evidence ← lift (ItemEvidence_new item);
  _ ← modify (on_output_evidence (<[output_index := evidence]>));
  _ ← throw_if (is_Some (output_evidence s !! output_index)) tt;
  _ ← match get_str (lit "id") item with
      | Some id => _ ← modify (on_output_ids (λ ids, {[id]} ∪ ids)); throw_if (id ∈ output_ids s) tt
      | None => mret tt
      end;
  _ ← (if is_type "message" item then
         content ← lift (ok_or (as_array (at_key (lit "content") item)) tt);
         modify (on_refusal_seen (λ seen, seen || existsb (is_type "refusal") content))
       else mret tt);
  match output_items s with
  | None => mret tt
  | Some output_items =>
      let bytes := (output_item_bytes s + lenN (to_vec item))%N in
      _ ← modify (on_output_item_bytes (λ _, bytes));
      modify (on_output_items (λ _, if decide (MAX_REPLAY_BYTES < bytes)%N then None
                                    else Some (<[output_index := item]> output_items)))
  end.

Definition finalize_output_items (terminal_output : option (list Value)) : M unit :=
  match terminal_output with
  | None => mret tt
  | Some output =>
      _ ← (if decide (output = []) then mret tt else lift (validate_output output));
      s ← get;
      _ ← throw_if (forallb (λ '(i, evidence), from_option (matches evidence) false (output !! N.to_nat i))
                      (map_to_list (output_evidence s)) = false) tt;
      modify (on_output_items (λ _, Some (list_to_map (imap (λ i item, (N.of_nat i, item)) output))))
  end.

Definition without_replay (s : StreamState) : result unit (option ModelEvent) :=
  if decide (text s = [] ∧ tools s = ∅ ∧ emitted (reasoning_parts s) = false) then Err tt else Ok None.

(** The call in the output is the one that was streamed. *)
Definition same_call (item : Value) (tool : ToolState) : result unit unit :=
  _ ← ensure (at_key (lit "call_id") item = Str (tool_call_id tool)) tt;
  _ ← ensure (at_key (lit "name") item = Str (tool_name tool)) tt;
  text ← ok_or (as_str (at_key (lit "arguments") item)) tt;
  theirs ← ok_or (from_str text) tt;
  ours ← ok_or (from_str (arguments tool)) tt;
  ensure (theirs = ours) tt.

(** What a replay is checked for before it is captured. *)
Definition replay_checks (s : StreamState) (output : gmap N Value) : result unit unit :=
  _ ← ensure (sorted_keys output = (λ i, N.of_nat i) <$> seq 0 (size output)) tt;
  _ ← ensure (sorted_keys (tools s) = tool_order s) tt;
  _ ← for_all (λ index,
        match output !! index with
        | Some item =>
            if is_type "function_call" item then tool ← ok_or (tools s !! index) tt; same_call item tool else Ok tt
        | None => Ok tt
        end) (sorted_keys output);
  _ ← for_all (λ index, ensure (from_option (is_type "function_call") false (output !! index) = true) tt)
        (sorted_keys (tools s));
  text_ ← visible_text (sorted_values output);
  ensure (text_ = text s) tt.

Definition replay_event : M (option ModelEvent) :=
  s ← get;
  match replay_identity s with
  | None => mret None
  | Some (endpoint, model) =>
      match output_items s with
      | None => lift (without_replay s)
      | Some output =>
          _ ← throw_if (tools s ≠ ∅ ∧ reasoning_seen s = true ∧ existsb (is_type "reasoning") (sorted_values output) = false) tt;
          if decide (output = ∅) then mret None else
          _ ← lift (replay_checks s output);
          _ ← modify (on_output_items (λ _, None));
          replay ← lift (capture endpoint model (sorted_values output));
          match replay with
          | Some replay => mret (Some (Replay replay))
          | None => s ← get; lift (without_replay s)
          end
      end
  end.

(** ** The end of a response *)

Inductive TerminalKind := Completed | Incomplete.

Definition provider_usage (u : ProviderUsage) : result unit Usage.Usage :=
  let cached := u_cached_tokens u in
  let cache_write := u_cache_write_tokens u in
  cached_and_written ← ok_or (checked_add (default 0%N cached) (default 0%N cache_write)) tt;
  input ← ok_or (checked_sub (u_input_tokens u) cached_and_written) tt;
  let reasoning := u_reasoning_tokens u in
  output ← ok_or (checked_sub (u_output_tokens u) (default 0%N reasoning)) tt;
  _ ← ensure (from_option (λ total, bool_decide (checked_add (u_input_tokens u) (u_output_tokens u) = Some total)) true
                (u_total_tokens u) = true) tt;
  Ok (Usage.mkUsage ((λ _, input) <$> cached) ((λ _, output) <$> reasoning) reasoning cached cache_write
        (u_total_tokens u)).

Definition expected_status (k : TerminalKind) : str :=
  match k with Completed => lit "completed" | Incomplete => lit "incomplete" end.

Definition finish_reason (k : TerminalKind) (reason : option str) (s : StreamState) : ModelFinishReason :=
  match k with
  | Incomplete =>
      if decide (reason = Some (lit "max_output_tokens") ∨ reason = Some (lit "max_tokens")) then Length
      else if decide (reason = Some (lit "content_filter")) then ContentFiltered
      else if decide (reason = Some (lit "refusal")) then Refused
      else UnknownReason
  | Completed => if refusal_seen s then Refused else if decide (tools s = ∅) then Stop else ToolCalls
  end.

(** The text of the response, by its items or by what is left of them. *)
Definition response_text : M str :=
  s ← get;
  match output_items s with
  | Some output =>
      _ ← modify (on_refusal_seen (λ seen, seen || existsb is_refusal_message (sorted_values output)));
      lift (visible_text (sorted_values output))
  | None => mret (concat (evidence_text <$> sorted_values (output_evidence s)))
  end.

Definition all_ended (s : StreamState) : bool := forallb (λ '(_, tool), ended tool) (map_to_list (tools s)).

Definition finish_events (event : option ModelEvent) (usage : option Usage.Usage) (reason : ModelFinishReason) : M unit :=
  _ ← match event with Some event => queue event | None => mret tt end;
  _ ← modify (on_terminal_seen (λ _, true));
  _ ← match usage with Some usage => queue (UsageEvent usage) | None => mret tt end;
  _ ← queue (Finish reason);
  modify (on_done (λ _, true)).

Definition finish_response (response : ProviderResponse) (k : TerminalKind) : M unit :=
  s ← get;
  _ ← throw_if (terminal_seen s = true ∨ all_ended s = false) tt;
  _ ← throw_if (from_option (λ status, bool_decide (status ≠ expected_status k)) false (response_status response) = true) tt;
  usage ← lift (match response_usage response with Some u => Some <$> provider_usage u | None => Ok None end);
  _ ← finalize_output_items (response_output response);
  full ← response_text;
  s ← get;
  _ ← (if decide (full ≠ [] ∧ full ≠ text s) then
         suffix ← lift (ok_or (strip_prefix (text s) full) tt);
         queue_text suffix false
       else mret tt);
  s ← get;
  let reason := finish_reason k (response_reason response) s in
  event ← replay_event;
  finish_events event usage reason.

(** ** A frame *)

(** The kind a failure names, by its code or its type. *)
Definition failure_kind (error : Value) : ModelErrorKind :=
  let named code :=
    if decide (code ∈ [lit "context_length_exceeded"; lit "context_window_exceeded"; lit "context_overflow"])
    then Some ContextOverflow
    else if decide (code ∈ [lit "insufficient_quota"; lit "quota_exceeded"]) then Some QuotaExceeded
    else if decide (code = lit "rate_limit_exceeded") then Some RateLimited else None in
  let by_name name := get_str (lit name) error ≫= named in
  default ProviderUnavailable (or (by_name "code") (by_name "type")).

(** [with_provider] keeps the classification of an error. *)
Definition failed_response (value : Value) (s : StreamState) : ModelError :=
  let envelope := or (get_key (lit "response") value ≫= get_key (lit "error")) (get_key (lit "error") value) in
  let kind := failure_kind (default value envelope) in
  let failed_output := from_option (λ output, bool_decide (output ≠ [])) false
                         (get_key (lit "response") value ≫= get_array (lit "output")) in
  if output_seen s || failed_output then started_error kind
  else if decide (kind = RateLimited) then retryable_error kind
  else local_error kind.

Definition is_output_event (event_type : str) : bool :=
  existsb (λ p, starts_with (lit p) event_type)
    ["response.output_"; "response.content_part."; "response.reasoning_"; "response.refusal."; "response.function_call_"]%string.

Definition DONE : list N := as_bytes (lit "[DONE]").

Definition on_event (event_type : str) (value : Value) : M unit :=
  let named name := bool_decide (event_type = lit name) in
  let mark := modify (on_reasoning_parts mark_item_boundary) in
  let seen_reasoning := modify (on_reasoning_seen (λ _, true)) in
  if named "response.output_text.delta" then
    delta ← lift (ok_or (delta_event value) tt); queue_text delta false
  else if named "response.refusal.delta" then
    delta ← lift (ok_or (delta_event value) tt);
    _ ← modify (on_refusal_seen (λ seen, seen || bool_decide (delta ≠ [])));
    queue_text delta false
  else if named "response.reasoning_summary_text.delta" || named "response.reasoning_text.delta" then
    event ← lift (ok_or (reasoning_event value) tt); _ ← queue_reasoning_delta event; seen_reasoning
  else if named "response.reasoning.delta" then
    if from_option is_string false (get_key (lit "delta") value) then
      event ← lift (ok_or (reasoning_event value) tt); _ ← queue_reasoning_delta event; seen_reasoning
    else mret tt
  else if named "response.reasoning_summary_part.added" || named "response.reasoning_summary_part.done" then mark
  else if named "response.output_item.added" then
    '(output_index, item) ← lift (ok_or (output_item_event value) tt);
    if is_type "function_call" item then
      call ← lift (ok_or (function_call_item item) tt); start_tool output_index call
    else if is_type "reasoning" item then mark else mret tt
  else if named "response.function_call_arguments.delta" then
    '(output_index, delta) ← lift (ok_or (arguments_event (lit "delta") value) tt);
    append_tool_arguments output_index delta
  else if named "response.function_call_arguments.done" then
    '(output_index, complete) ← lift (ok_or (arguments_event (lit "arguments") value) tt);
    finish_tool_arguments output_index complete
  else if named "response.output_item.done" then
    '(output_index, item) ← lift (ok_or (output_item_event value) tt);
    _ ← capture_output_item output_index item;
    if is_type "function_call" item then
      call ← lift (ok_or (function_call_item item) tt); finish_tool_item output_index call
    else if is_type "reasoning" item then
      s ← get;
      _ ← (if reasoning_seen s then mret tt else queue_item_reasoning output_index item);
      mark
    else mret tt
  else if named "response.completed" then
    response ← lift (ok_or (terminal_event value) tt); finish_response response Completed
  else if named "response.incomplete" then
    response ← lift (ok_or (terminal_event value) tt); finish_response response Incomplete
  else if named "response.failed" || named "error" then
    _ ← modify (on_terminal_seen (λ _, true));
    s ← get;
    modify (fail (failed_response value s))
  else mret tt.

Definition handle_frame (frame : list N) : M unit :=
  if decide (frame = DONE) then modify (λ s, fail (stream_error IncompleteResponse (provider_event_seen s)) s)
  else
    value ← lift (ok_or (from_slice frame) tt);
    event_type ← lift (ok_or (get_str (lit "type") value) tt);
    _ ← modify (on_provider_event_seen (λ _, true));
    _ ← modify (on_output_seen (λ seen, seen || is_output_event event_type));
    on_event event_type value.

(** ** The body *)

(** What a poll of the body gives. *)
Inductive Poll :=
  | Chunk (chunk : list N)
  | BodyError (timeout : bool)
  | BodyEnd
  | PollCancelled
  | PollDeadline.

Fixpoint frames_loop (fuel : nat) (s : StreamState) : StreamState :=
  match fuel with
  | O => s
  | S fuel =>
      let '(frame, parser) := Sse.pop_frame (parser s) in
      let s := on_parser (λ _, parser) s in
      match frame with
      | None => s
      | Some frame =>
          let '(s, r) := handle_frame frame s in
          match r with
          | Err _ => malformed s
          | Ok _ => if done_ s then s else frames_loop fuel s
          end
      end
  end.

(** What [next_stream_event] makes of one poll; draining the body after the end changes
    nothing that is seen. *)
Definition absorb (p : Poll) (s : StreamState) : StreamState :=
  match p with
  | Chunk chunk =>
      let '(parser, fed) := Sse.feed chunk (parser s) in
      let s := on_parser (λ _, parser) s in
      let s := frames_loop (S (length (Sse.frames parser))) s in
      match fed with
      | Err _ => if done_ s then s else malformed s
      | Ok _ => s
      end
  | BodyError timeout =>
      let kind := if timeout then Timeout else if output_seen s then StreamInterrupted else RequestOutcomeUnknown in
      fail (stream_error kind (provider_event_seen s)) s
  | BodyEnd =>
      fail (stream_error (if output_seen s then StreamInterrupted else IncompleteResponse) (provider_event_seen s)) s
  | PollCancelled => fail (stream_error Cancelled (provider_event_seen s)) s
  | PollDeadline => fail (stream_error Timeout (provider_event_seen s)) s
  end.

(** What a call of the stream gives: an event, the end, or nothing before the next poll. *)
Inductive Next := Event (e : result ModelError ModelEvent) | End | Waiting.

Fixpoint next_stream_event (polls : list Poll) (s : StreamState) : Next * StreamState * list Poll :=
  match pending s with
  | event :: rest => (Event event, on_pending (λ _, rest) s, polls)
  | [] =>
      if done_ s then (End, s, polls) else
      match polls with
      | [] => (Waiting, s, [])
      | p :: polls => next_stream_event polls (absorb p s)
      end
  end.
End stream.
#[global] Arguments event_text_chunks : simpl never.
#[global] Arguments queue_text : simpl never.
#[global] Arguments queue_reasoning_delta : simpl never.
#[global] Arguments append_tool_arguments : simpl never.
#[global] Arguments start_tool : simpl never.
#[global] Arguments reconcile_arguments : simpl never.
#[global] Arguments end_tool_once : simpl never.
#[global] Arguments finish_tool_arguments : simpl never.
#[global] Arguments finish_tool_item : simpl never.
#[global] Arguments capture_output_item : simpl never.
#[global] Arguments finalize_output_items : simpl never.
#[global] Arguments replay_event : simpl never.
#[global] Arguments finish_response : simpl never.
#[global] Arguments on_event : simpl never.
#[global] Arguments handle_frame : simpl never.
