(* ===== verification/StreamProtocol.v ===== *)
(** What a consumer of a model's answer can rely on, [models/openai/stream.rs].

    A consumer of the runtime's events is an automaton: it opens a tool call, adds
    pieces to its arguments and closes it, collects the text, and stops at a finish or
    an error.  The theorem: whatever the body and the provider send, the automaton takes
    every event, and the stream ends exactly after the event that stops it. *)

From stdpp Require Import sorting.
From S2P Require Import Prelude RustStr Json Stream.
From S2P Require Sse Usage.

Section consumer.
Context `{Provider}.

Record Consumer := mkConsumer {
  open_calls : gmap str str;
  closed_calls : gmap str str;
  words : str;
  over : bool
}.
Definition Consumer_new : Consumer := mkConsumer ∅ ∅ [] false.

Definition piece (t : str) : bool := bool_decide (str_len t <= MAX_EVENT_BYTES)%N.

(** One event; [None] when it may not come now. *)
Definition consume_event (e : ModelEvent) (c : Consumer) : option Consumer :=
  match e with
  | TextDelta t =>
      if piece t then Some (mkConsumer (open_calls c) (closed_calls c) (words c ++ t) false) else None
  | ReasoningDelta t => if piece t then Some c else None
  | ToolCallStart id _ =>
      if decide (open_calls c !! id = None ∧ closed_calls c !! id = None ∧ (str_len id <= MAX_OPENAI_CALL_ID_BYTES)%N)
      then Some (mkConsumer (<[id := []]> (open_calls c)) (closed_calls c) (words c) false) else None
  | ToolCallArgumentsDelta id t =>
      args ← open_calls c !! id;
      if piece t && bool_decide (str_len (args ++ t) <= MAX_JSON_BYTES)%N
      then Some (mkConsumer (<[id := args ++ t]> (open_calls c)) (closed_calls c) (words c) false) else None
  | ToolCallEnd id =>
      args ← open_calls c !! id;
      if decide (args = []) then None
      else Some (mkConsumer (delete id (open_calls c)) (<[id := args]> (closed_calls c)) (words c) false)
  | Replay _ | UsageEvent _ => if decide (open_calls c = ∅) then Some c else None
  | Finish reason =>
      if decide (open_calls c = ∅ ∧ (reason = ToolCalls → closed_calls c ≠ ∅) ∧ (reason = Stop → closed_calls c = ∅))
      then Some (mkConsumer (open_calls c) (closed_calls c) (words c) true) else None
  end.
Definition consume (e : result ModelError ModelEvent) (c : Consumer) : option Consumer :=
  if over c then None else
  match e with
  | Ok e => consume_event e c
  | Err _ => Some (mkConsumer (open_calls c) (closed_calls c) (words c) true)
  end.
Fixpoint consume_all (es : list (result ModelError ModelEvent)) (c : Consumer) : option Consumer :=
  match es with [] => Some c | e :: es => c ← consume e c; consume_all es c end.

Lemma consume_all_app es fs c : consume_all (es ++ fs) c = c ← consume_all es c; consume_all fs c.
Proof. revert c. induction es as [|e es IH]; intros c; [done|]. cbn. by destruct (consume e c); cbn. Qed.

(** ** The stream and its consumer *)

Record Live (c : Consumer) (s : StreamState) : Prop := {
  live_text : words c = text s;
  live_tool i t : tools s !! i = Some t →
    (if ended t then closed_calls c else open_calls c) !! tool_call_id t = Some (arguments t);
  live_open id a : open_calls c !! id = Some a → ∃ i t, tools s !! i = Some t ∧ tool_call_id t = id ∧ ended t = false;
  live_closed id a : closed_calls c !! id = Some a → ∃ i t, tools s !! i = Some t ∧ tool_call_id t = id ∧ ended t = true;
  live_ids i t : tools s !! i = Some t → tool_call_id t ∈ tool_ids s;
  live_inj i j t u : tools s !! i = Some t → tools s !! j = Some u → tool_call_id t = tool_call_id u → i = j;
  live_done i t : tools s !! i = Some t → ended t = true → arguments_done t || item_done t = true
}.

(** With what the consumer has taken [before], it can take what is pending. *)
Definition live (before : list (result ModelError ModelEvent)) (s : StreamState) : Prop :=
  ∃ c, consume_all (before ++ pending s) Consumer_new = Some c ∧ over c = false ∧ done_ s = false ∧ Live c s.
Definition ended_ (before : list (result ModelError ModelEvent)) (s : StreamState) : Prop :=
  ∃ c, consume_all (before ++ pending s) Consumer_new = Some c ∧ over c = true ∧ done_ s = true.

(** A state that queues more. *)
Lemma live_queue before es s s' :
  live before s → pending s' = pending s ++ es → done_ s' = false →
  (∀ c, over c = false → Live c s → ∃ c', consume_all es c = Some c' ∧ over c' = false ∧ Live c' s') → live before s'.
Proof.
  intros (c & Hc & Ho & Hd & Hl) Hp Hd' Hes. destruct (Hes c Ho Hl) as (c' & Hc' & Ho' & Hl').
  exists c'. rewrite Hp, app_assoc, consume_all_app, Hc. done.
Qed.

Lemma fail_ended before error s : live before s → ended_ before (fail error s).
Proof.
  intros (c & Hc & Ho & Hd & Hl). eexists. cbn. rewrite app_assoc, consume_all_app, Hc. cbn. unfold consume. by rewrite Ho.
Qed.

(** ** Pieces of text *)

Context (Hmax : ProviderLaws).

Lemma chunks_loop_spec fuel t :
  (length t < fuel)%nat →
  concat (chunks_loop fuel t) = t ∧ Forall (λ p, piece p = true) (chunks_loop fuel t).
Proof.
  revert t. induction fuel as [|fuel IH]; intros t Hfuel; [lia|]. cbn.
  pose proof (split_floor_app MAX_EVENT_BYTES t) as Happ. pose proof (split_floor_le MAX_EVENT_BYTES t) as Hle.
  destruct (split_floor MAX_EVENT_BYTES t) as [chunk rest] eqn:Hsplit. cbn in Happ, Hle.
  assert (Hpiece : piece chunk = true) by by apply bool_decide_eq_true.
  case_decide as Hrest.
  - subst rest. cbn. rewrite app_nil_r in *. split; [done|]. by constructor.
  - assert (Hchunk : chunk ≠ []).
    { intros ->. destruct rest as [|x rest]; [done|]. pose proof (split_floor_max MAX_EVENT_BYTES t x rest) as Hover.
      rewrite Hsplit in Hover. specialize (Hover eq_refl). pose proof (len_utf8_bounds x). red in Hmax. cbn in Hover. lia. }
    destruct (IH rest) as [Hc Hf]; [rewrite <- Happ, length_app in Hfuel; destruct chunk; [done|cbn in Hfuel; lia]|].
    cbn. rewrite Hc. split; [done|]. by constructor.
Qed.

Lemma event_text_chunks_spec t : concat (event_text_chunks t) = t ∧ Forall (λ p, piece p = true) (event_text_chunks t).
Proof. apply chunks_loop_spec. lia. Qed.

Lemma for_each_queue {A} (f : A → ModelEvent) l s :
  for_each (λ x, queue (f x)) l s = (on_pending (λ p, p ++ (Ok ∘ f <$> l)) s, Ok tt).
Proof.
  revert s. induction l as [|x l IH]; intros s; cbn.
  - destruct s; cbn. unfold on_pending. cbn. by rewrite app_nil_r.
  - unfold mbind, stm_bind, queue, modify. cbn. rewrite IH. destruct s. unfold on_pending. cbn. by rewrite <- app_assoc.
Qed.

Definition text_events (t : str) (reasoning : bool) : list (result ModelError ModelEvent) :=
  (λ p, Ok (if reasoning then ReasoningDelta p else TextDelta p)) <$> event_text_chunks t.

Lemma queue_text_run t (reasoning : bool) s :
  queue_text t reasoning s =
  (on_pending (λ p, p ++ text_events t reasoning) (if reasoning then s else on_text (λ w, w ++ t) s), Ok tt).
Proof.
  unfold queue_text, mbind, stm_bind. destruct reasoning; cbn; unfold modify; by rewrite for_each_queue.
Qed.

Lemma consume_text ps c :
  over c = false → Forall (λ p, piece p = true) ps →
  consume_all ((λ p, Ok (TextDelta p)) <$> ps) c =
  Some (mkConsumer (open_calls c) (closed_calls c) (words c ++ concat ps) false).
Proof.
  revert c. induction ps as [|p ps IH]; intros [op cl w ov]; cbn; intros -> Hps.
  - by rewrite app_nil_r.
  - apply Forall_cons in Hps as [Hp Hps]. unfold consume. cbn. rewrite Hp. cbn. rewrite IH by done. cbn. by rewrite app_assoc.
Qed.
Lemma consume_reasoning ps c :
  over c = false → Forall (λ p, piece p = true) ps → consume_all ((λ p, Ok (ReasoningDelta p)) <$> ps) c = Some c.
Proof.
  revert c. induction ps as [|p ps IH]; intros c; cbn; intros Ho Hps; [done|].
  apply Forall_cons in Hps as [Hp Hps]. unfold consume. rewrite Ho. cbn. rewrite Hp. cbn. by apply IH.
Qed.
Lemma consume_arguments id ps args c :
  over c = false → open_calls c !! id = Some args → Forall (λ p, piece p = true) ps →
  (str_len (args ++ concat ps) <= MAX_JSON_BYTES)%N →
  ∃ c', consume_all ((λ p, Ok (ToolCallArgumentsDelta id p)) <$> ps) c = Some c' ∧ over c' = false ∧
    open_calls c' = <[id := args ++ concat ps]> (open_calls c) ∧ closed_calls c' = closed_calls c ∧ words c' = words c.
Proof.
  revert args c. induction ps as [|p ps IH]; intros args c Ho Hopen Hps Hlen; cbn.
  - exists c. rewrite app_nil_r. split; [done|]. split; [done|]. split; [|done]. symmetry. by apply insert_id.
  - apply Forall_cons in Hps as [Hp Hps]. unfold consume. rewrite Ho. cbn. rewrite Hopen. cbn. rewrite Hp.
    cbn in Hlen. rewrite app_assoc in Hlen. rewrite bool_decide_true by (rewrite str_len_app in Hlen; lia). cbn.
    destruct (IH (args ++ p) (mkConsumer (<[id := args ++ p]> (open_calls c)) (closed_calls c) (words c) false))
      as (c' & Hc' & Ho' & Hop' & Hcl' & Hw'); cbn; [done|by rewrite lookup_insert_eq|done|done|].
    exists c'. split; [done|]. split; [done|]. split; [|done]. cbn in Hop'. by rewrite Hop', insert_insert_eq, app_assoc.
Qed.

(** ** Text and reasoning *)

Lemma queue_text_live before t reasoning s : live before s → live before (queue_text t reasoning s).1.
Proof.
  rewrite queue_text_run. intros Hl. destruct (event_text_chunks_spec t) as [Hc Hf].
  destruct reasoning; (eapply live_queue; [exact Hl|done| |]; [destruct Hl as (? & ? & ? & Hd & ?); exact Hd|]);
    intros c Ho [Ht Htool Hopen Hclosed Hids Hinj Hdone]; unfold text_events.
  - exists c. split; [by apply consume_reasoning|done].
  - eexists. split; [by apply consume_text|]. split; [done|]. split; cbn; try done. by rewrite Ht, Hc.
Qed.

(** ** Handlers that keep the consumer going *)

Definition preserves {A} (P : StreamState → Prop) (m : stm StreamState unit A) : Prop :=
  ∀ s, P s → ends m s (λ s' _, P s').
(** Handlers of calls keep the stream live; the others leave the calls alone, too. *)
Definition keeps {A} (m : stm StreamState unit A) : Prop := ∀ before, preserves (live before) m.
Definition quiet {A} (m : stm StreamState unit A) : Prop :=
  ∀ before T, preserves (λ s, live before s ∧ tools s = T) m.

Lemma quiet_keeps {A} (m : stm StreamState unit A) : quiet m → keeps m.
Proof. intros Hm before s Hl. eapply ends_mono; [by apply (Hm before (tools s))|]. by intros s' r [? _]. Qed.
Lemma preserves_bind {A B} P (m : stm StreamState unit A) (f : A → stm StreamState unit B) :
  preserves P m → (∀ a, preserves P (f a)) → preserves P (m ≫= f).
Proof.
  intros Hm Hf s Hl. apply ends_bind. eapply ends_mono; [by apply Hm|]. intros s' [a|e] Hl'; [by apply Hf|done].
Qed.
Lemma quiet_bind {A B} (m : stm StreamState unit A) (f : A → stm StreamState unit B) :
  quiet m → (∀ a, quiet (f a)) → quiet (m ≫= f).
Proof. intros Hm Hf before T. apply preserves_bind; [apply Hm|intros a; apply Hf]. Qed.
Lemma quiet_ret {A} (a : A) : quiet (mret a).
Proof. by intros before T s Hl. Qed.
Lemma quiet_get : quiet get.
Proof. by intros before T s Hl. Qed.
Lemma quiet_lift {A} (m : result unit A) : quiet (lift m).
Proof. by intros before T s Hl. Qed.
Lemma quiet_throw_if P `{Decision P} : quiet (throw_if P tt).
Proof. intros before T s Hl. unfold throw_if. by case_decide. Qed.
(** What the consumer does not see. *)
Definition same_calls (s s' : StreamState) : Prop :=
  pending s' = pending s ∧ tools s' = tools s ∧ tool_ids s' = tool_ids s ∧ text s' = text s ∧ done_ s' = done_ s.
Lemma live_frame before s s' : same_calls s s' → live before s → live before s'.
Proof.
  intros (Hp & Ht & Hi & Hw & Hd) (c & Hc & Ho & Hd' & [? ? ? ? ? ? ?]). exists c.
  rewrite Hp, Hd. split; [done|]. split; [done|]. split; [done|]. by split; rewrite ?Ht, ?Hi, ?Hw.
Qed.
Lemma quiet_modify f : (∀ s, same_calls s (f s)) → quiet (modify f).
Proof.
  intros Hf before T s [Hl HT]. pose proof (Hf s) as (_ & Ht & _). split; [by eapply live_frame|by rewrite Ht].
Qed.
Lemma quiet_text t reasoning : quiet (queue_text t reasoning).
Proof.
  intros before T s [Hl HT]. apply (queue_text_live before t reasoning) in Hl. rewrite queue_text_run in *.
  unfold ends. rewrite queue_text_run. split; [done|]. by destruct reasoning.
Qed.

(** Closes the goals of a handler that does nothing to the calls. *)
Ltac keep :=
  repeat first
    [ apply quiet_text | apply quiet_bind; [|intros] | apply quiet_ret | apply quiet_get | apply quiet_lift | apply quiet_throw_if
    | (apply quiet_modify; by intros) | case_match ].

Lemma quiet_reasoning event : quiet (queue_reasoning_delta event).
Proof. unfold queue_reasoning_delta. keep. Qed.
Lemma quiet_parts i item n parts : quiet (queue_parts i item n parts).
Proof. revert n. induction parts as [|p parts IH]; intros n; cbn; [apply quiet_ret|]. apply quiet_bind; [apply quiet_reasoning|done]. Qed.
Lemma quiet_item_reasoning i item : quiet (queue_item_reasoning i item).
Proof. apply quiet_parts. Qed.
Lemma quiet_capture i item : quiet (capture_output_item i item).
Proof. unfold capture_output_item. keep. Qed.
Lemma quiet_finalize output : quiet (finalize_output_items output).
Proof. unfold finalize_output_items. keep. Qed.
Lemma quiet_response_text : quiet response_text.
Proof. unfold response_text. keep. Qed.
Lemma quiet_replay : quiet replay_event.
Proof. unfold replay_event. keep. Qed.

(** ** Tool calls *)

(** Only the flags of a call change. *)
Lemma live_flags before i t t' s :
  live before s → tools s !! i = Some t →
  (tool_call_id t', arguments t', ended t') = (tool_call_id t, arguments t, ended t) →
  (arguments_done t || item_done t = true → arguments_done t' || item_done t' = true) →
  live before (on_tools (<[i := t']>) s).
Proof.
  intros (c & Hc & Ho & Hd & [Ht Htool Hopen Hclosed Hids Hinj Hdone]) Hi [= Hid Harg Hend] Hflags.
  exists c. split; [done|]. split; [done|]. split; [done|].
  assert (Hback : ∀ j u, <[i := t']> (tools s) !! j = Some u → ∃ v, tools s !! j = Some v ∧
    tool_call_id u = tool_call_id v ∧ arguments u = arguments v ∧ ended u = ended v ∧
    (arguments_done v || item_done v = true → arguments_done u || item_done u = true)).
  { intros j u [[-> ->]|[_ ?]]%lookup_insert_Some; [by exists t|by exists u]. }
  assert (Hforth : ∀ j v, tools s !! j = Some v → ∃ u, <[i := t']> (tools s) !! j = Some u ∧
    tool_call_id u = tool_call_id v ∧ ended u = ended v).
  { intros j v Hj. destruct (decide (i = j)) as [->|]; [|exists v; by rewrite lookup_insert_ne].
    exists t'. rewrite lookup_insert_eq. naive_solver. }
  split; cbn; [done|..].
  - intros j u (v & Hj & -> & -> & -> & _)%Hback. by eapply Htool.
  - intros id a (j & v & Hj & Hv & He)%Hopen. apply Hforth in Hj as (u & ? & ? & ?). exists j, u. naive_solver.
  - intros id a (j & v & Hj & Hv & He)%Hclosed. apply Hforth in Hj as (u & ? & ? & ?). exists j, u. naive_solver.
  - intros j u (v & Hj & -> & _)%Hback. by eapply Hids.
  - intros j k u w (v & Hj & -> & _)%Hback (v' & Hk & -> & _)%Hback. by apply Hinj.
  - intros j u (v & Hj & _ & _ & -> & Hf)%Hback He. by apply Hf, (Hdone j v).
Qed.

Lemma ends_get_tool {A} i (f : ToolState → stm StreamState unit A) s Q :
  (∀ t, tools s !! i = Some t → ends (f t) s Q) → (tools s !! i = None → Q s (Err tt)) → ends (get_tool i ≫= f) s Q.
Proof.
  intros Hsome Hnone. apply ends_bind. unfold get_tool. apply ends_bind, ends_get.
  destruct (tools s !! i) as [t|]; [by apply Hsome|by apply Hnone].
Qed.

(** The call at an index grows or closes, and the consumer follows. *)
Lemma live_step before i t t' es s :
  live before s → tools s !! i = Some t → ended t = false → tool_call_id t' = tool_call_id t →
  (ended t' = true → arguments_done t' || item_done t' = true) →
  (∀ c, over c = false → open_calls c !! tool_call_id t = Some (arguments t) →
    ∃ c', consume_all es c = Some c' ∧ over c' = false ∧ words c' = words c ∧
      open_calls c' = (if ended t' then delete (tool_call_id t) (open_calls c)
                       else <[tool_call_id t := arguments t']> (open_calls c)) ∧
      closed_calls c' = (if ended t' then <[tool_call_id t := arguments t']> (closed_calls c) else closed_calls c)) →
  live before (on_pending (λ p, p ++ es) (on_tools (<[i := t']>) s)).
Proof.
  intros Hl Hi Hend Hid Hflags Hes. eapply live_queue; [exact Hl|done|by destruct Hl as (? & _ & _ & Hd & _)|].
  intros c Ho [Ht Htool Hopen Hclosed Hids Hinj Hdone].
  pose proof (Htool i t Hi) as Hcall. rewrite Hend in Hcall.
  destruct (Hes c Ho Hcall) as (c' & Hc' & Ho' & Hw & Hop & Hcl). exists c'. split; [done|]. split; [done|].
  assert (Hother : ∀ j u, i ≠ j → tools s !! j = Some u → tool_call_id u ≠ tool_call_id t).
  { intros j u Hne Hj Heq. apply Hne. by eapply Hinj. }
  split; cbn; rewrite ?Hw, ?Hop, ?Hcl; [done|..].
  - intros j u [[-> ->]|[Hne Hj]]%lookup_insert_Some.
    + rewrite Hid. by destruct (ended u); rewrite lookup_insert_eq.
    + specialize (Hother j u Hne Hj). pose proof (Htool j u Hj) as Hu.
      destruct (ended u), (ended t'); rewrite ?lookup_insert_ne, ?lookup_delete_ne by done; done.
  - intros id a Ha. assert (Hcase : (id = tool_call_id t ∧ ended t' = false) ∨ (id ≠ tool_call_id t ∧ open_calls c !! id = Some a)).
    { destruct (ended t'); [apply lookup_delete_Some in Ha as [? ?]; right; by split|].
      apply lookup_insert_Some in Ha as [[? _]|[? ?]]; [by left|right; by split]. }
    destruct Hcase as [[-> He]|[Hne Ha']]; [exists i, t'; by rewrite lookup_insert_eq|].
    destruct (Hopen id a Ha') as (j & u & Hj & Hu & He). exists j, u. split; [|done].
    rewrite lookup_insert_ne; [done|]. intros ->. rewrite Hi in Hj. injection Hj as ->. done.
  - intros id a Ha. assert (Hcase : (id = tool_call_id t ∧ ended t' = true) ∨ closed_calls c !! id = Some a).
    { destruct (ended t'); [|by right]. apply lookup_insert_Some in Ha as [[? _]|[_ ?]]; [by left|by right]. }
    destruct Hcase as [[-> He]|Ha']; [exists i, t'; by rewrite lookup_insert_eq|].
    destruct (Hclosed id a Ha') as (j & u & Hj & Hu & He). exists j, u. split; [|done].
    rewrite lookup_insert_ne; [done|]. intros ->. rewrite Hi in Hj. injection Hj as ->. congruence.
  - intros j u [[-> ->]|[_ Hj]]%lookup_insert_Some; [rewrite Hid; exact (Hids _ _ Hi)|exact (Hids _ _ Hj)].
  - intros j k u v [[-> ->]|[Hj Hju]]%lookup_insert_Some [[-> ->]|[Hk Hkv]]%lookup_insert_Some Heq; try done.
    + rewrite Hid in Heq. exfalso. by eapply (Hother k v).
    + rewrite Hid in Heq. exfalso. by eapply (Hother j u).
    + by eapply Hinj.
  - intros j u [[-> ->]|[_ Hj]]%lookup_insert_Some; [done|exact (Hdone _ _ Hj)].
Qed.

Lemma keeps_append i delta : keeps (append_tool_arguments i delta).
Proof.
  intros before s Hl. unfold append_tool_arguments. apply ends_get_tool; [|done]. intros t Hi.
  apply ends_bind, ends_throw_if; [done|]. intros Hflags.
  apply ends_bind, ends_throw_if; [done|]. intros _. apply ends_bind, ends_throw_if; [done|]. intros Hlen.
  unfold ends, mbind, stm_bind, modify. cbn. rewrite for_each_queue.
  destruct (event_text_chunks_spec delta) as [Hc Hf].
  assert (Hend : ended t = false).
  { destruct Hl as (c & _ & _ & _ & [_ _ _ _ _ _ Hdone]). destruct (ended t) eqn:He; [|done].
    pose proof (Hdone i t Hi He). destruct (arguments_done t), (item_done t); naive_solver. }
  apply (live_step before i t); try done; [cbn; congruence|]. cbn. intros c Ho Hopen. rewrite Hend.
  destruct (consume_arguments (tool_call_id t) (event_text_chunks delta) (arguments t) c) as (c' & ? & ? & ? & ? & ?); try done.
  { rewrite Hc, str_len_app. lia. }
  exists c'. rewrite Hc in *. done.
Qed.

Lemma end_live before i s t :
  live before s → tools s !! i = Some t → arguments_done t || item_done t = true →
  ends (end_tool_once i) s (λ s' _, live before s').
Proof.
  intros Hl Hi Hflags. unfold end_tool_once. apply ends_get_tool; [|done]. intros t' Hi'.
  rewrite Hi in Hi'. injection Hi' as <-. destruct (ended t) eqn:Hend; [done|].
  apply ends_bind, ends_throw_if; [done|]. intros Hargs. unfold ends, mbind, stm_bind, modify, queue. cbn.
  apply (live_step before i t); try done. cbn. intros c Ho Hopen. unfold consume. rewrite Ho. cbn. rewrite Hopen. cbn.
  rewrite decide_False by done. cbn. eexists. split; [done|]. by split.
Qed.

Lemma keeps_reconcile i complete : keeps (reconcile_arguments i complete).
Proof.
  intros before s Hl. unfold reconcile_arguments. apply ends_get_tool; [|done]. intros t Hi.
  apply ends_bind. unfold lift. destruct (ok_or _ _) as [rest|]; [|done].
  change (ends (if decide (rest = []) then mret tt else append_tool_arguments i rest) s (λ s' _, live before s')).
  case_decide; [done|]. by apply keeps_append.
Qed.

Lemma keeps_finish_arguments i complete : keeps (finish_tool_arguments i complete).
Proof.
  intros before s Hl. unfold finish_tool_arguments. apply ends_bind, ends_get, ends_bind, ends_throw_if; [done|]. intros _.
  apply ends_bind. eapply ends_mono; [by apply keeps_reconcile|]. intros s' [[]|e] Hl'; [|done].
  apply ends_get_tool; [|done]. intros t Hi. apply ends_bind, ends_modify. eapply end_live.
  - eapply live_flags; [done|done|done|]. cbn. done.
  - cbn. apply lookup_insert_eq.
  - done.
Qed.


(** A call that starts. *)
Lemma live_start before i id name s s' :
  live before s → tools s !! i = None → id ∉ tool_ids s → (str_len id <= MAX_OPENAI_CALL_ID_BYTES)%N →
  s' = on_tools (<[i := mkTool id name [] false false false]>)
         (on_tool_order (λ o, o ++ [i]) (on_pending (λ p, p ++ [Ok (ToolCallStart id name)]) (on_tool_ids (λ ids, {[id]} ∪ ids) s))) →
  live before s'.
Proof.
  intros Hl Hi Hid Hlen ->. eapply live_queue; [exact Hl|done|by destruct Hl as (? & _ & _ & Hd & _)|].
  intros c Ho [Ht Htool Hopen Hclosed Hids Hinj Hdone].
  assert (Hfresh : ∀ j u, tools s !! j = Some u → tool_call_id u ≠ id) by (intros j u Hj <-; by apply Hid, (Hids j)).
  assert (Ho_ : open_calls c !! id = None).
  { apply eq_None_not_Some. intros [a Ha]. destruct (Hopen id a Ha) as (j & u & Hj & Hu & _). by apply (Hfresh j u). }
  assert (Hc_ : closed_calls c !! id = None).
  { apply eq_None_not_Some. intros [a Ha]. destruct (Hclosed id a Ha) as (j & u & Hj & Hu & _). by apply (Hfresh j u). }
  eexists. cbn. unfold consume. rewrite Ho. cbn. rewrite decide_True by done. split; [done|]. split; [done|].
  split; cbn; [done|..].
  - intros j u [[-> <-]|[Hne Hj]]%lookup_insert_Some; cbn; [by rewrite lookup_insert_eq|].
    specialize (Hfresh j u Hj). pose proof (Htool j u Hj). destruct (ended u); [done|]. by rewrite lookup_insert_ne.
  - intros id' a [[<- <-]|[Hne Ha]]%lookup_insert_Some.
    + eexists i, _. by rewrite lookup_insert_eq.
    + destruct (Hopen id' a Ha) as (j & u & Hj & Hu). exists j, u. rewrite lookup_insert_ne; [done|]. intros ->. congruence.
  - intros id' a Ha. destruct (Hclosed id' a Ha) as (j & u & Hj & Hu). exists j, u.
    rewrite lookup_insert_ne; [done|]. intros ->. congruence.
  - intros j u [[-> <-]|[_ Hj]]%lookup_insert_Some; cbn; [set_solver|]. pose proof (Hids j u Hj). set_solver.
  - intros j k u v [[-> <-]|[Hj Hju]]%lookup_insert_Some [[-> <-]|[Hk Hkv]]%lookup_insert_Some Heq; cbn in Heq; try done.
    + by destruct (Hfresh k v Hkv).
    + by destruct (Hfresh j u Hju).
    + by eapply Hinj.
  - intros j u [[-> <-]|[_ Hj]]%lookup_insert_Some; cbn; [done|]. exact (Hdone _ _ Hj).
Qed.

Lemma keeps_start i item : keeps (start_tool i item).
Proof.
  intros before s Hl. unfold start_tool. apply ends_bind, ends_get, ends_bind, ends_throw_if; [done|]. intros Hi.
  apply ends_bind. unfold openai_tool_call_id. case_decide as Hlen; [done|].
  destruct (valid_call_id (call_id item)); [|done]. apply ends_bind.
  unfold parse_tool_name. destruct (valid_tool_name (call_name item)); [|done].
  apply ends_bind, ends_throw_if; [done|]. intros Hid.
  apply ends_bind, ends_modify, ends_bind, ends_modify, ends_bind, ends_modify, ends_bind, ends_modify.
  apply keeps_append. eapply live_start; [done|by apply eq_None_not_Some|done|lia|done].
Qed.

Lemma keeps_finish_item i item : keeps (finish_tool_item i item).
Proof.
  intros before s Hl. unfold finish_tool_item. apply ends_bind, ends_get, ends_bind.
  apply (ends_mono _ _ (λ s' _, live before s')).
  - destruct (tools s !! i) as [t|]; [|by apply keeps_start].
    apply ends_bind, ends_throw_if; [done|]. intros _. apply ends_bind, ends_throw_if; [done|]. intros _.
    by apply keeps_reconcile.
  - intros s' [[]|e] Hl'; [|done]. apply ends_get_tool; [|done]. intros t Hi. apply ends_bind, ends_modify.
    eapply end_live; [eapply live_flags; [done|done|done|]|apply lookup_insert_eq|]; cbn; by rewrite orb_true_r.
Qed.

(** ** The end of a response *)

Lemma all_ended_spec s i t : all_ended s = true → tools s !! i = Some t → ended t = true.
Proof.
  unfold all_ended. intros Hall Hi. rewrite forallb_forall in Hall. apply (Hall (i, t)).
  by apply list_elem_of_In, elem_of_map_to_list.
Qed.

Definition is_replay (e : ModelEvent) : bool := match e with Replay _ => true | _ => false end.

Lemma replay_event_is s : ends replay_event s (λ _ r, match r with Ok (Some e) => is_replay e = true | _ => True end).
Proof.
  unfold replay_event. apply ends_bind, ends_get.
  destruct (replay_identity s) as [[endpoint model]|]; [|done].
  destruct (output_items s) as [output|]; [|by unfold without_replay; cbn; case_decide].
  apply ends_bind, ends_throw_if; [done|]. intros _. case_decide; [done|].
  apply ends_bind. destruct (replay_checks s output); [|done]. apply ends_bind, ends_modify, ends_bind.
  destruct (capture _ _ _) as [[replay|]|]; [done| |done].
  apply ends_bind, ends_get. unfold without_replay. unfold ends, lift. by case_decide.
Qed.

(** Consuming the events of the end. *)
Lemma consume_finish (event : option ModelEvent) (usage : option Usage.Usage) reason c :
  over c = false → from_option is_replay true event = true → open_calls c = ∅ →
  (reason = ToolCalls → closed_calls c ≠ ∅) → (reason = Stop → closed_calls c = ∅) →
  ∃ c', consume_all (from_option (λ e, [Ok e]) [] event ++ from_option (λ u, [Ok (UsageEvent u)]) [] usage
                     ++ [Ok (Finish reason)]) c = Some c' ∧ over c' = true.
Proof.
  intros Ho He Hopen Hcalls Hstop.
  assert (Hevent : consume_all (from_option (λ e, [Ok e]) [] event) c = Some c).
  { destruct event as [[]|]; try done. cbn. unfold consume. rewrite Ho. cbn. by rewrite decide_True. }
  assert (Husage : consume_all (from_option (λ u, [Ok (UsageEvent u)]) [] usage) c = Some c).
  { destruct usage; [|done]. cbn. unfold consume. rewrite Ho. cbn. by rewrite decide_True. }
  rewrite consume_all_app, Hevent. cbn. rewrite consume_all_app, Husage. cbn. unfold consume. rewrite Ho. cbn.
  rewrite decide_True by done. by eexists.
Qed.

Lemma finish_events_ended before event usage reason s :
  live before s → all_ended s = true → from_option is_replay true event = true →
  (reason = ToolCalls → tools s ≠ ∅) → (reason = Stop → tools s = ∅) →
  ends (finish_events event usage reason) s (λ s' r, r = Ok tt ∧ ended_ before s').
Proof.
  intros (c & Hc & Ho & Hd & [_ Htool Hopen Hclosed _ _ _]) Hall He Hcalls Hstop.
  destruct (consume_finish event usage reason c) as (c' & Hc' & Ho'); [done|done|..].
  - apply map_empty. intros id. apply eq_None_not_Some. intros [a (i & t & Hi & _ & Hend)%Hopen].
    by rewrite (all_ended_spec s i t Hall Hi) in Hend.
  - intros Hr Hempty. destruct (map_choose (tools s)) as (i & t & Hi); [auto|].
    pose proof (Htool i t Hi) as Hlook. by rewrite (all_ended_spec s i t Hall Hi), Hempty in Hlook.
  - intros Hr. apply map_empty. intros id. apply eq_None_not_Some. intros [a (i & t & Hi & _)%Hclosed].
    by rewrite (Hstop Hr) in Hi.
  - assert (∃ s', finish_events event usage reason s = (s', Ok tt) ∧ done_ s' = true ∧
      pending s' = pending s ++ from_option (λ e, [Ok e]) [] event ++ from_option (λ u, [Ok (UsageEvent u)]) [] usage
                     ++ [Ok (Finish reason)]) as (s' & Hrun & Hd' & Hp).
    { unfold finish_events. destruct event, usage; eexists; (split; [reflexivity|]); cbn; split; [done| |done| |done| |done|];
        by rewrite <- ?app_assoc. }
    unfold ends. rewrite Hrun. split; [done|]. exists c'. by rewrite Hp, app_assoc, consume_all_app, Hc.
Qed.

(** A handler of a frame leaves the stream live or ended, and an error leaves it live. *)
Definition settles {A} (m : stm StreamState unit A) : Prop :=
  ∀ before s, live before s →
    ends m s (λ s' r, match r with Ok _ => live before s' ∨ ended_ before s' | Err _ => live before s' end).

Lemma keeps_settles {A} (m : stm StreamState unit A) : keeps m → settles m.
Proof. intros Hm before s Hl. eapply ends_mono; [by apply Hm|]. intros s' [a|e] ?; [by left|done]. Qed.
Lemma settles_bind {A B} (m : stm StreamState unit A) (f : A → stm StreamState unit B) :
  keeps m → (∀ a, settles (f a)) → settles (m ≫= f).
Proof.
  intros Hm Hf before s Hl. apply ends_bind. eapply ends_mono; [by apply Hm|]. intros s' [a|e] Hl'; [by apply Hf|done].
Qed.

Lemma finish_reason_calls k r s : finish_reason k r s = ToolCalls → tools s ≠ ∅.
Proof. unfold finish_reason. repeat case_match; done. Qed.
Lemma finish_reason_stop k r s : finish_reason k r s = Stop → tools s = ∅.
Proof. unfold finish_reason. repeat case_match; done. Qed.

(** A step that leaves the calls alone. *)
Lemma quiet_settles {A B} (m : stm StreamState unit A) (f : A → stm StreamState unit B) before s :
  quiet m → live before s →
  (∀ a s', live before s' → tools s' = tools s →
    ends (f a) s' (λ s' r, match r with Ok _ => live before s' ∨ ended_ before s' | Err _ => live before s' end)) →
  ends (m ≫= f) s (λ s' r, match r with Ok _ => live before s' ∨ ended_ before s' | Err _ => live before s' end).
Proof.
  intros Hm Hl Hf. apply ends_bind. eapply ends_mono; [by apply (Hm before (tools s))|].
  intros s' [a|e] [Hl' Ht]; [by apply Hf|done].
Qed.

Lemma settles_finish response k : settles (finish_response response k).
Proof.
  intros before s Hl. unfold finish_response. apply ends_bind, ends_get, ends_bind, ends_throw_if; [done|]. intros Hopen.
  assert (Hall : all_ended s = true) by (destruct (all_ended s); naive_solver).
  apply quiet_settles; [keep|done|]. intros _ s1 Hl1 Ht1. apply quiet_settles; [keep|done|]. intros usage s2 Hl2 Ht2.
  apply quiet_settles; [apply quiet_finalize|done|]. intros _ s3 Hl3 Ht3.
  apply quiet_settles; [apply quiet_response_text|done|]. intros full s4 Hl4 Ht4.
  apply ends_bind, ends_get. apply quiet_settles; [keep|done|]. intros _ s5 Hl5 Ht5. apply ends_bind, ends_get.
  apply ends_bind. pose proof (quiet_replay before (tools s5) s5 (conj Hl5 eq_refl)) as Hr.
  pose proof (replay_event_is s5) as He. unfold ends in Hr, He |- *.
  destruct (replay_event s5) as [s6 [event|e]]; [|by destruct Hr]. destruct Hr as [Hl6 Ht6].
  eapply (ends_mono _ _ (λ s' r, r = Ok tt ∧ ended_ before s')); [|by intros s' r [-> ?]; right].
  apply finish_events_ended; [done| |by destruct event|..].
  - unfold all_ended in *. by rewrite Ht6, Ht5, Ht4, Ht3, Ht2, Ht1.
  - rewrite Ht6. apply finish_reason_calls.
  - rewrite Ht6. apply finish_reason_stop.
Qed.

(** ** A frame *)

Lemma settles_fail error : settles (modify (fail error)).
Proof. intros before s Hl. right. by apply fail_ended. Qed.

Ltac quietly :=
  repeat first [apply quiet_reasoning | apply quiet_item_reasoning | apply quiet_capture | progress keep].
Ltac settle :=
  repeat lazymatch goal with
  | |- settles (if ?b then _ else _) => destruct b
  | |- settles (match ?p with pair _ _ => _ end) => destruct p
  | |- settles (finish_response _ _) => apply settles_finish
  | |- settles (modify (fail _)) => apply settles_fail
  | |- settles (_ ≫= _) => apply settles_bind; [apply quiet_keeps; by quietly|intros]
  | |- settles _ =>
      apply keeps_settles;
      first [apply keeps_append | apply keeps_start | apply keeps_finish_arguments | apply keeps_finish_item
            | apply quiet_keeps; by quietly]
  end.

Lemma settles_event event_type value : settles (on_event event_type value).
Proof. unfold on_event. settle. Qed.

Lemma settles_frame frame : settles (handle_frame frame).
Proof.
  unfold handle_frame. destruct (decide (frame = DONE)).
  - intros before s Hl. right. by apply fail_ended.
  - settle. apply settles_event.
Qed.

(** ** The body *)

Definition ok_state (before : list (result ModelError ModelEvent)) (s : StreamState) : Prop :=
  live before s ∨ ended_ before s.

Lemma live_not_done before s : live before s → done_ s = false.
Proof. by intros (c & _ & _ & Hd & _). Qed.
Lemma ended_done before s : ended_ before s → done_ s = true.
Proof. by intros (c & _ & _ & Hd). Qed.
Lemma live_parser before p s : live before s → live before (on_parser (λ _, p) s).
Proof. by apply live_frame. Qed.

Lemma frames_loop_ok before fuel s : live before s → ok_state before (frames_loop fuel s).
Proof.
  revert s. induction fuel as [|fuel IH]; intros s Hl; cbn; [by left|].
  destruct (Sse.pop_frame (parser s)) as [[frame|] p]; [|left; by apply live_parser].
  apply (live_parser before p) in Hl. pose proof (settles_frame frame before _ Hl) as Hf. unfold ends in Hf.
  destruct (handle_frame frame _) as [s' [[]|[]]]; [|right; by apply fail_ended].
  destruct Hf as [Hl'|He].
  - rewrite (live_not_done _ _ Hl'). by apply IH.
  - rewrite (ended_done _ _ He). by right.
Qed.

Lemma absorb_ok before p s : live before s → ok_state before (absorb p s).
Proof.
  intros Hl. destruct p as [chunk|timeout| | |]; [|right; by apply fail_ended..]. unfold absorb.
  destruct (Sse.feed chunk (parser s)) as [p fed]. apply (live_parser before p) in Hl.
  pose proof (frames_loop_ok before (S (length (Sse.frames p))) _ Hl) as Hok. destruct fed; [done|].
  destruct Hok as [Hl'|He]; [|rewrite (ended_done _ _ He); by right].
  rewrite (live_not_done _ _ Hl'). right. by apply fail_ended.
Qed.

(** One call of the stream. *)
Lemma next_ok before polls s :
  ok_state before s →
  let '(next, s', _) := next_stream_event polls s in
  match next with
  | Event e => ok_state (before ++ [e]) s'
  | End => ended_ before s' ∧ pending s' = []
  | Waiting => live before s' ∧ pending s' = []
  end.
Proof.
  revert s. induction polls as [|p polls IH]; intros s Hok; unfold next_stream_event; fold next_stream_event;
    destruct (pending s) as [|e rest] eqn:Hp.
  2,4: destruct Hok as [(c & Hc & Ho & Hd & Hl)|(c & Hc & Ho & Hd)];
    [left|right]; exists c; rewrite Hp, cons_middle, app_assoc in Hc; (split; [done|]); [|done];
    (split; [done|]); (split; [done|]); by destruct Hl.
  - destruct (done_ s) eqn:Hd; (split; [|done]); destruct Hok as [Hl|He]; try done.
    + by rewrite (live_not_done _ _ Hl) in Hd.
    + by rewrite (ended_done _ _ He) in Hd.
  - destruct (done_ s) eqn:Hd.
    + split; [|done]. destruct Hok as [Hl|He]; [|done]. by rewrite (live_not_done _ _ Hl) in Hd.
    + apply IH. destruct Hok as [Hl|He]; [by apply absorb_ok|]. by rewrite (ended_done _ _ He) in Hd.
Qed.

(** Up to [n] calls: the events, what stopped them, and the state. *)
Fixpoint read_stream (n : nat) (polls : list Poll) (s : StreamState) : list (result ModelError ModelEvent) * option Next * StreamState :=
  match n with
  | O => ([], None, s)
  | S n =>
      match next_stream_event polls s with
      | (Event e, s, polls) => let '(es, last, s) := read_stream n polls s in (e :: es, last, s)
      | (next, s, _) => ([], Some next, s)
      end
  end.

Lemma read_stream_ok n polls before s :
  ok_state before s →
  let '(es, last, s') := read_stream n polls s in
  match last with
  | None => ok_state (before ++ es) s'
  | Some End => ended_ (before ++ es) s' ∧ pending s' = []
  | _ => live (before ++ es) s' ∧ pending s' = []
  end.
Proof.
  revert polls before s. induction n as [|n IH]; intros polls before s Hok; cbn; [by rewrite app_nil_r|].
  pose proof (next_ok before polls s Hok) as Hnext. destruct (next_stream_event polls s) as [[[e| |] s1] polls1].
  - specialize (IH polls1 (before ++ [e]) s1 Hnext). destruct (read_stream n polls1 s1) as [[es last] s2].
    by rewrite <- app_assoc in IH.
  - by rewrite app_nil_r.
  - by rewrite app_nil_r.
Qed.

(** ** Reading to the end *)

Definition closing (p : Poll) : bool := match p with Chunk _ => false | _ => true end.
Definition stopped (n : nat) (polls : list Poll) (s : StreamState) : option Next := (read_stream n polls s).1.2.

Lemma stopped_pending n polls s e rest :
  pending s = e :: rest → stopped (S n) polls s = stopped n polls (on_pending (λ _, rest) s).
Proof.
  intros Hp. unfold stopped. cbn [read_stream]. destruct polls; cbn [next_stream_event]; rewrite Hp;
    by destruct (read_stream _ _ _) as [[? ?] ?].
Qed.
Lemma stopped_poll n p polls s :
  pending s = [] → done_ s = false → stopped (S n) (p :: polls) s = stopped (S n) polls (absorb p s).
Proof. intros Hp Hd. unfold stopped. cbn [read_stream]. cbn [next_stream_event]. by rewrite Hp, Hd. Qed.

Lemma stopped_done polls s : done_ s = true → ∃ n, stopped n polls s = Some End.
Proof.
  remember (pending s) as p eqn:Hp. revert s Hp. induction p as [|e rest IH]; intros s Hp Hd.
  - exists 1. unfold stopped. cbn [read_stream]. destruct polls; cbn [next_stream_event]; by rewrite <- Hp, Hd.
  - destruct (IH (on_pending (λ _, rest) s)) as [n Hn]; [done|done|]. exists (S n).
    by rewrite (stopped_pending n polls s e rest).
Qed.

Lemma absorb_closing p s : closing p = true → done_ (absorb p s) = true.
Proof. by destruct p. Qed.

Lemma stopped_ends polls s :
  ∃ n, stopped n polls s = Some End ∨ (stopped n polls s = Some Waiting ∧ existsb closing polls = false).
Proof.
  revert s. induction polls as [|p polls IH]; intros s; (destruct (done_ s) eqn:Hd;
    [edestruct stopped_done as [n Hn]; [exact Hd|]; exists n; left; exact Hn|]); remember (pending s) as q eqn:Hq;
    revert s Hq Hd; induction q as [|e rest IHq]; intros s Hq Hd.
  1: { exists 1. right. unfold stopped. cbn. by rewrite <- Hq, Hd. }
  1,3: destruct (IHq (on_pending (λ _, rest) s)) as [n Hn]; [done|done|]; exists (S n); by rewrite (stopped_pending n _ s e rest).
  destruct (closing p) eqn:Hc.
  - destruct (stopped_done polls (absorb p s)) as [[|n] Hn]; [by apply absorb_closing|done|].
    exists (S n). left. by rewrite stopped_poll.
  - destruct (IH (absorb p s)) as [[|n] Hn]; [by destruct Hn as [|[]]|]. exists (S n). cbn. rewrite Hc. by rewrite stopped_poll.
Qed.

(** What was read is all the consumer sees of the state. *)
Lemma next_end later s : pending s = [] → done_ s = true → next_stream_event later s = (End, s, later).
Proof. intros Hp Hd. destruct later; cbn; by rewrite Hp, Hd. Qed.

Lemma consume_over es c : over c = true → es ≠ [] → consume_all es c = None.
Proof. intros Ho Hes. destruct es; [done|]. cbn. unfold consume. by rewrite Ho. Qed.

Lemma ok_read es s :
  ok_state es s → ∃ c, consume_all es Consumer_new = Some c ∧
    (over c = true ↔ ∀ later, next_stream_event later s = (End, s, later)).
Proof.
  assert (Hsplit : ∀ c', consume_all (es ++ pending s) Consumer_new = Some c' →
    ∃ c, consume_all es Consumer_new = Some c ∧ consume_all (pending s) c = Some c').
  { intros c'. rewrite consume_all_app. destruct (consume_all es Consumer_new) as [c|]; [by exists c|done]. }
  intros [(c' & Hc' & Ho & Hd & _)|(c' & Hc' & Ho & Hd)]; destruct (Hsplit c' Hc') as (c & Hc & Hrest); exists c;
    (split; [done|]); destruct (pending s) as [|e rest] eqn:Hp; cbn in Hrest.
  - injection Hrest as ->. rewrite Ho. split; [done|]. intros Hend. specialize (Hend []). cbn in Hend. by rewrite Hp, Hd in Hend.
  - split; [intros Hover; exfalso; unfold consume in Hrest; by rewrite Hover in Hrest|].
    intros Hend. specialize (Hend []). cbn in Hend. by rewrite Hp in Hend.
  - injection Hrest as ->. split; [|done]. intros _ later. by apply next_end.
  - split; [intros Hover; exfalso; unfold consume in Hrest; by rewrite Hover in Hrest|].
    intros Hend. specialize (Hend []). cbn in Hend. by rewrite Hp in Hend.
Qed.

Lemma new_ok identity : ok_state [] (new_with_replay identity).
Proof. left. exists Consumer_new. cbn. split; [done|]. split; [done|]. split; [done|]. by split; cbn; intros. Qed.

(** C23 A consumer can take every event that reading the stream gives, whatever the body
    and the provider send and however often it is read; the stream says that it ended
    exactly when the consumer has seen a finish or an error, and then keeps saying it;
    the text it has given is the text of the answer; and enough reads come to the end when
    the body ends, fails, is cancelled or runs out of time, or else to where it waits. *)
Theorem stream_protocol identity polls :
  (∀ n, let '(es, last, s) := read_stream n polls (new_with_replay identity) in
     ∃ c, consume_all es Consumer_new = Some c ∧
       (over c = true ↔ ∀ later, next_stream_event later s = (End, s, later)) ∧
       (last = Some End → over c = true) ∧ (last = Some Waiting → over c = false ∧ words c = text s)) ∧
  ∃ n, stopped n polls (new_with_replay identity) = Some End ∨
    (stopped n polls (new_with_replay identity) = Some Waiting ∧ existsb closing polls = false).
Proof.
  split; [|apply stopped_ends]. intros n. pose proof (read_stream_ok n polls [] _ (new_ok identity)) as Hok.
  destruct (read_stream n polls (new_with_replay identity)) as [[es last] s]. cbn [app] in Hok.
  assert (Hs : ok_state es s) by (unfold ok_state; destruct last as [[]|]; naive_solver).
  destruct (ok_read es s Hs) as (c & Hc & Hover). exists c. split; [done|]. split; [done|].
  split; intros ->; cbn in Hok; destruct Hok as [Hl Hp].
  - apply Hover. intros later. apply next_end; [done|]. by destruct Hl as (? & _ & _ & ?).
  - destruct Hl as (c' & Hc' & Ho & _ & [Ht _ _ _ _ _ _]). rewrite Hp, app_nil_r, Hc in Hc'. by injection Hc' as ->.
Qed.
End consumer.

(** A provider whose frames are letters: a piece of text, a finished call, the end. *)
Definition letter_event (frame : list N) : option Value :=
  let event (kind : string) fields := Some (Object ((lit "type", Str (lit kind)) :: fields)) in
  match frame with
  | [97] => event "response.output_text.delta" [(lit "delta", Str (lit "Hello"))]
  | [98] => event "response.output_item.done"
              [(lit "item", Object [(lit "type", Str (lit "function_call")); (lit "call_id", Str (lit "c"));
                                    (lit "name", Str (lit "t")); (lit "arguments", Str (lit "{}"))])]
  | [99] => event "response.completed" []
  | _ => None
  end%N.
#[local] Instance letters : Provider := {|
  from_slice := letter_event;
  from_str t := if decide (t = lit "{}") then Some (Object []) else None;
  to_vec _ := [];
  delta_event := get_str (lit "delta");
  reasoning_event _ := None;
  output_item_event v := item ← get_key (lit "item") v; Some (0%N, item);
  function_call_item v :=
    id ← get_str (lit "call_id") v; name ← get_str (lit "name") v; text ← get_str (lit "arguments") v;
    Some (mkCall id name text);
  arguments_event _ _ := None;
  terminal_event _ := Some (mkResponse None None None None);
  valid_call_id _ := true;
  valid_tool_name _ := true;
  ProviderReplay := unit;
  replay_new _ _ _ := Some tt;
  sha256 b := b;
  MAX_EVENT_BYTES := 4;
  MAX_JSON_BYTES := 100;
  MAX_REPLAY_BYTES := 100
|}.
#[local] Instance letters_laws : ProviderLaws.
Proof. unfold ProviderLaws. cbn. lia. Qed.

Definition letter_polls : list Poll :=
  [Chunk (as_bytes (lit "data: a") ++ [10; 10] ++ as_bytes (lit "data: b") ++ [10]); Chunk ([10] ++ as_bytes (lit "data: c") ++ [10; 10]);
   BodyEnd]%N.

Lemma stream_protocol_witness :
  ((∀ n, let '(es, last, s) := read_stream n letter_polls (new_with_replay None) in
     ∃ c, consume_all es Consumer_new = Some c ∧
       (over c = true ↔ ∀ later, next_stream_event later s = (End, s, later)) ∧
       (last = Some End → over c = true) ∧ (last = Some Waiting → over c = false ∧ words c = text s)) ∧
   ∃ n, stopped n letter_polls (new_with_replay None) = Some End ∨
     (stopped n letter_polls (new_with_replay None) = Some Waiting ∧ existsb closing letter_polls = false)) ∧
  (read_stream 9 letter_polls (new_with_replay None)).1 =
    ([Ok (TextDelta (lit "Hell")); Ok (TextDelta (lit "o")); Ok (ToolCallStart (lit "c") (lit "t"));
      Ok (ToolCallArgumentsDelta (lit "c") (lit "{}")); Ok (ToolCallEnd (lit "c")); Ok (Finish ToolCalls)], Some End).
Proof. split; [exact (stream_protocol letters_laws None letter_polls)|vm_compute; reflexivity]. Defined.
