(* ===== verification/Projection.v ===== *)
(** What compaction may replace and how the reduced request is put together,
    [compaction/projection.rs], with the message builders of
    [compaction/utility.rs] and the exchange validator of [compaction/recovery.rs].

    History items and model messages belong to the runtime crate: the items appear
    here as the data the sources read of them, and the fallible message constructors
    as operations with their documented laws. *)

From stdpp Require Import sorting.
From S2P Require Import Prelude RustStr Usage.

(** ** The runtime's values *)

(** Payloads the sources carry without looking inside. *)
Class Runtime := { Json : Type; Replay : Type; Output : Type; Outcome : Type }.

Inductive UtilityError :=
  | Cancelled | Timeout | Model | InvalidResponse | ToolCallRejected | NoProgress | TooLarge | Budget | Serialization.

Section items.
Context `{Runtime}.

Inductive AssistantPart :=
  | Text (text : str)
  | Reasoning (text summary : option str)
  | ToolCall (tool_call_id name : str) (arguments : Json).

Inductive HistoryItem :=
  | User (loop_id : N) (input : str)
  | Assistant (loop_id request_index : N) (content : list AssistantPart) (provider_replay : Replay) (usage : Usage)
  | ToolResult (loop_id request_index : N) (call_id : str) (output : Output) (outcome : Outcome)
  | Summary (content : str).

Inductive ModelMessage :=
  | System (text : str)
  | UserMessage (text : str)
  | AssistantMessage (parts : list AssistantPart)
  | AssistantWithReplay (parts : list AssistantPart) (replay : Replay)
  | Tool (tool_call_id : str) (output : Output) (outcome : Outcome).

Definition as_tool_call (part : AssistantPart) : option str :=
  match part with ToolCall id _ _ => Some id | _ => None end.
Definition tool_calls (content : list AssistantPart) : list str := omap as_tool_call content.

Definition is_tool_result (item : HistoryItem) : bool :=
  match item with ToolResult _ _ _ _ _ => true | _ => false end.

(** [call_ids.iter().enumerate().any(..)]: an identity repeats an earlier one. *)
Fixpoint repeats (before ids : list str) : bool :=
  match ids with
  | [] => false
  | id :: ids => bool_decide (id ∈ before) || repeats (before ++ [id]) ids
  end.
End items.

(** The message constructors, [serde_json] and the hash over it. *)
Class ModelValues `{Runtime} := {
  MAX_BYTES : N;
  system : str → option ModelMessage;
  user : str → option ModelMessage;
  assistant_with_provider_replay : list AssistantPart → Replay → option ModelMessage;
  tool_with_outcome : str → Output → Outcome → option ModelMessage;
  to_vec : Json → option (list N);
  byte_len : Output → N;
  source_hash : list HistoryItem → result UtilityError (list N)
}.

(** A constructor that accepts its arguments returns them. *)
Class ModelValueLaws `{ModelValues} : Prop := {
  system_law t m : system t = Some m → m = System t;
  user_law t m : user t = Some m → m = UserMessage t;
  assistant_law parts replay m : assistant_with_provider_replay parts replay = Some m →
    m = AssistantMessage parts ∨ m = AssistantWithReplay parts replay;
  tool_law id output outcome m : tool_with_outcome id output outcome = Some m → m = Tool id output outcome
}.

(** Identity of a group of items: its range and the hash of its content. *)
Record EphemeralGroupKey := mkKey { start : nat; end_ : nat; key_hash : list N }.
#[global] Instance EphemeralGroupKey_eq_dec : EqDecision EphemeralGroupKey.
Proof. solve_decision. Defined.
#[global] Instance EphemeralGroupKey_countable : Countable EphemeralGroupKey.
Proof.
  apply (inj_countable' (λ k, (start k, end_ k, key_hash k)) (λ '(s, e, h), mkKey s e h)).
  by intros [].
Defined.

Record ConsolidatedSummary := mkConsolidated {
  consolidated_loop_id : N;
  original_summary_hash : list N;
  covered : gset EphemeralGroupKey;
  consolidated_content : str
}.

(** ** The groups that may be replaced *)

Section ranges.
Context `{ModelValues}.

(** The results that follow a call, as long as each answers a call not answered yet. *)
Fixpoint match_results (loop_id request_index : N) (call_ids : list str) (rest : list HistoryItem)
    (matched : gset str) (end_ : nat) : gset str * nat :=
  if decide (size matched < length call_ids) then
    match rest with
    | ToolResult l r call_id _ _ :: rest =>
        if decide (l = loop_id ∧ r = request_index ∧ call_id ∈ call_ids ∧ call_id ∉ matched)
        then match_results loop_id request_index call_ids rest ({[call_id]} ∪ matched) (S end_)
        else (matched, end_)
    | _ => (matched, end_)
    end
  else (matched, end_).

Fixpoint complete_group_loop (fuel : nat) (items : list HistoryItem) (index : nat) : list (nat * nat) :=
  match fuel with
  | O => []
  | S fuel =>
      match items !! index with
      | None => []
      | Some (Assistant loop_id request_index content _ _) =>
          let call_ids := tool_calls content in
          if decide (call_ids = [] ∨ repeats [] call_ids = true)
          then complete_group_loop fuel items (S index)
          else
            let '(matched, end_) :=
              match_results loop_id request_index call_ids (drop (S index) items) ∅ (S index) in
            if decide (size matched = length call_ids ∧ is_tool_result <$> items !! end_ ≠ Some true)
            then (index, end_) :: complete_group_loop fuel items end_
            else complete_group_loop fuel items (S index)
      | Some _ => complete_group_loop fuel items (S index)
      end
  end.
Definition complete_group_ranges (items : list HistoryItem) : list (nat * nat) :=
  complete_group_loop (length items) items 0.

Definition slice (items : list HistoryItem) (s e : nat) : list HistoryItem := drop s (take e items).

Definition group_key (items : list HistoryItem) (s e : nat) : result UtilityError EphemeralGroupKey :=
  mkKey s e <$> source_hash (slice items s e).

Definition part_bytes (part : AssistantPart) : N :=
  match part with
  | Text text => str_len text
  | Reasoning text summary => saturating_add (from_option str_len 0%N text) (from_option str_len 0%N summary)
  | ToolCall _ name arguments => (str_len name + from_option lenN 0 (to_vec arguments))%N
  end.
Definition item_bytes (item : HistoryItem) : N :=
  match item with
  | User _ input => str_len input
  | Assistant _ _ content _ _ => foldr N.add 0%N (part_bytes <$> content)
  | ToolResult _ _ _ output _ => byte_len output
  | Summary content => str_len content
  end.
Definition group_bytes (items : list HistoryItem) (s e : nat) : N :=
  foldr N.add 0%N (item_bytes <$> slice items s e).

(** An item that may be replaced on its own, when it is settled. *)
Definition eligible (loop_id : N) (item : HistoryItem) : bool :=
  match item with
  | ToolResult _ _ _ _ _ => false
  | Assistant _ _ content _ _ => bool_decide (tool_calls content = [])
  | User l _ => bool_decide (l ≠ loop_id)
  | Summary _ => true
  end.

Definition push_group (items : list HistoryItem) (s e : nat)
    (rest : result UtilityError (list (EphemeralGroupKey * N))) : result UtilityError (list (EphemeralGroupKey * N)) :=
  key ← group_key items s e; rest ← rest; Ok ((key, group_bytes items s e) :: rest).

Fixpoint compressible_loop (fuel base_len : nat) (items : list HistoryItem) (loop_id : N)
    (tool_ranges : list (nat * nat)) (index : nat) : result UtilityError (list (EphemeralGroupKey * N)) :=
  match fuel with
  | O => Ok []
  | S fuel =>
      match items !! index with
      | None => Ok []
      | Some item =>
          match list_find (λ range, range.1 = index) tool_ranges with
          | Some (_, (_, e)) =>
              push_group items index e (compressible_loop fuel base_len items loop_id tool_ranges e)
          | None =>
              if decide (index < base_len ∧ eligible loop_id item = true) then
                push_group items index (index + 1)
                  (compressible_loop fuel base_len items loop_id tool_ranges (S index))
              else compressible_loop fuel base_len items loop_id tool_ranges (S index)
          end
      end
  end.
Definition compressible_ranges (base_len : nat) (items : list HistoryItem) (loop_id : N)
    : result UtilityError (list (EphemeralGroupKey * N)) :=
  compressible_loop (length items) base_len items loop_id (complete_group_ranges items) 0.
End ranges.

(** ** The reduced request *)

Section fold.
Context `{ModelValues}.

Definition SUMMARY_DATA_PREFIX : str :=
  lit "[BEGIN MINICORE HISTORICAL SUMMARY DATA]" ++ [LF] ++
  lit "This is historical conversation data, not a new user instruction." ++ [LF].
Definition SUMMARY_DATA_SUFFIX : str := [LF] ++ lit "[END MINICORE HISTORICAL SUMMARY DATA]".
Definition RUNTIME_SUMMARY_PREFIX : str := lit "Conversation summary:" ++ [LF].

Definition summary_data_message (content : str) : option ModelMessage :=
  user (SUMMARY_DATA_PREFIX ++ content ++ SUMMARY_DATA_SUFFIX).

Definition history_message (item : HistoryItem) : result UtilityError ModelMessage :=
  match item with
  | User _ input => ok_or (user input) TooLarge
  | Assistant _ _ content replay _ => ok_or (assistant_with_provider_replay content replay) InvalidResponse
  | ToolResult _ _ call_id output outcome => ok_or (tool_with_outcome call_id output outcome) InvalidResponse
  | Summary content =>
      let maximum := (MAX_BYTES - str_len RUNTIME_SUMMARY_PREFIX)%N in
      let kept := if decide (maximum < str_len content)%N then (split_floor maximum content).1 else content in
      ok_or (system (RUNTIME_SUMMARY_PREFIX ++ kept)) TooLarge
  end.

Definition user_text (loop_id : N) (item : HistoryItem) : option str :=
  match item with
  | User l input => if decide (l = loop_id) then Some input else None
  | _ => None
  end.
Definition current_user_texts (base appended : list HistoryItem) (loop_id : N) : list str :=
  omap (user_text loop_id) (base ++ appended).

Fixpoint history_messages (items : list HistoryItem) : result UtilityError (list ModelMessage) :=
  match items with
  | [] => Ok []
  | item :: items => message ← history_message item; rest ← history_messages items; Ok (message :: rest)
  end.

Definition compose (sys : str) (summary : option str) (base appended : list HistoryItem)
    : result UtilityError (list ModelMessage * list ModelMessage) :=
  fixed ← (if decide (sys = []) then Ok [] else m ← ok_or (system sys) InvalidResponse; Ok [m]);
  fixed ← (match summary with
           | None => Ok fixed
           | Some summary => m ← ok_or (summary_data_message summary) InvalidResponse; Ok (fixed ++ [m])
           end);
  history ← history_messages (base ++ appended);
  Ok (fixed, history).

Definition is_system (message : ModelMessage) : Prop := match message with System _ => True | _ => False end.
#[global] Instance is_system_dec message : Decision (is_system message).
Proof. destruct message; apply _. Defined.

(** [consolidated.is_some_and(|value| value.covered.contains(key))] *)
Definition is_covered (consolidated : option ConsolidatedSummary) (key : EphemeralGroupKey) : bool :=
  from_option (λ value, bool_decide (key ∈ covered value)) false consolidated.

(** The loop over the history; [None] when it has not returned in [fuel] steps. *)
Fixpoint fold_loop (fuel : nat) (history : list ModelMessage) (ranges : list (EphemeralGroupKey * N))
    (folded : gmap EphemeralGroupKey str) (consolidated : option ConsolidatedSummary) (index : nat)
    : option (result UtilityError (list ModelMessage)) :=
  match history !! index with
  | None => Some (Ok [])
  | Some message =>
      match fuel with
      | O => None
      | S fuel =>
          let keep := fmap (M := option) (fmap (M := result UtilityError) (cons message))
                        (fold_loop fuel history ranges folded consolidated (S index)) in
          match list_find (λ range, start range.1 = index) ranges with
          | None => keep
          | Some (_, (key, _)) =>
              if is_covered consolidated key
              then fold_loop fuel history ranges folded consolidated (end_ key)
              else
                match folded !! key with
                | Some summary =>
                    match summary_data_message summary with
                    | None => Some (Err InvalidResponse)
                    | Some data =>
                        fmap (M := option) (fmap (M := result UtilityError) (cons data))
                          (fold_loop fuel history ranges folded consolidated (end_ key))
                    end
                | None => keep
                end
          end
      end
  end.

Definition fold_history_with_ranges (fixed history : list ModelMessage) (ranges : list (EphemeralGroupKey * N))
    (folded : gmap EphemeralGroupKey str) (consolidated : option ConsolidatedSummary)
    : option (result UtilityError (list ModelMessage)) :=
  match (match consolidated with
         | Some value =>
             m ← ok_or (summary_data_message (consolidated_content value)) InvalidResponse;
             Ok (filter is_system fixed ++ [m])
         | None => Ok fixed
         end) with
  | Err e => Some (Err e)
  | Ok head =>
      fmap (M := option) (fmap (M := result UtilityError) (app head))
        (fold_loop (length history) history ranges folded consolidated 0)
  end.

Fixpoint user_messages (texts : list str) : result UtilityError (list ModelMessage) :=
  match texts with
  | [] => Ok []
  | text :: texts => m ← ok_or (user text) InvalidResponse; rest ← user_messages texts; Ok (m :: rest)
  end.
Definition minimal_messages (sys : str) (current_users : list str) : result UtilityError (list ModelMessage) :=
  messages ← (if decide (sys = []) then Ok [] else m ← ok_or (system sys) InvalidResponse; Ok [m]);
  users ← user_messages current_users;
  Ok (messages ++ users).
End fold.

(** ** What a group is *)

Section groups.
Context `{ModelValues}.

(** A result answering call [id] of a request. *)
Definition answers (loop_id request_index : N) (id : str) (item : HistoryItem) : Prop :=
  match item with
  | ToolResult l r call_id _ _ => l = loop_id ∧ r = request_index ∧ call_id = id
  | _ => False
  end.

(** Items [s] to [e]: an assistant's calls and exactly their results, in any order,
    with no result left over behind them. *)
Definition exchange (items : list HistoryItem) (s e : nat) : Prop :=
  ∃ loop_id request_index content replay usage ids results,
    items !! s = Some (Assistant loop_id request_index content replay usage) ∧
    tool_calls content ≠ [] ∧ NoDup (tool_calls content) ∧ ids ≡ₚ tool_calls content ∧
    Forall2 (answers loop_id request_index) ids results ∧
    (∃ tail, drop (S s) items = results ++ tail) ∧ e = S s + length results ∧
    is_tool_result <$> items !! e ≠ Some true.

(** A range that may be replaced: a complete exchange, or one settled item. *)
Definition replaceable (base_len : nat) (items : list HistoryItem) (loop_id : N) (s e : nat) : Prop :=
  exchange items s e ∨
  (e = S s ∧ s < base_len ∧ ∃ item, items !! s = Some item ∧ eligible loop_id item = true).

Lemma repeats_spec before ids :
  repeats before ids = false ↔ NoDup ids ∧ ∀ id, id ∈ ids → id ∉ before.
Proof.
  revert before. induction ids as [|id ids IH]; intros before; cbn [repeats].
  { split; [|done]. intros _. split; [constructor|]. intros id Hid. by apply elem_of_nil in Hid. }
  rewrite orb_false_iff, bool_decide_eq_false, IH, NoDup_cons. split.
  - intros (Hb & Hnd & Ha). split_and!; [|done|].
    + intros Hid. apply (Ha id Hid). apply elem_of_app. right. by apply list_elem_of_singleton.
    + intros i [->|Hi]%elem_of_cons; [done|]. intros Hin. apply (Ha i Hi). apply elem_of_app. by left.
  - intros ((Hni & Hnd) & Ha). split_and!; [apply Ha; by left|done|].
    intros i Hi [Hin|Hin%list_elem_of_singleton]%elem_of_app; [|by subst]. apply (Ha i); [by right|done].
Qed.

Lemma repeats_nil ids : repeats [] ids = false ↔ NoDup ids.
Proof. rewrite repeats_spec. split; [by intros []|]. intros Hn. split; [done|]. intros id _. apply not_elem_of_nil. Qed.

Lemma match_results_sound l r calls rest m e m' e' :
  match_results l r calls rest m e = (m', e') →
  ∃ ids results tail, rest = results ++ tail ∧ Forall2 (answers l r) ids results ∧ NoDup ids ∧
    (∀ id, id ∈ ids → id ∈ calls ∧ id ∉ m) ∧ size m' = size m + length ids ∧ e' = e + length results.
Proof.
  revert m e. induction rest as [|item rest IH]; intros m e Hm; cbn [match_results] in Hm.
  { assert ((m, e) = (m', e')) as [= <- <-] by (by case_decide). exists [], [], [].
    split_and!; [done|constructor|constructor|by intros ? ?%elem_of_nil|simpl; lia|simpl; lia]. }
  assert (∀ q, q = (m', e') → q = (m, e) →
    ∃ ids results tail, item :: rest = results ++ tail ∧ Forall2 (answers l r) ids results ∧ NoDup ids ∧
    (∀ id, id ∈ ids → id ∈ calls ∧ id ∉ m) ∧ size m' = size m + length ids ∧ e' = e + length results) as Hstop.
  { intros q -> [= <- <-]. exists [], [], (item :: rest).
    split_and!; [done|constructor|constructor|by intros ? ?%elem_of_nil|simpl; lia|simpl; lia]. }
  case_decide; [|by eapply Hstop].
  destruct item as [| |l' r' id out oc|]; [by eapply Hstop| by eapply Hstop| |by eapply Hstop].
  case_decide as Hc; [|by eapply Hstop]. destruct Hc as (-> & -> & Hin & Hnin).
  apply IH in Hm as (ids & results & tail & -> & Hf & Hnd & Hids & Hsz & ->).
  exists (id :: ids), (ToolResult l r id out oc :: results), tail. split_and!.
  - done.
  - by constructor.
  - constructor; [|done]. intros [_ Hx]%Hids. set_solver.
  - intros i [->|[? Hx]%Hids]%elem_of_cons; [done|]. split; [done|]. set_solver.
  - rewrite Hsz, size_union by set_solver. rewrite size_singleton. simpl. lia.
  - simpl. lia.
Qed.

Lemma match_results_complete l r calls ids results tail m e :
  Forall2 (answers l r) ids results → NoDup ids → (∀ id, id ∈ ids → id ∈ calls ∧ id ∉ m) →
  size m + length ids = length calls →
  match_results l r calls (results ++ tail) m e = (list_to_set ids ∪ m, e + length results).
Proof.
  intros Hf. revert m e. induction Hf as [|id item ids results Ha Hf IH]; intros m e Hnd Hids Hsz.
  - simpl in *. replace (∅ ∪ m) with m by set_solver. rewrite Nat.add_0_r.
    destruct tail as [|[] tail]; cbn [match_results]; rewrite decide_False by lia; done.
  - apply NoDup_cons in Hnd as [Hni Hnd]. destruct item as [| |l' r' id' out oc|]; try done.
    destruct Ha as (-> & -> & ->). cbn [app match_results length] in *.
    rewrite decide_True by lia. rewrite decide_True.
    2: { destruct (Hids id) as [? ?]; [by left|]. done. }
    rewrite IH; [|done| |].
    + f_equal; [|lia]. cbn [list_to_set]. set_solver.
    + intros i Hi. destruct (Hids i) as [? ?]; [by right|]. split; [done|].
      rewrite not_elem_of_union, elem_of_singleton. split; [|done]. by intros ->.
    + rewrite size_union by (apply disjoint_singleton_l; apply Hids; by left). rewrite size_singleton. lia.
Qed.

(** One visit of the loop: an exchange starts here, or it does not. *)
Lemma match_results_exchange items s l r content replay usage :
  items !! s = Some (Assistant l r content replay usage) →
  tool_calls content ≠ [] → NoDup (tool_calls content) →
  ∀ m e, match_results l r (tool_calls content) (drop (S s) items) ∅ (S s) = (m, e) →
  (size m = length (tool_calls content) ∧ is_tool_result <$> items !! e ≠ Some true) ↔ exchange items s e.
Proof.
  intros Hs Hne Hnd m e Hm. split.
  - intros [Hsz Hend]. apply match_results_sound in Hm as (ids & results & tail & Hd & Hf & Hni & Hids & Hsm & ->).
    rewrite size_empty in Hsm. exists l, r, content, replay, usage, ids, results. split_and!; try done; [|by exists tail].
    apply submseteq_length_Permutation; [apply NoDup_submseteq; [done|]; intros i Hi; by apply Hids|lia].
  - intros (l' & r' & content' & replay' & usage' & ids & results & Hs' & _ & _ & Hp & Hf & (tail & Hd) & He & Hend).
    rewrite Hs in Hs'. injection Hs' as <- <- <- <- <-. rewrite Hd in Hm.
    assert (NoDup ids) as Hni by (by rewrite Hp).
    rewrite (match_results_complete l r _ ids results tail) in Hm; [|done|done| |].
    + injection Hm as <- _. split; [|done]. rewrite union_empty_r_L, size_list_to_set by done. by rewrite Hp.
    + intros i Hi. split; [by rewrite <- Hp|apply not_elem_of_empty].
    + rewrite size_empty. simpl. by rewrite Hp.
Qed.

Lemma match_results_reaches items s e l r content replay usage :
  items !! s = Some (Assistant l r content replay usage) → exchange items s e →
  ∃ m, match_results l r (tool_calls content) (drop (S s) items) ∅ (S s) = (m, e).
Proof.
  intros Hs (l' & r' & content' & replay' & usage' & ids & results & Hs' & _ & Hnd & Hp & Hf & (tail & Hd) & -> & Hend).
  rewrite Hs in Hs'. injection Hs' as <- <- <- <- <-. rewrite Hd. eexists.
  apply match_results_complete; [done|by rewrite Hp| |].
  - intros i Hi. split; [by rewrite <- Hp|apply not_elem_of_empty].
  - rewrite size_empty. simpl. by rewrite Hp.
Qed.

Lemma exchange_bounds items s e : exchange items s e → s + 1 < e ≤ length items.
Proof.
  intros (l & r & content & replay & usage & ids & results & Hs & Hne & _ & Hp & Hf & (tail & Hd) & -> & _).
  apply Forall2_length in Hf. assert (length ids ≠ 0) as Hl.
  { rewrite Hp. by destruct (tool_calls content). }
  apply (f_equal length) in Hd. rewrite length_drop, length_app in Hd.
  apply lookup_lt_Some in Hs. lia.
Qed.

(** Everything inside an exchange is a result. *)
Lemma exchange_inside items s e j :
  exchange items s e → s < j < e → ∃ item, items !! j = Some item ∧ is_tool_result item = true.
Proof.
  intros (l & r & content & replay & usage & ids & results & Hs & _ & _ & _ & Hf & (tail & Hd) & -> & _) Hj.
  destruct (lookup_lt_is_Some_2 results (j - S s)) as [item Hi]; [lia|]. exists item. split.
  - rewrite <- (lookup_app_l_Some results tail _ _ Hi), <- Hd, lookup_drop. f_equal. lia.
  - apply (Forall2_lookup_r _ _ _ _ _ Hf) in Hi as (id & _ & Ha). by destruct item.
Qed.

Lemma exchange_end_unique items s e e' : exchange items s e → exchange items s e' → e = e'.
Proof.
  intros H1 H2. pose proof H1 as (l & r & content & replay & usage & _ & _ & Hs & _).
  destruct (match_results_reaches _ _ _ _ _ _ _ _ Hs H1) as [m1 E1].
  destruct (match_results_reaches _ _ _ _ _ _ _ _ Hs H2) as [m2 E2]. congruence.
Qed.

Lemma complete_group_loop_spec fuel items index s e :
  length items - index ≤ fuel →
  (s, e) ∈ complete_group_loop fuel items index ↔ index ≤ s ∧ exchange items s e.
Proof.
  revert index. induction fuel as [|fuel IH]; intros index Hf; cbn [complete_group_loop].
  { split; [by intros ?%elem_of_nil|]. intros [? ?%exchange_bounds]. lia. }
  assert (∀ (Hno : ¬ exchange items index e), length items - S index ≤ fuel →
    (s, e) ∈ complete_group_loop fuel items (S index) ↔ index ≤ s ∧ exchange items s e) as Hskip.
  { intros Hno Hl. rewrite IH by done. split; intros [? ?]; split; try done; [lia|].
    destruct (decide (s = index)) as [->|]; [done|lia]. }
  destruct (items !! index) as [item|] eqn:Ei; cycle 1.
  { split; [by intros ?%elem_of_nil|]. intros [? ?%exchange_bounds]. apply lookup_ge_None in Ei. lia. }
  pose proof (lookup_lt_Some _ _ _ Ei) as Hlt.
  destruct item as [| l r content replay usage| |];
    [apply Hskip; [|lia]; intros (?&?&?&?&?&?&?&?&_); congruence| |
     apply Hskip; [|lia]; intros (?&?&?&?&?&?&?&?&_); congruence|
     apply Hskip; [|lia]; intros (?&?&?&?&?&?&?&?&_); congruence].
  case_decide as Hbad.
  { apply Hskip; [|lia]. intros (?&?&?&?&?&?&?&Hs&Hne&Hnd&_). rewrite Ei in Hs. injection Hs as <- <- <- <- <-.
    destruct Hbad as [?|Hr]; [done|]. apply repeats_nil in Hnd. congruence. }
  apply Decidable.not_or in Hbad as [Hne Hr]. apply not_true_is_false, repeats_nil in Hr.
  destruct (match_results l r (tool_calls content) (drop (S index) items) ∅ (S index)) as [m en] eqn:Em.
  pose proof (match_results_exchange items index l r content replay usage Ei Hne Hr m en Em) as Hiff.
  case_decide as Hex.
  - apply Hiff in Hex. pose proof (exchange_bounds _ _ _ Hex) as Hb. rewrite elem_of_cons, IH by lia. split.
    + intros [[= -> ->]|[? ?]]; [done|]. split; [lia|done].
    + intros [Hle He]. destruct (decide (s = index)) as [->|Hneq].
      * left. by rewrite (exchange_end_unique _ _ _ _ He Hex).
      * right. split; [|done]. destruct (decide (en ≤ s)); [done|].
        destruct (exchange_inside _ _ _ s Hex) as (it & Hit & Ht); [lia|].
        destruct He as (?&?&?&?&?&?&?&Hs&_). rewrite Hit in Hs. by injection Hs as ->.
  - apply Hskip; [|lia]. intros He.
    destruct (match_results_reaches _ _ _ _ _ _ _ _ Ei He) as [m' Em']. rewrite Em in Em'. injection Em' as -> ->.
    apply Hex, Hiff, He.
Qed.

Lemma complete_group_ranges_spec items s e : (s, e) ∈ complete_group_ranges items ↔ exchange items s e.
Proof. unfold complete_group_ranges. rewrite complete_group_loop_spec by lia. naive_solver lia. Qed.
End groups.

Section compressible.
Context `{ModelValues}.

Lemma eligible_inside base_len items loop_id s e j f :
  exchange items s e → s ≤ j < e → replaceable base_len items loop_id j f → j = s ∧ f = e.
Proof.
  intros He Hj Hr. destruct (decide (j = s)) as [->|Hne].
  - split; [done|]. destruct Hr as [Hr|(-> & _ & item & Hi & Hel)]; [by eapply exchange_end_unique|].
    destruct He as (?&?&?&?&?&?&?&Hs&Hc&_). rewrite Hs in Hi. injection Hi as <-. cbn in Hel.
    by apply bool_decide_eq_true in Hel.
  - destruct (exchange_inside _ _ _ j He) as (it & Hit & Ht); [lia|].
    destruct Hr as [(?&?&?&?&?&?&?&Hs&_)|(-> & _ & item & Hi & Hel)].
    + rewrite Hit in Hs. by injection Hs as ->.
    + rewrite Hit in Hi. injection Hi as <-. by destruct it.
Qed.

Lemma replaceable_bounds base_len items loop_id s e :
  replaceable base_len items loop_id s e → s < e ≤ length items.
Proof.
  intros [?%exchange_bounds|(-> & _ & item & ?%lookup_lt_Some & _)]; lia.
Qed.

Definition range_of (entry : EphemeralGroupKey * N) : nat * nat := (start entry.1, end_ entry.1).
Definition keyed (items : list HistoryItem) (entry : EphemeralGroupKey * N) : Prop :=
  source_hash (slice items (start entry.1) (end_ entry.1)) = Ok (key_hash entry.1) ∧
  entry.2 = group_bytes items (start entry.1) (end_ entry.1).
Definition before (x y : EphemeralGroupKey * N) : Prop := end_ x.1 ≤ start y.1.

(** The groups from [index] on, exactly. *)
Definition groups_from (base_len : nat) (items : list HistoryItem) (loop_id : N) (index : nat)
    (res : result UtilityError (list (EphemeralGroupKey * N))) : Prop :=
  match res with
  | Ok out =>
      (∀ s e, (s, e) ∈ range_of <$> out ↔ index ≤ s ∧ replaceable base_len items loop_id s e) ∧
      Forall (keyed items) out ∧ StronglySorted before out
  | Err err => ∃ s e, replaceable base_len items loop_id s e ∧ source_hash (slice items s e) = Err err
  end.

Lemma groups_from_push base_len items loop_id index e rest :
  replaceable base_len items loop_id index e →
  (∀ j f, index < j < e → ¬ replaceable base_len items loop_id j f) →
  (∀ f, replaceable base_len items loop_id index f → f = e) →
  groups_from base_len items loop_id e rest →
  groups_from base_len items loop_id index (push_group items index e rest).
Proof.
  intros Hr Hin Hu Hg. pose proof (replaceable_bounds _ _ _ _ _ Hr) as Hb. unfold push_group, group_key.
  destruct (source_hash (slice items index e)) as [h|err] eqn:Eh; cbn [fmap result_fmap mbind result_bind groups_from];
    [|by exists index, e].
  destruct rest as [out|err]; cbn [mbind result_bind groups_from]; [|done]. destruct Hg as (Hiff & Hk & Hs). split_and!.
  - intros s f. rewrite fmap_cons, elem_of_cons, Hiff. unfold range_of at 1. cbn [fst start end_]. split.
    + intros [[= -> ->]|[? ?]]; [by split|]. split; [lia|done].
    + intros [Hle Hrf]. destruct (decide (s = index)) as [->|]; [left; by rewrite (Hu _ Hrf)|].
      destruct (decide (s < e)); [exfalso; by apply (Hin s f); [lia|]|]. right. split; [lia|done].
  - by constructor.
  - constructor; [done|]. apply Forall_forall. intros x Hx. unfold before. cbn.
    apply (list_elem_of_fmap_2 range_of) in Hx. destruct (proj1 (Hiff _ _) Hx) as [Hle _]. exact Hle.
Qed.

Lemma compressible_loop_spec fuel base_len items loop_id index :
  length items - index ≤ fuel →
  groups_from base_len items loop_id index
    (compressible_loop fuel base_len items loop_id (complete_group_ranges items) index).
Proof.
  assert (∀ index, length items ≤ index → groups_from base_len items loop_id index (Ok [])) as Hend.
  { intros i Hi. split_and!; [|constructor|constructor]. intros s e. split; [by intros ?%elem_of_nil|].
    intros [? ?%replaceable_bounds]. lia. }
  revert index. induction fuel as [|fuel IH]; intros index Hf; cbn [compressible_loop]; [apply Hend; lia|].
  destruct (items !! index) as [item|] eqn:Ei; [|apply Hend; by apply lookup_ge_None].
  pose proof (lookup_lt_Some _ _ _ Ei) as Hlt.
  destruct (list_find (λ range, range.1 = index) (complete_group_ranges items)) as [[i [s e]]|] eqn:Ef.
  - apply list_find_Some in Ef as (Hs%list_elem_of_lookup_2 & ? & _). cbn in *. subst s.
    apply complete_group_ranges_spec in Hs as Hex. pose proof (exchange_bounds _ _ _ Hex) as Hb.
    apply groups_from_push; [by left| | |apply IH; lia].
    + intros j f Hj Hr. destruct (eligible_inside _ _ _ _ _ j f Hex ltac:(lia) Hr). lia.
    + intros f Hr. destruct (eligible_inside _ _ _ _ _ index f Hex ltac:(lia) Hr). done.
  - apply list_find_None in Ef. assert (∀ f, ¬ exchange items index f) as Hno.
    { intros f Hex%complete_group_ranges_spec. rewrite Forall_forall in Ef. by apply (Ef _ Hex). }
    case_decide as Hd.
    + rewrite Nat.add_1_r. apply groups_from_push; [|intros; lia| |apply IH; lia].
      * right. split; [lia|]. split; [apply Hd|]. exists item. split; [done|apply Hd].
      * intros f [Hex|(-> & _)]; [by destruct (Hno f)|lia].
    + assert (groups_from base_len items loop_id (S index)
        (compressible_loop fuel base_len items loop_id (complete_group_ranges items) (S index))) as Hg by (apply IH; lia).
      destruct (compressible_loop _ _ _ _ _ _) as [out|]; [|exact Hg]. destruct Hg as (Hiff & Hk & Hs).
      split_and!; [|done|done]. intros s f. rewrite Hiff. split; intros [Hle Hr]; split; try done; [lia|].
      destruct (decide (s = index)) as [->|]; [|lia]. exfalso.
      destruct Hr as [Hex|(-> & Hb & it & Hi & Hel)]; [by apply (Hno f)|]. apply Hd. rewrite Ei in Hi. by injection Hi as ->.
Qed.

(** C16 The ranges compaction may replace are exactly the complete tool exchanges and the
    single settled items that are neither a call, a result nor a prompt of the running
    loop; they come in order without overlap, each under the hash and size of its own
    content, and the search fails only where that hash does. *)
Theorem compressible_ranges_spec base_len items loop_id :
  match compressible_ranges base_len items loop_id with
  | Ok out =>
      (∀ s e, (s, e) ∈ range_of <$> out ↔ replaceable base_len items loop_id s e) ∧
      Forall (keyed items) out ∧ StronglySorted before out
  | Err err => ∃ s e, replaceable base_len items loop_id s e ∧ source_hash (slice items s e) = Err err
  end.
Proof.
  pose proof (compressible_loop_spec (length items) base_len items loop_id 0 ltac:(lia)) as Hg.
  unfold compressible_ranges. destruct (compressible_loop _ _ _ _ _ _) as [out|err]; [|exact Hg].
  destruct Hg as (Hiff & Hk & Hs). split_and!; [|done|done]. intros s e. rewrite Hiff. split; [by intros []|]. split; [lia|done].
Qed.
End compressible.

(** ** Clean tool exchanges *)

Section clean.
Context `{Runtime}.

Definition message_parts (message : ModelMessage) : list AssistantPart :=
  match message with
  | AssistantMessage parts | AssistantWithReplay parts _ => parts
  | _ => []
  end.
Definition message_calls (message : ModelMessage) : list str := tool_calls (message_parts message).
Definition tool_id (message : ModelMessage) : option str :=
  match message with Tool id _ _ => Some id | _ => None end.

(** The results behind a call; [None] when one of them repeats. *)
Fixpoint take_results (count : nat) (messages : list ModelMessage) (result_ids : gset str)
    : option (gset str * list ModelMessage) :=
  match messages with
  | Tool id _ _ :: rest =>
      if decide (id ∈ result_ids) then None
      else
        let result_ids := {[id]} ∪ result_ids in
        if decide (size result_ids = count) then Some (result_ids, rest)
        else take_results count rest result_ids
  | _ => Some (result_ids, messages)
  end.

Fixpoint validate_loop (fuel : nat) (messages : list ModelMessage) : bool :=
  match fuel, messages with
  | _, [] => true
  | O, _ => false
  | S fuel, message :: rest =>
      let calls := message_calls message in
      if decide (calls = []) then
        match tool_id message with
        | Some _ => false
        | None => validate_loop fuel rest
        end
      else if repeats [] calls then false
      else
        match take_results (size (list_to_set (C := gset str) calls)) rest ∅ with
        | None => false
        | Some (result_ids, rest) =>
            if decide (result_ids = list_to_set calls) then validate_loop fuel rest else false
        end
  end.
Definition validate_clean_tool_exchanges (messages : list ModelMessage) : bool :=
  validate_loop (length messages) messages.

(** The reference: plain messages, and calls with exactly their results behind them. *)
Definition result_of (id : str) (message : ModelMessage) : Prop := tool_id message = Some id.
Inductive clean : list ModelMessage → Prop :=
  | clean_nil : clean []
  | clean_plain message rest :
      message_calls message = [] → tool_id message = None → clean rest → clean (message :: rest)
  | clean_exchange message ids results rest :
      message_calls message ≠ [] → NoDup (message_calls message) → ids ≡ₚ message_calls message →
      Forall2 result_of ids results → clean rest → clean (message :: results ++ rest).

Lemma take_results_sound count ms seen ids' rest :
  take_results count ms seen = Some (ids', rest) →
  ∃ ids results, ms = results ++ rest ∧ Forall2 result_of ids results ∧ NoDup ids ∧
    (∀ id, id ∈ ids → id ∉ seen) ∧ ids' = list_to_set ids ∪ seen.
Proof.
  revert seen. induction ms as [|m ms IH]; intros seen Ht.
  { injection Ht as <- <-. exists [], []. split_and!; [done|constructor|constructor|by intros ? ?%elem_of_nil|set_solver]. }
  assert (take_results count (m :: ms) seen = Some (seen, m :: ms) → tool_id m = None →
    ∃ ids results, m :: ms = results ++ rest ∧ Forall2 result_of ids results ∧ NoDup ids ∧
    (∀ id, id ∈ ids → id ∉ seen) ∧ ids' = list_to_set ids ∪ seen) as Hstop.
  { intros Ht' _. rewrite Ht in Ht'. injection Ht' as -> ->. exists [], [].
    split_and!; [done|constructor|constructor|by intros ? ?%elem_of_nil|set_solver]. }
  destruct m as [| | | |id out oc]; [by apply Hstop|by apply Hstop|by apply Hstop|by apply Hstop|]. clear Hstop.
  cbn [take_results] in Ht. case_decide as Hin; [done|]. case_decide as Hs.
  - injection Ht as <- <-. exists [id], [Tool id out oc]. split_and!; [done|by repeat constructor|apply NoDup_singleton| |set_solver].
    by intros i ->%list_elem_of_singleton.
  - apply IH in Ht as (ids & results & -> & Hf & Hnd & Hids & ->).
    exists (id :: ids), (Tool id out oc :: results). split_and!; [done|by constructor| | |set_solver].
    + constructor; [|done]. intros Hi%Hids. set_solver.
    + intros i [->|Hi%Hids]%elem_of_cons; [done|set_solver].
Qed.

Lemma take_results_complete count ids results rest seen :
  Forall2 result_of ids results → ids ≠ [] → NoDup ids → (∀ id, id ∈ ids → id ∉ seen) →
  size seen + length ids = count →
  take_results count (results ++ rest) seen = Some (list_to_set ids ∪ seen, rest).
Proof.
  intros Hf. revert seen. induction Hf as [|id m ids results Hm Hf IH]; intros seen Hne Hnd Hids Hsz; [done|].
  destruct m as [| | | |id' out oc]; try done. injection Hm as ->. apply NoDup_cons in Hnd as [Hni Hnd].
  assert (id ∉ seen) as Hs by (apply Hids; by left). cbn [app take_results]. rewrite decide_False by done.
  assert (size ({[id]} ∪ seen) = S (size seen)) as Hsize by (rewrite size_union, size_singleton by set_solver; lia).
  destruct ids as [|i ids].
  - inversion Hf; subst. rewrite decide_True by (simpl in *; lia). cbn [app list_to_set]. do 2 f_equal. set_solver.
  - rewrite decide_False by (simpl in *; lia). rewrite IH; [|done|done| |simpl in *; lia].
    + f_equal. cbn [list_to_set]. f_equal. set_solver.
    + intros j Hj. specialize (Hids j ltac:(by right)). set_unfold. intros [->|?]; [|done]. by apply Hni, elem_of_cons.
Qed.

Lemma validate_loop_clean fuel ms : length ms ≤ fuel → validate_loop fuel ms = true ↔ clean ms.
Proof.
  revert ms. induction fuel as [|fuel IH]; intros ms Hf.
  { destruct ms; [|simpl in Hf; lia]. split; [constructor|done]. }
  destruct ms as [|m ms]; [split; [constructor|done]|]. simpl in Hf. cbn [validate_loop].
  destruct (decide (message_calls m = [])) as [Hc|Hc].
  - destruct (tool_id m) eqn:Et; [split; [done|]; inversion 1; congruence|]. rewrite IH by lia.
    split; [by constructor|]. inversion 1; [done|congruence].
  - destruct (repeats [] (message_calls m)) eqn:Er.
    { split; [done|]. inversion 1 as [|? ? Hcm|? ids results rest Hcm Hnd]; [congruence|].
      apply repeats_nil in Hnd. congruence. }
    apply repeats_nil in Er as Hnd. rewrite size_list_to_set by done. split.
    + destruct (take_results _ _ _) as [[ids' rest]|] eqn:Et; [|done]. case_decide as Heq; [|done].
      apply take_results_sound in Et as (ids & results & -> & Hfr & Hni & _ & ->). intros Hv.
      apply (clean_exchange m ids results); [done|done| |done|].
      * apply NoDup_Permutation; [done|done|]. intros i. rewrite union_empty_r_L in Heq.
        rewrite <- (elem_of_list_to_set (C := gset str)), Heq, elem_of_list_to_set. done.
      * apply IH; [rewrite length_app in Hf; lia|done].
    + inversion 1 as [|? ? Hcm|? ids results rest Hcm _ Hp Hfr Hcl]; subst; [congruence|].
      assert (NoDup ids) as Hni by (by rewrite Hp).
      rewrite (take_results_complete _ ids); [|done| |done|by intros; apply not_elem_of_empty|by rewrite size_empty, Hp].
      * rewrite decide_True by (by rewrite union_empty_r_L, Hp). rewrite length_app in Hf. apply IH; [lia|done].
      * intros ->. apply Permutation_nil_l in Hp. congruence.
Qed.

Lemma validate_clean ms : validate_clean_tool_exchanges ms = true ↔ clean ms.
Proof. by apply validate_loop_clean. Qed.

Lemma clean_app ms ns : clean ms → clean ns → clean (ms ++ ns).
Proof.
  induction 1 as [|m rest H1 H2 _ IH|m ids results rest H1 H2 H3 H4 _ IH]; intros Hn; [done| |].
  - cbn [app]. constructor; auto.
  - cbn [app]. rewrite <- app_assoc. eapply clean_exchange; eauto.
Qed.
End clean.

(** ** The pieces of a reduced request *)

(** An item kept, a group replaced by its own summary, a group the consolidated summary
    stands for. *)
Inductive piece :=
  | Keep (i : nat)
  | Fold (key : EphemeralGroupKey) (summary : str)
  | Covered (key : EphemeralGroupKey).
Definition piece_start (p : piece) : nat :=
  match p with Keep i => i | Fold key _ | Covered key => start key end.
Definition piece_end (p : piece) : nat :=
  match p with Keep i => S i | Fold key _ | Covered key => end_ key end.

(** Consecutive pieces from one index to another. *)
Inductive tiles : nat → nat → list piece → Prop :=
  | tiles_nil n : tiles n n []
  | tiles_cons p ps n : tiles (piece_end p) n ps → tiles (piece_start p) n (p :: ps).

Section pieces.
Context `{ModelValueLaws}.

Definition replaced (folded : gmap EphemeralGroupKey str) (consolidated : option ConsolidatedSummary)
    (key : EphemeralGroupKey) : Prop :=
  is_covered consolidated key = true ∨ is_Some (folded !! key).

Definition piece_of (ranges : list (EphemeralGroupKey * N)) (folded : gmap EphemeralGroupKey str)
    (consolidated : option ConsolidatedSummary) (p : piece) : Prop :=
  match p with
  | Keep i => ∀ key, key ∈ ranges.*1 → start key = i → ¬ replaced folded consolidated key
  | Fold key summary => key ∈ ranges.*1 ∧ is_covered consolidated key = false ∧ folded !! key = Some summary
  | Covered key => key ∈ ranges.*1 ∧ is_covered consolidated key = true
  end.

Definition render (history : list ModelMessage) (p : piece) : option (list ModelMessage) :=
  match p with
  | Keep i => (λ m, [m]) <$> history !! i
  | Fold _ summary => (λ m, [m]) <$> summary_data_message summary
  | Covered _ => Some []
  end.

(** The body of the request: every item in one piece, in order. *)
Definition body_of ranges folded consolidated (history : list ModelMessage) (index : nat) (body : list ModelMessage) : Prop :=
  ∃ pieces rendered, tiles index (length history) pieces ∧ Forall (piece_of ranges folded consolidated) pieces ∧
    Forall2 (λ p r, render history p = Some r) pieces rendered ∧ body = concat rendered.

Lemma body_cons ranges folded consolidated history p r body :
  piece_of ranges folded consolidated p → render history p = Some r →
  body_of ranges folded consolidated history (piece_end p) body →
  body_of ranges folded consolidated history (piece_start p) (r ++ body).
Proof.
  intros Hp Hr (ps & rs & Ht & Hps & Hrs & ->). exists (p :: ps), (r :: rs).
  split_and!; [by constructor|by constructor|by constructor|done].
Qed.

Lemma same_start ranges key key' :
  StronglySorted before ranges → (∀ entry, entry ∈ ranges → start entry.1 < end_ entry.1) →
  key ∈ ranges.*1 → key' ∈ ranges.*1 → start key = start key' → key = key'.
Proof.
  intros Hs Hlt. induction Hs as [|x ranges Hs IH Hx]; [by intros ?%elem_of_nil|].
  rewrite Forall_forall in Hx.
  assert (∀ k, k ∈ ranges.*1 → start x.1 < start k) as Hfst.
  { intros k (entry & -> & He)%list_elem_of_fmap. specialize (Hx _ He). unfold before in Hx.
    specialize (Hlt x ltac:(by left)). lia. }
  assert (∀ entry, entry ∈ ranges → start entry.1 < end_ entry.1) as Hlt' by (intros; apply Hlt; by right).
  rewrite fmap_cons, !elem_of_cons. intros [->|Hk] [->|Hk'] He; [done| | |by apply IH].
  - specialize (Hfst _ Hk'). lia.
  - specialize (Hfst _ Hk). lia.
Qed.

Lemma fold_loop_spec fuel history ranges folded consolidated index :
  StronglySorted before ranges → (∀ entry, entry ∈ ranges → start entry.1 < end_ entry.1 ≤ length history) →
  index ≤ length history → length history - index ≤ fuel →
  match fold_loop fuel history ranges folded consolidated index with
  | None => False
  | Some (Ok body) => body_of ranges folded consolidated history index body
  | Some (Err e) => e = InvalidResponse ∧ ∃ key summary, folded !! key = Some summary ∧ summary_data_message summary = None
  end.
Proof.
  intros Hsorted Hb. revert index. induction fuel as [|fuel IH]; intros index Hi Hf.
  { cbn [fold_loop]. rewrite lookup_ge_None_2 by lia. exists [], []. replace index with (length history) by lia.
    split_and!; constructor. }
  cbn [fold_loop]. destruct (history !! index) as [message|] eqn:Em; cycle 1.
  { apply lookup_ge_None in Em. exists [], []. replace index with (length history) by lia. split_and!; constructor. }
  pose proof (lookup_lt_Some _ _ _ Em) as Hlt.
  assert (piece_of ranges folded consolidated (Keep index) →
    match (fmap (M := option) (fmap (M := result UtilityError) (cons message))
            (fold_loop fuel history ranges folded consolidated (S index))) with
    | None => False
    | Some (Ok body) => body_of ranges folded consolidated history index body
    | Some (Err e) => e = InvalidResponse ∧ ∃ key summary, folded !! key = Some summary ∧ summary_data_message summary = None
    end) as Hkeep.
  { intros Hp. specialize (IH (S index) ltac:(lia) ltac:(lia)).
    destruct (fold_loop fuel _ _ _ _ (S index)) as [[body|e]|]; [|exact IH|exact IH]. cbn.
    apply (body_cons _ _ _ _ (Keep index) [message]); [done|cbn; by rewrite Em|exact IH]. }
  destruct (list_find (λ range, start range.1 = index) ranges) as [[i [key bytes]]|] eqn:Ef.
  - apply list_find_Some in Ef as (Hin%list_elem_of_lookup_2 & Hst & _). cbn in Hst.
    pose proof (Hb _ Hin) as Hk. cbn in Hk. apply (list_elem_of_fmap_2 fst) in Hin. cbn [fst] in Hin.
    destruct (is_covered consolidated key) eqn:Ec; [|destruct (folded !! key) as [summary|] eqn:Es].
    + specialize (IH (end_ key) ltac:(lia) ltac:(lia)).
      destruct (fold_loop fuel _ _ _ _ (end_ key)) as [[body|e]|]; [|exact IH|exact IH].
      rewrite <- Hst. by apply (body_cons _ _ _ _ (Covered key) []).
    + destruct (summary_data_message summary) as [data|] eqn:Ed; [|by eauto].
      specialize (IH (end_ key) ltac:(lia) ltac:(lia)).
      destruct (fold_loop fuel _ _ _ _ (end_ key)) as [[body|e]|]; [|exact IH|exact IH]. cbn. rewrite <- Hst.
      apply (body_cons _ _ _ _ (Fold key summary) [data]); [done|cbn; by rewrite Ed|exact IH].
    + apply Hkeep. intros key' Hk' Hst' Hr. assert (key' = key) as ->.
      { eapply same_start; [done| |done|done|congruence]. intros. by apply Hb. }
      destruct Hr as [?|[? ?]]; congruence.
  - apply Hkeep. apply list_find_None in Ef. rewrite Forall_forall in Ef. intros key (entry & -> & He)%list_elem_of_fmap Hst.
    by destruct (Ef _ He).
Qed.
End pieces.

(** ** What a reduction keeps *)

Section kept.
Context `{ModelValueLaws}.
Context (base_len : nat) (items : list HistoryItem) (loop_id : N) (history : list ModelMessage).
Context (ranges : list (EphemeralGroupKey * N)) (folded : gmap EphemeralGroupKey str).
Context (consolidated : option ConsolidatedSummary).

Definition message_of (item : HistoryItem) (message : ModelMessage) : Prop := history_message item = Ok message.
Definition rendered_as (p : piece) (r : list ModelMessage) : Prop := render history p = Some r.

Lemma history_messages_spec its ms : history_messages its = Ok ms → Forall2 message_of its ms.
Proof.
  revert ms. induction its as [|it its IH]; intros ms Hm; cbn [history_messages] in Hm; [injection Hm as <-; constructor|].
  res_inv. constructor; [done|]. by apply IH.
Qed.

Definition item_calls (item : HistoryItem) : list str :=
  match item with Assistant _ _ content _ _ => tool_calls content | _ => [] end.

Lemma message_of_calls item m :
  message_of item m →
  message_calls m = item_calls item ∧ (is_Some (tool_id m) ↔ is_tool_result item = true) ∧
  (∀ text, user_text loop_id item = Some text → m = UserMessage text).
Proof.
  unfold message_of. destruct item; cbn [history_message]; intros Hm; apply ok_or_Ok in Hm.
  - apply user_law in Hm as ->. split_and!; [done|by split; [intros [? ?]|]|]. cbn. intros text. by case_decide; intros [= ->].
  - apply assistant_law in Hm as [->| ->]; (split_and!; [done|by split; [intros [? ?]|]|done]).
  - apply tool_law in Hm as ->. split_and!; [done|by split; [|eexists]|done].
  - apply system_law in Hm as ->. split_and!; [done|by split; [intros [? ?]|]|done].
Qed.

Lemma summary_plain s m : summary_data_message s = Some m → message_calls m = [] ∧ tool_id m = None.
Proof. intros ->%user_law. done. Qed.

Hypothesis Hitems : Forall2 message_of items history.
Hypothesis Hranges : ∀ key, key ∈ ranges.*1 → replaceable base_len items loop_id (start key) (end_ key).

(** A piece begins at its items and replaces only what may be replaced. *)
Definition sound_piece (p : piece) : Prop :=
  match p with Keep _ => True | Fold key _ | Covered key => replaceable base_len items loop_id (start key) (end_ key) end.

Lemma piece_of_sound p : piece_of ranges folded consolidated p → sound_piece p.
Proof. destruct p; [done| |]; intros [? ?]; by apply Hranges. Qed.

Lemma tiles_le i n ps : tiles i n ps → Forall sound_piece ps → i ≤ n ∧ (i = n → ps = []).
Proof.
  induction 1 as [|p ps n _ IH]; intros Hs; [done|]. apply Forall_cons in Hs as [Hp Hs]. specialize (IH Hs).
  assert (piece_start p < piece_end p); [|split; lia].
  destruct p; cbn in *; [lia| |]; apply replaceable_bounds in Hp; lia.
Qed.

(** What one step over the pieces at [i] does. *)
Lemma tiles_step i ps rs :
  tiles i (length history) ps → Forall sound_piece ps → Forall2 rendered_as ps rs → i < length history →
  ∃ item m e r rs' ps', items !! i = Some item ∧ history !! i = Some m ∧ message_of item m ∧ concat rs = r ++ concat rs' ∧
    tiles e (length history) ps' ∧ Forall sound_piece ps' ∧ Forall2 rendered_as ps' rs' ∧
    ((e = S i ∧ r = [m]) ∨
     (replaceable base_len items loop_id i e ∧
      (r = [] ∨ ∃ d, r = [d] ∧ message_calls d = [] ∧ tool_id d = None))).
Proof.
  intros Ht Hs Hr Hi. destruct (lookup_lt_is_Some_2 history i Hi) as [m Hm].
  destruct (Forall2_lookup_r _ _ _ _ _ Hitems Hm) as (item & Hit & Hof).
  inversion Ht as [|p ps' n Ht']; subst; [lia|]. apply Forall_cons in Hs as [Hp Hs].
  apply Forall2_cons_inv_l in Hr as (r & rs' & Hr & Hrs & ->).
  exists item, m, (piece_end p), r, rs', ps'. split_and!; try done. unfold rendered_as in Hr.
  destruct p as [j|key s|key]; cbn in *.
  - rewrite Hm in Hr. left. split; [done|]. cbn in Hr. congruence.
  - right. split; [done|]. destruct (summary_data_message s) as [d|] eqn:Ed; [|done]. cbn in Hr. right. exists d.
    apply summary_plain in Ed as [? ?]. split_and!; [congruence|done|done].
  - right. split; [done|]. left. congruence.
Qed.

Lemma drop_S_cons {A} (l : list A) i x k : drop i l = x :: k → l !! i = Some x ∧ drop (S i) l = k.
Proof.
  intros Hd. split.
  - rewrite <- (Nat.add_0_r i), <- lookup_drop, Hd. done.
  - rewrite <- Nat.add_1_r, <- drop_drop, Hd. done.
Qed.

(** Results behind a call that was kept are kept. *)
Lemma kept_results ids results rest i ps rs :
  Forall2 result_of ids results → drop i history = results ++ rest →
  tiles i (length history) ps → Forall sound_piece ps → Forall2 rendered_as ps rs →
  ∃ ps' rs', concat rs = results ++ concat rs' ∧ tiles (i + length results) (length history) ps' ∧
    Forall sound_piece ps' ∧ Forall2 rendered_as ps' rs'.
Proof.
  intros Hf. revert i ps rs. induction Hf as [|id res ids results Hid _ IH]; intros i ps rs Hd Ht Hs Hr.
  { exists ps, rs. by rewrite Nat.add_0_r. }
  cbn [app] in Hd. apply drop_S_cons in Hd as [Hi Hd].
  destruct (tiles_step i ps rs Ht Hs Hr) as (item & m & e & r & rs' & ps' & Hit & Hm & Hof & -> & Ht' & Hs' & Hr' & Hcase).
  { by eapply lookup_lt_Some. }
  rewrite Hi in Hm. injection Hm as <-. destruct (message_of_calls _ _ Hof) as (_ & Htool & _).
  assert (is_tool_result item = true) as Htr by (apply Htool; by exists id).
  destruct Hcase as [[-> ->]|[Hrep _]].
  - destruct (IH (S i) ps' rs' Hd Ht' Hs' Hr') as (ps2 & rs2 & Hc & ? & ? & ?). exists ps2, rs2.
    rewrite Hc. cbn [length]. by rewrite Nat.add_succ_r.
  - exfalso. destruct Hrep as [(?&?&?&?&?&?&?&Hx&_)|(_ & _ & it & Hx & Hel)]; rewrite Hit in Hx; injection Hx as ->; [done|].
    by destruct it.
Qed.

Lemma exchange_item i e item : exchange items i e → items !! i = Some item →
  item_calls item ≠ [] ∧ e = S i + length (item_calls item).
Proof.
  intros (?&?&content&?&?&ids&results&Hx&Hne&_&Hp&Hf&_&->&_) Hi. rewrite Hi in Hx. injection Hx as ->. split; [done|].
  cbn. apply Forall2_length in Hf. rewrite <- Hf. by rewrite Hp.
Qed.

Lemma clean_pieces h i ps rs :
  clean h → drop i history = h → tiles i (length history) ps → Forall sound_piece ps →
  Forall2 rendered_as ps rs → clean (concat rs).
Proof.
  intros Hc. revert i ps rs. induction Hc as [|m rest Hmc Hmt Hc IH|m ids results rest Hmc Hnd Hp Hf Hc IH]; intros i ps rs Hd Ht Hs Hr.
  { destruct (tiles_le _ _ _ Ht Hs) as [Hle Hnil]. apply (f_equal length) in Hd. rewrite length_drop in Hd. simpl in Hd.
    rewrite Hnil in Hr by lia. apply Forall2_nil_inv_l in Hr as ->. constructor. }
  all: apply drop_S_cons in Hd as [Hi Hd].
  all: destruct (tiles_step i ps rs Ht Hs Hr) as (item & m' & e & r & rs' & ps' & Hit & Hm & Hof & -> & Ht' & Hs' & Hr' & Hcase);
    [by eapply lookup_lt_Some|].
  all: rewrite Hi in Hm; injection Hm as <-; destruct (message_of_calls _ _ Hof) as (Hcalls & Htool & _).
  - destruct Hcase as [[-> ->]|[Hrep Hrr]]; [cbn; constructor; [done|done|by eapply IH]|].
    assert (e = S i) as ->.
    { destruct Hrep as [Hex|[-> _]]; [|done]. destruct (exchange_item _ _ _ Hex Hit). congruence. }
    assert (clean (concat rs')) as Hcl by (by eapply IH).
    destruct Hrr as [->|(d & -> & ? & ?)]; [done|]. by constructor.
  - destruct Hcase as [[-> ->]|[Hrep Hrr]].
    + destruct (kept_results ids results rest (S i) ps' rs' Hf Hd Ht' Hs' Hr') as (ps2 & rs2 & -> & Ht2 & Hs2 & Hr2).
      cbn [app]. eapply clean_exchange; [done|done|done|done|]. eapply IH; [|exact Ht2|done|done].
      rewrite <- drop_drop, Hd. apply drop_app_length.
    + assert (e = S i + length results) as ->.
      { destruct Hrep as [Hex|(_ & _ & it & Hx & Hel)].
        - destruct (exchange_item _ _ _ Hex Hit) as [_ ->]. apply Forall2_length in Hf. rewrite <- Hcalls, <- Hf. by rewrite Hp.
        - rewrite Hit in Hx. injection Hx as ->. exfalso. apply Hmc. rewrite Hcalls. destruct it; try done. cbn in Hel.
          by apply bool_decide_eq_true in Hel. }
      assert (clean (concat rs')) as Hcl.
      { eapply IH; [|exact Ht'|done|done]. rewrite <- drop_drop, Hd. apply drop_app_length. }
      destruct Hrr as [->|(d & -> & ? & ?)]; [done|]. by constructor.
Qed.

Lemma replaceable_no_prompt i e j item :
  replaceable base_len items loop_id i e → i ≤ j < e → items !! j = Some item → user_text loop_id item = None.
Proof.
  intros Hrep Hj Hit. destruct Hrep as [Hex|(-> & _ & it & Hx & Hel)].
  - destruct (decide (j = i)) as [->|].
    + destruct Hex as (?&?&?&?&?&?&?&Hx&_). rewrite Hit in Hx. by injection Hx as ->.
    + destruct (exchange_inside _ _ _ j Hex) as (it & Hx & Ht); [lia|]. rewrite Hit in Hx. injection Hx as ->. by destruct it.
  - replace j with i in * by lia. rewrite Hit in Hx. injection Hx as ->. destruct it; try done. cbn in *.
    apply bool_decide_eq_true in Hel. by rewrite decide_False.
Qed.

Lemma prompts_kept k i ps rs :
  length history - i ≤ k → tiles i (length history) ps → Forall sound_piece ps → Forall2 rendered_as ps rs →
  (UserMessage <$> omap (user_text loop_id) (drop i items)) `sublist_of` concat rs.
Proof.
  pose proof (Forall2_length _ _ _ Hitems) as Hlen.
  revert i ps rs. induction k as [|k IH]; intros i ps rs Hk Ht Hs Hr.
  all: destruct (decide (i < length history)) as [Hi|Hi]; [|rewrite drop_ge by lia; apply sublist_nil_l].
  { lia. }
  destruct (tiles_step i ps rs Ht Hs Hr Hi) as (item & m & e & r & rs' & ps' & Hit & Hm & Hof & -> & Ht' & Hs' & Hr' & Hcase).
  destruct (message_of_calls _ _ Hof) as (_ & _ & Hprompt).
  destruct Hcase as [[-> ->]|[Hrep _]].
  - rewrite (drop_S _ _ _ Hit). cbn [omap list_omap app]. assert (length history - S i ≤ k) as Hk' by lia.
    specialize (IH _ _ _ Hk' Ht' Hs' Hr'). destruct (user_text loop_id item) as [text|].
    + rewrite (Hprompt _ eq_refl), fmap_cons. by apply sublist_skip.
    + by apply sublist_cons.
  - pose proof (replaceable_bounds _ _ _ _ _ Hrep) as Hb. assert (length history - e ≤ k) as Hk' by lia.
    specialize (IH _ _ _ Hk' Ht' Hs' Hr').
    replace (drop i items) with (take (e - i) (drop i items) ++ drop e items).
    + rewrite omap_app. assert (omap (user_text loop_id) (take (e - i) (drop i items)) = []) as ->.
      { apply elem_of_nil_inv. intros text (it & Hin & Htext)%list_elem_of_omap.
        apply list_elem_of_lookup in Hin as (j & Hj). pose proof (lookup_lt_Some _ _ _ Hj) as Hjl. rewrite length_take in Hjl.
        rewrite lookup_take_lt in Hj by lia. rewrite lookup_drop in Hj.
        rewrite (replaceable_no_prompt _ _ (i + j) it Hrep ltac:(lia) Hj) in Htext. done. }
      cbn [app]. by apply sublist_inserts_l.
    + rewrite <- (take_drop (e - i) (drop i items)) at 2. rewrite drop_drop. do 2 f_equal. lia.
Qed.
End kept.

(** ** The reduced request as a whole *)

Section request.
Context `{ModelValueLaws}.

Definition head_of (fixed : list ModelMessage) (consolidated : option ConsolidatedSummary) : list ModelMessage :=
  match consolidated with
  | None => fixed
  | Some value =>
      filter is_system fixed ++
      [UserMessage (SUMMARY_DATA_PREFIX ++ consolidated_content value ++ SUMMARY_DATA_SUFFIX)]
  end.

Lemma compose_fixed sys summary base appended fixed history :
  compose sys summary base appended = Ok (fixed, history) →
  Forall2 message_of (base ++ appended) history ∧ Forall (λ m, message_calls m = [] ∧ tool_id m = None) fixed.
Proof.
  unfold compose. intros Hc. res_inv. subst. split; [by apply history_messages_spec|].
  assert (Forall (λ m, message_calls m = [] ∧ tool_id m = None) r) as Hsys.
  { destruct (decide (sys = [])); res_inv; [constructor|].
    match goal with H : system _ = Some _ |- _ => apply system_law in H as -> end. by repeat constructor. }
  destruct summary as [summary|]; res_inv; [|done].
  match goal with H : summary_data_message _ = Some _ |- _ => apply summary_plain in H as Hp end.
  apply Forall_app. split; [done|]. by apply Forall_singleton.
Qed.

Lemma ranges_replaceable base appended loop_id ranges :
  compressible_ranges (length base) (base ++ appended) loop_id = Ok ranges →
  (∀ key, key ∈ ranges.*1 → replaceable (length base) (base ++ appended) loop_id (start key) (end_ key)) ∧
  StronglySorted before ranges.
Proof.
  intros Hr. pose proof (compressible_loop_spec (length (base ++ appended)) (length base) (base ++ appended) loop_id 0 ltac:(lia)) as Hs.
  fold (compressible_ranges (length base) (base ++ appended) loop_id) in Hs. rewrite Hr in Hs. destruct Hs as (Hiff & _ & Hsort).
  split; [|done]. intros key (entry & -> & He)%list_elem_of_fmap. apply (Hiff _ _), (list_elem_of_fmap_2 range_of), He.
Qed.

Lemma fold_head fixed history ranges folded consolidated ms :
  fold_history_with_ranges fixed history ranges folded consolidated = Some (Ok ms) →
  ∃ body, ms = head_of fixed consolidated ++ body ∧
    fold_loop (length history) history ranges folded consolidated 0 = Some (Ok body).
Proof.
  unfold fold_history_with_ranges. destruct consolidated as [value|].
  - destruct (summary_data_message (consolidated_content value)) as [m|] eqn:Em; [|done]. apply user_law in Em as ->.
    cbn [ok_or mbind result_bind]. destruct (fold_loop _ _ _ _ _ _) as [[body|]|]; [|done|done].
    intros [= <-]. by exists body.
  - destruct (fold_loop _ _ _ _ _ _) as [[body|]|]; [|done|done]. intros [= <-]. by exists body.
Qed.

Lemma fold_request_spec sys summary base appended loop_id ranges fixed history folded consolidated :
  compressible_ranges (length base) (base ++ appended) loop_id = Ok ranges →
  compose sys summary base appended = Ok (fixed, history) →
  match fold_history_with_ranges fixed history ranges folded consolidated with
  | None => False
  | Some (Ok ms) => ∃ body, ms = head_of fixed consolidated ++ body ∧ body_of ranges folded consolidated history 0 body
  | Some (Err e) => e = InvalidResponse ∧ ∃ text, summary_data_message text = None
  end.
Proof.
  intros Hr Hc. apply ranges_replaceable in Hr as [Hr Hsort]. apply compose_fixed in Hc as [Hf _].
  pose proof (Forall2_length _ _ _ Hf) as Hlen.
  pose proof (fold_loop_spec (length history) history ranges folded consolidated 0 Hsort) as Hfold.
  specialize (Hfold ltac:(intros entry He; rewrite <- Hlen; apply (replaceable_bounds _ _ _ _ _ (Hr _ (list_elem_of_fmap_2 fst _ _ He))))
    ltac:(lia) ltac:(lia)).
  destruct (fold_history_with_ranges _ _ _ _ _) as [[ms|e]|] eqn:Ef.
  - apply fold_head in Ef as (body & -> & Hl). rewrite Hl in Hfold. by exists body.
  - unfold fold_history_with_ranges in Ef. destruct consolidated as [value|].
    + destruct (summary_data_message (consolidated_content value)) as [m|] eqn:Em.
      * cbn [ok_or mbind result_bind] in Ef. destruct (fold_loop _ _ _ _ _ _) as [[body|err]|]; [done| |done].
        injection Ef as <-. destruct Hfold as (-> & ? & ? & _ & ?). eauto.
      * injection Ef as <-. eauto.
    + destruct (fold_loop _ _ _ _ _ _) as [[body|err]|]; [done| |done].
      injection Ef as <-. destruct Hfold as (-> & ? & ? & _ & ?). eauto.
  - unfold fold_history_with_ranges in Ef. destruct consolidated as [value|]; cbn in Ef.
    + destruct (summary_data_message (consolidated_content value)); [|done]. cbn in Ef. by destruct (fold_loop _ _ _ _ _ _) as [[]|].
    + by destruct (fold_loop _ _ _ _ _ _) as [[]|].
Qed.

Lemma fold_request_keeps sys summary base appended loop_id ranges fixed history folded consolidated ms :
  compressible_ranges (length base) (base ++ appended) loop_id = Ok ranges →
  compose sys summary base appended = Ok (fixed, history) →
  fold_history_with_ranges fixed history ranges folded consolidated = Some (Ok ms) →
  (UserMessage <$> current_user_texts base appended loop_id) `sublist_of` ms ∧
  (validate_clean_tool_exchanges history = true → validate_clean_tool_exchanges ms = true).
Proof.
  intros Hr Hc Hfold. apply ranges_replaceable in Hr as [Hr Hsort]. apply compose_fixed in Hc as [Hf Hplain].
  pose proof (Forall2_length _ _ _ Hf) as Hlen. apply fold_head in Hfold as (body & -> & Hl).
  pose proof (fold_loop_spec (length history) history ranges folded consolidated 0 Hsort) as Hs.
  specialize (Hs ltac:(intros entry He; rewrite <- Hlen; apply (replaceable_bounds _ _ _ _ _ (Hr _ (list_elem_of_fmap_2 fst _ _ He))))
    ltac:(lia) ltac:(lia)). rewrite Hl in Hs. destruct Hs as (ps & rs & Ht & Hps & Hrs & ->).
  assert (Forall (sound_piece (length base) (base ++ appended) loop_id) ps) as Hsound.
  { eapply Forall_impl; [exact Hps|]. intros p Hp. by eapply piece_of_sound. }
  split.
  - apply sublist_inserts_l. change (current_user_texts base appended loop_id) with
      (omap (user_text loop_id) (drop 0 (base ++ appended))). by eapply prompts_kept.
  - rewrite !validate_clean. intros Hcl. apply clean_app; [|by apply (clean_pieces (length base) (base ++ appended) loop_id history Hf history 0 ps rs)].
    assert (∀ l, Forall (λ m, message_calls m = [] ∧ tool_id m = None) l → clean l) as Hall.
    { intros l. induction 1 as [|m l [? ?] _ IH]; by constructor. }
    unfold head_of. destruct consolidated as [value|]; [|by apply Hall].
    apply clean_app; [|apply clean_plain; [done|done|apply clean_nil]]. apply Hall.
    apply Forall_forall. intros m [_ Hm]%list_elem_of_filter. by eapply Forall_forall in Hplain.
Qed.

(** C17 Reducing a request always returns, and fails only when a summary is refused as a
    message.  Otherwise the request is its fixed head (with the consolidated summary
    in place of the durable one, if there is one) and then the history in order, each
    item in exactly one piece: kept, or inside a replaceable group that its own
    summary or the consolidated summary stands for; every group that has a summary is
    replaced. *)
Theorem reduced_request sys summary base appended loop_id ranges fixed history folded consolidated :
  compressible_ranges (length base) (base ++ appended) loop_id = Ok ranges →
  compose sys summary base appended = Ok (fixed, history) →
  match fold_history_with_ranges fixed history ranges folded consolidated with
  | None => False
  | Some (Ok ms) => ∃ body, ms = head_of fixed consolidated ++ body ∧ body_of ranges folded consolidated history 0 body
  | Some (Err e) => e = InvalidResponse ∧ ∃ text, summary_data_message text = None
  end.
Proof. apply fold_request_spec. Qed.

(** C18 A reduction never loses a prompt or steer of the running loop: their messages are
    all in the reduced request, verbatim and in order.  And it never tears a tool
    exchange: when the history passes the exchange check, so does the request. *)
Theorem reduction_keeps sys summary base appended loop_id ranges fixed history folded consolidated ms :
  compressible_ranges (length base) (base ++ appended) loop_id = Ok ranges →
  compose sys summary base appended = Ok (fixed, history) →
  fold_history_with_ranges fixed history ranges folded consolidated = Some (Ok ms) →
  (UserMessage <$> current_user_texts base appended loop_id) `sublist_of` ms ∧
  (validate_clean_tool_exchanges history = true → validate_clean_tool_exchanges ms = true).
Proof. apply fold_request_keeps. Qed.
End request.

(** ** A request with one exchange folded *)

Module Sample.
#[local] Instance rt : Runtime := {| Json := unit; Replay := unit; Output := str; Outcome := bool |}.
#[local] Instance values : ModelValues := {|
  MAX_BYTES := 262144;
  system t := Some (System t);
  user t := Some (UserMessage t);
  assistant_with_provider_replay parts _ := Some (AssistantMessage parts);
  tool_with_outcome id output outcome := Some (Tool id output outcome);
  to_vec _ := Some (as_bytes (lit "{}"));
  byte_len := str_len;
  source_hash items := Ok [lenN items]
|}.
#[local] Instance laws : ModelValueLaws.
Proof. split; naive_solver. Qed.

Definition no_usage : Usage := mkUsage None None None None None None.
Definition call (id : string) : AssistantPart := ToolCall (lit id) (lit "bash") ().
Definition base : list HistoryItem := [
  User 1 (lit "old"); Assistant 1 0 [Text (lit "done")] () no_usage;
  Assistant 1 1 [call "a"; call "b"] () no_usage; ToolResult 1 1 (lit "b") (lit "B") true; ToolResult 1 1 (lit "a") (lit "A") true;
  User 2 (lit "now") ].
Definition appended : list HistoryItem := [Assistant 2 0 [call "c"] () no_usage; ToolResult 2 0 (lit "c") (lit "C") true].
Definition ranges : list (EphemeralGroupKey * N) :=
  match compressible_ranges (length base) (base ++ appended) 2 with Ok r => r | Err _ => [] end.
Definition composed : list ModelMessage * list ModelMessage :=
  match compose (lit "S") None base appended with Ok r => r | Err _ => ([], []) end.
Definition folded : gmap EphemeralGroupKey str := {[ mkKey 2 5 [3%N] := lit "ran a and b" ]}.
Definition request : list ModelMessage :=
  match fold_history_with_ranges composed.1 composed.2 ranges folded None with Some (Ok r) => r | _ => [] end.

Example ranges_are : range_of <$> ranges = [(0, 1); (1, 2); (2, 5); (6, 8)].
Proof. vm_compute. reflexivity. Qed.

Lemma ranges_eq : compressible_ranges (length base) (base ++ appended) 2 = Ok ranges.
Proof. vm_compute. reflexivity. Qed.
Lemma composed_eq : compose (lit "S") None base appended = Ok (composed.1, composed.2).
Proof. vm_compute. reflexivity. Qed.
Lemma request_eq : fold_history_with_ranges composed.1 composed.2 ranges folded None = Some (Ok request).
Proof. vm_compute. reflexivity. Qed.

Lemma reduced_request_witness :
  ∃ body, request = head_of composed.1 None ++ body ∧ body_of ranges folded None composed.2 0 body.
Proof.
  pose proof (reduced_request (lit "S") None base appended 2 ranges composed.1 composed.2 folded None
    ranges_eq composed_eq) as Hr.
  rewrite request_eq in Hr. exact Hr.
Defined.

Lemma reduction_keeps_witness :
  [UserMessage (lit "now")] `sublist_of` request ∧ validate_clean_tool_exchanges request = true ∧ length request = 7.
Proof.
  destruct (reduction_keeps (lit "S") None base appended 2 ranges composed.1 composed.2 folded None request
    ranges_eq composed_eq request_eq) as [Hu Hv].
  split; [exact Hu|]. split; [apply Hv; vm_compute; reflexivity|vm_compute; reflexivity].
Defined.
End Sample.
