(* ===== verification/CompactionState.v ===== *)
(** The prompt state of a session, [compaction.rs] with the ticket hashes of
    [compaction/recovery/ticket.rs] and the consolidated summary of
    [compaction/threshold.rs].

    Every method takes the locks it needs and is one atomic operation on the state;
    a run is any interleaving of them, which is what the prompt provider, the model
    wrapper and the session's settlement do. *)

From S2P Require Import Prelude RustStr Usage Projection.

Definition MAX_EPHEMERAL_GROUPS : N := 64.
Definition MAX_EPHEMERAL_BYTES : N := 512 * 1024.

(** The runtime's request types, [serde_json] and SHA-256. *)
Class Requests `{ModelValues} := {
  ToolSpec : Type; ModelLimits : Type; Reasoning_pref : Type; ModelDescriptor : Type; AutoContextBinding : Type;
  default_limits : ModelLimits;
  accepts_request : list ModelMessage → list ToolSpec → ModelLimits → Reasoning_pref → bool;
  loop_text : N → str;
  model_ref : ModelDescriptor → str;
  context_window : ModelDescriptor → N;
  supports_tools : ModelDescriptor → bool;
  json_messages : list ModelMessage → option (list N);
  json_tools : list ToolSpec → option (list N);
  json_limits : ModelLimits → option (list N);
  json_supported : ModelDescriptor → option (list N);
  json_reasoning : Reasoning_pref → option (list N);
  sha256 : list N → list N;
  summary_hash : option str → result UtilityError (list N)
}.

(** ** Tickets *)

Section tickets.
Context `{Requests}.

Record ModelRequest := mkRequest {
  messages : list ModelMessage; tools : list ToolSpec; limits : ModelLimits; reasoning : Reasoning_pref }.

(** [ModelRequest::new], which validates its parts. *)
Definition ModelRequest_new (ms : list ModelMessage) (ts : list ToolSpec) (lim : ModelLimits) (pref : Reasoning_pref)
    : option ModelRequest :=
  if accepts_request ms ts lim pref then Some (mkRequest ms ts lim pref) else None.

Record TicketFraming := mkFraming {
  f_loop_id : N; f_request_index : N; f_messages : list ModelMessage; f_tools : list ToolSpec;
  f_descriptor : ModelDescriptor; f_reasoning : Reasoning_pref; f_config_generation : N; f_summary_generation : N }.

Definition u32_bytes (n : N) : list N := take 4 (u64_bytes n).

(** What is fed to the hash. *)
Definition ticket_bytes (f : TicketFraming) (lim : option ModelLimits) : option (list N) :=
  messages_json ← json_messages (f_messages f);
  tools_json ← json_tools (f_tools f);
  limits_json ← (match lim with Some lim => json_limits lim | None => Some [] end);
  support_json ← json_supported (f_descriptor f);
  reasoning_json ← json_reasoning (f_reasoning f);
  Some (as_bytes (loop_text (f_loop_id f)) ++ u32_bytes (f_request_index f) ++ messages_json ++ tools_json ++ limits_json ++
        as_bytes (model_ref (f_descriptor f)) ++ u64_bytes (context_window (f_descriptor f)) ++
        [if supports_tools (f_descriptor f) then 1%N else 0%N] ++ support_json ++ reasoning_json ++
        u64_bytes (f_config_generation f) ++ u64_bytes (f_summary_generation f)).
Definition hash_ticket_inputs (f : TicketFraming) (lim : option ModelLimits) : option (list N) :=
  sha256 <$> ticket_bytes f lim.
Definition compute_content_hash (f : TicketFraming) : option (list N) := hash_ticket_inputs f None.
Definition compute_ticket_hash (f : TicketFraming) (lim : ModelLimits) : option (list N) := hash_ticket_inputs f (Some lim).

Record ActiveRecoveryTicket := mkTicket {
  t_loop_id : N; t_request_index : N; content_hash : list N; ticket_hash : option (list N);
  original_body_bytes : N; t_system : str; t_summary : option str;
  t_base : list HistoryItem; t_appended : list HistoryItem; t_tools : list ToolSpec;
  t_limits : ModelLimits; t_reasoning : Reasoning_pref; auto_binding : option AutoContextBinding }.

Inductive TicketClaimError := AlreadyConsumed | NoTicket | IndexMismatch | StaleTicket.

Record RequestSettings := mkSettings { config_generation : N; summary_generation : N }.

(** The ticket [prompt.rs] prepares with a request. *)
Definition prepare_ticket (settings : RequestSettings) (loop_id request_index : N) (ms : list ModelMessage)
    (ts : list ToolSpec) (model : ModelDescriptor) (pref : Reasoning_pref) (sys : str) (summary : option str)
    (base appended : list HistoryItem) (binding : AutoContextBinding) : option ActiveRecoveryTicket :=
  h ← compute_content_hash (mkFraming loop_id request_index ms ts model pref
        (config_generation settings) (summary_generation settings));
  Some (mkTicket loop_id request_index h None 0 sys summary base appended ts default_limits pref (Some binding)).
End tickets.

(** ** The state *)

Record LoadedSummary := mkSummary {
  content : str; covered_loop_count : N; covered_item_count : nat; summary_superseded : option (N * N) }.

Record EphemeralSummary := mkEphemeral { owner : option N; groups : gmap EphemeralGroupKey str }.

(** What the last automatic attempts did, for display. *)
Record AutomaticCompactionObservation := mkObservation {
  o_operation_id : str; o_loop_id : option N; o_request_index : option N;
  before_tokens : option N; after_tokens : option N; o_hard_tokens : N; o_trigger_tokens : N; o_target_tokens : N;
  utility_usage : option CompactionUtilityUsage; outcome : str }.

Section state.
Context `{Requests}.

Record RecoveryRetry := mkRetry { r_loop_id : N; r_request_index : N; original_hash : list N; r_request : ModelRequest }.
Record RecoveryState := mkRecovery {
  ticket : option ActiveRecoveryTicket; retry : option RecoveryRetry; high_water : option (N * N) }.
Record ThresholdState := mkThreshold {
  consolidated_slot : option ConsolidatedSummary; attempted : option N; source : option (list N);
  current : option AutomaticCompactionObservation; last_observation : option AutomaticCompactionObservation }.

Record CompactionState := mkState {
  snapshot : option LoadedSummary;
  superseded_usage : option (N * N);
  ephemeral : option EphemeralSummary;
  recovery : RecoveryState;
  threshold : ThresholdState;
  settings : RequestSettings
}.
Definition CompactionState_new : CompactionState :=
  mkState None None None (mkRecovery None None None) (mkThreshold None None None None None) (mkSettings 0 0).

Definition set_recovery (r : RecoveryState) (s : CompactionState) : CompactionState :=
  mkState (snapshot s) (superseded_usage s) (ephemeral s) r (threshold s) (settings s).
Definition set_threshold (t : ThresholdState) (s : CompactionState) : CompactionState :=
  mkState (snapshot s) (superseded_usage s) (ephemeral s) (recovery s) t (settings s).
Definition set_ephemeral (e : option EphemeralSummary) (s : CompactionState) : CompactionState :=
  mkState (snapshot s) (superseded_usage s) e (recovery s) (threshold s) (settings s).
Definition set_ticket (t : option ActiveRecoveryTicket) (s : CompactionState) : CompactionState :=
  set_recovery (mkRecovery t (retry (recovery s)) (high_water (recovery s))) s.
Definition set_superseded (o : option (N * N)) (s : CompactionState) : CompactionState :=
  mkState (snapshot s) o (ephemeral s) (recovery s) (threshold s) (settings s).

(** [settings.summary_generation.wrapping_add(1)] *)
Definition bump_summary (s : CompactionState) : CompactionState :=
  mkState (snapshot s) (superseded_usage s) (ephemeral s) (recovery s) (threshold s)
    (mkSettings (config_generation (settings s)) (wrapping_succ (summary_generation (settings s)))).

Definition install (summary : LoadedSummary) (s : CompactionState) : CompactionState :=
  bump_summary (mkState (Some summary) (summary_superseded summary) (ephemeral s) (recovery s) (threshold s) (settings s)).
Definition publish (content : str) (loops : N) (items : nat) (superseded : option (N * N)) (s : CompactionState)
    : CompactionState := install (mkSummary content loops items superseded) s.

Definition coverage (s : CompactionState) : option (N * nat) :=
  (λ x, (covered_loop_count x, covered_item_count x)) <$> snapshot s.

Definition project (base : list HistoryItem) (s : CompactionState) : option (str * list HistoryItem) :=
  summary ← snapshot s;
  if decide (length base < covered_item_count summary) then None
  else Some (content summary, drop (covered_item_count summary) base).

Definition emergency_groups (loop_id : N) (valid_keys : gset EphemeralGroupKey) (s : CompactionState)
    : gmap EphemeralGroupKey str :=
  match ephemeral s with
  | Some summary =>
      if decide (owner summary = Some loop_id) then filter (λ entry, entry.1 ∈ valid_keys) (groups summary) else ∅
  | None => ∅
  end.

Definition groups_bytes (gs : gmap EphemeralGroupKey str) : N := map_fold (λ _ c acc, (str_len c + acc)%N) 0%N gs.

Definition install_emergency_groups (loop_id : N) (gs : gmap EphemeralGroupKey str) (s : CompactionState)
    : CompactionState * bool :=
  if decide (MAX_EPHEMERAL_GROUPS < N.of_nat (size gs) ∨ MAX_EPHEMERAL_BYTES < groups_bytes gs)%N then (s, false)
  else
    match ephemeral s ≫= owner with
    | Some other =>
        if decide (other ≠ loop_id) then (s, false)
        else (bump_summary (set_ephemeral (Some (mkEphemeral (Some loop_id) gs)) s), true)
    | None => (bump_summary (set_ephemeral (Some (mkEphemeral (Some loop_id) gs)) s), true)
    end.

Definition consolidated (loop_id : N) (summary : option str) (valid : gset EphemeralGroupKey) (s : CompactionState)
    : option ConsolidatedSummary :=
  match summary_hash summary with
  | Err _ => None
  | Ok hash =>
      entry ← consolidated_slot (threshold s);
      if decide (consolidated_loop_id entry = loop_id ∧ original_summary_hash entry = hash ∧ covered entry ⊆ valid)
      then Some entry else None
  end.

Definition install_consolidated (value : ConsolidatedSummary) (s : CompactionState) : CompactionState * bool :=
  let install := bump_summary (set_threshold (mkThreshold (Some value) (attempted (threshold s)) (source (threshold s))
                   (current (threshold s)) (last_observation (threshold s))) s) in
  match consolidated_slot (threshold s) with
  | Some old => if decide (consolidated_loop_id old ≠ consolidated_loop_id value) then (s, false) else (install, true)
  | None => (install, true)
  end.

Definition clear_threshold (loop_id : N) (s : CompactionState) : CompactionState * bool :=
  let t := threshold s in
  let removed := from_option (λ entry, bool_decide (consolidated_loop_id entry = loop_id)) false (consolidated_slot t) in
  (set_threshold (mkThreshold (if removed then None else consolidated_slot t)
                    (if decide (attempted t = Some loop_id) then None else attempted t) (source t)
                    (current t) (last_observation t)) s, removed).

Definition ends_with (suffix text : str) : bool := starts_with (reverse suffix) (reverse text).
Definition note_settlement_failure (loop_id : N) (unknown : bool) (s : CompactionState) : CompactionState :=
  let t := threshold s in
  match last_observation t with
  | Some o =>
      if decide (o_loop_id o = Some loop_id ∧ ends_with (lit "_settlement_failed") (outcome o) = false ∧
                 ends_with (lit "_settlement_unknown") (outcome o) = false)
      then set_threshold (mkThreshold (consolidated_slot t) (attempted t) (source t) (current t)
             (Some (mkObservation (o_operation_id o) (o_loop_id o) (o_request_index o) (before_tokens o) (after_tokens o)
                (o_hard_tokens o) (o_trigger_tokens o) (o_target_tokens o) (utility_usage o)
                (outcome o ++ (if unknown then lit "_settlement_unknown" else lit "_settlement_failed"))))) s
      else s
  | None => s
  end.

Definition latest_assistant (history : list HistoryItem) : option (N * N * Usage) :=
  head (omap (λ item, match item with Assistant l r _ _ u => Some (l, r, u) | _ => None end) (reverse history)).

Definition reported_context (history : list HistoryItem) (s : CompactionState) : option N :=
  a ← latest_assistant history;
  let '(l, r, u) := a in
  if decide (superseded_usage s = Some (l, r)) then None else context_tokens u.

Definition owns (loop_id : N) (e : option EphemeralSummary) : bool :=
  from_option (λ summary, bool_decide (owner summary = Some loop_id)) false e.

Definition clear_ephemeral (loop_id : N) (s : CompactionState) : CompactionState :=
  let '(s, projection_removed) := clear_threshold loop_id s in
  let '(s, projection_removed) :=
    if owns loop_id (ephemeral s)
    then (set_ephemeral None s,
          projection_removed || from_option (λ value, bool_decide (groups value ≠ ∅)) false (ephemeral s))
    else (s, projection_removed) in
  let s := if projection_removed then bump_summary s else s in
  let r := recovery s in
  set_recovery (mkRecovery
    (if decide (t_loop_id <$> ticket r = Some loop_id) then None else ticket r)
    (if decide (r_loop_id <$> retry r = Some loop_id) then None else retry r)
    (if decide (fst <$> high_water r = Some loop_id) then None else high_water r)) s.

Definition recovered_request (loop_id request_index : N) (hash : list N) (s : CompactionState)
    : CompactionState * result unit (option ModelRequest) :=
  match retry (recovery s) with
  | None => (s, Ok None)
  | Some rt =>
      if decide (r_loop_id rt ≠ loop_id ∨ r_request_index rt ≠ request_index) then
        (set_recovery (mkRecovery (ticket (recovery s)) None (high_water (recovery s))) s, Ok None)
      else if decide (original_hash rt ≠ hash) then (s, Err tt)
      else (s, Ok (Some (r_request rt)))
  end.

Definition retain_recovered_request (loop_id request_index : N) (hash : list N) (request : ModelRequest)
    (s : CompactionState) : CompactionState :=
  set_recovery (mkRecovery (ticket (recovery s)) (Some (mkRetry loop_id request_index hash request))
                  (high_water (recovery s))) s.

Definition note_settings_installed (s : CompactionState) : CompactionState :=
  mkState (snapshot s) (superseded_usage s) (ephemeral s) (recovery s) (threshold s)
    (mkSettings (wrapping_succ (config_generation (settings s))) (summary_generation (settings s))).

(** [high_water] already covers the request. *)
Definition consumed (loop_id request_index : N) (s : CompactionState) : bool :=
  match high_water (recovery s) with
  | Some (candidate, index) => bool_decide (candidate = loop_id ∧ request_index <= index)%N
  | None => false
  end.

Definition register_recovery_ticket (loop_id request_index : N) (t : option ActiveRecoveryTicket) (s : CompactionState)
    : CompactionState :=
  if consumed loop_id request_index s then set_ticket None s else set_ticket t s.

Definition same_request (loop_id request_index : N) (t : ActiveRecoveryTicket) : bool :=
  bool_decide (t_loop_id t = loop_id ∧ t_request_index t = request_index).

Definition discard_recovery_ticket (loop_id request_index : N) (s : CompactionState) : CompactionState :=
  if from_option (same_request loop_id request_index) false (ticket (recovery s)) then set_ticket None s else s.

Definition bind_actual_request_ticket (loop_id request_index : N) (chash thash : list N) (lim : ModelLimits)
    (body_bytes : N) (s : CompactionState) : CompactionState :=
  match ticket (recovery s) with
  | None => s
  | Some t =>
      if negb (same_request loop_id request_index t) then s
      else if decide (content_hash t ≠ chash) then set_ticket None s
      else set_ticket (Some (mkTicket (t_loop_id t) (t_request_index t) (content_hash t) (Some thash) body_bytes
             (t_system t) (t_summary t) (t_base t) (t_appended t) (t_tools t) lim (t_reasoning t) (auto_binding t))) s
  end.

Definition claim_framing (loop_id request_index : N) (request : ModelRequest) (model : ModelDescriptor)
    (s : CompactionState) : TicketFraming :=
  mkFraming loop_id request_index (messages request) (tools request) model (reasoning request)
    (config_generation (settings s)) (summary_generation (settings s)).

Definition claim_recovery_ticket (loop_id request_index : N) (request : ModelRequest) (model : ModelDescriptor)
    (s : CompactionState) : CompactionState * result TicketClaimError ActiveRecoveryTicket :=
  if consumed loop_id request_index s then (s, Err AlreadyConsumed)
  else
    match ticket (recovery s) with
    | None => (s, Err NoTicket)
    | Some t =>
        if negb (same_request loop_id request_index t) then (s, Err IndexMismatch)
        else
          let framing := claim_framing loop_id request_index request model s in
          match compute_content_hash framing with
          | None => (s, Err StaleTicket)
          | Some chash =>
              if decide (chash ≠ content_hash t) then (s, Err StaleTicket)
              else
                match ticket_hash t with
                | None => (s, Err StaleTicket)
                | Some bound_hash =>
                    match compute_ticket_hash framing (limits request) with
                    | None => (s, Err StaleTicket)
                    | Some thash =>
                        if decide (thash ≠ bound_hash) then (s, Err StaleTicket)
                        else (set_recovery (mkRecovery None (retry (recovery s)) (Some (loop_id, request_index))) s, Ok t)
                    end
                end
          end
    end.
End state.

(** ** Runs *)

Section runs.
Context `{Requests}.

Inductive op :=
  | Publish (content : str) (loops : N) (items : nat) (superseded : option (N * N))
  | InstallEmergency (loop_id : N) (gs : gmap EphemeralGroupKey str)
  | InstallConsolidated (value : ConsolidatedSummary)
  | Supersede (usage : option (N * N))
  | ClearEphemeral (loop_id : N)
  | SettingsInstalled
  | Register (loop_id request_index : N) (t : option ActiveRecoveryTicket)
  | Discard (loop_id request_index : N)
  | Bind (loop_id request_index : N) (chash thash : list N) (lim : ModelLimits) (body_bytes : N)
  | Claim (loop_id request_index : N) (request : ModelRequest) (model : ModelDescriptor)
  | Recovered (loop_id request_index : N) (hash : list N)
  | Retain (loop_id request_index : N) (hash : list N) (request : ModelRequest).

(** The state after an operation, and the ticket a claim obtained. *)
Definition exec (o : op) (s : CompactionState) : CompactionState * option ActiveRecoveryTicket :=
  match o with
  | Publish c loops items superseded => (publish c loops items superseded s, None)
  | InstallEmergency l gs => ((install_emergency_groups l gs s).1, None)
  | InstallConsolidated value => ((install_consolidated value s).1, None)
  | Supersede usage => (set_superseded usage s, None)
  | ClearEphemeral l => (clear_ephemeral l s, None)
  | SettingsInstalled => (note_settings_installed s, None)
  | Register l i t => (register_recovery_ticket l i t s, None)
  | Discard l i => (discard_recovery_ticket l i s, None)
  | Bind l i ch th lim bytes => (bind_actual_request_ticket l i ch th lim bytes s, None)
  | Claim l i request model =>
      match claim_recovery_ticket l i request model s with
      | (s, Ok t) => (s, Some t)
      | (s, Err _) => (s, None)
      end
  | Recovered l i hash => ((recovered_request l i hash s).1, None)
  | Retain l i hash request => (retain_recovered_request l i hash request s, None)
  end.

Inductive run : CompactionState → list (op * option ActiveRecoveryTicket) → CompactionState → Prop :=
  | run_nil s : run s [] s
  | run_snoc s tr s1 o s2 answer : run s tr s1 → exec o s1 = (s2, answer) → run s (tr ++ [(o, answer)]) s2.

(** What an operation does to the recovery state and the generations. *)
Lemma bump_recovery s : recovery (bump_summary s) = recovery s.
Proof. done. Qed.

Lemma clear_ephemeral_recovery l s :
  let r := recovery s in
  recovery (clear_ephemeral l s) = mkRecovery
    (if decide (t_loop_id <$> ticket r = Some l) then None else ticket r)
    (if decide (r_loop_id <$> retry r = Some l) then None else retry r)
    (if decide (fst <$> high_water r = Some l) then None else high_water r).
Proof.
  cbn zeta. unfold clear_ephemeral, clear_threshold. set (removed := from_option _ _ _). clearbody removed.
  destruct (owns l _); [destruct (removed || _)|destruct removed]; reflexivity.
Qed.

Lemma claim_Ok l i request model s s' t :
  claim_recovery_ticket l i request model s = (s', Ok t) →
  consumed l i s = false ∧ ticket (recovery s) = Some t ∧ t_loop_id t = l ∧ t_request_index t = i ∧
  compute_content_hash (claim_framing l i request model s) = Some (content_hash t) ∧
  (∃ h, ticket_hash t = Some h ∧ compute_ticket_hash (claim_framing l i request model s) (limits request) = Some h) ∧
  recovery s' = mkRecovery None (retry (recovery s)) (Some (l, i)).
Proof.
  unfold claim_recovery_ticket. destruct (consumed l i s); [done|]. destruct (ticket (recovery s)) as [t'|]; [|done].
  destruct (same_request l i t') eqn:Es; [|done]. apply bool_decide_eq_true in Es as [<- <-]. cbn [negb].
  destruct (compute_content_hash _) as [ch|] eqn:Ec; [|done]. case_decide as Hne; [done|]. subst.
  destruct (ticket_hash t') as [bh|] eqn:Eb; [|done]. destruct (compute_ticket_hash _ _) as [th|] eqn:Et; [|done].
  case_decide as Hne; [done|]. subst. intros [= <- <-]. split_and!; eauto.
Qed.

Lemma claim_Err l i request model s s' e : claim_recovery_ticket l i request model s = (s', Err e) → s' = s.
Proof.
  unfold claim_recovery_ticket. intros Hc.
  repeat (case_match; simplify_eq; try done).
Qed.

(** Where the ticket in the slot can come from. *)
Lemma exec_ticket o s s' answer t' :
  exec o s = (s', answer) → ticket (recovery s') = Some t' →
  ticket (recovery s) = Some t' ∨
  (∃ l i, o = Register l i (Some t')) ∨
  (∃ t l i ch th lim bytes, ticket (recovery s) = Some t ∧ o = Bind l i ch th lim bytes ∧
    t' = mkTicket (t_loop_id t) (t_request_index t) (content_hash t) (Some th) bytes
           (t_system t) (t_summary t) (t_base t) (t_appended t) (t_tools t) lim (t_reasoning t) (auto_binding t)).
Proof.
  destruct o; cbn [exec]; intros He Ht; try (injection He as <- <-).
  - by left.
  - left. unfold install_emergency_groups in Ht. revert Ht. by repeat case_match.
  - left. unfold install_consolidated in Ht. revert Ht. by repeat case_match.
  - by left.
  - left. rewrite clear_ephemeral_recovery in Ht. cbn in Ht. by case_decide.
  - by left.
  - unfold register_recovery_ticket in Ht. destruct (consumed _ _ _); cbn in Ht; [done|]. subst. right; left; eauto.
  - left. unfold discard_recovery_ticket in Ht. by case_match.
  - unfold bind_actual_request_ticket in Ht. destruct (ticket (recovery s)) as [t|] eqn:Es; [|congruence].
    destruct (negb _); [left; congruence|]. case_decide; cbn in Ht; [done|]. injection Ht as <-. right; right.
    do 7 eexists. split_and!; reflexivity.
  - destruct (claim_recovery_ticket _ _ _ _ _) as [s1 [t|e]] eqn:Ec; injection He as <- <-.
    + apply claim_Ok in Ec as (_ & _ & _ & _ & _ & _ & Hr). by rewrite Hr in Ht.
    + apply claim_Err in Ec as ->. by left.
  - left. unfold recovered_request in Ht. revert Ht. by repeat case_match.
  - by left.
Qed.

Definition quiet (l : N) (entry : op * option ActiveRecoveryTicket) : Prop :=
  entry.1 ≠ ClearEphemeral l ∧ ∀ t, entry.2 = Some t → t_loop_id t = l.

Lemma exec_high_water o s s' answer l k :
  exec o s = (s', answer) → high_water (recovery s) = Some (l, k) → quiet l (o, answer) →
  ∃ k', high_water (recovery s') = Some (l, k') ∧ (k <= k')%N.
Proof.
  intros He Hw [Hnc Hq]. cbn in Hnc, Hq. destruct o; cbn [exec] in He; try (injection He as <- <-).
  - eauto with lia.
  - exists k. split; [|lia]. unfold install_emergency_groups. by repeat case_match.
  - exists k. split; [|lia]. unfold install_consolidated. by repeat case_match.
  - exists k. split; [done|lia].
  - exists k. split; [|lia]. rewrite clear_ephemeral_recovery. cbn. rewrite Hw. cbn. rewrite decide_False; [done|]. congruence.
  - exists k. split; [done|lia].
  - exists k. split; [|lia]. unfold register_recovery_ticket. by destruct (consumed _ _ _).
  - exists k. split; [|lia]. unfold discard_recovery_ticket. by case_match.
  - exists k. split; [|lia]. unfold bind_actual_request_ticket. by repeat case_match.
  - destruct (claim_recovery_ticket _ _ _ _ _) as [s1 [t|e]] eqn:Ec; injection He as <- <-.
    + apply claim_Ok in Ec as (Hc & _ & Hl & _ & _ & _ & Hr). specialize (Hq _ eq_refl). rewrite Hr. cbn.
      rewrite Hq in Hl. subst loop_id. eexists. split; [done|].
      unfold consumed in Hc. rewrite Hw in Hc. apply bool_decide_eq_false in Hc. lia.
    + apply claim_Err in Ec as ->. exists k. split; [done|lia].
  - exists k. split; [|lia]. unfold recovered_request. by repeat case_match.
  - exists k. split; [done|lia].
Qed.

Lemma run_high_water s tr s' l k :
  run s tr s' → high_water (recovery s) = Some (l, k) → Forall (quiet l) tr →
  ∃ k', high_water (recovery s') = Some (l, k') ∧ (k <= k')%N.
Proof.
  induction 1 as [|s tr s1 o s2 answer _ IH He]; intros Hw Hq; [exists k; split; [done|lia]|].
  rewrite Forall_app, Forall_singleton in Hq. destruct Hq as [Hq Hq1]. destruct (IH Hw Hq) as (k1 & Hw1 & Hk1).
  destruct (exec_high_water _ _ _ _ _ _ He Hw1 Hq1) as (k2 & Hw2 & Hk2). exists k2. split; [done|lia].
Qed.

(** A recovery is granted at most once per request: while a loop runs (until it is
    cleared, and with no other loop's claim in between) the requests whose tickets it
    claims have strictly increasing indexes, whatever else happens to the state. *)
Theorem claims_increase s l i request model s1 t tr s2 j request' model' s3 t' :
  claim_recovery_ticket l i request model s = (s1, Ok t) →
  run s1 tr s2 → Forall (quiet l) tr →
  claim_recovery_ticket l j request' model' s2 = (s3, Ok t') →
  (i < j)%N.
Proof.
  intros Hc1 Hrun Hq Hc2. apply claim_Ok in Hc1 as (_ & _ & _ & _ & _ & _ & Hr).
  destruct (run_high_water _ _ _ l i Hrun) as (k & Hw & Hk); [by rewrite Hr|done|].
  apply claim_Ok in Hc2 as (Hc & _). unfold consumed in Hc. rewrite Hw in Hc. apply bool_decide_eq_false in Hc. lia.
Qed.

(** The sources of a ticket, which binding leaves alone. *)
Definition ticket_sources (t : ActiveRecoveryTicket) :=
  (t_loop_id t, t_request_index t, content_hash t, t_system t, t_summary t, t_base t, t_appended t, t_tools t,
   t_reasoning t, auto_binding t).

Lemma run_ticket tr s t :
  run CompactionState_new tr s → ticket (recovery s) = Some t →
  ∃ l i t0, (Register l i (Some t0), None) ∈ tr ∧ ticket_sources t = ticket_sources t0.
Proof.
  remember CompactionState_new as s0 eqn:E0. intros Hrun. revert t.
  induction Hrun as [s|s tr s1 o s2 answer _ IH He]; intros t Ht; [by subst|]. specialize (IH E0).
  destruct (exec_ticket _ _ _ _ _ He Ht) as [Hs|[(l & i & ->)|(t1 & l & i & ch & th & lim & bytes & Hs & -> & ->)]].
  - destruct (IH t Hs) as (l & i & t0 & Hin & Heq). exists l, i, t0. split; [|done]. apply elem_of_app. by left.
  - cbn in He. injection He as _ <-. exists l, i, t. split; [|done]. apply elem_of_app. right. by apply list_elem_of_singleton.
  - destruct (IH t1 Hs) as (l' & i' & t0 & Hin & Heq). exists l', i', t0. split; [|done]. apply elem_of_app. by left.
Qed.

Definition generations_wf (g : RequestSettings) : Prop :=
  (config_generation g <= u64_max ∧ summary_generation g <= u64_max)%N.

Lemma wrapping_succ_le n : (wrapping_succ n <= u64_max)%N.
Proof. unfold wrapping_succ. pose proof (N.mod_lt (n + 1) (u64_max + 1) ltac:(done)). lia. Qed.

Lemma exec_settings o s s' answer :
  exec o s = (s', answer) → generations_wf (settings s) → generations_wf (settings s').
Proof.
  assert (∀ s, generations_wf (settings s) → generations_wf (settings (bump_summary s))) as Hb.
  { intros s0 [? ?]. split; [done|]. apply wrapping_succ_le. }
  destruct o; cbn [exec]; intros He Hw; try (injection He as <- <-); try done.
  - by apply Hb.
  - unfold install_emergency_groups. repeat case_match; cbn [fst]; try done; by apply Hb.
  - unfold install_consolidated. repeat case_match; cbn [fst]; try done; by apply Hb.
  - unfold clear_ephemeral, clear_threshold. set (removed := from_option _ _ _). clearbody removed.
    destruct (owns _ _); [destruct (removed || _)|destruct removed]; cbn [set_recovery settings]; try done; by apply Hb.
  - destruct Hw. split; [apply wrapping_succ_le|done].
  - unfold register_recovery_ticket. by destruct (consumed _ _ _).
  - unfold discard_recovery_ticket. by case_match.
  - unfold bind_actual_request_ticket. by repeat case_match.
  - destruct (claim_recovery_ticket _ _ _ _ _) as [s1 [t|e]] eqn:Ec; injection He as <- <-.
    + unfold claim_recovery_ticket in Ec. repeat (case_match; simplify_eq; try done).
    + by apply claim_Err in Ec as ->.
  - unfold recovered_request. by repeat case_match.
Qed.

Lemma run_settings tr s : run CompactionState_new tr s → generations_wf (settings s).
Proof.
  remember CompactionState_new as s0 eqn:E0. induction 1 as [s|s tr s1 o s2 answer _ IH He]; [by subst|].
  by eapply exec_settings; [|apply IH].
Qed.

(** Equal inputs of the hash end in equal generations. *)
Lemma ticket_bytes_generations f f' lim lim' bytes :
  ticket_bytes f lim = Some bytes → ticket_bytes f' lim' = Some bytes →
  generations_wf (mkSettings (f_config_generation f) (f_summary_generation f)) →
  generations_wf (mkSettings (f_config_generation f') (f_summary_generation f')) →
  f_config_generation f = f_config_generation f' ∧ f_summary_generation f = f_summary_generation f'.
Proof.
  assert (∀ f lim bytes, ticket_bytes f lim = Some bytes →
    ∃ pre, bytes = pre ++ u64_bytes (f_config_generation f) ++ u64_bytes (f_summary_generation f)) as Hsuffix.
  { intros g l b Hb. unfold ticket_bytes in Hb. repeat (apply bind_Some in Hb as (? & _ & Hb)). apply (inj Some) in Hb as <-.
    generalize (u64_bytes (f_config_generation g)), (u64_bytes (f_summary_generation g)),
      (u64_bytes (context_window (f_descriptor g))), (u32_bytes (f_request_index g)),
      [if supports_tools (f_descriptor g) then 1%N else 0%N].
    intros cg sg cw ri st. eexists. rewrite (app_assoc _ cg sg), !app_assoc. reflexivity. }
  intros (p & Hp)%Hsuffix (p' & Hp')%Hsuffix [H1c H1s] [H2c H2s]. rewrite Hp in Hp'.
  apply app_inj_2 in Hp' as [_ Hp']; [|by rewrite !length_app, !u64_bytes_length].
  apply app_inj_1 in Hp' as [Hc Hs]; [|by rewrite !u64_bytes_length]. split; by apply u64_bytes_inj.
Qed.

(** A ticket as the prompt provider registers it. *)
Definition prepared (entry : op * option ActiveRecoveryTicket) : Prop :=
  match entry.1 with
  | Register l i (Some t) => ∃ g ms ts model pref sys summary base appended binding,
      generations_wf g ∧ prepare_ticket g l i ms ts model pref sys summary base appended binding = Some t
  | _ => True
  end.

(** C21 A claimed ticket describes the very request that was refused: it was prepared
    with that request's index and the bytes hashed at preparation (messages, tools,
    model, reasoning preference) are those of the request now, and neither the
    settings nor the summaries have changed since.  SHA-256 is taken to be free of
    collisions. *)
Theorem claim_fresh tr s l i request model s' t :
  Inj (=) (=) sha256 →
  run CompactionState_new tr s → Forall prepared tr →
  claim_recovery_ticket l i request model s = (s', Ok t) →
  ∃ ms ts model0 pref sys summary base appended binding t0,
    prepare_ticket (settings s) l i ms ts model0 pref sys summary base appended binding = Some t0 ∧
    ticket_sources t = ticket_sources t0 ∧
    ticket_bytes (mkFraming l i ms ts model0 pref (config_generation (settings s)) (summary_generation (settings s))) None =
    ticket_bytes (claim_framing l i request model s) None.
Proof.
  intros Hinj Hrun Hprep Hclaim. apply claim_Ok in Hclaim as (_ & Ht & Hl & Hi & Hch & _ & _).
  destruct (run_ticket _ _ _ Hrun Ht) as (l0 & i0 & t0 & Hin & Heq).
  rewrite Forall_forall in Hprep. specialize (Hprep _ Hin).
  destruct Hprep as ([cg sg] & ms & ts & m0 & pref & sys & summary & base & appended & binding & Hwf & Hp).
  pose proof Hp as Hp'. unfold prepare_ticket in Hp'. apply bind_Some in Hp' as (h & Hh & Hp'). injection Hp' as <-.
  unfold ticket_sources in Heq. cbn in Heq. injection Heq as E1 E2 E3 E4 E5 E6 E7 E8 E9 E10.
  assert (l0 = l) as -> by congruence. assert (i0 = i) as -> by congruence. rewrite E3 in Hch.
  unfold compute_content_hash, hash_ticket_inputs in Hh, Hch.
  apply fmap_Some in Hh as (b & Hb & ->). apply fmap_Some in Hch as (b' & Hb' & Hbb). apply Hinj in Hbb as <-.
  destruct (ticket_bytes_generations _ _ _ _ _ Hb Hb') as [Hc Hs]; [exact Hwf|by apply run_settings in Hrun|].
  cbn in Hc, Hs. subst cg sg. exists ms, ts, m0, pref, sys, summary, base, appended, binding. eexists.
  split_and!; [destruct (settings s); exact Hp| |exact (eq_trans Hb (eq_sym Hb'))].
  unfold ticket_sources. cbn. congruence.
Qed.
End runs.

(** ** A loop that recovers twice *)

Module StateSample.
#[local] Existing Instance Sample.rt.
#[local] Existing Instance Sample.values.
#[local] Instance requests : Requests := {|
  ToolSpec := unit; ModelLimits := N; Reasoning_pref := bool; ModelDescriptor := N; AutoContextBinding := unit;
  default_limits := 0%N;
  accepts_request _ _ _ _ := true;
  loop_text l := [l];
  model_ref _ := lit "m";
  context_window d := d;
  supports_tools _ := true;
  json_messages ms := Some [lenN ms];
  json_tools ts := Some [lenN ts];
  json_limits lim := Some [lim];
  json_supported _ := Some [];
  json_reasoning r := Some [if r then 1%N else 0%N];
  sha256 b := b;
  summary_hash _ := Ok []
|}.

Definition request : ModelRequest := mkRequest [UserMessage (lit "now")] [] 7%N true.
Definition prepare (g : RequestSettings) (i : N) : option ActiveRecoveryTicket :=
  prepare_ticket g 2 i (messages request) [] 100%N true (lit "S") None Sample.base Sample.appended ().
(** Registering, binding and claiming the ticket of request [i] in state [s]. *)
Definition ask (i : N) (s : CompactionState) : list op :=
  let f := claim_framing 2 i request 100%N s in
  [Register 2 i (prepare (settings s) i);
   Bind 2 i (default [] (compute_content_hash f)) (default [] (compute_ticket_hash f 7%N)) 7%N 1000].
Definition trace (os : list op) : list (op * option ActiveRecoveryTicket) := (λ o, (o, None)) <$> os.
Definition after (os : list op) (s : CompactionState) : CompactionState := foldl (λ s o, (exec o s).1) s os.

Lemma run_after os s : Forall (λ o, ∀ s, (exec o s).2 = None) os → run s (trace os) (after os s).
Proof.
  induction os as [|o os IH] using rev_ind; [constructor|]. rewrite Forall_app, Forall_singleton. intros [Hos Ho].
  unfold trace, after. rewrite fmap_app, foldl_snoc. eapply run_snoc; [by apply IH|].
  rewrite <- (Ho (after os s)). by destruct (exec o _).
Qed.

Definition s0 : CompactionState := after (SettingsInstalled :: ask 0 (note_settings_installed CompactionState_new)) CompactionState_new.
#[local] Notation claim i s := (claim_recovery_ticket 2 i request 100%N s).
Definition s1 : CompactionState := (claim 0 s0).1.
Definition s2 : CompactionState := after (ask 3 s1) s1.
Definition ticket_at (i : N) (s : CompactionState) : ActiveRecoveryTicket :=
  match (claim i s).2 with Ok t => t | Err _ => mkTicket 0 0 [] None 0 [] None [] [] [] 0%N false None end.

Definition granted (i : N) (s : CompactionState) : bool := match (claim i s).2 with Ok _ => true | Err _ => false end.

Lemma claim_eq i s : granted i s = true → claim i s = ((claim i s).1, Ok (ticket_at i s)).
Proof. unfold granted, ticket_at. by destruct (claim i s) as [? []]. Qed.

Lemma claims_increase_witness : (0 < 3)%N ∧ granted 0 s0 = true ∧ granted 0 s1 = false ∧ granted 3 s2 = true.
Proof.
  split; [|split_and!; vm_compute; reflexivity].
  apply (claims_increase s0 2 0 request 100%N s1 (ticket_at 0 s0) (trace (ask 3 s1)) s2 3 request 100%N (claim 3 s2).1 (ticket_at 3 s2)).
  - unfold s1. apply (claim_eq 0 s0). vm_compute. reflexivity.
  - apply run_after. repeat constructor.
  - repeat constructor; done.
  - apply (claim_eq 3 s2). vm_compute. reflexivity.
Defined.

Lemma prepared_ask g i : generations_wf g → prepared (Register 2 i (prepare g i), None).
Proof.
  intros Hg. unfold prepared. cbn [fst]. destruct (prepare g i) as [t|] eqn:E; [|done].
  exists g, (messages request), [], 100%N, true, (lit "S"), None, Sample.base, Sample.appended, (). split; [done|exact E].
Qed.

Lemma claim_fresh_witness :
  ∃ ms ts model0 pref sys summary base appended binding t0,
    prepare_ticket (settings s0) 2 0 ms ts model0 pref sys summary base appended binding = Some t0 ∧
    ticket_sources (ticket_at 0 s0) = ticket_sources t0 ∧
    ticket_bytes (mkFraming 2 0 ms ts model0 pref (config_generation (settings s0)) (summary_generation (settings s0))) None =
    ticket_bytes (claim_framing 2 0 request 100%N s0) None.
Proof.
  apply (claim_fresh (trace (SettingsInstalled :: ask 0 (note_settings_installed CompactionState_new))) s0 2 0 request 100%N s1 (ticket_at 0 s0)).
  - intros x y Hxy. exact Hxy.
  - apply run_after. repeat constructor.
  - constructor; [exact I|]. constructor; [apply prepared_ask; split; by vm_compute|by repeat constructor].
  - unfold s1. apply (claim_eq 0 s0). vm_compute. reflexivity.
Defined.
End StateSample.
