(* ===== verification/Threshold.v ===== *)
(** Automatic compaction at a request boundary: [consolidate] of
    [compaction/threshold.rs], with the request projection of
    [compaction/projection.rs] and the budgets of [compaction.rs].

    The function awaits once, while the summary is generated.  The clock, the
    generator and what other tasks do to the state during the await are arguments;
    the stretches between awaits are atomic. *)

From S2P Require Import Prelude RustStr Usage Projection CompactionState.

#[global] Instance UtilityError_eq_dec : EqDecision UtilityError.
Proof. solve_decision. Defined.

(** ** Budgets *)

Record CompactionPolicy := mkPolicy { enabled : bool; trigger_percent : N; target_percent : N }.
Record InputBudget := mkBudget { hard_tokens : N; trigger_tokens : N; target_tokens : N }.
Definition policy_budget (p : CompactionPolicy) (window : N) : InputBudget :=
  mkBudget window (saturating_mul window (trigger_percent p) / 100) (saturating_mul window (target_percent p) / 100).

Definition summary_reserve_bytes (hard : N) : N := N.min (hard / 8) 1024 * 4.
Definition div_ceil4 (n : N) : N := (n + 3) / 4.

Definition kind (e : UtilityError) : str :=
  lit (match e with
       | Cancelled => "cancelled" | Timeout => "timeout" | Model => "model_failure"
       | InvalidResponse => "invalid_model_response" | ToolCallRejected => "tool_call_rejected"
       | NoProgress => "no_progress" | TooLarge => "too_large" | Budget => "budget_exceeded"
       | Serialization => "serialization_failure"
       end).

(** The provider's estimates of a request, and the hash that identifies an attempt. *)
Class Provider `{Requests} := {
  estimate_request_bytes : ModelRequest → option N → option N → option N;
  estimate_request_tokens : ModelRequest → option N → option N → option N;
  attempt_hash : list N → gset EphemeralGroupKey → ModelDescriptor → str → list ToolSpec → Reasoning_pref → N →
                 result UtilityError (list N)
}.

(** ** The world an asynchronous function runs in *)

Inductive moment := Active | IsCancelled | IsExpired.

Section world.
Context `{Provider}.

Inductive SourcePart := Item (item : HistoryItem) | SummaryPart (text : str).
Inductive generation :=
  | Generated (text : str) (u : option CompactionUtilityUsage)
  | GenerationFailed (e : UtilityError) (u : option CompactionUtilityUsage)
  | FutureDropped.

(** The clock and the generator, by the number of the look or call, the usage shown
    meanwhile, and what other tasks did to the state when an await returns. *)
Record Env := mkEnv {
  clock : nat → moment;
  generate : nat → option str → list SourcePart → generation;
  live_usage : nat → option CompactionUtilityUsage;
  meanwhile : nat → CompactionState → CompactionState
}.
Record World := mkWorld { w_state : CompactionState; w_time : nat; w_calls : nat }.

(** How such a function ends without a value. *)
Inductive halt :=
  | Halted (error : UtilityError) (u : option CompactionUtilityUsage)
  | WasDropped
  | Diverged.

Definition on_state {E} (f : CompactionState → CompactionState) : stm World E unit :=
  modify (λ w, mkWorld (f (w_state w)) (w_time w) (w_calls w)).
Definition look {E} (env : Env) : stm World E moment := λ w,
  (mkWorld (w_state w) (S (w_time w)) (w_calls w), Ok (clock env (w_time w))).
Definition halt_of {A} (r : result UtilityError A) : stm World halt A :=
  lift (map_err (λ e, Halted e None) r).
Definition halt_option {A} (r : option (result UtilityError A)) : stm World halt A :=
  match r with Some r => halt_of r | None => throw Diverged end.

Definition check_active (env : Env) : stm World halt unit :=
  now ← look env;
  match now with
  | Active => mret tt
  | IsCancelled => throw (Halted Cancelled None)
  | IsExpired => throw (Halted Timeout None)
  end.

(** ** Projection *)

Record RequestProjection := mkProjection {
  p_items : list HistoryItem; p_ranges : list (EphemeralGroupKey * N); p_folded : gmap EphemeralGroupKey str;
  p_consolidated : option ConsolidatedSummary; p_fixed : list ModelMessage; p_history : list ModelMessage }.

Definition keys_of (ranges : list (EphemeralGroupKey * N)) : gset EphemeralGroupKey := list_to_set ranges.*1.

Definition Projection_new (s : CompactionState) (sys : str) (summary : option str) (base appended : list HistoryItem)
    (loop_id : N) : result UtilityError RequestProjection :=
  let items := base ++ appended in
  ranges ← compressible_ranges (length base) items loop_id;
  let valid := keys_of ranges in
  fh ← compose sys summary base appended;
  Ok (mkProjection items ranges (emergency_groups loop_id valid s) (consolidated loop_id summary valid s) fh.1 fh.2).

Definition Projection_messages (p : RequestProjection) : option (result UtilityError (list ModelMessage)) :=
  fold_history_with_ranges (p_fixed p) (p_history p) (p_ranges p) (p_folded p) (p_consolidated p).

(** ** The attempt's observation *)

Record ProjectionInput := mkInput {
  policy : CompactionPolicy; descriptor : ModelDescriptor; i_system : str; i_summary : option str;
  i_base : list HistoryItem; i_appended : list HistoryItem; i_tools : list ToolSpec; i_reasoning : Reasoning_pref;
  i_limits : ModelLimits; i_loop_id : N; i_request_index : N; rejected_body_bytes : option N }.
Definition input_budget (input : ProjectionInput) : InputBudget :=
  policy_budget (policy input) (context_window (descriptor input)).

Record ObservationGuard := mkGuard {
  g_operation_id : str; g_previous_usage : option CompactionUtilityUsage; armed : bool }.

Definition set_current (o : option AutomaticCompactionObservation) (s : CompactionState) : CompactionState :=
  let t := threshold s in
  set_threshold (mkThreshold (consolidated_slot t) (attempted t) (source t) o (last_observation t)) s.
Definition mark_attempt (loop_id : N) (src : list N) (s : CompactionState) : CompactionState :=
  let t := threshold s in
  set_threshold (mkThreshold (consolidated_slot t) (Some loop_id) (Some src) (current t) (last_observation t)) s.

Definition guard_new (input : ProjectionInput) (before : N) (recovery : bool) (s : CompactionState)
    : CompactionState * ObservationGuard :=
  let operation_id := lit "auto-boundary-" ++ loop_text (i_loop_id input) ++ lit "-" ++ show_N (i_request_index input) in
  let previous := match last_observation (threshold s) with
                  | Some o => if decide (o_loop_id o = Some (i_loop_id input)) then utility_usage o else None
                  | None => None
                  end in
  let b := input_budget input in
  let s := if recovery then s
           else set_current (Some (mkObservation operation_id (Some (i_loop_id input)) (Some (i_request_index input))
                  (Some before) None (hard_tokens b) (trigger_tokens b) (target_tokens b) previous (lit "summarizing"))) s in
  (s, mkGuard operation_id previous (negb recovery)).

Definition guard_finish (g : ObservationGuard) (text : str) (after : option N) (u live : option CompactionUtilityUsage)
    (s : CompactionState) : CompactionState :=
  if armed g then
    let t := threshold s in
    match current t with
    | Some o =>
        if decide (o_operation_id o = g_operation_id g) then
          let total := merge_utility_usage (g_previous_usage g) (match u with Some u => Some u | None => live end) in
          let last := mkObservation (o_operation_id o) (o_loop_id o) (o_request_index o) (before_tokens o) after
                        (o_hard_tokens o) (o_trigger_tokens o) (o_target_tokens o) total text in
          let cancelled := bool_decide (text = lit "cancelled") in
          set_threshold (mkThreshold (consolidated_slot t) (if cancelled then None else attempted t)
                           (if cancelled then None else source t) None (Some last)) s
        else s
    | None => s
    end
  else s.

Definition finish (env : Env) (g : ObservationGuard) (text : str) (after : option N) (u : option CompactionUtilityUsage)
    : stm World halt unit :=
  w ← get;
  on_state (guard_finish g text after u (live_usage env (w_time w))).

(** The guard dropped while still armed. *)
Definition guard_drop (env : Env) (g : ObservationGuard) : stm World halt unit :=
  now ← look env;
  finish env g (match now with IsCancelled => lit "cancelled" | IsExpired => lit "timeout" | Active => lit "failed" end)
    None None.

(** ** Consolidation *)

Record ProjectionResult := mkResult { request : ModelRequest; r_usage : option CompactionUtilityUsage; compacted : bool }.
Definition unchanged (r : ModelRequest) : ProjectionResult := mkResult r None false.

Definition make (input : ProjectionInput) (ms : list ModelMessage) : result UtilityError ModelRequest :=
  ok_or (ModelRequest_new ms (i_tools input) (i_limits input) (i_reasoning input)) InvalidResponse.
Definition estimate_bytes (input : ProjectionInput) (r : ModelRequest) : result UtilityError N :=
  ok_or (estimate_request_bytes r (Some (i_loop_id input)) (Some (i_request_index input))) Serialization.

(** What the checks before an attempt settle. *)
Record Attempt := mkAttempt {
  a_projection : RequestProjection; before_request : ModelRequest; before_bytes : N; trigger_before : N;
  a_covered : gset EphemeralGroupKey; a_summary_hash : list N; a_source : list N }.

Definition inside (covered : gset EphemeralGroupKey) (index : nat) : bool :=
  existsb (λ key, bool_decide (start key ≤ index < end_ key)) (elements covered).

(** The request that would remain with the smallest summary. *)
Definition floor_messages (input : ProjectionInput) (p : RequestProjection) (covered : gset EphemeralGroupKey)
    : result UtilityError (list ModelMessage) :=
  sys ← (if decide (i_system input = []) then Ok [] else m ← ok_or (system (i_system input)) InvalidResponse; Ok [m]);
  let kept := omap (λ im, if negb (inside covered im.1) && bool_decide (im.1 < length (i_base input)) then Some im.2 else None)
                (zip (seq 0 (length (p_history p))) (p_history p)) in
  reserve ← ok_or (summary_data_message
    (repeat 120%N (N.to_nat (summary_reserve_bytes (hard_tokens (input_budget input)))))) InvalidResponse;
  Ok (sys ++ kept ++ [reserve]).

Definition consolidate_gate (input : ProjectionInput) (recovery : bool) : stm World halt (ModelRequest + Attempt) :=
  w ← get;
  let s := w_state w in
  let b := input_budget input in
  p ← halt_of (Projection_new s (i_system input) (i_summary input) (i_base input) (i_appended input) (i_loop_id input));
  ms ← halt_option (Projection_messages p);
  before_request ← halt_of (make input ms);
  if decide (recovery = false ∧ 0 < i_request_index input)%N then mret (inl before_request)
  else
    before_bytes ← halt_of (estimate_bytes input before_request);
    let before := div_ceil4 before_bytes in
    match (if recovery then Some before
           else reported ← reported_context (i_base input) s;
                if decide (reported < trigger_tokens b)%N then None else Some reported) with
    | None => mret (inl before_request)
    | Some trigger_before =>
        let covered := keys_of (p_ranges p) in
        if decide (covered = ∅ ∧ i_summary input = None ∧ p_consolidated p = None) then mret (inl before_request)
        else
          _ ← throw_if (4096 < N.of_nat (size covered))%N (Halted TooLarge None);
          _ ← throw_if (recovery = true ∧ (rejected_body_bytes input = None ∨ rejected_body_bytes input = Some 0%N))
                (Halted NoProgress None);
          shash ← halt_of (summary_hash (i_summary input));
          src ← halt_of (attempt_hash shash covered (descriptor input) (i_system input) (i_tools input)
                           (i_reasoning input) (trigger_tokens b));
          let attempt := inr (mkAttempt p before_request before_bytes trigger_before covered shash src) in
          if recovery then mret attempt
          else if decide (attempted (threshold s) = Some (i_loop_id input) ∨ source (threshold s) = Some src)
          then mret (inl before_request)
          else
            floor ← halt_of (floor_messages input p covered);
            floor_request ← halt_of (make input floor);
            floor_tokens ← halt_of (ok_or (estimate_request_tokens floor_request None None) Serialization);
            if decide (trigger_tokens b <= floor_tokens)%N then mret (inl before_request) else mret attempt
    end.

(** The sources still to be summarised. *)
Definition source_parts (p : RequestProjection) (covered : gset EphemeralGroupKey) : list SourcePart :=
  p_ranges p ≫= λ entry,
    if decide (entry.1 ∉ covered ∨ is_covered (p_consolidated p) entry.1 = true) then []
    else match p_folded p !! entry.1 with
         | Some summary => [SummaryPart summary]
         | None => Item <$> slice (p_items p) (start entry.1) (end_ entry.1)
         end.

(** [is_none_or(|original| after_bytes >= original)] *)
Definition not_below (original : option N) (bytes : N) : Prop :=
  match original with Some original => (original <= bytes)%N | None => True end.
#[global] Instance not_below_dec original bytes : Decision (not_below original bytes).
Proof. unfold not_below. destruct original; apply _. Defined.

Definition validate_reduction (env : Env) (input : ProjectionInput) (recovery : bool) (a : Attempt) (text : str)
    : stm World halt (ModelRequest * N) :=
  let p := a_projection a in
  let value := mkConsolidated (i_loop_id input) (a_summary_hash a) (a_covered a) text in
  ms ← halt_option (fold_history_with_ranges (p_fixed p) (p_history p) (p_ranges p) (p_folded p) (Some value));
  r ← halt_of (make input ms);
  after_bytes ← halt_of (estimate_bytes input r);
  let after := div_ceil4 after_bytes in
  _ ← throw_if ((before_bytes a <= after_bytes)%N ∨
                (recovery = true ∧ ((hard_tokens (input_budget input) < after)%N ∨ not_below (rejected_body_bytes input) after_bytes)) ∨
                validate_clean_tool_exchanges (messages r) = false) (Halted NoProgress None);
  _ ← check_active env;
  w ← get;
  let '(s, installed) := install_consolidated value (w_state w) in
  _ ← throw_if (installed = false) (Halted TooLarge None);
  _ ← on_state (λ _, set_superseded (fst <$> latest_assistant (p_items p)) s);
  mret (r, after).

Definition await_generation (env : Env) (previous : option str) (parts : list SourcePart) : stm World halt generation := λ w,
  (mkWorld (meanwhile env (w_calls w) (w_state w)) (w_time w) (S (w_calls w)), Ok (generate env (w_calls w) previous parts)).

(** [check_active(..)?] while the guard is armed: it is dropped on the way out. *)
Definition check_active_guarded (env : Env) (guard : ObservationGuard) : stm World halt unit :=
  now ← look env;
  match now with
  | Active => mret tt
  | IsCancelled => _ ← guard_drop env guard; throw (Halted Cancelled None)
  | IsExpired => _ ← guard_drop env guard; throw (Halted Timeout None)
  end.

(** What follows the await, by what the generator answered. *)
Definition settle (env : Env) (input : ProjectionInput) (recovery : bool) (a : Attempt) (guard : ObservationGuard)
    (answer : generation) : stm World halt ProjectionResult :=
  match answer with
  | FutureDropped => _ ← guard_drop env guard; throw WasDropped
  | GenerationFailed e u =>
      let unreduced := bool_decide (recovery = false ∧ e = Timeout ∧
                         (div_ceil4 (before_bytes a) <= hard_tokens (input_budget input))%N) in
      _ ← (if unreduced then check_active_guarded env guard else mret tt);
      _ ← finish env guard (kind e) None u;
      if unreduced then mret (mkResult (before_request a) u false) else throw (Halted e u)
  | Generated text u => λ w,
      match validate_reduction env input recovery a text w with
      | (w, Ok (r, after)) =>
          (_ ← finish env guard (lit "compacted") (Some after) u; mret (mkResult r u true)) w
      | (w, Err (Halted e _)) => (_ ← finish env guard (kind e) None u; throw (Halted e u)) w
      | (w, Err h) => (w, Err h)
      end
  end.

Definition consolidate (env : Env) (input : ProjectionInput) (recovery : bool) : stm World halt ProjectionResult :=
  g ← consolidate_gate input recovery;
  match g with
  | inl r => mret (unchanged r)
  | inr a =>
      let p := a_projection a in
      _ ← check_active env;
      _ ← (if recovery then mret tt else on_state (mark_attempt (i_loop_id input) (a_source a)));
      w ← get;
      let '(s, guard) := guard_new input (trigger_before a) recovery (w_state w) in
      _ ← on_state (λ _, s);
      answer ← await_generation env
        (match p_consolidated p with Some old => Some (consolidated_content old) | None => i_summary input end)
        (source_parts p (a_covered a));
      settle env input recovery a guard answer
  end.
End world.

(** ** What a consolidation guarantees *)

Section reduces.
Context `{Provider} `{!ModelValueLaws}.

Lemma ends_halt_of {A} (r : result UtilityError A) w (Q : World → result halt A → Prop) :
  (∀ a, r = Ok a → Q w (Ok a)) → (∀ e, r = Err e → Q w (Err (Halted e None))) → ends (halt_of r) w Q.
Proof. intros Hok Herr. unfold ends, halt_of, lift. destruct r; cbn; auto. Qed.

Lemma ends_check_active env w (Q : World → result halt unit → Prop) :
  (∀ t, Q (mkWorld (w_state w) t (w_calls w)) (Ok tt)) →
  (∀ e t, Q (mkWorld (w_state w) t (w_calls w)) (Err (Halted e None))) → ends (check_active env) w Q.
Proof. intros Hok Herr. unfold ends, check_active, look, mbind, stm_bind. destruct (clock env (w_time w)); cbn; auto. Qed.

(** Whatever ends a computation, it is not a loop that never returned. *)
Definition returned {A} (P : World → A → Prop) (w : World) (r : result halt A) : Prop :=
  match r with Ok a => P w a | Err Diverged => False | Err _ => True end.

Lemma projection_total s sys summary base appended loop_id p folded value :
  Projection_new s sys summary base appended loop_id = Ok p →
  match fold_history_with_ranges (p_fixed p) (p_history p) (p_ranges p) folded value with
  | None => False
  | Some (Ok ms) => (UserMessage <$> current_user_texts base appended loop_id) `sublist_of` ms
  | Some (Err _) => True
  end.
Proof.
  unfold Projection_new. intros Hp. apply bind_Ok in Hp as (ranges & Hr & Hp). apply bind_Ok in Hp as ([fixed history] & Hc & Hp).
  injection Hp as <-. cbn.
  pose proof (fold_request_spec _ _ _ _ _ _ _ _ folded value Hr Hc) as Hs.
  destruct (fold_history_with_ranges fixed history ranges folded value) as [[ms|e]|] eqn:Ef; [|done|done].
  by apply (fold_request_keeps _ _ _ _ _ _ _ _ _ _ _ Hr Hc Ef).
Qed.

(** The request the session would send unreduced. *)
Definition unreduced_request (s : CompactionState) (input : ProjectionInput) (p : RequestProjection) (r : ModelRequest) : Prop :=
  Projection_new s (i_system input) (i_summary input) (i_base input) (i_appended input) (i_loop_id input) = Ok p ∧
  ∃ ms, Projection_messages p = Some (Ok ms) ∧ make input ms = Ok r.

Definition keeps_prompts (input : ProjectionInput) (r : ModelRequest) : Prop :=
  (UserMessage <$> current_user_texts (i_base input) (i_appended input) (i_loop_id input)) `sublist_of` messages r.

Lemma make_messages input ms r : make input ms = Ok r → messages r = ms.
Proof. unfold make, ModelRequest_new. intros Hm. apply ok_or_Ok in Hm. destruct (accepts_request _ _ _ _); [|done]. by injection Hm as <-. Qed.

Lemma unreduced_keeps s input p r : unreduced_request s input p r → keeps_prompts input r.
Proof.
  intros (Hp & ms & Hms & Hm). unfold keeps_prompts. rewrite (make_messages _ _ _ Hm).
  pose proof (projection_total s _ _ _ _ _ p (p_folded p) (p_consolidated p) Hp) as Ht. unfold Projection_messages in Hms.
  by rewrite Hms in Ht.
Qed.

Definition gate_answer (input : ProjectionInput) (w0 w : World) (g : ModelRequest + Attempt) : Prop :=
  w = w0 ∧
  match g with
  | inl r => ∃ p, unreduced_request (w_state w0) input p r
  | inr a => unreduced_request (w_state w0) input (a_projection a) (before_request a) ∧
             estimate_bytes input (before_request a) = Ok (before_bytes a) ∧ a_covered a = keys_of (p_ranges (a_projection a))
  end.

Lemma consolidate_gate_spec input recovery w :
  ends (consolidate_gate input recovery) w (returned (gate_answer input w)).
Proof.
  unfold consolidate_gate. apply ends_bind, ends_get. cbv zeta.
  apply ends_bind, ends_halt_of; [|done]. intros p Hp.
  apply ends_bind. pose proof (projection_total (w_state w) _ _ _ _ _ p (p_folded p) (p_consolidated p) Hp) as Ht.
  fold (Projection_messages p) in Ht. unfold halt_option. destruct (Projection_messages p) as [[ms|e]|] eqn:Ems; [|done|done].
  apply ends_halt_of; [|done]. intros ms' [= <-].
  apply ends_bind, ends_halt_of; [|done]. intros r Hmake.
  assert (unreduced_request (w_state w) input p r) as Hun by (split; [done|]; by exists ms).
  assert (returned (gate_answer input w) w (Ok (inl r))) as Hinl by (split; [done|]; by exists p).
  case_decide; [by apply ends_ret|].
  apply ends_bind, ends_halt_of; [|done]. intros bytes Hbytes.
  destruct (if recovery then _ else _) as [trigger|]; [|by apply ends_ret].
  case_decide; [by apply ends_ret|].
  apply ends_bind, ends_throw_if; [done|]. intros _. apply ends_bind, ends_throw_if; [done|]. intros _.
  apply ends_bind, ends_halt_of; [|done]. intros shash _. apply ends_bind, ends_halt_of; [|done]. intros src _.
  destruct recovery; [by apply ends_ret|]. case_decide; [by apply ends_ret|].
  apply ends_bind, ends_halt_of; [|done]. intros floor _. apply ends_bind, ends_halt_of; [|done]. intros fr _.
  apply ends_bind, ends_halt_of; [|done]. intros ft _. case_decide; [by apply ends_ret|]. by apply ends_ret.
Qed.

(** [r] reduces the unreduced request of [s]: smaller, clean, and installed. *)
Definition reduces (s s' : CompactionState) (input : ProjectionInput) (recovery : bool) (r : ModelRequest) : Prop :=
  ∃ p r0 bytes0 bytes shash text,
    unreduced_request s input p r0 ∧ estimate_bytes input r0 = Ok bytes0 ∧ estimate_bytes input r = Ok bytes ∧
    (bytes < bytes0)%N ∧ validate_clean_tool_exchanges (messages r) = true ∧
    (recovery = true → (div_ceil4 bytes <= hard_tokens (input_budget input))%N ∧
       ∃ original, rejected_body_bytes input = Some original ∧ (bytes < original)%N) ∧
    consolidated_slot (threshold s') = Some (mkConsolidated (i_loop_id input) shash (keys_of (p_ranges p)) text).

Lemma install_consolidated_slot value s :
  (install_consolidated value s).2 = true → consolidated_slot (threshold (install_consolidated value s).1) = Some value.
Proof. unfold install_consolidated. by repeat case_match. Qed.

Lemma guard_finish_slot g text after u live s :
  consolidated_slot (threshold (guard_finish g text after u live s)) = consolidated_slot (threshold s).
Proof. unfold guard_finish. by repeat case_match. Qed.

Lemma ends_finish env g text after u w (Q : World → result halt unit → Prop) :
  (∀ w', consolidated_slot (threshold (w_state w')) = consolidated_slot (threshold (w_state w)) → Q w' (Ok tt)) →
  ends (finish env g text after u) w Q.
Proof. intros HQ. apply ends_bind, ends_get. apply ends_modify, HQ. cbn. apply guard_finish_slot. Qed.

Lemma ends_guard_drop env g w (Q : World → result halt unit → Prop) :
  (∀ w', Q w' (Ok tt)) → ends (guard_drop env g) w Q.
Proof. intros HQ. apply ends_bind. unfold ends, look. by apply ends_finish. Qed.

Lemma validate_reduction_spec env input recovery a text s0 w :
  unreduced_request s0 input (a_projection a) (before_request a) →
  estimate_bytes input (before_request a) = Ok (before_bytes a) → a_covered a = keys_of (p_ranges (a_projection a)) →
  ends (validate_reduction env input recovery a text) w
    (returned (λ w' ra, keeps_prompts input ra.1 ∧ reduces s0 (w_state w') input recovery ra.1)).
Proof.
  intros Hun Hbytes Hcov. unfold validate_reduction. cbv zeta. set (value := mkConsolidated _ _ _ _).
  pose proof (projection_total s0 _ _ _ _ _ (a_projection a) (p_folded (a_projection a)) (Some value) (proj1 Hun)) as Ht.
  apply ends_bind. unfold halt_option. destruct (fold_history_with_ranges _ _ _ _ _) as [[ms|e]|]; [|done|done].
  apply ends_halt_of; [|done]. intros ms' [= <-]. apply ends_bind, ends_halt_of; [|done]. intros r Hmake.
  apply ends_bind, ends_halt_of; [|done]. intros bytes Hafter. apply ends_bind, ends_throw_if; [done|]. intros Hok.
  apply ends_bind, ends_check_active; [|done]. intros t. apply ends_bind, ends_get. cbn [w_state].
  pose proof (install_consolidated_slot value (w_state w)) as Hslot.
  destruct (install_consolidated value (w_state w)) as [s1 installed]. cbn [fst snd] in Hslot.
  apply ends_bind, ends_throw_if; [done|]. intros Hins. apply ends_bind, ends_modify. apply ends_ret.
  split.
  - unfold keeps_prompts. cbn [fst]. by rewrite (make_messages _ _ _ Hmake).
  - exists (a_projection a), (before_request a), (before_bytes a), bytes, (a_summary_hash a), text. cbn [fst].
    split_and!; try done.
    + apply N.lt_nge. tauto.
    + apply not_false_is_true. tauto.
    + intros Hr. assert (¬ (hard_tokens (input_budget input) < div_ceil4 bytes)%N ∧ ¬ not_below (rejected_body_bytes input) bytes) as [Hh Hb] by tauto.
      split; [lia|]. destruct (rejected_body_bytes input) as [o|]; [|by destruct Hb]. cbn in Hb. exists o. split; [done|lia].
    + cbn. rewrite <- Hcov. apply Hslot. by destruct installed.
Qed.

Lemma settle_spec env input recovery a guard answer s0 w :
  unreduced_request s0 input (a_projection a) (before_request a) →
  estimate_bytes input (before_request a) = Ok (before_bytes a) → a_covered a = keys_of (p_ranges (a_projection a)) →
  ends (settle env input recovery a guard answer) w
    (returned (λ w' res, keeps_prompts input (request res) ∧
       if compacted res then reduces s0 (w_state w') input recovery (request res) else request res = before_request a)).
Proof.
  intros Hun Hbytes Hcov. destruct answer as [text u|e u|]; cbn [settle].
  - pose proof (validate_reduction_spec env input recovery a text s0 w Hun Hbytes Hcov) as Hv. unfold ends in Hv.
    unfold ends at 1. destruct (validate_reduction env input recovery a text w) as [w1 [[r after]|[e u'| |]]]; [| |done|done].
    + destruct Hv as [Hk Hr].
      assert (ends (_ ← finish env guard (lit "compacted") (Some after) u; mret (mkResult r u true)) w1
        (returned (λ w' res, keeps_prompts input (request res) ∧
          if compacted res then reduces s0 (w_state w') input recovery (request res) else request res = before_request a))) as He.
      { apply ends_bind, ends_finish. intros w2 Hw2. apply ends_ret. split; [done|]. cbn [compacted request].
        destruct Hr as (p & r0 & b0 & b & sh & tx & ? & ? & ? & ? & ? & ? & Hs). exists p, r0, b0, b, sh, tx.
        split_and!; try done. by rewrite Hw2. }
      exact He.
    + assert (∀ Q : World → result halt ProjectionResult → Prop, (∀ w', Q w' (Err (Halted e u))) →
        ends (finish env guard (kind e) None u ≫= λ _ : unit, (throw (Halted e u) : stm World halt ProjectionResult)) w1 Q) as He
        by (intros Q HQ; apply ends_bind, ends_finish; intros; by apply HQ).
      by apply He.
  - apply ends_bind.
    assert (∀ b : bool, ends (if b then check_active_guarded env guard else mret tt) w (returned (A := unit) (λ _ _, True))) as Hcheck.
    { intros []; [|by apply ends_ret]. apply ends_bind. unfold ends at 1, look.
      destruct (clock env (w_time w)); [by apply ends_ret| |]; by apply ends_bind, ends_guard_drop. }
    eapply ends_mono; [apply Hcheck|]. intros w1 [[]|h] Hh; [|done].
    apply ends_bind, ends_finish. intros w2 _. destruct (bool_decide _); [|done].
    apply ends_ret. split; [by eapply unreduced_keeps|done].
  - by apply ends_bind, ends_guard_drop.
Qed.

Lemma consolidate_spec env input recovery w :
  ends (consolidate env input recovery) w (returned (λ w' res, keeps_prompts input (request res) ∧
      if compacted res then reduces (w_state w) (w_state w') input recovery (request res)
      else ∃ p, unreduced_request (w_state w) input p (request res))).
Proof.
  unfold consolidate. apply ends_bind. eapply ends_mono; [apply consolidate_gate_spec|].
    intros w1 [[r|a]|h] Hg; [| |done].
    - destruct Hg as (-> & p & Hun). apply ends_ret. split; [by eapply unreduced_keeps|]. by exists p.
    - destruct Hg as (-> & Hun & Hbytes & Hcov). cbv zeta. apply ends_bind, ends_check_active; [|done]. intros t.
      apply ends_bind. destruct recovery; [apply ends_ret|apply ends_modify]; apply ends_bind, ends_get;
        destruct (guard_new _ _ _ _) as [s guard]; apply ends_bind, ends_modify; apply ends_bind; unfold ends at 1, await_generation.
      all: eapply ends_mono; [by apply (settle_spec _ _ _ _ _ _ (w_state w))|]; intros w2 [res|h] Hr; [|done].
      all: destruct Hr as [Hk Hr]; split; [done|]; destruct (compacted res); [done|].
      all: exists (a_projection a); by rewrite Hr.
Qed.

(** C20 Automatic compaction never makes a request worse.  It always returns; the request
    it answers with contains every prompt of the running loop.  When it reports a
    reduction, the request is strictly smaller in bytes than the one it replaces, its
    tool exchanges are clean, in a recovery it fits the window and is smaller than the
    body that was refused, and the summary is installed for exactly the groups it
    stands for.  Otherwise the request is the unreduced one. *)
Theorem consolidate_reduces env input recovery w :
  match consolidate env input recovery w with
  | (w', Ok res) =>
      keeps_prompts input (request res) ∧
      if compacted res then reduces (w_state w) (w_state w') input recovery (request res)
      else ∃ p, unreduced_request (w_state w) input p (request res)
  | (_, Err h) => h ≠ Diverged
  end.
Proof.
  pose proof (consolidate_spec env input recovery w) as He.
  revert He. unfold ends. destruct (consolidate env input recovery w) as [w' [res|h]]; cbn; [done|]. by destruct h.
Qed.
End reduces.

(** ** A recovery that consolidates *)

Module ThresholdSample.
#[local] Existing Instance Sample.rt.
#[local] Existing Instance Sample.values.
#[local] Existing Instance Sample.laws.
#[local] Existing Instance StateSample.requests.
#[local] Instance provider : Provider := {|
  estimate_request_bytes r _ _ := Some (100 * lenN (messages r))%N;
  estimate_request_tokens r _ _ := Some (25 * lenN (messages r))%N;
  attempt_hash _ _ _ _ _ _ _ := Ok []
|}.
Definition env : Env := mkEnv (λ _, Active) (λ _ _ _, Generated (lit "so far") None) (λ _, None) (λ _ s, s).
Definition input : ProjectionInput :=
  mkInput (mkPolicy true 80 50) 1000%N (lit "S") None Sample.base Sample.appended [] true 7%N 2 3 (Some 900%N).
Definition start_world : World := mkWorld CompactionState_new 0 0.
Definition reduced (answer : World * result halt ProjectionResult) : bool :=
  match answer.2 with Ok r => compacted r | Err _ => false end.

Lemma reduced_true : reduced (consolidate env input true start_world) = true.
Proof. vm_compute. reflexivity. Qed.

(** The recovery's answer, named so that nothing evaluates it. *)
Lemma answer_cases (P : World → ProjectionResult → Prop) (o : World * result halt ProjectionResult) :
  match o with (w', Ok res) => P w' res | (_, Err h) => h ≠ Diverged end →
  reduced o = true →
  ∃ w' res, o = (w', Ok res) ∧ compacted res = true ∧ P w' res.
Proof. destruct o as [w' [res|h]]; cbn; [|done]. intros HP Hr. by exists w', res. Qed.

Lemma consolidate_reduces_witness :
  ∃ w' res, consolidate env input true start_world = (w', Ok res) ∧ compacted res = true ∧
    keeps_prompts input (request res) ∧
    if compacted res then reduces (w_state start_world) (w_state w') input true (request res)
    else ∃ p, unreduced_request (w_state start_world) input p (request res).
Proof. exact (answer_cases _ _ (consolidate_reduces env input true start_world) reduced_true). Defined.
End ThresholdSample.
