(* ===== verification/Recovery.v ===== *)
(** Recovery from a refused request, [compaction/recovery.rs]: the reconstruction that
    folds further groups until the request is smaller than the refused body, and the
    model wrapper that sends a request, claims its ticket on a context overflow and
    sends the reduced request once.

    The provider, the summary utility and the clock are arguments; while an await is
    pending other tasks may change the state.  The theorem ties the second request to
    the ticket in the state and to the size of the first. *)

From stdpp Require Import sorting.
From S2P Require Import Prelude RustStr Usage Projection CompactionState Threshold.

Inductive RecoveryReconstructionError :=
  | RCancelled | RTimeout | Uncompressible | InvalidToolExchanges | Other (kind : str).

Definition from_utility (e : UtilityError) : RecoveryReconstructionError :=
  match e with Cancelled => RCancelled | Timeout => RTimeout | other => Other (kind other) end.

Section reconstruct.
Context `{Provider}.

(** How a reconstruction ends without a request. *)
Inductive rhalt :=
  | RFails (e : RecoveryReconstructionError) (u : option CompactionUtilityUsage)
  | RDropped
  | RDiverged.

Definition lift_halt {A} (u : option CompactionUtilityUsage) (m : stm World halt A) : stm World rhalt A := λ w,
  match m w with
  | (w, Ok a) => (w, Ok a)
  | (w, Err (Halted e _)) => (w, Err (RFails (from_utility e) u))
  | (w, Err WasDropped) => (w, Err RDropped)
  | (w, Err Diverged) => (w, Err RDiverged)
  end.

(** The utility binding a ticket carries: the policy and the model. *)
Definition ticket_prompts (t : ActiveRecoveryTicket) : list str :=
  current_user_texts (t_base t) (t_appended t) (t_loop_id t).

Definition measure_reconstruction (t : ActiveRecoveryTicket) (p : RequestProjection) (folded : gmap EphemeralGroupKey str)
    : option (ModelRequest * N * N) :=
  match fold_history_with_ranges (p_fixed p) (p_history p) (p_ranges p) folded None with
  | Some (Ok ms) =>
      if validate_clean_tool_exchanges ms then
        r ← ModelRequest_new ms (t_tools t) (t_limits t) (t_reasoning t);
        tokens ← estimate_request_tokens r (Some (t_loop_id t)) (Some (t_request_index t));
        bytes ← estimate_request_bytes r (Some (t_loop_id t)) (Some (t_request_index t));
        Some (r, tokens, bytes)
      else None
  | _ => None
  end.

Definition larger_first (x y : EphemeralGroupKey * N) : Prop :=
  (y.2 < x.2)%N ∨ (y.2 = x.2 ∧ start x.1 ≤ start y.1).
#[global] Instance larger_first_dec : RelDecision larger_first.
Proof. intros x y. unfold larger_first. apply _. Defined.

(** The best reconstruction so far: its request, its size and its groups. *)
Definition Best : Type := option (ModelRequest * N * gmap EphemeralGroupKey str).

(** [best.is_none_or(|(_, best_bytes, _)| bytes < best_bytes)] *)
Definition improves (best : Best) (bytes : N) : bool :=
  match best with Some (_, best_bytes, _) => bool_decide (bytes < best_bytes)%N | None => true end.

Definition summarize_group (env : Env) (group : list HistoryItem) : stm World rhalt generation := λ w,
  match look (E := rhalt) env w with
  | (w, Ok IsCancelled) => (w, Ok (GenerationFailed Cancelled None))
  | (w, _) =>
      (mkWorld (meanwhile env (w_calls w) (w_state w)) (w_time w) (S (w_calls w)),
       Ok (generate env (w_calls w) None (Item <$> group)))
  end.

Fixpoint reduce_loop (env : Env) (t : ActiveRecoveryTicket) (b : InputBudget) (p : RequestProjection)
    (candidates : list (EphemeralGroupKey * N)) (folded : gmap EphemeralGroupKey str) (best : Best)
    (u : option CompactionUtilityUsage)
    : stm World rhalt (gmap EphemeralGroupKey str * Best * option CompactionUtilityUsage) :=
  match candidates with
  | [] => mret (folded, best, u)
  | (key, _) :: rest =>
      if decide (is_Some (folded !! key)) then reduce_loop env t b p rest folded best u
      else if decide (MAX_EPHEMERAL_GROUPS <= N.of_nat (size folded))%N then mret (folded, best, u)
      else
        _ ← lift_halt u (check_active env);
        answer ← summarize_group env (slice (t_base t ++ t_appended t) (start key) (end_ key));
        match answer with
        | FutureDropped => throw RDropped
        | GenerationFailed e spent =>
            let u := merge_utility_usage u spent in
            if decide (e = NoProgress) then reduce_loop env t b p rest folded best u
            else throw (RFails (from_utility e) u)
        | Generated text spent =>
            let u := merge_utility_usage u spent in
            let folded := <[key := text]> folded in
            match measure_reconstruction t p folded with
            | Some (r, tokens, bytes) =>
                if decide ((tokens <= hard_tokens b)%N ∧ (bytes < original_body_bytes t)%N ∧
                           (groups_bytes folded <= MAX_EPHEMERAL_BYTES)%N ∧
                           ((tokens <= trigger_tokens b)%N ∨
                            improves best bytes = true))
                then
                  if decide (tokens <= trigger_tokens b)%N then mret (folded, Some (r, bytes, folded), u)
                  else reduce_loop env t b p rest folded (Some (r, bytes, folded)) u
                else reduce_loop env t b p rest folded best u
            | None => reduce_loop env t b p rest folded best u
            end
        end
  end.

Definition ticket_input (t : ActiveRecoveryTicket) (pol : CompactionPolicy) (model : ModelDescriptor) : ProjectionInput :=
  mkInput pol model (t_system t) (t_summary t) (t_base t) (t_appended t) (t_tools t) (t_reasoning t) (t_limits t)
    (t_loop_id t) (t_request_index t) (Some (original_body_bytes t)).

(** The consolidation of an already consolidated projection. *)
Definition reconsolidate (env : Env) (t : ActiveRecoveryTicket) (pol : CompactionPolicy) (model : ModelDescriptor)
    : stm World rhalt (ModelRequest * option CompactionUtilityUsage) := λ w,
  match consolidate env (ticket_input t pol model) true w with
  | (w, Ok res) =>
      if compacted res then (w, Ok (request res, r_usage res)) else (w, Err (RFails Uncompressible None))
  | (w, Err (Halted e u)) => (w, Err (RFails (from_utility e) u))
  | (w, Err WasDropped) => (w, Err RDropped)
  | (w, Err Diverged) => (w, Err RDiverged)
  end.

Definition reconstruct_inner (env : Env) (t : ActiveRecoveryTicket) (pol : CompactionPolicy) (model : ModelDescriptor)
    : stm World rhalt (ModelRequest * option CompactionUtilityUsage) :=
  _ ← lift_halt None (check_active env);
  _ ← throw_if (original_body_bytes t = 0%N) (RFails Uncompressible None);
  let b := policy_budget pol (context_window model) in
  minimal ← lift (match minimal_messages (t_system t) (ticket_prompts t) with
                  | Ok ms => Ok ms
                  | Err e => Err (RFails (Other (lit "minimal messages: " ++ [DQUOTE] ++ kind e ++ [DQUOTE])) None)
                  end);
  minimal_tokens ← lift (ok_or
    (r ← ModelRequest_new minimal (t_tools t) default_limits (t_reasoning t);
     estimate_request_tokens r (Some (t_loop_id t)) (Some (t_request_index t))) (RFails Uncompressible None));
  _ ← throw_if (hard_tokens b <= minimal_tokens)%N (RFails Uncompressible None);
  w ← get;
  p ← lift_halt None (halt_of (Projection_new (w_state w) (t_system t) (t_summary t) (t_base t) (t_appended t) (t_loop_id t)));
  match p_consolidated p with
  | Some _ => reconsolidate env t pol model
  | None =>
      end_state ← reduce_loop env t b p (merge_sort larger_first (p_ranges p)) (p_folded p) None None;
      let '(folded, best, u) := end_state in
      _ ← lift_halt u (check_active env);
      match best with
      | Some (r, _, gs) =>
          w ← get;
          let '(s, installed) := install_emergency_groups (t_loop_id t) gs (w_state w) in
          _ ← throw_if (installed = false) (RFails Uncompressible u);
          _ ← on_state (λ _, set_superseded (fst <$> latest_assistant (t_base t ++ t_appended t)) s);
          mret (r, u)
      | None =>
          match fold_history_with_ranges (p_fixed p) (p_history p) (p_ranges p) folded None with
          | Some (Ok ms) =>
              throw (RFails (if validate_clean_tool_exchanges ms then Uncompressible else InvalidToolExchanges) u)
          | Some (Err e) => throw (RFails (Other (lit "fold history: " ++ [DQUOTE] ++ kind e ++ [DQUOTE])) u)
          | None => throw RDiverged
          end
      end
  end.
End reconstruct.

(** ** The model wrapper *)

Inductive ModelErrorKind :=
  | KCancelled | KTimeout | KInvalidRequest | KContextOverflow | KAuthMissing | KAuthRejected | KRateLimited
  | KQuotaExceeded | KTransportUnavailable | KProviderUnavailable | KUnavailable | KInvalidProviderResponse
  | KIncompleteResponse | KStreamInterrupted | KRequestOutcomeUnknown | KUnexpectedToolCall | KPanicked | KInternal.
Inductive DeliveryState := NotStarted | Started | Unknown.
Record ModelError := mkModelError { error_kind : ModelErrorKind; delivery : DeliveryState }.
#[global] Instance ModelErrorKind_eq_dec : EqDecision ModelErrorKind.
Proof. solve_decision. Defined.
#[global] Instance DeliveryState_eq_dec : EqDecision DeliveryState.
Proof. solve_decision. Defined.

(** What a utility binding binds. *)
Class Bindings `{Requests} := {
  binding_policy : AutoContextBinding → CompactionPolicy;
  binding_model : AutoContextBinding → ModelDescriptor
}.

Section wrapper.
Context `{Provider} `{!Bindings}.

(** The provider's answer to the [n]-th start, an interruption by cancellation or the
    deadline included, and what other tasks did to the state meanwhile. *)
Record StartEnv := mkStartEnv {
  start_env : Env;
  inner_start : nat → ModelRequest → result ModelError unit;
  start_meanwhile : nat → CompactionState → CompactionState
}.
(** How a start ends without a stream: with an error, or by its future being dropped. *)
Inductive shalt := Refused (e : ModelError) | StartDropped | StartDiverged.
(** The world, and every request handed to the provider so far. *)
Record StartWorld := mkStart { sw : World; sent : list ModelRequest }.

Definition state_of (x : StartWorld) : CompactionState := w_state (sw x).
Definition update {A} (f : CompactionState → CompactionState * A) : stm StartWorld shalt A := λ x,
  let '(s, a) := f (state_of x) in
  (mkStart (mkWorld s (w_time (sw x)) (w_calls (sw x))) (sent x), Ok a).

Definition local_model_error (k : ModelErrorKind) : ModelError := mkModelError k NotStarted.

Definition check_start (env : StartEnv) : stm StartWorld shalt unit := λ x,
  let now := clock (start_env env) (w_time (sw x)) in
  (mkStart (mkWorld (w_state (sw x)) (S (w_time (sw x))) (w_calls (sw x))) (sent x),
   match now with
   | Active => Ok tt
   | IsCancelled => Err (Refused (local_model_error KCancelled))
   | IsExpired => Err (Refused (local_model_error KTimeout))
   end).

(** [self.inner.start(request, context)] under the cancellation and the deadline; its
    answer is a value of the computation. *)
Definition send (env : StartEnv) (r : ModelRequest) : stm StartWorld shalt (result ModelError unit) := λ x,
  let n := length (sent x) in
  (mkStart (mkWorld (start_meanwhile env n (state_of x)) (w_time (sw x)) (w_calls (sw x))) (sent x ++ [r]),
   Ok (inner_start env n r)).

Definition reconstruct_for_recovery (env : StartEnv) (t : ActiveRecoveryTicket) (binding : AutoContextBinding)
    : stm StartWorld shalt (result rhalt (ModelRequest * option CompactionUtilityUsage)) := λ x,
  let '(w, r) := reconstruct_inner (start_env env) t (binding_policy binding) (binding_model binding) (sw x) in
  (mkStart w (sent x), Ok r).

(** The error a failed reconstruction is reported as. *)
Definition recovery_error (e : RecoveryReconstructionError) (refused : ModelError) : ModelError :=
  match e with
  | RCancelled => local_model_error KCancelled
  | RTimeout => local_model_error KTimeout
  | _ => refused
  end.

(** One recovery after a refusal: claim, reconstruct, send once more. *)
Definition recover (env : StartEnv) (model : ModelDescriptor) (r : ModelRequest) (loop_id request_index : N)
    (original_hash : list N) (refused : ModelError) : stm StartWorld shalt unit :=
  claimed ← update (claim_recovery_ticket loop_id request_index r model);
  match claimed with
  | Err _ => throw (Refused refused)
  | Ok t =>
      match auto_binding t with
      | None => throw (Refused refused)
      | Some binding =>
          _ ← check_start env;
          outcome ← reconstruct_for_recovery env t binding;
          match outcome with
          | Err (RFails e _) => throw (Refused (recovery_error e refused))
          | Err RDropped => throw StartDropped
          | Err RDiverged => throw StartDiverged
          | Ok (reduced, _) =>
              _ ← check_start env;
              _ ← update (λ s, (retain_recovered_request loop_id request_index original_hash reduced s, tt));
              second ← send env reduced;
              lift (map_err Refused second)
          end
      end
  end.

Definition bind_request (model : ModelDescriptor) (r : ModelRequest) (loop_id request_index body_bytes : N)
    (s : CompactionState) : CompactionState * unit :=
  let f := claim_framing loop_id request_index r model s in
  (match compute_content_hash f, compute_ticket_hash f (limits r) with
   | Some chash, Some thash => bind_actual_request_ticket loop_id request_index chash thash (limits r) body_bytes s
   | _, _ => discard_recovery_ticket loop_id request_index s
   end, tt).

Definition start_inner (env : StartEnv) (model : ModelDescriptor) (r : ModelRequest) (loop_id request_index : N)
    : stm StartWorld shalt unit :=
  original_hash ← lift (ok_or
    (compute_ticket_hash (mkFraming loop_id request_index (messages r) (tools r) model (reasoning r) 0 0) (limits r))
    (Refused (local_model_error KInvalidRequest)));
  retained ← update (recovered_request loop_id request_index original_hash);
  match retained with
  | Err _ => throw (Refused (local_model_error KInvalidRequest))
  | Ok (Some reduced) =>
      _ ← check_start env;
      answer ← send env reduced;
      lift (map_err Refused answer)
  | Ok None =>
      let body_bytes := default 0%N (estimate_request_bytes r (Some loop_id) (Some request_index)) in
      _ ← update (bind_request model r loop_id request_index body_bytes);
      _ ← check_start env;
      first ← send env r;
      match first with
      | Ok _ => update (λ s, (discard_recovery_ticket loop_id request_index s, tt))
      | Err refused =>
          if decide (error_kind refused ≠ KContextOverflow ∨ delivery refused ≠ NotStarted) then throw (Refused refused)
          else recover env model r loop_id request_index original_hash refused
      end
  end.
End wrapper.

(** ** What a recovery guarantees *)

Section recovers.
Context `{Provider} `{!ModelValueLaws}.

(** [r] may replace the refused request of ticket [t]. *)
Definition recovers (t : ActiveRecoveryTicket) (window : N) (r : ModelRequest) : Prop :=
  (UserMessage <$> ticket_prompts t) `sublist_of` messages r ∧
  validate_clean_tool_exchanges (messages r) = true ∧
  ∃ bytes, estimate_request_bytes r (Some (t_loop_id t)) (Some (t_request_index t)) = Some bytes ∧
    (bytes < original_body_bytes t)%N ∧
    ((div_ceil4 bytes <= window)%N ∨
     ∃ tokens, estimate_request_tokens r (Some (t_loop_id t)) (Some (t_request_index t)) = Some tokens ∧ (tokens <= window)%N).

Definition returned_r {A} (P : A → Prop) (w : World) (r : result rhalt A) : Prop :=
  match r with Ok a => P a | Err RDiverged => False | Err _ => True end.

Definition projects (t : ActiveRecoveryTicket) (p : RequestProjection) : Prop :=
  ∃ s, Projection_new s (t_system t) (t_summary t) (t_base t) (t_appended t) (t_loop_id t) = Ok p.

Lemma measure_recovers t p folded r tokens bytes window :
  projects t p → measure_reconstruction t p folded = Some (r, tokens, bytes) →
  (tokens <= window)%N → (bytes < original_body_bytes t)%N → recovers t window r.
Proof.
  intros [s Hp] Hm Ht Hb. unfold measure_reconstruction in Hm.
  pose proof (projection_total s _ _ _ _ _ p folded None Hp) as Hf.
  destruct (fold_history_with_ranges _ _ _ _ _) as [[ms|e]|]; [|done|done].
  destruct (validate_clean_tool_exchanges ms) eqn:Ev; [|done].
  apply bind_Some in Hm as (r' & Hr & Hm). apply bind_Some in Hm as (tk & Htk & Hm). apply bind_Some in Hm as (bs & Hbs & Hm).
  injection Hm as -> -> ->. unfold ModelRequest_new in Hr. destruct (accepts_request _ _ _ _); [|done]. injection Hr as <-.
  split_and!; [done|done|]. exists bytes. split_and!; [done|done|]. right. by exists tokens.
Qed.

Definition good_best (t : ActiveRecoveryTicket) (window : N) (best : Best) : Prop :=
  match best with Some (r, _, _) => recovers t window r | None => True end.

Lemma ends_lift_halt {A} u (m : stm World halt A) w (Q : World → result rhalt A → Prop) :
  ends m w (λ w r, match r with
                   | Ok a => Q w (Ok a)
                   | Err (Halted e _) => Q w (Err (RFails (from_utility e) u))
                   | Err WasDropped => Q w (Err RDropped)
                   | Err Diverged => Q w (Err RDiverged)
                   end) → ends (lift_halt u m) w Q.
Proof. unfold ends, lift_halt. by destruct (m w) as [w' [a|[]]]. Qed.

Lemma summarize_group_answers env group w :
  ends (summarize_group env group) w (λ _ r, ∃ answer, r = Ok answer).
Proof. unfold ends, summarize_group, look. destruct (clock env (w_time w)); eauto. Qed.

Lemma reduce_loop_spec env t b p candidates folded best u w :
  projects t p → good_best t (hard_tokens b) best →
  ends (reduce_loop env t b p candidates folded best u) w
    (returned_r (λ out, good_best t (hard_tokens b) out.1.2)).
Proof.
  intros Hp. revert folded best u w. induction candidates as [|[key size] rest IH]; intros folded best u w Hbest; cbn [reduce_loop].
  { by apply ends_ret. }
  case_decide; [by apply IH|]. case_decide; [by apply ends_ret|].
  apply ends_bind, ends_lift_halt, ends_check_active; [|done]. intros time. apply ends_bind.
  eapply ends_mono; [apply summarize_group_answers|]. intros w1 r (answer & ->).
  destruct answer as [text spent|e spent|]; [| |done]; cbv zeta.
  - destruct (measure_reconstruction t p _) as [[[r tokens] bytes]|] eqn:Em; [|by apply IH].
    case_decide as Hd; [|by apply IH]. destruct Hd as (Hd1 & Hd2 & _).
    assert (recovers t (hard_tokens b) r) as Hr by (by eapply measure_recovers).
    case_decide; [by apply ends_ret|by apply IH].
  - case_decide; [by apply IH|done].
Qed.

Lemma reconstruct_spec env t pol model w :
  ends (reconstruct_inner env t pol model) w
    (returned_r (λ out, recovers t (context_window model) out.1)).
Proof.
  unfold reconstruct_inner. apply ends_bind, ends_lift_halt, ends_check_active; [|done]. intros time.
  apply ends_bind, ends_throw_if; [done|]. intros _. cbv zeta.
  apply ends_bind. unfold lift, ends at 1. destruct (minimal_messages _ _) as [minimal|e]; [|done].
  apply ends_bind. unfold ends at 1. destruct (_ ≫= _) as [mt|]; [|done].
  apply ends_bind, ends_throw_if; [done|]. intros _. apply ends_bind, ends_get.
  apply ends_bind, ends_lift_halt, ends_halt_of; [|done]. intros p Hp.
  destruct (p_consolidated p).
  - unfold reconsolidate, ends at 1. pose proof (consolidate_spec env (ticket_input t pol model) true) as Hc.
    specialize (Hc (mkWorld (w_state w) time (w_calls w))). unfold ends in Hc.
    destruct (consolidate _ _ _ _) as [w' [res|[]]]; [|done|done|done].
    destruct Hc as [Hk Hc]. destruct (compacted res); [|done]. cbn.
    destruct Hc as (q & r0 & b0 & bytes & sh & tx & _ & _ & Hb & _ & Hv & Hrec & _).
    destruct (Hrec eq_refl) as (Hw & o & [= <-] & Hlt). split_and!; [exact Hk|exact Hv|].
    exists bytes. unfold estimate_bytes in Hb. apply ok_or_Ok in Hb. split_and!; [exact Hb|exact Hlt|]. left. exact Hw.
  - assert (projects t p) as Hpr by (by exists (w_state w)). apply ends_bind.
    eapply ends_mono; [by apply reduce_loop_spec|]. intros w1 [[[folded best] u]|h] Hg; [|done]. cbn in Hg.
    apply ends_bind, ends_lift_halt, ends_check_active; [|done]. intros time'.
    destruct best as [[[r bs] gs]|].
    + apply ends_bind, ends_get. destruct (install_emergency_groups _ _ _) as [s1 installed].
      apply ends_bind, ends_throw_if; [done|]. intros _. apply ends_bind, ends_modify. by apply ends_ret.
    + pose proof (projection_total _ _ _ _ _ _ p folded None Hp) as Hf.
      by destruct (fold_history_with_ranges _ _ _ _ _) as [[ms|e]|].
Qed.
End recovers.

Section sends.
Context `{Provider} `{!Bindings} `{!ModelValueLaws}.

(** The request retained for a delivery retry of this very request. *)
Definition retained (s : CompactionState) (loop_id request_index : N) (hash : list N) (q : ModelRequest) : Prop :=
  ∃ rt, retry (recovery s) = Some rt ∧ r_loop_id rt = loop_id ∧ r_request_index rt = request_index ∧
    original_hash rt = hash ∧ q = r_request rt.

(** The hash one start knows its request by. *)
Definition request_hash (model : ModelDescriptor) (r : ModelRequest) (loop_id request_index : N) : option (list N) :=
  compute_ticket_hash (mkFraming loop_id request_index (messages r) (tools r) model (reasoning r) 0 0) (limits r).

(** The state in which [r] is sent: a stale retry is dropped, the ticket is bound to
    the request and its size. *)
Definition asked (model : ModelDescriptor) (r : ModelRequest) (loop_id request_index : N) (hash : list N)
    (s : CompactionState) : CompactionState :=
  (bind_request model r loop_id request_index (default 0%N (estimate_request_bytes r (Some loop_id) (Some request_index)))
    (recovered_request loop_id request_index hash s).1).1.

(** The state [refused] holds the ticket of [r], it is taken out of it, and [q] is
    what reconstructing it gives; [q] is kept for a delivery retry when it is sent as
    the [n]-th request, which leaves [final]. *)
Definition reconstructed_for (env : StartEnv) (model : ModelDescriptor) (r : ModelRequest) (loop_id request_index : N)
    (hash : list N) (refused : CompactionState) (n : nat) (final : CompactionState) (q : ModelRequest)
    (t : ActiveRecoveryTicket) : Prop :=
  ∃ binding claimed w w' u,
    claim_recovery_ticket loop_id request_index r model refused = (claimed, Ok t) ∧
    ticket (recovery claimed) = None ∧ consumed loop_id request_index claimed = true ∧
    auto_binding t = Some binding ∧ w_state w = claimed ∧
    reconstruct_inner (start_env env) t (binding_policy binding) (binding_model binding) w = (w', Ok (q, u)) ∧
    recovers t (context_window (binding_model binding)) q ∧
    final = start_meanwhile env n (retain_recovered_request loop_id request_index hash q (w_state w')).

(** [q] is smaller than the refused request [r], whose ticket [t] is the one the state
    [s] had before the start. *)
Definition shrinks (r : ModelRequest) (loop_id request_index : N) (s : CompactionState) (t : ActiveRecoveryTicket)
    (q : ModelRequest) : Prop :=
  (∃ t0, ticket (recovery s) = Some t0 ∧ ticket_sources t = ticket_sources t0) ∧
  ∃ bytes bytes', estimate_request_bytes r (Some loop_id) (Some request_index) = Some bytes ∧
    estimate_request_bytes q (Some loop_id) (Some request_index) = Some bytes' ∧ (bytes' < bytes)%N.

(** What one start from [x] to [x'] hands to the provider, and its answer. *)
Definition lawful_sends (env : StartEnv) (model : ModelDescriptor) (r : ModelRequest) (loop_id request_index : N)
    (x x' : StartWorld) (res : result shalt unit) (tail : list ModelRequest) : Prop :=
  let n := length (sent x) in
  match tail with
  | [] => ∃ e, res = Err e
  | [q] =>
      (q = r ∧ match inner_start env n r with
               | Ok _ => res = Ok tt
               | Err e => res ≠ Ok tt ∧ (e ≠ mkModelError KContextOverflow NotStarted → res = Err (Refused e))
               end) ∨
      res = map_err Refused (inner_start env n q) ∧
      ∃ hash, request_hash model r loop_id request_index = Some hash ∧
        retained (state_of x) loop_id request_index hash q
  | [q; q'] =>
      q = r ∧ inner_start env n r = Err (mkModelError KContextOverflow NotStarted) ∧
      res = map_err Refused (inner_start env (S n) q') ∧
      ∃ hash t, request_hash model r loop_id request_index = Some hash ∧
        let before := asked model r loop_id request_index hash (state_of x) in
        let refused := start_meanwhile env n before in
        reconstructed_for env model r loop_id request_index hash refused (S n) (state_of x') q' t ∧
        (recovery refused = recovery before → shrinks r loop_id request_index (state_of x) t q')
  | _ => False
  end.

Lemma ends_update {A} (f : CompactionState → CompactionState * A) x (Q : StartWorld → result shalt A → Prop) :
  (∀ s a w, f (state_of x) = (s, a) → w_state w = s → Q (mkStart w (sent x)) (Ok a)) → ends (update f) x Q.
Proof. intros HQ. unfold ends, update. destruct (f (state_of x)) as [s a] eqn:E. by apply (HQ s a). Qed.

Lemma ends_check_start env x (Q : StartWorld → result shalt unit → Prop) :
  (∀ w r, w_state w = state_of x → r ≠ Err StartDiverged → Q (mkStart w (sent x)) r) → ends (check_start env) x Q.
Proof. intros HQ. unfold ends, check_start. apply HQ; [done|]. by destruct (clock _ _). Qed.

Lemma recover_spec env model r l i hash refused x :
  ends (recover env model r l i hash refused) x (λ x' res,
    res ≠ Err StartDiverged ∧
    ((sent x' = sent x ∧ res ≠ Ok tt) ∨
     ∃ q t, sent x' = sent x ++ [q] ∧ res = map_err Refused (inner_start env (length (sent x)) q) ∧
       reconstructed_for env model r l i hash (state_of x) (length (sent x)) (state_of x') q t)).
Proof.
  unfold recover. apply ends_bind, ends_update. intros s claimed w Hclaim Hw.
  destruct claimed as [t|e]; [|apply ends_throw; split; [done|by left]].
  pose proof Hclaim as (_ & _ & _ & _ & _ & _ & Hrc)%claim_Ok.
  destruct (auto_binding t) as [binding|] eqn:Eb; [|apply ends_throw; split; [done|by left]].
  apply ends_bind, ends_check_start. intros w1 [[]|h] Hw1 Hh; [|split; [done|by left]]. cbn [sent].
  apply ends_bind. pose proof (reconstruct_spec (start_env env) t (binding_policy binding) (binding_model binding) w1) as Hrec.
  unfold ends in Hrec. unfold reconstruct_for_recovery, ends at 1. cbn [sw].
  destruct (reconstruct_inner _ _ _ _ w1) as [w2 [[reduced u]|[e u| |]]] eqn:Ew2; cbn [sent];
    [|apply ends_throw; split; [done|by left]|apply ends_throw; split; [done|by left]|done].
  apply ends_bind, ends_check_start. intros w3 [[]|h'] Hw3 Hh'; [|split; [done|by left]].
  apply ends_bind, ends_update. intros s4 [] w4 [= Hs4] Hw4. apply ends_bind. unfold send, ends at 1. cbn [sent].
  unfold ends, lift. split; [by destruct (inner_start _ _ _)|]. right. exists reduced, t. split_and!; [done|done|].
  exists binding, s, w1, w2, u. split_and!; [done|by rewrite Hrc| |done|by rewrite Hw1, <- Hw|done|exact Hrec|].
  - unfold consumed. rewrite Hrc. cbn [high_water]. by apply bool_decide_eq_true.
  - unfold state_of in *. cbn [sw w_state] in *. rewrite Hw4, <- Hs4. by rewrite Hw3.
Qed.

(** A ticket that is there after the binding and claimed for this request was there
    before, and it is bound to the size of the request. *)
Lemma bound_ticket model r l i hash s t :
  ticket (recovery (asked model r l i hash s)) = Some t → t_loop_id t = l → t_request_index t = i →
  (∃ t0, ticket (recovery s) = Some t0 ∧ ticket_sources t = ticket_sources t0) ∧
  original_body_bytes t = default 0%N (estimate_request_bytes r (Some l) (Some i)).
Proof using Type.
  intros Ht Hl Hi. unfold asked, bind_request in Ht. cbn [fst] in Ht.
  assert (ticket (recovery (recovered_request l i hash s).1) = ticket (recovery s)) as Hr.
  { unfold recovered_request. by repeat case_match. }
  set (s1 := (recovered_request l i hash s).1) in *.
  assert (same_request l i t = true) as Hsame by (by apply bool_decide_eq_true).
  assert (ticket (recovery (discard_recovery_ticket l i s1)) ≠ Some t) as Hdis.
  { unfold discard_recovery_ticket. destruct (ticket (recovery s1)) as [t1|] eqn:E1; cbn [from_option]; [|by rewrite E1].
    destruct (same_request l i t1) eqn:Es; [done|]. rewrite E1. congruence. }
  destruct (compute_content_hash _) as [chash|]; [|done]. destruct (compute_ticket_hash _ _) as [thash|]; [|done].
  unfold bind_actual_request_ticket in Ht. destruct (ticket (recovery s1)) as [t1|] eqn:E1; [|by rewrite E1 in Ht].
  destruct (same_request l i t1) eqn:Es; cbn [negb] in Ht; [|congruence].
  case_decide; [done|]. cbn in Ht. injection Ht as <-. split; [|done]. by exists t1.
Qed.

Lemma reconstructed_shrinks env model r l i hash s refused n final q t :
  reconstructed_for env model r l i hash refused n final q t →
  recovery refused = recovery (asked model r l i hash s) → shrinks r l i s t q.
Proof using Type.
  intros (binding & claimed & w & w' & u & Hclaim & _ & _ & _ & _ & _ & Hrec & _) Hsame.
  apply claim_Ok in Hclaim as (_ & Ht & Hl & Hi & _). rewrite Hsame in Ht.
  destruct (bound_ticket _ _ _ _ _ _ _ Ht Hl Hi) as [Hbefore Hbytes]. split; [done|].
  destruct Hrec as (_ & _ & bytes' & Hb' & Hlt & _). rewrite Hl, Hi in Hb'. rewrite Hbytes in Hlt.
  destruct (estimate_request_bytes r (Some l) (Some i)) as [bytes|]; [|simpl in Hlt; lia]. by exists bytes, bytes'.
Qed.

(** C19 A start hands the provider at most two requests, and the second only as a genuine
    recovery of the first.  The first is then the one asked for, refused as too large
    before any output; the ticket of this very request was in the recovery state at the
    refusal, is taken out of it and the request is marked as consumed; the second
    request is what reconstructing that ticket gives, keeps every prompt of the ticket's
    loop, has clean tool exchanges, fits the bound model's window, is kept for a
    delivery retry under the hash of the first, and its answer is the start's.  If other
    tasks left the recovery state alone during the first send, that ticket has the
    sources of the one the state held before the start, and the second request is
    smaller than the first.  A single request is the one asked for, whose answer the
    start gives on, or, for a delivery retry, the reduced one retained for it; a start
    that sends nothing fails.  The wrapper always returns. *)
Theorem recovery_sends env model r l i x :
  match start_inner env model r l i x with
  | (x', res) => res ≠ Err StartDiverged ∧
      ∃ tail, sent x' = sent x ++ tail ∧ lawful_sends env model r l i x x' res tail
  end.
Proof.
  change (ends (start_inner env model r l i) x (λ x' res, res ≠ Err StartDiverged ∧
    ∃ tail, sent x' = sent x ++ tail ∧ lawful_sends env model r l i x x' res tail)).
  assert (∀ h w, Err h ≠ Err (E := shalt) (A := unit) StartDiverged → Err h ≠ Err (E := shalt) (A := unit) StartDiverged ∧
    ∃ tail, sent (mkStart w (sent x)) = sent x ++ tail ∧ lawful_sends env model r l i x (mkStart w (sent x)) (Err h) tail) as Hnone.
  { intros h w Hres. split; [done|]. exists []. rewrite app_nil_r. split; [done|]. by exists h. }
  unfold start_inner. apply ends_bind. unfold lift at 1, ends at 1.
  destruct (compute_ticket_hash _ _) as [hash|] eqn:Eh; cbn [ok_or]; [|destruct x; by apply Hnone].
  apply ends_bind, ends_update. intros s ans w Hret Hw. destruct ans as [[reduced|]|[]].
  - assert (retained (state_of x) l i hash reduced) as Hk.
    { unfold recovered_request in Hret. destruct (retry (recovery (state_of x))) as [rt|] eqn:Er; [|done].
      case_decide as Hd; [done|]. case_decide as Hd2; [done|]. injection Hret as _ <-. exists rt.
      split_and!; [done| | | |done]; apply dec_stable; tauto. }
    apply ends_bind, ends_check_start. intros w1 [[]|h] _ Hh; [|by apply Hnone].
    apply ends_bind. unfold send, ends at 1. unfold ends, lift. split; [by destruct (inner_start _ _ _)|].
    exists [reduced]. split; [done|]. right. split; [done|]. by exists hash.
  - cbv zeta. apply ends_bind, ends_update. intros s1 [] w1 Hs1 Hw1.
    apply ends_bind, ends_check_start. intros w2 [[]|h] Hw2 Hh; [|by apply Hnone].
    apply ends_bind. unfold send, ends at 1. cbn [sent].
    assert (state_of (mkStart w2 (sent x)) = asked model r l i hash (state_of x)) as Hasked.
    { unfold state_of at 1. cbn [sw]. rewrite Hw2. unfold state_of at 1. cbn [sw]. rewrite Hw1. unfold asked.
      rewrite Hret. cbn [fst]. unfold state_of in Hs1. cbn [sw] in Hs1. rewrite Hw in Hs1. by rewrite Hs1. }
    destruct (inner_start env (length (sent x)) r) as [[]|refused] eqn:Es.
    + apply ends_update. intros s3 [] w3 _ _. split; [done|]. exists [r]. split; [done|]. left. by rewrite Es.
    + case_decide as Hd.
      * apply ends_throw. split; [done|]. exists [r]. split; [done|]. left. rewrite Es. by split_and!.
      * assert (refused = mkModelError KContextOverflow NotStarted) as ->.
        { destruct refused as [k d]. cbn in Hd. f_equal; apply dec_stable; tauto. }
        eapply ends_mono; [apply recover_spec|]. cbn [sent]. intros x' res [Hres Hs]. split; [done|].
        destruct Hs as [[-> Hne]|(q & t & -> & Hans & Hrec)].
        -- exists [r]. split; [done|]. left. by rewrite Es.
        -- exists [r; q]. rewrite <- app_assoc. split; [done|]. rewrite length_app, Nat.add_1_r in Hans, Hrec.
           unfold state_of at 1 in Hrec. cbn [sw w_state] in Hrec. rewrite Hasked in Hrec.
           split_and!; [done|done|done|]. exists hash, t. split; [done|]. split; [done|].
           by apply (reconstructed_shrinks _ _ _ _ _ _ _ _ _ _ _ _ Hrec).
  - apply ends_throw. by apply Hnone.
Qed.
End sends.

(** ** A refusal and its recovery *)

Module RecoverySample.
#[local] Existing Instance Sample.rt.
#[local] Existing Instance Sample.values.
#[local] Existing Instance Sample.laws.
#[local] Existing Instance StateSample.requests.
#[local] Existing Instance ThresholdSample.provider.
#[local] Instance bindings : Bindings := {| binding_policy _ := mkPolicy true 80 50; binding_model _ := 1000%N |}.

Definition refused_request : ModelRequest := mkRequest (Sample.composed.1 ++ Sample.composed.2) [] 7%N true.
Definition env : StartEnv := mkStartEnv ThresholdSample.env
  (λ n _, if decide (n = 0) then Err (mkModelError KContextOverflow NotStarted) else Ok tt) (λ _ s, s).
Definition ticket : option ActiveRecoveryTicket :=
  prepare_ticket (mkSettings 0 0) 2 3 (messages refused_request) [] 1000%N true (lit "S") None Sample.base Sample.appended ().
Definition world : StartWorld :=
  mkStart (mkWorld (register_recovery_ticket 2 3 ticket CompactionState_new) 0 0) [].
Definition lengths (answer : StartWorld * result shalt unit) : list nat := (λ r, length (messages r)) <$> sent answer.1.

Lemma lengths_eq : lengths (start_inner env 1000%N refused_request 2 3 world) = [9; 7].
Proof. vm_compute. reflexivity. Qed.

Lemma start_answer_cases (P : StartWorld → result shalt unit → Prop) (o : StartWorld * result shalt unit) ls :
  match o with (x', res) => P x' res end → lengths o = ls → ∃ x' res, o = (x', res) ∧ lengths o = ls ∧ P x' res.
Proof. destruct o as [x' res]. eauto. Qed.

Lemma recovery_sends_witness :
  ∃ x' res, start_inner env 1000%N refused_request 2 3 world = (x', res) ∧
    lengths (start_inner env 1000%N refused_request 2 3 world) = [9; 7] ∧ res ≠ Err StartDiverged ∧
    ∃ tail, sent x' = sent world ++ tail ∧ lawful_sends env 1000%N refused_request 2 3 world x' res tail.
Proof. exact (start_answer_cases _ _ _ (recovery_sends env 1000%N refused_request 2 3 world) lengths_eq). Defined.
End RecoverySample.
