(* ===== verification/History.v ===== *)
(** The history file of a session, [store/history.rs], with its record type
    ([store.rs]), the normalisation of items ([history.rs]) and the running usage
    ([read.rs]).

    The file is a list of bytes.  Reads come in chunks, as [fill_buf] hands them out;
    every write may fail before, in the middle of or after its effect, and which it
    is is an argument.  [HistoryDurable] runs the operations under crashes;
    [HistoryPage] reads pages. *)

From S2P Require Import Prelude RustStr Time Usage.
Open Scope N_scope.

Inductive StoreError :=
  | InvalidRoot | InvalidRecord | UnsupportedFormat | SessionNotFound | SessionAlreadyExists | Corrupt
  | RecordTooLarge | Unavailable | HistoryChanged | QueryLimit | InvalidArguments.

Inductive AppendError := NotWritten (e : StoreError) | Unknown.

Definition MAX_LOOP_RECORD_BYTES : N := 16 * 1024 * 1024.

(** ** Values of the runtime *)

(** Types of [minicore_runtime], and payloads a record only carries. *)
Class HistoryValues := {
  UserInput : Type; CallContent : Type; ResultContent : Type; SummaryContent : Type;
  AssistantFields : Type; ProviderReplay : Type;
  ReasoningContent : Type;
  r_text : ReasoningContent → option str;
  r_summary : ReasoningContent → option str;
  (** [ReasoningContent::new(text, summary, None, None)]. *)
  reasoning_new : option str → option str → option ReasoningContent;
  (** [models::validate_history_replay], which reads the replay's JSON. *)
  validate_history_replay : ProviderReplay → list (str + CallContent + ReasoningContent) → bool;
  LoopOutcome : Type; InterruptedRequest : Type; ConfigRevision : Type
}.

(** What was accepted by the constructor is what it was given. *)
Class HistoryValueLaws `{HistoryValues} : Prop :=
  reasoning_new_law t s r : reasoning_new t s = Some r → r_text r = t ∧ r_summary r = s.

(** The parts of an assistant message. *)
Abbreviation AssistantPart := (str + CallContent + ReasoningContent)%type.
Abbreviation Text t := (inl (inl t)).
Abbreviation ToolCall c := (inl (inr c)).
Abbreviation Reasoning r := (inr r).

Section values.
Context `{HistoryValues}.

Record AssistantHistory := mkAssistant {
  provider_replay : option ProviderReplay;
  content : list AssistantPart;
  fields : AssistantFields
}.

Inductive HistoryItem :=
  | User (loop_id : N) (input : UserInput)
  | Assistant (a : AssistantHistory)
  | ToolResult (r : ResultContent)
  | Summary (s : SummaryContent).

Definition is_user (item : HistoryItem) : bool := match item with User _ _ => true | _ => false end.

Record StoredLoopRecord := mkRecord {
  loop_id : N;
  outcome : LoopOutcome;
  items : list HistoryItem;
  usage : Usage;
  requests : N;
  tool_rounds : N;
  final_config_revision : ConfigRevision;
  completed_at : str;
  user_times : option (list (option str));
  interrupted : option InterruptedRequest
}.

(** ** Normalisation, [history.rs] *)

(** The loop over the parts; a part without text or summary is dropped. *)
Fixpoint sanitize_parts (parts : list AssistantPart) : option (list AssistantPart) :=
  match parts with
  | [] => Some []
  | Text t :: parts => cons (Text t) <$> sanitize_parts parts
  | ToolCall c :: parts => cons (ToolCall c) <$> sanitize_parts parts
  | Reasoning r :: parts =>
      if decide (r_text r = None ∧ r_summary r = None) then sanitize_parts parts
      else cleaned ← reasoning_new (r_text r) (r_summary r);
           cons (Reasoning cleaned) <$> sanitize_parts parts
  end.

Definition sanitize_assistant (a : AssistantHistory) (durable : bool) : option (option AssistantHistory) :=
  content ← sanitize_parts (content a);
  replay ← (if durable then
              match provider_replay a with
              | Some replay => if validate_history_replay replay content then Some (Some replay) else None
              | None => Some None
              end
            else Some None);
  Some (match content, replay with
        | [], None => None
        | _, _ => Some (mkAssistant replay content (fields a))
        end).

Fixpoint normalize (items : list HistoryItem) (durable : bool) : option (list HistoryItem) :=
  match items with
  | [] => Some []
  | Assistant a :: items =>
      sanitized ← sanitize_assistant a durable;
      rest ← normalize items durable;
      Some (match sanitized with Some a => Assistant a :: rest | None => rest end)
  | item :: items => cons item <$> normalize items durable
  end.
Definition normalize_history (items : list HistoryItem) : option (list HistoryItem) := normalize items true.
Definition sanitize_history (items : list HistoryItem) : option (list HistoryItem) := normalize items false.

(** ** Times of a record *)

Definition user_count (r : StoredLoopRecord) : nat := length (filter is_user (items r)).

Definition user_times_are_valid (r : StoredLoopRecord) : bool :=
  match user_times r with
  | None => true
  | Some times => bool_decide (length times <= user_count r)%nat &&
                  forallb (λ t, match t with Some t => valid_timestamp t | None => true end) times
  end.

Definition normalized_user_times (r : StoredLoopRecord) : option (list (option str)) :=
  match user_times r with
  | None => None
  | Some times =>
      if decide (user_count r < length times)%nat then None
      else Some ((λ t, match t with Some t => if valid_timestamp t then Some t else None | None => None end)
                   <$> times)
  end.

Definition with_items (i : list HistoryItem) (r : StoredLoopRecord) : StoredLoopRecord :=
  mkRecord (loop_id r) (outcome r) i (usage r) (requests r) (tool_rounds r) (final_config_revision r)
    (completed_at r) (user_times r) (interrupted r).
Definition with_metadata (t : option (list (option str))) (i : option InterruptedRequest)
    (r : StoredLoopRecord) : StoredLoopRecord :=
  mkRecord (loop_id r) (outcome r) (items r) (usage r) (requests r) (tool_rounds r) (final_config_revision r)
    (completed_at r) t i.

(** ** The index *)

Record CoveredUsage := mkCovered {
  covered_usage : Usage;
  loop_count : N;
  last_loop_id : option N;
  partial : bool
}.
Definition CoveredUsage_default : CoveredUsage :=
  mkCovered (mkUsage None None None None None None) 0 None false.

(** The closure [sum], which threads the flag [partial]. *)
Definition sum_covered (p : bool) (a b : option N) : bool * option N :=
  let p := p || bool_decide (b = None) in
  match a, b with
  | Some a, Some b => match checked_add a b with
                      | Some c => (p, Some c)
                      | None => (true, Some u64_max)
                      end
  | Some a, None => (p, Some a)
  | None, b => (p, b)
  end.

Definition covered_add (id : N) (next : Usage) (c : CoveredUsage) : CoveredUsage :=
  let u := covered_usage c in
  let '(p, input) := sum_covered (partial c) (input_tokens u) (input_tokens next) in
  let '(p, output) := sum_covered p (output_tokens u) (output_tokens next) in
  let '(p, reasoning) := sum_covered p (reasoning_tokens u) (reasoning_tokens next) in
  let '(p, cache_read) := sum_covered p (cache_read_tokens u) (cache_read_tokens next) in
  let '(p, cache_write) := sum_covered p (cache_write_tokens u) (cache_write_tokens next) in
  let '(p, total) := sum_covered p (provider_total_tokens u) (provider_total_tokens next) in
  mkCovered (mkUsage input output reasoning cache_read cache_write total) (loop_count c + 1) (Some id) p.

(** A line of the index; the hasher is the bytes it was fed. *)
Record HistoryLine := mkLine {
  line_end : N;
  line_items : N;
  line_hash : list N;
  line_usage : CoveredUsage
}.

Definition index_line (index : list HistoryLine) (bytes : list N) (record : StoredLoopRecord)
    (item_count : nat) : list HistoryLine :=
  let line := default (mkLine 0 0 [] CoveredUsage_default) (last index) in
  index ++ [mkLine (line_end line + lenN bytes) (line_items line + N.of_nat item_count)
              (line_hash line ++ bytes) (covered_add (loop_id record) (usage record) (line_usage line))].
End values.

(** [serde_json] on records, one JSON object per line. *)
Class RecordCodec `{HistoryValues} := {
  record_to_vec : StoredLoopRecord → option (list N);
  record_from_slice : list N → option StoredLoopRecord
}.

(** A record whose times are timestamps reads back as it was; the text of an object is
    on one line and ends with its closing brace, no earlier; nothing is not a record. *)
Class RecordCodecLaws `{RecordCodec} : Prop := {
  codec_roundtrip r b : record_to_vec r = Some b → user_times_are_valid r = true → record_from_slice b = Some r;
  codec_line r b : record_to_vec r = Some b → 10 ∉ b;
  codec_empty : record_from_slice [] = None;
  codec_prefix r b k : record_to_vec r = Some b → (k < length b)%nat → record_from_slice (take k b) = None
}.

(** ** Appending *)

(** How a write to the file ends: done, failed without effect, failed after its effect. *)
Inductive IoEnd := IoDone | IoLost | IoApplied.

(** What the file system answers to an append: there is no file to append to, it cannot
    be opened, everything is written and synced, or the write fails with [k] bytes in
    the file and the truncation that follows ends in its own way. *)
Inductive AppendIo :=
  | AppendMissing (e : StoreError) | AppendRefused | AppendWritten | AppendTorn (k : nat) (rollback : IoEnd).

(** The file and, for a loaded session, its index. *)
Record HistoryFile := mkFile { file : list N; history_index : option (list HistoryLine) }.

Section append.
Context `{RecordCodec}.

(** New records with a replay are stored normalised, others as they are. *)
Definition normalized_record (record : StoredLoopRecord) (normalized_items : list HistoryItem) : StoredLoopRecord :=
  if existsb (λ i, match i with Assistant a => bool_decide (provider_replay a ≠ None) | _ => false end)
       (items record)
  then with_items normalized_items record else record.

(** The record and the line that are written, and whether its metadata was shed. *)
Definition append_bytes (record : StoredLoopRecord)
    : result StoreError (StoredLoopRecord * list HistoryItem * list N * bool) :=
  normalized_items ← ok_or (normalize_history (items record)) Corrupt;
  let record := normalized_record record normalized_items in
  bytes ← ok_or (if user_times_are_valid record then record_to_vec record
                 else record_to_vec (with_metadata (normalized_user_times record) (interrupted record) record))
            Corrupt;
  let shed_metadata := bool_decide (MAX_LOOP_RECORD_BYTES < lenN bytes) &&
                       (bool_decide (user_times record ≠ None) || bool_decide (interrupted record ≠ None)) in
  bytes ← (if shed_metadata : bool then ok_or (record_to_vec (with_metadata None None record)) Corrupt else Ok bytes);
  _ ← ensure (¬ MAX_LOOP_RECORD_BYTES < lenN bytes) RecordTooLarge;
  Ok (record, normalized_items, bytes ++ [10], shed_metadata).

(** [rollback_append] and [truncate_append]. *)
Definition rollback_append (previous_len : nat) (io : IoEnd) : stm HistoryFile AppendError bool :=
  let truncated := modify (λ s, mkFile (take previous_len (file s)) (history_index s)) in
  match io with
  | IoDone => _ ← truncated; throw (NotWritten Unavailable)
  | IoLost => throw Unknown
  | IoApplied => _ ← truncated; throw Unknown
  end.

Definition append_loop (record : StoredLoopRecord) (io : AppendIo) : stm HistoryFile AppendError bool :=
  _ ← (match io with AppendMissing e => throw (NotWritten e) | _ => mret tt end);
  s ← get;
  let previous_len := length (file s) in
  '(record, normalized_items, bytes, shed_metadata) ← lift (map_err NotWritten (append_bytes record));
  match io with
  | AppendMissing _ | AppendRefused => throw (NotWritten Unavailable)
  | AppendTorn k rollback =>
      _ ← modify (λ s, mkFile (file s ++ take k bytes) (history_index s));
      rollback_append previous_len rollback
  | AppendWritten =>
      _ ← modify (λ s, mkFile (file s ++ bytes)
            ((λ index, index_line index bytes record (length normalized_items)) <$> history_index s));
      mret (negb shed_metadata)
  end.
End append.

(** ** Loading *)

(** [fill_buf] returns the chunks one after the other, then fails or is at the end. *)
Record Reader := mkReader { chunks : list (list N); read_fails : bool }.

Definition consume (n : nat) (chunk : list N) (rest : list (list N)) : list (list N) :=
  match drop n chunk with [] => rest | chunk => chunk :: rest end.

Definition newline (chunk : list N) : option nat := fst <$> list_find (λ b, b = 10) chunk.

(** The bounded line: [buffer], [line_len] and [oversized]. *)
Definition LineBuffer : Type := list N * N * bool.
Definition extend (chunk : list N) '((buffer, line_len, oversized) : LineBuffer) : LineBuffer :=
  if oversized : bool then (buffer, line_len, true)
  else match checked_add line_len (lenN chunk) with
       | Some total =>
           if decide (total <= MAX_LOOP_RECORD_BYTES) then (buffer ++ chunk, total, false)
           else (buffer, line_len, true)
       | None => (buffer, line_len, true)
       end.

(** The inner loop of [load_history]: whether the end of the file was reached, the
    line, and the chunks left. *)
Fixpoint load_line (rd : list (list N)) (fails : bool) (l : LineBuffer)
    : result StoreError (bool * LineBuffer * list (list N)) :=
  match rd with
  | [] => if fails then Err Unavailable else Ok (true, l, [])
  | [] :: _ => Ok (true, l, rd)
  | chunk :: rest =>
      match newline chunk with
      | Some position => Ok (false, extend (take position chunk) l, consume (S position) chunk rest)
      | None => load_line rest fails (extend chunk l)
      end
  end.

Section load.
Context `{RecordCodec}.

Record Loaded := mkLoaded {
  loaded_items : list HistoryItem;
  loaded_times : gmap (N * nat) str;
  loaded_index : list HistoryLine;
  last_complete_offset : N
}.

(** The loop over the items of a record that collects the times of its inputs. *)
Fixpoint insert_times (id : N) (items : list HistoryItem) (user_times : list (option str))
    (user_occurrence : nat) (times : gmap (N * nat) str) : gmap (N * nat) str :=
  match items with
  | [] => times
  | User _ _ :: items =>
      let times := match user_times !! user_occurrence with
                   | Some (Some time) => <[(id, user_occurrence) := time]> times
                   | _ => times
                   end in
      insert_times id items user_times (S user_occurrence) times
  | _ :: items => insert_times id items user_times user_occurrence times
  end.

Definition load_record (record : StoredLoopRecord) (normalized : list HistoryItem) (buffer : list N)
    (st : Loaded) : Loaded :=
  let times := match user_times record with
               | Some times => if decide (length times <= user_count record)%nat then times else []
               | None => []
               end in
  mkLoaded (loaded_items st ++ normalized)
    (insert_times (loop_id record) (items record) times 0 (loaded_times st))
    (index_line (loaded_index st) (buffer ++ [10]) record (length normalized))
    (last_complete_offset st + (lenN buffer + 1)).

Definition io_effect (io : IoEnd) (f : list N → list N) : stm (list N) StoreError unit :=
  match io with
  | IoDone => modify f
  | IoLost => throw Unavailable
  | IoApplied => _ ← modify f; throw Unavailable
  end.

Definition tail_repair (complete_offset : N) (io : IoEnd) : stm (list N) StoreError unit :=
  io_effect io (take (N.to_nat complete_offset)).

Definition parse_record (oversized : bool) (buffer : list N)
    : result StoreError (StoredLoopRecord * list HistoryItem) :=
  if oversized then Err Corrupt
  else record ← ok_or (record_from_slice buffer) Corrupt;
       normalized ← ok_or (normalize_history (items record)) Corrupt;
       Ok (record, normalized).

(** The loop of [load_history]; the state is the file, which only a repair changes.
    [fuel] bounds the number of lines. *)
Fixpoint load_loop (fuel : nat) (rd : list (list N)) (fails : bool) (io : IoEnd) (st : Loaded)
    : stm (list N) StoreError Loaded :=
  match fuel with
  | O => throw Unavailable
  | S fuel =>
      '(reached_eof, (buffer, line_len, oversized), rd) ← lift (load_line rd fails ([], 0, false));
      if decide (reached_eof = true ∧ line_len = 0 ∧ oversized = false) then mret st
      else match parse_record oversized buffer with
           | Ok (record, normalized) =>
               let st := load_record record normalized buffer st in
               if reached_eof : bool then _ ← io_effect io (λ f, f ++ [10]); mret st
               else load_loop fuel rd fails io st
           | Err error =>
               if reached_eof : bool then _ ← tail_repair (last_complete_offset st) io; mret st
               else throw error
           end
  end.

Definition load_history (rd : Reader) (io : IoEnd) : stm (list N) StoreError Loaded :=
  load_loop (S (length (concat (chunks rd)))) (chunks rd) (read_fails rd) io (mkLoaded [] ∅ [] 0).
End load.

(** ** Normalising twice *)

Section normalising.
Context `{HistoryValueLaws}.

Lemma sanitize_parts_idem parts clean : sanitize_parts parts = Some clean → sanitize_parts clean = Some clean.
Proof.
  revert clean. induction parts as [|[[t|c]|r] parts IH]; intros clean; cbn [sanitize_parts].
  - by intros [= <-].
  - intros (rest & Hp & ->)%fmap_Some. cbn [sanitize_parts]. by rewrite (IH _ Hp).
  - intros (rest & Hp & ->)%fmap_Some. cbn [sanitize_parts]. by rewrite (IH _ Hp).
  - destruct (decide _) as [|Hn]; [apply IH|].
    intros (r' & Hr & (rest & Hp & ->)%fmap_Some)%bind_Some.
    cbn [sanitize_parts]. destruct (reasoning_new_law _ _ _ Hr) as [-> ->].
    rewrite decide_False by done. by rewrite Hr; cbn [mbind option_bind]; rewrite (IH _ Hp).
Qed.

Lemma sanitize_assistant_idem a a' :
  sanitize_assistant a true = Some (Some a') → sanitize_assistant a' true = Some (Some a').
Proof.
  unfold sanitize_assistant. intros (c & Hc & (replay & Hr & Ha)%bind_Some)%bind_Some.
  assert (a' = mkAssistant replay c (fields a)) as -> by (destruct c, replay; by simplify_eq).
  cbn [content provider_replay fields]. rewrite (sanitize_parts_idem _ _ Hc). cbn [mbind option_bind].
  destruct (provider_replay a) as [rp|]; [|by simplify_eq; cbn; destruct c; simplify_eq].
  destruct (validate_history_replay rp c) eqn:Hv; [|done]. simplify_eq.
  rewrite Hv. cbn. by destruct c.
Qed.

Lemma normalize_idem items n : normalize_history items = Some n → normalize_history n = Some n.
Proof.
  unfold normalize_history. revert n.
  induction items as [|[id u|a|r|su] items IH]; intros n; cbn [normalize].
  - by intros [= <-].
  - intros (rest & Hp & ->)%fmap_Some. cbn [normalize]. by rewrite (IH _ Hp).
  - intros (sa & Ha & (rest & Hp & [= <-])%bind_Some)%bind_Some. destruct sa as [a'|]; [|by apply IH].
    cbn [normalize]. rewrite (sanitize_assistant_idem _ _ Ha). cbn [mbind option_bind]. by rewrite (IH _ Hp).
  - intros (rest & Hp & ->)%fmap_Some. cbn [normalize]. by rewrite (IH _ Hp).
  - intros (rest & Hp & ->)%fmap_Some. cbn [normalize]. by rewrite (IH _ Hp).
Qed.
End normalising.

Lemma normalized_user_times_valid `{HistoryValues} r :
  user_times_are_valid (with_metadata (normalized_user_times r) (interrupted r) r) = true.
Proof.
  unfold user_times_are_valid, normalized_user_times, user_count. cbn [with_metadata user_times items].
  destruct (user_times r) as [times|]; [|done]. destruct (decide _) as [|Hlen]; [done|].
  rewrite length_fmap, bool_decide_true by lia. cbn [andb].
  apply forallb_forall. intros t Ht%list_elem_of_In. apply list_elem_of_fmap in Ht as (t' & -> & _).
  destruct t' as [t'|]; [|done]. by destruct (valid_timestamp t') eqn:?.
Qed.

(** ** What a line of the file stands for *)

(** A line without its newline, the record it reads as, and the items of the record. *)
Record HistoryEntry `{HistoryValues} := mkHistoryEntry { entry_bytes : list N; entry_record : StoredLoopRecord; entry_items : list HistoryItem }.
Arguments mkHistoryEntry {_} _ _ _.

Section entries.
Context `{RecordCodec}.

Definition stored (e : HistoryEntry) : Prop :=
  record_from_slice (entry_bytes e) = Some (entry_record e) ∧
  normalize_history (items (entry_record e)) = Some (entry_items e) ∧
  10 ∉ entry_bytes e ∧ lenN (entry_bytes e) <= MAX_LOOP_RECORD_BYTES.

(** No beginning of the line is a record. *)
Definition unbroken (e : HistoryEntry) : Prop :=
  ∀ k, (k < length (entry_bytes e))%nat → record_from_slice (take k (entry_bytes e)) = None.

Definition entry_line (e : HistoryEntry) : list N := entry_bytes e ++ [10].
Definition flat (log : list HistoryEntry) : list N := log ≫= entry_line.

Definition load_entry (st : Loaded) (e : HistoryEntry) : Loaded :=
  load_record (entry_record e) (entry_items e) (entry_bytes e) st.
Definition load_log (log : list HistoryEntry) : Loaded := foldl load_entry (mkLoaded [] ∅ [] 0) log.

Lemma flat_app log log' : flat (log ++ log') = flat log ++ flat log'.
Proof. apply bind_app. Qed.

Lemma flat_length log : (length log <= length (flat log))%nat.
Proof.
  induction log as [|e log IH]; [done|]. unfold flat in *. cbn [mbind list_bind length]. unfold entry_line at 1.
  rewrite !length_app. cbn. lia.
Qed.
End entries.

Lemma stored_nonempty `{RecordCodecLaws} e : stored e → entry_bytes e ≠ [].
Proof. intros (Hp & _) He. by rewrite He, codec_empty in Hp. Qed.

(** What is written reads back as the same loop with the same items. *)
Lemma append_bytes_stored `{HistoryValueLaws, !RecordCodec, !RecordCodecLaws} record record' n bytes shed :
  append_bytes record = Ok (record', n, bytes, shed) →
  ∃ e, bytes = entry_line e ∧ stored e ∧ unbroken e ∧ entry_items e = n ∧
    normalize_history (items record) = Some n ∧
    loop_id (entry_record e) = loop_id record' ∧ usage (entry_record e) = usage record' ∧
    loop_id record' = loop_id record ∧ usage record' = usage record.
Proof.
  unfold append_bytes. intros Ha. res_inv. rename r into n0.
  set (rec := normalized_record record n0) in *.
  assert (Hn : normalize_history (items rec) = Some n0).
  { unfold rec, normalized_record. destruct (existsb _ _); [|done]. by apply normalize_idem in Hr. }
  assert (Hid : loop_id rec = loop_id record ∧ usage rec = usage record) by (unfold rec, normalized_record; by destruct (existsb _ _)).
  subst record' n0 bytes.
  assert (∃ t i, record_to_vec (with_metadata t i rec) = Some r1 ∧
                 user_times_are_valid (with_metadata t i rec) = true) as (t & i & Hvec & Hval).
  { destruct (_ && _); [apply ok_or_Ok in Hr1; by exists None, None|].
    injection Hr1 as <-. destruct (user_times_are_valid rec) eqn:Hv.
    - exists (user_times rec), (interrupted rec).
      assert (with_metadata (user_times rec) (interrupted rec) rec = rec) as -> by (by destruct rec). done.
    - exists (normalized_user_times rec), (interrupted rec). split; [done|]. apply normalized_user_times_valid. }
  exists (mkHistoryEntry r1 (with_metadata t i rec) n). cbn. destruct_and!.
  split_and!; try done.
  - split_and!; cbn; [by apply codec_roundtrip|done|by eapply codec_line|lia].
  - intros k Hk. by eapply codec_prefix.
Qed.

(** ** Reading does not depend on the chunks *)

Definition good_chunks (cs : list (list N)) : Prop := Forall (.≠ []) cs.

Lemma consume_concat k chunk rest : concat (consume k chunk rest) = drop k chunk ++ concat rest.
Proof. unfold consume. destruct (drop k chunk) eqn:E; [done|by rewrite <- E]. Qed.
Lemma consume_good k chunk rest : good_chunks rest → good_chunks (consume k chunk rest).
Proof. intros. unfold consume. destruct (drop k chunk) eqn:E; [done|by constructor]. Qed.

Lemma newline_Some chunk k : newline chunk = Some k →
  ∃ b, chunk = b ++ 10 :: drop (S k) chunk ∧ length b = k ∧ 10 ∉ b ∧ take k chunk = b.
Proof.
  unfold newline. intros ([i x] & Hf & ->)%fmap_Some. apply list_find_Some in Hf as (Hx & -> & Hbefore).
  exists (take i chunk). cbn. pose proof (lookup_lt_Some _ _ _ Hx).
  split_and!; [by rewrite take_drop_middle|rewrite length_take; lia| |done].
  intros (j & Hj)%list_elem_of_lookup_1. apply lookup_take_Some in Hj as [Hj ?]. by eapply (Hbefore j).
Qed.
Lemma newline_None chunk : newline chunk = None → 10 ∉ chunk.
Proof.
  unfold newline. intros Hf%fmap_None. apply list_find_None in Hf.
  intros Hin. by eapply (proj1 (Forall_forall _ _) Hf _ Hin).
Qed.

(** A newline splits a text in one way. *)
Lemma split_newline (a b a' b' : list N) : 10 ∉ a → 10 ∉ a' → a ++ 10 :: b = a' ++ 10 :: b' → a = a' ∧ b = b'.
Proof.
  revert a'. induction a as [|x a IH]; intros [|x' a'] Ha Ha' E; simplify_list_eq; [done|set_solver..|].
  destruct (IH a'); set_solver.
Qed.

(** A chunk without a newline is the beginning of the line. *)
Lemma chunk_prefix (ch more line rest : list N) :
  10 ∉ ch → ch ++ more = line ++ 10 :: rest → ∃ line', line = ch ++ line' ∧ more = line' ++ 10 :: rest.
Proof.
  intros Hnl Hcat. apply app_eq_inv in Hcat as [(k & -> & Hk)|(k & -> & Hk)]; [|by eexists].
  destruct k as [|x k]; [exists []; by rewrite !app_nil_r|]. exfalso. apply Hnl. injection Hk as <- _. set_solver.
Qed.

(** The buffer after the bytes [b] of a line, if they fit. *)
Definition buffered (b : list N) : LineBuffer := (b, lenN b, false).

Lemma extend_fits b chunk :
  lenN (b ++ chunk) <= MAX_LOOP_RECORD_BYTES → extend chunk (buffered b) = buffered (b ++ chunk).
Proof.
  intros Hlen. unfold extend, buffered. autorewrite with lens in *.
  assert (checked_add (lenN b) (lenN chunk) = Some (lenN b + lenN chunk)) as ->.
  { apply checked_add_Some. unfold MAX_LOOP_RECORD_BYTES, usize_max, u64_max in *. lia. }
  by rewrite decide_True.
Qed.

Lemma load_line_some cs b line rest :
  good_chunks cs → concat cs = line ++ 10 :: rest → 10 ∉ line → lenN (b ++ line) <= MAX_LOOP_RECORD_BYTES →
  ∃ cs', load_line cs false (buffered b) = Ok (false, buffered (b ++ line), cs') ∧
    good_chunks cs' ∧ concat cs' = rest.
Proof.
  revert b line. induction cs as [|chunk cs IH]; intros b line Hgood Hcat Hline Hlen;
    [by destruct line|].
  apply Forall_cons in Hgood as [Hne Hgood]. cbn [concat] in Hcat.
  destruct chunk as [|c chunk]; [done|]. set (ch := c :: chunk) in *. cbn [load_line].
  destruct (newline ch) as [k|] eqn:Hnl.
  - apply newline_Some in Hnl as (a & Hch & Hk & Ha & Htake).
    rewrite Hch, <- app_assoc in Hcat. cbn [app] in Hcat.
    apply split_newline in Hcat as [-> <-]; [|done..].
    exists (consume (S k) ch cs). unfold ch at 1. rewrite Htake, extend_fits by done.
    split_and!; [done|by apply consume_good|by rewrite consume_concat].
  - apply newline_None in Hnl.
    apply chunk_prefix in Hcat as (line' & -> & Hcat); [|done].
    assert (lenN (b ++ ch) <= MAX_LOOP_RECORD_BYTES) by (autorewrite with lens in *; lia).
    rewrite extend_fits by done.
    rewrite app_assoc in Hlen |- *. apply IH; [done|done|set_solver|done].
Qed.

Lemma load_line_none cs b line :
  good_chunks cs → concat cs = line → 10 ∉ line → lenN (b ++ line) <= MAX_LOOP_RECORD_BYTES →
  load_line cs false (buffered b) = Ok (true, buffered (b ++ line), []).
Proof.
  revert b line. induction cs as [|chunk cs IH]; intros b line Hgood Hcat Hline Hlen.
  { cbn in Hcat. subst line. by rewrite app_nil_r. }
  apply Forall_cons in Hgood as [Hne Hgood]. cbn [concat] in Hcat. subst line.
  destruct chunk as [|c chunk]; [done|]. set (ch := c :: chunk) in *. cbn [load_line].
  destruct (newline ch) as [k|] eqn:Hnl.
  { apply newline_Some in Hnl as (a & Hch & _). rewrite Hch in Hline. set_solver. }
  assert (lenN (b ++ ch) <= MAX_LOOP_RECORD_BYTES) by (autorewrite with lens in *; lia).
  rewrite extend_fits by done. rewrite app_assoc in Hlen |- *. apply IH; [done|done|set_solver|done].
Qed.

(** ** Loading a file of whole lines and an unfinished one *)

Section loading.
Context `{RecordCodec}.

Lemma load_loop_log log cs tail fuel io st f :
  Forall stored log → good_chunks cs → concat cs = flat log ++ tail →
  ∃ cs', load_loop (length log + fuel) cs false io st f = load_loop fuel cs' false io (foldl load_entry st log) f ∧
    good_chunks cs' ∧ concat cs' = tail.
Proof.
  revert cs st. induction log as [|e log IH]; intros cs st Hlog Hgood Hcat; [by exists cs|].
  apply Forall_cons in Hlog as [(Hparse & Hn & Hnl & Hlen) Hlog].
  unfold flat in Hcat. cbn [mbind list_bind] in Hcat. unfold entry_line at 1 in Hcat. rewrite <- !app_assoc in Hcat.
  cbn [app] in Hcat.
  destruct (load_line_some cs [] (entry_bytes e) _ Hgood Hcat Hnl Hlen) as (cs1 & Hload & Hgood1 & Hcat1).
  destruct (IH cs1 (load_entry st e) Hlog Hgood1 Hcat1) as (cs' & Hrun & ? & ?).
  exists cs'. split; [|done]. cbn [length Nat.add load_loop foldl]. rewrite <- Hrun.
  unfold mbind at 1, stm_bind at 1, lift.
  change (@nil N, 0, false) with (buffered []). rewrite Hload. cbn [app buffered].
  rewrite decide_False by naive_solver. unfold parse_record. rewrite Hparse. cbn [ok_or mbind result_bind].
  rewrite Hn. done.
Qed.

Lemma load_loop_end cs tail fuel io st f :
  good_chunks cs → concat cs = tail → 10 ∉ tail → lenN tail <= MAX_LOOP_RECORD_BYTES →
  load_loop (S fuel) cs false io st f =
    if decide (tail = []) then (f, Ok st)
    else match parse_record false tail with
         | Ok (record, normalized) =>
             (_ ← io_effect io (λ f, f ++ [10]); mret (load_record record normalized tail st)) f
         | Err _ => (_ ← tail_repair (last_complete_offset st) io; mret st) f
         end.
Proof.
  intros Hgood Hcat Hnl Hlen. cbn [load_loop]. unfold mbind at 1, stm_bind at 1, lift.
  change (@nil N, 0, false) with (buffered []).
  rewrite (load_line_none cs [] tail) by done. cbn [app buffered].
  destruct (decide (tail = [])) as [->|Hne]; [by rewrite decide_True|].
  rewrite decide_False; [|destruct tail; [done|]; autorewrite with lens; intros (_ & ? & _); lia].
  by destruct (parse_record false tail) as [[r n]|e].
Qed.

(** A read that fails changes nothing. *)
Lemma load_line_fails cs l eof l' cs' :
  good_chunks cs → load_line cs true l = Ok (eof, l', cs') → eof = false ∧ good_chunks cs'.
Proof.
  revert l. induction cs as [|c cs IH]; intros l Hgood; [done|].
  apply Forall_cons in Hgood as [Hne Hgood]. destruct c as [|x c]; [done|]. cbn [load_line].
  destruct (newline (x :: c)); [|by apply IH]. intros [= <- <- <-]. split; [done|by apply consume_good].
Qed.

Lemma load_loop_fails fuel cs io st f :
  good_chunks cs → ∃ e, load_loop fuel cs true io st f = (f, Err e).
Proof.
  revert cs st. induction fuel as [|fuel IH]; intros cs st Hgood; [by eexists|].
  cbn [load_loop]. unfold mbind at 1, stm_bind at 1, lift.
  destruct (load_line cs true ([], 0, false)) as [[[eof l] cs']|e] eqn:Hl; [|by eexists].
  apply load_line_fails in Hl as [-> Hgood']; [|done]. destruct l as [[b n] o].
  rewrite decide_False by naive_solver.
  destruct (parse_record o b) as [[r n']|e]; [by apply IH|by eexists].
Qed.

(** ** What the loaded state says *)

Lemma foldl_load_items st log :
  loaded_items (foldl load_entry st log) = loaded_items st ++ concat (entry_items <$> log) ∧
  last_complete_offset (foldl load_entry st log) = last_complete_offset st + lenN (flat log).
Proof.
  revert st. induction log as [|e log IH]; intros st; cbn [foldl].
  - cbn. rewrite app_nil_r. autorewrite with lens. split; [done|lia].
  - destruct (IH (load_entry st e)) as [-> ->]. cbn. rewrite <- app_assoc.
    unfold flat, entry_line at 2. cbn. autorewrite with lens. split; [done|lia].
Qed.

Lemma load_log_items log : loaded_items (load_log log) = concat (entry_items <$> log).
Proof. by destruct (foldl_load_items (mkLoaded [] ∅ [] 0) log). Qed.
Lemma load_log_offset log : last_complete_offset (load_log log) = lenN (flat log).
Proof. by destruct (foldl_load_items (mkLoaded [] ∅ [] 0) log). Qed.
Lemma load_log_snoc log e : load_log (log ++ [e]) = load_entry (load_log log) e.
Proof. unfold load_log. by rewrite foldl_app. Qed.

(** The index line of a beginning of the history. *)
Definition covered_of (log : list HistoryEntry) : CoveredUsage :=
  foldl (λ c e, covered_add (loop_id (entry_record e)) (usage (entry_record e)) c) CoveredUsage_default log.
Definition all_items (log : list HistoryEntry) : list HistoryItem := concat (entry_items <$> log).
Definition line_of (log : list HistoryEntry) : HistoryLine :=
  mkLine (lenN (flat log)) (lenN (all_items log)) (flat log) (covered_of log).

Lemma all_items_app log log' : all_items (log ++ log') = all_items log ++ all_items log'.
Proof. unfold all_items. by rewrite fmap_app, concat_app. Qed.

Lemma load_log_index log : loaded_index (load_log log) = imap (λ i _, line_of (take (S i) log)) log.
Proof.
  induction log as [|e log IH] using rev_ind; [done|].
  rewrite load_log_snoc, imap_app. cbn [load_entry load_record loaded_index]. unfold load_entry, load_record. cbn [loaded_index].
  assert (Hpre : imap (λ i _, line_of (take (S i) (log ++ [e]))) log = loaded_index (load_log log)).
  { rewrite IH. apply list_eq. intros i. rewrite !list_lookup_imap.
    destruct (log !! i) eqn:E; [|done]. cbn. apply lookup_lt_Some in E. by rewrite take_app_le by lia. }
  rewrite Hpre. unfold index_line. f_equal. cbn [imap]. rewrite Nat.add_0_r, take_ge by (rewrite length_app; cbn; lia).
  assert (Hlast : default (mkLine 0 0 [] CoveredUsage_default) (last (loaded_index (load_log log))) = line_of log).
  { rewrite IH. destruct log as [|e' log] using rev_ind; [done|].
    rewrite imap_app, last_app. cbn. by rewrite take_ge by (rewrite length_app; cbn; lia). }
  rewrite Hlast. unfold line_of. cbn [line_end line_items line_hash line_usage].
  rewrite flat_app, all_items_app. unfold all_items at 2, covered_of. rewrite foldl_app. cbn.
  rewrite !app_nil_r. unfold entry_line. rewrite !lenN_app. unfold lenN. done.
Qed.

Lemma load_log_index_lookup log i :
  loaded_index (load_log log) !! i = (λ _, line_of (take (S i) log)) <$> log !! i.
Proof. by rewrite load_log_index, list_lookup_imap. Qed.
Lemma load_log_index_length log : length (loaded_index (load_log log)) = length log.
Proof. by rewrite load_log_index, length_imap. Qed.
Lemma load_log_index_take log k :
  take k (loaded_index (load_log log)) = loaded_index (load_log (take k log)).
Proof.
  apply list_eq. intros i. rewrite load_log_index_lookup.
  destruct (decide (i < k)%nat).
  - rewrite !lookup_take_lt by done. rewrite load_log_index_lookup.
    destruct (log !! i); [|done]. cbn. by rewrite take_take, Nat.min_l by lia.
  - rewrite !lookup_take_ge by lia. done.
Qed.
End loading.
