(* ===== verification/HistoryDurable.v ===== *)
(** Durability of a session's history.

    A session is opened, appends turns and is closed; the process may die at any
    moment, in the middle of a write included, and every file operation may fail.  The
    theorems: what was acknowledged is never lost, a turn that was refused never
    appears, a torn line is never read, the history in memory is the history a later
    load reads, and a load whose own input and output works succeeds. *)

From S2P Require Import Prelude RustStr Time Usage History.
Open Scope N_scope.

(** What the caller of an append was told; [Doubt] when it was told nothing definite. *)
Inductive Verdict := Saved | Refused | InDoubt.

Section system.
Context `{RecordCodec}.

(** [inner.history] and [inner.blocked] of a loaded session. *)
Record Live := mkLive { live_history : list HistoryItem; live_blocked : bool }.

Record System := mkSystem {
  disk : HistoryFile;
  live : option Live;
  attempts : list (StoredLoopRecord * Verdict)
}.

(** [persist_report] of [sessions/active_loop.rs]: the history grows when the append
    returned, the session is blocked when its outcome is unknown. *)
Definition persist_report (stored : StoredLoopRecord) (sanitized : list HistoryItem) (io : AppendIo)
    (d : HistoryFile) (l : Live) : HistoryFile * Live * Verdict :=
  match append_loop stored io d with
  | (d, Ok _) => (d, mkLive (live_history l ++ sanitized) false, Saved)
  | (d, Err Unknown) => (d, mkLive (live_history l) true, InDoubt)
  | (d, Err (NotWritten _)) => (d, l, Refused)
  end.

(** What reading a file may yield: all of it in chunks, or an error after some. *)
Definition reads (rd : Reader) (f : list N) : Prop :=
  good_chunks (chunks rd) ∧
  if read_fails rd then concat (chunks rd) `prefix_of` f else concat (chunks rd) = f.

(** [open_session]: load the file and install the index. *)
Definition open_session (rd : Reader) (io : IoEnd) (d : HistoryFile) : HistoryFile * option Live :=
  match load_history rd io (file d) with
  | (f, Ok st) => (mkFile f (Some (loaded_index st)), Some (mkLive (loaded_items st) false))
  | (f, Err _) => (mkFile f (history_index d), None)
  end.

Inductive step : System → System → Prop :=
  | step_open y rd io d l :
      live y = None → reads rd (file (disk y)) → open_session rd io (disk y) = (d, l) →
      step y (mkSystem d l (attempts y))
  | step_turn y l appended sanitized stored io d l' v :
      live y = Some l → live_blocked l = false →
      normalize_history appended = Some sanitized → items stored = sanitized →
      persist_report stored sanitized io (disk y) l = (d, l', v) →
      step y (mkSystem d (Some l') (attempts y ++ [(stored, v)]))
  | step_crash_writing y l appended stored bytes record n shed k :
      live y = Some l → live_blocked l = false →
      normalize_history appended = Some (items stored) →
      append_bytes stored = Ok (record, n, bytes, shed) →
      step y (mkSystem (mkFile (file (disk y) ++ take k bytes) None) None (attempts y ++ [(stored, InDoubt)]))
  | step_close y :
      step y (mkSystem (mkFile (file (disk y)) None) None (attempts y)).

(** A new session has an empty file, [create_session] of [store.rs]. *)
Definition new_session : System := mkSystem (mkFile [] None) None [].
Definition reachable (y : System) : Prop := rtc step new_session y.

(** [kept attempts L]: every acknowledged turn is in [L], no refused one is, one in
    doubt may be, and they are in the order of the attempts. *)
Inductive kept : list (StoredLoopRecord * Verdict) → list (list HistoryItem) → Prop :=
  | kept_nil : kept [] []
  | kept_in a L r v : kept a L → v ≠ Refused → kept (a ++ [(r, v)]) (L ++ [items r])
  | kept_out a L r v : kept a L → v ≠ Saved → kept (a ++ [(r, v)]) L.

(** The whole lines of the file, and its unfinished end: the beginning of a line whose
    turn is in doubt. *)
Definition tail_of (a : list (StoredLoopRecord * Verdict)) (log : list HistoryEntry) (tail : list N) : Prop :=
  tail = [] ∨ ∃ e k, stored e ∧ unbroken e ∧ tail = take k (entry_line e) ∧
                     kept a ((entry_items <$> log) ++ [entry_items e]).

Record durable (y : System) (log : list HistoryEntry) : Prop := {
  durable_stored : Forall stored log;
  durable_file : ∃ tail, file (disk y) = flat log ++ tail ∧ tail_of (attempts y) log tail ∧
    match live y with Some l => live_blocked l = false → tail = [] | None => True end;
  durable_kept : kept (attempts y) (entry_items <$> log);
  durable_live : match live y with
                 | Some l => live_history l = concat (entry_items <$> log) ∧
                             history_index (disk y) = Some (loaded_index (load_log log))
                 | None => history_index (disk y) = None
                 end
}.

End system.

Section preserved.
Context `{HV : HistoryValueLaws, RC : !RecordCodec, !RecordCodecLaws}.

(** *** Loading *)

(** A beginning of a line that is not all of it. *)
Lemma take_entry e k :
  take k (entry_line e) = entry_line e ∨
  (take k (entry_line e) = take k (entry_bytes e) ∧ (k <= length (entry_bytes e))%nat).
Proof.
  unfold entry_line. destruct (decide (k <= length (entry_bytes e))%nat).
  - right. split; [by rewrite take_app_le by lia|done].
  - left. apply take_ge. rewrite length_app. cbn. lia.
Qed.

Lemma io_effect_run {A} io g (x : A) f :
  (_ ← io_effect io g; mret x) f =
    match io with IoDone => (g f, Ok x) | IoLost => (f, Err Unavailable) | IoApplied => (g f, Err Unavailable) end.
Proof. by destruct io. Qed.

(** The end of the loop, on the beginning of a line: a whole line gets its newline, a
    torn one is cut off. *)
Lemma load_tail log e k io :
  stored e → unbroken e → (k <= length (entry_bytes e))%nat →
  let tail := take k (entry_bytes e) in
  match parse_record false tail with
  | Ok (record, normalized) =>
      (_ ← io_effect io (λ f, f ++ [10]); mret (load_record record normalized tail (load_log log))) (flat log ++ tail)
  | Err _ => (_ ← tail_repair (last_complete_offset (load_log log)) io; mret (load_log log)) (flat log ++ tail)
  end =
  let log' := if decide (k = length (entry_bytes e)) then log ++ [e] else log in
  match io with
  | IoDone => (flat log', Ok (load_log log'))
  | IoLost => (flat log ++ tail, Err Unavailable)
  | IoApplied => (flat log', Err Unavailable)
  end.
Proof.
  intros (Hparse & Hn & _) Hun Hk tail. unfold tail. destruct (decide (k = _)) as [->|Hlt].
  - rewrite take_ge by lia. unfold parse_record. rewrite Hparse. cbn [ok_or mbind result_bind].
    rewrite Hn. cbn [mbind result_bind ok_or]. rewrite load_log_snoc, flat_app, io_effect_run.
    destruct io; [|done|]; cbn; unfold entry_line; by rewrite ?app_nil_r, <- ?app_assoc.
  - unfold parse_record. rewrite Hun by lia. cbn [ok_or mbind result_bind].
    unfold tail_repair. rewrite load_log_offset. unfold lenN. rewrite Nat2N.id, io_effect_run.
    by rewrite take_app_length.
Qed.

Lemma tail_of_take a log e k :
  stored e → unbroken e → kept a ((entry_items <$> log) ++ [entry_items e]) →
  tail_of a log (take k (entry_line e)).
Proof. intros. right. by exists e, k. Qed.

(** What loading a durable file does: [log'] is the log afterwards. *)
Definition loads_as (a : list (StoredLoopRecord * Verdict)) (log : list HistoryEntry) (io : IoEnd)
    (out : list N * result StoreError Loaded) : Prop :=
  ∃ log', log `prefix_of` log' ∧ Forall stored log' ∧ kept a (entry_items <$> log') ∧
    match out with
    | (f', Ok st) => f' = flat log' ∧ st = load_log log'
    | (f', Err _) => io ≠ IoDone ∧ ∃ tail', f' = flat log' ++ tail' ∧ tail_of a log' tail'
    end.

Lemma loads_tail a log e k io :
  Forall stored log → stored e → unbroken e → kept a (entry_items <$> log) →
  kept a ((entry_items <$> log) ++ [entry_items e]) →
  (k <= length (entry_bytes e))%nat →
  let log' := if decide (k = length (entry_bytes e)) then log ++ [e] else log in
  loads_as a log io
    match io with
    | IoDone => (flat log', Ok (load_log log'))
    | IoLost => (flat log ++ take k (entry_bytes e), Err Unavailable)
    | IoApplied => (flat log', Err Unavailable)
    end.
Proof.
  intros Hlog He Hun Hkept Hdoubt Hk log'.
  assert (Hlog' : log `prefix_of` log' ∧ Forall stored log' ∧ kept a (entry_items <$> log')).
  { unfold log'. destruct (decide _); [|done]. rewrite fmap_app.
    split_and!; [by apply prefix_app_r|apply Forall_app; auto|done]. }
  destruct Hlog' as (? & ? & ?). destruct io.
  - by exists log'.
  - exists log. do 4 (split; [done|]). exists (take k (entry_bytes e)). split; [done|].
    assert (take k (entry_bytes e) = take k (entry_line e)) as -> by (unfold entry_line; by rewrite take_app_le by lia).
    by apply tail_of_take.
  - exists log'. do 4 (split; [done|]). exists []. rewrite app_nil_r. split; [done|by left].
Qed.

(** Running the loop over the whole lines first. *)
Lemma load_history_lines rd io log tail :
  Forall stored log → good_chunks (chunks rd) → concat (chunks rd) = flat log ++ tail → read_fails rd = false →
  10 ∉ tail → lenN tail <= MAX_LOOP_RECORD_BYTES →
  load_history rd io (flat log ++ tail) =
    if decide (tail = []) then (flat log ++ tail, Ok (load_log log))
    else match parse_record false tail with
         | Ok (record, normalized) =>
             (_ ← io_effect io (λ f, f ++ [10]); mret (load_record record normalized tail (load_log log))) (flat log ++ tail)
         | Err _ => (_ ← tail_repair (last_complete_offset (load_log log)) io; mret (load_log log)) (flat log ++ tail)
         end.
Proof.
  intros Hlog Hgood Hcat Hok Hnl Hlen. unfold load_history. rewrite Hok, Hcat, length_app.
  pose proof (flat_length log) as Hl.
  replace (S (length (flat log) + length tail)) with
    (length log + S (length (flat log) + length tail - length log))%nat by lia.
  destruct (load_loop_log log (chunks rd) tail (S (length (flat log) + length tail - length log)) io
    (mkLoaded [] ∅ [] 0) (flat log ++ tail)) as (cs & -> & Hg & Hc); [done..|].
  by rewrite load_loop_end with (tail := tail).
Qed.

Lemma load_history_durable rd io log tail a :
  Forall stored log → tail_of a log tail → kept a (entry_items <$> log) →
  good_chunks (chunks rd) → concat (chunks rd) = flat log ++ tail → read_fails rd = false →
  loads_as a log io (load_history rd io (flat log ++ tail)).
Proof.
  intros Hlog Htail Hkept Hgood Hcat Hok.
  assert (Hwhole : ∀ log', log `prefix_of` log' → Forall stored log' → kept a (entry_items <$> log') →
    concat (chunks rd) = flat log' → loads_as a log io (load_history rd io (flat log'))).
  { intros log' Hpre Hlog' Hkept' Hcat'. pose proof (load_history_lines rd io log' []) as Hrun.
    rewrite app_nil_r in Hrun. rewrite Hrun by (done || set_solver || by vm_compute).
    rewrite decide_True by done. by exists log'. }
  destruct Htail as [->|(e & k & He & Hun & -> & Hdoubt)].
  { rewrite app_nil_r in *. by apply Hwhole. }
  destruct (take_entry e k) as [E|[E Hk]]; rewrite E in *.
  - assert (Hfl : flat log ++ entry_line e = flat (log ++ [e])) by (rewrite flat_app; cbn; by rewrite app_nil_r).
    rewrite Hfl in *. apply Hwhole; [by apply prefix_app_r|apply Forall_app; auto|by rewrite fmap_app|done].
  - pose proof He as (_ & _ & Hnl & Hmax).
    rewrite load_history_lines; [|done..| |]; cycle 1.
    { intros Hin. apply Hnl. rewrite <- (take_drop k). set_solver. }
    { unfold lenN in *. rewrite length_take. lia. }
    destruct (decide (take k _ = [])) as [E0|Hne].
    { rewrite E0 in *. exists log. by rewrite app_nil_r. }
    rewrite load_tail by done. by apply loads_tail.
Qed.

(** *** Appending *)

Lemma persist_report_run stored sanitized io d l :
  persist_report stored sanitized io d l =
    match append_bytes stored with
    | Err _ => (d, l, Refused)
    | Ok (record, n, bytes, _) =>
        match io with
        | AppendMissing _ | AppendRefused | AppendTorn _ IoDone => (d, l, Refused)
        | AppendWritten =>
            (mkFile (file d ++ bytes) ((λ index, index_line index bytes record (length n)) <$> history_index d),
             mkLive (live_history l ++ sanitized) false, Saved)
        | AppendTorn k IoLost => (mkFile (file d ++ take k bytes) (history_index d), mkLive (live_history l) true, InDoubt)
        | AppendTorn k IoApplied => (d, mkLive (live_history l) true, InDoubt)
        end
    end.
Proof.
  unfold persist_report, append_loop, rollback_append, mbind, stm_bind, lift, get, modify, throw, mret, stm_ret.
  destruct d as [f index]. destruct (append_bytes stored) as [[[[record n] bytes] shed]|e]; cbn.
  - destruct io as [| | |k []]; cbn; by rewrite ?take_app_length.
  - by destruct io.
Qed.

(** The entry a successful append adds, against the items the session keeps. *)
Lemma turn_entry appended stored_record record n bytes shed :
  normalize_history appended = Some (items stored_record) →
  append_bytes stored_record = Ok (record, n, bytes, shed) →
  ∃ e, bytes = entry_line e ∧ stored e ∧ unbroken e ∧ entry_items e = items stored_record ∧ n = items stored_record ∧
    ∀ index k, index_line index bytes record k = index_line index bytes (entry_record e) k.
Proof.
  intros Hnorm (e & -> & He & Hun & <- & Hn & Hid & Husage & _)%append_bytes_stored.
  apply normalize_idem in Hnorm. simplify_eq. exists e. split_and!; try done.
  intros index k. unfold index_line. by rewrite Hid, Husage.
Qed.

(** A line that was begun: all of it may be there, or nothing. *)
Lemma durable_doubt y log tail appended r record n bytes shed k l d :
  durable y log → file (disk y) = flat log ++ tail → tail = [] →
  normalize_history appended = Some (items r) → append_bytes r = Ok (record, n, bytes, shed) →
  file d = file (disk y) ++ take k bytes →
  match l with
  | Some l => live_blocked l = true ∧ live_history l = concat (entry_items <$> log) ∧
              history_index d = Some (loaded_index (load_log log))
  | None => history_index d = None
  end →
  durable (mkSystem d l (attempts y ++ [(r, InDoubt)])) log.
Proof.
  intros [Hst _ Hk _] Hf -> Hnorm Hb Hd Hl.
  destruct (turn_entry _ _ _ _ _ _ Hnorm Hb) as (e & -> & He & Hun & Hitems & _).
  split; cbn; [done| |by apply kept_out|by destruct l as [l|]; [destruct Hl as (_ & ? & ?)|]].
  exists (take k (entry_line e)). rewrite Hd, Hf, app_nil_r. split_and!; [done| |by destruct l as [l|]; [destruct Hl as (-> & _)|]].
  right. exists e, k. split_and!; [done..|]. rewrite Hitems. by apply kept_in.
Qed.

Lemma durable_refused y log l r :
  durable y log → live y = Some l → live_blocked l = false →
  durable (mkSystem (disk y) (Some l) (attempts y ++ [(r, Refused)])) log.
Proof.
  intros [Hst (tail & Hf & _ & Ht) Hk Hlive] Hl Hb. rewrite Hl in *. rewrite (Ht Hb) in Hf.
  split; cbn; [done| |by apply kept_out|done].
  exists []. split_and!; [done|by left|done].
Qed.

Lemma step_durable y y' log :
  durable y log → step y y' → ∃ log', log `prefix_of` log' ∧ durable y' log'.
Proof.
  intros Hy Hstep. pose proof Hy as [Hst (tail & Hf & Htail & Hclean) Hk Hlive].
  inversion Hstep as [? rd io d l Hnone [Hgood Hreads] Hopen|? l appended sanitized r io d l' v Hl Hb Hn Hitems Hp
    |? l appended r bytes record n shed k Hl Hb Hn Happ|]; subst.
  - rewrite Hnone in *. unfold open_session in Hopen. destruct (read_fails rd) eqn:Hfails.
    + exists log. split; [done|].
      unfold load_history in Hopen. rewrite Hfails in Hopen.
      destruct (load_loop_fails (S (length (concat (chunks rd)))) (chunks rd) io (mkLoaded [] ∅ [] 0)
        (file (disk y)) Hgood) as [e Hrun].
      rewrite Hrun in Hopen. simplify_eq. split; cbn; [done| |done|done]. by exists tail.
    + pose proof (load_history_durable rd io log tail (attempts y) Hst Htail Hk Hgood) as Hload.
      rewrite <- Hf in Hload. destruct (Hload Hreads Hfails) as (log' & Hpre & Hst' & Hk' & Hout).
      exists log'. split; [done|].
      destruct (load_history rd io (file (disk y))) as [f' [st|e]]; simplify_eq.
      * destruct Hout as [-> ->]. split; cbn; [done| |done|].
        -- exists []. rewrite app_nil_r. split_and!; [done|by left|done].
        -- by rewrite load_log_items.
      * destruct Hout as (_ & tail' & -> & ?). split; cbn; [done| |done|done]. by exists tail'.
  - rewrite Hl in *. specialize (Hclean Hb). destruct Hlive as [Hhist Hindex].
    rewrite persist_report_run in Hp.
    destruct (append_bytes r) as [[[[record n] bytes] shed]|e] eqn:Happ;
      [|simplify_eq; exists log; split; [done|by apply durable_refused]].
    destruct io as [| | |k []]; simplify_eq;
      try (by exists log; split; [done|by apply durable_refused]).
    + destruct (turn_entry _ _ _ _ _ _ Hn Happ) as (e & -> & He & Hun & Hitems & -> & Hindex_line).
      exists (log ++ [e]). split; [by apply prefix_app_r|].
      split; cbn.
      * apply Forall_app. auto.
      * exists []. rewrite Hf, flat_app. cbn. rewrite !app_nil_r. split_and!; [done|by left|done].
      * rewrite fmap_app. cbn. rewrite Hitems. by apply kept_in.
      * rewrite Hindex, Hhist, fmap_app, concat_app, load_log_snoc. cbn.
        rewrite Hitems, app_nil_r, Hindex_line. done.
    + exists log. split; [done|]. by eapply durable_doubt.
    + exists log. split; [done|]. eapply durable_doubt with (k := O); try done. cbn. by rewrite app_nil_r.
  - rewrite Hl in *. specialize (Hclean Hb).
    exists log. split; [done|]. by eapply durable_doubt.
  - exists log. split; [done|]. split; cbn; [done| |done|done]. by exists tail.
Qed.

Lemma durable_new : durable new_session [].
Proof. split; cbn; [done| |constructor|done]. exists []. split_and!; [done|by left|done]. Qed.

Lemma steps_durable y y' log :
  rtc step y y' → durable y log → ∃ log', log `prefix_of` log' ∧ durable y' log'.
Proof.
  intros Hrun. revert log. induction Hrun as [|y y1 y' Hs _ IH]; intros log Hy; [by exists log|].
  destruct (step_durable _ _ _ Hy Hs) as (log1 & Hp1 & H1). destruct (IH _ H1) as (log' & Hp & ?).
  exists log'. split; [by trans log1|done].
Qed.

Lemma live_log y log l : durable y log → live y = Some l → live_history l = concat (entry_items <$> log).
Proof. intros [_ _ _ Hl] E. rewrite E in Hl. by destruct Hl. Qed.

Lemma concat_prefix {A} (L L' : list (list A)) : L `prefix_of` L' → concat L `prefix_of` concat L'.
Proof. intros [K ->]. rewrite concat_app. by apply prefix_app_r. Qed.

(** C27 Whatever fails and whenever the process dies, the history a session shows is made
    of the turns whose appends were acknowledged, with none missing, and possibly of
    turns whose append ended in doubt, each whole and in order; a turn that was refused
    is never in it.  And what a session once showed, it shows ever after: the history
    only grows, across every crash, close and reopening. *)
Theorem history_durable y y' l' :
  reachable y → rtc step y y' → live y' = Some l' →
  (∃ L, kept (attempts y') L ∧ live_history l' = concat L) ∧
  ∀ l, live y = Some l → live_history l `prefix_of` live_history l'.
Proof.
  intros Hy Hrun Hl'. destruct (steps_durable _ _ _ Hy durable_new) as (log & _ & Hlog).
  destruct (steps_durable _ _ _ Hrun Hlog) as (log' & Hpre & Hlog').
  rewrite (live_log _ _ _ Hlog' Hl'). split.
  - exists (entry_items <$> log'). by destruct Hlog'.
  - intros l Hl. rewrite (live_log _ _ _ Hlog Hl). apply concat_prefix. destruct Hpre as [K ->].
    rewrite fmap_app. by apply prefix_app_r.
Qed.

(** C28 A session can always be opened again: in every reachable state a load whose own
    reads and repairs work returns, however the file is cut into chunks; it leaves
    whole lines behind, and its history is every acknowledged turn and possibly turns
    in doubt. *)
Theorem history_reopens y rd :
  reachable y → good_chunks (chunks rd) → concat (chunks rd) = file (disk y) → read_fails rd = false →
  ∃ log, load_history rd IoDone (file (disk y)) = (flat log, Ok (load_log log)) ∧ Forall stored log ∧
    kept (attempts y) (entry_items <$> log) ∧
    loaded_items (load_log log) = concat (entry_items <$> log) ∧
    ∀ l, live y = Some l → live_history l `prefix_of` loaded_items (load_log log).
Proof.
  intros Hy Hgood Hcat Hok. destruct (steps_durable _ _ _ Hy durable_new) as (log & _ & Hlog).
  pose proof Hlog as [Hst (tail & Hf & Htail & _) Hk _].
  destruct (load_history_durable rd IoDone log tail (attempts y)) as (log' & Hpre & Hst' & Hk' & Hout);
    [done..|by rewrite Hcat|done|].
  rewrite Hf. destruct (load_history rd IoDone _) as [f' [st|e]]; [|by destruct Hout].
  destruct Hout as [-> ->]. exists log'. split_and!; [done..|apply load_log_items|].
  intros l Hl. rewrite load_log_items, (live_log _ _ _ Hlog Hl). apply concat_prefix.
  destruct Hpre as [K ->]. rewrite fmap_app. by apply prefix_app_r.
Qed.
End preserved.

(** ** A concrete session *)

Module DurableSample.
#[local] Instance sample_values : HistoryValues := {
  UserInput := unit; CallContent := unit; ResultContent := unit; SummaryContent := unit;
  AssistantFields := unit; ProviderReplay := unit; ReasoningContent := option str * option str;
  r_text := fst; r_summary := snd; reasoning_new t s := Some (t, s);
  validate_history_replay _ _ := true;
  LoopOutcome := unit; InterruptedRequest := unit; ConfigRevision := unit
}.
#[local] Instance sample_value_laws : HistoryValueLaws.
Proof. by intros t s r [= <-]. Qed.

#[local] Instance AssistantHistory_eq_dec : EqDecision (@AssistantHistory sample_values).
Proof. unfold EqDecision. intros [? ? ?] [? ? ?]. unfold Decision. cbn in *. decide equality; solve_decision. Defined.
#[local] Instance HistoryItem_eq_dec : EqDecision (@HistoryItem sample_values).
Proof.
  unfold EqDecision, Decision. intros x y. decide equality; cbn in *;
    try apply (decide_rel (=)); try (apply AssistantHistory_eq_dec); try (destruct input, input0; by left);
    destruct r, r0 || destruct s, s0; by left.
Defined.
#[local] Instance StoredLoopRecord_eq_dec : EqDecision (@StoredLoopRecord sample_values).
Proof.
  intros [i1 [] t1 u1 q1 n1 [] c1 a1 p1] [i2 [] t2 u2 q2 n2 [] c2 a2 p2].
  destruct (decide ((i1, t1, u1, q1, n1) = (i2, t2, u2, q2, n2) ∧ (c1, a1) = (c2, a2) ∧ p1 = p2)) as [E|E].
  - left. destruct E as (E1 & E2 & ->). by injection E1 as -> -> -> -> ->; injection E2 as -> ->.
  - right. intros E'. apply E. by injection E' as -> -> -> -> -> -> -> ->.
Defined.

Definition record (id : N) : StoredLoopRecord :=
  mkRecord id tt [User id tt] (mkUsage (Some 7) None None None None None) 1 0 tt [] (Some [None]) None.
Definition text (id : N) : list N := lit "{" ++ show_N id ++ lit "}".

(** A codec for two records. *)
#[local] Instance sample_codec : RecordCodec := {
  record_to_vec r := if decide (r = record 1) then Some (text 1)
                     else if decide (r = record 2) then Some (text 2) else None;
  record_from_slice b := if decide (b = text 1) then Some (record 1)
                         else if decide (b = text 2) then Some (record 2) else None
}.
Lemma sample_codec_cases r b : record_to_vec r = Some b → (r = record 1 ∧ b = text 1) ∨ (r = record 2 ∧ b = text 2).
Proof. cbn. repeat case_decide; naive_solver. Qed.
#[local] Instance sample_codec_laws : RecordCodecLaws.
Proof.
  split.
  - by intros r b [[-> ->]|[-> ->]]%sample_codec_cases _.
  - intros r b [[_ ->]|[_ ->]]%sample_codec_cases; by_compute.
  - done.
  - intros r b k [[_ ->]|[_ ->]]%sample_codec_cases Hk;
      change (k < 3)%nat in Hk; do 3 (destruct k as [|k]; [done|]); lia.
Qed.

(** The first turn is saved; the process dies with the second turn on disk but for its
    newline; the next load finds it. *)
Definition opened : System := mkSystem (mkFile [] (Some [])) (Some (mkLive [] false)) [].
Definition saved : System :=
  mkSystem (mkFile (text 1 ++ [10]) (Some (loaded_index (load_log [mkHistoryEntry (text 1) (record 1) [User 1 tt]]))))
    (Some (mkLive [User 1 tt] false)) [(record 1, Saved)].
Definition died : System :=
  mkSystem (mkFile (text 1 ++ [10] ++ text 2) None) None [(record 1, Saved); (record 2, InDoubt)].
Definition reopened : System :=
  mkSystem (mkFile (text 1 ++ [10] ++ text 2 ++ [10])
              (Some (loaded_index (load_log [mkHistoryEntry (text 1) (record 1) [User 1 tt]; mkHistoryEntry (text 2) (record 2) [User 2 tt]]))))
    (Some (mkLive [User 1 tt; User 2 tt] false)) [(record 1, Saved); (record 2, InDoubt)].

Lemma opened_step : step new_session opened.
Proof.
  apply (step_open new_session (mkReader [] false) IoDone (disk opened) (live opened)); [done| |by vm_compute].
  split; [by constructor|done].
Qed.
Lemma saved_step : step opened saved.
Proof.
  by apply (step_turn opened (mkLive [] false) (items (record 1)) (items (record 1)) (record 1) AppendWritten
    (disk saved) (mkLive (items (record 1)) false) Saved).
Qed.
Lemma died_step : step saved died.
Proof.
  by apply (step_crash_writing saved (mkLive (items (record 1)) false) (items (record 2)) (record 2) (text 2 ++ [10])
    (record 2) (items (record 2)) false 3).
Qed.
Lemma reopened_step : step died reopened.
Proof.
  apply (step_open died (mkReader [take 5 (file (disk died)); drop 5 (file (disk died))] false) IoDone
    (disk reopened) (live reopened)); [done| |by vm_compute].
  split; [by repeat constructor|done].
Qed.

Example history_durable_witness :
  reachable saved ∧ rtc step saved reopened ∧ (items (record 1)) `prefix_of` (items (record 1) ++ items (record 2)).
Proof.
  assert (Hs : reachable saved) by (eapply rtc_l; [apply opened_step|]; eapply rtc_l; [apply saved_step|]; constructor).
  assert (Hr : rtc step saved reopened) by (eapply rtc_l; [apply died_step|]; eapply rtc_l; [apply reopened_step|]; constructor).
  split_and!; [done..|].
  by apply (proj2 (history_durable saved reopened _ Hs Hr eq_refl) (mkLive (items (record 1)) false)).
Defined.

Example history_reopens_witness :
  ∃ log, load_history (mkReader [file (disk died)] false) IoDone (file (disk died)) = (flat log, Ok (load_log log)) ∧
    kept (attempts died) (entry_items <$> log).
Proof.
  assert (Hd : reachable died).
  { eapply rtc_l; [apply opened_step|]; eapply rtc_l; [apply saved_step|]; eapply rtc_l; [apply died_step|]; constructor. }
  destruct (history_reopens died (mkReader [file (disk died)] false) Hd) as (log & Hl & _ & Hk & _).
  - by repeat constructor.
  - done.
  - done.
  - by exists log.
Defined.
End DurableSample.
