(* ===== verification/HistoryPage.v ===== *)
(** Reading pages of a session's history, [store/history.rs].

    A loaded session keeps an index of its lines and reads only the lines of a page;
    without one the file is scanned from the start.  A client pins the prefix it read
    by its length and hash.  The encoded items of a display read are left out.  The
    theorems: both ways return the same slice of the history that is pinned or that the
    loaded session shows, with the usage below a boundary and the check of a summary,
    and a pinned page never changes while the history grows. *)

From S2P Require Import Prelude RustStr Time Usage History HistoryDurable.
Open Scope N_scope.

Section page.
Context `{RecordCodec}.
(** SHA-256. *)
Context (sha256 : list N → list N).

Record HistoryScanLimits := mkLimits {
  max_bytes : N;
  max_lines : N;
  (** The deadline and the cancellation, asked at a place in the input. *)
  expired : list (list N) → bool
}.

Record HistoryPrefix := mkPrefix {
  prefix_bytes : N; covered_loop_count : N; covered_item_count : N; prefix_last : option N; prefix_sha256 : str
}.
#[global] Instance HistoryPrefix_eq_dec : EqDecision HistoryPrefix.
Proof. solve_decision. Defined.

Record StoredTurnSummary := mkSummary {
  item_start : N; item_end : N; summary_record : StoredLoopRecord
}.

Record HistoryReadPage := mkPage {
  captured_end : N;
  revision : str;
  trailing_incomplete : bool;
  total_items : N;
  page_items : list HistoryItem;
  page_times : list (option str);
  turns : list StoredTurnSummary;
  turns_truncated : bool;
  page_covered : CoveredUsage;
  summary_anchor_valid : bool;
  scanned_bytes : N;
  scanned_lines : N
}.
Definition HistoryReadPage_default : HistoryReadPage :=
  mkPage 0 [] false 0 [] [] [] false CoveredUsage_default false 0 0.

Definition MAX_READ_TURN_SUMMARIES : nat := 64.

Definition hex_char (d : N) : char := if decide (d < 10) then 48 + d else 87 + d.
Definition digest_hex (hasher : list N) : str :=
  sha256 hasher ≫= λ byte, [hex_char (byte / 16); hex_char (byte mod 16)].

(** ** One record on a page *)

(** The items of a record that lie on the page, with the times of its inputs. *)
Fixpoint page_entries (stored_times : list (option str)) (loaded_times : option (gmap (N * nat) str))
    (lo hi : N) (items : list HistoryItem) (position : N) (occurrence : nat) : list (HistoryItem * option str) :=
  match items with
  | [] => []
  | item :: items =>
      let '(timestamp, occurrence) :=
        match item with
        | User id _ =>
            (match loaded_times ≫= (.!! (id, occurrence)) with
             | Some t => Some t
             | None => mjoin (stored_times !! occurrence)
             end, S occurrence)
        | _ => (None, occurrence)
        end in
      (if decide (lo <= position < hi) then [(item, timestamp)] else []) ++
      page_entries stored_times loaded_times lo hi items (position + 1) occurrence
  end.

Definition append_page_record (record : StoredLoopRecord) (items : list HistoryItem) (start lo hi : N)
    (loaded_times : option (gmap (N * nat) str)) (p : HistoryReadPage) : HistoryReadPage :=
  let entries := page_entries (default [] (normalized_user_times record)) loaded_times lo hi items start 0 in
  let full := bool_decide (MAX_READ_TURN_SUMMARIES <= length (turns p))%nat in
  mkPage (captured_end p) (revision p) (trailing_incomplete p) (total_items p)
    (page_items p ++ entries.*1) (page_times p ++ entries.*2)
    (if full then turns p else turns p ++ [mkSummary start (start + lenN items) record])
    (if full then true else turns_truncated p)
    (page_covered p) (summary_anchor_valid p) (scanned_bytes p) (scanned_lines p).

(** ** Reading a line within bounds *)

Inductive BoundedLine := BEnd | BComplete (line : list N) | BPartial.

(** [take] bytes of the chunk are read, [remaining] is counted down. *)
Fixpoint read_bounded_loop (fuel : nat) (limits : HistoryScanLimits) (fails : bool) (cs : list (list N))
    (remaining : N) (l : LineBuffer) : result StoreError (BoundedLine * list (list N) * N) :=
  let '(line, line_len, oversized) := l in
  if decide (remaining = 0) then Ok (if decide (line = []) then BEnd else BPartial, cs, remaining)
  else
    match fuel with
    | O => Err Unavailable
    | S fuel =>
        _ ← ensure (expired limits cs = false) QueryLimit;
        match cs with
        | [] => if fails then Err Unavailable else Ok (BEnd, cs, remaining)
        | [] :: _ => Ok (BEnd, cs, remaining)
        | chunk :: rest =>
            let n := N.to_nat (N.min (lenN chunk) remaining) in
            let part := take n chunk in
            match newline part with
            | Some position =>
                let '(line, _, oversized) := extend (take position part) (line, line_len, oversized) in
                if oversized : bool then Err Corrupt
                else Ok (BComplete line, consume (S position) chunk rest, remaining - (N.of_nat position + 1))
            | None =>
                read_bounded_loop fuel limits fails (consume n chunk rest) (remaining - N.of_nat n)
                  (extend part (line, line_len, oversized))
            end
        end
    end.

Definition read_bounded_line (limits : HistoryScanLimits) (rd : Reader) (remaining : N)
    : result StoreError (BoundedLine * Reader * N) :=
  '(l, cs, remaining) ← read_bounded_loop (S (length (chunks rd))) limits (read_fails rd) (chunks rd) remaining ([], 0, false);
  Ok (l, mkReader cs (read_fails rd), remaining).

Definition check_history_scan (limits : HistoryScanLimits) (rd : Reader) : result StoreError unit :=
  ensure (expired limits (chunks rd) = false) QueryLimit.

(** Decoding a line: [serde_json] and [normalize_history]. *)
Definition decode_line (line : list N) : result StoreError (StoredLoopRecord * list HistoryItem) :=
  record ← ok_or (record_from_slice line) Corrupt;
  normalized ← ok_or (normalize_history (items record)) Corrupt;
  Ok (record, normalized).

(** ** By the index *)

(** [slice::partition_point] on a slice that is partitioned. *)
Fixpoint partition_point {A} (p : A → bool) (l : list A) : nat :=
  match l with
  | x :: l => if p x then S (partition_point p l) else O
  | [] => O
  end.

Record IndexedPage := mkIndexed { ip_start : N; ip_end : N; first_item : N; ip_page : HistoryReadPage }.

Definition indexed_page (index : list HistoryLine) (offset limit : N) (visible captured : option N)
    (rev : option str) (usage_boundary : option N) : result StoreError IndexedPage :=
  let end_ := match captured with
              | Some end_ => partition_point (λ line, bool_decide (line_end line <= end_)) index
              | None => match visible with
                        | Some cap => partition_point (λ line, bool_decide (line_items line <= cap)) index
                        | None => length index
                        end
              end in
  let index := take end_ index in
  let captured_end := from_option line_end 0 (last index) in
  let total_items := from_option line_items 0 (last index) in
  _ ← ensure (from_option (λ end_, bool_decide (end_ ≠ captured_end)) false captured ||
              from_option (λ cap, bool_decide (cap < total_items)) false visible = false) HistoryChanged;
  let actual_revision := digest_hex (from_option line_hash [] (last index)) in
  _ ← ensure (from_option (λ rev, bool_decide (rev ≠ actual_revision)) false rev = false) HistoryChanged;
  covered ← match usage_boundary with
            | Some boundary =>
                let count := partition_point (λ line, bool_decide (line_items line <= boundary)) index in
                let covered := last (take count index) in
                _ ← ensure (from_option line_items 0 covered = boundary) HistoryChanged;
                Ok (from_option line_usage CoveredUsage_default covered)
            | None => Ok CoveredUsage_default
            end;
  let page := mkPage captured_end actual_revision false total_items [] [] [] false covered true 0 0 in
  let first := partition_point (λ line, bool_decide (line_items line <= offset)) index in
  let start := match first with O => None | S i => index !! i end in
  let last_ := partition_point (λ line, bool_decide (line_items line < saturating_add offset limit)) index in
  let end_ := if decide (limit = 0 ∨ first = length index) then from_option line_end 0 start
              else from_option line_end 0 (index !! Nat.min last_ (length index - 1)) in
  Ok (mkIndexed (from_option line_end 0 start) end_ (from_option line_items 0 start) page).

(** What the loop adds up; [scanned_bytes] and [scanned_lines] are the page's own. *)
Definition set_scanned (bytes lines : N) (p : HistoryReadPage) : HistoryReadPage :=
  mkPage (captured_end p) (revision p) (trailing_incomplete p) (total_items p) (page_items p) (page_times p)
    (turns p) (turns_truncated p) (page_covered p) (summary_anchor_valid p) bytes lines.

Fixpoint indexed_loop (fuel : nat) (limits : HistoryScanLimits) (offset limit : N)
    (user_times : option (gmap (N * nat) str)) (rd : Reader) (remaining start : N) (page : HistoryReadPage)
    : result StoreError HistoryReadPage :=
  if decide (remaining = 0) then Ok page
  else
    match fuel with
    | O => Err Unavailable
    | S fuel =>
        _ ← ensure (¬ (max_lines limits <= scanned_lines page ∨ max_bytes limits <= scanned_bytes page)) QueryLimit;
        '(l, rd, remaining) ← read_bounded_line limits rd remaining;
        line ← match l with BComplete line => Ok line | _ => Err HistoryChanged end;
        let bytes := scanned_bytes page + (lenN line + 1) in
        _ ← ensure (¬ max_bytes limits < bytes) QueryLimit;
        let page := set_scanned bytes (scanned_lines page + 1) page in
        '(record, items) ← decode_line line;
        let page := append_page_record record items start offset (saturating_add offset limit) user_times page in
        indexed_loop fuel limits offset limit user_times rd remaining (start + lenN items) page
    end.

(** [rd] reads the file from the start of the page; [fuel] is its number of bytes. *)
Definition read_indexed_page (indexed : IndexedPage) (offset limit : N) (user_times : option (gmap (N * nat) str))
    (limits : HistoryScanLimits) (rd : Reader) : result StoreError HistoryReadPage :=
  _ ← check_history_scan limits rd;
  indexed_loop (N.to_nat (ip_end indexed - ip_start indexed)) limits offset limit user_times rd
    (ip_end indexed - ip_start indexed) (first_item indexed) (ip_page indexed).

(** ** By a scan of the whole file *)

Record Scan := mkScan {
  sc_reader : Reader;
  remaining : N;
  complete_end : N;
  hasher : list N;
  line_count : N;
  sc_total : N;
  covered_usage_so_far : CoveredUsage;
  sc_page : HistoryReadPage;
  sc_anchor : bool;
  retained_source_bytes : N
}.

Inductive ScanStop := AtEnd | AtVisibleCap | Trailing.

(** What a query asks for. *)
Record Query := mkQuery {
  q_offset : N;
  q_limit : N;
  q_visible : option N;
  q_times : option (gmap (N * nat) str);
  q_captured : option N;
  q_revision : option str;
  q_boundary : option N;
  (** a display read, with the summary whose anchor it checks *)
  q_display : option (option HistoryPrefix)
}.
Definition page_end (q : Query) : N := saturating_add (q_offset q) (q_limit q).

(** The usage of the loops below the boundary. *)
Definition scan_usage (q : Query) (record : StoredLoopRecord) (record_start record_end : N) (c : CoveredUsage)
    : result StoreError CoveredUsage :=
  match q_boundary q with
  | Some boundary =>
      _ ← ensure (¬ (record_start < boundary ∧ boundary < record_end ∧ q_display q = None)) HistoryChanged;
      Ok (if decide (record_end <= boundary) then covered_add (loop_id record) (usage record) c else c)
  | None => Ok c
  end.

Definition on_page (q : Query) (record_start record_end : N) : Prop :=
  q_offset q < record_end ∧ record_start < page_end q.
#[global] Instance on_page_dec q a b : Decision (on_page q a b).
Proof. unfold on_page. apply _. Defined.

Definition scan_anchor (q : Query) (complete_end lines total : N) (hasher : list N) (id : N) (valid : bool) : bool :=
  match mjoin (q_display q) with
  | Some expected =>
      if decide (complete_end = prefix_bytes expected)
      then bool_decide (mkPrefix complete_end lines total (Some id) (digest_hex hasher) = expected)
      else valid
  | None => valid
  end.

(** One complete line. *)
Definition scan_line (limits : HistoryScanLimits) (q : Query) (scan_target : N) (line : list N) (rd : Reader)
    (rest : N) (s : Scan) : result StoreError Scan :=
  _ ← ensure (line ≠ []) Corrupt;
  '(record, normalized) ← decode_line line;
  let record_start := sc_total s in
  record_end ← ok_or (checked_add record_start (lenN normalized)) Corrupt;
  covered ← scan_usage q record record_start record_end (covered_usage_so_far s);
  _ ← ensure (from_option (λ cap, bool_decide (cap < record_end)) false (q_visible q) = false) HistoryChanged;
  retained ← (if decide (on_page q record_start record_end) then
                retained ← ok_or (checked_add (retained_source_bytes s) (lenN line)) QueryLimit;
                _ ← ensure (¬ (max_bytes limits - MAX_LOOP_RECORD_BYTES) < retained) QueryLimit;
                Ok retained
              else Ok (retained_source_bytes s));
  let page := if decide (on_page q record_start record_end)
              then append_page_record record normalized record_start (q_offset q) (page_end q) (q_times q) (sc_page s)
              else sc_page s in
  let hasher := hasher s ++ line ++ [10] in
  let complete_end := scan_target - rest in
  Ok (mkScan rd rest complete_end hasher (line_count s + 1) record_end covered page
        (scan_anchor q complete_end (line_count s + 1) record_end hasher (loop_id record) (sc_anchor s)) retained).

Fixpoint scan_loop (fuel : nat) (limits : HistoryScanLimits) (q : Query) (scan_target target : N) (s : Scan)
    : result StoreError (Scan * ScanStop) :=
  if decide (remaining s = 0) then Ok (s, AtEnd)
  else
    match fuel with
    | O => Err Unavailable
    | S fuel =>
        _ ← check_history_scan limits (sc_reader s);
        _ ← ensure (¬ max_lines limits <= line_count s) QueryLimit;
        '(l, rd, rest) ← read_bounded_line limits (sc_reader s) (remaining s);
        match l with
        | BEnd => Err HistoryChanged
        | BPartial =>
            _ ← ensure (q_captured q = None) HistoryChanged;
            _ ← ensure (¬ scan_target < target) QueryLimit;
            Ok (mkScan rd rest (complete_end s) (hasher s) (line_count s) (sc_total s) (covered_usage_so_far s)
                  (sc_page s) (sc_anchor s) (retained_source_bytes s), Trailing)
        | BComplete line =>
            s ← scan_line limits q scan_target line rd rest s;
            if decide (q_visible q = Some (sc_total s) ∧ 0 < sc_total s) then Ok (s, AtVisibleCap)
            else scan_loop fuel limits q scan_target target s
        end
    end.

Definition valid_sha256 (value : str) : bool :=
  bool_decide (str_len value = 64) && forallb is_ascii_hexdigit (as_bytes value).

Definition finish_empty_history_page (captured_end : N) (expected_revision : option str)
    : result StoreError HistoryReadPage :=
  let revision := digest_hex [] in
  _ ← ensure (from_option (λ rev, bool_decide (rev ≠ revision)) false expected_revision = false) HistoryChanged;
  Ok (mkPage captured_end revision false 0 [] [] [] false CoveredUsage_default true 0 0).

(** After the scan: what was not scanned, the pinned end and the pinned hash. *)
Definition scan_finish (q : Query) (scan_target target : N) (s : Scan) (stop : ScanStop)
    : result StoreError HistoryReadPage :=
  let capped := match stop with AtVisibleCap => true | _ => false end in
  _ ← ensure (capped = true ∨ ¬ scan_target < target) QueryLimit;
  _ ← ensure (capped = true ∨ remaining s = 0) HistoryChanged;
  _ ← ensure (from_option (λ _, bool_decide (complete_end s ≠ target)) false (q_captured q) = false) HistoryChanged;
  let revision := digest_hex (hasher s) in
  _ ← ensure (from_option (λ rev, bool_decide (rev ≠ revision)) false (q_revision q) = false) HistoryChanged;
  let p := sc_page s in
  Ok (mkPage (complete_end s) revision (match stop with Trailing => true | _ => false end) (sc_total s)
        (page_items p) (page_times p) (turns p) (turns_truncated p) (covered_usage_so_far s) (sc_anchor s)
        (scan_target - remaining s) (line_count s)).

Definition scan_file (length : N) (rd : Reader) (q : Query) (limits : HistoryScanLimits)
    : result StoreError HistoryReadPage :=
  let target := default length (q_captured q) in
  _ ← ensure (¬ length < target) HistoryChanged;
  _ ← ensure (from_option valid_sha256 true (q_revision q) = true) InvalidArguments;
  _ ← check_history_scan limits rd;
  if decide (q_visible q = Some 0) then
    _ ← ensure (from_option (λ end_, bool_decide (end_ ≠ 0)) false (q_captured q) = false) HistoryChanged;
    finish_empty_history_page 0 (q_revision q)
  else
    let scan_target := N.min target (max_bytes limits) in
    '(s, stop) ← scan_loop (N.to_nat scan_target) limits q scan_target target
      (mkScan rd scan_target 0 [] 0 0 CoveredUsage_default HistoryReadPage_default
         (match mjoin (q_display q) with Some _ => false | None => true end) 0);
    scan_finish q scan_target target s stop.

(** [index] is the session's, if it is loaded; [open_at] opens the file at an offset. *)
Definition scan_history_page (index : option (list HistoryLine)) (length : N) (open_at : N → Reader)
    (q : Query) (limits : HistoryScanLimits) : result StoreError HistoryReadPage :=
  _ ← ensure (bool_decide (q_captured q = None) = bool_decide (q_revision q = None)) InvalidArguments;
  match index with
  | Some index =>
      if decide (q_display q = None ∨ q_visible q ≠ None) then
        indexed ← indexed_page index (q_offset q) (q_limit q) (q_visible q) (q_captured q) (q_revision q) (q_boundary q);
        read_indexed_page indexed (q_offset q) (q_limit q) (q_times q) limits (open_at (ip_start indexed))
      else scan_file length (open_at 0) q limits
  | None => scan_file length (open_at 0) q limits
  end.
End page.

(** ** Bounded lines do not depend on the chunks *)

Lemma read_bounded_loop_complete `{RecordCodec} limits fails b line rest fuel cs remaining :
  (length cs < fuel)%nat → good_chunks cs → concat cs = line ++ 10 :: rest → 10 ∉ line →
  lenN (b ++ line) <= MAX_LOOP_RECORD_BYTES → lenN line + 1 <= remaining → (∀ cs, expired limits cs = false) →
  ∃ cs', read_bounded_loop fuel limits fails cs remaining (buffered b) =
           Ok (BComplete (b ++ line), cs', remaining - (lenN line + 1)) ∧
    good_chunks cs' ∧ concat cs' = rest.
Proof.
  revert b line cs remaining.
  induction fuel as [|fuel IH]; intros b line cs remaining Hfuel Hgood Hcat Hline Hlen Hrem Hexp; [lia|].
  destruct cs as [|chunk cs]; [by destruct line|].
  apply Forall_cons in Hgood as [Hne Hgood]. cbn [concat] in Hcat.
  destruct chunk as [|c chunk]; [done|]. set (ch := c :: chunk) in *. unfold buffered. cbn [read_bounded_loop].
  rewrite decide_False by lia. unfold ensure. rewrite Hexp, decide_True by done. cbn [mbind result_bind].
  unfold ch at 1. fold ch.
  set (n := N.to_nat (N.min (lenN ch) remaining)).
  destruct (newline (take n ch)) as [k|] eqn:Hnl.
  - apply newline_Some in Hnl as (a & Hch & Hk & Ha & Htake).
    assert (Hsplit : ch = a ++ 10 :: drop (S k) ch).
    { rewrite <- (take_drop n ch) at 1. rewrite Hch, <- app_assoc. cbn [app]. do 2 f_equal.
      rewrite <- (take_drop n ch) at 3. rewrite drop_app_le; [done|].
      rewrite Hch, length_app. cbn. lia. }
    rewrite Hsplit, <- app_assoc in Hcat. cbn [app] in Hcat.
    apply split_newline in Hcat as [-> <-]; [|done..].
    rewrite Htake. change (b, lenN b, false) with (buffered b). rewrite extend_fits by done. unfold buffered.
    exists (consume (S k) ch cs). rewrite <- Hk. split_and!;
      [done|by apply consume_good|by rewrite consume_concat].
  - apply newline_None in Hnl.
    assert (Hn : n = length ch).
    { destruct (decide (n = length ch)) as [|Hlt]; [done|]. exfalso. apply Hnl.
      assert (Hin : (ch ++ concat cs) !! length line = Some 10) by (rewrite Hcat; by apply list_lookup_middle).
      unfold n, lenN in *. rewrite lookup_app_l in Hin by lia.
      apply (list_elem_of_lookup_2 _ (length line)). rewrite lookup_take_lt by lia. done. }
    rewrite Hn, take_ge in * by lia.
    apply chunk_prefix in Hcat as (line' & -> & Hcat); [|done].
    assert (lenN (b ++ ch) <= MAX_LOOP_RECORD_BYTES) by (autorewrite with lens in *; lia).
    change (b, lenN b, false) with (buffered b). rewrite extend_fits by done.
    unfold consume. rewrite drop_ge by lia. rewrite app_assoc in Hlen |- *.
    rewrite lenN_app in *.
    destruct (IH (b ++ ch) line' cs (remaining - N.of_nat (length ch))) as (cs' & -> & ? & ?); try done;
      [cbn in Hfuel; lia|set_solver|by rewrite lenN_app|unfold lenN in *; lia|].
    exists cs'. split_and!; [|done..]. do 2 f_equal. unfold lenN in *. lia.
Qed.

Lemma read_bounded_complete `{RecordCodec} limits cs fails line rest remaining :
  good_chunks cs → concat cs = line ++ 10 :: rest → 10 ∉ line →
  lenN line <= MAX_LOOP_RECORD_BYTES → lenN line + 1 <= remaining → (∀ cs, expired limits cs = false) →
  ∃ cs', read_bounded_line limits (mkReader cs fails) remaining =
           Ok (BComplete line, mkReader cs' fails, remaining - (lenN line + 1)) ∧
    good_chunks cs' ∧ concat cs' = rest.
Proof.
  intros Hgood Hcat Hline Hlen Hrem Hexp. unfold read_bounded_line. cbn [chunks read_fails].
  destruct (read_bounded_loop_complete limits fails [] line rest (S (length cs)) cs remaining)
    as (cs' & Hrun & ? & ?); try done; [lia|].
  change ([], 0, false) with (buffered []). rewrite Hrun. by exists cs'.
Qed.

(** ** The page of a history *)

Lemma decode_stored `{RecordCodec} e : stored e → decode_line (entry_bytes e) = Ok (entry_record e, entry_items e).
Proof. intros (Hp & Hn & _). unfold decode_line. rewrite Hp. cbn. by rewrite Hn. Qed.

Section pages.
Context `{RecordCodec} (sha256 : list N → list N).

(** The page as one pass over the turns: those with items on it are added. *)
Fixpoint spec_page (q : Query) (log : list HistoryEntry) (start : N) (p : HistoryReadPage) : HistoryReadPage :=
  match log with
  | [] => p
  | e :: log =>
      let next := start + lenN (entry_items e) in
      spec_page q log next
        (if decide (on_page q start next)
         then append_page_record (entry_record e) (entry_items e) start (q_offset q) (page_end q) (q_times q) p else p)
  end.

Lemma spec_page_app q log log' start p :
  spec_page q (log ++ log') start p = spec_page q log' (start + lenN (all_items log)) (spec_page q log start p).
Proof.
  revert start p. induction log as [|e log IH]; intros start p; cbn [app spec_page].
  - cbn. autorewrite with lens. by rewrite N.add_0_r.
  - rewrite IH. f_equal. unfold all_items. cbn. autorewrite with lens. lia.
Qed.

(** Turns before the page or behind it change nothing. *)
Lemma spec_page_skip q log start p :
  start + lenN (all_items log) <= q_offset q ∨ page_end q <= start → spec_page q log start p = p.
Proof.
  revert start p. induction log as [|e log IH]; intros start p Hout; [done|]. cbn [spec_page].
  unfold all_items in Hout. cbn in Hout. autorewrite with lens in Hout. fold (all_items log) in Hout.
  rewrite decide_False by (unfold on_page; lia). apply IH. lia.
Qed.

(** *** Its items are a slice *)

(** The items of [l] at positions in [[lo, hi)], the first being at [pos]. *)
Definition between {A} (lo hi pos : N) (l : list A) : list A :=
  take (N.to_nat (hi - N.max lo pos)) (drop (N.to_nat (lo - pos)) l).

Lemma between_cons {A} lo hi pos (x : A) l :
  between lo hi pos (x :: l) = (if decide (lo <= pos < hi) then [x] else []) ++ between lo hi (pos + 1) l.
Proof.
  unfold between. case_decide as Hin.
  - replace (N.to_nat (lo - pos)) with O by lia. replace (N.to_nat (lo - (pos + 1))) with O by lia.
    rewrite !drop_0. replace (N.to_nat (hi - N.max lo pos)) with (S (N.to_nat (hi - N.max lo (pos + 1)))) by lia. done.
  - destruct (decide (pos < lo)).
    + replace (N.to_nat (lo - pos)) with (S (N.to_nat (lo - (pos + 1)))) by lia. cbn [drop app].
      f_equal. lia.
    + replace (N.to_nat (hi - N.max lo pos)) with O by lia. replace (N.to_nat (hi - N.max lo (pos + 1))) with O by lia.
      done.
Qed.

Lemma between_nil {A} lo hi pos : between lo hi pos (@nil A) = [].
Proof. unfold between. by rewrite drop_nil, take_nil. Qed.

Lemma between_app {A} lo hi pos (l k : list A) :
  between lo hi pos (l ++ k) = between lo hi pos l ++ between lo hi (pos + lenN l) k.
Proof.
  revert pos. induction l as [|x l IH]; intros pos; cbn [app].
  - rewrite between_nil. cbn. autorewrite with lens. by rewrite N.add_0_r.
  - rewrite !between_cons, IH, <- app_assoc. do 3 f_equal. autorewrite with lens. lia.
Qed.

Lemma between_outside {A} lo hi pos (l : list A) : pos + lenN l <= lo ∨ hi <= pos → between lo hi pos l = [].
Proof.
  intros Hout. unfold between, lenN in *. destruct (decide (hi <= pos)).
  - by replace (N.to_nat (hi - N.max lo pos)) with O by lia.
  - rewrite drop_ge by lia. by rewrite take_nil.
Qed.

Lemma page_entries_items st lt lo hi items pos occ :
  (page_entries st lt lo hi items pos occ).*1 = between lo hi pos items.
Proof.
  revert pos occ. induction items as [|item items IH]; intros pos occ; [by rewrite between_nil|].
  rewrite between_cons. cbn [page_entries]. destruct (match item with User _ _ => _ | _ => _ end) as [t occ'].
  rewrite fmap_app, IH. by case_decide.
Qed.

Lemma spec_page_items q log start p :
  page_items (spec_page q log start p) = page_items p ++ between (q_offset q) (page_end q) start (all_items log).
Proof.
  revert start p. induction log as [|e log IH]; intros start p; cbn [spec_page].
  { unfold all_items. cbn. by rewrite between_nil, app_nil_r. }
  rewrite IH. unfold all_items at 2. cbn. fold (all_items log). rewrite between_app. unfold on_page.
  case_decide as Hon; cbn.
  - by rewrite page_entries_items, app_assoc.
  - rewrite (between_outside _ _ start (entry_items e)) by lia. done.
Qed.

(** Everything else a page starts with is kept. *)
Definition page_head (p : HistoryReadPage) :=
  (captured_end p, revision p, trailing_incomplete p, total_items p, page_covered p, summary_anchor_valid p).
Definition page_body (p : HistoryReadPage) := (page_items p, page_times p, turns p, turns_truncated p).

Lemma spec_page_head q log start p : page_head (spec_page q log start p) = page_head p.
Proof.
  revert start p. induction log as [|e log IH]; intros start p; [done|]. cbn [spec_page]. rewrite IH.
  by case_decide.
Qed.

Lemma append_page_body record items start lo hi ut p p' :
  page_body p = page_body p' →
  page_body (append_page_record record items start lo hi ut p) = page_body (append_page_record record items start lo hi ut p').
Proof. unfold page_body. intros [= E1 E2 E3 E4]. cbn. by rewrite E1, E2, E3, E4. Qed.

Lemma spec_page_body q log start p p' :
  page_body p = page_body p' → page_body (spec_page q log start p) = page_body (spec_page q log start p').
Proof.
  revert start p p'. induction log as [|e log IH]; intros start p p' E; [done|]. cbn [spec_page]. apply IH.
  case_decide; [by apply append_page_body|done].
Qed.
End pages.

(** ** Beginnings of a history *)

Section beginnings.
Context `{RecordCodec}.

Lemma flat_take_le i j (log : list HistoryEntry) : (i <= j)%nat → lenN (flat (take i log)) <= lenN (flat (take j log)).
Proof.
  intros Hij. replace (take i log) with (take i (take j log)) by (rewrite take_take; f_equal; lia).
  rewrite <- (take_drop i (take j log)) at 2. rewrite flat_app, lenN_app. lia.
Qed.
Lemma items_take_le i j (log : list HistoryEntry) : (i <= j)%nat → lenN (all_items (take i log)) <= lenN (all_items (take j log)).
Proof.
  intros Hij. replace (take i log) with (take i (take j log)) by (rewrite take_take; f_equal; lia).
  rewrite <- (take_drop i (take j log)) at 2. rewrite all_items_app, lenN_app. lia.
Qed.

(** The number of turns whose items are all among the first [b]. *)
Fixpoint below (b : N) (log : list HistoryEntry) : nat :=
  match log with
  | [] => O
  | e :: log => if decide (lenN (entry_items e) <= b) then S (below (b - lenN (entry_items e)) log) else O
  end.

Lemma below_le b log : (below b log <= length log)%nat.
Proof. revert b. induction log as [|e log IH]; intros b; cbn; [lia|]. case_decide; [specialize (IH (b - lenN (entry_items e))); lia|lia]. Qed.

Lemma below_spec b log i :
  (i < length log)%nat → lenN (all_items (take (S i) log)) <= b ↔ (i < below b log)%nat.
Proof.
  revert b i. induction log as [|e log IH]; intros b i Hi; [cbn in Hi; lia|]. cbn [take below].
  assert (∀ l, all_items (e :: l) = entry_items e ++ all_items l) as Hcons by done.
  rewrite Hcons, lenN_app. case_decide as He; [|lia]. destruct i as [|i].
  - cbn. autorewrite with lens. lia.
  - rewrite <- Nat.succ_lt_mono, <- IH by (cbn in Hi; lia). lia.
Qed.

Lemma below_unique b log k :
  (k <= length log)%nat → (∀ i, (i < length log)%nat → lenN (all_items (take (S i) log)) <= b ↔ (i < k)%nat) →
  below b log = k.
Proof.
  intros Hk Hi. pose proof (below_le b log). destruct (decide (below b log < k)%nat) as [Hlt|].
  - specialize (Hi (below b log) ltac:(lia)). rewrite below_spec in Hi by lia. lia.
  - destruct (decide (k < below b log)%nat); [|lia]. specialize (Hi k ltac:(lia)). rewrite below_spec in Hi by lia. lia.
Qed.

Lemma below_snoc b log e :
  below b (log ++ [e]) = if decide (lenN (all_items (log ++ [e])) <= b) then S (length log) else below b log.
Proof.
  assert (∀ i, (i < length log)%nat → take (S i) (log ++ [e]) = take (S i) log) as Htake.
  { intros i Hi. by rewrite take_app_le by lia. }
  assert (take (S (length log)) (log ++ [e]) = log ++ [e]) as Hall by (apply take_ge; rewrite length_app; cbn; lia).
  case_decide as Hle; apply below_unique; rewrite ?length_app; cbn [length]; [lia| |pose proof (below_le b log); lia|].
  - intros i Hi. split; [lia|intros _]. pose proof (items_take_le (S i) (S (length log)) (log ++ [e]) ltac:(lia)) as Hm.
    rewrite Hall in Hm. lia.
  - intros i Hi. destruct (decide (i < length log)%nat) as [Hil|].
    + rewrite Htake by done. by apply below_spec.
    + replace i with (length log) by lia. rewrite Hall. pose proof (below_le b log). lia.
Qed.

(** The usage of the turns below the boundary of a query. *)
Definition covered_below (q : Query) (log : list HistoryEntry) : CoveredUsage :=
  match q_boundary q with
  | Some boundary => covered_of (take (below boundary log) log)
  | None => CoveredUsage_default
  end.

Lemma covered_snoc b log e :
  covered_of (take (below b (log ++ [e])) (log ++ [e])) =
    if decide (lenN (all_items (log ++ [e])) <= b)
    then covered_add (loop_id (entry_record e)) (usage (entry_record e)) (covered_of (take (below b log) log))
    else covered_of (take (below b log) log).
Proof.
  rewrite below_snoc. case_decide as Hle.
  - rewrite (take_ge (log ++ [e])) by (rewrite length_app; cbn; lia). unfold covered_of at 1. rewrite foldl_app. cbn. f_equal.
    assert (below b log = length log) as ->; [|by rewrite take_ge]. apply below_unique; [done|]. intros i Hi.
    split; [done|intros _]. pose proof (items_take_le (S i) (length log) log ltac:(lia)) as Hm. rewrite (take_ge log (length log)) in Hm by done.
    rewrite all_items_app, lenN_app in Hle. lia.
  - by rewrite take_app_le by apply below_le.
Qed.

Context (sha256 : list N → list N).

(** How a history is pinned: its size, turns and items, its last turn and its hash. *)
Definition prefix_of_log (log : list HistoryEntry) : HistoryPrefix :=
  mkPrefix (lenN (flat log)) (lenN log) (lenN (all_items log)) ((λ e, loop_id (entry_record e)) <$> last log)
    (digest_hex sha256 (flat log)).

(** [expected] is what some beginning of the history is pinned by. *)
Definition anchored (expected : HistoryPrefix) (log : list HistoryEntry) : bool :=
  bool_decide (expected ∈ ((λ k, prefix_of_log (take (S k) log)) <$> seq 0 (length log))).

Lemma anchored_snoc expected log e :
  (if decide (lenN (flat (log ++ [e])) = prefix_bytes expected)
   then bool_decide (prefix_of_log (log ++ [e]) = expected) else anchored expected log) = anchored expected (log ++ [e]).
Proof.
  assert (Hlist : (λ k, prefix_of_log (take (S k) (log ++ [e]))) <$> seq 0 (length (log ++ [e])) =
    ((λ k, prefix_of_log (take (S k) log)) <$> seq 0 (length log)) ++ [prefix_of_log (log ++ [e])]).
  { rewrite length_app, seq_app, fmap_app. cbn [length Nat.add seq fmap list_fmap].
    rewrite (take_ge (log ++ [e])) by (rewrite length_app; cbn; lia). f_equal.
    apply list_fmap_ext. intros i k Hk. apply lookup_seq in Hk as [-> Hk]. by rewrite take_app_le by lia. }
  unfold anchored. rewrite Hlist. case_decide as Hb; apply bool_decide_ext; rewrite elem_of_app, list_elem_of_singleton.
  - split; [by right|]. intros [Hin|]; [|done]. exfalso. apply list_elem_of_fmap in Hin as (k & -> & Hk%elem_of_seq).
    cbn [prefix_bytes prefix_of_log] in Hb. pose proof (flat_take_le (S k) (length log) log ltac:(lia)) as Hle.
    rewrite (take_ge log (length log)), flat_app, lenN_app in * by done.
    pose proof (flat_length [e]) as Hpos. unfold lenN in *. cbn [length] in Hpos. lia.
  - split; [by left|]. intros [|Hin]; [done|]. by subst.
Qed.

(** A display read checks the summary it has. *)
Definition anchor_of (q : Query) (log : list HistoryEntry) : bool :=
  match mjoin (q_display q) with Some expected => anchored expected log | None => true end.
End beginnings.

Section loops.
Context `{RecordCodecLaws} (sha256 : list N → list N).

(** Limits that the lines [log] stay within. *)
Record roomy (limits : HistoryScanLimits) (log : list HistoryEntry) : Prop := {
  room_expired : ∀ cs, expired limits cs = false;
  room_lines : lenN log <= max_lines limits;
  room_bytes : lenN (flat log) + MAX_LOOP_RECORD_BYTES <= max_bytes limits;
  room_u64 : max_bytes limits <= u64_max
}.

Lemma flat_cons e log : flat (e :: log) = entry_bytes e ++ 10 :: flat log.
Proof. unfold flat. cbn. unfold entry_line. by rewrite <- app_assoc. Qed.
Lemma flat_cons_len e log : lenN (flat (e :: log)) = lenN (entry_bytes e) + 1 + lenN (flat log).
Proof. rewrite flat_cons. autorewrite with lens. lia. Qed.
Lemma all_items_cons e log : all_items (e :: log) = entry_items e ++ all_items log.
Proof. done. Qed.

(** *** The scan *)

(** What was scanned when the turns [done] are behind the reader. *)
Definition scanned (q : Query) (st : N) (done : list HistoryEntry) (rd : Reader) (ret : N) : Scan :=
  mkScan rd (st - lenN (flat done)) (lenN (flat done)) (flat done) (lenN done) (lenN (all_items done))
    (covered_below q done) (spec_page q done 0 HistoryReadPage_default) (anchor_of sha256 q done) ret.

Lemma scan_usage_stored q done e :
  (∀ b, q_boundary q = Some b → q_display q = None →
    ¬ (lenN (all_items done) < b ∧ b < lenN (all_items (done ++ [e])))) →
  scan_usage q (entry_record e) (lenN (all_items done)) (lenN (all_items (done ++ [e]))) (covered_below q done) =
    Ok (covered_below q (done ++ [e])).
Proof.
  intros Hb. unfold scan_usage, covered_below. destruct (q_boundary q) as [b|]; [|done].
  rewrite ensure_true by naive_solver. cbn [mbind result_bind]. by rewrite covered_snoc.
Qed.

Lemma scan_anchor_stored q done e :
  scan_anchor sha256 q (lenN (flat (done ++ [e]))) (lenN (done ++ [e])) (lenN (all_items (done ++ [e])))
    (flat (done ++ [e])) (loop_id (entry_record e)) (anchor_of sha256 q done) = anchor_of sha256 q (done ++ [e]).
Proof.
  unfold scan_anchor, anchor_of. destruct (mjoin (q_display q)) as [exp|]; [|done].
  rewrite <- anchored_snoc. unfold prefix_of_log. by rewrite last_snoc.
Qed.

Lemma scan_line_stored limits q st done e rd0 rd ret :
  stored e →
  (∀ b, q_boundary q = Some b → q_display q = None →
    ¬ (lenN (all_items done) < b ∧ b < lenN (all_items (done ++ [e])))) →
  (∀ cap, q_visible q = Some cap → lenN (all_items (done ++ [e])) <= cap) →
  lenN (all_items (done ++ [e])) <= usize_max → lenN (flat (done ++ [e])) <= st →
  ret + lenN (entry_bytes e) + MAX_LOOP_RECORD_BYTES <= max_bytes limits → max_bytes limits <= u64_max →
  ∃ ret', scan_line sha256 limits q st (entry_bytes e) rd (st - lenN (flat (done ++ [e]))) (scanned q st done rd0 ret) =
    Ok (scanned q st (done ++ [e]) rd ret') ∧ ret <= ret' <= ret + lenN (entry_bytes e).
Proof.
  intros He Hb Hv Htotal Hst Hret Hmax. unfold scan_line.
  rewrite (ensure_true (entry_bytes e ≠ [])) by (by apply stored_nonempty). cbn [mbind result_bind].
  rewrite decode_stored by done. cbn [mbind result_bind scanned sc_total sc_page hasher line_count sc_anchor
    covered_usage_so_far retained_source_bytes].
  assert (lenN (all_items done) + lenN (entry_items e) = lenN (all_items (done ++ [e]))) as Hsum.
  { rewrite all_items_app, lenN_app. unfold all_items at 3. cbn. by rewrite app_nil_r. }
  rewrite (proj2 (checked_add_Some _ _ _) (conj eq_refl (eq_ind_r (λ n, n <= usize_max) Htotal Hsum))).
  cbn [ok_or mbind result_bind]. rewrite Hsum, scan_usage_stored by done. cbn [mbind result_bind].
  rewrite ensure_true.
  2:{ destruct (q_visible q) as [cap|]; [|done]. cbn. apply bool_decide_false. specialize (Hv cap eq_refl). lia. }
  cbn [mbind result_bind]. replace (st - (st - lenN (flat (done ++ [e])))) with (lenN (flat (done ++ [e]))) by lia.
  assert (flat done ++ entry_bytes e ++ [10] = flat (done ++ [e])) as ->.
  { rewrite flat_app. unfold flat at 3. cbn. by rewrite app_nil_r. }
  assert (lenN done + 1 = lenN (done ++ [e])) as -> by (by rewrite lenN_app).
  rewrite scan_anchor_stored.
  assert ((if decide (on_page q (lenN (all_items done)) (lenN (all_items (done ++ [e]))))
           then append_page_record (entry_record e) (entry_items e) (lenN (all_items done)) (q_offset q) (page_end q)
                  (q_times q) (spec_page q done 0 HistoryReadPage_default)
           else spec_page q done 0 HistoryReadPage_default) = spec_page q (done ++ [e]) 0 HistoryReadPage_default) as ->.
  { rewrite spec_page_app. cbn [spec_page]. by rewrite N.add_0_l, Hsum. }
  case_decide as Hon.
  - assert (checked_add ret (lenN (entry_bytes e)) = Some (ret + lenN (entry_bytes e))) as ->.
    { apply checked_add_Some. unfold usize_max. lia. }
    cbn [ok_or mbind result_bind]. rewrite ensure_true by lia. cbn [mbind result_bind].
    eexists. split; [done|]. lia.
  - cbn [mbind result_bind]. eexists. split; [done|]. lia.
Qed.

(** The boundary of a query lies at the end of a turn, or it does not matter. *)
Lemma boundary_outside q done e todo :
  (∀ b, q_boundary q = Some b →
     lenN (all_items (take (below b (done ++ e :: todo)) (done ++ e :: todo))) = b ∨ q_display q ≠ None) →
  ∀ b, q_boundary q = Some b → q_display q = None →
    ¬ (lenN (all_items done) < b ∧ b < lenN (all_items (done ++ [e]))).
Proof.
  intros Hb b Eb Ed [Hlt Hgt]. destruct (Hb b Eb) as [Hat|]; [|done].
  set (log := done ++ e :: todo) in *. set (k := below b log) in *.
  assert (done = take (length done) log) as Hdone by (unfold log; by rewrite take_app_length).
  assert (done ++ [e] = take (S (length done)) log) as Hdone'.
  { unfold log. rewrite (take_S_r _ _ e); [by rewrite take_app_length|]. by apply list_lookup_middle. }
  destruct (decide (k <= length done)%nat).
  - pose proof (items_take_le k (length done) log ltac:(lia)) as Hle. rewrite <- Hdone in Hle. lia.
  - pose proof (items_take_le (S (length done)) k log ltac:(lia)) as Hle. rewrite <- Hdone' in Hle. lia.
Qed.

(** The last turn added items. *)
Definition ends_in_items (log : list HistoryEntry) : Prop := ∀ log' e, log = log' ++ [e] → entry_items e ≠ [].

(** Only all of a history that ends in items has all its items. *)
Lemma all_items_full done todo :
  ends_in_items (done ++ todo) → lenN (all_items done) = lenN (all_items (done ++ todo)) → todo = [].
Proof.
  intros Hends Hn. destruct todo as [|e todo _] using rev_ind; [done|]. exfalso.
  apply (Hends (done ++ todo) e); [by rewrite app_assoc|]. rewrite !all_items_app, !lenN_app in Hn.
  unfold all_items at 4 in Hn. cbn in Hn. rewrite app_nil_r in Hn. unfold lenN in Hn. destruct (entry_items e); [done|cbn in Hn; lia].
Qed.

Lemma scan_loop_log limits q st tg todo more done fuel cs rd0 ret :
  (length todo <= fuel)%nat → Forall stored todo →
  (∀ b, q_boundary q = Some b →
     lenN (all_items (take (below b (done ++ todo)) (done ++ todo))) = b ∨ q_display q ≠ None) →
  (∀ cap, q_visible q = Some cap → lenN (all_items (done ++ todo)) <= cap ∧
     (cap = lenN (all_items (done ++ todo)) → ends_in_items (done ++ todo))) →
  lenN (flat (done ++ todo)) = st ∨
    (q_visible q = Some (lenN (all_items (done ++ todo))) ∧ 0 < lenN (all_items (done ++ todo)) ∧ todo ≠ []) →
  lenN (flat (done ++ todo)) <= st →
  good_chunks cs → rd0 = mkReader cs false → concat cs = flat todo ++ more →
  (∀ cs, expired limits cs = false) → lenN (done ++ todo) <= max_lines limits →
  ret + lenN (flat todo) + MAX_LOOP_RECORD_BYTES <= max_bytes limits → max_bytes limits <= u64_max →
  lenN (all_items (done ++ todo)) <= usize_max →
  ∃ rd ret' stop, scan_loop sha256 fuel limits q st tg (scanned q st done rd0 ret) =
    Ok (scanned q st (done ++ todo) rd ret', stop) ∧
    (stop = AtEnd ∧ lenN (flat (done ++ todo)) = st ∨ stop = AtVisibleCap).
Proof.
  intros Hfuel Htodo. revert done fuel cs rd0 ret Hfuel.
  induction Htodo as [|e todo He Htodo IH];
    intros done fuel cs rd0 ret Hfuel Hbound Hvis Hstop Hst Hgood -> Hcat Hexp Hlines Hret Hmax Htotal.
  { rewrite app_nil_r in *. destruct Hstop as [Hstop|(_ & _ & ?)]; [|done].
    exists (mkReader cs false), ret, AtEnd. split; [|by left].
    assert (remaining (scanned q st done (mkReader cs false) ret) = 0) as Hr by (cbn; lia).
    destruct fuel; cbn [scan_loop]; by rewrite decide_True. }
  pose proof He as (_ & _ & Hnl & Hlen). rewrite flat_cons_len in Hret.
  rewrite flat_cons, <- app_assoc in Hcat. cbn [app] in Hcat.
  destruct fuel as [|fuel]; [cbn in Hfuel; lia|]. cbn [scan_loop].
  assert (done ++ e :: todo = (done ++ [e]) ++ todo) as Hassoc by by rewrite <- app_assoc.
  assert (lenN (flat (done ++ [e])) = lenN (flat done) + (lenN (entry_bytes e) + 1)) as Hflat.
  { rewrite flat_app, lenN_app, (flat_cons_len e []). change (lenN (flat [])) with 0. lia. }
  pose proof Hst as Hst'. rewrite Hassoc, flat_app, lenN_app, Hflat in Hst'.
  change (remaining (scanned q st done (mkReader cs false) ret)) with (st - lenN (flat done)).
  change (line_count (scanned q st done (mkReader cs false) ret)) with (lenN done).
  change (sc_reader (scanned q st done (mkReader cs false) ret)) with (mkReader cs false).
  rewrite decide_False by lia. unfold check_history_scan. rewrite (ensure_true (expired _ _ = false)) by apply Hexp.
  cbn [mbind result_bind]. rewrite (ensure_true (¬ max_lines _ <= _)) by (rewrite lenN_app, lenN_cons in Hlines; lia).
  cbn [mbind result_bind].
  destruct (read_bounded_complete limits cs false (entry_bytes e) (flat todo ++ more) (st - lenN (flat done)))
    as (cs' & -> & Hgood' & Hcat'); try done; [lia|]. cbn [mbind result_bind].
  replace (st - lenN (flat done) - (lenN (entry_bytes e) + 1)) with (st - lenN (flat (done ++ [e]))) by lia.
  assert (lenN (all_items (done ++ [e])) <= lenN (all_items (done ++ e :: todo))) as Hle.
  { rewrite Hassoc, (all_items_app (done ++ [e])), lenN_app. lia. }
  destruct (scan_line_stored limits q st done e (mkReader cs false) (mkReader cs' false) ret) as (ret1 & -> & Hr1 & Hr2);
    [done|by eapply boundary_outside|intros cap Hcap; destruct (Hvis cap Hcap); lia|lia|lia|lia|done|].
  cbn [mbind result_bind]. change (sc_total (scanned q st (done ++ [e]) (mkReader cs' false) ret1)) with (lenN (all_items (done ++ [e]))).
  destruct (decide (q_visible q = Some (lenN (all_items (done ++ [e]))) ∧ 0 < lenN (all_items (done ++ [e])))) as [[Hcap Hpos]|Hnot].
  - destruct (Hvis _ Hcap) as [Hle' Hends].
    assert (todo = []) as ->.
    { apply (all_items_full (done ++ [e])); rewrite <- Hassoc; [apply Hends; lia|lia]. }
    exists (mkReader cs' false), ret1, AtVisibleCap. split; [done|by right].
  - rewrite Hassoc in Hbound, Hvis, Hstop, Hst, Hlines, Htotal |- *.
    apply (IH (done ++ [e]) fuel cs' (mkReader cs' false) ret1); try done; [cbn in Hfuel; lia| |lia].
    destruct Hstop as [|(Hcap & Hpos & _)]; [by left|right]. split_and!; [done|done|]. intros ->.
    rewrite app_nil_r in Hcap, Hpos. tauto.
Qed.

(** *** The lines the index chose *)

(** Every turn of [log] is on the page. *)
Fixpoint all_on_page (q : Query) (log : list HistoryEntry) (start : N) : Prop :=
  match log with
  | [] => True
  | e :: log => on_page q start (start + lenN (entry_items e)) ∧ all_on_page q log (start + lenN (entry_items e))
  end.

Lemma indexed_loop_log limits q log more fuel cs start p :
  (length log <= fuel)%nat → Forall stored log → good_chunks cs → concat cs = flat log ++ more →
  all_on_page q log start → (∀ cs, expired limits cs = false) →
  scanned_lines p + lenN log <= max_lines limits → scanned_bytes p + lenN (flat log) <= max_bytes limits →
  ∃ p', indexed_loop fuel limits (q_offset q) (q_limit q) (q_times q) (mkReader cs false) (lenN (flat log)) start p = Ok p' ∧
    page_head p' = page_head p ∧ page_body p' = page_body (spec_page q log start p).
Proof.
  intros Hfuel Hlog. revert fuel cs start p Hfuel.
  induction log as [|e log IH]; intros fuel cs start p Hfuel Hgood Hcat Hon Hexp Hlines Hbytes.
  { exists p. split; [|done]. by destruct fuel. }
  apply Forall_cons in Hlog as [He Hlog]. pose proof He as (_ & _ & Hnl & Hlen). destruct Hon as [Hone Hon].
  rewrite flat_cons_len in Hbytes. autorewrite with lens in Hlines.
  rewrite flat_cons, <- app_assoc in Hcat. cbn [app] in Hcat.
  destruct fuel as [|fuel]; [cbn in Hfuel; lia|]. cbn [indexed_loop]. rewrite flat_cons_len, decide_False by lia.
  rewrite (ensure_true (¬ (max_lines _ <= _ ∨ _))) by lia. cbn [mbind result_bind].
  destruct (read_bounded_complete limits cs false (entry_bytes e) (flat log ++ more)
    (lenN (entry_bytes e) + 1 + lenN (flat log))) as (cs' & -> & Hgood' & Hcat'); try done; [lia|].
  cbn [mbind result_bind]. rewrite ensure_true by lia. cbn [mbind result_bind].
  rewrite decode_stored by done. cbn [mbind result_bind].
  replace (lenN (entry_bytes e) + 1 + lenN (flat log) - (lenN (entry_bytes e) + 1)) with (lenN (flat log)) by lia.
  match goal with |- context [indexed_loop _ _ _ _ _ _ _ _ ?p1] => set (p' := p1) end.
  destruct (IH Hlog fuel cs' (start + lenN (entry_items e)) p') as (p2 & Hrun & Hhead & Hbody);
    [cbn in Hfuel; lia|done..|cbn; lia|cbn; lia|].
  exists p2. split; [done|]. split; [by rewrite Hhead|]. rewrite Hbody. cbn [spec_page].
  rewrite decide_True by done. by apply spec_page_body.
Qed.

Lemma all_on_page_app q log log' start :
  all_on_page q (log ++ log') start ↔ all_on_page q log start ∧ all_on_page q log' (start + lenN (all_items log)).
Proof.
  revert start. induction log as [|e log IH]; intros start; cbn [app all_on_page].
  - cbn. autorewrite with lens. rewrite N.add_0_r. naive_solver.
  - rewrite IH, all_items_cons, lenN_app, N.add_assoc. naive_solver.
Qed.

(** Turns are all on the page when the first ends behind its start and the last begins
    before its end. *)
Lemma all_on_page_between q log start e log1 :
  log = e :: log1 → q_offset q < start + lenN (entry_items e) → q_offset q < page_end q →
  (∀ log2 e2, log = log2 ++ [e2] → start + lenN (all_items log2) < page_end q) →
  all_on_page q log start.
Proof.
  intros -> Hfirst Hne Hlast.
  assert (Hgen : ∀ pre post, e :: log1 = pre ++ post → pre ≠ [] → all_on_page q pre start).
  { intros pre. induction pre as [|e' pre IH] using rev_ind; intros post E Hpre; [done|].
    rewrite <- app_assoc in E. apply all_on_page_app. split.
    - destruct pre; [done|]. eapply IH; [exact E|done].
    - cbn [all_on_page]. split; [|done]. unfold on_page.
      assert (start + lenN (all_items pre) < page_end q).
      { destruct (exists_last (l := e' :: post)) as (l2 & e2 & E2); [done|].
        cbn in E. rewrite E2, app_assoc in E. specialize (Hlast _ _ E). rewrite all_items_app, lenN_app in Hlast. lia. }
      split; [|done]. destruct pre as [|e0 pre].
      + injection E as <- _. cbn in *. autorewrite with lens in *. lia.
      + injection E as <- _. rewrite all_items_cons, lenN_app. lia. }
  apply (Hgen (e :: log1) []); [by rewrite app_nil_r|done].
Qed.
End loops.

(** ** Where the index cuts *)

Lemma partition_point_spec {A} (p : A → bool) (l : list A) :
  (partition_point p l <= length l)%nat ∧
  (∀ i x, (i < partition_point p l)%nat → l !! i = Some x → p x = true) ∧
  (∀ x, l !! partition_point p l = Some x → p x = false).
Proof.
  induction l as [|x l (Hlen & Hbefore & Hat)]; cbn.
  - split_and!; [done|lia|done].
  - destruct (p x) eqn:E; [|split_and!; [lia|lia|naive_solver]].
    split_and!; [lia| |done]. intros [|i] y Hi Hy; [naive_solver|]. eapply Hbefore; [|done]. lia.
Qed.

Lemma partition_point_unique {A} (p : A → bool) (l : list A) k :
  (k <= length l)%nat → (∀ i x, l !! i = Some x → p x = true ↔ (i < k)%nat) → partition_point p l = k.
Proof.
  intros Hk Hp. destruct (partition_point_spec p l) as (Hlen & Hbefore & Hat).
  destruct (lt_eq_lt_dec (partition_point p l) k) as [[Hlt|]|Hgt]; [|done|].
  - destruct (lookup_lt_is_Some_2 l (partition_point p l)) as [x Hx]; [lia|].
    specialize (Hat _ Hx). apply Hp in Hx. destruct Hx as [_ Hx]. rewrite Hx in Hat by done. done.
  - destruct (lookup_lt_is_Some_2 l k) as [x Hx]; [lia|].
    pose proof (Hbefore _ _ Hgt Hx) as Hy. apply (Hp _ _ Hx) in Hy. lia.
Qed.

Section cut.
Context `{RecordCodec}.

(** The line before position [k], as the source reads its fields. *)
Lemma index_before (log : list HistoryEntry) k :
  (k <= length log)%nat →
  let line := match k with O => None | S i => loaded_index (load_log log) !! i end in
  from_option line_end 0 line = lenN (flat (take k log)) ∧
  from_option line_items 0 line = lenN (all_items (take k log)) ∧
  from_option line_hash [] line = flat (take k log) ∧
  from_option line_usage CoveredUsage_default line = covered_of (take k log).
Proof.
  intros Hk. destruct k as [|i]; [done|]. cbn zeta. rewrite load_log_index_lookup.
  destruct (lookup_lt_is_Some_2 log i) as [e ->]; [lia|]. done.
Qed.

Lemma index_last (log : list HistoryEntry) :
  let line := last (loaded_index (load_log log)) in
  from_option line_end 0 line = lenN (flat log) ∧ from_option line_items 0 line = lenN (all_items log) ∧
  from_option line_hash [] line = flat log ∧ from_option line_usage CoveredUsage_default line = covered_of log.
Proof.
  pose proof (index_before log (length log)) as Hb. rewrite take_ge in Hb by done.
  rewrite last_lookup, load_log_index_length. destruct (length log) eqn:E; cbn [Nat.pred] in *.
  - destruct log; [|done]. done.
  - by apply Hb.
Qed.

Lemma index_below (log : list HistoryEntry) b :
  partition_point (λ line, bool_decide (line_items line <= b)) (loaded_index (load_log log)) = below b log.
Proof.
  apply partition_point_unique; [rewrite load_log_index_length; apply below_le|].
  intros i line Hline. rewrite load_log_index_lookup in Hline. apply fmap_Some in Hline as (e & He & ->).
  rewrite bool_decide_eq_true. apply below_spec. by eapply lookup_lt_Some.
Qed.

(** Cutting the index by a test of the number of items. *)
Lemma index_partition (log : list HistoryEntry) (p : N → bool) :
  let k := partition_point (λ line, p (line_items line)) (loaded_index (load_log log)) in
  (k <= length log)%nat ∧
  ((0 < k)%nat → p (lenN (all_items (take k log))) = true) ∧
  ((k < length log)%nat → p (lenN (all_items (take (S k) log))) = false).
Proof.
  intros k. destruct (partition_point_spec (λ line, p (line_items line)) (loaded_index (load_log log)))
    as (Hlen & Hbefore & Hat). fold k in Hlen, Hbefore, Hat. rewrite load_log_index_length in Hlen.
  assert (Hlines : ∀ i, (i < length log)%nat → loaded_index (load_log log) !! i = Some (line_of (take (S i) log))).
  { intros i Hi. rewrite load_log_index_lookup. by destruct (lookup_lt_is_Some_2 log i Hi) as [e ->]. }
  split_and!; [done| |].
  - intros Hk. destruct k as [|i]; [lia|]. apply (Hbefore i _ ltac:(lia) (Hlines i ltac:(lia))).
  - intros Hk. apply (Hat _ (Hlines _ Hk)).
Qed.

(** The lines [first] to [m] of a history. *)
Definition segment (first m : nat) (log : list HistoryEntry) : list HistoryEntry := take (S m - first) (drop first log).

Lemma take_segment first m log : (first <= S m)%nat → take first log ++ segment first m log = take (S m) log.
Proof.
  intros Hm. unfold segment. rewrite <- (take_drop first (take (S m) log)). rewrite take_take, Nat.min_l by lia.
  f_equal. rewrite skipn_firstn_comm. done.
Qed.

Lemma segment_on_page q first m (log : list HistoryEntry) :
  (first <= m < length log)%nat → q_offset q < page_end q →
  q_offset q < lenN (all_items (take (S first) log)) →
  ((0 < m)%nat → lenN (all_items (take m log)) < page_end q) →
  all_on_page q (segment first m log) (lenN (all_items (take first log))).
Proof.
  intros Hm Hpe Hbehind Hlast.
  destruct (lookup_lt_is_Some_2 log first) as [e He]; [lia|].
  assert (∃ seg', segment first m log = e :: seg') as [seg' Hseg].
  { unfold segment. rewrite (drop_S _ e) by done. replace (S m - first)%nat with (S (m - first)) by lia. by eexists. }
  eapply all_on_page_between; [exact Hseg| |done|].
  - rewrite (take_S_r _ _ e), all_items_app, lenN_app in Hbehind by done.
    unfold all_items at 2 in Hbehind. cbn in Hbehind. by rewrite app_nil_r in Hbehind.
  - intros log2 e2 E2. rewrite <- lenN_app, <- all_items_app.
    pose proof (take_segment first m log ltac:(lia)) as Ht. rewrite E2, app_assoc in Ht.
    destruct (lookup_lt_is_Some_2 log m) as [x Hx]; [lia|]. rewrite (take_S_r _ _ x) in Ht by done.
    apply app_inj_tail in Ht as [-> _]. destruct m; [change (0 < page_end q); lia|]. apply Hlast. lia.
Qed.

(** The turns before the page, on it and behind it. *)
Lemma index_cut (log : list HistoryEntry) q :
  0 < q_limit q → lenN (all_items log) <= usize_max →
  let index := loaded_index (load_log log) in
  let first := partition_point (λ line, bool_decide (line_items line <= q_offset q)) index in
  let last_ := partition_point (λ line, bool_decide (line_items line < page_end q)) index in
  let start := match first with O => None | S i => index !! i end in
  ∃ seg post, log = take first log ++ seg ++ post ∧ (first <= length log)%nat ∧
    (if decide (q_limit q = 0 ∨ first = length index) then from_option line_end 0 start
     else from_option line_end 0 (index !! Nat.min last_ (length index - 1))) =
      lenN (flat (take first log)) + lenN (flat seg) ∧
    lenN (all_items (take first log)) <= q_offset q ∧
    (post = [] ∨ page_end q <= lenN (all_items (take first log ++ seg))) ∧
    all_on_page q seg (lenN (all_items (take first log))).
Proof.
  intros Hlimit Htotal index first last_ start.
  destruct (index_partition log (λ n, bool_decide (n <= q_offset q))) as (Hf1 & Hf2 & Hf3).
  destruct (index_partition log (λ n, bool_decide (n < page_end q))) as (Hl1 & Hl2 & Hl3).
  fold index in Hf1, Hf2, Hf3, Hl1, Hl2, Hl3. fold first in Hf1, Hf2, Hf3. fold last_ in Hl1, Hl2, Hl3.
  rewrite bool_decide_eq_true in Hf2, Hl2. rewrite bool_decide_eq_false in Hf3, Hl3.
  destruct (index_before log first Hf1) as (Hstart & _). fold index in Hstart. fold start in Hstart.
  assert (Hpre : lenN (all_items (take first log)) <= q_offset q).
  { destruct (decide (first = O)) as [->|]; [change (0 <= q_offset q); lia|]. apply Hf2. lia. }
  assert (Hlength : length index = length log) by apply load_log_index_length. rewrite Hlength.
  destruct (decide (q_limit q = 0 ∨ first = length log)) as [Hend|Hend].
  { exists [], (drop first log). rewrite Hstart. destruct Hend as [|Hend]; [lia|].
    rewrite drop_ge by lia. autorewrite with lens. rewrite app_nil_r, take_ge by lia.
    rewrite take_ge in Hpre by lia. split_and!; [done|done|lia|done|by left|done]. }
  assert (Hpe : q_offset q < page_end q).
  { pose proof (items_take_le (S first) (length log) log ltac:(lia)) as Hle. rewrite (take_ge log (length log)) in Hle by done.
    specialize (Hf3 ltac:(lia)). unfold page_end, saturating_add. lia. }
  assert (Hfl : (first <= last_)%nat).
  { destruct (decide (last_ < first)%nat) as [Hlf|]; [|lia].
    pose proof (items_take_le (S last_) first log ltac:(lia)). specialize (Hl3 ltac:(lia)). lia. }
  set (m := Nat.min last_ (length log - 1)).
  pose proof (take_segment first m log ltac:(lia)) as Hps.
  exists (segment first m log), (drop (S m) log). rewrite Hps. split_and!.
  - by rewrite app_assoc, Hps, take_drop.
  - done.
  - destruct (index_before log (S m) ltac:(lia)) as (Hm & _). fold index in Hm. rewrite Hm.
    by rewrite <- lenN_app, <- flat_app, Hps.
  - done.
  - destruct (decide (S m = length log)); [left; apply drop_ge; lia|right].
    replace m with last_ by lia. specialize (Hl3 ltac:(lia)). lia.
  - apply segment_on_page; [lia|done|specialize (Hf3 ltac:(lia)); lia|].
    intros Hm. destruct (decide (last_ = m)) as [<-|]; [by apply Hl2|].
    pose proof (items_take_le m last_ log ltac:(lia)). specialize (Hl2 ltac:(lia)). lia.
Qed.
End cut.

(** ** A page, read either way *)

Section pinned.
Context `{RecordCodecLaws} (sha256 : list N → list N).
(** A digest has 32 bytes. *)
Context (sha256_bytes : ∀ l, length (sha256 l) = 32%nat ∧ Forall (λ b, b < 256) (sha256 l)).

Lemma hex_char_digit d : d < 16 → encode_char (hex_char d) = [hex_char d] ∧ is_ascii_hexdigit (hex_char d) = true.
Proof.
  intros Hd. assert (Hin : d ∈ (N.of_nat <$> seq 0 16)).
  { apply list_elem_of_fmap. exists (N.to_nat d). rewrite elem_of_seq. lia. }
  clear Hd. revert d Hin. apply Forall_forall. by repeat constructor.
Qed.

Lemma valid_digest l : valid_sha256 (digest_hex sha256 l) = true.
Proof using sha256_bytes.
  unfold valid_sha256, digest_hex. destruct (sha256_bytes l) as [Hlen Hbytes].
  assert (Hhex : ∀ bs, Forall (λ b, b < 256) bs →
    let s := bs ≫= λ byte, [hex_char (byte / 16); hex_char (byte mod 16)] in
    as_bytes s = s ∧ forallb is_ascii_hexdigit s = true ∧ length s = (2 * length bs)%nat).
  { intros bs. induction 1 as [|b bs Hb _ (IH1 & IH2 & IH3)]; [done|]. cbn.
    destruct (hex_char_digit (b / 16)) as [E1 D1]; [by apply N.Div0.div_lt_upper_bound; lia|].
    destruct (hex_char_digit (b mod 16)) as [E2 D2]; [by apply N.mod_lt|].
    unfold as_bytes in *. cbn. rewrite E1, E2, D1, D2, IH1, IH2. cbn. split_and!; [done|done|lia]. }
  destruct (Hhex _ Hbytes) as (E & D & L). cbn zeta in *.
  rewrite <- as_bytes_len, E, D, andb_true_r. unfold lenN. rewrite L, Hlen. done.
Qed.

(** The first turn of [more] has items. *)
Definition starts_with_items (more : list HistoryEntry) : Prop := ∀ e more', more = e :: more' → entry_items e ≠ [].

(** The query is about [log]: it pins it by its size and hash; or it pins nothing and
    [log] is all there is, or all a loaded session shows. *)
Definition pins (q : Query) (log more : list HistoryEntry) : Prop :=
  (q_captured q = None ∧ q_revision q = None ∧
     (more = [] ∨ q_visible q = Some (lenN (all_items log)) ∧ starts_with_items more)) ∨
  (q_captured q = Some (lenN (flat log)) ∧ q_revision q = Some (digest_hex sha256 (flat log))).

(** The page is read by the index. *)
Definition by_index (index : option (list HistoryLine)) (q : Query) : Prop :=
  is_Some index ∧ (q_display q = None ∨ q_visible q ≠ None).

(** What [read_session] asks: it sees at most the history of a loaded session, which
    then checks no summary on disk, and the boundary of a loaded summary is at the end
    of a turn. *)
Record asks (indexed : Prop) (q : Query) (log more : list HistoryEntry) : Prop := mkAsks {
  ask_pins : pins q log more;
  ask_visible cap : q_visible q = Some cap → lenN (all_items log) <= cap ∧ mjoin (q_display q) = None ∧
    (¬ indexed → cap = lenN (all_items log) → ends_in_items log);
  ask_boundary b : q_boundary q = Some b →
    lenN (all_items (take (below b log) log)) = b ∨ (¬ indexed ∧ q_display q ≠ None)
}.

Definition empty_page (q : Query) (log : list HistoryEntry) : HistoryReadPage :=
  mkPage (lenN (flat log)) (digest_hex sha256 (flat log)) false (lenN (all_items log)) [] [] [] false
    (covered_below q log) (anchor_of sha256 q log) 0 0.
Definition history_page (log : list HistoryEntry) (q : Query) : HistoryReadPage := spec_page q log 0 (empty_page q log).

(** The file, opened at any place and read in any chunks. *)
Definition opens (open_at : N → Reader) (f : list N) : Prop :=
  ∀ n, good_chunks (chunks (open_at n)) ∧ concat (chunks (open_at n)) = drop (N.to_nat n) f ∧
       read_fails (open_at n) = false.

Lemma pinned_lines log more :
  Forall stored (log ++ more) →
  partition_point (λ line, bool_decide (line_end line <= lenN (flat log))) (loaded_index (load_log (log ++ more))) =
    length log.
Proof.
  intros Hst. apply partition_point_unique; [rewrite load_log_index_length, length_app; lia|].
  intros i line Hline. rewrite load_log_index_lookup in Hline. apply fmap_Some in Hline as (e & He & ->).
  rewrite bool_decide_eq_true. cbn [line_end line_of].
  assert (Hlog : flat log = flat (take (length log) (log ++ more))) by by rewrite take_app_length.
  split.
  - intros Hle. destruct (decide (i < length log)%nat); [done|]. exfalso.
    rewrite (take_S_r _ _ e), flat_app, lenN_app in Hle by done.
    pose proof (flat_take_le (length log) i (log ++ more) ltac:(lia)) as Hm. rewrite <- Hlog in Hm.
    assert (0 < lenN (flat [e])); [|lia]. rewrite flat_cons_len. lia.
  - intros Hlt. rewrite Hlog. apply flat_take_le. lia.
Qed.

(** The lines a loaded session shows. *)
Lemma visible_lines log more :
  starts_with_items more → below (lenN (all_items log)) (log ++ more) = length log.
Proof.
  intros Hmore. apply below_unique; [rewrite length_app; lia|]. intros i Hi.
  pose proof (take_app_length log more) as Hlog. split.
  - intros Hle. destruct (decide (i < length log)%nat) as [|Hge]; [done|]. exfalso. destruct more as [|e more].
    { rewrite app_nil_r in Hi. lia. }
    assert (He : take (S (length log)) (log ++ e :: more) = log ++ [e]).
    { rewrite (take_S_r _ _ e); [by rewrite Hlog|]. by apply list_lookup_middle. }
    pose proof (items_take_le (S (length log)) (S i) (log ++ e :: more) ltac:(lia)) as Hm.
    rewrite He, all_items_app, lenN_app, all_items_cons, lenN_app in Hm.
    pose proof (Hmore e more eq_refl). unfold lenN in *. destruct (entry_items e); [done|cbn in Hm; lia].
  - intros Hlt. pose proof (items_take_le (S i) (length log) (log ++ more) ltac:(lia)) as Hm. by rewrite Hlog in Hm.
Qed.

(** The index up to what the query is about. *)
Lemma asked_index q log more :
  Forall stored (log ++ more) → pins q log more →
  (q_captured q = None → ∀ cap, q_visible q = Some cap → lenN (all_items log) <= cap) →
  take (match q_captured q with
        | Some end_ => partition_point (λ line, bool_decide (line_end line <= end_)) (loaded_index (load_log (log ++ more)))
        | None => match q_visible q with
                  | Some cap => partition_point (λ line, bool_decide (line_items line <= cap)) (loaded_index (load_log (log ++ more)))
                  | None => length (loaded_index (load_log (log ++ more)))
                  end
        end) (loaded_index (load_log (log ++ more))) = loaded_index (load_log log).
Proof.
  intros Hst Hpins Hcap. destruct Hpins as [(Hc & _ & [->|[Hv Hmore]])|(-> & _)].
  - rewrite Hc, app_nil_r. destruct (q_visible q) as [cap|]; [|by rewrite take_ge].
    specialize (Hcap Hc cap eq_refl). rewrite index_below, take_ge; [done|]. rewrite load_log_index_length.
    assert (below cap log = length log) as ->; [|done]. apply below_unique; [done|]. intros i Hi.
    split; [done|intros _]. pose proof (items_take_le (S i) (length log) log ltac:(lia)) as Hm.
    rewrite (take_ge log (length log)) in Hm by done. lia.
  - rewrite Hc, Hv, index_below, visible_lines by done. by rewrite load_log_index_take, take_app_length.
  - rewrite pinned_lines by done. by rewrite load_log_index_take, take_app_length.
Qed.

Lemma indexed_page_log q log more :
  Forall stored (log ++ more) → asks True q log more → mjoin (q_display q) = None →
  let index := loaded_index (load_log log) in
  let first := partition_point (λ line, bool_decide (line_items line <= q_offset q)) index in
  let last_ := partition_point (λ line, bool_decide (line_items line < page_end q)) index in
  let start := match first with O => None | S i => index !! i end in
  indexed_page sha256 (loaded_index (load_log (log ++ more))) (q_offset q) (q_limit q) (q_visible q) (q_captured q)
      (q_revision q) (q_boundary q) =
    Ok (mkIndexed (from_option line_end 0 start)
          (if decide (q_limit q = 0 ∨ first = length index) then from_option line_end 0 start
           else from_option line_end 0 (index !! Nat.min last_ (length index - 1)))
          (from_option line_items 0 start) (empty_page q log)).
Proof.
  intros Hst [Hpins Hvis Hbound] Hdisplay. cbn zeta. unfold indexed_page.
  rewrite asked_index by (try done; intros _ cap Hcap; by apply Hvis).
  destruct (index_last log) as (-> & -> & -> & _).
  rewrite (ensure_true (from_option _ _ _ || from_option _ _ _ = false)).
  2:{ apply orb_false_iff. split.
      - destruct Hpins as [(-> & _)|(-> & _)]; [done|]. cbn. apply bool_decide_false. naive_solver.
      - destruct (q_visible q) as [cap|]; [|done]. cbn. apply bool_decide_false. destruct (Hvis cap eq_refl). lia. }
  cbn [mbind result_bind].
  rewrite ensure_true.
  2:{ destruct Hpins as [(_ & -> & _)|(_ & ->)]; [done|]. cbn. apply bool_decide_false. naive_solver. }
  cbn [mbind result_bind]. unfold empty_page, covered_below, anchor_of. rewrite Hdisplay.
  destruct (q_boundary q) as [b|]; [|done]. rewrite (index_below log b), load_log_index_take.
  destruct (index_last (take (below b log) log)) as (_ & -> & _ & ->).
  destruct (Hbound b eq_refl) as [Hb|[[] _]]; [|done]. by rewrite ensure_true.
Qed.

(** A pinned history is not answered when the session shows less of it, or when the
    boundary is inside a turn or behind all of them. *)
Lemma indexed_page_refuses q log more :
  Forall stored (log ++ more) → pins q log more → q_captured q ≠ None →
  (∃ cap, q_visible q = Some cap ∧ cap < lenN (all_items log)) ∨
  (∃ b, q_boundary q = Some b ∧ lenN (all_items (take (below b log) log)) ≠ b) →
  indexed_page sha256 (loaded_index (load_log (log ++ more))) (q_offset q) (q_limit q) (q_visible q) (q_captured q)
      (q_revision q) (q_boundary q) = Err HistoryChanged.
Proof.
  intros Hst Hpins Hcap Hbad. unfold indexed_page. rewrite (asked_index q log more Hst Hpins (λ Hc, False_ind _ (Hcap Hc))).
  destruct (index_last log) as (-> & -> & -> & _).
  assert (from_option (λ end_, bool_decide (end_ ≠ lenN (flat log))) false (q_captured q) = false) as ->.
  { destruct Hpins as [(-> & _)|(-> & _)]; [done|]. cbn. apply bool_decide_false. naive_solver. }
  cbn [orb]. destruct (from_option (λ cap, bool_decide (cap < lenN (all_items log))) false (q_visible q)) eqn:Hfit; [done|].
  rewrite (ensure_true (false = false)) by done. cbn [mbind result_bind].
  rewrite ensure_true.
  2:{ destruct Hpins as [(_ & -> & _)|(_ & ->)]; [done|]. cbn. apply bool_decide_false. naive_solver. }
  cbn [mbind result_bind]. destruct Hbad as [(cap & Ev & Hlt)|(b & -> & Hne)].
  - rewrite Ev in Hfit. cbn in Hfit. by apply bool_decide_eq_false in Hfit.
  - rewrite (index_below log b), load_log_index_take.
    destruct (index_last (take (below b log) log)) as (_ & -> & _ & ->).
    unfold ensure. by rewrite (decide_False (P := lenN (all_items (take (below b log) log)) = b)).
Qed.

(** What a read returns: the page, up to how much was scanned for it. *)
Definition returns (r : result StoreError HistoryReadPage) (p : HistoryReadPage) : Prop :=
  ∃ p', r = Ok p' ∧ page_head p' = page_head p ∧ page_body p' = page_body p.

Lemma read_indexed_returns q log more open_at limits :
  Forall stored (log ++ more) → asks True q log more → mjoin (q_display q) = None →
  0 < q_limit q → lenN (all_items log) <= usize_max →
  roomy limits log → opens open_at (flat (log ++ more)) →
  returns (indexed ← indexed_page sha256 (loaded_index (load_log (log ++ more))) (q_offset q) (q_limit q) (q_visible q)
             (q_captured q) (q_revision q) (q_boundary q);
           read_indexed_page indexed (q_offset q) (q_limit q) (q_times q) limits (open_at (ip_start indexed)))
    (history_page log q).
Proof using H1 sha256_bytes.
  intros Hst Hasks Hdisplay Hlimit Htotal [Hexp Hlines Hbytes _] Hopens.
  rewrite (indexed_page_log q log more) by done. cbn [mbind result_bind].
  destruct (index_cut log q Hlimit Htotal) as (seg & post & Hlog & Hf & Hend & Hpre & Hpost & Hon).
  rewrite Hend. clear Hend. set (first := partition_point _ _) in *.
  destruct (index_before log first Hf) as (-> & -> & _). set (pre := take first log) in *.
  unfold read_indexed_page, check_history_scan. cbn [ip_start ip_end first_item ip_page].
  rewrite ensure_true by apply Hexp. cbn [mbind result_bind].
  replace (lenN (flat pre) + lenN (flat seg) - lenN (flat pre)) with (lenN (flat seg)) by lia.
  destruct (Hopens (lenN (flat pre))) as (Hgood & Hcat & Hok).
  destruct (open_at (lenN (flat pre))) as [cs fails]. cbn in Hgood, Hcat, Hok. subst fails.
  assert (Hst' : Forall stored seg).
  { rewrite Hlog in Hst. rewrite !Forall_app in Hst. tauto. }
  assert (Hsizes : lenN log = lenN pre + lenN seg + lenN post ∧
                   lenN (flat log) = lenN (flat pre) + lenN (flat seg) + lenN (flat post)).
  { rewrite Hlog, !flat_app. autorewrite with lens. lia. }
  destruct (indexed_loop_log limits q seg (flat (post ++ more)) (N.to_nat (lenN (flat seg))) cs
    (lenN (all_items pre)) (empty_page q log)) as (p & Hrun & Hhead & Hbody); try done.
  { pose proof (flat_length seg). unfold lenN. lia. }
  { rewrite Hcat. unfold lenN. rewrite Nat2N.id, Hlog, <- !app_assoc, flat_app.
    rewrite drop_app_length. by rewrite flat_app. }
  { cbn. lia. }
  { cbn. lia. }
  exists p. split; [done|]. unfold history_page. rewrite spec_page_head. split; [done|]. rewrite Hbody.
  rewrite Hlog at 2. rewrite !spec_page_app. rewrite (spec_page_skip q pre) by lia.
  destruct Hpost as [->|Hpost]; [done|]. rewrite (spec_page_skip q post); [done|].
  right. rewrite all_items_app, lenN_app in Hpost. lia.
Qed.

Lemma scan_file_returns q log more open_at limits :
  Forall stored (log ++ more) → asks False q log more → lenN (all_items log) <= usize_max →
  roomy limits log → opens open_at (flat (log ++ more)) →
  returns (scan_file sha256 (lenN (flat (log ++ more))) (open_at 0) q limits) (history_page log q).
Proof using H1 sha256_bytes.
  intros Hst [Hpins Hvis Hbound] Htotal [Hexp Hlines Hbytes Hmax] Hopens. unfold scan_file.
  destruct (Hopens 0) as (Hgood & Hcat & Hok). destruct (open_at 0) as [cs fails]. cbn in Hgood, Hcat, Hok. subst fails.
  assert (Hflat : lenN (flat (log ++ more)) = lenN (flat log) + lenN (flat more)) by by rewrite flat_app, lenN_app.
  set (target := default (lenN (flat (log ++ more))) (q_captured q)).
  assert (Htarget : lenN (flat log) <= target <= lenN (flat (log ++ more)) ∧
    (target = lenN (flat log) ∨ q_captured q = None ∧ q_visible q = Some (lenN (all_items log)))).
  { unfold target. destruct Hpins as [(-> & _ & [->|[-> _]])|(-> & _)]; cbn [default]; unfold id.
    - rewrite app_nil_r. split; [lia|by left].
    - split; [lia|by right].
    - split; [lia|by left]. }
  destruct Htarget as [Hle Htarget].
  rewrite (ensure_true (¬ _ < target)) by lia. cbn [mbind result_bind].
  rewrite (ensure_true (from_option _ _ _ = true)); [|destruct Hpins as [(_ & -> & _)|(_ & ->)]; [done|apply valid_digest]].
  cbn [mbind result_bind]. unfold check_history_scan. rewrite (ensure_true (expired _ _ = false)) by apply Hexp.
  cbn [mbind result_bind].
  assert (Hrev : from_option (λ rev, bool_decide (rev ≠ digest_hex sha256 (flat log))) false (q_revision q) = false).
  { destruct Hpins as [(_ & -> & _)|(_ & ->)]; [done|]. cbn. apply bool_decide_false. naive_solver. }
  destruct (decide (q_visible q = Some 0)) as [Hzero|Hzero].
  { destruct (Hvis 0 Hzero) as (Hz & Hdis & Hends). assert (0 = lenN (all_items log)) as Hnone by lia.
    assert (log = []) as ->.
    { apply (all_items_full [] log); [apply Hends; naive_solver|done]. }
    rewrite ensure_true; [|destruct Hpins as [(-> & _)|(-> & _)]; [done|apply bool_decide_false; intros Hne; by apply Hne]].
    cbn [mbind result_bind]. unfold finish_empty_history_page. rewrite ensure_true by done. cbn [mbind result_bind].
    eexists. split; [done|]. unfold history_page, empty_page, covered_below, anchor_of. rewrite Hdis.
    by destruct (q_boundary q). }
  set (st := N.min target (max_bytes limits)).
  assert (Hstl : lenN (flat log) <= st) by (unfold st; lia).
  assert (Hfull : st = lenN (flat log) → target = lenN (flat log)).
  { unfold st, MAX_LOOP_RECORD_BYTES in *. lia. }
  apply Forall_app in Hst as [Hst _].
  change (mkScan (mkReader cs false) st 0 [] 0 0 CoveredUsage_default HistoryReadPage_default
    match mjoin (q_display q) with Some _ => false | None => true end 0) with
    (mkScan (mkReader cs false) st (lenN (flat [])) (flat []) (lenN (@nil HistoryEntry)) (lenN (all_items []))
       CoveredUsage_default (spec_page q [] 0 HistoryReadPage_default) (match mjoin (q_display q) with Some _ => false | None => true end) 0).
  assert (mkScan (mkReader cs false) st (lenN (flat [])) (flat []) (lenN (@nil HistoryEntry)) (lenN (all_items []))
       CoveredUsage_default (spec_page q [] 0 HistoryReadPage_default) (match mjoin (q_display q) with Some _ => false | None => true end) 0
    = scanned sha256 q st [] (mkReader cs false) 0) as ->.
  { unfold scanned, covered_below, anchor_of. rewrite N.sub_0_r. f_equal. by destruct (q_boundary q). }
  destruct (scan_loop_log sha256 limits q st target log (flat more) [] (N.to_nat st) cs (mkReader cs false) 0)
    as (rd & ret & stop & Hrun & Hstop); try done; cbn [app]; try done.
  { pose proof (flat_length log). unfold lenN in *. lia. }
  { intros b Hb. destruct (Hbound b Hb) as [|[_ ?]]; [by left|by right]. }
  { intros cap Hcap. destruct (Hvis cap Hcap) as (? & _ & Hends). split; [done|]. apply Hends. naive_solver. }
  { destruct Htarget as [Ht|[_ Hv]]; [left; unfold st; lia|right]. split; [done|].
    assert (0 < lenN (all_items log)) as Hpos by (destruct (decide (lenN (all_items log) = 0)) as [Hz|]; [by rewrite Hz in Hv|lia]).
    split; [done|]. by intros ->. }
  { by rewrite Hcat, flat_app. }
  cbn [app] in Hrun, Hstop. rewrite Hrun. cbn [mbind result_bind]. unfold scan_finish.
  change (complete_end (scanned sha256 q st log rd ret)) with (lenN (flat log)).
  change (hasher (scanned sha256 q st log rd ret)) with (flat log).
  change (remaining (scanned sha256 q st log rd ret)) with (st - lenN (flat log)).
  rewrite (ensure_true (_ ∨ ¬ st < target)) by (destruct Hstop as [[-> Hs]| ->]; [right; rewrite (Hfull (eq_sym Hs)); lia|by left]).
  cbn [mbind result_bind].
  rewrite (ensure_true (_ ∨ st - _ = 0)) by (destruct Hstop as [[-> Hs]| ->]; [right; lia|by left]). cbn [mbind result_bind].
  rewrite (ensure_true (from_option (λ _, bool_decide (lenN (flat log) ≠ target)) false (q_captured q) = false)).
  2:{ destruct Htarget as [Ht|[-> _]]; [|done]. rewrite Ht.
      destruct (q_captured q); [|done]. cbn [from_option]. apply bool_decide_false. intros Hne. by apply Hne. }
  cbn [mbind result_bind]. rewrite ensure_true by done. cbn [mbind result_bind].
  eexists. split; [done|]. unfold history_page. rewrite spec_page_head. split.
  - unfold page_head, empty_page, scanned. cbn. by destruct Hstop as [[-> _]| ->].
  - by apply (spec_page_body q log 0 HistoryReadPage_default (empty_page q log)).
Qed.

(** C40 A page of a session's history is the slice that was asked for, whether it is read
    through the index or by scanning the file, and in whatever chunks the file comes.
    The history is what the client pinned by size and hash, while turns are appended
    behind it; else what a loaded session shows ([visible], at most the history it has
    loaded); else all turns of the file.  The page carries the usage of the turns below
    the boundary the client gave, and on a cold display whether the summary on disk is
    anchored in this history.  Through the index a pinned history that the session no
    longer shows, or a boundary that is not the end of a turn, is refused as changed.
    The file holds whole records; a page asks for at least one item. *)
Theorem history_page_correct q log more open_at limits index :
  Forall stored (log ++ more) → pins q log more → 0 < q_limit q → lenN (all_items log) <= usize_max →
  roomy limits log → opens open_at (flat (log ++ more)) →
  index = None ∨ index = Some (loaded_index (load_log (log ++ more))) →
  let answer := scan_history_page sha256 index (lenN (flat (log ++ more))) open_at q limits in
  let page := history_page log q in
  (asks (by_index index q) q log more →
    returns answer page ∧
    page_items page = take (N.to_nat (q_limit q)) (drop (N.to_nat (q_offset q)) (all_items log)) ∧
    captured_end page = lenN (flat log) ∧ revision page = digest_hex sha256 (flat log) ∧
    total_items page = lenN (all_items log) ∧ page_covered page = covered_below q log ∧
    summary_anchor_valid page = anchor_of sha256 q log) ∧
  (by_index index q → q_captured q ≠ None →
    (∃ cap, q_visible q = Some cap ∧ cap < lenN (all_items log)) ∨
    (∃ b, q_boundary q = Some b ∧ lenN (all_items (take (below b log) log)) ≠ b) →
    answer = Err HistoryChanged).
Proof using H1 sha256_bytes.
  intros Hst Hpins Hlimit Htotal Hroomy Hopens Hindex answer page. unfold answer, scan_history_page.
  rewrite ensure_true; [|by destruct Hpins as [(-> & -> & _)|(-> & ->)]]. cbn [mbind result_bind]. split.
  2:{ intros [[x ->] Hby] Hcap Hbad. destruct Hindex as [|[= ->]]; [done|]. rewrite decide_True by done.
      by rewrite (indexed_page_refuses q log more). }
  intros Hasks. split.
  { destruct (decide (q_display q = None ∨ q_visible q ≠ None)) as [Hby|Hby].
    2:{ assert (asks False q log more) as Hasks'.
        { destruct Hasks as [A B C]. unfold by_index in B, C. split; [done|naive_solver|naive_solver]. }
        destruct Hindex as [->| ->]; [by apply scan_file_returns|]. by apply scan_file_returns. }
    destruct Hindex as [->| ->].
    - apply scan_file_returns; try done. destruct Hasks as [A B C]. unfold by_index, is_Some in B, C.
      split; [done|naive_solver|naive_solver].
    - apply read_indexed_returns; try done.
      + destruct Hasks as [A B C]. unfold by_index in B, C. split; [done|naive_solver|naive_solver].
      + destruct Hby as [->|Hv]; [done|]. destruct (q_visible q) as [cap|] eqn:Ev; [|done]. by apply (ask_visible _ _ _ _ Hasks cap). }
  pose proof (spec_page_head q log 0 (empty_page q log)) as Hh. unfold page_head, history_page in *.
  split_and!; [|unfold page; unfold history_page; by simplify_eq..].
  unfold page, history_page. rewrite spec_page_items. cbn [page_items empty_page app]. unfold between.
  rewrite N.max_l, N.sub_0_r by lia. unfold page_end, saturating_add.
  destruct (decide (q_offset q + q_limit q <= usize_max)) as [Hle|Hgt].
  { rewrite N.min_l by done. f_equal. lia. }
  rewrite N.min_r by lia. unfold lenN in Htotal. rewrite !take_ge; [done|..]; rewrite length_drop; lia.
Qed.
End pinned.

(** ** A concrete page *)

Module PageSample.
Import DurableSample.
#[local] Existing Instance sample_values.
#[local] Existing Instance sample_value_laws.
#[local] Existing Instance sample_codec.
#[local] Existing Instance sample_codec_laws.

Definition entry (id : N) : HistoryEntry := mkHistoryEntry (text id) (record id) (items (record id)).
Definition sha256 (_ : list N) : list N := replicate 32 171.
Definition history : list N := flat [entry 1; entry 2].
Definition open_at (n : N) : Reader :=
  mkReader (match drop (N.to_nat n) history with
            | [] => []
            | [b] => [[b]]
            | b :: chunk => [[b]; chunk]
            end) false.

Lemma entry_stored id : id = 1 ∨ id = 2 → stored (entry id).
Proof. intros [->| ->]; (split_and!; [done|done|by_compute|by_compute]). Qed.

Lemma opens_sample : opens open_at history.
Proof.
  intros n. unfold open_at. destruct (decide (n < 8)) as [Hn|Hn].
  - assert (Hin : n ∈ (N.of_nat <$> seq 0 8)).
    { apply list_elem_of_fmap. exists (N.to_nat n). rewrite elem_of_seq. lia. }
    clear Hn. revert n Hin. apply Forall_forall.
    repeat (apply Forall_cons; split; [split; [by repeat constructor|done]|]). by constructor.
  - rewrite drop_ge; [split; [by constructor|done]|]. change (length history) with 8%nat. lia.
Qed.

(** A display of a loaded session that shows both turns: the first turn is pinned and
    covered by a summary. *)
Definition query : Query :=
  mkQuery 0 10 (Some 2) None (Some 4) (Some (digest_hex sha256 (flat [entry 1]))) (Some 1) (Some None).
(** The first page of a session that has loaded the first turn only. *)
Definition first_query : Query := mkQuery 0 10 (Some 1) None None None None None.
(** The pinned turn, asked for with a summary of two items. *)
Definition late_query : Query :=
  mkQuery 0 10 (Some 2) None (Some 4) (Some (digest_hex sha256 (flat [entry 1]))) (Some 2) None.

Definition limits : HistoryScanLimits := mkLimits 17825792 10 (λ _, false).
Definition index : option (list HistoryLine) := Some (loaded_index (load_log ([entry 1] ++ [entry 2]))).

Lemma sha256_bytes l : length (sha256 l) = 32%nat ∧ Forall (λ b, b < 256) (sha256 l).
Proof. split; [done|]. by repeat constructor. Qed.

Lemma all_stored : Forall stored ([entry 1] ++ [entry 2]).
Proof. repeat constructor; apply entry_stored; auto. Qed.
Lemma page_roomy : roomy limits [entry 1].
Proof. split; [done|by_compute..]. Qed.

Lemma query_asks : asks sha256 (by_index index query) query [entry 1] [entry 2].
Proof.
  split; [by right| |].
  - intros cap [= <-]. split; [by_compute|]. split; [done|]. intros _ Hc. by vm_compute in Hc.
  - intros b [= <-]. left. by_compute.
Qed.

Lemma first_asks : asks sha256 (by_index index first_query) first_query [entry 1] [entry 2].
Proof.
  split.
  - left. split; [done|]. split; [done|]. right. split; [done|]. by intros e more [= <- <-].
  - intros cap [= <-]. split; [by_compute|]. split; [done|]. intros Hno. destruct Hno. split; [by eexists|by left].
  - done.
Qed.

Lemma late_refused :
  by_index index late_query ∧ q_captured late_query ≠ None ∧
  (∃ b, q_boundary late_query = Some b ∧ lenN (all_items (take (below b [entry 1]) [entry 1])) ≠ b).
Proof. split_and!; [split; [by eexists|by left]|done|]. exists 2. split; [done|]. by vm_compute. Qed.

Example history_page_correct_witness :
  let read q := scan_history_page sha256 index (lenN history) open_at q limits in
  let page q := history_page sha256 [entry 1] q in
  returns (read query) (page query) ∧ page_items (page query) = items (record 1) ∧
  page_covered (page query) = covered_of [entry 1] ∧
  returns (read first_query) (page first_query) ∧ total_items (page first_query) = 1 ∧
  read late_query = Err HistoryChanged.
Proof.
  intros read page.
  pose proof (λ q (Hpins : pins sha256 q [entry 1] [entry 2]) (Hlimit : 0 < q_limit q),
    history_page_correct sha256 sha256_bytes q [entry 1] [entry 2] open_at limits index all_stored Hpins Hlimit
      ltac:(by_compute) page_roomy opens_sample (or_intror eq_refl)) as Hpage.
  destruct (Hpage query (ask_pins _ _ _ _ _ query_asks) eq_refl) as [Hq _].
  destruct (Hq query_asks) as (Hr & Hi & _ & _ & _ & Hc & _).
  destruct (Hpage first_query (ask_pins _ _ _ _ _ first_asks) eq_refl) as [Hf _].
  destruct (Hf first_asks) as (Hr' & _ & _ & _ & Ht & _).
  destruct (Hpage late_query (or_intror (conj eq_refl eq_refl)) eq_refl) as [_ Hl].
  destruct late_refused as (L1 & L2 & L3).
  split; [exact Hr|]. split; [exact (eq_trans Hi eq_refl)|]. split; [exact (eq_trans Hc eq_refl)|].
  split; [exact Hr'|]. split; [exact (eq_trans Ht eq_refl)|]. exact (Hl L1 L2 (or_intror L3)).
Defined.
End PageSample.
