(* ===== verification/ToolRecord.v ===== *)
(** The facts kept of one tool call, [tool_data/record.rs], with the types of
    [tool_data/types.rs] and [tool_data.rs] it is made of.

    The output of a process is retained as a window: the last bytes that were read,
    with the raw offset of the first.  A buffer has a capacity, which is what the
    budget counts; how much an allocation grants is an argument.  The theorems here
    say what a window holds of everything that was ever pushed. *)

From S2P Require Import Prelude RustStr.
Open Scope N_scope.

Definition MAX_TOOL_STREAM_BYTES : N := 1024 * 1024.
Definition COMMAND_METADATA_BYTES : N := 128.
Definition CHANGE_METADATA_BYTES : N := 512.

(** ** Types *)

Inductive ToolDataStream := Input | Output | Stdout | Stderr.
#[global] Instance ToolDataStream_eq_dec : EqDecision ToolDataStream.
Proof. solve_decision. Defined.
Definition encoding (s : ToolDataStream) : str :=
  match s with Input => lit "utf8_json" | Output => lit "utf8" | Stdout | Stderr => lit "base64" end.
Definition is_process (s : ToolDataStream) : bool := match s with Stdout | Stderr => true | _ => false end.

Inductive ToolDataAvailability := Pending | Unavailable | Available | Partial | Expired.
#[global] Instance ToolDataAvailability_eq_dec : EqDecision ToolDataAvailability.
Proof. solve_decision. Defined.

Inductive ToolPhase := Reading | Writing | Matching | Committing | PhaseRunning.
Definition from_wire (message : str) : option ToolPhase :=
  if decide (message = lit "reading") then Some Reading else
  if decide (message = lit "writing") then Some Writing else
  if decide (message = lit "matching") then Some Matching else
  if decide (message = lit "committing") then Some Committing else
  if decide (message = lit "running") then Some PhaseRunning else None.

(** [minicore_runtime::tools::ToolResultOutcome]. *)
Inductive ToolResultOutcome := OutcomeSuccess | OutcomeFailed | OutcomeDenied | OutcomeCancelled | OutcomeInputProvided.
#[global] Instance ToolResultOutcome_eq_dec : EqDecision ToolResultOutcome.
Proof. solve_decision. Defined.

Inductive ToolExecutionState :=
  | Requested | AwaitingPolicy | Running | Cancelling | Succeeded | Failed | Denied | Cancelled | InputProvided.
#[global] Instance ToolExecutionState_eq_dec : EqDecision ToolExecutionState.
Proof. solve_decision. Defined.

Definition from_outcome (o : ToolResultOutcome) : ToolExecutionState :=
  match o with
  | OutcomeSuccess => Succeeded | OutcomeFailed => Failed | OutcomeDenied => Denied
  | OutcomeCancelled => Cancelled | OutcomeInputProvided => InputProvided
  end.
Definition state_terminal (s : ToolExecutionState) : bool :=
  match s with Succeeded | Failed | Denied | Cancelled | InputProvided => true | _ => false end.

Record ToolRef := mkRef { ref_session : N; ref_loop : N; ref_request : N; ref_call : str }.
#[global] Instance ToolRef_eq_dec : EqDecision ToolRef.
Proof. solve_decision. Defined.
#[global] Instance ToolRef_countable : Countable ToolRef.
Proof.
  apply (inj_countable' (λ r, (ref_session r, ref_loop r, ref_request r, ref_call r)) (λ '(s, l, q, c), mkRef s l q c)).
  by intros [].
Defined.

Inductive ToolSubject := File (path : str) | Command (script cwd : str) | Other.

Inductive CommandStatus :=
  | CmdRunning | CmdCancelling | CmdExited | CmdCancelled | CmdTimedOut | CmdSpawnFailed | CmdFailed.
#[global] Instance CommandStatus_eq_dec : EqDecision CommandStatus.
Proof. solve_decision. Defined.
Definition command_terminal (s : CommandStatus) : bool :=
  match s with CmdRunning | CmdCancelling => false | _ => true end.

Record CommandResult := mkCommand {
  status : CommandStatus;
  exit_code : option Z;
  signal : option Z;
  termination_confirmed : bool;
  stdout_base_offset : N;
  stdout_observed_end : N;
  stderr_base_offset : N;
  stderr_observed_end : N;
  output_complete : bool;
  output_truncated : bool
}.

Inductive ToolRecordingState := MemoryOnly | Saved | RecordingFailed.

(** A vector or a deque of bytes with its capacity. *)
Record Buffer := mkBuffer { contents : list N; capacity : N }.
Definition Buffer_new : Buffer := mkBuffer [] 0.

Inductive ChangeKind := Added | Modified | Deleted | Renamed | KindConflict | KindUnknown.
Inductive ChangeRevision :=
  | Missing
  | Content (sha256 : str) (bytes : N)
  | Metadata (bytes : N) (modified_unix_ms : option N)
  | RevisionUnknown.
Inductive ChangeCommitState := NotCommitted | Applied | CommitConflict | CommitUnknown.
Inductive ChangeCoverage := CoverageComplete | CoveragePartial | CoverageUnavailable.

#[global] Instance ChangeKind_eq_dec : EqDecision ChangeKind.
Proof. solve_decision. Defined.
#[global] Instance ChangeRevision_eq_dec : EqDecision ChangeRevision.
Proof. solve_decision. Defined.
#[global] Instance ChangeCommitState_eq_dec : EqDecision ChangeCommitState.
Proof. solve_decision. Defined.
#[global] Instance ChangeCoverage_eq_dec : EqDecision ChangeCoverage.
Proof. solve_decision. Defined.

Record StoredFileChange := mkStoredChange {
  change_path : str;
  kind : ChangeKind;
  before : ChangeRevision;
  after : ChangeRevision;
  commit_state : ChangeCommitState;
  coverage : ChangeCoverage;
  before_captured : bool;
  after_captured : bool
}.
#[global] Instance StoredFileChange_eq_dec : EqDecision StoredFileChange.
Proof. solve_decision. Defined.

(** [FileChange]: the stored part and the snapshots. *)
Record FileChange := mkChange {
  stored : StoredFileChange;
  before_bytes : option Buffer;
  after_bytes : option Buffer;
  before_corrupt : bool;
  after_corrupt : bool
}.

(** ** The window of a stream *)

Record StreamWindow := mkWindow {
  bytes : Buffer;
  start_offset : N;
  observed_end : N;
  seen : bool;
  complete : bool;
  truncated : bool;
  expired : bool;
  corrupt : bool
}.
Definition StreamWindow_default : StreamWindow := mkWindow Buffer_new 0 0 false false false false false.

Record StreamPush := mkPush { push_base_offset : N; push_next_offset : N; push_dropped : bool }.

Section window.
(** The capacity an allocation for so many bytes gets. *)
Context (grant : N → N).

(** [reserve_exact]. *)
Definition reserve_exact (additional : N) (b : Buffer) : Buffer :=
  let needed := lenN (contents b) + additional in
  if decide (needed <= capacity b) then b else mkBuffer (contents b) (grant needed).

(** The bytes of the window after a chunk that fits behind them. *)
Definition extend_within (chunk : list N) (b : Buffer) : Buffer :=
  let old_len := lenN (contents b) in
  let total := saturating_add old_len (lenN chunk) in
  let b := if decide (capacity b < total) then
             let target := N.min (N.max (N.min (capacity b * 2) usize_max) total) MAX_TOOL_STREAM_BYTES in
             reserve_exact (target - old_len) b
           else b in
  mkBuffer (contents b ++ chunk) (capacity b).

(** The last bytes of the window and of the chunk. *)
Definition extend_beyond (chunk : list N) (b : Buffer) : Buffer :=
  let old_len := lenN (contents b) in
  let excess := saturating_add old_len (lenN chunk) - MAX_TOOL_STREAM_BYTES in
  let old_dropped := N.min excess old_len in
  let chunk_dropped := excess - old_dropped in
  let b := mkBuffer (drop (N.to_nat old_dropped) (contents b)) (capacity b) in
  let b := if decide (capacity b < MAX_TOOL_STREAM_BYTES)
           then reserve_exact (MAX_TOOL_STREAM_BYTES - lenN (contents b)) b else b in
  mkBuffer (contents b ++ drop (N.to_nat chunk_dropped) chunk) (capacity b).

Definition push (chunk : list N) (w : StreamWindow) : StreamWindow * StreamPush :=
  let start := if decide (contents (bytes w) = []) then observed_end w else start_offset w in
  let base_offset := observed_end w in
  let observed := N.min (observed_end w + lenN chunk) u64_max in
  if decide (chunk = []) then
    (mkWindow (bytes w) start observed true (complete w) (truncated w) (expired w) (corrupt w),
     mkPush base_offset observed false)
  else
    let total := saturating_add (lenN (contents (bytes w))) (lenN chunk) in
    if decide (total <= MAX_TOOL_STREAM_BYTES) then
      (mkWindow (extend_within chunk (bytes w)) start observed true (complete w) (truncated w) false (corrupt w),
       mkPush base_offset observed false)
    else
      (mkWindow (extend_beyond chunk (bytes w)) (N.min (start + (total - MAX_TOOL_STREAM_BYTES)) u64_max) observed true
         (complete w) true false (corrupt w),
       mkPush base_offset observed true).
End window.

#[global] Arguments extend_within : simpl never.
#[global] Arguments extend_beyond : simpl never.

Definition retained (w : StreamWindow) : N := if expired w then 0 else capacity (bytes w).

Definition evict (w : StreamWindow) : StreamWindow :=
  mkWindow Buffer_new (observed_end w) (observed_end w) (seen w) (complete w) true true (corrupt w).

Definition end_stream (w : StreamWindow) : StreamWindow :=
  mkWindow (bytes w) (start_offset w) (observed_end w) (seen w) true (truncated w) (expired w) (corrupt w).
Definition cut_stream (w : StreamWindow) : StreamWindow :=
  mkWindow (bytes w) (start_offset w) (observed_end w) (seen w) true true (expired w) (corrupt w).

(** ** The record *)

Record ToolRecord := mkToolRecord {
  name : str;
  subject : ToolSubject;
  subject_truncated : bool;
  input : str;
  input_total : N;
  input_seen : bool;
  input_truncated : bool;
  input_expired : bool;
  result_text : str;
  output_line_count : option N;
  result_total : N;
  result_seen : bool;
  result_truncated : bool;
  result_expired : bool;
  state : ToolExecutionState;
  phase : option ToolPhase;
  started_at : option str;
  finished_at : option str;
  outcome : option ToolResultOutcome;
  stdout : StreamWindow;
  stderr : StreamWindow;
  command : option CommandResult;
  file_change : option FileChange;
  input_corrupt : bool;
  result_corrupt : bool;
  recording : ToolRecordingState
}.

Definition ToolRecord_new (name : str) : ToolRecord :=
  mkToolRecord name Other false [] 0 false false false [] None 0 false false false Requested None None None None
    StreamWindow_default StreamWindow_default None None false false MemoryOnly.

Definition is_terminal (r : ToolRecord) : bool :=
  state_terminal (state r) &&
  match command r with Some cmd => command_terminal (status cmd) | None => true end.

Definition stream (s : ToolDataStream) (r : ToolRecord) : option StreamWindow :=
  match s with Stdout => Some (stdout r) | Stderr => Some (stderr r) | Input | Output => None end.

Definition subject_len (s : ToolSubject) : N :=
  match s with
  | File path => str_len path
  | Command script cwd => saturating_add (str_len script) (str_len cwd)
  | Other => 0
  end.

Definition change_retained (c : FileChange) : N :=
  saturating_add (from_option capacity 0 (before_bytes c)) (from_option capacity 0 (after_bytes c)).

Definition retained_bytes (r : ToolRecord) : N :=
  let command := if decide (command r = None) then 0 else COMMAND_METADATA_BYTES in
  let file_change := match file_change r with
                     | Some c => saturating_add (saturating_add CHANGE_METADATA_BYTES (str_len (change_path (stored c))))
                                   (change_retained c)
                     | None => 0
                     end in
  foldl saturating_add (str_len (name r))
    [subject_len (subject r); str_len (input r); str_len (result_text r); retained (stdout r); retained (stderr r);
     file_change; command].

#[global] Arguments retained_bytes : simpl never.

Definition stream_availability (seen expired terminal : bool) (retained total : N) (truncated : bool)
    : ToolDataAvailability :=
  if expired then Expired
  else if seen then (if truncated || bool_decide (retained < total) then Partial else Available)
  else if terminal then Unavailable else Pending.

Definition input_availability (r : ToolRecord) : ToolDataAvailability :=
  if input_corrupt r then Unavailable
  else stream_availability (input_seen r) (input_expired r) (state_terminal (state r)) (str_len (input r))
         (input_total r) (input_truncated r).
Definition output_availability (r : ToolRecord) : ToolDataAvailability :=
  if result_corrupt r then Unavailable
  else stream_availability (result_seen r) (result_expired r) (state_terminal (state r)) (str_len (result_text r))
         (result_total r) (result_truncated r).

Definition stream_final (r : ToolRecord) : bool :=
  match command r with Some command => command_terminal (status command) | None => state_terminal (state r) end.

Definition process_availability (s : ToolDataStream) (r : ToolRecord) : ToolDataAvailability :=
  match stream s r with
  | None => Unavailable
  | Some w =>
      if corrupt w then Unavailable
      else if expired w then Expired
      else if truncated w then Partial
      else if seen w || complete w then Available
      else if stream_final r then Unavailable else Pending
  end.

(** ** What a query and a snapshot see *)

Definition live_range (w : StreamWindow) : N * N := (start_offset w, observed_end w).

Definition live_command (r : ToolRecord) (command : CommandResult) : CommandResult :=
  let (stdout_base, stdout_end) := live_range (stdout r) in
  let (stderr_base, stderr_end) := live_range (stderr r) in
  mkCommand (status command) (exit_code command) (signal command) (termination_confirmed command)
    stdout_base stdout_end stderr_base stderr_end (output_complete command)
    (output_truncated command || truncated (stdout r) || truncated (stderr r) || expired (stdout r) || expired (stderr r)).

Record ToolExecutionData := mkExecution {
  x_output_line_count : option N;
  x_tool_ref : ToolRef;
  x_name : str;
  x_state : ToolExecutionState;
  x_phase : option ToolPhase;
  x_started_at : option str;
  x_finished_at : option str;
  x_outcome : option ToolResultOutcome;
  x_input_availability : ToolDataAvailability;
  x_output_availability : ToolDataAvailability;
  x_input_bytes : N;
  x_result_bytes : N;
  x_input_truncated : bool;
  x_result_truncated : bool;
  x_command : option CommandResult;
  x_recording : ToolRecordingState
}.

Definition execution_data (tool_ref : ToolRef) (r : ToolRecord) : ToolExecutionData :=
  mkExecution (output_line_count r) tool_ref (name r) (state r) (phase r) (started_at r) (finished_at r) (outcome r)
    (input_availability r) (output_availability r) (input_total r) (result_total r)
    (input_truncated r || bool_decide (str_len (input r) < input_total r))
    (result_truncated r || bool_decide (str_len (result_text r) < result_total r))
    (live_command r <$> command r) (recording r).

(** The summaries of the input and of the result, [store.rs]. *)
Record StoredSummary := mkSummary {
  m_total_bytes : N; m_seen : bool; m_truncated : bool; m_expired : bool; m_file_bytes : N; m_file_sha256 : option str
}.
Record StoredStreamWindow := mkStoredWindow {
  w_start_offset : N; w_observed_end : N; w_seen : bool; w_complete : bool; w_truncated : bool; w_expired : bool;
  w_file_bytes : N; w_file_sha256 : option str
}.

Definition TOOL_RECORD_FORMAT_VERSION : N := 1.
Record StoredToolRecord := mkStored {
  s_version : N;
  s_tool_ref : ToolRef;
  s_name : str;
  s_subject : ToolSubject;
  s_subject_truncated : bool;
  s_state : ToolExecutionState;
  s_phase : option ToolPhase;
  s_started_at : option str;
  s_finished_at : option str;
  s_outcome : option ToolResultOutcome;
  s_input : StoredSummary;
  s_result : StoredSummary;
  s_stdout : StoredStreamWindow;
  s_stderr : StoredStreamWindow;
  s_command : option CommandResult;
  s_file_change : option StoredFileChange
}.

Record ToolPersistenceSnapshot := mkSnapshot {
  p_tool_ref : ToolRef;
  p_record : StoredToolRecord;
  p_input_bytes : option (list N);
  p_result_bytes : option (list N);
  p_stdout_bytes : option (list N);
  p_stderr_bytes : option (list N);
  p_file_change_before : option (list N);
  p_file_change_after : option (list N)
}.

Section snapshot.
(** [store::hash_bytes]'s digest. *)
Context (hash_bytes : list N → str).

Definition snapshot_blob (bytes : list N) (expired : bool) : option (list N) * N * option str :=
  if expired || bool_decide (bytes = []) then (None, 0, None) else (Some bytes, lenN bytes, Some (hash_bytes bytes)).

Definition window_snapshot (w : StreamWindow) : StoredStreamWindow * option (list N) :=
  let '(bytes, file_bytes, file_sha256) := snapshot_blob (contents (bytes w)) (expired w) in
  (mkStoredWindow (start_offset w) (observed_end w) (seen w) (complete w) (truncated w) (expired w) file_bytes file_sha256,
   bytes).

(** [ToolData::snapshot_for_persistence] for the record it found. *)
Definition persistence_snapshot (tool_ref : ToolRef) (r : ToolRecord) : option ToolPersistenceSnapshot :=
  if negb (is_terminal r) then None else
  let command := live_command r <$> command r in
  let '(input_bytes, input_file_bytes, input_sha256) := snapshot_blob (as_bytes (input r)) (input_expired r) in
  let '(result_bytes, result_file_bytes, result_sha256) := snapshot_blob (as_bytes (result_text r)) (result_expired r) in
  let (stdout_summary, stdout_bytes) := window_snapshot (stdout r) in
  let (stderr_summary, stderr_bytes) := window_snapshot (stderr r) in
  Some (mkSnapshot tool_ref
    (mkStored TOOL_RECORD_FORMAT_VERSION tool_ref (name r) (subject r) (subject_truncated r) (state r) (phase r)
       (started_at r) (finished_at r) (outcome r)
       (mkSummary (input_total r) (input_seen r) (input_truncated r) (input_expired r) input_file_bytes input_sha256)
       (mkSummary (result_total r) (result_seen r) (result_truncated r) (result_expired r) result_file_bytes result_sha256)
       stdout_summary stderr_summary command (stored <$> file_change r))
    input_bytes result_bytes stdout_bytes stderr_bytes
    (file_change r ≫= λ change, contents <$> before_bytes change)
    (file_change r ≫= λ change, contents <$> after_bytes change)).
End snapshot.

(** ** Changes of one field, or of the fields that change together *)

Definition set_stream (s : ToolDataStream) (w : StreamWindow) (r : ToolRecord) : ToolRecord :=
  mkToolRecord (name r) (subject r) (subject_truncated r) (input r) (input_total r) (input_seen r) (input_truncated r)
    (input_expired r) (result_text r) (output_line_count r) (result_total r) (result_seen r) (result_truncated r)
    (result_expired r) (state r) (phase r) (started_at r) (finished_at r) (outcome r)
    (match s with Stdout => w | _ => stdout r end) (match s with Stderr => w | _ => stderr r end) (command r)
    (file_change r) (input_corrupt r) (result_corrupt r) (recording r).

Definition set_input (subject : ToolSubject) (subject_truncated : bool) (input : str) (total : N) (truncated : bool)
    (r : ToolRecord) : ToolRecord :=
  mkToolRecord (name r) subject subject_truncated input total true truncated
    false (result_text r) (output_line_count r) (result_total r) (result_seen r) (result_truncated r)
    (result_expired r) (state r) (phase r) (started_at r) (finished_at r) (outcome r) (stdout r) (stderr r) (command r)
    (file_change r) (input_corrupt r) (result_corrupt r) (recording r).

Definition set_result (text : str) (lines : N) (total : N) (truncated expired : bool) (r : ToolRecord) : ToolRecord :=
  mkToolRecord (name r) (subject r) (subject_truncated r) (input r) (input_total r) (input_seen r) (input_truncated r)
    (input_expired r) text (Some lines) total true truncated expired
    (state r) (phase r) (started_at r) (finished_at r) (outcome r) (stdout r) (stderr r) (command r)
    (file_change r) (input_corrupt r) (result_corrupt r) (recording r).

Definition evict_input (r : ToolRecord) : ToolRecord :=
  mkToolRecord (name r) (subject r) (subject_truncated r) [] (input_total r) (input_seen r) (input_truncated r)
    true (result_text r) (output_line_count r) (result_total r) (result_seen r) (result_truncated r)
    (result_expired r) (state r) (phase r) (started_at r) (finished_at r) (outcome r) (stdout r) (stderr r) (command r)
    (file_change r) (input_corrupt r) (result_corrupt r) (recording r).
Definition evict_result (r : ToolRecord) : ToolRecord :=
  mkToolRecord (name r) (subject r) (subject_truncated r) (input r) (input_total r) (input_seen r) (input_truncated r)
    (input_expired r) [] None (result_total r) (result_seen r) (result_truncated r)
    true (state r) (phase r) (started_at r) (finished_at r) (outcome r) (stdout r) (stderr r) (command r)
    (file_change r) (input_corrupt r) (result_corrupt r) (recording r).

Definition set_state (s : ToolExecutionState) (started finished : option str) (o : option ToolResultOutcome)
    (r : ToolRecord) : ToolRecord :=
  mkToolRecord (name r) (subject r) (subject_truncated r) (input r) (input_total r) (input_seen r) (input_truncated r)
    (input_expired r) (result_text r) (output_line_count r) (result_total r) (result_seen r) (result_truncated r)
    (result_expired r) s (phase r) started finished o (stdout r) (stderr r) (command r)
    (file_change r) (input_corrupt r) (result_corrupt r) (recording r).

Definition set_misc (phase : option ToolPhase) (command : option CommandResult) (change : option FileChange)
    (recording : ToolRecordingState) (r : ToolRecord) : ToolRecord :=
  mkToolRecord (name r) (subject r) (subject_truncated r) (input r) (input_total r) (input_seen r) (input_truncated r)
    (input_expired r) (result_text r) (output_line_count r) (result_total r) (result_seen r) (result_truncated r)
    (result_expired r) (state r) phase (started_at r) (finished_at r) (outcome r) (stdout r) (stderr r) command
    change (input_corrupt r) (result_corrupt r) recording.

(** ** What a window holds *)

(** [holds raw w]: of the bytes [raw] read so far the window keeps the end, and says so
    when it does not keep all. *)
Record holds (raw : list N) (w : StreamWindow) : Prop := {
  holds_end : observed_end w = lenN raw;
  holds_start : start_offset w <= observed_end w;
  holds_bytes : contents (bytes w) = drop (N.to_nat (start_offset w)) raw;
  holds_size : lenN (contents (bytes w)) <= MAX_TOOL_STREAM_BYTES;
  holds_truncated : 0 < start_offset w → truncated w = true;
  holds_expired : expired w = true → contents (bytes w) = [];
  holds_seen : seen w = false → raw = []
}.

Lemma holds_default : holds [] StreamWindow_default.
Proof. by split. Qed.

Lemma extend_within_contents grant chunk b : contents (extend_within grant chunk b) = contents b ++ chunk.
Proof. unfold extend_within, reserve_exact. by repeat case_decide. Qed.
Lemma extend_beyond_contents grant chunk b :
  let excess := saturating_add (lenN (contents b)) (lenN chunk) - MAX_TOOL_STREAM_BYTES in
  contents (extend_beyond grant chunk b) = drop (N.to_nat excess) (contents b ++ chunk).
Proof.
  cbn zeta. unfold extend_beyond, reserve_exact. set (excess := saturating_add _ _ - _).
  assert (Hd : drop (N.to_nat excess) (contents b ++ chunk) =
    drop (N.to_nat (N.min excess (lenN (contents b)))) (contents b) ++
    drop (N.to_nat (excess - N.min excess (lenN (contents b)))) chunk).
  { rewrite drop_app. unfold lenN. f_equal; [|f_equal; lia].
    destruct (decide (excess <= N.of_nat (length (contents b)))); [f_equal; lia|rewrite !drop_ge by lia; done]. }
  rewrite Hd. by repeat case_decide.
Qed.

Lemma push_holds grant chunk raw w :
  holds raw w → lenN (raw ++ chunk) <= u64_max → holds (raw ++ chunk) (push grant chunk w).1.
Proof.
  intros [Hend Hstart Hbytes Hsize Htr Hexp Hseen] Hmax. rewrite lenN_app in Hmax. unfold push.
  set (start := if decide (contents (bytes w) = []) then observed_end w else start_offset w).
  assert (Hs : start <= lenN raw ∧ contents (bytes w) = drop (N.to_nat start) raw ∧ (0 < start → truncated w = true)).
  { unfold start. case_decide as Hnil; [|by rewrite <- Hend]. rewrite Hend. split; [lia|].
    unfold lenN at 1. rewrite Nat2N.id, drop_all. split; [done|]. intros Hpos. apply Htr.
    rewrite Hnil in Hbytes. apply (f_equal length) in Hbytes. rewrite length_drop in Hbytes. cbn in Hbytes.
    unfold lenN in *. lia. }
  destruct Hs as (Hs & Hb & Ht).
  assert (Hb' : contents (bytes w) ++ chunk = drop (N.to_nat start) (raw ++ chunk)).
  { rewrite Hb, drop_app_le by (unfold lenN in *; lia). done. }
  assert (Hobs : N.min (observed_end w + lenN chunk) u64_max = lenN (raw ++ chunk)) by (rewrite lenN_app; lia).
  rewrite Hobs.
  assert (Htotal : saturating_add (lenN (contents (bytes w))) (lenN chunk) = lenN (contents (bytes w)) + lenN chunk).
  { unfold saturating_add, usize_max. rewrite Hb. unfold lenN in *. rewrite length_drop. lia. }
  rewrite Htotal. case_decide as Hc; [|case_decide as Hfits]; cbn [fst].
  - subst chunk. rewrite app_nil_r in *. split; cbn; done.
  - split; cbn; rewrite ?extend_within_contents; try done.
    + rewrite lenN_app. lia.
    + rewrite lenN_app. lia.
  - split; cbn; rewrite ?extend_beyond_contents, ?Htotal; try done.
    + rewrite lenN_app, Hb. unfold lenN in *. rewrite length_drop. lia.
    + rewrite Hb', drop_drop. f_equal. rewrite Hb. unfold lenN in *. rewrite length_drop. lia.
    + unfold lenN. rewrite length_drop, length_app. unfold lenN in *. lia.
Qed.

Lemma evict_holds raw w : holds raw w → holds raw (evict w).
Proof.
  intros [Hend Hstart Hbytes Hsize Htr Hexp Hseen]. split; cbn; try done.
  rewrite Hend. unfold lenN. by rewrite Nat2N.id, drop_all.
Qed.
Lemma end_holds raw w : holds raw w → holds raw (end_stream w).
Proof. by intros []. Qed.
Lemma cut_holds raw w : holds raw w → holds raw (cut_stream w).
Proof. by intros []. Qed.
