(* ===== verification/ToolPage.v ===== *)
(** Pages of the output of a tool call, [tool_data/paging.rs], the choice between the
    record in memory and the one on disk, [tool_data/read.rs], and the sizes of
    [budget.rs].

    What the base64 encoder and the serializer do is an argument, with the laws the
    pages rely on in the classes [PageEncoding] and [PageEncodingLaws]. *)

From S2P Require Import Prelude RustStr Errors ToolRecord.
Open Scope N_scope.

(** ** Sizes of JSON, [budget.rs] *)

Definition escaped_char_len (character : char) : N :=
  if decide (character ∈ [DQUOTE; BACKSLASH; 8; TAB; LF; 12; CR]) then 2
  else if decide (character < 0x20) then 6 else len_utf8 character.

Fixpoint json_escaped_len (text : str) : N :=
  match text with [] => 0 | c :: text => escaped_char_len c + json_escaped_len text end.

Fixpoint prefix_within (remaining : N) (text : str) : str :=
  match text with
  | [] => []
  | character :: text =>
      let cost := escaped_char_len character in
      if decide (remaining < cost) then [] else character :: prefix_within (remaining - cost) text
  end.
(** The longest prefix whose JSON string fits, the quotes included. *)
Definition json_string_prefix (text : str) (max_encoded_bytes : N) : str := prefix_within (max_encoded_bytes - 2) text.

(** ** Pages *)

Record ToolOutputPage := mkPage {
  g_tool_ref : ToolRef;
  g_stream : ToolDataStream;
  g_encoding : str;
  g_base_offset : N;
  g_next_offset : N;
  g_observed_end : N;
  g_eof : bool;
  g_truncated : bool;
  g_availability : ToolDataAvailability;
  g_data : str
}.
#[global] Instance ToolOutputPage_eq_dec : EqDecision ToolOutputPage.
Proof. solve_decision. Defined.

Record ToolOutputRequest := mkRequest {
  q_tool_ref : ToolRef; q_stream : ToolDataStream; q_offset : N; q_max_bytes : option N
}.

Class PageEncoding := {
  (** The bytes of a page as JSON. *)
  encoded_len : ToolOutputPage → N;
  base64 : list N → str;
  base64_decode : str → option (list N);
  (** [VecDeque::as_slices]: the deque may wrap around. *)
  as_slices : list N → list N * list N
}.

(** The page a page with data is measured by. *)
Definition template_of (p : ToolOutputPage) : ToolOutputPage :=
  mkPage (g_tool_ref p) (g_stream p) (g_encoding p) (g_base_offset p) u64_max (g_observed_end p) false
    (g_truncated p) (g_availability p) [].

Definition is_byte (b : N) : Prop := b < 256.

Class PageEncodingLaws `{PageEncoding} : Prop := {
  encoded_len_law p : g_next_offset p <= u64_max →
    encoded_len p <= encoded_len (template_of p) + json_escaped_len (g_data p);
  base64_len bs : Forall is_byte bs → json_escaped_len (base64 bs) = 4 * ((lenN bs + 2) / 3);
  base64_law bs : Forall is_byte bs → base64_decode (base64 bs) = Some bs;
  as_slices_law l : (as_slices l).1 ++ (as_slices l).2 = l
}.

Section pages.
Context `{PageEncoding}.

Definition encoded_result (p : ToolOutputPage) (max_bytes : N) : result AgentError ToolOutputPage :=
  if decide (max_bytes < encoded_len p) then Err InvalidArguments else Ok p.

Record ToolOutputView := mkView {
  v_bytes : list N * list N;
  v_base : N;
  v_observed : N;
  v_seen : bool;
  v_known : bool;
  v_complete : bool;
  v_truncated : bool;
  v_availability : ToolDataAvailability;
  v_corrupt : bool
}.

(** A view of the arguments or of the result text. *)
Definition text_view (text : str) (observed : N) (seen expired truncated corrupt terminal : bool) : ToolOutputView :=
  mkView (as_bytes text, []) 0 observed seen seen terminal truncated
    (if corrupt then Unavailable
     else ToolRecord.stream_availability seen expired terminal (str_len text) observed truncated) corrupt.

Definition output_view (s : ToolDataStream) (r : ToolRecord) : ToolOutputView :=
  match s with
  | Stdout | Stderr =>
      let w := match s with Stdout => stdout r | _ => stderr r end in
      mkView (as_slices (contents (bytes w))) (start_offset w) (observed_end w) (seen w) (seen w || complete w)
        (complete w || stream_final r) (truncated w) (process_availability s r) (corrupt w)
  | Input => text_view (input r) (input_total r) (input_seen r) (input_expired r) (input_truncated r) (input_corrupt r)
               (state_terminal (state r))
  | Output => text_view (result_text r) (result_total r) (result_seen r) (result_expired r) (result_truncated r)
                (result_corrupt r) (state_terminal (state r))
  end.

(** The bytes of a blob read from disk, and whether they are not the ones recorded. *)
Definition ToolBlob : Type := option (list N) * bool.

Definition from_stored (record : StoredToolRecord) (s : ToolDataStream) (blob : ToolBlob) : ToolOutputView :=
  let (bytes, corrupt) := blob in
  let bytes := default [] bytes in
  let terminal := match s_command record with
                  | Some command => command_terminal (status command)
                  | None => state_terminal (s_state record)
                  end in
  if is_process s then
    let window := match s with Stdout => s_stdout record | _ => s_stderr record end in
    let availability :=
      if corrupt then Unavailable
      else if w_expired window then Expired
      else if w_truncated window then Partial
      else if w_seen window || w_complete window then Available
      else if terminal then Unavailable else Pending in
    mkView (bytes, []) (w_start_offset window) (w_observed_end window) (w_seen window)
      (w_seen window || w_complete window) (w_complete window || terminal) (w_truncated window) availability corrupt
  else
    let m := match s with Input => s_input record | _ => s_result record end in
    let corrupt := corrupt || bool_decide (from_utf8 bytes = None) in
    mkView (bytes, []) 0 (m_total_bytes m) (m_seen m) (m_seen m) (state_terminal (s_state record)) (m_truncated m)
      (if corrupt then Unavailable
       else ToolRecord.stream_availability (m_seen m) (m_expired m) (state_terminal (s_state record)) (m_file_bytes m)
              (m_total_bytes m) (m_truncated m)) corrupt.

(** The bytes of a view from an offset on. *)
Definition view_from (offset : N) (v : ToolOutputView) : list N * list N :=
  let (b0, b1) := v_bytes v in
  if decide (offset < lenN b0) then (drop (N.to_nat offset) b0, b1) else (drop (N.to_nat (offset - lenN b0)) b1, []).

(** The data of a page and how many bytes it is of. *)
Definition page_data (process : bool) (slices : list N * list N) (available : N) : result AgentError (str * N) :=
  let (first, second) := slices in
  if process then
    let take := N.min ((available - 2) / 4 * 3) (lenN first + lenN second) in
    let bytes := if decide (take <= lenN first) then firstn (N.to_nat take) first
                 else first ++ firstn (N.to_nat (take - lenN first)) second in
    Ok (base64 bytes, take)
  else
    text ← ok_or (from_utf8 first) InvalidArguments;
    let prefix := json_string_prefix text available in
    Ok (prefix, str_len prefix).

Definition project (v : ToolOutputView) (request : ToolOutputRequest) (max_bytes : N)
    : result AgentError ToolOutputPage :=
  let process := is_process (q_stream request) in
  let retained := lenN (v_bytes v).1 + lenN (v_bytes v).2 in
  let vend := v_base v + retained in
  let offset := q_offset request in
  let page base next eof truncated availability data :=
    mkPage (q_tool_ref request) (q_stream request) (encoding (q_stream request)) base next (v_observed v) eof truncated
      availability data in
  let truncated := v_truncated v || (negb process && bool_decide (vend < v_observed v)) in
  if v_corrupt v || bool_decide (v_availability v = Expired) then
    if process && negb (v_corrupt v) && bool_decide (v_observed v < offset) then Err InvalidArguments
    else encoded_result (page (if v_corrupt v then v_base v else v_observed v) (v_observed v)
                           (v_complete v || negb process) true (v_availability v) []) max_bytes
  else if bool_decide (v_observed v < offset) || (negb (v_seen v) && bool_decide (offset ≠ 0)) then Err InvalidArguments
  else if decide (offset < v_base v) then
    encoded_result (page (v_base v) (if decide (retained = 0) then v_observed v else v_base v)
                      (v_complete v && bool_decide (retained = 0)) true Partial []) max_bytes
  else if decide (vend < offset) then
    encoded_result (page offset (v_observed v) true true Partial []) max_bytes
  else
    let (first, second) := view_from (offset - v_base v) v in
    if decide (first = [] ∧ second = []) then
      encoded_result (page offset offset
                        (if process then v_complete v && bool_decide (v_observed v <= offset)
                         else bool_decide (v_availability v ≠ Pending)) truncated (v_availability v) []) max_bytes
    else
      let envelope := encoded_len (page offset u64_max false truncated (v_availability v) []) in
      if decide (max_bytes < envelope) then Err InvalidArguments
      else
        '(data, take) ← page_data process (first, second) (max_bytes - envelope + 2);
        if decide (take = 0) then Err InvalidArguments
        else
          let next := offset + take in
          encoded_result (page offset next
                            (if process then v_complete v && bool_decide (v_observed v <= next) else bool_decide (vend <= next))
                            truncated (v_availability v) data) max_bytes.

(** ** Memory or disk, [tool_data/read.rs] *)

Record ReadMetadata := mkMetadata {
  execution : ToolExecutionData;
  md_input_seen : bool;
  md_result_seen : bool;
  stdout_end : option N;
  stderr_end : option N
}.

Definition metadata_from_record (tool_ref : ToolRef) (record : ToolRecord) : ReadMetadata :=
  let wend w := if seen w || complete w || expired w || bool_decide (0 < observed_end w) then Some (observed_end w)
                else None in
  mkMetadata (execution_data tool_ref record) (input_seen record) (result_seen record) (wend (stdout record))
    (wend (stderr record)).

Definition metadata_from_stored (record : StoredToolRecord) : ReadMetadata :=
  let terminal := state_terminal (s_state record) in
  let wend w := if w_seen w || w_complete w || w_expired w || bool_decide (0 < w_observed_end w)
                then Some (w_observed_end w) else None in
  let command :=
    (λ command, mkCommand (status command) (exit_code command) (signal command) (termination_confirmed command)
       (w_start_offset (s_stdout record)) (w_observed_end (s_stdout record))
       (w_start_offset (s_stderr record)) (w_observed_end (s_stderr record)) (output_complete command)
       (output_truncated command || (w_truncated (s_stdout record) || w_truncated (s_stderr record)
                                     || w_expired (s_stdout record) || w_expired (s_stderr record))))
    <$> s_command record in
  let availability m := ToolRecord.stream_availability (m_seen m) (m_expired m) terminal (m_file_bytes m)
                          (m_total_bytes m) (m_truncated m) in
  let cut m := m_truncated m || bool_decide (m_file_bytes m < m_total_bytes m) in
  mkMetadata
    (mkExecution None (s_tool_ref record) (s_name record) (s_state record) (s_phase record) (s_started_at record)
       (s_finished_at record) (s_outcome record) (availability (s_input record)) (availability (s_result record))
       (m_total_bytes (s_input record)) (m_total_bytes (s_result record)) (cut (s_input record)) (cut (s_result record))
       command Saved)
    (m_seen (s_input record)) (m_seen (s_result record)) (wend (s_stdout record)) (wend (s_stderr record)).

Definition metadata_terminal (m : ReadMetadata) : bool :=
  state_terminal (x_state (execution m)) &&
  match x_command (execution m) with Some command => command_terminal (status command) | None => true end.

(** [a.zip(b).is_none_or(f)]. *)
Definition both_agree {A} (f : A → A → bool) (a b : option A) : bool :=
  match a, b with Some a, Some b => f a b | _, _ => true end.

Definition command_facts (c : CommandResult) : CommandStatus * option Z * option Z * bool * bool :=
  (status c, exit_code c, signal c, termination_confirmed c, output_complete c).

Definition compatible (m disk : ReadMetadata) : bool :=
  let warm := execution m in
  let cold := execution disk in
  bool_decide (x_name warm = x_name cold)
  && (negb (state_terminal (x_state warm)) || negb (state_terminal (x_state cold))
      || bool_decide (x_state warm = x_state cold))
  && both_agree (λ a b, bool_decide (a = b)) (x_outcome warm) (x_outcome cold)
  && (negb (md_input_seen m) || negb (md_input_seen disk) || bool_decide (x_input_bytes warm = x_input_bytes cold))
  && (negb (md_result_seen m) || negb (md_result_seen disk) || bool_decide (x_result_bytes warm = x_result_bytes cold))
  && both_agree (λ a b, bool_decide (a = b)) (stdout_end m) (stdout_end disk)
  && both_agree (λ a b, bool_decide (a = b)) (stderr_end m) (stderr_end disk)
  && both_agree (λ a b, bool_decide (command_facts a = command_facts b)) (x_command warm) (x_command cold).

Definition usable (a : ToolDataAvailability) : bool := match a with Available | Partial => true | _ => false end.

(** What a record on disk gives for one stream. *)
Record StoredToolRead := mkStoredRead { metadata : StoredToolRecord; payload : ToolBlob }.

Definition DEFAULT_READ_MAX_BYTES : N := 256 * 1024.
Definition MAX_READ_MAX_BYTES : N := 1024 * 1024.

Definition validate_max_bytes (value : option N) : result AgentError unit :=
  if from_option (λ value, bool_decide (value = 0) || bool_decide (MAX_READ_MAX_BYTES < value)) false value
  then Err InvalidArguments else Ok tt.

(** [tool_output]: [budget] is what the first check of the deadline says, [warm] the
    record in memory, [read_source] what reading the disk gives. *)
Definition tool_output (budget : result AgentError unit) (warm : option ToolRecord)
    (read_source : result AgentError (option StoredToolRead)) (request : ToolOutputRequest)
    : result AgentError ToolOutputPage :=
  _ ← validate_max_bytes (q_max_bytes request);
  _ ← budget;
  let max_bytes := default DEFAULT_READ_MAX_BYTES (q_max_bytes request) in
  let warm := (λ record,
    let metadata := metadata_from_record (q_tool_ref request) record in
    let view := output_view (q_stream request) record in
    (metadata, v_known view, metadata_terminal metadata && negb (usable (v_availability view)),
     project view request max_bytes)) <$> warm in
  let in_memory := match warm with Some (_, _, _, page) => page | None => Err ToolNotFound end in
  match warm with
  | Some (_, _, false, page) => page
  | _ =>
      match read_source with
      | Ok (Some source) =>
          let disk := metadata_from_stored (metadata source) in
          let view := from_stored (metadata source) (q_stream request) (payload source) in
          let takes := match warm with
                       | Some (m, known, _, _) =>
                           compatible m disk
                           && (usable (v_availability view) || v_corrupt view || (negb known && v_known view))
                       | None => true
                       end in
          if takes then project view request max_bytes else in_memory
      | Ok None => in_memory
      | Err error => if negb (bool_decide (is_Some warm)) || bool_decide (error = QueryLimit) then Err error else in_memory
      end
  end.
End pages.
#[global] Arguments page_data : simpl never.
#[global] Arguments from_stored : simpl never.
#[global] Arguments project : simpl never.
#[global] Arguments compatible : simpl never.
#[global] Arguments metadata_from_record : simpl never.
#[global] Arguments metadata_from_stored : simpl never.
#[global] Arguments view_from : simpl never.
#[global] Arguments encoded_result : simpl never.

(** ** Lemmas on prefixes and pages *)

Lemma prefix_within_app n text : ∃ rest, text = prefix_within n text ++ rest.
Proof.
  revert n. induction text as [|c text IH]; intros n; cbn; [by exists []|].
  case_decide; [by exists (c :: text)|]. destruct (IH (n - escaped_char_len c)) as [rest Hrest].
  exists rest. cbn. by rewrite <- Hrest.
Qed.
Lemma prefix_within_len n text : json_escaped_len (prefix_within n text) <= n.
Proof.
  revert n. induction text as [|c text IH]; intros n; cbn; [lia|]. case_decide; cbn; [lia|].
  specialize (IH (n - escaped_char_len c)). lia.
Qed.
Lemma escaped_char_len_bounds c : 1 <= escaped_char_len c <= 6.
Proof. unfold escaped_char_len. pose proof (len_utf8_bounds c). repeat case_decide; lia. Qed.
Lemma prefix_within_progress n text : text ≠ [] → 6 <= n → prefix_within n text ≠ [].
Proof.
  destruct text as [|c text]; [done|]. intros _ Hn. cbn. pose proof (escaped_char_len_bounds c).
  case_decide; [lia|done].
Qed.

Lemma lenN_zero {A} (l : list A) : lenN l = 0 ↔ l = [].
Proof. unfold lenN. destruct l; cbn; split; try done; lia. Qed.

(** What is between two positions. *)
Definition slice (raw : list N) (a b : N) : list N := take (N.to_nat (b - a)) (drop (N.to_nat a) raw).

Lemma slice_len raw a b : a <= b → b <= lenN raw → lenN (slice raw a b) = b - a.
Proof. intros. unfold slice, lenN in *. rewrite length_take, length_drop. lia. Qed.

(** A JSON string fits the whole of [encoded_len], a page that does not fit is no page. *)
Lemma encoded_result_Ok `{PageEncoding} p max_bytes q :
  encoded_result p max_bytes = Ok q ↔ q = p ∧ encoded_len p <= max_bytes.
Proof.
  unfold encoded_result. case_decide; split; try done.
  - intros [_ ?]. lia.
  - intros [= <-]. split; [done|lia].
  - by intros [-> _].
Qed.

Section process.
Context `{PageEncodingLaws}.

Lemma view_from_app offset v :
  (view_from offset v).1 ++ (view_from offset v).2 = drop (N.to_nat offset) ((v_bytes v).1 ++ (v_bytes v).2).
Proof.
  unfold view_from. destruct (v_bytes v) as [b0 b1]. cbn. unfold lenN. case_decide; cbn.
  - by rewrite drop_app_le by lia.
  - rewrite app_nil_r, drop_app_ge by lia. f_equal. lia.
Qed.

(** The bytes a page of a process stream is of. *)
Lemma page_data_process slices available data n :
  page_data true slices available = Ok (data, n) →
  data = base64 (take (N.to_nat n) (slices.1 ++ slices.2)) ∧
  n = N.min ((available - 2) / 4 * 3) (lenN (slices.1 ++ slices.2)).
Proof.
  destruct slices as [first second]. unfold page_data. cbn. intros [= <- <-]. rewrite lenN_app. split; [|done]. f_equal.
  case_decide as Hle; unfold lenN in *.
  - by rewrite take_app_le by lia.
  - rewrite take_app_ge by lia. f_equal. f_equal. lia.
Qed.

(** The encoding of a page with data costs at most what was left for it. *)
Lemma base64_fits n available : n <= (available - 2) / 4 * 3 → 4 * ((n + 2) / 3) <= available - 2.
Proof.
  intros Hn. set (k := (available - 2) / 4) in *.
  assert ((n + 2) / 3 <= k).
  { transitivity ((k * 3 + 2) / 3); [apply N.div_le_mono; lia|].
    replace (k * 3 + 2) with (2 + k * 3) by lia. rewrite N.div_add by lia. change (2 / 3) with 0. lia. }
  pose proof (N.Div0.mul_div_le (available - 2) 4) as Hk. fold k in Hk. lia.
Qed.

(** ** A page of a process stream *)

Definition process_window (s : ToolDataStream) (r : ToolRecord) : StreamWindow :=
  match s with Stderr => stderr r | _ => stdout r end.

Lemma output_view_process s r :
  is_process s = true →
  let w := process_window s r in
  output_view s r =
    mkView (as_slices (contents (bytes w))) (start_offset w) (observed_end w) (seen w) (seen w || complete w)
      (complete w || stream_final r) (truncated w) (process_availability s r) (corrupt w).
Proof. by destruct s. Qed.

(** What a page says of the bytes read so far. *)
Record page_says (raw : list N) (s : ToolDataStream) (r : ToolRecord) (offset : N) (p : ToolOutputPage) : Prop := {
  says_next : offset <= g_next_offset p <= lenN raw;
  says_data : if decide (g_data p = []) then offset < g_next_offset p → g_truncated p = true
              else offset < g_next_offset p ∧ base64_decode (g_data p) = Some (slice raw offset (g_next_offset p));
  says_eof : g_eof p = true → g_next_offset p = lenN raw ∧ complete (process_window s r) || stream_final r = true
}.

(** Enough for any page without data, and one character more. *)
Definition roomy (ref : ToolRef) (max_bytes : N) : Prop :=
  ∀ p, g_tool_ref p = ref → g_data p = [] → g_base_offset p <= u64_max → g_next_offset p <= u64_max →
    g_observed_end p <= u64_max → encoded_len p + 6 <= max_bytes.

Section window_page.
Context (raw : list N) (s : ToolDataStream) (r : ToolRecord) (ref : ToolRef).
Notation w := (process_window s r).
Hypothesis Hprocess : is_process s = true.
Hypothesis Hholds : holds raw w.
Hypothesis Hcorrupt : corrupt w = false.

Lemma window_end : start_offset w + lenN (contents (bytes w)) = lenN raw.
Proof using Hholds.
  destruct Hholds as [Hend Hstart Hbytes _ _ _ _]. rewrite Hbytes. unfold lenN in *. rewrite length_drop. lia.
Qed.

Lemma process_page_eof offset max_bytes p :
  offset <= lenN raw → Forall is_byte raw →
  project (output_view s r) (mkRequest ref s offset None) max_bytes = Ok p → page_says raw s r offset p.
Proof using All.
  intros Hoffset Hbyte. rewrite (output_view_process s r) by done.
  pose proof window_end as Hwend. destruct Hholds as [Hend Hstart Hbytes Hsize Htr Hexp Hseen].
  unfold project. cbn. rewrite Hprocess, Hcorrupt. cbn.
  pose proof (as_slices_law (contents (bytes w))) as Hslices.
  set (sl := as_slices (contents (bytes w))) in *.
  assert (Hlen : lenN sl.1 + lenN sl.2 = lenN (contents (bytes w))) by (by rewrite <- lenN_app, Hslices).
  rewrite Hlen, Hwend, Hend.
  destruct (bool_decide (process_availability s r = Expired)) eqn:Hexpired.
  { rewrite bool_decide_false by lia. intros [-> _]%encoded_result_Ok. split; cbn; [lia|done|].
    rewrite orb_false_r. done. }
  rewrite (bool_decide_false (lenN raw < offset)) by lia. cbn.
  destruct (negb (seen w) && bool_decide (offset ≠ 0)); [done|].
  destruct (decide (offset < start_offset w)) as [Hgap|Hin].
  { intros [-> _]%encoded_result_Ok. split; cbn; [|done|].
    - destruct (decide (lenN (contents (bytes w)) = 0)); lia.
    - intros [Hc Hr]%andb_prop. apply bool_decide_eq_true in Hr. by rewrite decide_True. }
  rewrite (decide_False (P := lenN raw < offset)) by lia.
  pose proof (view_from_app (offset - start_offset w)
    (mkView sl (start_offset w) (observed_end w) (seen w) (seen w || complete w) (complete w || stream_final r)
       (truncated w) (process_availability s r) (corrupt w))) as Hview.
  destruct (view_from _ _) as [first second]. cbn in Hview. rewrite Hslices, Hbytes, drop_drop in Hview.
  replace (N.to_nat (start_offset w) + N.to_nat (offset - start_offset w))%nat with (N.to_nat offset) in Hview by lia.
  destruct (decide (first = [] ∧ second = [])) as [[-> ->]|Hsome].
  { intros [-> _]%encoded_result_Ok. cbn in Hview. symmetry in Hview. apply drop_nil_inv in Hview as Hlast.
    split; cbn; [lia|rewrite decide_True by done; lia|]. intros [Hc Hr]%andb_prop. apply bool_decide_eq_true in Hr. split; [lia|done]. }
  destruct (decide (max_bytes < _)); [done|].
  rewrite bind_Ok. intros ([data len] & Hdata & Hrest). apply page_data_process in Hdata as [-> Hn]. cbn in Hn, Hrest.
  destruct (decide (len = 0)); [done|]. apply encoded_result_Ok in Hrest as [-> _].
  rewrite Hview in *.
  assert (Hle : offset + len <= lenN raw) by (unfold lenN in *; rewrite length_drop in Hn; lia).
  split; cbn; [lia| |].
  - rewrite decide_False.
    + split; [lia|]. rewrite base64_law.
      * unfold slice. do 2 f_equal. lia.
      * by apply Forall_take, Forall_drop.
    + intros Hnil. pose proof (base64_len (take (N.to_nat len) (drop (N.to_nat offset) raw))
        ltac:(by apply Forall_take, Forall_drop)) as Hlen64.
      rewrite Hnil in Hlen64. cbn in Hlen64.
      assert (lenN (take (N.to_nat len) (drop (N.to_nat offset) raw)) = len) as Htake.
      { unfold lenN in *. rewrite length_take, length_drop. lia. }
      rewrite Htake in Hlen64. assert (1 <= (len + 2) / 3) by (apply N.div_le_lower_bound; lia). lia.
  - intros [Hc Hr]%andb_prop. apply bool_decide_eq_true in Hr. split; [lia|done].
Qed.

Lemma empty_page_fits max_bytes p :
  roomy ref max_bytes → g_tool_ref p = ref → g_data p = [] → g_base_offset p <= u64_max → g_next_offset p <= u64_max →
  g_observed_end p <= u64_max → encoded_result p max_bytes = Ok p.
Proof using Type. intros Hroom ? ? ? ? ?. apply encoded_result_Ok. split; [done|]. assert (encoded_len p + 6 <= max_bytes) by (by apply Hroom). lia. Qed.

Lemma process_page_progress offset max_bytes :
  offset <= lenN raw → lenN raw <= u64_max → Forall is_byte raw → roomy ref max_bytes →
  ∃ p, project (output_view s r) (mkRequest ref s offset None) max_bytes = Ok p ∧
       (offset < lenN raw → offset < g_next_offset p).
Proof using All.
  intros Hoffset Hmax Hbyte Hroom. rewrite (output_view_process s r) by done.
  pose proof window_end as Hwend. destruct Hholds as [Hend Hstart Hbytes Hsize Htr Hexp Hseen].
  unfold project. cbn. rewrite Hprocess, Hcorrupt. cbn.
  pose proof (as_slices_law (contents (bytes w))) as Hslices.
  set (sl := as_slices (contents (bytes w))) in *.
  assert (Hlen : lenN sl.1 + lenN sl.2 = lenN (contents (bytes w))) by (by rewrite <- lenN_app, Hslices).
  rewrite Hlen, Hwend, Hend.
  destruct (bool_decide (process_availability s r = Expired)).
  { rewrite bool_decide_false by lia. eexists. rewrite empty_page_fits; cbn; try done; lia. }
  rewrite (bool_decide_false (lenN raw < offset)) by lia. cbn.
  replace (negb (seen w) && bool_decide (offset ≠ 0)) with false.
  2:{ destruct (seen w); [done|]. rewrite Hseen in Hoffset by done. cbn in Hoffset. rewrite bool_decide_false; [done|].
      unfold lenN in Hoffset. cbn in Hoffset. lia. }
  destruct (decide (offset < start_offset w)) as [Hgap|Hin].
  { eexists. split; [apply empty_page_fits; try done; cbn; try lia|cbn];
      destruct (decide (lenN (contents (bytes w)) = 0)); lia. }
  rewrite (decide_False (P := lenN raw < offset)) by lia.
  pose proof (view_from_app (offset - start_offset w)
    (mkView sl (start_offset w) (observed_end w) (seen w) (seen w || complete w) (complete w || stream_final r)
       (truncated w) (process_availability s r) (corrupt w))) as Hview.
  destruct (view_from _ _) as [first second]. cbn in Hview. rewrite Hslices, Hbytes, drop_drop in Hview.
  replace (N.to_nat (start_offset w) + N.to_nat (offset - start_offset w))%nat with (N.to_nat offset) in Hview by lia.
  destruct (decide (first = [] ∧ second = [])) as [[-> ->]|Hsome].
  { cbn in Hview. symmetry in Hview. apply drop_nil_inv in Hview.
    eexists. split; [apply empty_page_fits; try done; cbn; lia|cbn; unfold lenN; lia]. }
  set (template := mkPage _ _ _ _ _ _ _ _ _ _).
  assert (Henv : encoded_len template + 6 <= max_bytes) by (apply Hroom; cbn; try done; lia).
  rewrite decide_False by lia.
  set (available := max_bytes - encoded_len template + 2).
  assert (Hdata : ∃ data len, page_data true (first, second) available = Ok (data, len)) by (by do 2 eexists).
  destruct Hdata as (data & len & Hdata). rewrite Hdata. cbn.
  apply page_data_process in Hdata as [Hdata Hn]. cbn [fst snd] in Hdata, Hn.
  assert (Hpos : 0 < lenN (first ++ second)).
  { destruct (decide (lenN (first ++ second) = 0)) as [Hz|]; [|lia]. apply lenN_zero, app_nil in Hz. done. }
  assert (Hfour : 1 <= (available - 2) / 4) by (apply N.div_le_lower_bound; lia).
  rewrite decide_False by lia.
  assert (Hle : offset + len <= lenN raw) by (rewrite Hview in Hn; unfold lenN in *; rewrite length_drop in Hn; lia).
  eexists. split; [apply encoded_result_Ok; split; [done|]|cbn; lia].
  etransitivity; [apply encoded_len_law; cbn; lia|]. cbn. change (template_of _) with template.
  assert (Hcost : json_escaped_len data <= available - 2); [|lia].
  rewrite Hdata, base64_len by (rewrite Hview; by apply Forall_take, Forall_drop). apply base64_fits. unfold lenN at 1. rewrite length_take. lia.
Qed.
End window_page.
End process.
