(* ===== verification/ToolFollow.v ===== *)
(** A client that follows the output of a process page by page, [tool_data/paging.rs],
    while the process writes and the budget of the session evicts.

    The client asks for the page at the offset the last page named.  The theorem says
    what it then holds: at every offset the byte the process wrote there, or a gap, and
    no gap of which no page warned. *)

From S2P Require Import Prelude RustStr Errors ToolRecord ToolPage.
Open Scope N_scope.

(** What a client has: the next offset, what it knows at every offset before that
    ([None] for a byte that was gone), and whether a page said that bytes are gone. *)
Record Client := mkClient { next : N; known : list (option N); warned : bool }.
Definition Client_new : Client := mkClient 0 [] false.

Section follow.
Context {PE : PageEncoding} {PL : PageEncodingLaws} (grant : N → N) (s : ToolDataStream) (ref : ToolRef).

Definition accept (p : ToolOutputPage) (c : Client) : Client :=
  mkClient (g_next_offset p)
    (known c ++ (if decide (g_data p = []) then replicate (N.to_nat (g_next_offset p - next c)) None
                 else Some <$> default [] (base64_decode (g_data p))))
    (warned c || g_truncated p).

Definition page_of (r : ToolRecord) (offset max_bytes : N) : result AgentError ToolOutputPage :=
  project (output_view s r) (mkRequest ref s offset None) max_bytes.

(** The bytes written so far, the record and the client. *)
Notation world := (list N * ToolRecord * Client)%type.

Inductive step : world → world → Prop :=
  | step_chunk raw r c chunk :
      Forall is_byte chunk → lenN (raw ++ chunk) <= u64_max →
      step (raw, r, c) (raw ++ chunk, set_stream s (push grant chunk (process_window s r)).1 r, c)
  | step_evict raw r c : step (raw, r, c) (raw, set_stream s (evict (process_window s r)) r, c)
  | step_end raw r c : step (raw, r, c) (raw, set_stream s (end_stream (process_window s r)) r, c)
  | step_cut raw r c : step (raw, r, c) (raw, set_stream s (cut_stream (process_window s r)) r, c)
  | step_record raw r r' c :
      (** Anything else that happens to the record. *)
      process_window s r' = process_window s r → step (raw, r, c) (raw, r', c)
  | step_read raw r c max_bytes p :
      page_of r (next c) max_bytes = Ok p → step (raw, r, c) (raw, r, accept p c).

(** What the client has agrees with what was written. *)
Record agrees (raw : list N) (c : Client) : Prop := {
  agrees_next : next c = lenN (known c);
  agrees_within : next c <= lenN raw;
  agrees_bytes i b : known c !! i = Some (Some b) → raw !! i = Some b;
  agrees_gaps i : known c !! i = Some None → warned c = true
}.

Record world_ok (w : world) : Prop := {
  ok_holds : holds w.1.1 (process_window s w.1.2);
  ok_corrupt : corrupt (process_window s w.1.2) = false;
  ok_bytes : Forall is_byte w.1.1;
  ok_size : lenN w.1.1 <= u64_max;
  ok_client : agrees w.1.1 w.2
}.

Hypothesis Hprocess : is_process s = true.

Lemma process_window_set w r : process_window s (set_stream s w r) = w.
Proof using Hprocess. by destruct s. Qed.

Lemma corrupt_push chunk w : corrupt (push grant chunk w).1 = corrupt w.
Proof using Type. unfold push. by repeat case_decide. Qed.

Lemma agrees_mono raw more c : agrees raw c → agrees (raw ++ more) c.
Proof using Type.
  intros [Hnext Hin Hb Hg]. split; try done.
  - rewrite lenN_app. lia.
  - intros i b Hi. by apply lookup_app_l_Some, Hb.
Qed.

Lemma slice_lookup raw a b i x : slice raw a b !! i = Some x → raw !! (N.to_nat a + i)%nat = Some x.
Proof using Type. unfold slice. intros Hi. apply lookup_take_Some in Hi as [Hi _]. by rewrite lookup_drop in Hi. Qed.

Lemma accept_agrees raw r p c :
  agrees raw c → page_says raw s r (next c) p → agrees raw (accept p c).
Proof using Hprocess PL.
  intros [Hnext Hin Hb Hg] [Hsays Hdata _]. unfold accept. destruct (decide (g_data p = [])) as [Hnil|Hsome].
  - split; cbn.
    + rewrite lenN_app. unfold lenN in *. rewrite length_replicate. lia.
    + lia.
    + intros i b [Hi|[_ Hi]]%lookup_app_Some; [by apply Hb|]. by apply lookup_replicate in Hi as [? _].
    + intros i [Hi|[Hle Hi]]%lookup_app_Some; [by rewrite (Hg i)|]. apply lookup_replicate in Hi as [_ Hi].
      rewrite Hdata by lia. by rewrite orb_true_r.
  - destruct Hdata as [Hlt ->]. cbn. split; cbn.
    + rewrite lenN_app, lenN_fmap, slice_len; lia.
    + lia.
    + intros i b [Hi|[Hle Hi]]%lookup_app_Some; [by apply Hb|]. apply list_lookup_fmap_Some in Hi as (x & [= <-] & Hi).
      apply slice_lookup in Hi. rewrite <- Hi. f_equal. unfold lenN in *. lia.
    + intros i [Hi|[Hle Hi]]%lookup_app_Some; [by rewrite (Hg i)|]. by apply list_lookup_fmap_Some in Hi as (x & ? & _).
Qed.

Lemma read_ok raw r c max_bytes p :
  world_ok (raw, r, c) → page_of r (next c) max_bytes = Ok p → world_ok (raw, r, accept p c).
Proof using Hprocess PL.
  intros [Hh Hc Hb Hs Ha] Hp. cbn in *. split; cbn; try done. eapply accept_agrees; [done|].
  eapply process_page_eof; try done. apply Ha.
Qed.

Lemma step_ok w w' : step w w' → world_ok w → world_ok w'.
Proof using Hprocess PL.
  destruct 1 as [raw r c chunk Hchunk Hmax|raw r c|raw r c|raw r c|raw r r' c Hsame|raw r c max_bytes p Hp];
    [..|intros Hok; by eapply read_ok]; intros [Hh Hc Hb Hs Ha]; cbn in *; split; cbn; rewrite ?process_window_set, ?Hsame, ?corrupt_push; try done.
  - by apply push_holds.
  - by apply Forall_app.
  - by apply agrees_mono.
  - by apply evict_holds.
  - by apply end_holds.
  - by apply cut_holds.
Qed.

Lemma world_reached name w : rtc step ([], ToolRecord_new name, Client_new) w → world_ok w.
Proof using Hprocess PL.
  revert w. apply (rtc_ind_r world_ok).
  - split; cbn; [destruct s; apply holds_default|by destruct s|done|done|by split].
  - intros w w' _ Hstep Hok. by eapply step_ok.
Qed.

(** So many reads, one after the other. *)
Fixpoint read_on (reads : nat) (max_bytes : N) (r : ToolRecord) (c : Client) : Client :=
  match reads with
  | O => c
  | S reads => match page_of r (next c) max_bytes with Ok p => read_on reads max_bytes r (accept p c) | Err _ => c end
  end.

Lemma page_exact raw r c max_bytes :
  world_ok (raw, r, c) → roomy ref max_bytes →
  ∃ p, page_of r (next c) max_bytes = Ok p ∧ page_says raw s r (next c) p ∧
    (next c < lenN raw → next c < g_next_offset p).
Proof using Hprocess PL.
  intros [Hh Hc Hb Hs Ha] Hroom. cbn in *. pose proof (agrees_within _ _ Ha) as Hin.
  destruct (process_page_progress raw s r ref Hprocess Hh Hc (next c) max_bytes) as (p & Hp & Hmore); try done.
  exists p. split; [done|]. split; [|done]. by eapply process_page_eof.
Qed.

Lemma read_on_reaches raw r max_bytes reads c :
  world_ok (raw, r, c) → roomy ref max_bytes → lenN raw - next c <= N.of_nat reads →
  agrees raw (read_on reads max_bytes r c) ∧ next (read_on reads max_bytes r c) = lenN raw.
Proof using Hprocess PL.
  revert c. induction reads as [|reads IH]; intros c Hok Hroom Hreads; cbn.
  - destruct Hok as [_ _ _ _ Ha]. split; [done|]. pose proof (agrees_within _ _ Ha). cbn in *. lia.
  - destruct (page_exact raw r c max_bytes Hok Hroom) as (p & Hp & Hsays & Hmore). rewrite Hp.
    apply IH; [by eapply read_ok|done|].
    cbn. pose proof (says_next _ _ _ _ _ Hsays). lia.
Qed.

(** C30 A client asks for the page at the offset the last page named, while the process
    writes, the budget evicts, streams end or are cut and the record changes otherwise.
    What it has is, at every offset, the byte written there or a gap; if there is a gap
    a page has warned of it.  A page within the byte budget is never refused, it ends
    the stream only when all that was written has been passed and no more can come; and
    as many reads as bytes are missing, at most, bring the client to the end. *)
Theorem follow_exact name raw r c max_bytes :
  rtc step ([], ToolRecord_new name, Client_new) (raw, r, c) → roomy ref max_bytes →
  agrees raw c ∧
  (∃ p, page_of r (next c) max_bytes = Ok p ∧
     (g_eof p = true → g_next_offset p = lenN raw ∧ complete (process_window s r) || stream_final r = true)) ∧
  let c' := read_on (N.to_nat (lenN raw - next c)) max_bytes r c in
  agrees raw c' ∧ next c' = lenN raw.
Proof using Hprocess PL.
  intros Hok%world_reached Hroom. split; [apply Hok|]. split.
  - destruct (page_exact raw r c max_bytes Hok Hroom) as (p & Hp & Hsays & _). exists p. split; [done|]. apply Hsays.
  - apply read_on_reaches; [done|done|lia].
Qed.
End follow.

(** ** The client on a small output *)

Module FollowSample.
(** The standard alphabet. *)
Definition digit (n : N) : char :=
  if decide (n < 26) then n + 65 else if decide (n < 52) then n + 71 else if decide (n < 62) then n - 4
  else if decide (n = 62) then 43 else 47.
Definition value (c : char) : N :=
  if decide (97 <= c) then c - 71 else if decide (65 <= c) then c - 65 else if decide (48 <= c) then c + 4
  else if decide (c = 43) then 62 else 63.
Definition filler : char := 61.

Fixpoint to64 (bs : list N) : str :=
  match bs with
  | [] => []
  | [a] => [digit (a / 4); digit (a mod 4 * 16); filler; filler]
  | [a; b] => [digit (a / 4); digit (a mod 4 * 16 + b / 16); digit (b mod 16 * 4); filler]
  | a :: b :: c :: bs =>
      digit (a / 4) :: digit (a mod 4 * 16 + b / 16) :: digit (b mod 16 * 4 + c / 64) :: digit (c mod 64) :: to64 bs
  end.
Fixpoint from64 (s : str) : list N :=
  match s with
  | w :: x :: y :: z :: s =>
      let a := value w * 4 + value x / 16 in
      let b := value x mod 16 * 16 + value y / 4 in
      let c := value y mod 4 * 64 + value z in
      if decide (y = filler) then [a] else if decide (z = filler) then [a; b] else a :: b :: c :: from64 s
  | _ => []
  end.

Ltac Zify.zify_post_hook ::= Z.to_euclidean_division_equations.

Lemma value_digit n : n < 64 → value (digit n) = n ∧ digit n ≠ filler ∧ escaped_char_len (digit n) = 1.
Proof.
  intros Hn. assert (Hall : forallb (λ n, let n := N.of_nat n in bool_decide (value (digit n) = n ∧ digit n ≠ filler ∧
    escaped_char_len (digit n) = 1)) (seq 0 64) = true) by by vm_compute.
  rewrite forallb_forall in Hall. specialize (Hall (N.to_nat n)). cbn zeta in Hall. rewrite N2Nat.id in Hall.
  apply bool_decide_eq_true in Hall; [done|]. apply in_seq. lia.
Qed.

Lemma value_of_digit n : n < 64 → value (digit n) = n.
Proof. intros Hn. apply (value_digit n Hn). Qed.
Lemma digit_pad n : n < 64 → digit n ≠ filler.
Proof. intros Hn. apply (value_digit n Hn). Qed.
Lemma digit_cost n : n < 64 → escaped_char_len (digit n) = 1.
Proof. intros Hn. apply (value_digit n Hn). Qed.

Lemma encode_ind (P : list N → Prop) :
  P [] → (∀ a, P [a]) → (∀ a b, P [a; b]) → (∀ a b c bs, P bs → P (a :: b :: c :: bs)) → ∀ bs, P bs.
Proof.
  intros H0 H1 H2 H3 bs. assert (P bs ∧ (∀ a, P (a :: bs)) ∧ ∀ a b, P (a :: b :: bs)) as [? _]; [|done].
  induction bs as [|c bs (IH0 & IH1 & IH2)]; [done|]. split; [apply IH1|]. split; [intros a; apply IH2|intros a b; by apply H3].
Qed.

Lemma encode_size bs : Forall is_byte bs → json_escaped_len (to64 bs) = 4 * ((lenN bs + 2) / 3).
Proof.
  induction bs as [|a|a b|a b c bs IH] using encode_ind; intros Hbs; [done| | |];
    repeat (apply Forall_cons in Hbs as [? Hbs]); unfold is_byte in *; cbn.
  - by rewrite !digit_cost by lia.
  - by rewrite !digit_cost by lia.
  - rewrite !digit_cost, IH by (done || lia). rewrite !lenN_cons. lia.
Qed.
Lemma decode_encode bs : Forall is_byte bs → from64 (to64 bs) = bs.
Proof.
  induction bs as [|a|a b|a b c bs IH] using encode_ind; intros Hbs; [done| | |];
    repeat (apply Forall_cons in Hbs as [? Hbs]); unfold is_byte in *; cbn.
  - rewrite !value_of_digit by lia. f_equal. lia.
  - rewrite decide_False by (apply digit_pad; lia). rewrite !value_of_digit by lia. repeat f_equal; lia.
  - rewrite !decide_False by (apply digit_pad; lia). rewrite !value_of_digit, IH by (done || lia).
    repeat f_equal; lia.
Qed.

#[local] Instance sample_encoding : PageEncoding := {|
  encoded_len p := 300 + (if g_eof p then 4 else 5) + json_escaped_len (g_data p);
  base64 := to64;
  base64_decode s := Some (from64 s);
  as_slices l := (take (Nat.div2 (length l)) l, drop (Nat.div2 (length l)) l)
|}.
#[local] Instance sample_laws : PageEncodingLaws.
Proof.
  split; cbn.
  - intros p _. destruct (g_eof p); lia.
  - apply encode_size.
  - intros bs Hbs. by rewrite decode_encode.
  - intros l. apply take_drop.
Qed.

Definition ref : ToolRef := mkRef 1 1 0 (lit "call").
Definition grant (n : N) : N := n.
Definition r0 := ToolRecord_new (lit "bash").
Definition r1 := set_stream Stdout (push grant [104; 105; 10] (stdout r0)).1 r0.
(** The second page holds three of four bytes, then the budget evicts. *)
Definition c1 := read_on Stdout ref 1 310 r1 Client_new.
Definition r2 := set_stream Stdout (push grant [1; 2; 3; 4] (stdout r1)).1 r1.
Definition c2 := read_on Stdout ref 1 310 r2 c1.
Definition r3 := set_stream Stdout (evict (stdout r2)) r2.
Definition r4 := set_stream Stdout (push grant [255] (stdout r3)).1 r3.
Definition r5 := set_stream Stdout (end_stream (stdout r4)) r4.
Definition written : list N := [104; 105; 10; 1; 2; 3; 4; 255].

Definition page_of_r1 := page_of Stdout ref r1 (next Client_new) 310.
Definition page_of_r2 := page_of Stdout ref r2 (next c1) 310.

Lemma follow_steps :
  rtc (step grant Stdout ref) ([], ToolRecord_new (lit "bash"), Client_new) (written, r5, c2).
Proof.
  apply (rtc_l _ _ ([104; 105; 10], r1, Client_new)).
  { apply (step_chunk grant Stdout ref [] r0 Client_new [104; 105; 10]); [by repeat constructor|by vm_compute]. }
  apply (rtc_l _ _ ([104; 105; 10], r1, c1)).
  { destruct page_of_r1 as [p|] eqn:Hp; [|by vm_compute in Hp].
    replace c1 with (accept p Client_new) by (vm_compute in Hp; injection Hp as <-; by vm_compute).
    exact (step_read grant Stdout ref _ r1 Client_new 310 p Hp). }
  apply (rtc_l _ _ ([104; 105; 10; 1; 2; 3; 4], r2, c1)).
  { apply (step_chunk grant Stdout ref [104; 105; 10] r1 c1 [1; 2; 3; 4]); [by repeat constructor|by vm_compute]. }
  apply (rtc_l _ _ ([104; 105; 10; 1; 2; 3; 4], r2, c2)).
  { destruct page_of_r2 as [p|] eqn:Hp; [|by vm_compute in Hp].
    replace c2 with (accept p c1) by (vm_compute in Hp; injection Hp as <-; by vm_compute).
    exact (step_read grant Stdout ref _ r2 c1 310 p Hp). }
  apply (rtc_l _ _ ([104; 105; 10; 1; 2; 3; 4], r3, c2)); [apply step_evict|].
  apply (rtc_l _ _ (written, r4, c2)).
  { apply (step_chunk grant Stdout ref [104; 105; 10; 1; 2; 3; 4] r3 c2 [255]); [by repeat constructor|by vm_compute]. }
  apply (rtc_l _ _ (written, r5, c2)); [apply step_end|apply rtc_refl].
Qed.

Lemma sample_roomy : roomy ref 311.
Proof. intros p _ Hdata _ _ _. cbn. rewrite Hdata. cbn. destruct (g_eof p); lia. Qed.

(** The client has six bytes, reads on, and is warned of the one it missed. *)
Lemma follow_exact_witness :
  known c2 = Some <$> [104; 105; 10; 1; 2; 3] ∧ warned c2 = false ∧
  let c' := read_on Stdout ref (N.to_nat (lenN written - next c2)) 311 r5 c2 in
  agrees written c' ∧ next c' = lenN written ∧ known c' = (Some <$> [104; 105; 10; 1; 2; 3]) ++ [None; Some 255].
Proof.
  split; [by vm_compute|]. split; [by vm_compute|]. cbn zeta.
  destruct (follow_exact grant Stdout ref eq_refl (lit "bash") written r5 c2 311 follow_steps sample_roomy)
    as (_ & _ & Ha & Hn).
  split; [exact Ha|]. split; [exact Hn|by vm_compute].
Defined.
End FollowSample.
