(* ===== verification/ToolStored.v ===== *)
(** A persisted tool call serves the pages it served before, [tool_data/read.rs] and
    [tool_data/paging.rs] on a snapshot of [tool_data/data.rs].

    After a call has ended its record is written to disk; the record in memory may then
    lose its bytes to the budget, or be dropped altogether.  The theorem: every page
    that could be read when the snapshot was taken is still read, unchanged. *)

From S2P Require Import Prelude RustStr Errors ToolRecord ToolPage ToolFollow.
Open Scope N_scope.

(** What the budget does to a record, as [evict_some_bytes] does it. *)
Definition evict_change (r : ToolRecord) : ToolRecord :=
  set_misc (phase r) (command r)
    ((λ c, mkChange (stored c) None None (before_corrupt c) (after_corrupt c)) <$> file_change r) (recording r) r.

Inductive evicts : ToolRecord → ToolRecord → Prop :=
  | evicts_input r : evicts r (evict_input r)
  | evicts_result r : evicts r (evict_result r)
  | evicts_change r : evicts r (evict_change r)
  | evicts_stream s w r : stream s r = Some w → evicts r (set_stream s (evict w) r).

(** The file of a stream in a snapshot. *)
Definition snapshot_file (s : ToolDataStream) (p : ToolPersistenceSnapshot) : option (list N) :=
  match s with
  | Input => p_input_bytes p | Output => p_result_bytes p | Stdout => p_stdout_bytes p | Stderr => p_stderr_bytes p
  end.
(** Reading it back unharmed. *)
Definition read_back (s : ToolDataStream) (p : ToolPersistenceSnapshot) : StoredToolRead :=
  mkStoredRead (p_record p) (snapshot_file s p, false).

(** ** What eviction leaves *)

Definition window_left (w w' : StreamWindow) : Prop :=
  observed_end w' = observed_end w ∧ (w' = w ∨ expired w' = true).

Record left_of (r r' : ToolRecord) : Prop := {
  left_name : name r' = name r;
  left_state : state r' = state r;
  left_outcome : outcome r' = outcome r;
  left_command : command r' = command r;
  left_totals : (input_total r', result_total r', input_seen r', result_seen r')
                = (input_total r, result_total r, input_seen r, result_seen r);
  left_cuts : (input_truncated r', result_truncated r') = (input_truncated r, result_truncated r);
  left_corrupt : (input_corrupt r', result_corrupt r') = (input_corrupt r, result_corrupt r);
  left_input : (input r', input_expired r') = (input r, input_expired r) ∨ input_expired r' = true;
  left_result : (result_text r', result_expired r') = (result_text r, result_expired r) ∨ result_expired r' = true;
  left_stdout : window_left (stdout r) (stdout r');
  left_stderr : window_left (stderr r) (stderr r')
}.

Lemma window_left_refl w : window_left w w.
Proof. split; [done|by left]. Qed.
Lemma window_left_evict w w' : window_left w w' → window_left w (evict w').
Proof. intros [? _]. split; [done|by right]. Qed.
#[local] Hint Resolve window_left_refl window_left_evict : core.

Lemma left_refl r : left_of r r.
Proof. split; auto. Qed.
Lemma left_evicts r r' r'' : left_of r r' → evicts r' r'' → left_of r r''.
Proof.
  intros [] Hev. destruct Hev as [r'|r'|r'|s w r' Hw]; try by split; cbn; auto.
  destruct s; [done|done|..]; injection Hw as <-; by split; cbn; auto.
Qed.
Lemma evictions_left r r' : rtc evicts r r' → left_of r r'.
Proof. revert r'. apply (rtc_ind_r (left_of r)); [apply left_refl|]. intros ? ? _ He Hl. by eapply left_evicts. Qed.

Section stored.
Context {PE : PageEncoding} {PL : PageEncodingLaws}.

(** ** The pages of a view do not depend on how a deque wraps *)

Definition same_view (v v' : ToolOutputView) : Prop :=
  (v_bytes v).1 ++ (v_bytes v).2 = (v_bytes v').1 ++ (v_bytes v').2 ∧
  (v_base v, v_observed v, v_seen v, v_known v, v_complete v, v_truncated v, v_availability v, v_corrupt v) =
  (v_base v', v_observed v', v_seen v', v_known v', v_complete v', v_truncated v', v_availability v', v_corrupt v').

Lemma page_data_slices slices slices' available :
  slices.1 ++ slices.2 = slices'.1 ++ slices'.2 → page_data true slices available = page_data true slices' available.
Proof using Type.
  intros Happ.
  assert (Hdata : ∀ sl, ∃ data len, page_data true sl available = Ok (data, len)) by (intros []; by do 2 eexists).
  destruct (Hdata slices) as (d & n & Hd), (Hdata slices') as (d' & n' & Hd').
  rewrite Hd, Hd'. apply page_data_process in Hd as [-> ->], Hd' as [-> ->]. by rewrite Happ.
Qed.

Lemma project_same v v' request max_bytes :
  is_process (q_stream request) = true → same_view v v' → project v request max_bytes = project v' request max_bytes.
Proof using Type.
  intros Hprocess [Happ [= Hb Ho Hs Hk Hc Ht Ha Hcor]]. unfold project. rewrite Hprocess, Hb, Ho, Hs, Hc, Ht, Ha, Hcor.
  assert (Hlen : lenN (v_bytes v).1 + lenN (v_bytes v).2 = lenN (v_bytes v').1 + lenN (v_bytes v').2)
    by by rewrite <- !lenN_app, Happ.
  rewrite Hlen.
  pose proof (view_from_app (q_offset request - v_base v') v) as Hf.
  pose proof (view_from_app (q_offset request - v_base v') v') as Hf'.
  rewrite Happ, <- Hf' in Hf. destruct (view_from _ v) as [a b], (view_from _ v') as [a' b']. cbn in Hf.
  assert (Hnil : (a = [] ∧ b = []) ↔ (a' = [] ∧ b' = [])) by (rewrite <- !app_nil, Hf; done).
  destruct (decide (a = [] ∧ b = [])) as [He|He], (decide (a' = [] ∧ b' = [])) as [He'|He']; try tauto.
  by rewrite (page_data_slices (a, b) (a', b')) by done.
Qed.

End stored.

(** ** The view of the file is the view of the record *)

Section survives.
Context {PE : PageEncoding} {PL : PageEncodingLaws} (hash_bytes : list N → str).

Lemma usable_text seen expired truncated corrupt terminal text observed :
  usable (v_availability (text_view text observed seen expired truncated corrupt terminal)) = true →
  corrupt = false ∧ expired = false.
Proof using Type.
  unfold text_view, ToolRecord.stream_availability. cbn [v_availability]. by destruct corrupt, expired.
Qed.

Lemma usable_process s r :
  is_process s = true → usable (v_availability (output_view s r)) = true →
  corrupt (process_window s r) = false ∧ expired (process_window s r) = false.
Proof using Type.
  intros Hs. rewrite (output_view_process s r Hs). cbn. unfold process_availability.
  replace (stream s r) with (Some (process_window s r)) by by destruct s.
  by destruct (corrupt _), (expired _).
Qed.

Lemma snapshot_blob_bytes bytes : default [] (snapshot_blob hash_bytes bytes false).1.1 = bytes.
Proof using Type. unfold snapshot_blob. cbn. case_bool_decide; by subst. Qed.
Lemma snapshot_blob_len bytes : (snapshot_blob hash_bytes bytes false).1.2 = lenN bytes.
Proof using Type. unfold snapshot_blob. cbn. case_bool_decide; by subst. Qed.

(** What a snapshot has of its record. *)
Lemma snapshot_fields ref r p :
  persistence_snapshot hash_bytes ref r = Some p →
  is_terminal r = true ∧
  (s_tool_ref (p_record p), s_name (p_record p), s_state (p_record p), s_outcome (p_record p), s_command (p_record p))
  = (ref, name r, state r, outcome r, live_command r <$> command r) ∧
  (m_total_bytes (s_input (p_record p)), m_seen (s_input (p_record p)), m_truncated (s_input (p_record p)),
   m_expired (s_input (p_record p)), m_file_bytes (s_input (p_record p)), p_input_bytes p)
  = (input_total r, input_seen r, input_truncated r, input_expired r,
     (snapshot_blob hash_bytes (as_bytes (input r)) (input_expired r)).1.2,
     (snapshot_blob hash_bytes (as_bytes (input r)) (input_expired r)).1.1) ∧
  (m_total_bytes (s_result (p_record p)), m_seen (s_result (p_record p)), m_truncated (s_result (p_record p)),
   m_expired (s_result (p_record p)), m_file_bytes (s_result (p_record p)), p_result_bytes p)
  = (result_total r, result_seen r, result_truncated r, result_expired r,
     (snapshot_blob hash_bytes (as_bytes (result_text r)) (result_expired r)).1.2,
     (snapshot_blob hash_bytes (as_bytes (result_text r)) (result_expired r)).1.1) ∧
  (s_stdout (p_record p), p_stdout_bytes p) = window_snapshot hash_bytes (stdout r) ∧
  (s_stderr (p_record p), p_stderr_bytes p) = window_snapshot hash_bytes (stderr r).
Proof using Type.
  unfold persistence_snapshot. destruct (is_terminal r); [|done]. cbn.
  destruct (snapshot_blob _ (as_bytes (input r)) _) as [[ib ifb] ish].
  destruct (snapshot_blob _ (as_bytes (result_text r)) _) as [[rb rfb] rsh].
  destruct (window_snapshot _ (stdout r)) as [so sob], (window_snapshot _ (stderr r)) as [se seb].
  by intros [= <-].
Qed.

(** The strings of a record are strings. *)
Definition utf8 (r : ToolRecord) : Prop := forallb is_scalar (input r) = true ∧ forallb is_scalar (result_text r) = true.

Lemma stored_process ref r p s :
  persistence_snapshot hash_bytes ref r = Some p → is_process s = true →
  usable (v_availability (output_view s r)) = true →
  same_view (from_stored (p_record p) s (snapshot_file s p, false)) (output_view s r).
Proof using PL.
  intros (Hterm & [= _ _ Hst _ Hcmd] & _ & _ & Hout & Herr)%snapshot_fields Hs Husable.
  destruct (usable_process s r Hs Husable) as [Hcor Hexp]. rewrite (output_view_process s r Hs).
  unfold from_stored. rewrite Hs, Hst, Hcmd. cbn.
  assert (Hfinal : match live_command r <$> command r with
                   | Some command => command_terminal (status command)
                   | None => state_terminal (state r)
                   end = stream_final r).
  { unfold stream_final. destruct (command r); [|done]. cbn. done. }
  rewrite Hfinal.
  assert (Hw : (match s with Stdout => s_stdout (p_record p) | _ => s_stderr (p_record p) end, snapshot_file s p)
               = window_snapshot hash_bytes (process_window s r)) by by destruct s.
  unfold window_snapshot in Hw. rewrite Hexp in Hw.
  pose proof (snapshot_blob_bytes (contents (bytes (process_window s r)))) as Hbytes.
  destruct (snapshot_blob _ _ _) as [[b fb] sh]. cbn in Hbytes. injection Hw as -> ->. cbn. rewrite Hbytes.
  unfold process_availability. replace (stream s r) with (Some (process_window s r)) by by destruct s.
  rewrite Hcor, Hexp. split; cbn; [|done]. by rewrite app_nil_r, as_slices_law.
Qed.

Lemma from_utf8_text text : forallb is_scalar text = true → bool_decide (from_utf8 (as_bytes text) = None) = false.
Proof using Type. intros Ht. by rewrite from_utf8_as_bytes. Qed.

Lemma stored_text ref r p s :
  persistence_snapshot hash_bytes ref r = Some p → utf8 r → is_process s = false →
  usable (v_availability (output_view s r)) = true →
  from_stored (p_record p) s (snapshot_file s p, false) = output_view s r.
Proof using Type.
  intros (Hterm & [= _ _ Hst _ _] & Hin & Hres & _ & _)%snapshot_fields [Hui Hur] Hs Husable.
  destruct s; try done; cbn in Husable; apply usable_text in Husable as [Hcor Hexp].
  all: unfold from_stored, output_view; cbn [is_process snapshot_file];
    rewrite ?Hst; revert Hin Hres; rewrite ?Hexp, ?Hcor; intros Hin Hres.
  - injection Hin as -> -> -> -> -> ->. rewrite snapshot_blob_len, snapshot_blob_bytes.
    rewrite from_utf8_text, as_bytes_len by done. done.
  - injection Hres as -> -> -> -> -> ->. rewrite snapshot_blob_len, snapshot_blob_bytes.
    rewrite from_utf8_text, as_bytes_len by done. done.
Qed.

(** ** The record in memory does not contradict the one on disk *)

Lemma both_agree_refl {A} `{EqDecision A} (a : option A) : both_agree (λ a b, bool_decide (a = b)) a a = true.
Proof using Type. destruct a; [|done]. by apply bool_decide_eq_true. Qed.

Lemma end_agrees w w' sw b :
  window_left w w' → (sw, b) = window_snapshot hash_bytes w →
  both_agree (λ a b, bool_decide (a = b))
    (if seen w' || complete w' || expired w' || bool_decide (0 < observed_end w') then Some (observed_end w') else None)
    (if w_seen sw || w_complete sw || w_expired sw || bool_decide (0 < w_observed_end sw)
     then Some (w_observed_end sw) else None) = true.
Proof using Type.
  intros [Hend _] Hsw. unfold window_snapshot in Hsw. destruct (snapshot_blob _ _ _) as [[? ?] ?].
  injection Hsw as -> _. cbn. rewrite Hend. destruct (_ || _), (_ || _); try done. by apply bool_decide_eq_true.
Qed.

Lemma left_compatible ref r r' p :
  persistence_snapshot hash_bytes ref r = Some p → left_of r r' →
  compatible (metadata_from_record ref r') (metadata_from_stored (p_record p)) = true.
Proof using Type.
  intros (_ & [= _ Hname Hst Hout Hcmd] & [= Hit Hisn _ _ _ _] & [= Hrt Hrsn _ _ _ _] & Hso & Hse)%snapshot_fields
    [Ln Lst Lo Lc [= Lit Lrt Lis Lrs] _ _ _ _ Lso Lse].
  unfold compatible, metadata_from_record, metadata_from_stored. cbn.
  rewrite Hname, Hst, Hout, Hcmd, Hit, Hrt, Ln, Lst, Lo, Lc, Lit, Lrt.
  rewrite (end_agrees _ _ _ _ Lso Hso), (end_agrees _ _ _ _ Lse Hse), both_agree_refl.
  rewrite !bool_decide_true by done. rewrite !orb_true_r. cbn. rewrite ?andb_true_r.
  destruct (command r); [|done]. cbn. by apply bool_decide_eq_true.
Qed.

(** A view that is still usable is the view of before. *)
Lemma left_view s r r' :
  left_of r r' → usable (v_availability (output_view s r')) = true → output_view s r' = output_view s r.
Proof using Type.
  intros [Ln Lst Lo Lc [= Lit Lrt Lis Lrs] [= Lic Lrc] [= Lico Lrco] Lin Lres [_ Lso] [_ Lse]] Husable.
  destruct (is_process s) eqn:Hs.
  - destruct (usable_process s r' Hs Husable) as [_ Hexp]. rewrite !output_view_process by done.
    assert (process_window s r' = process_window s r) as Hw by (destruct s; [done|done|destruct Lso|destruct Lse]; cbn in Hexp |- *; congruence).
    unfold stream_final, process_availability. replace (stream s r') with (Some (process_window s r')) by by destruct s.
    replace (stream s r) with (Some (process_window s r)) by by destruct s.
    unfold stream_final. by rewrite Hw, Lc, Lst.
  - destruct s; try done; cbn in Husable; apply usable_text in Husable as [_ Hexp]; unfold output_view.
    + destruct Lin as [[= -> ->]|?]; [|congruence]. by rewrite Lit, Lis, Lic, Lico, Lst.
    + destruct Lres as [[= -> ->]|?]; [|congruence]. by rewrite Lrt, Lrs, Lrc, Lrco, Lst.
Qed.

Lemma left_terminal ref r r' : left_of r r' → metadata_terminal (metadata_from_record ref r') = is_terminal r.
Proof using Type.
  intros Hl. unfold metadata_terminal, is_terminal, metadata_from_record. cbn. rewrite (left_state _ _ Hl), (left_command _ _ Hl).
  by destruct (command r).
Qed.

Lemma project_stored ref r p request max_bytes :
  persistence_snapshot hash_bytes ref r = Some p → utf8 r →
  usable (v_availability (output_view (q_stream request) r)) = true →
  let stored := from_stored (p_record p) (q_stream request) (snapshot_file (q_stream request) p, false) in
  project stored request max_bytes = project (output_view (q_stream request) r) request max_bytes ∧
  usable (v_availability stored) = true.
Proof using PL.
  intros Hp Hutf Husable stored. destruct (is_process (q_stream request)) eqn:Hs.
  - pose proof (stored_process ref r p _ Hp Hs Husable) as Hsame. split; [by apply project_same|].
    destruct Hsame as [_ [= _ _ _ _ _ _ Ha _]]. unfold stored. by rewrite Ha.
  - unfold stored. by rewrite (stored_text ref r p).
Qed.

(** C32 A call has ended and its snapshot is on disk.  However its record is then evicted in
    memory, or if it is gone, every page of a stream that could be read at the time of
    the snapshot is the same, whatever offset and size are asked for; the record that is
    left never contradicts the one on disk. *)
Theorem stored_page_survives budget ref r p r' warm request disk :
  persistence_snapshot hash_bytes ref r = Some p → utf8 r →
  rtc evicts r r' → (warm = Some r' ∨ warm = None) → q_tool_ref request = ref →
  usable (v_availability (output_view (q_stream request) r)) = true →
  tool_output budget warm (Ok (Some (read_back (q_stream request) p))) request =
  tool_output budget (Some r) disk request.
Proof using PL.
  intros Hp Hutf Hleft%evictions_left Hwarm Href Husable. unfold tool_output.
  destruct (validate_max_bytes _) as [[]|]; [|done]. destruct budget as [[]|]; [|done].
  cbn [mbind result_bind option_fmap fmap option_map].
  destruct (project_stored ref r p request (default DEFAULT_READ_MAX_BYTES (q_max_bytes request)) Hp Hutf Husable)
    as [Hpage Husable'].
  cbn [metadata payload read_back]. rewrite Husable. cbn [negb]. rewrite andb_false_r. subst ref.
  destruct Hwarm as [-> | ->]; cbn.
  - destruct (usable (v_availability (output_view (q_stream request) r'))) eqn:Hu.
    + cbn [negb]. rewrite andb_false_r. by rewrite (left_view _ _ _ Hleft Hu).
    + rewrite left_terminal with (r := r) by done.
      apply snapshot_fields in Hp as Hf. destruct Hf as (-> & _). cbn.
      rewrite left_compatible with (r := r) by done. rewrite Husable'. cbn. by rewrite Hpage.
  - by rewrite Hpage.
Qed.
End survives.

Module StoredSample.
#[local] Existing Instance FollowSample.sample_encoding.
#[local] Existing Instance FollowSample.sample_laws.

Definition ref : ToolRef := mkRef 1 2 0 (lit "call").
Definition hash (_ : list N) : str := lit "digest".
Definition new := set_input (Command (lit "echo hi") (lit ".")) false (lit "{}") 2 false (ToolRecord_new (lit "bash")).
Definition written := set_stream Stdout (end_stream (push (λ n, n) [104; 105; 10] (stdout new)).1) new.
Definition ended := set_state Succeeded None None (Some OutcomeSuccess) written.
Definition evicted := set_stream Stdout (evict (stdout ended)) ended.
Definition request : ToolOutputRequest := mkRequest ref Stdout 0 None.

(** The bytes of the record are gone from memory; the page is still the one with them. *)
Lemma stored_page_survives_witness :
  ∃ p, persistence_snapshot hash ref ended = Some p ∧
    tool_output (Ok tt) (Some evicted) (Ok (Some (read_back Stdout p))) request =
    tool_output (Ok tt) (Some ended) (Ok None) request ∧
    tool_output (Ok tt) (Some ended) (Ok None) request =
    Ok (mkPage ref Stdout (lit "base64") 0 3 3 true false Available (lit "aGkK")).
Proof.
  destruct (persistence_snapshot hash ref ended) as [p|] eqn:Hp; [|by vm_compute in Hp].
  exists p. split; [done|]. split; [|by vm_compute].
  apply (stored_page_survives hash (Ok tt) ref ended p evicted (Some evicted) request (Ok None) Hp).
  - by split; vm_compute.
  - apply rtc_once. apply (evicts_stream Stdout). done.
  - by left.
  - done.
  - by vm_compute.
Defined.
End StoredSample.
