(* ===== verification/ToolData.v ===== *)
(** The facts of the tool calls of one session, [tool_data/data.rs].

    A map of records, the order they came in, and the number of bytes they hold.  Every
    operation that adds bytes ends by evicting the oldest bytes, then the oldest
    records, until the session is within its budget.  What the clock says, how much an
    allocation grants and the arguments of a call, which are JSON, are arguments. *)

From S2P Require Import Prelude RustStr ToolRecord ToolPage ToolStored.
From S2P Require PreviewObserver.
Abbreviation truncate := PreviewObserver.truncate.
Abbreviation count_lines := PreviewObserver.count_lines.
Open Scope N_scope.

Definition MAX_TOOL_RECORDS : nat := 1024.
Definition MAX_TOOL_TOTAL_BYTES : N := 8 * 1024 * 1024.
Definition MAX_TOOL_INPUT_BYTES : N := 64 * 1024.
Definition MAX_TOOL_RESULT_BYTES : N := 256 * 1024.
Definition EVENT_INPUT_PREVIEW_BYTES : N := 2 * 1024.
Definition MAX_SUBJECT_BYTES : N := 4 * 1024.

Record ToolDataInner := mkInner {
  records : gmap ToolRef ToolRecord;
  order : list ToolRef;
  total_bytes : N
}.
Definition ToolDataInner_default : ToolDataInner := mkInner ∅ [] 0.

Definition track (tool_ref : ToolRef) (name : str) (inner : ToolDataInner) : ToolDataInner :=
  match records inner !! tool_ref with
  | Some _ => inner
  | None =>
      let record := ToolRecord_new name in
      mkInner (<[tool_ref := record]> (records inner)) (order inner ++ [tool_ref])
        (saturating_add (total_bytes inner) (retained_bytes record))
  end.

Definition resize (tool_ref : ToolRef) (f : ToolRecord → ToolRecord) (inner : ToolDataInner) : ToolDataInner :=
  let before := from_option retained_bytes 0 (records inner !! tool_ref) in
  let records := alter f tool_ref (records inner) in
  let after := from_option retained_bytes 0 (records !! tool_ref) in
  mkInner records (order inner) (saturating_add (total_bytes inner - before) after).

(** A change of a record that the budget does not see. *)
Definition update (tool_ref : ToolRef) (f : ToolRecord → ToolRecord) (inner : ToolDataInner) : ToolDataInner :=
  mkInner (alter f tool_ref (records inner)) (order inner) (total_bytes inner).

(** The oldest record there is something to choose from. *)
Fixpoint oldest {A} (choose : ToolRecord → option A) (records : gmap ToolRef ToolRecord) (order : list ToolRef)
    : option (ToolRef * A) :=
  match order with
  | [] => None
  | tool_ref :: order =>
      match records !! tool_ref ≫= choose with
      | Some a => Some (tool_ref, a)
      | None => oldest choose records order
      end
  end.

(** What eviction takes from a record: the bytes freed and the record left. *)
Definition input_evictable (r : ToolRecord) : bool :=
  negb (input_expired r) && (bool_decide (input r ≠ []) || bool_decide (0 < input_total r)).
Definition choose_input (r : ToolRecord) : option (N * ToolRecord) :=
  if input_evictable r then Some (str_len (input r), evict_input r) else None.
Definition result_evictable (r : ToolRecord) : bool :=
  negb (result_expired r) && (bool_decide (result_text r ≠ []) || bool_decide (0 < result_total r)).
Definition choose_result (r : ToolRecord) : option (N * ToolRecord) :=
  if result_evictable r then Some (str_len (result_text r), evict_result r) else None.
Definition change_bytes (r : ToolRecord) : N := from_option change_retained 0 (file_change r).
Definition choose_change (r : ToolRecord) : option (N * ToolRecord) :=
  if decide (0 < change_bytes r) then Some (change_bytes r, evict_change r) else None.
Definition window_evictable (w : StreamWindow) : bool :=
  negb (expired w) && (bool_decide (contents (bytes w) ≠ []) || bool_decide (0 < observed_end w)).
Definition choose_stream (r : ToolRecord) : option (N * ToolRecord) :=
  if window_evictable (stdout r) then Some (retained (stdout r), set_stream Stdout (evict (stdout r)) r)
  else if window_evictable (stderr r) then Some (retained (stderr r), set_stream Stderr (evict (stderr r)) r)
  else None.

(** [evict_some_bytes], [None] for [false]. *)
Definition evict_some_bytes (inner : ToolDataInner) : option ToolDataInner :=
  let victim choose := oldest choose (records inner) (order inner) in
  let chosen := match victim choose_input with Some v => Some v | None =>
                match victim choose_result with Some v => Some v | None =>
                match victim choose_change with Some v => Some v | None => victim choose_stream end end end in
  '(tool_ref, (freed, record)) ← chosen;
  Some (mkInner (<[tool_ref := record]> (records inner)) (order inner) (total_bytes inner - freed)).

(** [remove_oldest], [None] for [false]. *)
Definition remove_oldest (inner : ToolDataInner) : option ToolDataInner :=
  let terminal := oldest (λ r, if state_terminal (state r) then Some () else None) (records inner) (order inner) in
  victim ← match terminal with Some (v, _) => Some v | None => head (order inner) end;
  let total := match records inner !! victim with
               | Some record => total_bytes inner - retained_bytes record
               | None => total_bytes inner
               end in
  Some (mkInner (delete victim (records inner)) (filter (λ tool_ref, tool_ref ≠ victim) (order inner)) total).

#[global] Arguments evict_some_bytes : simpl never.
#[global] Arguments remove_oldest : simpl never.

Fixpoint shrink_bytes (fuel : nat) (inner : ToolDataInner) : ToolDataInner :=
  match fuel with
  | O => inner
  | S fuel =>
      if decide (total_bytes inner <= MAX_TOOL_TOTAL_BYTES) then inner else
      match evict_some_bytes inner with
      | Some inner => shrink_bytes fuel inner
      | None => match remove_oldest inner with Some inner => shrink_bytes fuel inner | None => inner end
      end
  end.
Fixpoint shrink_records (fuel : nat) (inner : ToolDataInner) : ToolDataInner :=
  match fuel with
  | O => inner
  | S fuel =>
      if decide (size (records inner) <= MAX_TOOL_RECORDS)%nat then inner else
      match remove_oldest inner with Some inner => shrink_records fuel inner | None => inner end
  end.

(** How often bytes can be evicted from a record. *)
Definition pieces (r : ToolRecord) : nat :=
  Nat.b2n (input_evictable r) + Nat.b2n (result_evictable r) + Nat.b2n (bool_decide (0 < change_bytes r)) +
  Nat.b2n (window_evictable (stdout r)) + Nat.b2n (window_evictable (stderr r)).
Definition weight (records : gmap ToolRef ToolRecord) : nat :=
  map_fold (λ _ r n, S (pieces r) + n)%nat 0%nat records.

(** The loops run as often as there is something to evict, at most. *)
Definition enforce_limits (inner : ToolDataInner) : ToolDataInner :=
  let inner := shrink_bytes (S (weight (records inner))) inner in
  shrink_records (S (size (records inner))) inner.

(** ** What the tools report *)

(** The arguments of a call: the text of a member that is a string. *)
Definition Arguments : Type := str → option str.

Definition string_arg (arguments : Arguments) (keys : list str) : str := default [] (list_find (λ key, is_Some (arguments key)) keys ≫= λ '(_, key), arguments key).

Definition subject_for (name : str) (arguments : Arguments) : ToolSubject * bool :=
  if decide (name ∈ [lit "read"; lit "write"; lit "edit"; lit "apply_patch"]) then
    let '(path, truncated) := truncate (string_arg arguments [lit "path"; lit "file_path"]) MAX_SUBJECT_BYTES in
    (File path, truncated)
  else if decide (name = lit "bash") then
    let '(script, script_truncated) := truncate (string_arg arguments [lit "command"]) MAX_SUBJECT_BYTES in
    let '(cwd, cwd_truncated) := truncate (default (lit ".") (arguments (lit "cwd"))) MAX_SUBJECT_BYTES in
    (Command script cwd, script_truncated || cwd_truncated)
  else (Other, false).

Record ToolInvocationData := mkInvocation {
  i_tool_ref : ToolRef; i_name : str; i_subject : ToolSubject; i_subject_truncated : bool;
  i_total_bytes : N; i_preview : str; i_truncated : bool
}.

Record ToolStreamNotice := mkNotice {
  n_stream : ToolDataStream; n_base_offset : N; n_next_offset : N; n_observed_end : N; n_dropped : bool; n_expired : bool
}.

(** One result of the joined report of a loop. *)
Record ReportedResult := mkReported { reported_ref : ToolRef; reported_name : str; reported_content : str;
  reported_outcome : ToolResultOutcome }.

Section operations.
Context (grant : N → N).
(** [enforce_limits]; the theorems also run the operations without it. *)
Context (limit : ToolDataInner → ToolDataInner).

Definition note_requested (tool_ref : ToolRef) (name : str) (inner : ToolDataInner) : ToolDataInner :=
  limit (track tool_ref name inner).

Definition record_input (subject : ToolSubject) (subject_truncated : bool) (input : str) (total : N)
    (truncated : bool) (r : ToolRecord) : ToolRecord :=
  if input_seen r then r else set_input subject subject_truncated input total truncated r.

(** [raw] is the serialized text of the arguments. *)
Definition note_invocation (tool_ref : ToolRef) (name raw : str) (arguments : Arguments) (inner : ToolDataInner)
    : ToolDataInner * option ToolInvocationData :=
  let '(subject, subject_truncated) := subject_for name arguments in
  let '(input_text, input_cut) := truncate raw MAX_TOOL_INPUT_BYTES in
  let inner := track tool_ref name inner in
  let already_published := from_option input_seen false (records inner !! tool_ref) in
  let inner := limit (resize tool_ref (record_input subject subject_truncated input_text (str_len raw) input_cut) inner) in
  (inner,
   if already_published then None else
   record ← records inner !! tool_ref;
   Some (mkInvocation tool_ref (ToolRecord.name record) (ToolRecord.subject record) (ToolRecord.subject_truncated record)
           (input_total record) (truncate (input record) EVENT_INPUT_PREVIEW_BYTES).1
           (bool_decide (EVENT_INPUT_PREVIEW_BYTES < str_len (input record)) || input_truncated record))).

Definition mark_awaiting_policy (tool_ref : ToolRef) : ToolDataInner → ToolDataInner :=
  update tool_ref (λ r, if decide (state r = Requested)
                        then set_state AwaitingPolicy (started_at r) (finished_at r) (outcome r) r else r).

Definition mark_running (now : option str) (tool_ref : ToolRef) : ToolDataInner → ToolDataInner :=
  update tool_ref (λ r,
    let s := if state_terminal (state r) then state r else Running in
    let started := match started_at r with None => now | Some t => Some t end in
    set_state s started (finished_at r) (outcome r) r).

Definition note_phase (tool_ref : ToolRef) (message : str) (inner : ToolDataInner) : ToolDataInner :=
  match from_wire message with
  | None => inner
  | Some phase => update tool_ref (λ r, set_misc (Some phase) (command r) (file_change r) (recording r) r) inner
  end.

Definition note_result (tool_ref : ToolRef) (content : str) (inner : ToolDataInner) : ToolDataInner :=
  let '(result, cut) := truncate content MAX_TOOL_RESULT_BYTES in
  limit (resize tool_ref (set_result result (count_lines result) (str_len content) cut false) inner).

Definition mark_cancelling (tool_ref : ToolRef) : ToolDataInner → ToolDataInner :=
  update tool_ref (λ r, if state_terminal (state r) then r
                        else set_state Cancelling (started_at r) (finished_at r) (outcome r) r).

(** [stream_mut]: a change of the window of a process stream. *)
Definition on_stream (s : ToolDataStream) (f : StreamWindow → StreamWindow) (r : ToolRecord) : ToolRecord :=
  match stream s r with Some w => set_stream s (f w) r | None => r end.

Definition note_stream_chunk (tool_ref : ToolRef) (s : ToolDataStream) (chunk : list N) (inner : ToolDataInner)
    : ToolDataInner * option ToolStreamNotice :=
  match records inner !! tool_ref with
  | None => (inner, None)
  | Some record =>
      let pushed := (λ w, (push grant chunk w).2) <$> stream s record in
      let inner := resize tool_ref (on_stream s (λ w, (push grant chunk w).1)) inner in
      match pushed with
      | None => (inner, None)
      | Some pushed =>
          let inner := limit inner in
          (inner,
           record ← records inner !! tool_ref; window ← stream s record;
           Some (mkNotice s (push_base_offset pushed) (push_next_offset pushed) (observed_end window)
                   (push_dropped pushed || truncated window) (expired window)))
      end
  end.

Definition note_stream_end (tool_ref : ToolRef) (s : ToolDataStream) : ToolDataInner → ToolDataInner :=
  resize tool_ref (on_stream s end_stream).
Definition note_stream_cut (tool_ref : ToolRef) (s : ToolDataStream) : ToolDataInner → ToolDataInner :=
  resize tool_ref (on_stream s cut_stream).

Definition execution_of (tool_ref : ToolRef) (inner : ToolDataInner) : option ToolExecutionData :=
  execution_data tool_ref <$> records inner !! tool_ref.

Definition note_command (tool_ref : ToolRef) (command : CommandResult) (inner : ToolDataInner)
    : ToolDataInner * option ToolExecutionData :=
  if decide (records inner !! tool_ref = None) then (inner, None) else
  let inner := limit (resize tool_ref (λ r, set_misc (phase r) (Some command) (file_change r) (recording r) r) inner) in
  (inner, execution_of tool_ref inner).

Definition note_recording (tool_ref : ToolRef) (recording : ToolRecordingState) (inner : ToolDataInner)
    : ToolDataInner * option ToolExecutionData :=
  let inner := update tool_ref (λ r, set_misc (phase r) (command r) (file_change r) recording r) inner in
  (inner, execution_of tool_ref inner).

Definition note_file_change (tool_ref : ToolRef) (change : FileChange) (inner : ToolDataInner) : ToolDataInner :=
  limit (resize tool_ref (λ r, match file_change r with
                               | None => set_misc (phase r) (command r) (Some change) (recording r) r
                               | Some _ => r
                               end) inner).

Definition stream_range (tool_ref : ToolRef) (s : ToolDataStream) (inner : ToolDataInner) : option (N * N) :=
  record ← records inner !! tool_ref; window ← stream s record; Some (start_offset window, observed_end window).

(** The end of a call, as its report has it. *)
Definition finish (now : option str) (o : ToolResultOutcome) (r : ToolRecord) : ToolRecord :=
  let finished := match finished_at r with None => now | Some t => Some t end in
  set_state (from_outcome o) (started_at r) finished (Some o) r.

Definition finish_and_snapshot (now : option str) (tool_ref : ToolRef) (o : ToolResultOutcome) (inner : ToolDataInner)
    : ToolDataInner * option ToolExecutionData :=
  let inner := update tool_ref (finish now o) inner in
  (inner, execution_of tool_ref inner).

(** [result_expired] stays: bytes that were evicted do not come back. *)
Definition reconcile_item (now : option str) (inner : ToolDataInner) (item : ReportedResult) : ToolDataInner :=
  let tool_ref := reported_ref item in
  let inner := track tool_ref (reported_name item) inner in
  let captured := match records inner !! tool_ref with
                  | Some record => if result_expired record then None
                                   else Some (truncate (reported_content item) MAX_TOOL_RESULT_BYTES)
                  | None => None
                  end in
  let inner := update tool_ref (finish now (reported_outcome item)) inner in
  match captured with
  | Some (prefix, cut) =>
      resize tool_ref (λ r, set_result prefix (count_lines prefix) (str_len (reported_content item)) cut
                              (result_expired r) r) inner
  | None => inner
  end.
Definition reconcile (now : option str) (items : list ReportedResult) (inner : ToolDataInner) : ToolDataInner :=
  limit (foldl (reconcile_item now) inner items).

Definition loop_tool_refs (session_id loop_id : N) (inner : ToolDataInner) : list ToolRef :=
  filter (λ r, ref_session r = session_id ∧ ref_loop r = loop_id) (order inner).

Definition snapshot_for_persistence (hash_bytes : list N → str) (tool_ref : ToolRef) (inner : ToolDataInner)
    : option ToolPersistenceSnapshot :=
  record ← records inner !! tool_ref; persistence_snapshot hash_bytes tool_ref record.
End operations.
