(* ===== verification/ToolBudget.v ===== *)
(** The budget of the tool data, [tool_data/data.rs]: the count of bytes is exact, and
    every operation ends within the limits.

    [plain] is what a record holds without the saturation of [retained_bytes]; as long
    as all that is held fits a machine word the two are the same.  The last theorem
    runs the operations of [ToolData] in any order. *)

From S2P Require Import Prelude RustStr ToolRecord ToolStored ToolData.
Open Scope N_scope.

(** ** What is held *)

Definition plain_subject (s : ToolSubject) : N :=
  match s with File path => str_len path | Command script cwd => str_len script + str_len cwd | Other => 0 end.
Definition plain_change (c : FileChange) : N :=
  from_option capacity 0 (before_bytes c) + from_option capacity 0 (after_bytes c).
Definition plain (r : ToolRecord) : N :=
  str_len (name r) + plain_subject (subject r) + str_len (input r) + str_len (result_text r) +
  retained (stdout r) + retained (stderr r) +
  match file_change r with
  | Some c => CHANGE_METADATA_BYTES + str_len (change_path (stored c)) + plain_change c
  | None => 0
  end +
  (if decide (command r = None) then 0 else COMMAND_METADATA_BYTES).

#[global] Arguments plain : simpl never.

Lemma change_retained_plain c : plain_change c <= usize_max → change_retained c = plain_change c.
Proof. unfold change_retained, plain_change, saturating_add. lia. Qed.

Lemma retained_plain r : plain r <= usize_max → retained_bytes r = plain r.
Proof.
  unfold plain, retained_bytes. intros Hfits. cbn [foldl].
  assert (Hs : subject_len (subject r) = plain_subject (subject r)).
  { unfold subject_len, plain_subject in *. destruct (subject r); try done. unfold saturating_add. lia. }
  rewrite Hs. destruct (file_change r) as [c|].
  - rewrite change_retained_plain by lia. unfold saturating_add. lia.
  - unfold saturating_add. lia.
Qed.

Definition held (m : gmap ToolRef ToolRecord) : N := map_fold (λ _ r n, plain r + n) 0 m.

Section weighing.
Context (m : gmap ToolRef ToolRecord) (k : ToolRef).

Lemma held_bytes_delete r : m !! k = Some r → held m = plain r + held (delete k m).
Proof. intros Hk. apply (map_fold_delete_L (λ _ r n, plain r + n)); [intros; lia|done]. Qed.
Lemma held_bytes_insert r : m !! k = None → held (<[k := r]> m) = plain r + held m.
Proof. intros Hk. apply (map_fold_insert_L (λ _ r n, plain r + n)); [intros; lia|done]. Qed.
Lemma held_replace r r' : m !! k = Some r → held (<[k := r']> m) + plain r = held m + plain r'.
Proof.
  intros Hk. rewrite (held_bytes_delete r Hk), <- insert_delete_eq. unfold held at 1.
  rewrite (map_fold_insert_L (λ _ r n, plain r + n)); [|intros; lia|apply lookup_delete_eq]. fold (held (delete k m)). lia.
Qed.
Lemma weight_delete r : m !! k = Some r → weight m = (S (pieces r) + weight (delete k m))%nat.
Proof. intros Hk. apply (map_fold_delete_L (λ _ r n, S (pieces r) + n)%nat); [intros; lia|done]. Qed.
Lemma weight_replace r r' : m !! k = Some r → (weight (<[k := r']> m) + pieces r = weight m + pieces r')%nat.
Proof.
  intros Hk. rewrite (weight_delete r Hk), <- insert_delete_eq. unfold weight at 1.
  rewrite (map_fold_insert_L (λ _ r n, S (pieces r) + n)%nat); [|intros; lia|apply lookup_delete_eq].
  fold (weight (delete k m)). lia.
Qed.
End weighing.

Lemma held_member m k r : m !! k = Some r → plain r <= held m.
Proof. intros Hk. rewrite (held_bytes_delete m k r Hk). lia. Qed.

Lemma held_retained m : held m <= usize_max → map_fold (λ _ r n, retained_bytes r + n) 0 m = held m.
Proof.
  induction m as [|k r m Hk IH] using map_ind; [done|]. rewrite held_bytes_insert by done. intros Hfits.
  rewrite (map_fold_insert_L (λ _ r n, retained_bytes r + n)) by (done || intros; lia).
  rewrite IH, retained_plain by lia. done.
Qed.

(** ** The count is exact *)

Record accounted (inner : ToolDataInner) : Prop := {
  acc_total : total_bytes inner = held (records inner);
  acc_fits : held (records inner) <= usize_max;
  acc_order : NoDup (order inner);
  acc_keys k : k ∈ order inner ↔ is_Some (records inner !! k)
}.

Lemma track_accounted k n inner :
  accounted inner → held (records (track k n inner)) <= usize_max → accounted (track k n inner).
Proof.
  intros [Ht Hf Ho Hk]. unfold track. destruct (records inner !! k) as [r|] eqn:Hlook; [by split|]. cbn. intros Hfits.
  rewrite held_bytes_insert in * by done. split; cbn.
  - rewrite held_bytes_insert by done. rewrite retained_plain by lia. unfold saturating_add. lia.
  - by rewrite held_bytes_insert.
  - apply NoDup_app. split; [done|]. split; [|apply NoDup_singleton]. intros k' Hin ->%list_elem_of_singleton.
    apply Hk in Hin as [? ?]. congruence.
  - intros k'. rewrite elem_of_app, list_elem_of_singleton, lookup_insert_is_Some', Hk. naive_solver.
Qed.

Lemma alter_accounted f k inner total :
  accounted inner → held (alter f k (records inner)) <= usize_max → total = held (alter f k (records inner)) →
  accounted (mkInner (alter f k (records inner)) (order inner) total).
Proof.
  intros [Ht Hf Ho Hk] Hfits ->. split; cbn; try done. intros k'. by rewrite lookup_alter_is_Some.
Qed.

Lemma held_alter f k m : held (alter f k m) + from_option plain 0 (m !! k) = held m + from_option (plain ∘ f) 0 (m !! k).
Proof.
  destruct (m !! k) as [r|] eqn:Hk; cbn.
  - rewrite <- (insert_id m k r Hk) at 1. rewrite alter_insert_eq. by apply held_replace.
  - rewrite alter_id'; [lia|]. by rewrite Hk.
Qed.

Lemma resize_accounted f k inner :
  accounted inner → held (alter f k (records inner)) <= usize_max → accounted (resize k f inner).
Proof.
  intros Hacc Hfits. apply alter_accounted; [done..|]. pose proof Hacc as [Ht Hf _ _].
  rewrite lookup_alter_eq. pose proof (held_alter f k (records inner)) as Hh.
  destruct (records inner !! k) as [r|] eqn:Hk; cbn in *; [|unfold saturating_add; lia].
  assert (plain (f r) <= held (alter f k (records inner))).
  { apply (held_member _ k). by rewrite lookup_alter_eq, Hk. }
  pose proof (held_member _ _ _ Hk). rewrite !retained_plain by lia. unfold saturating_add. lia.
Qed.

Lemma update_accounted f k inner : (∀ r, plain (f r) = plain r) → accounted inner → accounted (update k f inner).
Proof.
  intros Hf Hacc. pose proof Hacc as [Ht Hfits _ _]. pose proof (held_alter f k (records inner)) as Hh.
  assert (held (alter f k (records inner)) = held (records inner)).
  { destruct (records inner !! k); cbn in Hh; rewrite ?Hf in Hh; lia. }
  apply alter_accounted; [done|lia|lia].
Qed.

(** ** One eviction *)

Lemma oldest_Some {A} (choose : ToolRecord → option A) m l k a :
  oldest choose m l = Some (k, a) → k ∈ l ∧ ∃ r, m !! k = Some r ∧ choose r = Some a.
Proof.
  induction l as [|k' l IH]; [done|]. cbn. destruct (m !! k' ≫= choose) as [a'|] eqn:Hk.
  - intros [= <- <-]. apply bind_Some in Hk as (r & ? & ?). split; [by left|by exists r].
  - intros (? & r & ? & ?)%IH. split; [by right|by exists r].
Qed.

(** What is chosen is freed, and cannot be chosen again. *)
Definition frees (r : ToolRecord) (choice : N * ToolRecord) : Prop :=
  plain r = choice.1 + plain choice.2 ∧ (pieces choice.2 < pieces r)%nat.

Ltac unfold_evictable := unfold input_evictable, result_evictable, change_bytes.

Lemma choose_input_frees r c : choose_input r = Some c → frees r c.
Proof.
  unfold choose_input. destruct (input_evictable r) eqn:He; [|done]. intros [= <-].
  split; cbn [fst snd]; [unfold plain; cbn; lia|]. unfold pieces. rewrite He. unfold_evictable. cbn. lia.
Qed.
Lemma choose_result_frees r c : choose_result r = Some c → frees r c.
Proof.
  unfold choose_result. destruct (result_evictable r) eqn:He; [|done]. intros [= <-].
  split; cbn [fst snd]; [unfold plain; cbn; lia|]. unfold pieces. rewrite He. unfold_evictable. cbn. lia.
Qed.
Lemma choose_change_frees r c : plain r <= usize_max → choose_change r = Some c → frees r c.
Proof.
  unfold choose_change. intros Hfits. case_decide as Hpos; [|done]. intros [= <-].
  assert (Hafter : change_bytes (evict_change r) = 0).
  { unfold change_bytes, evict_change. cbn. by destruct (file_change r). }
  split; cbn [fst snd].
  - unfold change_bytes, plain, evict_change in *. cbn. destruct (file_change r) as [change|]; cbn in *; [|lia].
    rewrite change_retained_plain by lia. unfold plain_change at 3. cbn. lia.
  - unfold pieces. rewrite Hafter, (bool_decide_true (0 < change_bytes r)) by done. change (bool_decide (0 < 0)) with false. unfold_evictable. unfold evict_change. cbn. lia.
Qed.
Lemma choose_stream_frees r c : choose_stream r = Some c → frees r c.
Proof.
  unfold choose_stream. destruct (window_evictable (stdout r)) eqn:Ho; [|destruct (window_evictable (stderr r)) eqn:He; [|done]];
    intros [= <-]; (split; cbn [fst snd]; [unfold plain; cbn; lia|]); unfold pieces; rewrite ?Ho, ?He; unfold_evictable; cbn; rewrite ?Ho, ?He; cbn; lia.
Qed.

Lemma evict_some_inv inner inner' :
  evict_some_bytes inner = Some inner' →
  ∃ k r freed r', k ∈ order inner ∧ records inner !! k = Some r ∧
    (plain r <= usize_max → frees r (freed, r')) ∧
    inner' = mkInner (<[k := r']> (records inner)) (order inner) (total_bytes inner - freed).
Proof.
  unfold evict_some_bytes. intros ([k [freed r']] & Hchosen & [= <-])%bind_Some.
  assert (∃ choose, oldest choose (records inner) (order inner) = Some (k, (freed, r')) ∧
    ∀ r c, plain r <= usize_max → choose r = Some c → frees r c) as (choose & Hold & Hfree).
  { repeat match goal with
    | H : match oldest ?f ?m ?l with Some _ => _ | None => _ end = _ |- _ =>
        let E := fresh in destruct (oldest f m l) eqn:E; [injection H as ->; exists f; split; [exact E|]|]
    end; [eauto using choose_input_frees..|].
    - intros r c _. apply choose_result_frees.
    - intros r c. apply choose_change_frees.
    - exists choose_stream. split; [done|]. intros r c _. apply choose_stream_frees. }
  apply oldest_Some in Hold as (Hin & r & Hk & Hc). exists k, r, freed, r'. by eauto.
Qed.

Lemma evict_accounted inner inner' :
  accounted inner → evict_some_bytes inner = Some inner' →
  accounted inner' ∧ (weight (records inner') < weight (records inner))%nat.
Proof.
  intros [Ht Hf Ho Hkeys] (k & r & freed & r' & Hin & Hk & Hfree & ->)%evict_some_inv.
  pose proof (held_member _ _ _ Hk). destruct Hfree as [Hp Hw]; [lia|]. cbn in *.
  pose proof (held_replace _ _ _ r' Hk). pose proof (weight_replace _ _ _ r' Hk).
  split; [|cbn; lia]. split; cbn; try done; [lia|lia|].
  intros k'. rewrite lookup_insert_is_Some', Hkeys. split; [by right|]. intros [->|?]; [by eexists|done].
Qed.

(** ** One removal *)

Lemma remove_inv inner inner' :
  remove_oldest inner = Some inner' → ∃ k, k ∈ order inner ∧
    inner' = mkInner (delete k (records inner)) (filter (λ k', k' ≠ k) (order inner))
               match records inner !! k with
               | Some record => total_bytes inner - retained_bytes record
               | None => total_bytes inner
               end.
Proof.
  unfold remove_oldest. intros (k & Hvictim & [= <-])%bind_Some. exists k. split; [|done].
  destruct (oldest _ _ _) as [[k' []]|] eqn:Hold.
  - injection Hvictim as ->. by apply oldest_Some in Hold as [? _].
  - by apply head_Some_elem_of in Hvictim.
Qed.
Lemma remove_None inner : remove_oldest inner = None → order inner = [].
Proof.
  unfold remove_oldest. destruct (oldest _ _ _) as [[? ?]|]; [done|]. by destruct (order inner).
Qed.

Lemma remove_accounted inner inner' :
  accounted inner → remove_oldest inner = Some inner' →
  accounted inner' ∧ (weight (records inner') < weight (records inner))%nat ∧
  (size (records inner') < size (records inner))%nat.
Proof.
  intros [Ht Hf Ho Hkeys] (k & Hin & ->)%remove_inv. apply Hkeys in Hin as Hk. destruct Hk as [r Hk].
  rewrite Hk. pose proof (held_bytes_delete _ _ _ Hk). pose proof (weight_delete _ _ _ Hk).
  split; [|cbn; split; [lia|]].
  - split; cbn; [rewrite retained_plain by lia; lia|lia|by apply NoDup_filter|].
    intros k'. rewrite list_elem_of_filter, lookup_delete_is_Some, Hkeys. naive_solver.
  - rewrite map_size_delete_Some by done. assert (size (records inner) ≠ 0%nat); [|lia].
    intros Hz%map_size_empty_iff. by rewrite Hz, lookup_empty in Hk.
Qed.

(** ** The loops *)

Definition within (inner : ToolDataInner) : Prop :=
  total_bytes inner <= MAX_TOOL_TOTAL_BYTES ∧ (size (records inner) <= MAX_TOOL_RECORDS)%nat.

Lemma nothing_held inner : accounted inner → order inner = [] → total_bytes inner = 0.
Proof.
  intros [Ht _ _ Hkeys] Ho. assert (Hempty : records inner = ∅).
  { apply map_empty. intros k. apply eq_None_not_Some. rewrite <- Hkeys, Ho. apply not_elem_of_nil. }
  by rewrite Ht, Hempty.
Qed.

Lemma shrink_bytes_within fuel inner :
  accounted inner → (weight (records inner) < fuel)%nat →
  accounted (shrink_bytes fuel inner) ∧ total_bytes (shrink_bytes fuel inner) <= MAX_TOOL_TOTAL_BYTES.
Proof.
  revert inner. induction fuel as [|fuel IH]; intros inner Hacc Hfuel; cbn; [lia|].
  destruct (decide (total_bytes inner <= MAX_TOOL_TOTAL_BYTES)); [done|].
  destruct (evict_some_bytes inner) as [inner'|] eqn:Hev.
  { destruct (evict_accounted _ _ Hacc Hev). apply IH; [done|lia]. }
  destruct (remove_oldest inner) as [inner'|] eqn:Hre.
  - destruct (remove_accounted _ _ Hacc Hre) as (? & ? & _). apply IH; [done|lia].
  - rewrite nothing_held in * by eauto using remove_None. done.
Qed.

Lemma shrink_records_within fuel inner :
  accounted inner → (size (records inner) < fuel)%nat → total_bytes inner <= MAX_TOOL_TOTAL_BYTES →
  accounted (shrink_records fuel inner) ∧ within (shrink_records fuel inner).
Proof.
  revert inner. induction fuel as [|fuel IH]; intros inner Hacc Hfuel Htotal; cbn; [lia|].
  destruct (decide (size (records inner) <= MAX_TOOL_RECORDS)%nat); [done|].
  destruct (remove_oldest inner) as [inner'|] eqn:Hre.
  - destruct (remove_accounted _ _ Hacc Hre) as (Hacc' & ? & ?). apply IH; [done|lia|].
    apply remove_inv in Hre as (k & _ & ->). cbn. destruct (records inner !! k); lia.
  - apply remove_None in Hre. destruct Hacc as [_ _ _ Hkeys]. assert (Hempty : records inner = ∅).
    { apply map_empty. intros k. apply eq_None_not_Some. rewrite <- Hkeys, Hre. apply not_elem_of_nil. }
    rewrite Hempty, map_size_empty in *. unfold MAX_TOOL_RECORDS in *. lia.
Qed.

Lemma enforce_within inner : accounted inner → accounted (enforce_limits inner) ∧ within (enforce_limits inner).
Proof.
  intros Hacc. unfold enforce_limits. destruct (shrink_bytes_within (S (weight (records inner))) inner) as [Hacc' Ht]; [done|lia|].
  apply shrink_records_within; [done|lia|done].
Qed.

(** A state within the limits is left alone. *)
Lemma enforce_id inner : within inner → enforce_limits inner = inner.
Proof.
  intros [? ?]. unfold enforce_limits. cbn. destruct (decide (total_bytes inner <= _)); [|done].
  by destruct (decide (size _ <= _)%nat).
Qed.

(** ** What the limits leave of a record *)

(** Of every record left, what [before] has, but for bytes that were evicted. *)
Definition only_evicts (before after : ToolDataInner) : Prop :=
  ∀ k r', records after !! k = Some r' → ∃ r, records before !! k = Some r ∧ rtc evicts r r'.

Lemma only_evicts_refl inner : only_evicts inner inner.
Proof. intros k r Hk. by exists r. Qed.
Lemma only_evicts_trans a b c : only_evicts a b → only_evicts b c → only_evicts a c.
Proof.
  intros Hab Hbc k r'' Hk. destruct (Hbc k r'' Hk) as (r' & Hk' & ?). destruct (Hab k r' Hk') as (r & ? & ?).
  exists r. split; [done|]. by etransitivity.
Qed.

Lemma chosen_evicts choose m l k freed r' :
  choose ∈ [choose_input; choose_result; choose_change; choose_stream] → oldest choose m l = Some (k, (freed, r')) →
  ∃ r, m !! k = Some r ∧ evicts r r'.
Proof.
  intros Hin (_ & r & Hk & Hc)%oldest_Some. exists r. split; [done|].
  repeat (apply elem_of_cons in Hin as [->|Hin]); [..|by apply elem_of_nil in Hin].
  - unfold choose_input in Hc. destruct (input_evictable r); [|done]. injection Hc as _ <-. constructor.
  - unfold choose_result in Hc. destruct (result_evictable r); [|done]. injection Hc as _ <-. constructor.
  - unfold choose_change in Hc. case_decide; [|done]. injection Hc as _ <-. constructor.
  - unfold choose_stream in Hc. destruct (window_evictable (stdout r)); [|destruct (window_evictable (stderr r)); [|done]];
      injection Hc as _ <-; by constructor.
Qed.

Lemma evict_only inner inner' : evict_some_bytes inner = Some inner' → only_evicts inner inner'.
Proof.
  unfold evict_some_bytes. intros ([k [freed r']] & Hchosen & [= <-])%bind_Some.
  assert (∃ r, records inner !! k = Some r ∧ evicts r r') as (r & Hk & Hev).
  { repeat match goal with
    | H : match oldest ?f ?m ?l with Some _ => _ | None => _ end = _ |- _ =>
        let E := fresh in destruct (oldest f m l) eqn:E;
        [injection H as ->; apply chosen_evicts in E; [exact E|set_solver]|]
    end. apply chosen_evicts in Hchosen; [done|set_solver]. }
  intros k' r''. cbn. intros [[<- <-]|[Hne Hk']]%lookup_insert_Some; [|by exists r''].
  exists r. split; [done|]. by apply rtc_once.
Qed.
Lemma remove_only inner inner' : remove_oldest inner = Some inner' → only_evicts inner inner'.
Proof.
  intros (k & _ & ->)%remove_inv k' r'. cbn. intros [_ Hk]%lookup_delete_Some. by exists r'.
Qed.
Lemma enforce_only inner : only_evicts inner (enforce_limits inner).
Proof.
  assert (Hb : ∀ fuel inner, only_evicts inner (shrink_bytes fuel inner)).
  { induction fuel as [|fuel IH]; intros st; cbn; [apply only_evicts_refl|].
    case_decide; [apply only_evicts_refl|]. destruct (evict_some_bytes st) eqn:He.
    { eapply only_evicts_trans; [by apply evict_only|apply IH]. }
    destruct (remove_oldest st) eqn:Hr; [|apply only_evicts_refl].
    eapply only_evicts_trans; [by apply remove_only|apply IH]. }
  assert (Hr : ∀ fuel inner, only_evicts inner (shrink_records fuel inner)).
  { induction fuel as [|fuel IH]; intros st; cbn; [apply only_evicts_refl|].
    case_decide; [apply only_evicts_refl|]. destruct (remove_oldest st) eqn:Hr; [|apply only_evicts_refl].
    eapply only_evicts_trans; [by apply remove_only|apply IH]. }
  unfold enforce_limits. eapply only_evicts_trans; [apply Hb|apply Hr].
Qed.

Lemma size_alter f k (m : gmap ToolRef ToolRecord) : size (alter f k m) = size m.
Proof.
  destruct (m !! k) as [r|] eqn:Hk; [|by rewrite alter_id'].
  rewrite <- (insert_id m k r Hk) at 1. rewrite alter_insert_eq. by apply map_size_insert_Some.
Qed.

(** ** Any order of operations *)

Inductive ToolOp :=
  | OpRequested (k : ToolRef) (name : str)
  | OpInvoked (k : ToolRef) (name raw : str) (arguments : Arguments)
  | OpAwaitPolicy (k : ToolRef)
  | OpRun (now : option str) (k : ToolRef)
  | OpPhase (k : ToolRef) (message : str)
  | OpResult (k : ToolRef) (content : str)
  | OpCancel (k : ToolRef)
  | OpChunk (k : ToolRef) (s : ToolDataStream) (chunk : list N)
  | OpStreamEnd (k : ToolRef) (s : ToolDataStream)
  | OpStreamCut (k : ToolRef) (s : ToolDataStream)
  | OpCommand (k : ToolRef) (c : CommandResult)
  | OpRecording (k : ToolRef) (s : ToolRecordingState)
  | OpChange (k : ToolRef) (c : FileChange)
  | OpFinish (now : option str) (k : ToolRef) (o : ToolResultOutcome)
  | OpReconcile (now : option str) (items : list ReportedResult).

Section runs.
Context (grant : N → N).

Definition run_with (limit : ToolDataInner → ToolDataInner) (op : ToolOp) (inner : ToolDataInner) : ToolDataInner :=
  match op with
  | OpRequested k n => note_requested limit k n inner
  | OpInvoked k n raw a => (note_invocation limit k n raw a inner).1
  | OpAwaitPolicy k => mark_awaiting_policy k inner
  | OpRun now k => mark_running now k inner
  | OpPhase k m => note_phase k m inner
  | OpResult k c => note_result limit k c inner
  | OpCancel k => mark_cancelling k inner
  | OpChunk k s c => (note_stream_chunk grant limit k s c inner).1
  | OpStreamEnd k s => note_stream_end k s inner
  | OpStreamCut k s => note_stream_cut k s inner
  | OpCommand k c => (note_command limit k c inner).1
  | OpRecording k s => (note_recording k s inner).1
  | OpChange k c => note_file_change limit k c inner
  | OpFinish now k o => (finish_and_snapshot now k o inner).1
  | OpReconcile now items => reconcile limit now items inner
  end.
Definition run : ToolOp → ToolDataInner → ToolDataInner := run_with enforce_limits.

(** The states an operation goes through before the limits are enforced. *)
Fixpoint reconcile_states (now : option str) (items : list ReportedResult) (inner : ToolDataInner)
    : list ToolDataInner :=
  inner :: match items with
           | [] => []
           | item :: items =>
               track (reported_ref item) (reported_name item) inner ::
               reconcile_states now items (reconcile_item now inner item)
           end.
Definition grown (op : ToolOp) (inner : ToolDataInner) : list ToolDataInner :=
  match op with
  | OpInvoked k n _ _ => [track k n inner; run_with id op inner]
  | OpReconcile now items => reconcile_states now items inner
  | _ => [run_with id op inner]
  end.
(** What is held fits the memory of a machine. *)
Definition fits (inner : ToolDataInner) : Prop := held (records inner) <= usize_max.

Inductive reached : ToolDataInner → Prop :=
  | reached_new : reached ToolDataInner_default
  | reached_run op inner : reached inner → Forall fits (grown op inner) → reached (run op inner).

Lemma note_invocation_run limit k n raw a inner :
  (note_invocation limit k n raw a inner).1 = limit (note_invocation id k n raw a inner).1.
Proof using Type. unfold note_invocation. by destruct (subject_for n a), (truncate raw MAX_TOOL_INPUT_BYTES). Qed.

Lemma plain_set_state s a b o r : plain (set_state s a b o r) = plain r.
Proof using Type. done. Qed.
Lemma plain_finish now o r : plain (finish now o r) = plain r.
Proof using Type. done. Qed.

Lemma invocation_accounted k n raw a inner :
  accounted inner → fits (track k n inner) → fits (note_invocation id k n raw a inner).1 →
  accounted (note_invocation id k n raw a inner).1.
Proof using Type.
  unfold note_invocation. destruct (subject_for n a), (truncate raw MAX_TOOL_INPUT_BYTES). cbn.
  intros Hacc Ht Hfits. apply resize_accounted; [by apply track_accounted|done].
Qed.

Lemma reconcile_item_accounted now inner item :
  accounted inner → fits (track (reported_ref item) (reported_name item) inner) →
  fits (reconcile_item now inner item) → accounted (reconcile_item now inner item).
Proof using Type.
  intros Hacc Ht. unfold reconcile_item.
  set (inner' := track _ _ inner) in *.
  assert (Hacc' : accounted (update (reported_ref item) (finish now (reported_outcome item)) inner')).
  { apply update_accounted; [apply plain_finish|by apply track_accounted]. }
  destruct (records inner' !! reported_ref item) as [record|]; [|done].
  destruct (result_expired record); [done|]. destruct (truncate _ _). intros Hfits. by apply resize_accounted.
Qed.
Lemma reconcile_accounted now items inner :
  accounted inner → Forall fits (reconcile_states now items inner) → accounted (foldl (reconcile_item now) inner items).
Proof using Type.
  revert inner. induction items as [|item items IH]; intros inner Hacc; [done|]. cbn.
  intros [_ [Ht Hrest]%Forall_cons]%Forall_cons. apply IH; [|done].
  apply reconcile_item_accounted; [done..|]. destruct items; by apply Forall_inv in Hrest.
Qed.

(** What an operation without the limits does. *)
Lemma unlimited_accounted op inner :
  accounted inner → Forall fits (grown op inner) → accounted (run_with id op inner).
Proof using Type.
  intros Hacc Hgrown. destruct op; cbn [run_with grown] in *; rewrite ?Forall_singleton in Hgrown.
  - by apply (track_accounted k name inner).
  - apply Forall_cons in Hgrown as [Ht Hr]. rewrite Forall_singleton in Hr. by apply invocation_accounted.
  - refine (update_accounted _ k inner _ Hacc). intros r. by case_decide.
  - by apply update_accounted.
  - unfold note_phase in *. destruct (from_wire message); [|done]. by apply update_accounted.
  - unfold note_result in *. destruct (truncate content _). by apply resize_accounted.
  - refine (update_accounted _ k inner _ Hacc). intros r. by case_match.
  - unfold note_stream_chunk in *. destruct (records inner !! k) as [record|]; [|done].
    by destruct (stream s record); apply resize_accounted.
  - by apply resize_accounted.
  - by apply resize_accounted.
  - unfold note_command in *. case_decide; [done|]. by apply resize_accounted.
  - by apply update_accounted.
  - by apply resize_accounted.
  - apply update_accounted; [apply plain_finish|done].
  - by apply reconcile_accounted.
Qed.

(** ** One operation within the limits *)

Lemma resize_within f k inner :
  (∀ r, plain (f r) = plain r) → accounted inner → within inner → within (resize k f inner).
Proof using Type.
  intros Hf Hacc [Ht Hsize]. pose proof (held_alter f k (records inner)) as Hh.
  assert (Hheld : held (alter f k (records inner)) = held (records inner)).
  { destruct (records inner !! k); cbn in Hh; rewrite ?Hf in Hh; lia. }
  assert (Hacc' : accounted (resize k f inner)).
  { apply resize_accounted; [done|]. rewrite Hheld. apply Hacc. }
  split; [|cbn; by rewrite size_alter].
  rewrite (acc_total _ Hacc'). cbn. rewrite Hheld, <- (acc_total _ Hacc). done.
Qed.
Lemma update_within f k inner : within inner → within (update k f inner).
Proof using Type. intros [? ?]. split; cbn; [done|]. by rewrite size_alter. Qed.

Lemma plain_on_stream s f r : (∀ w, retained (f w) = retained w) → plain (on_stream s f r) = plain r.
Proof using Type. intros Hf. unfold on_stream. destruct s; cbn; try done; unfold plain; cbn; by rewrite Hf. Qed.

(** An operation enforces the limits, or cannot exceed them. *)
Lemma run_limits op inner :
  accounted inner → within inner →
  run op inner = enforce_limits (run_with id op inner) ∨
  (run op inner = run_with id op inner ∧ within (run_with id op inner)).
Proof using Type.
  intros Hacc Hin. unfold run. destruct op; cbn [run_with].
  - by left.
  - left. apply note_invocation_run.
  - right. split; [done|]. refine (update_within _ k inner Hin).
  - right. split; [done|]. refine (update_within _ k inner Hin).
  - right. split; [done|]. unfold note_phase. destruct (from_wire message); [by apply update_within|done].
  - left. unfold note_result. by destruct (truncate content _).
  - right. split; [done|]. refine (update_within _ k inner Hin).
  - unfold note_stream_chunk. destruct (records inner !! k) as [record|] eqn:Hk; [|by right].
    destruct (stream s record) as [w|] eqn:Hs; [by left|]. right. split; [done|]. cbn.
    apply resize_within; [|done..]. intros r. unfold on_stream. by destruct s.
  - right. split; [done|]. apply resize_within; [|done..]. intros r. by apply plain_on_stream.
  - right. split; [done|]. apply resize_within; [|done..]. intros r. by apply plain_on_stream.
  - unfold note_command. case_decide; [by right|by left].
  - right. split; [done|]. refine (update_within _ k inner Hin).
  - by left.
  - right. split; [done|]. refine (update_within _ k inner Hin).
  - by left.
Qed.

Lemma run_kept op inner :
  accounted inner → within inner → Forall fits (grown op inner) →
  accounted (run op inner) ∧ within (run op inner) ∧ only_evicts (run_with id op inner) (run op inner).
Proof using Type.
  intros Hacc Hin Hfits. pose proof (unlimited_accounted op inner Hacc Hfits) as Hacc'.
  destruct (run_limits op inner Hacc Hin) as [-> | [-> Hin']].
  - destruct (enforce_within _ Hacc'). split; [done|]. split; [done|]. apply enforce_only.
  - split; [done|]. split; [done|]. apply only_evicts_refl.
Qed.

Lemma reached_kept inner : reached inner → accounted inner ∧ within inner.
Proof using Type.
  induction 1 as [|op inner _ [Hacc Hin] Hfits].
  - split; [|split; [by vm_compute|apply Nat.le_0_l]].
    split; [done|by vm_compute|constructor|]. intros k. cbn. rewrite lookup_empty.
    split; [intros Hk; by inversion Hk|by intros []].
  - destruct (run_kept op inner) as (? & ? & _); [done..|]. done.
Qed.

(** C29 Whatever the tools have reported before, and whatever is reported next: the byte
    count is the sum of what the records hold, as the assertion of [enforce_limits]
    says; the session is within its bytes and its number of records; the order names
    every record once.  The limits take nothing but the bytes of evicted pieces, each
    marked as expired, and whole records; the loops end. Asked only is that what is
    held before the limits are enforced fits a machine word. *)
Theorem tool_budget_kept inner op :
  reached inner → Forall fits (grown op inner) →
  let inner' := run op inner in
  total_bytes inner' = map_fold (λ _ r n, retained_bytes r + n) 0 (records inner') ∧
  within inner' ∧
  (NoDup (order inner') ∧ ∀ k, k ∈ order inner' ↔ is_Some (records inner' !! k)) ∧
  only_evicts (run_with id op inner) inner'.
Proof using Type.
  intros [Hacc Hin]%reached_kept Hfits. destruct (run_kept op inner) as ([Ht Hf Ho Hk] & Hin' & Hev); [done..|].
  cbn zeta. split; [by rewrite Ht, held_retained|]. split; [done|]. by split.
Qed.
End runs.

Module BudgetSample.
Definition call : ToolRef := mkRef 1 1 0 (lit "call").
(** An allocator that grants more than the budget. *)
Definition generous (n : N) : N := n + 9000000.
Definition no_arguments : Arguments := λ _, None.
Definition asked := run generous (OpRequested call (lit "bash")) ToolDataInner_default.
Definition invoked := run generous (OpInvoked call (lit "bash") (lit "{}") no_arguments) asked.

Lemma fits_all l : forallb (λ inner, held (records inner) <=? usize_max) l = true → Forall fits l.
Proof. rewrite forallb_forall, Forall_forall. intros Hl x Hx. apply N.leb_le, Hl. by apply list_elem_of_In. Qed.

(** One byte of output makes the budget evict the input, then the output. *)
Lemma tool_budget_kept_witness :
  let after := run generous (OpChunk call Stdout [7]) invoked in
  total_bytes invoked = 7 ∧ total_bytes after = 5 ∧ within after ∧
  ((λ r, (input_expired r, expired (stdout r), observed_end (stdout r))) <$> records after !! call) = Some (true, true, 1) ∧
  only_evicts (run_with generous id (OpChunk call Stdout [7]) invoked) after.
Proof.
  assert (Hreached : reached generous invoked).
  { apply reached_run; [apply reached_run; [apply reached_new|]|]; by apply fits_all; vm_compute. }
  cbn zeta. split; [by vm_compute|]. split; [by vm_compute|].
  assert (Hfits : Forall fits (grown generous (OpChunk call Stdout [7]) invoked)) by (by apply fits_all; vm_compute).
  destruct (tool_budget_kept generous invoked (OpChunk call Stdout [7]) Hreached Hfits) as (_ & Hin & _ & Hev).
  split; [exact Hin|]. split; [by vm_compute|exact Hev].
Defined.
End BudgetSample.
