(* ===== verification/Status.v ===== *)
(** The status of a workspace, [workspace/status.rs] and [workspace/status/porcelain.rs].

    Git prints records; the parser keeps the paths inside the workspace and counts what
    it accepts, and the answer is cut to a budget of bytes.  Paths are those of Unix: a
    path is the list of its components, a name is bytes.  Running git is not modelled;
    what it printed is an argument, as is the size of values as JSON. *)

From S2P Require Import Prelude RustStr.

Definition MAX_STATUS_BRANCH_BYTES : N := 1024.
Definition MAX_STATUS_RECORDS : N := 100000.
Definition MAX_PATH_BYTES : N := 4096.
Definition MIN_RESULT_BYTES : N := 1024.
Definition MAX_RESULT_BYTES : N := 256 * 1024.

(** ** Paths of the standard library *)

Definition SLASH : N := 47.
Inductive Component := RootDir | CurDir | ParentDir | Normal (name : list N).
#[global] Instance Component_eq_dec : EqDecision Component.
Proof. solve_decision. Defined.

Definition is_absolute (path : list N) : bool := bool_decide (head path = Some SLASH).
Definition component (name : list N) : option Component :=
  if decide (name = [] ∨ name = lit ".") then None
  else Some (if decide (name = lit "..") then ParentDir else Normal name).
(** [Path::components]: empty pieces and dots disappear, but for a leading dot. *)
Definition components (path : list N) : list Component :=
  let pieces := split_char SLASH path in
  (if is_absolute path then [RootDir] else if decide (head pieces = Some (lit ".")) then [CurDir] else [])
  ++ omap component pieces.
(** [Path::join] and the components of the result. *)
Definition path_join (base : list Component) (path : list N) : list Component :=
  if is_absolute path then components path else
  match base with [] => components path | _ => base ++ omap component (split_char SLASH path) end.
(** [PathBuf::pop] *)
Definition pop (path : list Component) : option (list Component) :=
  match last path with None | Some RootDir => None | Some _ => Some (removelast path) end.
(** [Path::strip_prefix] *)
Fixpoint strip_path (base path : list Component) : option (list Component) :=
  match base, path with
  | [], _ => Some path
  | c :: base, d :: path => if decide (c = d) then strip_path base path else None
  | _ :: _, [] => None
  end.
Definition as_os_str (c : Component) : list N :=
  match c with RootDir => [SLASH] | CurDir => lit "." | ParentDir => lit ".." | Normal name => name end.

(** ** Entries and what a pass found *)

Inductive WorkspaceStatusEntryKind := Ordinary | Renamed | Unmerged | Untracked.
#[global] Instance WorkspaceStatusEntryKind_eq_dec : EqDecision WorkspaceStatusEntryKind.
Proof. solve_decision. Defined.
Record WorkspaceStatusEntry := mkEntry {
  path : str;
  kind : WorkspaceStatusEntryKind;
  index_status : option str;
  worktree_status : option str;
  original_path : option str
}.
#[global] Instance WorkspaceStatusEntry_eq_dec : EqDecision WorkspaceStatusEntry.
Proof. solve_decision. Defined.

Record Observation := mkObservation {
  head_oid : option str;
  branch : option str;
  detached : bool;
  saw_oid_header : bool;
  saw_head_header : bool;
  staged : N;
  unstaged : N;
  untracked : N;
  conflicted : N;
  entries : list WorkspaceStatusEntry;
  skipped_paths : N;
  records : N;
  truncated : bool;
  malformed : N
}.
Definition Observation_default : Observation :=
  mkObservation None None false false false 0 0 0 0 [] 0 0 false 0.

Definition branch_headers_complete (o : Observation) : bool := saw_oid_header o && saw_head_header o.

(** Changes of the observation. *)
Definition set_malformed (o : Observation) : Observation :=
  mkObservation (head_oid o) (branch o) (detached o) (saw_oid_header o) (saw_head_header o) (staged o) (unstaged o)
    (untracked o) (conflicted o) (entries o) (skipped_paths o) (records o) (truncated o) (malformed o + 1).
Definition set_truncated (o : Observation) : Observation :=
  mkObservation (head_oid o) (branch o) (detached o) (saw_oid_header o) (saw_head_header o) (staged o) (unstaged o)
    (untracked o) (conflicted o) (entries o) (skipped_paths o) (records o) true (malformed o).
Definition set_skipped (o : Observation) : Observation :=
  mkObservation (head_oid o) (branch o) (detached o) (saw_oid_header o) (saw_head_header o) (staged o) (unstaged o)
    (untracked o) (conflicted o) (entries o) (skipped_paths o + 1) (records o) (truncated o) (malformed o).
Definition set_oid (oid : option str) (o : Observation) : Observation :=
  mkObservation oid (branch o) (detached o) true (saw_head_header o) (staged o) (unstaged o)
    (untracked o) (conflicted o) (entries o) (skipped_paths o) (records o) (truncated o) (malformed o).
Definition set_head (branch : option str) (detached : bool) (o : Observation) : Observation :=
  mkObservation (head_oid o) branch detached (saw_oid_header o) true (staged o) (unstaged o)
    (untracked o) (conflicted o) (entries o) (skipped_paths o) (records o) (truncated o) (malformed o).
(** An accepted record, with what it adds to the counters. *)
Definition accept (s u n c : N) (entry : WorkspaceStatusEntry) (o : Observation) : Observation :=
  mkObservation (head_oid o) (branch o) (detached o) (saw_oid_header o) (saw_head_header o) (staged o + s) (unstaged o + u)
    (untracked o + n) (conflicted o + c) (entries o ++ [entry]) (skipped_paths o) (records o + 1) (truncated o) (malformed o).

(** ** Fields *)

Definition DOT : char := 46.
Definition STATUS_CODES : list char := lit ".MTADRCU".

Definition xy (field : list N) : option (char * char) :=
  text ← from_utf8 field;
  match text with
  | [x; y] => if decide (x ∈ STATUS_CODES ∧ y ∈ STATUS_CODES) then Some (x, y) else None
  | _ => None
  end.

Definition is_ascii_hexdigit (c : char) : bool :=
  bool_decide (48 <= c <= 57 ∨ 65 <= c <= 70 ∨ 97 <= c <= 102)%N.
Definition valid_oid (value : str) : bool :=
  bool_decide (str_len value = 40 ∨ str_len value = 64)%N && forallb is_ascii_hexdigit value.

(** [splitn] *)
Fixpoint splitn (fields : nat) (sep : N) (chunk : list N) : list (list N) :=
  match fields with
  | O => []
  | S O => [chunk]
  | S fields =>
      match split_once sep chunk with
      | Some (field, rest) => field :: splitn fields sep rest
      | None => [chunk]
      end
  end.
Definition split_fields (chunk : list N) (fields : nat) : option (list (list N)) :=
  let parts := splitn fields SPACE chunk in
  if decide (length parts = fields) then Some parts else None.

Definition header (chunk : list N) (found : Observation) : Observation :=
  match text ← from_utf8 chunk; rest ← strip_prefix (lit "# ") text; split_once SPACE rest with
  | None => set_malformed found
  | Some (key, value) =>
      if decide (key = lit "branch.oid") then
        if decide (value = lit "(initial)") then set_oid None found
        else if valid_oid value then set_oid (Some value) found
        else set_malformed (set_oid None found)
      else if decide (key = lit "branch.head") then
        if decide (value = lit "(detached)") then set_head None true found
        else if decide (value = [] ∨ (MAX_STATUS_BRANCH_BYTES < str_len value)%N)
        then set_malformed (set_head (branch found) (detached found) found)
        else set_head (Some value) (detached found) found
      else found
  end.

(** ** Paths of records *)

Inductive Mapped := Inside (path : str) | Outside | Skipped.

(** The components of [full] after dots are resolved; [None] above the root. *)
Fixpoint normalize (normal full : list Component) : option (list Component) :=
  match full with
  | [] => Some normal
  | RootDir :: full => normalize [RootDir] full
  | CurDir :: full => normalize normal full
  | ParentDir :: full => normal ← pop normal; normalize normal full
  | Normal name :: full => normalize (normal ++ [Normal name]) full
  end.

Fixpoint relative_text (relative : str) (stripped : list Component) : option str :=
  match stripped with
  | [] => Some relative
  | c :: stripped =>
      name ← from_utf8 (as_os_str c);
      relative_text (relative ++ (if decide (relative = []) then [] else [SLASH]) ++ name) stripped
  end.

Section workspace.
(** Where git was run, and the workspace. *)
Context (toplevel workspace_root : list Component).

Definition relative_to_workspace (path : list N) : Mapped :=
  if decide (MAX_PATH_BYTES < lenN path)%N then Skipped else
  match from_utf8 path with
  | None => Skipped
  | Some _ =>
      match normalize [] (path_join toplevel path) with
      | None => Skipped
      | Some normal =>
          match strip_path workspace_root normal with
          | None => Outside
          | Some stripped => match relative_text [] stripped with Some relative => Inside relative | None => Skipped end
          end
      end
  end.

Definition map_entry (path : list N) (original : option (list N)) (found : Observation)
    : option (str * option str) * Observation :=
  match relative_to_workspace path with
  | Outside => (None, found)
  | Skipped => (None, set_skipped found)
  | Inside mapped =>
      match relative_to_workspace <$> original with
      | None | Some Outside => (Some (mapped, None), found)
      | Some (Inside path) => (Some (mapped, Some path), found)
      | Some Skipped => (Some (mapped, None), set_skipped found)
      end
  end.

Definition changed (status : char) : N := if decide (status = DOT) then 0 else 1.

(** The handler of a record with two status characters. *)
Definition tracked (kind : WorkspaceStatusEntryKind) (fields : nat) (chunk : list N) (original : option (list N))
    (found : Observation) : Observation :=
  match split_fields chunk fields with
  | None => set_malformed found
  | Some parts =>
      match xy (nth 1 parts []) with
      | None => set_malformed found
      | Some (x, y) =>
          match map_entry (nth (fields - 1) parts []) original found with
          | (None, found) => found
          | (Some (path, original_path), found) =>
              let entry := mkEntry path kind (Some [x]) (Some [y]) original_path in
              match kind with
              | Unmerged => accept 0 0 0 1 entry found
              | _ => accept (changed x) (changed y) 0 0 entry found
              end
          end
      end
  end.

Definition untracked_record (chunk : list N) (found : Observation) : Observation :=
  match split_fields chunk 2 with
  | None => set_malformed found
  | Some parts =>
      match map_entry (nth 1 parts []) None found with
      | (None, found) => found
      | (Some (path, _), found) => accept 0 0 1 0 (mkEntry path Untracked None None None) found
      end
  end.

(** The records one after the other; a rename takes the next piece as its previous name. *)
Fixpoint observe_chunks (max_records : N) (chunks : list (list N)) (found : Observation) : Observation :=
  match chunks with
  | [] => found
  | [] :: chunks => observe_chunks max_records chunks found
  | (first :: _) as chunk :: chunks =>
      if decide (max_records <= records found)%N then set_truncated found else
      if decide (first = 35)%N then observe_chunks max_records chunks (header chunk found)
      else if decide (first = 49)%N then observe_chunks max_records chunks (tracked Ordinary 9 chunk None found)
      else if decide (first = 50)%N then
        match chunks with
        | [] => set_malformed found
        | original :: chunks =>
            observe_chunks max_records chunks
              (match original with
               | [] => set_malformed found
               | _ => tracked Renamed 10 chunk (Some original) found
               end)
        end
      else if decide (first = 117)%N then observe_chunks max_records chunks (tracked Unmerged 11 chunk None found)
      else if decide (first = 63)%N then observe_chunks max_records chunks (untracked_record chunk found)
      else if decide (first = 33)%N then observe_chunks max_records chunks found
      else observe_chunks max_records chunks (set_malformed found)
  end.

(** What follows the last NUL is not a record. *)
Definition whole_records (stdout : list N) : list (list N) := removelast (split_char 0 stdout).
Definition observe (max_records : N) (stdout : list N) : Observation :=
  observe_chunks max_records (whole_records stdout) Observation_default.
End workspace.

#[global] Arguments header : simpl never.
#[global] Arguments tracked : simpl never.
#[global] Arguments untracked_record : simpl never.

(** ** The answer *)

Inductive WorkspaceStatusWarning :=
  | GitUnavailable | StatusFailed | OutputTruncated | Deadline | SkippedPaths | NestedRepository.
#[global] Instance WorkspaceStatusWarning_eq_dec : EqDecision WorkspaceStatusWarning.
Proof. solve_decision. Defined.

Record WorkspaceStatusResult := mkResult {
  r_repo_available : bool;
  r_head_oid : option str;
  r_branch : option str;
  r_detached : bool;
  r_staged : N;
  r_unstaged : N;
  r_untracked : N;
  r_conflicted : N;
  r_entries : list WorkspaceStatusEntry;
  r_skipped_paths : N;
  r_complete : bool;
  r_warnings : list WorkspaceStatusWarning;
  r_observed_at_unix_ms : N
}.

(** [with_tail entries complete warnings] of a result. *)
Definition with_tail (entries : list WorkspaceStatusEntry) (complete : bool) (warnings : list WorkspaceStatusWarning)
    (r : WorkspaceStatusResult) : WorkspaceStatusResult :=
  mkResult (r_repo_available r) (r_head_oid r) (r_branch r) (r_detached r) (r_staged r) (r_unstaged r) (r_untracked r)
    (r_conflicted r) entries (r_skipped_paths r) complete warnings (r_observed_at_unix_ms r).

(** The sizes of values as JSON. *)
Class StatusEncoding := { status_len : WorkspaceStatusResult → N; entry_len : WorkspaceStatusEntry → N }.

Definition all_warnings : list WorkspaceStatusWarning :=
  [GitUnavailable; StatusFailed; OutputTruncated; Deadline; SkippedPaths; NestedRepository].
Definition envelope (r : WorkspaceStatusResult) : WorkspaceStatusResult := with_tail [] false all_warnings r.

Definition push_warning (w : WorkspaceStatusWarning) (ws : list WorkspaceStatusWarning) : list WorkspaceStatusWarning :=
  if decide (w ∈ ws) then ws else ws ++ [w].

(** What was not a usable answer: the summary that always fits. *)
Definition fallback (r : WorkspaceStatusResult) : WorkspaceStatusResult :=
  mkResult (r_repo_available r) None None (r_detached r) (r_staged r) (r_unstaged r) (r_untracked r) (r_conflicted r) []
    (r_skipped_paths r) false [StatusFailed] (r_observed_at_unix_ms r).

Section answer.
Context `{StatusEncoding}.

Fixpoint fit_entries (max_bytes used : N) (entries : list WorkspaceStatusEntry) (r : WorkspaceStatusResult)
    : WorkspaceStatusResult :=
  match entries with
  | [] => r
  | entry :: entries =>
      let encoded := entry_len entry in
      if decide (max_bytes < used + encoded + 1)%N
      then with_tail (r_entries r) false (push_warning OutputTruncated (r_warnings r)) r
      else fit_entries max_bytes (used + (encoded + 1))%N entries
             (with_tail (r_entries r ++ [entry]) (r_complete r) (r_warnings r) r)
  end.

Definition assemble (repo_available : bool) (o : Observation) (warnings : list WorkspaceStatusWarning) (complete : bool)
    (max_bytes observed_at : N) : WorkspaceStatusResult :=
  let result := mkResult repo_available (head_oid o) (branch o) (detached o) (staged o) (unstaged o) (untracked o)
                  (conflicted o) [] (skipped_paths o) complete warnings observed_at in
  let size := status_len (envelope result) in
  if decide (max_bytes < size)%N then fallback result else fit_entries max_bytes size (entries o) result.

(** ** One query *)

(** What a run of git came to. *)
Record GitOutput := mkOutput {
  stdout : list N; exit_code : option Z; spawn_failed : bool; out_truncated : bool; timed_out : bool; io_failed : bool
}.
Definition succeeded (o : GitOutput) : bool := bool_decide (exit_code o = Some 0%Z).
Definition quietly_failed (o : GitOutput) : bool :=
  negb (spawn_failed o) && negb (timed_out o) && negb (out_truncated o) && negb (succeeded o).
Definition failure_warning (o : GitOutput) : option WorkspaceStatusWarning :=
  if spawn_failed o then Some GitUnavailable
  else if timed_out o then Some Deadline
  else if out_truncated o then Some OutputTruncated
  else if io_failed o then Some StatusFailed
  else None.

Inductive GitCommand := ShowToplevel | IsBareRepository | StatusOf (toplevel : list Component) (pathspec : list N).

(** Running git ([run_git] fails only when the query is cancelled), and the canonical
    directory of a path. *)
Context {E : Type} (run_git : GitCommand → result E GitOutput) (canonical_dir : str → option (list Component)).

Definition repository_root (stdout : list N) : option (list Component) :=
  text ← from_utf8 stdout;
  let path := default text (strip_suffix_char LF text) in
  if decide (path = [] ∨ LF ∈ path) then None else canonical_dir path.

Fixpoint join_names (spec : list N) (names : list (list N)) : list N :=
  match names with
  | [] => spec
  | name :: names =>
      join_names (if decide (name = []) then spec else spec ++ (if decide (spec = []) then [] else [SLASH]) ++ name) names
  end.
Definition workspace_pathspec (workspace_root toplevel : list Component) : option (list N) :=
  stripped ← strip_path toplevel workspace_root;
  let spec := join_names [] (as_os_str <$> stripped) in
  Some (if decide (spec = []) then lit "." else spec).

(** A warning that makes the answer incomplete. *)
Definition note (b : bool) (w : WorkspaceStatusWarning) (answer : list WorkspaceStatusWarning * bool)
    : list WorkspaceStatusWarning * bool :=
  if b then (push_warning w answer.1, false) else answer.

(** The answer to the status command, once it ran. *)
Definition status_answer (max_records max_bytes observed_at : N) (toplevel workspace_root : list Component)
    (warnings : list WorkspaceStatusWarning) (out : GitOutput) : WorkspaceStatusResult :=
  if spawn_failed out then
    assemble true Observation_default (push_warning GitUnavailable warnings) false max_bytes observed_at
  else
    let o := observe toplevel workspace_root max_records (stdout out) in
    let answer := note (timed_out out) Deadline (warnings, true) in
    let answer := note (out_truncated out || truncated o) OutputTruncated answer in
    let answer := note (bool_decide (0 < skipped_paths o)%N) SkippedPaths answer in
    let failed := bool_decide (0 < malformed o)%N || io_failed out || quietly_failed out in
    let '(warnings, complete) :=
      note (failed || negb (branch_headers_complete o) && negb (out_truncated out) && negb (timed_out out))
        StatusFailed answer in
    assemble true o warnings complete max_bytes observed_at.

Definition is_definite (stdout : list N) : bool :=
  from_option (λ text, bool_decide (trim text = lit "true" ∨ trim text = lit "false")) false (from_utf8 stdout).

Definition status_with_deadline (max_records max_bytes observed_at : N) (workspace_root : list Component)
    : result E WorkspaceStatusResult :=
  let unavailable warnings complete := Ok (assemble false Observation_default warnings complete max_bytes observed_at) in
  probe ← run_git ShowToplevel;
  match failure_warning probe with
  | Some warning => unavailable [warning] false
  | None =>
      let toplevel := if succeeded probe then repository_root (stdout probe) else None in
      match toplevel with
      | None =>
          if succeeded probe then unavailable [StatusFailed] false else
          classify ← run_git IsBareRepository;
          match failure_warning classify with
          | Some warning => unavailable [warning] false
          | None =>
              if succeeded classify && is_definite (stdout classify) then unavailable [] true
              else unavailable [StatusFailed] false
          end
      | Some toplevel =>
          match workspace_pathspec workspace_root toplevel with
          | None => unavailable [StatusFailed] false
          | Some pathspec =>
              let warnings := if decide (pathspec = lit ".") then [] else [NestedRepository] in
              out ← run_git (StatusOf toplevel pathspec);
              Ok (status_answer max_records max_bytes observed_at toplevel workspace_root warnings out)
          end
      end
  end.
End answer.

#[global] Arguments note : simpl never.

Definition validate_result_bytes (max_bytes : option N) : bool :=
  from_option (λ bytes, bool_decide (MIN_RESULT_BYTES <= bytes <= MAX_RESULT_BYTES)%N) true max_bytes.
