(* ===== verification/StatusParse.v ===== *)
(** What the status of a workspace says, [workspace/status.rs] and
    [workspace/status/porcelain.rs].

    Whatever git prints, the entries are paths inside the workspace, the counters count
    the entries, an answer that says it is complete is, and it fits its budget; the
    records git documents are read back as they were printed, and an output that was cut
    gives a prefix of them. *)

From S2P Require Import Prelude RustStr Status.

(** ** Names and paths *)

(** A name of a file. *)
Definition plain_name (name : list N) : Prop := name ≠ [] ∧ SLASH ∉ name ∧ name ≠ lit "." ∧ name ≠ lit "..".
Definition plain (c : Component) : Prop := match c with Normal name => plain_name name | _ => False end.
(** What [canonicalize] gives. *)
Definition canonical (path : list Component) : Prop := ∃ names, path = RootDir :: names ∧ Forall plain names.
(** A path below the workspace. *)
Definition inside_path (p : str) : Prop := ∃ names, Forall plain_name names ∧ as_bytes p = join_names [] names.

(** Components that a walk can meet. *)
Definition usable (c : Component) : Prop := match c with Normal name => plain_name name | _ => True end.

Lemma component_usable name c : SLASH ∉ name → component name = Some c → usable c.
Proof.
  intros Hn. unfold component. case_decide as He; [done|]. intros [= <-]. case_decide; [done|]. cbn. unfold plain_name. naive_solver.
Qed.
Lemma pieces_usable path : Forall usable (omap component (split_char SLASH path)).
Proof.
  apply Forall_forall. intros c. rewrite list_elem_of_omap. intros (name & Hname & Hc).
  eapply component_usable; [|done]. by eapply split_char_no_sep.
Qed.
Lemma components_usable path : Forall usable (components path).
Proof.
  unfold components. apply Forall_app. split; [|apply pieces_usable]. repeat case_match; by repeat constructor.
Qed.
Lemma join_usable base path : Forall usable base → Forall usable (path_join base path).
Proof.
  intros Hb. unfold path_join. case_match; [apply components_usable|]. destruct base; [apply components_usable|].
  apply Forall_app. split; [done|apply pieces_usable].
Qed.

(** A walk stays at names below its start. *)
Definition walked (path : list Component) : Prop :=
  match path with RootDir :: names => Forall plain names | names => Forall plain names end.

Lemma walked_snoc path name : walked path → plain_name name → walked (path ++ [Normal name]).
Proof. intros Hp Hn. destruct path as [|[] path]; cbn in *; rewrite ?Forall_cons, ?Forall_app, ?Forall_singleton in *; naive_solver. Qed.
Lemma walked_pop path path' : walked path → pop path = Some path' → walked path'.
Proof.
  unfold pop. intros Hp. destruct path as [|c path] using rev_ind; [done|]. rewrite last_snoc.
  assert (Hr : removelast (path ++ [c]) = path) by apply removelast_last.
  destruct c; try done; rewrite Hr; intros [= <-]; destruct path as [|[] path]; cbn in *; try done;
    rewrite ?Forall_cons, ?Forall_app in *; naive_solver.
Qed.

Lemma normalize_walked normal full path :
  walked normal → Forall usable full → normalize normal full = Some path → walked path.
Proof.
  revert normal. induction full as [|c full IH]; intros normal Hn Hf; cbn; [by intros [= <-]|].
  apply Forall_cons in Hf as [Hc Hf]. destruct c.
  - apply IH; [by constructor|done].
  - by apply IH.
  - destruct (pop normal) as [normal'|] eqn:Hp; [|done]. cbn. apply IH; [|done]. by eapply walked_pop.
  - apply IH; [|done]. by apply walked_snoc.
Qed.

Lemma strip_path_app base path rest : strip_path base path = Some rest → path = base ++ rest.
Proof.
  revert path. induction base as [|c base IH]; intros [|d path]; cbn; try done; try (by intros [= ->]).
  case_decide as Hc; [|done]. intros ->%IH. by subst.
Qed.

Lemma relative_text_names relative stripped p :
  Forall plain stripped → relative_text relative stripped = Some p →
  as_bytes p = join_names (as_bytes relative) (as_os_str <$> stripped).
Proof.
  revert relative. induction stripped as [|c stripped IH]; intros relative Hp; cbn [relative_text]; [by intros [= ->]|].
  apply Forall_cons in Hp as [Hc Hp]. destruct (from_utf8 (as_os_str c)) as [name|] eqn:Hname; [|done].
  cbn. intros ->%IH; [|done]. apply from_utf8_sound in Hname. destruct c as [| | |bytes]; try done.
  destruct Hc as (Hne & _). cbn in Hname |- *. destruct (decide (bytes = [])) as [|_]; [done|]. f_equal.
  unfold as_bytes in *. rewrite !bind_app, Hname. f_equal. f_equal.
  destruct relative as [|x relative]; [done|]. rewrite !decide_False; [done| |done].
  cbn. intros Hnil. apply app_nil in Hnil as [Hx _]. pose proof (encode_char_len x) as Hlen. rewrite Hx in Hlen.
  pose proof (len_utf8_bounds x). rewrite lenN_nil in Hlen. lia.
Qed.

Section confinement.
Context (toplevel workspace_root : list Component) (Htop : canonical toplevel) (Hroot : canonical workspace_root).

Lemma inside_confined path p : relative_to_workspace toplevel workspace_root path = Inside p → inside_path p.
Proof using Htop Hroot.
  unfold relative_to_workspace. case_decide; [done|]. destruct (from_utf8 path); [|done].
  destruct (normalize [] (path_join toplevel path)) as [normal|] eqn:Hnormal; [|done].
  destruct (strip_path workspace_root normal) as [stripped|] eqn:Hstrip; [|done].
  destruct (relative_text [] stripped) as [relative|] eqn:Hrel; [|done]. intros [= <-].
  destruct Htop as (tops & -> & Htops). destruct Hroot as (names & -> & Hnames).
  assert (Hw : walked normal).
  { eapply normalize_walked; [| |exact Hnormal]; [by cbn|]. apply join_usable. constructor; [done|].
    eapply Forall_impl; [done|]. by intros []. }
  apply strip_path_app in Hstrip as ->. cbn in Hw. apply Forall_app in Hw as [_ Hw].
  apply relative_text_names in Hrel; [|done]. exists (as_os_str <$> stripped). split; [|done].
  apply Forall_fmap. eapply Forall_impl; [done|]. by intros [].
Qed.
End confinement.

(** ** One record *)

(** What an entry adds to the counters of staged, unstaged, untracked and conflicted. *)
Definition status_changed (status : option str) : N :=
  match status with Some [x] => changed x | _ => 0 end.
Definition counts (e : WorkspaceStatusEntry) : N * N * N * N :=
  match kind e with
  | Ordinary | Renamed => (status_changed (index_status e), status_changed (worktree_status e), 0, 0)
  | Unmerged => (0, 0, 0, 1)
  | Untracked => (0, 0, 1, 0)
  end%N.

Definition good_entry (e : WorkspaceStatusEntry) : Prop :=
  inside_path (path e) ∧ from_option inside_path True (original_path e) ∧
  match kind e with
  | Untracked => index_status e = None ∧ worktree_status e = None ∧ original_path e = None
  | _ => ∃ x y, x ∈ STATUS_CODES ∧ y ∈ STATUS_CODES ∧ index_status e = Some [x] ∧ worktree_status e = Some [y]
  end.

(** Changes the entries do not see. *)
Record quiet (o o' : Observation) : Prop := {
  quiet_entries : entries o' = entries o;
  quiet_counts : (staged o', unstaged o', untracked o', conflicted o', records o', truncated o') =
                 (staged o, unstaged o, untracked o, conflicted o, records o, truncated o);
  quiet_skipped : (skipped_paths o <= skipped_paths o')%N;
  quiet_malformed : (malformed o <= malformed o')%N
}.
Definition accepted (e : WorkspaceStatusEntry) : Observation → Observation :=
  let '(s, u, n, c) := counts e in accept s u n c e.

(** The counters of a list of entries. *)
Definition add4 (a b : N * N * N * N) : N * N * N * N :=
  let '(s, u, n, c) := a in let '(s', u', n', c') := b in (s + s', u + u', n + n', c + c')%N.
Definition total (l : list WorkspaceStatusEntry) : N * N * N * N := foldl (λ t e, add4 t (counts e)) (0, 0, 0, 0)%N l.
Lemma total_snoc l e : total (l ++ [e]) = add4 (total l) (counts e).
Proof. unfold total. by rewrite foldl_app. Qed.

Inductive step (o : Observation) : Observation → Prop :=
  | step_quiet o' : quiet o o' → step o o'
  | step_accepted o' e : quiet o o' → good_entry e → step o (accepted e o').

Lemma quiet_refl o : quiet o o.
Proof. by split. Qed.
Lemma quiet_bad o : quiet o (set_malformed o).
Proof. split; cbn; [done|done|lia|lia]. Qed.
Lemma quiet_skip o : quiet o (set_skipped o).
Proof. split; cbn; [done|done|lia|lia]. Qed.
#[local] Hint Resolve quiet_refl quiet_bad quiet_skip : core.

Lemma header_quiet chunk o : quiet o (header chunk o).
Proof. unfold header. repeat case_match; try done; split; cbn; try done; lia. Qed.

Section records.
Context (toplevel workspace_root : list Component) (Htop : canonical toplevel) (Hroot : canonical workspace_root).

Lemma map_entry_spec path original o :
  let '(mapped, o') := map_entry toplevel workspace_root path original o in
  quiet o o' ∧ match mapped with
               | Some (p, q) => inside_path p ∧ from_option inside_path True q ∧ (original = None → q = None)
               | None => True
               end.
Proof using Htop Hroot.
  unfold map_entry. destruct (relative_to_workspace toplevel workspace_root path) as [p| |] eqn:Hp; [|by split; auto|by split; auto].
  apply inside_confined in Hp; [|done|done]. destruct original as [original|]; cbn; [|done].
  destruct (relative_to_workspace toplevel workspace_root original) as [q| |] eqn:Hq; [|by split; auto|by split; auto].
  apply inside_confined in Hq; [|done|done]. by split; [auto|].
Qed.

Lemma xy_codes field x y : xy field = Some (x, y) → x ∈ STATUS_CODES ∧ y ∈ STATUS_CODES.
Proof. unfold xy. destruct (from_utf8 field) as [[|a [|b [|]]]|]; cbn; try done. case_decide; [|done]. by intros [= <- <-]. Qed.

Lemma tracked_step kind fields chunk original o :
  kind ≠ Untracked → step o (tracked toplevel workspace_root kind fields chunk original o).
Proof using Htop Hroot.
  intros Hkind. unfold tracked. destruct (split_fields chunk fields) as [parts|]; [|by apply step_quiet].
  destruct (xy (nth 1 parts [])) as [[x y]|] eqn:Hxy; [|by apply step_quiet]. apply xy_codes in Hxy as [Hx Hy].
  pose proof (map_entry_spec (nth (fields - 1) parts []) original o) as Hm.
  destruct (map_entry _ _ _ _ _) as [[[p q]|] o']; [|by destruct Hm; apply step_quiet]. destruct Hm as (Hq & Hin & Horig & _).
  pose proof (step_accepted o o' (mkEntry p kind (Some [x]) (Some [y]) q) Hq) as Hs.
  unfold accepted, counts in Hs. cbn in Hs. destruct kind; try done; apply Hs; repeat split; try done; by exists x, y.
Qed.

Lemma untracked_step chunk o : step o (untracked_record toplevel workspace_root chunk o).
Proof using Htop Hroot.
  unfold untracked_record. destruct (split_fields chunk 2) as [parts|]; [|by apply step_quiet].
  pose proof (map_entry_spec (nth 1 parts []) None o) as Hm.
  destruct (map_entry _ _ _ _ _) as [[[p q]|] o']; [|by destruct Hm; apply step_quiet]. destruct Hm as (Hq & Hin & _).
  by apply (step_accepted o o' (mkEntry p Untracked None None None)).
Qed.

(** ** A pass over the records *)

Section pass.
Context (max_records : N).

Record sound (o : Observation) : Prop := {
  sound_entries : Forall good_entry (entries o);
  sound_records : records o = lenN (entries o);
  sound_max : (records o <= max_records)%N;
  sound_counts : (staged o, unstaged o, untracked o, conflicted o) = total (entries o)
}.

(** More of everything. *)
Record grows (o o' : Observation) : Prop := {
  grows_entries : entries o `prefix_of` entries o';
  grows_skipped : (skipped_paths o <= skipped_paths o')%N;
  grows_malformed : (malformed o <= malformed o')%N
}.
#[global] Instance grows_preorder : PreOrder grows.
Proof.
  split; [by split|]. intros a b c [H1 H2 H3] [H4 H5 H6]. split; [by etransitivity|lia|lia].
Qed.

Lemma step_grows o o' : step o o' → grows o o'.
Proof.
  intros [o1 [He _ Hs Hm]|o1 e [He _ Hs Hm] _]; [split; by rewrite ?He|].
  unfold accepted. destruct (counts e) as [[[s u] n] c]. split; cbn; [|done|done]. rewrite He. by apply prefix_app_r.
Qed.
Lemma step_sound o o' : step o o' → sound o → (records o < max_records)%N → sound o'.
Proof.
  intros [o1 [He Hc _ _]|o1 e [He Hc _ _] Hg] [Hs Hr Hm Ht] Hlt; injection Hc as Hc1 Hc2 Hc3 Hc4 Hc5 _.
  - split; rewrite ?He, ?Hc1, ?Hc2, ?Hc3, ?Hc4, ?Hc5; try done.
  - unfold accepted. destruct (counts e) as [[[s u] n] c] eqn:Hcounts. split; cbn; rewrite ?He, ?Hc1, ?Hc2, ?Hc3, ?Hc4, ?Hc5.
    + apply Forall_app. split; [done|by constructor].
    + rewrite lenN_app, lenN_cons, lenN_nil, Hr. lia.
    + lia.
    + by rewrite total_snoc, <- Ht, Hcounts.
Qed.

Lemma chunks_spec chunks o :
  let o' := observe_chunks toplevel workspace_root max_records chunks o in
  grows o o' ∧ (sound o → sound o').
Proof using Htop Hroot.
  remember (length chunks) as n eqn:Hn. revert chunks o Hn. induction n as [n IH] using lt_wf_ind.
  intros chunks o Hn. destruct chunks as [|[|first chunk] chunks]; cbn [observe_chunks]; [done|apply (IH (length chunks)); cbn in Hn; lia|].
  case_decide as Hmax; [by split; [split|intros []; split]|].
  assert (Hnext : ∀ o1 rest, (length rest < n)%nat → step o o1 →
    grows o (observe_chunks toplevel workspace_root max_records rest o1) ∧
    (sound o → sound (observe_chunks toplevel workspace_root max_records rest o1))).
  { intros o1 rest Hlen Hstep. destruct (IH (length rest) Hlen rest o1 eq_refl) as [Hg Hs]. split.
    - etransitivity; [by apply step_grows|done].
    - intros Ho. apply Hs. eapply step_sound; [done|done|lia]. }
  cbn in Hn. repeat case_decide; try (apply Hnext; [lia|]).
  - apply step_quiet, header_quiet.
  - by apply tracked_step.
  - destruct chunks as [|original chunks].
    + split; [apply step_grows|intros Ho; eapply step_sound; [|done|lia]]; by apply step_quiet.
    + apply Hnext; [cbn in Hn; lia|]. destruct original; [by apply step_quiet|by apply tracked_step].
  - by apply tracked_step.
  - by apply untracked_step.
  - by apply step_quiet.
  - by apply step_quiet.
Qed.

Lemma sound_default : sound Observation_default.
Proof. by split; cbn; [constructor|..|lia|]. Qed.
End pass.
End records.

(** ** An output that was cut *)

Lemma removelast_cons {A} (x : A) l : l ≠ [] → removelast (x :: l) = x :: removelast l.
Proof. by destruct l. Qed.

Lemma split_char_cut c a b : ∃ rest, rest ≠ [] ∧ split_char c (a ++ b) = removelast (split_char c a) ++ rest.
Proof.
  induction a as [|d a (rest & Hne & IH)]; cbn; [eexists; split; [by apply (split_char_ne c b)|done]|].
  pose proof (split_char_ne c a) as Ha. rewrite IH. case_decide.
  - exists rest. by rewrite removelast_cons.
  - destruct (split_char c a) as [|p [|q ps]]; [done|destruct rest as [|r rest]; [done|by exists ((d :: r) :: rest)]|].
    exists rest. by rewrite (removelast_cons p), (removelast_cons (d :: p)) by done.
Qed.

Lemma whole_records_prefix s s' : s `prefix_of` s' → whole_records s `prefix_of` whole_records s'.
Proof.
  intros [b ->]. unfold whole_records. destruct (split_char_cut 0%N s b) as (rest & Hne & ->).
  rewrite removelast_app by done. by apply prefix_app_r.
Qed.

Section cut.
Context (toplevel workspace_root : list Component) (Htop : canonical toplevel) (Hroot : canonical workspace_root).

Lemma chunks_prefix max_records l1 l2 o :
  entries (observe_chunks toplevel workspace_root max_records l1 o) `prefix_of`
  entries (observe_chunks toplevel workspace_root max_records (l1 ++ l2) o).
Proof using Htop Hroot.
  remember (length l1) as n eqn:Hn. revert l1 o Hn. induction n as [n IH] using lt_wf_ind.
  assert (Hgrows : ∀ l o o', quiet o' o → entries o `prefix_of` entries (observe_chunks toplevel workspace_root max_records l o')).
  { intros l o0 o' [He _ _ _]. rewrite He. apply (chunks_spec toplevel workspace_root Htop Hroot max_records l o'). }
  intros l1 o Hn. destruct l1 as [|[|first chunk] l1]; cbn [observe_chunks app].
  - by apply Hgrows.
  - apply (IH (length l1)); [cbn in Hn; lia|done].
  - cbn in Hn. repeat case_decide; try (eapply IH; [|reflexivity]; lia); [done|].
    destruct l1 as [|original l1]; [|eapply IH; [|reflexivity]; cbn in Hn; lia]. cbn [app].
    destruct l2 as [|original l2]; [done|].
    transitivity (entries o); [by destruct o|].
    destruct (chunks_spec toplevel workspace_root Htop Hroot max_records l2
      (match original with [] => set_malformed o
       | _ => tracked toplevel workspace_root Renamed 10 (first :: chunk) (Some original) o end)) as [[Hp _ _] _].
    etransitivity; [|exact Hp]. destruct original; [by destruct o|].
    by apply step_grows, tracked_step.
Qed.

Lemma observe_prefix max_records s s' :
  s `prefix_of` s' →
  entries (observe toplevel workspace_root max_records s) `prefix_of` entries (observe toplevel workspace_root max_records s').
Proof using Htop Hroot.
  intros [rest Hrest]%whole_records_prefix. unfold observe. rewrite Hrest. apply chunks_prefix.
Qed.
End cut.

(** ** The records git documents *)

(** [mid] are the fields between the status and the paths. *)
Inductive GitRecord :=
  | GHeader (key value : str)
  | GOrdinary (x y : char) (mid : list (list N)) (path : list N)
  | GRenamed (x y : char) (mid : list (list N)) (path original : list N)
  | GUnmerged (x y : char) (mid : list (list N)) (path : list N)
  | GUntracked (path : list N)
  | GIgnored (path : list N).

Definition join_fields (fields : list (list N)) (path : list N) : list N :=
  foldr (λ field rest, field ++ SPACE :: rest) path fields.
(** The pieces a record is printed as, each followed by a NUL. *)
Definition print_pieces (r : GitRecord) : list (list N) :=
  match r with
  | GHeader key value => [as_bytes (lit "# " ++ key ++ SPACE :: value)]
  | GOrdinary x y mid path => [join_fields (lit "1" :: [x; y] :: mid) path]
  | GRenamed x y mid path original => [join_fields (lit "2" :: [x; y] :: mid) path; original]
  | GUnmerged x y mid path => [join_fields (lit "u" :: [x; y] :: mid) path]
  | GUntracked path => [join_fields [lit "?"] path]
  | GIgnored path => [join_fields [lit "!"] path]
  end.
Definition print_status (rs : list GitRecord) : list N := rs ≫= λ r, print_pieces r ≫= λ piece, piece ++ [0%N].

Definition good_field (field : list N) : Prop := SPACE ∉ field ∧ 0%N ∉ field.
Definition good_name (name : list N) : Prop := name ≠ [] ∧ 0%N ∉ name.
Definition good_record (r : GitRecord) : Prop :=
  let status x y := x ∈ STATUS_CODES ∧ y ∈ STATUS_CODES in
  match r with
  | GHeader key value => SPACE ∉ key ∧ forallb is_scalar (key ++ value) = true ∧ 0%N ∉ as_bytes (key ++ value)
  | GOrdinary x y mid path => status x y ∧ length mid = 6 ∧ Forall good_field mid ∧ good_name path
  | GRenamed x y mid path original =>
      status x y ∧ length mid = 7 ∧ Forall good_field mid ∧ good_name path ∧ good_name original
  | GUnmerged x y mid path => status x y ∧ length mid = 8 ∧ Forall good_field mid ∧ good_name path
  | GUntracked path | GIgnored path => good_name path
  end.

Section report.
Context (toplevel workspace_root : list Component) (max_records : N).

(** What a record means. *)
Definition report_entry (kind : WorkspaceStatusEntryKind) (status : option (char * char)) (path : list N)
    (original : option (list N)) (o : Observation) : Observation :=
  match relative_to_workspace toplevel workspace_root path with
  | Outside => o
  | Skipped => set_skipped o
  | Inside p =>
      let entry q := mkEntry p kind ((λ s, [s.1]) <$> status) ((λ s, [s.2]) <$> status) q in
      match relative_to_workspace toplevel workspace_root <$> original with
      | Some (Inside q) => accepted (entry (Some q)) o
      | Some Skipped => accepted (entry None) (set_skipped o)
      | _ => accepted (entry None) o
      end
  end.
Definition report_header (key value : str) (o : Observation) : Observation :=
  if decide (key = lit "branch.oid") then
    if decide (value = lit "(initial)") then set_oid None o
    else if valid_oid value then set_oid (Some value) o else set_malformed (set_oid None o)
  else if decide (key = lit "branch.head") then
    if decide (value = lit "(detached)") then set_head None true o
    else if decide (value = [] ∨ (MAX_STATUS_BRANCH_BYTES < str_len value)%N)
    then set_malformed (set_head (branch o) (detached o) o)
    else set_head (Some value) (detached o) o
  else o.
Definition report (o : Observation) (r : GitRecord) : Observation :=
  if truncated o then o
  else if decide (max_records <= records o)%N then set_truncated o
  else match r with
       | GHeader key value => report_header key value o
       | GOrdinary x y _ path => report_entry Ordinary (Some (x, y)) path None o
       | GRenamed x y _ path original => report_entry Renamed (Some (x, y)) path (Some original) o
       | GUnmerged x y _ path => report_entry Unmerged (Some (x, y)) path None o
       | GUntracked path => report_entry Untracked None path None o
       | GIgnored _ => o
       end.
End report.

(** ** Reading back what was printed *)

Lemma whole_records_print ps : Forall (λ p, 0%N ∉ p) ps → whole_records (ps ≫= λ p, p ++ [0%N]) = ps.
Proof.
  unfold whole_records. induction 1 as [|p ps Hp _ IH]; [done|]. rewrite bind_cons, <- app_assoc. cbn [app].
  rewrite split_char_piece by done. rewrite removelast_cons by apply split_char_ne. by rewrite IH.
Qed.

Lemma splitn_fields fields path :
  Forall (λ f, SPACE ∉ f) fields → splitn (S (length fields)) SPACE (join_fields fields path) = fields ++ [path].
Proof.
  induction 1 as [|f fields Hf _ IH]; [done|]. cbn [length splitn join_fields foldr].
  rewrite split_once_app by done. cbn [app]. f_equal. exact IH.
Qed.

Lemma split_fields_print fields path n :
  Forall (λ f, SPACE ∉ f) fields → n = S (length fields) →
  split_fields (join_fields fields path) n = Some (fields ++ [path]).
Proof.
  intros Hf ->. unfold split_fields. rewrite splitn_fields by done. rewrite decide_True; [done|].
  rewrite length_app. cbn. lia.
Qed.

Lemma xy_print x y : x ∈ STATUS_CODES → y ∈ STATUS_CODES → xy [x; y] = Some (x, y).
Proof.
  intros Hx Hy. assert (Hall : Forall (λ x, Forall (λ y, xy [x; y] = Some (x, y)) STATUS_CODES) STATUS_CODES)
    by (repeat constructor).
  rewrite Forall_forall in Hall. specialize (Hall x Hx). rewrite Forall_forall in Hall. by apply Hall.
Qed.

Lemma codes_plain x : x ∈ STATUS_CODES → x ≠ SPACE ∧ x ≠ 0%N.
Proof. revert x. apply Forall_forall. by repeat constructor. Qed.

Section roundtrip.
Context (toplevel workspace_root : list Component) (max_records : N).
Abbreviation tracked' := (tracked toplevel workspace_root).
Abbreviation report_entry' := (report_entry toplevel workspace_root).

Lemma tracked_print kind n tag x y mid path original o :
  kind ≠ Untracked → x ∈ STATUS_CODES → y ∈ STATUS_CODES → SPACE ∉ tag → Forall good_field mid → n = length mid + 3 →
  tracked' kind n (join_fields (tag :: [x; y] :: mid) path) original o = report_entry' kind (Some (x, y)) path original o.
Proof.
  intros Hkind Hx Hy Htag Hmid ->. unfold tracked.
  rewrite split_fields_print; [|repeat constructor; [done| |]|cbn; lia].
  - cbn [app nth]. rewrite xy_print by done. replace (length mid + 3 - 1) with (S (S (length mid))) by lia.
    cbn [nth]. rewrite nth_middle. unfold map_entry, report_entry.
    destruct (relative_to_workspace toplevel workspace_root path) as [p| |]; [|done|done].
    destruct original as [original|]; cbn; [destruct (relative_to_workspace toplevel workspace_root original)|];
      by destruct kind.
  - destruct (codes_plain x Hx), (codes_plain y Hy). set_solver.
  - eapply Forall_impl; [done|]. by intros f [].
Qed.

Lemma header_print key value o :
  SPACE ∉ key → forallb is_scalar (key ++ value) = true →
  header (as_bytes (lit "# " ++ key ++ SPACE :: value)) o = report_header key value o.
Proof.
  intros Hkey Hscalar. unfold header. rewrite from_utf8_as_bytes.
  - cbn [mbind option_bind]. rewrite strip_prefix_app. cbn [mbind option_bind]. by rewrite split_once_app.
  - rewrite !forallb_app in *. cbn. by apply andb_true_iff in Hscalar as [-> ->].
Qed.

Lemma untracked_print path o : untracked_record toplevel workspace_root (join_fields [lit "?"] path) o = report_entry' Untracked None path None o.
Proof.
  unfold untracked_record. rewrite split_fields_print; [|repeat constructor; set_solver|done]. cbn [app nth].
  unfold map_entry, report_entry. by destruct (relative_to_workspace toplevel workspace_root path).
Qed.

Lemma observe_cons first chunk chunks o :
  observe_chunks toplevel workspace_root max_records ((first :: chunk) :: chunks) o =
  let next := observe_chunks toplevel workspace_root max_records in
  if decide (max_records <= records o)%N then set_truncated o else
  if decide (first = 35)%N then next chunks (header (first :: chunk) o)
  else if decide (first = 49)%N then next chunks (tracked' Ordinary 9 (first :: chunk) None o)
  else if decide (first = 50)%N then
    match chunks with
    | [] => set_malformed o
    | original :: chunks =>
        next chunks (match original with [] => set_malformed o | _ => tracked' Renamed 10 (first :: chunk) (Some original) o end)
    end
  else if decide (first = 117)%N then next chunks (tracked' Unmerged 11 (first :: chunk) None o)
  else if decide (first = 63)%N then next chunks (untracked_record toplevel workspace_root (first :: chunk) o)
  else if decide (first = 33)%N then next chunks o
  else next chunks (set_malformed o).
Proof. done. Qed.

Lemma print_head r : ∃ first chunk more, print_pieces r = (first :: chunk) :: more.
Proof. destruct r; cbn; by repeat eexists. Qed.

Lemma chunks_print r rest o :
  good_record r → truncated o = false →
  observe_chunks toplevel workspace_root max_records (print_pieces r ++ rest) o =
  if decide (max_records <= records o)%N then set_truncated o
  else observe_chunks toplevel workspace_root max_records rest (report toplevel workspace_root max_records o r).
Proof.
  intros Hr Ho. unfold report. rewrite Ho. destruct (decide (max_records <= records o)%N) as [Hmax|Hmax].
  { destruct (print_head r) as (first & chunk & more & ->). cbn [app]. rewrite observe_cons. by rewrite decide_True. }
  destruct r as [key value|x y mid path|x y mid path original|x y mid path|path|path]; cbn [print_pieces app].
  - destruct Hr as (Hkey & Hscalar & _). rewrite <- header_print by done.
    change (as_bytes (lit "# " ++ key ++ SPACE :: value)) with (35%N :: as_bytes (SPACE :: key ++ SPACE :: value)).
    rewrite observe_cons. by rewrite decide_False.
  - destruct Hr as ([Hx Hy] & Hlen & Hmid & _). rewrite <- (tracked_print Ordinary 9 (lit "1") x y mid); try done; [|set_solver|by rewrite Hlen].
    change (join_fields (lit "1" :: [x; y] :: mid) path) with (49%N :: SPACE :: join_fields ([x; y] :: mid) path).
    rewrite observe_cons. by rewrite decide_False.
  - destruct Hr as ([Hx Hy] & Hlen & Hmid & _ & [Hne _]).
    rewrite <- (tracked_print Renamed 10 (lit "2") x y mid); try done; [|set_solver|by rewrite Hlen].
    change (join_fields (lit "2" :: [x; y] :: mid) path) with (50%N :: SPACE :: join_fields ([x; y] :: mid) path).
    rewrite observe_cons. rewrite decide_False by done. by destruct original.
  - destruct Hr as ([Hx Hy] & Hlen & Hmid & _). rewrite <- (tracked_print Unmerged 11 (lit "u") x y mid); try done; [|set_solver|by rewrite Hlen].
    change (join_fields (lit "u" :: [x; y] :: mid) path) with (117%N :: SPACE :: join_fields ([x; y] :: mid) path).
    rewrite observe_cons. by rewrite decide_False.
  - rewrite <- untracked_print. change (join_fields [lit "?"] path) with (63%N :: SPACE :: path).
    rewrite observe_cons. by rewrite decide_False.
  - change (join_fields [lit "!"] path) with (33%N :: SPACE :: path). rewrite observe_cons. by rewrite decide_False.
Qed.
End roundtrip.

Section fold.
Context (toplevel workspace_root : list Component) (max_records : N).
Abbreviation report' := (report toplevel workspace_root max_records).

Lemma report_truncated rs o : truncated o = true → foldl report' o rs = o.
Proof. revert o. induction rs as [|r rs IH]; intros o Ho; [done|]. cbn. unfold report at 2. rewrite Ho. by apply IH. Qed.

Lemma report_open r o : truncated o = false → ¬ (max_records <= records o)%N → truncated (report' o r) = false.
Proof.
  intros Ho Hmax. unfold report. rewrite Ho, decide_False by done.
  destruct r; cbn; try done; unfold report_header, report_entry, accepted, counts; repeat case_match; done.
Qed.

Lemma chunks_fold rs o :
  Forall good_record rs → truncated o = false →
  observe_chunks toplevel workspace_root max_records (rs ≫= print_pieces) o = foldl report' o rs.
Proof.
  intros Hrs. revert o. induction Hrs as [|r rs Hr _ IH]; intros o Ho; [done|].
  rewrite bind_cons, chunks_print by done. cbn [foldl]. case_decide as Hmax.
  - assert (Hrep : report' o r = set_truncated o) by (unfold report; by rewrite Ho, decide_True).
    by rewrite Hrep, report_truncated.
  - apply IH. by apply report_open.
Qed.

Lemma join_fields_no_nul fields path :
  Forall (λ f, 0%N ∉ f) fields → 0%N ∉ path → 0%N ∉ join_fields fields path.
Proof.
  induction 1 as [|f fields Hf _ IH]; intros Hp; [done|]. cbn. rewrite elem_of_app, elem_of_cons.
  intros [?|[?|?]]; [done|done|by apply IH].
Qed.

Lemma record_no_nul tag x y mid path :
  0%N ∉ tag → x ∈ STATUS_CODES → y ∈ STATUS_CODES → Forall good_field mid → good_name path →
  0%N ∉ join_fields (tag :: [x; y] :: mid) path.
Proof.
  intros Htag Hx Hy Hmid [_ Hp]. apply join_fields_no_nul; [|done]. repeat constructor; [done| |].
  - destruct (codes_plain x Hx), (codes_plain y Hy). set_solver.
  - eapply Forall_impl; [done|]. by intros f [].
Qed.

Lemma pieces_no_nul r : good_record r → Forall (λ p, 0%N ∉ p) (print_pieces r).
Proof.
  destruct r as [key value|x y mid path|x y mid path original|x y mid path|path|path]; cbn [print_pieces good_record];
    intros Hr; repeat constructor.
  - destruct Hr as (_ & _ & Hr). unfold as_bytes in *. rewrite !bind_app, bind_cons in *.
    rewrite !elem_of_app. rewrite elem_of_app in Hr. change (encode_char SPACE) with [SPACE].
    change (lit "# " ≫= encode_char) with [35%N; SPACE]. set_solver.
  - destruct Hr as ([Hx Hy] & _ & Hm & Hp). apply record_no_nul; try done. set_solver.
  - destruct Hr as ([Hx Hy] & _ & Hm & Hp & _). apply record_no_nul; try done. set_solver.
  - by destruct Hr as (_ & _ & _ & _ & _ & ?).
  - destruct Hr as ([Hx Hy] & _ & Hm & Hp). apply record_no_nul; try done. set_solver.
  - destruct Hr as [_ Hp]. apply join_fields_no_nul; [|done]. repeat constructor. set_solver.
  - destruct Hr as [_ Hp]. apply join_fields_no_nul; [|done]. repeat constructor. set_solver.
Qed.

Lemma print_status_pieces rs : print_status rs = (rs ≫= print_pieces) ≫= λ p, p ++ [0%N].
Proof. unfold print_status. induction rs as [|r rs IH]; [done|]. by rewrite !bind_cons, bind_app, IH. Qed.

Lemma observe_print rs :
  Forall good_record rs →
  observe toplevel workspace_root max_records (print_status rs) = foldl report' Observation_default rs.
Proof.
  intros Hrs. unfold observe. rewrite print_status_pieces, whole_records_print; [by apply chunks_fold|].
  induction Hrs as [|r rs Hr _ IH]; [constructor|]. rewrite bind_cons. apply Forall_app. split; [by apply pieces_no_nul|done].
Qed.
End fold.

(** C33 Reading the records git documents for a status gives each the meaning it has, in
    order and up to the cap on records: spaces in paths survive, a rename takes its
    previous name and shifts nothing, a path outside the workspace is left out and one
    that cannot be written is counted as skipped.  And of an output cut at any byte, what
    is read is a prefix of the entries: no half record becomes an entry. *)
Theorem status_roundtrip toplevel workspace_root max_records rs cut stdout :
  canonical toplevel → canonical workspace_root → Forall good_record rs → cut `prefix_of` stdout →
  observe toplevel workspace_root max_records (print_status rs) =
    foldl (report toplevel workspace_root max_records) Observation_default rs ∧
  entries (observe toplevel workspace_root max_records cut) `prefix_of`
    entries (observe toplevel workspace_root max_records stdout).
Proof. intros Ht Hr Hrs Hcut. split; [by apply observe_print|by apply observe_prefix]. Qed.

(** ** The answer *)

(** What is known of the sizes: an entry adds itself and a comma, the envelope has every
    warning, and the summary of a failed observation fits the smallest budget. *)
Class StatusEncodingLaws `{StatusEncoding} : Prop := {
  entries_law r : (status_len r <= status_len (with_tail [] (r_complete r) (r_warnings r) r)
                                   + foldr (λ e n, entry_len e + 1 + n) 0 (r_entries r))%N;
  envelope_law r : r_entries r = [] → NoDup (r_warnings r) → (status_len r <= status_len (envelope r))%N;
  fallback_law r : (status_len (fallback r) <= MIN_RESULT_BYTES)%N
}.

Section answer.
Context `{StatusEncoding} {Hlaws : StatusEncodingLaws}.

Definition entries_size (es : list WorkspaceStatusEntry) : N := foldr (λ e n, entry_len e + 1 + n)%N 0%N es.
Lemma entries_size_app es fs : entries_size (es ++ fs) = (entries_size es + entries_size fs)%N.
Proof. induction es as [|e es IH]; [done|]. unfold entries_size in *. cbn. lia. Qed.

(** An answer within its budget that explains what it leaves out. *)
Record fair (max_bytes : N) (r : WorkspaceStatusResult) : Prop := {
  fair_size : (status_len r <= max_bytes)%N;
  fair_incomplete : r_complete r = false → r_warnings r ≠ []
}.

Lemma push_warning_NoDup w ws : NoDup ws → NoDup (push_warning w ws).
Proof.
  intros Hws. unfold push_warning. case_decide; [done|]. apply NoDup_app. split; [done|].
  split; [set_solver|apply NoDup_singleton].
Qed.
Lemma push_warning_ne w ws : push_warning w ws ≠ [].
Proof. unfold push_warning. case_decide as Hin; [by intros ->; apply elem_of_nil in Hin|by destruct ws]. Qed.

Lemma fit_entries_spec max_bytes used es r :
  used = (status_len (envelope r) + entries_size (r_entries r))%N → (used <= max_bytes)%N → NoDup (r_warnings r) →
  (r_complete r = false → r_warnings r ≠ []) →
  let r' := fit_entries max_bytes used es r in
  fair max_bytes r' ∧ r_entries r' `prefix_of` r_entries r ++ es ∧
  (r_complete r' = true → r_complete r = true ∧ r_entries r' = r_entries r ++ es).
Proof using Hlaws.
  revert used r. induction es as [|e es IH]; intros used r Hused Hmax Hw Hc; cbn [fit_entries].
  - rewrite app_nil_r. split; [split; [|done]|done].
    etransitivity; [apply entries_law|]. unfold entries_size in Hused.
    pose proof (envelope_law (with_tail [] (r_complete r) (r_warnings r) r) eq_refl Hw) as He.
    change (envelope (with_tail [] (r_complete r) (r_warnings r) r)) with (envelope r) in He. lia.
  - case_decide as Hfull.
    + split; [split; [|intros _; apply push_warning_ne]|split; [by apply prefix_app_r|done]].
      set (ws := push_warning OutputTruncated (r_warnings r)).
      pose proof (entries_law (with_tail (r_entries r) false ws r)) as Hsize.
      change (with_tail [] _ _ (with_tail (r_entries r) false ws r)) with (with_tail [] false ws r) in Hsize.
      pose proof (envelope_law (with_tail [] false ws r) eq_refl (push_warning_NoDup _ _ Hw)) as He.
      change (envelope (with_tail [] false ws r)) with (envelope r) in He.
      change (foldr _ 0%N (r_entries (with_tail (r_entries r) false ws r))) with (entries_size (r_entries r)) in Hsize. lia.
    + destruct (IH (used + (entry_len e + 1))%N (with_tail (r_entries r ++ [e]) (r_complete r) (r_warnings r) r))
        as (Hf & Hp & Hcomplete); [|lia|done|done|].
      { cbn [with_tail r_entries]. rewrite entries_size_app. cbn.
        change (envelope (with_tail _ _ _ r)) with (envelope r). lia. }
      cbn [with_tail r_entries r_complete] in *. rewrite <- app_assoc in Hp, Hcomplete. done.
Qed.

Lemma assemble_spec available o ws complete max_bytes at_ :
  (MIN_RESULT_BYTES <= max_bytes)%N → NoDup ws → (complete = false → ws ≠ []) →
  let r := assemble available o ws complete max_bytes at_ in
  fair max_bytes r ∧ r_entries r `prefix_of` entries o ∧ r_repo_available r = available ∧
  (r_staged r, r_unstaged r, r_untracked r, r_conflicted r) = (staged o, unstaged o, untracked o, conflicted o) ∧
  (r_complete r = true → complete = true ∧ r_entries r = entries o).
Proof using Hlaws.
  intros Hmin Hw Hc. unfold assemble. case_decide as Hfit.
  - cbn. split; [split; [|done]|]; [by etransitivity; [apply fallback_law|]|]. split; [apply prefix_nil|done].
  - match goal with |- context [fit_entries _ _ _ ?r0] => set (r := r0) in * end.
    destruct (fit_entries_spec max_bytes (status_len (envelope r)) (entries o) r) as (Hf & Hp & Hcomplete);
      [change (entries_size (r_entries r)) with 0%N; lia|lia|done|done|].
    assert (Hsame : ∀ used es r0, let r' := fit_entries max_bytes used es r0 in
      (r_repo_available r', (r_staged r', r_unstaged r', r_untracked r', r_conflicted r')) =
      (r_repo_available r0, (r_staged r0, r_unstaged r0, r_untracked r0, r_conflicted r0))).
    { intros used es. revert used. induction es as [|e es IH]; intros used r0; cbn [fit_entries]; [done|].
      case_decide; [done|]. cbn zeta. rewrite IH. done. }
    specialize (Hsame (status_len (envelope r)) (entries o) r). injection Hsame as Ha Hs Hu Hn Hcf.
    rewrite Ha, Hs, Hu, Hn, Hcf. done.
Qed.

(** The entries of an observation, whatever git printed. *)
Lemma observe_sound toplevel workspace_root max_records stdout :
  canonical toplevel → canonical workspace_root → sound max_records (observe toplevel workspace_root max_records stdout).
Proof. intros Ht Hr. by apply (chunks_spec toplevel workspace_root Ht Hr), sound_default. Qed.

Lemma Forall_prefix {A} (P : A → Prop) l k : l `prefix_of` k → Forall P k → Forall P l.
Proof. by intros [m ->] [? _]%Forall_app. Qed.

(** What an answer that says it is complete rests on. *)
Definition whole {E} (run_git : GitCommand → result E GitOutput) (max_records : N) (workspace_root : list Component)
    (r : WorkspaceStatusResult) : Prop :=
  if r_repo_available r then
    ∃ toplevel pathspec out, run_git (StatusOf toplevel pathspec) = Ok out ∧
      succeeded out = true ∧ timed_out out = false ∧ out_truncated out = false ∧ io_failed out = false ∧
      let o := observe toplevel workspace_root max_records (stdout out) in
      r_entries r = entries o ∧ (r_staged r, r_unstaged r, r_untracked r, r_conflicted r) = total (r_entries r) ∧
      skipped_paths o = 0%N ∧ malformed o = 0%N ∧ truncated o = false ∧ branch_headers_complete o = true
  else ∃ out, run_git IsBareRepository = Ok out ∧ succeeded out = true ∧ is_definite (stdout out) = true.

Lemma status_answer_spec {E} (run_git : GitCommand → result E GitOutput) toplevel pathspec workspace_root ws out
    max_records max_bytes at_ :
  canonical toplevel → canonical workspace_root → (MIN_RESULT_BYTES <= max_bytes)%N → NoDup ws →
  run_git (StatusOf toplevel pathspec) = Ok out →
  let r := status_answer max_records max_bytes at_ toplevel workspace_root ws out in
  fair max_bytes r ∧ Forall good_entry (r_entries r) ∧ (r_complete r = true → whole run_git max_records workspace_root r).
Proof using Hlaws.
  intros Ht Hr Hmin Hws Hrun. unfold status_answer. destruct (spawn_failed out) eqn:Hspawn.
  - destruct (assemble_spec true Observation_default (push_warning GitUnavailable ws) false max_bytes at_) as (Hf & Hp & _ & _ & Hc);
      [done|by apply push_warning_NoDup|intros _; apply push_warning_ne|].
    split; [done|]. split; [by eapply Forall_prefix|]. by intros [? _]%Hc.
  - set (o := observe toplevel workspace_root max_records (stdout out)).
    assert (Hnote : ∀ b w a, NoDup a.1 ∧ (a.2 = false → a.1 ≠ []) →
      (NoDup (note b w a).1 ∧ ((note b w a).2 = false → (note b w a).1 ≠ [])) ∧ ((note b w a).2 = true → b = false ∧ a.2 = true)).
    { intros [] w [a c] [Hn Hc]; unfold note; cbn in *; [|by split]. split; [|done]. split; [by apply push_warning_NoDup|].
      intros _. apply push_warning_ne. }
    set (failed := bool_decide (0 < malformed o)%N || io_failed out || quietly_failed out).
    set (a1 := note (timed_out out) Deadline (ws, true)).
    set (a2 := note (out_truncated out || truncated o) OutputTruncated a1).
    set (a3 := note (bool_decide (0 < skipped_paths o)%N) SkippedPaths a2).
    destruct (Hnote (timed_out out) Deadline (ws, true)) as [H1 C1]; [done|]. fold a1 in H1, C1.
    destruct (Hnote (out_truncated out || truncated o) OutputTruncated a1 H1) as [H2 C2]. fold a2 in H2, C2.
    destruct (Hnote (bool_decide (0 < skipped_paths o)%N) SkippedPaths a2 H2) as [H3 C3]. fold a3 in H3, C3.
    destruct (Hnote (failed || negb (branch_headers_complete o) && negb (out_truncated out) && negb (timed_out out))
      StatusFailed a3 H3) as [H4 C4].
    destruct (note _ StatusFailed a3) as [warnings complete]. cbn in H4, C4.
    destruct (assemble_spec true o warnings complete max_bytes at_) as (Hf & Hp & Ha & Hcounts & Hc); [done|apply H4|apply H4|].
    destruct (observe_sound toplevel workspace_root max_records (stdout out) Ht Hr) as [He _ _ Htotal].
    split; [done|]. split; [by eapply Forall_prefix|].
    intros [Hcomplete Hentries]%Hc. specialize (C4 Hcomplete) as [Hfailed [Hskip [Htrunc [Htime _]%C1]%C2]%C3].
    unfold whole. rewrite Ha. exists toplevel, pathspec, out.
    change (observe toplevel workspace_root max_records (stdout out)) with o.
    subst failed. rewrite !orb_false_iff, !andb_false_iff, !negb_false_iff in Hfailed.
    destruct Hfailed as [[[Hmal Hio] Hquiet] Hheaders]. rewrite orb_false_iff in Htrunc. destruct Htrunc as [Hot Htr].
    apply bool_decide_eq_false in Hmal, Hskip.
    assert (Hsucc : succeeded out = true).
    { unfold quietly_failed in Hquiet. rewrite Hspawn, Htime, Hot in Hquiet. by apply negb_false_iff in Hquiet. }
    assert (Hhead : branch_headers_complete o = true) by (rewrite Hot, Htime in Hheaders; naive_solver).
    split_and!; try done; [rewrite Hcounts, Hentries; exact Htotal|lia|lia].
Qed.

(** C34 Whatever git does, an answer to a status query fits its budget, its entries are
    paths inside the workspace with git's own status characters, one that is not complete
    says why, and one that says it is complete is: every record of git's whole, successful
    output was read, nothing was skipped, and the counters count exactly the entries; or
    git said for certain that there is no work tree. *)
Theorem status_complete {E} (run_git : GitCommand → result E GitOutput) canonical_dir max_records max_bytes at_ workspace_root r :
  canonical workspace_root → (∀ p t, canonical_dir p = Some t → canonical t) → (MIN_RESULT_BYTES <= max_bytes)%N →
  status_with_deadline run_git canonical_dir max_records max_bytes at_ workspace_root = Ok r →
  (status_len r <= max_bytes)%N ∧ Forall good_entry (r_entries r) ∧ (r_complete r = false → r_warnings r ≠ []) ∧
  (r_complete r = true → whole run_git max_records workspace_root r).
Proof using Hlaws.
  intros Hroot Hdir Hmin. unfold status_with_deadline.
  assert (Hun : ∀ ws (complete : bool), NoDup ws → (complete = false → ws ≠ []) →
    (complete = true → ∃ out, run_git IsBareRepository = Ok out ∧ succeeded out = true ∧ is_definite (stdout out) = true) →
    @Ok E WorkspaceStatusResult (assemble false Observation_default ws complete max_bytes at_) = Ok r →
    (status_len r <= max_bytes)%N ∧ Forall good_entry (r_entries r) ∧ (r_complete r = false → r_warnings r ≠ []) ∧
    (r_complete r = true → whole run_git max_records workspace_root r)).
  { intros ws complete Hws Hc Hdef [= <-].
    destruct (assemble_spec false Observation_default ws complete max_bytes at_) as ([Hs Hi] & Hp & Ha & _ & Hcomplete);
      [done|done|done|]. split; [done|]. split; [by eapply Forall_prefix|]. split; [done|].
    intros [-> _]%Hcomplete. unfold whole. rewrite Ha. by apply Hdef. }
  assert (H1 : ∀ w : WorkspaceStatusWarning, NoDup [w]) by (intros; apply NoDup_singleton).
  destruct (run_git ShowToplevel) as [probe|] eqn:Hprobe; cbn; [|done].
  destruct (failure_warning probe); [by apply Hun|].
  destruct (succeeded probe) eqn:Hsucc.
  - destruct (repository_root canonical_dir (stdout probe)) as [toplevel|] eqn:Htop; [|by apply Hun].
    assert (Ht : canonical toplevel).
    { unfold repository_root in Htop. destruct (from_utf8 (stdout probe)); [|done]. cbn in Htop.
      case_decide; [done|]. by eapply Hdir. }
    destruct (workspace_pathspec workspace_root toplevel) as [pathspec|]; [|by apply Hun].
    destruct (run_git (StatusOf toplevel pathspec)) as [out|] eqn:Hout; cbn; [|done]. intros [= <-].
    set (ws := if decide (pathspec = lit ".") then [] else [NestedRepository]).
    assert (Hws : NoDup ws) by (subst ws; destruct (decide (pathspec = lit ".")); [constructor|done]).
    destruct (status_answer_spec run_git toplevel pathspec workspace_root ws out max_records max_bytes at_)
      as ([Hs Hi] & He & Hc); done.
  - destruct (run_git IsBareRepository) as [classify|] eqn:Hclass; cbn; [|done].
    destruct (failure_warning classify); [by apply Hun|].
    destruct (succeeded classify) eqn:Hs; cbn; [|by apply Hun].
    destruct (is_definite (stdout classify)) eqn:Hd; [|by apply Hun].
    apply Hun; [by apply NoDup_nil|done|]. intros _. by exists classify.
Qed.
End answer.

Module StatusSample.
(** A work tree at [/w] whose workspace is [/w/a]. *)
Definition name (s : string) : Component := Normal (lit s).
Definition top : list Component := [RootDir; name "w"].
Definition root : list Component := [RootDir; name "w"; name "a"].
Lemma top_canonical : canonical top.
Proof. exists [name "w"]. split; [done|]. repeat constructor; try done; unfold SLASH; set_solver. Qed.
Lemma root_canonical : canonical root.
Proof. exists [name "w"; name "a"]. split; [done|]. repeat constructor; try done; unfold SLASH; set_solver. Qed.

Definition mid (n : nat) : list (list N) := repeat (lit "N") n.
Definition sample : list GitRecord :=
  [GHeader (lit "branch.oid") (lit "(initial)"); GHeader (lit "branch.head") (lit "main");
   GOrdinary DOT 77 (mid 6) (lit "a/two words"); GRenamed 82 DOT (mid 7) (lit "a/new") (lit "old");
   GUntracked (lit "elsewhere"); GUnmerged 85 85 (mid 8) (lit "a/x")].
Lemma sample_good : Forall good_record sample.
Proof.
  assert (Hc : DOT ∈ STATUS_CODES ∧ 77%N ∈ STATUS_CODES ∧ 82%N ∈ STATUS_CODES ∧ 85%N ∈ STATUS_CODES)
    by (split_and!; by apply (bool_decide_unpack _)).
  destruct Hc as (Hdot & H77 & H82 & H85).
  assert (Hf : ∀ n, Forall good_field (mid n)).
  { intros n. apply Forall_forall. intros f Hf. apply list_elem_of_In, repeat_spec in Hf as ->. unfold good_field, SPACE. set_solver. }
  repeat constructor; try done; try apply Hf; by apply (bool_decide_unpack _).
Qed.

Lemma status_roundtrip_witness :
  (canonical top ∧ canonical root ∧ Forall good_record sample ∧ take 40 (print_status sample) `prefix_of` print_status sample) ∧
  observe top root 10 (print_status sample) = foldl (report top root 10) Observation_default sample ∧
  entries (observe top root 10 (take 40 (print_status sample))) `prefix_of` entries (observe top root 10 (print_status sample)) ∧
  map path (entries (observe top root 10 (print_status sample))) = [lit "two words"; lit "new"; lit "x"].
Proof.
  pose proof (prefix_take (print_status sample) 40) as Hcut.
  destruct (status_roundtrip top root 10 sample _ _ top_canonical root_canonical sample_good Hcut) as [H1 H2].
  split; [exact (conj top_canonical (conj root_canonical (conj sample_good Hcut)))|].
  split; [exact H1|]. split; [exact H2|]. vm_compute. reflexivity.
Defined.

Definition entry_size (e : WorkspaceStatusEntry) : N := 50 + str_len (path e).
#[local] Instance sizes : StatusEncoding := {|
  entry_len := entry_size;
  status_len r :=
    (400 + 25 * N.min 6 (lenN (r_warnings r)) + foldr (λ e n, entry_size e + 1 + n) 0 (r_entries r))%N
|}.
#[local] Instance sizes_laws : StatusEncodingLaws.
Proof.
  split; intros r; unfold status_len, entry_len, sizes, envelope, fallback, with_tail; cbn [r_warnings r_entries r_complete foldr].
  - lia.
  - intros -> _. change (lenN all_warnings) with 6%N. cbn [foldr]. lia.
  - change (lenN [StatusFailed]) with 1%N. unfold MIN_RESULT_BYTES. lia.
Qed.

Definition git (c : GitCommand) : result unit GitOutput :=
  match c with
  | ShowToplevel => Ok (mkOutput (lit "/w" ++ [LF]) (Some 0%Z) false false false false)
  | IsBareRepository => Err tt
  | StatusOf _ _ => Ok (mkOutput (print_status sample) (Some 0%Z) false false false false)
  end.
Definition dirs (p : str) : option (list Component) := if decide (p = lit "/w") then Some top else None.
Definition answer : WorkspaceStatusResult :=
  match status_with_deadline git dirs 10 2000 0 root with Ok r => r | Err _ => mkResult false None None false 0 0 0 0 [] 0 false [] 0 end.

Lemma status_complete_witness :
  (canonical root ∧ (∀ p t, dirs p = Some t → canonical t) ∧ (MIN_RESULT_BYTES <= 2000)%N ∧
   status_with_deadline git dirs 10 2000 0 root = Ok answer) ∧
  ((status_len answer <= 2000)%N ∧ Forall good_entry (r_entries answer) ∧ (r_complete answer = false → r_warnings answer ≠ []) ∧
   (r_complete answer = true → whole git 10 root answer)) ∧
  r_complete answer = true ∧ map path (r_entries answer) = [lit "two words"; lit "new"; lit "x"] ∧ r_warnings answer = [NestedRepository].
Proof.
  assert (Hdirs : ∀ p t, dirs p = Some t → canonical t).
  { unfold dirs. intros p t. case_decide; [|done]. intros [= <-]. exact top_canonical. }
  assert (Hmin : (MIN_RESULT_BYTES <= 2000)%N) by (unfold MIN_RESULT_BYTES; lia).
  assert (Hrun : status_with_deadline git dirs 10 2000 0 root = Ok answer) by (vm_compute; reflexivity).
  split; [exact (conj root_canonical (conj Hdirs (conj Hmin Hrun)))|].
  split; [exact (status_complete git dirs 10 2000 0 root answer root_canonical Hdirs Hmin Hrun)|].
  split; [vm_compute; reflexivity|]. split; vm_compute; reflexivity.
Defined.
End StatusSample.
