(* ===== verification/Changes.v ===== *)
(** The changes of a session, [changes.rs], with the scan and the blobs of
    [store/tool_records/cold_read.rs] they rest on.

    A list of changes is merged from the calls in memory and the records on disk, or made
    from the status of the workspace, and served in pages: a cursor carries the place in
    the list and a digest of all of it.  What a query finds on disk, the sizes and bytes
    of values as JSON, SHA-256 and the clock are arguments. *)

From stdpp Require Import sorting.
From S2P Require Import Prelude RustStr Errors ToolRecord.
From S2P Require ToolData Diff Status History HistoryPage.
Open Scope N_scope.

Definition MAX_CHANGE_SNAPSHOT_BYTES : N := 512 * 1024.
Definition MAX_CHANGE_LIMIT : N := 1000.
Definition DEFAULT_CHANGE_MAX_BYTES : N := 64 * 1024.
Definition MIN_CHANGE_MAX_BYTES : N := 1024.
Definition MAX_CHANGE_MAX_BYTES : N := 256 * 1024.
Definition CHANGE_SCAN_BLOB_BYTES : N := 16 * 1024 * 1024.

(** ** Records, requests and results *)

Inductive ChangeOrigin := OriginTool | WorkspaceUnknown.
Inductive ChangeListConsistency := Live | Cold.
Inductive ChangeListWarning := NoRepository | StatusIncomplete | DetailsUnavailable | RecordsSkipped | StaleCursor.
#[global] Instance ChangeOrigin_eq_dec : EqDecision ChangeOrigin.
Proof. solve_decision. Defined.
#[global] Instance ChangeListWarning_eq_dec : EqDecision ChangeListWarning.
Proof. solve_decision. Defined.

Inductive ChangeRef :=
  | ToolChange (tool_ref : ToolRef) (revision : str)
  | WorkspaceChange (session_id : N) (head_oid : str) (entry : Status.WorkspaceStatusEntry).
#[global] Instance ChangeRef_eq_dec : EqDecision ChangeRef.
Proof. solve_decision. Defined.

Record ChangeRecord := mkRecord {
  change_ref : ChangeRef;
  c_path : str;
  c_kind : ChangeKind;
  c_origin : ChangeOrigin;
  c_tool_ref : option ToolRef;
  c_original_path : option str;
  c_before : ChangeRevision;
  c_after : ChangeRevision;
  c_commit_state : ChangeCommitState;
  details_available : bool;
  c_coverage : ChangeCoverage
}.
Definition with_details (available : bool) (r : ChangeRecord) : ChangeRecord :=
  mkRecord (change_ref r) (c_path r) (c_kind r) (c_origin r) (c_tool_ref r) (c_original_path r) (c_before r) (c_after r)
    (c_commit_state r) available (c_coverage r).

Inductive ChangeScope := ScopeWorkspace | ScopeSession | ScopeTurn (loop_id : N).
#[global] Instance ChangeScope_eq_dec : EqDecision ChangeScope.
Proof. solve_decision. Defined.

Record ChangeCursor := mkCursor {
  cursor_session : N; cursor_scope : ChangeScope; cursor_offset : N; cursor_observation : option str
}.
Record ChangesListRequest := mkRequest {
  q_session : N; q_scope : ChangeScope; q_cursor : option ChangeCursor; q_limit : N; q_max_bytes : option N
}.
Record ChangesListResult := mkResult {
  l_session : N;
  l_scope : ChangeScope;
  l_records : list ChangeRecord;
  l_next_cursor : option ChangeCursor;
  l_total : N;
  l_complete : bool;
  l_stale : bool;
  l_consistency : ChangeListConsistency;
  l_observed_at_unix_ms : option N;
  l_warnings : list ChangeListWarning
}.

Definition validate (q : ChangesListRequest) : result fault unit :=
  _ ← ensure (1 <= q_limit q <= MAX_CHANGE_LIMIT) (Fails InvalidArguments);
  _ ← ensure (from_option (λ value, bool_decide (MIN_CHANGE_MAX_BYTES <= value <= MAX_CHANGE_MAX_BYTES)) true (q_max_bytes q) = true)
        (Fails InvalidArguments);
  match q_cursor q with
  | None => Ok tt
  | Some cursor =>
      _ ← ensure (cursor_session cursor = q_session q ∧ cursor_scope cursor = q_scope q) (Fails InvalidArguments);
      _ ← ensure (¬ (0 < cursor_offset cursor ∧ cursor_observation cursor = None)) (Fails InvalidArguments);
      ensure (from_option HistoryPage.valid_sha256 true (cursor_observation cursor) = true) (Fails InvalidArguments)
  end.
Definition max_bytes (q : ChangesListRequest) : N := default DEFAULT_CHANGE_MAX_BYTES (q_max_bytes q).
Definition offset_of (q : ChangesListRequest) : N := from_option cursor_offset 0 (q_cursor q).

(** The cursor was given for another list. *)
Definition stale_cursor (q : ChangesListRequest) (observation : str) : bool :=
  from_option (λ o, negb (bool_decide (o = observation))) false (q_cursor q ≫= cursor_observation).

Definition push_warning (warning : ChangeListWarning) (warnings : list ChangeListWarning) : list ChangeListWarning :=
  if decide (warning ∈ warnings) then warnings else warnings ++ [warning].

(** A record found on disk, with the time it was observed at. *)
Definition found : Type := ToolRef * StoredFileChange * option str.

(** SHA-256 in hexadecimal, and values as JSON. *)
Class ChangeEncoding := {
  hash_bytes : list N → str;
  ref_bytes : ToolRef → StoredFileChange → list N;
  change_ref_bytes : ChangeRef → list N;
  scan_bytes : list found → bool → N → N → list N;
  observations_bytes : str → bool → list (ChangeRef * ChangeCoverage) → list N;
  status_bytes : Status.WorkspaceStatusResult → list N;
  record_len : ChangeRecord → N;
  cursor_len : option ChangeCursor → N;
  result_len : ChangesListResult → N
}.

Section changes.
Context `{ChangeEncoding}.

(** ** From a change to its record *)

Definition stored_tool_change_ref (tool_ref : ToolRef) (change : StoredFileChange) : ChangeRef :=
  ToolChange tool_ref (hash_bytes (ref_bytes tool_ref change)).

Definition stored_record (tool_ref : ToolRef) (details_available : bool) (change : StoredFileChange) : ChangeRecord :=
  mkRecord (stored_tool_change_ref tool_ref change) (change_path change) (kind change) OriginTool (Some tool_ref) None
    (before change) (after change) (commit_state change) details_available (coverage change).

Definition revision_matches_snapshot (revision : ChangeRevision) (bytes : option (list N)) (allow_missing : bool) : bool :=
  match revision, bytes with
  | Missing, None => allow_missing
  | Content sha256 size, Some value => bool_decide (size = lenN value) && bool_decide (hash_bytes value = sha256)
  | _, _ => false
  end.
Definition before_available (c : FileChange) : bool :=
  before_captured (stored c) && negb (before_corrupt c)
  && revision_matches_snapshot (before (stored c)) (contents <$> before_bytes c) true.
Definition after_available (c : FileChange) : bool :=
  after_captured (stored c) && negb (after_corrupt c)
  && revision_matches_snapshot (after (stored c)) (contents <$> after_bytes c) false.
Definition change_record (tool_ref : ToolRef) (c : FileChange) : ChangeRecord :=
  stored_record tool_ref (before_available c && after_available c) (stored c).

Definition in_scope (session_id : N) (loop_id : option N) (tool_ref : ToolRef) : bool :=
  bool_decide (ref_session tool_ref = session_id) && from_option (λ l, bool_decide (ref_loop tool_ref = l)) true loop_id.

Definition file_change_records (session_id : N) (loop_id : option N) (inner : ToolData.ToolDataInner) : list ChangeRecord :=
  omap (λ tool_ref, record ← ToolData.records inner !! tool_ref; change_record tool_ref <$> file_change record)
    (filter (λ tool_ref, in_scope session_id loop_id tool_ref = true) (ToolData.order inner)).

(** ** The scan of the disk *)

Record ToolChangeScan := mkScan {
  scan_records : list (ToolRef * StoredFileChange);
  observed_at : gmap ToolRef (option str);
  skipped : bool;
  scan_observation : str
}.

Definition unavailable : ToolChangeScan := mkScan [] ∅ true (hash_bytes (lit "change-scan-store-unavailable")).

(** The order of strings, and of the times that may be missing. *)
Fixpoint str_le (a b : str) : bool :=
  match a, b with
  | [], _ => true
  | _ :: _, [] => false
  | c :: a, d :: b => bool_decide (c < d) || bool_decide (c = d) && str_le a b
  end.
Definition time_le (a b : option str) : bool :=
  match a, b with None, _ => true | Some _, None => false | Some a, Some b => str_le a b end.

Definition scan_key_le (a b : found) : Prop :=
  let '(r, _, t) := a in let '(r', _, t') := b in
  (if decide (t = t') then
     bool_decide (ref_loop r < ref_loop r') || bool_decide (ref_loop r = ref_loop r') &&
     (bool_decide (ref_request r < ref_request r') || bool_decide (ref_request r = ref_request r') &&
      str_le (ref_call r) (ref_call r'))
   else time_le t t') = true.
#[export] Instance scan_key_le_dec : RelDecision scan_key_le.
Proof. intros [[r c] t] [[r' c'] t']. unfold scan_key_le. apply _. Defined.

Definition make_tool_change_scan (records : list found) (skipped : bool) (entries metadata_bytes : N) : ToolChangeScan :=
  let records := merge_sort scan_key_le records in
  mkScan records.*1 (list_to_map ((λ r, (r.1.1, r.2)) <$> reverse records)) skipped
    (hash_bytes (scan_bytes records skipped entries metadata_bytes)).

(** ** Merging memory and disk *)

Definition compatible_change (record : ChangeRecord) (tool_ref : ToolRef) (change : StoredFileChange) : bool :=
  bool_decide (c_origin record = OriginTool) && bool_decide (c_tool_ref record = Some tool_ref)
  && bool_decide (change_ref record = stored_tool_change_ref tool_ref change)
  && bool_decide (c_path record = change_path change) && bool_decide (c_kind record = kind change)
  && bool_decide (c_before record = before change) && bool_decide (c_after record = after change)
  && bool_decide (c_commit_state record = commit_state change) && bool_decide (c_coverage record = coverage change).

(** The leading elements a test holds of, and the rest. *)
Fixpoint span {A} (f : A → bool) (l : list A) : list A * list A :=
  match l with
  | [] => ([], [])
  | x :: l => if f x then let (a, b) := span f l in (x :: a, b) else ([], x :: l)
  end.

(** [unwrap] of the call a record in memory belongs to. *)
Definition owner (record : ChangeRecord) : result fault ToolRef := ok_or (c_tool_ref record) Panics.

Section merge.
Context (scan : ToolChangeScan).

(** A record in memory that was observed no later than [time]. *)
Definition due (time : option str) (record : ChangeRecord) : bool :=
  match c_tool_ref record ≫= (λ tool_ref, observed_at scan !! tool_ref) with
  | Some (Some warm_time) => time_le (Some warm_time) time
  | _ => false
  end.
Fixpoint merge_loop (cold : list (option str * ChangeRecord)) (warm : list ChangeRecord) : list ChangeRecord :=
  match cold with
  | [] => warm
  | (time, record) :: cold => let (early, warm) := span (due time) warm in early ++ record :: merge_loop cold warm
  end.

(** The records only the disk has, and whether the others agree. *)
Fixpoint cold_records (by_ref : gmap ToolRef ChangeRecord) (found : list (ToolRef * StoredFileChange))
    : result fault (list (option str * ChangeRecord) * bool) :=
  match found with
  | [] => Ok ([], true)
  | (tool_ref, change) :: found =>
      match by_ref !! tool_ref with
      | Some record =>
          '(cold, compatible) ← cold_records by_ref found;
          Ok (cold, compatible_change record tool_ref change && compatible)
      | None =>
          time ← ok_or (observed_at scan !! tool_ref) Panics;
          '(cold, compatible) ← cold_records by_ref found;
          Ok ((time, stored_record tool_ref false change) :: cold, compatible)
      end
  end.

Definition merge_tool_records (warm : list ChangeRecord) : result fault (list ChangeRecord * bool) :=
  by_ref ← mapM (λ record, tool_ref ← owner record; Ok (tool_ref, record)) warm;
  '(cold, compatible) ← cold_records (list_to_map (reverse by_ref)) (scan_records scan);
  Ok (merge_loop cold warm, compatible).
End merge.

(** ** Pages *)

Definition tool_observation (records : list ChangeRecord) (scan_observation : str) (complete : bool) : str :=
  hash_bytes (observations_bytes scan_observation complete ((λ r, (change_ref r, c_coverage r)) <$> records)).

Definition encoded_result (r : ChangesListResult) (max_bytes : N) : result fault ChangesListResult :=
  if decide (max_bytes < result_len r) then Err (Fails InvalidArguments) else Ok r.

Section queries.
(** The clock and the cancellation, looked at time after time. *)
Context (expired : N → bool).
Abbreviation M := (stm N fault).
Abbreviation check_budget := (Diff.check_budget expired).

(** What is served beside the records of a page. *)
Record Envelope := mkEnvelope {
  e_observation : str;
  e_consistency : ChangeListConsistency;
  e_observed_at_unix_ms : option N;
  e_warnings : list ChangeListWarning;
  e_complete : bool
}.

Definition next_cursor (q : ChangesListRequest) (observation : str) (total offset : N) : option ChangeCursor :=
  if decide (offset < total) then Some (mkCursor (q_session q) (q_scope q) offset (Some observation)) else None.

Fixpoint plan_loop (q : ChangesListRequest) (observation : str) (total base_bytes : N) (records : list ChangeRecord)
    (record_bytes page_end : N) : M N :=
  match records with
  | [] => mret page_end
  | record :: records =>
      _ ← check_budget;
      let record_bytes := record_bytes + (record_len record + (if decide (offset_of q < page_end) then 1 else 0)) in
      if decide (max_bytes q < base_bytes + record_bytes + cursor_len (next_cursor q observation total (page_end + 1)))
      then mret page_end
      else plan_loop q observation total base_bytes records record_bytes (page_end + 1)
  end.

Definition plan_header (q : ChangesListRequest) (e : Envelope) (total : N) : ChangesListResult :=
  let reserved := push_warning RecordsSkipped (push_warning DetailsUnavailable (e_warnings e)) in
  mkResult (q_session q) (q_scope q) [] None total false false (e_consistency e) (e_observed_at_unix_ms e) reserved.

Definition plan_page_end (q : ChangesListRequest) (records : list ChangeRecord) (e : Envelope) (page_end : option N) : M N :=
  let total := lenN records in
  let offset := offset_of q in
  _ ← throw_if (total < offset) (Fails InvalidArguments);
  let bound := N.max (N.min (default total page_end) total) offset in
  let base_bytes := result_len (plan_header q e total) - cursor_len None in
  page_end ← plan_loop q (e_observation e) total base_bytes
               (take (N.to_nat (q_limit q)) (take (N.to_nat (bound - offset)) (drop (N.to_nat offset) records))) 0 offset;
  _ ← throw_if (page_end = offset ∧ offset < total) (Fails InvalidArguments);
  mret page_end.

(** [records[offset..end]] *)
Definition slice {A} (l : list A) (first last : N) : list A := take (N.to_nat (last - first)) (drop (N.to_nat first) l).

Definition page_records (q : ChangesListRequest) (records : list ChangeRecord) (e : Envelope) (page_end : option N)
    : M ChangesListResult :=
  _ ← lift (validate q);
  let warnings := filter (λ w, w ≠ DetailsUnavailable) (e_warnings e) in
  let e := mkEnvelope (e_observation e) (e_consistency e) (e_observed_at_unix_ms e) warnings (e_complete e) in
  let total := lenN records in
  let offset := offset_of q in
  let result records next complete stale warnings :=
    lift (encoded_result (mkResult (q_session q) (q_scope q) records next total complete stale (e_consistency e)
                            (e_observed_at_unix_ms e) warnings) (max_bytes q)) in
  if stale_cursor q (e_observation e) then
    result [] None false true (push_warning StaleCursor warnings)
  else
    _ ← throw_if (total < offset) (Fails InvalidArguments);
    page_end ← plan_page_end q records e page_end;
    _ ← check_budget;
    let page := slice records offset page_end in
    let warnings := if existsb (λ r, negb (details_available r)) page then push_warning DetailsUnavailable warnings else warnings in
    result page (next_cursor q (e_observation e) total page_end) (e_complete e) false warnings.

(** ** The snapshots on disk *)

(** What is left of a file of the snapshot, when it can be opened and read. *)
Definition read_change_blob (file : option (list N)) (revision : ChangeRevision) : option (list N) * bool :=
  match revision with
  | Content sha256 size =>
      if decide (MAX_CHANGE_SNAPSHOT_BYTES < size) then (None, true)
      else if negb (HistoryPage.valid_sha256 sha256) then (None, true)
      else match file with
           | None => (None, true)
           | Some file =>
               let value := take (N.to_nat (size + 1)) file in
               if decide (lenN value ≠ size ∨ hash_bytes value ≠ sha256) then (None, true) else (Some value, false)
           end
  | _ => (None, false)
  end.

(** A cancellation or the deadline may cut the reading short, and is looked at after it. *)
Definition change_blob_present (file : option (list N)) (revision : ChangeRevision) : M bool :=
  match revision with
  | Content _ _ =>
      _ ← check_budget;
      let '(value, corrupt) := read_change_blob file revision in
      _ ← check_budget;
      mret (bool_decide (is_Some value) && negb corrupt)
  | _ => mret true
  end.

Definition change_blob_read_cost (revision : ChangeRevision) : N :=
  match revision with Content _ size => saturating_add size 1 | _ => 0 end.

Record ChangeBlobBudget := mkBlobBudget { used_bytes : N; exhausted : bool }.

(** The files of the two snapshots of a call. *)
Context (disk : ToolRef → option (list N) * option (list N)).

Definition change_blobs_available (tool_ref : ToolRef) (change : StoredFileChange) (budget : ChangeBlobBudget)
    : M (bool * ChangeBlobBudget) :=
  _ ← check_budget;
  let readable := match before change with Missing | Content _ _ => true | _ => false end
                  && match after change with Content _ _ => true | _ => false end in
  if negb (before_captured change && after_captured change && readable) then mret (false, budget) else
  let required := saturating_add (change_blob_read_cost (before change)) (change_blob_read_cost (after change)) in
  if decide (CHANGE_SCAN_BLOB_BYTES < saturating_add (used_bytes budget) required)
  then mret (false, mkBlobBudget (used_bytes budget) true) else
  let budget := mkBlobBudget (saturating_add (used_bytes budget) required) (exhausted budget) in
  before ← change_blob_present (disk tool_ref).1 (before change);
  after ← change_blob_present (disk tool_ref).2 (after change);
  mret (before && after, budget).

(** ** Changes of tool calls *)

(** The records of the page, with what the disk still has of their snapshots, and whether
    the budget for reading them was exhausted. *)
Fixpoint verify_loop (stored : gmap ToolRef StoredFileChange) (budget : ChangeBlobBudget) (page : list ChangeRecord)
    : M (list ChangeRecord * bool) :=
  match page with
  | [] => mret ([], false)
  | record :: page =>
      let next budget record := '(page, out) ← verify_loop stored budget page; mret (record :: page, out) in
      if details_available record then next budget record else
      match c_tool_ref record with
      | None => next budget record
      | Some tool_ref =>
          match stored !! tool_ref with
          | None => next budget record
          | Some change =>
              if negb (compatible_change record tool_ref change) then next budget record else
              '(available, budget) ← change_blobs_available tool_ref change budget;
              let record := with_details available record in
              if exhausted budget then mret (record :: page, true) else next budget record
          end
      end
  end.

(** What the scan found: the records, whether it skipped any, and its budget. *)
Definition Scanned : Type := result History.StoreError (list found * bool * N * N).

Definition from_store (e : History.StoreError) : AgentError :=
  match e with
  | History.SessionNotFound => SessionNotFound
  | History.SessionAlreadyExists | History.InvalidRoot | History.InvalidRecord | History.UnsupportedFormat
  | History.Corrupt | History.RecordTooLarge => Store
  | History.Unavailable => StoreUnavailable
  | History.HistoryChanged => InvalidState
  | History.QueryLimit => QueryLimit
  | History.InvalidArguments => InvalidArguments
  end.

Definition loop_of (scope : ChangeScope) : option N := match scope with ScopeTurn loop_id => Some loop_id | _ => None end.

(** The scan, or its substitute while memory still has records. *)
Definition scan_or_unavailable (scanned : Scanned) (warm_records : list ChangeRecord) : result fault ToolChangeScan :=
  match scanned with
  | Ok (records, skipped, entries, metadata_bytes) => Ok (make_tool_change_scan records skipped entries metadata_bytes)
  | Err error =>
      if decide (from_store error = QueryLimit ∨ warm_records = []) then Err (Fails (from_store error)) else Ok unavailable
  end.

Definition list_tool_changes (q : ChangesListRequest) (warm : option ToolData.ToolDataInner) (scanned : Scanned)
    : M ChangesListResult :=
  _ ← lift (validate q);
  _ ← check_budget;
  let warm_records := from_option (file_change_records (q_session q) (loop_of (q_scope q))) [] warm in
  scan ← lift (scan_or_unavailable scanned warm_records);
  '(records, compatible) ← lift (merge_tool_records scan warm_records);
  let complete := negb (skipped scan) && compatible in
  let warnings := if complete then [] else [RecordsSkipped] in
  let observation := tool_observation records (scan_observation scan) complete in
  let consistency := if decide (is_Some warm) then Live else Cold in
  let e := mkEnvelope observation consistency None warnings complete in
  if stale_cursor q observation then page_records q records e None
  else
    page_end ← plan_page_end q records e None;
    let offset := offset_of q in
    let page := slice records offset page_end in
    verified ← verify_loop (list_to_map (reverse (scan_records scan))) (mkBlobBudget 0 false) page;
    let (page, out) := (verified : list ChangeRecord * bool) in
    let records := take (N.to_nat offset) records ++ page ++ drop (N.to_nat offset + length page)%nat records in
    let e := if out then mkEnvelope observation consistency None (push_warning RecordsSkipped warnings) false else e in
    page_records q records e (Some page_end).

(** ** Changes of the workspace *)

Definition workspace_kind (entry : Status.WorkspaceStatusEntry) : ChangeKind :=
  match Status.kind entry with
  | Status.Renamed => Renamed
  | Status.Unmerged => KindConflict
  | Status.Untracked => Added
  | Status.Ordinary =>
      let any (status : str) := bool_decide (Status.index_status entry = Some status ∨ Status.worktree_status entry = Some status) in
      if any (lit "A") then Added else if any (lit "D") then Deleted else Modified
  end.

Definition workspace_record (session_id : N) (status : Status.WorkspaceStatusResult) (entry : Status.WorkspaceStatusEntry)
    : ChangeRecord :=
  mkRecord (WorkspaceChange session_id (default [] (Status.r_head_oid status)) entry) (Status.path entry)
    (workspace_kind entry) WorkspaceUnknown None (Status.original_path entry) RevisionUnknown RevisionUnknown CommitUnknown
    false CoverageUnavailable.

Definition record_key_le (a b : ChangeRecord) : Prop :=
  (if decide (c_path a = c_path b) then str_le (change_ref_bytes (change_ref a)) (change_ref_bytes (change_ref b))
   else str_le (c_path a) (c_path b)) = true.
#[local] Instance record_key_le_dec : RelDecision record_key_le.
Proof. intros a b. unfold record_key_le. apply _. Defined.

Definition workspace_records (session_id : N) (status : Status.WorkspaceStatusResult)
    : list ChangeRecord * str * list ChangeListWarning :=
  let warnings := (if Status.r_repo_available status then [] else [NoRepository])
                  ++ (if Status.r_complete status then [] else [StatusIncomplete]) in
  let warnings := if decide (0 < Status.r_skipped_paths status) then push_warning RecordsSkipped warnings else warnings in
  (merge_sort record_key_le (workspace_record session_id status <$> Status.r_entries status),
   hash_bytes (status_bytes status), warnings).

Definition list_workspace_changes (q : ChangesListRequest) (status : Status.WorkspaceStatusResult) : M ChangesListResult :=
  _ ← lift (validate q);
  _ ← throw_if (q_scope q ≠ ScopeWorkspace) (Fails InvalidArguments);
  _ ← check_budget;
  let '(records, observation, warnings) := workspace_records (q_session q) status in
  page_records q records
    (mkEnvelope observation Live (Some (Status.r_observed_at_unix_ms status)) warnings (Status.r_complete status)) None.
End queries.
End changes.
#[global] Arguments plan_page_end : simpl never.
#[global] Arguments page_records : simpl never.
#[global] Arguments merge_tool_records : simpl never.
