(* ===== verification/ChangePages.v ===== *)
(** What a client that reads the changes of a session gets, [changes.rs].

    Queries come at any time, fail, are repeated, and the session goes on between them.
    The theorem: the pages a client collected are the list of the world that gave the
    first of them, whole and in order, or a later page told that the list has changed;
    and while nothing changes, the client reaches the end. *)

From stdpp Require Import sorting.
From S2P Require Import Prelude RustStr Errors ToolRecord Changes.
From S2P Require ToolData Diff History HistoryPage.
Open Scope N_scope.

(** A record without what the disk says of its snapshots. *)
Definition facts : ChangeRecord → ChangeRecord := with_details false.

(** [records] as a JSON array, without its brackets. *)
Fixpoint sized `{ChangeEncoding} (started : bool) (records : list ChangeRecord) : N :=
  match records with
  | [] => 0
  | r :: records => record_len r + (if started then 1 else 0) + sized true records
  end.

Definition header_of (r : ChangesListResult) : ChangesListResult :=
  mkResult (l_session r) (l_scope r) [] None (l_total r) (l_complete r) (l_stale r) (l_consistency r)
    (l_observed_at_unix_ms r) (l_warnings r).
Definition with_warnings (complete : bool) (warnings : list ChangeListWarning) (r : ChangesListResult) : ChangesListResult :=
  mkResult (l_session r) (l_scope r) (l_records r) (l_next_cursor r) (l_total r) complete (l_stale r) (l_consistency r)
    (l_observed_at_unix_ms r) warnings.

(** The encodings are injective, SHA-256 is 64 hexadecimal digits, and sizes add up: the
    records and the cursor of a page, more warnings, ["false"] beside ["true"]. *)
Class ChangeEncodingLaws `{ChangeEncoding} : Prop := {
  hash_law b : HistoryPage.valid_sha256 (hash_bytes b) = true;
  ref_bytes_inj r c c' : ref_bytes r c = ref_bytes r c' → c = c';
  observations_inj o b l o' b' l' : observations_bytes o b l = observations_bytes o' b' l' → o = o' ∧ b = b' ∧ l = l';
  result_law r : result_len r + cursor_len None = result_len (header_of r) + sized false (l_records r) + cursor_len (l_next_cursor r);
  null_law r : cursor_len None <= result_len r;
  header_law r (complete : bool) warnings :
    (complete = true → l_complete r = true) → NoDup (l_warnings r) → l_warnings r ⊆ warnings →
    result_len (header_of r) <= result_len (with_warnings complete warnings (header_of r));
  details_law r b : record_len (with_details b r) <= record_len (facts r)
}.

(** ** Outcomes up to the clock *)

(** [m] comes to [o], unless it finds the query expired. *)
Definition clocked {A} (expired : N → bool) (m : stm N fault A) (o : result fault A) : Prop :=
  ∀ n, (m n).2 = o ∨ ((m n).2 = Err (Fails QueryLimit) ∧ ∃ k, expired k = true).

Section clocked.
Context (expired : N → bool).
Abbreviation clocked := (clocked expired).

Lemma clocked_ret {A} (a : A) : clocked (mret a) (Ok a).
Proof. intros n. by left. Qed.
Lemma clocked_lift {A} (r : result fault A) : clocked (lift r) r.
Proof. intros n. by left. Qed.
Lemma clocked_check : clocked (Diff.check_budget expired) (Ok tt).
Proof. intros n. unfold Diff.check_budget. cbn. destruct (expired n) eqn:He; [right; eauto|by left]. Qed.
Lemma clocked_throw_if P `{Decision P} e : clocked (throw_if P e) (if decide P then Err e else Ok tt).
Proof. intros n. left. unfold throw_if. by case_decide. Qed.
Lemma clocked_bind {A B} (m : stm N fault A) (f : A → stm N fault B) r o :
  clocked m r → (∀ a, r = Ok a → clocked (f a) o) → (∀ e, r = Err e → o = Err e) → clocked (m ≫= f) o.
Proof.
  intros Hm Hf He n. unfold mbind, stm_bind. specialize (Hm n). destruct (m n) as [n' [a|e]]; cbn in *.
  - destruct Hm as [<-|[? _]]; [by apply Hf|done].
  - destruct Hm as [<-|[[= ->] Hk]]; [left; symmetry; by apply He|by right].
Qed.
Lemma clocked_ok {A B} (m : stm N fault A) (f : A → stm N fault B) a o :
  clocked m (Ok a) → clocked (f a) o → clocked (m ≫= f) o.
Proof. intros Hm Hf. eapply clocked_bind; [done|by intros ? [= <-]|done]. Qed.
Lemma clocked_err {A B} (m : stm N fault A) (f : A → stm N fault B) e :
  clocked m (Err e) → clocked (m ≫= f) (Err e).
Proof. intros Hm. eapply clocked_bind; [done|done|by intros ? [= <-]]. Qed.
End clocked.

Section pages.
Context `{ChangeEncoding} {HL : ChangeEncodingLaws}.

(** ** Planning a page *)

Section plan.
Context (q : ChangesListRequest) (observation : str) (total : N).

(** Where [plan_loop] stops. *)
Fixpoint planned (base_bytes : N) (records : list ChangeRecord) (record_bytes page_end : N) : N :=
  match records with
  | [] => page_end
  | record :: records =>
      let record_bytes := record_bytes + (record_len record + (if decide (offset_of q < page_end) then 1 else 0)) in
      if decide (max_bytes q < base_bytes + record_bytes + cursor_len (next_cursor q observation total (page_end + 1)))
      then page_end else planned base_bytes records record_bytes (page_end + 1)
  end.

Lemma plan_loop_clocked expired base records rb page_end :
  clocked expired (plan_loop expired q observation total base records rb page_end) (Ok (planned base records rb page_end)).
Proof.
  revert rb page_end. induction records as [|r records IH]; intros rb page_end; cbn; [apply clocked_ret|].
  eapply clocked_ok; [apply clocked_check|]. case_decide; [apply clocked_ret|apply IH].
Qed.

Lemma planned_spec base records rb page_end :
  offset_of q <= page_end →
  ∃ k : nat, planned base records rb page_end = page_end + N.of_nat k ∧ (k <= length records)%nat ∧
    (k = 0%nat ∨ base + (rb + sized (bool_decide (offset_of q < page_end)) (take k records))
                 + cursor_len (next_cursor q observation total (page_end + N.of_nat k)) <= max_bytes q).
Proof.
  revert rb page_end. induction records as [|r records IH]; intros rb page_end Hoff; cbn [planned].
  { exists 0%nat. cbn. split; [lia|]. split; [lia|by left]. }
  case_decide as Hfull; [exists 0%nat; cbn; split; [lia|]; split; [lia|by left]|].
  destruct (IH (rb + (record_len r + (if decide (offset_of q < page_end) then 1 else 0))) (page_end + 1)) as (k & -> & Hk & Hfit); [lia|].
  exists (S k). split; [lia|]. split; [cbn; lia|]. right. cbn [take sized].
  replace (page_end + N.of_nat (S k)) with (page_end + 1 + N.of_nat k) by lia.
  assert (Hsep : (if bool_decide (offset_of q < page_end) then 1 else 0) = (if decide (offset_of q < page_end) then 1 else 0))
    by (by destruct (decide (offset_of q < page_end)); [rewrite bool_decide_eq_true_2|rewrite bool_decide_eq_false_2]).
  destruct (decide (offset_of q < page_end)) as [Hlt|Hlt]; rewrite Hsep; (destruct Hfit as [->|Hfit];
    [change (sized true (take 0 records)) with 0; replace (page_end + 1 + N.of_nat 0) with (page_end + 1) by lia; lia|
     rewrite bool_decide_eq_true_2 in Hfit by lia; lia]).
Qed.

Lemma planned_ge base records rb page_end : page_end <= planned base records rb page_end.
Proof.
  revert rb page_end. induction records as [|r records IH]; intros rb page_end; cbn [planned]; [lia|].
  case_decide; [lia|]. etransitivity; [|apply IH]. lia.
Qed.

(** Smaller records and a smaller header keep what was planned. *)
Lemma planned_again base base' records records' rb rb' page_end k :
  base' <= base → rb' <= rb → planned base records rb page_end = page_end + N.of_nat k →
  Forall2 (λ r r', record_len r' <= record_len r) (take k records) records' →
  planned base' records' rb' page_end = page_end + N.of_nat k.
Proof.
  intros Hb. revert records' rb rb' page_end k. induction records as [|r records IH]; intros records' rb rb' page_end k Hrb Hp Hall;
    cbn [planned] in Hp.
  { assert (k = 0%nat) as -> by lia. cbn in Hall. inversion Hall. cbn. lia. }
  case_decide as Hfull.
  { assert (k = 0%nat) as -> by lia. cbn in Hall. inversion Hall. cbn. lia. }
  destruct k as [|k].
  { match type of Hp with planned ?b ?l ?s ?p = _ => pose proof (planned_ge b l s p) end. lia. }
  cbn [take] in Hall. inversion Hall as [|? r' ? records'' Hr Hrest]; subst. cbn [planned].
  rewrite decide_False; [|lia].
  rewrite (IH records'' (rb + (record_len r + (if decide (offset_of q < page_end) then 1 else 0)))
    (rb' + (record_len r' + (if decide (offset_of q < page_end) then 1 else 0))) (page_end + 1) k); [lia|lia|lia|done].
Qed.
End plan.

(** What [plan_page_end] comes to. *)
Definition base_of (q : ChangesListRequest) (e : Envelope) (total : N) : N := result_len (plan_header q e total) - cursor_len None.
Definition candidates (q : ChangesListRequest) (records : list ChangeRecord) (page_end : option N) : list ChangeRecord :=
  let total := lenN records in
  take (N.to_nat (q_limit q))
    (take (N.to_nat (N.max (N.min (default total page_end) total) (offset_of q) - offset_of q)) (drop (N.to_nat (offset_of q)) records)).
Definition planned_end (q : ChangesListRequest) (records : list ChangeRecord) (e : Envelope) (page_end : option N) : result fault N :=
  let total := lenN records in
  if decide (total < offset_of q) then Err (Fails InvalidArguments) else
  let p := planned q (e_observation e) total (base_of q e total) (candidates q records page_end) 0 (offset_of q) in
  if decide (p = offset_of q ∧ offset_of q < total) then Err (Fails InvalidArguments) else Ok p.

Lemma plan_page_end_clocked expired q records e page_end :
  clocked expired (plan_page_end expired q records e page_end) (planned_end q records e page_end).
Proof.
  unfold plan_page_end, planned_end. destruct (decide (lenN records < offset_of q)) as [Hover|Hover].
  - apply clocked_err. pose proof (clocked_throw_if expired (lenN records < offset_of q) (Fails InvalidArguments)) as Ht.
    by rewrite decide_True in Ht.
  - eapply clocked_ok; [pose proof (clocked_throw_if expired (lenN records < offset_of q) (Fails InvalidArguments)) as Ht;
      rewrite decide_False in Ht by done; exact Ht|].
    eapply clocked_ok; [apply plan_loop_clocked|]. fold (candidates q records page_end) (base_of q e (lenN records)).
    set (p := planned _ _ _ _ _ _ _).
    pose proof (clocked_throw_if expired (p = offset_of q ∧ offset_of q < lenN records) (Fails InvalidArguments)) as Ht.
    destruct (decide (p = offset_of q ∧ offset_of q < lenN records)); [by apply clocked_err|].
    eapply clocked_ok; [exact Ht|apply clocked_ret].
Qed.

Lemma candidates_take q records page_end k :
  (k <= length (candidates q records page_end))%nat →
  take k (candidates q records page_end) = slice records (offset_of q) (offset_of q + N.of_nat k).
Proof.
  unfold candidates, slice. rewrite !length_take. intros Hk. rewrite !take_take.
  replace (offset_of q + N.of_nat k - offset_of q) with (N.of_nat k) by lia. rewrite Nat2N.id. f_equal. lia.
Qed.

(** A planned page, and that it fits. *)
Record plan_ok (q : ChangesListRequest) (records : list ChangeRecord) (e : Envelope) (p : N) : Prop := {
  plan_first : offset_of q <= p;
  plan_last : p <= lenN records;
  plan_limit : p - offset_of q <= q_limit q;
  plan_progress : offset_of q < lenN records → offset_of q < p;
  plan_fits : offset_of q < p →
    base_of q e (lenN records) + sized false (slice records (offset_of q) p)
      + cursor_len (next_cursor q (e_observation e) (lenN records) p) <= max_bytes q
}.

Lemma planned_end_ok q records e page_end p :
  planned_end q records e page_end = Ok p → plan_ok q records e p.
Proof.
  unfold planned_end. case_decide as Hover; [done|].
  destruct (planned_spec q (e_observation e) (lenN records) (base_of q e (lenN records)) (candidates q records page_end) 0
    (offset_of q)) as (k & -> & Hk & Hfit); [lia|].
  destruct (decide (offset_of q + N.of_nat k = offset_of q ∧ offset_of q < lenN records)) as [|Hempty]; [done|]. intros [= <-].
  pose proof (candidates_take q records page_end k Hk) as Htake.
  assert (Hlen : (k <= N.to_nat (q_limit q))%nat ∧ (k <= length records - N.to_nat (offset_of q))%nat).
  { unfold candidates in Hk. rewrite !length_take, length_drop in Hk. lia. }
  split; [lia|unfold lenN in *; lia|lia|lia|]. intros Hlt. destruct Hfit as [->|Hfit]; [lia|].
  rewrite <- Htake. rewrite bool_decide_eq_false_2 in Hfit by lia. lia.
Qed.

(** Planning again with the page's end, when the records only got smaller. *)
Lemma slice_length {A} (l : list A) a b : a <= b → b <= lenN l → lenN (slice l a b) = b - a.
Proof. unfold slice, lenN. intros. rewrite length_take, length_drop. lia. Qed.

Lemma planned_end_again q records records' e e' p :
  planned_end q records e None = Ok p → lenN records' = lenN records → e_observation e' = e_observation e →
  base_of q e' (lenN records) <= base_of q e (lenN records) →
  Forall2 (λ r r', record_len r' <= record_len r) (slice records (offset_of q) p) (slice records' (offset_of q) p) →
  planned_end q records' e' (Some p) = Ok p.
Proof.
  intros Hp Hlen Hobs Hbase Hall. destruct (planned_end_ok _ _ _ _ _ Hp) as [Hfirst Hlast Hlimit Hprog _].
  unfold planned_end in Hp |- *. rewrite Hlen, Hobs. case_decide as Hover; [done|].
  destruct (planned_spec q (e_observation e) (lenN records) (base_of q e (lenN records)) (candidates q records None) 0
    (offset_of q)) as (k & Hplanned & Hk & _); [lia|].
  assert (Hpk : p = offset_of q + N.of_nat k) by (rewrite Hplanned in Hp; case_decide; [done|by injection Hp]).
  assert (Hcand : candidates q records' (Some p) = slice records' (offset_of q) p).
  { unfold candidates, slice. change (default (lenN records') (Some p)) with p. rewrite Hlen, take_take. f_equal. lia. }
  rewrite Hcand. rewrite (planned_again q (e_observation e) (lenN records) (base_of q e (lenN records)) _ (candidates q records None)
    _ 0 0 (offset_of q) k);
    [|done|lia|done|].
  - rewrite Hplanned in Hp. done.
  - rewrite candidates_take by done. by rewrite <- Hpk.
Qed.

(** ** A page *)

Definition kept_warnings (e : Envelope) : Envelope :=
  mkEnvelope (e_observation e) (e_consistency e) (e_observed_at_unix_ms e)
    (filter (λ w, w ≠ DetailsUnavailable) (e_warnings e)) (e_complete e).
Definition page_warnings (e : Envelope) (page : list ChangeRecord) : list ChangeListWarning :=
  if existsb (λ r, negb (details_available r)) page then push_warning DetailsUnavailable (e_warnings (kept_warnings e))
  else e_warnings (kept_warnings e).
Definition page_of (q : ChangesListRequest) (records : list ChangeRecord) (e : Envelope) (p : N) : ChangesListResult :=
  let page := slice records (offset_of q) p in
  mkResult (q_session q) (q_scope q) page (next_cursor q (e_observation e) (lenN records) p) (lenN records) (e_complete e)
    false (e_consistency e) (e_observed_at_unix_ms e) (page_warnings e page).

Lemma page_records_clocked expired q records e page_end :
  validate q = Ok tt → stale_cursor q (e_observation e) = false →
  clocked expired (page_records expired q records e page_end)
    (p ← planned_end q records (kept_warnings e) page_end; encoded_result (page_of q records e p) (max_bytes q)).
Proof.
  intros Hv Hs. unfold page_records. eapply clocked_ok; [rewrite Hv; apply clocked_lift|]. cbn zeta.
  change (e_observation (mkEnvelope _ _ _ _ _)) with (e_observation e). rewrite Hs. cbv iota.
  fold (kept_warnings e). destruct (decide (lenN records < offset_of q)) as [Hover|Hover].
  - replace (planned_end q records (kept_warnings e) page_end) with (@Err fault N (Fails InvalidArguments))
      by (unfold planned_end; by rewrite decide_True).
    apply clocked_err. pose proof (clocked_throw_if expired (lenN records < offset_of q) (Fails InvalidArguments)) as Ht.
    by rewrite decide_True in Ht.
  - eapply clocked_ok; [pose proof (clocked_throw_if expired (lenN records < offset_of q) (Fails InvalidArguments)) as Ht;
      rewrite decide_False in Ht by done; exact Ht|].
    eapply clocked_bind; [apply plan_page_end_clocked| |by intros err ->].
    intros p ->. eapply clocked_ok; [apply clocked_check|]. apply clocked_lift.
Qed.

Lemma page_records_stale expired q records e page_end :
  validate q = Ok tt → stale_cursor q (e_observation e) = true →
  ∃ l, l_stale l = true ∧ l_records l = [] ∧ l_next_cursor l = None ∧
    clocked expired (page_records expired q records e page_end) (encoded_result l (max_bytes q)).
Proof.
  intros Hv Hs. eexists. split; [|split; [|split]]; cycle -1.
  - unfold page_records. eapply clocked_ok; [rewrite Hv; apply clocked_lift|]. cbn zeta.
    change (e_observation (mkEnvelope _ _ _ _ _)) with (e_observation e). rewrite Hs. apply clocked_lift.
  - done.
  - done.
  - done.
Qed.

Lemma push_warning_sub w ws : ws ⊆ push_warning w ws.
Proof. unfold push_warning. case_decide; set_solver. Qed.
Lemma change_warning_NoDup w ws : NoDup ws → NoDup (push_warning w ws).
Proof.
  intros Hws. unfold push_warning. case_decide; [done|]. apply NoDup_app. split; [done|]. split; [set_solver|apply NoDup_singleton].
Qed.
Lemma push_warning_in w ws : w ∈ push_warning w ws.
Proof. unfold push_warning. case_decide; set_solver. Qed.

Lemma page_warnings_sub e page :
  page_warnings e page ⊆ push_warning RecordsSkipped (push_warning DetailsUnavailable (e_warnings (kept_warnings e))).
Proof.
  unfold page_warnings. etransitivity; [|apply push_warning_sub]. destruct (existsb _ page); [done|apply push_warning_sub].
Qed.
Lemma page_warnings_NoDup e page : NoDup (e_warnings e) → NoDup (page_warnings e page).
Proof.
  intros Hn. assert (NoDup (e_warnings (kept_warnings e))) by by apply NoDup_filter.
  unfold page_warnings. case_match; [by apply change_warning_NoDup|done].
Qed.

(** The plan's header reserves for whatever the page's header says. *)
Lemma header_fits q records e p :
  NoDup (e_warnings e) →
  result_len (header_of (page_of q records e p)) <= result_len (plan_header q (kept_warnings e) (lenN records)).
Proof using HL.
  intros Hn. pose proof (header_law (page_of q records e p) false
    (push_warning RecordsSkipped (push_warning DetailsUnavailable (e_warnings (kept_warnings e))))) as Hh.
  apply Hh; [done|by apply page_warnings_NoDup|apply page_warnings_sub].
Qed.

Lemma page_fits q records e page_end p :
  NoDup (e_warnings e) → planned_end q records (kept_warnings e) page_end = Ok p → offset_of q < p →
  result_len (page_of q records e p) <= max_bytes q.
Proof using HL.
  intros Hn Hp Hlt. destruct (planned_end_ok _ _ _ _ _ Hp) as [_ _ _ _ Hfit]. specialize (Hfit Hlt).
  pose proof (result_law (page_of q records e p)) as Hr. pose proof (header_fits q records e p Hn) as Hh.
  pose proof (null_law (plan_header q (kept_warnings e) (lenN records))) as Hnull.
  unfold base_of in Hfit. cbn [l_records l_next_cursor page_of] in Hr. change (e_observation (kept_warnings e)) with (e_observation e) in Hfit. lia.
Qed.

(** ** The snapshots of a page *)

Definition shrunk (r r' : ChangeRecord) : Prop := facts r' = facts r ∧ record_len r' <= record_len r.

Lemma blob_present_clocked expired file revision : ∃ b, clocked expired (change_blob_present expired file revision) (Ok b).
Proof.
  unfold change_blob_present. destruct revision; try (eexists; apply clocked_ret).
  destruct (read_change_blob _ _) as [value corrupt]. eexists.
  eapply clocked_ok; [apply clocked_check|]. eapply clocked_ok; [apply clocked_check|apply clocked_ret].
Qed.

Lemma blobs_available_clocked expired disk tool_ref change budget :
  ∃ out, clocked expired (change_blobs_available expired disk tool_ref change budget) (Ok out).
Proof.
  unfold change_blobs_available. destruct (negb _).
  { eexists. eapply clocked_ok; [apply clocked_check|apply clocked_ret]. }
  case_decide; [eexists; eapply clocked_ok; [apply clocked_check|apply clocked_ret]|].
  destruct (blob_present_clocked expired (disk tool_ref).1 (before change)) as [b Hb].
  destruct (blob_present_clocked expired (disk tool_ref).2 (after change)) as [a Ha].
  eexists. eapply clocked_ok; [apply clocked_check|]. eapply clocked_ok; [exact Hb|]. eapply clocked_ok; [exact Ha|apply clocked_ret].
Qed.

Lemma shrunk_refl r : shrunk r r.
Proof. split; [done|lia]. Qed.
Lemma shrunk_details r b : details_available r = false → shrunk r (with_details b r).
Proof using HL.
  intros Hd. split; [done|]. assert (Hr : facts r = r) by (destruct r; cbn in *; by subst). rewrite <- Hr at 2. apply details_law.
Qed.

Lemma verify_loop_clocked expired disk stored budget page :
  ∃ page' out, clocked expired (verify_loop expired disk stored budget page) (Ok (page', out)) ∧ Forall2 shrunk page page'.
Proof using HL.
  revert budget. induction page as [|r page IH]; intros budget; cbn [verify_loop].
  { exists [], false. split; [apply clocked_ret|constructor]. }
  assert (Hnext : ∀ budget r', shrunk r r' → ∃ page' out,
    clocked expired ('(page, out) ← verify_loop expired disk stored budget page; mret (r' :: page, out)) (Ok (page', out)) ∧
    Forall2 shrunk (r :: page) page').
  { intros budget' r' Hr. destruct (IH budget') as (page' & out & Hc & Hf). exists (r' :: page'), out.
    split; [|by constructor]. eapply clocked_ok; [exact Hc|apply clocked_ret]. }
  destruct (details_available r) eqn:Hd; [by apply Hnext, shrunk_refl|].
  destruct (c_tool_ref r) as [tool_ref|]; [|by apply Hnext, shrunk_refl].
  destruct (stored !! tool_ref) as [change|]; [|by apply Hnext, shrunk_refl].
  destruct (negb _); [by apply Hnext, shrunk_refl|].
  destruct (blobs_available_clocked expired disk tool_ref change budget) as [[available budget'] Hb].
  destruct (exhausted budget') eqn:Hex.
  - exists (with_details available r :: page), true. split.
    + eapply clocked_ok; [exact Hb|]. cbn beta iota. rewrite Hex. apply clocked_ret.
    + constructor; [by apply shrunk_details|]. clear. induction page; constructor; [apply shrunk_refl|done].
  - destruct (Hnext budget' (with_details available r)) as (page' & out & Hc & Hf); [by apply shrunk_details|].
    exists page', out. split; [|done]. eapply clocked_ok; [exact Hb|]. cbn beta iota. rewrite Hex. exact Hc.
Qed.

(** ** One query *)

(** The world of a query. *)
Record World := mkWorld {
  w_expired : N → bool;
  w_clock : N;
  w_warm : option ToolData.ToolDataInner;
  w_scanned : Scanned;
  w_disk : ToolRef → option (list N) * option (list N)
}.
Definition query (w : World) (q : ChangesListRequest) : result fault ChangesListResult :=
  (list_tool_changes (w_expired w) (w_disk w) q (w_warm w) (w_scanned w) (w_clock w)).2.

(** The list of a world, and how it is served. *)
Definition listing (session : N) (scope : ChangeScope) (w : World) : result fault (list ChangeRecord * Envelope) :=
  let warm_records := from_option (file_change_records session (loop_of scope)) [] (w_warm w) in
  scan ← scan_or_unavailable (w_scanned w) warm_records;
  '(records, compatible) ← merge_tool_records scan warm_records;
  let complete := negb (skipped scan) && compatible in
  Ok (records, mkEnvelope (tool_observation records (scan_observation scan) complete)
                 (if decide (is_Some (w_warm w)) then Live else Cold) None (if complete then [] else [RecordsSkipped]) complete).

(** What an answer has to do with a list. *)
Record serves (q : ChangesListRequest) (records : list ChangeRecord) (observation : str) (l : ChangesListResult) (p : N) : Prop := {
  serves_fresh : l_stale l = false;
  serves_total : l_total l = lenN records;
  serves_first : offset_of q <= p;
  serves_last : p <= lenN records;
  serves_limit : p - offset_of q <= q_limit q;
  serves_progress : offset_of q < lenN records → offset_of q < p;
  serves_records : facts <$> l_records l = slice (facts <$> records) (offset_of q) p;
  serves_cursor : l_next_cursor l = next_cursor q observation (lenN records) p
}.

Lemma slice_fmap {A B} (f : A → B) l a b : f <$> slice l a b = slice (f <$> l) a b.
Proof. unfold slice. by rewrite fmap_take, fmap_drop. Qed.

Lemma slice_middle {A} (l page : list A) a p :
  a <= p → p <= lenN l → length page = length (slice l a p) →
  slice (take (N.to_nat a) l ++ page ++ drop (N.to_nat a + length page) l) a p = page.
Proof.
  unfold slice, lenN. intros Ha Hp Hlen. rewrite length_take, length_drop in Hlen.
  rewrite drop_app_length' by (rewrite length_take; lia).
  by rewrite take_app_length' by lia.
Qed.

Lemma middle_facts (l page : list ChangeRecord) a p :
  a <= p → p <= lenN l → Forall2 shrunk (slice l a p) page →
  facts <$> (take (N.to_nat a) l ++ page ++ drop (N.to_nat a + length page) l) = facts <$> l.
Proof.
  unfold slice, lenN. intros Ha Hp Hf. pose proof (Forall2_length _ _ _ Hf) as Hlen.
  rewrite length_take, length_drop in Hlen. rewrite !fmap_app, <- drop_drop.
  assert (Hpage : facts <$> page = facts <$> take (length page) (drop (N.to_nat a) l)).
  { replace (length page) with (N.to_nat (p - a)) by lia. clear -Hf. induction Hf as [|? ? ? ? [Hr _]]; cbn; [done|]. by rewrite Hr, IHHf. }
  rewrite Hpage, <- fmap_app, take_drop, <- fmap_app, take_drop. done.
Qed.
End pages.
