(* ===== verification/ChangeFollow.v ===== *)
(** A client that reads the changes of a session page by page, [changes.rs].

    What one query comes to in a world, what its observation stands for, and the client
    that goes on from cursor to cursor. *)

From stdpp Require Import sorting.
From S2P Require Import Prelude RustStr Errors ToolRecord Changes ChangePages.
From S2P Require ToolData Diff History HistoryPage.
Open Scope N_scope.

Section follow.
Context `{ChangeEncoding} {HL : ChangeEncodingLaws}.

(** ** What a query comes to *)

Lemma kept_warnings_id e : DetailsUnavailable ∉ e_warnings e → kept_warnings e = e.
Proof.
  intros Hd. destruct e as [o c t ws b]. unfold kept_warnings. cbn in *. f_equal.
  induction ws as [|w ws IH]; [done|]. rewrite filter_cons_True by (intros ->; apply Hd; by left).
  f_equal. apply IH. intros Hin. apply Hd. by right.
Qed.

Lemma listing_warnings session scope w records e :
  listing session scope w = Ok (records, e) → NoDup (e_warnings e) ∧ DetailsUnavailable ∉ e_warnings e.
Proof.
  unfold listing. intros Hl. apply bind_Ok in Hl as (scan & _ & Hl).
  apply bind_Ok in Hl as ([records' compatible] & _ & [= <- <-]). cbn.
  destruct (negb (skipped scan) && compatible); split; [constructor|set_solver|apply NoDup_singleton|set_solver].
Qed.

(** What is served when the budget for reading snapshots was exhausted. *)
Definition short (e : Envelope) : Envelope :=
  mkEnvelope (e_observation e) (e_consistency e) (e_observed_at_unix_ms e) (push_warning RecordsSkipped (e_warnings e)) false.

Lemma short_warnings e : DetailsUnavailable ∉ e_warnings e → DetailsUnavailable ∉ e_warnings (short e).
Proof.
  intros Hd. change (DetailsUnavailable ∉ push_warning RecordsSkipped (e_warnings e)). unfold push_warning.
  destruct (decide (RecordsSkipped ∈ e_warnings e)); [done|set_solver].
Qed.

(** The header after the snapshots were read is no larger. *)
Lemma plan_header_shrinks q e total (out : bool) :
  NoDup (e_warnings e) → result_len (plan_header q (if out then short e else e) total) <= result_len (plan_header q e total).
Proof using HL.
  intros Hn. destruct out; [|lia]. apply (header_law (plan_header q (short e) total) false (l_warnings (plan_header q e total))); cbn; [done|..].
  - by repeat apply change_warning_NoDup.
  - intros w. unfold push_warning. repeat case_decide; set_solver.
Qed.

Lemma base_shrinks q e total : NoDup (e_warnings e) → base_of q (short e) total <= base_of q e total.
Proof using HL. intros Hn. unfold base_of. pose proof (plan_header_shrinks q e total true Hn) as Hle. cbn in Hle. lia. Qed.

(** A page without records fits where its header does. *)
Lemma page_empty q records e p :
  NoDup (e_warnings e) → kept_warnings e = e → p <= offset_of q → lenN records <= p →
  result_len (page_of q records e p) <= result_len (plan_header q e (lenN records)).
Proof using HL.
  intros Hn Hkept Hp Htotal. pose proof (result_law (page_of q records e p)) as Hr. pose proof (header_fits q records e p Hn) as Hh.
  rewrite Hkept in Hh. cbn [l_records l_next_cursor page_of] in Hr. unfold next_cursor in Hr. rewrite decide_False in Hr by lia.
  unfold slice in Hr. replace (N.to_nat (p - offset_of q)) with 0%nat in Hr by lia. change (sized false (take 0 _)) with 0 in Hr. lia.
Qed.

(** An answer, as long as the query does not expire. *)
Definition answered (q : ChangesListRequest) (records : list ChangeRecord) (e : Envelope) (o : result fault ChangesListResult) : Prop :=
  if stale_cursor q (e_observation e) then ∃ l, l_stale l = true ∧ o = encoded_result l (max_bytes q)
  else match planned_end q records e None with
       | Err error => o = Err error
       | Ok p => ∃ l, serves q records (e_observation e) l p ∧ o = encoded_result l (max_bytes q) ∧
                      (offset_of q < p ∨ result_len (plan_header q e (lenN records)) <= max_bytes q → result_len l <= max_bytes q)
       end.

Lemma serves_page q records records' e e' p :
  plan_ok q records e p → e_observation e' = e_observation e → facts <$> records' = facts <$> records →
  serves q records (e_observation e) (page_of q records' e' p) p.
Proof.
  intros [Hfirst Hlast Hlimit Hprog _] Hobs Hfacts.
  assert (Hlen : lenN records' = lenN records) by (unfold lenN; by rewrite <- (length_fmap facts records'), Hfacts, length_fmap).
  split; cbn; [done|done|done|done|done|done| |].
  - by rewrite slice_fmap, Hfacts.
  - by rewrite Hobs, Hlen.
Qed.

Lemma query_clocked q w records e :
  validate q = Ok tt → listing (q_session q) (q_scope q) w = Ok (records, e) →
  ∃ o, clocked (w_expired w) (list_tool_changes (w_expired w) (w_disk w) q (w_warm w) (w_scanned w)) o ∧ answered q records e o.
Proof using HL.
  intros Hv Hl. destruct (listing_warnings _ _ _ _ _ Hl) as [Hn Hd]. pose proof (kept_warnings_id e Hd) as Hkept.
  unfold listing in Hl.
  apply bind_Ok in Hl as (scan & Hscan & Hl). apply bind_Ok in Hl as ([records0 compatible] & Hmerge & Hl).
  injection Hl as <- He. unfold answered.
  unshelve epose proof (_ : ∀ o, clocked (w_expired w)
    (if stale_cursor q (e_observation e) then page_records (w_expired w) q records0 e None
     else page_end ← plan_page_end (w_expired w) q records0 e None;
          verified ← verify_loop (w_expired w) (w_disk w) (list_to_map (reverse (scan_records scan))) (mkBlobBudget 0 false)
                       (slice records0 (offset_of q) page_end);
          let (page, out) := (verified : list ChangeRecord * bool) in
          page_records (w_expired w) q
            (take (N.to_nat (offset_of q)) records0 ++ page ++ drop (N.to_nat (offset_of q) + length page)%nat records0)
            (if out then short e else e) (Some page_end)) o →
    clocked (w_expired w) (list_tool_changes (w_expired w) (w_disk w) q (w_warm w) (w_scanned w)) o) as Hbody.
  { intros o Ho. unfold list_tool_changes. eapply clocked_ok; [rewrite Hv; apply clocked_lift|].
    eapply clocked_ok; [apply clocked_check|]. cbn zeta. eapply clocked_ok; [rewrite Hscan; apply clocked_lift|].
    eapply clocked_ok; [rewrite Hmerge; apply clocked_lift|]. subst e. exact Ho. }
  destruct (stale_cursor q (e_observation e)) eqn:Hs.
  { destruct (page_records_stale (w_expired w) q records0 e None Hv Hs) as (l & Hst & _ & _ & Hc).
    eexists. split; [by apply Hbody|eauto]. }
  destruct (planned_end q records0 e None) as [p|error] eqn:Hp.
  2: { exists (Err error). split; [|done]. apply Hbody. apply clocked_err. rewrite <- Hp. apply plan_page_end_clocked. }
  pose proof (planned_end_ok _ _ _ _ _ Hp) as Hok. destruct (Hok) as [Hfirst Hlast _ _ _].
  destruct (verify_loop_clocked (w_expired w) (w_disk w) (list_to_map (reverse (scan_records scan))) (mkBlobBudget 0 false)
    (slice records0 (offset_of q) p)) as (page & out & Hverify & Hshrunk).
  pose proof (middle_facts _ _ _ _ Hfirst Hlast Hshrunk) as Hfacts.
  set (records' := take _ _ ++ page ++ _) in Hfacts.
  set (e' := if out then short e else e).
  assert (Hobs : e_observation e' = e_observation e) by by destruct out.
  assert (Hlen : lenN records' = lenN records0) by (unfold lenN; by rewrite <- (length_fmap facts records'), Hfacts, length_fmap).
  assert (Hn' : NoDup (e_warnings e')) by (destruct out; [by apply change_warning_NoDup|done]).
  assert (Hkept' : kept_warnings e' = e').
  { apply kept_warnings_id. destruct out; [by apply short_warnings|done]. }
  assert (Hbase : base_of q e' (lenN records0) <= base_of q e (lenN records0)) by (destruct out; [by apply base_shrinks|unfold e'; lia]).
  assert (Hagain : planned_end q records' e' (Some p) = Ok p).
  { apply (planned_end_again q records0 records' e e' p Hp Hlen Hobs Hbase). unfold records'.
    rewrite slice_middle; [|done|done|symmetry; exact (Forall2_length _ _ _ Hshrunk)].
    eapply Forall2_impl; [exact Hshrunk|]. by intros ? ? [_ ?]. }
  exists (encoded_result (page_of q records' e' p) (max_bytes q)). split.
  - apply Hbody. eapply clocked_ok; [rewrite <- Hp; apply plan_page_end_clocked|].
    eapply clocked_ok; [exact Hverify|]. cbn beta iota. fold records' e'.
    pose proof (page_records_clocked (w_expired w) q records' e' (Some p) Hv) as Hc. rewrite Hobs, Hkept', Hagain in Hc. by apply Hc.
  - exists (page_of q records' e' p). split; [by apply (serves_page q records0 records' e e')|]. split; [done|].
    intros Hroom. destruct (decide (offset_of q < p)) as [Hlt|Hlt].
    + apply (page_fits q records' e' (Some p)); [done|by rewrite Hkept'|done].
    + destruct Hroom as [|Hroom]; [done|]. destruct Hok as [_ _ _ Hprog _].
      pose proof (page_empty q records' e' p Hn' Hkept') as Hempty. rewrite Hlen in Hempty.
      pose proof (plan_header_shrinks q e (lenN records0) out Hn : result_len (plan_header q e' _) <= _).
      specialize (Hempty ltac:(lia) ltac:(lia)). lia.
Qed.

(** A successful answer is a page of the list of its world, or says that the list changed. *)
Lemma query_answers w q l :
  query w q = Ok l →
  result_len l <= max_bytes q ∧
  ∃ records e, listing (q_session q) (q_scope q) w = Ok (records, e) ∧
    ((l_stale l = true ∧ stale_cursor q (e_observation e) = true) ∨
     (stale_cursor q (e_observation e) = false ∧ ∃ p, serves q records (e_observation e) l p)).
Proof using HL.
  unfold query. intros Hq. destruct (validate q) as [[]|error] eqn:Hv.
  2: { exfalso. unfold list_tool_changes in Hq. rewrite Hv in Hq. cbn in Hq. done. }
  destruct (listing (q_session q) (q_scope q) w) as [[records e]|error] eqn:Hl.
  2: { exfalso. assert (Hc : clocked (w_expired w) (list_tool_changes (w_expired w) (w_disk w) q (w_warm w) (w_scanned w)) (Err error));
         [|destruct (Hc (w_clock w)) as [Hr|[Hr _]]; rewrite Hr in Hq; done].
       unfold list_tool_changes. eapply clocked_ok; [rewrite Hv; apply clocked_lift|]. eapply clocked_ok; [apply clocked_check|].
       cbn zeta. unfold listing in Hl. destruct (scan_or_unavailable _ _) as [scan|error'] eqn:Hs; cbn in Hl.
       2: { injection Hl as <-. apply clocked_err. apply clocked_lift. }
       eapply clocked_ok; [apply clocked_lift|].
       destruct (merge_tool_records scan _) as [[? ?]|error'] eqn:Hm; cbn in Hl; [done|]. injection Hl as <-.
       apply clocked_err. apply clocked_lift. }
  destruct (query_clocked q w records e Hv Hl) as (o & Hc & Ha).
  destruct (Hc (w_clock w)) as [Hr|[Hr _]]; rewrite Hr in Hq; [subst o|done].
  unfold answered in Ha. destruct (stale_cursor q (e_observation e)) eqn:Hs.
  - destruct Ha as (l' & Hst & Ho). unfold encoded_result in Ho. case_decide; [done|]. injection Ho as ->.
    split; [lia|]. eauto 8.
  - destruct (planned_end q records e None) as [p|]; [|done]. destruct Ha as (l' & Hserves & Ho & _).
    unfold encoded_result in Ho. case_decide; [done|]. injection Ho as ->. split; [lia|]. eauto 8.
Qed.

(** ** What an observation stands for *)

(** Two of the byte strings [P] have the same hash. *)
Definition collision (P : list N → Prop) : Prop := ∃ a b, P a ∧ P b ∧ a ≠ b ∧ hash_bytes a = hash_bytes b.

Lemma hash_inj (P : list N → Prop) a b : P a → P b → hash_bytes a = hash_bytes b → a = b ∨ collision P.
Proof. intros Ha Hb Hh. destruct (decide (a = b)); [by left|right; by exists a, b]. Qed.
Lemma collision_mono (P Q : list N → Prop) : (∀ b, P b → Q b) → collision P → collision Q.
Proof. intros Hsub (a & b & Ha & Hb & Hab). exists a, b. auto. Qed.

Definition of_tool (P : list N → Prop) (r : ChangeRecord) : Prop :=
  ∃ tool_ref available change, r = stored_record tool_ref available change ∧ P (ref_bytes tool_ref change).

Lemma same_ref P r r' : of_tool P r → of_tool P r' → change_ref r = change_ref r' → facts r = facts r' ∨ collision P.
Proof using HL.
  intros (t & b & c & -> & Hc) (t' & b' & c' & -> & Hc'). cbn. unfold stored_tool_change_ref. intros [= <- Hh].
  destruct (hash_inj P _ _ Hc Hc' Hh) as [Hb|]; [left|by right]. apply ref_bytes_inj in Hb as <-. done.
Qed.

Lemma same_facts P records records' :
  Forall (of_tool P) records → Forall (of_tool P) records' → change_ref <$> records = change_ref <$> records' →
  facts <$> records = facts <$> records' ∨ collision P.
Proof using HL.
  intros Ha. revert records'. induction Ha as [|r records Hr _ IH]; intros [|r' records'] Hb; [by left|done|done|].
  inversion Hb as [|? ? Hr' Hb']; subst. cbn. intros [= Hh Ht].
  destruct (same_ref P _ _ Hr Hr' Hh) as [->|]; [|by right]. destruct (IH _ Hb' Ht) as [->|]; [by left|by right].
Qed.

Lemma span_Forall {A} (P : A → Prop) f l : Forall P l → Forall P (span f l).1 ∧ Forall P (span f l).2.
Proof.
  induction 1 as [|x l Hx Hl [IH1 IH2]]; cbn; [done|]. destruct (f x); [|split; by constructor].
  destruct (span f l) as [a b]. split; [by constructor|done].
Qed.

Lemma merge_loop_Forall scan P cold warm :
  Forall P cold.*2 → Forall P warm → Forall P (merge_loop scan cold warm).
Proof.
  revert warm. induction cold as [|[time r] cold IH]; intros warm Hc Hw; cbn [merge_loop]; [done|].
  inversion Hc as [|? ? Hr Hc']; subst.
  destruct (span_Forall P (due scan time) warm Hw) as [He Hl]. destruct (span _ warm) as [early late].
  apply Forall_app. split; [done|]. constructor; [done|by apply IH].
Qed.

Lemma cold_records_of_tool scan by_ref found cold compatible :
  cold_records scan by_ref found = Ok (cold, compatible) → Forall (of_tool (λ _, True)) cold.*2.
Proof.
  revert cold compatible. induction found as [|[t c] found IH]; intros cold compatible; cbn [cold_records].
  { by intros [= <- <-]. }
  destruct (by_ref !! t) as [r|].
  - intros Hb. apply bind_Ok in Hb as ([cold' compatible'] & Hc & [= <- <-]). by eapply IH.
  - intros Hb. apply bind_Ok in Hb as (time & _ & Hb). apply bind_Ok in Hb as ([cold' compatible'] & Hc & [= <- <-]).
    cbn. constructor; [by exists t, false, c|by eapply IH].
Qed.

Lemma file_change_records_of_tool session loop_id inner : Forall (of_tool (λ _, True)) (file_change_records session loop_id inner).
Proof.
  apply Forall_forall. intros r Hr. unfold file_change_records in Hr. apply list_elem_of_omap in Hr as (t & _ & Hr).
  destruct (ToolData.records inner !! t) as [record|]; [|done]. cbn in Hr.
  destruct (file_change record) as [c|]; [|done]. injection Hr as <-. unfold change_record. by eexists _, _, _.
Qed.

Lemma listing_of_tool session scope w records e : listing session scope w = Ok (records, e) → Forall (of_tool (λ _, True)) records.
Proof.
  unfold listing. intros Hl. apply bind_Ok in Hl as (scan & _ & Hl). apply bind_Ok in Hl as ([records' compatible] & Hm & [= <- <-]).
  unfold merge_tool_records in Hm. apply bind_Ok in Hm as (by_ref & _ & Hm). apply bind_Ok in Hm as ([cold c] & Hc & [= <- <-]).
  apply merge_loop_Forall; [by eapply cold_records_of_tool|].
  destruct (w_warm w); cbn; [apply file_change_records_of_tool|constructor].
Qed.


(** The scan of a world. *)
Definition scan_of (session : N) (scope : ChangeScope) (w : World) : result fault ToolChangeScan :=
  scan_or_unavailable (w_scanned w) (from_option (file_change_records session (loop_of scope)) [] (w_warm w)).

(** The bytes that the lists of [ws] have hashed, for their observations and their references. *)
Definition hashed (session : N) (scope : ChangeScope) (ws : list World) (b : list N) : Prop :=
  ∃ w records e, w ∈ ws ∧ listing session scope w = Ok (records, e) ∧
    ((∃ scan, scan_of session scope w = Ok scan ∧
        b = observations_bytes (scan_observation scan) (e_complete e) ((λ r, (change_ref r, c_coverage r)) <$> records)) ∨
     ∃ tool_ref available change, stored_record tool_ref available change ∈ records ∧
        b = ref_bytes tool_ref change).

Lemma listing_observation session scope w records e :
  listing session scope w = Ok (records, e) →
  ∃ scan, scan_of session scope w = Ok scan ∧ e_observation e = tool_observation records (scan_observation scan) (e_complete e).
Proof.
  unfold listing. intros Hl. apply bind_Ok in Hl as (scan & Hs & Hl). apply bind_Ok in Hl as ([records' compatible] & Hm & [= <- <-]).
  by exists scan.
Qed.

Lemma hashed_mono session scope ws ws' b : ws ⊆ ws' → hashed session scope ws b → hashed session scope ws' b.
Proof. intros Hsub (w & records & e & Hw & Hrest). exists w, records, e. split; [by apply Hsub|done]. Qed.

Lemma listing_hashed session scope ws w records e :
  w ∈ ws → listing session scope w = Ok (records, e) → Forall (of_tool (hashed session scope ws)) records.
Proof.
  intros Hw Hl. pose proof (listing_of_tool _ _ _ _ _ Hl) as Ht. rewrite Forall_forall in Ht |- *. intros r Hr.
  destruct (Ht r Hr) as (t & a & c & -> & _). exists t, a, c. split; [done|]. exists w, records, e. eauto 8.
Qed.

(** Two worlds that a cursor cannot tell apart have the same list. *)
Lemma same_observation session scope ws w w' records e records' e' :
  w ∈ ws → w' ∈ ws → listing session scope w = Ok (records, e) → listing session scope w' = Ok (records', e') →
  e_observation e = e_observation e' → facts <$> records = facts <$> records' ∨ collision (hashed session scope ws).
Proof using HL.
  intros Hw Hw' Hl Hl' Ho. destruct (listing_observation _ _ _ _ _ Hl) as (scan & Hscan & Ho1).
  destruct (listing_observation _ _ _ _ _ Hl') as (scan' & Hscan' & Ho2). pose proof Ho as Hhash. rewrite Ho1, Ho2 in Hhash.
  pose (refs (l : list ChangeRecord) := (λ r, (change_ref r, c_coverage r)) <$> l).
  assert (Hb : hashed session scope ws (observations_bytes (scan_observation scan) (e_complete e) (refs records)))
    by (exists w, records, e; split; [done|split; [done|left; by exists scan]]).
  assert (Hb' : hashed session scope ws (observations_bytes (scan_observation scan') (e_complete e') (refs records')))
    by (exists w', records', e'; split; [done|split; [done|left; by exists scan']]).
  destruct (hash_inj _ _ _ Hb Hb' Hhash) as [Heq|]; [|by right].
  apply observations_inj in Heq as (_ & _ & Heq).
  apply same_facts; [by apply (listing_hashed _ _ _ w _ e)|by apply (listing_hashed _ _ _ w' _ e')|].
  apply (f_equal (fmap fst)) in Heq. unfold refs in Heq. rewrite <- !list_fmap_compose in Heq. exact Heq.
Qed.

(** ** The client *)

Inductive Client := Reading (cursor : option ChangeCursor) (got : list ChangeRecord) | Finished (got : list ChangeRecord) | Changed.

Section client.
Context (session : N) (scope : ChangeScope) (limit : N) (bytes : option N).

Definition request (cursor : option ChangeCursor) : ChangesListRequest := mkRequest session scope cursor limit bytes.

(** A failed query is repeated, a stale answer ends the reading. *)
Definition client_step (c : Client) (w : World) : Client :=
  match c with
  | Reading cursor got =>
      match query w (request cursor) with
      | Err _ => c
      | Ok l =>
          if l_stale l then Changed else
          match l_next_cursor l with
          | None => Finished (got ++ l_records l)
          | next => Reading next (got ++ l_records l)
          end
      end
  | _ => c
  end.
Definition client (ws : list World) : Client := foldl client_step (Reading None []) ws.

(** What a client has read, of the list of a world it asked. *)
Definition has_read (ws : list World) (c : Client) : Prop :=
  match c with
  | Reading None got => got = []
  | Reading (Some cursor) got =>
      ∃ w records e, w ∈ ws ∧ listing session scope w = Ok (records, e) ∧
        cursor = mkCursor session scope (cursor_offset cursor) (Some (e_observation e)) ∧
        cursor_offset cursor < lenN records ∧
        (facts <$> got = take (N.to_nat (cursor_offset cursor)) (facts <$> records) ∨ collision (hashed session scope ws))
  | Finished got =>
      ∃ w records e, w ∈ ws ∧ listing session scope w = Ok (records, e) ∧ (facts <$> got = facts <$> records ∨ collision (hashed session scope ws))
  | Changed =>
      ∃ w w' records e records' e', w ∈ ws ∧ w' ∈ ws ∧ listing session scope w = Ok (records, e) ∧
        listing session scope w' = Ok (records', e') ∧ e_observation e ≠ e_observation e'
  end.

Lemma take_slice {A} (l : list A) a p : a <= p → take (N.to_nat a) l ++ slice l a p = take (N.to_nat p) l.
Proof.
  intros Ha. unfold slice. rewrite <- (take_drop (N.to_nat a) (take (N.to_nat p) l)), take_take, skipn_firstn_comm.
  f_equal; f_equal; lia.
Qed.

(** One page more. *)
Lemma reads_on ws cursor got records e l p :
  serves (request cursor) records (e_observation e) l p →
  (∃ w, w ∈ ws ∧ listing session scope w = Ok (records, e)) →
  facts <$> got = take (N.to_nat (offset_of (request cursor))) (facts <$> records) ∨ collision (hashed session scope ws) →
  has_read ws (match l_next_cursor l with None => Finished (got ++ l_records l) | next => Reading next (got ++ l_records l) end).
Proof.
  intros Hs (w & Hw & Hl) Hgot.
  assert (Hall : facts <$> got ++ l_records l = take (N.to_nat p) (facts <$> records) ∨ collision (hashed session scope ws)).
  { destruct Hgot as [Hgot|]; [left|by right]. rewrite fmap_app, Hgot, (serves_records _ _ _ _ _ Hs).
    apply take_slice, (serves_first _ _ _ _ _ Hs). }
  rewrite (serves_cursor _ _ _ _ _ Hs). pose proof (serves_last _ _ _ _ _ Hs) as Hlast. unfold next_cursor.
  destruct (decide (p < lenN records)) as [Hp|Hp]; cbn; exists w, records, e; [done|]. split; [done|]. split; [done|].
  destruct Hall as [Hall|]; [left|by right]. rewrite Hall. apply take_ge. rewrite length_fmap. unfold lenN in *. lia.
Qed.

Lemma has_read_mono ws ws' c : ws ⊆ ws' → has_read ws c → has_read ws' c.
Proof.
  intros Hsub. pose proof (collision_mono _ _ (λ b, hashed_mono session scope ws ws' b Hsub)) as Hcol.
  destruct c as [[cursor|] got|got|]; cbn; [|done| |].
  - intros (w & records & e & Hw & Hl & Hcur & Ho & Hgot). exists w, records, e. split; [by apply Hsub|].
    split; [done|]. split; [done|]. split; [done|]. destruct Hgot as [|]; [by left|right; by apply Hcol].
  - intros (w & records & e & Hw & Hl & Hgot). exists w, records, e. split; [by apply Hsub|].
    split; [done|]. destruct Hgot as [|]; [by left|right; by apply Hcol].
  - intros (w & w' & records & e & records' & e' & Hw & Hw' & Hrest). exists w, w', records, e, records', e'.
    split; [by apply Hsub|]. split; [by apply Hsub|done].
Qed.

Lemma client_step_reads ws w c : has_read ws c → has_read (ws ++ [w]) (client_step c w).
Proof using HL.
  intros Hc. assert (Hmono : has_read (ws ++ [w]) c) by (apply (has_read_mono ws); [set_solver|done]).
  destruct c as [cursor got|got|]; [|done|done]. cbn [client_step].
  destruct (query w (request cursor)) as [l|error] eqn:Hq; [|done].
  destruct (query_answers _ _ _ Hq) as [_ (records & e & Hl & Hcase)]. cbn in Hl.
  destruct Hcase as [[-> Hs]|[Hs (p & Hserves)]].
  - destruct cursor as [cursor|]; [|done]. destruct Hc as (w0 & records0 & e0 & Hw0 & Hl0 & Hcur & _ & _).
    rewrite Hcur in Hs. unfold stale_cursor in Hs. cbn in Hs. apply negb_true_iff, bool_decide_eq_false in Hs.
    exists w0, w, records0, e0, records, e. set_solver.
  - pose proof (collision_mono _ _ (λ b, hashed_mono session scope ws (ws ++ [w]) b ltac:(set_solver))) as Hcol.
    rewrite (serves_fresh _ _ _ _ _ Hserves). refine (reads_on _ _ _ _ _ _ _ Hserves _ _).
    { exists w. split; [set_solver|done]. }
    destruct cursor as [cursor|]; [|cbn in Hc; subst got; by left].
    destruct Hc as (w0 & records0 & e0 & Hw0 & Hl0 & Hcur & _ & Hgot). rewrite Hcur in Hs. unfold stale_cursor in Hs. cbn in Hs.
    apply negb_false_iff, bool_decide_eq_true in Hs. destruct Hgot as [Hgot|]; [|right; by apply Hcol].
    destruct (same_observation session scope (ws ++ [w]) w0 w records0 e0 records e) as [Hsame|]; [set_solver|set_solver|done|done|done|left|by right].
    cbn. by rewrite Hgot, Hsame.
Qed.

Lemma client_reads ws : has_read ws (client ws).
Proof using HL.
  unfold client. induction ws as [|w ws IH] using rev_ind; [done|]. rewrite foldl_snoc. by apply client_step_reads.
Qed.

(** *** While nothing changes *)

(** Every record has room on a page of its own. *)
Record room (records : list ChangeRecord) (e : Envelope) : Prop := {
  room_valid : validate (request None) = Ok tt;
  room_header : result_len (plan_header (request None) e (lenN records)) <= max_bytes (request None);
  room_record i r : records !! i = Some r →
    base_of (request None) e (lenN records) + record_len r
      + cursor_len (next_cursor (request None) (e_observation e) (lenN records) (N.of_nat i + 1)) <= max_bytes (request None)
}.

Lemma room_planned records e cursor :
  room records e → offset_of (request cursor) <= lenN records → ∃ p, planned_end (request cursor) records e None = Ok p.
Proof.
  intros [Hvalid _ Hroom] Hoff. unfold planned_end. rewrite decide_False by lia.
  destruct (decide (offset_of (request cursor) < lenN records)) as [Hlt|Hlt].
  2: { rewrite decide_False by lia. eauto. }
  set (offset := offset_of (request cursor)) in *.
  destruct (lookup_lt_is_Some_2 records (N.to_nat offset)) as [r Hr]; [unfold lenN in Hlt; lia|].
  assert (Hlimit : 1 <= limit) by (unfold validate in Hvalid; apply bind_Ok in Hvalid as (u & Hu & _); apply ensure_Ok in Hu; cbn in Hu; lia).
  assert (Hc : ∃ rest, candidates (request cursor) records None = r :: rest).
  { unfold candidates. fold offset. change (default (lenN records) None) with (lenN records).
    rewrite (drop_S _ r) by done. cbn [q_limit request].
    destruct (N.to_nat (N.max (N.min (lenN records) (lenN records)) offset - offset)) eqn:?; [lia|].
    destruct (N.to_nat limit) eqn:?; [lia|]. cbn [take]. eauto. }
  destruct Hc as [rest ->]. cbn [planned]. fold offset. specialize (Hroom _ _ Hr). rewrite N2Nat.id in Hroom.
  change (base_of (request cursor) e) with (base_of (request None) e).
  change (next_cursor (request cursor)) with (next_cursor (request None)).
  change (max_bytes (request cursor)) with (max_bytes (request None)).
  rewrite (decide_False (P := offset < offset)) by lia.
  match goal with |- context [decide (max_bytes ?q < ?t)] => rewrite (decide_False (P := max_bytes q < t)) by lia end.
  match goal with |- context [planned ?q ?o ?t ?b ?l ?rb ?pe] => pose proof (planned_ge q o t b l rb pe) end.
  rewrite decide_False by lia. eauto.
Qed.

Lemma room_answers w records e cursor :
  (∀ k, w_expired w k = false) → listing session scope w = Ok (records, e) → room records e →
  from_option (λ c, cursor_session c = session ∧ cursor_scope c = scope ∧ cursor_observation c = Some (e_observation e)
                    ∧ cursor_offset c < lenN records) True cursor →
  ∃ l p, query w (request cursor) = Ok l ∧ serves (request cursor) records (e_observation e) l p.
Proof using HL.
  intros Hexp Hl Hroom Hcur.
  assert (Hobs : HistoryPage.valid_sha256 (e_observation e) = true).
  { destruct (listing_observation _ _ _ _ _ Hl) as (scan & _ & ->). apply hash_law. }
  assert (Hv : validate (request cursor) = Ok tt).
  { pose proof (room_valid _ _ Hroom) as Hv. destruct cursor as [cursor|]; [|done]. destruct Hcur as (Hses & Hsc & Ho & _).
    unfold validate in Hv |- *. cbn [request q_limit q_max_bytes q_cursor q_session q_scope] in *.
    apply bind_Ok in Hv as (u1 & -> & Hv). apply bind_Ok in Hv as (u2 & -> & _). cbn [mbind result_bind].
    rewrite (ensure_true (cursor_session cursor = session ∧ cursor_scope cursor = scope)) by done. cbn [mbind result_bind].
    rewrite (ensure_true (¬ (0 < cursor_offset cursor ∧ cursor_observation cursor = None))) by (rewrite Ho; naive_solver).
    cbn [mbind result_bind]. rewrite Ho. by apply ensure_true. }
  assert (Hs : stale_cursor (request cursor) (e_observation e) = false).
  { unfold stale_cursor. destruct cursor as [cursor|]; [|done]. destruct Hcur as (_ & _ & Ho & _). cbn. rewrite Ho. cbn.
    by rewrite bool_decide_eq_true_2. }
  destruct (room_planned records e cursor Hroom) as [p Hp].
  { destruct cursor as [cursor|]; cbn in *; lia. }
  destruct (query_clocked (request cursor) w records e Hv Hl) as (o & Hc & Ha).
  unfold answered in Ha. rewrite Hs, Hp in Ha. destruct Ha as (l & Hserves & -> & Hfits). exists l, p. split; [|done].
  unfold query. destruct (Hc (w_clock w)) as [Hr|[_ [k Hk]]]; [rewrite Hr|by rewrite Hexp in Hk].
  unfold encoded_result. apply decide_False. enough (result_len l <= max_bytes (request cursor)) by lia.
  apply Hfits. right. exact (room_header _ _ Hroom).
Qed.

Lemma client_finishes w records e n :
  (∀ k, w_expired w k = false) → listing session scope w = Ok (records, e) → room records e →
  (∃ got, client (replicate n w) = Finished got) ∨
  (∃ cursor got, client (replicate n w) = Reading cursor got ∧ N.of_nat n <= offset_of (request cursor) ∧
     from_option (λ c, cursor_session c = session ∧ cursor_scope c = scope ∧ cursor_observation c = Some (e_observation e)
                    ∧ cursor_offset c < lenN records) True cursor).
Proof using HL.
  intros Hexp Hl Hroom. induction n as [|n IH].
  { right. exists None, []. cbn. split; [done|]. split; [lia|done]. }
  rewrite replicate_S_end. unfold client. rewrite foldl_snoc. fold (client (replicate n w)).
  destruct IH as [[got ->]|(cursor & got & -> & Hn & Hcur)]; [left; by exists got|].
  destruct (room_answers w records e cursor Hexp Hl Hroom Hcur) as (l & p & Hq & Hserves). cbn [client_step]. rewrite Hq.
  rewrite (serves_fresh _ _ _ _ _ Hserves), (serves_cursor _ _ _ _ _ Hserves). unfold next_cursor.
  pose proof (serves_progress _ _ _ _ _ Hserves) as Hprog. pose proof (serves_last _ _ _ _ _ Hserves) as Hlast.
  destruct (decide (p < lenN records)) as [Hp|Hp]; [right|left; by eexists].
  eexists _, _. split; [done|]. cbn. destruct cursor as [cursor|]; cbn in *; split; first [lia|done].
Qed.
End client.

(** C35 A client reads the changes of a session page by page and asks as often as it wants, in worlds
    that change between the queries: the clock, the calls in memory, the disk. When it got to the end,
    what it collected is the whole list, in order, of a world it asked, up to whether snapshots can
    still be read, or two different values are known with the same hash. When it was told that the list
    changed, it had changed. And in a world that stays the same, does not expire and has room on a page
    for each record, as many queries as there are records, and one more, get to the end. *)
Theorem changes_followed session scope limit bytes :
  (∀ ws, match client session scope limit bytes ws with
         | Reading _ _ => True
         | Finished got =>
             ∃ w records e, w ∈ ws ∧ listing session scope w = Ok (records, e) ∧
               (facts <$> got = facts <$> records ∨ collision (hashed session scope ws))
         | Changed =>
             ∃ w w' records e records' e', w ∈ ws ∧ w' ∈ ws ∧ listing session scope w = Ok (records, e) ∧
               listing session scope w' = Ok (records', e') ∧ e_observation e ≠ e_observation e'
         end) ∧
  (∀ w records e, listing session scope w = Ok (records, e) → (∀ k, w_expired w k = false) →
     room session scope limit bytes records e →
     ∃ got, client session scope limit bytes (replicate (S (length records)) w) = Finished got).
Proof using HL.
  split.
  - intros ws. pose proof (client_reads session scope limit bytes ws) as Hr.
    destruct (client session scope limit bytes ws); [done|exact Hr|exact Hr].
  - intros w records e Hl Hexp Hroom.
    destruct (client_finishes session scope limit bytes w records e (S (length records)) Hexp Hl Hroom)
      as [?|(cursor & got & _ & Hn & Hcur)]; [done|].
    exfalso. destruct cursor as [cursor|]; cbn in Hn; [|lia]. destruct Hcur as (_ & _ & _ & Hlt). unfold lenN in Hlt. lia.
Qed.
End follow.

(** ** A session with three changes *)

Module ChangeSample.
(** Values as lists of numbers, none a proper prefix of another. *)
Class Code (A : Type) := {
  code : A → list N;
  code_inj a b r r' : code a ++ r = code b ++ r' → a = b ∧ r = r'
}.
#[local] Instance N_code : Code N.
Proof. refine {| code n := [n] |}. by intros a b r r' [= -> ->]. Defined.
#[local] Instance unit_code : Code unit.
Proof. refine {| code _ := [] |}. intros [] [] r r' Hr. by split. Defined.
#[local] Instance prod_code {A B} `{Code A, Code B} : Code (A * B).
Proof.
  refine {| code p := code p.1 ++ code p.2 |}. intros [a b] [a' b'] r r'. rewrite <- !app_assoc. cbn.
  intros [-> [-> ->]%code_inj]%code_inj. done.
Defined.
#[local] Instance sum_code {A B} `{Code A, Code B} : Code (A + B).
Proof.
  refine {| code s := match s with inl a => 0 :: code a | inr b => 1 :: code b end |}.
  intros [a|b] [a'|b'] r r'; cbn; [|done|done|]; intros [= [-> ->]%code_inj]; done.
Defined.
#[local] Instance list_code {A} `{Code A} : Code (list A).
Proof.
  refine {| code l := foldr (λ a bs, 1 :: code a ++ bs) [0] l |}.
  intros l. induction l as [|a l IH]; intros [|a' l'] r r'; cbn; [by intros [= ->]|done|done|].
  rewrite <- !app_assoc. intros [= [-> [-> ->]%IH]%code_inj]. done.
Defined.
Definition code_via {A B} `{Code B} (f : A → B) (g : B → A) (Hfg : ∀ a, g (f a) = a) : Code A.
Proof.
  refine {| code a := code (f a) |}. intros a b r r' [Hf ->]%code_inj. apply (f_equal g) in Hf. rewrite !Hfg in Hf. done.
Defined.
#[local] Instance option_code {A} `{Code A} : Code (option A).
Proof.
  apply (code_via (λ o, match o with None => inl 0 | Some a => inr a end) (λ s : N + A, match s with inl _ => None | inr a => Some a end)).
  by intros [].
Defined.
#[local] Instance bool_code : Code bool.
Proof. apply (code_via (λ b : bool, if b then 1 else 0) (λ n, bool_decide (n = 1))). by intros []. Defined.
#[local] Instance tool_ref_code : Code ToolRef.
Proof. apply (code_via (λ r, (ref_session r, ref_loop r, ref_request r, ref_call r)) (λ '(s, l, q, c), mkRef s l q c)). by intros []. Defined.
#[local] Instance kind_code : Code ChangeKind.
Proof.
  apply (code_via (λ k, match k with Added => 0 | Modified => 1 | Deleted => 2 | Renamed => 3 | KindConflict => 4 | KindUnknown => 5 end)
    (λ n : N, match n with 0 => Added | 1 => Modified | 2 => Deleted | 3 => Renamed | 4 => KindConflict | _ => KindUnknown end)).
  by intros [].
Defined.
#[local] Instance revision_code : Code ChangeRevision.
Proof.
  apply (code_via
    (λ r, match r with Missing => inl (inl tt) | Content h n => inl (inr (h, n)) | Metadata n m => inr (inl (n, m))
                     | RevisionUnknown => inr (inr tt) end)
    (λ r : (unit + str * N) + (N * option N + unit), match r with inl (inl _) => Missing | inl (inr (h, n)) => Content h n
                     | inr (inl (n, m)) => Metadata n m | inr (inr _) => RevisionUnknown end)).
  by intros [].
Defined.
#[local] Instance commit_code : Code ChangeCommitState.
Proof.
  apply (code_via (λ k, match k with NotCommitted => 0 | Applied => 1 | CommitConflict => 2 | CommitUnknown => 3 end)
    (λ n : N, match n with 0 => NotCommitted | 1 => Applied | 2 => CommitConflict | _ => CommitUnknown end)).
  by intros [].
Defined.
#[local] Instance coverage_code : Code ChangeCoverage.
Proof.
  apply (code_via (λ k, match k with CoverageComplete => 0 | CoveragePartial => 1 | CoverageUnavailable => 2 end)
    (λ n : N, match n with 0 => CoverageComplete | 1 => CoveragePartial | _ => CoverageUnavailable end)).
  by intros [].
Defined.
#[local] Instance change_code : Code StoredFileChange.
Proof.
  apply (code_via
    (λ c, (change_path c, kind c, before c, after c, commit_state c, coverage c, before_captured c, after_captured c))
    (λ '(p, k, b, a, s, v, bc, ac), mkStoredChange p k b a s v bc ac)).
  by intros [].
Defined.
#[local] Instance entry_kind_code : Code Status.WorkspaceStatusEntryKind.
Proof.
  apply (code_via (λ k, match k with Status.Ordinary => 0 | Status.Renamed => 1 | Status.Unmerged => 2 | Status.Untracked => 3 end)
    (λ n : N, match n with 0 => Status.Ordinary | 1 => Status.Renamed | 2 => Status.Unmerged | _ => Status.Untracked end)).
  by intros [].
Defined.
#[local] Instance entry_code : Code Status.WorkspaceStatusEntry.
Proof.
  apply (code_via
    (λ e, (Status.path e, Status.kind e, Status.index_status e, Status.worktree_status e, Status.original_path e))
    (λ '(p, k, i, w, o), Status.mkEntry p k i w o)).
  by intros [].
Defined.
#[local] Instance ref_code : Code ChangeRef.
Proof.
  apply (code_via
    (λ r, match r with ToolChange t h => inl (t, h) | WorkspaceChange s h e => inr (s, h, e) end)
    (λ r : (ToolRef * str) + (N * str * Status.WorkspaceStatusEntry),
       match r with inl (t, h) => ToolChange t h | inr (s, h, e) => WorkspaceChange s h e end)).
  by intros [].
Defined.

(** A hash with 64 hexadecimal digits. *)
Fixpoint hex_digits (n : nat) (v : N) : str :=
  match n with O => [] | S n => HistoryPage.hex_char (v mod 16) :: hex_digits n (v / 16) end.
Definition toy_hash (b : list N) : str := hex_digits 64 (foldl (λ h x, (h * 257 + x) mod 1000003) 7 b).
Definition toy_record_len (r : ChangeRecord) : N := 200 + (if details_available r then 4 else 5).
Definition toy_cursor_len (c : option ChangeCursor) : N := match c with None => 4 | Some _ => 150 end.
Fixpoint toy_sized (started : bool) (records : list ChangeRecord) : N :=
  match records with
  | [] => 0
  | r :: records => toy_record_len r + (if started then 1 else 0) + toy_sized true records
  end.
Definition toy_result_len (r : ChangesListResult) : N :=
  300 + 20 * lenN (l_warnings r) + (if l_complete r then 4 else 5) + toy_sized false (l_records r) + toy_cursor_len (l_next_cursor r).
Definition sample : ChangeEncoding := {|
  hash_bytes := toy_hash;
  ref_bytes t c := code (t, c);
  change_ref_bytes r := code r;
  scan_bytes f s e m := code (f, s, e, m);
  observations_bytes o b l := code (o, b, l);
  status_bytes s := code (Status.r_head_oid s, Status.r_entries s);
  record_len := toy_record_len;
  cursor_len := toy_cursor_len;
  result_len := toy_result_len
|}.
#[local] Existing Instance sample.

Lemma hex_digits_valid n v : Forall (λ c, c < 128 ∧ is_ascii_hexdigit c = true) (hex_digits n v).
Proof.
  revert v. induction n as [|n IH]; intros v; cbn [hex_digits]; [constructor|]. constructor; [|done].
  pose proof (N.mod_lt v 16 ltac:(lia)) as Hlt. unfold HistoryPage.hex_char, is_ascii_hexdigit. set (d := v mod 16) in *. clearbody d.
  destruct (decide (d < 10)); split; first [lia|idtac].
  all: unfold is_ascii_digit; rewrite !orb_true_iff, !bool_decide_eq_true; lia.
Qed.
Lemma toy_hash_valid b : HistoryPage.valid_sha256 (toy_hash b) = true.
Proof.
  unfold HistoryPage.valid_sha256, toy_hash. set (v := foldl _ _ _). clearbody v. pose proof (hex_digits_valid 64 v) as Hv.
  assert (Hlen : length (hex_digits 64 v) = 64%nat).
  { generalize 64%nat. intros n. clear. revert v. induction n; intros v; cbn; [done|]. by rewrite IHn. }
  generalize dependent (hex_digits 64 v). intros s Hv Hlen.
  assert (Hb : as_bytes s = s).
  { unfold as_bytes. clear Hlen. induction Hv as [|c s [Hc _] _ IH]; [done|]. change (encode_char c ++ (s ≫= encode_char) = c :: s). unfold encode_char at 1.
    rewrite decide_True by done. by rewrite IH. }
  rewrite andb_true_iff, bool_decide_eq_true. split.
  - rewrite <- as_bytes_len, Hb. unfold lenN. by rewrite Hlen.
  - rewrite Hb. clear Hlen Hb. induction Hv as [|c s [_ Hc] _ IH]; cbn; [done|]. by rewrite Hc.
Qed.
Lemma code_same {A} `{Code A} (a b : A) : code a = code b → a = b.
Proof. intros Hab. destruct (code_inj a b [] []); [by rewrite Hab|done]. Qed.
#[local] Instance sample_laws : ChangeEncodingLaws.
Proof.
  assert (Hsized : ∀ started l, sized started l = toy_sized started l)
    by (intros started l; revert started; induction l as [|r l IH]; intros started; cbn; [done|by rewrite IH]).
  split.
  - apply toy_hash_valid.
  - intros r c c' Hc. apply code_same in Hc. congruence.
  - intros o b l o' b' l' Ho. apply code_same in Ho. split_and!; congruence.
  - intros r. change (toy_result_len r + toy_cursor_len None = toy_result_len (header_of r) + sized false (l_records r) + toy_cursor_len (l_next_cursor r)).
    unfold toy_result_len. rewrite Hsized. cbn [header_of l_warnings l_complete l_records l_next_cursor toy_sized]. lia.
  - intros r. change (toy_cursor_len None <= toy_result_len r). unfold toy_result_len, toy_cursor_len at 1. lia.
  - intros r complete warnings Hc Hn Hsub. change (toy_result_len (header_of r) <= toy_result_len (with_warnings complete warnings (header_of r))).
    unfold toy_result_len. cbn [header_of with_warnings l_warnings l_complete l_records l_next_cursor].
    assert (Hlen : lenN (l_warnings r) <= lenN warnings).
    { unfold lenN. pose proof (submseteq_length _ _ (NoDup_submseteq _ _ Hn Hsub)). lia. }
    destruct complete; [rewrite (Hc eq_refl); lia|destruct (l_complete r); lia].
  - intros r b. change (toy_record_len (with_details b r) <= toy_record_len (facts r)). unfold toy_record_len. cbn. destruct b; lia.
Qed.

Definition call (n : N) : ToolRef := mkRef 1 2 n (lit "c").
Definition edit (p : string) : StoredFileChange :=
  mkStoredChange (lit p) Modified Missing (Content (toy_hash [65]) 1) Applied CoverageComplete true true.
Definition on_disk : list found :=
  [(call 2, edit "b", Some (lit "2026-01-02")); (call 1, edit "a", Some (lit "2026-01-01")); (call 3, edit "c", Some (lit "2026-01-03"))].
Definition in_memory : ToolData.ToolDataInner :=
  ToolData.note_file_change id (call 4) (mkChange (edit "d") None None false false)
    (ToolData.track (call 4) (lit "edit") ToolData.ToolDataInner_default).
Definition world (warm : option ToolData.ToolDataInner) (expired : N → bool) (files : list found) : World :=
  mkWorld expired 0 warm (Ok (files, false, 3, 3000)) (λ _, (None, Some [65])).
Definition steady : World := world (Some in_memory) (λ _, false) on_disk.
Definition hurried : World := world (Some in_memory) (λ n, bool_decide (3 < n)) on_disk.
(** The call in memory was also written, and memory let go of it. *)
Definition closed : World := world None (λ _, false) (on_disk ++ [(call 4, edit "d", Some (lit "2026-01-04"))]).

Definition list_of (w : World) : list ChangeRecord := match listing 1 ScopeSession w with Ok (records, _) => records | Err _ => [] end.
Definition paths (c : Client) : option (list str) := match c with Finished got => Some (map c_path got) | _ => None end.

Lemma sample_room records e : e_warnings e = [] → room 1 ScopeSession 2 (Some 1024) records e.
Proof.
  intros Hw. assert (Hh : result_len (plan_header (request 1 ScopeSession 2 (Some 1024) None) e (lenN records)) = 349)
    by (unfold plan_header; rewrite Hw; reflexivity).
  split; [reflexivity|rewrite Hh; by vm_compute|].
  intros i r _. unfold base_of. rewrite Hh. change (max_bytes _) with 1024. change (cursor_len None) with 4.
  assert (record_len r <= 205) by (change (toy_record_len r <= 205); unfold toy_record_len; destruct (details_available r); lia).
  match goal with |- context [cursor_len ?c] => assert (cursor_len c <= 150) by (change (toy_cursor_len c <= 150); destruct c; cbn; lia) end.
  lia.
Qed.

Lemma steady_listing : ∃ records e, listing 1 ScopeSession steady = Ok (records, e) ∧ length records = 4%nat ∧ e_warnings e = [].
Proof.
  assert (Hc : match listing 1 ScopeSession steady with
               | Ok (records, e) => bool_decide (length records = 4%nat) && bool_decide (e_warnings e = [])
               | Err _ => false end = true) by (vm_compute; reflexivity).
  destruct (listing 1 ScopeSession steady) as [[records e]|]; [|discriminate Hc].
  apply andb_true_iff in Hc as [Hlen%bool_decide_eq_true Hw%bool_decide_eq_true]. eauto.
Qed.

Lemma changes_followed_witness :
  paths (client 1 ScopeSession 2 (Some 1024) [steady; hurried; steady]) = Some (lit <$> ["a"; "b"; "c"; "d"]) ∧
  client 1 ScopeSession 2 (Some 1024) [steady; closed] = Changed ∧
  ∃ got, client 1 ScopeSession 2 (Some 1024) (replicate 5 steady) = Finished got.
Proof.
  split; [vm_compute; reflexivity|]. split; [vm_compute; reflexivity|].
  destruct (changes_followed 1 ScopeSession 2 (Some 1024)) as [_ Hlive].
  destruct steady_listing as (records & e & Hl & Hlen & Hw). rewrite <- (f_equal S Hlen).
  apply (Hlive steady records e Hl); [done|]. by apply sample_room.
Defined.
End ChangeSample.
