(* ===== verification/RecordFiles.v ===== *)
(** The files of the tool records of all sessions, [store.rs] and [store/tool_records].

    Each persisted call has a directory named by the hash of its reference, with its
    metadata and its blobs.  Here: what is on disk, what validates, reading a record
    and a blob, and the environment every operation depends on: which accesses fail,
    where the process dies, what the clock says.  [RecordStore] writes. *)

From S2P Require Import Prelude RustStr Errors ToolRecord ToolPage.
From S2P Require Status Time History HistoryPage Changes.
Open Scope N_scope.

Definition AUX_TOOLS_DIR : str := lit "tools".
Definition TOOL_RECORD_FILE : str := lit "record.json".
Definition TOOL_INPUT_FILE : str := lit "input.bin".
Definition TOOL_RESULT_FILE : str := lit "result.bin".
Definition TOOL_STDOUT_FILE : str := lit "stdout.bin".
Definition TOOL_STDERR_FILE : str := lit "stderr.bin".
Definition TOOL_BEFORE_FILE : str := lit "before.bin".
Definition TOOL_AFTER_FILE : str := lit "after.bin".
Definition ALLOWED_AUX_FILES : list str :=
  [TOOL_RECORD_FILE; TOOL_INPUT_FILE; TOOL_RESULT_FILE; TOOL_STDOUT_FILE; TOOL_STDERR_FILE; TOOL_BEFORE_FILE; TOOL_AFTER_FILE].
Definition MAX_TOOL_METADATA_BYTES : N := 64 * 1024.
Definition MAX_TOOL_INPUT_PERSIST_BYTES : N := 64 * 1024.
Definition MAX_TOOL_RESULT_PERSIST_BYTES : N := 256 * 1024.
Definition MAX_RECORD_FILE_BYTES : N := 3 * 1024 * 1024.
Definition KNOWN_TOOL_NAMES : list str := lit <$> ["read"; "write"; "edit"; "apply_patch"; "bash"]%string.
Definition LEGACY_STORED_TOOL_NAME : str := lit "subagent".

Notation StoreError := History.StoreError (only parsing).
#[export] Instance StoreError_eq_dec : EqDecision StoreError.
Proof. solve_decision. Defined.

(** ** Names *)

Definition valid_temp_suffix (suffix : str) : bool :=
  match split_once 45 suffix with
  | None => false
  | Some (pid, id) =>
      bool_decide (pid ≠ []) && forallb is_ascii_digit pid && bool_decide (id ≠ []) &&
      (forallb is_ascii_digit id
       || (bool_decide (str_len id = 32) && forallb (λ c, is_ascii_digit c || bool_decide (97 <= c <= 102)) id))
  end.

(** A name is cut at byte offsets, which lie between ASCII characters or the test fails
    before. *)
Definition lower_hex (c : char) : bool := bool_decide (48 <= c <= 57) || bool_decide (97 <= c <= 102).
Definition is_valid_temp_name (name : str) : bool :=
  match name with
  | 46 :: rest =>
      bool_decide (73 <= str_len name) && bool_decide (length (take 64 rest) = 64%nat) && forallb lower_hex (take 64 rest)
      && bool_decide (take 5 (drop 64 rest) = lit ".tmp-") && valid_temp_suffix (drop 69 rest)
  | _ => false
  end.

(** ** Validation *)

Definition matches_outcome (s : ToolExecutionState) (o : ToolResultOutcome) : bool :=
  match o, s with
  | OutcomeSuccess, Succeeded | OutcomeFailed, Failed | OutcomeDenied, Denied | OutcomeCancelled, Cancelled
  | OutcomeInputProvided, InputProvided => true
  | _, _ => false
  end.

(** [normalize_relative] of [workspace.rs], for its verdict. *)
Definition validate_relative_path (path : str) : bool :=
  if decide (0 ∈ path) then false
  else if Status.is_absolute (as_bytes path) then false
  else let components := Status.components (as_bytes path) in
       forallb (λ c, match c with Status.Normal _ | Status.CurDir => true | _ => false end) components
       && existsb (λ c, match c with Status.Normal _ => true | _ => false end) components.

Definition validate_stored_file_change (change : StoredFileChange) : result StoreError unit :=
  _ ← ensure (validate_relative_path (change_path change) = true) History.Corrupt;
  _ ← match before change with
      | Missing => ensure (before_captured change = true) History.Corrupt
      | Content sha256 bytes =>
          ensure (before_captured change = true ∧ bytes <= Changes.MAX_CHANGE_SNAPSHOT_BYTES ∧ HistoryPage.valid_sha256 sha256 = true)
            History.Corrupt
      | Metadata _ _ | RevisionUnknown => ensure (before_captured change = false) History.Corrupt
      end;
  _ ← match after change with
      | Content sha256 bytes =>
          ensure (after_captured change = true ∧ bytes <= Changes.MAX_CHANGE_SNAPSHOT_BYTES ∧ HistoryPage.valid_sha256 sha256 = true)
            History.Corrupt
      | _ => ensure (after_captured change = false) History.Corrupt
      end;
  match commit_state change with
  | Applied | CommitConflict => match after change with Content _ _ => Ok tt | _ => Err History.Corrupt end
  | NotCommitted | CommitUnknown => Ok tt
  end.

(** The name, the size and the digest of a blob. *)
Definition stored_blobs (r : StoredToolRecord) : list (str * N * option str) :=
  [(TOOL_INPUT_FILE, m_file_bytes (s_input r), m_file_sha256 (s_input r));
   (TOOL_RESULT_FILE, m_file_bytes (s_result r), m_file_sha256 (s_result r));
   (TOOL_STDOUT_FILE, w_file_bytes (s_stdout r), w_file_sha256 (s_stdout r));
   (TOOL_STDERR_FILE, w_file_bytes (s_stderr r), w_file_sha256 (s_stderr r))].

Definition validate_summary (m : StoredSummary) (cap : N) : result StoreError unit :=
  _ ← (if m_seen m then
         _ ← ensure (m_file_bytes m <= m_total_bytes m) History.Corrupt;
         ensure (m_expired m = true → m_file_bytes m = 0 ∧ m_file_sha256 m = None) History.Corrupt
       else ensure (m_total_bytes m = 0 ∧ m_file_bytes m = 0 ∧ m_file_sha256 m = None) History.Corrupt);
  ensure (m_file_bytes m <= cap) History.RecordTooLarge.

Definition validate_window (w : StoredStreamWindow) : result StoreError unit :=
  _ ← ensure (w_start_offset w <= w_observed_end w) History.Corrupt;
  _ ← (if w_seen w then
         if w_expired w then
           ensure (w_start_offset w = w_observed_end w ∧ w_file_bytes w = 0 ∧ w_file_sha256 w = None) History.Corrupt
         else ensure (w_observed_end w - w_start_offset w = w_file_bytes w) History.Corrupt
       else ensure (w_start_offset w = 0 ∧ w_observed_end w = 0 ∧ w_file_bytes w = 0 ∧ w_file_sha256 w = None) History.Corrupt);
  ensure (w_file_bytes w <= MAX_TOOL_STREAM_BYTES) History.RecordTooLarge.

Definition revision_bytes (r : ChangeRevision) : N := match r with Content _ bytes => bytes | _ => 0 end.
Definition change_file_bytes (change : StoredFileChange) : N :=
  saturating_add (revision_bytes (before change)) (revision_bytes (after change)).
Definition total_file_bytes (r : StoredToolRecord) : N :=
  foldl saturating_add (m_file_bytes (s_input r))
    [m_file_bytes (s_result r); w_file_bytes (s_stdout r); w_file_bytes (s_stderr r);
     from_option change_file_bytes 0 (s_file_change r)].

Definition validate_blob (blob : str * N * option str) : result StoreError unit :=
  let '(_, bytes, hash) := blob in
  ensure ((if decide (bytes = 0) then bool_decide (hash = None) else from_option HistoryPage.valid_sha256 false hash) = true)
    History.Corrupt.

Definition validate_command (r : StoredToolRecord) (cmd : CommandResult) : result StoreError unit :=
  _ ← ensure (command_terminal (status cmd) = true) History.Corrupt;
  ensure (stdout_base_offset cmd = w_start_offset (s_stdout r) ∧ stdout_observed_end cmd = w_observed_end (s_stdout r) ∧
          stderr_base_offset cmd = w_start_offset (s_stderr r) ∧ stderr_observed_end cmd = w_observed_end (s_stderr r))
    History.Corrupt.

(** [for x in list { f(x)?; }] *)
Fixpoint each {E A} (f : A → result E unit) (l : list A) : result E unit :=
  match l with [] => Ok tt | x :: l => _ ← f x; each f l end.

Definition validate_stored_tool_record (stored : StoredToolRecord) (tool_ref : ToolRef) : result StoreError unit :=
  _ ← ensure (s_version stored = TOOL_RECORD_FORMAT_VERSION) History.UnsupportedFormat;
  _ ← ensure (s_tool_ref stored = tool_ref) History.Corrupt;
  _ ← ensure (s_name stored ∈ KNOWN_TOOL_NAMES ∨ s_name stored = LEGACY_STORED_TOOL_NAME) History.Corrupt;
  _ ← ensure (state_terminal (s_state stored) = true) History.Corrupt;
  _ ← ensure (from_option (matches_outcome (s_state stored)) true (s_outcome stored) = true) History.Corrupt;
  _ ← validate_summary (s_input stored) MAX_TOOL_INPUT_PERSIST_BYTES;
  _ ← validate_summary (s_result stored) MAX_TOOL_RESULT_PERSIST_BYTES;
  _ ← validate_window (s_stdout stored);
  _ ← validate_window (s_stderr stored);
  _ ← ensure (total_file_bytes stored <= MAX_RECORD_FILE_BYTES) History.RecordTooLarge;
  _ ← each validate_blob (stored_blobs stored);
  _ ← match s_command stored with Some cmd => validate_command stored cmd | None => Ok tt end;
  match s_file_change stored with Some change => validate_stored_file_change change | None => Ok tt end.

(** [ToolPersistenceSnapshot::blobs] *)
Definition blobs (p : ToolPersistenceSnapshot) : list (str * option (list N)) :=
  [(TOOL_INPUT_FILE, p_input_bytes p); (TOOL_RESULT_FILE, p_result_bytes p); (TOOL_STDOUT_FILE, p_stdout_bytes p);
   (TOOL_STDERR_FILE, p_stderr_bytes p); (TOOL_BEFORE_FILE, p_file_change_before p); (TOOL_AFTER_FILE, p_file_change_after p)].

(** ** The disk *)

(** A file, and anything else with the length its metadata reports. *)
Inductive Node := Regular (bytes : list N) | Special (size : N).
Definition node_len (n : Node) : N := match n with Regular bytes => lenN bytes | Special size => size end.

(** An entry of the directory [tools] of a session: a directory with its files and the
    time it was made, or something else. *)
Inductive AuxNode := AuxDir (files : gmap str Node) (mtime : N) | AuxOther (size : N).
Inductive Tools := NoTools | ToolsDir (nodes : gmap str AuxNode) | ToolsOther (size : N).

(** The directories of the sessions, the lengths of what else lies beside them, and the
    sessions whose directory is being deleted.  Names are UTF-8. *)
Record Disk := mkDisk { d_sessions : gmap N Tools; d_foreign : list N; d_deleting : gset N }.

Definition tools_at (session : N) (d : Disk) : Tools := default NoTools (d_sessions d !! session).
Definition nodes_of (t : Tools) : gmap str AuxNode := match t with ToolsDir nodes => nodes | _ => ∅ end.
Definition node_at (session : N) (name : str) (d : Disk) : option AuxNode := nodes_of (tools_at session d) !! name.
Definition files_at (session : N) (name : str) (d : Disk) : gmap str Node :=
  match node_at session name d with Some (AuxDir files _) => files | _ => ∅ end.
Definition file_at (session : N) (dir name : str) (d : Disk) : option Node := files_at session dir d !! name.

(** ** The environment *)

(** A failure, the death of the process, or a panic. *)
Inductive Stop := Refuses (e : StoreError) | Died | Panicked.

(** Values as JSON and SHA-256. *)
Class RecordEncoding := {
  encode_record : StoredToolRecord → list N;
  decode_record : list N → option StoredToolRecord;
  digest : list N → str;
  tool_ref_hash : ToolRef → str
}.

Section reading.
Context `{RecordEncoding} {S : Type}.
Abbreviation M := (stm S Stop).
(** One access to the disk: what is there at that moment, or why there is no answer. *)
Context (look : M Disk).

(** [try m] is the result of [m] as a value; nobody catches a death or a panic. *)
Definition try {A} (m : M A) : M (result StoreError A) := λ s,
  match m s with
  | (s, Ok a) => (s, Ok (Ok a))
  | (s, Err (Refuses e)) => (s, Ok (Err e))
  | (s, Err e) => (s, Err e)
  end.

(** [real_dir_opt] of the directory of a session, of its [tools] and of a record. *)
Definition real_session (session : N) : M bool := d ← look; mret (bool_decide (is_Some (d_sessions d !! session))).
Definition real_tools (session : N) : M bool :=
  d ← look;
  match tools_at session d with NoTools => mret false | ToolsDir _ => mret true | ToolsOther _ => throw (Refuses History.Corrupt) end.
Definition real_record (session : N) (name : str) : M bool :=
  d ← look;
  match node_at session name d with
  | None => mret false
  | Some (AuxDir _ _) => mret true
  | Some (AuxOther _) => throw (Refuses History.Corrupt)
  end.

Definition load_tool_metadata (session : N) (dir : str) : M (option StoredToolRecord) :=
  d ← look;
  match file_at session dir TOOL_RECORD_FILE d with
  | None => mret None
  | Some (Special _) => throw (Refuses History.Corrupt)
  | Some (Regular bytes) =>
      _ ← look;
      _ ← throw_if (MAX_TOOL_METADATA_BYTES < lenN bytes) (Refuses History.Corrupt);
      match decode_record bytes with Some r => mret (Some r) | None => throw (Refuses History.Corrupt) end
  end.

Definition check_record (r : StoredToolRecord) (tool_ref : ToolRef) : M unit :=
  lift (map_err Refuses (validate_stored_tool_record r tool_ref)).

Definition read_tool_metadata (tool_ref : ToolRef) : M (option StoredToolRecord) :=
  let session := ref_session tool_ref in
  let directory := tool_ref_hash tool_ref in
  present ← real_session session;
  _ ← throw_if (present = false) (Refuses History.SessionNotFound);
  present ← real_tools session;
  if negb present then mret None else
  present ← real_record session directory;
  if negb present then mret None else
  found ← load_tool_metadata session directory;
  match found with
  | None => mret None
  | Some metadata => _ ← check_record metadata tool_ref; mret (Some metadata)
  end.

(** A blob that cannot be opened or read, or that is not what was written, is corrupt. *)
Definition read_blob (session : N) (dir name : str) (expected_bytes : N) (expected_sha256 : option str) : M ToolBlob :=
  if decide (expected_bytes = 0) then mret (None, false) else
  match expected_sha256 with
  | None => throw Panicked
  | Some expected_hash =>
      seen ← try look;
      match seen with
      | Err History.Unavailable => mret (None, true)
      | Err e => throw (Refuses e)
      | Ok d =>
          match file_at session dir name d with
          | Some (Regular file) =>
              let bytes := take (N.to_nat (expected_bytes + 1)) file in
              mret (if decide (lenN bytes ≠ expected_bytes) then (None, true)
                    else if decide (digest bytes ≠ expected_hash) then (None, true) else (Some bytes, false))
          | _ => mret (None, true)
          end
      end
  end.

Definition stream_index (s : ToolDataStream) : nat := match s with Input => 0 | Output => 1 | Stdout => 2 | Stderr => 3 end.

(** [read_tool_source] for one stream. *)
Definition read_tool_source (tool_ref : ToolRef) (stream : ToolDataStream) : M (option StoredToolRead) :=
  found ← read_tool_metadata tool_ref;
  match found with
  | None => mret None
  | Some metadata =>
      match stored_blobs metadata !! stream_index stream with
      | None => throw Panicked
      | Some (name, bytes, hash) =>
          blob ← read_blob (ref_session tool_ref) (tool_ref_hash tool_ref) name bytes hash;
          mret (Some (mkStoredRead metadata blob))
      end
  end.
End reading.
