(* ===== verification/RecordStore.v ===== *)
(** Writing the tool records of all sessions, [store/tool_records/ledger.rs],
    [commit.rs] and [delete_session] of [store.rs].

    All of it happens under one lock, which also guards a ledger of what the records
    take on disk.  Every access may fail, with its effect or without, and the process
    may die at each of them. *)

From stdpp Require Import sorting.
From S2P Require Import Prelude RustStr Errors ToolRecord RecordFiles.
From S2P Require Status Time History HistoryPage Changes.
Open Scope N_scope.

Record AuxLimits := mkLimits { l_session_bytes : N; l_session_records : N; l_global_bytes : N; l_global_records : N }.
Definition DEFAULT_AUX_LIMITS : AuxLimits := mkLimits (16 * 1024 * 1024) 1024 (256 * 1024 * 1024) 8192.

(** ** The ledger *)

Record AuxDirectoryEntry := mkEntry { a_session : N; a_name : str; a_bytes : N }.
(** The time of a directory and its path. *)
Definition AuxKey : Type := N * N * str.
Record AuxLedger := mkLedger {
  entries : gmap AuxKey AuxDirectoryEntry;
  session_totals : gmap N (N * N);
  global_bytes : N
}.
Definition AuxLedger_default : AuxLedger := mkLedger ∅ ∅ 0.

Definition totals_of (session : N) (l : AuxLedger) : N * N := default (0, 0) (session_totals l !! session).

Definition insert_entry (mtime : N) (e : AuxDirectoryEntry) (l : AuxLedger) : AuxLedger :=
  let (bytes, records) := totals_of (a_session e) l in
  mkLedger (<[(mtime, a_session e, a_name e) := e]> (entries l))
    (<[a_session e := (bytes + a_bytes e, records + 1)]> (session_totals l)) (global_bytes l + a_bytes e).

Definition note_foreign (session : option N) (bytes : N) (l : AuxLedger) : AuxLedger :=
  mkLedger (entries l)
    (match session with
     | Some session => let (b, r) := totals_of session l in <[session := (b + bytes, r)]> (session_totals l)
     | None => session_totals l
     end)
    (global_bytes l + bytes).

(** [unwrap]s an entry and the totals of its session. *)
Definition remove_entry (key : AuxKey) (l : AuxLedger) : option AuxLedger :=
  e ← entries l !! key;
  totals ← session_totals l !! a_session e;
  Some (mkLedger (delete key (entries l)) (<[a_session e := (totals.1 - a_bytes e, totals.2 - 1)]> (session_totals l))
          (global_bytes l - a_bytes e)).

Definition remove_session (session : N) (l : AuxLedger) : AuxLedger :=
  mkLedger (filter (λ p, a_session p.2 ≠ session) (entries l)) (delete session (session_totals l))
    (match session_totals l !! session with Some (bytes, _) => global_bytes l - bytes | None => global_bytes l end).

(** The order of a [BTreeMap]; the text of a session's identifier orders like the
    number it shows. *)
Definition key_le (a b : AuxKey) : Prop :=
  let '(t, s, n) := a in let '(t', s', n') := b in
  (bool_decide (t < t') || bool_decide (t = t') &&
   (bool_decide (s < s') || bool_decide (s = s') && Changes.str_le n n')) = true.
#[export] Instance key_le_dec : RelDecision key_le.
Proof. intros [[t s] n] [[t' s'] n']. unfold key_le. apply _. Defined.
Definition entry_le (a b : AuxKey * AuxDirectoryEntry) : Prop := key_le a.1 b.1.
#[export] Instance entry_le_dec : RelDecision entry_le.
Proof. intros a b. unfold entry_le. apply _. Defined.
Definition entries_in_order (l : AuxLedger) : list (AuxKey * AuxDirectoryEntry) := merge_sort entry_le (map_to_list (entries l)).

(** ** The store and its environment *)

#[export] Instance IoEnd_eq_dec : EqDecision History.IoEnd.
Proof. solve_decision. Defined.

Record Store := mkStore { disk : Disk; ledger : option AuxLedger; ticks : N }.

(** What happens at one access: how a change ends, what a removal or a write that fails
    leaves, whether a read fails, whether the process dies there, what the clock says. *)
Record Event := mkEvent {
  ev_end : History.IoEnd;
  ev_leaves : str → bool;
  ev_written : option nat;
  ev_unreadable : bool;
  ev_dies : bool;
  ev_expired : bool;
  ev_now : N;
  ev_size : N;
  ev_name : N * N
}.

Section store.
Context `{RecordEncoding}.
Context (env : N → Event).
Context (limits : AuxLimits).
Abbreviation M := (stm Store Stop).

Definition next_event : M Event := λ s, (mkStore (disk s) (ledger s) (ticks s + 1), Ok (env (ticks s))).
Definition set_ledger (l : option AuxLedger) : M unit := modify (λ s, mkStore (disk s) l (ticks s)).
Definition on_disk (f : Disk → Disk) : M unit := modify (λ s, mkStore (f (disk s)) (ledger s) (ticks s)).

(** A look at the disk under the lock. *)
Definition look : M Disk :=
  e ← next_event;
  _ ← throw_if (ev_dies e = true) Died;
  _ ← throw_if (ev_unreadable e = true) (Refuses History.Unavailable);
  s ← get;
  mret (disk s).

(** A change of the disk: [f] when it is made, [partial] when it is cut short. *)
Definition change (f : Event → Disk → Disk) (partial : Event → Disk → Disk) : M unit :=
  e ← next_event;
  _ ← on_disk (match ev_end e with History.IoLost => partial e | _ => f e end);
  _ ← throw_if (ev_dies e = true) Died;
  throw_if (ev_end e ≠ History.IoDone) (Refuses History.Unavailable).

(** [Instant::now() >= deadline] *)
Definition expired : M bool := e ← next_event; mret (ev_expired e).
Definition check_aux_deadline : M unit := late ← expired; throw_if (late = true) (Refuses History.Unavailable).

Definition alter_tools (session : N) (f : Tools → Tools) (d : Disk) : Disk :=
  mkDisk (alter f session (d_sessions d)) (d_foreign d) (d_deleting d).
Definition alter_nodes (f : gmap str AuxNode → gmap str AuxNode) (t : Tools) : Tools :=
  match t with ToolsDir nodes => ToolsDir (f nodes) | _ => t end.

(** [fs::remove_dir_all] of a directory of [tools]; a failure leaves some of the files. *)
Definition remove_dir_all (session : N) (name : str) : M unit :=
  s ← get;
  _ ← throw_if (node_at session name (disk s) = None) (Refuses History.Unavailable);
  change (λ _, alter_tools session (alter_nodes (delete name)))
    (λ e, alter_tools session (alter_nodes (alter (λ node,
       match node with AuxDir files mtime => AuxDir (filter (λ p, ev_leaves e p.1 = true) files) mtime | other => other end) name))).

(** [fs::remove_dir] of [tools], which removes it when it is empty; what it answers does
    not matter. *)
Definition cleanup_aux_parent (session : N) : M unit :=
  _ ← try (change (λ _, alter_tools session (λ t, match t with ToolsDir nodes => if decide (nodes = ∅) then NoTools else t | _ => t end))
             (λ _, id));
  mret tt.

Definition remove_aux_directory (session : N) (name : str) : M unit :=
  _ ← remove_dir_all session name;
  cleanup_aux_parent session.

Definition discard_aux_temp (session : N) (name : str) : M unit :=
  removed ← try (remove_aux_directory session name);
  match removed with Ok _ => mret tt | Err _ => set_ledger None end.

(** ** Scanning *)

(** The bytes of the files of a directory, and whether they are all files of a record. *)
Fixpoint scan_files_loop (files : list (str * Node)) (bytes : N) (valid : bool) : M (N * bool) :=
  _ ← check_aux_deadline;
  next ← try look;
  match next, files with
  | Err _, _ => mret (bytes, false)
  | Ok _, [] => mret (bytes, valid)
  | Ok _, (name, node) :: files =>
      meta ← try look;
      match meta with
      | Err _ => scan_files_loop files bytes false
      | Ok _ =>
          let regular := match node with Regular _ => true | Special _ => false end in
          scan_files_loop files (bytes + node_len node) (valid && regular && bool_decide (name ∈ ALLOWED_AUX_FILES))
      end
  end.
Definition scan_aux_files (files : gmap str Node) (directory_bytes : N) : M (N * bool) :=
  opened ← try look;
  match opened with Err _ => mret (directory_bytes, false) | Ok _ => scan_files_loop (map_to_list files) 0 true end.

(** The entry of the ledger for a directory whose files are those of a record. *)
Definition recorded (session : N) (name : str) (mtime bytes : N) : M (option (N * AuxDirectoryEntry)) :=
  if negb (HistoryPage.valid_sha256 name) then mret None else
  loaded ← try (load_tool_metadata look session name);
  match loaded with
  | Ok (Some record) =>
      mret (if decide (ref_session (s_tool_ref record) = session ∧ tool_ref_hash (s_tool_ref record) = name ∧
                       validate_stored_tool_record record (s_tool_ref record) = Ok tt)
            then Some (mtime, mkEntry session name bytes) else None)
  | _ => mret None
  end.

Definition scan_node (session : N) (name : str) (node : AuxNode) (l : AuxLedger) : M AuxLedger :=
  meta ← try look;
  match meta with
  | Err _ => mret l
  | Ok _ =>
      e ← next_event;
      sizes ← match node with AuxDir files _ => scan_aux_files files (ev_size e) | AuxOther size => mret (size, false) end;
      let (bytes, valid_files) := (sizes : N * bool) in
      let mtime := match node with AuxDir _ mtime => mtime | AuxOther _ => 0 end in
      if valid_files && is_valid_temp_name name then
        removed ← try (remove_aux_directory session name);
        match removed with
        | Ok _ => mret l
        | Err _ => mret (note_foreign (Some session) bytes l)
        end
      else
        found ← (if valid_files then recorded session name mtime bytes else mret None);
        match found with
        | Some (mtime, entry) => mret (insert_entry mtime entry l)
        | None => mret (note_foreign (Some session) bytes l)
        end
  end.

Fixpoint scan_nodes (session : N) (nodes : list (str * AuxNode)) (l : AuxLedger) : M AuxLedger :=
  _ ← check_aux_deadline;
  next ← try look;
  match next, nodes with
  | Err _, _ | Ok _, [] => mret l
  | Ok _, (name, node) :: nodes => l ← scan_node session name node l; scan_nodes session nodes l
  end.

Definition scan_session (session : N) (tools : Tools) (l : AuxLedger) : M AuxLedger :=
  meta ← try look;
  match meta with
  | Err _ => mret l
  | Ok _ =>
      e ← next_event;
      present ← try look;
      match present, tools with
      | Err _, _ => mret (note_foreign (Some session) (ev_size e) l)
      | Ok _, ToolsOther size => mret (note_foreign (Some session) size l)
      | Ok _, NoTools => mret l
      | Ok _, ToolsDir nodes =>
          opened ← try look;
          match opened with
          | Err _ => mret (note_foreign (Some session) (ev_size e) l)
          | Ok _ => scan_nodes session (map_to_list nodes) l
          end
      end
  end.

(** The directories of the sessions, then what else is there; the order does not matter. *)
Fixpoint scan_sessions (sessions : list (N * Tools)) (l : AuxLedger) : M AuxLedger :=
  match sessions with
  | [] => mret l
  | (session, tools) :: sessions =>
      _ ← check_aux_deadline;
      _ ← look;
      l ← scan_session session tools l;
      scan_sessions sessions l
  end.
Fixpoint scan_foreign (sizes : list N) (l : AuxLedger) : M AuxLedger :=
  _ ← check_aux_deadline;
  _ ← look;
  match sizes with
  | [] => mret l
  | size :: sizes =>
      meta ← try look;
      scan_foreign sizes (match meta with Ok _ => note_foreign None size l | Err _ => l end)
  end.

Definition scan_aux_ledger : M AuxLedger :=
  d ← look;
  l ← scan_sessions (map_to_list (d_sessions d)) AuxLedger_default;
  scan_foreign (d_foreign d) l.

(** ** The budget *)

Definition session_full (session reserve : N) (l : AuxLedger) : bool :=
  let (bytes, records) := totals_of session l in
  bool_decide (l_session_bytes limits < saturating_add bytes reserve) || bool_decide (l_session_records limits < records + 1).
Definition global_full (reserve : N) (l : AuxLedger) : bool :=
  bool_decide (l_global_bytes limits < saturating_add (global_bytes l) reserve)
  || bool_decide (l_global_records limits < N.of_nat (size (entries l)) + 1).

(** The oldest entry, of the session when it is the session that is full. *)
Definition victim (session reserve : N) (l : AuxLedger) : option (AuxKey * AuxDirectoryEntry) :=
  head (filter (λ p, negb (session_full session reserve l) || bool_decide (a_session p.2 = session) = true) (entries_in_order l)).

(** The loop; each round removes an entry or returns. *)
Fixpoint evict_loop (fuel : nat) (session reserve : N) : M unit :=
  s ← get;
  match ledger s with
  | None => throw Panicked
  | Some l =>
      if negb (session_full session reserve l || global_full reserve l) then mret tt else
      match fuel with
      | O => throw Panicked
      | S fuel =>
          _ ← check_aux_deadline;
          match victim session reserve l with
          | None => throw (Refuses History.Unavailable)
          | Some (key, entry) =>
              _ ← set_ledger None;
              _ ← remove_dir_all (a_session entry) (a_name entry);
              match remove_entry key l with
              | None => throw Panicked
              | Some l =>
                  _ ← set_ledger (Some l);
                  _ ← cleanup_aux_parent (a_session entry);
                  evict_loop fuel session reserve
              end
          end
      end
  end.

Definition enforce_aux_budget (session reserve : N) : M unit :=
  s ← get;
  _ ← match ledger s with
      | Some _ => mret tt
      | None => l ← scan_aux_ledger; set_ledger (Some l)
      end;
  s ← get;
  evict_loop (from_option (λ l, size (entries l)) O (ledger s)) session reserve.

(** ** Committing a record *)

(** The name of a temporary directory, from the process and 128 random bits. *)
Fixpoint hex_digits (n : nat) (v : N) : str :=
  match n with O => [] | S n => hex_digits n (v / 16) ++ [HistoryPage.hex_char (v mod 16)] end.
Definition temp_name (name : str) (id : N * N) : str :=
  lit "." ++ name ++ lit ".tmp-" ++ show_N id.1 ++ lit "-" ++ hex_digits 32 id.2.
Definition unique_temp_name (name : str) : M str :=
  e ← next_event;
  _ ← throw_if (ev_unreadable e = true) (Refuses History.Unavailable);
  mret (temp_name name (ev_name e)).

Definition create_tools (session : N) : M unit :=
  change (λ _, alter_tools session (λ t, match t with NoTools => ToolsDir ∅ | _ => t end)) (λ _, id).

(** [create_dir] of a directory of [tools], which fails where there is something. *)
Definition create_record_dir (session : N) (name : str) : M unit :=
  s ← get;
  match tools_at session (disk s) with
  | ToolsDir nodes =>
      _ ← throw_if (is_Some (nodes !! name)) (Refuses History.Unavailable);
      change (λ e, alter_tools session (alter_nodes (<[name := AuxDir ∅ (ev_now e)]>))) (λ _, id)
  | _ => throw (Refuses History.Unavailable)
  end.

(** A new file with its bytes; a failed write may leave some of them. *)
Definition put_file (session : N) (dir name : str) (bytes : list N) : Disk → Disk :=
  alter_tools session (alter_nodes (alter (λ node,
    match node with AuxDir files mtime => AuxDir (<[name := Regular bytes]> files) mtime | other => other end) dir)).
Definition write_sync_file (session : N) (dir name : str) (bytes : list N) : M unit :=
  s ← get;
  _ ← throw_if (is_Some (file_at session dir name (disk s))) (Refuses History.Unavailable);
  change (λ _, put_file session dir name bytes)
    (λ e, match ev_written e with Some k => put_file session dir name (take k bytes) | None => id end).

Definition rename_record (session : N) (temp name : str) : M unit :=
  s ← get;
  match node_at session temp (disk s) with
  | None => throw (Refuses History.Unavailable)
  | Some node => change (λ _, alter_tools session (alter_nodes (λ nodes, <[name := node]> (delete temp nodes)))) (λ _, id)
  end.
(** [sync_directory] changes nothing that the model sees. *)
Definition sync_directory : M unit := change (λ _, id) (λ _, id).

Fixpoint write_blobs (session : N) (dir : str) (blobs : list (str * option (list N))) : M unit :=
  match blobs with
  | [] => mret tt
  | (name, Some bytes) :: blobs =>
      _ ← check_aux_deadline;
      _ ← write_sync_file session dir name bytes;
      write_blobs session dir blobs
  | (_, None) :: blobs => write_blobs session dir blobs
  end.
Definition write_record (session : N) (dir : str) (blobs : list (str * option (list N))) (record_bytes : list N) : M unit :=
  _ ← write_blobs session dir blobs;
  _ ← check_aux_deadline;
  _ ← write_sync_file session dir TOOL_RECORD_FILE record_bytes;
  _ ← check_aux_deadline;
  sync_directory.

Definition raw_bytes (p : ToolPersistenceSnapshot) : N := foldr (λ b n, from_option lenN 0 b.2 + n) 0 (blobs p).

(** A record that is there already has to be the same one, whole. *)
Fixpoint check_blobs (session : N) (dir : str) (blobs : list (str * N * option str)) : M unit :=
  match blobs with
  | [] => mret tt
  | (name, bytes, hash) :: blobs =>
      '(bytes, corrupt) ← read_blob look session dir name bytes hash;
      let text := bool_decide (name = TOOL_INPUT_FILE ∨ name = TOOL_RESULT_FILE) in
      _ ← throw_if (corrupt || (text && from_option (λ b, bool_decide (from_utf8 b = None)) false bytes) = true)
            (Refuses History.Corrupt);
      check_blobs session dir blobs
  end.
Definition check_existing (p : ToolPersistenceSnapshot) : M unit :=
  let tool_ref := p_tool_ref p in
  found ← read_tool_metadata look tool_ref;
  match found with
  | None => throw (Refuses History.Corrupt)
  | Some existing =>
      _ ← throw_if (encode_record existing ≠ encode_record (p_record p)) (Refuses History.Corrupt);
      check_blobs (ref_session tool_ref) (tool_ref_hash tool_ref) (stored_blobs existing)
  end.

(** The check changes nothing, so a deadline that ends it early only replaces its answer. *)
Definition timed_check (p : ToolPersistenceSnapshot) : M unit :=
  checked ← try (check_existing p);
  late ← expired;
  _ ← throw_if (late = true) (Refuses History.Corrupt);
  lift (map_err Refuses checked).

(** The session's directory and whether it has [tools]. *)
Definition require_tools (session : N) : M unit :=
  d ← look;
  _ ← throw_if (d_sessions d !! session = None) (Refuses History.SessionNotFound);
  d ← look;
  match tools_at session d with ToolsOther _ => throw (Refuses History.Corrupt) | _ => mret tt end.

(** [create_dir] of [tools], which may be there already. *)
Definition ensure_tools (session : N) : M unit :=
  s ← get;
  match tools_at session (disk s) with
  | NoTools => create_tools session
  | tools =>
      _ ← look;
      seen ← try look;
      match seen, tools with
      | Ok _, ToolsDir _ => mret tt
      | _, _ => throw (Refuses History.Corrupt)
      end
  end.

(** A temporary directory with all files of the record. *)
Definition stage_record (session : N) (name : str) (blobs : list (str * option (list N))) (record_bytes : list N) : M str :=
  _ ← check_aux_deadline;
  _ ← ensure_tools session;
  temp ← unique_temp_name name;
  late ← expired;
  _ ← (if late : bool then _ ← cleanup_aux_parent session; throw (Refuses History.Unavailable) else mret tt);
  created ← try (create_record_dir session temp);
  _ ← match created with Ok _ => mret tt | Err e => _ ← cleanup_aux_parent session; throw (Refuses e) end;
  written ← try (write_record session temp blobs record_bytes);
  _ ← match written with Ok _ => mret tt | Err _ => _ ← discard_aux_temp session temp; throw (Refuses History.Unavailable) end;
  late ← expired;
  _ ← (if late : bool then _ ← discard_aux_temp session temp; throw (Refuses History.Unavailable) else mret tt);
  mret temp.

(** The temporary directory under its name, and in the ledger. *)
Definition publish_record (session : N) (temp name : str) (item_bytes : N) : M unit :=
  renamed ← try (rename_record session temp name);
  _ ← match renamed with Ok _ => mret tt | Err e => _ ← discard_aux_temp session temp; throw (Refuses e) end;
  s ← get;
  _ ← match ledger s with
      | None => throw Panicked
      | Some l => e ← next_event; set_ledger (Some (insert_entry (ev_now e) (mkEntry session name item_bytes) l))
      end;
  sync_directory.

Definition commit_tool_record (p : ToolPersistenceSnapshot) : M unit :=
  let tool_ref := p_tool_ref p in
  let session := ref_session tool_ref in
  let name := tool_ref_hash tool_ref in
  _ ← check_aux_deadline;
  _ ← check_record (p_record p) tool_ref;
  _ ← throw_if (MAX_RECORD_FILE_BYTES < raw_bytes p) (Refuses History.RecordTooLarge);
  _ ← require_tools session;
  present ← real_record look session name;
  if present : bool then timed_check p else
  let record_bytes := encode_record (p_record p) in
  _ ← throw_if (MAX_TOOL_METADATA_BYTES < lenN record_bytes) (Refuses History.RecordTooLarge);
  let item_bytes := lenN record_bytes + raw_bytes p in
  _ ← enforce_aux_budget session (saturating_mul item_bytes 2);
  temp ← stage_record session name (blobs p) record_bytes;
  publish_record session temp name item_bytes.

(** Every call of a loop, with the snapshot there is of it; once the deadline is over,
    the others fail. *)
Fixpoint persist_loop (calls : list (ToolRef * option ToolPersistenceSnapshot)) (late : bool)
    : M (list (ToolRef * result StoreError unit)) :=
  match calls with
  | [] => mret []
  | (tool_ref, snapshot) :: calls =>
      now ← expired;
      let late := late || now in
      match (if late : bool then None else snapshot) with
      | None => rest ← persist_loop calls late; mret ((tool_ref, Err History.Unavailable) :: rest)
      | Some p =>
          res ← try (commit_tool_record p);
          now ← expired;
          rest ← persist_loop calls (bool_decide (res = Err History.QueryLimit) || now);
          mret ((tool_ref, res) :: rest)
      end
  end.
Definition persist_loop_tool_records (calls : list (ToolRef * option ToolPersistenceSnapshot))
    : M (list (ToolRef * result StoreError unit)) := persist_loop calls false.

(** ** Deleting a session *)

Definition delete_session (session : N) : M unit :=
  d ← look;
  _ ← throw_if (d_sessions d !! session = None) (Refuses History.SessionNotFound);
  d ← look;
  _ ← throw_if (session ∈ d_deleting d) (Refuses History.Corrupt);
  renamed ← try (change (λ _ d, mkDisk (delete session (d_sessions d)) (d_foreign d) ({[session]} ∪ d_deleting d)) (λ _, id));
  _ ← match renamed with
      | Err e => _ ← set_ledger None; throw (Refuses e)
      | Ok _ => s ← get; set_ledger (remove_session session <$> ledger s)
      end;
  synced ← try sync_directory;
  _ ← match synced with Err e => _ ← set_ledger None; throw (Refuses e) | Ok _ => mret tt end;
  _ ← try (change (λ _ d, mkDisk (d_sessions d) (d_foreign d) (d_deleting d ∖ {[session]})) (λ _, id));
  mret tt.
End store.
