(* ===== verification/RecordDisk.v ===== *)
(** What is on disk of the tool records, whatever fails and wherever the process dies,
    [store/tool_records].

    Calls are persisted, sessions created and deleted, the process dies and is started
    again, and clients read in the middle of all that.  The theorem: what is read of a
    call is what one of its snapshots says, or it is told that it is gone or corrupt;
    and a call that was acknowledged can be read. *)

From S2P Require Import Prelude RustStr Errors ToolRecord ToolPage RecordFiles RecordStore.
From S2P Require Status Time History HistoryPage Changes.
Open Scope N_scope.

(** A hash is 64 hexadecimal digits in lower case, and a record reads back as it was
    written. *)
Class RecordEncodingLaws `{RecordEncoding} : Prop := {
  ref_hash_length r : length (tool_ref_hash r) = 64%nat;
  ref_hash_hex r : forallb lower_hex (tool_ref_hash r) = true;
  decode_law r : decode_record (encode_record r) = Some r
}.

(** ** Names of temporary directories *)

Lemma lower_hex_len s : forallb lower_hex s = true → str_len s = lenN s.
Proof.
  induction s as [|c s IH]; [done|]. cbn [forallb]. intros [Hc Hs]%andb_true_iff. rewrite str_len_cons, lenN_cons, IH by done.
  unfold lower_hex in Hc. rewrite orb_true_iff, !bool_decide_eq_true in Hc. unfold len_utf8. rewrite decide_True by lia. lia.
Qed.
Lemma hex_digits_length n v : length (hex_digits n v) = n.
Proof. revert v. induction n; intros v; cbn; [done|]. rewrite length_app, IHn. cbn. lia. Qed.
Lemma hex_digits_lower n v : forallb lower_hex (hex_digits n v) = true.
Proof.
  revert v. induction n as [|n IH]; intros v; cbn; [done|]. rewrite forallb_app, IH. cbn. rewrite andb_true_r.
  pose proof (N.mod_lt v 16 ltac:(lia)) as Hlt. unfold HistoryPage.hex_char, lower_hex. set (d := v mod 16) in *. clearbody d.
  destruct (decide (d < 10)); rewrite orb_true_iff, !bool_decide_eq_true; lia.
Qed.


(** Every temporary directory is recognised, so that a scan takes it away. *)
Lemma temp_name_valid name id :
  length name = 64%nat → forallb lower_hex name = true → is_valid_temp_name (temp_name name id) = true.
Proof.
  intros Hlen Hhex. unfold temp_name. change (lit ".") with [46]. cbn [app is_valid_temp_name].
  set (tail := show_N id.1 ++ lit "-" ++ hex_digits 32 id.2).
  pose proof (show_N_digits id.1) as Hpid. unfold is_decimal_digits in Hpid. apply andb_true_iff in Hpid as [Hne Hpid].
  rewrite take_app_length' by done. rewrite !andb_true_iff, !bool_decide_eq_true. repeat split.
  - rewrite str_len_cons, !str_len_app, (lower_hex_len name) by done. change (str_len (lit ".tmp-")) with 5. unfold lenN. rewrite Hlen.
    unfold tail. rewrite !str_len_app, (lower_hex_len (hex_digits 32 _)) by apply hex_digits_lower. unfold lenN. rewrite hex_digits_length.
    change (len_utf8 46) with 1. lia.
  - done.
  - done.
  - rewrite drop_app_length' by done. done.
  - rewrite (drop_app_ge _ (lit ".tmp-" ++ tail)) by lia. rewrite Hlen. change (drop (69 - 64) (lit ".tmp-" ++ tail)) with tail.
    unfold tail, valid_temp_suffix. change (lit "-") with [45]. cbn [app]. rewrite split_once_app.
    + rewrite Hne, Hpid. cbn [andb]. rewrite andb_true_iff, bool_decide_eq_true. split.
      { intros Hnil. apply (f_equal length) in Hnil. by rewrite hex_digits_length in Hnil. }
      rewrite orb_true_iff. right. rewrite andb_true_iff, bool_decide_eq_true. split.
      { rewrite lower_hex_len by apply hex_digits_lower. unfold lenN. by rewrite hex_digits_length. }
      apply forallb_forall. intros c Hc. exact (proj1 (forallb_forall _ _) (hex_digits_lower 32 id.2) c Hc).
    + intros Hin. rewrite forallb_forall in Hpid. specialize (Hpid 45). rewrite <- list_elem_of_In in Hpid. by specialize (Hpid Hin).
Qed.

Lemma hash_not_temp name : length name = 64%nat → forallb lower_hex name = true → is_valid_temp_name name = false.
Proof.
  intros Hlen Hhex. destruct name as [|c name]; [done|]. cbn [forallb] in Hhex. apply andb_true_iff in Hhex as [Hc _].
  destruct (is_valid_temp_name (c :: name)) eqn:Ht; [|done].
  assert (c = 46) as ->; [|done]. unfold is_valid_temp_name in Ht.
  repeat match type of Ht with match ?x with _ => _ end = _ => destruct x; try done end.
Qed.

(** ** Programs and the disk *)

Section disk.
Context `{RecordEncoding} {RL : RecordEncodingLaws}.
Context (env : N → Event) (limits : AuxLimits).
Abbreviation M := (stm Store Stop).

(** [m] keeps what [J] says of the disk, however it ends. *)
Definition stays (J : Disk → Prop) {A} (m : M A) : Prop := ∀ s, J (disk s) → J (disk (m s).1).

Section stays.
Context (J : Disk → Prop).

Lemma stays_ret {A} (a : A) : stays J (mret a).
Proof. by intros s. Qed.
Lemma stays_throw {A} e : stays J (throw e : M A).
Proof. by intros s. Qed.
Lemma stays_lift {A} (r : result Stop A) : stays J (lift r).
Proof. by intros s. Qed.
Lemma stays_throw_if P `{Decision P} e : stays J (throw_if P e).
Proof. intros s Hs. by rewrite throw_if_run. Qed.
Lemma stays_bind {A B} (m : M A) (f : A → M B) : stays J m → (∀ a, stays J (f a)) → stays J (m ≫= f).
Proof.
  intros Hm Hf s Hs. specialize (Hm s Hs). unfold mbind, stm_bind. destruct (m s) as [s' [a|e]]; [by apply Hf|done].
Qed.
Lemma stays_get {B} (f : Store → M B) : (∀ s, stays J (f s)) → stays J (get ≫= f).
Proof. intros Hf s Hs. by apply Hf. Qed.
Lemma stays_try {A} (m : M A) : stays J m → stays J (try m).
Proof. intros Hm s Hs. specialize (Hm s Hs). unfold try. by destruct (m s) as [s' [a|[]]]. Qed.
Lemma stays_next_event : stays J (next_event env).
Proof. by intros s. Qed.
Lemma stays_set_ledger l : stays J (set_ledger l).
Proof. by intros s. Qed.
Lemma stays_on_disk f : (∀ d, J d → J (f d)) → stays J (on_disk f).
Proof. intros Hf s Hs. by apply Hf. Qed.
Lemma stays_change f partial : (∀ e d, J d → J (f e d)) → (∀ e d, J d → J (partial e d)) → stays J (change env f partial).
Proof.
  intros Hf Hp. unfold change. apply stays_bind; [apply stays_next_event|]. intros e. apply stays_bind.
  - apply stays_on_disk. destruct (ev_end e); auto.
  - intros _. apply stays_bind; [apply stays_throw_if|]. intros _. apply stays_throw_if.
Qed.
Lemma stays_look : stays J (look env).
Proof.
  apply stays_bind; [apply stays_next_event|]. intros e. apply stays_bind; [apply stays_throw_if|]. intros _.
  apply stays_bind; [apply stays_throw_if|]. intros _. apply stays_get. intros s. apply stays_ret.
Qed.
Lemma stays_expired : stays J (expired env).
Proof. apply stays_bind; [apply stays_next_event|]. intros e. apply stays_ret. Qed.
Lemma stays_deadline : stays J (check_aux_deadline env).
Proof. apply stays_bind; [apply stays_expired|]. intros late. apply stays_throw_if. Qed.
End stays.
End disk.
#[export] Hint Resolve stays_ret stays_throw stays_lift stays_throw_if stays_next_event stays_set_ledger stays_look
  stays_expired stays_deadline : stays.

(** Follows the binds and the branches of a program. *)
Ltac stays_steps :=
  repeat first
    [ progress intros
    | solve [auto with stays]
    | match goal with
      | |- stays _ (get ≫= _) => apply stays_get
      | |- stays _ (_ ≫= _) => apply stays_bind
      | |- stays _ (try _) => apply stays_try
      end
    | match goal with |- stays _ (if ?b then _ else _) => destruct b end
    | match goal with |- stays _ (match ?x with _ => _ end) => destruct x end ].

(** ** Changes of the disk, seen from an entry *)

Lemma node_at_alter session g d session' name :
  node_at session' name (alter_tools session (alter_nodes g) d) =
  if decide (session' = session) then (match tools_at session d with ToolsDir nodes => g nodes !! name | _ => None end)
  else node_at session' name d.
Proof.
  unfold node_at, tools_at, alter_tools. cbn [d_sessions]. destruct (decide (session' = session)) as [->|Hne].
  - rewrite lookup_alter_eq. destruct (d_sessions d !! session) as [[|nodes|size]|]; done.
  - by rewrite lookup_alter_ne.
Qed.
Lemma node_at_dir session name d :
  node_at session name d = match tools_at session d with ToolsDir nodes => nodes !! name | _ => None end.
Proof. unfold node_at. by destruct (tools_at session d). Qed.

(** A function on one entry. *)
Lemma node_at_alter_one session name (f : AuxNode → AuxNode) d session' name' :
  node_at session' name' (alter_tools session (alter_nodes (alter f name)) d) =
  if decide (session' = session ∧ name' = name) then f <$> node_at session name d else node_at session' name' d.
Proof.
  rewrite node_at_alter. destruct (decide (session' = session)) as [->|Hs].
  - rewrite !(node_at_dir session). destruct (decide (name' = name)) as [->|Hn].
    + rewrite decide_True by done. destruct (tools_at session d); [done| |done]. by rewrite lookup_alter_eq.
    + rewrite decide_False by tauto. destruct (tools_at session d); [done| |done]. by rewrite lookup_alter_ne.
  - rewrite decide_False by tauto. done.
Qed.

Section sound.
Context `{RecordEncoding} {RL : RecordEncodingLaws}.
Context (env : N → Event) (limits : AuxLimits).
Abbreviation M := (stm Store Stop).

Definition put_blob (files : gmap str Node) (blob : str * option (list N)) : gmap str Node :=
  match blob.2 with Some bytes => <[blob.1 := Regular bytes]> files | None => files end.
(** The directory of a snapshot. *)
Definition record_files (p : ToolPersistenceSnapshot) : gmap str Node :=
  <[TOOL_RECORD_FILE := Regular (encode_record (p_record p))]> (foldl put_blob ∅ (blobs p)).

(** Every directory has files of one snapshot of its call, or is temporary. *)
Definition is_record (P : ToolPersistenceSnapshot → Prop) (session : N) (name : str) (files : gmap str Node) : Prop :=
  ∃ p, P p ∧ validate_stored_tool_record (p_record p) (p_tool_ref p) = Ok tt ∧ ref_session (p_tool_ref p) = session ∧
       tool_ref_hash (p_tool_ref p) = name ∧ files ⊆ record_files p.
Definition sound (P : ToolPersistenceSnapshot → Prop) (d : Disk) : Prop :=
  ∀ session name node, node_at session name d = Some node →
  ∃ files mtime, node = AuxDir files mtime ∧ (is_record P session name files ∨ is_valid_temp_name name = true).

Context (P : ToolPersistenceSnapshot → Prop).
Abbreviation kept := (stays (sound P)).

Lemma sound_same d d' : (∀ session name, node_at session name d' = node_at session name d) → sound P d → sound P d'.
Proof. intros Hd Hs session name node. rewrite Hd. apply Hs. Qed.
Lemma sound_delete session name d : sound P d → sound P (alter_tools session (alter_nodes (delete name)) d).
Proof.
  intros Hs session' name' node. rewrite node_at_alter. destruct (decide (session' = session)) as [->|]; [|apply Hs].
  destruct (tools_at session d) as [|nodes|] eqn:Ht; [done| |done]. intros [_ Hn]%lookup_delete_Some.
  apply (Hs session name'). by rewrite node_at_dir, Ht.
Qed.
Lemma sound_shrink session name (keep : str * Node → Prop) `{!∀ p, Decision (keep p)} d :
  sound P d → sound P (alter_tools session (alter_nodes (alter (λ node,
    match node with AuxDir files mtime => AuxDir (filter keep files) mtime | other => other end) name)) d).
Proof.
  intros Hs session' name' node. rewrite node_at_alter_one. destruct (decide _) as [[-> ->]|]; [|apply Hs].
  intros (node0 & Hn & Hnode)%fmap_Some. destruct (Hs _ _ _ Hn) as (files & mtime & -> & Hr). subst node.
  eexists _, _. split; [done|]. destruct Hr as [(p & Hp & Hv & Hsess & Hname & Hsub)|Ht]; [left|by right].
  exists p. split_and!; try done. etransitivity; [apply map_filter_subseteq|done].
Qed.
Lemma sound_put session dir name bytes d :
  is_valid_temp_name dir = true → sound P d → sound P (put_file session dir name bytes d).
Proof.
  intros Ht Hs session' name' node. unfold put_file. rewrite node_at_alter_one.
  destruct (decide _) as [[-> ->]|]; [|apply Hs]. intros (node0 & Hn & Hnode)%fmap_Some.
  destruct (Hs _ _ _ Hn) as (files & mtime & -> & _). subst node. eexists _, _. split; [done|by right].
Qed.
Lemma sound_create session name mtime d :
  is_valid_temp_name name = true → sound P d → sound P (alter_tools session (alter_nodes (<[name := AuxDir ∅ mtime]>)) d).
Proof.
  intros Ht Hs session' name' node. rewrite node_at_alter. destruct (decide (session' = session)) as [->|]; [|apply Hs].
  destruct (tools_at session d) as [|nodes|] eqn:Htools; [done| |done]. intros [[<- <-]|[_ Hn]]%lookup_insert_Some.
  - eexists _, _. split; [done|by right].
  - apply (Hs session name'). by rewrite node_at_dir, Htools.
Qed.
Lemma sound_rename session temp name node d :
  (∀ files mtime, node = AuxDir files mtime → is_record P session name files) →
  node_at session temp d = Some node → sound P d →
  sound P (alter_tools session (alter_nodes (λ nodes, <[name := node]> (delete temp nodes))) d).
Proof.
  intros Hrec Htemp Hs session' name' node'. rewrite node_at_alter. destruct (decide (session' = session)) as [->|]; [|apply Hs].
  destruct (tools_at session d) as [|nodes|] eqn:Htools; [done| |done].
  intros [[<- <-]|[_ [_ Hn]%lookup_delete_Some]]%lookup_insert_Some.
  - destruct (Hs _ _ _ Htemp) as (files & mtime & -> & _). eexists _, _. split; [done|]. left. by eapply Hrec.
  - apply (Hs session name'). by rewrite node_at_dir, Htools.
Qed.

(** ** Every operation but the last rename of a commit *)

Lemma stays_remove_dir_all session name : kept (remove_dir_all env session name).
Proof.
  apply stays_get. intros s. apply stays_bind; [apply stays_throw_if|]. intros _. apply stays_change; intros e d Hd.
  - by apply sound_delete.
  - by apply sound_shrink.
Qed.
Lemma stays_cleanup session : kept (cleanup_aux_parent env session).
Proof.
  apply stays_bind; [|intros; apply stays_ret]. apply stays_try, stays_change; intros e d Hd; [|done].
  revert Hd. apply sound_same. intros session' name. unfold node_at, tools_at, alter_tools. cbn [d_sessions].
  destruct (decide (session' = session)) as [->|]; [|by rewrite lookup_alter_ne]. rewrite lookup_alter_eq.
  destruct (d_sessions d !! session) as [[|nodes|]|]; try done. cbn. by destruct (decide (nodes = ∅)) as [->|].
Qed.
Lemma stays_remove_aux session name : kept (remove_aux_directory env session name).
Proof. apply stays_bind; [apply stays_remove_dir_all|]. intros _. apply stays_cleanup. Qed.
Lemma stays_discard session name : kept (discard_aux_temp env session name).
Proof. apply stays_bind; [apply stays_try, stays_remove_aux|]. intros []; auto with stays. Qed.
Hint Resolve stays_remove_dir_all stays_cleanup stays_remove_aux stays_discard : stays.

Lemma stays_scan_files files bytes valid : kept (scan_files_loop env files bytes valid).
Proof. revert bytes valid. induction files as [|[name node] files IH]; intros bytes valid; cbn [scan_files_loop]; stays_steps. Qed.
Hint Resolve stays_scan_files : stays.
Lemma stays_load_metadata session dir : kept (load_tool_metadata (look env) session dir).
Proof. unfold load_tool_metadata. stays_steps. Qed.
Hint Resolve stays_load_metadata : stays.
Lemma stays_scan_node session name node l : kept (scan_node env session name node l).
Proof. unfold scan_node, scan_aux_files, recorded. stays_steps. Qed.
Hint Resolve stays_scan_node : stays.
Lemma stays_scan_nodes session nodes l : kept (scan_nodes env session nodes l).
Proof. revert l. induction nodes as [|[name node] nodes IH]; intros l; cbn [scan_nodes]; stays_steps. Qed.
Hint Resolve stays_scan_nodes : stays.
Lemma stays_scan_sessions sessions l : kept (scan_sessions env sessions l).
Proof. revert l. induction sessions as [|[session tools] sessions IH]; intros l; cbn [scan_sessions]; unfold scan_session; stays_steps. Qed.
Lemma stays_scan_foreign sizes l : kept (scan_foreign env sizes l).
Proof. revert l. induction sizes as [|size sizes IH]; intros l; cbn [scan_foreign]; stays_steps. Qed.
Hint Resolve stays_scan_sessions stays_scan_foreign : stays.
Lemma stays_scan : kept (scan_aux_ledger env).
Proof. unfold scan_aux_ledger. stays_steps. Qed.
Hint Resolve stays_scan : stays.

Lemma stays_evict fuel session reserve : kept (evict_loop env limits fuel session reserve).
Proof.
  induction fuel as [|fuel IH]; cbn [evict_loop]; stays_steps.
Qed.
Hint Resolve stays_evict : stays.
Lemma stays_enforce session reserve : kept (enforce_aux_budget env limits session reserve).
Proof. unfold enforce_aux_budget. stays_steps. Qed.
Hint Resolve stays_enforce : stays.

(** ** Staging a record *)

(** When [m] returns, from a disk with [J], [Q] holds of what it returns and of the disk. *)
Definition leaves {A} (J : Disk → Prop) (m : M A) (Q : A → Disk → Prop) : Prop :=
  ∀ s, J (disk s) → match (m s).2 with Ok a => Q a (disk (m s).1) | Err _ => True end.

Lemma leaves_bind {A B} J (m : M A) (f : A → M B) Q R :
  leaves J m Q → (∀ a, leaves (Q a) (f a) R) → leaves J (m ≫= f) R.
Proof.
  intros Hm Hf s Hs. specialize (Hm s Hs). unfold mbind, stm_bind. destruct (m s) as [s' [a|e]]; [by apply Hf|done].
Qed.
Lemma leaves_stays {A} J (m : M A) : stays J m → leaves J m (λ _, J).
Proof. intros Hm s Hs. specialize (Hm s Hs). by destruct (m s).2. Qed.
Lemma leaves_ret {A} J (a : A) (Q : A → Disk → Prop) : (∀ d, J d → Q a d) → leaves J (mret a) Q.
Proof. intros HQ s Hs. by apply HQ. Qed.
Lemma leaves_throw {A} J e (Q : A → Disk → Prop) : leaves J (throw e) Q.
Proof. by intros s Hs. Qed.
Lemma leaves_get {B} J (f : Store → M B) Q : (∀ s0, leaves (λ d, J d ∧ d = disk s0) (f s0) Q) → leaves J (get ≫= f) Q.
Proof. intros Hf s Hs. by apply (Hf s). Qed.
Lemma leaves_weaken {A} J J' (m : M A) (Q Q' : A → Disk → Prop) :
  leaves J' m Q' → (∀ d, J d → J' d) → (∀ a d, Q' a d → Q a d) → leaves J m Q.
Proof. intros Hm HJ HQ s Hs. specialize (Hm s (HJ _ Hs)). destruct (m s).2; [by apply HQ|done]. Qed.
Lemma leaves_try {A} J (m : M A) (Q : A → Disk → Prop) :
  leaves J m Q → leaves J (try m) (λ r d, match r with Ok a => Q a d | Err _ => True end).
Proof. intros Hm s Hs. specialize (Hm s Hs). unfold try. by destruct (m s) as [s' [a|[]]]. Qed.
(** The step keeps all that was known. *)
Lemma leaves_skip {A B} J (m : M A) (f : A → M B) Q : stays J m → (∀ a, leaves J (f a) Q) → leaves J (m ≫= f) Q.
Proof. intros Hm Hf. eapply leaves_bind; [by apply leaves_stays|exact Hf]. Qed.
Lemma leaves_any {A} J (m : M A) : leaves J m (λ _ _, True).
Proof. intros s Hs. by destruct (m s).2. Qed.
Lemma leaves_given {A} (φ : Prop) J (m : M A) Q : (φ → leaves J m Q) → leaves (λ d, φ ∧ J d) m Q.
Proof. intros Hm s [Hφ Hs]. by apply (Hm Hφ). Qed.
Lemma leaves_exists {A B} (J : B → Disk → Prop) (m : M A) Q : (∀ x, leaves (J x) m Q) → leaves (λ d, ∃ x, J x d) m Q.
Proof. intros Hm s [x Hs]. by apply (Hm x). Qed.
Lemma leaves_temp_name name : leaves (λ _, True) (unique_temp_name env name) (λ temp _, (∃ id, temp = temp_name name id) ∧ True).
Proof.
  unfold unique_temp_name. apply leaves_skip; [auto with stays|]. intros e. apply leaves_skip; [auto with stays|].
  intros ?. apply leaves_ret. eauto.
Qed.
(** When the change is done, so is its effect. *)
Lemma leaves_change J f partial Q :
  (∀ e d, J d → Q (f e d)) → leaves J (change env f partial) (λ _, Q).
Proof.
  intros HQ. unfold change. apply leaves_skip; [auto with stays|]. intros e.
  eapply leaves_bind.
  { instantiate (1 := λ _ d, ev_end e = History.IoDone → Q d). intros s Hs. cbn. intros ->. by apply HQ. }
  intros ?. apply leaves_skip; [auto with stays|]. intros ? s Hs. rewrite throw_if_run. cbn.
  destruct (decide (ev_end e ≠ History.IoDone)) as [|Hdone]; [done|]. apply Hs. by apply dec_stable.
Qed.

Lemma leaves_write session dir name bytes files mtime :
  leaves (λ d, node_at session dir d = Some (AuxDir files mtime)) (write_sync_file env session dir name bytes)
    (λ _ d, node_at session dir d = Some (AuxDir (<[name := Regular bytes]> files) mtime)).
Proof.
  unfold write_sync_file. apply leaves_get. intros s0. apply leaves_skip; [auto with stays|]. intros _.
  apply (leaves_change _ _ _ (λ d, node_at session dir d = _)). intros e d [Hd _]. unfold put_file.
  rewrite node_at_alter_one, decide_True by done. by rewrite Hd.
Qed.

Lemma leaves_write_blobs session dir blobs files mtime :
  leaves (λ d, node_at session dir d = Some (AuxDir files mtime)) (write_blobs env session dir blobs)
    (λ _ d, node_at session dir d = Some (AuxDir (foldl put_blob files blobs) mtime)).
Proof.
  revert files. induction blobs as [|[name [bytes|]] blobs IH]; intros files; cbn [write_blobs foldl].
  - by apply leaves_ret.
  - apply leaves_skip; [auto with stays|]. intros ?. eapply leaves_bind; [apply leaves_write|]. intros ?. apply IH.
  - apply IH.
Qed.

Lemma leaves_write_record session dir blobs record_bytes mtime :
  leaves (λ d, node_at session dir d = Some (AuxDir ∅ mtime)) (write_record env session dir blobs record_bytes)
    (λ _ d, node_at session dir d = Some (AuxDir (<[TOOL_RECORD_FILE := Regular record_bytes]> (foldl put_blob ∅ blobs)) mtime)).
Proof.
  unfold write_record. eapply leaves_bind; [apply leaves_write_blobs|]. intros ?.
  apply leaves_skip; [auto with stays|]. intros ?. eapply leaves_bind; [apply leaves_write|]. intros ?.
  apply leaves_skip; [auto with stays|]. intros _. apply (leaves_change _ _ _ (λ d, node_at session dir d = _)). done.
Qed.

Lemma leaves_create session name :
  leaves (λ _, True) (create_record_dir env session name) (λ _ d, ∃ mtime, node_at session name d = Some (AuxDir ∅ mtime)).
Proof.
  unfold create_record_dir. apply leaves_get. intros s0. destruct (tools_at session (disk s0)) as [|nodes|] eqn:Ht; try apply leaves_throw.
  apply leaves_skip; [auto with stays|]. intros _. apply (leaves_change _ _ _ (λ d, ∃ mtime, node_at session name d = _)).
  intros e d [_ ->]. exists (ev_now e). rewrite node_at_alter, decide_True, Ht by done. apply lookup_insert_eq.
Qed.

(** What is known of the temporary directory that [stage_record] returns. *)
Definition staged (session : N) (name : str) (blobs : list (str * option (list N))) (record_bytes : list N) (temp : str) (d : Disk)
    : Prop :=
  (∃ id, temp = temp_name name id) ∧ ∃ mtime, node_at session temp d =
    Some (AuxDir (<[TOOL_RECORD_FILE := Regular record_bytes]> (foldl put_blob ∅ blobs)) mtime).

Lemma leaves_stage session name blobs record_bytes :
  leaves (λ _, True) (stage_record env session name blobs record_bytes) (staged session name blobs record_bytes).
Proof.
  unfold stage_record. apply leaves_skip; [auto with stays|]. intros ?.
  eapply leaves_bind; [apply leaves_any|]. intros ?. eapply leaves_bind; [apply leaves_temp_name|].
  intros temp. apply leaves_given. intros Htemp. apply leaves_skip; [auto with stays|]. intros late.
  eapply leaves_bind; [apply leaves_any|]. intros ?. eapply leaves_bind; [apply leaves_try, leaves_create|]. intros created.
  eapply leaves_bind.
  { instantiate (1 := λ _ d, ∃ mtime, node_at session temp d = Some (AuxDir ∅ mtime)).
    destruct created; [by apply leaves_ret|]. eapply leaves_bind; [apply leaves_any|]. intros ?. apply leaves_throw. }
  intros ?. apply leaves_exists. intros mtime. eapply leaves_bind; [apply leaves_try, leaves_write_record|]. intros written.
  eapply leaves_bind.
  { instantiate (1 := λ _ d, node_at session temp d = Some (AuxDir _ mtime)).
    destruct written; [by apply leaves_ret|]. eapply leaves_bind; [apply leaves_any|]. intros ?. apply leaves_throw. }
  intros ?. apply leaves_skip; [auto with stays|]. intros late'. destruct late'.
  - eapply (leaves_bind _ _ _ (λ _ _, False)); [|intros ?; by apply leaves_ret].
    eapply leaves_bind; [apply leaves_any|]. intros ?. apply leaves_throw.
  - apply leaves_skip; [auto with stays|]. intros ?. apply leaves_ret. intros d Hd.
    split; [exact Htemp|]. exists mtime. exact Hd.
Qed.

(** ** Operations *)

(** What [m] returns satisfies [φ]. *)
Lemma stays_bind_pure {A B} J (φ : A → Prop) (m : M A) (f : A → M B) :
  stays J m → (∀ s a, (m s).2 = Ok a → φ a) → (∀ a, φ a → stays J (f a)) → stays J (m ≫= f).
Proof.
  intros Hm Hφ Hf s Hs. specialize (Hm s Hs). specialize (Hφ s). unfold mbind, stm_bind.
  destruct (m s) as [s' [a|e]]; [by apply Hf; [apply Hφ|]|done].
Qed.
(** What holds of the disk when [m] returned. *)
Lemma stays_bind_yields {A B} J (m : M A) (f : A → M B) Q :
  stays J m → leaves J m Q → (∀ a s, J (disk s) → Q a (disk s) → J (disk (f a s).1)) → stays J (m ≫= f).
Proof.
  intros Hm Hy Hf s Hs. specialize (Hm s Hs). specialize (Hy s Hs). unfold mbind, stm_bind.
  destruct (m s) as [s' [a|e]]; [by apply Hf|done].
Qed.

Lemma sound_tools session f d :
  (∀ t, nodes_of (f t) = nodes_of t) → sound P d → sound P (alter_tools session f d).
Proof.
  intros Hf. apply sound_same. intros session' name. unfold node_at, tools_at, alter_tools. cbn [d_sessions].
  destruct (decide (session' = session)) as [->|]; [|by rewrite lookup_alter_ne]. rewrite lookup_alter_eq.
  destruct (d_sessions d !! session) as [t|]; [|done]. cbn. by rewrite Hf.
Qed.
Lemma stays_sync : kept (sync_directory env).
Proof. apply stays_change; by intros. Qed.
Lemma stays_write session dir name bytes : is_valid_temp_name dir = true → kept (write_sync_file env session dir name bytes).
Proof.
  intros Ht. unfold write_sync_file. stays_steps. apply stays_change; intros e d Hd; [by apply sound_put|].
  destruct (ev_written e); [by apply sound_put|done].
Qed.
Lemma stays_write_record session dir blobs record_bytes :
  is_valid_temp_name dir = true → kept (write_record env session dir blobs record_bytes).
Proof.
  intros Ht. unfold write_record. apply stays_bind.
  - induction blobs as [|[name [bytes|]] blobs IH]; cbn [write_blobs]; [auto with stays| |done]. stays_steps. by apply stays_write.
  - intros ?. stays_steps; [by apply stays_write|apply stays_sync].
Qed.
Lemma stays_stage session name blobs record_bytes :
  length name = 64%nat → forallb lower_hex name = true → kept (stage_record env session name blobs record_bytes).
Proof.
  intros Hlen Hhex. unfold stage_record. apply stays_bind; [auto with stays|]. intros ?. apply stays_bind.
  { unfold ensure_tools. stays_steps. apply stays_change; intros e d Hd; [|done]. revert Hd. apply sound_tools. by intros []. }
  intros ?. apply (stays_bind_pure _ (λ temp, is_valid_temp_name temp = true)).
  { unfold unique_temp_name. stays_steps. }
  { intros s temp Ht. pose proof (leaves_temp_name name s I) as Hy. rewrite Ht in Hy. destruct Hy as [[id ->] _].
    by apply temp_name_valid. }
  intros temp Ht. stays_steps; try by apply stays_write_record.
  unfold create_record_dir. stays_steps. apply stays_change; intros e d Hd; [by apply sound_create|done].
Qed.

(** A change is made, or cut short, once. *)
Lemma change_disk f partial s :
  disk (change env f partial s).1 = f (env (ticks s)) (disk s) ∨ disk (change env f partial s).1 = partial (env (ticks s)) (disk s).
Proof.
  assert (Hd : disk (change env f partial s).1 =
    (match ev_end (env (ticks s)) with History.IoLost => partial (env (ticks s)) | _ => f (env (ticks s)) end) (disk s)).
  { set (d := _ (disk s)). unfold change. unfold mbind, stm_bind at 1. cbn [next_event].
    unfold stm_bind at 1. cbn [on_disk modify]. unfold stm_bind. rewrite throw_if_run.
    destruct (decide (ev_dies (env (ticks s)) = true)); [done|]. by rewrite throw_if_run. }
  rewrite Hd. destruct (ev_end (env (ticks s))); auto.
Qed.
Lemma then_stays {A B} J (m : M A) (f : A → M B) s : J (disk (m s).1) → (∀ a, stays J (f a)) → J (disk ((m ≫= f) s).1).
Proof. intros Hm Hf. unfold mbind, stm_bind. destruct (m s) as [s' [a|e]]; [by apply Hf|done]. Qed.
Lemma try_disk {A} (m : M A) s : disk (try m s).1 = disk (m s).1.
Proof. unfold try. by destruct (m s) as [s' [a|[]]]. Qed.

Lemma sound_publish session temp name item_bytes s :
  (∀ files mtime, node_at session temp (disk s) = Some (AuxDir files mtime) → is_record P session name files) →
  sound P (disk s) → sound P (disk (publish_record env session temp name item_bytes s).1).
Proof.
  intros Hrec Hs. unfold publish_record. apply then_stays.
  - rewrite try_disk. unfold rename_record. change (disk ((get ≫= ?f) s).1) with (disk (f s s).1). cbn beta.
    destruct (node_at session temp (disk s)) as [node|] eqn:Hn; [|done].
    destruct (change_disk (λ _ : Event, alter_tools session (alter_nodes (λ nodes, <[name:=node]> (delete temp nodes)))) (λ _ : Event, id) s)
      as [->| ->]; [|done]. apply sound_rename; [|done|done]. intros files mtime ->. by eapply Hrec.
  - intros renamed. stays_steps. apply stays_sync.
Qed.

Lemma stays_check_blobs session dir blobs : kept (check_blobs env session dir blobs).
Proof.
  induction blobs as [|[[name bytes] hash] blobs IH]; cbn [check_blobs]; [auto with stays|].
  apply stays_bind; [unfold read_blob; stays_steps|]. intros [b c]. apply stays_bind; [auto with stays|]. done.
Qed.
Lemma stays_read_metadata tool_ref : kept (read_tool_metadata (look env) tool_ref).
Proof. unfold read_tool_metadata, real_session, real_tools, real_record, check_record. stays_steps. Qed.
Lemma stays_check_existing p : kept (check_existing env p).
Proof. unfold check_existing. apply stays_bind; [apply stays_read_metadata|]. intros []; stays_steps. apply stays_check_blobs. Qed.

Lemma stays_commit p : P p → kept (commit_tool_record env limits p).
Proof.
  intros Hp. unfold commit_tool_record. apply stays_bind; [auto with stays|]. intros ?.
  apply (stays_bind_pure _ (λ _, validate_stored_tool_record (p_record p) (p_tool_ref p) = Ok tt)); [unfold check_record; auto with stays| |].
  { intros s [] Hc. unfold check_record, lift in Hc. cbn in Hc. by destruct (validate_stored_tool_record _ _) as [[]|]. }
  intros ? Hvalid. apply stays_bind; [auto with stays|]. intros ?. apply stays_bind; [unfold require_tools; stays_steps|]. intros ?.
  apply stays_bind; [unfold real_record; stays_steps|]. intros [|]; [unfold timed_check; stays_steps; apply stays_check_existing|].
  apply stays_bind; [auto with stays|]. intros ?. apply stays_bind; [auto with stays|]. intros ?.
  eapply (stays_bind_yields _ _ _ (staged _ _ _ _)).
  - apply stays_stage; [apply ref_hash_length|apply ref_hash_hex].
  - intros s _. by apply (leaves_stage _ _ _ _ s).
  - intros temp s Hs [_ (mtime & Hnode)]. apply sound_publish; [|done]. intros files mtime'. rewrite Hnode. intros [= <- <-].
    exists p. split_and!; try done.
Qed.

Lemma stays_persist calls late :
  Forall (λ c, from_option P True c.2) calls → kept (persist_loop env limits calls late).
Proof.
  intros Hall. revert late. induction Hall as [|[tool_ref snapshot] calls Hp _ IH]; intros late; cbn [persist_loop]; [auto with stays|].
  apply stays_bind; [auto with stays|]. intros now. destruct (late || now); [stays_steps|]. destruct snapshot as [p|]; [|stays_steps].
  apply stays_bind; [by apply stays_try, stays_commit|]. intros res. stays_steps.
Qed.

Lemma stays_delete session : kept (delete_session env session).
Proof.
  unfold delete_session. stays_steps; try apply stays_sync; apply stays_change; intros e d Hd; try done.
  intros session' name node Hn. apply (Hd session' name). revert Hn. unfold node_at, tools_at. cbn [d_sessions].
  destruct (decide (session' = session)) as [->|]; [by rewrite lookup_delete_eq|by rewrite lookup_delete_ne].
Qed.
End sound.
#[export] Hint Resolve stays_remove_dir_all stays_cleanup stays_remove_aux stays_discard stays_load_metadata stays_enforce : stays.
