(* ===== verification/RecordReads.v ===== *)
(** What is read of persisted tool calls, [store/tool_records/cold_read.rs].

    Calls are persisted, sessions are created and deleted, the process dies and is
    started again, and clients read in the middle of all that.  The theorem: what is
    read of a call is what was snapshotted of it, or it is gone or known to be corrupt;
    and what was acknowledged can be read. *)

From S2P Require Import Prelude RustStr Errors ToolRecord ToolPage ToolStored RecordFiles RecordStore RecordDisk.
From S2P Require Status Time History HistoryPage Changes.
Open Scope N_scope.

Section reads.
Context `{RecordEncoding} {RL : RecordEncodingLaws}.

(** ** Looking at a disk that others change *)

(** The [n]th look sees some disk, or fails. *)
Definition look_free (answers : N → result Stop Disk) : stm N Stop Disk := λ n, (n + 1, answers n).

Section sound.
Context (P : ToolPersistenceSnapshot → Prop).

Lemma sound_file d session dir name file :
  sound P d → is_valid_temp_name dir = false → file_at session dir name d = Some file →
  ∃ p, P p ∧ validate_stored_tool_record (p_record p) (p_tool_ref p) = Ok tt ∧ record_files p !! name = Some file.
Proof using Type.
  intros Hs Ht Hf. unfold file_at, files_at in Hf. destruct (node_at session dir d) as [node|] eqn:Hn; [|done].
  destruct (Hs _ _ _ Hn) as (files & mtime & -> & [Hr|Ht']); [|congruence].
  destruct Hr as (p & Hp & Hv & _ & _ & Hsub). exists p. split_and!; try done. by eapply lookup_weaken.
Qed.
End sound.

Lemma record_file p : record_files p !! TOOL_RECORD_FILE = Some (Regular (encode_record (p_record p))).
Proof using Type. apply lookup_insert_eq. Qed.

(** The file of a stream is the snapshot's. *)
Definition file_name (s : ToolDataStream) : str :=
  match s with Input => TOOL_INPUT_FILE | Output => TOOL_RESULT_FILE | Stdout => TOOL_STDOUT_FILE | Stderr => TOOL_STDERR_FILE end.
Lemma stream_file p s : record_files p !! file_name s = Regular <$> snapshot_file s p.
Proof using Type.
  unfold record_files. rewrite lookup_insert_ne by by destruct s. unfold blobs. cbn [foldl].
  unfold put_blob. cbn [fst snd].
  destruct (p_input_bytes p) eqn:H1, (p_result_bytes p) eqn:H2, (p_stdout_bytes p) eqn:H3, (p_stderr_bytes p) eqn:H4,
    (p_file_change_before p), (p_file_change_after p); destruct s; cbn [file_name snapshot_file]; rewrite ?H1, ?H2, ?H3, ?H4; done.
Qed.

(** ** What a reader gets *)

(** [m] keeps [I] of the state and returns only what satisfies [Q]. *)
Definition only {S A} (I : S → Prop) (m : stm S Stop A) (Q : A → Prop) : Prop :=
  ∀ s, I s → I (m s).1 ∧ match (m s).2 with Ok a => Q a | Err _ => True end.

Section only.
Context {S : Type} (I : S → Prop).

Lemma only_bind {A B} (m : stm S Stop A) (f : A → stm S Stop B) Q R :
  only I m Q → (∀ a, Q a → only I (f a) R) → only I (m ≫= f) R.
Proof using Type.
  intros Hm Hf s Hs. destruct (Hm s Hs) as [Hs' Ha]. unfold mbind, stm_bind. destruct (m s) as [s' [a|e]]; [by apply Hf|done].
Qed.
Lemma only_ret {A} (a : A) (Q : A → Prop) : Q a → only I (mret a) Q.
Proof using Type. by intros HQ s. Qed.
Lemma only_throw {A} e (Q : A → Prop) : only I (throw e) Q.
Proof using Type. by intros s. Qed.
Lemma only_lift {A} (r : result Stop A) (Q : A → Prop) : (∀ a, r = Ok a → Q a) → only I (lift r) Q.
Proof using Type. intros HQ s Hs. split; [done|]. cbn. destruct r; [by apply HQ|done]. Qed.
Lemma only_throw_if φ `{Decision φ} e : only I (throw_if φ e) (λ _, ¬ φ).
Proof using Type. intros s Hs. rewrite throw_if_run. split; [done|]. cbn. by destruct (decide φ). Qed.
Lemma only_try {A} (m : stm S Stop A) Q : only I m Q → only I (try m) (λ r, match r with Ok a => Q a | Err _ => True end).
Proof using Type. intros Hm s Hs. destruct (Hm s Hs) as [Hs' Ha]. unfold try. by destruct (m s) as [s' [a|[]]]. Qed.

Section reader.
Context (look : stm S Stop Disk) (J : Disk → Prop).
Context (Hlook : only I look J).

(** Metadata comes from a record file and belongs to the call. *)
Lemma read_metadata_only tool_ref :
  only I (read_tool_metadata look tool_ref) (λ found,
    match found with
    | None => True
    | Some metadata =>
        validate_stored_tool_record metadata tool_ref = Ok tt ∧
        ∃ d bytes, J d ∧ file_at (ref_session tool_ref) (tool_ref_hash tool_ref) TOOL_RECORD_FILE d = Some (Regular bytes) ∧
                   lenN bytes <= MAX_TOOL_METADATA_BYTES ∧ decode_record bytes = Some metadata
    end).
Proof using Hlook.
  unfold read_tool_metadata, real_session, real_tools, real_record.
  eapply only_bind; [eapply only_bind; [exact Hlook|]; intros ? _; by apply (only_ret _ (λ _, True))|]. intros present _.
  eapply only_bind; [apply only_throw_if|]. intros ? _.
  eapply only_bind.
  { instantiate (1 := λ _, True). eapply only_bind; [exact Hlook|]. intros d _. destruct (tools_at _ d); by (apply only_ret || apply only_throw). }
  intros [|] _; [|by apply only_ret]. cbn [negb]. eapply only_bind.
  { instantiate (1 := λ _, True). eapply only_bind; [exact Hlook|]. intros d _.
    destruct (node_at _ _ d) as [[]|]; by (apply only_ret || apply only_throw). }
  intros [|] _; [|by apply only_ret]. cbn [negb].
  eapply (only_bind _ _ (λ found, match found with
    | None => True
    | Some metadata => ∃ d bytes, J d ∧ file_at (ref_session tool_ref) (tool_ref_hash tool_ref) TOOL_RECORD_FILE d = Some (Regular bytes) ∧
                                  lenN bytes <= MAX_TOOL_METADATA_BYTES ∧ decode_record bytes = Some metadata end)).
  - unfold load_tool_metadata. eapply only_bind; [exact Hlook|]. intros d Hd.
    destruct (file_at _ _ _ d) as [[bytes|]|] eqn:Hf; [|apply only_throw|by apply only_ret].
    eapply only_bind; [exact Hlook|]. intros ? _. eapply only_bind; [apply only_throw_if|]. intros ? Hlen%N.nlt_ge.
    destruct (decode_record bytes) as [r|] eqn:Hr; [|apply only_throw]. apply only_ret. eauto 8.
  - intros [metadata|] Hfound; [|by apply only_ret]. unfold check_record.
    eapply only_bind; [|intros ? Hv; apply only_ret; exact (conj Hv Hfound)].
    apply only_lift. intros []. by destruct (validate_stored_tool_record metadata tool_ref) as [[]|].
Qed.

(** What the disk has of a blob, when it is what the metadata says. *)
Definition blob_whole (session : N) (dir : str) (blob : str * N * option str) (b : option (list N)) (d : Disk) : Prop :=
  let '(name, bytes, hash) := blob in
  (bytes = 0 ∧ b = None) ∨
  ∃ file, bytes ≠ 0 ∧ file_at session dir name d = Some (Regular file) ∧ lenN file = bytes ∧ hash = Some (digest file) ∧ b = Some file.

Lemma read_blob_only session dir name bytes hash :
  only I (read_blob look session dir name bytes hash) (λ blob,
    blob = (None, true) ∨ (blob = (None, false) ∧ bytes = 0) ∨
    ∃ d file, J d ∧ blob_whole session dir (name, bytes, hash) (Some file) d ∧ blob = (Some file, false)).
Proof using Hlook.
  unfold read_blob. destruct (decide (bytes = 0)) as [->|Hbytes]; [apply only_ret; auto|].
  destruct hash as [expected|]; [|apply only_throw]. eapply only_bind; [apply only_try, Hlook|].
  intros [d|e] Hd; [|destruct e; first [apply only_throw|apply only_ret; by left]].
  destruct (file_at session dir name d) as [[file|]|] eqn:Hf; try (apply only_ret; by left).
  apply only_ret. cbv zeta. destruct (decide (lenN _ ≠ bytes)) as [|Hlen]; [by left|].
  destruct (decide (digest _ ≠ expected)) as [|Hdigest]; [by left|]. right. right. exists d, file.
  apply dec_stable in Hlen, Hdigest. subst expected.
  assert (Htake : take (N.to_nat (bytes + 1)) file = file).
  { apply take_ge. unfold lenN in Hlen. rewrite length_take in Hlen. lia. }
  rewrite Htake in *. split_and!; [done| |done]. right. by exists file.
Qed.
End reader.
End only.

Lemma look_free_only answers (J : Disk → Prop) :
  (∀ n d, answers n = Ok d → J d) → only (λ _, True) (look_free answers) J.
Proof using Type. intros HJ n _. split; [done|]. cbn. destruct (answers n) eqn:Ha; [by eapply HJ|done]. Qed.

(** ** Snapshots *)

(** Snapshots are those the tool data makes. *)
Definition taken (p : ToolPersistenceSnapshot) : Prop := ∃ tool_ref r, persistence_snapshot digest tool_ref r = Some p.

Lemma blob_coherent bytes expired :
  snapshot_blob digest bytes expired = (None, 0, None) ∨
  ∃ b, b ≠ [] ∧ snapshot_blob digest bytes expired = (Some b, lenN b, Some (digest b)).
Proof using Type.
  unfold snapshot_blob. destruct expired; [by left|]. cbn [orb]. case_bool_decide; [by left|right]. by exists bytes.
Qed.

(** The metadata of a snapshot describes its blobs. *)
Lemma taken_blob p s :
  taken p → ∃ bytes hash, stored_blobs (p_record p) !! stream_index s = Some (file_name s, bytes, hash) ∧
    ((snapshot_file s p = None ∧ bytes = 0 ∧ hash = None) ∨
     ∃ b, snapshot_file s p = Some b ∧ b ≠ [] ∧ bytes = lenN b ∧ hash = Some (digest b)).
Proof using Type.
  intros (tool_ref & r & Hp). unfold persistence_snapshot, window_snapshot in Hp. destruct (is_terminal r); [|done].
  pose proof (blob_coherent (as_bytes (input r)) (input_expired r)) as Hi.
  pose proof (blob_coherent (as_bytes (result_text r)) (result_expired r)) as Ho.
  pose proof (blob_coherent (contents (bytes (stdout r))) (ToolRecord.expired (stdout r))) as Hout.
  pose proof (blob_coherent (contents (bytes (stderr r))) (ToolRecord.expired (stderr r))) as Herr.
  cbn [negb] in Hp.
  destruct (snapshot_blob _ (as_bytes (input r)) _) as [[? ?] ?], (snapshot_blob _ (as_bytes (result_text r)) _) as [[? ?] ?],
    (snapshot_blob _ (contents (bytes (stdout r))) _) as [[? ?] ?], (snapshot_blob _ (contents (bytes (stderr r))) _) as [[? ?] ?].
  injection Hp as <-. destruct s; cbn; eexists _, _; (split; [reflexivity|]).
  - destruct Hi as [[= -> -> ->]|(b & Hb & [= -> -> ->])]; [by left|right; by exists b].
  - destruct Ho as [[= -> -> ->]|(b & Hb & [= -> -> ->])]; [by left|right; by exists b].
  - destruct Hout as [[= -> -> ->]|(b & Hb & [= -> -> ->])]; [by left|right; by exists b].
  - destruct Herr as [[= -> -> ->]|(b & Hb & [= -> -> ->])]; [by left|right; by exists b].
Qed.

(** Two blobs of the snapshots [P] with the same hash. *)
Definition blob_collision (P : ToolPersistenceSnapshot → Prop) : Prop :=
  ∃ p p' s s' b b', P p ∧ P p' ∧ snapshot_file s p = Some b ∧ snapshot_file s' p' = Some b' ∧ b ≠ b' ∧ digest b = digest b'.

(** A blob that is whole on a sound disk is the snapshot's. *)
Lemma whole_blob P p s d bytes hash b :
  (∀ p, P p → taken p) → P p → sound P d → stored_blobs (p_record p) !! stream_index s = Some (file_name s, bytes, hash) →
  blob_whole (ref_session (p_tool_ref p)) (tool_ref_hash (p_tool_ref p)) (file_name s, bytes, hash) b d →
  b = snapshot_file s p ∨ blob_collision P.
Proof using RL.
  intros Htaken Hp Hs Hblob Hwhole. destruct (taken_blob p s (Htaken p Hp)) as (bytes' & hash' & Hblob' & Hcase).
  rewrite Hblob in Hblob'. injection Hblob' as <- <-. destruct Hwhole as [[-> ->]|(file & Hne & Hfile & Hlen & Hhash & ->)].
  - destruct Hcase as [(-> & _)|(b' & _ & Hb' & Hlen & _)]; [by left|]. destruct b'; [done|]. rewrite lenN_cons in Hlen. lia.
  - destruct Hcase as [(_ & -> & _)|(b' & Hsnap & _ & _ & ->)]; [done|]. injection Hhash as Hhash.
    destruct (sound_file P d _ _ _ _ Hs (hash_not_temp _ (ref_hash_length _) (ref_hash_hex _)) Hfile) as (p' & Hp' & _ & Hf).
    rewrite stream_file in Hf. destruct (snapshot_file s p') as [b''|] eqn:Hsnap'; [|done]. injection Hf as ->.
    rewrite Hsnap. destruct (decide (file = b')) as [->|Hdiff]; [by left|right]. exists p', p, s, s, file, b'. auto 8.
Qed.

Lemma read_source_sound P answers tool_ref s n r :
  (∀ p, P p → taken p) → (∀ n d, answers n = Ok d → sound P d) →
  (read_tool_source (look_free answers) tool_ref s n).2 = Ok (Some r) →
  (∃ p, P p ∧ p_tool_ref p = tool_ref ∧ metadata r = p_record p ∧
        (payload r = (None, true) ∨ payload r = (snapshot_file s p, false))) ∨ blob_collision P.
Proof using RL.
  intros Htaken Hanswers. pose proof (look_free_only answers (sound P) Hanswers) as Hlook. intros Hr.
  assert (Honly : only (λ _, True) (read_tool_source (look_free answers) tool_ref s) (λ found,
    match found with
    | None => True
    | Some r => (∃ p, P p ∧ p_tool_ref p = tool_ref ∧ metadata r = p_record p ∧
                  (payload r = (None, true) ∨ payload r = (snapshot_file s p, false))) ∨ blob_collision P
    end)).
  2: { destruct (Honly n I) as [_ Ho]. by rewrite Hr in Ho. }
  unfold read_tool_source. eapply only_bind; [exact (read_metadata_only _ _ _ Hlook tool_ref)|].
  intros [m|] Hm; [|by apply only_ret]. destruct Hm as (Hv & d & bytes & Hd & Hf & _ & Hdec).
  destruct (sound_file P d _ _ _ _ Hd (hash_not_temp _ (ref_hash_length _) (ref_hash_hex _)) Hf) as (p & Hp & Hvp & Hf').
  rewrite record_file in Hf'. injection Hf' as <-. rewrite decode_law in Hdec. injection Hdec as <-.
  assert (Href : p_tool_ref p = tool_ref).
  { unfold validate_stored_tool_record in Hv, Hvp. res_inv. congruence. }
  destruct (taken_blob p s (Htaken p Hp)) as (size & hash & Hblob & _). rewrite Hblob.
  eapply only_bind; [exact (read_blob_only _ _ _ Hlook _ _ _ _ _)|]. intros blob Hcase. apply only_ret.
  destruct Hcase as [->|[[-> ->]|(d' & file & Hd' & Hwhole & ->)]].
  - left. exists p. auto.
  - destruct (whole_blob P p s d 0 hash None Htaken Hp Hd Hblob) as [Hb|]; [by left|left|by right]. exists p. cbn. rewrite <- Hb. auto.
  - rewrite <- Href in Hwhole. destruct (whole_blob P p s d' size hash _ Htaken Hp Hd' Hblob Hwhole) as [Hb|]; [left|by right].
    exists p. cbn. rewrite <- Hb. auto.
Qed.

(** ** An acknowledged record *)

Lemma file_at_present session dir name d file :
  file_at session dir name d = Some file →
  is_Some (d_sessions d !! session) ∧ (∃ nodes, tools_at session d = ToolsDir nodes) ∧
  ∃ files mtime, node_at session dir d = Some (AuxDir files mtime).
Proof using Type.
  unfold file_at, files_at. destruct (node_at session dir d) as [[files mtime|]|] eqn:Hn; [|done|done]. intros _.
  split_and!; [..|by eauto]; unfold node_at, tools_at in *; destruct (d_sessions d !! session) as [[]|]; try done; eauto.
Qed.

(** All of a record is on the disk. *)
Definition whole (p : ToolPersistenceSnapshot) (d : Disk) : Prop :=
  let session := ref_session (p_tool_ref p) in
  let dir := tool_ref_hash (p_tool_ref p) in
  validate_stored_tool_record (p_record p) (p_tool_ref p) = Ok tt ∧
  (∃ bytes, file_at session dir TOOL_RECORD_FILE d = Some (Regular bytes) ∧ lenN bytes <= MAX_TOOL_METADATA_BYTES ∧
            decode_record bytes = Some (p_record p)) ∧
  Forall (λ blob, ∃ b, blob_whole session dir blob b d) (stored_blobs (p_record p)).

Lemma blob_look session dir name bytes hash b d n :
  blob_whole session dir (name, bytes, hash) b d →
  ∃ n', read_blob (look_free (λ _, Ok d)) session dir name bytes hash n = (n', Ok (b, false)).
Proof using Type.
  unfold read_blob. intros [[-> ->]|(file & Hne & Hf & Hlen & -> & ->)]; [by eexists|].
  rewrite decide_False by done. eexists. unfold mbind, stm_bind, try, look_free. cbv beta iota. rewrite Hf.
  rewrite (take_ge file) by (unfold lenN in Hlen; lia). cbv zeta.
  rewrite (decide_False (P := lenN file ≠ bytes)) by tauto. by rewrite (decide_False (P := digest file ≠ digest file)) by tauto.
Qed.

Lemma whole_metadata p d n :
  whole p d → ∃ n', read_tool_metadata (look_free (λ _, Ok d)) (p_tool_ref p) n = (n', Ok (Some (p_record p))).
Proof using Type.
  intros (Hv & (bytes & Hf & Hlen & Hdec) & _). destruct (file_at_present _ _ _ _ _ Hf) as (Hs & [nodes Ht] & files & mtime & Hn).
  eexists. unfold read_tool_metadata, real_session, real_tools, real_record, load_tool_metadata, check_record, look_free,
    mbind, stm_bind, mret, stm_ret, lift. cbv beta iota.
  rewrite (bool_decide_eq_true_2 _ Hs), throw_if_run. cbn [decide]. rewrite decide_False by done. rewrite Ht, Hn. cbn [negb].
  rewrite Hf. rewrite throw_if_run, decide_False by lia. rewrite Hdec, Hv. reflexivity.
Qed.

Lemma whole_read P p d s n :
  (∀ p, P p → taken p) → P p → sound P d → whole p d →
  (read_tool_source (look_free (λ _, Ok d)) (p_tool_ref p) s n).2 = Ok (Some (read_back s p)) ∨ blob_collision P.
Proof using RL.
  intros Htaken Hp Hs Hw. destruct (whole_metadata p d n Hw) as [n1 Hm]. destruct Hw as (_ & _ & Hblobs).
  destruct (taken_blob p s (Htaken p Hp)) as (size & hash & Hblob & _).
  destruct (proj1 (Forall_lookup _ _) Hblobs _ _ Hblob) as [b Hwhole].
  destruct (whole_blob P p s d size hash b Htaken Hp Hs Hblob Hwhole) as [->|]; [left|by right].
  destruct (blob_look _ _ _ _ _ _ _ n1 Hwhole) as [n2 Hb].
  unfold read_tool_source, mbind, stm_bind. rewrite Hm. cbv beta iota. rewrite Hblob. by rewrite Hb.
Qed.

(** *** Committing one *)

Section commit.
Context (env : N → Event) (limits : AuxLimits).

Lemma look_only (D : Disk) : only (λ s, disk s = D) (look env) (eq D).
Proof using Type.
  intros s Hs. unfold look, next_event, mbind, stm_bind. cbv beta iota. rewrite throw_if_run. cbv beta iota. cbn [ticks].
  destruct (decide (ev_dies (env (ticks s)) = true)); [done|]. rewrite throw_if_run. cbv beta iota.
  destruct (decide (ev_unreadable (env (ticks s)) = true)); [done|]. unfold get, mret, stm_ret. cbn. done.
Qed.

Lemma leaves_only {A} J (m : stm Store Stop A) (Q : A → Disk → Prop) :
  (∀ D, J D → only (λ s, disk s = D) m (λ a, Q a D)) → leaves J m Q.
Proof using Type.
  intros Hm s Hs. destruct (Hm (disk s) Hs s eq_refl) as [Hd Ha]. destruct (m s).2; [by rewrite Hd|done].
Qed.

Lemma check_blobs_only D session dir blobs :
  only (λ s, disk s = D) (check_blobs env session dir blobs) (λ _, Forall (λ blob, ∃ b, blob_whole session dir blob b D) blobs).
Proof using Type.
  induction blobs as [|[[name bytes] hash] blobs IH]; cbn [check_blobs]; [by apply only_ret|].
  eapply only_bind; [exact (read_blob_only _ _ _ (look_only D) _ _ _ _ _)|]. intros [b c] Hcase. cbn beta iota.
  eapply only_bind; [apply only_throw_if|]. intros u Hok. cbn beta in Hok.
  assert (Hb : ∃ b, blob_whole session dir (name, bytes, hash) b D).
  { destruct Hcase as [[= -> ->]|[[_ ->]|(d & file & <- & Hw & _)]]; [by destruct Hok|exists None; by left|by exists (Some file)]. }
  intros s Hs. destruct (IH s Hs) as [Hd Hall]. split; [done|]. destruct (check_blobs _ _ _ _ s).2; [by constructor|done].
Qed.

Lemma check_existing_only p D :
  validate_stored_tool_record (p_record p) (p_tool_ref p) = Ok tt →
  only (λ s, disk s = D) (check_existing env p) (λ _, whole p D).
Proof using RL.
  intros Hv. unfold check_existing. eapply only_bind; [exact (read_metadata_only _ _ _ (look_only D) (p_tool_ref p))|].
  intros [m|] Hm; [|apply only_throw]. destruct Hm as (_ & d & bytes & <- & Hf & Hlen & Hdec).
  eapply only_bind; [apply only_throw_if|]. intros u Hsame. cbn beta in Hsame. apply dec_stable in Hsame.
  assert (m = p_record p) as ->.
  { pose proof (decode_law m) as Hm. rewrite Hsame, decode_law in Hm. by injection Hm. }
  intros s Hs. destruct (check_blobs_only D (ref_session (p_tool_ref p)) (tool_ref_hash (p_tool_ref p)) (stored_blobs (p_record p)) s Hs)
    as [Hd Hall]. split; [done|]. destruct (check_blobs _ _ _ _ s).2; [|done]. split_and!; [done|by exists bytes|done].
Qed.

Lemma timed_check_only p D :
  validate_stored_tool_record (p_record p) (p_tool_ref p) = Ok tt →
  only (λ s, disk s = D) (timed_check env p) (λ _, whole p D).
Proof using RL.
  intros Hv. unfold timed_check. eapply only_bind; [apply only_try; by apply check_existing_only|]. intros checked Hchecked.
  eapply only_bind; [by instantiate (1 := λ _, True)|]. intros late _. eapply only_bind; [apply only_throw_if|]. intros u _.
  apply only_lift. intros [] Hok. by destruct checked as [[]|].
Qed.

Lemma leaves_publish session temp name item_bytes files mtime :
  leaves (λ d, node_at session temp d = Some (AuxDir files mtime)) (publish_record env session temp name item_bytes)
    (λ _ d, node_at session name d = Some (AuxDir files mtime)).
Proof using Type.
  assert (Hstay : stays (λ d, node_at session name d = Some (AuxDir files mtime)) (sync_directory env)).
  { apply stays_change; by intros. }
  unfold publish_record. eapply leaves_bind.
  { apply leaves_try. unfold rename_record. apply leaves_get. intros s0.
    destruct (node_at session temp (disk s0)) as [node|] eqn:Hn; [|apply leaves_throw].
    apply (leaves_change _ _ _ _ (λ d, node_at session name d = Some (AuxDir files mtime))). intros e d [Hd ->].
    rewrite Hn in Hd. injection Hd as ->. rewrite node_at_alter, decide_True by done.
    rewrite node_at_dir in Hn. destruct (tools_at session (disk s0)); [done| |done]. apply lookup_insert_eq. }
  intros renamed. eapply leaves_bind.
  { instantiate (1 := λ _ d, node_at session name d = Some (AuxDir files mtime)).
    destruct renamed; [by apply leaves_ret|]. eapply leaves_bind; [apply leaves_any|]. intros ?. apply leaves_throw. }
  intros ?. apply leaves_get. intros s0. eapply (leaves_weaken _ (λ d, node_at session name d = _)); [|by intros d []|intros ? d Hd; exact Hd].
  apply leaves_skip; [by stays_steps|]. intros ?. by apply leaves_stays.
Qed.

Lemma whole_staged p d mtime :
  taken p → validate_stored_tool_record (p_record p) (p_tool_ref p) = Ok tt →
  lenN (encode_record (p_record p)) <= MAX_TOOL_METADATA_BYTES →
  node_at (ref_session (p_tool_ref p)) (tool_ref_hash (p_tool_ref p)) d = Some (AuxDir (record_files p) mtime) → whole p d.
Proof using RL.
  intros Htaken Hv Hlen Hn.
  assert (Hfile : ∀ name, file_at (ref_session (p_tool_ref p)) (tool_ref_hash (p_tool_ref p)) name d = record_files p !! name).
  { intros name. unfold file_at, files_at. by rewrite Hn. }
  split_and!; [done| |].
  - eexists. rewrite Hfile, record_file. split_and!; [done|done|apply decode_law].
  - apply Forall_lookup. intros i blob Hblob.
    assert (Hi : ∃ s, stream_index s = i) by (destruct i as [|[|[|[|i]]]]; [by exists Input|by exists Output|by exists Stdout|by exists Stderr|done]).
    destruct Hi as [s <-]. destruct (taken_blob p s Htaken) as (size & hash & Hblob' & Hcase). rewrite Hblob in Hblob'.
    injection Hblob' as ->. destruct Hcase as [(_ & -> & _)|(b & Hsnap & Hne & -> & ->)]; [exists None; by left|].
    exists (Some b). right. exists b. rewrite Hfile, stream_file, Hsnap. split_and!; try done. by destruct b.
Qed.

Lemma commit_whole P p :
  taken p → leaves (sound P) (commit_tool_record env limits p) (λ _ d, whole p d).
Proof using RL.
  intros Htaken. unfold commit_tool_record. apply leaves_skip; [auto with stays|]. intros ?.
  eapply leaves_bind.
  { instantiate (1 := λ _ d, validate_stored_tool_record (p_record p) (p_tool_ref p) = Ok tt ∧ sound P d). intros s Hs. cbn.
    destruct (validate_stored_tool_record _ _) as [[]|]; by cbn. }
  intros ?. apply leaves_given. intros Hv. apply leaves_skip; [auto with stays|]. intros ?.
  apply leaves_skip; [unfold require_tools; stays_steps|]. intros ?. apply leaves_skip; [unfold real_record; stays_steps|].
  intros [|]; [apply leaves_only; intros D _; by apply timed_check_only|].
  eapply leaves_bind.
  { instantiate (1 := λ _ d, lenN (encode_record (p_record p)) <= MAX_TOOL_METADATA_BYTES ∧ sound P d). intros s Hs.
    rewrite throw_if_run. cbn. destruct (decide _); [done|]. split; [lia|done]. }
  intros ?. apply leaves_given. intros Hlen. eapply leaves_bind; [apply leaves_any|]. intros ?.
  eapply leaves_bind; [apply leaves_stage|]. intros temp. apply leaves_given. intros _. apply leaves_exists. intros mtime.
  eapply leaves_weaken; [apply leaves_publish|intros d Hd; exact Hd|]. intros ? d Hd. exact (whole_staged p d mtime Htaken Hv Hlen Hd).
Qed.
End commit.

(** ** The life of a store *)

Inductive Op :=
  | Persist (calls : list (ToolRef * option ToolPersistenceSnapshot))
  | Create (session : N)
  | Delete (session : N)
  | Restart.

Section life.
Context (env : N → Event) (limits : AuxLimits).

(** [create_session] makes a directory, [open] takes deleted ones away. *)
Definition create_directory (session : N) : stm Store Stop unit :=
  change env (λ _ d, mkDisk (match d_sessions d !! session with None => <[session := NoTools]> (d_sessions d) | Some _ => d_sessions d end)
                (d_foreign d) (d_deleting d)) (λ _, id).
Definition reclaim_leftovers : stm Store Stop unit :=
  change env (λ _ d, mkDisk (d_sessions d) (d_foreign d) ∅) (λ _, id).

(** What is in memory is gone when the process dies. *)
Definition outlive {A} (m : stm Store Stop A) (s : Store) : Store :=
  match m s with
  | (s, Err Died) => mkStore (disk s) None (ticks s)
  | (s, _) => s
  end.
Definition run_op (s : Store) (op : Op) : Store :=
  match op with
  | Persist calls => outlive (persist_loop_tool_records env limits calls) s
  | Create session => outlive (create_directory session) s
  | Delete session => outlive (delete_session env session) s
  | Restart => outlive reclaim_leftovers (mkStore (disk s) None (ticks s))
  end.
Definition new_store : Store := mkStore (mkDisk ∅ [] ∅) None 0.
Definition run (ops : list Op) : Store := foldl run_op new_store ops.
End life.

(** The snapshots a run is given. *)
Definition given (ops : list Op) (p : ToolPersistenceSnapshot) : Prop :=
  ∃ calls tool_ref, Persist calls ∈ ops ∧ (tool_ref, Some p) ∈ calls.

(** A disk as it is at some moment of a life that is given only [P]: in the middle of an
    operation it is the disk a process leaves that dies there. *)
Definition seen (limits : AuxLimits) (P : ToolPersistenceSnapshot → Prop) (d : Disk) : Prop :=
  ∃ env ops, (∀ p, given ops p → P p) ∧ d = disk (run env limits ops).

Lemma outlive_stays {A} J (m : stm Store Stop A) s : stays J m → J (disk s) → J (disk (outlive m s)).
Proof using Type. intros Hm Hs. specialize (Hm s Hs). unfold outlive. by destruct (m s) as [s' [a|[]]]. Qed.

Lemma run_op_sound env limits P s op :
  (∀ p, given [op] p → P p) → sound P (disk s) → sound P (disk (run_op env limits s op)).
Proof using RL.
  intros HP Hs. destruct op as [calls|session|session|]; cbn [run_op]; (apply outlive_stays; [|exact Hs]).
  - apply stays_persist. apply Forall_forall. intros [tool_ref [p|]] Hin; [|done]. apply HP. exists calls, tool_ref.
    split; [by apply list_elem_of_singleton|done].
  - apply stays_change; intros e d Hd; [|done]. revert Hd. apply sound_same. intros session' name. unfold node_at, tools_at. cbn [d_sessions].
    destruct (d_sessions d !! session) eqn:Hsession; [done|]. destruct (decide (session' = session)) as [->|]; [|by rewrite lookup_insert_ne].
    by rewrite lookup_insert_eq, Hsession.
  - apply stays_delete.
  - apply stays_change; intros e d Hd; done.
Qed.

Lemma run_sound env limits P ops : (∀ p, given ops p → P p) → sound P (disk (run env limits ops)).
Proof using RL.
  unfold run. induction ops as [|op ops IH] using rev_ind; intros HP.
  { intros session name node Hn. change (node_at session name (mkDisk ∅ [] ∅) = Some node) in Hn. unfold node_at, tools_at in Hn.
    cbn [d_sessions] in Hn. by rewrite lookup_empty in Hn. }
  rewrite foldl_snoc. apply run_op_sound; [|apply IH]; intros p (calls & tool_ref & Hop & Hin); apply HP; exists calls, tool_ref; set_solver.
Qed.

(** C31 Calls are persisted, sessions created and deleted, and every access to the disk fails or not, with
    or without its effect, and the process may die at each. A client that reads a stream of a call while
    all this goes on, seeing a different moment with every look, gets nothing, or the metadata of a
    snapshot of this very call and either its bytes, unchanged, or that they are corrupt (two blobs with
    one hash apart). And when persisting a snapshot was acknowledged, reading it gives all of it. *)
Theorem tool_records_read limits P :
  (∀ p, P p → taken p) →
  (∀ answers tool_ref s n r,
     (∀ n d, answers n = Ok d → seen limits P d) →
     (read_tool_source (look_free answers) tool_ref s n).2 = Ok (Some r) →
     (∃ p, P p ∧ p_tool_ref p = tool_ref ∧ metadata r = p_record p ∧
           (payload r = (None, true) ∨ payload r = (snapshot_file s p, false))) ∨ blob_collision P) ∧
  (∀ env ops p st, P p → (∀ p, given ops p → P p) →
     commit_tool_record env limits p (run env limits ops) = (st, Ok tt) →
     ∀ s n, (read_tool_source (look_free (λ _, Ok (disk st))) (p_tool_ref p) s n).2 = Ok (Some (read_back s p)) ∨ blob_collision P).
Proof using RL.
  intros Htaken. split.
  - intros answers tool_ref s n r Hanswers. apply (read_source_sound P); [done|]. intros n' d Hd.
    destruct (Hanswers n' d Hd) as (env & ops & HP & ->). by apply run_sound.
  - intros env ops p st Hp HP Hc s n. pose proof (run_sound env limits P ops HP) as Hs.
    pose proof (stays_commit env limits P p Hp _ Hs) as Hs'. pose proof (commit_whole env limits P p (Htaken p Hp) _ Hs) as Hw.
    rewrite Hc in Hs', Hw. by apply (whole_read P).
Qed.
End reads.

(** ** One call *)

Module RecordSample.
#[local] Instance phase_dec : EqDecision ToolPhase.
Proof. solve_decision. Defined.
#[local] Instance subject_dec : EqDecision ToolSubject.
Proof. solve_decision. Defined.
#[local] Instance command_dec : EqDecision CommandResult.
Proof. solve_decision. Defined.
#[local] Instance summary_dec : EqDecision StoredSummary.
Proof. solve_decision. Defined.
#[local] Instance window_dec : EqDecision StoredStreamWindow.
Proof. solve_decision. Defined.
#[local] Instance stored_dec : EqDecision StoredToolRecord.
Proof. solve_decision. Defined.
(** Enumerations by a number. *)
#[local] Instance phase_countable : Countable ToolPhase.
Proof.
  apply (inj_countable' (λ s, match s with Reading => 0 | Writing => 1 | Matching => 2 | Committing => 3 | PhaseRunning => 4 end)
    (λ n : N, match n with 0 => Reading | 1 => Writing | 2 => Matching | 3 => Committing | _ => PhaseRunning end)).
  by intros [].
Defined.
#[local] Instance state_countable : Countable ToolExecutionState.
Proof.
  apply (inj_countable' (λ s, match s with Requested => 0 | AwaitingPolicy => 1 | Running => 2 | Cancelling => 3 | Succeeded => 4
      | Failed => 5 | Denied => 6 | Cancelled => 7 | InputProvided => 8 end)
    (λ n : N, match n with 0 => Requested | 1 => AwaitingPolicy | 2 => Running | 3 => Cancelling | 4 => Succeeded | 5 => Failed
      | 6 => Denied | 7 => Cancelled | _ => InputProvided end)).
  by intros [].
Defined.
#[local] Instance outcome_countable : Countable ToolResultOutcome.
Proof.
  apply (inj_countable' (λ s, match s with OutcomeSuccess => 0 | OutcomeFailed => 1 | OutcomeDenied => 2 | OutcomeCancelled => 3
      | OutcomeInputProvided => 4 end)
    (λ n : N, match n with 0 => OutcomeSuccess | 1 => OutcomeFailed | 2 => OutcomeDenied | 3 => OutcomeCancelled | _ => OutcomeInputProvided end)).
  by intros [].
Defined.
#[local] Instance status_countable : Countable CommandStatus.
Proof.
  apply (inj_countable' (λ s, match s with CmdRunning => 0 | CmdCancelling => 1 | CmdExited => 2 | CmdCancelled => 3 | CmdTimedOut => 4
      | CmdSpawnFailed => 5 | CmdFailed => 6 end)
    (λ n : N, match n with 0 => CmdRunning | 1 => CmdCancelling | 2 => CmdExited | 3 => CmdCancelled | 4 => CmdTimedOut
      | 5 => CmdSpawnFailed | _ => CmdFailed end)).
  by intros [].
Defined.
#[local] Instance kind_countable : Countable ChangeKind.
Proof.
  apply (inj_countable' (λ k, match k with Added => 0 | Modified => 1 | Deleted => 2 | Renamed => 3 | KindConflict => 4 | KindUnknown => 5 end)
    (λ n : N, match n with 0 => Added | 1 => Modified | 2 => Deleted | 3 => Renamed | 4 => KindConflict | _ => KindUnknown end)).
  by intros [].
Defined.
#[local] Instance commit_countable : Countable ChangeCommitState.
Proof.
  apply (inj_countable' (λ k, match k with NotCommitted => 0 | Applied => 1 | CommitConflict => 2 | CommitUnknown => 3 end)
    (λ n : N, match n with 0 => NotCommitted | 1 => Applied | 2 => CommitConflict | _ => CommitUnknown end)).
  by intros [].
Defined.
#[local] Instance coverage_countable : Countable ChangeCoverage.
Proof.
  apply (inj_countable' (λ k, match k with CoverageComplete => 0 | CoveragePartial => 1 | CoverageUnavailable => 2 end)
    (λ n : N, match n with 0 => CoverageComplete | 1 => CoveragePartial | _ => CoverageUnavailable end)).
  by intros [].
Defined.
#[local] Instance revision_countable : Countable ChangeRevision.
Proof.
  apply (inj_countable'
    (λ r, match r with Missing => inl (inl tt) | Content h n => inl (inr (h, n)) | Metadata n m => inr (inl (n, m))
                     | RevisionUnknown => inr (inr tt) end)
    (λ r : (unit + str * N) + (N * option N + unit), match r with inl (inl _) => Missing | inl (inr (h, n)) => Content h n
                     | inr (inl (n, m)) => Metadata n m | inr (inr _) => RevisionUnknown end)).
  by intros [].
Defined.
(** Records by balanced pairs. *)
#[local] Instance change_countable : Countable StoredFileChange.
Proof.
  apply (inj_countable'
    (λ c, (((change_path c, kind c), (before c, after c)), ((commit_state c, coverage c), (before_captured c, after_captured c))))
    (λ '(((p, k), (b, a)), ((s, v), (bc, ac))), mkStoredChange p k b a s v bc ac)).
  by intros [].
Defined.
#[local] Instance subject_countable : Countable ToolSubject.
Proof.
  apply (inj_countable'
    (λ s, match s with File p => inl p | Command a b => inr (inl (a, b)) | Other => inr (inr tt) end)
    (λ s : str + (str * str + unit), match s with inl p => File p | inr (inl (a, b)) => Command a b | inr (inr _) => Other end)).
  by intros [].
Defined.
#[local] Instance summary_countable : Countable StoredSummary.
Proof.
  apply (inj_countable'
    (λ m, ((m_total_bytes m, m_seen m, m_truncated m), (m_expired m, m_file_bytes m, m_file_sha256 m)))
    (λ '((a, b, c), (d, e, f)), mkSummary a b c d e f)).
  by intros [].
Defined.
#[local] Instance window_countable : Countable StoredStreamWindow.
Proof.
  apply (inj_countable'
    (λ w, ((w_start_offset w, w_observed_end w), (w_seen w, w_complete w), ((w_truncated w, w_expired w), (w_file_bytes w, w_file_sha256 w))))
    (λ '((a, b), (c, d), ((e, f), (g, h))), mkStoredWindow a b c d e f g h)).
  by intros [].
Defined.
#[local] Instance command_countable : Countable CommandResult.
Proof.
  apply (inj_countable'
    (λ c, (((status c, exit_code c), (signal c, termination_confirmed c)),
           ((stdout_base_offset c, stdout_observed_end c), (stderr_base_offset c, stderr_observed_end c)), (output_complete c, output_truncated c)))
    (λ '(((a, b), (c, d)), ((e, f), (g, h)), (i, j)), mkCommand a b c d e f g h i j)).
  by intros [].
Defined.
#[local] Instance stored_countable : Countable StoredToolRecord.
Proof.
  apply (inj_countable'
    (λ r, ((((s_version r, s_tool_ref r), (s_name r, s_subject r)), ((s_subject_truncated r, s_state r), (s_phase r, s_started_at r))),
           (((s_finished_at r, s_outcome r), (s_input r, s_result r)), ((s_stdout r, s_stderr r), (s_command r, s_file_change r)))))
    (λ '((((a, b), (c, d)), ((e, f), (g, h))), (((i, j), (k, l)), ((m, n), (o, p)))), mkStored a b c d e f g h i j k l m n o p)).
  by intros [].
Defined.

Definition toy_digest (b : list N) : str := hex_digits 64 (foldl (λ h x, (h * 257 + x) mod 1000003) 7 b).
#[local] Instance toy : RecordEncoding := {|
  encode_record r := [Npos (encode r)];
  decode_record bytes := match bytes with [Npos p] => decode p | _ => None end;
  digest := toy_digest;
  tool_ref_hash t := toy_digest ([ref_session t; ref_loop t; ref_request t] ++ ref_call t)
|}.
#[local] Instance toy_laws : RecordEncodingLaws.
Proof.
  split.
  - intros r. apply hex_digits_length.
  - intros r. apply hex_digits_lower.
  - intros r. cbn. apply decode_encode.
Qed.

Definition call : ToolRef := mkRef 1 2 3 (lit "c").
(** [bash] printed two lines. *)
Definition finished : ToolRecord :=
  set_state Succeeded None None (Some OutcomeSuccess) (set_result (lit "two lines") 2 9 false false
    (set_input (Command (lit "ls") (lit ".")) false (lit "ls") 2 false (ToolRecord_new (lit "bash")))).
Definition snapshot : ToolPersistenceSnapshot :=
  default (mkSnapshot call (mkStored 0 call [] Other false Running None None None None (mkSummary 0 false false false 0 None)
     (mkSummary 0 false false false 0 None) (mkStoredWindow 0 0 false false false false 0 None)
     (mkStoredWindow 0 0 false false false false 0 None) None None) None None None None None None)
    (persistence_snapshot digest call finished).
Lemma snapshot_taken : taken snapshot.
Proof. exists call, finished. vm_compute. reflexivity. Qed.

Definition calm (n : N) : Event := mkEvent History.IoDone (λ _, true) None false false false n 0 (7, n).
Definition opened : Store := run calm DEFAULT_AUX_LIMITS [Create 1].
Lemma commit_succeeds : (commit_tool_record calm DEFAULT_AUX_LIMITS snapshot opened).2 = Ok tt.
Proof. vm_compute. reflexivity. Qed.

Definition committed : Store := (commit_tool_record calm DEFAULT_AUX_LIMITS snapshot opened).1.
Lemma commit_runs : commit_tool_record calm DEFAULT_AUX_LIMITS snapshot opened = (committed, Ok tt).
Proof. rewrite <- commit_succeeds. apply surjective_pairing. Qed.
Lemma create_gives_nothing p : given [Create 1] p → p = snapshot.
Proof. intros (calls & tool_ref & Hin & _). by apply list_elem_of_singleton in Hin. Qed.

(** What [bash] printed is there, and a client sees it. *)
Lemma tool_records_read_witness :
  (read_tool_source (look_free (λ _, Ok (disk committed))) (p_tool_ref snapshot) Output 0).2 = Ok (Some (read_back Output snapshot))
  ∨ blob_collision (λ p, p = snapshot).
Proof.
  apply (proj2 (tool_records_read DEFAULT_AUX_LIMITS (λ p, p = snapshot)
    (λ p (Hp : p = snapshot), eq_ind_r taken snapshot_taken Hp)) calm [Create 1] snapshot committed eq_refl create_gives_nothing commit_runs).
Defined.
End RecordSample.
