(* ===== verification/Scan.v ===== *)
(** The walk over the files of a workspace, [workspace/scan.rs].

    Entries are visited depth first, the names of a directory in order, from a cursor on,
    within budgets of entries, bytes, depth and ignore rules.  The file system may be a
    different one at every access; matching a path against ignore rules is left to the
    [ignore] crate. *)

From S2P Require Import Prelude RustStr Errors Status.
Open Scope N_scope.

(** ** Paths *)

Abbreviation Path := (list Component).

(** [Ord] of lists and of components. *)
Fixpoint lex {A} (cmp : A → A → comparison) (l k : list A) : comparison :=
  match l, k with
  | [], [] => Eq
  | [], _ :: _ => Lt
  | _ :: _, [] => Gt
  | x :: l, y :: k => match cmp x y with Eq => lex cmp l k | c => c end
  end.
Definition name_compare : list N → list N → comparison := lex N.compare.
Definition component_rank (c : Component) : N := match c with RootDir => 0 | CurDir => 1 | ParentDir => 2 | Normal _ => 3 end.
Definition component_compare (a b : Component) : comparison :=
  match a, b with Normal a, Normal b => name_compare a b | _, _ => component_rank a ?= component_rank b end.
Definition path_compare : Path → Path → comparison := lex component_compare.
Definition path_lt (a b : Path) : bool := bool_decide (path_compare a b = Lt).
(** [path.starts_with(base)] *)
Definition path_starts_with (base path : Path) : bool := bool_decide (is_Some (strip_path base path)).

(** Names of a path in a request or an answer are UTF-8. *)
Definition display_names (names : list (list N)) : str := join (lit "/") (omap from_utf8 names).
Definition normal_name (c : Component) : option (list N) := match c with Normal name => Some name | _ => None end.
Definition display_path (relative : Path) : str := display_names (omap normal_name relative).

(** [normalize_relative] of [workspace.rs]. *)
Definition normalize_relative (path : str) (allow_empty : bool) : option Path :=
  if decide (0 ∈ path) then None
  else if is_absolute (as_bytes path) then None
  else let parts := components (as_bytes path) in
       if forallb (λ c, match c with Normal _ | CurDir => true | _ => false end) parts then
         let normalized := filter (λ c, is_Some (normal_name c)) parts in
         if decide (normalized = [] ∧ allow_empty = false) then None else Some normalized
       else None.

(** ** The file system *)

Inductive WorkspaceFileKind := FFile | FDirectory | FSymlink | FOther.
#[export] Instance WorkspaceFileKind_eq_dec : EqDecision WorkspaceFileKind.
Proof. solve_decision. Defined.

Inductive IoError := IoNotFound | IoNotADirectory | IoOther.
#[export] Instance IoError_eq_dec : EqDecision IoError.
Proof. solve_decision. Defined.

(** [WorkspaceError] of [workspace.rs]. *)
Inductive WorkspaceError :=
  | WsInvalidPath | WsEscape | WsNotFound | WsNotFile | WsNotDirectory | WsUnavailable | WsUnknownOutcome | WsTooLarge | WsBinary.

Record Metadata := mkMeta { st_kind : WorkspaceFileKind; st_len : N }.
(** What the system answers about paths relative to the workspace: the metadata of an
    entry, the names in a directory, the canonical path, if it is in the workspace, the
    reads of a file, and the length and the reads of a regular file in the workspace. *)
Record FileSystem := mkFs {
  fs_stat : Path → result IoError Metadata;
  fs_dir : Path → option (list (option (list N)));
  fs_canonical : Path → result IoError (option Path);
  fs_open : Path → option (list (option (list N)));
  fs_regular : str → result WorkspaceError (N * list (option (list N)))
}.

(** The moment of one access. *)
Record Moment := mkMoment { m_fs : FileSystem; m_cancelled : bool; m_late : bool }.

(** ** Ignore rules *)

Inductive IgnoreMatch := MatchIgnore | MatchWhitelist | MatchNone.

(** [ignore::gitignore] *)
Class IgnoreRules := {
  Gitignore : Type;
  build_rules : Path → Path → list str → option Gitignore;
  matched : Gitignore → Path → bool → IgnoreMatch
}.

Inductive RuleCategory := CategoryIgnore | CategoryGitIgnore.

(** [str::lines] *)
Definition strip_line_end (line : str) : str :=
  match strip_suffix_char LF line with
  | Some line => match strip_suffix_char CR line with Some line => line | None => line end
  | None => line
  end.
Definition lines (text : str) : list str := strip_line_end <$> split_inclusive LF text.

(** ** Budgets *)

Definition MAX_SCAN_ENTRIES : N := 100000.
Definition MAX_SCAN_BYTES : N := 16 * 1024 * 1024.
Definition MAX_SCAN_DEPTH : N := 64.
Definition MAX_RULE_FILES : N := 128.
Definition MAX_RULE_BYTES : N := 1024 * 1024.
Definition MAX_RULE_FILE_BYTES : N := 256 * 1024.
Definition IGNORE_FILES : list (list N) := [lit ".ignore"; lit ".gitignore"].
Definition GIT_EXCLUDE : list N := lit ".git/info/exclude".
Definition DEFAULT_EXCLUDED_DIRECTORIES : list (list N) :=
  lit <$> ["node_modules"; "bower_components"; "vendor"; "target"; "dist"; "build"; ".venv"; "venv"; "__pycache__";
           ".pytest_cache"; ".mypy_cache"; ".tox"; ".gradle"; ".next"; ".nuxt"]%string.

Inductive WorkspaceScanStop := StopEnd | StopPage | StopEntries | StopBytes | StopDepth | StopRules | StopDeadline.
#[export] Instance WorkspaceScanStop_eq_dec : EqDecision WorkspaceScanStop.
Proof. solve_decision. Defined.

Record ScanLimits := mkLimits { l_entries : N; l_bytes : N; l_depth : N; l_rule_files : N; l_rule_bytes : N }.
Definition standard_limits : ScanLimits := mkLimits MAX_SCAN_ENTRIES MAX_SCAN_BYTES MAX_SCAN_DEPTH MAX_RULE_FILES MAX_RULE_BYTES.

Record ScanBudget := mkBudget {
  b_entries : N;
  b_bytes : N;
  b_rule_files : N;
  b_rule_bytes : N;
  b_rules_exhausted : bool;
  b_expired : bool
}.
Definition fresh_budget : ScanBudget := mkBudget 0 0 0 0 false false.

Inductive Visit :=
  | Next
  | Stop (reason : WorkspaceScanStop)
  | StopInside (reason : WorkspaceScanStop) (line offset : N)
  | StopBefore (reason : WorkspaceScanStop).

Record WalkEntry := mkWalkEntry { e_relative : str; e_kind : WorkspaceFileKind; e_size : option N }.
Record WalkOptions := mkOptions { o_recursive : bool; o_want_size : bool; o_directory_only : bool; o_resume_file : bool }.
Record WalkOutcome := mkOutcome {
  out_reason : WorkspaceScanStop;
  out_next : option str;
  out_resume : option (N * N);
  out_unrepresentable : N;
  out_unreadable : N;
  out_excluded : N
}.

(** A scan: its budget, the accesses made, and what the visitor keeps. *)
Record Scan (V : Type) := mkScan { sc_budget : ScanBudget; sc_ticks : N; sc_visitor : V }.
Arguments mkScan {V} _ _ _.
Arguments sc_budget {V} _.
Arguments sc_ticks {V} _.
Arguments sc_visitor {V} _.

Section budget.
Context {V : Type}.
Context (env : N → Moment) (limits : ScanLimits).
Abbreviation B := (stm (Scan V) AgentError).

Definition next_moment : B Moment := λ s, (mkScan (sc_budget s) (sc_ticks s + 1) (sc_visitor s), Ok (env (sc_ticks s))).
Definition set_budget (b : ScanBudget) : B unit := modify (λ s, mkScan b (sc_ticks s) (sc_visitor s)).

Definition time_expired : B bool := m ← next_moment; s ← get; mret (b_expired (sc_budget s) || m_late m).
Definition budget_check : B unit :=
  m ← next_moment;
  _ ← throw_if (m_cancelled m = true) QueryLimit;
  late ← time_expired;
  if late : bool then
    s ← get;
    let b := sc_budget s in
    set_budget (mkBudget (b_entries b) (b_bytes b) (b_rule_files b) (b_rule_bytes b) (b_rules_exhausted b) true)
  else mret tt.
Definition claim_entry : B bool :=
  s ← get;
  let b := sc_budget s in
  if decide (l_entries limits <= b_entries b) then mret false else
  _ ← set_budget (mkBudget (b_entries b + 1) (b_bytes b) (b_rule_files b) (b_rule_bytes b) (b_rules_exhausted b) (b_expired b));
  mret true.
Definition byte_available (bytes : N) : B bool :=
  s ← get;
  let b := sc_budget s in
  match checked_add (b_bytes b) bytes with
  | Some total =>
      if decide (total <= l_bytes limits) then
        _ ← set_budget (mkBudget (b_entries b) total (b_rule_files b) (b_rule_bytes b) (b_rules_exhausted b) (b_expired b));
        mret true
      else mret false
  | None => mret false
  end.
Definition claim_rule_file : B bool :=
  s ← get;
  let b := sc_budget s in
  if decide (l_rule_files limits <= b_rule_files b) then mret false else
  _ ← set_budget (mkBudget (b_entries b) (b_bytes b) (b_rule_files b + 1) (b_rule_bytes b) (b_rules_exhausted b) (b_expired b));
  mret true.
Definition charge_rule_bytes (bytes : N) : B bool :=
  s ← get;
  let b := sc_budget s in
  match checked_add (b_rule_bytes b) bytes with
  | Some total =>
      if decide (total <= l_rule_bytes limits) then
        _ ← set_budget (mkBudget (b_entries b) (b_bytes b) (b_rule_files b) total (b_rules_exhausted b) (b_expired b));
        mret true
      else mret false
  | None => mret false
  end.
(** [budget.rules_exhausted = true] *)
Definition exhaust_rules : B unit :=
  s ← get;
  let b := sc_budget s in
  set_budget (mkBudget (b_entries b) (b_bytes b) (b_rule_files b) (b_rule_bytes b) true (b_expired b)).
End budget.

(** ** The walker *)

Section walk.
Context `{IgnoreRules} {V : Type}.

Record DirRules := mkDirRules { d_relative : Path; d_dot_ignore : option Gitignore; d_gitignore : option Gitignore }.

Record Walker := mkWalker {
  w_scan : Scan V;
  w_last : str;
  w_reason : WorkspaceScanStop;
  w_next : option str;
  w_resume : option (N * N);
  w_unrepresentable : N;
  w_unreadable : N;
  w_excluded : N;
  w_depth_capped : bool;
  w_rules : list DirRules;
  w_exclude : option Gitignore
}.
Abbreviation M := (stm Walker AgentError).

Definition set_scan (s : Scan V) (w : Walker) : Walker :=
  mkWalker s (w_last w) (w_reason w) (w_next w) (w_resume w) (w_unrepresentable w) (w_unreadable w) (w_excluded w)
    (w_depth_capped w) (w_rules w) (w_exclude w).
Definition set_last (last : str) (w : Walker) : Walker :=
  mkWalker (w_scan w) last (w_reason w) (w_next w) (w_resume w) (w_unrepresentable w) (w_unreadable w) (w_excluded w)
    (w_depth_capped w) (w_rules w) (w_exclude w).
Definition set_stop (reason : WorkspaceScanStop) (next : option str) (resume : option (N * N)) (w : Walker) : Walker :=
  mkWalker (w_scan w) (w_last w) reason next resume (w_unrepresentable w) (w_unreadable w) (w_excluded w)
    (w_depth_capped w) (w_rules w) (w_exclude w).
Definition count (unrepresentable unreadable excluded : N) (w : Walker) : Walker :=
  mkWalker (w_scan w) (w_last w) (w_reason w) (w_next w) (w_resume w) (w_unrepresentable w + unrepresentable)
    (w_unreadable w + unreadable) (w_excluded w + excluded) (w_depth_capped w) (w_rules w) (w_exclude w).
Definition cap_depth (w : Walker) : Walker :=
  mkWalker (w_scan w) (w_last w) (w_reason w) (w_next w) (w_resume w) (w_unrepresentable w) (w_unreadable w) (w_excluded w)
    true (w_rules w) (w_exclude w).
Definition set_rules (rules : list DirRules) (exclude : option Gitignore) (w : Walker) : Walker :=
  mkWalker (w_scan w) (w_last w) (w_reason w) (w_next w) (w_resume w) (w_unrepresentable w) (w_unreadable w) (w_excluded w)
    (w_depth_capped w) rules exclude.
Definition unreadable_one : M unit := modify (count 0 1 0).

Definition on_scan {A} (m : stm (Scan V) AgentError A) : M A := λ w, let (s, r) := m (w_scan w) in (set_scan s w, r).

(** What does not change during a walk. *)
Context (env : N → Moment) (limits : ScanLimits) (options : WalkOptions) (is_repo : bool) (start : option Path).
Context (visit : WalkEntry → stm (Scan V) AgentError Visit).

Definition moment : M Moment := on_scan (next_moment env).
Definition stopped (w : Walker) : bool := bool_decide (w_reason w ≠ StopEnd).

(** A place to continue has to be another one than the walk came from. *)
Definition usable_next (w : Walker) (path : str) : bool :=
  bool_decide (is_Some (w_resume w)) || (bool_decide (path ≠ []) && bool_decide (start ≠ Some (components (as_bytes path)))).
Definition stop (reason : WorkspaceScanStop) (next : option str) : M unit :=
  late ← on_scan (time_expired env);
  w ← get;
  if late : bool then modify (set_stop StopDeadline None None)
  else if decide (w_reason w = StopEnd) then
    modify (set_stop reason (path ← next; if usable_next w path then Some path else None) (w_resume w))
  else mret tt.
Definition check : M unit :=
  _ ← on_scan (budget_check env);
  late ← on_scan (time_expired env);
  if late : bool then stop StopEnd None else mret tt.

(** *** Rules *)

Definition is_file (meta : result IoError Metadata) : bool :=
  match meta with Ok (mkMeta FFile _) => true | _ => false end.
Fixpoint read_loop (reads : list (option (list N))) (bytes : list N) : M (option (list N)) :=
  _ ← check;
  w ← get;
  if stopped w then mret (Some bytes) else
  match reads with
  | None :: _ => _ ← unreadable_one; mret None
  | [] | Some [] :: _ => mret (Some bytes)
  | Some chunk :: reads =>
      charged ← on_scan (charge_rule_bytes limits (lenN chunk));
      if negb charged || bool_decide (MAX_RULE_FILE_BYTES < lenN bytes + lenN chunk) then
        _ ← on_scan exhaust_rules;
        _ ← unreadable_one;
        mret None
      else read_loop reads (bytes ++ chunk)
  end.
Definition read_bounded (path : Path) : M (option str) :=
  m ← moment;
  match fs_open (m_fs m) path with
  | None => _ ← unreadable_one; mret None
  | Some reads =>
      read ← read_loop reads [];
      match read with
      | None => mret None
      | Some bytes =>
          match from_utf8 bytes with
          | Some text => mret (Some text)
          | None => _ ← unreadable_one; mret None
          end
      end
  end.

(** The path of a rule file behind a symbolic link. *)
Definition rule_target (path : Path) (kind : WorkspaceFileKind) : M (option Path) :=
  match kind with
  | FSymlink =>
      m ← moment;
      match fs_canonical (m_fs m) path with
      | Ok (Some canonical) => mret (Some canonical)
      | Err IoNotFound => mret None
      | Ok None | Err _ => _ ← unreadable_one; mret None
      end
  | _ => mret (Some path)
  end.
Definition load_rules_file (path base : Path) : M (option Gitignore) :=
  _ ← check;
  w ← get;
  if stopped w || b_rules_exhausted (sc_budget (w_scan w)) then mret None else
  m ← moment;
  match fs_stat (m_fs m) path with
  | Err IoOther => _ ← unreadable_one; mret None
  | Err _ => mret None
  | Ok meta =>
      target ← rule_target path (st_kind meta);
      match target with
      | None => mret None
      | Some path =>
          m ← moment;
          if negb (is_file (fs_stat (m_fs m) path)) then mret None else
          claimed ← on_scan (claim_rule_file limits);
          if negb claimed then
            _ ← on_scan exhaust_rules;
            _ ← unreadable_one;
            mret None
          else
          read ← read_bounded path;
          match read with
          | None => mret None
          | Some text =>
              match build_rules base path (lines text) with
              | Some rules => mret (Some rules)
              | None => _ ← unreadable_one; mret None
              end
          end
      end
  end.

Definition push_rules (rules : DirRules) (w : Walker) : Walker := set_rules (w_rules w ++ [rules]) (w_exclude w) w.
Definition pop_rules (w : Walker) : Walker := set_rules (removelast (w_rules w)) (w_exclude w) w.
Definition under (dir : Path) (names : list N) : Path := dir ++ components names.

(** Whether rules were pushed. *)
Definition load_directory_rules (relative : Path) : M bool :=
  dot_ignore ← load_rules_file (under relative (lit ".ignore")) relative;
  w ← get;
  if stopped w then mret false else
  gitignore ← load_rules_file (under relative (lit ".gitignore")) relative;
  w ← get;
  if stopped w then mret false else
  _ ← (if bool_decide (relative = []) && is_repo then
         exclude ← load_rules_file (under relative GIT_EXCLUDE) relative;
         modify (λ w, set_rules (w_rules w) exclude w)
       else mret tt);
  w ← get;
  if stopped w then mret false else
  match dot_ignore, gitignore with
  | None, None => mret false
  | _, _ => _ ← modify (push_rules (mkDirRules relative dot_ignore gitignore)); mret true
  end.

(** The rules of the directories above the root of the walk, and its own. *)
Fixpoint load_rules_below (prefix parts : Path) : M unit :=
  match parts with
  | [] => mret tt
  | part :: parts =>
      _ ← load_directory_rules (prefix ++ [part]);
      w ← get;
      if stopped w then mret tt else load_rules_below (prefix ++ [part]) parts
  end.
Definition load_ancestor_rules (relative : Path) (root_is_directory : bool) : M unit :=
  _ ← load_directory_rules [];
  w ← get;
  if stopped w then mret tt else
  load_rules_below [] (take (length relative - (if root_is_directory then 0 else 1)) relative).

Definition decide_match (m : IgnoreMatch) : option bool :=
  match m with MatchIgnore => Some true | MatchWhitelist => Some false | MatchNone => None end.
Definition category_rules (category : RuleCategory) (rules : DirRules) : option Gitignore :=
  match category with CategoryIgnore => d_dot_ignore rules | CategoryGitIgnore => d_gitignore rules end.
(** The closest directory first: [rules] is in the order of [rev]. *)
Fixpoint decide_rules (rules : list DirRules) (relative : Path) (is_dir : bool) (category : RuleCategory) : option bool :=
  match rules with
  | [] => None
  | r :: rules =>
      let verdict :=
        match strip_path (d_relative r) relative, category_rules category r with
        | Some ((_ :: _) as candidate), Some matcher => decide_match (matched matcher candidate is_dir)
        | _, _ => None
        end in
      match verdict with Some excluded => Some excluded | None => decide_rules rules relative is_dir category end
  end.
Definition or_decide (a : option bool) (b : bool) : bool := default b a.
Definition own_file (name : list N) : bool :=
  bool_decide (name = lit ".git")
  || (starts_with (lit ".minicore-write-") name && starts_with (rev (lit ".tmp")) (rev name)).
Definition excluded_by (rules : list DirRules) (exclude : option Gitignore) (relative : Path) (name : list N) (is_dir : bool) : bool :=
  own_file name
  || or_decide (decide_rules (rev rules) relative is_dir CategoryIgnore)
       (or_decide (decide_rules (rev rules) relative is_dir CategoryGitIgnore)
          (or_decide (g ← exclude; decide_match (matched g relative is_dir))
             (negb is_repo && is_dir && bool_decide (name ∈ DEFAULT_EXCLUDED_DIRECTORIES)))).
Definition excluded (w : Walker) : Path → list N → bool → bool := excluded_by (w_rules w) (w_exclude w).

Fixpoint excluded_below (rules : list DirRules) (exclude : option Gitignore) (prefix parts : Path) (is_dir : bool) : bool :=
  match parts with
  | [] => false
  | part :: parts =>
      excluded_by rules exclude (prefix ++ [part]) (as_os_str part) (bool_decide (parts ≠ []) || is_dir)
      || excluded_below rules exclude (prefix ++ [part]) parts is_dir
  end.
Definition excluded_root (w : Walker) (relative : Path) (is_dir : bool) : bool :=
  excluded_below (w_rules w) (w_exclude w) [] relative is_dir.

(** *** Directories *)

Definition apply_visit (v : Visit) (path : str) : M unit :=
  match v with
  | Next => modify (set_last path)
  | Stop reason => stop reason (Some path)
  | StopBefore reason => w ← get; stop reason (Some (w_last w))
  | StopInside reason line offset =>
      _ ← modify (λ w, set_stop (w_reason w) (w_next w) (Some (line, offset)) w);
      stop reason (Some path)
  end.

(** Names in order, with at most [capacity] of them kept. *)
Fixpoint insert_name (name : list N) (names : list (list N)) : list (list N) :=
  match names with
  | [] => [name]
  | other :: rest =>
      match name_compare name other with
      | Lt => name :: names
      | Eq => name :: rest
      | Gt => other :: insert_name name rest
      end
  end.
Definition insert_sorted (capacity : nat) (name : list N) (names : list (list N)) : list (list N) :=
  let names := insert_name name names in
  if decide (capacity < length names)%nat then removelast names else names.

(** A sibling before the one the cursor is in. *)
Definition passed (child : Path) : bool :=
  from_option (λ s, path_lt child s && negb (path_starts_with child s)) false start.
(** A child up to the cursor. *)
Definition positioning (child : Path) : bool :=
  from_option (λ s, path_lt child s || (bool_decide (child = s) && negb (o_resume_file options))) false start.
Definition above_cursor (child : Path) : bool := from_option (path_starts_with child) false start.

Fixpoint collect (relative : Path) (capacity : nat) (entries : list (option (list N))) (names : list (list N))
    : M (option (list (list N))) :=
  match entries with
  | [] => mret (Some names)
  | entry :: entries =>
      _ ← check;
      w ← get;
      if stopped w then mret None else
      match entry with
      | None => _ ← unreadable_one; collect relative capacity entries names
      | Some name =>
          collect relative capacity entries
            (if passed (relative ++ [Normal name]) then names else insert_sorted capacity name names)
      end
  end.

(** The type of an entry, asked a second time when the first answer fails. *)
Definition entry_type (path : Path) : M (option WorkspaceFileKind) :=
  m ← moment;
  match fs_stat (m_fs m) path with
  | Ok meta => mret (Some (st_kind meta))
  | Err _ => m ← moment; match fs_stat (m_fs m) path with Ok meta => mret (Some (st_kind meta)) | Err _ => mret None end
  end.
Definition entry_size (path : Path) : M (option N) :=
  m ← moment;
  mret (match fs_stat (m_fs m) path with Ok (mkMeta FFile len) => Some len | _ => None end).

Definition child_display (display part : str) : str := match display with [] => part | _ => display ++ lit "/" ++ part end.
Definition note_last (positioning : bool) (name : list N) (child : Path) : M unit :=
  if negb positioning && bool_decide (is_Some (from_utf8 name)) then modify (set_last (display_path child)) else mret tt.

Definition examine (descend : Path → str → N → M unit) (relative : Path) (display : str) (depth : N) (name : list N)
    (positioning : bool) : M unit :=
  let child := relative ++ [Normal name] in
  found ← entry_type child;
  match found with
  | None => _ ← unreadable_one; note_last positioning name child
  | Some kind =>
      let is_dir := bool_decide (kind = FDirectory) in
      w ← get;
      if excluded w child name is_dir then note_last positioning name child else
      match from_utf8 name with
      | None => modify (count 1 0 0)
      | Some part =>
          let path := child_display display part in
          size ← (if negb positioning && o_want_size options && bool_decide (kind = FFile) then entry_size child else mret None);
          let child_depth := depth + 1 in
          _ ← (if positioning then mret tt
               else v ← on_scan (visit (mkWalkEntry path kind size)); apply_visit v path);
          w ← get;
          if is_dir && o_recursive options && negb (stopped w) then
            if decide (l_depth limits <= child_depth) then modify cap_depth else descend child path child_depth
          else mret tt
      end
  end.

Fixpoint walk_names (descend : Path → str → N → M unit) (relative : Path) (display : str) (depth : N) (names : list (list N))
    : M unit :=
  match names with
  | [] => mret tt
  | name :: names =>
      _ ← check;
      w ← get;
      if stopped w then mret tt else
      let child := relative ++ [Normal name] in
      let position := positioning child in
      if position && negb (above_cursor child) then walk_names descend relative display depth names else
      claimed ← (if position then mret true else on_scan (claim_entry limits));
      if negb claimed then w ← get; stop StopEntries (Some (w_last w)) else
      _ ← examine descend relative display depth name position;
      walk_names descend relative display depth names
  end.

Definition walk_entries (descend : Path → str → N → M unit) (relative : Path) (display : str) (depth : N) : M unit :=
  w ← get;
  if stopped w then mret tt else
  m ← moment;
  match fs_dir (m_fs m) relative with
  | None =>
      _ ← unreadable_one;
      claimed ← on_scan (claim_entry limits);
      if claimed : bool then mret tt else stop StopEntries None
  | Some entries =>
      w ← get;
      let capacity := N.to_nat (l_entries limits - b_entries (sc_budget (w_scan w)) + 2) in
      names ← collect relative capacity entries [];
      match names with
      | None => mret tt
      | Some names => walk_names descend relative display depth names
      end
  end.

(** Descends at most [fuel] times; [walk_scope] gives it the depth limit. *)
Fixpoint walk_directory (fuel : nat) (load_rules : bool) (relative : Path) (display : str) (depth : N) : M unit :=
  pushed ← (if load_rules then load_directory_rules relative else mret false);
  _ ← walk_entries
        (match fuel with O => λ _ _ _, throw Internal | S fuel => walk_directory fuel true end)
        relative display depth;
  if pushed : bool then modify pop_rules else mret tt.

Definition visit_root_file (relative : Path) : M unit :=
  if positioning relative then mret tt else
  claimed ← on_scan (claim_entry limits);
  if negb claimed then stop StopEntries None else
  w ← get;
  if excluded_root w relative false then modify (count 0 0 1) else
  m ← moment;
  match fs_stat (m_fs m) relative with
  | Err _ => unreadable_one
  | Ok (mkMeta kind len) =>
      let size := if o_want_size options && bool_decide (kind = FFile) then Some len else None in
      let path := display_path relative in
      v ← on_scan (visit (mkWalkEntry path kind size));
      apply_visit v path
  end.

Definition walk_root (relative : Path) (root_is_directory : bool) : M unit :=
  _ ← check;
  w ← get;
  _ ← (if stopped w then mret tt else load_ancestor_rules relative root_is_directory);
  w ← get;
  if stopped w then mret tt else
  if root_is_directory then
    if excluded_root w relative true then modify (count 0 0 1)
    else walk_directory (N.to_nat (l_depth limits)) false relative (display_path relative) 0
  else visit_root_file relative.

Definition walk_finish : M WalkOutcome :=
  late ← on_scan (time_expired env);
  _ ← (if late : bool then modify (set_stop StopDeadline None None) else mret tt);
  w ← get;
  let reason :=
    if decide (w_reason w = StopEnd) then
      if b_rules_exhausted (sc_budget (w_scan w)) then StopRules else if w_depth_capped w then StopDepth else StopEnd
    else w_reason w in
  mret (mkOutcome reason (if decide (reason = StopEnd) then None else w_next w) (w_resume w)
          (w_unrepresentable w) (w_unreadable w) (w_excluded w)).

Definition walk_through (relative : Path) (root_is_directory : bool) : M WalkOutcome :=
  _ ← walk_root relative root_is_directory;
  walk_finish.

Definition new_walker (last : str) (s : Scan V) : Walker := mkWalker s last StopEnd None None 0 0 0 false [] None.
End walk.

Arguments Walker : clear implicits.
Arguments Walker {_} V.

(** The whole walk, with the checks of the directory it was asked for. *)
Definition walk_scope `{IgnoreRules} {V} (env : N → Moment) (limits : ScanLimits) (directory : str) (options : WalkOptions)
    (start_path : option str) (visit : WalkEntry → stm (Scan V) AgentError Visit) : stm (Scan V) AgentError WalkOutcome :=
  _ ← budget_check env;
  relative ← lift (ok_or (normalize_relative directory true) InvalidArguments);
  m ← next_moment env;
  resolved ← lift (match fs_canonical (m_fs m) relative with Ok (Some resolved) => Ok resolved | _ => Err Workspace end);
  m ← next_moment env;
  meta ← lift (map_err (λ _, Workspace) (fs_stat (m_fs m) resolved));
  let root_is_directory := bool_decide (st_kind meta = FDirectory) in
  _ ← throw_if (root_is_directory = false ∧ o_directory_only options = true) Workspace;
  m ← next_moment env;
  requested ← lift (map_err (λ _, Workspace) (fs_stat (m_fs m) relative));
  _ ← throw_if (root_is_directory = true ∧ st_kind requested = FSymlink) Workspace;
  _ ← throw_if (forallb (λ c, bool_decide (is_Some (from_utf8 (as_os_str c)))) resolved = false) Workspace;
  m ← next_moment env;
  let is_repo := match fs_stat (m_fs m) [Normal (lit ".git")] with Ok _ => true | Err _ => false end in
  let start := (λ path, components (as_bytes path)) <$> start_path in
  s ← get;
  let '(w, r) := walk_through env limits options is_repo start visit resolved root_is_directory (new_walker (default [] start_path) s) in
  _ ← put (w_scan w);
  lift r.
