(* ===== verification/ScanOrder.v ===== *)
(** The order of paths, and the paths a text names.

    Names are compared as bytes and paths component by component, so a directory comes
    before what is in it and what is in it before its next sibling. *)

From stdpp Require Import sorting.
From S2P Require Import Prelude RustStr Errors Status Scan.
Open Scope N_scope.

Lemma filter_every {A} (P : A → Prop) `{∀ x, Decision (P x)} (l : list A) : Forall P l → filter P l = l.
Proof. induction 1 as [|x l Hx _ IH]; [done|]. by rewrite filter_cons_True, IH. Qed.

(** ** Lexicographic order *)

Section lex.
Context {A : Type} (cmp : A → A → comparison).
Context (cmp_eq : ∀ x y, cmp x y = Eq ↔ x = y).
Context (cmp_flip : ∀ x y, cmp y x = CompOpp (cmp x y)).
Context (cmp_trans : ∀ x y z, cmp x y = Lt → cmp y z = Lt → cmp x z = Lt).

Lemma lex_eq l k : lex cmp l k = Eq ↔ l = k.
Proof using cmp_eq.
  revert k. induction l as [|x l IH]; intros [|y k]; cbn; try done.
  destruct (cmp x y) eqn:Hc; [apply cmp_eq in Hc as ->; rewrite IH; split; congruence|..].
  all: split; [done|]; intros [= -> ->]; by rewrite (proj2 (cmp_eq y y)) in Hc.
Qed.
Lemma lex_flip l k : lex cmp k l = CompOpp (lex cmp l k).
Proof using cmp_flip.
  revert k. induction l as [|x l IH]; intros [|y k]; cbn; try done. rewrite (cmp_flip x y). destruct (cmp x y); cbn; auto.
Qed.
Lemma lex_trans l k m : lex cmp l k = Lt → lex cmp k m = Lt → lex cmp l m = Lt.
Proof using cmp_eq cmp_trans.
  revert k m. induction l as [|x l IH]; intros [|y k] [|z m]; cbn; try done.
  destruct (cmp x y) eqn:H1, (cmp y z) eqn:H2; try done.
  - apply cmp_eq in H1 as ->. rewrite H2. apply IH.
  - apply cmp_eq in H1 as ->. by rewrite H2.
  - apply cmp_eq in H2 as <-. by rewrite H1.
  - by rewrite (cmp_trans x y z).
Qed.
Lemma lex_app l k m : (∀ x, cmp x x = Eq) → lex cmp (l ++ k) (l ++ m) = lex cmp k m.
Proof using Type. intros Hr. induction l as [|x l IH]; cbn; [done|]. by rewrite Hr. Qed.
End lex.

Lemma N_compare_flip (x y : N) : (y ?= x) = CompOpp (x ?= y).
Proof. apply N.compare_antisym. Qed.
Lemma N_compare_trans (x y z : N) : (x ?= y) = Lt → (y ?= z) = Lt → (x ?= z) = Lt.
Proof. rewrite !N.compare_lt_iff. lia. Qed.

Lemma name_compare_eq a b : name_compare a b = Eq ↔ a = b.
Proof. apply lex_eq, N.compare_eq_iff. Qed.
Lemma name_compare_flip a b : name_compare b a = CompOpp (name_compare a b).
Proof. apply lex_flip, N_compare_flip. Qed.
Lemma name_compare_trans a b c : name_compare a b = Lt → name_compare b c = Lt → name_compare a c = Lt.
Proof. apply lex_trans; [apply N.compare_eq_iff|apply N_compare_trans]. Qed.

Lemma component_compare_eq a b : component_compare a b = Eq ↔ a = b.
Proof. destruct a, b; cbn; try (split; done). rewrite name_compare_eq. split; congruence. Qed.
Lemma component_compare_flip a b : component_compare b a = CompOpp (component_compare a b).
Proof. destruct a, b; cbn; try done. apply name_compare_flip. Qed.
Lemma component_compare_trans a b c : component_compare a b = Lt → component_compare b c = Lt → component_compare a c = Lt.
Proof. destruct a, b, c; cbn; try done. apply name_compare_trans. Qed.

Lemma path_compare_eq a b : path_compare a b = Eq ↔ a = b.
Proof. apply lex_eq, component_compare_eq. Qed.

Lemma path_lt_true a b : path_lt a b = true ↔ path_compare a b = Lt.
Proof. unfold path_lt. by rewrite bool_decide_eq_true. Qed.
Lemma path_lt_irrefl a : path_lt a a = false.
Proof. apply bool_decide_eq_false. by rewrite (proj2 (path_compare_eq a a) eq_refl). Qed.
Lemma path_lt_trans a b c : path_lt a b = true → path_lt b c = true → path_lt a c = true.
Proof. rewrite !path_lt_true. apply lex_trans; [apply component_compare_eq|apply component_compare_trans]. Qed.
Lemma path_lt_asym a b : path_lt a b = true → path_lt b a = false.
Proof. intros H1. destruct (path_lt b a) eqn:H2; [|done]. pose proof (path_lt_trans _ _ _ H1 H2) as H3. by rewrite path_lt_irrefl in H3. Qed.
Lemma path_lt_total a b : path_lt a b = false → path_lt b a = false → a = b.
Proof.
  unfold path_lt, path_compare. rewrite !bool_decide_eq_false. intros H1 H2. rewrite (lex_flip _ component_compare_flip a b) in H2.
  apply path_compare_eq. unfold path_compare. by destruct (lex component_compare a b).
Qed.
Lemma component_compare_refl c : component_compare c c = Eq.
Proof. by apply component_compare_eq. Qed.
Lemma path_lt_app p a b : path_lt (p ++ a) (p ++ b) = path_lt a b.
Proof. unfold path_lt, path_compare. by rewrite (lex_app _ p a b component_compare_refl). Qed.
Lemma path_lt_below p q : q ≠ [] → path_lt p (p ++ q) = true.
Proof. intros Hq. rewrite <- (app_nil_r p) at 1. rewrite path_lt_app. by destruct q. Qed.
Lemma path_lt_names (a b : list N) q r : path_lt (Normal a :: q) (Normal b :: r) = true ↔ name_compare a b = Lt ∨ a = b ∧ path_lt q r = true.
Proof.
  unfold path_lt, path_compare. rewrite !bool_decide_eq_true. cbn. destruct (name_compare a b) eqn:Hc.
  - apply name_compare_eq in Hc as ->. intuition congruence.
  - intuition congruence.
  - split; [done|]. intros [|[-> _]]; [done|]. rewrite (proj2 (name_compare_eq b b) eq_refl) in Hc. done.
Qed.

(** ** Prefixes *)

Lemma strip_path_Some base path r : strip_path base path = Some r ↔ path = base ++ r.
Proof.
  revert path. induction base as [|c base IH]; intros path; cbn; [split; congruence|].
  destruct path as [|d path]; [done|]. destruct (decide (c = d)) as [->|Hne]; [rewrite IH; split; congruence|].
  split; [done|]. intros [= -> _]. done.
Qed.
Lemma path_starts_with_true base path : path_starts_with base path = true ↔ ∃ r, path = base ++ r.
Proof.
  unfold path_starts_with. rewrite bool_decide_eq_true. split.
  - intros [r Hr]. exists r. by apply strip_path_Some.
  - intros [r Hr]. exists r. by apply strip_path_Some.
Qed.

(** What comes before [s] without leading to it comes before [s] with all that is in it. *)
Lemma passed_below p q s : path_lt p s = true → path_starts_with p s = false → path_lt (p ++ q) s = true.
Proof.
  revert s. induction p as [|c p IH]; intros s Hlt Hs.
  { exfalso. apply not_true_iff_false in Hs. apply Hs, path_starts_with_true. by exists s. }
  destruct s as [|d s]; [done|]. rewrite path_lt_true in Hlt |- *. unfold path_compare in Hlt |- *. cbn in Hlt |- *.
  destruct (component_compare c d) eqn:Hc; [|done|done]. apply component_compare_eq in Hc as ->.
  assert (Hp : path_lt (p ++ q) s = true).
  { apply IH; [by rewrite path_lt_true|]. apply not_true_iff_false. intros (r & ->)%path_starts_with_true.
    apply not_true_iff_false in Hs. apply Hs, path_starts_with_true. by exists r. }
  by apply path_lt_true in Hp.
Qed.
Lemma above_before p s : path_starts_with p s = true → p = s ∨ path_lt p s = true.
Proof. intros ([|c r] & ->)%path_starts_with_true; [left; by rewrite app_nil_r|right; by apply path_lt_below]. Qed.

(** ** Names in order *)

Definition name_lt (a b : list N) : Prop := name_compare a b = Lt.
#[export] Instance name_lt_trans : Transitive name_lt.
Proof. intros a b c. apply name_compare_trans. Qed.

Lemma insert_name_elem x name names : x ∈ insert_name name names ↔ x = name ∨ x ∈ names.
Proof.
  induction names as [|other names IH]; cbn; [set_solver|].
  destruct (name_compare name other) eqn:Hc; [apply name_compare_eq in Hc as ->; set_solver|set_solver|]. rewrite !elem_of_cons, IH. tauto.
Qed.
Lemma insert_name_sorted name names : StronglySorted name_lt names → StronglySorted name_lt (insert_name name names).
Proof.
  induction names as [|other names IH]; intros Hs; cbn; [by repeat constructor|]. inversion Hs as [|? ? Hs' Hall]; subst.
  destruct (name_compare name other) eqn:Hc.
  - apply name_compare_eq in Hc as ->. by constructor.
  - constructor; [done|]. constructor; [done|]. eapply Forall_impl; [exact Hall|]. intros x Hx. by etransitivity.
  - constructor; [by apply IH|]. apply Forall_forall. intros x [->|Hx]%insert_name_elem.
    + unfold name_lt. by rewrite (name_compare_flip name other), Hc.
    + rewrite Forall_forall in Hall. by apply Hall.
Qed.

Lemma names_nodup names : StronglySorted name_lt names → NoDup names.
Proof.
  induction 1 as [|name names _ IH Hall]; constructor; [|done]. intros Hin. rewrite Forall_forall in Hall. specialize (Hall _ Hin).
  unfold name_lt in Hall. by rewrite (proj2 (name_compare_eq name name)) in Hall.
Qed.

(** Keeping the first [capacity] of them all along is keeping them at the end. *)
Lemma take_insert_name n name names : take n (insert_name name (take n names)) = take n (insert_name name names).
Proof.
  revert n. induction names as [|other names IH]; intros [|n]; [done..|]. cbn [take insert_name].
  destruct (name_compare name other); cbn [take]; [by rewrite take_take, Nat.min_id| |by rewrite IH].
  f_equal. change (other :: take n names) with (take (S n) (other :: names)). rewrite take_take. f_equal. lia.
Qed.
Lemma insert_name_length name names : (length (insert_name name names) <= S (length names))%nat.
Proof. induction names as [|other names IH]; cbn; [lia|]. destruct (name_compare name other); cbn; lia. Qed.
Lemma insert_sorted_take capacity name names :
  (length names <= capacity)%nat → insert_sorted capacity name names = take capacity (insert_name name names).
Proof.
  intros Hlen. pose proof (insert_name_length name names) as Hi. unfold insert_sorted. cbv zeta. destruct (decide _) as [Hd|Hd].
  - rewrite <- (take_drop_middle (insert_name name names) capacity (default [] (insert_name name names !! capacity))) at 1.
    + rewrite (nil_length_inv (drop (S capacity) _)) by (rewrite length_drop; lia). apply removelast_last.
    + destruct (lookup_lt_is_Some_2 (insert_name name names) capacity) as [x ->]; [lia|done].
  - by rewrite take_ge by lia.
Qed.

(** ** Paths as texts *)

#[global] Arguments from_utf8 : simpl never.
#[global] Arguments as_bytes : simpl never.

(** A name the system gives. *)
Definition good_name (name : list N) : Prop := name ≠ [] ∧ SLASH ∉ name ∧ 0 ∉ name ∧ name ≠ lit "." ∧ name ≠ lit "..".
Definition good_part (c : Component) : Prop := ∃ name, c = Normal name ∧ good_name name.
Definition utf8_part (c : Component) : Prop := is_Some (from_utf8 (as_os_str c)).

Definition names_of (p : Path) : list (list N) := omap normal_name p.
Lemma good_names p : Forall good_part p → p = Normal <$> names_of p ∧ Forall good_name (names_of p).
Proof.
  induction p as [|c p IH]; intros Hp; [done|]. apply Forall_cons in Hp as [(name & -> & Hname) Hp]. destruct (IH Hp) as [Heq Hnames].
  split; [|by constructor]. cbn. by rewrite Heq at 1.
Qed.

Lemma display_bytes p : Forall utf8_part p → Forall good_part p → as_bytes (display_path p) = join [SLASH] (names_of p).
Proof.
  intros Hutf Hgood. unfold display_path, display_names. change (lit "/") with [SLASH]. rewrite as_bytes_join.
  change (encode_char SLASH) with [SLASH]. f_equal. induction p as [|c p IH]; [done|].
  apply Forall_cons in Hutf as [[part Hpart] Hutf]. apply Forall_cons in Hgood as [(name & -> & _) Hgood].
  cbn in Hpart |- *. rewrite Hpart. cbn. by rewrite (from_utf8_sound _ _ Hpart), (IH Hutf Hgood).
Qed.

Lemma component_good name : good_name name → component name = Some (Normal name).
Proof. intros (? & ? & ? & ? & ?). unfold component. rewrite decide_False by tauto. by rewrite decide_False. Qed.

Lemma components_join names : Forall good_name names → components (join [SLASH] names) = Normal <$> names.
Proof.
  intros Hnames. destruct names as [|name names]; [done|]. unfold components. cbv zeta. rewrite split_join; [|done|].
  2: { eapply Forall_impl; [exact Hnames|]. intros n (? & ? & _). done. }
  apply Forall_cons in Hnames as Hn. destruct Hn as [(Hne & Hsl & _ & Hdot & _) _].
  assert (is_absolute (join [SLASH] (name :: names)) = false) as ->.
  { apply bool_decide_eq_false. destruct name as [|c name]; [done|]. destruct names; cbn; intros [= ->]; set_solver. }
  rewrite (decide_False (P := head (name :: names) = _)) by (cbn [head]; intros Hd; injection Hd as Hd; done). cbn [app]. clear -Hnames. induction Hnames as [|n ns Hn _ IH]; [done|].
  cbn. by rewrite (component_good _ Hn), IH.
Qed.

(** The text of a path names the path. *)
Lemma display_path_parse p : Forall utf8_part p → Forall good_part p → components (as_bytes (display_path p)) = p.
Proof.
  intros Hutf Hgood. rewrite (display_bytes p Hutf Hgood). destruct (good_names p Hgood) as [Hp Hnames].
  by rewrite (components_join _ Hnames), <- Hp.
Qed.

Lemma join_parts_snoc sep ps p :
  Forall (λ q, q ≠ []) ps → match join sep ps with [] => p | _ => join sep ps ++ sep ++ p end = join sep (ps ++ [p]).
Proof.
  induction ps as [|q [|r ps] IH]; intros Hps; [done| |].
  - apply Forall_inv in Hps. cbn. by destruct q.
  - apply Forall_cons in Hps as [Hq Hps]. specialize (IH Hps).
    change (join sep ((q :: r :: ps) ++ [p])) with (q ++ sep ++ join sep ((r :: ps) ++ [p])). rewrite <- IH.
    change (join sep (q :: r :: ps)) with (q ++ sep ++ join sep (r :: ps)).
    assert (Hne : join sep (r :: ps) ≠ []).
    { apply Forall_inv in Hps. destruct r; [done|]. by destruct ps. }
    destruct q as [|c q]; [done|]. destruct (join sep (r :: ps)) as [|d j]; [done|]. cbn. by rewrite <- !app_assoc.
Qed.

Lemma child_display_path p name part :
  Forall utf8_part p → Forall good_part p → from_utf8 name = Some part →
  child_display (display_path p) part = display_path (p ++ [Normal name]).
Proof.
  intros Hutf Hgood Hpart. unfold display_path, display_names, child_display. rewrite (omap_app normal_name), (omap_app from_utf8).
  assert (omap from_utf8 (omap normal_name [Normal name]) = [part]) as -> by (cbn; by rewrite Hpart). apply join_parts_snoc.
  induction p as [|c p IH]; [constructor|]. apply Forall_cons in Hutf as [[q Hq] Hutf]. apply Forall_cons in Hgood as [(n & -> & Hn) Hgood].
  cbn in Hq |- *. rewrite Hq. constructor; [|by apply IH]. intros ->. apply from_utf8_sound in Hq. by destruct Hn as [[] _].
Qed.

(** *** Normal paths *)

Lemma good_utf8_zero p : Forall utf8_part p → Forall good_part p → 0 ∉ display_path p.
Proof.
  intros Hutf Hgood Hin. unfold display_path, display_names in Hin. fold (names_of p) in Hin. destruct (good_names p Hgood) as [_ Hnames].
  assert (Hparts : Forall (λ part, 0 ∉ part) (omap from_utf8 (names_of p))).
  { clear Hin. induction Hnames as [|name names (_ & _ & Hz & _) _ IH]; [constructor|]. cbn.
    destruct (from_utf8 name) as [part|] eqn:Hp; [|done]. constructor; [|done]. intros H0. apply Hz.
    rewrite <- (from_utf8_sound _ _ Hp). apply list_elem_of_bind. exists 0. split; [by left|done]. }
  revert Hin. induction Hparts as [|part [|other parts] Hpart Hparts IH]; [intros []%elem_of_nil|done|].
  change (0 ∈ part ++ lit "/" ++ join (lit "/") (other :: parts) → False). rewrite !elem_of_app.
  intros [Hin|[Hin|Hin]]; [done| |by apply IH]. by apply list_elem_of_singleton in Hin.
Qed.
Lemma good_not_absolute p : Forall utf8_part p → Forall good_part p → is_absolute (as_bytes (display_path p)) = false.
Proof.
  intros Hutf Hgood. rewrite (display_bytes p Hutf Hgood). destruct (good_names p Hgood) as [_ Hnames]. clear -Hnames.
  destruct Hnames as [|name names (Hne & Hs & _) _]; [done|]. destruct name as [|c name]; [done|].
  unfold is_absolute. destruct names; cbn [join app]; apply bool_decide_eq_false; cbn; intros [= ->]; set_solver.
Qed.
(** The text of a normal path is normalised to the path. *)
Lemma normalize_display p : Forall utf8_part p → Forall good_part p → normalize_relative (display_path p) true = Some p.
Proof.
  intros Hutf Hgood. unfold normalize_relative. rewrite decide_False by by apply good_utf8_zero.
  rewrite good_not_absolute, display_path_parse by done. cbv zeta.
  assert (filter (λ c, is_Some (normal_name c)) p = p) as ->.
  { apply filter_every. eapply Forall_impl; [exact Hgood|]. intros c (name & -> & _). by eexists. }
  assert (forallb (λ c, match c with Normal _ | CurDir => true | _ => false end) p = true) as ->.
  { apply forallb_forall. intros c Hc%list_elem_of_In. rewrite Forall_forall in Hgood. by destruct (Hgood c Hc) as (name & -> & _). }
  rewrite decide_False; [done|]. by intros [_ ?].
Qed.

(** What a text is normalised to is a path of good names, and they are UTF-8. *)
Lemma normalize_good t allow p :
  forallb is_scalar t = true → normalize_relative t allow = Some p → Forall utf8_part p ∧ Forall good_part p.
Proof.
  intros Hscalar. unfold normalize_relative. destruct (decide (0 ∈ t)) as [|Hzero]; [done|]. destruct (is_absolute (as_bytes t)) eqn:Habs; [done|].
  cbv zeta. destruct (forallb _ (components _)); [|done]. destruct (decide _) as [|_]; [done|]. intros [= <-].
  enough (Hall : Forall (λ c, is_Some (normal_name c) → utf8_part c ∧ good_part c) (components (as_bytes t))).
  { split; apply Forall_forall; intros c [Hn Hc]%list_elem_of_filter; rewrite Forall_forall in Hall; by apply (Hall c). }
  unfold components. cbv zeta. rewrite Habs, split_char_bytes by done. apply Forall_app. split.
  { destruct (decide _); [|constructor]. constructor; [|constructor]. by intros [? ?]. }
  apply Forall_forall. intros c (name & Hname & Hc)%list_elem_of_omap [n Hn].
  apply list_elem_of_fmap in Hname as (piece & -> & Hpiece). unfold component in Hc. destruct (decide _) as [|Hne]; [done|].
  injection Hc as <-. destruct (decide _) as [|Hdots]; [done|]. 
  assert (Hsub : ∀ x, x ∈ piece → x ∈ t).
  { intros x Hx. rewrite <- (split_char_join SLASH t). clear -Hpiece Hx. induction (split_char SLASH t) as [|q qs IH]; [by apply elem_of_nil in Hpiece|].
    apply elem_of_cons in Hpiece as [<-|Hpiece]; destruct qs as [|r qs]; [done|cbn; set_solver|by apply elem_of_nil in Hpiece|].
    change (x ∈ q ++ [SLASH] ++ join [SLASH] (r :: qs)). rewrite !elem_of_app. right. right. by apply IH. }
  split.
  - exists piece. cbn [as_os_str]. apply from_utf8_as_bytes. apply forallb_forall. intros x Hx%list_elem_of_In.
    rewrite forallb_forall in Hscalar. by apply Hscalar, list_elem_of_In, Hsub.
  - exists (as_bytes piece). split; [done|]. split; [tauto|]. split; [|split; [|tauto]].
    + intros Hs%as_bytes_ascii; [|done]. by eapply split_char_no_sep.
    + intros Hs%as_bytes_ascii; [|done]. by apply Hzero, Hsub.
Qed.
