(* ===== verification/ScanWalk.v ===== *)
(** A walk over files that do not change, as a list of items.

    When nothing is cancelled, no deadline passes and the rule budget holds, the walker
    of [Scan] handles one after the other the items of a list that depends on the files
    alone: what the recursion, the rule stack, the bounded lists of names and the clock
    do is in the list or leaves no trace. *)

From stdpp Require Import sorting.
From S2P Require Import Prelude RustStr Errors Status Scan ScanOrder.
Open Scope N_scope.

(** ** Pure reading of rules *)

Section rules.
Context `{IgnoreRules} (F : FileSystem).

Fixpoint text_of (reads : list (option (list N))) (bytes : list N) : option (list N) * N :=
  match reads with
  | None :: _ => (None, 1)
  | [] | Some [] :: _ => (Some bytes, 0)
  | Some chunk :: reads => text_of reads (bytes ++ chunk)
  end.
Definition read_text (path : Path) : option str * N :=
  match fs_open F path with
  | None => (None, 1)
  | Some reads =>
      match text_of reads [] with
      | (None, n) => (None, n)
      | (Some bytes, n) => match from_utf8 bytes with Some text => (Some text, n) | None => (None, n + 1) end
      end
  end.
Definition target_of (path : Path) (kind : WorkspaceFileKind) : option Path * N :=
  match kind with
  | FSymlink =>
      match fs_canonical F path with
      | Ok (Some canonical) => (Some canonical, 0)
      | Err IoNotFound => (None, 0)
      | Ok None | Err _ => (None, 1)
      end
  | _ => (Some path, 0)
  end.
(** The rules of one file, and how much of it could not be read. *)
Definition rules_at (path base : Path) : option Gitignore * N :=
  match fs_stat F path with
  | Err IoOther => (None, 1)
  | Err _ => (None, 0)
  | Ok meta =>
      match target_of path (st_kind meta) with
      | (None, n) => (None, n)
      | (Some path, n) =>
          if is_file (fs_stat F path) then
            match read_text path with
            | (None, k) => (None, n + k)
            | (Some text, k) =>
                match build_rules base path (lines text) with Some g => (Some g, n + k) | None => (None, n + k + 1) end
            end
          else (None, n)
      end
  end.
Definition dir_rules (dir : Path) : option DirRules * N :=
  let (a, n) := rules_at (under dir (lit ".ignore")) dir in
  let (b, k) := rules_at (under dir (lit ".gitignore")) dir in
  (match a, b with None, None => None | _, _ => Some (mkDirRules dir a b) end, n + k).
End rules.

(** ** Items *)

(** What there is to say of an entry. *)
Inductive Raw := RawUnknown | RawHidden | RawUnnamed | RawSeen (e : WalkEntry).
(** Something lost, a directory that cannot be listed, an entry, on the way to the cursor or
    after it, and a directory that is too deep. *)
Inductive Item :=
  | Lose (n : N)
  | Unlisted
  | Entry (before : bool) (child : Path) (utf8 : bool) (raw : Raw)
  | TooDeep.

Record Core (V : Type) := mkCore {
  k_visitor : V;
  k_entries : N;
  k_bytes : N;
  k_last : str;
  k_reason : WorkspaceScanStop;
  k_next : option str;
  k_resume : option (N * N);
  k_unrepresentable : N;
  k_unreadable : N;
  k_excluded : N;
  k_capped : bool
}.
Arguments mkCore {V}.
Arguments k_visitor {V} _.
Arguments k_entries {V} _.
Arguments k_bytes {V} _.
Arguments k_last {V} _.
Arguments k_reason {V} _.
Arguments k_next {V} _.
Arguments k_resume {V} _.
Arguments k_unrepresentable {V} _.
Arguments k_unreadable {V} _.
Arguments k_excluded {V} _.
Arguments k_capped {V} _.

Section items.
Context `{IgnoreRules} {V : Type}.
Context (F : FileSystem) (limits : ScanLimits) (options : WalkOptions) (is_repo : bool) (start : option Path).
(** What the visitor does with an entry: its state and the bytes examined change. *)
Context (react : WalkEntry → V → N → V * N * Visit).
Abbreviation K := (Core V).

Definition core_lose (n : N) (k : K) : K :=
  mkCore (k_visitor k) (k_entries k) (k_bytes k) (k_last k) (k_reason k) (k_next k) (k_resume k) (k_unrepresentable k + 0)
    (k_unreadable k + n) (k_excluded k + 0) (k_capped k).
Definition core_count (n : N) (k : K) : K :=
  mkCore (k_visitor k) (k_entries k) (k_bytes k) (k_last k) (k_reason k) (k_next k) (k_resume k) (k_unrepresentable k + n)
    (k_unreadable k + 0) (k_excluded k + 0) (k_capped k).
Definition core_last (last : str) (k : K) : K :=
  mkCore (k_visitor k) (k_entries k) (k_bytes k) last (k_reason k) (k_next k) (k_resume k) (k_unrepresentable k)
    (k_unreadable k) (k_excluded k) (k_capped k).
Definition core_claim (k : K) : K :=
  mkCore (k_visitor k) (k_entries k + 1) (k_bytes k) (k_last k) (k_reason k) (k_next k) (k_resume k) (k_unrepresentable k)
    (k_unreadable k) (k_excluded k) (k_capped k).
Definition core_visit (v : V) (bytes : N) (k : K) : K :=
  mkCore v (k_entries k) bytes (k_last k) (k_reason k) (k_next k) (k_resume k) (k_unrepresentable k)
    (k_unreadable k) (k_excluded k) (k_capped k).
Definition core_set_stop (reason : WorkspaceScanStop) (next : option str) (resume : option (N * N)) (k : K) : K :=
  mkCore (k_visitor k) (k_entries k) (k_bytes k) (k_last k) reason next resume (k_unrepresentable k)
    (k_unreadable k) (k_excluded k) (k_capped k).
Definition core_cap (k : K) : K :=
  mkCore (k_visitor k) (k_entries k) (k_bytes k) (k_last k) (k_reason k) (k_next k) (k_resume k) (k_unrepresentable k)
    (k_unreadable k) (k_excluded k) true.

Definition core_stopped (k : K) : bool := bool_decide (k_reason k ≠ StopEnd).
Definition core_usable (k : K) (path : str) : bool :=
  bool_decide (is_Some (k_resume k)) || (bool_decide (path ≠ []) && bool_decide (start ≠ Some (components (as_bytes path)))).
Definition core_stop (reason : WorkspaceScanStop) (next : option str) (k : K) : K :=
  if decide (k_reason k = StopEnd)
  then core_set_stop reason (path ← next; if core_usable k path then Some path else None) (k_resume k) k else k.

Definition core_apply (x : Visit) (path : str) (k : K) : K :=
  match x with
  | Next => core_last path k
  | Stop reason => core_stop reason (Some path) k
  | StopBefore reason => core_stop reason (Some (k_last k)) k
  | StopInside reason line offset => core_stop reason (Some path) (core_set_stop (k_reason k) (k_next k) (Some (line, offset)) k)
  end.
Definition core_note (before : bool) (utf8 : bool) (child : Path) (k : K) : K :=
  if negb before && utf8 then core_last (display_path child) k else k.

(** What the walk does for an entry it has a claim to. *)
Definition core_examine (before : bool) (child : Path) (utf8 : bool) (raw : Raw) (k : K) : K :=
  match raw with
  | RawUnknown => core_note before utf8 child (core_lose 1 k)
  | RawHidden => core_note before utf8 child k
  | RawUnnamed => core_count 1 k
  | RawSeen e =>
      if before then k else
      let '(v, bytes, x) := react e (k_visitor k) (k_bytes k) in
      core_apply x (e_relative e) (core_visit v bytes k)
  end.
Definition step (k : K) (i : Item) : K :=
  if core_stopped k then k else
  match i with
  | Lose n => core_lose n k
  | Unlisted =>
      let k := core_lose 1 k in
      if decide (l_entries limits <= k_entries k) then core_stop StopEntries None k else core_claim k
  | Entry before child utf8 raw =>
      if before then core_examine before child utf8 raw k
      else if decide (l_entries limits <= k_entries k) then core_stop StopEntries (Some (k_last k)) k
      else core_examine before child utf8 raw (core_claim k)
  | TooDeep => core_cap k
  end.
Definition steps (items : list Item) (k : K) : K := foldl step k items.

(** *** The items of a directory *)

Definition kind_at (path : Path) : option WorkspaceFileKind :=
  match fs_stat F path with Ok meta => Some (st_kind meta) | Err _ => None end.
Definition size_at (path : Path) : option N := match fs_stat F path with Ok (mkMeta FFile len) => Some len | _ => None end.

Definition dir_names (dir : Path) (entries : list (option (list N))) : list (list N) :=
  foldl (λ names name, if passed start (dir ++ [Normal name]) then names else insert_name name names) [] (omap id entries).

Context (exclude : option Gitignore).

Definition raw_at (rules : list DirRules) (dir : Path) (name : list N) : Raw :=
  let child := dir ++ [Normal name] in
  match kind_at child with
  | None => RawUnknown
  | Some kind =>
      if excluded_by is_repo rules exclude child name (bool_decide (kind = FDirectory)) then RawHidden else
      match from_utf8 name with
      | None => RawUnnamed
      | Some _ => RawSeen (mkWalkEntry (display_path child) kind
                    (if negb (positioning options start child) && o_want_size options && bool_decide (kind = FFile)
                     then size_at child else None))
      end
  end.
Definition is_dir_item (r : Raw) : bool := match r with RawSeen e => bool_decide (e_kind e = FDirectory) | _ => false end.

Definition name_items (below : Path → N → list Item) (rules : list DirRules) (dir : Path) (depth : N) (name : list N) : list Item :=
  let child := dir ++ [Normal name] in
  let raw := raw_at rules dir name in
  Entry (positioning options start child) child (bool_decide (is_Some (from_utf8 name))) raw ::
  (if is_dir_item raw && o_recursive options then
     if decide (l_depth limits <= depth + 1) then [TooDeep] else below child (depth + 1)
   else []).

Definition entry_items (below : list DirRules → Path → N → list Item) (rules : list DirRules) (dir : Path) (depth : N) : list Item :=
  match fs_dir F dir with
  | None => [Unlisted]
  | Some entries =>
      Lose (lenN (filter (λ e, e = None) entries)) :: (dir_names dir entries ≫= name_items (below rules) rules dir depth)
  end.
Fixpoint dir_items (fuel : nat) (load : bool) (rules : list DirRules) (dir : Path) (depth : N) : list Item :=
  let '(own, lost) := if load then dir_rules F dir else (None, 0) in
  Lose lost :: entry_items
    (match fuel with O => λ _ _ _, [] | S fuel => dir_items fuel true end)
    (rules ++ option_list own) dir depth.
End items.

(** ** The walker handles the items *)

(** A world where nothing changes and nobody waits. *)
Definition still (F : FileSystem) (n : N) : Moment := mkMoment F false false.

Section calm.
Context `{IgnoreRules} {V : Type}.
Context (F : FileSystem) (limits : ScanLimits) (options : WalkOptions) (is_repo : bool) (start : option Path).
Context (react : WalkEntry → V → N → V * N * Visit).
Context (visit : WalkEntry → stm (Scan V) AgentError Visit).
Abbreviation env := (still F).
Abbreviation M := (stm (Walker V) AgentError).

Definition budget_of (w : Walker V) : ScanBudget := sc_budget (w_scan w).
Definition exhausted (w : Walker V) : bool := b_rules_exhausted (budget_of w).
Definition quiet (w : Walker V) : Prop := b_expired (budget_of w) = false.
(** On time, the visitor changes its state and the bytes examined as [react] says. *)
Definition reacts : Prop :=
  (∀ e s, b_rules_exhausted (sc_budget s) = true → b_rules_exhausted (sc_budget (visit e s).1) = true) ∧
  ∀ e s, b_expired (sc_budget s) = false →
    let b := sc_budget s in
    let '(v, bytes, x) := react e (sc_visitor s) (b_bytes b) in
    ∃ ticks, visit e s = (mkScan (mkBudget (b_entries b) bytes (b_rule_files b) (b_rule_bytes b) (b_rules_exhausted b) (b_expired b)) ticks v, Ok x).

Definition core_of (w : Walker V) : Core V :=
  mkCore (sc_visitor (w_scan w)) (b_entries (budget_of w)) (b_bytes (budget_of w)) (w_last w) (w_reason w) (w_next w) (w_resume w)
    (w_unrepresentable w) (w_unreadable w) (w_excluded w) (w_depth_capped w).
(** What the walk depends on, besides the budget of rules. *)
Definition View : Type := Core V * list DirRules * option Gitignore.
Definition view (w : Walker V) : View := (core_of w, w_rules w, w_exclude w).

(** Run on [x], [m] returns and [Q] holds of what it returns, unless the rule budget is
    exhausted in the end. *)
Definition calm {A} (m : M A) (x : View) (Q : A → View → Prop) : Prop :=
  ∀ w, view w = x → quiet w → let (w', r) := m w in
  exhausted w' = false → quiet w' ∧ ∃ a, r = Ok a ∧ Q a (view w').
(** The rule budget stays exhausted. *)
Definition lasting {A} (m : M A) : Prop := ∀ w, exhausted w = true → exhausted (m w).1 = true.

Lemma lasting_ret {A} (a : A) : lasting (mret a).
Proof using Type. by intros w. Qed.
Lemma lasting_throw {A} e : lasting (throw e : M A).
Proof using Type. by intros w. Qed.
Lemma lasting_bind {A B} (m : M A) (f : A → M B) : lasting m → (∀ a, lasting (f a)) → lasting (m ≫= f).
Proof using Type.
  intros Hm Hf w Hw. specialize (Hm w Hw). unfold mbind, stm_bind. destruct (m w) as [w' [a|e]]; [by apply Hf|done].
Qed.
Lemma lasting_get {B} (f : Walker V → M B) : (∀ w, lasting (f w)) → lasting (get ≫= f).
Proof using Type. intros Hf w Hw. by apply Hf. Qed.
Lemma lasting_modify f : (∀ w, exhausted (f w) = exhausted w) → lasting (modify f).
Proof using Type. intros Hf w Hw. cbn. by rewrite Hf. Qed.
Lemma lasting_on_scan {A} (m : stm (Scan V) AgentError A) :
  (∀ s, b_rules_exhausted (sc_budget s) = true → b_rules_exhausted (sc_budget (m s).1) = true) → lasting (on_scan m).
Proof using Type. intros Hm w Hw. specialize (Hm _ Hw). unfold on_scan. by destruct (m (w_scan w)). Qed.

Lemma calm_ret {A} (a : A) x (Q : A → View → Prop) : Q a x → calm (mret a) x Q.
Proof using Type. intros HQ w <- Hw. cbn. eauto. Qed.
Lemma calm_bind {A B} (m : M A) (f : A → M B) x Q R :
  calm m x Q → (∀ a, lasting (f a)) → (∀ a y, Q a y → calm (f a) y R) → calm (m ≫= f) x R.
Proof using Type.
  intros Hm Hl Hf w Hx Hw. specialize (Hm w Hx Hw). unfold mbind, stm_bind. destruct (m w) as [w1 [a|e]].
  - specialize (Hl a w1). destruct (f a w1) as [w2 r] eqn:Hfa. intros Hex. cbn in Hl.
    destruct (exhausted w1) eqn:H1; [by rewrite Hl in Hex|]. destruct (Hm eq_refl) as (Hq & ? & [= <-] & HQ).
    specialize (Hf a _ HQ w1 eq_refl Hq). rewrite Hfa in Hf. by apply Hf.
  - intros Hex. destruct (Hm Hex) as (_ & ? & ? & _). done.
Qed.
Lemma calm_get {B} (f : Walker V → M B) x R : (∀ w, view w = x → calm (f w) x R) → calm (get ≫= f) x R.
Proof using Type. intros Hf w Hx Hw. exact (Hf w Hx w Hx Hw). Qed.
Lemma calm_get_live {B} (f : Walker V → M B) x R :
  (∀ w, lasting (f w)) → (∀ w, view w = x → exhausted w = false → calm (f w) x R) → calm (get ≫= f) x R.
Proof using Type.
  intros Hl Hf w Hx Hw. destruct (exhausted w) eqn:Hex; [|exact (Hf w Hx Hex w Hx Hw)].
  pose proof (Hl w w Hex) as Hlast. change ((get ≫= f) w) with (f w w). destruct (f w w) as [w' r]. cbn in Hlast. by rewrite Hlast.
Qed.
Lemma calm_weaken {A} (m : M A) x (Q R : A → View → Prop) : calm m x Q → (∀ a y, Q a y → R a y) → calm m x R.
Proof using Type.
  intros Hm HQ w Hx Hw. specialize (Hm w Hx Hw). destruct (m w) as [w' r]. intros Hex.
  destruct (Hm Hex) as (? & a & ? & ?). eauto.
Qed.
Lemma calm_modify f x (Q : unit → View → Prop) :
  (∀ w, view w = x → budget_of (f w) = budget_of w ∧ Q tt (view (f w))) → calm (modify f) x Q.
Proof using Type. intros Hf w Hx Hw Hex. cbn in *. destruct (Hf w Hx) as [Hb HQ]. split; [|eauto]. unfold quiet. by rewrite Hb. Qed.

(** *** The clock and the budgets *)

Lemma budget_check_still (s : Scan V) :
  budget_check env s =
  (mkScan (let b := sc_budget s in
           if b_expired b then mkBudget (b_entries b) (b_bytes b) (b_rule_files b) (b_rule_bytes b) (b_rules_exhausted b) true else b)
     (sc_ticks s + 1 + 1) (sc_visitor s), Ok tt).
Proof using Type.
  unfold budget_check, time_expired. unfold mbind, stm_bind, get, next_moment. cbn. rewrite throw_if_run. cbn.
  rewrite orb_false_r. by destruct (b_expired (sc_budget s)).
Qed.

Definition same (x : View) {A} (P : A → Prop) (a : A) (y : View) : Prop := y = x ∧ P a.

Lemma calm_moment x : calm (moment env) x (same x (λ m, m = mkMoment F false false)).
Proof using Type. intros w <- Hw _. split; [done|]. eexists. done. Qed.
Lemma lasting_moment : lasting (moment env).
Proof using Type. by apply lasting_on_scan. Qed.
Lemma calm_time x : calm (on_scan (time_expired env)) x (same x (λ late, late = false)).
Proof using Type.
  intros w <- Hw _. split; [done|]. eexists. split; [reflexivity|]. split; [done|]. cbn. unfold quiet, budget_of in Hw. by rewrite Hw.
Qed.
Lemma lasting_time : lasting (on_scan (time_expired env)).
Proof using Type. by apply lasting_on_scan. Qed.
Lemma lasting_unreadable : lasting unreadable_one.
Proof using Type. by apply lasting_modify. Qed.
Lemma lasting_stop reason next : lasting (stop env start reason next).
Proof using Type.
  apply lasting_bind; [apply lasting_time|]. intros late. apply lasting_get. intros w.
  destruct late; [by apply lasting_modify|]. destruct (decide _); [by apply lasting_modify|apply lasting_ret].
Qed.
Lemma lasting_budget_check : lasting (on_scan (budget_check env)).
Proof using Type.
  apply lasting_on_scan. intros s Hs. rewrite budget_check_still. cbn. by destruct (b_expired (sc_budget s)).
Qed.
Lemma lasting_check : lasting (check env start).
Proof using Type.
  apply lasting_bind; [apply lasting_budget_check|]. intros ?. apply lasting_bind; [apply lasting_time|].
  intros []; [apply lasting_stop|apply lasting_ret].
Qed.
Lemma calm_check x : calm (check env start) x (same x (λ _, True)).
Proof using Type.
  unfold check. eapply calm_bind.
  - instantiate (1 := same x (λ _, True)). intros w <- Hw. unfold quiet, budget_of in Hw.
    unfold on_scan. rewrite budget_check_still. cbv zeta. rewrite Hw. intros _. split; [done|]. by exists tt.
  - intros ?. apply lasting_bind; [apply lasting_time|]. intros []; [apply lasting_stop|apply lasting_ret].
  - intros ? y [-> _]. eapply calm_bind; [apply calm_time|intros []; [apply lasting_stop|apply lasting_ret]|].
    intros late y' [-> ->]. by apply calm_ret.
Qed.
Lemma lasting_claim : lasting (on_scan (claim_entry limits)).
Proof using Type.
  apply lasting_on_scan. intros s Hs. unfold claim_entry, mbind, stm_bind, get. by destruct (decide _).
Qed.
Lemma calm_claim k rules exclude :
  calm (on_scan (claim_entry limits)) (k, rules, exclude) (λ claimed y,
    if decide (l_entries limits <= k_entries k) then claimed = false ∧ y = (k, rules, exclude)
    else claimed = true ∧ y = (core_claim k, rules, exclude)).
Proof using Type.
  intros w [= <- <- <-] Hw. unfold on_scan, claim_entry, mbind, stm_bind, get. cbn. unfold budget_of.
  destruct (decide _); intros _; (split; [done|]); by eexists.
Qed.
Lemma calm_stop reason next k rules exclude :
  calm (stop env start reason next) (k, rules, exclude) (λ _ y, y = (core_stop start reason next k, rules, exclude)).
Proof using Type.
  unfold stop. eapply calm_bind; [apply calm_time| |].
  { intros late. apply lasting_get. intros w. destruct late; [by apply lasting_modify|].
    destruct (decide _); [by apply lasting_modify|apply lasting_ret]. }
  intros late y [-> ->]. apply calm_get. intros w [= <- <- <-]. unfold core_stop. cbn [k_reason core_of].
  destruct (decide (w_reason w = StopEnd)) as [Hr|]; [|by apply calm_ret]. apply calm_modify. intros w' [= H1 H2 H3 H4 H5 H6 H7 H8 H9 H10 H11 H12 H13].
  split; [done|]. unfold view, set_stop, core_of, core_set_stop. cbn. f_equal; [f_equal|done]; [|done].
  unfold budget_of in *. f_equal; try done.
Qed.
Lemma calm_unreadable k rules exclude :
  calm unreadable_one (k, rules, exclude) (λ _ y, y = (core_lose 1 k, rules, exclude)).
Proof using Type. apply calm_modify. by intros w [= <- <- <-]. Qed.

Hint Resolve lasting_ret lasting_throw lasting_moment lasting_time lasting_unreadable lasting_stop lasting_check lasting_claim : lasting.
Ltac lasting_steps :=
  repeat first
    [ progress intros
    | solve [auto with lasting]
    | match goal with
      | |- lasting (get ≫= _) => apply lasting_get
      | |- lasting (_ ≫= _) => apply lasting_bind
      | |- lasting (modify _) => by apply lasting_modify
      | |- lasting (if ?b then _ else _) => destruct b
      | |- lasting (match ?x with _ => _ end) => destruct x
      end ].
Ltac calm_step lem := eapply calm_bind; [apply lem|lasting_steps|].

(** *** Rules *)

Lemma core_lose_lose a b (k : Core V) : core_lose b (core_lose a k) = core_lose (a + b) k.
Proof using Type. unfold core_lose. cbn. by rewrite !N.add_0_r, N.add_assoc. Qed.
Lemma core_lose_0 (k : Core V) : core_lose 0 k = k.
Proof using Type. destruct k. unfold core_lose. cbn. by rewrite !N.add_0_r. Qed.

Lemma lasting_exhaust : lasting (on_scan exhaust_rules).
Proof using Type. by apply lasting_on_scan. Qed.
Lemma lasting_claim_file : lasting (on_scan (claim_rule_file limits)).
Proof using Type. apply lasting_on_scan. intros s Hs. unfold claim_rule_file, mbind, stm_bind, get. by destruct (decide _). Qed.
Lemma lasting_charge n : lasting (on_scan (charge_rule_bytes limits n)).
Proof using Type.
  apply lasting_on_scan. intros s Hs. unfold charge_rule_bytes, mbind, stm_bind, get.
  destruct (checked_add _ _); [|done]. by destruct (decide _).
Qed.
Hint Resolve lasting_exhaust lasting_claim_file lasting_charge : lasting.
Lemma lasting_read reads bytes : lasting (read_loop env limits start reads bytes).
Proof using Type. revert bytes. induction reads as [|[[|c chunk]|] reads IH]; intros bytes; cbn [read_loop]; lasting_steps. Qed.
Hint Resolve lasting_read : lasting.
Lemma lasting_bounded path : lasting (read_bounded env limits start path).
Proof using Type. unfold read_bounded. lasting_steps. Qed.
Lemma lasting_target path kind : lasting (rule_target env path kind).
Proof using Type. unfold rule_target. lasting_steps. Qed.
Hint Resolve lasting_bounded lasting_target : lasting.
Lemma lasting_load_file path base : lasting (load_rules_file env limits start path base).
Proof using Type. unfold load_rules_file. lasting_steps. Qed.
Hint Resolve lasting_load_file : lasting.
Lemma lasting_load_dir relative : lasting (load_directory_rules env limits is_repo start relative).
Proof using Type. unfold load_directory_rules. lasting_steps. Qed.
Hint Resolve lasting_load_dir : lasting.

Lemma calm_exhaust {A} (m : M A) x Q : lasting m → calm (_ ← on_scan exhaust_rules; m) x Q.
Proof using Type.
  intros Hm w _ _. destruct ((_ ← on_scan exhaust_rules; m) w) as [w' r] eqn:Hr. intros Hex.
  assert (Hlast : exhausted (m (on_scan exhaust_rules w).1).1 = true) by (apply Hm; reflexivity).
  change (m (on_scan exhaust_rules w).1 = (w', r)) in Hr. rewrite Hr in Hlast. cbn in Hlast. by rewrite Hex in Hlast.
Qed.
Lemma calm_claim_file x : calm (on_scan (claim_rule_file limits)) x (same x (λ _, True)).
Proof using Type. intros w <- Hw. unfold on_scan, claim_rule_file, mbind, stm_bind, get. cbn. destruct (decide _); intros _; (split; [done|]); by eexists. Qed.
Lemma calm_charge n x : calm (on_scan (charge_rule_bytes limits n)) x (same x (λ _, True)).
Proof using Type.
  intros w <- Hw. unfold on_scan, charge_rule_bytes, mbind, stm_bind, get. cbn.
  destruct (checked_add _ _); [destruct (decide _)|]; intros _; (split; [done|]); by eexists.
Qed.

Section files.
Context (k : Core V) (rules : list DirRules) (exclude : option Gitignore).
Abbreviation at_ k := ((k, rules, exclude) : View).
(** Returns what is found and loses what could not be read. *)
Definition finds {A} (found : option A * N) (a : option A) (y : View) : Prop := a = found.1 ∧ y = at_ (core_lose found.2 k).

Lemma view_stopped w k' : view w = at_ k' → stopped w = core_stopped k'.
Proof using Type. intros [= <-]. done. Qed.

Lemma calm_read reads bytes :
  core_stopped k = false → calm (read_loop env limits start reads bytes) (at_ k) (finds (text_of reads bytes)).
Proof using Type.
  intros Hk. revert bytes. induction reads as [|read reads IH]; intros bytes; cbn [read_loop].
  all: calm_step calm_check; intros ? y [-> _]; apply calm_get; intros w Hw; rewrite (view_stopped _ _ Hw), Hk.
  - apply calm_ret. cbn. split; [done|]. by rewrite core_lose_0.
  - destruct read as [[|c chunk]|].
    + apply calm_ret. cbn. split; [done|]. by rewrite core_lose_0.
    + calm_step calm_charge. intros charged y [-> _]. destruct (_ || _); [apply calm_exhaust; lasting_steps|apply IH].
    + calm_step calm_unreadable. intros ? y ->. by apply calm_ret.
Qed.
Lemma calm_read_bounded path :
  core_stopped k = false → calm (read_bounded env limits start path) (at_ k) (finds (read_text F path)).
Proof using Type.
  intros Hk. unfold read_bounded, read_text. calm_step calm_moment. intros m y [-> ->]. cbn [m_fs].
  destruct (fs_open F path) as [reads|].
  - calm_step (calm_read reads [] Hk). intros read y [-> ->]. destruct (text_of reads []) as [[bytes|] n]; cbn [fst snd].
    + destruct (from_utf8 bytes); [by apply calm_ret|]. calm_step calm_unreadable. intros ? y ->. apply calm_ret.
      split; [done|]. by rewrite core_lose_lose.
    + by apply calm_ret.
  - calm_step calm_unreadable. intros ? y ->. by apply calm_ret.
Qed.
Lemma calm_target path kind : calm (rule_target env path kind) (at_ k) (finds (target_of F path kind)).
Proof using Type.
  assert (Hplain : ∀ p : Path, finds (Some p, 0) (Some p) (at_ k)) by (intros p; split; [done|]; by rewrite core_lose_0).
  destruct kind; cbn [rule_target target_of]; try (apply calm_ret, Hplain). calm_step calm_moment. intros m y [-> ->]. cbn [m_fs].
  destruct (fs_canonical F path) as [[canonical|]|[]].
  - apply calm_ret, Hplain.
  - calm_step calm_unreadable; intros ? y ->; by apply calm_ret.
  - apply calm_ret. split; [done|]. by rewrite core_lose_0.
  - calm_step calm_unreadable; intros ? y ->; by apply calm_ret.
  - calm_step calm_unreadable; intros ? y ->; by apply calm_ret.
Qed.
End files.

Lemma core_stopped_lose n (k : Core V) : core_stopped (core_lose n k) = core_stopped k.
Proof using Type. done. Qed.

Lemma calm_load_file path base k rules exclude :
  core_stopped k = false →
  calm (load_rules_file env limits start path base) (k, rules, exclude) (finds k rules exclude (rules_at F path base)).
Proof using Type.
  intros Hk. unfold load_rules_file, rules_at. calm_step calm_check. intros ? y [-> _].
  apply calm_get_live; [lasting_steps|]. intros w Hw Hex.
  rewrite (view_stopped _ _ _ _ Hw), Hk. unfold exhausted, budget_of in Hex. rewrite Hex. cbn [orb].
  eapply calm_bind; [apply calm_moment|lasting_steps|]. intros m y [-> ->]. cbn [m_fs].
  destruct (fs_stat F path) as [[kind len]|[]]; [| | |calm_step calm_unreadable; intros ? y ->; by apply calm_ret].
  2,3: apply calm_ret; split; [done|]; by rewrite core_lose_0.
  eapply calm_bind; [apply calm_target|lasting_steps|]. intros target y [-> ->]. cbn [st_kind].
  destruct (target_of F path kind) as [[p|] n]; cbn [fst snd]; [|by apply calm_ret].
  eapply calm_bind; [apply calm_moment|lasting_steps|]. intros m y [-> ->]. cbn [m_fs].
  destruct (is_file (fs_stat F p)); cbn [negb]; [|by apply calm_ret].
  eapply calm_bind; [apply calm_claim_file|lasting_steps|]. intros claimed y [-> _].
  destruct claimed; cbn [negb]; [|apply calm_exhaust; lasting_steps].
  eapply calm_bind; [by apply calm_read_bounded|lasting_steps|]. intros read y [-> ->].
  destruct (read_text F p) as [[text|] j]; cbn [fst snd]; rewrite core_lose_lose; [|by apply calm_ret].
  destruct (build_rules base p (lines text)); [by apply calm_ret|]. calm_step calm_unreadable. intros ? y ->. apply calm_ret.
  split; [done|]. by rewrite core_lose_lose.
Qed.

Lemma view_cap w : view (cap_depth w) = (core_cap (view w).1.1, (view w).1.2, (view w).2).
Proof using Type. done. Qed.
Lemma view_push r w : view (push_rules r w) = ((view w).1.1, (view w).1.2 ++ [r], (view w).2).
Proof using Type. done. Qed.

(** Stopped, nothing is loaded. *)
Lemma calm_load_file_stopped path base k rules exclude :
  core_stopped k = true →
  calm (load_rules_file env limits start path base) (k, rules, exclude) (λ a y, a = None ∧ y = (k, rules, exclude)).
Proof using Type.
  intros Hk. unfold load_rules_file. calm_step calm_check. intros ? y [-> _].
  apply calm_get. intros w Hw. rewrite (view_stopped _ _ _ _ Hw), Hk. by apply calm_ret.
Qed.
Lemma calm_load_dir_stopped dir k rules exclude :
  core_stopped k = true →
  calm (load_directory_rules env limits is_repo start dir) (k, rules, exclude) (λ a y, a = false ∧ y = (k, rules, exclude)).
Proof using Type.
  intros Hk. unfold load_directory_rules. eapply calm_bind; [by apply calm_load_file_stopped|lasting_steps|].
  intros a y [-> ->]. apply calm_get. intros w Hw. rewrite (view_stopped _ _ _ _ Hw), Hk. by apply calm_ret.
Qed.

(** The rules of a directory below the root are pushed. *)
Lemma calm_load_dir dir k rules exclude :
  core_stopped k = false → dir ≠ [] →
  calm (load_directory_rules env limits is_repo start dir) (k, rules, exclude) (λ pushed y,
    pushed = bool_decide (is_Some (dir_rules F dir).1) ∧
    y = (core_lose (dir_rules F dir).2 k, rules ++ option_list (dir_rules F dir).1, exclude)).
Proof using Type.
  intros Hk Hdir. unfold load_directory_rules, dir_rules.
  eapply calm_bind; [by apply calm_load_file|lasting_steps|]. intros a y [-> ->].
  apply calm_get. intros w Hw. rewrite (view_stopped _ _ _ _ Hw), core_stopped_lose, Hk.
  destruct (rules_at F _ dir) as [a n]. cbn [fst snd].
  eapply calm_bind; [by apply calm_load_file|lasting_steps|]. intros b y [-> ->].
  apply calm_get. intros w' Hw'. rewrite (view_stopped _ _ _ _ Hw'), !core_stopped_lose, Hk.
  destruct (rules_at F _ dir) as [b j]. cbn [fst snd]. rewrite (bool_decide_eq_false_2 _ Hdir). cbn [andb].
  eapply (calm_bind _ _ _ (λ _ y, y = (core_lose j (core_lose n k), rules, exclude))); [by apply calm_ret|lasting_steps|]. intros ? y ->.
  apply calm_get. intros w'' Hw''. rewrite (view_stopped _ _ _ _ Hw''), !core_stopped_lose, Hk. rewrite core_lose_lose.
  assert (Hpush : calm (_ ← modify (push_rules (mkDirRules dir a b)); mret true) (core_lose (n + j) k, rules, exclude)
    (λ pushed y, pushed = true ∧ y = (core_lose (n + j) k, rules ++ [mkDirRules dir a b], exclude))).
  { eapply (calm_bind _ _ _ (λ _ y, y = (core_lose (n + j) k, rules ++ [mkDirRules dir a b], exclude))); [|lasting_steps|].
    - apply calm_modify. intros w0 Hw0. split; [done|]. by rewrite view_push, Hw0.
    - intros ? y ->. by apply calm_ret. }
  destruct a, b; try exact Hpush. apply calm_ret. cbn. by rewrite app_nil_r.
Qed.

(** *** Entries *)

Abbreviation steps_ := (steps limits start react).
Lemma steps_stopped items k : core_stopped k = true → steps_ items k = k.
Proof using Type. intros Hk. induction items as [|i items IH]; [done|]. cbn. unfold step at 2. by rewrite Hk. Qed.
Lemma steps_app a b k : steps_ (a ++ b) k = steps_ b (steps_ a k).
Proof using Type. apply foldl_app. Qed.

Section entries.
Context (rules : list DirRules) (exclude : option Gitignore).
Abbreviation at_ k := ((k, rules, exclude) : View).
(** Ends in [k]. *)
Abbreviation ends_in k := (λ (_ : unit) (y : View), y = at_ k).

Lemma calm_type path k : calm (entry_type env path) (at_ k) (same (at_ k) (λ found, found = kind_at F path)).
Proof using Type.
  unfold entry_type, kind_at. calm_step calm_moment. intros m y [-> ->]. cbn [m_fs].
  destruct (fs_stat F path) eqn:Hstat; [by apply calm_ret|]. calm_step calm_moment. intros m y [-> ->]. cbn [m_fs].
  rewrite Hstat. by apply calm_ret.
Qed.
Lemma calm_size path k : calm (entry_size env path) (at_ k) (same (at_ k) (λ size, size = size_at F path)).
Proof using Type. unfold entry_size. calm_step calm_moment. intros m y [-> ->]. by apply calm_ret. Qed.
Lemma calm_note before name child k :
  calm (note_last before name child) (at_ k) (ends_in (core_note before (bool_decide (is_Some (from_utf8 name))) child k)).
Proof using Type.
  unfold note_last, core_note. destruct (_ && _); [|by apply calm_ret]. apply calm_modify. by intros w [= <- <- <-].
Qed.
Lemma calm_apply x path k : calm (apply_visit env start x path) (at_ k) (ends_in (core_apply start x path k)).
Proof using Type.
  destruct x as [|reason|reason line offset|reason]; cbn [apply_visit core_apply].
  - apply calm_modify. by intros w [= <- <- <-].
  - apply calm_stop.
  - eapply (calm_bind _ _ _ (ends_in (core_set_stop (k_reason k) (k_next k) (Some (line, offset)) k))); [|lasting_steps|].
    + apply calm_modify. by intros w [= <- <- <-].
    + intros ? y ->. apply calm_stop.
  - apply calm_get. intros w [= <- <- <-]. apply calm_stop.
Qed.
Context (Hreacts : reacts).
Lemma lasting_visit e : lasting (on_scan (visit e)).
Proof using Hreacts. apply lasting_on_scan. intros s. apply Hreacts. Qed.
Lemma calm_visit e k :
  calm (on_scan (visit e)) (at_ k) (λ x y, ∃ v bytes, react e (k_visitor k) (k_bytes k) = (v, bytes, x) ∧ y = at_ (core_visit v bytes k)).
Proof using Hreacts.
  intros w [= <- <- <-] Hw. unfold on_scan. pose proof (proj2 Hreacts e (w_scan w) Hw) as Hvisit. cbn in Hvisit |- *.
  destruct (react e (sc_visitor (w_scan w)) (b_bytes (sc_budget (w_scan w)))) as [[v bytes] x] eqn:Hr. destruct Hvisit as [ticks ->].
  intros _. split; [done|]. exists x. split; [done|]. by exists v, bytes.
Qed.
Lemma lasting_apply x path : lasting (apply_visit env start x path).
Proof using Type. destruct x; cbn [apply_visit]; lasting_steps. Qed.
Lemma lasting_note before name child : lasting (note_last (V := V) before name child).
Proof using Type. unfold note_last. lasting_steps. Qed.
Hint Resolve lasting_visit lasting_apply lasting_note : lasting.

Section below.
Context (descend : Path → str → N → M unit) (below : Path → N → list Item).
Context (Hlast : ∀ child display depth, lasting (descend child display depth)).
Hint Resolve Hlast : lasting.
Lemma lasting_examine dir display depth name before :
  lasting (examine env limits options is_repo start visit descend dir display depth name before).
Proof using Hlast Hreacts. unfold examine, entry_type, entry_size. lasting_steps. Qed.
Hint Resolve lasting_examine : lasting.
Lemma lasting_names dir display depth names :
  lasting (walk_names env limits options is_repo start visit descend dir display depth names).
Proof using Hlast Hreacts. induction names as [|name names IH]; cbn [walk_names]; lasting_steps. Qed.
Hint Resolve lasting_names : lasting.

Abbreviation items_of := (name_items F limits options is_repo start exclude below rules).
(** [descend] handles the items [below]. *)
Definition descends (dir : Path) (depth : N) (names : list (list N)) : Prop :=
  Forall (λ name, ∀ k, is_Some (from_utf8 name) → depth + 1 < l_depth limits →
    calm (descend (dir ++ [Normal name]) (display_path (dir ++ [Normal name])) (depth + 1)) (at_ k)
      (ends_in (steps_ (below (dir ++ [Normal name]) (depth + 1)) k))) names.

Lemma calm_examine dir depth name k :
  Forall utf8_part dir → Forall good_part dir → descends dir depth [name] →
  let child := dir ++ [Normal name] in
  let before := positioning options start child in
  let raw := raw_at F options is_repo start exclude rules dir name in
  calm (examine env limits options is_repo start visit descend dir (display_path dir) depth name before) (at_ k)
    (ends_in (steps_ (tail (items_of dir depth name))
       (core_examine start react before child (bool_decide (is_Some (from_utf8 name))) raw k))).
Proof using Hlast Hreacts.
  intros Hutf Hgood Hdesc child before raw. unfold examine. eapply calm_bind; [apply calm_type|lasting_steps; unfold entry_size; lasting_steps|].
  fold child. intros found y [-> ->]. unfold name_items. fold child before raw. subst raw. unfold raw_at. fold child before.
  destruct (kind_at F child) as [kind|].
  2: { calm_step calm_unreadable. intros ? y ->. apply calm_note. }
  apply calm_get. intros w Hw. assert (Hexcl : ∀ d, excluded is_repo w child name d = excluded_by is_repo rules exclude child name d).
  { intros d. unfold excluded. by injection Hw as _ -> ->. }
  rewrite Hexcl. clear w Hw Hexcl. destruct (excluded_by _ _ _ _ _ _); [apply calm_note|].
  destruct (from_utf8 name) as [part|] eqn:Hpart; [|apply calm_modify; by intros w [= <- <- <-]].
  rewrite (child_display_path dir name part Hutf Hgood Hpart). fold child.
  eapply calm_bind.
  { instantiate (1 := same (at_ k) (λ size, size = if negb before && o_want_size options && bool_decide (kind = FFile) then size_at F child else None)).
    destruct (_ && _); [apply calm_size|by apply calm_ret]. }
  { lasting_steps. }
  intros size y [-> ->]. cbn [core_examine is_dir_item e_kind e_relative tail].
  set (e := mkWalkEntry _ _ _).
  set (k' := if before then k else _).
  eapply (calm_bind _ _ _ (ends_in k')).
  { subst k'. destruct before; [by apply calm_ret|]. eapply calm_bind; [apply calm_visit|lasting_steps|].
    intros x y (v & bytes & -> & ->). apply calm_apply. }
  { lasting_steps. }
  intros ? y ->. apply calm_get. intros w Hw. rewrite (view_stopped _ _ _ _ Hw). clear w Hw.
  destruct (bool_decide (kind = FDirectory) && o_recursive options); cbn [andb]; [|by apply calm_ret].
  destruct (core_stopped k') eqn:Hstop; cbn [negb].
  { apply calm_ret. by rewrite (steps_stopped _ _ Hstop). }
  destruct (decide (l_depth limits <= depth + 1)) as [|Hdepth].
  - apply calm_modify. intros w Hw. split; [done|]. rewrite view_cap, Hw. cbn. unfold step. by rewrite Hstop.
  - apply (Forall_inv Hdesc); [by eexists|lia].
Qed.

Lemma calm_names dir depth names k :
  Forall utf8_part dir → Forall good_part dir → descends dir depth names →
  Forall (λ name, passed start (dir ++ [Normal name]) = false) names →
  calm (walk_names env limits options is_repo start visit descend dir (display_path dir) depth names) (at_ k)
    (ends_in (steps_ (names ≫= items_of dir depth) k)).
Proof using Hlast Hreacts.
  intros Hutf Hgood Hdesc Hpassed. revert k. induction names as [|name names IH]; intros k; cbn [walk_names]; [by apply calm_ret|].
  apply Forall_cons in Hdesc as [Hname Hdesc]. apply Forall_cons in Hpassed as [Hpass Hpassed]. specialize (IH Hdesc Hpassed).
  calm_step calm_check. intros ? y [-> _]. apply calm_get. intros w Hw. rewrite (view_stopped _ _ _ _ Hw). clear w Hw.
  destruct (core_stopped k) eqn:Hstop; [apply calm_ret; by rewrite (steps_stopped _ _ Hstop)|].
  set (child := dir ++ [Normal name]) in *. set (before := positioning options start child).
  assert (Hskip : before && negb (above_cursor start child) = false).
  { subst before. unfold positioning, above_cursor, passed in *. destruct start as [s|]; [|done]. cbn in *.
    destruct (path_starts_with child s) eqn:Hs; [by rewrite andb_false_r|]. rewrite andb_true_r in *. rewrite Hpass. cbn.
    destruct (bool_decide (child = s)) eqn:Heq; [|done]. apply bool_decide_eq_true in Heq as <-.
    apply not_true_iff_false in Hs. destruct Hs. apply path_starts_with_true. exists []. by rewrite app_nil_r. }
  rewrite Hskip. rewrite bind_cons, steps_app.
  change (steps_ (items_of dir depth name) k) with (steps_ (tail (items_of dir depth name)) (step limits start react k
    (Entry before child (bool_decide (is_Some (from_utf8 name))) (raw_at F options is_repo start exclude rules dir name)))).
  pose proof (λ k, calm_examine dir depth name k Hutf Hgood (proj2 (Forall_singleton _ _) Hname)) as Hexamine.
  cbv zeta in Hexamine. fold child in Hexamine. fold before in Hexamine.
  unfold step. rewrite Hstop. eapply calm_bind.
  { instantiate (1 := λ claimed y, if before then claimed = true ∧ y = at_ k else
      if decide (l_entries limits <= k_entries k) then claimed = false ∧ y = at_ k else claimed = true ∧ y = at_ (core_claim k)).
    destruct before; [by apply calm_ret|apply calm_claim]. }
  { lasting_steps. }
  intros claimed y Hclaim. destruct before.
  - destruct Hclaim as [-> ->]. cbn [negb].
    eapply calm_bind; [exact (Hexamine k)|lasting_steps|]. intros ? y ->. apply IH.
  - destruct (decide (l_entries limits <= k_entries k)).
    + destruct Hclaim as [-> ->]. cbn [negb]. apply calm_get. intros w [= <- <- <-]. eapply calm_weaken; [apply calm_stop|].
      intros ? y ->. assert (Hs : core_stopped (core_stop start StopEntries (Some (w_last w)) (core_of w)) = true).
      { apply bool_decide_eq_true. unfold core_stop. apply bool_decide_eq_false in Hstop. apply dec_stable in Hstop.
        by rewrite decide_True by done. }
      cbn [k_last core_of]. by rewrite !(steps_stopped _ _ Hs).
    + destruct Hclaim as [-> ->]. cbn [negb].
      eapply calm_bind; [exact (Hexamine (core_claim k))|lasting_steps|]. intros ? y ->. apply IH.
Qed.

Lemma lasting_collect dir capacity entries names : lasting (collect (V := V) env start dir capacity entries names).
Proof using Type. revert names. induction entries as [|[name|] entries IH]; intros names; cbn [collect]; lasting_steps. Qed.
Hint Resolve lasting_collect : lasting.
Lemma lasting_entries dir display depth :
  lasting (walk_entries env limits options is_repo start visit descend dir display depth).
Proof using Hlast Hreacts. unfold walk_entries. lasting_steps. Qed.

(** *** The names of a directory *)

Definition add_name (dir : Path) (names : list (list N)) (name : list N) : list (list N) :=
  if passed start (dir ++ [Normal name]) then names else insert_name name names.
Lemma calm_collect dir capacity entries names k :
  core_stopped k = false →
  calm (collect env start dir capacity entries (take capacity names)) (at_ k) (λ found y,
    found = Some (take capacity (foldl (add_name dir) names (omap id entries))) ∧
    y = at_ (core_lose (lenN (filter (λ e, e = None) entries)) k)).
Proof using Type.
  revert names k. induction entries as [|entry entries IH]; intros names k Hk; cbn [collect].
  { apply calm_ret. split; [done|]. by rewrite core_lose_0. }
  calm_step calm_check. intros ? y [-> _]. apply calm_get. intros w Hw. rewrite (view_stopped _ _ _ _ Hw), Hk. clear w Hw.
  destruct entry as [name|].
  - rewrite filter_cons_False by done. cbn [omap list_omap id foldl]. unfold add_name at 2. destruct (passed start _); [by apply IH|].
    rewrite insert_sorted_take by (rewrite length_take; lia). rewrite take_insert_name. by apply IH.
  - calm_step calm_unreadable. intros ? y ->. rewrite filter_cons_True by done. rewrite lenN_cons. cbn [omap list_omap id].
    eapply calm_weaken; [by apply IH|]. intros found y [-> ->]. split; [done|]. by rewrite core_lose_lose.
Qed.

Lemma add_name_elem dir names l x :
  x ∈ foldl (add_name dir) names l ↔ x ∈ names ∨ (x ∈ l ∧ passed start (dir ++ [Normal x]) = false).
Proof using Type.
  revert names. induction l as [|name l IH]; intros names; cbn; [split; [by left|intros [?|[[]%elem_of_nil _]]; done]|]. rewrite IH. unfold add_name.
  rewrite elem_of_cons. destruct (passed start (dir ++ [Normal name])) eqn:Hp; [clear -Hp; naive_solver congruence|].
  rewrite insert_name_elem. clear -Hp. naive_solver.
Qed.
Lemma add_name_sorted dir names l : StronglySorted name_lt names → StronglySorted name_lt (foldl (add_name dir) names l).
Proof using Type.
  revert names. induction l as [|name l IH]; intros names Hs; cbn; [done|]. apply IH. unfold add_name. case_match; [done|]. by apply insert_name_sorted.
Qed.
Lemma dir_names_sorted dir entries : StronglySorted name_lt (dir_names start dir entries).
Proof using Type. apply add_name_sorted. constructor. Qed.
Lemma dir_names_elem dir entries x : x ∈ dir_names start dir entries ↔ x ∈ omap id entries ∧ passed start (dir ++ [Normal x]) = false.
Proof using Type. unfold dir_names. change (x ∈ foldl (add_name dir) [] (omap id entries) ↔ x ∈ omap id entries ∧ passed start (dir ++ [Normal x]) = false).
  rewrite add_name_elem. split; [intros [[]%elem_of_nil|?]; done|by right]. Qed.

(** *** The bounded list of names is enough *)

Lemma examine_entries before child utf8 raw k : k_entries (core_examine start react before child utf8 raw k) = k_entries k.
Proof using Type.
  destruct raw as [| | |e]; cbn [core_examine]; unfold core_note; [by destruct (_ && _)|by destruct (_ && _)|done|].
  destruct before; [done|]. destruct (react e _ _) as [[v bytes] [|reason|reason line offset|reason]]; cbn; unfold core_stop;
    by try destruct (decide _).
Qed.
Lemma step_entries k i :
  k_entries k <= k_entries (step limits start react k i) <= N.max (l_entries limits) (k_entries k).
Proof using Type.
  unfold step. destruct (core_stopped k); [lia|]. destruct i as [n| |before child utf8 raw|]; cbn; try lia.
  - destruct (decide _); [|cbn; lia]. unfold core_stop. case_decide; cbn; lia.
  - destruct before; [rewrite examine_entries; lia|]. destruct (decide _); [|rewrite examine_entries; cbn; lia].
    unfold core_stop. case_decide; cbn; lia.
Qed.
Lemma steps_entries items k : k_entries k <= k_entries (steps_ items k) <= N.max (l_entries limits) (k_entries k).
Proof using Type.
  revert k. induction items as [|i items IH]; intros k; cbn; [lia|]. pose proof (step_entries k i). specialize (IH (step limits start react k i)).
  unfold steps in *. lia.
Qed.
Definition fresh (dir : Path) (names : list (list N)) : list (list N) :=
  filter (λ name, positioning options start (dir ++ [Normal name]) = false) names.
Lemma names_claim dir depth names k :
  core_stopped (steps_ (names ≫= items_of dir depth) k) = true ∨
  k_entries k + lenN (fresh dir names) <= k_entries (steps_ (names ≫= items_of dir depth) k).
Proof using Type.
  revert k. induction names as [|name names IH]; intros k; [right; cbn; rewrite lenN_nil; lia|].
  rewrite bind_cons, steps_app. destruct (IH (steps_ (items_of dir depth name) k)) as [|Hle]; [by left|].
  destruct (core_stopped (steps_ (items_of dir depth name) k)) eqn:Hstop.
  { left. by rewrite steps_stopped. }
  right. etransitivity; [|exact Hle]. unfold fresh. rewrite filter_cons.
  pose proof (steps_entries (items_of dir depth name) k) as Hmono. destruct (decide _) as [Hb|]; [|unfold fresh; lia].
  rewrite lenN_cons. enough (k_entries k + 1 <= k_entries (steps_ (items_of dir depth name) k)) by (unfold fresh; lia).
  unfold name_items in *. rewrite Hb in *. cbn [steps foldl] in *.
  set (k' := step limits start react k _) in *. pose proof (steps_entries (if is_dir_item (raw_at F options is_repo start exclude rules dir name) && o_recursive options
    then if decide (l_depth limits <= depth + 1) then [TooDeep] else below (dir ++ [Normal name]) (depth + 1) else []) k') as Hrest.
  unfold steps in Hrest. enough (k_entries k + 1 <= k_entries k') by lia. clear Hrest Hmono Hle.
  assert (Hs : core_stopped k' = false).
  { destruct (core_stopped k') eqn:Hk'; [|done]. pose proof (steps_stopped (if is_dir_item (raw_at F options is_repo start exclude rules dir name) && o_recursive options
      then if decide (l_depth limits <= depth + 1) then [TooDeep] else below (dir ++ [Normal name]) (depth + 1) else []) _ Hk') as Hst.
    unfold steps in Hst. by rewrite Hst, Hk' in Hstop. }
  clear Hstop. subst k'. unfold step in *. destruct (core_stopped k) eqn:Hk; [congruence|].
  destruct (decide (l_entries limits <= k_entries k)).
  - exfalso. unfold core_stop, core_stopped in *. apply bool_decide_eq_false in Hk. apply dec_stable in Hk. rewrite decide_True in Hs by done.
    apply bool_decide_eq_false in Hs. by apply Hs.
  - rewrite examine_entries. cbn. lia.
Qed.
Lemma before_above child :
  positioning options start child = true → passed start child = false → ∃ s, start = Some s ∧ ∃ r, s = child ++ r.
Proof using Type.
  unfold positioning, passed. destruct start as [s|]; [|done]. cbn. intros Hb Hp. exists s. split; [done|].
  apply path_starts_with_true. destruct (path_starts_with child s) eqn:Hs; [done|]. rewrite andb_true_r in Hp. rewrite Hp in Hb. cbn in Hb.
  apply andb_true_iff in Hb as [->%bool_decide_eq_true _]. apply not_true_iff_false in Hs. destruct Hs. apply path_starts_with_true.
  exists []. by rewrite app_nil_r.
Qed.
Lemma fresh_most dir names :
  NoDup names → Forall (λ name, passed start (dir ++ [Normal name]) = false) names → lenN names <= lenN (fresh dir names) + 1.
Proof using Type.
  induction names as [|name names IH]; intros Hnd Hpass; [unfold fresh; cbn; lia|].
  apply NoDup_cons in Hnd as [Hnin Hnd]. apply Forall_cons in Hpass as [Hp Hpass]. unfold fresh. rewrite filter_cons.
  destruct (decide _) as [_|Hb]; rewrite !lenN_cons; [specialize (IH Hnd Hpass); unfold fresh in IH; lia|].
  rewrite filter_every; [lia|]. apply Forall_forall. intros name' Hin.
  destruct (positioning options start (dir ++ [Normal name'])) eqn:Hb'; [|done]. exfalso. apply not_false_iff_true in Hb.
  rewrite Forall_forall in Hpass. specialize (Hpass _ Hin). destruct (before_above _ Hb Hp) as (s & Hs & r & Hr).
  destruct (before_above _ Hb' Hpass) as (s' & Hs' & r' & Hr'). rewrite Hs in Hs'. injection Hs' as <-. rewrite Hr, <- !app_assoc in Hr'.
  apply app_inv_head in Hr'. injection Hr' as -> _. done.
Qed.

Lemma steps_take dir depth names k capacity :
  StronglySorted name_lt names → Forall (λ name, passed start (dir ++ [Normal name]) = false) names →
  capacity = N.to_nat (l_entries limits - k_entries k + 2) →
  steps_ (take capacity names ≫= items_of dir depth) k = steps_ (names ≫= items_of dir depth) k.
Proof using Type.
  intros Hsorted Hpass ->. set (n := N.to_nat _). rewrite <- (take_drop n names) at 2. rewrite bind_app, steps_app.
  destruct (decide (length names <= n)%nat) as [Hlen|Hlen]; [by rewrite (drop_ge names n) by lia|].
  destruct (names_claim dir depth (take n names) k) as [Hstop|Hle]; [by rewrite (steps_stopped _ _ Hstop)|]. exfalso.
  pose proof (steps_entries (take n names ≫= items_of dir depth) k) as Hmax.
  assert (Hfresh : lenN (take n names) <= lenN (fresh dir (take n names)) + 1).
  { apply fresh_most; [|by apply Forall_take]. eapply sublist_NoDup; [by apply names_nodup|apply sublist_take]. }
  unfold lenN in Hfresh at 1. rewrite length_take in Hfresh. lia.
Qed.

Lemma calm_entries dir depth k :
  Forall utf8_part dir → Forall good_part dir →
  (∀ entries, fs_dir F dir = Some entries → descends dir depth (dir_names start dir entries)) →
  calm (walk_entries env limits options is_repo start visit descend dir (display_path dir) depth) (at_ k)
    (ends_in (steps_ (entry_items F limits options is_repo start exclude (λ _, below) rules dir depth) k)).
Proof using Hlast Hreacts.
  intros Hutf Hgood Hdesc. unfold walk_entries, entry_items. apply calm_get. intros w Hw. rewrite (view_stopped _ _ _ _ Hw). clear w Hw.
  destruct (core_stopped k) eqn:Hstop; [apply calm_ret; by rewrite (steps_stopped _ _ Hstop)|].
  calm_step calm_moment. intros m y [-> ->]. cbn [m_fs]. destruct (fs_dir F dir) as [entries|].
  - apply calm_get. intros w Hw. assert (b_entries (sc_budget (w_scan w)) = k_entries k) as -> by exact (f_equal (λ x, k_entries x.1.1) Hw).
    clear w Hw. set (capacity := N.to_nat _). pose proof (calm_collect dir capacity entries [] k Hstop) as Hcollect.
    rewrite take_nil in Hcollect. eapply calm_bind; [exact Hcollect|lasting_steps|]. clear Hcollect.
    intros found y [-> ->]. cbn [steps foldl]. unfold step at 2. rewrite Hstop.
    change (foldl (add_name dir) [] (omap id entries)) with (dir_names start dir entries). specialize (Hdesc entries eq_refl).
    assert (Hpass : Forall (λ name, passed start (dir ++ [Normal name]) = false) (dir_names start dir entries)).
    { apply Forall_forall. by intros name [_ Hp]%dir_names_elem. }
    eapply calm_weaken; [apply (calm_names dir depth (take capacity _)); [done|done|exact (Forall_take _ _ _ Hdesc)|by apply Forall_take]|]. intros ? y ->.
    do 2 f_equal. apply steps_take; [apply dir_names_sorted|done|done].
  - calm_step calm_unreadable. intros ? y ->. calm_step calm_claim. cbn [k_entries core_lose steps foldl]. unfold step. rewrite Hstop.
    intros claimed y Hclaim. destruct (decide _); destruct Hclaim as [-> ->]; [apply calm_stop|by apply calm_ret].
Qed.
End below.
End entries.
Hint Resolve lasting_entries : lasting.

(** *** Directories within directories *)

(** What the system promises of names. *)
Definition good_names_fs : Prop := ∀ dir entries, fs_dir F dir = Some entries → Forall good_name (omap id entries).

Context (Hreacts : reacts) (Hfs : good_names_fs).

Lemma lasting_directory fuel load dir display depth :
  lasting (walk_directory env limits options is_repo start visit fuel load dir display depth).
Proof using Hreacts.
  revert load dir display depth. induction fuel as [|fuel IH]; intros load dir display depth; cbn [walk_directory]; lasting_steps.
Qed.

Lemma view_pop w : view (pop_rules w) = ((view w).1.1, removelast (view w).1.2, (view w).2).
Proof using Type. done. Qed.

Lemma calm_level descend (below : list DirRules → Path → N → list Item) (load : bool) rules exclude dir depth k :
  (∀ child display depth, lasting (descend child display depth)) →
  Forall utf8_part dir → Forall good_part dir → (load = true → dir ≠ []) →
  (∀ rules entries, fs_dir F dir = Some entries → descends rules exclude descend (below rules) dir depth (dir_names start dir entries)) →
  calm (pushed ← (if load then load_directory_rules env limits is_repo start dir else mret false);
        _ ← walk_entries env limits options is_repo start visit descend dir (display_path dir) depth;
        if pushed : bool then modify pop_rules else mret tt) (k, rules, exclude)
    (λ _ y, y = (steps_ (let '(own, lost) := if load then dir_rules F dir else (None, 0) in
                         Lose lost :: entry_items F limits options is_repo start exclude below (rules ++ option_list own) dir depth) k,
                 rules, exclude)).
Proof using Hreacts.
  intros Hlast Hutf Hgood Hload Hdesc. destruct (core_stopped k) eqn:Hstop.
  { eapply calm_bind; [instantiate (1 := λ pushed y, pushed = false ∧ y = (k, rules, exclude))|lasting_steps|].
    { destruct load; [by apply calm_load_dir_stopped|by apply calm_ret]. }
    intros pushed y [-> ->]. eapply calm_bind; [apply (calm_entries rules exclude Hreacts descend (below rules)); auto|lasting_steps|].
    intros ? y ->. apply calm_ret. by rewrite !(steps_stopped _ _ Hstop). }
  set (own := if load then dir_rules F dir else (None, 0)).
  eapply calm_bind; [instantiate (1 := λ pushed y, pushed = bool_decide (is_Some own.1) ∧
    y = (core_lose own.2 k, rules ++ option_list own.1, exclude))|lasting_steps|].
  { subst own. destruct load; [by apply calm_load_dir; auto|]. apply calm_ret. cbn. by rewrite core_lose_0, app_nil_r. }
  intros pushed y [-> ->]. eapply calm_bind; [apply (calm_entries _ exclude Hreacts descend (below (rules ++ option_list own.1))); auto|lasting_steps|].
  intros ? y ->. destruct own as [own lost]. cbn [fst snd].
  assert (Hlose : step limits start react k (Lose lost) = core_lose lost k) by (unfold step; by rewrite Hstop).
  cbn [steps foldl]. rewrite Hlose.
  destruct own as [r|]; cbn [option_list].
  - rewrite bool_decide_eq_true_2 by by eexists. apply calm_modify. intros w Hw. split; [done|]. rewrite view_pop, Hw. cbn.
    by rewrite removelast_last.
  - rewrite bool_decide_eq_false_2 by by intros []. apply calm_ret. by rewrite app_nil_r.
Qed.

Lemma calm_directory fuel (load : bool) rules exclude dir depth k :
  Forall utf8_part dir → Forall good_part dir → (load = true → dir ≠ []) → l_depth limits <= depth + N.of_nat fuel →
  calm (walk_directory env limits options is_repo start visit fuel load dir (display_path dir) depth) (k, rules, exclude)
    (λ _ y, y = (steps_ (dir_items F limits options is_repo start exclude fuel load rules dir depth) k, rules, exclude)).
Proof using Hreacts Hfs.
  revert load rules dir depth k. induction fuel as [|fuel IH]; intros load rules dir depth k Hutf Hgood Hload Hfuel.
  - cbn [walk_directory dir_items]. apply (calm_level (λ _ _ _, throw Internal) (λ _ _ _, [])); auto with lasting.
    intros rules' entries _. apply Forall_forall. intros name _ k' _ Hdepth. lia.
  - cbn [walk_directory dir_items].
    apply (calm_level (walk_directory env limits options is_repo start visit fuel true)
      (dir_items F limits options is_repo start exclude fuel true)); auto using lasting_directory.
    intros rules' entries Hentries. apply Forall_forall. intros name Hname k' Hutf' Hdepth.
    apply dir_names_elem in Hname as [Hname _]. pose proof (proj1 (Forall_forall _ _) (Hfs _ _ Hentries) name Hname) as Hgood'.
    apply IH; [apply Forall_app; split; [done|by repeat constructor]|apply Forall_app; split; [done|]|by destruct dir|lia].
    constructor; [|constructor]. by exists name.
Qed.

(** *** The root *)

(** The rules above the root of a walk, and its own, and what is lost of them. *)
Fixpoint rules_below (prefix parts : Path) : list DirRules * N :=
  match parts with
  | [] => ([], 0)
  | part :: parts =>
      let (own, lost) := dir_rules F (prefix ++ [part]) in
      let (rest, lost') := rules_below (prefix ++ [part]) parts in
      (option_list own ++ rest, lost + lost')
  end.
Definition git_exclude : option Gitignore * N := if is_repo then rules_at F (under [] GIT_EXCLUDE) [] else (None, 0).
Definition root_rules (relative : Path) : list DirRules * option Gitignore * N :=
  let (own, lost) := dir_rules F [] in
  let (rest, lost') := rules_below [] relative in
  (option_list own ++ rest, git_exclude.1, lost + git_exclude.2 + lost').

Lemma view_rules rules exclude w : view (set_rules rules exclude w) = ((view w).1.1, rules, exclude).
Proof using Type. done. Qed.

Lemma calm_load_root k exclude :
  core_stopped k = false →
  calm (load_directory_rules env limits is_repo start []) (k, [], exclude) (λ _ y,
    y = (core_lose ((dir_rules F []).2 + git_exclude.2) k, option_list (dir_rules F []).1, if is_repo then git_exclude.1 else exclude)).
Proof using Type.
  intros Hk. unfold load_directory_rules, dir_rules.
  eapply calm_bind; [by apply calm_load_file|lasting_steps|]. intros a y [-> ->].
  apply calm_get. intros w Hw. rewrite (view_stopped _ _ _ _ Hw), core_stopped_lose, Hk.
  destruct (rules_at F (under [] (lit ".ignore")) []) as [a n]. cbn [fst snd].
  eapply calm_bind; [by apply calm_load_file|lasting_steps|]. intros b y [-> ->].
  apply calm_get. intros w' Hw'. rewrite (view_stopped _ _ _ _ Hw'), !core_stopped_lose, Hk.
  destruct (rules_at F (under [] (lit ".gitignore")) []) as [b j]. cbn [fst snd]. rewrite (bool_decide_eq_true_2 ([] = []) eq_refl). cbn [andb].
  set (exclude' := if is_repo then git_exclude.1 else exclude).
  eapply (calm_bind _ _ _ (λ _ y, y = (core_lose (n + j + git_exclude.2) k, [], exclude'))); [|lasting_steps|].
  { unfold exclude', git_exclude. destruct is_repo; [|apply calm_ret; cbn [snd]; by rewrite core_lose_lose, N.add_0_r].
    eapply calm_bind; [by apply calm_load_file|lasting_steps|]. intros c y [-> ->]. apply calm_modify. intros w0 Hw0. split; [done|].
    assert (w_rules w0 = []) as -> by exact (f_equal (λ x, x.1.2) Hw0). rewrite view_rules, Hw0. cbn [fst snd].
    by rewrite !core_lose_lose, N.add_assoc. }
  intros ? y ->. apply calm_get. intros w'' Hw''. rewrite (view_stopped _ _ _ _ Hw''), !core_stopped_lose, Hk.
  assert (Hpush : calm (_ ← modify (push_rules (mkDirRules [] a b)); mret true) (core_lose (n + j + git_exclude.2) k, [], exclude')
    (λ _ y, y = (core_lose (n + j + git_exclude.2) k, [mkDirRules [] a b], exclude'))).
  { eapply (calm_bind _ _ _ (λ _ y, y = (core_lose (n + j + git_exclude.2) k, [mkDirRules [] a b], exclude'))); [|lasting_steps|].
    - apply calm_modify. intros w0 Hw0. split; [done|]. by rewrite view_push, Hw0.
    - intros ? y ->. by apply calm_ret. }
  destruct a, b; try exact Hpush. by apply calm_ret.
Qed.

Lemma lasting_below prefix parts : lasting (load_rules_below (V := V) env limits is_repo start prefix parts).
Proof using Type. revert prefix. induction parts as [|part parts IH]; intros prefix; cbn [load_rules_below]; lasting_steps. Qed.
Lemma calm_load_below k rules exclude prefix parts :
  core_stopped k = false →
  calm (load_rules_below env limits is_repo start prefix parts) (k, rules, exclude) (λ _ y,
    y = (core_lose (rules_below prefix parts).2 k, rules ++ (rules_below prefix parts).1, exclude)).
Proof using Type.
  revert k rules prefix. induction parts as [|part parts IH]; intros k rules prefix Hk; cbn [load_rules_below rules_below].
  { apply calm_ret. cbn. by rewrite core_lose_0, app_nil_r. }
  eapply calm_bind; [apply calm_load_dir; [done|by destruct prefix]|lasting_steps; apply lasting_below|]. intros pushed y [_ ->].
  apply calm_get. intros w Hw. rewrite (view_stopped _ _ _ _ Hw), core_stopped_lose, Hk.
  destruct (dir_rules F (prefix ++ [part])) as [own lost]. cbn [fst snd].
  eapply calm_weaken; [by apply IH|]. intros ? y ->. destruct (rules_below (prefix ++ [part]) parts) as [rest lost']. cbn [fst snd].
  by rewrite core_lose_lose, app_assoc.
Qed.

Definition core_exclude (k : Core V) : Core V :=
  mkCore (k_visitor k) (k_entries k) (k_bytes k) (k_last k) (k_reason k) (k_next k) (k_resume k) (k_unrepresentable k + 0)
    (k_unreadable k + 0) (k_excluded k + 1) (k_capped k).
Definition root_items (relative : Path) : list Item :=
  let '(rules, exclude, lost) := root_rules relative in
  dir_items F limits options is_repo start exclude (N.to_nat (l_depth limits)) false rules relative 0.
Definition root_excluded (relative : Path) : bool :=
  let '(rules, exclude, _) := root_rules relative in excluded_below is_repo rules exclude [] relative true.
(** What a walk leaves. *)
Definition root_core (relative : Path) (k : Core V) : Core V :=
  let k := core_lose (root_rules relative).2 k in
  if root_excluded relative then core_exclude k else steps_ (root_items relative) k.
Definition outcome_of (k : Core V) : WalkOutcome :=
  let reason := if decide (k_reason k = StopEnd) then if k_capped k then StopDepth else StopEnd else k_reason k in
  mkOutcome reason (if decide (reason = StopEnd) then None else k_next k) (k_resume k)
    (k_unrepresentable k) (k_unreadable k) (k_excluded k).

Hint Resolve lasting_below lasting_directory : lasting.
Lemma lasting_ancestors relative d : lasting (load_ancestor_rules (V := V) env limits is_repo start relative d).
Proof using Type. unfold load_ancestor_rules. lasting_steps. Qed.
Hint Resolve lasting_ancestors : lasting.

Lemma calm_root relative k :
  core_stopped k = false → Forall utf8_part relative → Forall good_part relative →
  calm (walk_root env limits options is_repo start visit relative true) (k, [], None) (λ _ y, y.1.1 = root_core relative k).
Proof using Hreacts Hfs.
  intros Hk Hutf Hgood. unfold walk_root. calm_step calm_check. intros ? y [-> _]. apply calm_get. intros w Hw.
  rewrite (view_stopped _ _ _ _ Hw), Hk. clear w Hw.
  eapply (calm_bind _ _ _ (λ _ y, y = (core_lose (root_rules relative).2 k, (root_rules relative).1.1, (root_rules relative).1.2))); [|lasting_steps|].
  - unfold load_ancestor_rules. eapply calm_bind; [by apply calm_load_root|lasting_steps|]. intros ? y ->.
    apply calm_get. intros w Hw. rewrite (view_stopped _ _ _ _ Hw), core_stopped_lose, Hk. rewrite take_ge by lia.
    eapply calm_weaken; [by apply calm_load_below|]. intros ? y ->. unfold root_rules.
    destruct (dir_rules F []) as [own lost], (rules_below [] relative) as [rest lost']. cbn [fst snd]. rewrite core_lose_lose.
    f_equal. unfold git_exclude. by destruct is_repo.
  - intros ? y ->. apply calm_get. intros w Hw. rewrite (view_stopped _ _ _ _ Hw), core_stopped_lose, Hk.
    unfold root_core, root_excluded, root_items, excluded_root.
    assert (w_rules w = (root_rules relative).1.1) as -> by exact (f_equal (λ x, x.1.2) Hw).
    assert (w_exclude w = (root_rules relative).1.2) as -> by exact (f_equal (λ x, x.2) Hw).
    destruct (root_rules relative) as [[rules exclude] lost]. cbn [fst snd]. destruct (excluded_below _ _ _ _ _ _).
    + apply calm_modify. intros w0 Hw0. split; [done|]. exact (f_equal (λ x, core_exclude x.1.1) Hw0).
    + eapply calm_weaken; [by apply calm_directory; [..|lia]|]. by intros ? y ->.
Qed.
Lemma lasting_finish : lasting (walk_finish (V := V) env).
Proof using Type. unfold walk_finish. lasting_steps. Qed.
Lemma calm_finish x : calm (walk_finish env) x (λ out y, y = x ∧ out = outcome_of x.1.1).
Proof using Type.
  unfold walk_finish. eapply calm_bind; [apply calm_time|lasting_steps|]. intros late y [-> ->].
  eapply (calm_bind _ _ _ (λ _ y, y = x)); [by apply calm_ret|lasting_steps|]. intros ? y ->.
  apply calm_get_live; [lasting_steps|]. intros w <- Hex. apply calm_ret. split; [done|].
  unfold outcome_of. unfold exhausted, budget_of in Hex. by rewrite Hex.
Qed.
End calm.

Definition new_core {V} (last : str) (v : V) : Core V := mkCore v 0 0 last StopEnd None None 0 0 0 false.

(** The walk over the files [F] of a directory, when the rule budget holds. *)
Lemma walk_scope_still `{IgnoreRules} {V} (F : FileSystem) limits directory options start_path react visit (v : V) ticks relative resolved len :
  reacts react visit → good_names_fs F →
  normalize_relative directory true = Some relative → fs_canonical F relative = Ok (Some resolved) →
  fs_stat F resolved = Ok (mkMeta FDirectory len) → (∃ meta, fs_stat F relative = Ok meta ∧ st_kind meta ≠ FSymlink) →
  Forall utf8_part resolved → Forall good_part resolved →
  let is_repo := match fs_stat F [Normal (lit ".git")] with Ok _ => true | Err _ => false end in
  let start := (λ path, components (as_bytes path)) <$> start_path in
  let k := root_core F limits options is_repo start react resolved (new_core (default [] start_path) v) in
  let (s, r) := walk_scope (still F) limits directory options start_path visit (mkScan fresh_budget ticks v) in
  b_rules_exhausted (sc_budget s) = false →
  r = Ok (outcome_of k) ∧ sc_visitor s = k_visitor k ∧ b_expired (sc_budget s) = false.
Proof.
  intros Hreacts Hfs Hnorm Hcanon Hstat (meta & Hmeta & Hnolink) Hutf Hgood is_repo start k.
  unfold walk_scope. cbv [mbind stm_bind lift next_moment get put]. rewrite budget_check_still. cbv beta iota zeta.
  cbn [sc_budget sc_ticks sc_visitor b_expired fresh_budget m_fs still]. rewrite Hnorm. cbn [ok_or]. rewrite Hcanon, Hstat. cbn [map_err st_kind].
  rewrite throw_if_run, decide_False by by intros []. rewrite Hmeta. cbn [map_err].
  rewrite throw_if_run, decide_False by tauto. rewrite throw_if_run, decide_False.
  2: { rewrite not_false_iff_true, forallb_forall. intros c Hc. apply bool_decide_eq_true. rewrite Forall_forall in Hutf.
       apply Hutf. by apply list_elem_of_In. }
  fold is_repo. fold start. cbn [sc_ticks].
  pose proof (calm_root F limits options is_repo start react visit Hreacts Hfs resolved (new_core (default [] start_path) v) eq_refl Hutf Hgood) as Hroot.
  assert (Hrun : calm (walk_through (still F) limits options is_repo start visit resolved true) (new_core (default [] start_path) v, [], None)
    (λ out y, y.1.1 = k ∧ out = outcome_of k)).
  { eapply calm_bind; [exact Hroot|intros; apply lasting_finish|]. intros ? y Hy. eapply calm_weaken; [apply calm_finish|].
    intros out y' [-> ->]. by rewrite Hy. }
  specialize (Hrun (new_walker (default [] start_path) (mkScan fresh_budget (ticks + 1 + 1 + 1 + 1 + 1 + 1) v)) eq_refl eq_refl).
  cbn [sc_budget sc_ticks sc_visitor].
  destruct (walk_through _ _ _ _ _ _ _ _ _) as [w r]. intros Hex. destruct (Hrun Hex) as (Hq & out & -> & Hcore & ->).
  split; [done|]. split; [|exact Hq]. by rewrite <- Hcore.
Qed.
