(* ===== verification/ScanCursor.v ===== *)
(** Walking on from a cursor.

    The entries a walk meets from a cursor on are those of the walk from the beginning
    that come after it, in the same order: nothing is left out or met twice. *)

From stdpp Require Import sorting.
From S2P Require Import Prelude RustStr Errors Status Scan ScanOrder ScanWalk.
Open Scope N_scope.

(** An entry that is not on the way to the cursor. *)
Record New := mkNew { n_path : Path; n_utf8 : bool; n_raw : Raw }.
Definition new_of (i : Item) : option New :=
  match i with Entry false child utf8 raw => Some (mkNew child utf8 raw) | _ => None end.
Definition news (items : list Item) : list New := omap new_of items.
Definition new_lt (a b : New) : Prop := path_lt (n_path a) (n_path b) = true.
(** An entry that is shown has a text, and this is its path. *)
Definition honest (x : New) : Prop :=
  match n_raw x with
  | RawSeen e => n_utf8 x = true ∧ e_relative e = display_path (n_path x)
  | RawUnnamed => n_utf8 x = false
  | _ => True
  end.
Record proper (x : New) : Prop := {
  proper_good : Forall good_part (n_path x);
  proper_utf8 : n_utf8 x = true → Forall utf8_part (n_path x);
  proper_honest : honest x
}.

Lemma bind_filter {A B} (P : A → Prop) `{∀ x, Decision (P x)} (Q : B → Prop) `{∀ x, Decision (Q x)} (f g : A → list B) (l : list A) :
  (∀ x, x ∈ l → P x → f x = filter Q (g x)) → (∀ x, x ∈ l → ¬ P x → filter Q (g x) = []) →
  filter P l ≫= f = filter Q (l ≫= g).
Proof.
  intros Hyes Hno. induction l as [|x l IH]; [done|]. rewrite filter_cons, bind_cons, filter_app.
  rewrite <- IH; [|intros y Hy; by apply Hyes; right|intros y Hy; by apply Hno; right].
  destruct (decide (P x)) as [Hx|Hx].
  - rewrite bind_cons, (Hyes x); [done|by left|done].
  - rewrite (Hno x); [done|by left|done].
Qed.
Lemma sorted_filter {A} (R : relation A) (P : A → Prop) `{∀ x, Decision (P x)} (l : list A) :
  StronglySorted R l → StronglySorted R (filter P l).
Proof.
  induction 1 as [|x l _ IH Hall]; [constructor|]. rewrite filter_cons. case_decide; [|done]. constructor; [done|].
  apply Forall_forall. intros y [_ Hy]%list_elem_of_filter. rewrite Forall_forall in Hall. by apply Hall.
Qed.
Lemma sorted_app {A} (R : relation A) (l k : list A) :
  StronglySorted R l → StronglySorted R k → (∀ x y, x ∈ l → y ∈ k → R x y) → StronglySorted R (l ++ k).
Proof.
  intros Hl Hk Hlk. induction Hl as [|x l _ IH Hall]; [done|]. cbn. constructor; [apply IH; intros; apply Hlk; set_solver|].
  apply Forall_app. split; [done|]. apply Forall_forall. intros y Hy. apply Hlk; [set_solver|done].
Qed.
#[export] Instance name_lt_antisymm : AntiSymm (=) name_lt.
Proof. intros a b Hab Hba. unfold name_lt in *. by rewrite (name_compare_flip a b), Hab in Hba. Qed.
Lemma names_unique l k : StronglySorted name_lt l → StronglySorted name_lt k → (∀ x, x ∈ l ↔ x ∈ k) → l = k.
Proof.
  intros Hl Hk Hlk. apply (StronglySorted_unique name_lt); [done|done|]. apply NoDup_Permutation; [by apply names_nodup..|done].
Qed.

Section cursor.
Context `{IgnoreRules}.
Context (F : FileSystem) (limits : ScanLimits) (options : WalkOptions) (is_repo : bool) (exclude : option Gitignore).
Abbreviation items_from start := (dir_items F limits options is_repo start exclude).
Abbreviation name_from start := (name_items F limits options is_repo start exclude).
Abbreviation raw_from start := (raw_at F options is_repo start exclude).

Lemma raw_dir start rules dir name : is_dir_item (raw_from start rules dir name) = is_dir_item (raw_from None rules dir name).
Proof using Type.
  unfold raw_at. destruct (kind_at F _); [|done]. destruct (excluded_by _ _ _ _ _ _); [done|]. by destruct (from_utf8 name).
Qed.
Lemma raw_same start rules dir name :
  positioning options start (dir ++ [Normal name]) = false → raw_from start rules dir name = raw_from None rules dir name.
Proof using Type. intros Hp. unfold raw_at. by rewrite Hp. Qed.

Lemma names_from start dir entries :
  dir_names start dir entries = filter (λ name, passed start (dir ++ [Normal name]) = false) (dir_names None dir entries).
Proof using Type.
  apply names_unique; [apply dir_names_sorted|apply sorted_filter, dir_names_sorted|]. intros x.
  rewrite list_elem_of_filter, !dir_names_elem. cbn. tauto.
Qed.

(** What [below] gives for a directory lies in it. *)
Definition inside (below : list DirRules → Path → N → list Item) : Prop :=
  ∀ start_rules dir depth x, x ∈ news (below start_rules dir depth) → ∃ q, q ≠ [] ∧ n_path x = dir ++ q.
(** From [start], [below'] gives what [below] gives, less what is up to the cursor. *)
Definition resumes (start : option Path) (below' below : list DirRules → Path → N → list Item) : Prop :=
  ∀ rules dir depth, news (below' rules dir depth) = filter (λ x, positioning options start (n_path x) = false) (news (below rules dir depth)).

Definition deeper (below : list DirRules → Path → N → list Item) (rules : list DirRules) (dir : Path) (depth : N) (name : list N)
    : list Item :=
  if is_dir_item (raw_from None rules dir name) && o_recursive options then
    if decide (l_depth limits <= depth + 1) then [TooDeep] else below rules (dir ++ [Normal name]) (depth + 1)
  else [].
Lemma news_name start below rules dir depth name :
  news (name_from start (below rules) rules dir depth name) =
  (if positioning options start (dir ++ [Normal name]) then []
   else [mkNew (dir ++ [Normal name]) (bool_decide (is_Some (from_utf8 name))) (raw_from None rules dir name)])
  ++ news (deeper below rules dir depth name).
Proof using Type.
  unfold name_items, deeper. cbv zeta. rewrite raw_dir.
  destruct (positioning options start (dir ++ [Normal name])) eqn:Hp; cbn [news omap list_omap new_of app]; [done|].
  by rewrite raw_same.
Qed.
Lemma news_app a b : news (a ++ b) = news a ++ news b.
Proof using Type. apply omap_app. Qed.
Lemma news_bind {A} (f : A → list Item) l : news (l ≫= f) = l ≫= (λ x, news (f x)).
Proof using Type. induction l as [|x l IH]; [done|]. by rewrite !bind_cons, news_app, IH. Qed.

Lemma deeper_inside below rules dir depth name x :
  inside below → x ∈ news (deeper below rules dir depth name) → ∃ q, q ≠ [] ∧ n_path x = (dir ++ [Normal name]) ++ q.
Proof using Type.
  intros Hin. unfold deeper. destruct (_ && _); [|intros []%elem_of_nil]. destruct (decide _); [intros []%elem_of_nil|]. apply Hin.
Qed.
Lemma deeper_resumes start below' below rules dir depth name :
  resumes start below' below →
  news (deeper below' rules dir depth name) = filter (λ x, positioning options start (n_path x) = false) (news (deeper below rules dir depth name)).
Proof using Type. intros Hr. unfold deeper. destruct (_ && _); [|done]. destruct (decide _); [done|]. apply Hr. Qed.

Lemma passed_positioning start child q : passed start child = true → positioning options start (child ++ q) = true.
Proof using Type.
  unfold passed, positioning. destruct start as [s|]; [|done]. cbn. intros [Hlt Hs%negb_true_iff]%andb_true_iff.
  by rewrite (passed_below child q s Hlt Hs).
Qed.

Lemma entry_resumes start below' below rules dir depth :
  inside below → resumes start below' below →
  news (entry_items F limits options is_repo start exclude below' rules dir depth) =
  filter (λ x, positioning options start (n_path x) = false) (news (entry_items F limits options is_repo None exclude below rules dir depth)).
Proof using Type.
  intros Hin Hr. unfold entry_items. destruct (fs_dir F dir) as [entries|]; [|done]. cbn [news omap list_omap new_of].
  change (omap new_of ?l) with (news l). rewrite !news_bind, names_from. apply bind_filter; intros name _ Hp.
  - rewrite !news_name, filter_app, (deeper_resumes _ _ _ _ _ _ _ Hr). f_equal. change (positioning options None _) with false. cbn [filter list_filter].
    cbn [n_path]. by destruct (positioning options start (dir ++ [Normal name])).
  - apply not_false_iff_true in Hp. apply filter_none. intros x Hx Hx'. rewrite news_name in Hx. apply not_true_iff_false in Hx'. apply Hx'.
    apply elem_of_app in Hx as [Hx|Hx].
    + change (positioning options None _) with false in Hx. apply list_elem_of_singleton in Hx as ->. cbn [n_path].
      rewrite <- (app_nil_r (dir ++ [Normal name])). by apply passed_positioning.
    + destruct (deeper_inside _ _ _ _ _ _ Hin Hx) as (q & _ & ->). by apply passed_positioning.
Qed.
Lemma entry_inside start below rules dir depth x :
  inside below → x ∈ news (entry_items F limits options is_repo start exclude below rules dir depth) → ∃ q, q ≠ [] ∧ n_path x = dir ++ q.
Proof using Type.
  intros Hin. unfold entry_items. destruct (fs_dir F dir) as [entries|]; [|intros []%elem_of_nil]. cbn [news omap list_omap new_of].
  change (omap new_of ?l) with (news l). rewrite news_bind, list_elem_of_bind. intros (name & Hx & _). rewrite news_name in Hx.
  apply elem_of_app in Hx as [Hx|Hx].
  - destruct (positioning _ _ _); [by apply elem_of_nil in Hx|]. apply list_elem_of_singleton in Hx as ->. by exists [Normal name].
  - destruct (deeper_inside _ _ _ _ _ _ Hin Hx) as (q & Hq & ->). exists (Normal name :: q). by rewrite <- app_assoc.
Qed.

Lemma items_inside start fuel load : inside (items_from start fuel load).
Proof using Type.
  revert load. induction fuel as [|fuel IH]; intros load rules dir depth x; cbn [dir_items];
    destruct (if load then dir_rules F dir else (None, 0)) as [own lost]; cbn [news omap list_omap new_of];
    change (omap new_of ?l) with (news l); apply entry_inside; first [apply IH|intros ? ? ? ? []%elem_of_nil].
Qed.
(** The walk from a cursor. *)
Lemma items_resume start fuel load : resumes start (items_from start fuel load) (items_from None fuel load).
Proof using Type.
  revert load. induction fuel as [|fuel IH]; intros load rules dir depth; cbn [dir_items];
    destruct (if load then dir_rules F dir else (None, 0)) as [own lost]; cbn [news omap list_omap new_of];
    change (omap new_of ?l) with (news l); apply entry_resumes; first [apply IH|apply items_inside|by intros ? ? ?|intros ? ? ? ? []%elem_of_nil].
Qed.

(** *** Order *)

Definition ordered (below : list DirRules → Path → N → list Item) : Prop :=
  ∀ rules dir depth, StronglySorted new_lt (news (below rules dir depth)).
Lemma deeper_ordered below rules dir depth name : ordered below → StronglySorted new_lt (news (deeper below rules dir depth name)).
Proof using Type. intros Ho. unfold deeper. destruct (_ && _); [|constructor]. destruct (decide _); [constructor|]. apply Ho. Qed.
Lemma name_inside start below rules dir depth name x :
  inside below → x ∈ news (name_from start (below rules) rules dir depth name) → ∃ q, n_path x = (dir ++ [Normal name]) ++ q.
Proof using Type.
  intros Hin Hx. rewrite news_name in Hx. apply elem_of_app in Hx as [Hx|Hx].
  - destruct (positioning _ _ _); [by apply elem_of_nil in Hx|]. apply list_elem_of_singleton in Hx as ->. exists []. by rewrite app_nil_r.
  - destruct (deeper_inside _ _ _ _ _ _ Hin Hx) as (q & _ & ->). by exists q.
Qed.
Lemma entry_ordered start below rules dir depth :
  inside below → ordered below → StronglySorted new_lt (news (entry_items F limits options is_repo start exclude below rules dir depth)).
Proof using Type.
  intros Hin Ho. unfold entry_items. destruct (fs_dir F dir) as [entries|]; [|constructor]. cbn [news omap list_omap new_of].
  change (omap new_of ?l) with (news l). rewrite news_bind. induction (dir_names_sorted start dir entries) as [|name names _ IH Hall]; [constructor|].
  rewrite bind_cons. apply sorted_app; [|done|].
  - rewrite news_name. apply sorted_app; [destruct (positioning _ _ _); repeat constructor|by apply deeper_ordered|].
    intros x y Hx Hy. destruct (deeper_inside _ _ _ _ _ _ Hin Hy) as (q & Hq & Hy'). unfold new_lt. rewrite Hy'.
    destruct (positioning _ _ _); [by apply elem_of_nil in Hx|]. apply list_elem_of_singleton in Hx as ->. by apply path_lt_below.
  - intros x y Hx (name' & Hy & Hname)%list_elem_of_bind. apply name_inside in Hx as [q Hx]; [|done]. apply name_inside in Hy as [r Hy]; [|done].
    unfold new_lt. rewrite Hx, Hy, <- !app_assoc, path_lt_app. apply path_lt_names. left. rewrite Forall_forall in Hall. by apply Hall.
Qed.
Lemma items_ordered start fuel load : ordered (items_from start fuel load).
Proof using Type.
  revert load. induction fuel as [|fuel IH]; intros load rules dir depth; cbn [dir_items];
    destruct (if load then dir_rules F dir else (None, 0)) as [own lost]; cbn [news omap list_omap new_of];
    change (omap new_of ?l) with (news l); apply entry_ordered; first [apply IH|apply items_inside|intros ? ? ?; constructor|intros ? ? ? ? []%elem_of_nil].
Qed.

(** *** Names *)

Context (Hfs : good_names_fs F).
Definition sane (below : list DirRules → Path → N → list Item) : Prop :=
  ∀ rules dir depth, Forall utf8_part dir → Forall good_part dir → Forall proper (news (below rules dir depth)).

Lemma raw_honest rules dir name : honest (mkNew (dir ++ [Normal name]) (bool_decide (is_Some (from_utf8 name))) (raw_from None rules dir name)).
Proof using Type.
  unfold honest, raw_at. cbn [n_raw n_utf8 n_path]. destruct (kind_at F _) as [kind|]; [|done]. destruct (excluded_by _ _ _ _ _ _); [done|].
  destruct (from_utf8 name) as [part|]; [|by apply bool_decide_eq_false; intros []]. split; [|done]. apply bool_decide_eq_true. by eexists.
Qed.
Lemma raw_text start rules dir name : is_dir_item (raw_from start rules dir name) = true → is_Some (from_utf8 name) ∧ kind_at F (dir ++ [Normal name]) = Some FDirectory.
Proof using Type.
  unfold raw_at. destruct (kind_at F _) as [kind|]; [|done]. destruct (excluded_by _ _ _ _ _ _); [done|].
  destruct (from_utf8 name) as [part|]; [|done]. cbn. intros Hk%bool_decide_eq_true. subst. by split; [eexists|].
Qed.
Lemma entry_proper start below rules dir depth :
  sane below → Forall utf8_part dir → Forall good_part dir →
  Forall proper (news (entry_items F limits options is_repo start exclude below rules dir depth)).
Proof using Hfs.
  intros Hb Hutf Hgood. unfold entry_items. destruct (fs_dir F dir) as [entries|] eqn:Hdir; [|constructor]. cbn [news omap list_omap new_of].
  change (omap new_of ?l) with (news l). apply Forall_forall. intros x. rewrite news_bind, list_elem_of_bind. intros (name & Hx & Hname).
  apply dir_names_elem in Hname as [Hname _]. assert (Hpart : good_part (Normal name)).
  { exists name. split; [done|]. by apply (proj1 (Forall_forall _ _) (Hfs _ _ Hdir)). }
  rewrite news_name in Hx. apply elem_of_app in Hx as [Hx|Hx].
  - destruct (positioning _ _ _); [by apply elem_of_nil in Hx|]. apply list_elem_of_singleton in Hx as ->. split; cbn [n_path n_utf8].
    + apply Forall_app. by split; [|constructor].
    + intros Htext%bool_decide_eq_true. apply Forall_app. split; [done|]. by constructor.
    + apply raw_honest.
  - unfold deeper in Hx. destruct (_ && _) eqn:Hd; [|by apply elem_of_nil in Hx]. apply andb_true_iff in Hd as [[Htext _]%raw_text _].
    destruct (decide _); [by apply elem_of_nil in Hx|]. revert x Hx. apply Forall_forall.
    apply Hb; (apply Forall_app; split; [done|by constructor]).
Qed.
Lemma items_proper start fuel load : sane (items_from start fuel load).
Proof using Hfs.
  revert load. induction fuel as [|fuel IH]; intros load rules dir depth Hutf Hgood; cbn [dir_items];
    destruct (if load then dir_rules F dir else (None, 0)) as [own lost]; cbn [news omap list_omap new_of];
    change (omap new_of ?l) with (news l); apply entry_proper; first [done|apply IH|intros ? ? ? _ _; constructor].
Qed.

(** Every directory can be listed. *)
Context (Hlist : ∀ dir len, fs_stat F dir = Ok (mkMeta FDirectory len) → is_Some (fs_dir F dir)).
Definition listable (below : list DirRules → Path → N → list Item) : Prop :=
  ∀ rules dir depth, kind_at F dir = Some FDirectory → Unlisted ∉ below rules dir depth.
Lemma entry_listable start below rules dir depth :
  listable below → kind_at F dir = Some FDirectory → Unlisted ∉ entry_items F limits options is_repo start exclude below rules dir depth.
Proof using Hlist.
  intros Hb Hdir. unfold entry_items. assert (is_Some (fs_dir F dir)) as [entries ->].
  { unfold kind_at in Hdir. destruct (fs_stat F dir) as [[kind len]|] eqn:Hs; [|done]. injection Hdir as Hdir. cbn in Hdir. subst. by eapply Hlist. }
  intros [Hx|Hx]%elem_of_cons; [done|]. apply list_elem_of_bind in Hx as (name & Hx & _). unfold name_items in Hx. cbv zeta in Hx.
  apply elem_of_cons in Hx as [Hx|Hx]; [done|]. destruct (_ && _) eqn:Hd; [|by apply elem_of_nil in Hx].
  apply andb_true_iff in Hd as [[_ Hk]%raw_text _]. destruct (decide _); [by apply list_elem_of_singleton in Hx|]. by apply Hb in Hx.
Qed.
Lemma items_listable start fuel load : listable (items_from start fuel load).
Proof using Hlist.
  revert load. induction fuel as [|fuel IH]; intros load rules dir depth Hdir; cbn [dir_items];
    destruct (if load then dir_rules F dir else (None, 0)) as [own lost]; intros [Hx|Hx]%elem_of_cons; try done; revert Hx;
    apply entry_listable; first [done|apply IH|intros ? ? ? _ []%elem_of_nil].
Qed.
End cursor.

(** What is met after [x] is what comes after it in order. *)
Lemma resume_suffix options a x b :
  o_resume_file options = false → StronglySorted new_lt (a ++ x :: b) →
  filter (λ y, positioning options (Some (n_path x)) (n_path y) = false) (a ++ x :: b) = b.
Proof.
  intros Hopt Hs. unfold positioning. cbn [from_option]. rewrite filter_app, filter_cons_False.
  2: { rewrite bool_decide_eq_true_2, Hopt by done. by rewrite orb_true_r. }
  rewrite (filter_none _ a), (filter_every _ b); [done|..].
  - apply StronglySorted_app in Hs as (_ & _ & Hs). apply StronglySorted_inv in Hs as [_ Hs]. eapply Forall_impl; [exact Hs|]. intros y Hy.
    apply orb_false_iff. rewrite (path_lt_asym _ _ Hy). split; [done|]. apply andb_false_iff. left. apply bool_decide_eq_false. intros He.
    unfold new_lt in Hy. by rewrite He, path_lt_irrefl in Hy.
  - apply StronglySorted_app in Hs as (Hs & _ & _). intros y Hy. rewrite (Hs y x); [done..|by left].
Qed.
