(* ===== verification/Listing.v ===== *)
(** One page of the entries of a workspace, [workspace/listing.rs] and [workspace/page.rs]. *)

From S2P Require Import Prelude RustStr Errors Status ToolPage Scan.
Open Scope N_scope.

(** ** [page.rs] *)

Definition MAX_QUERY_BYTES : N := 1024.
Definition SCOPE_HEX_LEN : nat := 16.
Definition DEFAULT_RESULT_BYTES : N := 64 * 1024.
Definition DEFAULT_LIMIT : N := 200.
Definition MAX_LIMIT : N := 1000.

(** A string as JSON, with its quotes. *)
Definition string_len (text : str) : N := json_escaped_len text + 2.
Definition valid_query_text (query : str) : bool :=
  bool_decide (str_len query <= MAX_QUERY_BYTES) && negb (contains_char LF query) && negb (contains_char CR query).
Definition valid_scope (value : str) : bool :=
  bool_decide (str_len value = N.of_nat SCOPE_HEX_LEN) && forallb is_ascii_hexdigit (as_bytes value).

(** ** Requests and results *)

Record WorkspaceListCursor := mkListCursor { lc_path : str; lc_scope : str }.
Record WorkspaceFilesRequest := mkFilesRequest {
  fr_session : N;
  fr_directory : option str;
  fr_recursive : option bool;
  fr_query : option str;
  fr_cursor : option WorkspaceListCursor;
  fr_limit : option N;
  fr_max_bytes : option N
}.
Record WorkspaceFileEntry := mkFileEntry { fe_path : str; fe_kind : WorkspaceFileKind; fe_size : option N }.
Record WorkspaceFilesResult := mkFilesResult {
  fs_directory : str;
  fs_entries : list WorkspaceFileEntry;
  fs_next_cursor : option WorkspaceListCursor;
  fs_truncated : bool;
  fs_scan_complete : bool;
  fs_stopped_by : WorkspaceScanStop;
  fs_skipped_count : N;
  fs_observed_at : N
}.

(** The text of a session, SHA-256 in hexadecimal, and the lengths of values as JSON. *)
Class ListingEncoding := {
  session_text : N → str;
  sha256_hex : list N → str;
  file_entry_len : WorkspaceFileEntry → N;
  files_result_len : WorkspaceFilesResult → N
}.

Section listing.
Context `{IgnoreRules} `{ListingEncoding}.

Definition scope_digest (parts : list str) : str :=
  take SCOPE_HEX_LEN (sha256_hex (parts ≫= λ part, rev (u64_bytes (str_len part)) ++ as_bytes part)).

Definition r_directory (q : WorkspaceFilesRequest) : str := default [] (fr_directory q).
Definition r_recursive (q : WorkspaceFilesRequest) : bool := default false (fr_recursive q).
Definition r_limit (q : WorkspaceFilesRequest) : N := default DEFAULT_LIMIT (fr_limit q).
Definition r_max_bytes (q : WorkspaceFilesRequest) : N := default DEFAULT_RESULT_BYTES (fr_max_bytes q).
Definition r_scope (q : WorkspaceFilesRequest) (directory : str) : str :=
  scope_digest [lit "workspace.files"; session_text (fr_session q); directory; if r_recursive q then lit "1" else lit "0";
                default [] (fr_query q)].

(** The directory as a page shows it. *)
Definition shown_directory (q : WorkspaceFilesRequest) : result AgentError str :=
  relative ← ok_or (normalize_relative (r_directory q) true) InvalidArguments;
  Ok (display_path relative).

Definition validate (q : WorkspaceFilesRequest) : result AgentError unit :=
  _ ← match fr_directory q with
      | Some ((_ :: _) as directory) =>
          _ ← ensure (str_len directory <= MAX_PATH_BYTES) InvalidArguments;
          _ ← ok_or (normalize_relative directory false) InvalidArguments;
          Ok tt
      | _ => Ok tt
      end;
  directory ← shown_directory q;
  _ ← ensure (from_option valid_query_text true (fr_query q) = true) InvalidArguments;
  _ ← ensure (from_option (λ limit, bool_decide (1 <= limit <= MAX_LIMIT)) true (fr_limit q) = true) InvalidArguments;
  _ ← ensure (validate_result_bytes (fr_max_bytes q) = true) InvalidArguments;
  match fr_cursor q with
  | None => Ok tt
  | Some cursor =>
      ensure (valid_scope (lc_scope cursor) = true ∧ lc_scope cursor = r_scope q directory ∧
              str_len (lc_path cursor) <= MAX_PATH_BYTES ∧ is_Some (normalize_relative (lc_path cursor) true)) InvalidArguments
  end.

(** ** One page *)

Record FilesPlan := mkPlan {
  pl_directory : str;
  pl_recursive : bool;
  pl_query : option str;
  pl_limit : N;
  pl_max_bytes : N;
  pl_scope : str;
  pl_start_path : option str
}.
Definition plan_of (q : WorkspaceFilesRequest) (directory : str) : FilesPlan :=
  mkPlan directory (r_recursive q) (query ← fr_query q; if decide (query = []) then None else Some query)
    (r_limit q) (r_max_bytes q) (r_scope q directory) (lc_path <$> fr_cursor q).

(** What the visitor keeps: the entries, their bytes, and what was skipped or dropped. *)
Record Page := mkPage { pg_entries : list WorkspaceFileEntry; pg_used : N; pg_skipped : N; pg_dropped : N }.
Definition empty_page : Page := mkPage [] 0 0 0.

Definition envelope_probe (directory : str) : WorkspaceFilesResult :=
  mkFilesResult directory [] (Some (mkListCursor [] (replicate SCOPE_HEX_LEN 102))) true false StopDeadline u64_max u64_max.
Definition envelope_bytes (directory : str) (max_bytes : N) : result AgentError N :=
  let size := files_result_len (envelope_probe directory) in
  if decide (max_bytes <= size) then Err InvalidArguments else Ok size.

Section page.
Context (env : N → Moment) (limits : ScanLimits).
Abbreviation B := (stm (Scan Page) AgentError).

Definition set_page (p : Page) : B unit := modify (λ s, mkScan (sc_budget s) (sc_ticks s) p).
Definition visit_entry (plan : FilesPlan) (content_budget : N) (entry : WalkEntry) : B Visit :=
  available ← byte_available limits (str_len (e_relative entry));
  if negb available then mret (StopBefore StopBytes) else
  s ← get;
  let p := sc_visitor s in
  if negb (from_option (λ query, contains query (e_relative entry)) true (pl_query plan)) then
    _ ← set_page (mkPage (pg_entries p) (pg_used p) (pg_skipped p + 1) (pg_dropped p));
    mret Next
  else
  let record := mkFileEntry (e_relative entry) (e_kind entry) (e_size entry) in
  let encoded := file_entry_len record in
  if decide (content_budget < pg_used p + encoded + 1 + string_len (e_relative entry)) then
    if decide (pg_entries p = []) then
      _ ← set_page (mkPage (pg_entries p) (pg_used p) (pg_skipped p + 1) (pg_dropped p + 1));
      mret Next
    else mret (StopBefore StopPage)
  else
  let p := mkPage (pg_entries p ++ [record]) (pg_used p + (encoded + 1)) (pg_skipped p) (pg_dropped p) in
  _ ← set_page p;
  mret (if decide (pl_limit plan <= lenN (pg_entries p)) then Stop StopPage else Next).

Definition list_options (plan : FilesPlan) : WalkOptions := mkOptions (pl_recursive plan) true true false.
(** The cursor of a page, if its path fits what is left. *)
Definition next_cursor (plan : FilesPlan) (room : N) (next : option str) : option WorkspaceListCursor :=
  path ← next;
  if decide (str_len path <= MAX_PATH_BYTES ∧ string_len path - 2 <= room) then Some (mkListCursor path (pl_scope plan)) else None.
(** The answer once the walk is over. *)
Definition files_result (plan : FilesPlan) (content_budget : N) (p : Page) (outcome : WalkOutcome) (now : N) : WorkspaceFilesResult :=
  let dropped := pg_dropped p + out_unrepresentable outcome + out_unreadable outcome in
  mkFilesResult (pl_directory plan) (pg_entries p)
    (next_cursor plan (content_budget - pg_used p) (out_next outcome))
    (bool_decide (out_reason outcome ≠ StopEnd) || bool_decide (0 < dropped))
    (bool_decide (out_reason outcome = StopEnd) && bool_decide (dropped = 0))
    (out_reason outcome)
    (pg_skipped p + (out_unrepresentable outcome + out_unreadable outcome + out_excluded outcome))
    now.
Definition scan_files (plan : FilesPlan) (now : N) : B WorkspaceFilesResult :=
  envelope ← lift (envelope_bytes (pl_directory plan) (pl_max_bytes plan));
  let content_budget := pl_max_bytes plan - envelope in
  outcome ← walk_scope env limits (pl_directory plan) (list_options plan) (pl_start_path plan) (visit_entry plan content_budget);
  s ← get;
  mret (files_result plan content_budget (sc_visitor s) outcome now).

(** [files], on the worker [run_scan] starts. *)
Definition files (q : WorkspaceFilesRequest) (now : N) : B WorkspaceFilesResult :=
  _ ← lift (validate q);
  directory ← lift (shown_directory q);
  _ ← budget_check env;
  scan_files (plan_of q directory) now.
Definition new_scan : Scan Page := mkScan fresh_budget 0 empty_page.
End page.
End listing.
