(* ===== verification/ListingPage.v ===== *)
(** What one page of a listing holds.

    The visitor of [Listing] runs over the items of [ScanWalk]: a page is a prefix of
    what there is to list from its cursor on, cut where the next page begins. *)

From stdpp Require Import sorting.
From S2P Require Import Prelude RustStr Errors Status ToolPage Scan ScanOrder ScanWalk ScanCursor Listing.
Open Scope N_scope.

Section page.
Context `{IgnoreRules} `{ListingEncoding}.
Context (limits : ScanLimits) (start : option Path) (plan : FilesPlan) (content : N).

(** ** The visitor as a function *)

Definition record_of (e : WalkEntry) : WorkspaceFileEntry := mkFileEntry (e_relative e) (e_kind e) (e_size e).
Definition matches_query (e : WalkEntry) : bool := from_option (λ query, contains query (e_relative e)) true (pl_query plan).
Definition cost (e : WalkEntry) : N := file_entry_len (record_of e) + 1.
Definition key_len (e : WalkEntry) : N := string_len (e_relative e).
(** What a listing shows: what matches and fits an empty page. *)
Definition wanted (e : WalkEntry) : Prop := matches_query e = true ∧ cost e + key_len e <= content.
#[global] Instance wanted_dec e : Decision (wanted e).
Proof. unfold wanted. apply _. Defined.

Definition note_entry (e : WalkEntry) (p : Page) : Page * Visit :=
  if negb (matches_query e) then (mkPage (pg_entries p) (pg_used p) (pg_skipped p + 1) (pg_dropped p), Next)
  else if decide (content < pg_used p + file_entry_len (record_of e) + 1 + key_len e) then
    if decide (pg_entries p = []) then (mkPage (pg_entries p) (pg_used p) (pg_skipped p + 1) (pg_dropped p + 1), Next)
    else (p, StopBefore StopPage)
  else
    let p := mkPage (pg_entries p ++ [record_of e]) (pg_used p + (file_entry_len (record_of e) + 1)) (pg_skipped p) (pg_dropped p) in
    (p, if decide (pl_limit plan <= lenN (pg_entries p)) then Stop StopPage else Next).
Definition react (e : WalkEntry) (p : Page) (bytes : N) : Page * N * Visit :=
  match checked_add bytes (str_len (e_relative e)) with
  | Some total => if decide (total <= l_bytes limits) then let (p, x) := note_entry e p in (p, total, x) else (p, bytes, StopBefore StopBytes)
  | None => (p, bytes, StopBefore StopBytes)
  end.

Lemma visit_reacts : reacts react (visit_entry limits plan content).
Proof using Type.
  assert (Hvisit : ∀ e s,
    let b := sc_budget s in let '(v, bytes, x) := react e (sc_visitor s) (b_bytes b) in
    visit_entry limits plan content e s =
      (mkScan (mkBudget (b_entries b) bytes (b_rule_files b) (b_rule_bytes b) (b_rules_exhausted b) (b_expired b)) (sc_ticks s) v, Ok x)).
  { intros e [b ticks p]. unfold visit_entry, react, note_entry, byte_available. unfold mbind, stm_bind, get. cbn.
    destruct (checked_add (b_bytes b) (str_len (e_relative e))) as [total|]; [|by destruct b].
    destruct (decide (total <= l_bytes limits)); [|by destruct b]. cbn. fold (matches_query e).
    destruct (matches_query e); [|done]. cbn. fold (record_of e) (key_len e).
    destruct (decide (content < _)); [|done]. by destruct (decide (pg_entries p = [])). }
  split; intros e s.
  - specialize (Hvisit e s). cbn in Hvisit. destruct (react _ _ _) as [[v bytes] x]. by rewrite Hvisit.
  - intros _. specialize (Hvisit e s). cbn in Hvisit |- *. destruct (react _ _ _) as [[v bytes] x]. by eexists.
Qed.

(** ** A page as a prefix *)

Abbreviation step_ := (step limits start react).
Abbreviation steps_ := (steps limits start react).

Definition seen (l : list New) : list WalkEntry := omap (λ x, match n_raw x with RawSeen e => Some e | _ => None end) l.
(** The last text a walk met. *)
Fixpoint last_text (from : str) (l : list New) : str :=
  match l with [] => from | x :: l => last_text (if n_utf8 x then display_path (n_path x) else from) l end.
Lemma last_text_app from l k : last_text from (l ++ k) = last_text (last_text from l) k.
Proof using Type. revert from. induction l as [|x l IH]; intros from; cbn; auto. Qed.

Definition total_cost (es : list WorkspaceFileEntry) : N := foldr (λ e n, file_entry_len e + 1 + n) 0 es.
Lemma total_cost_app a b : total_cost (a ++ b) = total_cost a + total_cost b.
Proof using Type. induction a as [|e a IH]; [done|]. change (total_cost ((e :: a) ++ b)) with (file_entry_len e + 1 + total_cost (a ++ b)).
  rewrite IH. cbn. fold (total_cost a). lia. Qed.

(** A page that holds what is to be shown of [done]. *)
Record holds (done : list New) (p : Page) : Prop := {
  holds_entries : pg_entries p = record_of <$> filter wanted (seen done);
  holds_used : pg_used p = total_cost (pg_entries p);
  holds_room : pg_used p <= content;
  holds_key : ∀ done' x e, done = done' ++ [x] → n_raw x = RawSeen e → wanted e → pg_used p + key_len e <= content
}.
(** The walk has met [done] and goes on; a [gap] is whatever may keep it from a next page. *)
Record going (gap : Prop) (from : str) (done : list New) (k : Core Page) : Prop := {
  going_reason : k_reason k = StopEnd;
  going_next : k_next k = None;
  going_resume : k_resume k = None;
  going_last : k_last k = last_text from done;
  going_limit : lenN (pg_entries (k_visitor k)) < N.max 1 (pl_limit plan);
  going_holds : holds done (k_visitor k);
  going_first : gap ∨ done ≠ [] ∨ k_entries k = 0 ∧ k_bytes k = 0
}.
Definition page_reason (r : WorkspaceScanStop) : Prop := r = StopPage ∨ r = StopEntries ∨ r = StopBytes.
(** The walk has stopped: the page holds what is to be shown of [done], and the next page
    can begin after the last text, unless that is no progress or there is a [gap]. *)
Record halted (gap : Prop) (from : str) (done : list New) (k : Core Page) : Prop := {
  halted_reason : page_reason (k_reason k);
  halted_resume : k_resume k = None;
  halted_next : gap ∧ k_next k = None ∨
    k_next k = if core_usable start k (last_text from done) then Some (last_text from done) else None;
  halted_limit : lenN (pg_entries (k_visitor k)) <= N.max 1 (pl_limit plan);
  halted_holds : holds done (k_visitor k);
  halted_progress : gap ∨ done ≠ []
}.

Lemma seen_app a b : seen (a ++ b) = seen a ++ seen b.
Proof using Type. apply omap_app. Qed.
Lemma holds_skip done x p p' :
  holds done p → filter wanted (seen [x]) = [] → pg_entries p' = pg_entries p → pg_used p' = pg_used p → holds (done ++ [x]) p'.
Proof using Type.
  intros [He Hu Hr Hkey] Hx Hp' Hu'. split; rewrite ?Hp', ?Hu'; [|done|done|].
  - by rewrite seen_app, filter_app, Hx, app_nil_r.
  - intros done' y e [_ <-]%app_inj_tail Hraw Hw. exfalso. cbn in Hx. rewrite Hraw in Hx. by rewrite filter_cons_True in Hx.
Qed.
Lemma stop_halted gap from done reason next k :
  page_reason reason → gap ∧ next = None ∨ next = Some (last_text from done) → k_reason k = StopEnd → k_resume k = None →
  lenN (pg_entries (k_visitor k)) <= N.max 1 (pl_limit plan) → holds done (k_visitor k) → gap ∨ done ≠ [] →
  halted gap from done (core_stop start reason next k).
Proof using Type.
  intros Hreason Hnext Hr Hres Hlim Hh Hpr. unfold core_stop. rewrite decide_True by done. split; cbn; try done.
  destruct Hnext as [[Hgap ->]| ->]; [by left|]. by right.
Qed.
Lemma going_stop gap from done k reason next :
  going gap from done k → page_reason reason → gap ∧ next = None ∨ next = Some (last_text from done) → gap ∨ done ≠ [] →
  halted gap from done (core_stop start reason next k).
Proof using Type. intros [Hr Hn Hs Hl Hlim Hh Hf] Hreason Hnext Hpr. apply stop_halted; try done. lia. Qed.

Lemma note_kept done e x p :
  seen [x] = [e] → holds done p → lenN (pg_entries p) < N.max 1 (pl_limit plan) →
  let (p', v) := note_entry e p in
  match v with
  | Next => holds (done ++ [x]) p' ∧ lenN (pg_entries p') < N.max 1 (pl_limit plan)
  | Stop reason => reason = StopPage ∧ holds (done ++ [x]) p' ∧ lenN (pg_entries p') <= N.max 1 (pl_limit plan)
  | StopBefore reason => reason = StopPage ∧ p' = p
  | StopInside _ _ _ => False
  end.
Proof using Type.
  intros Hx Hh Hlim. destruct (Hh) as [He Hu Hr _]. unfold note_entry.
  assert (Hskip : ¬ wanted e → ∀ p', pg_entries p' = pg_entries p → pg_used p' = pg_used p → holds (done ++ [x]) p').
  { intros Hw p' H1 H2. eapply holds_skip; [exact Hh| |done|done]. rewrite Hx, filter_cons_False; done. }
  destruct (matches_query e) eqn:Hm; cbn [negb].
  2: { split; [apply Hskip; [intros [? _]; congruence|done|done]|done]. }
  destruct (decide (content < pg_used p + file_entry_len (record_of e) + 1 + key_len e)) as [Hbig|Hfits].
  - destruct (decide (pg_entries p = [])) as [Hempty|]; [|done]. split; [|done]. apply Hskip; [|done|done]. intros [_ Hcost].
    rewrite Hempty in Hu. cbn in Hu. unfold cost in Hcost. lia.
  - set (p' := mkPage _ _ _ _).
    assert (Hp' : holds (done ++ [x]) p').
    { assert (wanted e) by (split; [done|unfold cost; lia]). split; cbn.
      - rewrite seen_app, filter_app, Hx, filter_cons_True by done. cbn. by rewrite fmap_app, He.
      - rewrite total_cost_app, <- Hu. cbn. lia.
      - lia.
      - intros done' y e' [_ <-]%app_inj_tail Hraw _. cbn in Hx. rewrite Hraw in Hx. injection Hx as ->. lia. }
    destruct (decide (pl_limit plan <= lenN (pg_entries p'))) as [Hfull|Hmore].
    + split; [done|]. split; [done|]. cbn. rewrite lenN_app, lenN_cons, lenN_nil. lia.
    + split; [done|]. lia.
Qed.

(** One item. *)
Lemma going_same gap from done k k' :
  going gap from done k → k_reason k' = k_reason k → k_next k' = k_next k → k_resume k' = k_resume k → k_last k' = k_last k →
  k_visitor k' = k_visitor k → gap ∨ done ≠ [] ∨ k_entries k' = k_entries k ∧ k_bytes k' = k_bytes k → going gap from done k'.
Proof using Type.
  intros [] Hr Hn Hs Hl Hv Hf. split; rewrite ?Hr, ?Hn, ?Hs, ?Hl, ?Hv; try done. destruct Hf as [?|[?|[-> ->]]]; auto.
Qed.
Lemma going_pass gap from done x k k' :
  going gap from done k → seen [x] = [] → k_reason k' = k_reason k → k_next k' = k_next k → k_resume k' = k_resume k →
  k_last k' = last_text (last_text from done) [x] → k_visitor k' = k_visitor k → going gap from (done ++ [x]) k'.
Proof using Type.
  intros [Hr Hn Hs Hl Hlim Hh Hf] Hx Hr' Hn' Hs' Hl' Hv'. split; rewrite ?Hr', ?Hn', ?Hs', ?Hl', ?Hv'; try done.
  - by rewrite last_text_app.
  - eapply holds_skip; [exact Hh|by rewrite Hx|done|done].
  - right. left. by destruct done.
Qed.

(** The text of an entry is within the limits. *)
Definition short (x : New) : Prop := ∀ e, n_raw x = RawSeen e → str_len (e_relative e) <= MAX_PATH_BYTES.

Lemma step_item (gap : Prop) from done i k :
  going gap from done k → (∀ x, new_of i = Some x → honest x ∧ (short x ∨ gap)) →
  (i = Unlisted → gap) → (l_entries limits = 0 → gap) → (l_bytes limits < MAX_PATH_BYTES → gap) →
  match new_of i with
  | None => going gap from done (step_ k i) ∨ halted gap from done (step_ k i)
  | Some x => going gap from (done ++ [x]) (step_ k i) ∨ halted gap from (done ++ [x]) (step_ k i) ∨ halted gap from done (step_ k i)
  end.
Proof using Type.
  intros Hk Hnew Hgap Hentries Hbytes. pose proof (going_reason _ _ _ _ Hk) as Hreason. unfold step.
  assert (core_stopped k = false) as -> by (apply bool_decide_eq_false; rewrite Hreason; tauto).
  destruct i as [n| |before child utf8 raw|].
  - left. by eapply going_same; eauto.
  - cbn [new_of]. specialize (Hgap eq_refl). destruct (decide _); [right|left; by eapply going_same; eauto].
    apply going_stop; [by eapply going_same; eauto|right; by left|by left|by left].
  - destruct before.
    { cbn [new_of]. left. destruct raw; cbn [core_examine core_note negb andb]; by eapply going_same; eauto. }
    specialize (Hnew (mkNew child utf8 raw) eq_refl). cbn [new_of]. set (x := mkNew child utf8 raw) in *. destruct Hnew as [Hhonest Hshort].
    pose proof (going_last _ _ _ _ Hk) as Hlast. pose proof (going_first _ _ _ _ Hk) as Hfirst.
    destruct (decide (l_entries limits <= k_entries k)) as [Hfull|_].
    { right. right. apply going_stop; [done|right; by left|right; by rewrite Hlast|]. destruct Hfirst as [?|[?|[Hzero _]]]; [by left|by right|].
      left. apply Hentries. lia. }
    assert (Hnote : seen [x] = [] → ∀ k', k_reason k' = k_reason k → k_next k' = k_next k → k_resume k' = k_resume k → k_last k' = k_last k →
      k_visitor k' = k_visitor k → going gap from (done ++ [x]) (core_note false utf8 child k')).
    { intros Hx k' E1 E2 E3 E4 E5. unfold core_note. cbn [negb andb]. eapply going_pass; [exact Hk|exact Hx|..]; cbn; destruct utf8; try done.
      cbn. by rewrite E4. }
    destruct raw as [| | |e]; cbn [core_examine].
    + left. by apply Hnote.
    + left. by apply Hnote.
    + left. eapply going_pass; [exact Hk|done|done|done|done| |done]. cbn in Hhonest |- *. by rewrite Hhonest.
    + destruct Hhonest as [Hutf Hpath]. cbn in Hutf, Hpath. specialize (λ Hs : short x, Hs e eq_refl) as Hlen.
      pose proof (note_kept done e x (k_visitor k) eq_refl (going_holds _ _ _ _ Hk) (going_limit _ _ _ _ Hk)) as Hnoted.
      assert (Hbefore : ∀ v bytes reason, v = k_visitor k → page_reason reason → gap ∨ done ≠ [] →
        halted gap from done (core_apply start (StopBefore reason) (e_relative e) (core_visit v bytes (core_claim k)))).
      { intros v bytes reason -> Hr Hpr. cbn. apply stop_halted; try done; [right; by rewrite <- Hlast|apply (going_resume _ _ _ _ Hk)| |apply (going_holds _ _ _ _ Hk)].
        pose proof (going_limit _ _ _ _ Hk). cbn. lia. }
      assert (Hfull : (l_bytes limits < k_bytes k + str_len (e_relative e) ∨ usize_max < k_bytes k + str_len (e_relative e)) → gap ∨ done ≠ []).
      { destruct Hfirst as [?|[?|[_ ->]]]; [by left|by right|]. destruct Hshort as [Hs|]; [|by left]. specialize (Hlen Hs).
        intros [Hb|Hb]; [left; apply Hbytes; lia|]. unfold MAX_PATH_BYTES, usize_max, u64_max in *. lia. }
      assert (Htext : last_text from (done ++ [x]) = e_relative e) by (rewrite last_text_app; cbn; by rewrite Hutf, Hpath).
      unfold react. cbn [k_visitor core_claim k_bytes]. unfold checked_add. destruct (decide (k_bytes k + _ <= usize_max)) as [Husize|Husize].
      2: { right; right; apply Hbefore; [done|by right; right|apply Hfull; right; lia]. }
      destruct (decide (_ <= l_bytes limits)) as [Hlb|Hlb]; [|right; right; apply Hbefore; [done|by right; right|apply Hfull; left; lia]].
      destruct (note_entry e (k_visitor k)) as [p' [|reason|reason line offset|reason]] eqn:Hne; [| |done|].
      * left. destruct Hnoted as [Hh Hlim]. destruct Hk. split; cbn; try done. right. left. by destruct done.
      * right. left. destruct Hnoted as (-> & Hh & Hlim). destruct Hk. cbn. apply stop_halted; try done; [by left|right; by rewrite Htext|right; by destruct done].
      * right. right. destruct Hnoted as [-> ->]. apply Hbefore; [done|by left|]. right. intros ->. pose proof (holds_entries _ _ (going_holds _ _ _ _ Hk)) as He.
        unfold note_entry in Hne. rewrite He in Hne. destruct (negb _); [done|]. by destruct (decide _); [destruct (decide _)|destruct (decide _)].
  - left. by eapply going_same; eauto.
Qed.

Lemma steps_page (gap : Prop) from l done k :
  going gap from done k → Forall honest (news l) → (Forall short (news l) ∨ gap) →
  (Unlisted ∈ l → gap) → (l_entries limits = 0 → gap) → (l_bytes limits < MAX_PATH_BYTES → gap) →
  going gap from (done ++ news l) (steps_ l k) ∨ ∃ d r, news l = d ++ r ∧ halted gap from (done ++ d) (steps_ l k).
Proof using Type.
  intros Hk Hhonest Hshort Hgap Hentries Hbytes. revert done k Hk.
  induction l as [|i l IH]; intros done k Hk; [left; by rewrite app_nil_r|].
  assert (Hi : ∀ x, new_of i = Some x → honest x ∧ (short x ∨ gap)).
  { intros x Hx. cbn in Hhonest, Hshort. rewrite Hx in Hhonest, Hshort. apply Forall_inv in Hhonest. split; [done|].
    destruct Hshort as [Hs|]; [left; by apply Forall_inv in Hs|by right]. }
  assert (Hl : Forall honest (news l) ∧ (Forall short (news l) ∨ gap)).
  { cbn in Hhonest, Hshort. destruct (new_of i); [|done]. apply Forall_inv_tail in Hhonest. split; [done|].
    destruct Hshort as [Hs|]; [left; by apply Forall_inv_tail in Hs|by right]. }
  destruct Hl as [Hl1 Hl2]. specialize (IH Hl1 Hl2 ltac:(intros; apply Hgap; by right)).
  pose proof (step_item gap from done i k Hk Hi ltac:(intros ->; apply Hgap; by left) Hentries Hbytes) as Hstep.
  specialize (IH (match new_of i with Some x => done ++ [x] | None => done end) (step_ k i)).
  assert (Hhalt : ∀ done', halted gap from done' (step_ k i) → steps_ l (step_ k i) = step_ k i).
  { intros done' Hh. apply steps_stopped. apply bool_decide_eq_true. destruct (halted_reason _ _ _ _ Hh) as [->|[->| ->]]; done. }
  cbn [steps foldl news omap list_omap]. fold (news l). destruct (new_of i) as [x|].
  - destruct Hstep as [Hgo|[Hh|Hh]].
    + destruct (IH Hgo) as [Hgo'|(d & r & Hd & Hh)]; [left; by rewrite <- app_assoc in Hgo'|].
      right. exists (x :: d), r. rewrite Hd. split; [done|]. by rewrite <- app_assoc in Hh.
    + right. exists [x], (news l). split; [done|]. unfold steps in Hhalt. by rewrite (Hhalt _ Hh).
    + right. exists [], (x :: news l). split; [done|]. rewrite app_nil_r. unfold steps in Hhalt. by rewrite (Hhalt _ Hh).
  - destruct Hstep as [Hgo|Hh]; [by apply IH|].
    right. exists [], (news l). split; [done|]. rewrite app_nil_r. unfold steps in Hhalt. by rewrite (Hhalt _ Hh).
Qed.
End page.
