(* ===== verification/ListingFollow.v ===== *)
(** Following the cursors of a listing.

    Over files that do not change, the pages a client is given one after the other are the
    listing of the directory cut in pieces: nothing is left out, nothing is given twice. *)

From stdpp Require Import sorting.
From S2P Require Import Prelude RustStr Errors Status ToolPage Scan ScanOrder ScanWalk ScanCursor Listing ListingPage.
Open Scope N_scope.

(** What the encodings promise: SHA-256 in hexadecimal, and an answer no longer than the
    probe with its entries and the path of its cursor. *)
Class ListingEncodingLaws `{ListingEncoding} := {
  sha256_hex_len bytes : length (sha256_hex bytes) = 64%nat;
  sha256_hex_digits bytes : Forall (λ c, c ∈ lit "0123456789abcdef") (sha256_hex bytes);
  files_result_len_bound r :
    fs_skipped_count r <= u64_max → fs_observed_at r <= u64_max → fs_scan_complete r = negb (fs_truncated r) →
    (∀ c, fs_next_cursor r = Some c → valid_scope (lc_scope c) = true) →
    files_result_len r <= files_result_len (envelope_probe (fs_directory r)) + total_cost (fs_entries r)
      + from_option (λ c, string_len (lc_path c) - 2) 0 (fs_next_cursor r)
}.

Section follow.
Context `{IgnoreRules} `{ListingEncoding}.
Context (F : FileSystem) (limits : ScanLimits) (now : N).

(** The request for the next page. *)
Definition with_cursor (q : WorkspaceFilesRequest) (c : WorkspaceListCursor) : WorkspaceFilesRequest :=
  mkFilesRequest (fr_session q) (fr_directory q) (fr_recursive q) (fr_query q) (Some c) (fr_limit q) (fr_max_bytes q).
Definition page_at (q : WorkspaceFilesRequest) : Scan Page * result AgentError WorkspaceFilesResult :=
  files (still F) limits q now new_scan.
(** A client that asks for pages until there is no cursor. *)
Fixpoint follow (fuel : nat) (q : WorkspaceFilesRequest) : list (Scan Page * result AgentError WorkspaceFilesResult) :=
  let page := page_at q in
  page ::
  match fuel, page.2 with
  | S fuel, Ok r => match fs_next_cursor r with Some c => follow fuel (with_cursor q c) | None => [] end
  | _, _ => []
  end.

(** ** The listing *)

Definition repository : bool := match fs_stat F [Normal (lit ".git")] with Ok _ => true | Err _ => false end.
(** A directory that is there, with names a file system can have. *)
Record served (relative resolved : Path) : Prop := {
  sv_names : good_names_fs F;
  sv_canonical : fs_canonical F relative = Ok (Some resolved);
  sv_directory : ∃ len, fs_stat F resolved = Ok (mkMeta FDirectory len);
  sv_requested : ∃ meta, fs_stat F relative = Ok meta ∧ st_kind meta ≠ FSymlink;
  sv_utf8 : Forall utf8_part resolved;
  sv_good : Forall good_part resolved
}.
Definition start_of (plan : FilesPlan) : option Path := (λ path, components (as_bytes path)) <$> pl_start_path plan.
(** What there is in the directory, in order, and what is left of it from a cursor on. *)
Definition whole (resolved : Path) (plan : FilesPlan) : list New :=
  if root_excluded F repository resolved then [] else news (root_items F limits (list_options plan) repository None resolved).
Definition todo (resolved : Path) (plan : FilesPlan) : list New :=
  filter (λ x, positioning (list_options plan) (start_of plan) (n_path x) = false) (whole resolved plan).
Definition listing (plan : FilesPlan) (content : N) (l : list New) : list WorkspaceFileEntry :=
  record_of <$> filter (wanted plan content) (seen l).

(** Nothing keeps a page from saying where the next one begins. *)
Record plain (plan : FilesPlan) (content : N) (l : list New) : Prop := {
  pn_listable : ∀ dir len, fs_stat F dir = Ok (mkMeta FDirectory len) → is_Some (fs_dir F dir);
  pn_entries : 0 < l_entries limits;
  pn_bytes : MAX_PATH_BYTES <= l_bytes limits;
  pn_all : Forall (λ x, n_utf8 x = true ∧ str_len (display_path (n_path x)) <= MAX_PATH_BYTES ∧
                        ∃ e, n_raw x = RawSeen e ∧ wanted plan content e) l
}.

Section page.
Context (relative resolved : Path) (Hserved : served relative resolved).

Lemma whole_proper plan : Forall proper (whole resolved plan).
Proof using Hserved.
  unfold whole, root_items. destruct (root_excluded _ _ _); [constructor|]. destruct (root_rules _ _ _) as [[rules exclude] lost].
  apply items_proper; [apply (sv_names _ _ Hserved)|apply (sv_utf8 _ _ Hserved)|apply (sv_good _ _ Hserved)].
Qed.
Lemma whole_sorted plan : StronglySorted new_lt (whole resolved plan).
Proof using Type.
  unfold whole, root_items. destruct (root_excluded _ _ _); [constructor|]. destruct (root_rules _ _ _) as [[rules exclude] lost]. apply items_ordered.
Qed.
Lemma whole_below plan x : x ∈ whole resolved plan → n_path x ≠ [].
Proof using Type.
  unfold whole, root_items. destruct (root_excluded _ _ _); [intros []%elem_of_nil|]. destruct (root_rules _ _ _) as [[rules exclude] lost].
  intros (q & Hq & ->)%items_inside [_ Hnil]%app_nil. done.
Qed.
Lemma todo_items plan :
  root_excluded F repository resolved = false →
  news (root_items F limits (list_options plan) repository (start_of plan) resolved) = todo resolved plan.
Proof using Type.
  intros Hex. unfold todo, whole. rewrite Hex. unfold root_items. destruct (root_rules _ _ _) as [[rules exclude] lost]. apply items_resume.
Qed.
Lemma todo_unlisted plan start :
  (∀ dir len, fs_stat F dir = Ok (mkMeta FDirectory len) → is_Some (fs_dir F dir)) →
  Unlisted ∉ root_items F limits (list_options plan) repository start resolved.
Proof using Hserved.
  intros Hl. unfold root_items. destruct (root_rules _ _ _) as [[rules exclude] lost]. apply items_listable; [done|].
  destruct (sv_directory _ _ Hserved) as [len Hd]. unfold kind_at. by rewrite Hd.
Qed.

(** ** One page *)

Definition page_core (plan : FilesPlan) (content : N) : Core Page :=
  root_core F limits (list_options plan) repository (start_of plan) (react limits plan content) resolved
    (new_core (default [] (pl_start_path plan)) empty_page).
Definition page_result (plan : FilesPlan) (content : N) : WorkspaceFilesResult :=
  files_result plan content (k_visitor (page_core plan content)) (outcome_of (page_core plan content)) now.

Lemma page_at_still q directory size :
  validate q = Ok tt → shown_directory q = Ok directory → envelope_bytes directory (r_max_bytes q) = Ok size →
  normalize_relative directory true = Some relative →
  b_rules_exhausted (sc_budget (page_at q).1) = false →
  (page_at q).2 = Ok (page_result (plan_of q directory) (r_max_bytes q - size)).
Proof using Hserved.
  intros Hv Hd Hs Hn. destruct Hserved as [Hnames Hcanon [len Hlen] Hreq Hutf Hgood].
  unfold page_at, files, scan_files. set (plan := plan_of q directory).
  pose proof (walk_scope_still F limits directory (list_options plan) (pl_start_path plan) (react limits plan (r_max_bytes q - size))
    (visit_entry limits plan (r_max_bytes q - size)) empty_page (0 + 1 + 1) relative resolved len (visit_reacts _ _ _)
    Hnames Hn Hcanon Hlen Hreq Hutf Hgood) as Hwalk.
  cbv zeta in Hwalk. unfold mbind, stm_bind, lift. rewrite Hv, Hd. cbv beta iota. fold plan. rewrite budget_check_still. cbv beta iota zeta.
  cbn [sc_budget sc_ticks sc_visitor new_scan b_expired fresh_budget]. change (pl_directory plan) with directory. change (pl_max_bytes plan) with (r_max_bytes q).
  rewrite Hs. cbv beta iota. destruct (walk_scope _ _ _ _ _ _ _) as [s r]. destruct r as [out|e].
  - cbn [fst snd get mret]. intros Hex. destruct (Hwalk Hex) as ([= ->] & Hvis & _). cbn. rewrite Hvis. done.
  - cbn [fst]. intros Hex. by destruct (Hwalk Hex) as (? & _).
Qed.
(** What a page that goes on gives, or the place its cursor names. *)
Definition names_place (plan : FilesPlan) (room : N) (d : list New) (c : WorkspaceListCursor) : Prop :=
  lc_scope c = pl_scope plan ∧ str_len (lc_path c) <= MAX_PATH_BYTES ∧ string_len (lc_path c) - 2 <= room ∧
  ∃ d1 x d2, d = d1 ++ x :: d2 ∧ n_utf8 x = true ∧ Forall (λ y, n_utf8 y = false) d2 ∧ lc_path c = display_path (n_path x).
Definition ended (reason : WorkspaceScanStop) : Prop := reason = StopEnd ∨ reason = StopDepth.

Lemma last_text_place from d :
  Forall (λ x, n_utf8 x = false) d ∧ last_text from d = from ∨
  ∃ d1 x d2, d = d1 ++ x :: d2 ∧ n_utf8 x = true ∧ Forall (λ y, n_utf8 y = false) d2 ∧ last_text from d = display_path (n_path x).
Proof using Type.
  revert from. induction d as [|x d IH]; intros from; [by left; split; [constructor|]|]. cbn [last_text].
  destruct (IH (if n_utf8 x then display_path (n_path x) else from)) as [[Hd Hl]|(d1 & y & d2 & -> & ? & ? & ?)].
  - destruct (n_utf8 x) eqn:Hx; [right; by exists [], x, d|]. left. split; [by constructor|done].
  - right. by exists (x :: d1), y, d2.
Qed.

Lemma page_walk gap plan content :
  root_excluded F repository resolved = false → plain plan content (whole resolved plan) ∨ gap →
  let from := default [] (pl_start_path plan) in
  let k := page_core plan content in
  going plan content gap from (todo resolved plan) k ∨
  ∃ d r, todo resolved plan = d ++ r ∧ halted (start_of plan) plan content gap from d k.
Proof using Hserved.
  intros Hex Hplain from k. unfold k, page_core, root_core. rewrite Hex. cbv zeta. rewrite <- (todo_items plan Hex).
  assert (Hin : ∀ x, x ∈ todo resolved plan → x ∈ whole resolved plan) by by intros x [_ Hx]%list_elem_of_filter.
  assert (Hproper : Forall proper (todo resolved plan)).
  { apply Forall_forall. intros x Hx%Hin. pose proof (whole_proper plan) as Hw. rewrite Forall_forall in Hw. by apply Hw. }
  apply (steps_page limits (start_of plan) plan content gap from _ []); rewrite ?(todo_items plan Hex).
  - split; try done; [change (0 < N.max 1 (pl_limit plan)); lia| |by right; right]. split; try done; [cbn; lia|]. intros done' x e Hd. by destruct done'.
  - eapply Forall_impl; [exact Hproper|]. by intros x [].
  - destruct Hplain as [[_ _ _ Hall]|]; [left|by right]. apply Forall_forall. intros x Hx e He.
    rewrite Forall_forall in Hall, Hproper. destruct (Hall x (Hin x Hx)) as (_ & Hlen & _).
    pose proof (proper_honest _ (Hproper x Hx)) as Hhon. unfold honest in Hhon. rewrite He in Hhon. by destruct Hhon as [_ ->].
  - destruct Hplain as [[Hl _ _ _]|]; [|done]. intros Hu. by apply todo_unlisted in Hu.
  - destruct Hplain as [[_ He _ _]|]; [lia|done].
  - destruct Hplain as [[_ _ Hb _]|]; [lia|done].
Qed.

Lemma halted_cursor gap plan content d r k :
  plain plan content (whole resolved plan) ∨ gap → todo resolved plan = d ++ r →
  halted (start_of plan) plan content gap (default [] (pl_start_path plan)) d k →
  match next_cursor plan (content - pg_used (k_visitor k)) (k_next k) with None => gap | Some c => names_place plan (content - pg_used (k_visitor k)) d c end.
Proof using Hserved.
  intros Hplain Htodo Hh. pose proof (halted_holds _ _ _ _ _ _ _ Hh) as Hholds.
  assert (Hd : ∀ x, x ∈ d → x ∈ whole resolved plan ∧ positioning (list_options plan) (start_of plan) (n_path x) = false).
  { intros x Hx. assert (x ∈ todo resolved plan) as [? ?]%list_elem_of_filter by (rewrite Htodo; set_solver). done. }
  destruct (halted_next _ _ _ _ _ _ _ Hh) as [[Hgap ->]| ->]; [done|].
  destruct (last_text_place (default [] (pl_start_path plan)) d) as [[Hnone ->]|(d1 & x & d2 & Hplace)].
  - assert (core_usable (start_of plan) k (default [] (pl_start_path plan)) = false) as ->.
    { unfold core_usable. rewrite (halted_resume _ _ _ _ _ _ _ Hh). unfold start_of. destruct (pl_start_path plan) as [path|]; cbn; [|done].
      rewrite andb_false_iff. right. apply bool_decide_eq_false. tauto. }
    destruct Hplain as [[_ _ _ Hall]|]; [|done]. destruct (halted_progress _ _ _ _ _ _ _ Hh) as [|Hne]; [done|]. exfalso.
    destruct d as [|x d]; [done|]. apply Forall_inv in Hnone. rewrite Forall_forall in Hall.
    destruct (Hall x) as [Hu _]; [apply Hd; by left|congruence].
  - destruct Hplace as (Hdx & Hutf & Hd2 & ->). set (text := display_path (n_path x)).
    destruct (Hd x) as [Hx Hpos]; [rewrite Hdx; set_solver|]. pose proof (whole_proper plan) as Hproper. rewrite Forall_forall in Hproper.
    destruct (Hproper x Hx) as [Hgood Htext Hhon]. specialize (Htext Hutf).
    destruct Hplain as [Hplain|Hgap].
    + assert (core_usable (start_of plan) k text = true) as ->.
      { unfold core_usable. rewrite orb_true_iff. right. apply andb_true_iff. split; apply bool_decide_eq_true.
        - intros Hnil. apply (whole_below plan x Hx). rewrite <- (display_path_parse (n_path x) Htext Hgood). fold text. by rewrite Hnil.
        - unfold text. rewrite (display_path_parse _ Htext Hgood). intros Hs. rewrite Hs in Hpos. unfold positioning in Hpos. cbn in Hpos.
          rewrite bool_decide_eq_true_2 in Hpos by done. by rewrite orb_true_r in Hpos. }
      destruct Hplain as [_ _ _ Hall]. rewrite Forall_forall in Hall. destruct (Hall x Hx) as (_ & Hlen & e & Hraw & Hwant).
      destruct d2 as [|y d2].
      2: { exfalso. apply Forall_inv in Hd2. destruct (Hall y) as [? _]; [apply Hd; rewrite Hdx; set_solver|congruence]. }
      pose proof (holds_key _ _ _ _ Hholds d1 x e Hdx Hraw Hwant) as Hroom. unfold honest in Hhon. rewrite Hraw in Hhon.
      destruct Hhon as [_ Hpath]. unfold key_len in Hroom. rewrite Hpath in Hroom. fold text in Hroom, Hlen. cbn [next_cursor mbind option_bind].
      rewrite decide_True by (split; [done|lia]). split; [done|]. cbn [lc_path]. split; [done|]. split; [lia|]. by exists d1, x, [].
    + destruct (core_usable _ _ _); [|done]. cbn [next_cursor mbind option_bind]. destruct (decide _) as [[Hlen Hroom]|]; [|done].
      split; [done|]. cbn [lc_path]. split; [done|]. split; [done|]. by exists d1, x, d2.
Qed.

(** A page gives what is to be shown of some of what is left, and says how it goes on. *)
Lemma page_cut gap plan content :
  plain plan content (whole resolved plan) ∨ gap →
  let k := page_core plan content in
  let p := k_visitor k in
  ∃ d r, todo resolved plan = d ++ r ∧ pg_entries p = listing plan content d ∧
    lenN (pg_entries p) <= N.max 1 (pl_limit plan) ∧ pg_used p = total_cost (pg_entries p) ∧ pg_used p <= content ∧
    (ended (out_reason (outcome_of k)) → r = []) ∧
    match next_cursor plan (content - pg_used p) (out_next (outcome_of k)) with
    | None => gap ∨ ended (out_reason (outcome_of k))
    | Some c => names_place plan (content - pg_used p) d c
    end.
Proof using Hserved.
  intros Hplain k p. destruct (root_excluded F repository resolved) eqn:Hex.
  { assert (todo resolved plan = []) as -> by (unfold todo, whole; by rewrite Hex). exists [], []. unfold p, k, page_core, root_core. rewrite Hex.
    split; [done|]. split; [done|]. split; [change (0 <= N.max 1 (pl_limit plan)); lia|]. split; [done|]. split; [cbn; lia|]. split; [done|].
    cbn. right. by left. }
  destruct (page_walk gap plan content Hex Hplain) as [Hgo|(d & r & Hd & Hh)].
  - destruct Hgo as [Hr Hn _ _ Hlim [He Hu Hroom _] _]. fold k in Hr, Hn, Hlim, He, Hu, Hroom. fold p in Hlim, He, Hu, Hroom.
    exists (todo resolved plan), []. split; [by rewrite app_nil_r|]. split; [done|]. split; [lia|]. split; [done|]. split; [done|]. split; [done|].
    unfold outcome_of. rewrite Hr, Hn. cbn. destruct (k_capped k); cbn; right; [by right|by left].
  - fold k in Hh. exists d, r. pose proof (halted_cursor gap plan content d r k Hplain Hd Hh) as Hcur.
    destruct Hh as [Hr _ _ Hlim [He Hu Hroom _] _]. repeat (split; [done|]).
    assert (out_reason (outcome_of k) = k_reason k ∧ out_next (outcome_of k) = k_next k ∧ ¬ ended (k_reason k)) as (-> & -> & Hend).
    { unfold outcome_of. destruct Hr as [Hr|[Hr|Hr]]; rewrite Hr; (split; [done|split; [done|by intros [?|?]]]). }
    split; [done|]. fold p in Hcur. destruct (next_cursor _ _ _); [done|by left].
Qed.
End page.
End follow.

Section chain.
Context `{IgnoreRules} `{ListingEncodingLaws}.
Context (F : FileSystem) (limits : ScanLimits) (now : N).

(** ** From page to page *)

Lemma digest_valid parts : valid_scope (scope_digest parts) = true.
Proof using Type*.
  unfold scope_digest. match goal with |- context [sha256_hex ?bytes] => set (input := bytes) end.
  pose proof (sha256_hex_len input) as Hlen. pose proof (sha256_hex_digits input) as Hdigits.
  assert (Hd : Forall (λ c, c ∈ lit "0123456789abcdef") (take SCOPE_HEX_LEN (sha256_hex input))) by by apply Forall_take.
  assert (Hl : length (take SCOPE_HEX_LEN (sha256_hex input)) = SCOPE_HEX_LEN) by (rewrite length_take, Hlen; done).
  revert Hd Hl. generalize (take SCOPE_HEX_LEN (sha256_hex input)). clear. intros t Hd Hl.
  assert (Hone : Forall (λ c, encode_char c = [c] ∧ len_utf8 c = 1 ∧ is_ascii_hexdigit c = true) t).
  { eapply Forall_impl; [exact Hd|]. clear. intros c Hc. change (lit "0123456789abcdef") with [48;49;50;51;52;53;54;55;56;57;97;98;99;100;101;102] in Hc.
    rewrite !elem_of_cons, elem_of_nil in Hc. by repeat destruct Hc as [->|Hc]. }
  assert (Hbytes : as_bytes t = t).
  { clear -Hone. induction Hone as [|c t (Hc & _) _ IH]; [done|]. by rewrite as_bytes_cons, Hc, IH. }
  unfold valid_scope. rewrite <- as_bytes_len, Hbytes, andb_true_iff. split.
  - apply bool_decide_eq_true. unfold lenN. by rewrite Hl.
  - apply forallb_forall. intros c Hc%list_elem_of_In. rewrite Forall_forall in Hone. by apply Hone.
Qed.
Lemma scope_valid q directory : valid_scope (r_scope q directory) = true.
Proof using Type*. apply digest_valid. Qed.
(** A cursor that names a place is accepted with the same request. *)
Lemma validate_next q directory c :
  validate q = Ok tt → shown_directory q = Ok directory → lc_scope c = r_scope q directory →
  str_len (lc_path c) <= MAX_PATH_BYTES → is_Some (normalize_relative (lc_path c) true) →
  validate (with_cursor q c) = Ok tt.
Proof using Type*.
  intros Hv Hd Hscope Hlen Hnorm. unfold validate in *. cbn [with_cursor fr_session fr_directory fr_recursive fr_query fr_cursor fr_limit fr_max_bytes].
  change (shown_directory (with_cursor q c)) with (shown_directory q). rewrite Hd in *.
  destruct (match fr_directory q with Some _ => _ | None => _ end) as [[]|]; [|done]. cbn [mbind result_bind] in *.
  destruct (ensure (from_option valid_query_text true (fr_query q) = true) InvalidArguments) as [[]|]; [|done]. cbn [mbind result_bind] in *.
  destruct (ensure (from_option (λ limit, _) true (fr_limit q) = true) InvalidArguments) as [[]|]; [|done]. cbn [mbind result_bind] in *.
  destruct (ensure (validate_result_bytes (fr_max_bytes q) = true) InvalidArguments) as [[]|]; [|done]. cbn [mbind result_bind] in *.
  unfold ensure. rewrite decide_True; [done|]. change (r_scope (with_cursor q c) directory) with (r_scope q directory).
  split; [|done]. rewrite Hscope. apply scope_valid.
Qed.

Lemma limit_positive q : validate q = Ok tt → 1 <= r_limit q.
Proof using Type.
  unfold validate. intros (u1 & _ & Hv)%bind_Ok. apply bind_Ok in Hv as (directory & _ & Hv). apply bind_Ok in Hv as (u2 & _ & Hv).
  apply bind_Ok in Hv as (u3 & Hv & _). unfold ensure in Hv. destruct (decide _) as [Hl|]; [|done]. unfold r_limit.
  destruct (fr_limit q) as [limit|]; [|done]. cbn in Hl |- *. by apply bool_decide_eq_true in Hl as [? _].
Qed.

(** An answer keeps to what the request allows. *)
Record fits (q : WorkspaceFilesRequest) (directory : str) (r : WorkspaceFilesResult) : Prop := {
  ft_directory : fs_directory r = directory;
  ft_limit : lenN (fs_entries r) <= r_limit q;
  ft_bytes : fs_skipped_count r <= u64_max → now <= u64_max → files_result_len r <= r_max_bytes q
}.

Context (relative resolved : Path) (Hserved : served F relative resolved).
Abbreviation whole_ := (whole F limits resolved).
Abbreviation todo_ := (todo F limits resolved).
Abbreviation core_ := (page_core F limits resolved).
Abbreviation result_ := (page_result F limits now resolved).

Lemma complete_truncated reason n :
  bool_decide (reason = StopEnd) && bool_decide (n = 0) = negb (bool_decide (reason ≠ StopEnd) || bool_decide (0 < n)).
Proof using Type.
  destruct (decide (reason = StopEnd)) as [Hr|Hr].
  - rewrite (bool_decide_eq_true_2 (reason = _)), (bool_decide_eq_false_2 (reason ≠ _)) by tauto. cbn.
    destruct (decide (n = 0)) as [->|Hn]; [done|]. by rewrite bool_decide_eq_false_2, bool_decide_eq_true_2 by lia.
  - by rewrite (bool_decide_eq_false_2 (reason = _)), (bool_decide_eq_true_2 (reason ≠ _)) by tauto.
Qed.
Lemma page_within q directory size :
  validate q = Ok tt → envelope_bytes directory (r_max_bytes q) = Ok size →
  fits q directory (result_ (plan_of q directory) (r_max_bytes q - size)).
Proof using Type*.
  intros Hv Hsize. set (plan := plan_of q directory). set (content := r_max_bytes q - size).
  destruct (page_cut F limits relative resolved Hserved True plan content (or_intror I))
    as (d & _ & _ & _ & Hlim & Hused & Hroom & _ & Hcur).
  pose proof (limit_positive q Hv) as Hpos. change (pl_limit plan) with (r_limit q) in Hlim.
  unfold page_result. set (k := core_ plan content) in *. split; [done|cbn [fs_entries files_result]; lia|]. intros Hskip Hnow.
  assert (Hsz : size = files_result_len (envelope_probe directory) ∧ size < r_max_bytes q).
  { unfold envelope_bytes in Hsize. cbv zeta in Hsize. destruct (decide _); [done|]. injection Hsize as <-. split; [done|lia]. }
  etransitivity; [apply files_result_len_bound; [done|done|..]|].
  - apply complete_truncated.
  - cbn [fs_next_cursor files_result]. intros c Hc. rewrite Hc in Hcur. destruct Hcur as (-> & _). apply scope_valid.
  - cbn [fs_directory fs_entries fs_next_cursor files_result]. change (pl_directory plan) with directory. destruct Hsz as [Hsz1 Hsz2].
    rewrite <- Hsz1, <- Hused. destruct (next_cursor _ _ _) as [c|]; cbn [from_option]; [|subst content; lia].
    destruct Hcur as (_ & _ & Hc & _). subst content. lia.
Qed.

Lemma listing_app plan content a b : listing plan content (a ++ b) = listing plan content a ++ listing plan content b.
Proof using Type. unfold listing. by rewrite seen_app, filter_app, fmap_app. Qed.
(** Entries without a text are never shown. *)
Lemma listing_unnamed plan content l : Forall honest l → Forall (λ x, n_utf8 x = false) l → listing plan content l = [].
Proof using Type.
  intros Hh Hl. unfold listing, seen. induction l as [|x l IH]; [done|]. apply Forall_cons in Hh as [Hx Hh]. apply Forall_cons in Hl as [Hu Hl].
  unfold honest in Hx. cbn. destruct (n_raw x); [by apply IH..|]. destruct Hx. congruence.
Qed.

Lemma follow_pages gap fuel q directory size a :
  validate q = Ok tt → shown_directory q = Ok directory → envelope_bytes directory (r_max_bytes q) = Ok size →
  normalize_relative directory true = Some relative →
  let plan := plan_of q directory in let content := r_max_bytes q - size in
  plain F limits plan content (whole_ plan) ∨ gap →
  whole_ plan = a ++ todo_ plan → (length (todo_ plan) <= fuel)%nat →
  Forall (λ page, b_rules_exhausted (sc_budget page.1) = false) (follow F limits now fuel q) →
  ∃ pages rest, (follow F limits now fuel q).*2 = Ok <$> pages ∧
    listing plan content (todo_ plan) = (pages ≫= fs_entries) ++ rest ∧
    (∃ r, last pages = Some r ∧ fs_next_cursor r = None ∧ (ended (fs_stopped_by r) → rest = []) ∧ (gap ∨ ended (fs_stopped_by r))) ∧
    Forall (fits q directory) pages.
Proof using Type*.
  revert q a. induction fuel as [|fuel IH]; intros q a Hv Hd Hsize Hnorm plan content Hplain Hwhole Hfuel Hrules.
  all: apply Forall_cons in Hrules as Hpage; destruct Hpage as [Hpage _].
  all: pose proof (page_at_still F limits now relative resolved Hserved q directory size Hv Hd Hsize Hnorm Hpage) as Hresult; fold plan content in Hresult.
  all: destruct (page_cut F limits relative resolved Hserved gap plan content Hplain) as (d & r & Htodo & He & _ & _ & _ & Hend & Hcur).
  all: pose proof (page_within q directory size Hv Hsize) as Hfits.
  all: assert (Hone : next_cursor plan (content - pg_used (k_visitor (core_ plan content))) (out_next (outcome_of (core_ plan content))) = None →
    (page_at F limits now q).2 = Ok (result_ plan content) ∧
    ∃ pages rest, [(page_at F limits now q).2] = Ok <$> pages ∧ listing plan content (todo_ plan) = (pages ≫= fs_entries) ++ rest ∧
    (∃ r, last pages = Some r ∧ fs_next_cursor r = None ∧ (ended (fs_stopped_by r) → rest = []) ∧ (gap ∨ ended (fs_stopped_by r))) ∧
    Forall (fits q directory) pages).
  1,3: intros Hnone; split; [exact Hresult|]; exists [result_ plan content], (listing plan content r); rewrite Hresult; split; [done|];
    rewrite Htodo, listing_app, <- He, Hnone in *; split; [cbn; by rewrite app_nil_r|]; split; [|by constructor];
    eexists; split; [done|]; split; [exact Hnone|]; split; [|exact Hcur]; intros Hr; cbn in Hr; by rewrite (Hend Hr).
  - cbn [follow fmap list_fmap]. destruct (next_cursor _ _ _) as [c|] eqn:Hc; [|by destruct Hone].
    exfalso. destruct Hcur as (_ & _ & _ & d1 & x & d2 & -> & _). rewrite Htodo in Hfuel. rewrite !length_app in Hfuel. cbn in Hfuel. lia.
  - cbn [follow] in Hrules |- *. rewrite Hresult in Hrules |- *.
    change (fs_next_cursor (result_ plan content)) with (next_cursor plan (content - pg_used (k_visitor (core_ plan content))) (out_next (outcome_of (core_ plan content)))) in Hrules |- *.
    destruct (next_cursor plan _ _) as [c|] eqn:Hc in Hrules, Hcur |- *; [|destruct (Hone Hc) as [_ (pages & rest & Hp & Hrest)]; exists pages, rest; split; [exact Hp|exact Hrest]].
    clear Hone. destruct Hcur as (Hscope & Hlen & _ & d1 & x & d2 & -> & Hutf & Hd2 & Hpath).
    assert (Hwx : whole_ plan = (a ++ d1) ++ x :: (d2 ++ r)) by (rewrite Hwhole, Htodo; by rewrite <- !app_assoc).
    pose proof (whole_proper F limits relative resolved Hserved plan) as Hproper. rewrite Forall_forall in Hproper.
    destruct (Hproper x) as [Hgood Htext _]; [rewrite Hwx; set_solver|]. specialize (Htext Hutf).
    set (plan' := plan_of (with_cursor q c) directory).
    assert (Hnext : todo_ plan' = d2 ++ r).
    { unfold todo. change (whole_ plan') with (whole_ plan). change (list_options plan') with (list_options plan).
      change (start_of plan') with (Some (components (as_bytes (lc_path c)))). rewrite Hpath, (display_path_parse _ Htext Hgood), Hwx.
      apply resume_suffix; [done|]. rewrite <- Hwx. apply whole_sorted. }
    apply Forall_inv_tail in Hrules.
    destruct (IH (with_cursor q c) ((a ++ d1) ++ [x])) as (pages & rest & Hpages & Hlist & (last' & Hlast & Hlast') & Hall).
    + apply (validate_next q directory); [done|done|done|done|]. rewrite Hpath, normalize_display by done. by eexists.
    + done.
    + done.
    + done.
    + destruct Hplain as [[? ? ? ?]|]; [left|by right]. by constructor.
    + fold plan'. rewrite Hnext. change (whole_ plan') with (whole_ plan). by rewrite Hwx, <- !app_assoc.
    + fold plan'. rewrite Hnext. rewrite Htodo in Hfuel. rewrite !length_app in *. cbn in Hfuel. lia.
    + exact Hrules.
    + fold plan' in Hlist. rewrite Hnext, listing_app, listing_unnamed, app_nil_l in Hlist; [|apply Forall_forall; intros y Hy; apply Hproper; rewrite Hwx; set_solver|done].
      exists (result_ plan content :: pages), rest. split; [|split; [|split]].
      * rewrite fmap_cons, Hpages, Hresult. done.
      * rewrite Htodo, listing_app, <- He. change (listing (plan_of (with_cursor q c) directory) (r_max_bytes (with_cursor q c) - size) r) with (listing plan content r) in Hlist.
        change (listing plan' (r_max_bytes (with_cursor q c) - size) r) with (listing plan content r) in Hlist. rewrite Hlist, bind_cons, app_assoc. done.
      * exists last'. split; [|done]. destruct pages; [done|]. exact Hlast.
      * constructor; [done|]. eapply Forall_impl; [exact Hall|]. by intros ? [].
Qed.

(** A path is listed once. *)
Lemma listing_nodup plan content : NoDup (fe_path <$> listing plan content (whole_ plan)).
Proof using Type*.
  pose proof (whole_sorted F limits resolved plan) as Hs. pose proof (whole_proper F limits relative resolved Hserved plan) as Hp.
  revert Hs Hp. generalize (whole_ plan). clear. intros l Hs. induction Hs as [|x l Hs IH Hall]; intros Hp; [constructor|].
  apply Forall_cons in Hp as [Hx Hp]. specialize (IH Hp).
  assert (Hone : ∀ y e, proper y → n_raw y = RawSeen e → e_relative e = display_path (n_path y) ∧ components (as_bytes (e_relative e)) = n_path y).
  { clear. intros y e [Hgood Htext Hh] He. unfold honest in Hh. rewrite He in Hh. destruct Hh as [Hu ->]. split; [done|]. apply display_path_parse; auto. }
  unfold listing, seen. cbn [omap list_omap]. destruct (n_raw x) as [| | |e] eqn:He; [exact IH..|]. rewrite filter_cons.
  destruct (decide (wanted plan content e)); [|exact IH]. cbn [fmap list_fmap]. constructor; [|exact IH].
  intros (f & Hf & Hin)%list_elem_of_fmap. apply list_elem_of_fmap in Hin as (e' & -> & Hin). cbn in Hf.
  apply list_elem_of_filter in Hin as [_ Hin]. apply list_elem_of_omap in Hin as (y & Hy & Hye). destruct (n_raw y) eqn:Hraw; try done. injection Hye as ->.
  rewrite Forall_forall in Hp, Hall. specialize (Hall y Hy). destruct (Hone _ _ Hx He) as [_ H1], (Hone _ _ (Hp y Hy) Hraw) as [_ H2].
  unfold new_lt in Hall. rewrite <- H1, <- H2, Hf in Hall. by rewrite path_lt_irrefl in Hall.
Qed.
End chain.

(** C36 Following the cursors of [workspace.files] over files that do not change lists a
    directory: as long as the budget of ignore rules holds, every request of the chain is
    accepted and answered, the last answer has no cursor, and the answers one after the
    other are the first entries of the listing (what the walk of the directory meets, in
    order, less what the rules or the query exclude and what no answer could hold), each
    path once.  They are all of it when the last answer says [end] or [depth], and it says
    so when nothing keeps a cursor from being given: every directory can be read, and every
    entry can be named, is shown and fits.  No answer has more entries or bytes than asked. *)
Theorem listing_followed `{IgnoreRules} `{ListingEncodingLaws} (F : FileSystem) (limits : ScanLimits) (now : N) (fuel : nat)
    (q : WorkspaceFilesRequest) (relative resolved : Path) (size : N)
    (Hserved : served F relative resolved)
    (Hvalid : validate q = Ok tt)
    (Hfirst : fr_cursor q = None)
    (Htext : forallb is_scalar (r_directory q) = true)
    (Hdirectory : normalize_relative (r_directory q) true = Some relative)
    (Hsize : envelope_bytes (display_path relative) (r_max_bytes q) = Ok size)
    (Hfuel : (length (whole F limits resolved (plan_of q (display_path relative))) <= fuel)%nat)
    (Hrules : Forall (λ page, b_rules_exhausted (sc_budget page.1) = false) (follow F limits now fuel q)) :
  let plan := plan_of q (display_path relative) in
  let content := r_max_bytes q - size in
  let all := listing plan content (whole F limits resolved plan) in
  ∃ pages rest,
    (follow F limits now fuel q).*2 = Ok <$> pages ∧
    all = (pages ≫= fs_entries) ++ rest ∧ NoDup (fe_path <$> all) ∧
    (∃ r, last pages = Some r ∧ fs_next_cursor r = None ∧ (ended (fs_stopped_by r) → rest = []) ∧
          (plain F limits plan content (whole F limits resolved plan) → ended (fs_stopped_by r))) ∧
    Forall (fits now q (display_path relative)) pages.
Proof.
  intros plan content all. destruct (normalize_good _ _ _ Htext Hdirectory) as [Hutf Hgood].
  assert (Hshown : shown_directory q = Ok (display_path relative)) by (unfold shown_directory; by rewrite Hdirectory).
  assert (Htodo : todo F limits resolved plan = whole F limits resolved plan).
  { apply filter_every, Forall_forall. intros x _. unfold start_of, plan. cbn [plan_of pl_start_path]. by rewrite Hfirst. }
  assert (Hchain : ∀ gap, plain F limits plan content (whole F limits resolved plan) ∨ gap → _)
    by (intros gap Hgap; exact (follow_pages F limits now relative resolved Hserved gap fuel q (display_path relative) size []
          Hvalid Hshown Hsize (normalize_display _ Hutf Hgood) Hgap (eq_sym Htodo) ltac:(fold plan; by rewrite Htodo) Hrules)).
  destruct (Hchain True (or_intror I)) as (pages & rest & Hpages & Hall & (r & Hlast & Hnone & Hend & _) & Hfits).
  fold plan content in Hall. rewrite Htodo in Hall. exists pages, rest. split; [done|]. split; [done|].
  split; [by apply (listing_nodup F limits relative resolved)|]. split; [|done]. exists r. repeat (split; [done|]). intros Hplain.
  destruct (Hchain False (or_introl Hplain)) as (pages' & rest' & Hpages' & _ & (r' & Hlast' & _ & _ & [[]|Hr']) & _).
  assert (Hinj : Inj (=) (=) (@Ok AgentError WorkspaceFilesResult)) by by intros a b [= ->].
  rewrite Hpages in Hpages'. apply (inj (fmap (M := list) Ok)) in Hpages' as <-. by rewrite Hlast in Hlast'; injection Hlast' as ->.
Qed.

(** ** A small directory *)

Module ListingSample.
(** Rules that name what they hide. *)
#[local] Instance rules : IgnoreRules := {|
  Gitignore := list str;
  build_rules base path l := Some l;
  matched g path is_dir := if decide (display_path path ∈ g) then MatchIgnore else MatchNone
|}.
#[local] Instance encoding : ListingEncoding := {|
  session_text := show_N;
  sha256_hex bytes := replicate 64 102;
  file_entry_len e := 40 + string_len (fe_path e);
  files_result_len r := 200 + string_len (fs_directory r) + foldr (λ e n, 40 + string_len (fe_path e) + 1 + n) 0 (fs_entries r)
    + from_option (λ c, string_len (lc_path c) - 2) 0 (fs_next_cursor r)
|}.
#[local] Instance laws : ListingEncodingLaws.
Proof.
  split.
  - intros bytes. apply length_replicate.
  - intros bytes. apply Forall_forall. intros c Hc. apply elem_of_replicate in Hc as [-> _]. by apply (bool_decide_unpack (102 ∈ lit "0123456789abcdef")).
  - intros r _ _ _ _. cbn [files_result_len encoding envelope_probe fs_directory fs_entries fs_next_cursor from_option foldr lc_path].
    change (foldr _ 0 (fs_entries r)) with (total_cost (fs_entries r)). lia.
Defined.

(** A file of rules, a file, and two directories with a file each. *)
Definition ignore_text : str := lit "t" ++ [LF].
Definition a_rs : Path := [Normal (lit "a.rs")].
Definition tree : list (Path * Metadata) :=
  [([], mkMeta FDirectory 0);
   ([Normal (lit ".gitignore")], mkMeta FFile 2); (a_rs, mkMeta FFile 30);
   ([Normal (lit "d")], mkMeta FDirectory 0); ([Normal (lit "d"); Normal (lit "x")], mkMeta FFile 4);
   ([Normal (lit "t")], mkMeta FDirectory 0)].
Definition names_in (dir : Path) : option (list (option (list N))) :=
  if decide (dir = []) then Some [Some (lit "t"); Some (lit "d"); Some (lit "a.rs"); Some (lit ".gitignore")]
  else if decide (dir = [Normal (lit "d")]) then Some [Some (lit "x")]
  else if decide (dir = [Normal (lit "t")]) then Some [Some (lit "y")]
  else None.
Definition sample_fs : FileSystem := mkFs
  (λ path, from_option (λ entry, Ok entry.2) (Err IoNotFound) (head (filter (λ entry, entry.1 = path) tree)))
  names_in
  (λ path, Ok (Some path))
  (λ path, if decide (path = [Normal (lit ".gitignore")]) then Some [Some ignore_text; Some []] else None)
  (λ path, Err WsNotFound).
Definition request (limit : N) : WorkspaceFilesRequest := mkFilesRequest 7 None (Some true) None None (Some limit) None.

(** Two by two. *)
Example sample_pages :
  (λ page, match page.2 with Ok r => Some (fe_path <$> fs_entries r, fs_stopped_by r) | Err _ => None end)
    <$> follow sample_fs standard_limits 0 9 (request 2) =
  [Some ([lit ".gitignore"; lit "a.rs"], StopPage); Some ([lit "d"; lit "d/x"], StopPage); Some ([], StopEnd)].
Proof. vm_compute. reflexivity. Qed.

Lemma sample_served : served sample_fs [] [].
Proof.
  split; [|done|by eexists|by eexists|constructor|constructor].
  intros dir entries. cbn [fs_dir sample_fs]. unfold names_in. intros Hd.
  assert (Hgood : ∀ name, bool_decide (name ≠ [] ∧ SLASH ∉ name ∧ 0 ∉ name ∧ name ≠ lit "." ∧ name ≠ lit "..") = true → good_name name).
  { intros name Hn. by apply bool_decide_eq_true in Hn. }
  destruct (decide _); [injection Hd as <-; repeat constructor; by apply Hgood|].
  destruct (decide _); [injection Hd as <-; repeat constructor; by apply Hgood|].
  destruct (decide _); [injection Hd as <-; repeat constructor; by apply Hgood|done].
Qed.

Lemma listing_followed_witness :
  let plan := plan_of (request 2) [] in
  let content := r_max_bytes (request 2) - 202 in
  let all := listing plan content (whole sample_fs standard_limits [] plan) in
  fe_path <$> all = [lit ".gitignore"; lit "a.rs"; lit "d"; lit "d/x"] ∧
  ∃ pages rest,
    (follow sample_fs standard_limits 0 9 (request 2)).*2 = Ok <$> pages ∧
    all = (pages ≫= fs_entries) ++ rest ∧ NoDup (fe_path <$> all) ∧
    (∃ r, last pages = Some r ∧ fs_next_cursor r = None ∧ (ended (fs_stopped_by r) → rest = []) ∧
          (plain sample_fs standard_limits plan content (whole sample_fs standard_limits [] plan) → ended (fs_stopped_by r))) ∧
    Forall (fits 0 (request 2) []) pages.
Proof.
  split; [vm_compute; reflexivity|].
  apply (listing_followed sample_fs standard_limits 0 9 (request 2) [] [] 202 sample_served); try (vm_compute; reflexivity).
  - apply Nat.leb_le. vm_compute. reflexivity.
  - apply Forall_forall. intros page Hpage.
    assert (Hall : forallb (λ page, negb (b_rules_exhausted (sc_budget page.1))) (follow sample_fs standard_limits 0 9 (request 2)) = true)
      by (vm_compute; reflexivity).
    rewrite forallb_forall in Hall. specialize (Hall page (proj1 (list_elem_of_In _ _) Hpage)). by apply negb_true_iff in Hall.
Defined.
End ListingSample.
