(* ===== verification/Search.v ===== *)
(** One page of literal matches in the files of a workspace, [workspace/search.rs].

    The files are those of the walk of [Scan]; a page stops before a match it cannot hold,
    or inside a file, and its cursor says where.  A search that ignores case is left to the
    [regex] crate, which gives the ranges of the matches of a line. *)

From S2P Require Import Prelude RustStr Errors Status ToolPage Scan Listing.
Open Scope N_scope.

Definition MAX_READ_BYTES : N := 512 * 1024.
Definition MAX_SEARCH_PATHS : N := 32.
Definition DEFAULT_MAX_MATCHES : N := 100.
Definition MAX_MAX_MATCHES : N := 1000.
Definition LINE_CONTEXT_BYTES : N := 64.

(** [as u32], and [u32::try_from] with the largest value for what does not fit. *)
Definition as_u32 (n : N) : N := n mod (u32_max + 1).
Definition clamp_u32 (n : N) : N := N.min n u32_max.

(** ** Requests and results *)

Record WorkspaceSearchCursor := mkSearchCursor { sc_path_index : N; sc_path : str; sc_line : N; sc_line_byte_offset : N; sc_scope : str }.
Record WorkspaceSearchRequest := mkSearchRequest {
  sr_session : N;
  sr_query : str;
  sr_paths : option (list str);
  sr_case_sensitive : option bool;
  sr_cursor : option WorkspaceSearchCursor;
  sr_max_matches : option N;
  sr_max_bytes : option N
}.
Record WorkspaceByteRange := mkRange { range_start : N; range_end : N }.
Record WorkspaceSearchMatch := mkMatch {
  sm_path : str;
  sm_line_number : N;
  sm_line_text_byte_offset : N;
  sm_ranges : list WorkspaceByteRange;
  sm_line_text : str;
  sm_line_truncated : bool
}.
Record WorkspaceSearchResult := mkSearchResult {
  ss_matches : list WorkspaceSearchMatch;
  ss_next_cursor : option WorkspaceSearchCursor;
  ss_truncated : bool;
  ss_scan_complete : bool;
  ss_stopped_by : WorkspaceScanStop;
  ss_skipped_files : N;
  ss_observed_at : N
}.

(** The lengths of values as JSON. *)
Class SearchEncoding := {
  match_len : WorkspaceSearchMatch → N;
  search_result_len : WorkspaceSearchResult → N
}.
(** [regex]: the ranges of the matches of an escaped query without regard to case, if the
    expression can be built. *)
Class FoldedSearch := { folded : str → option (str → list (N * N)) }.

(** ** Roots, [page.rs] *)

Definition roots_overlap (left right : str) : bool :=
  if decide (left = [] ∨ right = []) then true else
  let left := components (as_bytes left) in
  let right := components (as_bytes right) in
  let '(short, long) := if decide (length left <= length right)%nat then (left, right) else (right, left) in
  path_starts_with short long.
Fixpoint collect_roots (paths : list str) (roots : list str) : result AgentError (list str) :=
  match paths with
  | [] => Ok roots
  | path :: paths =>
      relative ← ok_or (normalize_relative path true) InvalidArguments;
      let normalized := display_path relative in
      collect_roots paths (if decide (normalized ∈ roots) then roots else roots ++ [normalized])
  end.
Definition overlaps (roots : list str) : bool :=
  existsb (λ i, existsb (λ j, negb (i =? j)%nat && roots_overlap (roots !!! i) (roots !!! j)) (seq 0 (length roots))) (seq 0 (length roots)).
Definition normalized_roots (paths : option (list str)) : result AgentError (list str) :=
  roots ← collect_roots (default [] paths) [];
  if decide (roots = []) then Ok [[]] else
  _ ← ensure (overlaps roots = false) InvalidArguments;
  Ok roots.

(** ** Matches of a line *)

Inductive Matcher := Literal (needle : str) | Folded (find_iter : str → list (N * N)).

(** [str::match_indices], with the ends. *)
Fixpoint literal_ranges (fuel : nat) (needle : str) (base : N) (text : str) : list (N * N) :=
  match fuel with
  | O => []
  | S fuel =>
      match find_split needle text with
      | Some (before, rest) =>
          let start := base + str_len before in
          (start, start + str_len needle) :: literal_ranges fuel needle (start + str_len needle) rest
      | None => []
      end
  end.
(** What [scan_ranges] visits. *)
Definition line_ranges (matcher : Matcher) (line : str) (from : N) : list (N * N) :=
  if decide (str_len line < from) then [] else
  match matcher with
  | Literal needle => let text := (split_floor from line).2 in literal_ranges (length text) needle from text
  | Folded find_iter => filter (λ found, from <= found.1) (find_iter line)
  end.
Definition floor_char_boundary (index : N) (line : str) : N := str_len (split_floor index line).1.
(** [&line[start..end]] *)
Definition line_slice (line : str) (start stop : N) : str := (split_floor (stop - start) (split_floor start line).2).1.

(** Whether bytes are wrong as UTF-8, and not just cut. *)
Fixpoint undecoded (fuel : nat) (bytes : list N) : list N :=
  match fuel, bytes with
  | S fuel, _ :: _ => match decode_char bytes with Some (_, rest) => undecoded fuel rest | None => bytes end
  | _, _ => bytes
  end.
Definition second_byte (b0 b1 : N) : bool :=
  let '(low, high) := if decide (b0 = 0xE0) then (0xA0, 0xBF) else if decide (b0 = 0xED) then (0x80, 0x9F)
                      else if decide (b0 = 0xF0) then (0x90, 0xBF) else if decide (b0 = 0xF4) then (0x80, 0x8F) else (0x80, 0xBF) in
  bool_decide (low <= b1 <= high).
Definition cut_char (bytes : list N) : bool :=
  match bytes with
  | [b0] => bool_decide (0xC2 <= b0 <= 0xF4)
  | [b0; b1] => bool_decide (0xE0 <= b0 <= 0xF4) && second_byte b0 b1
  | [b0; b1; b2] => bool_decide (0xF0 <= b0 <= 0xF4) && second_byte b0 b1 && bool_decide (0x80 <= b2 <= 0xBF)
  | _ => false
  end.
Definition utf8_broken (bytes : list N) : bool :=
  let rest := undecoded (length bytes) bytes in bool_decide (rest ≠ []) && negb (cut_char rest).

Section search.
Context `{IgnoreRules} `{ListingEncoding} `{SearchEncoding} `{FoldedSearch}.

Definition matcher_new (query : str) (case_sensitive : bool) : result AgentError Matcher :=
  if case_sensitive then Ok (Literal query) else find_iter ← ok_or (folded query) Internal; Ok (Folded find_iter).

Definition s_case_sensitive (q : WorkspaceSearchRequest) : bool := default false (sr_case_sensitive q).
Definition s_max_matches (q : WorkspaceSearchRequest) : N := default DEFAULT_MAX_MATCHES (sr_max_matches q).
Definition s_max_bytes (q : WorkspaceSearchRequest) : N := default DEFAULT_RESULT_BYTES (sr_max_bytes q).
Definition s_scope (q : WorkspaceSearchRequest) (roots : list str) : str :=
  scope_digest ([lit "workspace.search"; session_text (sr_session q); sr_query q; if s_case_sensitive q then lit "1" else lit "0"] ++ roots).
Definition search_validate (q : WorkspaceSearchRequest) : result AgentError unit :=
  _ ← ensure (sr_query q ≠ [] ∧ valid_query_text (sr_query q) = true) InvalidArguments;
  _ ← ensure (from_option (λ paths, bool_decide (lenN paths <= MAX_SEARCH_PATHS) && forallb (λ path, bool_decide (str_len path <= MAX_PATH_BYTES)) paths)
                true (sr_paths q) = true) InvalidArguments;
  roots ← normalized_roots (sr_paths q);
  _ ← ensure (from_option (λ limit, bool_decide (1 <= limit <= MAX_MAX_MATCHES)) true (sr_max_matches q) = true) InvalidArguments;
  _ ← ensure (validate_result_bytes (sr_max_bytes q) = true) InvalidArguments;
  match sr_cursor q with
  | None => Ok tt
  | Some cursor =>
      ensure (valid_scope (sc_scope cursor) = true ∧ sc_scope cursor = s_scope q roots ∧ sc_path_index cursor < lenN roots ∧
              sc_line_byte_offset cursor <= MAX_READ_BYTES ∧ str_len (sc_path cursor) <= MAX_PATH_BYTES ∧
              is_Some (normalize_relative (sc_path cursor) true)) InvalidArguments
  end.

(** ** A page *)

Record SearchPlan := mkSearchPlan {
  pn_roots : list str;
  pn_query : str;
  pn_case_sensitive : bool;
  pn_max_matches : N;
  pn_max_bytes : N;
  pn_scope : str;
  pn_start_path : N;
  pn_start_entry : option str;
  pn_resume : option (N * N)
}.
Definition search_plan (q : WorkspaceSearchRequest) (roots : list str) : SearchPlan :=
  mkSearchPlan roots (sr_query q) (s_case_sensitive q) (s_max_matches q) (s_max_bytes q) (s_scope q roots)
    (from_option sc_path_index 0 (sr_cursor q)) (sc_path <$> sr_cursor q)
    (cursor ← sr_cursor q; if decide (sc_line cursor = 0) then None else Some (sc_line cursor, sc_line_byte_offset cursor)).

(** The matches so far, what they take, and what was skipped and dropped. *)
Record SearchPage := mkSearchPage {
  sp_used : N;
  sp_remaining : N;
  sp_matches : list WorkspaceSearchMatch;
  sp_skipped_files : N;
  sp_dropped : N;
  sp_file_dropped : bool
}.
Inductive FileScan := ScanDone | ScanStopInside (line offset : N) | ScanStopBytes.
Inductive ReadFile := ReadText (text : str) | ReadUnsupported | ReadFailed | ReadStopBytes.

Section page.
Context (env : N → Moment) (limits : ScanLimits).
Context (matcher : Matcher) (content_budget : N).
Abbreviation B := (stm (Scan SearchPage) AgentError).

Definition get_page : B SearchPage := s ← get; mret (sc_visitor s).
Definition put_page (p : SearchPage) : B unit := modify (λ s, mkScan (sc_budget s) (sc_ticks s) p).
(** [budget.check()?; budget.time_expired()] *)
Definition check_expired : B bool := _ ← budget_check env; time_expired env.

(** *** Records *)

Definition build_candidate (p : SearchPage) (path : str) (line_number : N) (line : str) (ranges : list (N * N)) (start stop : N)
    : option (WorkspaceSearchMatch * N) :=
  if decide (content_budget - sp_used p < stop - start) then None else
  if existsb (λ range, bool_decide (range.1 < start) || bool_decide (stop < range.2)) ranges then None else
  let record := mkMatch path line_number (clamp_u32 start)
    ((λ range, mkRange (clamp_u32 (range.1 - start)) (clamp_u32 (range.2 - start))) <$> ranges)
    (line_slice line start stop) (bool_decide (0 < start) || bool_decide (stop < str_len line)) in
  let encoded := match_len record in
  if decide (content_budget < sp_used p + encoded + 1 + string_len path) then None else Some (record, encoded).
(** The whole line, or a part of it that has every range. *)
Definition build_record (p : SearchPage) (path : str) (line_number : N) (line : str) (ranges : list (N * N))
    : option (WorkspaceSearchMatch * N) :=
  match head ranges, last ranges with
  | Some first, Some last =>
      match build_candidate p path line_number line ranges 0 (str_len line) with
      | Some record => Some record
      | None =>
          let start := floor_char_boundary (first.1 - LINE_CONTEXT_BYTES) line in
          let stop := floor_char_boundary last.2 line in
          if decide (stop <= start) then None else build_candidate p path line_number line ranges start stop
      end
  | _, _ => None
  end.
Definition commit (record : WorkspaceSearchMatch) (encoded : N) (p : SearchPage) : SearchPage :=
  mkSearchPage (sp_used p + (encoded + 1)) (sp_remaining p - lenN (sm_ranges record)) (sp_matches p ++ [record])
    (sp_skipped_files p) (sp_dropped p) (sp_file_dropped p).

(** *** Lines *)

Definition drop_match (p : SearchPage) : SearchPage :=
  mkSearchPage (sp_used p) (sp_remaining p) (sp_matches p) (sp_skipped_files p) (sp_dropped p + 1) true.
(** The ranges a page may still take, and where it is full. *)
Fixpoint take_ranges (found ranges : list (N * N)) : B (list (N * N) * option N) :=
  match found with
  | [] => mret (ranges, None)
  | range :: found =>
      expired ← check_expired;
      if expired : bool then mret (ranges, None) else
      p ← get_page;
      if decide (sp_remaining p <= lenN ranges) then mret (ranges, Some range.1) else take_ranges found (ranges ++ [range])
  end.
(** The search for the longest prefix that fits: [accepted] ranges do, and not more than
    [upper]. *)
Fixpoint widen (fuel : nat) (p : SearchPage) (path : str) (line_number : N) (line : str) (ranges : list (N * N))
    (accepted upper : nat) (record : WorkspaceSearchMatch * N) : nat * (WorkspaceSearchMatch * N) :=
  match fuel with
  | O => (accepted, record)
  | S fuel =>
      if decide (accepted < upper)%nat then
        let mid := (accepted + (upper - accepted + 1) / 2)%nat in
        match build_record p path line_number line (take mid ranges) with
        | Some candidate => widen fuel p path line_number line ranges mid upper candidate
        | None => widen fuel p path line_number line ranges accepted (mid - 1) record
        end
      else (accepted, record)
  end.
(** [ranges] are those from [first] on. *)
Fixpoint record_ranges (path : str) (line_number : N) (line : str) (overflow : option N) (ranges : list (N * N)) : B (option (N * N)) :=
  match ranges with
  | [] => mret ((λ offset, (line_number, as_u32 offset)) <$> overflow)
  | range :: rest =>
      p ← get_page;
      match build_record p path line_number line [range] with
      | None =>
          if decide (sp_matches p ≠ []) then mret (Some (line_number, as_u32 range.1)) else
          _ ← put_page (drop_match p);
          record_ranges path line_number line overflow rest
      | Some record =>
          let '(accepted, record) := widen (length ranges) p path line_number line ranges 1 (length ranges) record in
          _ ← put_page (commit record.1 record.2 p);
          mret ((λ offset, (line_number, as_u32 offset)) <$>
                match ranges !! accepted with Some next => Some next.1 | None => overflow end)
      end
  end.
Definition visit_line (path : str) (line_number : N) (line : str) (from : N) : B (option (N * N)) :=
  taken ← take_ranges (line_ranges matcher line from) [];
  record_ranges path line_number line taken.2 taken.1.

(** *** Files *)

(** A file that was read. *)
Definition whole_text (bytes : list N) : ReadFile :=
  if decide (0 ∈ bytes) then ReadUnsupported else
  match from_utf8 bytes with Some text => ReadText text | None => ReadUnsupported end.
Fixpoint read_chunks (reads : list (option (list N))) (bytes : list N) : B ReadFile :=
  expired ← check_expired;
  if expired : bool then mret ReadStopBytes else
  match reads with
  | None :: _ => mret ReadFailed
  | [] | Some [] :: _ => mret (whole_text bytes)
  | Some chunk :: reads =>
      available ← byte_available limits (lenN chunk);
      if negb available then mret ReadStopBytes else
      if decide (MAX_READ_BYTES < lenN bytes + lenN chunk) then mret ReadUnsupported else
      if decide (0 ∈ chunk) then mret ReadUnsupported else
      let bytes := bytes ++ chunk in
      if decide (lenN bytes = lenN chunk ∧ utf8_broken bytes = true) then mret ReadUnsupported else
      read_chunks reads bytes
  end.
Definition read_searchable_file (entry : WalkEntry) : B ReadFile :=
  if decide (e_kind entry = FOther) then mret ReadUnsupported else
  m ← next_moment env;
  match fs_regular (m_fs m) (e_relative entry) with
  | Err error =>
      mret match error with
           | WsNotFound => if decide (e_kind entry = FSymlink) then ReadUnsupported else ReadFailed
           | WsNotFile | WsNotDirectory | WsEscape | WsInvalidPath => ReadUnsupported
           | _ => ReadFailed
           end
  | Ok (len, reads) => if decide (MAX_READ_BYTES < len) then mret ReadUnsupported else read_chunks reads []
  end.

Definition set_file_dropped (dropped : bool) (p : SearchPage) : SearchPage :=
  mkSearchPage (sp_used p) (sp_remaining p) (sp_matches p) (sp_skipped_files p) (sp_dropped p) dropped.
Definition skip_file (dropped : N) (p : SearchPage) : SearchPage :=
  mkSearchPage (sp_used p) (sp_remaining p) (sp_matches p) (sp_skipped_files p + 1) (sp_dropped p + dropped) (sp_file_dropped p).
Fixpoint scan_lines (path : str) (resume_line resume_offset : N) (segments : list str) (line_number : N) : B (option (N * N)) :=
  match segments with
  | [] => mret None
  | segment :: segments =>
      expired ← check_expired;
      if expired : bool then mret None else
      let line := strip_line_end segment in
      stop ← (if decide (N.max resume_line 1 <= line_number) then
                visit_line path line_number line (if decide (line_number = resume_line) then floor_char_boundary resume_offset line else 0)
              else mret None);
      match stop with
      | Some position => mret (Some position)
      | None => scan_lines path resume_line resume_offset segments (clamp_u32 (line_number + 1))
      end
  end.
Definition scan_file (entry : WalkEntry) (resume : option (N * N)) : B FileScan :=
  read ← read_searchable_file entry;
  match read with
  | ReadUnsupported => p ← get_page; _ ← put_page (skip_file 0 p); mret ScanDone
  | ReadFailed => p ← get_page; _ ← put_page (skip_file 1 p); mret ScanDone
  | ReadStopBytes => mret ScanStopBytes
  | ReadText text =>
      p ← get_page;
      _ ← put_page (set_file_dropped false p);
      stop ← scan_lines (e_relative entry) (from_option fst 0 resume) (from_option snd 0 resume) (split_inclusive LF text) 1;
      p ← get_page;
      _ ← (if sp_file_dropped p then put_page (skip_file 0 p) else mret tt);
      mret (match stop with Some (line, offset) => ScanStopInside line offset | None => ScanDone end)
  end.

(** The visitor of the walk of a root. *)
Definition search_entry (start_entry : option str) (resume : option (N * N)) (entry : WalkEntry) : B Visit :=
  if decide (e_kind entry = FDirectory) then mret Next else
  p ← get_page;
  if decide (sp_remaining p = 0) then mret (StopBefore StopPage) else
  found ← scan_file entry (if decide (start_entry = Some (e_relative entry)) then resume else None);
  mret (match found with
        | ScanDone => Next
        | ScanStopInside line offset => StopInside StopPage line offset
        | ScanStopBytes => StopBefore StopBytes
        end).

(** ** The roots *)

Fixpoint resolve_roots (roots : list str) (resolved : list Path) : B unit :=
  match roots with
  | [] => mret tt
  | root :: roots =>
      expired ← check_expired;
      if expired : bool then mret tt else
      relative ← lift (ok_or (normalize_relative root true) Workspace);
      m ← next_moment env;
      path ← lift (match fs_canonical (m_fs m) relative with Ok (Some path) => Ok path | _ => Err Workspace end);
      _ ← throw_if (existsb (λ other, path_starts_with other path || path_starts_with path other) resolved = true) InvalidArguments;
      resolve_roots roots (resolved ++ [path])
  end.

Definition search_options (resume : option (N * N)) : WalkOptions := mkOptions true false false (bool_decide (is_Some resume)).
(** What the walks of the roots add up to. *)
Record Rooted := mkRooted {
  ro_reason : WorkspaceScanStop;
  ro_next : option WorkspaceSearchCursor;
  ro_unrepresentable : N;
  ro_unreadable : N;
  ro_excluded : N
}.
Definition page_stop (reason : WorkspaceScanStop) : bool := bool_decide (reason ∈ [StopPage; StopEntries; StopBytes]).
Fixpoint root_loop (plan : SearchPlan) (roots : list str) (path_index : N) (r : Rooted) : B Rooted :=
  match roots with
  | [] => mret r
  | root :: roots =>
      if decide (path_index < pn_start_path plan) then root_loop plan roots (path_index + 1) r else
      let here := bool_decide (path_index = pn_start_path plan) in
      let entry_start := if here then pn_start_entry plan else None in
      let resume := if here then pn_resume plan else None in
      outcome ← walk_scope env limits root (search_options resume) entry_start (search_entry entry_start resume);
      p ← get_page;
      let unrepresentable := ro_unrepresentable r + out_unrepresentable outcome in
      let unreadable := ro_unreadable r + out_unreadable outcome in
      let excluded := ro_excluded r + out_excluded outcome in
      let next_path :=
        match out_next outcome with
        | Some path => Some path
        | None => if decide (pn_start_path plan < path_index ∧ page_stop (out_reason outcome) = true) then Some [] else None
        end in
      match next_path with
      | Some path =>
          mret (mkRooted (out_reason outcome)
            (if decide (MAX_PATH_BYTES < str_len path ∨ content_budget - sp_used p < string_len path - 2) then ro_next r
             else Some (mkSearchCursor (clamp_u32 path_index) path (from_option fst 0 (out_resume outcome)) (from_option snd 0 (out_resume outcome)) (pn_scope plan)))
            unrepresentable unreadable excluded)
      | None =>
          match out_reason outcome with
          | StopEnd => root_loop plan roots (path_index + 1) (mkRooted (ro_reason r) (ro_next r) unrepresentable unreadable excluded)
          | StopRules | StopDepth => root_loop plan roots (path_index + 1) (mkRooted (out_reason outcome) (ro_next r) unrepresentable unreadable excluded)
          | stopped => mret (mkRooted stopped (ro_next r) unrepresentable unreadable excluded)
          end
      end
  end.
End page.

Definition search_probe : WorkspaceSearchResult :=
  mkSearchResult [] (Some (mkSearchCursor u32_max [] u32_max u32_max (replicate SCOPE_HEX_LEN 102))) true false StopDeadline u64_max u64_max.
Definition search_envelope (max_bytes : N) : result AgentError N :=
  let size := search_result_len search_probe in
  if decide (max_bytes <= size) then Err InvalidArguments else Ok size.

Section files.
Context (env : N → Moment) (limits : ScanLimits).
Abbreviation B := (stm (Scan SearchPage) AgentError).

Definition new_search_page (max_matches : N) : SearchPage := mkSearchPage 0 max_matches [] 0 0 false.
Definition search_result (p : SearchPage) (r : Rooted) (now : N) : WorkspaceSearchResult :=
  let dropped := sp_dropped p + ro_unrepresentable r + ro_unreadable r in
  mkSearchResult (sp_matches p) (ro_next r)
    (bool_decide (ro_reason r ≠ StopEnd) || bool_decide (0 < dropped))
    (bool_decide (ro_reason r = StopEnd) && bool_decide (dropped = 0))
    (ro_reason r)
    (sp_skipped_files p + ro_unrepresentable r + ro_unreadable r + ro_excluded r)
    now.
Definition scan_search (plan : SearchPlan) (now : N) : B WorkspaceSearchResult :=
  let remaining_roots := drop (N.to_nat (pn_start_path plan)) (pn_roots plan) in
  _ ← (if decide (1 < length remaining_roots)%nat then resolve_roots env remaining_roots [] else mret tt);
  envelope ← lift (search_envelope (pn_max_bytes plan));
  matcher ← lift (matcher_new (pn_query plan) (pn_case_sensitive plan));
  let content_budget := pn_max_bytes plan - envelope in
  r ← root_loop env limits matcher content_budget plan (pn_roots plan) 0 (mkRooted StopEnd None 0 0 0);
  p ← get_page;
  mret (search_result p r now).
Definition search (q : WorkspaceSearchRequest) (now : N) : B WorkspaceSearchResult :=
  _ ← lift (search_validate q);
  roots ← lift (normalized_roots (sr_paths q));
  _ ← budget_check env;
  scan_search (search_plan q roots) now.
Definition new_search (q : WorkspaceSearchRequest) : Scan SearchPage := mkScan fresh_budget 0 (new_search_page (s_max_matches q)).
End files.
End search.
