(* ===== verification/SearchLine.v ===== *)
(** The matches of a line and the records of a page.

    A record reports a run of the matches of a line; what a page has taken of a line is
    followed by what a search that goes on from there finds. *)

From stdpp Require Import sorting.
From S2P Require Import Prelude RustStr Errors Status ToolPage Scan ScanOrder ScanWalk Listing Search.
Open Scope N_scope.

(** What the [regex] crate promises: the matches in order, on the boundaries of
    characters. *)
Definition range_in (line : str) (range : N * N) : Prop :=
  ∃ a m b, line = a ++ m ++ b ∧ range = (str_len a, str_len a + str_len m).
Definition range_lt (a b : N * N) : Prop := a.1 < b.1.
Class FoldedSearchLaws `{FoldedSearch} := {
  folded_sorted query find_iter line : folded query = Some find_iter → StronglySorted range_lt (find_iter line);
  folded_in query find_iter line range : folded query = Some find_iter → range ∈ find_iter line → range_in line range
}.
Definition good_matcher (matcher : Matcher) : Prop :=
  match matcher with
  | Literal needle => needle ≠ []
  | Folded find_iter => ∀ line, StronglySorted range_lt (find_iter line) ∧ Forall (range_in line) (find_iter line)
  end.
Lemma matcher_good `{FoldedSearchLaws} query case_sensitive matcher :
  query ≠ [] → matcher_new query case_sensitive = Ok matcher → good_matcher matcher.
Proof.
  intros Hq. unfold matcher_new. destruct case_sensitive; [by intros [= <-]|]. intros (f & Hf & [= <-])%bind_Ok. apply ok_or_Ok in Hf.
  intros line. split; [by eapply folded_sorted|]. apply Forall_forall. intros r Hr. by eapply folded_in.
Qed.

(** ** Ranges *)

(** Two cuts of a text. *)
Lemma cut_le a b c d : a ++ b = c ++ d → str_len a <= str_len c → ∃ x, c = a ++ x ∧ b = x ++ d.
Proof.
  intros [(x & -> & ->)|(x & -> & ->)]%app_eq_inv Hle; [|by exists x]. rewrite str_len_app in Hle.
  assert (x = []) as -> by (apply str_len_0; lia). rewrite !app_nil_r. exists []. by rewrite app_nil_r.
Qed.
Lemma floor_cut index line : ∃ a b, line = a ++ b ∧ floor_char_boundary index line = str_len a.
Proof. exists (split_floor index line).1, (split_floor index line).2. by rewrite split_floor_app. Qed.
Lemma floor_at a b : floor_char_boundary (str_len a) (a ++ b) = str_len a.
Proof. unfold floor_char_boundary. by rewrite split_floor_len. Qed.
Lemma slice_at a m b : line_slice (a ++ m ++ b) (str_len a) (str_len a + str_len m) = m.
Proof. unfold line_slice. rewrite split_floor_len. cbn [snd]. replace (str_len a + str_len m - str_len a) with (str_len m) by lia. by rewrite split_floor_len. Qed.

Section literal.
Context (needle : str) (Hneedle : needle ≠ []).

Lemma find_split_prefix rest : find_split needle (needle ++ rest) = Some ([], rest).
Proof using Type. pose proof (strip_prefix_app needle rest) as H. destruct (needle ++ rest); cbn [find_split]; by rewrite H. Qed.
Lemma literal_fuel f g base text :
  (length text <= f)%nat → (length text <= g)%nat → literal_ranges f needle base text = literal_ranges g needle base text.
Proof using Hneedle.
  revert g base text. assert (Hn : find_split needle [] = None) by (destruct needle; done).
  induction f as [|f IH]; intros [|g] base text Hf Hg; cbn [literal_ranges]; [done|..].
  1,2: destruct text; [by rewrite Hn|cbn in *; lia].
  destruct (find_split needle text) as [[before rest]|] eqn:Hs; [|done]. f_equal. apply find_split_Some in Hs. subst text.
  rewrite !length_app in *. destruct needle; [done|]. cbn in *. apply IH; lia.
Qed.
Lemma literal_in fuel base text r : r ∈ literal_ranges fuel needle base text →
  ∃ a b, text = a ++ needle ++ b ∧ r = (base + str_len a, base + str_len a + str_len needle).
Proof using Type.
  revert base text. induction fuel as [|fuel IH]; intros base text; cbn [literal_ranges]; [by intros []%elem_of_nil|].
  destruct (find_split needle text) as [[before rest]|] eqn:Hs; [|by intros []%elem_of_nil]. apply find_split_Some in Hs as ->.
  intros [->|Hr]%elem_of_cons; [by exists before, rest|]. apply IH in Hr as (a & b & -> & ->). exists (before ++ needle ++ a), b.
  rewrite <- !app_assoc, !str_len_app. split; [done|]. f_equal; lia.
Qed.
Lemma literal_restart fuel base text d r rest :
  (length text <= fuel)%nat → literal_ranges fuel needle base text = d ++ r :: rest →
  ∃ a t, text = a ++ t ∧ r.1 = base + str_len a ∧ literal_ranges (length t) needle r.1 t = r :: rest.
Proof using Hneedle.
  revert base text d. induction fuel as [|fuel IH]; intros base text d Hf; cbn [literal_ranges]; [by destruct d|].
  destruct (find_split needle text) as [[before tail]|] eqn:Hs; [|by destruct d]. apply find_split_Some in Hs as ->.
  assert (Ht : (length tail < length (needle ++ tail))%nat) by (rewrite length_app; destruct needle; [done|cbn; lia]).
  rewrite length_app in Hf.
  destruct d as [|x d]; cbn [app]; intros [= <- Hrest].
  - exists before, (needle ++ tail). split; [done|]. split; [done|]. cbn [fst]. destruct (length (needle ++ tail)) as [|n] eqn:Hn; [lia|].
    cbn [literal_ranges]. rewrite find_split_prefix. change (str_len []) with 0. rewrite N.add_0_r. f_equal. rewrite <- Hrest. apply literal_fuel; lia.
  - destruct (IH _ tail d ltac:(lia) Hrest) as (a & t & -> & Hr & Hl). exists (before ++ needle ++ a), t.
    rewrite <- !app_assoc, !str_len_app. split; [done|]. split; [lia|done].
Qed.
End literal.

Section ranges.
Context (matcher : Matcher) (Hmatcher : good_matcher matcher).

Lemma ranges_in line a b : line = a ++ b → Forall (range_in line) (line_ranges matcher line (str_len a)).
Proof using Hmatcher.
  intros ->. unfold line_ranges. destruct (decide _); [constructor|]. apply Forall_forall. destruct matcher as [needle|find_iter]; intros r Hr.
  - rewrite split_floor_len in Hr. cbn in Hr. apply literal_in in Hr as (x & y & -> & ->). exists (a ++ x), needle, y.
    rewrite <- !app_assoc, !str_len_app. done.
  - apply list_elem_of_filter in Hr as [_ Hr]. destruct (Hmatcher (a ++ b)) as [_ Hall]. rewrite Forall_forall in Hall. by apply Hall.
Qed.
(** Searching on from a match finds it and what comes after it. *)
Lemma ranges_restart line a b d r rest :
  line = a ++ b → line_ranges matcher line (str_len a) = d ++ r :: rest → line_ranges matcher line (floor_char_boundary r.1 line) = r :: rest.
Proof using Hmatcher.
  intros Hline Hranges. pose proof (ranges_in line a b Hline) as Hin. rewrite Hranges, Forall_app in Hin. destruct Hin as [_ Hin].
  apply Forall_inv in Hin as (x & m & y & Hx & Hr). rewrite Hr. cbn [fst]. rewrite Hx at 2. rewrite floor_at.
  unfold line_ranges in *. rewrite decide_False in Hranges by (rewrite Hline, str_len_app; lia).
  rewrite decide_False by (rewrite Hx, str_len_app; lia). destruct matcher as [needle|find_iter].
  - rewrite Hline in Hranges at 1. rewrite Hline, split_floor_len in Hranges. cbn [snd] in Hranges.
    destruct (literal_restart needle Hmatcher _ _ _ _ _ _ (Nat.le_refl _) Hranges) as (a' & t & -> & Hr' & Hl).
    rewrite Hr in Hr'. cbn [fst] in Hr'. rewrite app_assoc in Hline.
    assert (Ha : x = a ++ a').
    { rewrite Hx in Hline. destruct (cut_le _ _ _ _ Hline) as (z & Hz & _); [rewrite str_len_app; lia|].
      rewrite Hz. assert (z = []) as ->; [|by rewrite app_nil_r]. apply str_len_0. apply (f_equal str_len) in Hz. rewrite !str_len_app in Hz. lia. }
    rewrite Hline, Ha, split_floor_len. cbn [snd]. rewrite str_len_app, <- Hr'. by rewrite Hr in Hl.
  - destruct (Hmatcher line) as [Hs _]. assert (Hall : ∃ d0, find_iter line = d0 ++ filter (λ found, str_len a <= found.1) (find_iter line)
      ∧ Forall (λ found, ¬ str_len a <= found.1) d0).
    { clear -Hs. induction Hs as [|z l Hs IH Hall]; [by exists []|]. rewrite filter_cons. destruct (decide (str_len a <= z.1)) as [Hz|Hz].
      - exists []. split; [|constructor]. cbn. f_equal. symmetry. apply filter_every. eapply Forall_impl; [exact Hall|].
        unfold range_lt. intros y Hy. lia.
      - destruct IH as (d0 & Heq & Hd0). exists (z :: d0). split; [by rewrite Heq at 1|by constructor]. }
    destruct Hall as (d0 & Heq & _). rewrite Hranges in Heq. rewrite Heq. rewrite app_assoc in Heq. rewrite Heq in Hs. clear Heq Hranges.
    rewrite Hr in *. rewrite app_assoc. apply StronglySorted_app in Hs as (Hlow & _ & Hhigh). rewrite filter_app, (filter_none _ (d0 ++ d)).
    + cbn [app]. rewrite filter_cons_True by (cbn; lia). f_equal. apply filter_every. apply StronglySorted_inv in Hhigh as [_ Hall].
      eapply Forall_impl; [exact Hall|]. unfold range_lt. cbn. intros y' Hy. lia.
    + intros z Hz. specialize (Hlow z (str_len x, str_len x + str_len m) Hz ltac:(by left)). unfold range_lt in Hlow. cbn in Hlow |- *. lia.
Qed.
End ranges.

(** ** Hits and places *)

(** A match of a line of a file, and where and what an answer says it is. *)
Record Hit := mkHit { h_path : str; h_number : N; h_line : str; h_range : N * N }.
Record Place := mkPlace { p_path : str; p_number : N; p_start : N; p_end : N; p_text : str }.
Definition place_of (h : Hit) : Place :=
  mkPlace (h_path h) (h_number h) (h_range h).1 (h_range h).2 (line_slice (h_line h) (h_range h).1 (h_range h).2).
(** The places of a record: its ranges are relative to the text it returns. *)
Definition match_places (m : WorkspaceSearchMatch) : list Place :=
  (λ r, mkPlace (sm_path m) (sm_line_number m) (sm_line_text_byte_offset m + range_start r) (sm_line_text_byte_offset m + range_end r)
          (line_slice (sm_line_text m) (range_start r) (range_end r))) <$> sm_ranges m.
Definition places (ms : list WorkspaceSearchMatch) : list Place := ms ≫= match_places.
Definition hit_in (path : str) (number : N) (line : str) (range : N * N) : Hit := mkHit path number line range.

Section records.
Context `{SearchEncoding} (matcher : Matcher) (content_budget : N).
Abbreviation build p := (build_record content_budget p).

(** A match no page can hold. *)
Definition lost (h : Hit) : Prop := build (new_search_page 0) (h_path h) (h_number h) (h_line h) [h_range h] = None.
(** What is reported of matches: each one in turn, but for the lost ones. *)
Inductive reported : list Hit → list Place → Prop :=
  | reported_nil : reported [] []
  | reported_yes h d s : reported d s → reported (h :: d) (place_of h :: s)
  | reported_no h d s : lost h → reported d s → reported (h :: d) s.
Lemma reported_app d1 s1 d2 s2 : reported d1 s1 → reported d2 s2 → reported (d1 ++ d2) (s1 ++ s2).
Proof using Type. induction 1; intros H2; cbn; auto; by constructor; auto. Qed.
Lemma reported_all d : reported d (place_of <$> d).
Proof using Type. induction d; by constructor. Qed.
Lemma reported_nil_inv s : reported [] s → s = [].
Proof using Type. by inversion 1. Qed.

(** A page within its bounds. *)
Definition taken (ms : list WorkspaceSearchMatch) : N := foldr (λ m n, match_len m + 1 + n) 0 ms.
Lemma taken_app a b : taken (a ++ b) = taken a + taken b.
Proof using Type. induction a as [|m a IH]; [done|]. change (taken ((m :: a) ++ b)) with (match_len m + 1 + taken (a ++ b)). rewrite IH. cbn. fold (taken a). lia. Qed.
Record sound (max : N) (p : SearchPage) : Prop := {
  so_used : sp_used p = taken (sp_matches p);
  so_room : sp_used p <= content_budget;
  so_count : lenN (places (sp_matches p)) + sp_remaining p = max
}.

Lemma build_used p p' path number line ranges : sp_used p = sp_used p' → build p path number line ranges = build p' path number line ranges.
Proof using Type. intros Hu. unfold build_record, build_candidate. by rewrite Hu. Qed.

(** *** What a record says *)

Lemma candidate_places p path number line a mid b ranges m encoded :
  line = a ++ mid ++ b → str_len line <= u32_max → Forall (range_in line) ranges →
  build_candidate content_budget p path number line ranges (str_len a) (str_len a + str_len mid) = Some (m, encoded) →
  match_places m = place_of <$> (hit_in path number line <$> ranges) ∧ lenN (sm_ranges m) = lenN ranges ∧
  encoded = match_len m ∧ sp_used p + encoded + 1 <= content_budget.
Proof using Type.
  intros Hline Hmax Hin. unfold build_candidate. destruct (decide _) as [|_]; [done|]. destruct (existsb _ _) eqn:Hout; [done|].
  destruct (decide _) as [|Hfits]; [done|]. intros [= <- <-]. set (record := mkMatch _ _ _ _ _ _) in *.
  split; [|split; [by unfold record, lenN; cbn; rewrite length_fmap|split; [done|lia]]].
  rewrite <- list_fmap_compose. unfold match_places, record. cbn [sm_path sm_line_number sm_line_text_byte_offset sm_ranges sm_line_text].
  rewrite <- list_fmap_compose. apply list_fmap_ext. intros i r Hr. apply list_elem_of_lookup_2 in Hr. unfold place_of, hit_in. cbn.
  rewrite Forall_forall in Hin. destruct (Hin r Hr) as (x & t & y & Ht & ->). cbn [fst snd].
  apply not_true_iff_false in Hout. rewrite existsb_exists in Hout.
  assert (Hb : ¬ str_len x < str_len a ∧ ¬ str_len a + str_len mid < str_len x + str_len t).
  { split; intros Hlt; apply Hout; eexists; (split; [by apply list_elem_of_In|]); cbn [fst snd]; rewrite orb_true_iff;
      [left|right]; by apply bool_decide_eq_true. }
  destruct Hb as [Hb1 Hb2].
  assert (Hlen : str_len x + str_len t <= u32_max) by (rewrite Ht, !str_len_app in Hmax; lia).
  unfold clamp_u32. rewrite !N.min_l by lia.
  assert (Hcuts : ∃ x' y', x = a ++ x' ∧ mid = x' ++ t ++ y').
  { rewrite Hline in Ht. destruct (cut_le _ _ _ _ Ht) as (x' & -> & Ht'); [lia|]. exists x'.
    rewrite str_len_app in Hb2. rewrite (app_assoc x' t y) in Ht'. symmetry in Ht'.
    destruct (cut_le _ _ _ _ Ht') as (y' & -> & _); [rewrite str_len_app; lia|]. exists y'. by rewrite <- app_assoc. }
  destruct Hcuts as (x' & y' & -> & ->). rewrite str_len_app.
  replace (str_len a + (str_len a + str_len x' - str_len a)) with (str_len a + str_len x') by lia.
  replace (str_len a + (str_len a + str_len x' + str_len t - str_len a)) with (str_len a + str_len x' + str_len t) by lia.
  f_equal. rewrite Ht at 2. rewrite Hline. rewrite slice_at.
  replace (str_len a + str_len x' - str_len a) with (str_len x') by lia.
  replace (str_len a + str_len x' + str_len t - str_len a) with (str_len x' + str_len t) by lia. rewrite slice_at.
  rewrite <- (str_len_app a x'). by rewrite slice_at.
Qed.
Lemma record_places p path number line ranges m encoded :
  str_len line <= u32_max → Forall (range_in line) ranges → build p path number line ranges = Some (m, encoded) →
  match_places m = place_of <$> (hit_in path number line <$> ranges) ∧ lenN (sm_ranges m) = lenN ranges ∧
  encoded = match_len m ∧ sp_used p + encoded + 1 <= content_budget.
Proof using Type.
  intros Hmax Hin. unfold build_record. destruct (head ranges) as [first|]; [|done]. destruct (last ranges) as [lst|]; [|done].
  destruct (build_candidate _ p path number line ranges 0 (str_len line)) as [[m' encoded']|] eqn:Hwhole.
  - intros [= -> ->]. apply (candidate_places p path number line [] line []); [by rewrite app_nil_r|done|done|exact Hwhole].
  - cbv zeta. destruct (floor_cut (first.1 - LINE_CONTEXT_BYTES) line) as (a & b & Ha & ->). destruct (floor_cut lst.2 line) as (c & d & Hc & ->).
    destruct (decide _) as [|Hlt]; [done|]. rewrite Hc in Ha. symmetry in Ha. destruct (cut_le _ _ _ _ Ha) as (mid & -> & _); [lia|].
    rewrite str_len_app. apply (candidate_places p path number line a mid d); [by rewrite Hc, <- app_assoc|done|done].
Qed.

(** *** A line *)

(** [record_ranges] and [visit_line] over files that do not change. *)
Fixpoint pure_records (p : SearchPage) (path : str) (number : N) (line : str) (overflow : option N) (ranges : list (N * N))
    : SearchPage * option (N * N) :=
  match ranges with
  | [] => (p, (λ offset, (number, as_u32 offset)) <$> overflow)
  | range :: rest =>
      match build p path number line [range] with
      | None =>
          if decide (sp_matches p ≠ []) then (p, Some (number, as_u32 range.1))
          else pure_records (drop_match p) path number line overflow rest
      | Some record =>
          let '(accepted, record) := widen content_budget (length ranges) p path number line ranges 1 (length ranges) record in
          (commit record.1 record.2 p,
           (λ offset, (number, as_u32 offset)) <$> match ranges !! accepted with Some next => Some next.1 | None => overflow end)
      end
  end.
Definition pure_line (p : SearchPage) (path : str) (number : N) (line : str) (from : N) : SearchPage * option (N * N) :=
  let found := line_ranges matcher line from in
  let room := N.to_nat (sp_remaining p) in
  pure_records p path number line (fst <$> found !! room) (take room found).

Lemma widen_spec fuel p path number line ranges accepted upper record accepted' record' :
  widen content_budget fuel p path number line ranges accepted upper record = (accepted', record') →
  (1 <= accepted <= upper)%nat → (upper <= length ranges)%nat → build p path number line (take accepted ranges) = Some record →
  (1 <= accepted' <= length ranges)%nat ∧ build p path number line (take accepted' ranges) = Some record'.
Proof using Type.
  revert accepted upper record. induction fuel as [|fuel IH]; intros accepted upper record; cbn [widen]; [by intros [= <- <-]; split; [lia|]|].
  destruct (decide _) as [Hlt|]; [|by intros [= <- <-]; split; [lia|]]. cbv zeta.
  set (mid := (accepted + (upper - accepted + 1) / 2)%nat).
  assert (Hmid : (accepted < mid <= upper)%nat).
  { subst mid. pose proof (Nat.div_le_lower_bound (upper - accepted + 1) 2 1 ltac:(lia) ltac:(lia)).
    pose proof (Nat.Div0.div_le_upper_bound (upper - accepted + 1) 2 (upper - accepted) ltac:(lia)). lia. }
  destruct (build p path number line (take mid ranges)) as [candidate|] eqn:Hc; intros Hw H1 H2 Hr.
  - by apply IH in Hw; [|lia|lia|].
  - by apply IH in Hw; [|lia|lia|].
Qed.

(** What a page does with a part of the matches: it takes [d], reports them and stops
    before the rest. *)
Record takes (max : N) (p p' : SearchPage) (d : list Hit) : Prop := {
  ta_matches : ∃ ms, sp_matches p' = sp_matches p ++ ms ∧ reported d (places ms) ∧ (d = [] → ms = []);
  ta_sound : sound max p'
}.
Lemma takes_nil max p p' : sound max p → sp_matches p' = sp_matches p → sp_used p' = sp_used p → sp_remaining p' = sp_remaining p → takes max p p' [].
Proof using Type.
  intros [Hu Hr Hc] Hm Hus Hre. split; [exists []; rewrite app_nil_r; by repeat constructor|]. split; by rewrite ?Hm, ?Hus, ?Hre.
Qed.
Lemma takes_trans max p p1 p2 d1 d2 : takes max p p1 d1 → takes max p1 p2 d2 → takes max p p2 (d1 ++ d2).
Proof using Type.
  intros [(m1 & H1 & Hr1 & Hn1) _] [(m2 & H2 & Hr2 & Hn2) Hs]. split; [|done]. exists (m1 ++ m2). rewrite H2, H1, <- app_assoc. split; [done|].
  unfold places. rewrite bind_app. split; [by apply reported_app|]. intros [-> ->]%app_nil. by rewrite Hn1, Hn2.
Qed.
(** The position of the first match of what is left. *)
Definition stop_at (r : list Hit) : option (N * N) := (λ h, (h_number h, (h_range h).1)) <$> head r.

Lemma records_spec max p path number line overflow ranges p' stop :
  sound max p → str_len line <= u32_max → Forall (range_in line) ranges → lenN ranges <= sp_remaining p →
  (∀ offset, overflow = Some offset → offset <= u32_max) →
  pure_records p path number line overflow ranges = (p', stop) →
  ∃ d r, ranges = d ++ r ∧ takes max p p' (hit_in path number line <$> d) ∧
    stop = (match head r with Some next => Some (number, next.1) | None => (λ offset, (number, offset)) <$> overflow end) ∧
    (ranges ≠ [] → sp_matches p ≠ [] ∨ d ≠ []).
Proof using Type.
  intros Hsound Hmax Hin Hroom Hover.
  assert (Hu32 : ∀ n, n <= u32_max → as_u32 n = n) by (intros n Hn; unfold as_u32; apply N.mod_small; lia).
  assert (Hov : (λ offset, (number, as_u32 offset)) <$> overflow = (λ offset, (number, offset)) <$> overflow).
  { destruct overflow as [offset|]; [|done]. cbn. by rewrite Hu32 by auto. }
  assert (Hstart : ∀ range, range ∈ ranges → range.1 <= u32_max).
  { intros range Hr. rewrite Forall_forall in Hin. destruct (Hin range Hr) as (a & m & b & Hl & ->). cbn [fst]. rewrite Hl, str_len_app in Hmax. lia. }
  clear Hover. revert p Hsound Hroom. induction ranges as [|range rest IH]; intros p Hsound Hroom; cbn [pure_records].
  { intros [= <- <-]. exists [], []. split; [done|]. split; [by apply takes_nil|]. split; [exact Hov|done]. }
  apply Forall_cons in Hin as Hin'. destruct Hin' as [Hrange Hrest]. rewrite lenN_cons in Hroom.
  destruct (build p path number line [range]) as [record|] eqn:Hb.
  - destruct (widen _ _ _ _ _ _ _ _ _ _) as [accepted [m encoded]] eqn:Hw. intros [= <- <-].
    apply widen_spec in Hw as [Hacc Hbuild]; [|cbn [length]; lia|done|exact Hb].
    pose proof (take_drop accepted (range :: rest)) as Hsplit.
    assert (Hin1 : Forall (range_in line) (take accepted (range :: rest))) by by apply Forall_take.
    destruct (record_places p path number line _ m encoded Hmax Hin1 Hbuild) as (Hplaces & Hlen & -> & Hfits).
    exists (take accepted (range :: rest)), (drop accepted (range :: rest)). split; [done|]. split; [|split].
    + destruct Hsound as [Hu Hr Hc]. split.
      * exists [m]. split; [done|]. unfold places. cbn. rewrite app_nil_r, Hplaces. split; [apply reported_all|].
        intros Hnil%fmap_nil_inv. destruct accepted; [lia|done].
      * assert (Hcount : lenN (match_places m) = lenN (sm_ranges m)) by (unfold match_places, lenN; by rewrite length_fmap).
        assert (Htake : lenN (take accepted (range :: rest)) <= lenN (range :: rest)) by (unfold lenN; rewrite length_take; lia).
        rewrite lenN_cons in Htake. split; cbn [sp_used sp_matches sp_remaining commit fst snd].
        -- rewrite taken_app. cbn. lia.
        -- lia.
        -- unfold places. rewrite bind_app, lenN_app. cbn. rewrite app_nil_r. fold (places (sp_matches p)). lia.
    + assert (head (drop accepted (range :: rest)) = (range :: rest) !! accepted) as -> by (rewrite <- (Nat.add_0_r accepted) at 2; rewrite <- lookup_drop; by destruct (drop _ _)). destruct (_ !! accepted) as [next|] eqn:Hnext; [|exact Hov].
      cbn. rewrite Hu32; [done|]. apply Hstart. by eapply list_elem_of_lookup_2.
    + intros _. right. destruct accepted; [lia|done].
  - destruct (decide (sp_matches p ≠ [])) as [Hne|Hnil].
    + intros [= <- <-]. exists [], (range :: rest). split; [done|]. split; [by apply takes_nil|]. split; [|by left].
      cbn. rewrite Hu32; [done|]. apply Hstart. by left.
    + apply dec_stable in Hnil. intros Hp.
      destruct (IH Hrest ltac:(intros; apply Hstart; by right) (drop_match p)) as (d & r & -> & Htakes & Hstop & _);
        [by destruct Hsound; split|cbn; lia|done|].
      exists (range :: d), r. split; [done|]. split; [|split; [done|by right]].
      change (hit_in path number line <$> range :: d) with ([hit_in path number line range] ++ (hit_in path number line <$> d)).
      eapply takes_trans; [|exact Htakes]. split; [|by destruct Hsound; split]. exists []. split; [by rewrite app_nil_r|]. split; [|done].
      constructor; [|constructor]. unfold lost. cbn [hit_in h_path h_number h_line h_range]. rewrite <- Hb. apply build_used. rewrite (so_used _ _ Hsound), Hnil. done.
Qed.
End records.
