(* ===== verification/SearchFile.v ===== *)
(** The matches of a file, and the visitor of a search as a function.

    A file is searched line by line from a position on; over files that do not change the
    visitor of [Search] is a function of the entry and the page. *)

From stdpp Require Import sorting.
From S2P Require Import Prelude RustStr Errors Status ToolPage Scan ScanOrder ScanWalk Listing Search SearchLine.
Open Scope N_scope.

Section lines.
Context `{SearchEncoding} (matcher : Matcher) (content_budget : N).
Context (Hmatcher : good_matcher matcher).

Definition start_in (resume_line resume_offset number : N) (line : str) : N :=
  if decide (number = resume_line) then floor_char_boundary resume_offset line else 0.
(** The matches of the lines of a file, from a line and an offset in it on. *)
Fixpoint file_hits (path : str) (resume_line resume_offset : N) (segments : list str) (number : N) : list Hit :=
  match segments with
  | [] => []
  | segment :: segments =>
      let line := strip_line_end segment in
      (if decide (N.max resume_line 1 <= number)
       then hit_in path number line <$> line_ranges matcher line (start_in resume_line resume_offset number line) else [])
      ++ file_hits path resume_line resume_offset segments (clamp_u32 (number + 1))
  end.
(** [scan_lines] over files that do not change. *)
Fixpoint pure_lines (p : SearchPage) (path : str) (resume_line resume_offset : N) (segments : list str) (number : N)
    : SearchPage * option (N * N) :=
  match segments with
  | [] => (p, None)
  | segment :: segments =>
      let line := strip_line_end segment in
      let '(p, stop) := if decide (N.max resume_line 1 <= number)
                        then pure_line matcher content_budget p path number line (start_in resume_line resume_offset number line)
                        else (p, None) in
      match stop with Some _ => (p, stop) | None => pure_lines p path resume_line resume_offset segments (clamp_u32 (number + 1)) end
  end.

Lemma start_cut resume_line resume_offset number line : ∃ a b, line = a ++ b ∧ start_in resume_line resume_offset number line = str_len a.
Proof using Type. unfold start_in. destruct (decide _); [apply floor_cut|by exists [], line]. Qed.

Abbreviation takes_ := (takes content_budget).
Lemma line_spec max p path number line resume_line resume_offset p' stop :
  1 <= max → sound content_budget max p → str_len line <= u32_max →
  pure_line matcher content_budget p path number line (start_in resume_line resume_offset number line) = (p', stop) →
  ∃ d r, hit_in path number line <$> line_ranges matcher line (start_in resume_line resume_offset number line) = d ++ r ∧
    takes_ max p p' d ∧ stop = stop_at r ∧ (stop ≠ None → sp_matches p ≠ [] ∨ d ≠ []).
Proof using Hmatcher.
  intros Hpos Hsound Hmax Hline. destruct (start_cut resume_line resume_offset number line) as (a & b & Hab & Hstart). rewrite Hstart in *.
  pose proof (ranges_in matcher Hmatcher line a b Hab) as Hin. unfold pure_line in Hline.
  set (found := line_ranges matcher line (str_len a)) in *. cbv zeta in Hline. set (room := N.to_nat (sp_remaining p)) in *.
  destruct (records_spec content_budget max p path number line (fst <$> found !! room) (take room found) p' stop Hsound Hmax) as (d & r & Hd & Htakes & Hstop & Hprog).
  - by apply Forall_take.
  - unfold lenN. rewrite length_take. lia.
  - intros offset Ho. destruct (found !! room) as [range|] eqn:Hr; [|done]. injection Ho as <-. apply list_elem_of_lookup_2 in Hr.
    rewrite Forall_forall in Hin. destruct (Hin _ Hr) as (x & m & y & Hl & ->). cbn [fst]. rewrite Hl, str_len_app in Hmax. lia.
  - exact Hline.
  - exists (hit_in path number line <$> d), (hit_in path number line <$> r ++ drop room found).
    split; [by rewrite <- fmap_app, app_assoc, <- Hd, take_drop|]. split; [done|].
    assert (Hhead : head (drop room found) = found !! room) by (rewrite <- (Nat.add_0_r room) at 2; rewrite <- lookup_drop; by destruct (drop _ _)).
    split.
    + rewrite Hstop. unfold stop_at. destruct r as [|x r]; [|done]. cbn [app head]. rewrite <- Hhead. by destruct (drop room found).
    + intros Hne. destruct (decide (take room found = [])) as [Hnil|Hsome].
      * left. rewrite Hnil in Hd. symmetry in Hd. apply app_nil in Hd as [-> ->]. cbn in Hstop. destruct (found !! room) as [x|] eqn:Hx; [|by subst stop].
        assert (Hzero : sp_remaining p = 0).
        { assert (Hroom : room = 0%nat) by (clear -Hx Hnil; clearbody room found; destruct room, found; done). unfold room in Hroom. lia. }
        destruct Hsound as [_ _ Hcount]. intros Hm. rewrite Hm in Hcount. change (0 + sp_remaining p = max) in Hcount. lia.
      * destruct (Hprog Hsome) as [|Hd']; [by left|]. right. by intros ->%fmap_nil_inv.
Qed.

(** The lines of a file from a position on. *)
Lemma lines_spec max path resume_line resume_offset segments number p p' stop :
  1 <= max → sound content_budget max p → Forall (λ segment, str_len (strip_line_end segment) <= u32_max) segments →
  pure_lines p path resume_line resume_offset segments number = (p', stop) →
  ∃ d r, file_hits path resume_line resume_offset segments number = d ++ r ∧ takes_ max p p' d ∧ stop = stop_at r ∧
    (stop ≠ None → sp_matches p ≠ [] ∨ d ≠ []).
Proof using Hmatcher.
  intros Hpos. revert number p. induction segments as [|segment segments IH]; intros number p Hsound Hmax; cbn [pure_lines file_hits].
  { intros [= <- <-]. exists [], []. split; [done|]. split; [by apply takes_nil|done]. }
  apply Forall_cons in Hmax as [Hline Hmax]. cbv zeta.
  destruct (if decide _ then pure_line _ _ _ _ _ _ _ else _) as [p1 stop1] eqn:Hone.
  assert (Hspec : ∃ d r, (if decide (N.max resume_line 1 <= number)
       then hit_in path number (strip_line_end segment) <$> line_ranges matcher (strip_line_end segment)
              (start_in resume_line resume_offset number (strip_line_end segment)) else []) = d ++ r ∧
    takes_ max p p1 d ∧ stop1 = stop_at r ∧ (stop1 ≠ None → sp_matches p ≠ [] ∨ d ≠ [])).
  { destruct (decide _); [by apply (line_spec max p)|]. injection Hone as <- <-. exists [], []. split; [done|]. split; [by apply takes_nil|done]. }
  clear Hone. destruct Hspec as (d1 & r1 & -> & Ht1 & Hs1 & Hp1). destruct stop1 as [position|].
  - intros [= <- <-]. exists d1, (r1 ++ file_hits path resume_line resume_offset segments (clamp_u32 (number + 1))).
    split; [by rewrite <- app_assoc|]. split; [done|]. split; [|done]. rewrite Hs1. by destruct r1.
  - destruct r1 as [|]; [|done]. intros Hrest. destruct (IH _ p1 (ta_sound _ _ _ _ _ Ht1) Hmax Hrest) as (d2 & r2 & -> & Ht2 & Hs2 & Hp2).
    exists (d1 ++ d2), r2. rewrite app_nil_r, app_assoc. split; [done|]. split; [by eapply takes_trans|]. split; [done|].
    intros Hne. destruct (Hp2 Hne) as [Hm|Hd]; [|right; by intros [_ ?]%app_nil].
    destruct (decide (sp_matches p = [])) as [Hnil|]; [|by left]. right. intros [-> _]%app_nil.
    destruct (ta_matches _ _ _ _ _ Ht1) as (ms & Hms & _ & Hempty). rewrite Hms, Hnil, Hempty in Hm by done. done.
Qed.

(** *** Going on from a match *)

Lemma clamp_small n : n <= u32_max → clamp_u32 n = n.
Proof using Type. apply N.min_l. Qed.
Lemma file_hits_number path resume_line resume_offset segments number :
  number + lenN segments <= u32_max → Forall (λ h, number <= h_number h ∧ resume_line <= h_number h) (file_hits path resume_line resume_offset segments number).
Proof using Type.
  revert number. induction segments as [|segment segments IH]; intros number Hn; [constructor|]. rewrite lenN_cons in Hn. cbn [file_hits]. cbv zeta.
  apply Forall_app. split.
  - destruct (decide _) as [Hle|]; [|constructor]. apply Forall_fmap, Forall_forall. intros r _. cbn. lia.
  - rewrite clamp_small by lia. eapply Forall_impl; [apply IH; lia|]. cbn. lia.
Qed.
Lemma file_hits_in path resume_line resume_offset segments number h :
  h ∈ file_hits path resume_line resume_offset segments number →
  h_path h = path ∧ ∃ segment, segment ∈ segments ∧ h_line h = strip_line_end segment ∧ range_in (h_line h) (h_range h).
Proof using Hmatcher.
  revert number. induction segments as [|segment segments IH]; intros number; cbn [file_hits]; cbv zeta; [by intros []%elem_of_nil|].
  intros [Hh|Hh]%elem_of_app.
  - destruct (decide _); [|by apply elem_of_nil in Hh]. apply list_elem_of_fmap in Hh as (r & -> & Hr). split; [done|].
    exists segment. split; [by left|]. split; [done|]. cbn [hit_in h_line h_range].
    destruct (start_cut resume_line resume_offset number (strip_line_end segment)) as (a & b & Hab & Hs). rewrite Hs in Hr.
    pose proof (ranges_in matcher Hmatcher _ a b Hab) as Hin. rewrite Forall_forall in Hin. by apply Hin.
  - destruct (IH _ Hh) as (Hpath & s & Hs & Hrest). split; [done|]. exists s. split; [by right|done].
Qed.
(** Lines after the one to resume in are searched from their beginning. *)
Lemma file_hits_later path l o l' o' segments number :
  number + lenN segments <= u32_max → l < number → l' < number → 1 <= number →
  file_hits path l o segments number = file_hits path l' o' segments number.
Proof using Type.
  revert number. induction segments as [|segment segments IH]; intros number Hn H1 H2 H3; [done|]. rewrite lenN_cons in Hn. cbn [file_hits]. cbv zeta.
  rewrite !decide_True by lia. unfold start_in. rewrite !decide_False by lia. rewrite clamp_small by lia. f_equal. apply IH; lia.
Qed.
Lemma file_hits_restart path resume_line resume_offset segments number d h r :
  number + lenN segments <= u32_max → 1 <= number →
  file_hits path resume_line resume_offset segments number = d ++ h :: r →
  file_hits path (h_number h) (h_range h).1 segments number = h :: r.
Proof using Hmatcher.
  revert number d. induction segments as [|segment segments IH]; intros number d Hn Hpos; [by destruct d|].
  pose proof (file_hits_number path resume_line resume_offset segments (clamp_u32 (number + 1))) as Hlater.
  rewrite lenN_cons in Hn. cbn [file_hits]. cbv zeta. set (line := strip_line_end segment). rewrite clamp_small in * by lia. specialize (Hlater ltac:(lia)).
  set (here := if decide (N.max resume_line 1 <= number) then _ else []). intros Hhits.
  apply app_eq_inv in Hhits as [(k & Hk & Hr)|(k & Hk & Hr)].
  - destruct k as [|x k].
    { (* the match is the first one of the later lines *)
      rewrite app_nil_r in Hk. cbn in Hr. rewrite <- Hr, Forall_cons in Hlater. destruct Hlater as [[Hnum _] _].
      rewrite decide_False by lia. cbn [app]. by apply (IH _ []); [lia|lia|]. }
    injection Hr as -> Hr. subst here. destruct (decide (N.max resume_line 1 <= number)) as [Hle|]; [|by destruct d].
    apply fmap_app_inv in Hk as (d0 & k0 & -> & Hk0 & Hranges). symmetry in Hk0. apply fmap_cons_inv in Hk0 as (range & k1 & -> & -> & ->).
    cbn [h_number h_range hit_in]. destruct (start_cut resume_line resume_offset number line) as (a & b & Hab & Hs).
    rewrite decide_True by lia. unfold start_in at 1. rewrite decide_True by done.
    assert (Hr1 : line_ranges matcher line (floor_char_boundary range.1 line) = range :: k1).
    { apply (ranges_restart matcher Hmatcher line a b d0); [done|]. by rewrite <- Hs. }
    rewrite Hr1. cbn [fmap list_fmap app]. f_equal. rewrite Hr. f_equal. apply file_hits_later; lia.
  - subst d. rewrite Hr in Hlater. apply Forall_app in Hlater as [_ Hlater]. apply Forall_inv in Hlater as [Hnum _].
    rewrite decide_False by lia. cbn [app]. by apply (IH _ k); [lia|lia|].
Qed.
End lines.

(** ** Files that do not change *)

Section visitor.
Context `{IgnoreRules} `{ListingEncoding} `{SearchEncoding}.
Context (F : FileSystem) (limits : ScanLimits) (matcher : Matcher) (content_budget : N).
Abbreviation env := (still F).
Abbreviation B := (stm (Scan SearchPage) AgentError).

Definition broken_start (bytes chunk : list N) : bool := bool_decide (lenN bytes = lenN chunk ∧ utf8_broken bytes = true).
(** Reading with the bytes examined so far, and without a budget. *)
Fixpoint pure_chunks (reads : list (option (list N))) (bytes : list N) (examined : N) : N * ReadFile :=
  match reads with
  | None :: _ => (examined, ReadFailed)
  | [] | Some [] :: _ => (examined, whole_text bytes)
  | Some chunk :: reads =>
      match checked_add examined (lenN chunk) with
      | Some total =>
          if decide (total <= l_bytes limits) then
            if decide (MAX_READ_BYTES < lenN bytes + lenN chunk) then (total, ReadUnsupported) else
            if decide (0 ∈ chunk) then (total, ReadUnsupported) else
            if broken_start (bytes ++ chunk) chunk then (total, ReadUnsupported) else
            pure_chunks reads (bytes ++ chunk) total
          else (examined, ReadStopBytes)
      | None => (examined, ReadStopBytes)
      end
  end.
Fixpoint free_chunks (reads : list (option (list N))) (bytes : list N) : ReadFile :=
  match reads with
  | None :: _ => ReadFailed
  | [] | Some [] :: _ => whole_text bytes
  | Some chunk :: reads =>
      if decide (MAX_READ_BYTES < lenN bytes + lenN chunk) then ReadUnsupported else
      if decide (0 ∈ chunk) then ReadUnsupported else
      if broken_start (bytes ++ chunk) chunk then ReadUnsupported else
      free_chunks reads (bytes ++ chunk)
  end.
Lemma chunks_free reads bytes examined : (pure_chunks reads bytes examined).2 = ReadStopBytes ∨ (pure_chunks reads bytes examined).2 = free_chunks reads bytes.
Proof using Type.
  revert bytes examined. induction reads as [|[[|c chunk]|] reads IH]; intros bytes examined; cbn [pure_chunks free_chunks]; [by right..| |by right].
  destruct (checked_add _ _); [|by left]. destruct (decide (_ <= l_bytes limits)); [|by left]. destruct (decide (MAX_READ_BYTES < _)); [by right|].
  destruct (decide (0 ∈ _)); [by right|]. destruct (broken_start _ _); [by right|]. apply IH.
Qed.
Lemma free_text reads bytes text : lenN bytes <= MAX_READ_BYTES → free_chunks reads bytes = ReadText text → str_len text <= MAX_READ_BYTES.
Proof using Type.
  revert bytes. assert (Hwhole : ∀ bytes, lenN bytes <= MAX_READ_BYTES → whole_text bytes = ReadText text → str_len text <= MAX_READ_BYTES).
  { intros bytes Hb. unfold whole_text. destruct (decide _); [done|]. destruct (from_utf8 bytes) as [t|] eqn:Ht; [|done]. intros [= <-].
    apply from_utf8_sound in Ht. by rewrite <- as_bytes_len, Ht. }
  induction reads as [|[[|c chunk]|] reads IH]; intros bytes Hb; cbn [free_chunks]; [by apply Hwhole..| |done].
  destruct (decide (MAX_READ_BYTES < _)) as [|Hlen]; [done|]. destruct (decide (0 ∈ _)); [done|]. destruct (broken_start _ _); [done|].
  apply IH. rewrite lenN_app. lia.
Qed.

Definition read_error (kind : WorkspaceFileKind) (error : WorkspaceError) : ReadFile :=
  match error with
  | WsNotFound => if decide (kind = FSymlink) then ReadUnsupported else ReadFailed
  | WsNotFile | WsNotDirectory | WsEscape | WsInvalidPath => ReadUnsupported
  | _ => ReadFailed
  end.
Definition pure_read (entry : WalkEntry) (examined : N) : N * ReadFile :=
  if decide (e_kind entry = FOther) then (examined, ReadUnsupported) else
  match fs_regular F (e_relative entry) with
  | Err error => (examined, read_error (e_kind entry) error)
  | Ok (len, reads) => if decide (MAX_READ_BYTES < len) then (examined, ReadUnsupported) else pure_chunks reads [] examined
  end.
(** What there is to search in an entry. *)
Definition entry_text (entry : WalkEntry) : option str :=
  if decide (e_kind entry = FDirectory ∨ e_kind entry = FOther) then None else
  match fs_regular F (e_relative entry) with
  | Err _ => None
  | Ok (len, reads) =>
      if decide (MAX_READ_BYTES < len) then None else match free_chunks reads [] with ReadText text => Some text | _ => None end
  end.
Definition pure_file (entry : WalkEntry) (resume : option (N * N)) (p : SearchPage) (examined : N) : SearchPage * N * FileScan :=
  let (examined, read) := pure_read entry examined in
  match read with
  | ReadUnsupported => (skip_file 0 p, examined, ScanDone)
  | ReadFailed => (skip_file 1 p, examined, ScanDone)
  | ReadStopBytes => (p, examined, ScanStopBytes)
  | ReadText text =>
      let (p, stop) := pure_lines matcher content_budget (set_file_dropped false p) (e_relative entry) (from_option fst 0 resume)
                         (from_option snd 0 resume) (split_inclusive LF text) 1 in
      (if sp_file_dropped p then skip_file 0 p else p, examined,
       match stop with Some (line, offset) => ScanStopInside line offset | None => ScanDone end)
  end.
Definition search_react (start_entry : option str) (resume : option (N * N)) (entry : WalkEntry) (p : SearchPage) (examined : N)
    : SearchPage * N * Visit :=
  if decide (e_kind entry = FDirectory) then (p, examined, Next) else
  if decide (sp_remaining p = 0) then (p, examined, StopBefore StopPage) else
  let '(p, examined, found) := pure_file entry (if decide (start_entry = Some (e_relative entry)) then resume else None) p examined in
  (p, examined, match found with
                | ScanDone => Next
                | ScanStopInside line offset => StopInside StopPage line offset
                | ScanStopBytes => StopBefore StopBytes
                end).

(** *** The visitor runs as the function *)

Definition examine_bytes (examined : N) (b : ScanBudget) : ScanBudget :=
  mkBudget (b_entries b) examined (b_rule_files b) (b_rule_bytes b) (b_rules_exhausted b) (b_expired b).
(** On time, [m] takes the page [p] and the bytes examined to [p'] and [examined'], and
    returns [a]. *)
Definition runs {A} (m : B A) (p : SearchPage) (examined : N) (a : A) (p' : SearchPage) (examined' : N) : Prop :=
  ∀ b ticks, b_expired b = false → b_bytes b = examined → ∃ ticks', m (mkScan b ticks p) = (mkScan (examine_bytes examined' b) ticks' p', Ok a).

Lemma runs_ret {A} (a : A) p n : runs (mret a) p n a p n.
Proof using Type. intros b ticks _ <-. exists ticks. by destruct b. Qed.
Lemma runs_bind {A C} (m : B A) (f : A → B C) p n a p1 n1 c p2 n2 :
  runs m p n a p1 n1 → runs (f a) p1 n1 c p2 n2 → runs (m ≫= f) p n c p2 n2.
Proof using Type.
  intros Hm Hf b ticks Hb Hn. destruct (Hm b ticks Hb Hn) as [t1 E1]. destruct (Hf (examine_bytes n1 b) t1) as [t2 E2]; [done|done|].
  exists t2. unfold mbind, stm_bind. by rewrite E1, E2.
Qed.
Lemma runs_expired p n : runs (check_expired env) p n false p n.
Proof using Type.
  intros b ticks Hb <-. eexists. unfold check_expired, mbind, stm_bind. rewrite budget_check_still. cbn. rewrite Hb. unfold time_expired, mbind, stm_bind, get, next_moment. cbn. rewrite Hb. by destruct b.
Qed.
Lemma runs_get p n : runs get_page p n p p n.
Proof using Type. intros b ticks _ <-. exists ticks. by destruct b. Qed.
Lemma runs_put p p' n : runs (put_page p') p n tt p' n.
Proof using Type. intros b ticks _ <-. exists ticks. by destruct b. Qed.
Lemma runs_moment p n : runs (next_moment env) p n (mkMoment F false false) p n.
Proof using Type. intros b ticks _ <-. eexists. by destruct b. Qed.
Lemma runs_bytes len p n :
  runs (byte_available limits len) p n
    (match checked_add n len with Some total => bool_decide (total <= l_bytes limits) | None => false end) p
    (match checked_add n len with Some total => if decide (total <= l_bytes limits) then total else n | None => n end).
Proof using Type.
  intros b ticks Hb <-. exists ticks. unfold byte_available, mbind, stm_bind, get. cbn. destruct (checked_add _ _) as [total|]; [|by destruct b].
  destruct (decide (total <= l_bytes limits)); [rewrite bool_decide_eq_true_2 by done|rewrite bool_decide_eq_false_2 by done]; by destruct b.
Qed.

Ltac runs_step lem := eapply runs_bind; [apply lem|cbv beta iota].

Lemma runs_take p n found ranges :
  let room := (N.to_nat (sp_remaining p) - length ranges)%nat in
  runs (take_ranges env found ranges) p n (ranges ++ take room found, fst <$> found !! room) p n.
Proof using Type.
  revert ranges. induction found as [|range found IH]; intros ranges room; cbn [take_ranges].
  { rewrite take_nil, app_nil_r. destruct room; apply runs_ret. }
  runs_step runs_expired. runs_step runs_get. specialize (IH (ranges ++ [range])). cbv zeta in IH. rewrite length_app in IH. cbn [length] in IH.
  destruct (decide _) as [Hfull|Hroom].
  - assert (room = 0%nat) as -> by (unfold lenN in Hfull; lia). rewrite app_nil_r. apply runs_ret.
  - assert (Hsucc : room = S (N.to_nat (sp_remaining p) - (length ranges + 1))) by (unfold lenN in Hroom; lia).
    rewrite Hsucc. cbn [take lookup list_lookup]. by rewrite <- app_assoc in IH.
Qed.
Lemma runs_records p n path number line overflow ranges :
  let '(p', stop) := pure_records content_budget p path number line overflow ranges in
  runs (record_ranges content_budget path number line overflow ranges) p n stop p' n.
Proof using Type.
  revert p. induction ranges as [|range rest IH]; intros p; cbn [record_ranges pure_records]; [apply runs_ret|].
  destruct (build_record content_budget p path number line [range]) as [record|] eqn:Hb.
  - destruct (widen _ _ _ _ _ _ _ _ _ _) as [accepted record'] eqn:Hw. runs_step runs_get. rewrite Hb, Hw.
    runs_step runs_put. apply runs_ret.
  - specialize (IH (drop_match p)). destruct (decide _) as [Hne|Hnil].
    + runs_step runs_get. rewrite Hb, decide_True by done. apply runs_ret.
    + destruct (pure_records _ (drop_match p) _ _ _ _ _) as [p' stop]. runs_step runs_get. rewrite Hb, decide_False by done.
      runs_step runs_put. exact IH.
Qed.
Lemma runs_line p n path number line from :
  let '(p', stop) := pure_line matcher content_budget p path number line from in
  runs (visit_line env matcher content_budget path number line from) p n stop p' n.
Proof using Type.
  unfold pure_line, visit_line. cbv zeta. pose proof (runs_take p n (line_ranges matcher line from) []) as Htake. cbv zeta in Htake.
  cbn [length app] in Htake. rewrite Nat.sub_0_r in Htake.
  pose proof (runs_records p n path number line (fst <$> line_ranges matcher line from !! N.to_nat (sp_remaining p))
    (take (N.to_nat (sp_remaining p)) (line_ranges matcher line from))) as Hrecords.
  destruct (pure_records _ _ _ _ _ _ _) as [p' stop]. eapply runs_bind; [exact Htake|exact Hrecords].
Qed.
Lemma runs_lines p n path resume_line resume_offset segments number :
  let '(p', stop) := pure_lines matcher content_budget p path resume_line resume_offset segments number in
  runs (scan_lines env matcher content_budget path resume_line resume_offset segments number) p n stop p' n.
Proof using Type.
  revert p number. induction segments as [|segment segments IH]; intros p number; cbn [scan_lines pure_lines]; [apply runs_ret|]. cbv zeta.
  destruct (decide (N.max resume_line 1 <= number)) as [Hvisit|Hskip].
  - pose proof (runs_line p n path number (strip_line_end segment) (start_in resume_line resume_offset number (strip_line_end segment))) as Hline.
    destruct (pure_line _ _ _ _ _ _ _) as [p1 stop1]. specialize (IH p1 (clamp_u32 (number + 1))).
    destruct stop1 as [position|]; [|destruct (pure_lines _ _ p1 _ _ _ _ _) as [p2 stop2]]; runs_step runs_expired; eapply runs_bind; [exact Hline|apply runs_ret|exact Hline|exact IH].
  - specialize (IH p (clamp_u32 (number + 1))). destruct (pure_lines _ _ p _ _ _ _ _) as [p2 stop2]. runs_step runs_expired.
    eapply runs_bind; [apply runs_ret|exact IH].
Qed.
Lemma runs_chunks p n reads bytes :
  let '(n', read) := pure_chunks reads bytes n in runs (read_chunks env limits reads bytes) p n read p n'.
Proof using Type.
  revert n bytes. induction reads as [|[[|c chunk]|] reads IH]; intros n bytes; cbn [read_chunks pure_chunks];
    try (runs_step runs_expired; apply runs_ret).
  set (whole := c :: chunk) in *. pose proof (runs_bytes (lenN whole) p n) as Hbytes.
  destruct (checked_add n (lenN whole)) as [total|].
  2: { runs_step runs_expired. eapply runs_bind; [exact Hbytes|apply runs_ret]. }
  destruct (decide (total <= l_bytes limits)) as [Hfit|Hover].
  2: { runs_step runs_expired. rewrite bool_decide_eq_false_2 in Hbytes by done. eapply runs_bind; [exact Hbytes|apply runs_ret]. }
  rewrite bool_decide_eq_true_2 in Hbytes by done. specialize (IH total (bytes ++ whole)). unfold broken_start.
  destruct (decide (MAX_READ_BYTES < _)) as [Hbig|Hsmall].
  { runs_step runs_expired. eapply runs_bind; [exact Hbytes|]. cbn [negb]; cbv beta iota. apply runs_ret. }
  destruct (decide (0 ∈ whole)) as [Hzero|Hnozero].
  { runs_step runs_expired. eapply runs_bind; [exact Hbytes|]. cbn [negb]; cbv beta iota. apply runs_ret. }
  destruct (decide (lenN (bytes ++ whole) = lenN whole ∧ utf8_broken (bytes ++ whole) = true)) as [Hbad|Hok].
  { rewrite bool_decide_eq_true_2 by done. runs_step runs_expired. eapply runs_bind; [exact Hbytes|]. cbn [negb]; cbv beta iota. apply runs_ret. }
  rewrite bool_decide_eq_false_2 by done. destruct (pure_chunks reads (bytes ++ whole) total) as [n' read].
  runs_step runs_expired. eapply runs_bind; [exact Hbytes|]. cbn [negb]; cbv beta iota. exact IH.
Qed.
Lemma runs_read p n entry :
  let '(n', read) := pure_read entry n in runs (read_searchable_file env limits entry) p n read p n'.
Proof using Type.
  unfold pure_read, read_searchable_file. destruct (decide _); [apply runs_ret|].
  destruct (fs_regular F (e_relative entry)) as [[len reads]|error] eqn:Hf.
  - destruct (decide (MAX_READ_BYTES < len)) as [Hbig|Hsmall].
    + runs_step runs_moment. cbn [m_fs]. rewrite Hf, decide_True by done. apply runs_ret.
    + pose proof (runs_chunks p n reads []) as Hchunks. destruct (pure_chunks reads [] n) as [n' read]. runs_step runs_moment. cbn [m_fs].
      rewrite Hf, decide_False by done. exact Hchunks.
  - runs_step runs_moment. cbn [m_fs]. rewrite Hf. apply runs_ret.
Qed.
Lemma runs_file p n entry resume :
  let '(p', n', found) := pure_file entry resume p n in
  runs (scan_file env limits matcher content_budget entry resume) p n found p' n'.
Proof using Type.
  unfold pure_file, scan_file. pose proof (runs_read p n entry) as Hread. destruct (pure_read entry n) as [n' [text| | |]].
  - pose proof (runs_lines (set_file_dropped false p) n' (e_relative entry) (from_option fst 0 resume) (from_option snd 0 resume) (split_inclusive LF text) 1) as Hlines.
    destruct (pure_lines _ _ _ _ _ _ _ _) as [p1 stop]. eapply runs_bind; [exact Hread|]. cbv beta iota. runs_step runs_get. runs_step runs_put.
    eapply runs_bind; [exact Hlines|]. runs_step runs_get. destruct (sp_file_dropped p1).
    + runs_step runs_put. apply runs_ret.
    + eapply runs_bind; [apply runs_ret|]. apply runs_ret.
  - eapply runs_bind; [exact Hread|]. cbv beta iota. runs_step runs_get. runs_step runs_put. apply runs_ret.
  - eapply runs_bind; [exact Hread|]. cbv beta iota. runs_step runs_get. runs_step runs_put. apply runs_ret.
  - eapply runs_bind; [exact Hread|]. apply runs_ret.
Qed.
Lemma runs_entry start_entry resume p n entry :
  let '(p', n', x) := search_react start_entry resume entry p n in
  runs (search_entry env limits matcher content_budget start_entry resume entry) p n x p' n'.
Proof using Type.
  unfold search_react, search_entry. destruct (decide _); [apply runs_ret|]. destruct (decide (sp_remaining p = 0)) as [Hz|Hz].
  { runs_step runs_get. rewrite decide_True by done. apply runs_ret. }
  pose proof (runs_file p n entry (if decide (start_entry = Some (e_relative entry)) then resume else None)) as Hfile.
  destruct (pure_file _ _ _ _) as [[p' n'] found]. runs_step runs_get. rewrite decide_False by done. eapply runs_bind; [exact Hfile|apply runs_ret].
Qed.

(** *** The budget of rules is left alone *)

Definition keeps {A} (m : B A) : Prop := ∀ s, b_rules_exhausted (sc_budget s) = true → b_rules_exhausted (sc_budget (m s).1) = true.
Lemma keeps_bind {A C} (m : B A) (f : A → B C) : keeps m → (∀ a, keeps (f a)) → keeps (m ≫= f).
Proof using Type. intros Hm Hf s Hs. specialize (Hm s Hs). unfold mbind, stm_bind. destruct (m s) as [s' [a|e]]; [by apply Hf|done]. Qed.
Lemma keeps_ret {A} (a : A) : keeps (mret a).
Proof using Type. by intros s. Qed.
Lemma keeps_expired : keeps (check_expired env).
Proof using Type. intros s Hs. unfold check_expired, mbind, stm_bind. rewrite budget_check_still. cbn. by destruct (b_expired (sc_budget s)). Qed.
Lemma keeps_page : keeps get_page.
Proof using Type. by intros s. Qed.
Lemma keeps_put p : keeps (put_page p).
Proof using Type. by intros s. Qed.
Lemma keeps_moment : keeps (next_moment env).
Proof using Type. by intros s. Qed.
Lemma keeps_bytes len : keeps (byte_available limits len).
Proof using Type. intros s Hs. unfold byte_available, mbind, stm_bind, get. cbn. destruct (checked_add _ _); [|done]. by destruct (decide _). Qed.
#[local] Hint Resolve keeps_ret keeps_expired keeps_page keeps_put keeps_moment keeps_bytes : keeps.
Ltac keeps_steps :=
  repeat first
    [ progress intros
    | solve [auto with keeps]
    | match goal with
      | |- keeps (_ ≫= _) => apply keeps_bind
      | |- keeps (if ?b then _ else _) => destruct b
      | |- keeps (match ?x with _ => _ end) => destruct x
      | |- keeps (let _ := _ in _) => cbv zeta
      end ].
Lemma keeps_take found ranges : keeps (take_ranges env found ranges).
Proof using Type. revert ranges. induction found; intros ranges; cbn [take_ranges]; keeps_steps. Qed.
Lemma keeps_records path number line overflow ranges : keeps (record_ranges content_budget path number line overflow ranges).
Proof using F. induction ranges; cbn [record_ranges]; keeps_steps. Qed.
#[local] Hint Resolve keeps_take keeps_records : keeps.
Lemma keeps_lines path resume_line resume_offset segments number :
  keeps (scan_lines env matcher content_budget path resume_line resume_offset segments number).
Proof using Type. revert number. induction segments; intros number; cbn [scan_lines]; unfold visit_line; keeps_steps. Qed.
Lemma keeps_chunks reads bytes : keeps (read_chunks env limits reads bytes).
Proof using Type. revert bytes. induction reads as [|[[|c chunk]|] reads IH]; intros bytes; cbn [read_chunks]; keeps_steps. Qed.
#[local] Hint Resolve keeps_lines keeps_chunks : keeps.

Lemma search_reacts start_entry resume :
  reacts (search_react start_entry resume) (search_entry env limits matcher content_budget start_entry resume).
Proof using Type.
  split; intros e s.
  - apply (λ Hk : keeps (search_entry env limits matcher content_budget start_entry resume e), Hk s).
    unfold search_entry, scan_file, read_searchable_file. keeps_steps.
  - intros Hb. cbv zeta. pose proof (runs_entry start_entry resume (sc_visitor s) (b_bytes (sc_budget s)) e) as Hrun.
    destruct (search_react _ _ _ _ _) as [[p' n'] x]. destruct (Hrun (sc_budget s) (sc_ticks s) Hb eq_refl) as [ticks Ht]. exists ticks.
    destruct s as [b t p]. exact Ht.
Qed.
End visitor.
