(* ===== verification/SearchWalk.v ===== *)
(** What one page of a search takes of the files it walks over. *)

From stdpp Require Import sorting.
From S2P Require Import Prelude RustStr Errors Status ToolPage Scan ScanOrder ScanWalk ScanCursor Listing ListingPage ListingFollow Search SearchLine SearchFile.
Open Scope N_scope.

Lemma segment_len segment text : segment ∈ split_inclusive LF text → str_len segment <= str_len text.
Proof.
  rewrite <- (split_inclusive_concat LF text) at 2. induction (split_inclusive LF text) as [|s l IH]; [by intros []%elem_of_nil|].
  cbn [concat]. rewrite str_len_app. intros [->|Hs]%elem_of_cons; [lia|]. specialize (IH Hs). lia.
Qed.
Lemma line_end_len segment : str_len (strip_line_end segment) <= str_len segment.
Proof.
  assert (Hstrip : ∀ c s t, strip_suffix_char c s = Some t → str_len t <= str_len s) by (intros c s t ->%strip_suffix_char_Some; rewrite str_len_app; lia).
  unfold strip_line_end. destruct (strip_suffix_char LF segment) as [line|] eqn:Hl; [|lia]. apply Hstrip in Hl.
  destruct (strip_suffix_char CR line) as [line'|] eqn:Hc; [|done]. apply Hstrip in Hc. lia.
Qed.
Lemma segments_count text : lenN (split_inclusive LF text) <= str_len text.
Proof.
  enough (lenN (split_inclusive LF text) <= lenN text) by (pose proof (str_len_ge_length text); lia).
  induction text as [|c text IH]; [done|]. cbn [split_inclusive]. destruct (decide _); [rewrite !lenN_cons; lia|].
  destruct (split_inclusive LF text) as [|s l]; rewrite ?lenN_cons, ?lenN_nil in *; lia.
Qed.

Section walk.
Context `{IgnoreRules} `{ListingEncoding} `{SearchEncoding}.
Context (F : FileSystem) (limits : ScanLimits) (matcher : Matcher) (content_budget max : N).
Context (Hmatcher : good_matcher matcher).
Context (start_entry : option str) (resume : option (N * N)) (start : option Path).
Abbreviation takes_ := (takes content_budget).

(** The matches of an entry from a position on. *)
Definition hits_of (e : WalkEntry) (resume : option (N * N)) : list Hit :=
  match entry_text F e with
  | Some text => file_hits matcher (e_relative e) (from_option fst 0 resume) (from_option snd 0 resume) (split_inclusive LF text) 1
  | None => []
  end.
Definition hits_at (start_entry : option str) (resume : option (N * N)) (x : New) : list Hit :=
  match n_raw x with RawSeen e => hits_of e (if decide (start_entry = Some (e_relative e)) then resume else None) | _ => [] end.
Abbreviation hits_ := (hits_at start_entry resume).
Abbreviation react_ := (search_react F limits matcher content_budget start_entry resume).

Lemma text_short e text : entry_text F e = Some text → str_len text <= MAX_READ_BYTES.
Proof using Type.
  unfold entry_text. destruct (decide _); [done|]. destruct (fs_regular F _) as [[len reads]|]; [|done]. destruct (decide _); [done|].
  destruct (free_chunks reads []) eqn:Hf; try done. intros [= <-]. by apply (free_text reads []).
Qed.
(** A match of an entry that was met. *)
Lemma hits_of_in e position h : h ∈ hits_of e position → 1 <= h_number h <= u32_max ∧ (h_range h).1 <= MAX_READ_BYTES.
Proof using Hmatcher.
  unfold hits_of. destruct (entry_text F e) as [text|] eqn:Ht; [|by intros []%elem_of_nil]. apply text_short in Ht.
  pose proof (segments_count text) as Hcount. intros Hh. split.
  - split.
    + pose proof (file_hits_number matcher (e_relative e) (from_option fst 0 position) (from_option snd 0 position) (split_inclusive LF text) 1) as Hn.
      rewrite Forall_forall in Hn; [by destruct (Hn ltac:(unfold MAX_READ_BYTES, u32_max in *; lia) h Hh)|..].
    + clear Hmatcher. revert Hh. assert (Hbound : 1 + lenN (split_inclusive LF text) <= u32_max) by (unfold MAX_READ_BYTES, u32_max in *; lia).
      clear -Hbound. revert Hbound. generalize (split_inclusive LF text) as l. generalize 1 as n. intros n l. revert n.
      induction l as [|s l IH]; intros n Hb; cbn [file_hits]; cbv zeta; [by intros []%elem_of_nil|]. rewrite lenN_cons in Hb.
      intros [Hh|Hh]%elem_of_app; [|rewrite (clamp_small (n + 1)) in Hh by lia; eapply IH; [|exact Hh]; lia].
      destruct (decide _); [|by apply elem_of_nil in Hh]. apply list_elem_of_fmap in Hh as (r & -> & _). cbn. lia.
  - apply (file_hits_in matcher Hmatcher) in Hh as (_ & segment & Hs & Hl & x & m & y & Hx & ->). cbn [fst].
    apply segment_len in Hs. pose proof (line_end_len segment) as Hle. rewrite <- Hl, Hx, str_len_app in Hle. lia.
Qed.
Lemma hits_of_restart e position d h r :
  hits_of e position = d ++ h :: r → hits_of e (Some (h_number h, (h_range h).1)) = h :: r.
Proof using Hmatcher.
  unfold hits_of. destruct (entry_text F e) as [text|] eqn:Ht; [|by destruct d]. apply text_short in Ht. pose proof (segments_count text) as Hcount.
  apply (file_hits_restart matcher Hmatcher); [unfold MAX_READ_BYTES, u32_max in *; lia|lia].
Qed.

(** *** An entry *)

Lemma read_text_of e examined :
  e_kind e ≠ FDirectory →
  match (pure_read F limits e examined).2 with
  | ReadText text => entry_text F e = Some text
  | ReadStopBytes => True
  | _ => entry_text F e = None
  end.
Proof using Type.
  intros Hdir. unfold pure_read, entry_text. destruct (decide (e_kind e = FOther)) as [Ho|Ho]; [by rewrite decide_True by tauto|].
  rewrite decide_False by tauto. destruct (fs_regular F (e_relative e)) as [[len reads]|error].
  - destruct (decide (MAX_READ_BYTES < len)); [done|]. destruct (chunks_free limits reads [] examined) as [->|Hf]; [done|]. rewrite Hf.
    destruct (free_chunks reads []) eqn:Hc; [done..|]. done.
  - cbn [snd]. unfold read_error. destruct error; try done. by destruct (decide _).
Qed.
Context (Hmax : 1 <= max).
Lemma file_takes e position p examined :
  e_kind e ≠ FDirectory → sound content_budget max p →
  let '(p', examined', found) := pure_file F limits matcher content_budget e position p examined in
  match found with
  | ScanDone => takes_ max p p' (hits_of e position)
  | ScanStopBytes => p' = p
  | ScanStopInside line offset => ∃ d h r, hits_of e position = d ++ h :: r ∧ takes_ max p p' d ∧ line = h_number h ∧ offset = (h_range h).1 ∧
      (sp_matches p ≠ [] ∨ d ≠ [])
  end.
Proof using Hmatcher Hmax.
  intros Hdir Hsound. unfold pure_file. pose proof (read_text_of e examined Hdir) as Hread.
  destruct (pure_read F limits e examined) as [examined' read]. cbn [snd] in Hread. unfold hits_of. destruct read as [text| | |].
  - rewrite Hread. pose proof (text_short e text Hread) as Htext.
    assert (Hset : takes_ max p (set_file_dropped false p) []) by by apply takes_nil.
    destruct (pure_lines _ _ _ _ _ _ _ _) as [p1 stop] eqn:Hlines.
    assert (Hseg : Forall (λ segment, str_len (strip_line_end segment) <= u32_max) (split_inclusive LF text)).
    { apply Forall_forall. intros s Hs%segment_len. pose proof (line_end_len s). unfold MAX_READ_BYTES, u32_max in *. lia. }
    destruct (lines_spec matcher content_budget Hmatcher max _ _ _ _ _ _ p1 stop Hmax (ta_sound _ _ _ _ _ Hset) Hseg Hlines)
      as (d & r & -> & Htakes & Hstop & Hprog).
    pose proof (takes_trans _ _ _ _ _ _ _ Hset Htakes) as Hall. cbn [app] in Hall.
    assert (Hend : takes_ max p (if sp_file_dropped p1 then skip_file 0 p1 else p1) d).
    { rewrite <- (app_nil_r d). eapply takes_trans; [exact Hall|]. pose proof (ta_sound _ _ _ _ _ Hall). destruct (sp_file_dropped p1); by apply takes_nil. }
    destruct stop as [[line offset]|]; [|destruct r as [|h r]; [by rewrite app_nil_r|done]].
    destruct r as [|h r]; [done|]. injection Hstop as -> ->. exists d, h, r. split; [done|]. split; [done|]. split; [done|]. split; [done|]. by apply Hprog.
  - rewrite Hread. by apply takes_nil.
  - rewrite Hread. by apply takes_nil.
  - done.
Qed.

(** ** The walk *)

Record searching (from : str) (done : list New) (k : Core SearchPage) : Prop := {
  se_reason : k_reason k = StopEnd;
  se_next : k_next k = None;
  se_resume : k_resume k = None;
  se_last : k_last k = last_text from done;
  se_takes : takes_ max (new_search_page max) (k_visitor k) (done ≫= hits_)
}.
(** Stopped between entries: a next page may begin after the last text. *)
Record stopped_between (from : str) (done : list New) (k : Core SearchPage) : Prop := {
  sb_reason : page_reason (k_reason k);
  sb_resume : k_resume k = None;
  sb_next : k_next k = None ∨ k_next k = if core_usable start k (last_text from done) then Some (last_text from done) else None;
  sb_takes : takes_ max (new_search_page max) (k_visitor k) (done ≫= hits_)
}.
(** Stopped inside an entry, before one of its matches. *)
Record stopped_inside (done : list New) (x : New) (h : Hit) (k : Core SearchPage) : Prop := {
  si_reason : k_reason k = StopPage;
  si_resume : k_resume k = Some (h_number h, (h_range h).1);
  si_next : k_next k = Some (display_path (n_path x));
  si_place : ∃ e d r, n_raw x = RawSeen e ∧ hits_ x = d ++ h :: r ∧ takes_ max (new_search_page max) (k_visitor k) ((done ≫= hits_) ++ d) ∧
    (done ≠ [] ∨ d ≠ [])
}.

Lemma searching_same from done k k' :
  searching from done k → k_reason k' = k_reason k → k_next k' = k_next k → k_resume k' = k_resume k → k_last k' = k_last k →
  k_visitor k' = k_visitor k → searching from done k'.
Proof using Type. intros [] Er En Es El Ev. by split; rewrite ?Er, ?En, ?Es, ?El, ?Ev. Qed.
Lemma searching_pass from done x k k' :
  searching from done k → hits_ x = [] → k_reason k' = k_reason k → k_next k' = k_next k → k_resume k' = k_resume k →
  k_last k' = last_text (last_text from done) [x] → k_visitor k' = k_visitor k → searching from (done ++ [x]) k'.
Proof using Type.
  intros [Hr Hn Hs Hl Ht] Hx Er En Es El Ev. split; rewrite ?Er, ?En, ?Es, ?El, ?Ev; try done; [by rewrite last_text_app|].
  rewrite bind_app. cbn. by rewrite Hx, !app_nil_r.
Qed.
Lemma searching_stop from done k reason next :
  searching from done k → page_reason reason → next = None ∨ next = Some (last_text from done) →
  stopped_between from done (core_stop start reason next k).
Proof using Type.
  intros [Hr Hn Hs Hl Ht] Hreason Hnext. unfold core_stop. rewrite decide_True by done. split; cbn; try done.
  destruct Hnext as [->| ->]; [by left|by right].
Qed.

Abbreviation step_ := (step limits start react_).
Abbreviation steps_ := (steps limits start react_).

Lemma search_step from done i k :
  searching from done k → (∀ x, new_of i = Some x → honest x) →
  match new_of i with
  | None => searching from done (step_ k i) ∨ stopped_between from done (step_ k i)
  | Some x => searching from (done ++ [x]) (step_ k i) ∨ stopped_between from done (step_ k i) ∨ ∃ h, stopped_inside done x h (step_ k i)
  end.
Proof using Hmatcher Hmax.
  intros Hk Hnew. pose proof (se_reason _ _ _ Hk) as Hreason. unfold step.
  assert (core_stopped k = false) as -> by (apply bool_decide_eq_false; rewrite Hreason; tauto).
  destruct i as [n| |before child utf8 raw|].
  - left. by eapply searching_same; eauto.
  - cbn [new_of]. destruct (decide _); [right|left; by eapply searching_same; eauto].
    apply searching_stop; [by eapply searching_same; eauto|right; by left|by left].
  - destruct before.
    { cbn [new_of]. left. destruct raw; cbn [core_examine core_note negb andb]; by eapply searching_same; eauto. }
    specialize (Hnew (mkNew child utf8 raw) eq_refl). cbn [new_of]. set (x := mkNew child utf8 raw) in *.
    pose proof (se_last _ _ _ Hk) as Hlast. destruct (decide (l_entries limits <= k_entries k)) as [Hfull|_].
    { right. left. apply searching_stop; [done|right; by left|right; by rewrite Hlast]. }
    assert (Hnote : hits_ x = [] → ∀ k', k_reason k' = k_reason k → k_next k' = k_next k → k_resume k' = k_resume k → k_last k' = k_last k →
      k_visitor k' = k_visitor k → searching from (done ++ [x]) (core_note false utf8 child k')).
    { intros Hx k' Er En Es El Ev. unfold core_note. cbn [negb andb]. eapply searching_pass; [exact Hk|exact Hx|..]; cbn; destruct utf8; try done.
      cbn. by rewrite El. }
    destruct raw as [| | |e]; cbn [core_examine].
    + left. by apply Hnote.
    + left. by apply Hnote.
    + left. eapply searching_pass; [exact Hk|done|done|done|done| |done]. cbn in Hnew |- *. by rewrite Hnew.
    + destruct Hnew as [Hutf Hpath]. cbn in Hutf, Hpath.
      assert (Htext : last_text from (done ++ [x]) = e_relative e) by (rewrite last_text_app; cbn; by rewrite Hutf, Hpath).
      assert (Hhits : (done ++ [x]) ≫= hits_ = (done ≫= hits_) ++ hits_of e (if decide (start_entry = Some (e_relative e)) then resume else None)).
      { rewrite bind_app. cbn. by rewrite app_nil_r. }
      pose proof (se_takes _ _ _ Hk) as Htakes. pose proof (ta_sound _ _ _ _ _ Htakes) as Hsound.
      unfold search_react. cbn [k_visitor core_claim k_bytes]. destruct (decide (e_kind e = FDirectory)) as [Hdir|Hfile].
      { left. destruct Hk. split; cbn; try done. rewrite Hhits. unfold hits_of, entry_text. rewrite decide_True by tauto. by rewrite app_nil_r. }
      assert (Hbefore : ∀ v bytes reason, v = k_visitor k → page_reason reason →
        stopped_between from done (core_apply start (StopBefore reason) (e_relative e) (core_visit v bytes (core_claim k)))).
      { intros v bytes reason -> Hr. cbn [core_apply]. apply searching_stop; [|done|right; by rewrite <- Hlast]. by eapply searching_same; eauto. }
      destruct (decide (sp_remaining (k_visitor k) = 0)) as [Hzero|_]; [right; left; apply Hbefore; [done|by left]|].
      set (position := if decide (start_entry = Some (e_relative e)) then resume else None) in *.
      pose proof (file_takes e position (k_visitor k) (k_bytes k) Hfile Hsound) as Hfound.
      destruct (pure_file _ _ _ _ e position (k_visitor k) (k_bytes k)) as [[p' examined'] [|line offset|]].
      * left. destruct Hk. split; cbn; try done. rewrite Hhits. by eapply takes_trans.
      * right. right. destruct Hfound as (d & h & r & Hd & Ht & -> & -> & Hprog). exists h. cbn [core_apply].
        unfold core_stop. cbn [core_set_stop k_reason core_visit core_claim]. rewrite decide_True by done. split; cbn; try done.
        { unfold core_usable. cbn. by rewrite Hpath. }
        exists e, d, r. split; [done|]. split; [done|]. split; [by eapply takes_trans|]. destruct Hprog as [Hm|]; [left|by right].
        intros ->. destruct (ta_matches _ _ _ _ _ Htakes) as (ms & Hms & _ & Hnil). cbn in Hms. by rewrite Hms, Hnil in Hm.
      * right. left. apply Hbefore; [done|by right; right].
  - left. by eapply searching_same; eauto.
Qed.

Lemma search_steps from l done k :
  searching from done k → Forall honest (news l) →
  searching from (done ++ news l) (steps_ l k) ∨
  ∃ d r, news l = d ++ r ∧ (stopped_between from (done ++ d) (steps_ l k) ∨ ∃ x r' h, r = x :: r' ∧ stopped_inside (done ++ d) x h (steps_ l k)).
Proof using Hmatcher Hmax.
  intros Hk Hhonest. revert done k Hk. induction l as [|i l IH]; intros done k Hk; [left; by rewrite app_nil_r|].
  assert (Hi : ∀ x, new_of i = Some x → honest x).
  { intros x Hx. cbn in Hhonest. rewrite Hx in Hhonest. by apply Forall_inv in Hhonest. }
  assert (Hl : Forall honest (news l)).
  { cbn in Hhonest. destruct (new_of i); [|done]. by apply Forall_inv_tail in Hhonest. }
  specialize (IH Hl). pose proof (search_step from done i k Hk Hi) as Hstep.
  assert (Hstop : k_reason (step_ k i) ≠ StopEnd → steps_ l (step_ k i) = step_ k i).
  { intros Hr. apply steps_stopped. by apply bool_decide_eq_true. }
  assert (Hbetween : ∀ done', stopped_between from done' (step_ k i) → k_reason (step_ k i) ≠ StopEnd).
  { intros done' Hb. destruct (sb_reason _ _ _ Hb) as [->|[->| ->]]; done. }
  assert (Hinside : ∀ done' x h, stopped_inside done' x h (step_ k i) → k_reason (step_ k i) ≠ StopEnd).
  { intros done' x h Hs. by rewrite (si_reason _ _ _ _ Hs). }
  cbn [steps foldl news omap list_omap]. fold (news l). change (foldl _ (step_ k i) l) with (steps_ l (step_ k i)). destruct (new_of i) as [x|].
  - destruct Hstep as [Hgo|[Hb|[h Hs]]].
    + destruct (IH _ _ Hgo) as [Hgo'|(d & r & Hd & Hh)]; [left; by rewrite <- app_assoc in Hgo'|].
      right. exists (x :: d), r. rewrite Hd. split; [done|]. by rewrite <- app_assoc in Hh.
    + right. exists [], (x :: news l). split; [done|]. rewrite app_nil_r, Hstop by by eapply Hbetween. by left.
    + right. exists [], (x :: news l). split; [done|]. rewrite app_nil_r, Hstop by by eapply Hinside. right. by exists x, (news l), h.
  - destruct Hstep as [Hgo|Hb]; [by apply IH|].
    right. exists [], (news l). split; [done|]. rewrite app_nil_r, Hstop by by eapply Hbetween. by left.
Qed.
End walk.
