(* ===== verification/SearchFollow.v ===== *)
(** Following the cursors of a search.

    Over files that do not change, the answers a client is given one after the other report
    the matches of the files of a directory in order, from the first one on, each one once. *)

From stdpp Require Import sorting.
From S2P Require Import Prelude RustStr Errors Status ToolPage Scan ScanOrder ScanWalk ScanCursor Listing ListingPage ListingFollow Search SearchLine SearchFile SearchWalk.
Open Scope N_scope.

(** An answer is no longer than the probe with its matches and the path of its cursor. *)
Class SearchEncodingLaws `{SearchEncoding} := {
  search_result_len_bound r :
    ss_skipped_files r <= u64_max → ss_observed_at r <= u64_max → ss_scan_complete r = negb (ss_truncated r) →
    (∀ c, ss_next_cursor r = Some c →
       sc_path_index c <= u32_max ∧ sc_line c <= u32_max ∧ sc_line_byte_offset c <= u32_max ∧ valid_scope (sc_scope c) = true) →
    search_result_len r <= search_result_len search_probe + taken (ss_matches r)
      + from_option (λ c, string_len (sc_path c) - 2) 0 (ss_next_cursor r)
}.

(** What is met from [x] on, when [x] is a file to resume in. *)
Lemma resume_inside options a x b :
  o_resume_file options = true → StronglySorted new_lt (a ++ x :: b) →
  filter (λ y, positioning options (Some (n_path x)) (n_path y) = false) (a ++ x :: b) = x :: b.
Proof.
  intros Hopt Hs. unfold positioning. cbn [from_option]. rewrite Hopt, filter_app. rewrite (filter_none _ a).
  - cbn [app]. apply filter_every. apply StronglySorted_app in Hs as (_ & _ & Hs). apply StronglySorted_inv in Hs as [_ Hs].
    constructor; [by rewrite path_lt_irrefl, andb_false_r|]. eapply Forall_impl; [exact Hs|]. intros y Hy. by rewrite (path_lt_asym _ _ Hy), andb_false_r.
  - apply StronglySorted_app in Hs as (Hs & _ & _). intros y Hy. unfold new_lt in Hs. rewrite (Hs y x); [done..|by left].
Qed.

Section search.
Context `{IgnoreRules} `{ListingEncoding} `{SearchEncoding} `{FoldedSearch}.
Context (F : FileSystem) (limits : ScanLimits) (now : N).

Definition search_with (q : WorkspaceSearchRequest) (c : WorkspaceSearchCursor) : WorkspaceSearchRequest :=
  mkSearchRequest (sr_session q) (sr_query q) (sr_paths q) (sr_case_sensitive q) (Some c) (sr_max_matches q) (sr_max_bytes q).
Definition search_at (q : WorkspaceSearchRequest) : Scan SearchPage * result AgentError WorkspaceSearchResult :=
  search (still F) limits q now (new_search q).
Fixpoint search_follow (fuel : nat) (q : WorkspaceSearchRequest) : list (Scan SearchPage * result AgentError WorkspaceSearchResult) :=
  let page := search_at q in
  page ::
  match fuel, page.2 with
  | S fuel, Ok r => match ss_next_cursor r with Some c => search_follow fuel (search_with q c) | None => [] end
  | _, _ => []
  end.

(** ** The matches of a directory *)

Definition search_start (plan : SearchPlan) : option Path := (λ path, components (as_bytes path)) <$> pn_start_entry plan.
Definition search_whole (resolved : Path) : list New :=
  if root_excluded F (repository F) resolved then [] else news (root_items F limits (search_options None) (repository F) None resolved).
(** The entries and the matches that are left from a cursor on. *)
Definition search_todo (resolved : Path) (plan : SearchPlan) : list New :=
  filter (λ x, positioning (search_options (pn_resume plan)) (search_start plan) (n_path x) = false) (search_whole resolved).
Definition all_hits (matcher : Matcher) (resolved : Path) : list Hit := search_whole resolved ≫= hits_at F matcher None None.
Definition hits_todo (matcher : Matcher) (resolved : Path) (plan : SearchPlan) : list Hit :=
  search_todo resolved plan ≫= hits_at F matcher (pn_start_entry plan) (pn_resume plan).

Section page.
Context (matcher : Matcher) (Hmatcher : good_matcher matcher) (relative resolved : Path) (Hserved : served F relative resolved).
Abbreviation whole := (search_whole resolved).
Abbreviation todo := (search_todo resolved).

Lemma search_whole_proper : Forall proper whole.
Proof using Hserved.
  unfold search_whole, root_items. destruct (root_excluded _ _ _); [constructor|]. destruct (root_rules _ _ _) as [[rules exclude] lost].
  apply items_proper; [apply (sv_names _ _ _ Hserved)|apply (sv_utf8 _ _ _ Hserved)|apply (sv_good _ _ _ Hserved)].
Qed.
Lemma search_whole_sorted : StronglySorted new_lt whole.
Proof using Type.
  unfold search_whole, root_items. destruct (root_excluded _ _ _); [constructor|]. destruct (root_rules _ _ _) as [[rules exclude] lost]. apply items_ordered.
Qed.
Lemma search_items plan :
  root_excluded F (repository F) resolved = false →
  news (root_items F limits (search_options (pn_resume plan)) (repository F) (search_start plan) resolved) = todo plan.
Proof using Type.
  intros Hex. unfold search_todo, search_whole. rewrite Hex. unfold root_items. destruct (root_rules _ _ _) as [[rules exclude] lost].
  rewrite (items_resume F limits (search_options (pn_resume plan)) (repository F) exclude (search_start plan) _ false rules resolved 0). reflexivity.
Qed.

(** ** One page *)

Definition search_core (plan : SearchPlan) (content : N) : Core SearchPage :=
  root_core F limits (search_options (pn_resume plan)) (repository F) (search_start plan)
    (search_react F limits matcher content (pn_start_entry plan) (pn_resume plan)) resolved
    (new_core (default [] (pn_start_entry plan)) (new_search_page (pn_max_matches plan))).
Definition search_cursor (plan : SearchPlan) (room : N) (out : WalkOutcome) : option WorkspaceSearchCursor :=
  path ← out_next out;
  if decide (MAX_PATH_BYTES < str_len path ∨ room < string_len path - 2) then None
  else Some (mkSearchCursor 0 path (from_option fst 0 (out_resume out)) (from_option snd 0 (out_resume out)) (pn_scope plan)).
Definition search_page_result (plan : SearchPlan) (content : N) : WorkspaceSearchResult :=
  let p := k_visitor (search_core plan content) in
  let out := outcome_of (search_core plan content) in
  search_result p (mkRooted (out_reason out) (search_cursor plan (content - sp_used p) out)
    (0 + out_unrepresentable out) (0 + out_unreadable out) (0 + out_excluded out)) now.

Lemma search_at_still q directory size :
  search_validate q = Ok tt → normalized_roots (sr_paths q) = Ok [directory] → from_option sc_path_index 0 (sr_cursor q) = 0 →
  search_envelope (s_max_bytes q) = Ok size → matcher_new (sr_query q) (s_case_sensitive q) = Ok matcher →
  normalize_relative directory true = Some relative →
  b_rules_exhausted (sc_budget (search_at q).1) = false →
  (search_at q).2 = Ok (search_page_result (search_plan q [directory]) (s_max_bytes q - size)).
Proof using Hserved.
  intros Hv Hd Hindex Hs Hm Hn. destruct Hserved as [Hnames Hcanon [len Hlen] Hreq Hutf Hgood].
  unfold search_at, search, scan_search. set (content := s_max_bytes q - size).
  assert (Hplan : ∃ plan, plan = search_plan q [directory]) by by eexists. destruct Hplan as [plan Hplan].
  pose proof (walk_scope_still F limits directory (search_options (pn_resume plan)) (pn_start_entry plan)
    (search_react F limits matcher content (pn_start_entry plan) (pn_resume plan))
    (search_entry (still F) limits matcher content (pn_start_entry plan) (pn_resume plan))
    (new_search_page (pn_max_matches plan)) (0 + 1 + 1) relative resolved len (search_reacts F limits matcher content _ _)
    Hnames Hn Hcanon Hlen Hreq Hutf Hgood) as Hwalk.
  cbv zeta in Hwalk. unfold mbind, stm_bind, lift. rewrite Hv, Hd. cbv beta iota. rewrite budget_check_still. cbv beta iota zeta.
  cbn [sc_budget sc_ticks sc_visitor new_search b_expired fresh_budget]. rewrite <- Hplan.
  assert (Hstart : pn_start_path plan = 0) by (rewrite Hplan; exact Hindex).
  assert (Hroots : pn_roots plan = [directory]) by by rewrite Hplan.
  assert (Hmax : pn_max_bytes plan = s_max_bytes q) by by rewrite Hplan.
  assert (Hmatches : s_max_matches q = pn_max_matches plan) by by rewrite Hplan.
  assert (Hquery : matcher_new (pn_query plan) (pn_case_sensitive plan) = Ok matcher) by by rewrite Hplan.
  rewrite Hroots, Hstart, Hmax, Hs, Hquery, Hmatches. clear Hplan. change (N.to_nat 0) with 0%nat. cbn [drop length]. rewrite decide_False by lia.
  cbn [mret stm_ret]. cbv beta iota. unfold root_loop. fold content. rewrite Hstart. rewrite decide_False by lia. rewrite bool_decide_eq_true_2 by done. cbv zeta.
  unfold mbind, stm_bind, get_page, mbind, stm_bind, get.
  destruct (walk_scope _ _ _ _ _ _ _) as [s [out|e]].
  - cbn [mret stm_ret sc_visitor]. intros Hex.
    assert (Hvis : b_rules_exhausted (sc_budget s) = false).
    { revert Hex. destruct (out_next out); [done|]. rewrite decide_False by lia. by destruct (out_reason out). }
    destruct (Hwalk Hvis) as ([= ->] & Hpage & _). clear Hex Hwalk.
    unfold search_page_result. cbv zeta.
    match type of Hpage with _ = k_visitor ?k => change k with (search_core plan content) in Hpage |- * end. rewrite <- Hpage.
    unfold search_cursor. set (out := outcome_of (search_core plan content)) in *. clearbody out. destruct (out_next out) as [path|].
    + cbn. by destruct (decide _).
    + rewrite decide_False by lia. cbn. by destruct (out_reason out).
  - cbn [fst]. intros Hex. by destruct (Hwalk Hex) as (? & _).
Qed.
Lemma hits_at_plain start_entry resume y :
  proper y → resume = None ∨ (∀ path, start_entry = Some path → components (as_bytes path) ≠ n_path y) →
  hits_at F matcher start_entry resume y = hits_at F matcher None None y.
Proof using Type.
  intros [Hgood Htext Hhonest] Hother. unfold hits_at, honest in *. destruct (n_raw y) as [| | |e]; try done. destruct Hhonest as [Hu Hpath].
  destruct Hother as [->|Hother]; [by destruct (decide _), (decide _)|]. rewrite !decide_False; [done|done|]. intros ->.
  specialize (Hother _ eq_refl). rewrite Hpath, (display_path_parse _ (Htext Hu) Hgood) in Hother. done.
Qed.
(** Past an entry that was met, no entry is the one to resume in. *)
Lemma hits_past plan x r :
  StronglySorted new_lt (x :: r) → Forall proper r → positioning (search_options (pn_resume plan)) (search_start plan) (n_path x) = false →
  r ≫= hits_at F matcher (pn_start_entry plan) (pn_resume plan) = r ≫= hits_at F matcher None None.
Proof using Type.
  intros [_ Hall]%StronglySorted_inv Hproper Hpos. assert (Hplain : ∀ y, y ∈ r → hits_at F matcher (pn_start_entry plan) (pn_resume plan) y = hits_at F matcher None None y).
  { intros y Hy. rewrite Forall_forall in Hproper, Hall. apply hits_at_plain; [by apply Hproper|]. right. intros path Hpath Heq.
    unfold positioning, search_start in Hpos. rewrite Hpath in Hpos. cbn in Hpos. apply orb_false_iff in Hpos as [Hlt _].
    specialize (Hall y Hy). unfold new_lt in Hall. by rewrite <- Heq, Hlt in Hall. }
  clear -Hplain. induction r as [|y r IH]; [done|]. rewrite !bind_cons, Hplain by by left. f_equal. apply IH. intros z Hz. apply Hplain. by right.
Qed.
Lemma hits_unnamed l : Forall proper l → Forall (λ x, n_utf8 x = false) l → l ≫= hits_at F matcher None None = [].
Proof using Type.
  intros Hp Hl. induction l as [|x l IH]; [done|]. apply Forall_cons in Hp as [[_ _ Hx] Hp]. apply Forall_cons in Hl as [Hu Hl].
  rewrite bind_cons, (IH Hp Hl), app_nil_r. unfold hits_at, honest in *. destruct (n_raw x); [done..|]. destruct Hx. congruence.
Qed.

(** Where a cursor goes on: with the rest [r] of the matches, and closer to the end. *)
Definition goes_on (plan : SearchPlan) (r : list Hit) (c : WorkspaceSearchCursor) : Prop :=
  ∀ plan', pn_start_entry plan' = Some (sc_path c) →
    pn_resume plan' = (if decide (sc_line c = 0) then None else Some (sc_line c, sc_line_byte_offset c)) →
    hits_todo matcher resolved plan' = r ∧ (∃ b, todo plan = b ++ todo plan') ∧
    (length (todo plan') + length (hits_todo matcher resolved plan') < length (todo plan) + length (hits_todo matcher resolved plan))%nat.
Record good_cursor (plan : SearchPlan) (room : N) (c : WorkspaceSearchCursor) : Prop := {
  gc_index : sc_path_index c = 0;
  gc_scope : sc_scope c = pn_scope plan;
  gc_line : sc_line c <= u32_max;
  gc_offset : sc_line_byte_offset c <= MAX_READ_BYTES;
  gc_path : str_len (sc_path c) <= MAX_PATH_BYTES;
  gc_room : string_len (sc_path c) - 2 <= room;
  gc_text : is_Some (normalize_relative (sc_path c) true)
}.

Context (content : N).
Abbreviation takes_ := (takes content).

Lemma search_walk plan :
  1 <= pn_max_matches plan → root_excluded F (repository F) resolved = false →
  let from := default [] (pn_start_entry plan) in
  let k := search_core plan content in
  searching F matcher content (pn_max_matches plan) (pn_start_entry plan) (pn_resume plan) from (todo plan) k ∨
  ∃ d r, todo plan = d ++ r ∧
    (stopped_between F matcher content (pn_max_matches plan) (pn_start_entry plan) (pn_resume plan) (search_start plan) from d k ∨
     ∃ x r' h, r = x :: r' ∧ stopped_inside F matcher content (pn_max_matches plan) (pn_start_entry plan) (pn_resume plan) d x h k).
Proof using Hmatcher Hserved.
  intros Hmax Hex from k. unfold k, search_core, root_core. rewrite Hex. cbv zeta. rewrite <- (search_items plan Hex).
  apply (search_steps F limits matcher content (pn_max_matches plan) Hmatcher (pn_start_entry plan) (pn_resume plan) (search_start plan) Hmax from _ []).
  - split; try done. apply takes_nil; [|done..]. split; [done|cbn; lia|]. unfold places. cbn. rewrite lenN_nil. lia.
  - rewrite (search_items plan Hex). apply Forall_forall. intros x [_ Hx]%list_elem_of_filter.
    pose proof search_whole_proper as Hp. rewrite Forall_forall in Hp. by destruct (Hp x Hx).
Qed.

Lemma between_goes_on plan a d r from k :
  whole = a ++ todo plan → todo plan = d ++ r → from = default [] (pn_start_entry plan) →
  stopped_between F matcher content (pn_max_matches plan) (pn_start_entry plan) (pn_resume plan) (search_start plan) from d k →
  ∀ path, k_next k = Some path →
    is_Some (normalize_relative path true) ∧ goes_on plan (r ≫= hits_at F matcher (pn_start_entry plan) (pn_resume plan)) (mkSearchCursor 0 path 0 0 (pn_scope plan)).
Proof using Hmatcher Hserved.
  intros Hwhole Htodo -> Hb path Hnext. pose proof search_whole_proper as Hproper. rewrite Forall_forall in Hproper.
  pose proof search_whole_sorted as Hsorted. destruct (sb_next _ _ _ _ _ _ _ _ _ _ Hb) as [Hn|Hn]; [congruence|]. rewrite Hnext in Hn.
  destruct (core_usable _ _ _) eqn:Husable; [|done]. injection Hn as ->.
  unfold core_usable in Husable. rewrite (sb_resume _ _ _ _ _ _ _ _ _ _ Hb) in Husable. cbn in Husable. apply andb_true_iff in Husable as [Hne Hstart].
  apply bool_decide_eq_true in Hne, Hstart.
  destruct (last_text_place (default [] (pn_start_entry plan)) d) as [[_ Hl]|(d1 & x & d2 & -> & Hutf & Hd2 & ->)].
  { exfalso. rewrite Hl in Hne, Hstart. unfold search_start in Hstart. destruct (pn_start_entry plan) as [s|]; cbn in *; tauto. }
  assert (Hx : x ∈ todo plan) by (rewrite Htodo; set_solver). apply list_elem_of_filter in Hx as [Hpos Hx].
  destruct (Hproper x Hx) as [Hgood Htext _]. specialize (Htext Hutf). split; [rewrite normalize_display by done; by eexists|].
  assert (Hsplit : whole = (a ++ d1) ++ x :: (d2 ++ r)) by (rewrite Hwhole, Htodo; by rewrite <- !app_assoc).
  rewrite Hsplit in Hsorted, Hproper. assert (Hrest : Forall proper (d2 ++ r)) by (apply Forall_forall; intros y Hy; apply Hproper; set_solver).
  apply Forall_app in Hrest as [Hp2 Hpr]. intros plan' Hentry Hresume. cbn [sc_path sc_line sc_line_byte_offset] in Hentry, Hresume.
  rewrite decide_True in Hresume by done.
  assert (Hnext' : todo plan' = d2 ++ r).
  { unfold search_todo, search_start. rewrite Hentry, Hresume. cbn [fmap option_fmap option_map]. rewrite (display_path_parse _ Htext Hgood), Hsplit.
    by apply resume_suffix. }
  apply StronglySorted_app in Hsorted as (_ & _ & Hsorted).
  assert (Hpast : (d2 ++ r) ≫= hits_at F matcher (pn_start_entry plan) (pn_resume plan) = r ≫= hits_at F matcher None None).
  { rewrite (hits_past plan x (d2 ++ r)) by (done || by apply Forall_app). by rewrite bind_app, (hits_unnamed d2) by done. }
  assert (Hr : r ≫= hits_at F matcher (pn_start_entry plan) (pn_resume plan) = r ≫= hits_at F matcher None None).
  { apply (hits_past plan x); [|done|done]. apply StronglySorted_inv in Hsorted as [Hs Hall]. apply StronglySorted_app in Hs as (_ & _ & Hs).
    constructor; [done|]. by apply Forall_app in Hall as [_ Hall]. }
  assert (Hhits : hits_todo matcher resolved plan' = r ≫= hits_at F matcher None None).
  { unfold hits_todo. rewrite Hnext', Hentry, Hresume, bind_app.
    assert (Hplain : ∀ l, Forall proper l → l ≫= hits_at F matcher (Some (display_path (n_path x))) None = l ≫= hits_at F matcher None None).
    { intros l Hl. clear -Hl. induction Hl as [|y l Hy _ IH]; [done|]. rewrite !bind_cons, IH, hits_at_plain by (done || by left). done. }
    rewrite !Hplain by done. by rewrite (hits_unnamed d2). }
  split; [by rewrite Hhits, Hr|]. split; [exists (d1 ++ [x]); by rewrite Hnext', Htodo, <- !app_assoc|].
  rewrite Hhits, Hnext', Htodo. unfold hits_todo. rewrite Htodo, <- app_assoc. cbn [app]. rewrite bind_app, bind_cons, Hpast, !length_app. cbn [length]. rewrite !length_app. lia.
Qed.
Lemma inside_goes_on plan a d x r h k :
  whole = a ++ todo plan → todo plan = d ++ x :: r →
  stopped_inside F matcher content (pn_max_matches plan) (pn_start_entry plan) (pn_resume plan) d x h k →
  ∃ dh rh, hits_todo matcher resolved plan = dh ++ rh ∧ takes_ (pn_max_matches plan) (new_search_page (pn_max_matches plan)) (k_visitor k) dh ∧
    1 <= h_number h <= u32_max ∧ (h_range h).1 <= MAX_READ_BYTES ∧ is_Some (normalize_relative (display_path (n_path x)) true) ∧
    goes_on plan rh (mkSearchCursor 0 (display_path (n_path x)) (h_number h) (h_range h).1 (pn_scope plan)).
Proof using Hmatcher Hserved.
  intros Hwhole Htodo Hi. pose proof search_whole_proper as Hproper. rewrite Forall_forall in Hproper.
  pose proof search_whole_sorted as Hsorted. destruct (si_place _ _ _ _ _ _ _ _ _ _ Hi) as (e & dx & rx & Hraw & Hhits & Htakes & Hprog).
  assert (Hx : x ∈ todo plan) by (rewrite Htodo; set_solver). apply list_elem_of_filter in Hx as [Hpos Hx].
  destruct (Hproper x Hx) as [Hgood Htext Hhonest]. unfold honest in Hhonest. rewrite Hraw in Hhonest. destruct Hhonest as [Hutf Hpath]. specialize (Htext Hutf).
  assert (Hsplit : whole = (a ++ d) ++ x :: r) by (rewrite Hwhole, Htodo; by rewrite <- !app_assoc).
  rewrite Hsplit in Hsorted, Hproper. assert (Hrest : Forall proper r) by (apply Forall_forall; intros y Hy; apply Hproper; set_solver).
  assert (Hsorted' : StronglySorted new_lt (x :: r)) by by apply StronglySorted_app in Hsorted as (_ & _ & ?).
  pose proof (hits_past plan x r Hsorted' Hrest Hpos) as Hpast.
  unfold hits_at in Hhits. rewrite Hraw in Hhits.
  assert (Hin : h ∈ hits_of F matcher e (if decide (pn_start_entry plan = Some (e_relative e)) then pn_resume plan else None)) by (rewrite Hhits; set_solver).
  destruct (hits_of_in F matcher Hmatcher e _ h Hin) as [Hnum Hoff].
  exists ((d ≫= hits_at F matcher (pn_start_entry plan) (pn_resume plan)) ++ dx), (h :: rx ++ (r ≫= hits_at F matcher None None)).
  assert (Hall : hits_todo matcher resolved plan = ((d ≫= hits_at F matcher (pn_start_entry plan) (pn_resume plan)) ++ dx) ++ h :: rx ++ (r ≫= hits_at F matcher None None)).
  { unfold hits_todo. rewrite Htodo, bind_app, bind_cons, Hpast. unfold hits_at at 2. rewrite Hraw, Hhits. by rewrite <- !app_assoc. }
  split; [exact Hall|]. split; [exact Htakes|]. split; [done|]. split; [done|]. split; [rewrite normalize_display by done; by eexists|].
  intros plan' Hentry Hresume. cbn [sc_path sc_line sc_line_byte_offset] in Hentry, Hresume. rewrite decide_False in Hresume by lia.
  assert (Hnext : todo plan' = x :: r).
  { unfold search_todo, search_start. rewrite Hentry, Hresume. cbn [fmap option_fmap option_map]. rewrite (display_path_parse _ Htext Hgood), Hsplit.
    by apply resume_inside. }
  assert (Hhits' : hits_todo matcher resolved plan' = h :: rx ++ (r ≫= hits_at F matcher None None)).
  { assert (Hpos' : positioning (search_options (pn_resume plan')) (search_start plan') (n_path x) = false).
    { assert (Hx' : x ∈ todo plan') by (rewrite Hnext; by left). by apply list_elem_of_filter in Hx' as [? _]. }
    unfold hits_todo. rewrite Hnext, bind_cons, (hits_past plan' x r) by done. unfold hits_at at 1. rewrite Hraw, Hentry, Hpath, decide_True by done.
    rewrite Hresume, (hits_of_restart F matcher Hmatcher e _ dx h rx Hhits). done. }
  split; [exact Hhits'|]. split; [exists d; by rewrite Hnext, Htodo|]. rewrite Hhits', Hnext, Htodo, Hall, !length_app. cbn [length].
  destruct Hprog as [Hd|Hdx]; [destruct d; [done|]|destruct dx; [done|]]; cbn [length]; lia.
Qed.
Lemma page_outcome (k : Core SearchPage) :
  page_reason (k_reason k) → out_reason (outcome_of k) = k_reason k ∧ out_next (outcome_of k) = k_next k ∧ ¬ ended (k_reason k).
Proof using Type. intros Hr. unfold outcome_of. destruct Hr as [Hr|[Hr|Hr]]; rewrite Hr; (split; [done|split; [done|by intros [?|?]]]). Qed.

(** A page takes the first of the matches that are left. *)
Lemma search_cut plan a :
  1 <= pn_max_matches plan → whole = a ++ todo plan →
  let k := search_core plan content in
  let p := k_visitor k in
  ∃ d r, hits_todo matcher resolved plan = d ++ r ∧ takes_ (pn_max_matches plan) (new_search_page (pn_max_matches plan)) p d ∧
    (ended (out_reason (outcome_of k)) → r = []) ∧
    ∀ c, search_cursor plan (content - sp_used p) (outcome_of k) = Some c → good_cursor plan (content - sp_used p) c ∧ goes_on plan r c.
Proof using Hmatcher Hserved.
  intros Hmax Hwhole k p. destruct (root_excluded F (repository F) resolved) eqn:Hex.
  { assert (hits_todo matcher resolved plan = []) as -> by (unfold hits_todo, search_todo, search_whole; by rewrite Hex).
    exists [], []. split; [done|]. unfold p, k, search_core, root_core. rewrite Hex. split; [|split; [done|by intros c]].
    apply takes_nil; [|done..]. split; [done|cbn; lia|]. unfold places. cbn. rewrite lenN_nil. lia. }
  destruct (search_walk plan Hmax Hex) as [Hgo|(d & r & Htodo & [Hb|(x & r' & h & -> & Hi)])].
  - destruct Hgo as [Hr Hn _ _ Htakes]. fold k in Hr, Hn, Htakes. exists (hits_todo matcher resolved plan), []. split; [by rewrite app_nil_r|].
    split; [exact Htakes|]. split; [done|]. intros c. unfold search_cursor, outcome_of. rewrite Hr, Hn. cbn. by destruct (k_capped k).
  - fold k in Hb. exists (d ≫= hits_at F matcher (pn_start_entry plan) (pn_resume plan)), (r ≫= hits_at F matcher (pn_start_entry plan) (pn_resume plan)).
    split; [unfold hits_todo; by rewrite Htodo, bind_app|]. split; [apply (sb_takes _ _ _ _ _ _ _ _ _ _ Hb)|].
    destruct (page_outcome k (sb_reason _ _ _ _ _ _ _ _ _ _ Hb)) as (-> & Hnext & Hend). split; [done|]. intros c. unfold search_cursor. rewrite Hnext.
    pose proof (sb_resume _ _ _ _ _ _ _ _ _ _ Hb) as Hres. change (out_resume (outcome_of k)) with (k_resume k). rewrite Hres. cbn [from_option].
    destruct (k_next k) as [path|] eqn:Hk; [|done]. cbn [mbind option_bind]. destruct (decide _) as [|Hfits]; [done|]. intros [= <-].
    destruct (between_goes_on plan a d r _ k Hwhole Htodo eq_refl Hb path Hk) as [Htext Hgo]. split; [|exact Hgo].
    split; cbn; try done; unfold u32_max, MAX_READ_BYTES; lia.
  - fold k in Hi. destruct (inside_goes_on plan a d x r' h k Hwhole Htodo Hi) as (dh & rh & Hall & Htakes & Hnum & Hoff & Htext & Hgo).
    exists dh, rh. split; [done|]. split; [done|].
    destruct (page_outcome k) as (-> & Hnext & Hend); [rewrite (si_reason _ _ _ _ _ _ _ _ _ _ Hi); by left|]. split; [done|]. intros c.
    unfold search_cursor. rewrite Hnext, (si_next _ _ _ _ _ _ _ _ _ _ Hi). change (out_resume (outcome_of k)) with (k_resume k).
    rewrite (si_resume _ _ _ _ _ _ _ _ _ _ Hi). cbn [mbind option_bind from_option fst snd]. destruct (decide _) as [|Hfits]; [done|]. intros [= <-].
    split; [|exact Hgo]. split; cbn; try done; lia.
Qed.
End page.
End search.

(** ** From page to page *)

Section chain.
Context `{IgnoreRules} `{ListingEncodingLaws} `{SearchEncodingLaws} `{FoldedSearch}.
Context (F : FileSystem) (limits : ScanLimits) (now : N).

Lemma search_scope_valid q roots : valid_scope (s_scope q roots) = true.
Proof using Type*. apply digest_valid. Qed.
Lemma search_validate_next q roots c :
  search_validate q = Ok tt → normalized_roots (sr_paths q) = Ok roots → sc_path_index c < lenN roots → sc_scope c = s_scope q roots →
  sc_line_byte_offset c <= MAX_READ_BYTES → str_len (sc_path c) <= MAX_PATH_BYTES → is_Some (normalize_relative (sc_path c) true) →
  search_validate (search_with q c) = Ok tt.
Proof using Type*.
  intros Hv Hroots Hindex Hscope Hoffset Hlen Hnorm. unfold search_validate in *.
  cbn [search_with sr_session sr_query sr_paths sr_case_sensitive sr_cursor sr_max_matches sr_max_bytes]. rewrite Hroots in *.
  destruct (ensure (sr_query q ≠ [] ∧ _) InvalidArguments) as [[]|]; [|done]. cbn [mbind result_bind] in *.
  destruct (ensure (from_option (λ paths, _) true (sr_paths q) = true) InvalidArguments) as [[]|]; [|done]. cbn [mbind result_bind] in *.
  destruct (ensure (from_option (λ limit, _) true (sr_max_matches q) = true) InvalidArguments) as [[]|]; [|done]. cbn [mbind result_bind] in *.
  destruct (ensure (validate_result_bytes (sr_max_bytes q) = true) InvalidArguments) as [[]|]; [|done]. cbn [mbind result_bind] in *.
  apply ensure_true. change (s_scope (search_with q c) roots) with (s_scope q roots). split; [rewrite Hscope; apply search_scope_valid|done].
Qed.
Lemma matches_positive q : search_validate q = Ok tt → 1 <= s_max_matches q ∧ sr_query q ≠ [].
Proof using Type.
  unfold search_validate. intros (u1 & H1' & Hv)%bind_Ok. apply bind_Ok in Hv as (u2 & _ & Hv). apply bind_Ok in Hv as (roots & _ & Hv).
  apply bind_Ok in Hv as (u3 & Hv & _). apply ensure_Ok in H1' as [Hq _]. split; [|done]. apply ensure_Ok in Hv. unfold s_max_matches.
  destruct (sr_max_matches q) as [limit|]; [|done]. cbn in Hv |- *. by apply bool_decide_eq_true in Hv as [? _].
Qed.

(** An answer keeps to what the request allows. *)
Record answer_fits (q : WorkspaceSearchRequest) (r : WorkspaceSearchResult) : Prop := {
  af_limit : lenN (places (ss_matches r)) <= s_max_matches q;
  af_bytes : ss_skipped_files r <= u64_max → now <= u64_max → search_result_len r <= s_max_bytes q
}.

Context (matcher : Matcher) (Hmatcher : good_matcher matcher) (relative resolved : Path) (Hserved : served F relative resolved).
Context (directory : str) (Hnorm : normalize_relative directory true = Some relative) (size : N).
Abbreviation whole := (search_whole F limits resolved).
Abbreviation todo := (search_todo F limits resolved).
Abbreviation hits := (hits_todo F limits matcher resolved).
Abbreviation core_ := (search_core F limits matcher resolved).
Abbreviation result_ := (search_page_result F limits now matcher resolved).

Lemma answer_within q a :
  search_validate q = Ok tt → search_envelope (s_max_bytes q) = Ok size →
  whole = a ++ todo (search_plan q [directory]) →
  answer_fits q (result_ (search_plan q [directory]) (s_max_bytes q - size)).
Proof using Type*.
  intros Hv Hsize Hwhole. set (plan := search_plan q [directory]) in *. set (content := s_max_bytes q - size).
  destruct (matches_positive q Hv) as [Hpos _].
  destruct (search_cut F limits matcher Hmatcher relative resolved Hserved content plan a Hpos Hwhole) as (d & r & _ & [_ [Hused Hroom Hcount]] & _ & Hcur).
  unfold search_page_result. set (k := core_ plan content) in *. cbv zeta. split.
  - cbn [ss_matches search_result]. change (pn_max_matches plan) with (s_max_matches q) in Hcount. lia.
  - intros Hskip Hnow. assert (Hsz : size = search_result_len search_probe ∧ size < s_max_bytes q).
    { unfold search_envelope in Hsize. cbv zeta in Hsize. destruct (decide _); [done|]. injection Hsize as <-. split; [done|lia]. }
    etransitivity; [apply search_result_len_bound; [done|done|apply complete_truncated|]|].
    + cbn [ss_next_cursor search_result ro_next]. intros c Hc. destruct (Hcur c Hc) as [[Hi Hs Hl Ho _ _ _] _]. rewrite Hi, Hs.
      split; [done|]. split; [done|]. split; [unfold MAX_READ_BYTES, u32_max in *; lia|apply search_scope_valid].
    + cbn [ss_matches ss_next_cursor search_result ro_next]. destruct Hsz as [Hsz1 Hsz2]. rewrite <- Hsz1, <- Hused. subst content.
      destruct (search_cursor _ _ _) as [c|]; cbn [from_option]; [|lia]. destruct (Hcur c eq_refl) as [[_ _ _ _ _ Hc _] _]. lia.
Qed.

Lemma search_pages fuel q a :
  search_validate q = Ok tt → normalized_roots (sr_paths q) = Ok [directory] → from_option sc_path_index 0 (sr_cursor q) = 0 →
  search_envelope (s_max_bytes q) = Ok size → matcher_new (sr_query q) (s_case_sensitive q) = Ok matcher →
  let plan := search_plan q [directory] in
  whole = a ++ todo plan → (length (todo plan) + length (hits plan) <= fuel)%nat →
  Forall (λ page, b_rules_exhausted (sc_budget page.1) = false) (search_follow F limits now fuel q) →
  ∃ pages d rest, (search_follow F limits now fuel q).*2 = Ok <$> pages ∧ hits plan = d ++ rest ∧
    reported (s_max_bytes q - size) d (pages ≫= λ r, places (ss_matches r)) ∧
    (∃ r, last pages = Some r ∧ ss_next_cursor r = None ∧ (ended (ss_stopped_by r) → rest = [])) ∧
    Forall (answer_fits q) pages.
Proof using Type*.
  revert q a. induction fuel as [|fuel IH]; intros q a Hv Hroots Hindex Hsize Hm plan Hwhole Hfuel Hrules.
  all: apply Forall_cons in Hrules as Hpage; destruct Hpage as [Hpage _].
  all: pose proof (search_at_still F limits now matcher relative resolved Hserved q directory size Hv Hroots Hindex Hsize Hm Hnorm Hpage) as Hresult; fold plan in Hresult.
  all: destruct (matches_positive q Hv) as [Hpos _].
  all: destruct (search_cut F limits matcher Hmatcher relative resolved Hserved (s_max_bytes q - size) plan a Hpos Hwhole) as (d & r & Hd & Htakes & Hend & Hcur).
  all: pose proof (answer_within q a Hv Hsize Hwhole) as Hfits; fold plan in Hfits.
  all: destruct (ta_matches _ _ _ _ _ Htakes) as (ms & Hms & Hreported & _); cbn [new_search_page sp_matches app] in Hms.
  all: assert (Hshown : ss_matches (result_ plan (s_max_bytes q - size)) = ms) by exact Hms.
  all: set (out := outcome_of (core_ plan (s_max_bytes q - size))) in *.
  all: set (room := s_max_bytes q - size - sp_used (k_visitor (core_ plan (s_max_bytes q - size)))) in *.
  all: assert (Hone : search_cursor plan room out = None →
    ∃ pages d rest, [(search_at F limits now q).2] = Ok <$> pages ∧ hits plan = d ++ rest ∧
      reported (s_max_bytes q - size) d (pages ≫= λ r, places (ss_matches r)) ∧
      (∃ r, last pages = Some r ∧ ss_next_cursor r = None ∧ (ended (ss_stopped_by r) → rest = [])) ∧ Forall (answer_fits q) pages).
  1,3: intros Hnone; exists [result_ plan (s_max_bytes q - size)], d, r; rewrite Hresult; split; [done|]; split; [done|]; split;
    [cbn [mbind list_bind]; by rewrite app_nil_r, Hshown|]; split; [|by constructor]; eexists; split; [done|]; split; [exact Hnone|exact Hend].
  - cbn [search_follow fmap list_fmap]. destruct (search_cursor plan room out) as [c|] eqn:Hc; [|by apply Hone].
    exfalso. destruct (Hcur c eq_refl) as [_ Hgo]. destruct (Hgo (search_plan (search_with q c) [directory]) eq_refl eq_refl) as (_ & _ & Hless). lia.
  - cbn [search_follow] in Hrules |- *. rewrite Hresult in Hrules |- *.
    change (ss_next_cursor (result_ plan (s_max_bytes q - size))) with (search_cursor plan room out) in Hrules |- *.
    destruct (search_cursor plan room out) as [c|] eqn:Hc in Hrules, Hcur |- *;
      [|destruct (Hone Hc) as (pages & d' & rest & Hp & Hrest); exists pages, d', rest; split; [exact Hp|exact Hrest]].
    clear Hone. destruct (Hcur c eq_refl) as [[Hi Hs Hl Ho Hlen Hroom Htext] Hgo]. apply Forall_inv_tail in Hrules.
    set (plan' := search_plan (search_with q c) [directory]).
    destruct (Hgo plan' eq_refl eq_refl) as (Hhits & (b & Hb) & Hless).
    destruct (IH (search_with q c) (a ++ b)) as (pages & d' & rest & Hpages & Hd' & Hrep & (last' & Hlast & Hlast') & Hall).
    + by apply (search_validate_next q [directory]); [|done|rewrite Hi| | | |].
    + done.
    + exact Hi.
    + done.
    + done.
    + fold plan'. by rewrite Hwhole, Hb, <- app_assoc.
    + fold plan'. lia.
    + exact Hrules.
    + fold plan' in Hd'. exists (result_ plan (s_max_bytes q - size) :: pages), (d ++ d'), rest. split; [|split; [|split; [|split]]].
      * rewrite fmap_cons, Hpages, Hresult. done.
      * rewrite Hd, <- Hhits, Hd'. by rewrite <- app_assoc.
      * rewrite bind_cons, Hshown. by apply reported_app.
      * exists last'. split; [|done]. destruct pages; [done|]. exact Hlast.
      * constructor; [done|]. eapply Forall_impl; [exact Hall|]. by intros ? [].
Qed.
End chain.

(** C37 C0: a client that follows the cursors of a search of one directory over files that do
    not change is answered every time, until an answer has no cursor. The answers one
    after the other report a first part of the matches of the files, in the order of the
    walk, each one once and none missing but those a record has no room for; if the last
    answer has come to the end of the walk, that part is all of them. Every answer has at
    most the matches and the bytes its request allows. *)
Theorem search_followed `{IgnoreRules} `{ListingEncodingLaws} `{SearchEncodingLaws} `{FoldedSearchLaws}
    (F : FileSystem) (limits : ScanLimits) (now : N) (fuel : nat)
    (q : WorkspaceSearchRequest) (relative resolved : Path) (size : N) (matcher : Matcher)
    (Hserved : served F relative resolved)
    (Hvalid : search_validate q = Ok tt)
    (Hfirst : sr_cursor q = None)
    (Hutf : Forall utf8_part relative)
    (Hgood : Forall good_part relative)
    (Hroots : normalized_roots (sr_paths q) = Ok [display_path relative])
    (Hsize : search_envelope (s_max_bytes q) = Ok size)
    (Hquery : matcher_new (sr_query q) (s_case_sensitive q) = Ok matcher)
    (Hfuel : (length (search_whole F limits resolved) + length (all_hits F limits matcher resolved) <= fuel)%nat)
    (Hrules : Forall (λ page, b_rules_exhausted (sc_budget page.1) = false) (search_follow F limits now fuel q)) :
  ∃ pages d rest,
    (search_follow F limits now fuel q).*2 = Ok <$> pages ∧
    all_hits F limits matcher resolved = d ++ rest ∧
    reported (s_max_bytes q - size) d (pages ≫= λ r, places (ss_matches r)) ∧
    (∃ r, last pages = Some r ∧ ss_next_cursor r = None ∧ (ended (ss_stopped_by r) → rest = [])) ∧
    Forall (answer_fits now q) pages.
Proof.
  destruct (matches_positive q Hvalid) as [_ Hne]. pose proof (matcher_good _ _ _ Hne Hquery) as Hmatcher.
  set (plan := search_plan q [display_path relative]).
  assert (Hentry : pn_start_entry plan = None) by (unfold plan; cbn [search_plan pn_start_entry]; by rewrite Hfirst).
  assert (Hresume : pn_resume plan = None) by (unfold plan; cbn [search_plan pn_resume]; by rewrite Hfirst).
  assert (Htodo : search_todo F limits resolved plan = search_whole F limits resolved).
  { apply filter_every, Forall_forall. intros x _. unfold search_start. by rewrite Hentry. }
  assert (Hhits : hits_todo F limits matcher resolved plan = all_hits F limits matcher resolved).
  { unfold hits_todo, all_hits. by rewrite Htodo, Hentry, Hresume. }
  destruct (search_pages F limits now matcher Hmatcher relative resolved Hserved (display_path relative) (normalize_display _ Hutf Hgood) size
    fuel q [] Hvalid Hroots) as (pages & d & rest & Hpages & Hall & Hrest).
  - by rewrite Hfirst.
  - done.
  - done.
  - fold plan. by rewrite Htodo.
  - fold plan. by rewrite Htodo, Hhits.
  - done.
  - fold plan in Hall. rewrite Hhits in Hall. by exists pages, d, rest.
Qed.

(** ** Small workspaces *)

Module SearchSample.
#[local] Instance rules : IgnoreRules := ListingSample.rules.
#[local] Instance encoding : ListingEncoding := ListingSample.encoding.
#[local] Instance laws : ListingEncodingLaws := ListingSample.laws.
#[local] Instance search_encoding : SearchEncoding := {|
  match_len m := 100 + string_len (sm_line_text m);
  search_result_len r := 200 + foldr (λ m n, 100 + string_len (sm_line_text m) + 1 + n) 0 (ss_matches r) + from_option (λ c, string_len (sc_path c) - 2) 0 (ss_next_cursor r)
|}.
#[local] Instance search_laws : SearchEncodingLaws.
Proof. split. intros r _ _ _ _. cbn [search_result_len search_encoding search_probe ss_matches ss_next_cursor from_option sc_path foldr].
  change (foldr _ 0 (ss_matches r)) with (taken (ss_matches r)). lia. Defined.
(** An expression that is never built. *)
#[local] Instance no_folding : FoldedSearch := {| folded _ := None |}.
#[local] Instance folding_laws : FoldedSearchLaws.
Proof. by split. Defined.

(** A directory with the files [a] and [b]. *)
Definition two_files (a b : list N) : FileSystem := mkFs
  (λ path, if decide (path = []) then Ok (mkMeta FDirectory 0)
           else if decide (path = [Normal (lit "a")]) then Ok (mkMeta FFile (lenN a))
           else if decide (path = [Normal (lit "b")]) then Ok (mkMeta FFile (lenN b)) else Err IoNotFound)
  (λ dir, if decide (dir = []) then Some [Some (lit "b"); Some (lit "a")] else None)
  (λ path, Ok (Some path))
  (λ _, None)
  (λ path, if decide (path = lit "a") then Ok (lenN a, [Some a]) else if decide (path = lit "b") then Ok (lenN b, [Some b]) else Err WsNotFound).
Definition request (limit : N) : WorkspaceSearchRequest := mkSearchRequest 7 (lit "x") None (Some true) None (Some limit) None.
Definition shown (page : Scan SearchPage * result AgentError WorkspaceSearchResult) : option (list (str * N * N) * bool * WorkspaceScanStop) :=
  match page.2 with
  | Ok r => Some ((λ p, (p_path p, p_number p, p_start p)) <$> places (ss_matches r), bool_decide (is_Some (ss_next_cursor r)), ss_stopped_by r)
  | Err _ => None
  end.

Lemma two_files_served a b : served (two_files a b) [] [].
Proof.
  split; [|done|by eexists|by eexists|constructor|constructor]. intros dir entries. cbn [fs_dir two_files].
  assert (Hgood : ∀ name, bool_decide (name ≠ [] ∧ SLASH ∉ name ∧ 0 ∉ name ∧ name ≠ lit "." ∧ name ≠ lit "..") = true → good_name name).
  { intros name Hn. by apply bool_decide_eq_true in Hn. }
  destruct (decide _); [|done]. intros [= <-]. repeat constructor; by apply Hgood.
Qed.

(** Two lines and three matches, two by two. *)
Definition row : list N := lit "x" ++ [LF].
Example sample_search_pages :
  shown <$> search_follow (two_files (lit "xyx" ++ [LF]) row) standard_limits 0 9 (request 2) =
  [Some ([(lit "a", 1, 0); (lit "a", 1, 2)], true, StopPage); Some ([(lit "b", 1, 0)], false, StopEnd)].
Proof. vm_compute. reflexivity. Qed.

Lemma search_followed_witness :
  let F := two_files (lit "xyx" ++ [LF]) row in
  length (all_hits F standard_limits (Literal (lit "x")) []) = 3%nat ∧
  ∃ pages d rest,
    (search_follow F standard_limits 0 9 (request 2)).*2 = Ok <$> pages ∧
    all_hits F standard_limits (Literal (lit "x")) [] = d ++ rest ∧
    reported (s_max_bytes (request 2) - 200) d (pages ≫= λ r, places (ss_matches r)) ∧
    (∃ r, last pages = Some r ∧ ss_next_cursor r = None ∧ (ended (ss_stopped_by r) → rest = [])) ∧
    Forall (answer_fits 0 (request 2)) pages.
Proof.
  split; [vm_compute; reflexivity|].
  apply (search_followed (two_files (lit "xyx" ++ [LF]) row) standard_limits 0 9 (request 2) [] [] 200 (Literal (lit "x")) (two_files_served _ _));
    [vm_compute; reflexivity|reflexivity|constructor|constructor|vm_compute; reflexivity|vm_compute; reflexivity|reflexivity| |].
  - apply Nat.leb_le. vm_compute. reflexivity.
  - apply Forall_forall. intros page Hpage.
    assert (Hall : forallb (λ page, negb (b_rules_exhausted (sc_budget page.1)))
      (search_follow (two_files (lit "xyx" ++ [LF]) row) standard_limits 0 9 (request 2)) = true) by (vm_compute; reflexivity).
    rewrite forallb_forall in Hall. specialize (Hall page (proj1 (list_elem_of_In _ _) Hpage)). by apply negb_true_iff in Hall.
Defined.

(** A page that resumed inside a file and comes to its end when it is full has no cursor:
    the path it would continue after is the one it started from. The match of [b] is never
    reported. *)
Example resumed_file_loses_the_rest :
  shown <$> search_follow (two_files (row ++ row ++ row ++ row) row) standard_limits 0 9 (request 2) =
  [Some ([(lit "a", 1, 0); (lit "a", 2, 0)], true, StopPage); Some ([(lit "a", 3, 0); (lit "a", 4, 0)], false, StopPage)].
Proof. vm_compute. reflexivity. Qed.
End SearchSample.
