(* ===== verification/Query.v ===== *)
(** One page of a file of the workspace, [workspace/query.rs].

    A read captures the bounded whole file, with its metadata before and after, and gives
    the lines of a page of it; a client goes on from where a page ends, and may ask for
    the revision it has read so far. *)

From S2P Require Import Prelude RustStr Errors Status ToolPage Scan Listing Search.
From S2P Require RecordFiles DiffPage.
Open Scope N_scope.

Definition DEFAULT_MAX_LINES : N := 400.
Definition MAX_MAX_LINES : N := 2000.

(** ** Requests and results *)

Record WorkspaceReadRequest := mkReadRequest {
  rq_session : N;
  rq_path : str;
  rq_start_line : option N;
  rq_line_byte_offset : option N;
  rq_max_lines : option N;
  rq_max_bytes : option N;
  rq_if_revision : option str
}.
Inductive WorkspaceReadStatus := ReadOk | ReadBinary | ReadChanged | ReadTooLarge.
Inductive WorkspaceReadEncoding := EncodingUtf8 | EncodingUnknown.
Record WorkspaceReadRange := mkReadRange { rg_start_line : N; rg_line_byte_offset : N }.
Record WorkspaceReadResult := mkReadResult {
  wr_path : str;
  wr_content : str;
  wr_start_line : N;
  wr_returned_lines : N;
  wr_revision : option str;
  wr_truncated : bool;
  wr_line_truncated : bool;
  wr_next_range : option WorkspaceReadRange;
  wr_encoding : WorkspaceReadEncoding;
  wr_status : WorkspaceReadStatus;
  wr_file_bytes : N;
  wr_file_modified_unix_ms : option N
}.
#[export] Instance WorkspaceReadStatus_eq_dec : EqDecision WorkspaceReadStatus.
Proof. solve_decision. Defined.

(** The length of an answer as JSON. *)
Class ReadEncoding := { read_result_len : WorkspaceReadResult → N }.

(** [valid_revision] of [read.rs] *)
Definition valid_revision (value : str) : bool := bool_decide (str_len value = 64) && forallb is_ascii_hexdigit (as_bytes value).
Definition read_validate (q : WorkspaceReadRequest) : result AgentError unit :=
  _ ← ensure (str_len (rq_path q) <= MAX_PATH_BYTES) InvalidArguments;
  _ ← ensure (RecordFiles.validate_relative_path (rq_path q) = true) InvalidArguments;
  _ ← ensure (rq_start_line q ≠ Some 0) InvalidArguments;
  _ ← ensure (rq_line_byte_offset q = None ∨ is_Some (rq_start_line q)) InvalidArguments;
  _ ← ensure (from_option (λ offset, bool_decide (offset <= MAX_READ_BYTES)) true (rq_line_byte_offset q) = true) InvalidArguments;
  _ ← ensure (from_option (λ max_lines, bool_decide (1 <= max_lines <= MAX_MAX_LINES)) true (rq_max_lines q) = true) InvalidArguments;
  _ ← ensure (validate_result_bytes (rq_max_bytes q) = true) InvalidArguments;
  ensure (from_option valid_revision true (rq_if_revision q) = true) InvalidArguments.

(** ** Capturing a file, [workspace.rs] *)

Record FileStamp := mkStamp { stamp_len : N; modified_nanos : option N }.
Record FileSnapshot := mkSnapshot { snap_bytes : list N; snap_stamp : FileStamp; snap_stable : bool }.
Inductive FileCapture := CaptureMissing | CaptureComplete (snapshot : FileSnapshot) | CaptureTooLarge (stamp : FileStamp) | CaptureError (error : WorkspaceError).
#[export] Instance FileStamp_eq_dec : EqDecision FileStamp.
Proof. solve_decision. Defined.

(** What the system answers to one read: the open, the metadata, what there is to read,
    the metadata again, and whether the query was cancelled or late while it waited. *)
Record Access := mkAccess {
  ac_open : result WorkspaceError unit;
  ac_before : option FileStamp;
  ac_content : option (list N);
  ac_after : option FileStamp;
  ac_interrupted : bool
}.

Definition modified_unix_ms (stamp : FileStamp) : option N :=
  nanos ← modified_nanos stamp;
  let ms := nanos / 1000000 in
  if decide (ms <= u64_max) then Some ms else None.
Definition capture_file (a : Access) (max_bytes : N) : FileCapture :=
  match ac_open a with
  | Err WsNotFound => CaptureMissing
  | Err error => CaptureError error
  | Ok _ =>
      match ac_before a with
      | None => CaptureError WsUnavailable
      | Some start_stamp =>
          if decide (max_bytes < stamp_len start_stamp) then CaptureTooLarge start_stamp else
          match ac_content a with
          | None => CaptureError WsUnavailable
          | Some content =>
              let bytes := take (N.to_nat (max_bytes + 1)) content in
              match ac_after a with
              | None => CaptureError WsUnavailable
              | Some end_stamp =>
                  if decide (max_bytes < lenN bytes) then CaptureTooLarge start_stamp
                  else CaptureComplete (mkSnapshot bytes start_stamp (bool_decide (start_stamp = end_stamp)))
              end
          end
      end
  end.

(** ** Lines *)

(** The bytes from [index] on, in line [current]. *)
Fixpoint line_start_loop (bytes : list N) (index current line len : N) : option N :=
  match bytes with
  | [] => None
  | byte :: bytes =>
      if decide (byte ≠ LF) then line_start_loop bytes (index + 1) current line len else
      if decide (current + 1 = line) then (if decide (index + 1 < len) then Some (index + 1) else None)
      else line_start_loop bytes (index + 1) (current + 1) line len
  end.
Definition line_start_offset (buffer : str) (line : N) : option N :=
  if decide (buffer = []) then None else
  if decide (line <= 1) then Some 0 else
  line_start_loop (as_bytes buffer) 0 1 line (str_len buffer).
Definition line_raw_end (buffer : str) (start : N) : N :=
  match find_split [LF] (split_floor start buffer).2 with
  | Some (line, _) => start + str_len line + 1
  | None => str_len buffer
  end.

(** ** A page *)

Record ReadPage := mkReadPage {
  rp_content : str;
  rp_lines : N;
  rp_line_truncated : bool;
  rp_next : option WorkspaceReadRange
}.
Fixpoint select_loop (fuel : nat) (text : str) (start_line max_lines content_budget : N)
    (content : str) (escaped lines line_offset position : N) : result AgentError ReadPage :=
  match fuel with
  | O => Ok (mkReadPage content lines false None)
  | S fuel =>
      if decide (position < str_len text) then
        if decide (max_lines <= lines) then
          Ok (mkReadPage content lines false (Some (mkReadRange (N.min (start_line + lines) u32_max) 0)))
        else
          let line_end := line_raw_end text position in
          let segment := line_slice text position line_end in
          let segment_escaped := json_escaped_len segment in
          let remaining := content_budget - escaped in
          if decide (segment_escaped <= remaining) then
            select_loop fuel text start_line max_lines content_budget (content ++ segment) (escaped + segment_escaped) (lines + 1) 0 line_end
          else
            let taken := json_string_prefix segment (remaining + 2) in
            if decide (taken = []) then
              if decide (lines = 0) then Err InvalidArguments
              else Ok (mkReadPage content lines false (Some (mkReadRange (N.min (start_line + lines) u32_max) 0)))
            else
              Ok (mkReadPage (content ++ taken) (lines + 1) true
                    (Some (mkReadRange (N.min (start_line + (lines + 1 - 1)) u32_max) (clamp_u32 (line_offset + str_len taken)))))
      else Ok (mkReadPage content lines false None)
  end.
Definition select_page (text : str) (from start_line offset max_lines content_budget : N) : result AgentError ReadPage :=
  select_loop (S (length text)) text start_line max_lines content_budget [] 0 0 offset from.

Section query.
Context `{ListingEncoding} `{ReadEncoding}.

Definition revision_of (bytes : list N) : str := sha256_hex bytes.
Definition read_probe (path : str) : WorkspaceReadResult :=
  mkReadResult path [] u32_max u32_max (Some (replicate 64 102)) false false (Some (mkReadRange u32_max u32_max)) EncodingUnknown ReadTooLarge u64_max (Some u64_max).
Definition read_envelope (path : str) (max_bytes : N) : result AgentError N :=
  let size := read_result_len (read_probe path) in
  if decide (max_bytes <= size) then Err InvalidArguments else Ok size.
Definition map_workspace_error (error : WorkspaceError) : AgentError :=
  match error with WsInvalidPath => InvalidArguments | _ => Workspace end.
(** [str::eq_ignore_ascii_case] *)
Definition ascii_lower (c : char) : char := if decide (65 <= c <= 90) then c + 32 else c.
Definition eq_ignore_ascii_case (a b : str) : bool := bool_decide (ascii_lower <$> a = ascii_lower <$> b).

Definition with_query_budget {A} (interrupted : bool) (value : A) : result AgentError A := if interrupted then Err QueryLimit else Ok value.
(** The answers without a page. *)
Definition empty_result (q : WorkspaceReadRequest) (revision : option str) (encoding : WorkspaceReadEncoding) (status : WorkspaceReadStatus) (stamp : FileStamp)
    : WorkspaceReadResult :=
  mkReadResult (rq_path q) [] (default 1 (rq_start_line q)) 0 revision false false None encoding status (stamp_len stamp) (modified_unix_ms stamp).
(** The page of a text. *)
Definition read_text (q : WorkspaceReadRequest) (content_budget : N) (revision : str) (stamp : FileStamp) (text : str) : result AgentError WorkspaceReadResult :=
  let start_line := default 1 (rq_start_line q) in
  let offset := default 0 (rq_line_byte_offset q) in
  match line_start_offset text start_line with
  | None => _ ← ensure (offset = 0) InvalidArguments; Ok (empty_result q (Some revision) EncodingUtf8 ReadOk stamp)
  | Some line_start =>
      let raw_len := line_raw_end text line_start - line_start in
      _ ← ensure (offset < raw_len) InvalidArguments;
      let from := line_start + offset in
      _ ← ensure (DiffPage.is_char_boundary text from = true) InvalidArguments;
      page ← select_page text from start_line offset (default DEFAULT_MAX_LINES (rq_max_lines q)) content_budget;
      Ok (mkReadResult (rq_path q) (rp_content page) start_line (rp_lines page) (Some revision) (bool_decide (is_Some (rp_next page)))
            (rp_line_truncated page) (rp_next page) EncodingUtf8 ReadOk (stamp_len stamp) (modified_unix_ms stamp))
  end.
Definition read_snapshot (q : WorkspaceReadRequest) (content_budget : N) (snapshot : FileSnapshot) : result AgentError WorkspaceReadResult :=
  let stamp := snap_stamp snapshot in
  if decide (snap_stable snapshot = true ∧ lenN (snap_bytes snapshot) = stamp_len stamp) then
    let revision := revision_of (snap_bytes snapshot) in
    let matches := from_option (eq_ignore_ascii_case revision) true (rq_if_revision q) in
    if negb matches then Ok (empty_result q (Some revision) EncodingUnknown ReadChanged stamp) else
    if decide (0 ∈ snap_bytes snapshot) then Ok (empty_result q (Some revision) EncodingUnknown ReadBinary stamp) else
    match from_utf8 (snap_bytes snapshot) with
    | None => Ok (empty_result q (Some revision) EncodingUnknown ReadBinary stamp)
    | Some text => read_text q content_budget revision stamp text
    end
  else Ok (empty_result q None EncodingUnknown ReadChanged stamp).
Definition read_until (a : Access) (q : WorkspaceReadRequest) : result AgentError WorkspaceReadResult :=
  _ ← read_validate q;
  let max_bytes := default DEFAULT_RESULT_BYTES (rq_max_bytes q) in
  envelope ← read_envelope (rq_path q) max_bytes;
  capture ← with_query_budget (ac_interrupted a) (capture_file a MAX_READ_BYTES);
  match capture with
  | CaptureComplete snapshot => read_snapshot q (max_bytes - envelope) snapshot
  | CaptureTooLarge stamp => Ok (empty_result q None EncodingUnknown ReadTooLarge stamp)
  | CaptureMissing => Err Workspace
  | CaptureError error => Err (map_workspace_error error)
  end.
End query.
