(* ===== verification/QueryFollow.v ===== *)
(** Following the ranges of [workspace.read].

    A client that goes on where each page ends, under the revision of the first, puts the
    text of the file together, or is told that it is not the same file any more. *)

From S2P Require Import Prelude RustStr Errors Status ToolPage Scan ScanOrder Listing ListingFollow Search SearchLine Query.
From S2P Require DiffPage.
Open Scope N_scope.

(** An answer is no longer than the probe with the text of the page. *)
Class ReadEncodingLaws `{ReadEncoding} := {
  read_result_len_bound r :
    wr_start_line r <= u32_max → wr_returned_lines r <= u32_max → wr_file_bytes r <= u64_max →
    from_option (λ revision, valid_revision revision = true) True (wr_revision r) →
    from_option (λ range, rg_start_line range <= u32_max ∧ rg_line_byte_offset range <= u32_max) True (wr_next_range r) →
    from_option (λ ms, ms <= u64_max) True (wr_file_modified_unix_ms r) →
    read_result_len r <= read_result_len (read_probe (wr_path r)) + json_escaped_len (wr_content r)
}.

(** ** Places in a text *)

Definition breaks (text : str) : N := lenN (filter (λ c, c = LF) text).
(** The place after [before] is at [offset] of the line [line]. *)
Definition place (line offset : N) (before : str) : Prop :=
  ∃ whole part, before = whole ++ part ∧ LF ∉ part ∧ (whole = [] ∨ last whole = Some LF) ∧ line = breaks whole + 1 ∧ offset = str_len part.
(** A line of a text, with its end, before [rest]. *)
Definition line_of (segment rest : str) : Prop := (∃ line, LF ∉ line ∧ segment = line ++ [LF]) ∨ (LF ∉ segment ∧ rest = []).

Lemma breaks_app a b : breaks (a ++ b) = breaks a + breaks b.
Proof. unfold breaks. by rewrite filter_app, lenN_app. Qed.
Lemma breaks_none a : LF ∉ a → breaks a = 0.
Proof. intros Ha. unfold breaks. rewrite filter_none; [done|]. intros x Hx ->. done. Qed.
Lemma breaks_le a : breaks a <= str_len a.
Proof.
  induction a as [|c a IH]; [done|]. change (c :: a) with ([c] ++ a). rewrite breaks_app, str_len_app. change (str_len [c]) with (len_utf8 c + 0).
  pose proof (len_utf8_bounds c). assert (breaks [c] <= 1); [|lia]. unfold breaks. rewrite filter_cons. by destruct (decide _).
Qed.
Lemma place_start : place 1 0 [].
Proof. exists [], []. split; [done|]. split; [set_solver|]. split; [by left|]. done. Qed.
Lemma place_next line offset before s : LF ∉ s → place line offset before → place (line + 1) 0 (before ++ s ++ [LF]).
Proof.
  intros Hs (whole & part & -> & Hpart & _ & -> & _). exists ((whole ++ part) ++ s ++ [LF]), []. rewrite app_nil_r.
  split; [done|]. split; [set_solver|]. split; [right; by rewrite app_assoc, last_snoc|]. split; [|done].
  rewrite !breaks_app, (breaks_none part), (breaks_none s) by done. change (breaks [LF]) with 1. lia.
Qed.
Lemma place_inside line offset before s : LF ∉ s → place line offset before → place line (offset + str_len s) (before ++ s).
Proof.
  intros Hs (whole & part & -> & Hpart & Hw & -> & ->). exists whole, (part ++ s). rewrite app_assoc. split; [done|].
  split; [set_solver|]. split; [done|]. split; [done|]. by rewrite str_len_app.
Qed.
Lemma place_bounds line offset before : place line offset before → 1 <= line <= str_len before + 1 ∧ offset <= str_len before.
Proof. intros (whole & part & -> & _ & _ & -> & ->). rewrite str_len_app. pose proof (breaks_le whole). lia. Qed.

(** ** Finding lines *)

Lemma loop_skip bs rest index current line len :
  LF ∉ bs → line_start_loop (bs ++ rest) index current line len = line_start_loop rest (index + lenN bs) current line len.
Proof.
  revert index. induction bs as [|b bs IH]; intros index Hb; [cbn; by rewrite N.add_0_r|]. apply not_elem_of_cons in Hb as [Hne Hb].
  cbn [app line_start_loop]. rewrite decide_True by congruence. rewrite IH by done. rewrite lenN_cons. f_equal. lia.
Qed.
Lemma loop_line whole rest index current len :
  last whole = Some LF →
  line_start_loop (as_bytes whole ++ rest) index current (current + breaks whole) len =
  if decide (index + str_len whole < len) then Some (index + str_len whole) else None.
Proof.
  revert index current. induction whole as [|c whole IH]; intros index current Hlast; [done|].
  rewrite as_bytes_cons, <- app_assoc. destruct (decide (c = LF)) as [->|Hne].
  - change (encode_char LF) with [LF]. cbn [app line_start_loop]. rewrite decide_False by (intros []; done).
    change (breaks (LF :: whole)) with (breaks ([LF] ++ whole)). rewrite breaks_app. change (breaks [LF]) with 1.
    change (str_len (LF :: whole)) with (1 + str_len whole). destruct whole as [|d whole].
    + change (breaks []) with 0. change (str_len []) with 0. by rewrite N.add_0_r, decide_True by lia.
    + rewrite decide_False.
      * rewrite N.add_assoc, IH by done. by rewrite N.add_assoc.
      * assert (breaks (d :: whole) ≠ 0); [|lia]. unfold breaks, lenN. intros Hz.
        assert (Hin : LF ∈ filter (λ c, c = LF) (d :: whole)).
        { apply list_elem_of_filter. split; [done|]. apply last_Some_elem_of. exact Hlast. }
        destruct (filter _ (d :: whole)); [by apply elem_of_nil in Hin|done].
  - assert (Hb : LF ∉ encode_char c).
    { intros Hin. assert (Hc : LF ∈ as_bytes [c]) by (rewrite as_bytes_cons; set_solver). apply as_bytes_ascii in Hc; [set_solver|done]. }
    rewrite loop_skip, encode_char_len by done. assert (Hbr : breaks (c :: whole) = breaks whole).
    { change (c :: whole) with ([c] ++ whole). rewrite breaks_app, (breaks_none [c]); [done|]. set_solver. }
    rewrite Hbr. destruct whole as [|d whole]; [cbn in Hlast; congruence|]. rewrite IH by done.
    change (str_len (c :: d :: whole)) with (len_utf8 c + str_len (d :: whole)). by rewrite N.add_assoc.
Qed.
(** The line of a place starts where its last line break ends. *)
Lemma line_start whole rest :
  rest ≠ [] → whole = [] ∨ last whole = Some LF → line_start_offset (whole ++ rest) (breaks whole + 1) = Some (str_len whole).
Proof.
  intros Hrest Hwhole. unfold line_start_offset. rewrite decide_False by (by intros [_ ?]%app_nil). destruct Hwhole as [->|Hlast].
  - change (breaks []) with 0. by rewrite decide_True by lia.
  - assert (Hpos : str_len rest ≠ 0) by by intros ?%str_len_0. destruct (decide _) as [Hle|_].
    + exfalso. pose proof (loop_line whole [] 0 0 (str_len whole + 1) Hlast) as Hl. assert (Hz : breaks whole = 0) by lia.
      assert (Hin : LF ∈ filter (λ c, c = LF) whole) by (apply list_elem_of_filter; split; [done|by apply last_Some_elem_of]).
      unfold breaks, lenN in Hz. destruct (filter _ whole); [by apply elem_of_nil in Hin|done].
    + rewrite as_bytes_app, N.add_comm, loop_line, str_len_app by done. rewrite decide_True by lia. by rewrite N.add_0_l.
Qed.
Lemma raw_end before after :
  after ≠ [] → ∃ segment rest, after = segment ++ rest ∧ segment ≠ [] ∧ line_of segment rest ∧
    line_raw_end (before ++ after) (str_len before) = str_len before + str_len segment.
Proof.
  intros Hafter. unfold line_raw_end. rewrite split_floor_len. cbn [snd]. destruct (find_split [LF] after) as [[line rest]|] eqn:Hs.
  - pose proof (find_split_char _ _ _ _ Hs) as Hline. apply find_split_Some in Hs as ->. exists (line ++ [LF]), rest. split; [by rewrite <- app_assoc|].
    split; [by destruct line|]. split; [left; by exists line|]. rewrite str_len_app. change (str_len [LF]) with 1. lia.
  - exists after, []. split; [by rewrite app_nil_r|]. split; [done|]. split; [|by rewrite str_len_app]. right. split; [|done].
    intros (a & b & ->)%list_elem_of_split. rewrite find_split_None in Hs. by apply (Hs a b).
Qed.

(** ** One page *)

Lemma escaped_len_app a b : json_escaped_len (a ++ b) = json_escaped_len a + json_escaped_len b.
Proof. induction a as [|c a IH]; [done|]. cbn. rewrite IH. lia. Qed.
(** What is taken of a line that does not fit stays within the line. *)
Lemma prefix_inside n segment rest :
  line_of segment rest → n < json_escaped_len segment →
  LF ∉ prefix_within n segment ∧ ∃ x, segment = prefix_within n segment ++ x ∧ x ≠ [].
Proof.
  intros Hline Hn. destruct (prefix_within_app n segment) as [x Hx]. pose proof (prefix_within_len n segment) as Hlen.
  set (p := prefix_within n segment) in *. clearbody p. assert (Hne : x ≠ []) by (intros ->; rewrite app_nil_r in Hx; subst; lia).
  split; [|by exists x]. destruct Hline as [(line & Hline & Hs)|[Hs _]]; [|rewrite Hx in Hs; set_solver].
  destruct x as [|y x _] using rev_ind; [done|]. rewrite Hs, app_assoc in Hx. apply app_inj_tail in Hx as [-> _]. set_solver.
Qed.

(** A page of the text from a place on: [taken] of it, and where it goes on. *)
Record page_of (before after : str) (max_lines content_budget : N) (page : ReadPage) : Prop := {
  po_split : ∃ rest, after = rp_content page ++ rest ∧
    match rp_next page with
    | None => rest = []
    | Some range => rest ≠ [] ∧ place (rg_start_line range) (rg_line_byte_offset range) (before ++ rp_content page)
    end;
  po_progress : after ≠ [] → rp_content page ≠ [];
  po_lines : rp_lines page <= max_lines;
  po_budget : json_escaped_len (rp_content page) <= content_budget
}.

Section page.
Context (before after : str) (start_line max_lines content_budget : N).
Abbreviation text := (before ++ after).
Context (Hsize : str_len text < u32_max) (Hmax : 1 <= max_lines).

Lemma select_loop_spec fuel content rest lines line_offset :
  after = content ++ rest → (length rest < fuel)%nat → lines <= max_lines → json_escaped_len content <= content_budget →
  (lines = 0 → content = []) → (lines ≠ 0 → content ≠ [] ∧ line_offset = 0) →
  rest = [] ∨ place (start_line + lines) line_offset (before ++ content) →
  match select_loop fuel text start_line max_lines content_budget content (json_escaped_len content) lines line_offset (str_len (before ++ content)) with
  | Ok page => page_of before after max_lines content_budget page
  | Err e => e = InvalidArguments ∧ content_budget < 6
  end.
Proof using Hsize Hmax.
  revert content rest lines line_offset. induction fuel as [|fuel IH]; intros content rest lines line_offset Hafter Hfuel Hlines Hbudget Hzero Hsome Hplace; [lia|].
  assert (Htext : text = (before ++ content) ++ rest) by (rewrite Hafter; by rewrite <- app_assoc).
  assert (Hlen : str_len text = str_len (before ++ content) + str_len rest) by (rewrite Htext; apply str_len_app).
  cbn [select_loop]. destruct (decide (str_len (before ++ content) < str_len text)) as [Hmore|Hend].
  2: { assert (rest = []) as -> by (apply str_len_0; lia). rewrite app_nil_r in Hafter. subst content. split; cbn; [|done|done|done].
    exists []. by rewrite app_nil_r. }
  assert (Hrest : rest ≠ []) by (intros ->; cbn in Hlen; lia). destruct Hplace as [?|Hplace]; [done|]. pose proof (place_bounds _ _ _ Hplace) as [Hb1 Hb2].
  assert (Hstop : lines ≠ 0 → page_of before after max_lines content_budget (mkReadPage content lines false (Some (mkReadRange (N.min (start_line + lines) u32_max) 0)))).
  { intros Hl. destruct (Hsome Hl) as [Hc ->]. rewrite N.min_l by lia. split; cbn; [|done|done|done]. by exists rest. }
  destruct (decide (max_lines <= lines)) as [Hfull|Hroom]; [apply Hstop; lia|].
  destruct (raw_end (before ++ content) rest Hrest) as (segment & rest' & Hsplit & Hne & Hline & Hend). cbv zeta. rewrite Htext, Hend.
  assert (Hslice : line_slice ((before ++ content) ++ rest) (str_len (before ++ content)) (str_len (before ++ content) + str_len segment) = segment)
    by (rewrite Hsplit; apply slice_at).
  rewrite Hslice. rewrite <- Htext. assert (Hafter' : after = (content ++ segment) ++ rest') by (rewrite Hafter, Hsplit; by rewrite <- app_assoc).
  destruct (decide (json_escaped_len segment <= _)) as [Hfits|Hcut].
  - rewrite <- escaped_len_app, <- str_len_app, <- app_assoc. apply (IH _ rest'); [done| |lia|rewrite escaped_len_app; lia|lia| |].
    + apply (f_equal length) in Hsplit. rewrite length_app in Hsplit. destruct segment; [done|]. cbn in Hsplit. lia.
    + intros _. split; [by intros [_ ?]%app_nil|done].
    + destruct Hline as [(line & Hlf & ->)|[_ ->]]; [|by left]. right. rewrite !app_assoc, N.add_assoc, <- (app_assoc _ line). by eapply place_next.
  - unfold json_string_prefix. rewrite N.add_sub. set (remaining := content_budget - json_escaped_len content) in *.
    destruct (prefix_inside remaining segment rest' Hline ltac:(lia)) as (Hlf & x & Hx & Hxne).
    destruct (decide (prefix_within remaining segment = [])) as [Hnone|Htaken].
    + destruct (decide (lines = 0)) as [Hz|Hl]; [|by apply Hstop]. split; [done|].
      assert (Hall : remaining = content_budget) by (subst remaining; rewrite (Hzero Hz); cbn; lia).
      destruct (decide (6 <= content_budget)); [|lia]. exfalso. apply (prefix_within_progress remaining segment Hne); [lia|done].
    + set (taken := prefix_within remaining segment) in *. assert (Hp : place (start_line + lines) (line_offset + str_len taken) ((before ++ content) ++ taken))
        by by apply place_inside.
      pose proof (place_bounds _ _ _ Hp) as [_ Hb3]. assert (Hle : str_len ((before ++ content) ++ taken) <= str_len text).
      { rewrite Htext, Hsplit, Hx, !str_len_app. lia. }
      rewrite N.add_sub, N.min_l by lia. unfold clamp_u32. rewrite N.min_l by lia. split; cbn [rp_content rp_next rp_lines].
      * exists (x ++ rest'). split; [rewrite Hafter', Hx; by rewrite <- !app_assoc|]. split; [by intros [? _]%app_nil|]. by rewrite <- app_assoc in Hp.
      * intros _ [_ ?]%app_nil. done.
      * lia.
      * rewrite escaped_len_app. pose proof (prefix_within_len remaining segment). fold taken in H. lia.
Qed.
Lemma select_page_spec offset :
  after = [] ∨ place start_line offset before →
  match select_page text (str_len before) start_line offset max_lines content_budget with
  | Ok page => page_of before after max_lines content_budget page
  | Err e => e = InvalidArguments ∧ content_budget < 6
  end.
Proof using Hsize Hmax.
  intros Hplace. unfold select_page. pose proof (select_loop_spec (S (length text)) [] after 0 offset eq_refl) as Hs. rewrite app_nil_r in Hs.
  apply Hs; [rewrite length_app; lia|lia|cbn; lia|done|done|]. by rewrite N.add_0_r.
Qed.
End page.

(** ** One answer *)

Section answer.
Context `{ListingEncodingLaws} `{ReadEncodingLaws}.

Lemma hex_char c : c ∈ lit "0123456789abcdef" → len_utf8 c = 1 ∧ encode_char c = [c] ∧ is_ascii_hexdigit c = true ∧ ascii_lower c = c.
Proof using Type.
  clear. intros Hc. change (lit "0123456789abcdef") with [48;49;50;51;52;53;54;55;56;57;97;98;99;100;101;102] in Hc.
  rewrite !elem_of_cons, elem_of_nil in Hc. by repeat destruct Hc as [->|Hc].
Qed.
Lemma revision_valid bytes : valid_revision (revision_of bytes) = true.
Proof using Type*.
  unfold valid_revision, revision_of. pose proof (sha256_hex_len bytes) as Hlen. pose proof (sha256_hex_digits bytes) as Hd.
  apply andb_true_iff. split.
  - apply bool_decide_eq_true. assert (Hl : str_len (sha256_hex bytes) = lenN (sha256_hex bytes)); [|rewrite Hl; unfold lenN; by rewrite Hlen].
    clear Hlen. induction Hd as [|c s Hc _ IH]; [done|]. rewrite str_len_cons, lenN_cons, IH. destruct (hex_char c Hc) as [-> _]. lia.
  - clear Hlen. induction Hd as [|c s Hc _ IH]; [done|]. rewrite as_bytes_cons. destruct (hex_char c Hc) as (_ & -> & Hx & _). cbn [app forallb]. by rewrite Hx, IH.
Qed.
Lemma revision_eq a b : eq_ignore_ascii_case (revision_of a) (revision_of b) = true ↔ revision_of a = revision_of b.
Proof using Type*.
  assert (Hlow : ∀ bytes, ascii_lower <$> revision_of bytes = revision_of bytes).
  { intros bytes. unfold revision_of. induction (sha256_hex_digits bytes) as [|c s Hc _ IH]; [done|].
    rewrite fmap_cons, IH. by destruct (hex_char c Hc) as (_ & _ & _ & ->). }
  unfold eq_ignore_ascii_case. by rewrite bool_decide_eq_true, !Hlow.
Qed.

(** A file that is captured as a whole with the text [text]. *)
Definition holds (a : Access) (text : str) : Prop :=
  ∃ stamp, capture_file a MAX_READ_BYTES = CaptureComplete (mkSnapshot (as_bytes text) stamp true) ∧ stamp_len stamp = str_len text.
(** An answer that gives nothing of the file, and says why. *)
Definition told (answer : result AgentError WorkspaceReadResult) : Prop :=
  match answer with Ok r => wr_status r ≠ ReadOk ∧ wr_content r = [] ∧ wr_next_range r = None | Err _ => True end.
(** An answer with a page keeps to what the request allows and names the revision. *)
Record shown (max_lines max_bytes : N) (text : str) (r : WorkspaceReadResult) : Prop := {
  sh_status : wr_status r = ReadOk;
  sh_revision : wr_revision r = Some (revision_of (as_bytes text));
  sh_lines : wr_returned_lines r <= max_lines;
  sh_bytes : read_result_len r <= max_bytes;
  sh_truncated : wr_truncated r = bool_decide (is_Some (wr_next_range r))
}.
Definition q_max_lines (q : WorkspaceReadRequest) : N := default DEFAULT_MAX_LINES (rq_max_lines q).
Definition q_max_bytes (q : WorkspaceReadRequest) : N := default DEFAULT_RESULT_BYTES (rq_max_bytes q).
Definition q_line (q : WorkspaceReadRequest) : N := default 1 (rq_start_line q).
Definition q_offset (q : WorkspaceReadRequest) : N := default 0 (rq_line_byte_offset q).

Lemma validated q :
  read_validate q = Ok tt → 1 <= q_max_lines q <= MAX_MAX_LINES.
Proof using Type.
  intros Hv. unfold read_validate in Hv. res_inv. unfold q_max_lines. destruct (rq_max_lines q); [|done].
  match goal with E : from_option _ true (Some _) = true |- _ => cbn in E; by apply bool_decide_eq_true in E end.
Qed.

Section text.
Context (text before after : str).
Context (Hlen : str_len text <= MAX_READ_BYTES) (Htext : text = before ++ after).
Context (q : WorkspaceReadRequest) (size : N) (Hvalid : read_validate q = Ok tt) (Hsize : read_envelope (rq_path q) (q_max_bytes q) = Ok size).
Context (Hplace : place (q_line q) (q_offset q) before) (Hafter : after = [] → before = []).

Lemma read_text_spec stamp :
  stamp_len stamp = str_len text →
  match read_text q (q_max_bytes q - size) (revision_of (as_bytes text)) stamp text with
  | Ok r => shown (q_max_lines q) (q_max_bytes q) text r ∧ (after ≠ [] → wr_content r ≠ []) ∧
      ∃ rest, after = wr_content r ++ rest ∧
        match wr_next_range r with
        | None => rest = []
        | Some range => rest ≠ [] ∧ place (rg_start_line range) (rg_line_byte_offset range) (before ++ wr_content r)
        end
  | Err _ => q_max_bytes q - size < 6
  end.
Proof using Type*.
  intros Hstamp. pose proof (place_bounds _ _ _ Hplace) as [Hline Hoffset].
  assert (Hb : str_len text = str_len before + str_len after) by (rewrite Htext; apply str_len_app).
  assert (Hfit : ∀ r, wr_path r = rq_path q → wr_start_line r = q_line q → wr_returned_lines r <= MAX_MAX_LINES → wr_revision r = Some (revision_of (as_bytes text)) →
    wr_file_bytes r = stamp_len stamp → wr_file_modified_unix_ms r = modified_unix_ms stamp → json_escaped_len (wr_content r) <= q_max_bytes q - size →
    from_option (λ range, rg_start_line range <= u32_max ∧ rg_line_byte_offset range <= u32_max) True (wr_next_range r) → read_result_len r <= q_max_bytes q).
  { intros r Hpath Hstart Hlines Hrev Hbytes Hms Hcontent Hrange. etransitivity; [apply read_result_len_bound|].
    - rewrite Hstart. unfold MAX_READ_BYTES, u32_max in *. lia.
    - unfold MAX_MAX_LINES, u32_max in *. lia.
    - rewrite Hbytes, Hstamp. unfold MAX_READ_BYTES, u64_max in *. lia.
    - rewrite Hrev. cbn. apply revision_valid.
    - done.
    - rewrite Hms. unfold modified_unix_ms. destruct (modified_nanos stamp) as [nanos|]; [|done]. cbn. by destruct (decide _).
    - rewrite Hpath. unfold read_envelope in Hsize. cbv zeta in Hsize. destruct (decide _); [done|]. injection Hsize as Hs. lia. }
  unfold read_text. fold (q_line q) (q_offset q) (q_max_lines q). destruct (decide (after = [])) as [Hnil|Hne].
  - assert (Hnone : line_start_offset text (q_line q) = None) by by rewrite Htext, Hnil, (Hafter Hnil).
    rewrite Hnone. rewrite (Hafter Hnil) in Hoffset. cbn in Hoffset.
    unfold ensure. rewrite decide_True by lia. cbn [mbind result_bind].
    split; [split; try done; [apply N.le_0_l|apply Hfit; try done; cbn; unfold MAX_MAX_LINES; lia]|]. split; [done|]. by exists [].
  - destruct Hplace as (whole & part & Hbefore & Hpart & Hwhole & Hl & Ho). assert (Hmore : part ++ after ≠ []) by by intros [_ ?]%app_nil.
    assert (Hsplit : text = whole ++ (part ++ after)) by (rewrite Htext, Hbefore; by rewrite <- app_assoc).
    assert (Hstart : line_start_offset text (q_line q) = Some (str_len whole)) by (rewrite Hsplit, Hl; by apply line_start).
    destruct (raw_end whole (part ++ after) Hmore) as (segment & rest & Hcut & Hseg & Hof & Hend). rewrite <- Hsplit in Hend.
    rewrite Hstart. cbv beta iota zeta. rewrite Hend.
    assert (Hin : q_offset q < str_len whole + str_len segment - str_len whole).
    { rewrite Ho. destruct (decide (str_len segment <= str_len part)) as [Hle|]; [|lia]. exfalso. symmetry in Hcut.
      destruct (cut_le _ _ _ _ Hcut Hle) as (x & Hx & Hrest). destruct Hof as [(line & _ & ->)|[_ ->]]; [rewrite Hx in Hpart; set_solver|].
      symmetry in Hrest. by apply app_nil in Hrest as [_ ?]. }
    rewrite (ensure_true _ InvalidArguments Hin). cbn [mbind result_bind].
    assert (Hfrom : str_len whole + q_offset q = str_len before) by by rewrite Ho, Hbefore, str_len_app. rewrite Hfrom.
    assert (Hboundary : DiffPage.is_char_boundary text (str_len before) = true)
      by (unfold DiffPage.is_char_boundary; rewrite Htext, split_floor_len; by apply bool_decide_eq_true).
    rewrite (ensure_true _ InvalidArguments Hboundary). cbn [mbind result_bind].
    pose proof (validated q Hvalid) as Hmax.
    assert (Hhere : place (q_line q) (q_offset q) before) by (exists whole, part; tauto).
    pose proof (select_page_spec before after (q_line q) (q_max_lines q) (q_max_bytes q - size) ltac:(rewrite <- Htext; unfold MAX_READ_BYTES, u32_max in *; lia)
      ltac:(lia) (q_offset q) (or_intror Hhere)) as Hpage. rewrite <- Htext in Hpage.
    destruct (select_page _ _ _ _ _ _) as [page|e]; cbn [mbind result_bind]; [|by destruct Hpage].
    destruct Hpage as [(rest' & Hafter' & Hnext) Hprogress Hlines Hbudget]. split; [split; try done|].
    + apply Hfit; try done; cbn; [lia|]. destruct (rp_next page) as [range|]; [|done]. cbn. destruct Hnext as [_ Hp].
      pose proof (place_bounds _ _ _ Hp) as [H1' H2']. rewrite str_len_app in *. assert (str_len after = str_len (rp_content page) + str_len rest') by (rewrite Hafter'; apply str_len_app).
      unfold MAX_READ_BYTES, u32_max in *. lia.
    + split; [exact Hprogress|]. by exists rest'.
Qed.
End text.

(** What an answer is to a request under a revision only this text has. *)
Lemma read_one a text before after q size :
  forallb is_scalar text = true → 0 ∉ as_bytes text → str_len text <= MAX_READ_BYTES → text = before ++ after →
  read_validate q = Ok tt → read_envelope (rq_path q) (q_max_bytes q) = Ok size →
  place (q_line q) (q_offset q) before → (after = [] → before = []) →
  (∀ snapshot, capture_file a MAX_READ_BYTES = CaptureComplete snapshot →
     from_option (eq_ignore_ascii_case (revision_of (snap_bytes snapshot))) true (rq_if_revision q) = true → snap_bytes snapshot = as_bytes text) →
  (told (read_until a q) ∧
     (holds a text → ac_interrupted a = false → from_option (eq_ignore_ascii_case (revision_of (as_bytes text))) true (rq_if_revision q) = true →
      q_max_bytes q - size < 6)) ∨
  ∃ r rest, read_until a q = Ok r ∧ shown (q_max_lines q) (q_max_bytes q) text r ∧ (after ≠ [] → wr_content r ≠ []) ∧ after = wr_content r ++ rest ∧
    match wr_next_range r with
    | None => rest = []
    | Some range => rest ≠ [] ∧ place (rg_start_line range) (rg_line_byte_offset range) (before ++ wr_content r)
    end.
Proof using Type*.
  intros Hscalar Hnul Hlen Htext Hvalid Hsize Hplace Hafter Hpin. unfold read_until. rewrite Hvalid. cbn [mbind result_bind].
  fold (q_max_bytes q). rewrite Hsize. cbn [mbind result_bind]. unfold with_query_budget. destruct (ac_interrupted a); [by left|]. cbn [mbind result_bind].
  destruct (capture_file a MAX_READ_BYTES) as [|snapshot|stamp|e] eqn:Hcap; [| |left|].
  1,4: left; split; [done|]; intros (stamp & Hcap' & _); congruence.
  2: { split; [done|]. intros (stamp' & Hcap' & _). congruence. }
  unfold read_snapshot. cbv zeta. destruct (decide _) as [[Hstable Hwhole]|Hno].
  2: { left. split; [done|]. intros (stamp & Hcap' & Hstamp). rewrite Hcap in Hcap'. injection Hcap' as ->. destruct Hno. cbn. by rewrite as_bytes_len. }
  destruct (from_option _ true (rq_if_revision q)) eqn:Hmatch; cbn [negb].
  2: { left. split; [done|]. intros (stamp & Hcap' & _) _ Hm. rewrite Hcap in Hcap'. injection Hcap' as ->. cbn in Hmatch. congruence. }
  specialize (Hpin snapshot eq_refl Hmatch). rewrite Hpin in *. rewrite decide_False, from_utf8_as_bytes by done.
  pose proof (read_text_spec text before after Hlen Htext q size Hvalid Hsize Hplace Hafter (snap_stamp snapshot)) as Hread.
  rewrite <- Hwhole, as_bytes_len in Hread. specialize (Hread eq_refl).
  destruct (read_text _ _ _ _ _) as [r|e]; [|by left].
  destruct Hread as (Hshown & Hprogress & rest & Hrest & Hnext). right. by exists r, rest.
Qed.

(** ** From page to page *)

Definition next_request (q : WorkspaceReadRequest) (r : WorkspaceReadResult) (range : WorkspaceReadRange) : WorkspaceReadRequest :=
  mkReadRequest (rq_session q) (rq_path q) (Some (rg_start_line range)) (Some (rg_line_byte_offset range)) (rq_max_lines q) (rq_max_bytes q) (wr_revision r).
(** The answers to a client that goes on under the revision of the last page; [accesses]
    says what each read meets. *)
Fixpoint read_follow (fuel : nat) (accesses : nat → Access) (k : nat) (q : WorkspaceReadRequest) : list (result AgentError WorkspaceReadResult) :=
  let answer := read_until (accesses k) q in
  answer ::
  match fuel, answer with
  | S fuel, Ok r => match wr_next_range r with Some range => read_follow fuel accesses (S k) (next_request q r range) | None => [] end
  | _, _ => []
  end.

Lemma next_valid q r range text before :
  read_validate q = Ok tt → wr_revision r = Some (revision_of (as_bytes text)) → place (rg_start_line range) (rg_line_byte_offset range) before →
  str_len before <= MAX_READ_BYTES → read_validate (next_request q r range) = Ok tt.
Proof using Type*.
  intros Hv Hrev Hplace Hlen. pose proof (place_bounds _ _ _ Hplace) as [Hline Hoffset]. unfold read_validate in *. res_inv.
  cbn [next_request rq_path rq_start_line rq_line_byte_offset rq_max_lines rq_max_bytes rq_if_revision]. rewrite Hrev.
  repeat (apply bind_Ok; exists tt; split; [apply ensure_true|]); [done|done| | | |done|done|].
  - intros [= Hz]. lia.
  - right. by eexists.
  - apply bool_decide_eq_true. lia.
  - apply ensure_true, revision_valid.
Qed.

Section chain.
Context (accesses : nat → Access) (text : str) (Hscalar : forallb is_scalar text = true) (Hnul : 0 ∉ as_bytes text).
Context (Hlen : str_len text <= MAX_READ_BYTES).
(** No other file that is met has the digest of the text. *)
Context (Hpin : ∀ k snapshot, capture_file (accesses k) MAX_READ_BYTES = CaptureComplete snapshot →
  revision_of (snap_bytes snapshot) = revision_of (as_bytes text) → snap_bytes snapshot = as_bytes text).
Context (max_lines max_bytes size : N).

(** Nothing happens to the file, and there is room for a character. *)
Definition quiet (k : nat) : Prop := ∀ i, (k <= i)%nat → holds (accesses i) text ∧ ac_interrupted (accesses i) = false.

Lemma follow_told fuel k q : told (read_until (accesses k) q) → read_follow fuel accesses k q = [read_until (accesses k) q].
Proof using Type.
  intros Ht. destruct fuel; [done|]. cbn [read_follow]. destruct (read_until _ _) as [r|]; [|done]. destruct Ht as (_ & _ & ->). done.
Qed.
Lemma read_pages fuel k q before after :
  text = before ++ after → read_validate q = Ok tt → read_envelope (rq_path q) (q_max_bytes q) = Ok size →
  q_max_lines q = max_lines → q_max_bytes q = max_bytes →
  place (q_line q) (q_offset q) before → (after = [] → before = []) → (length after <= fuel)%nat →
  holds (accesses k) text ∨ rq_if_revision q = Some (revision_of (as_bytes text)) →
  ∃ pages tail rest, read_follow fuel accesses k q = (Ok <$> pages) ++ tail ∧ after = (pages ≫= wr_content) ++ rest ∧
    Forall (shown max_lines max_bytes text) pages ∧
    (tail = [] ∧ rest = [] ∨ ∃ answer, tail = [answer] ∧ told answer) ∧
    (quiet k → 6 <= max_bytes - size → rq_if_revision q = None ∨ rq_if_revision q = Some (revision_of (as_bytes text)) → tail = []).
Proof using Type*.
  revert k q before after. induction fuel as [|fuel IH]; intros k q before after Htext Hvalid Hsize Hlines Hbytes Hplace Hafter Hfuel Hrev.
  all: assert (Hself : eq_ignore_ascii_case (revision_of (as_bytes text)) (revision_of (as_bytes text)) = true) by by apply revision_eq.
  all: destruct (read_one (accesses k) text before after q size Hscalar Hnul Hlen Htext Hvalid Hsize Hplace Hafter)
    as [[Htold Hroom]|(r & rest & Hanswer & Hshown & Hprogress & Hrest & Hnext)].
  1,4: intros snapshot Hcap Hmatch; destruct Hrev as [(stamp & Hcap' & _)|Hrev]; [rewrite Hcap in Hcap'; by injection Hcap' as ->|];
    rewrite Hrev in Hmatch; cbn in Hmatch; apply (Hpin k); [done|by apply revision_eq].
  1,3: exists [], [read_until (accesses k) q], after; split; [by apply follow_told|]; split; [done|]; split; [constructor|];
    split; [right; by eexists|]; intros Hquiet Hbudget Hnone; exfalso; destruct (Hquiet k (Nat.le_refl _)) as [Hholds Hcalm];
    specialize (Hroom Hholds Hcalm); rewrite Hbytes in Hroom; destruct Hnone as [Hq|Hq]; rewrite Hq in Hroom; cbn in Hroom; specialize (Hroom ltac:(done)); lia.
  all: rewrite Hlines, Hbytes in Hshown; cbn [read_follow]; rewrite Hanswer.
  all: assert (Hone : wr_next_range r = None →
    ∃ pages tail rest, [Ok r] = (Ok <$> pages) ++ tail ∧ after = (pages ≫= wr_content) ++ rest ∧ Forall (shown max_lines max_bytes text) pages ∧
      (tail = [] ∧ rest = [] ∨ ∃ answer, tail = [answer] ∧ told answer) ∧
      (quiet k → 6 <= max_bytes - size → rq_if_revision q = None ∨ rq_if_revision q = Some (revision_of (as_bytes text)) → tail = [])).
  1,3: intros Hn; rewrite Hn in Hnext; exists [r], [], []; cbn [mbind list_bind]; rewrite !app_nil_r; split; [done|]; split;
    [by rewrite Hrest, Hnext, app_nil_r|]; split; [by constructor|]; split; [by left|done].
  all: destruct (wr_next_range r) as [range|] eqn:Hrange; [|by apply Hone].
  all: destruct Hnext as [Hne Hplace'].
  1: exfalso; destruct after as [|c after]; [by destruct (wr_content r), rest|cbn in Hfuel; lia].
  clear Hone. assert (Hne' : after ≠ []) by (rewrite Hrest; by intros [_ ?]%app_nil).
  specialize (Hprogress Hne'). pose proof (sh_revision _ _ _ _ Hshown) as Hrevision.
  destruct (IH (S k) (next_request q r range) (before ++ wr_content r) rest) as (pages & tail & rest' & Hfollow & Hrest' & Hpages & Hend & Hcalm).
  - rewrite Htext, Hrest. by rewrite <- app_assoc.
  - eapply (next_valid q r range text (before ++ wr_content r)); try done.
    assert (str_len text = str_len (before ++ wr_content r) + str_len rest) by (rewrite Htext, Hrest, app_assoc; apply str_len_app). lia.
  - exact Hsize.
  - exact Hlines.
  - exact Hbytes.
  - exact Hplace'.
  - done.
  - apply (f_equal length) in Hrest. rewrite length_app in Hrest. destruct (wr_content r); [done|]. cbn in Hrest. lia.
  - right. exact Hrevision.
  - exists (r :: pages), tail, rest'. rewrite Hfollow, fmap_cons, bind_cons. split; [done|]. split; [by rewrite Hrest at 1; rewrite Hrest', app_assoc|].
    split; [by constructor|]. split; [done|]. intros Hquiet Hbudget _. apply Hcalm; [|done|by right]. intros i Hi. apply Hquiet. lia.
Qed.
End chain.
End answer.

(** C38 C0: a client that reads a file from a place on, each page under the revision of the
    one before, gets the text of the file from that place on, in order and byte for byte,
    whatever happens to the file meanwhile: either up to its end, or up to an answer that
    gives nothing and says that the file changed, or an error; and up to its end if nothing
    happens. Every page keeps to the lines and the bytes of the request. *)
Theorem read_followed `{ListingEncodingLaws} `{ReadEncodingLaws} (accesses : nat → Access) (fuel : nat)
    (q : WorkspaceReadRequest) (text before after : str) (size : N)
    (Hscalar : forallb is_scalar text = true) (Hnul : 0 ∉ as_bytes text) (Hlen : str_len text <= MAX_READ_BYTES)
    (Hfirst : holds (accesses 0%nat) text)
    (Hpin : ∀ k snapshot, capture_file (accesses k) MAX_READ_BYTES = CaptureComplete snapshot →
      revision_of (snap_bytes snapshot) = revision_of (as_bytes text) → snap_bytes snapshot = as_bytes text)
    (Hvalid : read_validate q = Ok tt)
    (Hsize : read_envelope (rq_path q) (q_max_bytes q) = Ok size)
    (Htext : text = before ++ after) (Hafter : after = [] → before = [])
    (Hplace : place (q_line q) (q_offset q) before)
    (Hfuel : (length after <= fuel)%nat) :
  ∃ pages tail rest,
    read_follow fuel accesses 0 q = (Ok <$> pages) ++ tail ∧
    after = (pages ≫= wr_content) ++ rest ∧
    Forall (shown (q_max_lines q) (q_max_bytes q) text) pages ∧
    (tail = [] ∧ rest = [] ∨ ∃ answer, tail = [answer] ∧ told answer) ∧
    (quiet accesses text 0 → 6 <= q_max_bytes q - size → rq_if_revision q = None → tail = []).
Proof.
  destruct (read_pages accesses text Hscalar Hnul Hlen Hpin (q_max_lines q) (q_max_bytes q) size fuel 0 q before after
    Htext Hvalid Hsize eq_refl eq_refl Hplace Hafter Hfuel (or_introl Hfirst)) as (pages & tail & rest & Hf & Hr & Hp & He & Hq).
  exists pages, tail, rest. repeat (split; [done|]). intros Hquiet Hbudget Hnone. apply Hq; [done|done|by left].
Qed.

(** ** A small file *)

Module ReadSample.
#[local] Instance encoding : ListingEncoding := {|
  session_text := show_N;
  sha256_hex bytes := replicate 64 (48 + lenN bytes mod 10);
  file_entry_len _ := 0;
  files_result_len _ := 0
|}.
#[local] Instance laws : ListingEncodingLaws.
Proof.
  split.
  - intros bytes. apply length_replicate.
  - intros bytes. apply Forall_forall. intros c Hc. apply elem_of_replicate in Hc as [-> _]. pose proof (N.mod_lt (lenN bytes) 10 ltac:(done)) as Hlt.
    change (lit "0123456789abcdef") with [48;49;50;51;52;53;54;55;56;57;97;98;99;100;101;102]. rewrite !elem_of_cons. lia.
  - intros r _ _ _ _. apply N.le_0_l.
Defined.
#[local] Instance read_encoding : ReadEncoding := {| read_result_len r := 1010 + json_escaped_len (wr_content r) |}.
#[local] Instance read_laws : ReadEncodingLaws.
Proof. split. intros r _ _ _ _ _ _. cbn. lia. Defined.

(** Two lines, the first longer than a page of 14 bytes can be. *)
Definition text : str := lit "fn main() { 12 }" ++ [LF] ++ lit "end".
Definition file (text : str) : Access :=
  mkAccess (Ok tt) (Some (mkStamp (str_len text) (Some 5))) (Some (as_bytes text)) (Some (mkStamp (str_len text) (Some 5))) false.
Definition request : WorkspaceReadRequest := mkReadRequest 7 (lit "a.rs") None None (Some 5) (Some 1024) None.

Example sample_reads :
  (λ answer, match answer with Ok r => Some (wr_content r, wr_next_range r) | Err _ => None end) <$> read_follow 30 (λ _, file text) 0 request =
  [Some (lit "fn main() { 12", Some (mkReadRange 1 14)); Some (lit " }" ++ [LF] ++ lit "end", None)].
Proof. vm_compute. reflexivity. Qed.
(** The file is another one when the client goes on. *)
Example sample_changed :
  (λ answer, match answer with Ok r => Some (wr_content r, wr_status r) | Err _ => None end)
    <$> read_follow 30 (λ k, if decide (k = 0%nat) then file text else file (text ++ [LF])) 0 request =
  [Some (lit "fn main() { 12", ReadOk); Some ([], ReadChanged)].
Proof. vm_compute. reflexivity. Qed.

Lemma read_followed_witness :
  length text = 20%nat ∧
  ∃ pages tail rest,
    read_follow 30 (λ _, file text) 0 request = (Ok <$> pages) ++ tail ∧
    text = (pages ≫= wr_content) ++ rest ∧
    Forall (shown (q_max_lines request) (q_max_bytes request) text) pages ∧
    (tail = [] ∧ rest = [] ∨ ∃ answer, tail = [answer] ∧ told answer) ∧
    (quiet (λ _, file text) text 0 → 6 <= q_max_bytes request - 1010 → rq_if_revision request = None → tail = []).
Proof.
  split; [vm_compute; reflexivity|].
  apply (read_followed (λ _, file text) 30 request text [] text 1010).
  - vm_compute. reflexivity.
  - apply (bool_decide_unpack _). vm_compute. exact I.
  - apply N.leb_le. vm_compute. reflexivity.
  - exists (mkStamp (str_len text) (Some 5)). split; vm_compute; reflexivity.
  - intros k snapshot Hcap _. assert (Hc : capture_file (file text) MAX_READ_BYTES = CaptureComplete (mkSnapshot (as_bytes text) (mkStamp (str_len text) (Some 5)) true))
      by (vm_compute; reflexivity). rewrite Hc in Hcap. by injection Hcap as <-.
  - vm_compute. reflexivity.
  - vm_compute. reflexivity.
  - reflexivity.
  - discriminate.
  - apply place_start.
  - apply Nat.leb_le. vm_compute. reflexivity.
Defined.
End ReadSample.
