(* ===== verification/Pack.v ===== *)
(** Packing items into a page, [read.rs].

    The pages of [session.read] and [turn.result] are made of chunks of the JSON texts of
    items.  A page takes whole items while they fit, and of the next one the longest
    prefix a binary search over its characters finds.  Lengths of strings and positions
    in them are below the largest [usize]; their saturating sums are written as sums. *)

From S2P Require Import Prelude RustStr Errors ToolPage.
From S2P Require DiffPage.
Open Scope N_scope.

Definition MAX_READ_ITEMS : N := 100.
Definition JSON_ENCODING : str := lit "utf8_json".

Record ReadCursor := mkReadCursor { cu_item : N; cu_offset : N }.
#[export] Instance ReadCursor_eq_dec : EqDecision ReadCursor.
Proof. solve_decision. Defined.
Definition cursor_start : ReadCursor := mkReadCursor 0 0.
Record ReadItemChunk := mkChunk {
  ck_index : N;
  ck_offset : N;
  ck_total_bytes : N;
  ck_encoding : str;
  ck_data : str;
  ck_complete : bool
}.

(** The lengths of values as JSON. *)
Class ChunkEncoding := { chunk_len : ReadItemChunk → N; cursor_len : option ReadCursor → N }.

Definition validate_cursor (cursor : ReadCursor) (total : N) : result AgentError unit :=
  ensure (¬ (total < cu_item cursor ∨ cu_item cursor = total ∧ cu_offset cursor ≠ 0)) InvalidArguments.

(** ** Chunks *)

Definition rest_of (json : str) (offset : N) : str := (split_floor offset json).2.
Definition floor_boundary (value : str) (index : N) : N := str_len (split_floor index value).1.
Definition make_chunk (index offset : N) (json : str) (length : N) : ReadItemChunk :=
  mkChunk index offset (str_len json) JSON_ENCODING (split_floor length (rest_of json offset)).1 (bool_decide (offset + length = str_len json)).
Definition next_position (index total : N) : option ReadCursor :=
  let next := index + 1 in if decide (next < total) then Some (mkReadCursor next 0) else None.
Fixpoint boundary_loop (fuel : nat) (value : str) (next : N) : N :=
  match fuel with
  | O => next
  | S fuel => if decide (next < str_len value ∧ DiffPage.is_char_boundary value next = false) then boundary_loop fuel value (next + 1) else next
  end.
Definition next_boundary (value : str) (offset : N) : N :=
  if decide (str_len value <= offset) then str_len value else boundary_loop (N.to_nat (str_len value)) value (offset + 1).

(** What a byte of a text takes as JSON, and the sums of what is before each position. *)
Definition byte_cost (byte : N) : N :=
  if decide (byte ∈ [DQUOTE; BACKSLASH; 8; 9; 10; 12; 13]) then 2 else if decide (byte <= 31) then 6 else 1.
Fixpoint lengths_from (bytes : list N) (size : N) : list N :=
  size :: match bytes with [] => [] | byte :: bytes => lengths_from bytes (size + byte_cost byte) end.
Definition json_prefix_lengths (value : str) : list N := lengths_from (as_bytes value) 0.

(** ** Packing *)

Section pack.
Context `{ChunkEncoding}.
(** What [check_budget] finds at each time it is called. *)
Context (late : N → bool).
Abbreviation B := (stm N AgentError).
Definition check : B unit := λ n, (n + 1, if late n then Err QueryLimit else Ok tt).

(** The rest of the page around the chunks: those it has and one more, and the cursor. *)
Context (header_bytes : list ReadItemChunk → option ReadItemChunk → option ReadCursor → result AgentError N).
Context (total max_bytes : N).

Definition separator (existing : list ReadItemChunk) : N := if decide (existing = []) then 0 else 1.
Definition fitting_chunk_bytes (existing : list ReadItemChunk) (existing_bytes : N) (candidate : ReadItemChunk) (next_cursor : option ReadCursor)
    : result AgentError (option N) :=
  let bytes := chunk_len candidate + separator existing in
  header ← header_bytes existing (Some candidate) next_cursor;
  Ok (if decide (existing_bytes + bytes + header <= max_bytes) then Some bytes else None).

(** Where a page that takes [length] of an item goes on. *)
Definition cursor_after (index offset : N) (remaining : str) (length : N) : option ReadCursor :=
  if decide (length = str_len remaining) then next_position index total else Some (mkReadCursor index (offset + length)).
Fixpoint prefix_loop (fuel : nat) (existing : list ReadItemChunk) (existing_bytes index offset : N) (json remaining : str) (lengths : list N) (low high : N) : B N :=
  match fuel with
  | O => mret low
  | S fuel =>
      if decide (low < high) then
        _ ← check;
        let middle := floor_boundary remaining (low + (high - low + 1) / 2) in
        let middle := if decide (middle = low) then (let next := next_boundary remaining low in if decide (high < next) then None else Some next) else Some middle in
        match middle with
        | None => prefix_loop fuel existing existing_bytes index offset json remaining lengths low low
        | Some middle =>
            let candidate := mkChunk index offset (str_len json) JSON_ENCODING [] (bool_decide (middle = str_len remaining)) in
            let bytes := chunk_len candidate + lengths !!! N.to_nat middle + separator existing in
            header ← lift (header_bytes existing (Some candidate) (cursor_after index offset remaining middle));
            if decide (existing_bytes + bytes + header <= max_bytes)
            then prefix_loop fuel existing existing_bytes index offset json remaining lengths middle high
            else prefix_loop fuel existing existing_bytes index offset json remaining lengths low (middle - 1)
        end
      else mret low
  end.
Definition largest_fitting_prefix (existing : list ReadItemChunk) (existing_bytes index offset : N) (json : str) : B N :=
  let remaining := rest_of json offset in
  let high := N.min (str_len remaining) max_bytes in
  let prefix := (split_floor high remaining).1 in
  let lengths := json_prefix_lengths prefix in
  let high := N.min high (lenN lengths - 1) in
  low ← prefix_loop (S (N.to_nat high)) existing existing_bytes index offset json remaining lengths 0 high;
  mret (floor_boundary remaining low).

Record Packing := mkPacking { pk_chunks : list ReadItemChunk; pk_bytes : N; pk_position : ReadCursor }.
Definition at_end : ReadCursor := mkReadCursor total 0.
Fixpoint pack_loop (start : ReadCursor) (encoded : list (result AgentError (N * str))) (k : Packing) : B Packing :=
  _ ← check;
  match encoded with
  | [] => mret k
  | item :: encoded =>
      item ← lift item;
      let '(index, json) := item in
      _ ← check;
      if decide (index < cu_item (pk_position k)) then pack_loop start encoded k else
      let offset := if decide (index = cu_item start) then cu_offset start else 0 in
      _ ← throw_if (str_len json < offset ∨ DiffPage.is_char_boundary json offset = false) InvalidArguments;
      let remaining := rest_of json offset in
      let complete_cursor := next_position index total in
      if decide (remaining = []) then
        pack_loop start encoded (mkPacking (pk_chunks k) (pk_bytes k) (default at_end complete_cursor))
      else
        let whole := make_chunk index offset json (str_len remaining) in
        full ← (if decide (str_len remaining <= max_bytes) then lift (fitting_chunk_bytes (pk_chunks k) (pk_bytes k) whole complete_cursor) else mret None);
        match full with
        | Some bytes => pack_loop start encoded (mkPacking (pk_chunks k ++ [whole]) (pk_bytes k + bytes) (default at_end complete_cursor))
        | None =>
            length ← largest_fitting_prefix (pk_chunks k) (pk_bytes k) index offset json;
            if decide (length = 0) then (if decide (pk_chunks k = []) then throw InvalidArguments else mret k) else
            let next_cursor := cursor_after index offset remaining length in
            let chunk := make_chunk index offset json length in
            mret (mkPacking (pk_chunks k ++ [chunk]) (pk_bytes k + (chunk_len chunk + separator (pk_chunks k))) (default at_end next_cursor))
        end
  end.
Definition pack_items (encoded : list (result AgentError (N * str))) (start : ReadCursor) : B (list ReadItemChunk * option ReadCursor) :=
  k ← pack_loop start encoded (mkPacking [] 0 start);
  let next_cursor := if decide (cu_item (pk_position k) < total) then Some (pk_position k) else None in
  _ ← check;
  header ← lift (header_bytes (pk_chunks k) None next_cursor);
  _ ← check;
  _ ← throw_if (max_bytes < pk_bytes k + header) InvalidArguments;
  mret (pk_chunks k, next_cursor).
End pack.
