(* ===== verification/PackSpec.v ===== *)
(** What a page of chunks holds.

    The chunks are the text of the items from the cursor on; the page fits its budget, and
    is refused only if it could not hold one character. *)

From S2P Require Import Prelude RustStr Errors ToolPage Pack.
From S2P Require DiffPage.
Open Scope N_scope.

(** The text of a chunk takes what it takes as a JSON string. *)
Class ChunkEncodingLaws `{ChunkEncoding} := {
  chunk_len_data c :
    chunk_len c = chunk_len (mkChunk (ck_index c) (ck_offset c) (ck_total_bytes c) (ck_encoding c) [] (ck_complete c)) + json_escaped_len (ck_data c);
  cursor_len_min next : 4 <= cursor_len next
}.

(** ** Boundaries *)

Lemma split_floor_shift a d t : split_floor (str_len a + d) (a ++ t) = (a ++ (split_floor d t).1, (split_floor d t).2).
Proof.
  induction a as [|c a IH]; cbn [app split_floor]; [change (str_len [] + d) with d; by destruct (split_floor d t)|].
  rewrite str_len_cons, decide_True by lia. replace (len_utf8 c + str_len a + d - len_utf8 c) with (str_len a + d) by lia. by rewrite IH.
Qed.
Lemma floor_boundary_at a d t : floor_boundary (a ++ t) (str_len a + d) = str_len a + floor_boundary t d.
Proof. unfold floor_boundary. rewrite split_floor_shift. cbn. apply str_len_app. Qed.
Lemma floor_boundary_cut value index : ∃ a b, value = a ++ b ∧ floor_boundary value index = str_len a ∧ str_len a <= index.
Proof.
  exists (split_floor index value).1, (split_floor index value).2. rewrite split_floor_app. split; [done|]. split; [done|]. apply split_floor_le.
Qed.
Lemma boundary_inside a c t d : 0 < d < len_utf8 c → DiffPage.is_char_boundary (a ++ c :: t) (str_len a + d) = false.
Proof.
  intros Hd. unfold DiffPage.is_char_boundary. rewrite split_floor_shift. cbn. rewrite decide_False by lia. cbn. rewrite app_nil_r. apply bool_decide_eq_false. lia.
Qed.
Lemma boundary_at a t : DiffPage.is_char_boundary (a ++ t) (str_len a) = true.
Proof. unfold DiffPage.is_char_boundary. rewrite split_floor_len. by apply bool_decide_eq_true. Qed.
Lemma next_boundary_spec a c t : next_boundary (a ++ c :: t) (str_len a) = str_len a + len_utf8 c.
Proof.
  pose proof (len_utf8_bounds c) as Hc. assert (Hlen : str_len (a ++ c :: t) = str_len a + len_utf8 c + str_len t) by (rewrite str_len_app, str_len_cons; lia).
  unfold next_boundary. rewrite decide_False by lia.
  assert (Hloop : ∀ fuel d, 1 <= d <= len_utf8 c → (N.to_nat (len_utf8 c - d) <= fuel)%nat → boundary_loop fuel (a ++ c :: t) (str_len a + d) = str_len a + len_utf8 c).
  { induction fuel as [|fuel IH]; intros d Hd Hf; cbn [boundary_loop]; [lia|]. destruct (decide (d = len_utf8 c)) as [->|Hne].
    - rewrite decide_False; [done|]. intros [_ Hb]. pose proof (boundary_at (a ++ [c]) t) as Hat. rewrite <- app_assoc, str_len_app in Hat.
      change (str_len [c]) with (len_utf8 c + 0) in Hat. rewrite N.add_0_r in Hat. cbn [app] in Hat. congruence.
    - rewrite decide_True by (split; [lia|apply boundary_inside; lia]). rewrite <- N.add_assoc. apply IH; lia. }
  apply Hloop; [lia|]. lia.
Qed.

(** ** The lengths of prefixes *)

Lemma lengths_len bytes size : lenN (lengths_from bytes size) = lenN bytes + 1.
Proof. revert size. induction bytes as [|b bytes IH]; intros size; cbn [lengths_from]; rewrite !lenN_cons; [done|]. rewrite IH, ?lenN_cons. lia. Qed.
Definition cost (bytes : list N) : N := foldr (λ b n, byte_cost b + n) 0 bytes.
Lemma cost_app a b : cost (a ++ b) = cost a + cost b.
Proof. induction a as [|x a IH]; [done|]. cbn. fold (cost (a ++ b)) (cost a). rewrite IH. lia. Qed.
Lemma lengths_at a b size : lengths_from (a ++ b) size !!! length a = size + cost a.
Proof.
  revert size. induction a as [|x a IH]; intros size; [cbn [app length cost foldr]; rewrite N.add_0_r; by destruct b|].
  cbn [app lengths_from length]. change ((size :: lengths_from (a ++ b) (size + byte_cost x)) !!! S (length a)) with (lengths_from (a ++ b) (size + byte_cost x) !!! length a).
  rewrite IH. cbn. fold (cost a). lia.
Qed.
Lemma cost_char c : cost (encode_char c) = escaped_char_len c.
Proof.
  unfold escaped_char_len. destruct (encode_char_bytes c) as [Hc|Hbig].
  - rewrite Hc. cbn [cost foldr]. unfold byte_cost. pose proof (encode_char_len c) as Hl. rewrite Hc in Hl. change (lenN [c]) with 1 in Hl. rewrite <- Hl, N.add_0_r.
    change [DQUOTE; BACKSLASH; 8; 9; 10; 12; 13] with [DQUOTE; BACKSLASH; 8; TAB; LF; 12; CR].
    destruct (decide (c ∈ _)); [done|]. destruct (decide (c <= 31)), (decide (c < 32)); try done; lia.
  - assert (Hcost : cost (encode_char c) = lenN (encode_char c)).
    { induction Hbig as [|b l Hb _ IH]; [done|]. cbn. fold (cost l). rewrite IH, lenN_cons. unfold byte_cost. rewrite decide_False.
      - rewrite decide_False by lia. lia.
      - rewrite !elem_of_cons, elem_of_nil. unfold DQUOTE, BACKSLASH. lia. }
    rewrite Hcost, encode_char_len. assert (Hhigh : 0x80 <= c).
    { destruct (decide (0x80 <= c)); [done|]. exfalso. unfold encode_char in Hbig. rewrite decide_True in Hbig by lia. apply Forall_inv in Hbig. lia. }
    rewrite decide_False by (rewrite !elem_of_cons, elem_of_nil; unfold DQUOTE, BACKSLASH, TAB, LF, CR; lia). by rewrite decide_False by lia.
Qed.
Lemma cost_bytes s : cost (as_bytes s) = json_escaped_len s.
Proof. induction s as [|c s IH]; [done|]. rewrite as_bytes_cons, cost_app, cost_char, IH. done. Qed.
Lemma prefix_length_at a b : json_prefix_lengths (a ++ b) !!! N.to_nat (str_len a) = json_escaped_len a.
Proof.
  unfold json_prefix_lengths. rewrite as_bytes_app, <- as_bytes_len. unfold lenN. rewrite Nat2N.id, lengths_at, cost_bytes. lia.
Qed.

(** ** The search for a prefix *)

Section prefix.
Context `{ChunkEncodingLaws} (late : N → bool).
Context (header_bytes : list ReadItemChunk → option ReadItemChunk → option ReadCursor → result AgentError N).
(** The rest of the page depends on which items the chunks are of. *)
Context (rest_bytes : list N → option ReadCursor → N).
Context (Hheader : ∀ items candidate next, header_bytes items candidate next = Ok (rest_bytes (ck_index <$> (items ++ option_list candidate)) next)).
Context (total max_bytes : N).
Context (existing : list ReadItemChunk) (existing_bytes index : N) (before remaining : str).
Abbreviation json := (before ++ remaining).
Abbreviation offset := (str_len before).

(** The chunk with [taken] of what remains, and whether it fits. *)
Definition chunk_of (taken : str) : ReadItemChunk := make_chunk index offset json (str_len taken).
Definition after (taken : str) : option ReadCursor := cursor_after total index offset remaining (str_len taken).
Definition fits (taken : str) : Prop :=
  existing_bytes + (chunk_len (chunk_of taken) + separator existing) + rest_bytes ((ck_index <$> existing) ++ [index]) (after taken) <= max_bytes.

#[global] Instance fits_dec taken : Decision (fits taken).
Proof. unfold fits. apply _. Defined.

Lemma rest_is : rest_of json offset = remaining.
Proof using Type. unfold rest_of. by rewrite split_floor_len. Qed.
Lemma chunk_of_is a b :
  remaining = a ++ b → chunk_of a = mkChunk index offset (str_len json) JSON_ENCODING a (bool_decide (str_len a = str_len remaining)).
Proof using Type.
  intros Hr. unfold chunk_of, make_chunk. rewrite rest_is. rewrite Hr at 2. rewrite split_floor_len. cbn [fst]. f_equal. rewrite str_len_app. apply bool_decide_ext. lia.
Qed.
Lemma chunk_size a b :
  remaining = a ++ b →
  chunk_len (chunk_of a) = chunk_len (mkChunk index offset (str_len json) JSON_ENCODING [] (bool_decide (str_len a = str_len remaining))) + json_escaped_len a.
Proof using All. intros Hr. rewrite (chunk_of_is a b Hr), chunk_len_data. done. Qed.

(** An error of the clock or of the client. *)
Definition interrupted_by (e : AgentError) : Prop := e = QueryLimit ∧ ∃ m, late m = true.

Lemma prefix_loop_spec prefix suffix fuel low high n n' r :
  remaining = prefix ++ suffix → high <= str_len prefix → (N.to_nat (high - low) < fuel)%nat →
  (∃ a b, remaining = a ++ b ∧ low = str_len a ∧ (a = [] ∨ fits a)) →
  prefix_loop late header_bytes total max_bytes fuel existing existing_bytes index offset json remaining (json_prefix_lengths prefix) low high n = (n', r) →
  match r with
  | Ok found => ∃ a b, remaining = a ++ b ∧ found = str_len a ∧ low <= found ∧ (a = [] ∨ fits a) ∧
      (a = [] → ∀ c t, remaining = c :: t → len_utf8 c <= high → ¬ fits [c])
  | Err e => interrupted_by e
  end.
Proof using All.
  intros Hprefix. revert low high n. induction fuel as [|fuel IH]; intros low high n Hhigh Hfuel (a & b & Ha & Hlow & Hfit); cbn [prefix_loop]; [lia|].
  destruct (decide (low < high)) as [Hlt|Hstop].
  2: { intros [= <- <-]. exists a, b. split; [done|]. split; [done|]. split; [lia|]. split; [done|].
       intros -> c t _ Hc. pose proof (len_utf8_bounds c). cbn in Hlow. lia. }
  unfold mbind at 1, stm_bind at 1. unfold check. destruct (late n) eqn:Hlate; [intros [= <- <-]; split; [done|by exists n]|]. cbv zeta.
  destruct (floor_boundary_cut b ((high - low + 1) / 2)) as (x & y & Hb & Hx & Hxle).
  assert (Hfloor : floor_boundary remaining (low + (high - low + 1) / 2) = str_len (a ++ x)) by (rewrite Ha, Hlow at 1; rewrite floor_boundary_at, Hx; by rewrite str_len_app).
  assert (Hhalf : (high - low + 1) / 2 <= high - low) by (apply N.Div0.div_le_upper_bound; lia).
  assert (Hlen : str_len remaining = str_len prefix + str_len suffix) by (rewrite Hprefix; apply str_len_app).
  (* a step that tries the prefix [m] *)
  assert (Htry : ∀ m m', remaining = m ++ m' → low < str_len m → str_len m <= high →
    (a = [] → ∀ c t, remaining = c :: t → len_utf8 c <= str_len m) →
    (header ← lift (header_bytes existing (Some (mkChunk index offset (str_len json) JSON_ENCODING [] (bool_decide (str_len m = str_len remaining))))
        (cursor_after total index offset remaining (str_len m)));
     if decide (existing_bytes + (chunk_len (mkChunk index offset (str_len json) JSON_ENCODING [] (bool_decide (str_len m = str_len remaining)))
         + json_prefix_lengths prefix !!! N.to_nat (str_len m) + separator existing) + header <= max_bytes)
     then prefix_loop late header_bytes total max_bytes fuel existing existing_bytes index offset json remaining (json_prefix_lengths prefix) (str_len m) high
     else prefix_loop late header_bytes total max_bytes fuel existing existing_bytes index offset json remaining (json_prefix_lengths prefix) low (str_len m - 1)) (n + 1) = (n', r) →
    match r with
    | Ok found => ∃ a b, remaining = a ++ b ∧ found = str_len a ∧ low <= found ∧ (a = [] ∨ fits a) ∧
        (a = [] → ∀ c t, remaining = c :: t → len_utf8 c <= high → ¬ fits [c])
    | Err e => interrupted_by e
    end).
  { intros m m' Hm Hgt Hle Hfirst. unfold mbind, stm_bind, lift. rewrite Hheader. cbn [option_list]. rewrite fmap_app. cbn [fmap list_fmap ck_index].
    assert (Hcut : ∃ z, prefix = m ++ z).
    { rewrite Hprefix in Hm. symmetry in Hm. apply app_eq_inv in Hm as [(z & -> & ->)|(z & -> & _)]; [|by exists z]. exists []. rewrite app_nil_r.
      rewrite str_len_app in Hle. assert (z = []) as ->; [apply str_len_0; lia|]. by rewrite app_nil_r. }
    destruct Hcut as [z Hz]. assert (Hlk : json_prefix_lengths prefix !!! N.to_nat (str_len m) = json_escaped_len m) by (rewrite Hz; apply prefix_length_at).
    rewrite Hlk, <- (chunk_size m m' Hm).
    destruct (decide _) as [Hyes|Hno].
    - intros Hloop. specialize (IH (str_len m) high (n + 1) Hhigh ltac:(lia)). destruct r as [found|e].
      + destruct IH as (a' & b' & Ha' & Hf & Hle' & Hfit' & _); [by exists m, m'; split; [done|split; [done|by right]]|exact Hloop|].
        exists a', b'. split; [done|]. split; [done|]. split; [lia|]. split; [done|]. intros ->. cbn in Hf. lia.
      + apply IH; [exists m, m'; split; [done|split; [done|by right]]|exact Hloop].
    - intros Hloop. specialize (IH low (str_len m - 1) (n + 1) ltac:(lia) ltac:(lia)). destruct r as [found|e].
      + destruct IH as (a' & b' & Ha' & Hf & Hle' & Hfit' & Hnone); [by exists a, b|exact Hloop|].
        exists a', b'. split; [done|]. split; [done|]. split; [lia|]. split; [done|]. intros Hnil c t Hct Hc.
        destruct (decide (len_utf8 c <= str_len m - 1)); [by eapply Hnone|].
        assert (Hanil : a = []) by (apply str_len_0; rewrite Hnil in Hf; cbn in Hf; lia). specialize (Hfirst Hanil c t Hct).
        assert (m = [c]) as ->; [|exact Hno]. destruct m as [|d m]; [cbn in Hgt; lia|]. rewrite Hct in Hm. injection Hm as -> _.
        rewrite str_len_cons in *. assert (m = []) as ->; [apply str_len_0; lia|done].
      + apply IH; [by exists a, b|exact Hloop]. }
  rewrite Hfloor. destruct (decide (str_len (a ++ x) = low)) as [Hsame|Hmore].
  - assert (x = []) as -> by (apply str_len_0; rewrite str_len_app in Hsame; lia). destruct b as [|c t].
    { exfalso. rewrite app_nil_r in Ha. rewrite Ha in Hlen. lia. }
    rewrite Ha, Hlow, next_boundary_spec, <- Hlow, <- Ha. destruct (decide (high < low + len_utf8 c)) as [Hover|Hin].
    + intros Hloop. assert (Hspec : ∃ fuel', fuel = S fuel') by (destruct fuel; [lia|by eexists]). destruct Hspec as [fuel' ->].
      cbn [prefix_loop] in Hloop. rewrite decide_False in Hloop by lia. injection Hloop as <- <-.
      exists a, (c :: t). split; [done|]. split; [done|]. split; [lia|]. split; [done|]. intros -> d t' Hd Hle. rewrite Ha in Hd. injection Hd as -> ->. cbn in Hlow. lia.
    + assert (Hmid : low + len_utf8 c = str_len (a ++ [c])) by (rewrite str_len_app, Hlow; change (str_len [c]) with (len_utf8 c + 0); lia).
      rewrite Hmid. apply (Htry (a ++ [c]) t); [by rewrite Ha, <- app_assoc| | |].
      * rewrite <- Hmid. pose proof (len_utf8_bounds c). lia.
      * lia.
      * intros -> d t' Hd. rewrite Ha in Hd. injection Hd as -> ->. cbn. lia.
  - apply (Htry (a ++ x) y); [by rewrite Ha, Hb, <- app_assoc| | |].
    + rewrite str_len_app in *. lia.
    + rewrite str_len_app. lia.
    + intros -> c t Hct. destruct x as [|d x]; [exfalso; apply Hmore; by rewrite Hlow|]. rewrite Ha, Hb in Hct. injection Hct as -> _. rewrite app_nil_l, str_len_cons. lia.
Qed.

(** No prefix is found only where not one character fits. *)
Lemma largest_prefix_spec n n' r :
  largest_fitting_prefix late header_bytes total max_bytes existing existing_bytes index offset json n = (n', r) →
  match r with
  | Ok found => ∃ a b, remaining = a ++ b ∧ found = str_len a ∧ (a = [] ∨ fits a) ∧ (a = [] → ∀ c t, remaining = c :: t → ¬ fits [c])
  | Err e => interrupted_by e
  end.
Proof using All.
  unfold largest_fitting_prefix. rewrite rest_is. cbv zeta. set (high := N.min (str_len remaining) max_bytes).
  pose proof (split_floor_app high remaining) as Happ. pose proof (split_floor_le high remaining) as Hle.
  set (prefix := (split_floor high remaining).1) in *. set (suffix := (split_floor high remaining).2) in *.
  assert (Hlen : lenN (json_prefix_lengths prefix) = str_len prefix + 1) by (unfold json_prefix_lengths; by rewrite lengths_len, as_bytes_len).
  rewrite Hlen, N.add_sub, N.min_r by done. intros [(e & Hloop & ->)|(n1 & low & Hloop & Hret)]%stm_bind_inv.
  - apply (prefix_loop_spec prefix suffix) in Hloop; [done|done|done|lia|]. exists [], remaining. split; [done|]. split; [done|by left].
  - injection Hret as <- <-. apply (prefix_loop_spec prefix suffix) in Hloop; [|done|done|lia|exists [], remaining; split; [done|]; split; [done|by left]].
    destruct Hloop as (a & b & Ha & -> & _ & Hfit & Hnone). exists a, b. split; [done|]. split; [unfold floor_boundary; by rewrite Ha, split_floor_len|].
    split; [done|]. intros Hnil c t Hc. destruct (decide (len_utf8 c <= str_len prefix)) as [|Hbig]; [by eapply Hnone|].
    assert (Hsmall : max_bytes < len_utf8 c).
    { assert (Hrl : len_utf8 c <= str_len remaining) by (rewrite Hc, str_len_cons; lia).
      destruct prefix as [|d prefix'] eqn:Hp.
      - pose proof (split_floor_max high remaining) as Hmax. fold prefix suffix in Hmax. rewrite Hp in Hmax. rewrite <- Happ, app_nil_l in Hc. specialize (Hmax _ _ Hc).
        cbn in Hmax. unfold high in Hmax. lia.
      - exfalso. rewrite <- Happ in Hc. injection Hc as -> _. rewrite str_len_cons in Hbig. lia. }
    unfold fits. rewrite (chunk_size [c] t) by done. cbn [json_escaped_len]. assert (len_utf8 c <= escaped_char_len c); [|lia].
    unfold escaped_char_len. pose proof (len_utf8_bounds c). destruct (decide (c ∈ _)) as [Hin|]; [|destruct (decide _); lia].
    assert (len_utf8 c = 1); [|lia]. rewrite !elem_of_cons, elem_of_nil in Hin. by repeat destruct Hin as [->|Hin].
Qed.
End prefix.

(** ** Streams *)

(** The characters of items with the index of their item. *)
Definition tagged (index : N) (text : str) : list (N * char) := (λ c, (index, c)) <$> text.
Fixpoint item_stream (index : N) (jsons : list str) : list (N * char) :=
  match jsons with [] => [] | json :: jsons => tagged index json ++ item_stream (index + 1) jsons end.
Definition chunk_stream (c : ReadItemChunk) : list (N * char) := tagged (ck_index c) (ck_data c).
(** What is left from a cursor on. *)
Definition left_from (jsons : list str) (cursor : ReadCursor) : list (N * char) :=
  match drop (N.to_nat (cu_item cursor)) jsons with
  | [] => []
  | json :: rest => tagged (cu_item cursor) (rest_of json (cu_offset cursor)) ++ item_stream (cu_item cursor + 1) rest
  end.
(** A cursor a page gives: at a character of an item, or at the end. *)
Definition good_at (jsons : list str) (cursor : ReadCursor) : Prop :=
  match drop (N.to_nat (cu_item cursor)) jsons with
  | [] => cursor = at_end (lenN jsons)
  | json :: _ => ∃ a b, json = a ++ b ∧ b ≠ [] ∧ cu_offset cursor = str_len a
  end.
(** A chunk says what part of which item it has. *)
Definition chunk_good (jsons : list str) (c : ReadItemChunk) : Prop :=
  ∃ a b, jsons !! N.to_nat (ck_index c) = Some (a ++ ck_data c ++ b) ∧ ck_data c ≠ [] ∧ ck_encoding c = JSON_ENCODING ∧
    ck_offset c = str_len a ∧ ck_total_bytes c = str_len (a ++ ck_data c ++ b) ∧ ck_complete c = bool_decide (b = []).
Fixpoint encoded_from (index : N) (jsons : list str) : list (result AgentError (N * str)) :=
  match jsons with [] => [] | json :: jsons => Ok (index, json) :: encoded_from (index + 1) jsons end.

Section items.
Context (jsons : list str) (Hjsons : Forall (λ json, json ≠ []) jsons).

Lemma item_below i json rest : drop (N.to_nat i) jsons = json :: rest → i < lenN jsons ∧ drop (N.to_nat (i + 1)) jsons = rest ∧ jsons !! N.to_nat i = Some json.
Proof using Type.
  intros Hd. assert (Hl : jsons !! N.to_nat i = Some json) by (rewrite <- (Nat.add_0_r (N.to_nat i)), <- lookup_drop, Hd; done).
  split; [apply lookup_lt_Some in Hl; unfold lenN; lia|]. split; [|done].
  replace (N.to_nat (i + 1)) with (N.to_nat i + 1)%nat by lia. by rewrite <- drop_drop, Hd.
Qed.
Lemma rest_of_0 json : rest_of json 0 = json.
Proof using Type. unfold rest_of. by rewrite split_floor_0. Qed.
(** The place after an item. *)
Lemma next_item i json rest :
  drop (N.to_nat i) jsons = json :: rest →
  default (at_end (lenN jsons)) (next_position i (lenN jsons)) = mkReadCursor (i + 1) 0 ∧
  next_position i (lenN jsons) = (if decide (i + 1 < lenN jsons) then Some (mkReadCursor (i + 1) 0) else None) ∧
  left_from jsons (mkReadCursor (i + 1) 0) = item_stream (i + 1) rest ∧ good_at jsons (mkReadCursor (i + 1) 0).
Proof using Hjsons.
  intros Hd. destruct (item_below _ _ _ Hd) as (Hlt & Hrest & Hat). unfold next_position, left_from, good_at. cbn [cu_item cu_offset]. rewrite Hrest.
  split; [|split; [done|split]].
  - destruct (decide _) as [|Hno]; [done|]. cbn. unfold at_end. f_equal. lia.
  - destruct rest as [|next rest]; [done|]. by rewrite rest_of_0.
  - destruct rest as [|next rest].
    + unfold at_end. f_equal. apply (f_equal length) in Hrest. rewrite length_drop in Hrest. unfold lenN. cbn in Hrest. unfold lenN in Hlt. lia.
    + exists [], next. split; [done|]. split; [|done]. destruct (item_below _ _ _ Hrest) as (_ & _ & Hin%list_elem_of_lookup_2).
      rewrite Forall_forall in Hjsons. by apply Hjsons.
Qed.
End items.

(** ** A page *)

Section packed.
Context `{ChunkEncoding}.
Fixpoint chunks_len (cs : list ReadItemChunk) : N := match cs with [] => 0 | c :: cs => chunk_len c + chunks_len cs end.
(** Chunks in a list, with what separates them. *)
Definition packed (cs : list ReadItemChunk) : N := chunks_len cs + N.pred (lenN cs).
Lemma packed_snoc cs c : packed (cs ++ [c]) = packed cs + (chunk_len c + separator cs).
Proof using Type.
  assert (Hs : chunks_len (cs ++ [c]) = chunks_len cs + chunk_len c) by (induction cs as [|d cs IH]; cbn [app chunks_len]; lia).
  unfold packed. rewrite Hs, lenN_app. change (lenN [c]) with 1. unfold separator. destruct (decide (cs = [])) as [->|Hne]; [cbn [chunks_len]; change (lenN (@nil ReadItemChunk)) with 0; lia|].
  assert (0 < lenN cs) by (destruct cs; [done|rewrite lenN_cons; lia]). lia.
Qed.
End packed.

Section page.
Context `{ChunkEncodingLaws} (late : N → bool).
Context (header_bytes : list ReadItemChunk → option ReadItemChunk → option ReadCursor → result AgentError N).
Context (rest_bytes : list N → option ReadCursor → N).
Context (Hheader : ∀ items candidate next, header_bytes items candidate next = Ok (rest_bytes (ck_index <$> (items ++ option_list candidate)) next)).
Context (max_bytes : N) (jsons : list str) (Hjsons : Forall (λ json, json ≠ []) jsons).
Abbreviation total := (lenN jsons).
Abbreviation left := (left_from jsons).

Definition next_of (position : ReadCursor) : option ReadCursor := if decide (cu_item position < total) then Some position else None.
(** A page can hold one character of an item, and no item. *)
Definition roomy : Prop :=
  (∀ c next, chunk_good jsons c → length (ck_data c) = 1%nat → from_option (good_at jsons) True next → chunk_len c + rest_bytes [ck_index c] next <= max_bytes) ∧
  rest_bytes [] None <= max_bytes.
Record sound_packing (k : Packing) : Prop := {
  so_bytes : pk_bytes k = packed (pk_chunks k);
  so_fits : pk_chunks k ≠ [] → pk_bytes k + rest_bytes (ck_index <$> pk_chunks k) (next_of (pk_position k)) <= max_bytes;
  so_chunks : Forall (chunk_good jsons) (pk_chunks k);
  so_position : good_at jsons (pk_position k)
}.

(** Taking [a] of what remains of an item. *)
Lemma take_chunk index before a b rest k :
  drop (N.to_nat index) jsons = (before ++ a ++ b) :: rest → a ≠ [] →
  sound_packing k → pk_position k = mkReadCursor index (str_len before) →
  fits rest_bytes total max_bytes (pk_chunks k) (pk_bytes k) index before (a ++ b) a →
  let chunk := make_chunk index (str_len before) (before ++ a ++ b) (str_len a) in
  let k' := mkPacking (pk_chunks k ++ [chunk]) (pk_bytes k + (chunk_len chunk + separator (pk_chunks k)))
    (default (at_end total) (cursor_after total index (str_len before) (a ++ b) (str_len a))) in
  sound_packing k' ∧ left (pk_position k) = chunk_stream chunk ++ left (pk_position k') ∧ (b = [] → pk_position k' = mkReadCursor (index + 1) 0).
Proof using All.
  intros Hdrop Hne [Hb Hf Hc Hp] Hpos Hfits chunk k'. destruct (item_below jsons _ _ _ Hdrop) as (Hlt & Hrest & Hat).
  destruct (next_item jsons Hjsons index _ _ Hdrop) as (Hnext & Hposition & Hleft & Hgood).
  assert (Hchunk : chunk = mkChunk index (str_len before) (str_len (before ++ a ++ b)) JSON_ENCODING a (bool_decide (str_len a = str_len (a ++ b))))
    by (apply (chunk_of_is index before (a ++ b) a b); done).
  assert (Hwhole : str_len a = str_len (a ++ b) ↔ b = []).
  { rewrite str_len_app. split; [intros Hs; apply str_len_0; lia|intros ->; cbn; lia]. }
  assert (Hgoodc : chunk_good jsons chunk).
  { rewrite Hchunk. exists before, b. cbn. split; [done|]. split; [done|]. split; [done|]. split; [done|]. split; [done|]. by apply bool_decide_ext. }
  assert (Hleft0 : left (pk_position k) = tagged index (a ++ b) ++ item_stream (index + 1) rest).
  { unfold left_from. rewrite Hpos. cbn [cu_item cu_offset]. rewrite Hdrop. f_equal. unfold rest_of. by rewrite split_floor_len. }
  assert (Hcs : chunk_stream chunk = tagged index a) by by rewrite Hchunk.
  assert (Hpk : (b = [] ∧ pk_position k' = mkReadCursor (index + 1) 0) ∨ (b ≠ [] ∧ pk_position k' = mkReadCursor index (str_len before + str_len a))).
  { unfold k', cursor_after. cbn [pk_position]. destruct (decide (str_len a = str_len (a ++ b))) as [Heq|Hnq]; [left|right].
    - split; [by apply Hwhole|done].
    - split; [intros ?; by apply Hnq, Hwhole|done]. }
  split; [|split].
  - split; unfold k'; cbn [pk_bytes pk_chunks].
    + by rewrite packed_snoc, Hb.
    + intros _. unfold fits in Hfits. rewrite fmap_app. cbn [fmap list_fmap]. fold k'. rewrite Hchunk at 2. cbn [ck_index].
      unfold chunk_of in Hfits. fold chunk in Hfits. unfold after in Hfits. etransitivity; [|exact Hfits]. apply N.eq_le_incl. f_equal.
      f_equal. unfold next_of. cbn [pk_position k']. unfold cursor_after.
      destruct (decide (str_len a = str_len (a ++ b))); [|cbn [default from_option id cu_item]; by rewrite decide_True].
      rewrite Hnext. cbn [cu_item]. by rewrite Hposition.
    + apply Forall_app. split; [done|]. by constructor.
    + change (good_at jsons (pk_position k')). destruct Hpk as [[_ ->]|[Hbne ->]]; [done|]. unfold good_at. cbn [cu_item cu_offset]. rewrite Hdrop.
      exists (before ++ a), b. rewrite <- app_assoc, str_len_app. done.
  - rewrite Hleft0, Hcs. destruct Hpk as [[Hnil ->]|[Hbne ->]].
    + rewrite Hnil, app_nil_r. by rewrite Hleft.
    + unfold left_from. cbn [cu_item cu_offset]. rewrite Hdrop.
      assert (Hrest' : rest_of (before ++ a ++ b) (str_len before + str_len a) = b) by (unfold rest_of; by rewrite app_assoc, <- str_len_app, split_floor_len).
      rewrite Hrest'. unfold tagged. by rewrite fmap_app, <- app_assoc.
  - intros Hnil. destruct Hpk as [[_ Hp']|[? _]]; [exact Hp'|done].
Qed.

(** What the test for a whole chunk finds. *)
Lemma whole_fits index before a k :
  fitting_chunk_bytes header_bytes max_bytes (pk_chunks k) (pk_bytes k) (make_chunk index (str_len before) (before ++ a) (str_len a)) (next_position index total) =
  Ok (if decide (fits rest_bytes total max_bytes (pk_chunks k) (pk_bytes k) index before a a)
      then Some (chunk_len (make_chunk index (str_len before) (before ++ a) (str_len a)) + separator (pk_chunks k)) else None).
Proof using All.
  unfold fitting_chunk_bytes. rewrite Hheader. cbn [mbind result_bind option_list]. rewrite fmap_app. f_equal. apply decide_ext.
  unfold fits, chunk_of, after, cursor_after. by rewrite decide_True.
Qed.
(** A page that cannot start has no room for a character. *)
Lemma not_roomy index before c t rest k :
  drop (N.to_nat index) jsons = (before ++ c :: t) :: rest → sound_packing k → pk_chunks k = [] →
  ¬ fits rest_bytes total max_bytes (pk_chunks k) (pk_bytes k) index before (c :: t) [c] → ¬ roomy.
Proof using All.
  intros Hdrop [Hb _ _ _] Hnil Hfits [Hroom _]. apply Hfits. unfold fits. rewrite Hb, Hnil. cbn [packed chunks_len fmap list_fmap app]. unfold separator. rewrite decide_True by done.
  destruct (item_below jsons _ _ _ Hdrop) as (Hlt & Hrest & Hat). destruct (next_item jsons Hjsons index _ _ Hdrop) as (_ & Hposition & _ & Hgood).
  assert (Hchunk : chunk_of index before (c :: t) [c] = mkChunk index (str_len before) (str_len (before ++ [c] ++ t)) JSON_ENCODING [c] (bool_decide (str_len [c] = str_len ([c] ++ t))))
    by (apply (chunk_of_is index before (c :: t) [c] t); done).
  assert (Hgoodc : chunk_good jsons (chunk_of index before (c :: t) [c])).
  { rewrite Hchunk. exists before, t. cbn [ck_index ck_data ck_offset ck_total_bytes ck_encoding ck_complete]. split; [done|]. split; [done|]. split; [done|]. split; [done|]. split; [done|].
    apply bool_decide_ext. rewrite str_len_app. split; [intros Hs; apply str_len_0; lia|intros ->; cbn; lia]. }
  assert (Hn : from_option (good_at jsons) True (after total index before (c :: t) [c])).
  { unfold after, cursor_after. destruct (decide (str_len [c] = str_len (c :: t))) as [|Hne].
    - rewrite Hposition. destruct (decide (index + 1 < total)); [exact Hgood|exact I].
    - cbn [from_option]. unfold good_at. cbn [cu_item cu_offset]. rewrite Hdrop. exists (before ++ [c]), t. rewrite <- app_assoc, str_len_app. split; [done|]. split; [|done]. by intros ->. }
  specialize (Hroom _ _ Hgoodc ltac:(by rewrite Hchunk) Hn). assert (Hi : ck_index (chunk_of index before (c :: t) [c]) = index) by by rewrite Hchunk.
  rewrite Hi in Hroom. unfold packed. cbn [chunks_len]. change (N.pred (lenN (@nil ReadItemChunk))) with 0. lia.
Qed.

Lemma pack_loop_spec start l k n n' r :
  sound_packing k → cu_item start <= cu_item (pk_position k) →
  cu_offset (pk_position k) = (if decide (cu_item (pk_position k) = cu_item start) then cu_offset start else 0) →
  l `prefix_of` drop (N.to_nat (cu_item (pk_position k))) jsons →
  pack_loop late header_bytes total max_bytes start (encoded_from (cu_item (pk_position k)) l) k n = (n', r) →
  match r with
  | Ok k' => ∃ cs, pk_chunks k' = pk_chunks k ++ cs ∧ left (pk_position k) = (cs ≫= chunk_stream) ++ left (pk_position k') ∧ sound_packing k' ∧
      (l ≠ [] → pk_chunks k = [] → cs ≠ [])
  | Err e => interrupted_by late e ∨ e = InvalidArguments ∧ ¬ roomy
  end.
Proof using All.
  revert k n. induction l as [|json l IH]; intros k n Hsound Hstart Hoffset [more Hmore]; cbn [encoded_from pack_loop].
  { unfold mbind at 1, stm_bind at 1, check. destruct (late n) eqn:Hlate; intros [= <- <-]; [left; split; [done|by exists n]|]. exists []. rewrite app_nil_r. done. }
  unfold mbind at 1, stm_bind at 1, check at 1. destruct (late n) eqn:Hlate; [intros [= <- <-]; left; split; [done|by exists n]|].
  unfold mbind at 1, stm_bind at 1, lift at 1. unfold mbind at 1, stm_bind at 1, check at 1. destruct (late (n + 1)) eqn:Hlate'; [intros [= <- <-]; left; split; [done|by exists (n + 1)]|].
  rewrite decide_False by lia. cbv zeta. rewrite <- Hoffset.
  pose proof (so_position _ Hsound) as Hgood. unfold good_at in Hgood. cbn [app] in Hmore. rewrite Hmore in Hgood. destruct Hgood as (a0 & b0 & Hjson & Hb0 & Ho).
  rewrite Ho, Hjson. set (index := cu_item (pk_position k)) in *. assert (Hpos : pk_position k = mkReadCursor index (str_len a0)) by (rewrite <- Ho; unfold index; by destruct (pk_position k)).
  rewrite Hjson in Hmore. destruct (next_item jsons Hjsons index _ _ Hmore) as (Hnext & Hposition & _ & _).
  destruct (item_below jsons _ _ _ Hmore) as (Hlt & Hrest & _).
  unfold mbind at 1, stm_bind at 1. pose proof (boundary_at a0 b0) as Hboundary.
  rewrite throw_if_run, decide_False by (rewrite str_len_app; intros [Hx|Hx]; [lia|congruence]).
  rewrite (rest_is a0 b0), decide_False by done.
  set (whole := make_chunk index (str_len a0) (a0 ++ b0) (str_len b0)). pose proof (whole_fits index a0 b0 k) as Hwhole. fold whole in Hwhole.
  assert (Hfull : ∀ n, (if decide (str_len b0 <= max_bytes)
      then lift (fitting_chunk_bytes header_bytes max_bytes (pk_chunks k) (pk_bytes k) whole (next_position index total)) else mret None) n =
    (n, Ok (if decide (str_len b0 <= max_bytes ∧ fits rest_bytes total max_bytes (pk_chunks k) (pk_bytes k) index a0 b0 b0)
            then Some (chunk_len whole + separator (pk_chunks k)) else None)) :> N * result AgentError (option N)).
  { intros m. destruct (decide (str_len b0 <= max_bytes)) as [Hle|Hgt].
    - unfold lift. rewrite Hwhole. f_equal. f_equal. apply decide_ext. tauto.
    - by rewrite decide_False by tauto. }
  unfold mbind at 1, stm_bind at 1. rewrite Hfull. clear Hfull. destruct (decide (_ ∧ _)) as [[_ Hfit]|_].
  - intros Hrun. rewrite <- (app_nil_r b0) in Hmore, Hfit at 1.
    destruct (take_chunk index a0 b0 [] _ k Hmore Hb0 Hsound Hpos Hfit) as (Hsound' & Hleft & Hposition'). specialize (Hposition' eq_refl).
    rewrite app_nil_r in Hsound', Hleft, Hposition'. fold whole in Hsound', Hleft, Hposition'.
    unfold cursor_after in Hsound', Hleft, Hposition'. rewrite decide_True in Hsound', Hleft, Hposition' by done.
    set (k1 := mkPacking _ _ _) in *. assert (Hi : index + 1 = cu_item (pk_position k1)) by by rewrite Hposition'. rewrite Hi in Hrun.
    apply IH in Hrun; [|exact Hsound'|rewrite <- Hi; lia| |rewrite <- Hi, Hrest; by exists more].
    2: { rewrite Hposition'. cbn [cu_item cu_offset]. by rewrite decide_False by lia. }
    destruct r as [k'|e]; [|exact Hrun]. destruct Hrun as (cs & Hcs & Hl & Hs & _). exists (whole :: cs).
    split; [rewrite Hcs; unfold k1; cbn [pk_chunks]; by rewrite <- app_assoc|]. split; [rewrite Hleft, Hl, bind_cons; by rewrite <- app_assoc|]. split; [done|by intros _ _].
  - intros Hrun. apply stm_bind_inv in Hrun as [(e & Hlargest & ->)|(n1 & length & Hlargest & Hret)].
    + left. by apply (largest_prefix_spec late header_bytes rest_bytes Hheader) in Hlargest.
    + apply (largest_prefix_spec late header_bytes rest_bytes Hheader) in Hlargest. destruct Hlargest as (a & b & Hb & -> & Hfit & Hnone).
      destruct (decide (str_len a = 0)) as [Hzero|Hpos'].
      * apply str_len_0 in Hzero. specialize (Hnone Hzero). destruct (decide (pk_chunks k = [])) as [Hnil|Hchunks].
        -- injection Hret as <- <-. right. split; [done|]. destruct b0 as [|c t]; [done|]. eapply not_roomy; [exact Hmore|done|done|]. by apply (Hnone c t).
        -- injection Hret as <- <-. exists []. rewrite app_nil_r. done.
      * assert (Hane : a ≠ []) by (intros ->; by apply Hpos'). destruct Hfit as [?|Hfit]; [done|]. injection Hret as <- <-. rewrite Hb in Hmore, Hfit.
        destruct (take_chunk index a0 a b _ k Hmore Hane Hsound Hpos Hfit) as (Hsound' & Hleft & _). rewrite <- Hb in Hsound', Hleft.
        eexists [_]. split; [done|]. split; [cbn [mbind list_bind]; rewrite app_nil_r; exact Hleft|]. split; [exact Hsound'|done].
Qed.

Lemma left_nonempty cursor : good_at jsons cursor → cu_item cursor < total → left cursor ≠ [].
Proof using Type.
  intros Hgood Hlt. unfold good_at, left_from in *. destruct (drop _ jsons) as [|json rest] eqn:Hd.
  - apply (f_equal length) in Hd. rewrite length_drop in Hd. unfold lenN in Hlt. cbn in Hd. lia.
  - destruct Hgood as (a & b & -> & Hb & ->). unfold rest_of. rewrite split_floor_len. cbn [snd]. by destruct b.
Qed.
(** A page: its chunks are what is left up to its cursor, and it fits. *)
Record page_holds (start : ReadCursor) (chunks : list ReadItemChunk) (next : option ReadCursor) : Prop := {
  ph_chunks : Forall (chunk_good jsons) chunks;
  ph_fits : packed chunks + rest_bytes (ck_index <$> chunks) next <= max_bytes;
  ph_left : left start = (chunks ≫= chunk_stream) ++ from_option left [] next;
  ph_next : from_option (λ cursor, good_at jsons cursor ∧ cu_item cursor < total ∧ chunks ≠ []) True next
}.
Lemma pack_items_spec start l n n' r :
  good_at jsons start → l `prefix_of` drop (N.to_nat (cu_item start)) jsons → (l = [] → drop (N.to_nat (cu_item start)) jsons = []) →
  pack_items late header_bytes total max_bytes (encoded_from (cu_item start) l) start n = (n', r) →
  match r with
  | Ok (chunks, next) => page_holds start chunks next
  | Err e => interrupted_by late e ∨ e = InvalidArguments ∧ ¬ roomy
  end.
Proof using All.
  intros Hgood Hprefix Hnil Hrun.
  assert (Hempty : sound_packing (mkPacking [] 0 start)) by by split.
  pose proof (λ n' r, pack_loop_spec start l (mkPacking [] 0 start) n n' r Hempty ltac:(cbn; lia) ltac:(cbn; by rewrite decide_True) Hprefix) as Hspec.
  cbn [pk_position pk_chunks] in Hspec. unfold pack_items in Hrun. apply stm_bind_inv in Hrun as [(e & Hloop & ->)|(n1 & k & Hloop & Hrun)]; [by apply Hspec in Hloop|].
  apply Hspec in Hloop as (cs & Hcs & Hleft & Hsound & Hsome). rewrite app_nil_l in Hcs. fold (next_of (pk_position k)) in Hrun. clear Hspec.
  unfold mbind, stm_bind in Hrun. unfold check at 1 in Hrun. destruct (late n1) eqn:Hlate; [injection Hrun as <- <-; left; split; [done|by exists n1]|].
  unfold lift in Hrun. rewrite Hheader in Hrun. cbn [option_list] in Hrun. rewrite app_nil_r in Hrun.
  unfold check at 1 in Hrun. destruct (late (n1 + 1)) eqn:Hlate'; [injection Hrun as <- <-; left; split; [done|by exists (n1 + 1)]|]. rewrite throw_if_run in Hrun.
  assert (Hnone : pk_chunks k = [] → next_of (pk_position k) = None).
  { intros Hk. rewrite Hk in Hcs. assert (Hl : l = []) by (destruct l; [done|]; exfalso; by apply Hsome). rewrite <- Hcs in Hleft. cbn [mbind list_bind app] in Hleft.
    assert (Hz : left (pk_position k) = []) by (rewrite <- Hleft; unfold left_from; by rewrite (Hnil Hl)).
    unfold next_of. rewrite decide_False; [done|]. intros Hlt. by apply (left_nonempty _ (so_position _ Hsound)) in Hlt. }
  destruct (decide (max_bytes < _)) as [Hover|Hfits]; injection Hrun as <- <-.
  - right. split; [done|]. destruct (decide (pk_chunks k = [])) as [Hk|Hk]; [|exfalso; pose proof (so_fits _ Hsound Hk); lia].
    intros [_ Hroom]. rewrite (Hnone Hk), (so_bytes _ Hsound), Hk in Hover. change (packed []) with 0 in Hover. change (ck_index <$> []) with (@nil N) in Hover. lia.
  - rewrite (so_bytes _ Hsound) in Hfits. split; [apply (so_chunks _ Hsound)|lia| |].
    + rewrite Hleft, Hcs. f_equal. unfold next_of. destruct (decide _) as [|Hend]; [done|]. cbn [from_option]. unfold left_from.
      rewrite drop_ge; [done|]. unfold lenN in Hend. lia.
    + unfold next_of in *. destruct (decide _) as [Hlt|]; [|done]. cbn [from_option]. split; [apply (so_position _ Hsound)|]. split; [done|].
      intros Hk. by apply Hnone in Hk.
Qed.
End page.
