(* ===== verification/TurnPage.v ===== *)
(** Pages of the result of a turn, [read/turn_result.rs].

    The items of a result come from the source the catalog retains, whose texts were
    prepared when the turn ended ([PreparedSource] of [sessions/results.rs]), or from the
    items the session has in memory or its stored record has, which are projected
    ([read/projection.rs]) and digested, unless the catalog retains their identity.  All go
    by the same identity. *)

From S2P Require Import Prelude RustStr Errors ToolPage Pack.
From S2P Require History Results Usage.
Open Scope N_scope.

Definition MAX_HISTORY_SCAN_BYTES : N := 64 * 1024 * 1024.
Definition MAX_HISTORY_SCAN_LINES : N := 100000.

#[global] Instance turn_persistence_eq_dec : EqDecision Results.TurnPersistence.
Proof. solve_decision. Defined.
#[global] Instance result_availability_eq_dec : EqDecision Results.ResultAvailability.
Proof. solve_decision. Defined.
#[global] Instance completion_kind_eq_dec : EqDecision Results.CompletionKind.
Proof. solve_decision. Defined.

Section items.
Context `{History.HistoryValues}.

(** ** The projection of an item, [projection.rs] *)

(** A part as it is shown: reasoning without what is encrypted or signed. *)
Inductive ShownPart := PartText (text : str) | PartReasoning (text summary : option str) | PartToolCall (call : History.CallContent).
Inductive SourceItem :=
  | SourceUser (loop_id : N) (input : History.UserInput)
  | SourceAssistant (fields : History.AssistantFields) (content : list ShownPart)
  | SourceToolResult (result : History.ResultContent)
  | SourceSummary (summary : History.SummaryContent).

Definition visible (part : History.AssistantPart) : bool :=
  match part with
  | inr value => bool_decide (is_Some (History.r_text value)) || bool_decide (is_Some (History.r_summary value))
  | _ => true
  end.
Definition source_part (part : History.AssistantPart) : ShownPart :=
  match part with
  | inl (inl text) => PartText text
  | inl (inr call) => PartToolCall call
  | inr value => PartReasoning (History.r_text value) (History.r_summary value)
  end.
(** [canonical], with the parts as [SourceParts] serialises them. *)
Definition canonical (item : History.HistoryItem) : SourceItem :=
  match item with
  | History.User loop_id input => SourceUser loop_id input
  | History.ToolResult result => SourceToolResult result
  | History.Summary summary => SourceSummary summary
  | History.Assistant assistant => SourceAssistant (History.fields assistant) (source_part <$> filter (λ part, visible part = true) (History.content assistant))
  end.
Definition from_history (item : History.HistoryItem) : option SourceItem :=
  match item with
  | History.Assistant assistant => if existsb visible (History.content assistant) then Some (canonical item) else None
  | _ => Some (canonical item)
  end.

(** ** Requests and pages *)

Record TurnRef := mkTurnRef { tr_session : N; tr_loop : N }.
Inductive TurnResultAvailability := TurnPending | TurnLive | TurnStored | TurnUnavailable.
Record TurnResultRequest := mkTurnRequest {
  tq_turn : TurnRef;
  tq_load : option str;
  tq_result_id : option str;
  tq_cursor : option ReadCursor;
  tq_limit : N;
  tq_max_bytes : option N
}.
Record TurnResultPage := mkTurnPage {
  tp_turn : TurnRef;
  tp_load : option str;
  tp_result_id : option str;
  tp_persistence_uncertain : bool;
  tp_unavailable_reason : option Results.UnavailableReason;
  tp_availability : TurnResultAvailability;
  tp_outcome : option History.LoopOutcome;
  tp_persistence : option Results.TurnPersistence;
  tp_usage : option Usage.Usage;
  tp_requests : option N;
  tp_tool_rounds : option N;
  tp_final_config_revision : option History.ConfigRevision;
  tp_completed_at : option str;
  tp_interrupted : option History.InterruptedRequest;
  tp_items : list ReadItemChunk;
  tp_next_cursor : option ReadCursor;
  tp_total : N
}.
(** [TurnResult] of [sessions/types.rs], and the source of a result. *)
Record TurnResult := mkTurnResult {
  t_turn : TurnRef;
  t_outcome : History.LoopOutcome;
  t_usage : Usage.Usage;
  t_requests : N;
  t_tool_rounds : N;
  t_final_config_revision : History.ConfigRevision;
  t_persistence : Results.TurnPersistence
}.
Record ResultSource := mkResultSource {
  rs_items : list str;
  rs_interrupted : option History.InterruptedRequest;
  rs_result_id : str;
  rs_metadata : TurnResult
}.

(** [ReadTurnSummary], and what the catalog retains of a stored result. *)
Record ReadTurnSummary := mkTurnSummary {
  ts_loop_id : N;
  ts_outcome : History.LoopOutcome;
  ts_usage : Usage.Usage;
  ts_requests : N;
  ts_tool_rounds : N;
  ts_final_config_revision : History.ConfigRevision;
  ts_completed_at : str;
  ts_interrupted : option History.InterruptedRequest
}.
Definition summary_of (record : History.StoredLoopRecord) : ReadTurnSummary :=
  mkTurnSummary (History.loop_id record) (History.outcome record) (History.usage record) (History.requests record) (History.tool_rounds record)
    (History.final_config_revision record) (History.completed_at record) (History.interrupted record).
Record StoredIdentity := mkIdentity { si_range : N * N; si_result_id : str; si_total : N; si_metadata : ReadTurnSummary }.
(** A loaded session, for what a request sees of it: the text of its load, what its catalog
    has of the turn, whether the turn is pending, how it ended, the loop whose persistence
    is uncertain, its history, the range the index gives for the turn, and the identity the
    catalog retains under the revision of that range, before and after the wait. *)
Record LoadedSession := mkLoaded {
  ld_load : str;
  ld_entry : option (Results.CompletionEntry * option ResultSource);
  ld_turn_pending : bool;
  ld_completed : option TurnResult;
  ld_uncertain_loop : option N;
  ld_history : list History.HistoryItem;
  ld_source : option (N * N);
  ld_identity : option StoredIdentity;
  ld_locked_identity : option StoredIdentity
}.
(** [items[range]]; the task that slices beyond the end dies. *)
Definition slice_items {A} (range : N * N) (l : list A) : option (list A) :=
  if decide (range.1 <= range.2 <= lenN l) then Some (take (N.to_nat (range.2 - range.1)) (drop (N.to_nat range.1) l)) else None.

Inductive CancelReasonView := CancelUnknown | CancelUser | CancelOwnerDropped | CancelShutdown | CancelDeadline.
(** The constructors of [LoopOutcomeView], which a record only carries. *)
Class OutcomeViews := {
  view_unknown : History.LoopOutcome;
  view_completed : History.LoopOutcome;
  view_cancelled : CancelReasonView → History.LoopOutcome;
  view_failed : str → History.LoopOutcome
}.

(** [serde_json] and SHA-256 in hexadecimal. *)
Class TurnEncoding := {
  envelope_json : SourceItem → result AgentError str;
  interrupted_json : option History.InterruptedRequest → result AgentError str;
  hash_hex : list N → str;
  turn_page_len : TurnResultPage → N
}.

Definition lower_hex_digit (c : char) : bool := is_ascii_digit c || bool_decide (97 <= c <= 102).
Definition turn_validate (q : TurnResultRequest) : result AgentError unit :=
  _ ← ensure (1 <= tq_limit q <= MAX_READ_ITEMS) InvalidArguments;
  _ ← ensure (tq_cursor q = None ∨ tq_cursor q = Some cursor_start ∨ is_Some (tq_result_id q)) InvalidArguments;
  _ ← ensure (from_option (λ id, match strip_prefix (lit "r1:") id with
        | Some digest => bool_decide (str_len digest = 64) && forallb lower_hex_digit (as_bytes digest)
        | None => false
        end) true (tq_result_id q) = true) InvalidArguments;
  validate_max_bytes (tq_max_bytes q).

(** ** The identity of a result *)

(** [u64::to_be_bytes] of a length. *)
Definition be_bytes (n : N) : list N := rev (u64_bytes n).
Definition RESULT_TAG : list N := as_bytes (lit "minicore-turn-result-r1") ++ [0].
Definition item_input (json : str) : list N := be_bytes (str_len json) ++ as_bytes json.
(** [format!("r1:{:x}", hash.finalize())] *)
Definition result_id_of `{TurnEncoding} (input : list N) : str := lit "r1:" ++ hash_hex input.

Section results.
Context `{TurnEncoding}.

(** [PreparedSource::new] and [encode_result_source], for what a page uses of a source: the
    sum of capacities its charge takes is left out. *)
Definition prepared_source (items : list str) (interrupted : option History.InterruptedRequest) (metadata : TurnResult) : result AgentError ResultSource :=
  let hash := RESULT_TAG ++ be_bytes (lenN items) ++ (items ≫= item_input) in
  partial ← interrupted_json interrupted;
  let hash := hash ++ item_input partial in
  Ok (mkResultSource items interrupted (result_id_of hash) metadata).
Fixpoint encode_items (items : list History.HistoryItem) : result AgentError (list str) :=
  match items with
  | [] => Ok []
  | item :: items =>
      match from_history item with
      | None => encode_items items
      | Some source => json ← envelope_json source; rest ← encode_items items; Ok (json :: rest)
      end
  end.
Definition encode_result_source (items : list History.HistoryItem) (interrupted : option History.InterruptedRequest) (metadata : TurnResult)
    : result AgentError ResultSource :=
  encoded ← encode_items items; prepared_source encoded interrupted metadata.

(** ** Preparing a range of a record *)

Record PreparedTurnItems := mkPrepared { pt_result_id : str; pt_total : N; pt_encoded : list (N * str) }.
(** The digest so far, if one is made, its bytes, what was encoded and its bytes. *)
Record Preparing := mkPreparing { pp_hash : option (list N); pp_source_bytes : N; pp_prepared_bytes : N; pp_encoded : list (N * str) }.

Section page.
Context (late : N → bool).
Abbreviation B := (stm N AgentError).

Definition prepare_item (cursor : ReadCursor) (stop max_bytes index : N) (item : SourceItem) (p : Preparing) : B Preparing :=
  json ← lift (envelope_json item);
  let bytes := str_len json in
  p ← (match pp_hash p with
       | Some hash =>
           source_bytes ← lift (ok_or (checked_add (pp_source_bytes p) bytes) QueryLimit);
           _ ← throw_if (MAX_HISTORY_SCAN_BYTES < source_bytes) QueryLimit;
           mret (mkPreparing (Some (hash ++ be_bytes bytes)) source_bytes (pp_prepared_bytes p) (pp_encoded p))
       | None => mret p
       end);
  let hash := (λ hash, hash ++ as_bytes json) <$> pp_hash p in
  mret (if decide (cu_item cursor <= index < stop ∧ pp_prepared_bytes p < max_bytes)
        then mkPreparing hash (pp_source_bytes p) (pp_prepared_bytes p + (bytes - if decide (index = cu_item cursor) then cu_offset cursor else 0))
               (pp_encoded p ++ [(index, json)])
        else mkPreparing hash (pp_source_bytes p) (pp_prepared_bytes p) (pp_encoded p)).
Fixpoint prepare_loop (cursor : ReadCursor) (stop max_bytes : N) (entries : list (N * SourceItem)) (p : Preparing) : B Preparing :=
  match entries with
  | [] => mret p
  | (index, item) :: entries =>
      _ ← check late;
      if decide (pp_hash p = None ∧ max_bytes <= pp_prepared_bytes p) then mret p else
      p ← prepare_item cursor stop max_bytes index item p;
      prepare_loop cursor stop max_bytes entries p
  end.
Definition enumerate {A} (l : list A) : list (N * A) := imap (λ i x, (N.of_nat i, x)) l.
Definition prepare_turn_view (items : list History.HistoryItem) (interrupted : option History.InterruptedRequest) (cursor : ReadCursor)
    (limit max_bytes : N) (identity : option (str * N)) : B PreparedTurnItems :=
  _ ← check late;
  _ ← throw_if (MAX_HISTORY_SCAN_LINES < lenN items) QueryLimit;
  let sources := omap from_history items in
  let total := from_option snd (lenN sources) identity in
  _ ← lift (validate_cursor cursor total);
  let stop := N.min (saturating_add (cu_item cursor) limit) total in
  let hash := match identity with None => Some (RESULT_TAG ++ be_bytes total) | Some _ => None end in
  let '(first, count) := match hash with Some _ => (0, total) | None => (cu_item cursor, stop - cu_item cursor) end in
  p ← prepare_loop cursor stop max_bytes (take (N.to_nat count) (drop (N.to_nat first) (enumerate sources))) (mkPreparing hash 0 0 []);
  result_id ← (match pp_hash p with
               | Some hash => partial ← lift (interrupted_json interrupted); mret (result_id_of (hash ++ item_input partial))
               | None => mret (from_option fst [] identity)
               end);
  _ ← check late;
  mret (mkPrepared result_id total (pp_encoded p)).

(** ** Pages *)

Definition empty_turn_page (turn : TurnRef) (load : option str) : TurnResultPage :=
  mkTurnPage turn load None false None TurnPending None None None None None None None None [] None 0.
Definition unavailable_turn_page (turn : TurnRef) (load : option str) (reason : Results.UnavailableReason) (outcome : option History.LoopOutcome)
    (persistence : option Results.TurnPersistence) (uncertain : bool) (max_bytes : N) : result AgentError TurnResultPage :=
  let page := mkTurnPage turn load None uncertain (Some reason) TurnUnavailable outcome persistence None None None None None None [] None 0 in
  if decide (max_bytes < turn_page_len page) then Err InvalidArguments else Ok page.
Definition with_chunks (base : TurnResultPage) (items : list ReadItemChunk) (next_cursor : option ReadCursor) : TurnResultPage :=
  mkTurnPage (tp_turn base) (tp_load base) (tp_result_id base) (tp_persistence_uncertain base) (tp_unavailable_reason base) (tp_availability base)
    (tp_outcome base) (tp_persistence base) (tp_usage base) (tp_requests base) (tp_tool_rounds base) (tp_final_config_revision base)
    (tp_completed_at base) (tp_interrupted base) items next_cursor (tp_total base).
Context `{ChunkEncoding}.
Definition assemble_turn_page (base : TurnResultPage) (encoded : list (N * str)) (cursor : ReadCursor) (max_bytes : N) : B TurnResultPage :=
  let base_bytes := turn_page_len base in
  packed ← pack_items late (λ _ _ next_cursor, Ok (base_bytes + cursor_len next_cursor - 4)) (tp_total base) max_bytes (Ok <$> encoded) cursor;
  mret (with_chunks base packed.1 packed.2).

Definition q_cursor (q : TurnResultRequest) : ReadCursor := default cursor_start (tq_cursor q).
Definition q_budget (q : TurnResultRequest) : N := default DEFAULT_READ_MAX_BYTES (tq_max_bytes q).
(** The client goes on with another result. *)
Definition stale (q : TurnResultRequest) (result_id : str) : bool := from_option (λ id, bool_decide (id ≠ result_id)) false (tq_result_id q).
Definition live_base (q : TurnResultRequest) (source : ResultSource) (persistence_uncertain : bool) : TurnResultPage :=
  let metadata := rs_metadata source in
  mkTurnPage (tq_turn q) (tq_load q) (Some (rs_result_id source)) persistence_uncertain None TurnLive (Some (t_outcome metadata)) (Some (t_persistence metadata))
    (Some (t_usage metadata)) (Some (t_requests metadata)) (Some (t_tool_rounds metadata)) (Some (t_final_config_revision metadata)) None
    (rs_interrupted source) [] None (lenN (rs_items source)).
Definition retained_turn_page (q : TurnResultRequest) (source : ResultSource) (persistence_uncertain : bool) : B TurnResultPage :=
  let cursor := q_cursor q in
  _ ← throw_if (stale q (rs_result_id source) = true) StaleResult;
  let total := lenN (rs_items source) in
  _ ← lift (validate_cursor cursor total);
  let stop := N.min (saturating_add (cu_item cursor) (tq_limit q)) total in
  let encoded := imap (λ offset item, (cu_item cursor + N.of_nat offset, item))
    (take (N.to_nat (stop - cu_item cursor)) (drop (N.to_nat (cu_item cursor)) (rs_items source))) in
  assemble_turn_page (live_base q source persistence_uncertain) encoded cursor (q_budget q).
Definition stored_base (q : TurnResultRequest) (metadata : ReadTurnSummary) (result_id : str) (total : N) : TurnResultPage :=
  mkTurnPage (tq_turn q) (tq_load q) (Some result_id) false None TurnStored (Some (ts_outcome metadata)) (Some Results.Persisted)
    (Some (ts_usage metadata)) (Some (ts_requests metadata)) (Some (ts_tool_rounds metadata)) (Some (ts_final_config_revision metadata))
    (Some (ts_completed_at metadata)) (ts_interrupted metadata) [] None total.
(** [stored_turn_page] with [project_turn_page]. *)
Definition stored_turn_page (q : TurnResultRequest) (record : History.StoredLoopRecord) : B TurnResultPage :=
  let cursor := q_cursor q in
  prepared ← prepare_turn_view (History.items record) (History.interrupted record) cursor (tq_limit q) (q_budget q) None;
  _ ← throw_if (stale q (pt_result_id prepared) = true) StaleResult;
  assemble_turn_page (stored_base q (summary_of record) (pt_result_id prepared) (pt_total prepared)) (pt_encoded prepared) cursor (q_budget q).

(** [prepare_turn_view] of a range of the history of a session. *)
Definition resident_view (q : TurnResultRequest) (session : LoadedSession) (range : N * N) (interrupted : option History.InterruptedRequest)
    (identity : option (str * N)) : B PreparedTurnItems :=
  items ← lift (ok_or (slice_items range (ld_history session)) Internal);
  prepare_turn_view items interrupted (q_cursor q) (tq_limit q) (q_budget q) identity.
(** The identity of a turn whose items the session has in memory: the retained one, or the
    one made from its items and its record, with what was prepared; or a page without it. *)
Definition resident_identity (q : TurnResultRequest) (session : LoadedSession) (wait_cancelled : bool)
    (read_loop_record : result AgentError (option History.StoredLoopRecord)) (range : N * N)
    : B (TurnResultPage + StoredIdentity * option PreparedTurnItems) :=
  match ld_identity session with
  | Some identity => mret (inr (identity, None))
  | None =>
      _ ← throw_if (wait_cancelled = true) QueryLimit;
      _ ← check late;
      match ld_locked_identity session with
      | Some identity => mret (inr (identity, None))
      | None =>
          record ← lift read_loop_record;
          match record with
          | None => page ← lift (unavailable_turn_page (tq_turn q) (tq_load q) Results.NotRetained None None false (q_budget q)); mret (inl page)
          | Some record =>
              _ ← throw_if (History.loop_id record ≠ tr_loop (tq_turn q)) InvalidState;
              let metadata := summary_of record in
              first ← resident_view q session range (ts_interrupted metadata) None;
              _ ← check late;
              mret (inr (mkIdentity range (pt_result_id first) (pt_total first) metadata, Some first))
          end
      end
  end.
Definition resident_page (q : TurnResultRequest) (session : LoadedSession) (identity : StoredIdentity) (prepared : option PreparedTurnItems) : B TurnResultPage :=
  _ ← throw_if (stale q (si_result_id identity) = true) StaleResult;
  encoded ← (match prepared with
    | Some prepared => mret (pt_encoded prepared)
    | None => prepared ← resident_view q session (si_range identity) None (Some (si_result_id identity, si_total identity)); mret (pt_encoded prepared)
    end);
  assemble_turn_page (stored_base q (si_metadata identity) (si_result_id identity) (si_total identity)) encoded (q_cursor q) (q_budget q).
Definition resident_stored_turn_page (q : TurnResultRequest) (session : LoadedSession) (wait_cancelled : bool)
    (read_loop_record : result AgentError (option History.StoredLoopRecord)) (range : N * N) : B TurnResultPage :=
  found ← resident_identity q session wait_cancelled read_loop_record range;
  match found with inl page => mret page | inr (identity, prepared) => resident_page q session identity prepared end.
End page.

(** ** The request, [turn_result] *)

Context `{OutcomeViews} `{ChunkEncoding}.

Definition completion_outcome (outcome : option Results.CompletionOutcome) : option History.LoopOutcome :=
  (λ outcome, match outcome with
    | Results.OutCompleted => view_completed
    | Results.OutCancelled => view_cancelled CancelUnknown
    | Results.OutFailed => view_failed (lit "unavailable_details")
    | Results.OutUnknown => view_unknown
    end) <$> outcome.
Definition encoded_result (page : TurnResultPage) (max_bytes : N) : result AgentError TurnResultPage :=
  if decide (max_bytes < turn_page_len page) then Err InvalidArguments else Ok page.

(** Where [turn_result] goes on after what the session has of the turn. *)
Inductive Target :=
  | Answered (answer : result fault TurnResultPage)
  | FromCatalog (source : ResultSource) (uncertain : bool)
  | FromSession (session : LoadedSession) (range : N * N)
  | FromStore.
Definition look_up_after (q : TurnResultRequest) (session : LoadedSession) : Target :=
  if ld_turn_pending session
  then Answered (map_err Fails (
         _ ← ensure (is_Some (tq_load q)) MissingLoad;
         _ ← validate_cursor (q_cursor q) 0;
         encoded_result (empty_turn_page (tq_turn q) (tq_load q)) (q_budget q)))
  else
  let summary := ld_completed session in
  let uncertain := bool_decide (ld_uncertain_loop session = Some (tr_loop (tq_turn q))) in
  if uncertain || from_option (λ result, bool_decide (t_persistence result = Results.PersistenceFailed)) false summary
  then Answered (map_err Fails (
         _ ← ensure (is_Some (tq_load q)) MissingLoad;
         unavailable_turn_page (tq_turn q) (tq_load q) Results.Expired (t_outcome <$> summary) (Some Results.PersistenceFailed) uncertain (q_budget q)))
  else
  match ld_source session with
  | Some range => if decide (range.2 <= lenN (ld_history session)) then FromSession session range else FromStore
  | None => FromStore
  end.
Definition look_up (q : TurnResultRequest) (loaded : option LoadedSession) : Target :=
  match loaded with
  | None => if decide (is_Some (tq_load q)) then Answered (Err (Fails StaleLoad)) else FromStore
  | Some session =>
      match tq_load q with
      | Some load =>
          if decide (load ≠ ld_load session) then Answered (Err (Fails StaleLoad)) else
          match ld_entry session with
          | Some (entry, Some source) => FromCatalog source (Results.persistence_uncertain entry)
          | Some (entry, None) =>
              if decide (Results.availability entry = Results.Unavailable)
              then Answered (
                reason ← ok_or (Results.unavailable_reason entry) Panics;
                map_err Fails (unavailable_turn_page (tq_turn q) (Some load) reason
                  (if decide (Results.completion_kind entry = Results.InternalErrorKind) then None
                   else match t_outcome <$> ld_completed session with Some outcome => Some outcome | None => completion_outcome (Results.outcome_kind entry) end)
                  (Results.persistence entry) (Results.persistence_uncertain entry) (q_budget q)))
              else look_up_after q session
          | None => look_up_after q session
          end
      | None =>
          if decide (from_option (λ e : Results.CompletionEntry * option ResultSource, bool_decide (Results.persistence e.1 ≠ Some Results.Persisted)) false (ld_entry session) = true)
          then Answered (Err (Fails MissingLoad)) else look_up_after q session
      end
  end.
(** What a request meets. *)
Record Meeting := mkMeeting {
  me_cancelled : bool;
  me_wait_cancelled : bool;
  me_late : N → bool;
  me_loaded : option LoadedSession;
  me_record : result AgentError (option History.StoredLoopRecord)
}.
Definition fails {A} (m : stm N AgentError A) : stm N fault A := λ n, let '(n, r) := m n in (n, map_err Fails r).
Definition turn_result (m : Meeting) (q : TurnResultRequest) : stm N fault TurnResultPage :=
  let late := me_late m in
  _ ← lift (map_err Fails (turn_validate q));
  _ ← throw_if (me_cancelled m = true) (Fails QueryLimit);
  match look_up q (me_loaded m) with
  | Answered answer => lift answer
  | FromCatalog source uncertain => fails (retained_turn_page late q source uncertain)
  | FromSession session range => fails (resident_stored_turn_page late q session (me_wait_cancelled m) (me_record m) range)
  | FromStore =>
      record ← lift (map_err Fails (me_record m));
      match record with
      | None => lift (map_err Fails (unavailable_turn_page (tq_turn q) (tq_load q) Results.NotRetained None None false (q_budget q)))
      | Some record => fails (stored_turn_page late q record)
      end
  end.
End results.
End items.
