(* ===== verification/TurnFollow.v ===== *)
(** Following the cursors of the result of a turn.

    Whatever the pages are made from, the source in memory or the stored record, a client
    that goes on under the identity of the first page gets the texts of the items of that
    result, once and in order. *)

From S2P Require Import Prelude RustStr Errors ToolPage Pack PackSpec TurnPage.
From S2P Require History Results Usage DiffPage.
Open Scope N_scope.

Class TurnEncodingLaws `{TurnEncoding} `{ChunkEncoding} := {
  envelope_text item json : envelope_json item = Ok json → json ≠ [];
  hash_hex_digits input : length (hash_hex input) = 64%nat ∧ Forall (λ c, c ∈ lit "0123456789abcdef") (hash_hex input);
  turn_page_len_items base items next :
    tp_items base = [] → tp_next_cursor base = None → turn_page_len (with_chunks base items next) + 4 = turn_page_len base + packed items + cursor_len next
}.

(** ** The identity determines the items *)

Definition result_input (jsons : list str) (partial : str) : list N :=
  (RESULT_TAG ++ be_bytes (lenN jsons) ++ (jsons ≫= item_input)) ++ item_input partial.
(** Texts as Rust has them. *)
Definition rust_text (text : str) : Prop := forallb is_scalar text = true ∧ str_len text <= u64_max.
Definition rust_texts (jsons : list str) : Prop := Forall rust_text jsons ∧ lenN jsons <= u64_max.

Lemma be_bytes_inj n m x y : n <= u64_max → m <= u64_max → be_bytes n ++ x = be_bytes m ++ y → n = m ∧ x = y.
Proof.
  intros Hn Hm He. apply app_inj_1 in He as [He ->]; [|unfold be_bytes; by rewrite !length_rev, !u64_bytes_length].
  split; [|done]. apply u64_bytes_inj; [done..|]. unfold be_bytes in He. apply (f_equal (@rev N)) in He. by rewrite !rev_involutive in He.
Qed.
Lemma item_input_inj a b x y : rust_text a → rust_text b → item_input a ++ x = item_input b ++ y → a = b ∧ x = y.
Proof.
  intros [Ha Hal] [Hb Hbl]. unfold item_input. rewrite <- !app_assoc. intros [Hlen He]%be_bytes_inj; [|done..].
  rewrite <- !as_bytes_len in Hlen. apply app_inj_1 in He as [He ->]; [|unfold lenN in Hlen; lia]. split; [|done]. by apply DiffPage.as_bytes_inj.
Qed.
Lemma result_input_inj a b p q : rust_texts a → rust_texts b → result_input a p = result_input b q → a = b.
Proof.
  intros [Ha Hal] [Hb Hbl]. unfold result_input. rewrite <- !app_assoc. intros He%app_inv_head. apply be_bytes_inj in He as [Hlen He]; [|done..].
  revert b Hb Hbl Hlen He. clear Hal. induction Ha as [|x a Hx Ha IH]; intros [|y b] Hb Hbl Hlen He; rewrite ?lenN_cons in *; [done| | |];
    [change (lenN (@nil str)) with 0 in Hlen; lia|change (lenN (@nil str)) with 0 in Hlen; lia|].
  apply Forall_cons in Hb as [Hy Hb]. rewrite !bind_cons, <- !app_assoc in He. apply item_input_inj in He as [-> He]; [|done..]. f_equal. apply IH; [done|lia|lia|done].
Qed.

(** ** Windows *)

Definition pairs (item : N) (l : list str) : list (N * str) := imap (λ offset json, (item + N.of_nat offset, json)) l.
Lemma pairs_encoded item l : (Ok <$> pairs item l : list (result AgentError (N * str))) = encoded_from item l.
Proof.
  unfold pairs. revert item. induction l as [|json l IH]; intros item; [done|]. cbn [imap fmap list_fmap encoded_from]. f_equal; [by rewrite N.add_0_r|].
  rewrite <- IH. f_equal. apply imap_ext. intros i x _. cbn. f_equal. lia.
Qed.
Lemma pairs_snoc item l json : pairs item (l ++ [json]) = pairs item l ++ [(item + lenN l, json)].
Proof. unfold pairs. rewrite imap_app. cbn [imap]. by rewrite Nat.add_0_r. Qed.
(** The window a request asks for. *)
Definition stop_of (cursor : ReadCursor) (limit total : N) : N := N.min (saturating_add (cu_item cursor) limit) total.
Lemma stop_beyond cursor limit total : 1 <= limit → total <= u64_max → stop_of cursor limit total <= cu_item cursor → total <= cu_item cursor.
Proof. unfold stop_of, saturating_add, usize_max. lia. Qed.

Lemma window (jsons : list str) cursor limit total : lenN jsons = total → 1 <= limit → total <= u64_max →
  let l := take (N.to_nat (stop_of cursor limit total - cu_item cursor)) (drop (N.to_nat (cu_item cursor)) jsons) in
  l `prefix_of` drop (N.to_nat (cu_item cursor)) jsons ∧ (l = [] → drop (N.to_nat (cu_item cursor)) jsons = []).
Proof.
  intros Htotal Hlimit Hmax l. split; [apply prefix_take|]. intros Hl. apply (f_equal length) in Hl. unfold l in Hl. rewrite length_take, length_drop in Hl.
  apply drop_ge. destruct (decide (stop_of cursor limit total <= cu_item cursor)) as [Hend%stop_beyond|]; [|done|done|]; unfold lenN in *; cbn in Hl; lia.
Qed.

(** ** Preparing a record *)

Section prepare.
Context `{TurnEncodingLaws}.
Context (late : N → bool) (jsons : list str) (sources : list SourceItem) (Hsources : Forall2 (λ source json, envelope_json source = Ok json) sources jsons).
Context (cursor : ReadCursor) (stop max_bytes : N) (hash0 : list N).

Definition texts_len (l : list str) : N := foldr (λ json n, str_len json + n) 0 l.
(** What was prepared after the first [i] items. *)
Record prepared_to (i : nat) (p : Preparing) : Prop := {
  pr_hash : pp_hash p = Some (hash0 ++ (take i jsons ≫= item_input));
  pr_bytes : pp_source_bytes p = texts_len (take i jsons);
  pr_encoded : ∃ l, pp_encoded p = pairs (cu_item cursor) l ∧ l = take (length l) (drop (N.to_nat (cu_item cursor)) jsons) ∧
    (lenN l = N.min (N.of_nat i) stop - cu_item cursor ∨ max_bytes <= pp_prepared_bytes p) ∧ (l = [] → pp_prepared_bytes p = 0)
}.
(** The digest is within its bounds, and nobody interrupts it. *)
Definition undisturbed : Prop := (∀ n, late n = false) ∧ texts_len jsons <= MAX_HISTORY_SCAN_BYTES.

Lemma texts_len_snoc l json : texts_len (l ++ [json]) = texts_len l + str_len json.
Proof using Type. induction l as [|x l IH]; [cbn; lia|]. change (texts_len ((x :: l) ++ [json])) with (str_len x + texts_len (l ++ [json])). rewrite IH. cbn. fold (texts_len l). lia. Qed.
Lemma texts_len_take i : texts_len (take i jsons) <= texts_len jsons.
Proof using Type.
  rewrite <- (take_drop i jsons) at 2. generalize (take i jsons), (drop i jsons). intros a b. induction a as [|x a IH]; [cbn; lia|].
  change (texts_len ((x :: a) ++ b)) with (str_len x + texts_len (a ++ b)). change (texts_len (x :: a)) with (str_len x + texts_len a). lia.
Qed.

(** What is prepared with one more item, when [bytes] were digested. *)
Definition with_item (index : N) (json : str) (hash : list N) (bytes : N) (p : Preparing) : Preparing :=
  let hash := Some ((hash ++ be_bytes (str_len json)) ++ as_bytes json) in
  if decide (cu_item cursor <= index < stop ∧ pp_prepared_bytes p < max_bytes)
  then mkPreparing hash bytes (pp_prepared_bytes p + (str_len json - if decide (index = cu_item cursor) then cu_offset cursor else 0))
         (pp_encoded p ++ [(index, json)])
  else mkPreparing hash bytes (pp_prepared_bytes p) (pp_encoded p).
Lemma prepare_item_run index item json hash p n :
  envelope_json item = Ok json → pp_hash p = Some hash →
  prepare_item cursor stop max_bytes index item p n =
  (n, match checked_add (pp_source_bytes p) (str_len json) with
      | Some bytes => if decide (MAX_HISTORY_SCAN_BYTES < bytes) then Err QueryLimit else Ok (with_item index json hash bytes p)
      | None => Err QueryLimit
      end).
Proof using Type.
  intros Hj Hh. unfold prepare_item. unfold mbind, stm_bind, lift. rewrite Hj. cbv zeta. rewrite Hh.
  destruct (checked_add _ _) as [bytes|]; [|done]. cbn [ok_or]. rewrite throw_if_run. by destruct (decide (MAX_HISTORY_SCAN_BYTES < bytes)).
Qed.

Lemma prepare_item_spec i item json p n n' r :
  sources !! i = Some item → jsons !! i = Some json → prepared_to i p →
  prepare_item cursor stop max_bytes (N.of_nat i) item p n = (n', r) →
  match r with Ok p' => prepared_to (S i) p' | Err _ => ¬ undisturbed end.
Proof using Hsources.
  intros Hitem Hjson [Hh Hb (l & Hl & Hprefix & Hlen & Hnil)].
  assert (Hj : envelope_json item = Ok json) by by (eapply Forall2_lookup_lr in Hsources).
  assert (Htake : take (S i) jsons = take i jsons ++ [json]) by by apply take_S_r.
  rewrite (prepare_item_run _ _ _ _ _ _ Hj Hh), Hb.
  assert (Hsum : texts_len (take i jsons) + str_len json <= texts_len jsons) by (rewrite <- texts_len_snoc, <- Htake; apply texts_len_take).
  assert (Hscan : MAX_HISTORY_SCAN_BYTES <= usize_max) by by apply N.leb_le.
  destruct (checked_add _ _) as [bytes|] eqn:Hadd; [apply checked_add_Some in Hadd as [-> _]; destruct (decide _) as [Hbig|_]|]; intros [= <- <-].
  - intros [_ Hsmall]. lia.
  - unfold with_item. cbv zeta.
    assert (Hhash : (hash0 ++ (take i jsons ≫= item_input)) ++ be_bytes (str_len json) ++ as_bytes json = hash0 ++ (take (S i) jsons ≫= item_input)).
    { rewrite Htake, bind_app, <- app_assoc. f_equal. f_equal. cbn. by rewrite app_nil_r. }
    destruct (decide (_ ∧ _)) as [[Hrange Hroom]|Hout]; split; cbn [pp_hash pp_source_bytes pp_prepared_bytes pp_encoded].
    + rewrite <- Hhash. by rewrite <- !app_assoc.
    + by rewrite Htake, texts_len_snoc.
    + assert (Hexact : lenN l = N.of_nat i - cu_item cursor) by lia. exists (l ++ [json]).
      split; [rewrite pairs_snoc, Hl; do 3 f_equal; lia|]. split; [|split; [|by intros [_ ?]%app_nil]].
      * rewrite length_app. cbn [length]. rewrite Nat.add_1_r. symmetry. rewrite (take_S_r _ _ json), <- Hprefix; [done|].
        rewrite lookup_drop, <- Hjson. f_equal. unfold lenN in Hexact. lia.
      * left. rewrite lenN_app. change (lenN [json]) with 1. lia.
    + rewrite <- Hhash. by rewrite <- !app_assoc.
    + by rewrite Htake, texts_len_snoc.
    + exists l. split; [done|]. split; [done|]. split; [|done]. destruct Hlen as [Hlen|]; [|by right]. destruct (decide (max_bytes <= pp_prepared_bytes p)); [by right|left].
      rewrite Hlen. destruct (decide (cu_item cursor <= N.of_nat i)), (decide (N.of_nat i < stop)); lia.
  - intros [_ Hsmall]. assert (checked_add (texts_len (take i jsons)) (str_len json) = Some (texts_len (take i jsons) + str_len json)); [|congruence].
    apply checked_add_Some. split; [done|lia].
Qed.

Lemma prepare_loop_spec i p n n' r :
  prepared_to i p → (i <= length jsons)%nat →
  prepare_loop late cursor stop max_bytes (imap (λ o x, (N.of_nat (i + o), x)) (drop i sources)) p n = (n', r) →
  match r with Ok p' => prepared_to (length jsons) p' | Err _ => ¬ undisturbed end.
Proof using Hsources.
  remember (drop i sources) as rest eqn:Hrest. revert i p n Hrest. induction rest as [|item rest IH]; intros i p n Hrest Hp Hi.
  - cbn [imap prepare_loop]. intros [= <- <-]. symmetry in Hrest. apply (f_equal length) in Hrest. rewrite length_drop in Hrest. cbn in Hrest.
    pose proof (Forall2_length _ _ _ Hsources). replace (length jsons) with i by lia. exact Hp.
  - symmetry in Hrest. assert (Hitem : sources !! i = Some item) by (rewrite <- (Nat.add_0_r i), <- lookup_drop, Hrest; done).
    destruct (Forall2_lookup_l _ _ _ _ _ Hsources Hitem) as (json & Hjson & _). pose proof (lookup_lt_Some _ _ _ Hjson).
    cbn [imap prepare_loop]. rewrite Nat.add_0_r. unfold mbind at 1, stm_bind at 1, check at 1. destruct (late n) eqn:Hlate; [intros [= <- <-] [Hcalm _]; congruence|].
    rewrite decide_False by (rewrite (pr_hash _ _ Hp); by intros [? _]).
    intros [(e & Hrun & ->)|(n1 & p1 & Hrun & Hloop)]%stm_bind_inv; apply (prepare_item_spec i item json) in Hrun; try done.
    assert (Hrest' : rest = drop (S i) sources) by (rewrite <- Nat.add_1_r, <- drop_drop, Hrest; done).
    apply (IH (S i) p1 (n1) Hrest' Hrun ltac:(lia)). rewrite <- Hloop. f_equal. apply imap_ext. intros o x _. cbn. do 2 f_equal. lia.
Qed.
End prepare.

(** The texts of the items of a record. *)
Lemma encode_items_texts `{TurnEncoding} items jsons :
  encode_items items = Ok jsons → Forall2 (λ source json, envelope_json source = Ok json) (omap from_history items) jsons.
Proof.
  revert jsons. induction items as [|item items IH]; intros jsons; cbn [encode_items omap list_omap]; [intros [= <-]; constructor|].
  destruct (from_history item) as [source|]; [|apply IH]. intros (json & Hj & (rest & Hrest & [= <-])%bind_Ok)%bind_Ok. constructor; [done|by apply IH].
Qed.

Section view.
Context `{TurnEncodingLaws}.
Context (late : N → bool) (jsons : list str) (partial : str).

(** A prepared range starts where the cursor is, and its digest is that of the result. *)
Lemma prepare_turn_view_spec items interrupted cursor limit max_bytes n n' r :
  encode_items items = Ok jsons → interrupted_json interrupted = Ok partial → 1 <= limit → 1 <= max_bytes → lenN jsons <= u64_max →
  cu_item cursor <= lenN jsons → (cu_item cursor = lenN jsons → cu_offset cursor = 0) →
  prepare_turn_view late items interrupted cursor limit max_bytes None n = (n', r) →
  match r with
  | Ok prepared => pt_result_id prepared = result_id_of (result_input jsons partial) ∧ pt_total prepared = lenN jsons ∧
      ∃ l, pt_encoded prepared = pairs (cu_item cursor) l ∧ l `prefix_of` drop (N.to_nat (cu_item cursor)) jsons ∧ (l = [] → drop (N.to_nat (cu_item cursor)) jsons = [])
  | Err _ => lenN items <= MAX_HISTORY_SCAN_LINES → ¬ undisturbed late jsons
  end.
Proof using Type.
  intros Hitems Hpartial Hlimit Hmax Hlen Hcursor Hend. pose proof (encode_items_texts _ _ Hitems) as Hsources. pose proof (Forall2_length _ _ _ Hsources) as Hcount.
  unfold prepare_turn_view. set (sources := omap from_history items) in *. clearbody sources.
  assert (Htotal : lenN sources = lenN jsons) by (unfold lenN; by rewrite Hcount).
  unfold mbind at 1, stm_bind at 1, check at 1. destruct (late n) eqn:Hlate; [intros [= <- <-] _ [Hcalm _]; congruence|].
  unfold mbind at 1, stm_bind at 1. rewrite throw_if_run. destruct (decide (MAX_HISTORY_SCAN_LINES < lenN items)) as [Hmany|_]; [intros [= <- <-] Hfew; lia|].
  cbv zeta. cbn [from_option]. rewrite Htotal. unfold mbind at 1, stm_bind at 1, lift at 1. unfold validate_cursor. rewrite ensure_true by (intros [?|[? ?]]; [lia|auto]).
  change (N.to_nat 0) with 0%nat. rewrite drop_0. rewrite take_ge by (unfold enumerate; rewrite length_imap; unfold lenN in *; lia).
  fold (stop_of cursor limit (lenN jsons)).
  assert (Hstart : prepared_to jsons cursor (stop_of cursor limit (lenN jsons)) max_bytes (RESULT_TAG ++ be_bytes (lenN jsons)) 0
    (mkPreparing (Some (RESULT_TAG ++ be_bytes (lenN jsons))) 0 0 [])).
  { split; cbn; [by rewrite app_nil_r|done|]. exists []. split; [done|]. split; [done|]. split; [left; change (lenN (@nil str)) with 0; lia|done]. }
  intros [(e & Hrun & ->)|(n1 & p & Hrun & Hrest)]%stm_bind_inv;
    (apply (prepare_loop_spec late jsons sources Hsources cursor _ max_bytes (RESULT_TAG ++ be_bytes (lenN jsons)) 0%nat) in Hrun; [|exact Hstart|lia]).
  { done. }
  destruct Hrun as [Hhash _ (l & Hl & Hprefix & Hcover & Hnil)]. rewrite take_ge in Hhash by lia. rewrite Hhash in Hrest.
  unfold mbind, stm_bind, lift in Hrest. rewrite Hpartial in Hrest. unfold check in Hrest. cbn [mret stm_ret] in Hrest.
  destruct (late n1) eqn:Hlate'; injection Hrest as <- <-; [intros _ [Hcalm _]; congruence|]. cbn [pt_result_id pt_total pt_encoded].
  split; [unfold result_input; by rewrite <- app_assoc|]. split; [done|]. exists l. split; [done|]. split; [rewrite Hprefix; apply prefix_take|].
  intros Hno. rewrite Hno in Hcover. destruct Hcover as [Hcover|Hfull]; [|specialize (Hnil Hno); lia]. change (lenN (@nil str)) with 0 in Hcover.
  apply drop_ge. assert (Hs : stop_of cursor limit (lenN jsons) <= lenN jsons) by (unfold stop_of; lia). fold (lenN jsons) in Hcover.
  pose proof (stop_beyond cursor limit (lenN jsons) Hlimit Hlen ltac:(lia)). unfold lenN in *. lia.
Qed.
End view.

(** ** Preparing a range under a retained identity *)

Section cached.
Context `{TurnEncodingLaws}.
Context (late : N → bool) (cursor : ReadCursor) (stop max_bytes : N).

Lemma prepare_item_cached index item json p n :
  envelope_json item = Ok json → pp_hash p = None → cu_item cursor <= index < stop → pp_prepared_bytes p < max_bytes →
  ∃ bytes, prepare_item cursor stop max_bytes index item p n = (n, Ok (mkPreparing None (pp_source_bytes p) bytes (pp_encoded p ++ [(index, json)]))).
Proof using Type.
  intros Hj Hh Hindex Hroom. eexists. unfold prepare_item. unfold mbind, stm_bind, lift. rewrite Hj. cbv zeta. rewrite Hh. unfold mret, stm_ret. rewrite Hh.
  rewrite decide_True by done. done.
Qed.
Lemma prepare_cached_loop sources jsons l p n n' r :
  Forall2 (λ source json, envelope_json source = Ok json) sources jsons → pp_hash p = None → pp_encoded p = pairs (cu_item cursor) l →
  cu_item cursor + lenN l + lenN jsons <= N.max stop (cu_item cursor) → (l = [] → pp_prepared_bytes p = 0) → 1 <= max_bytes →
  prepare_loop late cursor stop max_bytes (imap (λ o x, (cu_item cursor + lenN l + N.of_nat o, x)) sources) p n = (n', r) →
  match r with
  | Ok p' => pp_hash p' = None ∧ ∃ l', pp_encoded p' = pairs (cu_item cursor) (l ++ l') ∧ l' `prefix_of` jsons ∧ (l ++ l' = [] → jsons = [])
  | Err _ => ∃ n, late n = true
  end.
Proof using Type.
  intros Hs. revert l p n. induction Hs as [|source json sources jsons Hj Hs IH]; intros l p n Hh Hl Hrange Hnil Hmax.
  - intros [= <- <-]. split; [done|]. exists []. by rewrite app_nil_r.
  - cbn [imap prepare_loop]. rewrite N.add_0_r. rewrite lenN_cons in Hrange.
    unfold mbind at 1, stm_bind at 1, check at 1. destruct (late n) eqn:Hlate; [intros [= <- <-]; by exists n|].
    destruct (decide (_ ∧ _)) as [[_ Hfull]|Hroom].
    + intros [= <- <-]. split; [done|]. exists []. rewrite app_nil_r. split; [done|]. split; [apply prefix_nil|]. intros ->. specialize (Hnil eq_refl). lia.
    + destruct (prepare_item_cached (cu_item cursor + lenN l) source json p (n + 1) Hj Hh) as [bytes Hitem]; [lia|destruct (decide (max_bytes <= pp_prepared_bytes p)); [by destruct Hroom|lia]|].
      unfold mbind at 1, stm_bind at 1. rewrite Hitem. intros Hrun.
      assert (Hloop : imap ((λ o x, (cu_item cursor + lenN l + N.of_nat o, x)) ∘ S) sources = imap (λ o x, (cu_item cursor + lenN (l ++ [json]) + N.of_nat o, x)) sources).
      { apply imap_ext. intros o x _. cbn. f_equal. rewrite lenN_app. change (lenN [json]) with 1. lia. }
      rewrite Hloop in Hrun. apply IH in Hrun; cbn [pp_hash pp_encoded pp_prepared_bytes]; [|done|by rewrite pairs_snoc, Hl| |by intros [_ ?]%app_nil|done].
      * destruct r as [p'|e]; [|done]. destruct Hrun as (Hh' & l' & Hl' & Hprefix & _). split; [done|]. exists (json :: l'). rewrite <- app_assoc in Hl'. split; [done|].
        split; [by apply prefix_cons|by intros [_ ?]%app_nil].
      * rewrite lenN_app. change (lenN [json]) with 1. lia.
Qed.

Lemma prepare_cached_spec jsons items cursor' limit id n n' r :
  encode_items items = Ok jsons → cursor' = cursor → stop = stop_of cursor limit (lenN jsons) → 1 <= limit → 1 <= max_bytes → lenN jsons <= u64_max →
  cu_item cursor <= lenN jsons → (cu_item cursor = lenN jsons → cu_offset cursor = 0) →
  prepare_turn_view late items None cursor' limit max_bytes (Some (id, lenN jsons)) n = (n', r) →
  match r with
  | Ok prepared => ∃ l, pt_encoded prepared = pairs (cu_item cursor) l ∧ l `prefix_of` drop (N.to_nat (cu_item cursor)) jsons ∧ (l = [] → drop (N.to_nat (cu_item cursor)) jsons = [])
  | Err _ => lenN items <= MAX_HISTORY_SCAN_LINES → ∃ n, late n = true
  end.
Proof using Type.
  intros Hitems -> Hstop Hlimit Hmax Hlen Hcursor Hend. pose proof (encode_items_texts _ _ Hitems) as Hsources. unfold prepare_turn_view. set (sources := omap from_history items) in *. clearbody sources.
  unfold mbind at 1, stm_bind at 1, check at 1. destruct (late n) eqn:Hlate; [intros [= <- <-] _; by exists n|].
  unfold mbind at 1, stm_bind at 1. rewrite throw_if_run. destruct (decide (MAX_HISTORY_SCAN_LINES < lenN items)) as [Hmany|_]; [intros [= <- <-] Hfew; lia|].
  cbv zeta. cbn [from_option snd fst]. unfold mbind at 1, stm_bind at 1, lift at 1. unfold validate_cursor. rewrite ensure_true by (intros [?|[? ?]]; [lia|auto]).
  fold (stop_of cursor limit (lenN jsons)). rewrite <- Hstop. set (first := N.to_nat (cu_item cursor)). set (count := N.to_nat (stop - cu_item cursor)).
  assert (Hentries : take count (drop first (enumerate sources)) = imap (λ o x, (cu_item cursor + lenN (@nil str) + N.of_nat o, x)) (take count (drop first sources))).
  { apply list_eq. intros i. unfold enumerate. rewrite list_lookup_imap. destruct (decide (i < count)%nat).
    - rewrite !lookup_take_lt, !lookup_drop, list_lookup_imap by done. destruct (sources !! (first + i)%nat); [|done]. cbn. do 2 f_equal. change (lenN (@nil str)) with 0. unfold first. lia.
    - rewrite !lookup_take_ge by lia. done. }
  rewrite Hentries. assert (Hwindow : Forall2 (λ source json, envelope_json source = Ok json) (take count (drop first sources)) (take count (drop first jsons))) by by apply Forall2_take, Forall2_drop.
  assert (Hrange : lenN (take count (drop first jsons)) <= stop - cu_item cursor) by (unfold lenN; rewrite length_take; unfold count; lia).
  destruct (window jsons cursor limit _ eq_refl Hlimit Hlen) as [Hprefix Hnil]. rewrite <- Hstop in Hprefix, Hnil. fold first count in Hprefix, Hnil.
  intros [(e & Hrun & ->)|(n1 & p & Hrun & Hrest)]%stm_bind_inv;
    (apply (prepare_cached_loop _ _ [] _ _ _ _ Hwindow) in Hrun; cbn [pp_hash pp_encoded pp_prepared_bytes]; [|done|done|change (lenN (@nil str)) with 0; lia|done|done]).
  { done. }
  destruct Hrun as (Hhash & l & Hl & Hpre & Hempty). rewrite Hhash in Hrest. cbn [from_option fst] in Hrest.
  unfold mbind, stm_bind in Hrest. cbn [mret stm_ret] in Hrest. unfold check in Hrest. destruct (late n1) eqn:Hlate'; injection Hrest as <- <-; [intros _; by exists n1|].
  cbn [pt_encoded]. rewrite app_nil_l in Hl, Hempty. exists l. split; [done|]. split; [by etrans|]. intros Hl0. by apply Hnil, Hempty.
Qed.
End cached.

(** ** One answer *)

Section answer.
Context `{TurnEncoding} `{!OutcomeViews} `{ChunkEncoding}.

(** What [turn_result] finds of a turn: its source, its items with or without an identity,
    or neither. *)
Inductive Found :=
  | FoundRetained (source : ResultSource) (uncertain : bool)
  | FoundItems (items : list History.HistoryItem) (metadata : ReadTurnSummary)
  | FoundIdentity (items : list History.HistoryItem) (identity : StoredIdentity)
  | FoundNothing.
Definition found_identity (session : LoadedSession) (identity : StoredIdentity) : Found :=
  match slice_items (si_range identity) (ld_history session) with Some items => FoundIdentity items identity | None => FoundNothing end.
(** What a session that has the items of the turn finds. *)
Definition found_resident (m : Meeting) (q : TurnResultRequest) (session : LoadedSession) (range : N * N) : Found :=
  match ld_identity session, ld_locked_identity session with
  | Some identity, _ | None, Some identity => found_identity session identity
  | None, None =>
      match me_record m, slice_items range (ld_history session) with
      | Ok (Some record), Some items => if decide (History.loop_id record = tr_loop (tq_turn q)) then FoundItems items (summary_of record) else FoundNothing
      | _, _ => FoundNothing
      end
  end.
Definition found (m : Meeting) (q : TurnResultRequest) : Found :=
  match look_up q (me_loaded m) with
  | Answered _ => FoundNothing
  | FromCatalog source uncertain => FoundRetained source uncertain
  | FromSession session range => found_resident m q session range
  | FromStore => match me_record m with Ok (Some record) => FoundItems (History.items record) (summary_of record) | _ => FoundNothing end
  end.

Definition identity (jsons : list str) (partial : str) : str := result_id_of (result_input jsons partial).
(** What is found has the items [jsons] and the interrupted copy [partial]; an identity is
    that of its items. *)
Definition holds (found : Found) (jsons : list str) (partial : str) : Prop :=
  rust_texts jsons ∧ Forall (λ json, json ≠ []) jsons ∧
  match found with
  | FoundRetained source _ => rs_items source = jsons ∧ interrupted_json (rs_interrupted source) = Ok partial ∧
      prepared_source jsons (rs_interrupted source) (rs_metadata source) = Ok source
  | FoundItems items metadata => encode_items items = Ok jsons ∧ interrupted_json (ts_interrupted metadata) = Ok partial
  | FoundIdentity items id => encode_items items = Ok jsons ∧ interrupted_json (ts_interrupted (si_metadata id)) = Ok partial ∧
      si_result_id id = identity jsons partial ∧ si_total id = lenN jsons
  | FoundNothing => False
  end.
Definition base_of (found : Found) (q : TurnResultRequest) (jsons : list str) (partial : str) : TurnResultPage :=
  match found with
  | FoundRetained source uncertain => live_base q source uncertain
  | FoundItems _ metadata => stored_base q metadata (identity jsons partial) (lenN jsons)
  | FoundIdentity _ id => stored_base q (si_metadata id) (identity jsons partial) (lenN jsons)
  | FoundNothing => empty_turn_page (tq_turn q) (tq_load q)
  end.
(** The rest of a page. *)
Definition rest_len (base : TurnResultPage) (_ : list N) (next : option ReadCursor) : N := turn_page_len base + cursor_len next - 4.
(** The result is there, no time runs out, the items are within what a query may scan, and
    a page has room. *)
Record ready (late : N → bool) (found : Found) (q : TurnResultRequest) (jsons : list str) (partial : str) : Prop := {
  re_holds : holds found jsons partial;
  re_undisturbed : undisturbed late jsons;
  re_few : match found with FoundItems items _ | FoundIdentity items _ => lenN items <= MAX_HISTORY_SCAN_LINES | _ => True end;
  re_roomy : roomy (rest_len (base_of found q jsons partial)) (q_budget q) jsons
}.
(** Nobody cancels, and the result is ready. *)
Definition calm (m : Meeting) (q : TurnResultRequest) (jsons : list str) (partial : str) : Prop :=
  me_cancelled m = false ∧ me_wait_cancelled m = false ∧ ready (me_late m) (found m q) q jsons partial.

(** What is found is a result or nothing, and what is unavailable has a reason. *)
Definition well_formed (m : Meeting) (q : TurnResultRequest) : Prop :=
  (found m q = FoundNothing ∨ ∃ jsons partial, holds (found m q) jsons partial) ∧
  ∀ session entry, me_loaded m = Some session → ld_entry session = Some (entry, None) → Results.availability entry = Results.Unavailable →
    is_Some (Results.unavailable_reason entry).

(** An answer without a page of the result. *)
Definition told (answer : result fault TurnResultPage) : Prop :=
  match answer with
  | Ok page => (tp_availability page = TurnUnavailable ∨ tp_availability page = TurnPending) ∧ tp_items page = [] ∧ tp_next_cursor page = None
  | Err (Fails _) => True
  | Err Panics => False
  end.
(** A page of the result from [start] on. *)
Record page_of (jsons : list str) (id : str) (max_bytes : N) (start : ReadCursor) (page : TurnResultPage) : Prop := {
  pg_id : tp_result_id page = Some id;
  pg_total : tp_total page = lenN jsons;
  pg_availability : tp_availability page = TurnLive ∨ tp_availability page = TurnStored;
  pg_size : turn_page_len page <= max_bytes;
  pg_chunks : Forall (chunk_good jsons) (tp_items page);
  pg_left : left_from jsons start = (tp_items page ≫= chunk_stream) ++ from_option (left_from jsons) [] (tp_next_cursor page);
  pg_next : from_option (λ cursor, good_at jsons cursor ∧ cu_item cursor < lenN jsons ∧ tp_items page ≠ []) True (tp_next_cursor page)
}.
End answer.

Section one.
Context `{TurnEncodingLaws} `{!ChunkEncodingLaws} `{!OutcomeViews}.

Lemma assembled late jsons base l start max_bytes n n' r id :
  Forall (λ json, json ≠ []) jsons → tp_items base = [] → tp_next_cursor base = None → tp_total base = lenN jsons → tp_result_id base = Some id →
  tp_availability base = TurnLive ∨ tp_availability base = TurnStored →
  good_at jsons start → l `prefix_of` drop (N.to_nat (cu_item start)) jsons → (l = [] → drop (N.to_nat (cu_item start)) jsons = []) →
  assemble_turn_page late base (pairs (cu_item start) l) start max_bytes n = (n', r) →
  match r with
  | Ok page => page_of jsons id max_bytes start page
  | Err e => interrupted_by late e ∨ ¬ roomy (rest_len base) max_bytes jsons
  end.
Proof using All.
  intros Hjsons Hitems Hnext Htotal Hid Hav Hgood Hprefix Hnil. unfold assemble_turn_page. rewrite pairs_encoded, Htotal.
  intros [(e & Hpack & ->)|(n1 & [chunks next] & Hpack & [= <- <-])]%stm_bind_inv;
    apply (pack_items_spec late _ (rest_len base) (λ _ _ _, eq_refl) max_bytes jsons Hjsons) in Hpack; try done.
  - destruct Hpack as [|[_ ?]]; [by left|by right].
  - destruct Hpack as [Hchunks Hfits Hleft Hn]. cbn [fst snd]. split; cbn [with_chunks tp_result_id tp_total tp_availability tp_items tp_next_cursor]; try done.
    pose proof (turn_page_len_items base chunks next Hitems Hnext). pose proof (cursor_len_min next). unfold rest_len in Hfits. lia.
Qed.
Lemma good_bounds jsons cursor : good_at jsons cursor → cu_item cursor <= lenN jsons ∧ (cu_item cursor = lenN jsons → cu_offset cursor = 0).
Proof using Type.
  unfold good_at. destruct (drop _ jsons) as [|json rest] eqn:Hd; [by intros ->|]. intros _. destruct (item_below _ _ _ _ Hd) as [Hlt _]. lia.
Qed.
Lemma turn_validated q : turn_validate q = Ok tt → 1 <= tq_limit q ∧ 1 <= q_budget q.
Proof using Type.
  unfold turn_validate. intros (u1 & Hlimit & (u2 & _ & (u3 & _ & Hmax)%bind_Ok)%bind_Ok)%bind_Ok. apply ensure_Ok in Hlimit. split; [lia|].
  unfold q_budget, validate_max_bytes in *. destruct (tq_max_bytes q) as [max|]; [|done]. cbn in *. destruct (decide (max = 0)) as [->|]; [done|]. lia.
Qed.

Lemma holds_same found jsons partial jsons' partial' : holds found jsons partial → holds found jsons' partial' → jsons' = jsons ∧ partial' = partial.
Proof using Type.
  intros (_ & _ & Hf) (_ & _ & Hf'). destruct found as [source uncertain|items metadata|items id|]; [| | |done].
  - destruct Hf as (Hi & Hp & _), Hf' as (Hi' & Hp' & _). split; congruence.
  - destruct Hf as (Hi & Hp), Hf' as (Hi' & Hp'). split; congruence.
  - destruct Hf as (Hi & Hp & _), Hf' as (Hi' & Hp' & _). split; congruence.
Qed.
Lemma prepared_is jsons interrupted metadata partial source :
  interrupted_json interrupted = Ok partial → prepared_source jsons interrupted metadata = Ok source → source = mkResultSource jsons interrupted (identity jsons partial) metadata.
Proof using Type. unfold prepared_source. intros Hp (p & Hp' & [= <-])%bind_Ok. rewrite Hp in Hp'. injection Hp' as <-. done. Qed.

(** What an answer that finds [found] gives, if that is the result the client goes on with. *)
Definition gives (late : N → bool) (found : Found) (q : TurnResultRequest) (jsons : list str) (partial : str) (r : result AgentError TurnResultPage) : Prop :=
  match r with
  | Ok page => page_of jsons (identity jsons partial) (q_budget q) (q_cursor q) page
  | Err _ => ¬ (ready late found q jsons partial ∧ stale q (identity jsons partial) = false)
  end.
Definition pinned (found : Found) (q : TurnResultRequest) (jsons : list str) (partial : str) : Prop :=
  ∀ jsons' partial', holds found jsons' partial' → stale q (identity jsons' partial') = false → jsons' = jsons ∧ identity jsons' partial' = identity jsons partial.

(** A client that goes on with another result is told so. *)
Lemma stale_gives late found q jsons partial jsons' partial' e :
  holds found jsons' partial' → stale q (identity jsons' partial') = true → gives late found q jsons partial (Err e).
Proof using Type. intros Hholds Hstale [Hready Hs]. destruct (holds_same _ _ _ _ _ (re_holds _ _ _ _ _ Hready) Hholds) as [-> ->]. congruence. Qed.
Lemma assembled_gives late found q jsons partial l n n' r :
  Forall (λ json, json ≠ []) jsons →
  (let base := base_of found q jsons partial in
   tp_items base = [] ∧ tp_next_cursor base = None ∧ tp_total base = lenN jsons ∧ tp_result_id base = Some (identity jsons partial) ∧
   (tp_availability base = TurnLive ∨ tp_availability base = TurnStored)) →
  good_at jsons (q_cursor q) → l `prefix_of` drop (N.to_nat (cu_item (q_cursor q))) jsons → (l = [] → drop (N.to_nat (cu_item (q_cursor q))) jsons = []) →
  assemble_turn_page late (base_of found q jsons partial) (pairs (cu_item (q_cursor q)) l) (q_cursor q) (q_budget q) n = (n', r) →
  gives late found q jsons partial r.
Proof using All.
  intros Hjsons (Hitems & Hnext & Htotal & Hid & Hav) Hgood Hprefix Hnil Hrun.
  apply (assembled late jsons _ _ _ _ _ _ _ (identity jsons partial)) in Hrun; [|done..]. destruct r as [page|e]; [done|]. intros [Hready _].
  destruct Hrun as [[_ [k Hk]]|Hrun]; [|by apply Hrun, (re_roomy _ _ _ _ _ Hready)]. destruct (re_undisturbed _ _ _ _ _ Hready) as [Hcalm _]. congruence.
Qed.

Lemma retained_gives late source uncertain q jsons partial n n' r :
  turn_validate q = Ok tt → (∃ jsons' partial', holds (FoundRetained source uncertain) jsons' partial') → pinned (FoundRetained source uncertain) q jsons partial →
  good_at jsons (q_cursor q) → retained_turn_page late q source uncertain n = (n', r) → gives late (FoundRetained source uncertain) q jsons partial r.
Proof using All.
  intros [Hlimit _]%turn_validated (jsons' & partial' & Hholds) Hpin Hgood. assert (H' := Hholds). destruct H' as ((Hrust & Htotal) & Hjsons & Hitems & Hpartial & Hsource).
  pose proof (prepared_is _ _ _ _ _ Hpartial Hsource) as Hid. apply (f_equal rs_result_id) in Hid. cbn [rs_result_id] in Hid.
  unfold retained_turn_page. cbv zeta. rewrite Hid. unfold mbind at 1, stm_bind at 1. rewrite throw_if_run. destruct (stale q (identity jsons' partial')) eqn:Hstale.
  { rewrite decide_True by done. intros [= <- <-]. by eapply stale_gives. }
  destruct (Hpin _ _ Hholds Hstale) as [-> Hsame]. rewrite decide_False by done. destruct (good_bounds _ _ Hgood) as [Hle Hend]. rewrite Hitems.
  unfold mbind at 1, stm_bind at 1, lift at 1. unfold validate_cursor. rewrite ensure_true by (intros [?|[? ?]]; [lia|auto]).
  fold (stop_of (q_cursor q) (tq_limit q) (lenN jsons)). destruct (window jsons (q_cursor q) (tq_limit q) _ eq_refl Hlimit Htotal) as [Hprefix Hnil].
  intros Hrun. apply (assembled_gives late (FoundRetained source uncertain) q jsons partial) in Hrun; [done|done| |done..].
  cbn. rewrite Hitems, Hid, Hsame. split_and!; try done. by left.
Qed.

(** A cursor that was accepted for the items. *)
Lemma prepared_cursor late items interrupted cursor limit max_bytes identity n n' p :
  prepare_turn_view late items interrupted cursor limit max_bytes identity n = (n', Ok p) →
  validate_cursor cursor (from_option snd (lenN (omap from_history items)) identity) = Ok tt.
Proof using Type.
  unfold prepare_turn_view. intros [(e & _ & [=])|(n1 & u1 & _ & Hrest)]%stm_bind_inv. apply stm_bind_inv in Hrest as [(e & _ & [=])|(n2 & u2 & _ & Hrest)].
  cbv zeta in Hrest. apply stm_bind_inv in Hrest as [(e & _ & [=])|(n3 & [] & Hcursor & _)]. by injection Hcursor.
Qed.
Lemma cursor_bounds cursor total : validate_cursor cursor total = Ok tt → cu_item cursor <= total ∧ (cu_item cursor = total → cu_offset cursor = 0).
Proof using Type.
  unfold validate_cursor. intros H'%ensure_Ok. split; [lia|]. intros Heq. destruct (decide (cu_offset cursor = 0)); [done|]. destruct H'. by right.
Qed.
(** The prepared items of a record, whoever asks for them. *)
Lemma prepared_gives late items metadata q jsons partial jsons' partial' n n' r :
  turn_validate q = Ok tt → holds (FoundItems items metadata) jsons' partial' → pinned (FoundItems items metadata) q jsons partial → good_at jsons (q_cursor q) →
  prepare_turn_view late items (ts_interrupted metadata) (q_cursor q) (tq_limit q) (q_budget q) None n = (n', r) →
  match r with
  | Ok prepared => pt_result_id prepared = identity jsons' partial' ∧
      (stale q (identity jsons' partial') = false → jsons' = jsons ∧ identity jsons' partial' = identity jsons partial ∧ pt_total prepared = lenN jsons ∧
        ∃ l, pt_encoded prepared = pairs (cu_item (q_cursor q)) l ∧ l `prefix_of` drop (N.to_nat (cu_item (q_cursor q))) jsons ∧
          (l = [] → drop (N.to_nat (cu_item (q_cursor q))) jsons = []))
  | Err e => gives late (FoundItems items metadata) q jsons partial (Err e)
  end.
Proof using All.
  intros [Hlimit Hmax]%turn_validated Hholds Hpin Hgood Hrun. assert (H' := Hholds). destruct H' as ((Hrust & Htotal) & Hjsons & Hitems & Hpartial).
  assert (Hcount : lenN (omap from_history items) = lenN jsons') by (unfold lenN; by rewrite (Forall2_length _ _ _ (encode_items_texts _ _ Hitems))).
  destruct r as [p|e].
  - assert (Hcursor := prepared_cursor _ _ _ _ _ _ _ _ _ _ Hrun). cbn [from_option] in Hcursor. rewrite Hcount in Hcursor. apply cursor_bounds in Hcursor as [Hle Hend].
    apply (prepare_turn_view_spec late jsons' partial') in Hrun; [|done..]. destruct Hrun as (Hid & Hpt & Hl). split; [done|]. intros Hstale.
    destruct (Hpin _ _ Hholds Hstale) as [-> Hsame]. done.
  - intros [Hready _]. destruct (holds_same _ _ _ _ _ (re_holds _ _ _ _ _ Hready) Hholds) as [-> ->]. destruct (good_bounds _ _ Hgood) as [Hle Hend].
    apply (prepare_turn_view_spec late jsons partial) in Hrun; [|done..]. apply Hrun; [exact (re_few _ _ _ _ _ Hready)|exact (re_undisturbed _ _ _ _ _ Hready)].
Qed.
Lemma stored_gives late record q jsons partial n n' r :
  let found := FoundItems (History.items record) (summary_of record) in
  turn_validate q = Ok tt → (∃ jsons' partial', holds found jsons' partial') → pinned found q jsons partial → good_at jsons (q_cursor q) →
  stored_turn_page late q record n = (n', r) → gives late found q jsons partial r.
Proof using All.
  intros found Hvalid (jsons' & partial' & Hholds) Hpin Hgood. unfold stored_turn_page. cbv zeta. intros [(e & Hprepare & ->)|(n1 & p & Hprepare & Hrest)]%stm_bind_inv;
    apply (prepared_gives late _ (summary_of record) q jsons partial jsons' partial') in Hprepare; try done.
  destruct Hprepare as [Hid Hrange]. rewrite Hid in Hrest. unfold mbind at 1, stm_bind at 1 in Hrest. rewrite throw_if_run in Hrest.
  destruct (stale q (identity jsons' partial')) eqn:Hstale; [rewrite decide_True in Hrest by done; injection Hrest as <- <-; by eapply stale_gives|].
  destruct (Hrange eq_refl) as (-> & Hsame & Hpt & l & Hl & Hprefix & Hnil). rewrite decide_False, Hsame, Hpt, Hl in Hrest by done.
  apply (assembled_gives late found q jsons partial) in Hrest; try done; [apply Hholds|]. cbn. split_and!; try done. by right.
Qed.

Lemma identity_gives late session id q jsons partial n n' r :
  let found := found_identity session id in
  turn_validate q = Ok tt → (∃ jsons' partial', holds found jsons' partial') → pinned found q jsons partial → good_at jsons (q_cursor q) →
  resident_page late q session id None n = (n', r) → gives late found q jsons partial r.
Proof using All.
  intros found Hvalid (jsons' & partial' & Hholds) Hpin Hgood. destruct (turn_validated _ Hvalid) as [Hlimit Hmax].
  unfold found, found_identity in *. destruct (slice_items _ _) as [items|] eqn:Hslice; [|by destruct Hholds as (_ & _ & [])].
  assert (H' := Hholds). destruct H' as ((Hrust & Htotal) & Hjsons & Hitems & Hpartial & Hid & Hcount).
  unfold resident_page. unfold mbind at 1, stm_bind at 1. rewrite throw_if_run, Hid. destruct (stale q (identity jsons' partial')) eqn:Hstale.
  { rewrite decide_True by done. intros [= <- <-]. by eapply stale_gives. }
  destruct (Hpin _ _ Hholds Hstale) as [-> Hsame]. rewrite decide_False by done. destruct (good_bounds _ _ Hgood) as [Hle Hend].
  intros Hrun. assert (Hview : ∀ m, (prepared ← resident_view late q session (si_range id) None (Some (identity jsons partial', si_total id)); mret (pt_encoded prepared)) m =
    (prepared ← prepare_turn_view late items None (q_cursor q) (tq_limit q) (q_budget q) (Some (identity jsons partial', lenN jsons)); mret (pt_encoded prepared)) m).
  { intros m. unfold resident_view. rewrite Hslice, Hcount. done. }
  apply stm_bind_inv in Hrun as [(e & Hrun & ->)|(n1 & encoded & Hrun & Hrest)]; rewrite Hview in Hrun.
  - apply stm_bind_inv in Hrun as [(e' & Hrun & [= <-])|(n2 & p & _ & [=])].
    apply (prepare_cached_spec late (q_cursor q) (stop_of (q_cursor q) (tq_limit q) (lenN jsons)) (q_budget q) jsons items (q_cursor q) (tq_limit q)) in Hrun; try done. intros [Hready _].
    destruct Hrun as [m Hm]; [exact (re_few _ _ _ _ _ Hready)|]. destruct (re_undisturbed _ _ _ _ _ Hready) as [Hcalm _]. congruence.
  - apply stm_bind_inv in Hrun as [(e' & _ & [=])|(n2 & p & Hrun & [= <- <-])].
    apply (prepare_cached_spec late (q_cursor q) (stop_of (q_cursor q) (tq_limit q) (lenN jsons)) (q_budget q) jsons items (q_cursor q) (tq_limit q)) in Hrun; try done. destruct Hrun as (l & Hl & Hprefix & Hnil).
    rewrite Hl, Hcount, Hsame in Hrest. apply (assembled_gives late (FoundIdentity items id) q jsons partial) in Hrest; try done. cbn. split_and!; try done. by right.
Qed.


Lemma unavailable_told turn load reason outcome persistence uncertain max_bytes :
  told (map_err Fails (unavailable_turn_page turn load reason outcome persistence uncertain max_bytes)).
Proof using Type. unfold unavailable_turn_page. destruct (decide _); [done|]. cbn. by split; [left|]. Qed.

(** An answer gives a page, or tells; it gives one if [P]. *)
Definition answers (P : Prop) (q : TurnResultRequest) (jsons : list str) (partial : str) (r : result fault TurnResultPage) : Prop :=
  (told r ∧ ¬ P) ∨ ∃ page, r = Ok page ∧ page_of jsons (identity jsons partial) (q_budget q) (q_cursor q) page.
Lemma gives_answers late f q jsons partial r (P : Prop) :
  gives late f q jsons partial r → (P → ready late f q jsons partial ∧ stale q (identity jsons partial) = false) → answers P q jsons partial (map_err Fails r).
Proof using Type. intros Hgives HP. destruct r as [page|e]; [right; by exists page|left]. split; [done|]. intros Hp. by apply Hgives, HP. Qed.
Lemma tells (P : Prop) q jsons partial r : told r → ¬ P → answers P q jsons partial r.
Proof using Type. by left. Qed.
Lemma nothing_ready late q jsons partial : ¬ ready late FoundNothing q jsons partial.
Proof using Type. by intros [(_ & _ & []) _ _ _]. Qed.

(** A page under a retained identity, whatever it says of the history. *)
Lemma resident_page_answers m q session id jsons partial n n' r (P : Prop) :
  let f := found_identity session id in
  turn_validate q = Ok tt → f = FoundNothing ∨ (∃ jsons' partial', holds f jsons' partial') → pinned f q jsons partial → good_at jsons (q_cursor q) →
  (P → ready (me_late m) f q jsons partial ∧ stale q (identity jsons partial) = false) →
  resident_page (me_late m) q session id None n = (n', r) → answers P q jsons partial (map_err Fails r).
Proof using All.
  intros f Hvalid [Hnothing|Hholds] Hpin Hgood HP Hrun; [|by eapply gives_answers; [by eapply identity_gives|]].
  assert (Herr : ∃ e, r = Err e).
  { unfold f, found_identity in Hnothing. destruct (slice_items _ _) eqn:Hslice; [done|]. unfold resident_page in Hrun. unfold mbind at 1, stm_bind at 1 in Hrun.
    rewrite throw_if_run in Hrun. destruct (decide _); [injection Hrun as <- <-; by eexists|].
    assert (Hview : ∀ interrupted id' k, resident_view (me_late m) q session (si_range id) interrupted id' k = (k, Err Internal)) by (intros; unfold resident_view, mbind, stm_bind, lift; by rewrite Hslice).
    unfold mbind, stm_bind in Hrun. rewrite Hview in Hrun. injection Hrun as <- <-. by eexists. }
  destruct Herr as [e ->]. apply tells; [done|]. intros [Hready _]%HP. unfold f in *. rewrite Hnothing in Hready. by eapply nothing_ready.
Qed.
Lemma made_page_answers m q session range record jsons partial n n' r (P : Prop) :
  let f := match slice_items range (ld_history session) with
           | Some items => if decide (History.loop_id record = tr_loop (tq_turn q)) then FoundItems items (summary_of record) else FoundNothing
           | None => FoundNothing
           end in
  turn_validate q = Ok tt → f = FoundNothing ∨ (∃ jsons' partial', holds f jsons' partial') → pinned f q jsons partial → good_at jsons (q_cursor q) →
  (P → ready (me_late m) f q jsons partial ∧ stale q (identity jsons partial) = false) →
  (_ ← throw_if (History.loop_id record ≠ tr_loop (tq_turn q)) InvalidState;
   first ← resident_view (me_late m) q session range (ts_interrupted (summary_of record)) None;
   _ ← check (me_late m);
   resident_page (me_late m) q session (mkIdentity range (pt_result_id first) (pt_total first) (summary_of record)) (Some first)) n = (n', r) →
  answers P q jsons partial (map_err Fails r).
Proof using All.
  intros f Hvalid Hwell Hpin Hgood HP. unfold mbind at 1, stm_bind at 1. rewrite throw_if_run. unfold f in *. clear f.
  destruct (decide (History.loop_id record = _)) as [Hloop|Hloop].
  2: { rewrite decide_True by done. intros [= <- <-]. apply tells; [done|]. intros [Hready _]%HP. destruct (slice_items _ _); by eapply nothing_ready. }
  rewrite decide_False by tauto. unfold resident_view. destruct (slice_items range (ld_history session)) as [items|] eqn:Hslice.
  2: { intros [= <- <-]. apply tells; [done|]. intros [Hready _]%HP. by eapply nothing_ready. }
  destruct Hwell as [?|(jsons' & partial' & Hholds)]; [done|]. unfold mbind at 2, stm_bind at 2, lift. cbn [ok_or].
  intros [(e & Hprepare & ->)|(n1 & p & Hprepare & Hrest)]%stm_bind_inv;
    apply (prepared_gives (me_late m) items (summary_of record) q jsons partial jsons' partial') in Hprepare; try done; [by eapply gives_answers|].
  destruct Hprepare as [Hid Hrange]. unfold check at 1 in Hrest. destruct (me_late m n1) eqn:Hlate.
  { injection Hrest as <- <-. apply tells; [done|]. intros [Hready _]%HP. destruct (re_undisturbed _ _ _ _ _ Hready). congruence. }
  eapply gives_answers; [|exact HP]. unfold resident_page in Hrest. cbn [si_result_id si_total si_metadata] in Hrest. rewrite Hid in Hrest.
  unfold mbind at 1, stm_bind at 1 in Hrest. rewrite throw_if_run in Hrest.
  destruct (stale q (identity jsons' partial')) eqn:Hstale; [rewrite decide_True in Hrest by done; injection Hrest as <- <-; by eapply stale_gives|].
  destruct (Hrange eq_refl) as (-> & Hsame & Hpt & l & Hl & Hprefix & Hnil). rewrite decide_False, Hsame, Hpt in Hrest by done.
  unfold mbind, stm_bind, mret, stm_ret in Hrest. rewrite Hl in Hrest.
  apply (assembled_gives (me_late m) (FoundItems items (summary_of record)) q jsons partial) in Hrest; try done; [apply Hholds|]. cbn. split_and!; try done. by right.
Qed.
Lemma resident_answers m q session range jsons partial n n' r (P : Prop) :
  let f := found_resident m q session range in
  turn_validate q = Ok tt → f = FoundNothing ∨ (∃ jsons' partial', holds f jsons' partial') → pinned f q jsons partial → good_at jsons (q_cursor q) →
  (P → me_wait_cancelled m = false ∧ ready (me_late m) f q jsons partial ∧ stale q (identity jsons partial) = false) →
  resident_stored_turn_page (me_late m) q session (me_wait_cancelled m) (me_record m) range n = (n', r) → answers P q jsons partial (map_err Fails r).
Proof using All.
  intros f Hvalid Hwell Hpin Hgood HP. unfold resident_stored_turn_page, resident_identity, f, found_resident in *. clear f.
  destruct (ld_identity session) as [id|]; [by eapply resident_page_answers, HP|].
  destruct (me_wait_cancelled m); [intros [= <- <-]; apply tells; [done|by intros [? _]%HP]|].
  unfold mbind, stm_bind. rewrite throw_if_run, decide_False by done. unfold check at 1. destruct (me_late m n) eqn:Hlate.
  { intros [= <- <-]. apply tells; [done|]. intros (_ & Hready & _)%HP. destruct (re_undisturbed _ _ _ _ _ Hready). congruence. }
  destruct (ld_locked_identity session) as [id|]; [by eapply resident_page_answers, HP|]. unfold lift at 1.
  destruct (me_record m) as [[record|]|e] eqn:Hrecord.
  - intros Hrun. apply (made_page_answers m q session range record jsons partial (n + 1) n'); try done; [by apply HP|]. rewrite <- Hrun. clear.
    unfold mbind, stm_bind. rewrite !throw_if_run. destruct (decide (History.loop_id record ≠ tr_loop (tq_turn q))); [done|]. destruct (resident_view _ _ _ _ _ _ _) as [n1 [first|e]]; [|done].
    by destruct (check _ _) as [n2 [u|e]].
  - intros Hrun. assert (Hr : r = unavailable_turn_page (tq_turn q) (tq_load q) Results.NotRetained None None false (q_budget q)).
    { unfold lift in Hrun. destruct (unavailable_turn_page _ _ _ _ _ _ _); by injection Hrun as <- <-. }
    rewrite Hr. apply tells; [apply unavailable_told|]. intros (_ & Hready & _)%HP. by eapply nothing_ready.
  - intros [= <- <-]. apply tells; [done|]. intros (_ & Hready & _)%HP. by eapply nothing_ready.
Qed.

(** What is answered without a page of the result. *)
Lemma after_told q session answer : look_up_after q session = Answered answer → told answer.
Proof using Type.
  unfold look_up_after. destruct (ld_turn_pending session).
  { intros [= <-]. destruct (ensure _ _) as [[]|e]; [|done]. cbn [mbind result_bind]. destruct (validate_cursor _ _) as [[]|e]; [|done]. cbn [mbind result_bind].
    unfold encoded_result. destruct (decide _); [done|]. cbn. by split; [right|]. }
  cbv zeta. destruct (_ || _).
  - intros [= <-]. destruct (ensure _ _) as [[]|e]; [|done]. apply unavailable_told.
  - destruct (ld_source session); [|done]. by destruct (decide _).
Qed.
Lemma look_up_told q loaded answer :
  (∀ session entry, loaded = Some session → ld_entry session = Some (entry, None) → Results.availability entry = Results.Unavailable →
    is_Some (Results.unavailable_reason entry)) →
  look_up q loaded = Answered answer → told answer.
Proof using Type.
  intros Hreason. unfold look_up. destruct loaded as [session|]; [|destruct (decide _); [by intros [= <-]|done]].
  destruct (tq_load q) as [load|]; [|destruct (decide _); [by intros [= <-]|apply after_told]].
  destruct (decide _); [by intros [= <-]|]. destruct (ld_entry session) as [[entry [source|]]|] eqn:Hentry; [done| |apply after_told].
  destruct (decide _) as [Hun|]; [|apply after_told]. destruct (Hreason _ _ eq_refl Hentry Hun) as [reason Hr]. rewrite Hr. intros [= <-]. cbn [ok_or mbind result_bind].
  apply unavailable_told.
Qed.

Lemma turn_result_answers m q jsons partial n n' r :
  turn_validate q = Ok tt → well_formed m q → pinned (found m q) q jsons partial → good_at jsons (q_cursor q) →
  turn_result m q n = (n', r) → answers (calm m q jsons partial ∧ stale q (identity jsons partial) = false) q jsons partial r.
Proof using All.
  intros Hvalid [Hwell Hreason] Hpin Hgood. unfold turn_result. unfold mbind at 1, stm_bind at 1, lift at 1. rewrite Hvalid. cbn [map_err].
  unfold mbind at 1, stm_bind at 1. rewrite throw_if_run. destruct (me_cancelled m) eqn:Hcancelled.
  { rewrite decide_True by done. intros [= <- <-]. apply tells; [done|]. intros [[? _] _]. congruence. }
  rewrite decide_False by done. assert (Hcalm : calm m q jsons partial ∧ stale q (identity jsons partial) = false →
    me_wait_cancelled m = false ∧ ready (me_late m) (found m q) q jsons partial ∧ stale q (identity jsons partial) = false) by (unfold calm; tauto).
  revert Hcalm. generalize (calm m q jsons partial ∧ stale q (identity jsons partial) = false). intros P HP. unfold found in *.
  destruct (look_up q (me_loaded m)) as [answer|source uncertain|session range|] eqn:Hlook.
  - intros [= <- <-]. apply tells; [by eapply look_up_told|]. intros (_ & Hready & _)%HP. by eapply nothing_ready.
  - unfold fails. destruct (retained_turn_page _ _ _ _ _) as [n1 r1] eqn:Hrun. intros [= <- <-]. destruct Hwell as [?|Hwell]; [done|].
    eapply gives_answers; [by eapply retained_gives|by apply HP].
  - unfold fails. destruct (resident_stored_turn_page _ _ _ _ _ _ _) as [n1 r1] eqn:Hrun. intros [= <- <-]. by eapply resident_answers.
  - unfold mbind, stm_bind, lift. destruct (me_record m) as [[record|]|e]; cbn [map_err].
    + unfold fails. destruct (stored_turn_page _ _ _ _) as [n1 r1] eqn:Hrun. intros [= <- <-]. destruct Hwell as [?|Hwell]; [done|].
      eapply gives_answers; [by eapply stored_gives|by apply HP].
    + intros [= <- <-]. apply tells; [apply unavailable_told|]. intros (_ & Hready & _)%HP. by eapply nothing_ready.
    + intros [= <- <-]. apply tells; [done|]. intros (_ & Hready & _)%HP. by eapply nothing_ready.
Qed.
End one.

(** ** From page to page *)

Section chain.
Context `{TurnEncodingLaws} `{!ChunkEncodingLaws} `{!OutcomeViews}.

Lemma identity_valid jsons partial :
  match strip_prefix (lit "r1:") (identity jsons partial) with
  | Some digest => bool_decide (str_len digest = 64) && forallb lower_hex_digit (as_bytes digest)
  | None => false
  end = true.
Proof using All.
  unfold identity, result_id_of. rewrite strip_prefix_app. destruct (hash_hex_digits (result_input jsons partial)) as [Hlen Hd].
  assert (Hboth : str_len (hash_hex (result_input jsons partial)) = lenN (hash_hex (result_input jsons partial)) ∧
    forallb lower_hex_digit (as_bytes (hash_hex (result_input jsons partial))) = true).
  { clear Hlen. induction Hd as [|c s Hc _ [IHl IHb]]; [done|]. rewrite str_len_cons, lenN_cons, IHl, as_bytes_cons.
    change (lit "0123456789abcdef") with [48;49;50;51;52;53;54;55;56;57;97;98;99;100;101;102] in Hc. rewrite !elem_of_cons, elem_of_nil in Hc.
    assert (Hdigit : len_utf8 c = 1 ∧ forallb lower_hex_digit (encode_char c) = true) by by repeat destruct Hc as [->|Hc].
    destruct Hdigit as [-> Hx]. split; [lia|]. by rewrite forallb_app, Hx, IHb. }
  destruct Hboth as [Hl ->]. rewrite andb_true_r. apply bool_decide_eq_true. rewrite Hl. unfold lenN. by rewrite Hlen.
Qed.

(** The request for the page after [page]. *)
Definition next_request (q : TurnResultRequest) (page : TurnResultPage) (next : ReadCursor) : TurnResultRequest :=
  mkTurnRequest (tq_turn q) (tq_load q) (tp_result_id page) (Some next) (tq_limit q) (tq_max_bytes q).
Fixpoint turn_follow (fuel : nat) (meetings : nat → Meeting) (k : nat) (q : TurnResultRequest) : list (result fault TurnResultPage) :=
  let answer := (turn_result (meetings k) q 0).2 in
  answer ::
  match fuel, answer with
  | S fuel, Ok page => match tp_next_cursor page with Some next => turn_follow fuel meetings (S k) (next_request q page next) | None => [] end
  | _, _ => []
  end.

(** Requests for the same turn, for pages of the same size. *)
Definition same_turn (q q' : TurnResultRequest) : Prop :=
  q' = mkTurnRequest (tq_turn q) (tq_load q) (tq_result_id q') (tq_cursor q') (tq_limit q) (tq_max_bytes q).
Lemma found_same m q q' : same_turn q q' → found m q' = found m q.
Proof using Type.
  unfold same_turn. generalize (tq_result_id q'), (tq_cursor q'). intros id cursor ->. unfold found, look_up, look_up_after, found_resident. cbn [tq_turn tq_load].
  by repeat case_match; simplify_eq.
Qed.
Lemma well_formed_same m q q' : same_turn q q' → well_formed m q → well_formed m q'.
Proof using Type. intros Hsame [Hf Hr]. split; [|done]. by rewrite (found_same _ _ _ Hsame). Qed.
Lemma calm_same m q q' jsons partial : same_turn q q' → calm m q jsons partial → calm m q' jsons partial.
Proof using Type.
  intros Hsame (Hc & Hw & [Hh Hu Hf Hr]). split; [done|]. split; [done|]. rewrite (found_same _ _ _ Hsame). split; [done|done|done|].
  assert (Hq : q_budget q' = q_budget q ∧ base_of (found m q) q' jsons partial = base_of (found m q) q jsons partial) by (rewrite Hsame; by destruct (found m q)).
  by destruct Hq as [-> ->].
Qed.
Lemma next_same q q' page next : same_turn q q' → same_turn q (next_request q' page next).
Proof using Type. intros Hsame. unfold next_request. by rewrite Hsame. Qed.
Lemma turn_next_valid q jsons partial max_bytes start page next :
  turn_validate q = Ok tt → page_of jsons (identity jsons partial) max_bytes start page → turn_validate (next_request q page next) = Ok tt.
Proof using All.
  intros Hv Hpage. unfold turn_validate in *. cbn [next_request tq_limit tq_cursor tq_result_id tq_max_bytes]. rewrite (pg_id _ _ _ _ _ Hpage).
  apply bind_Ok in Hv as ([] & Hlimit & Hv). apply bind_Ok in Hv as ([] & _ & Hv). apply bind_Ok in Hv as ([] & _ & Hv).
  apply bind_Ok. exists tt. split; [done|]. apply bind_Ok. exists tt. split; [apply ensure_true; right; right; by eexists|].
  apply bind_Ok. exists tt. split; [|done]. apply ensure_true. cbn [from_option]. apply identity_valid.
Qed.

(** What a page of the result says. *)
Record page_good (jsons : list str) (id : str) (max_bytes : N) (page : TurnResultPage) : Prop := {
  good_id : tp_result_id page = Some id;
  good_total : tp_total page = lenN jsons;
  good_availability : tp_availability page = TurnLive ∨ tp_availability page = TurnStored;
  good_size : turn_page_len page <= max_bytes;
  good_chunks : Forall (chunk_good jsons) (tp_items page)
}.
Definition page_stream (page : TurnResultPage) : list (N * char) := tp_items page ≫= chunk_stream.

Section pages.
Context (meetings : nat → Meeting) (q0 : TurnResultRequest) (jsons : list str) (partial : str).
Context (Hwell : ∀ k, well_formed (meetings k) q0) (Hjsons : Forall (λ json, json ≠ []) jsons) (Hrust : rust_texts jsons).
(** No other result that is met has the digest of this one. *)
Context (Hhash : ∀ k jsons' partial', holds (found (meetings k) q0) jsons' partial' →
  hash_hex (result_input jsons' partial') = hash_hex (result_input jsons partial) → result_input jsons' partial' = result_input jsons partial).
Abbreviation id := (identity jsons partial).

Lemma pinned_by k q : same_turn q0 q → tq_result_id q = Some id → pinned (found (meetings k) q) q jsons partial.
Proof using Hhash Hrust.
  intros Hsame Hid jsons' partial' Hholds Hstale. rewrite (found_same _ _ _ Hsame) in Hholds. unfold stale in Hstale. rewrite Hid in Hstale. cbn in Hstale.
  apply bool_decide_eq_false in Hstale. assert (Heq : id = identity jsons' partial') by (destruct (decide (id = identity jsons' partial')); [done|by destruct Hstale]).
  split; [|done]. assert (Hinput : result_input jsons' partial' = result_input jsons partial) by (apply (Hhash k); [done|]; unfold identity, result_id_of in Heq; by apply app_inv_head in Heq).
  apply result_input_inj in Hinput; [done|by apply Hholds|done].
Qed.
Lemma page_forward start page next :
  page_of jsons id (q_budget q0) start page → tp_next_cursor page = Some next →
  good_at jsons next ∧ left_from jsons next ≠ [] ∧ page_stream page ≠ [] ∧ left_from jsons start = page_stream page ++ left_from jsons next.
Proof using Type.
  intros Hpage Hnext. pose proof (pg_next _ _ _ _ _ Hpage) as Hn. pose proof (pg_left _ _ _ _ _ Hpage) as Hleft. rewrite Hnext in Hn, Hleft. destruct Hn as (Hgood & Hlt & Hitems).
  split; [done|]. split; [by apply left_nonempty|]. split; [|done]. unfold page_stream. pose proof (pg_chunks _ _ _ _ _ Hpage) as Hchunks.
  destruct Hchunks as [|c cs Hc _]; [done|]. destruct Hc as (a & b & _ & Hne & _). rewrite bind_cons. unfold chunk_stream, tagged. by destruct (ck_data c).
Qed.

Lemma told_last fuel k q : told (turn_result (meetings k) q 0).2 → turn_follow fuel meetings k q = [(turn_result (meetings k) q 0).2].
Proof using Type. intros Ht. destruct fuel; [done|]. cbn [turn_follow]. destruct (turn_result _ _ _).2 as [page|e]; [by destruct Ht as (_ & _ & ->)|done]. Qed.

Lemma turn_pages fuel k q :
  same_turn q0 q → turn_validate q = Ok tt → good_at jsons (q_cursor q) → pinned (found (meetings k) q) q jsons partial → (length (left_from jsons (q_cursor q)) <= fuel)%nat →
  ∃ pages tail rest, turn_follow fuel meetings k q = (Ok <$> pages) ++ tail ∧ left_from jsons (q_cursor q) = (pages ≫= page_stream) ++ rest ∧
    Forall (page_good jsons id (q_budget q0)) pages ∧ (tail = [] ∧ rest = [] ∨ ∃ answer, tail = [answer] ∧ told answer) ∧
    ((∀ i, calm (meetings i) q0 jsons partial) → stale q id = false → tail = []).
Proof using All.
  revert k q. induction fuel as [|fuel IH]; intros k q Hsame Hvalid Hgood Hpin Hfuel.
  all: destruct (turn_result (meetings k) q 0) as [n r] eqn:Hrun; pose proof (f_equal snd Hrun) as Hanswer; cbn [snd] in Hanswer;
    destruct (turn_result_answers _ _ _ _ _ _ _ Hvalid (well_formed_same _ _ _ Hsame (Hwell k)) Hpin Hgood Hrun) as [[Htold Hcalm]|(page & -> & Hpage)].
  1,3: exists [], [r], (left_from jsons (q_cursor q)); split; [|split; [done|split; [apply Forall_nil_2|split; [right; by eexists|]]]];
    [rewrite <- Hanswer; apply told_last; by rewrite Hanswer|intros Hall Hs; destruct Hcalm; split; [by eapply calm_same|done]].
  all: cbn [turn_follow]; rewrite Hanswer. all: assert (Hbudget : q_budget q = q_budget q0) by (unfold q_budget; by rewrite Hsame).
  all: rewrite Hbudget in Hpage; assert (Hg : page_good jsons id (q_budget q0) page) by (destruct Hpage; by split).
  all: pose proof (pg_left _ _ _ _ _ Hpage) as Hleft; fold (page_stream page) in Hleft.
  all: destruct (tp_next_cursor page) as [next|] eqn:Hnext; [destruct (page_forward _ _ _ Hpage Hnext) as (Hgood' & Hmore & Hsome & _)|].
  2,4: exists [page], [], []; split; [done|]; split; [rewrite Hleft; cbn; by rewrite !app_nil_r|]; split; [by constructor|]; split; [by left|done].
  - exfalso. destruct (left_from jsons (q_cursor q)); [|cbn in Hfuel; lia]. symmetry in Hleft. by apply app_nil in Hleft as [? _].
  - destruct (IH (S k) (next_request q page next)) as (pages & tail & rest & Hfollow & Hrest & Hpages & Htail & Hcalm).
    + by apply next_same.
    + by eapply turn_next_valid.
    + done.
    + apply pinned_by; [by apply next_same|apply (pg_id _ _ _ _ _ Hpage)].
    + change (q_cursor (next_request q page next)) with next. apply (f_equal length) in Hleft. rewrite length_app in Hleft. cbn [from_option] in Hleft.
      destruct (page_stream page); [done|]. cbn [length] in Hleft. lia.
    + exists (page :: pages), tail, rest. rewrite Hfollow, fmap_cons, bind_cons. split; [done|]. split; [|split; [by constructor|split; [done|]]].
      * rewrite Hleft. cbn [from_option]. change (q_cursor (next_request q page next)) with next in Hrest. by rewrite Hrest, app_assoc.
      * intros Hall _. apply Hcalm; [done|]. unfold stale. cbn [next_request tq_result_id]. rewrite (pg_id _ _ _ _ _ Hpage). cbn. apply bool_decide_eq_false. tauto.
Qed.
End pages.
End chain.

(** C39 C0: a client that reads the result of a turn, each page under the identity of the one
    before and from the cursor it gives, gets the texts of its items once, in order and
    character for character, whether the pages come from the source in memory, from the
    items of the session or from the stored record: either up to the end, or up to an
    answer that gives no page of the result and says so; and up to the end if nothing
    disturbs the reads. Every page keeps to its budget, goes by the same identity, and says
    of each chunk which part of which item it is. *)
Theorem turn_followed `{TurnEncodingLaws} `{!ChunkEncodingLaws} `{!OutcomeViews} (meetings : nat → Meeting) (fuel : nat) (q : TurnResultRequest)
    (jsons : list str) (partial : str)
    (Hvalid : turn_validate q = Ok tt)
    (Hstart : q_cursor q = cursor_start)
    (Hfirst : holds (found (meetings 0%nat) q) jsons partial)
    (Hwell : ∀ k, well_formed (meetings k) q)
    (Hhash : ∀ k jsons' partial', holds (found (meetings k) q) jsons' partial' →
      hash_hex (result_input jsons' partial') = hash_hex (result_input jsons partial) → result_input jsons' partial' = result_input jsons partial)
    (Hfuel : (length (item_stream 0 jsons) <= fuel)%nat) :
  ∃ pages tail rest,
    turn_follow fuel meetings 0 q = (Ok <$> pages) ++ tail ∧
    item_stream 0 jsons = (pages ≫= page_stream) ++ rest ∧
    Forall (page_good jsons (identity jsons partial) (q_budget q)) pages ∧
    (tail = [] ∧ rest = [] ∨ ∃ answer, tail = [answer] ∧ told answer) ∧
    ((∀ k, calm (meetings k) q jsons partial) → tq_result_id q = None → tail = []).
Proof.
  destruct Hfirst as (Hrust & Hjsons & Hf). assert (Hleft : left_from jsons (q_cursor q) = item_stream 0 jsons).
  { rewrite Hstart. unfold left_from, cursor_start. cbn [cu_item cu_offset]. change (N.to_nat 0) with 0%nat. rewrite drop_0. destruct jsons as [|json rest]; [done|]. by rewrite rest_of_0. }
  destruct (turn_pages meetings q jsons partial Hwell Hjsons Hrust Hhash fuel 0 q) as (pages & tail & rest & Hfollow & Hrest & Hpages & Htail & Hcalm).
  - by destruct q.
  - done.
  - rewrite Hstart. unfold good_at. destruct Hjsons as [|json rest Hne _]; [done|]. exists [], json. done.
  - intros jsons' partial' Hholds _. destruct (holds_same _ jsons partial jsons' partial' ltac:(done) Hholds) as [-> ->]. done.
  - by rewrite Hleft.
  - exists pages, tail, rest. rewrite Hleft in Hrest. repeat (split; [done|]). intros Hall Hnone. apply Hcalm; [done|]. unfold stale. by rewrite Hnone.
Qed.

(** ** A small turn *)

Module TurnSample.
#[local] Instance values : History.HistoryValues := {|
  History.UserInput := str; History.CallContent := unit; History.ResultContent := unit; History.SummaryContent := unit;
  History.AssistantFields := unit; History.ProviderReplay := unit; History.ReasoningContent := option str * option str;
  History.r_text := fst; History.r_summary := snd; History.reasoning_new t s := Some (t, s);
  History.validate_history_replay _ _ := true;
  History.LoopOutcome := N; History.InterruptedRequest := str; History.ConfigRevision := unit
|}.
#[local] Instance chunks : ChunkEncoding := {|
  chunk_len c := 10 + json_escaped_len (ck_data c);
  cursor_len next := match next with Some _ => 20 | None => 4 end
|}.
#[local] Instance chunk_laws : ChunkEncodingLaws.
Proof. split; [intros c; cbn; lia|by intros [next|]]. Defined.
#[local] Instance encoding : TurnEncoding := {|
  envelope_json item := Ok (match item with
    | SourceUser _ input => lit "user:" ++ input
    | SourceAssistant _ parts => lit "assistant:" ++ (parts ≫= λ part, match part with PartText text => text | _ => [] end)
    | _ => lit "other"
    end);
  interrupted_json interrupted := Ok (default (lit "null") interrupted);
  hash_hex bytes := replicate 64 (48 + lenN bytes mod 10);
  turn_page_len page := 100 + packed (tp_items page) + cursor_len (tp_next_cursor page)
|}.
#[local] Instance encoding_laws : TurnEncodingLaws.
Proof.
  split.
  - intros [] json [= <-]; discriminate.
  - intros input. split; [apply length_replicate|]. apply Forall_forall. intros c Hc. apply elem_of_replicate in Hc as [-> _].
    pose proof (N.mod_lt (lenN input) 10 ltac:(done)) as Hlt. revert Hlt. generalize (lenN input `mod` 10). intros d Hd.
    change (lit "0123456789abcdef") with [48;49;50;51;52;53;54;55;56;57;97;98;99;100;101;102]. rewrite !elem_of_cons. lia.
  - intros base items next Hitems Hnext. cbn. rewrite Hitems, Hnext. change (packed []) with 0. lia.
Defined.
#[local] Instance outcomes : OutcomeViews := {| view_unknown := 0; view_completed := 1; view_cancelled _ := 2; view_failed _ := 3 |}.

(** A question and its answer; what the model was thinking is not shown. *)
Definition history : list History.HistoryItem :=
  [History.User 7 (lit "why?");
   History.Assistant (History.mkAssistant None [inr (None, None)] tt);
   History.Assistant (History.mkAssistant None [inl (inl (lit "because of the rain"))] tt)].
Definition jsons : list str := [lit "user:why?"; lit "assistant:because of the rain"].
Definition usage : Usage.Usage := Usage.mkUsage None None None None None None.
Definition record : History.StoredLoopRecord := History.mkRecord 7 1 history usage 2 0 tt (lit "now") None None.
Definition source : ResultSource :=
  mkResultSource jsons None (identity jsons (lit "null")) (mkTurnResult (mkTurnRef 1 7) 1 usage 2 0 tt Results.Persisted).
Definition entry : Results.CompletionEntry :=
  Results.mkCompletion 1 7 None Results.Reported (Some Results.OutCompleted) (Some Results.Persisted) false Results.Live None None.
Definition retained_identity : StoredIdentity := mkIdentity (2, 5) (identity jsons (lit "null")) 2 (summary_of record).
(** The history of the session has another turn before this one. *)
Definition session (with_source : bool) (id : option StoredIdentity) : LoadedSession :=
  mkLoaded (lit "load-1") (if with_source then Some (entry, Some source) else None) false None None (take 2 history ++ history) (Some (2, 5)) id None.
(** The source is there for the first page; then it is evicted, and the identity of the
    turn is made, and is retained. *)
Definition meetings (k : nat) : Meeting :=
  mkMeeting false false (λ _, false)
    (Some (match k with 0%nat => session true None | 1%nat => session false None | _ => session false (Some retained_identity) end)) (Ok (Some record)).
Definition request : TurnResultRequest := mkTurnRequest (mkTurnRef 1 7) (Some (lit "load-1")) None None 10 (Some 142).

Definition shown (answer : result fault TurnResultPage) : option (TurnResultAvailability * list (N * N * str * bool) * option (N * N)) :=
  match answer with
  | Ok page => Some (tp_availability page, (λ c, (ck_index c, ck_offset c, ck_data c, ck_complete c)) <$> tp_items page,
      (λ cursor, (cu_item cursor, cu_offset cursor)) <$> tp_next_cursor page)
  | Err _ => None
  end.
Example sample_turn_pages :
  shown <$> turn_follow 40 meetings 0 request =
  [Some (TurnLive, [(0, 0, lit "user:why?", true)], Some (1, 0));
   Some (TurnStored, [(1, 0, lit "assistant:be", false)], Some (1, 12));
   Some (TurnStored, [(1, 12, lit "cause of the rain", true)], None)].
Proof. vm_compute. reflexivity. Qed.
(** The record of the turn is gone when the client goes on. *)
Example sample_turn_gone :
  (λ answer, match answer with Ok page => Ok (lenN (tp_items page)) | Err e => Err e end)
    <$> turn_follow 40 (λ k, if decide (k = 0%nat) then meetings 0 else mkMeeting false false (λ _, false) (Some (session false None)) (Ok None)) 0 request =
  [Ok 1; Ok 0].
Proof. vm_compute. reflexivity. Qed.

Lemma sample_holds k : holds (found (meetings k) request) jsons (lit "null").
Proof.
  assert (Hrust : rust_texts jsons).
  { split; [|apply N.leb_le; vm_compute; reflexivity]. unfold jsons. repeat constructor; apply N.leb_le; vm_compute; reflexivity. }
  split; [exact Hrust|]. split; [unfold jsons; repeat constructor; discriminate|]. destruct k as [|[|k]].
  - split_and!; reflexivity.
  - split; vm_compute; reflexivity.
  - split_and!; vm_compute; reflexivity.
Qed.
Lemma turn_followed_witness :
  length (item_stream 0 jsons) = 38%nat ∧
  ∃ pages tail rest,
    turn_follow 38 meetings 0 request = (Ok <$> pages) ++ tail ∧
    item_stream 0 jsons = (pages ≫= page_stream) ++ rest ∧
    Forall (page_good jsons (identity jsons (lit "null")) (q_budget request)) pages ∧
    (tail = [] ∧ rest = [] ∨ ∃ answer, tail = [answer] ∧ told answer) ∧
    ((∀ k, calm (meetings k) request jsons (lit "null")) → tq_result_id request = None → tail = []).
Proof.
  split; [vm_compute; reflexivity|]. apply (turn_followed meetings 38 request jsons (lit "null")).
  - vm_compute. reflexivity.
  - vm_compute. reflexivity.
  - apply sample_holds.
  - intros k. split; [right; exists jsons, (lit "null"); apply sample_holds|]. intros s e [= <-] He Hun. exfalso. by destruct k as [|[|k]].
  - intros k jsons' partial' Hholds _. destruct (holds_same _ _ _ _ _ (sample_holds k) Hholds) as [-> ->]. reflexivity.
  - apply Nat.leb_le. vm_compute. reflexivity.
Defined.
End TurnSample.
